(* ===== verification/_CoqProject ===== *)
-Q . S2P
Prelude.v
KeyEncoder.v
KvStore.v
Ordered.v
Heap.v
FloatArith.v
Calendar.v
Stdio.v
FloatText.v
DateTime.v
DateTimeFacts.v
ExprValue.v
ExprValueFacts.v
TableKey.v
TableKeyFacts.v
TableRecord.v
TableRecordFacts.v
Tso.v
TsoCluster.v
TsoFacts.v
AutoIncr.v
IndexTermMap.v
RaftLog.v
RaftLogFacts.v
RaftLogExamples.v
LruCache.v
ReverseList.v
BoolExecutor.v
BoolExecutorFacts.v
BoolNodes.v
BoolQuery.v
ReverseParser.v
ReverseIndex.v
ReverseFirstFacts.v
ReverseIndexFacts.v
ReverseMergeFacts.v
ReverseMergeFunc.v
ReverseInsertFacts.v
Tokenizer.v
TokenizerFacts.v
ReverseSearch.v
ReverseSearchFacts.v
ReverseTheorems.v
StringFn.v
StringFnFacts.v
TextFn.v
TextFnFacts.v
DateFn.v
DateFnFacts.v
FnExamples.v
Sorter.v
SorterFacts.v
MetaState.v
MetaCatalog.v
MetaFamily.v
MetaCatalogFacts.v
MetaSnapshotFacts.v
MetaPrivilegeFacts.v
MetaTheorems.v
FloatExact.v
Hll.v
HllEncodings.v
HllFacts.v
HllOps.v
HllTheorems.v
TDigest.v
TDigestFacts.v
MemRow.v
Agg.v
AggNode.v
AggAcc.v
AggTheorems.v
AggExamples.v
Operators.v
Predicate.v
LikeFacts.v
PredicateFacts.v
Statistics.v
SketchFacts.v
HistogramFacts.v
