(* ===== verification/Prelude.v ===== *)
(** * BaikalDB: a verification development

    BaikalDB is a distributed SQL database.  A front end plans and executes
    SQL over rows of typed values; stores keep the rows in RocksDB, one raft
    group per region of the key space, and compute partial results for the
    front end; a meta server, itself replicated by raft, keeps the schema and
    hands out identifiers and timestamps.  This development models the values of
    the executor and the functions on them, their encoding in keys, records and
    indexes, full-text indexes, sorting, aggregation and its sketches, predicates, statistics, and, on
    the replicated side, the raft log in RocksDB, the timestamp oracle, the
    auto-increment counters and the catalog of the meta server.  Definitions
    are executable translations of the C++ functions, with the names of the
    sources where they are free; paths below are relative to [src/].

    ** Conventions

    A C++ integer is the integer it denotes, reduced at its width wherever the
    source computes ([wrap], [swrap] and the notations [u8] ... [i64]).  Bytes
    are integers below 256 and byte strings are lists of them.  A read outside a
    buffer, a null pointer and a conversion without a result are undefined in
    C++ and [None] here; error codes and exceptions are values.  State is passed
    explicitly; a state machine whose events interleave is a step relation.  A
    [float] or [double] is its IEEE bit pattern.  The byte order of the host is
    a parameter ([Host]).  Code outside the repository is an interface with the
    laws its documentation gives, and each group of theorems under such laws has
    an instance that satisfies them: RocksDB ([RocksDb]), braft, protocol buffer
    messages ([Reflection], [MessageFactory], [MetaCodec]), CRoaring
    ([RoaringLib], [RoaringOps]), the hash functions ([Murmur]), [std::sort] and
    [qsort] ([StdSort], [Qsort]), [libm] ([Libm]), time zones ([Zone]), the
    dates and the splitting of boost, regular expressions ([Re2]), and the order in which hash tables are
    visited ([HashOrder], [UniqOrder], [FlatMapOrder]).

    ** Files

    Integers, bytes and text.
    - [Prelude]: integers, bytes, memory, byte order and C strings.
    - [KeyEncoder] ([include/common/key_encoder.h]): byte swapping, sign flipping,
      order-preserving images of integers and floats.
    - [FloatArith], [FloatExact], [Stdio], [FloatText]: what the sources use of C
      arithmetic and text, namely exact IEEE operations, [std::to_string],
      [std::stol], [snprintf], [sscanf], [strtod], [strtoull].
    - [Calendar]: the proleptic Gregorian calendar and time zones ([Zone]).
    - [Ordered], [Heap], [KvStore]: sorted lists of keys, the binary heap that
      the sources copy in several places, the store as an interface.

    Values, keys and records.
    - [DateTime], [DateTimeFacts] ([src/common/datetime.cpp],
      [include/common/datetime.h]): packed DATETIME, DATE, TIME and TIMESTAMP,
      their text, date arithmetic, formats.
    - [ExprValue], [ExprValueFacts] ([include/common/expr_value.h],
      [include/common/type_utils.h]): typed values as a union of eight bytes, a
      string and a bitmap; comparison, casts, arithmetic, hashing, messages.
    - [TableKey], [TableKeyFacts] ([include/common/mut_table_key.h],
      [include/common/table_key.h], [src/common/table_key.cpp]): building and
      reading keys.
    - [TableRecord], [TableRecordFacts] ([src/common/table_record.cpp],
      [include/common/message_helper.h]): keys and values of records.
    - [StringFn], [TextFn], [DateFn] with their facts and [FnExamples]
      ([src/expr/internal_functions.cpp]): the functions of SQL on texts, sets,
      codes, dates and times.

    Replicated state.
    - [Tso], [TsoCluster], [TsoFacts] ([src/meta_server/tso_state_machine.cpp]):
      the handlers of the timestamp oracle on one node; its replicas together,
      as the relation [step] on a [Cluster]; what both guarantee.
    - [AutoIncr] ([src/meta_server/auto_incr_state_machine.cpp]): the counters
      of auto-increment columns and their snapshot.
    - [IndexTermMap] ([include/raft/index_term_map.h]): the queue of term
      changes.
    - [RaftLog], [RaftLogFacts], [RaftLogExamples]
      ([src/raft/my_raft_log_storage.cpp],
      [include/raft/raft_log_compaction_filter.h]): the log of a region and its
      binlogs, with the status of every write as an argument.
    - [MetaState], [MetaCatalog] ([src/meta_server/namespace_manager.cpp],
      [database_manager.cpp], [privilege_manager.cpp]): the maps and the store of
      the catalog and its operations, each with the fates of its writes; facts in
      [MetaFamily], [MetaCatalogFacts], [MetaSnapshotFacts],
      [MetaPrivilegeFacts]; what holds in every run in [MetaTheorems].

    Full-text search.
    - [LruCache] ([include/common/lru_cache.h]): the cache of posting lists, as
      nodes behind pointers.
    - [ReverseList], [ReverseIndex], [ReverseParser] ([include/reverse/]): posting
      lists in three levels, their merge, and how a list is read; facts in
      [ReverseFirstFacts], [ReverseIndexFacts], [ReverseMergeFacts],
      [ReverseMergeFunc], [ReverseInsertFacts].
    - [BoolExecutor], [BoolQuery] ([include/reverse/boolean_engine/]): conjunctions,
      disjunctions and weighted nodes over posting lists; facts in
      [BoolExecutorFacts], [BoolNodes].
    - [Tokenizer], [TokenizerFacts] ([src/reverse/reverse_common.cpp]): text into
      terms.
    - [ReverseSearch], [ReverseSearchFacts], [ReverseTheorems]: documents, search
      texts and what the index promises.

    Execution.
    - [Sorter], [SorterFacts] ([src/runtime/sorter.cpp], [topn_sorter.cpp],
      [src/exec/sort_node.cpp]): batches, the merge of sorted batches, the heap of
      the first rows, the node.
    - [Hll] ([src/common/hll_common.cpp]): HyperLogLog objects byte by byte; facts
      in [HllEncodings], [HllFacts], [HllOps], [HllTheorems].
    - [TDigest], [TDigestFacts] ([src/common/tdigest.cpp]): T-digests in their buffer.
    - [MemRow] ([src/mem_row/]): rows as messages by tuple, slots, descriptors.
    - [Agg] ([src/expr/agg_fn_call.cpp]): every aggregate function; [AggNode]
      ([src/exec/agg_node.cpp]): groups and the node.  [AggAcc]: what
      cells hold and the accumulators they encode; [AggTheorems], [AggExamples].
    - [Operators] ([src/expr/operators.cpp], [fn_manager.cpp],
      [scalar_fn_call.cpp]): arithmetic and comparison, the choice of their types
      and their calls by name.  [Predicate] ([src/expr/predicate.cpp],
      [include/expr/predicate.h]): the logical connectives, IN, LIKE and REGEXP.
      [LikeFacts]: the matcher of LIKE; [PredicateFacts]: the rest.
    - [Statistics] ([include/common/cmsketch.h], [histogram.h], [statistics.h],
      [src/common/histogram.cpp]): count-min sketches, histograms of samples and the
      estimates for the planner; [SketchFacts], [HistogramFacts].

    ** What the theorems show

    Keys.  Encoding the key of a record and decoding it gives the columns back,
    nulls included, for every index type; the byte order of keys is the order
    of the columns under [compare]; skipping and decoding agree; what
    decoding a field does is given on every branch, the one read outside the key
    included; the position computed for a partition column is where it is.

    Values.  [compare] is a total order per type and agrees with [hash]; messages,
    integer casts and casts through [double] round trip where they should;
    comparison across integer types is characterised.  Text, packed dates,
    timestamps and seconds round trip; validation accepts exactly the real
    dates.  The SQL functions are given by reference definitions where they
    have one: replacing and splitting by one pass over the text, weeks by
    counting Sundays.

    Raft log.  [holds] relates a storage to a first index and a list of entries.
    Reading, appending, truncating at both ends and reset refine the operations
    on that list; a failed append leaves it; [init] recovers it from the store
    after a restart.  The scan and the binary search of the term map agree with
    one reference.

    Timestamps and identifiers.  In every cluster reached by orderly steps, leaders
    hand out no timestamp twice, those of one term increase, and those of later
    terms are larger.  Orderly means positive counts, no resets sent by clients, and
    start threads that end before their leader stops; runs show that timestamps
    repeat without any of the three, and that a node deposed while it answers can
    repeat those of its successor.  Ranges of identifiers handed out for a table
    are disjoint and increase as long as the counter does not overflow, and the
    snapshot round trips.

    Catalog.  In every run, whichever writes fail, loading the store gives the maps
    back; identifiers are not used twice; dropping a database takes the
    privileges on it from exactly the users the index lists for it; the index
    from databases to users is exact until access bits are revoked.

    Full-text search.  A merge keeps what every term selects, whatever fails.  In
    every state an index reaches by transactions, merges that return 0, searches
    and restarts ([index_run]), a merge whose calls succeed takes all documents
    over, and a search gives exactly the keys whose terms satisfy the query by the
    documents merged so far, computed from the documents alone: a document is
    found by its terms after it is added and merged, and not after it is removed.
    The standard tokenizer gives the terms of a grammar on bytes.  The boolean
    engine is a cursor over the set the query denotes.  The cache is a bounded list
    in order of use.

    Sorting.  The rows of ORDER BY with LIMIT, over all calls, are the first ones
    of a sorted permutation of the input.

    Sketches.  The registers of a HyperLogLog object are the greatest runs of the
    hash values added, whatever encodings it went through; the estimate depends
    on their set; merges take the union.  A T-digest counts the values put in its
    array; one that finds no place after a merge is written behind it.

    Aggregation.  A node gives one row per group with what its rows contribute;
    however the rows are divided among the stores, merging their results gives
    the result of one node; group keys are equal exactly for equal groups.

    Predicates.  The matcher of LIKE, which returns only to the last percent sign,
    ends and decides the matches of the pattern over characters; texts that match
    lie in the range taken from an index; the conversion to regular expressions
    agrees with the matcher on bytes, given what RE2 documents for plain bytes,
    quoted punctuation, dots and stars.  The connectives are those of three-valued
    logic, IN over literals of integers is a disjunction of equalities, NULL
    included when it is not the first, and comparisons found
    by their completed names agree with [compare], also when their operands are
    exchanged.

    Statistics.  The counters of a sketch that several stores filled are the counts
    of all rows; an estimate lies between the occurrences less the expected noise
    and each counter.  The buckets of a sample are in order, hold every value and
    have the exact numbers of rows and of different values; counts read from a
    histogram that went through its message follow from them.

    Examples at the end of the files evaluate what the code does where these
    properties end.

    ** Bounds and fuel

    Recursion that is not structural carries fuel computed from its input, and
    the theorems show that it is enough where they say that a result is given:
    [dec_u] one step per bit of the number; [upper_bound] the length of the
    queue; scanners, decoders, the loops over sparse registers ([walk],
    [find_opcode]) and over serialized sets ([read_numbers], [read_strings]) the
    length of the text; [level_merge] and the merges of sorted batches the
    number of nodes or rows left; the binary search of a posting list 33 rounds
    for an index of 32 bits; the executors as many steps as ids are left;
    [next_rows], [collect] and [drain] one round per group or row and one more;
    [like_loop] one reading of the pattern per place in the text ([like_fuel],
    shown enough by [like_total]); [sample_loop] one round per row and one more.
    [gen_tso] has the 50 rounds of the source, [hll_pat_len] 64, [hll_sigma] and
    [hll_tau] 1100, after which doubles no longer change.  Theorems about times
    and counters state the ranges they need: indices and terms below [2^63],
    counts of timestamps up to [2^62], sums of identifiers below [2^64], sums of
    absolute values below [2^53] where AVG adds doubles, tables below [2^31] rows
    where statistics count in 32 bits ([2^30] for estimates).

    ** What is not modelled

    Network and file I/O, RPC, logging, metrics and the accounting of memory.
    Planning, joins and the other execution nodes, the execution by Arrow,
    transactions, the region state machine, tables, regions and clusters of the
    meta server, vector indexes, the MySQL wire protocol and the generated
    parser.  Of the modelled files: charset conversion, the calls of [strftime],
    the text packets of values, transcendental, JSON, hash and bitmap functions
    of SQL, posting lists as Arrow batches, searches over several indexes at
    once, heartbeats of the catalog, the type inference of expression trees, the
    return types of functions called by name, and the translation of aggregates
    and predicates to Arrow.

    Choices of the models.  The cluster of the oracle has resets and updates sent by
    clients, start threads that outlive their leader and rounds of [gen_tso] on a
    deposed node, and leaves snapshots out.  Transactions, merges and searches of a
    full-text index happen one after the other, over a region that stays the same,
    and searches do not read the first level.  Loading the keys of the other managers of the meta server is
    a parameter of the load of the catalog.  Calls under a mutex are atomic.
    An expression of the executor is its value on a row.  Sums, differences and
    products of signed SQL integers wrap around, as the compiled code does.  The branch of
    [hll_sparse_to_dense] for an object that is neither sparse nor dense cannot
    be reached and is left out; the rows that the final value of an ordered
    GROUP_CONCAT sorts are not put back. *)

From Stdlib Require Export Ascii String ZArith Lia.
From stdpp Require Export base numbers strings option list.

#[global] Open Scope Z_scope.
#[export] Set Default Goal Selector "!".

Declare Scope baikal_scope.
Delimit Scope baikal_scope with baikal.
#[global] Open Scope baikal_scope.

Create HintDb baikal.
Create Rewrite HintDb baikal.
Create HintDb range.

(** ** Machine integers

    A value of a [w]-bit C++ integer type is the integer it denotes.
    Conversion to an unsigned type is reduction modulo [2^w]; conversion to a
    signed type is the two's complement representative of that class. *)

Definition wrap (w x : Z) : Z := x mod 2 ^ w.

Definition swrap (w x : Z) : Z := (x + 2 ^ (w - 1)) mod 2 ^ w - 2 ^ (w - 1).

Abbreviation u8 := (wrap 8).
Abbreviation u16 := (wrap 16).
Abbreviation u32 := (wrap 32).
Abbreviation u64 := (wrap 64).
Abbreviation i8 := (swrap 8).
Abbreviation i16 := (swrap 16).
Abbreviation i32 := (swrap 32).
Abbreviation i64 := (swrap 64).

(** The values of the types [uintw_t] and [intw_t]. *)
Definition is_u (w x : Z) : Prop := 0 <= x < 2 ^ w.
Definition is_i (w x : Z) : Prop := - 2 ^ (w - 1) <= x < 2 ^ (w - 1).

Lemma wrap_range w x : 0 <= w -> is_u w (wrap w x).
Proof. intros; apply Z.mod_pos_bound; lia. Qed.

Lemma pow2_double w : 0 < w -> 2 ^ w = 2 * 2 ^ (w - 1).
Proof. intros; rewrite <- Z.pow_succ_r by lia; f_equal; lia. Qed.

Lemma swrap_range w x : 0 < w -> is_i w (swrap w x).
Proof.
  intros Hw; unfold swrap, is_i.
  pose proof (Z.mod_pos_bound (x + 2 ^ (w - 1)) (2 ^ w) ltac:(lia)).
  rewrite (pow2_double w Hw) in *; lia.
Qed.

Lemma wrap_id w x : is_u w x -> wrap w x = x.
Proof. apply Z.mod_small. Qed.

Lemma swrap_id w x : 0 < w -> is_i w x -> swrap w x = x.
Proof.
  intros Hw Hx; unfold swrap, is_i in *.
  rewrite Z.mod_small; [lia|]. rewrite (pow2_double w Hw); lia.
Qed.

Lemma wrap_swrap w x : 0 < w -> wrap w (swrap w x) = wrap w x.
Proof.
  intros Hw; unfold wrap, swrap.
  rewrite Zminus_mod_idemp_l. f_equal; lia.
Qed.

Lemma swrap_wrap w x : 0 < w -> swrap w (wrap w x) = swrap w x.
Proof. intros Hw; unfold wrap, swrap. by rewrite Zplus_mod_idemp_l. Qed.

Lemma swrap_wrap_id w x : 0 < w -> is_i w x -> swrap w (wrap w x) = x.
Proof. intros; rewrite swrap_wrap by done; by apply swrap_id. Qed.

Lemma wrap_swrap_id w x : 0 < w -> is_u w x -> wrap w (swrap w x) = x.
Proof. intros; rewrite wrap_swrap by done; by apply wrap_id. Qed.

(** The two's complement encoding, made explicit by sign. *)
Lemma wrap_signed w x :
  0 < w -> is_i w x -> wrap w x = if x <? 0 then x + 2 ^ w else x.
Proof.
  intros Hw Hx; unfold wrap, is_i in *. pose proof (pow2_double w Hw).
  destruct (Z.ltb_spec x 0).
  - rewrite <- (Z_mod_plus_full x 1). rewrite Z.mod_small; lia.
  - rewrite Z.mod_small; lia.
Qed.

#[export] Hint Resolve wrap_range swrap_range : range.
#[export] Hint Extern 1 (0 < _) => lia : range.
#[export] Hint Extern 1 (0 <= _) => lia : range.

(** ** Bits *)

(** A number below [2^k] and a multiple of [2^k] do not share bits. *)
Lemma lor_disjoint k a b :
  0 <= k -> 0 <= a < 2 ^ k -> Z.lor a (b * 2 ^ k) = a + b * 2 ^ k.
Proof.
  intros Hk Ha. symmetry. rewrite <- Z.shiftl_mul_pow2 by lia.
  apply Z.add_nocarry_lor, Z.bits_inj'; intros i Hi.
  rewrite Z.land_spec, Z.bits_0.
  destruct (Z.ltb_spec i k).
  - rewrite Z.shiftl_spec_low by lia. apply andb_false_r.
  - destruct (decide (a = 0)) as [->|Hne]; [by rewrite Z.bits_0|].
    rewrite Z.bits_above_log2; [done|lia|].
    apply Z.log2_lt_pow2; [lia|].
    eapply Z.lt_le_trans; [apply Ha|]. apply Z.pow_le_mono_r; lia.
Qed.

(** Filling a field of [j] bits below the bits collected so far. *)
Lemma lor_field j k h b :
  0 <= k -> 0 <= j -> 0 <= b < 2 ^ j ->
  Z.lor (h * 2 ^ (k + j)) (b * 2 ^ k) = (h * 2 ^ j + b) * 2 ^ k.
Proof.
  intros Hk Hj Hb. rewrite Z.lor_comm, lor_disjoint, Z.pow_add_r; [|try lia..].
  - lia.
  - rewrite Z.pow_add_r by lia. pose proof (Z.pow_pos_nonneg 2 k). nia.
Qed.

Lemma land_ones_mod x k : 0 <= k -> Z.land x (2 ^ k - 1) = x mod 2 ^ k.
Proof. intros; rewrite <- Z.land_ones by done. by rewrite Z.ones_equiv. Qed.

(** ** Bytes and memory

    A byte is an integer in [0, 256).  The object representation of an
    integer of [n] bytes depends on the byte order of the host, which is a
    parameter of everything that reinterprets memory. *)

Abbreviation bytes := (list Z).

Definition bytes_ok (b : bytes) : Prop := Forall (is_u 8) b.

Class Host := host_big_endian : bool.

(** The least significant byte first. *)
Fixpoint le_split (n : nat) (x : Z) : bytes :=
  match n with
  | O => []
  | S n => x mod 256 :: le_split n (x / 256)
  end.

Fixpoint le_combine (b : bytes) : Z :=
  match b with
  | [] => 0
  | x :: b => x + 256 * le_combine b
  end.

(** The most significant byte first. *)
Definition be_split (n : nat) (x : Z) : bytes := rev (le_split n x).
Definition be_combine (b : bytes) : Z := le_combine (rev b).

Definition mem_store `{Host} (n : nat) (x : Z) : bytes :=
  if host_big_endian then be_split n x else le_split n x.

Definition mem_value `{Host} (b : bytes) : Z :=
  if host_big_endian then be_combine b else le_combine b.

(** [*reinterpret_cast<uint_t*>(data + pos)]: reading outside the buffer is
    undefined, [None] here. *)
Definition mem_load `{Host} (data : bytes) (pos : Z) (n : nat) : option Z :=
  if (0 <=? pos) && (pos + Z.of_nat n <=? Z.of_nat (length data))
  then Some (mem_value (take n (drop (Z.to_nat pos) data)))
  else None.

Lemma length_le_split n x : length (le_split n x) = n.
Proof. revert x; induction n; intros; simpl; auto. Qed.

Lemma length_be_split n x : length (be_split n x) = n.
Proof. unfold be_split. by rewrite length_rev, length_le_split. Qed.

Lemma length_mem_store `{Host} n x : length (mem_store n x) = n.
Proof.
  unfold mem_store; case_match; auto using length_be_split, length_le_split.
Qed.

Lemma le_split_ok n x : bytes_ok (le_split n x).
Proof.
  revert x; induction n as [|n IH]; intros x; constructor; [|apply IH].
  apply Z.mod_pos_bound; lia.
Qed.

Lemma bytes_ok_rev b : bytes_ok (rev b) <-> bytes_ok b.
Proof.
  split; intros Hb%Forall_rev; [|done]. by rewrite rev_involutive in Hb.
Qed.

Lemma be_split_ok n x : bytes_ok (be_split n x).
Proof. apply bytes_ok_rev, le_split_ok. Qed.

Lemma le_combine_split n x :
  0 <= x < 256 ^ Z.of_nat n -> le_combine (le_split n x) = x.
Proof.
  revert x; induction n as [|n IH]; intros x Hx; [simpl in *; lia|].
  rewrite Nat2Z.inj_succ, Z.pow_succ_r in Hx by lia.
  cbn [le_split le_combine]. rewrite IH.
  - pose proof (Z.div_mod x 256); lia.
  - split; [apply Z.div_pos; lia|]. apply Z.div_lt_upper_bound; lia.
Qed.

Lemma le_split_combine b : bytes_ok b -> le_split (length b) (le_combine b) = b.
Proof.
  induction 1 as [|x b Hx Hb IH]; [done|]. unfold is_u in Hx.
  cbn [length le_split le_combine].
  rewrite (Z.mul_comm 256), Z_mod_plus_full, Z.mod_small by lia.
  f_equal. rewrite Z.div_add by lia. by rewrite Z.div_small, Z.add_0_l by lia.
Qed.

Lemma le_combine_range b :
  bytes_ok b -> 0 <= le_combine b < 256 ^ Z.of_nat (length b).
Proof.
  induction 1 as [|x b Hx Hb IH]; [simpl; lia|]. unfold is_u in Hx.
  cbn [length le_combine]. rewrite Nat2Z.inj_succ, Z.pow_succ_r by lia. lia.
Qed.

Lemma be_combine_split n x :
  0 <= x < 256 ^ Z.of_nat n -> be_combine (be_split n x) = x.
Proof.
  intros; unfold be_combine, be_split. rewrite rev_involutive.
  by apply le_combine_split.
Qed.

Lemma be_split_combine b : bytes_ok b -> be_split (length b) (be_combine b) = b.
Proof.
  intros; unfold be_combine, be_split.
  rewrite <- length_rev, le_split_combine by by apply bytes_ok_rev.
  apply rev_involutive.
Qed.

Lemma mem_value_store `{Host} n x :
  0 <= x < 256 ^ Z.of_nat n -> mem_value (mem_store n x) = x.
Proof.
  intros; unfold mem_value, mem_store; case_match;
    auto using be_combine_split, le_combine_split.
Qed.

Lemma mem_load_store `{Host} pre n x post :
  0 <= x < 256 ^ Z.of_nat n ->
  mem_load (pre ++ mem_store n x ++ post) (Z.of_nat (length pre)) n = Some x.
Proof.
  intros Hx; unfold mem_load.
  rewrite !length_app, length_mem_store, Nat2Z.id.
  rewrite (proj2 (Z.leb_le 0 _)), (proj2 (Z.leb_le _ _)) by lia; simpl.
  rewrite drop_app_length, take_app_length' by by rewrite length_mem_store.
  by rewrite mem_value_store.
Qed.

(** ** Lexicographic order of byte strings

    [memcmp] on the common prefix, then the lengths: the order of
    [std::string::compare], [rocksdb::Slice::compare] and of RocksDB's
    bytewise comparator. *)

Fixpoint lex_compare (a b : bytes) : comparison :=
  match a, b with
  | [], [] => Eq
  | [], _ => Lt
  | _, [] => Gt
  | x :: a, y :: b =>
      match x ?= y with Eq => lex_compare a b | c => c end
  end.

Definition cmp_int (c : comparison) : Z :=
  match c with Lt => -1 | Eq => 0 | Gt => 1 end.

(** The sign of the result of a three-way comparison function. *)
Definition int_cmp (z : Z) : comparison := z ?= 0.

Lemma lex_compare_refl a : lex_compare a a = Eq.
Proof. induction a; simpl; [done|]. by rewrite Z.compare_refl. Qed.

Lemma lex_compare_eq a b : lex_compare a b = Eq <-> a = b.
Proof.
  split; [|intros ->; apply lex_compare_refl].
  revert b; induction a as [|x a IH]; intros [|y b]; simpl; try done.
  destruct (Z.compare_spec x y); try done. intros ?%IH; congruence.
Qed.

Lemma lex_compare_antisym a b : lex_compare b a = CompOpp (lex_compare a b).
Proof.
  revert b; induction a as [|x a IH]; intros [|y b]; simpl; try done.
  rewrite (Z.compare_antisym x y). destruct (x ?= y); simpl; auto.
Qed.

Lemma lex_compare_trans c a b d :
  lex_compare a b = c -> lex_compare b d = c -> lex_compare a d = c.
Proof.
  revert b d; induction a as [|x a IH]; intros [|y b] [|z d]; simpl;
    try congruence.
  destruct (Z.compare_spec x y), (Z.compare_spec y z); subst;
    rewrite ?Z.compare_refl; intros; try congruence.
  - eauto.
  - by rewrite (proj2 (Z.compare_lt_iff _ _)).
  - by rewrite (proj2 (Z.compare_gt_iff _ _)) by lia.
  - by rewrite (proj2 (Z.compare_lt_iff _ _)).
  - by rewrite (proj2 (Z.compare_lt_iff _ _)) by lia.
  - by rewrite (proj2 (Z.compare_gt_iff _ _)) by lia.
  - by rewrite (proj2 (Z.compare_gt_iff _ _)) by lia.
Qed.

(** Prefixes of equal length decide first. *)
Lemma lex_compare_app a a' b b' :
  length a = length a' ->
  lex_compare (a ++ b) (a' ++ b') =
  match lex_compare a a' with Eq => lex_compare b b' | c => c end.
Proof.
  revert a'; induction a as [|x a IH]; intros [|y a'] [=]; [done|].
  simpl. destruct (x ?= y); auto.
Qed.

Lemma lex_compare_app_l a b b' :
  lex_compare (a ++ b) (a ++ b') = lex_compare b b'.
Proof. by rewrite lex_compare_app, lex_compare_refl. Qed.

(** Big-endian images of unsigned integers compare as the integers do. *)
Lemma be_split_snoc n x :
  be_split (S n) x = be_split n (x / 256) ++ [x mod 256].
Proof. done. Qed.

Lemma be_split_compare n x y :
  0 <= x < 256 ^ Z.of_nat n -> 0 <= y < 256 ^ Z.of_nat n ->
  lex_compare (be_split n x) (be_split n y) = (x ?= y).
Proof.
  revert x y; induction n as [|n IH]; intros x y Hx Hy.
  - simpl in *. by replace x with y by lia; rewrite Z.compare_refl.
  - rewrite Nat2Z.inj_succ, Z.pow_succ_r in Hx, Hy by lia.
    rewrite !be_split_snoc, lex_compare_app by by rewrite !length_be_split.
    pose proof (Z.div_mod x 256 ltac:(lia)).
    pose proof (Z.div_mod y 256 ltac:(lia)).
    pose proof (Z.mod_pos_bound x 256). pose proof (Z.mod_pos_bound y 256).
    rewrite IH; [|split; [apply Z.div_pos|apply Z.div_lt_upper_bound]; lia..].
    simpl. destruct (Z.compare_spec (x / 256) (y / 256)).
    + destruct (Z.compare_spec (x mod 256) (y mod 256)), (Z.compare_spec x y);
        done || lia.
    + symmetry; apply Z.compare_lt_iff; lia.
    + symmetry; apply Z.compare_gt_iff; lia.
Qed.

(** ** C strings *)

Definition bytes_of_string (s : string) : bytes :=
  (fun a => Z.of_nat (nat_of_ascii a)) <$> list_ascii_of_string s.

Arguments bytes_of_string _%_string_scope.

(** [strlen(data + pos)], restricted to the buffer: [None] when no NUL byte
    is found before its end. *)
Fixpoint c_str (b : bytes) : option bytes :=
  match b with
  | [] => None
  | x :: b => if x =? 0 then Some [] else cons x <$> c_str b
  end.

Definition c_str_at (data : bytes) (pos : Z) : option bytes :=
  if 0 <=? pos then c_str (drop (Z.to_nat pos) data) else None.

Definition no_nul (b : bytes) : Prop := Forall (fun x => x <> 0) b.

Lemma c_str_app s rest : no_nul s -> c_str (s ++ 0 :: rest) = Some s.
Proof.
  induction 1 as [|x s Hx Hs IH]; [done|]. simpl.
  by rewrite (proj2 (Z.eqb_neq x 0)), IH.
Qed.

Lemma c_str_at_app pre s rest :
  no_nul s ->
  c_str_at (pre ++ s ++ 0 :: rest) (Z.of_nat (length pre)) = Some s.
Proof.
  intros; unfold c_str_at.
  rewrite (proj2 (Z.leb_le 0 _)), Nat2Z.id, drop_app_length by lia.
  by apply c_str_app.
Qed.

(** NUL-terminated strings compare like the strings themselves. *)
Lemma lex_compare_c_string a b s t :
  bytes_ok s -> bytes_ok t -> no_nul s -> no_nul t ->
  lex_compare (s ++ 0 :: a) (t ++ 0 :: b) =
  match lex_compare s t with Eq => lex_compare a b | c => c end.
Proof.
  intros Hs; revert t.
  induction Hs as [|x s Hx Hs IH]; intros t Ht Hns Hnt.
  - destruct Ht as [|y t Hy Ht]; [done|]. inversion Hnt; subst.
    cbn [app lex_compare].
    by rewrite (proj2 (Z.compare_lt_iff 0 y)) by (unfold is_u in *; lia).
  - inversion Hns; subst. destruct Ht as [|y t Hy Ht].
    + cbn [app lex_compare].
      by rewrite (proj2 (Z.compare_gt_iff x 0)) by (unfold is_u in *; lia).
    + inversion Hnt; subst. simpl. destruct (x ?= y); auto.
Qed.

(** ** Lists *)

Lemma list_filter_all {A} (P : A -> Prop) `{forall x, Decision (P x)} (l : list A) :
  (forall x, x ∈ l -> P x) -> filter P l = l.
Proof.
  induction l as [|x l IH]; intros Hl; [done|].
  rewrite filter_cons_True by (apply Hl; left). f_equal. apply IH. intros. apply Hl. by right.
Qed.

Lemma list_filter_none {A} (P : A -> Prop) `{forall x, Decision (P x)} (l : list A) :
  (forall x, x ∈ l -> ~ P x) -> filter P l = [].
Proof.
  induction l as [|x l IH]; intros Hl; [done|].
  rewrite filter_cons_False by (apply Hl; left). apply IH. intros. apply Hl. by right.
Qed.

Lemma sum_list_insert {A} (g : A -> nat) (l : list A) i x y :
  l !! i = Some x -> (sum_list_with g (<[i := y]> l) + g x = sum_list_with g l + g y)%nat.
Proof.
  revert i; induction l as [|z l IH]; intros [|i] Hi; simplify_eq/=; [lia|].
  specialize (IH i Hi). lia.
Qed.

Lemma sum_list_le {A} (f g : A -> nat) (l : list A) :
  (forall x, x ∈ l -> (f x <= g x)%nat) -> (sum_list_with f l <= sum_list_with g l)%nat.
Proof.
  induction l as [|x l IH]; intros Hl; [done|]. simpl.
  pose proof (Hl x ltac:(left)). specialize (IH ltac:(intros; apply Hl; by right)). lia.
Qed.

#[export] Hint Resolve le_split_ok be_split_ok : baikal.
#[export] Hint Rewrite @length_mem_store length_be_split length_le_split
  @length_app : baikal.

(** ** Tactics *)

(** Case analysis on the boolean tests of translated conditions. *)
Ltac bool_case :=
  match goal with
  | |- context [?x <? ?y] => destruct (Z.ltb_spec x y)
  | |- context [?x <=? ?y] => destruct (Z.leb_spec x y)
  | |- context [?x =? ?y] => destruct (Z.eqb_spec x y)
  | H : context [?x <? ?y] |- _ => destruct (Z.ltb_spec x y)
  | H : context [?x <=? ?y] |- _ => destruct (Z.leb_spec x y)
  | H : context [?x =? ?y] |- _ => destruct (Z.eqb_spec x y)
  end.
