(* ===== verification/KeyEncoder.v ===== *)
(** * Order-preserving encodings of scalars ([include/common/key_encoder.h])

    RocksDB orders keys bytewise.  [KeyEncoder] maps every scalar type to an
    unsigned integer of the same width whose order is the order of the type,
    and swaps bytes so that the integer is stored most significant byte
    first whatever the byte order of the host. *)

From S2P Require Import Prelude.

(** ** Definitions *)

Definition SIGN_MASK_08 : Z := 0x80.
Definition SIGN_MASK_16 : Z := 0x8000.
Definition SIGN_MASK_32 : Z := 0x80000000.
Definition SIGN_MASK_64 : Z := 0x8000000000000000.

Section KeyEncoder.
Context `{Host}.

(** The test looks at the object representation of the 16-bit 0x1234. *)
Definition is_big_endian : bool :=
  let c := mem_store 2 0x1234 in
  (nth 1 c 0 =? 0x34) && (nth 0 c 0 =? 0x12).

Definition swap_u16 (x : Z) : Z :=
  u16 (Z.lor (Z.shiftl (Z.land x 0x00FF) 8)
             (Z.shiftr (Z.land x 0xFF00) 8)).

Definition swap_u32 (x : Z) : Z :=
  u32 (Z.lor (Z.lor (Z.lor
        (Z.shiftl (Z.land x 0x000000FF) 24)
        (Z.shiftl (Z.land x 0x0000FF00) 8))
        (Z.shiftr (Z.land x 0x00FF0000) 8))
        (Z.shiftr (Z.land x 0xFF000000) 24)).

Definition swap_u64 (x : Z) : Z :=
  u64 (Z.lor (Z.lor (Z.lor (Z.lor (Z.lor (Z.lor (Z.lor
        (Z.shiftl (Z.land x 0x00000000000000FF) 56)
        (Z.shiftl (Z.land x 0x000000000000FF00) 40))
        (Z.shiftl (Z.land x 0x0000000000FF0000) 24))
        (Z.shiftl (Z.land x 0x00000000FF000000) 8))
        (Z.shiftr (Z.land x 0x000000FF00000000) 8))
        (Z.shiftr (Z.land x 0x0000FF0000000000) 24))
        (Z.shiftr (Z.land x 0x00FF000000000000) 40))
        (Z.shiftr (Z.land x 0xFF00000000000000) 56)).

Definition to_endian_u16 (x : Z) : Z := if is_big_endian then x else swap_u16 x.
Definition to_endian_u32 (x : Z) : Z := if is_big_endian then x else swap_u32 x.
Definition to_endian_u64 (x : Z) : Z := if is_big_endian then x else swap_u64 x.

Definition to_little_endian_u16 (x : Z) : Z :=
  if negb is_big_endian then x else swap_u16 x.
Definition to_little_endian_u32 (x : Z) : Z :=
  if negb is_big_endian then x else swap_u32 x.
Definition to_little_endian_u64 (x : Z) : Z :=
  if negb is_big_endian then x else swap_u64 x.

End KeyEncoder.

Definition encode_i8 (x : Z) : Z := u8 (Z.lxor (u8 x) SIGN_MASK_08).
Definition decode_i8 (x : Z) : Z := i8 (Z.lxor x SIGN_MASK_08).
Definition encode_i16 (x : Z) : Z := u16 (Z.lxor (u16 x) SIGN_MASK_16).
Definition decode_i16 (x : Z) : Z := i16 (Z.lxor x SIGN_MASK_16).
Definition encode_i32 (x : Z) : Z := u32 (Z.lxor (u32 x) SIGN_MASK_32).
Definition decode_i32 (x : Z) : Z := i32 (Z.lxor x SIGN_MASK_32).
Definition encode_i64 (x : Z) : Z := u64 (Z.lxor (u64 x) SIGN_MASK_64).
Definition decode_i64 (x : Z) : Z := i64 (Z.lxor x SIGN_MASK_64).

(** *** IEEE 754 values

    A [float] or [double] is its bit pattern: [w] bits of which [m] are the
    mantissa.  The sign bit is the top one and, for patterns that are not
    NaN, the remaining bits order the magnitudes. *)

Section Ieee.
Variables (w m : Z).

Definition fp_sign (x : Z) : bool := Z.testbit x (w - 1).
Definition fp_mag (x : Z) : Z := x mod 2 ^ (w - 1).
Definition fp_inf : Z := 2 ^ (w - 1) - 2 ^ m.
Definition fp_is_nan (x : Z) : bool := fp_inf <? fp_mag x.

(** Sign-magnitude reading: [fp_key x < fp_key y] iff [x < y] as reals, and
    the two zeros have the same key. *)
Definition fp_key (x : Z) : Z := if fp_sign x then - fp_mag x else fp_mag x.

Definition fp_lt (x y : Z) : bool :=
  negb (fp_is_nan x) && negb (fp_is_nan y) && (fp_key x <? fp_key y).
Definition fp_ge0 (x : Z) : bool :=
  negb (fp_is_nan x) && (0 <=? fp_key x).

End Ieee.

Abbreviation f32_is_nan := (fp_is_nan 32 23).
Abbreviation f64_is_nan := (fp_is_nan 64 52).
Abbreviation f32_key := (fp_key 32).
Abbreviation f64_key := (fp_key 64).
Abbreviation f32_lt := (fp_lt 32 23).
Abbreviation f64_lt := (fp_lt 64 52).

Definition encode_f32 (x : Z) : Z :=
  if fp_ge0 32 23 x then Z.lor x SIGN_MASK_32 else u32 (Z.lnot x).

Definition decode_f32 (x : Z) : Z :=
  if 0 <? Z.shiftr (Z.land x SIGN_MASK_32) 31
  then Z.land x (u32 (Z.lnot SIGN_MASK_32))
  else u32 (Z.lnot x).

Definition encode_f64 (x : Z) : Z :=
  if fp_ge0 64 52 x then Z.lor x SIGN_MASK_64 else u64 (Z.lnot x).

Definition decode_f64 (x : Z) : Z :=
  if 0 <? Z.shiftr (Z.land x SIGN_MASK_64) 63
  then Z.land x (u64 (Z.lnot SIGN_MASK_64))
  else u64 (Z.lnot x).

(** ** Byte order *)

Lemma is_big_endian_host `{Host} : is_big_endian = host_big_endian.
Proof.
  unfold is_big_endian, mem_store. by destruct host_big_endian.
Qed.

(** Selecting a byte with a mask. *)
Lemma land_byte x k :
  0 <= k -> Z.land x (Z.shiftl 255 k) = (x / 2 ^ k) mod 256 * 2 ^ k.
Proof.
  intros Hk. rewrite <- Z.shiftl_mul_pow2, <- Z.shiftr_div_pow2 by done.
  change 256 with (2 ^ 8). rewrite <- (land_ones_mod _ 8) by lia.
  apply Z.bits_inj'; intros i Hi. rewrite Z.land_spec.
  destruct (Z.ltb_spec i k).
  - rewrite !Z.shiftl_spec_low by lia. apply andb_false_r.
  - rewrite !Z.shiftl_spec_high by lia.
    rewrite Z.land_spec, Z.shiftr_spec by lia.
    by rewrite Z.sub_add.
Qed.

Lemma shiftl_byte x m k j :
  m = Z.shiftl 255 k -> 0 <= k -> 0 <= j ->
  Z.shiftl (Z.land x m) j = (x / 2 ^ k) mod 256 * 2 ^ (k + j).
Proof.
  intros ->; intros. rewrite land_byte, Z.shiftl_mul_pow2, Z.pow_add_r by lia. lia.
Qed.

Lemma shiftr_byte x m k j :
  m = Z.shiftl 255 k -> 0 <= j <= k ->
  Z.shiftr (Z.land x m) j = (x / 2 ^ k) mod 256 * 2 ^ (k - j).
Proof.
  intros ->; intros. rewrite land_byte, Z.shiftr_div_pow2 by lia.
  replace k with (k - j + j) at 2 by lia.
  rewrite Z.pow_add_r, Z.mul_assoc by lia. apply Z.div_mul; lia.
Qed.

(** Appending a byte below the bits collected so far. *)
Lemma lor_byte k h b :
  0 <= k -> 0 <= b < 256 ->
  Z.lor (h * 2 ^ (k + 8)) (b * 2 ^ k) = (h * 256 + b) * 2 ^ k.
Proof.
  intros. by apply (lor_field 8).
Qed.

Lemma le_split_mod n x : le_split n (x mod 256 ^ Z.of_nat n) = le_split n x.
Proof.
  revert x; induction n as [|n IH]; intros x; [done|].
  rewrite Nat2Z.inj_succ, Z.pow_succ_r by lia. cbn [le_split].
  assert (0 < 256 ^ Z.of_nat n) by (apply Z.pow_pos_nonneg; lia).
  rewrite Z.rem_mul_r by lia.
  rewrite (Z.mul_comm 256), Z_mod_plus_full, Z.div_add by lia.
  rewrite Z.mod_mod by lia. f_equal.
  rewrite (Z.div_small (x mod 256)) by (apply Z.mod_pos_bound; lia).
  by rewrite Z.add_0_l, IH.
Qed.

(** Swapping the bytes of an integer reverses its object representation. *)
Ltac div_consts :=
  repeat match goal with
  | |- context [?x / ?d] =>
      let d' := eval vm_compute in d in progress change (x / d) with (x / d')
  end.

Ltac name_bytes :=
  repeat match goal with
  | |- context [?x mod 256] =>
      let b := fresh "b" in
      let H := fresh "Hb" in
      pose proof (Z.mod_pos_bound x 256 ltac:(lia)) as H;
      set (b := x mod 256) in *; clearbody b
  end.

Ltac swap_bytes :=
  unfold be_combine; cbn [le_split rev app le_combine];
  rewrite ?Z.div_div by lia; div_consts; rewrite ?Z.div_1_r;
  name_bytes.

Lemma swap_u16_bytes x : swap_u16 x = be_combine (le_split 2 x).
Proof.
  unfold swap_u16.
  rewrite (shiftl_byte x _ 0 8), (shiftr_byte x _ 8 8) by done.
  swap_bytes.
  rewrite (lor_byte 0) by lia.
  rewrite wrap_id; unfold is_u; lia.
Qed.

Lemma swap_u32_bytes x : swap_u32 x = be_combine (le_split 4 x).
Proof.
  unfold swap_u32.
  rewrite (shiftl_byte x _ 0 24), (shiftl_byte x _ 8 8), (shiftr_byte x _ 16 8),
    (shiftr_byte x _ 24 24) by done.
  swap_bytes.
  rewrite (lor_byte 16), (lor_byte 8), (lor_byte 0) by lia.
  rewrite wrap_id; unfold is_u; lia.
Qed.

Lemma swap_u64_bytes x : swap_u64 x = be_combine (le_split 8 x).
Proof.
  unfold swap_u64.
  rewrite (shiftl_byte x _ 0 56), (shiftl_byte x _ 8 40), (shiftl_byte x _ 16 24),
    (shiftl_byte x _ 24 8), (shiftr_byte x _ 32 8), (shiftr_byte x _ 40 24),
    (shiftr_byte x _ 48 40), (shiftr_byte x _ 56 56) by done.
  swap_bytes.
  rewrite (lor_byte 48), (lor_byte 40), (lor_byte 32), (lor_byte 24),
    (lor_byte 16), (lor_byte 8), (lor_byte 0) by lia.
  rewrite wrap_id; unfold is_u; lia.
Qed.

(** Storing a value after [to_endian] puts its most significant byte first;
    loading applies the inverse. *)
Section Endian.
Context `{Host}.

Lemma store_swapped n (swap : Z -> Z) x :
  (forall y, swap y = be_combine (le_split n y)) ->
  mem_store n (if is_big_endian then x else swap x) = be_split n x.
Proof.
  intros Hswap. rewrite is_big_endian_host. unfold mem_store.
  destruct host_big_endian; [done|].
  rewrite Hswap. unfold be_combine.
  pose proof (le_split_combine (rev (le_split n x))) as E.
  rewrite length_rev, length_le_split in E. rewrite E; [done|].
  apply bytes_ok_rev, le_split_ok.
Qed.

Lemma load_swapped n (swap : Z -> Z) b :
  (forall y, swap y = be_combine (le_split n y)) ->
  bytes_ok b -> length b = n ->
  (if is_big_endian then mem_value b else swap (mem_value b)) = be_combine b.
Proof.
  intros Hswap Hb Hn. rewrite is_big_endian_host. unfold mem_value.
  destruct host_big_endian; [done|].
  rewrite Hswap. by rewrite <- Hn, le_split_combine.
Qed.

Lemma store_endian_u16 x : mem_store 2 (to_endian_u16 x) = be_split 2 x.
Proof. apply store_swapped, swap_u16_bytes. Qed.

Lemma store_endian_u32 x : mem_store 4 (to_endian_u32 x) = be_split 4 x.
Proof. apply store_swapped, swap_u32_bytes. Qed.

Lemma store_endian_u64 x : mem_store 8 (to_endian_u64 x) = be_split 8 x.
Proof. apply store_swapped, swap_u64_bytes. Qed.

Lemma store_u8 x : mem_store 1 x = be_split 1 x.
Proof. unfold mem_store. by case_match. Qed.

Lemma load_endian_u16 b :
  bytes_ok b -> length b = 2%nat -> to_endian_u16 (mem_value b) = be_combine b.
Proof. apply load_swapped, swap_u16_bytes. Qed.

Lemma load_endian_u32 b :
  bytes_ok b -> length b = 4%nat -> to_endian_u32 (mem_value b) = be_combine b.
Proof. apply load_swapped, swap_u32_bytes. Qed.

Lemma load_endian_u64 b :
  bytes_ok b -> length b = 8%nat -> to_endian_u64 (mem_value b) = be_combine b.
Proof. apply load_swapped, swap_u64_bytes. Qed.

Lemma load_u8 b : length b = 1%nat -> mem_value b = be_combine b.
Proof.
  destruct b as [|x [|y b]]; [done| |done]. intros _.
  unfold mem_value. by case_match.
Qed.

End Endian.

(** ** Signed integers *)

Lemma lxor_top w x :
  0 < w -> is_u w x ->
  Z.lxor x (2 ^ (w - 1)) =
  if x <? 2 ^ (w - 1) then x + 2 ^ (w - 1) else x - 2 ^ (w - 1).
Proof.
  intros Hw Hx. unfold is_u in Hx. rewrite (pow2_double w Hw) in Hx.
  assert (Hlow : forall y, 0 <= y < 2 ^ (w - 1) ->
    Z.lxor y (2 ^ (w - 1)) = y + 2 ^ (w - 1)).
  { intros y Hy. pose proof (lor_disjoint (w - 1) y 1 ltac:(lia) Hy) as E.
    rewrite Z.mul_1_l in E. rewrite <- E. apply Z.lxor_lor.
    pose proof (Z.add_lor_land y (2 ^ (w - 1))). lia. }
  destruct (Z.ltb_spec x (2 ^ (w - 1))) as [Hlt|Hge]; [apply Hlow; lia|].
  replace x with ((x - 2 ^ (w - 1)) + 2 ^ (w - 1)) at 1 by lia.
  rewrite <- Hlow by lia.
  by rewrite Z.lxor_assoc, Z.lxor_nilpotent, Z.lxor_0_r.
Qed.

(** The memory-comparable transform of a [w]-bit signed integer is the
    translation by [2^(w-1)]. *)
Lemma encode_signed w x :
  0 < w -> is_i w x ->
  wrap w (Z.lxor (wrap w x) (2 ^ (w - 1))) = x + 2 ^ (w - 1).
Proof.
  intros Hw Hx. rewrite lxor_top by auto with range.
  rewrite (wrap_signed w x) by done. unfold is_i in Hx. pose proof (pow2_double w Hw).
  repeat bool_case; try lia; rewrite wrap_id; unfold is_u; lia.
Qed.

Lemma decode_signed w x :
  0 < w -> is_u w x -> swrap w (Z.lxor x (2 ^ (w - 1))) = x - 2 ^ (w - 1).
Proof.
  intros Hw Hx. rewrite lxor_top by done. unfold is_u in Hx.
  pose proof (pow2_double w Hw). unfold swrap. destruct (Z.ltb_spec x (2 ^ (w - 1))).
  - rewrite <- (Z_mod_plus_full _ (-1)), Z.mod_small; lia.
  - rewrite Z.mod_small; lia.
Qed.

Lemma encode_i8_spec x : is_i 8 x -> encode_i8 x = x + 2 ^ 7.
Proof. by apply (encode_signed 8). Qed.
Lemma encode_i16_spec x : is_i 16 x -> encode_i16 x = x + 2 ^ 15.
Proof. by apply (encode_signed 16). Qed.
Lemma encode_i32_spec x : is_i 32 x -> encode_i32 x = x + 2 ^ 31.
Proof. by apply (encode_signed 32). Qed.
Lemma encode_i64_spec x : is_i 64 x -> encode_i64 x = x + 2 ^ 63.
Proof. by apply (encode_signed 64). Qed.
Lemma decode_i8_spec x : is_u 8 x -> decode_i8 x = x - 2 ^ 7.
Proof. by apply (decode_signed 8). Qed.
Lemma decode_i16_spec x : is_u 16 x -> decode_i16 x = x - 2 ^ 15.
Proof. by apply (decode_signed 16). Qed.
Lemma decode_i32_spec x : is_u 32 x -> decode_i32 x = x - 2 ^ 31.
Proof. by apply (decode_signed 32). Qed.
Lemma decode_i64_spec x : is_u 64 x -> decode_i64 x = x - 2 ^ 63.
Proof. by apply (decode_signed 64). Qed.

(** ** Floating point *)

Section IeeeFacts.
Context (w m : Z) (Hm : 0 <= m < w - 1).

Definition fp_encode (x : Z) : Z :=
  if fp_ge0 w m x then Z.lor x (2 ^ (w - 1)) else wrap w (Z.lnot x).

Definition fp_decode (x : Z) : Z :=
  if 0 <? Z.shiftr (Z.land x (2 ^ (w - 1))) (w - 1)
  then Z.land x (wrap w (Z.lnot (2 ^ (w - 1))))
  else wrap w (Z.lnot x).

Lemma fp_sign_spec x : is_u w x -> fp_sign w x = (2 ^ (w - 1) <=? x).
Proof.
  intros Hx. unfold fp_sign, is_u in *. rewrite (pow2_double w) in Hx by lia.
  rewrite Z.testbit_odd, Z.shiftr_div_pow2 by lia.
  destruct (Z.leb_spec (2 ^ (w - 1)) x).
  - by replace (x / 2 ^ (w - 1)) with 1 by (apply Z.div_unique with (x - 2 ^ (w - 1)); lia).
  - by rewrite Z.div_small by lia.
Qed.

Lemma fp_key_spec x :
  is_u w x -> fp_key w x = if 2 ^ (w - 1) <=? x then 2 ^ (w - 1) - x else x.
Proof.
  intros Hx. unfold fp_key. rewrite fp_sign_spec by done.
  unfold fp_mag, is_u in *. rewrite (pow2_double w) in Hx by lia.
  destruct (Z.leb_spec (2 ^ (w - 1)) x).
  - rewrite <- (Z_mod_plus_full x (-1)), Z.mod_small; lia.
  - apply Z.mod_small; lia.
Qed.

Lemma wrap_lnot x : is_u w x -> wrap w (Z.lnot x) = 2 ^ w - 1 - x.
Proof.
  intros Hx. unfold is_u, wrap, Z.lnot in *.
  rewrite <- (Z_mod_plus_full _ 1), Z.mod_small; lia.
Qed.

(** The image of a number is an affine function of its place in the order,
    with a gap of one below the zeros. *)
Lemma fp_encode_spec x :
  is_u w x -> fp_is_nan w m x = false ->
  fp_encode x =
  2 ^ (w - 1) + fp_key w x - (if fp_key w x <? 0 then 1 else 0).
Proof.
  intros Hx Hnan. unfold fp_encode, fp_ge0. rewrite Hnan; simpl.
  rewrite fp_key_spec, wrap_lnot by done. unfold is_u in Hx.
  pose proof (pow2_double w ltac:(lia)).
  destruct (Z.leb_spec (2 ^ (w - 1)) x); repeat bool_case; try lia.
  - replace x with (2 ^ (w - 1)) by lia. rewrite Z.lor_diag. lia.
  - rewrite <- (Z.mul_1_l (2 ^ (w - 1))), lor_disjoint; lia.
Qed.

Lemma fp_decode_spec x :
  is_u w x ->
  fp_decode x = if 2 ^ (w - 1) <=? x then x - 2 ^ (w - 1) else 2 ^ w - 1 - x.
Proof.
  intros Hx. unfold fp_decode. rewrite (wrap_lnot x) by done.
  pose proof (pow2_double w ltac:(lia)) as Hw.
  pose proof (Z.pow_pos_nonneg 2 (w - 1) ltac:(lia) ltac:(lia)).
  rewrite wrap_lnot by (unfold is_u; lia).
  replace (2 ^ w - 1 - 2 ^ (w - 1)) with (2 ^ (w - 1) - 1) by lia.
  rewrite land_ones_mod by lia.
  assert (Z.shiftr (Z.land x (2 ^ (w - 1))) (w - 1) = Z.b2z (fp_sign w x)) as ->.
  { rewrite Z.shiftr_land. rewrite <- (Z.mul_1_l (2 ^ (w - 1))).
    rewrite <- Z.shiftl_mul_pow2, Z.shiftr_shiftl_r, Z.sub_diag by lia.
    change 1 with (Z.ones 1). rewrite Z.shiftr_0_r, Z.land_ones by lia.
    unfold fp_sign. by rewrite Z.testbit_spec', <- Z.shiftr_div_pow2 by lia. }
  rewrite fp_sign_spec by done. unfold is_u in Hx.
  destruct (Z.leb_spec (2 ^ (w - 1)) x); [|done]. simpl.
  rewrite <- (Z_mod_plus_full x (-1)), Z.mod_small; lia.
Qed.

Lemma fp_encode_range x :
  is_u w x -> fp_is_nan w m x = false -> is_u w (fp_encode x).
Proof.
  intros Hx Hn. rewrite fp_encode_spec, fp_key_spec by done. unfold is_u in *.
  pose proof (pow2_double w ltac:(lia)). repeat bool_case; lia.
Qed.

(** Encoded numbers compare as the numbers do. *)
Lemma fp_encode_compare x y :
  is_u w x -> is_u w y ->
  fp_is_nan w m x = false -> fp_is_nan w m y = false ->
  (fp_encode x ?= fp_encode y) = (fp_key w x ?= fp_key w y).
Proof.
  intros. rewrite !fp_encode_spec by done.
  set (a := fp_key w x); set (b := fp_key w y).
  destruct (Z.compare_spec a b) as [->|Hab|Hab]; [apply Z.compare_refl| |];
    [apply Z.compare_lt_iff|apply Z.compare_gt_iff];
    repeat bool_case; lia.
Qed.

(** Decoding inverts encoding, except that the negative zero becomes the
    positive one. *)
Lemma fp_decode_encode x :
  is_u w x -> fp_is_nan w m x = false ->
  fp_decode (fp_encode x) = if x =? 2 ^ (w - 1) then 0 else x.
Proof.
  intros Hx Hn. rewrite fp_decode_spec by by apply fp_encode_range.
  rewrite fp_encode_spec, fp_key_spec by done. unfold is_u in Hx.
  pose proof (pow2_double w ltac:(lia)). repeat bool_case; lia.
Qed.

End IeeeFacts.

(** The encoders of the source are the two instances. *)
Lemma encode_f32_fp x : encode_f32 x = fp_encode 32 23 x.
Proof. done. Qed.
Lemma decode_f32_fp x : decode_f32 x = fp_decode 32 x.
Proof. done. Qed.
Lemma encode_f64_fp x : encode_f64 x = fp_encode 64 52 x.
Proof. done. Qed.
Lemma decode_f64_fp x : decode_f64 x = fp_decode 64 x.
Proof. done. Qed.
