(* ===== verification/KvStore.v ===== *)
(** * The ordered key-value store

    What the components use of RocksDB: a column family as an interface with the
    laws of its documentation, and an instance of them. *)

From Stdlib Require Import Sorted.
From stdpp Require Import gmap sorting.
From S2P Require Import Prelude.

(** A column family: lookup, writes, and the pairs an iterator visits from a
    seek key with the same prefix of [n] bytes. *)
Class RocksDb (D : Type) := {
  db_get : D -> bytes -> option bytes;
  db_put : D -> bytes -> bytes -> D;
  db_delete : D -> bytes -> D;
  db_remove_range : D -> bytes -> bytes -> D;
  db_scan : D -> nat -> bytes -> list (bytes * bytes)
}.

(** [lo <= k < hi] in the order of the store. *)
Definition in_range (lo hi k : bytes) : bool :=
  match lex_compare lo k, lex_compare k hi with
  | Gt, _ => false
  | _, Lt => true
  | _, _ => false
  end.

Definition key_lt (a b : bytes * bytes) : Prop := lex_compare a.1 b.1 = Lt.

Class RocksDbLaws (D : Type) `{RocksDb D} := {
  get_put d k v k' : db_get (db_put d k v) k' = if decide (k' = k) then Some v else db_get d k';
  get_delete d k k' : db_get (db_delete d k) k' = if decide (k' = k) then None else db_get d k';
  get_remove_range d lo hi k :
    db_get (db_remove_range d lo hi) k = if in_range lo hi k then None else db_get d k;
  elem_of_scan d n s k v :
    (k, v) ∈ db_scan d n s <->
    db_get d k = Some v /\ (take n k = take n s /\ lex_compare s k <> Gt);
  scan_sorted d n s : Sorted.StronglySorted key_lt (db_scan d n s)
}.

(** ** An ordered store *)

Abbreviation Store := (gmap bytes bytes).

Definition pair_le (a b : bytes * bytes) : Prop := lex_compare a.1 b.1 <> Gt.

#[export] Instance pair_le_dec a b : Decision (pair_le a b) := ltac:(unfold pair_le; solve_decision).

#[export] Instance pair_le_trans : Transitive pair_le.
Proof.
  intros a b c Hab Hbc Hac. unfold pair_le in *.
  destruct (lex_compare a.1 b.1) eqn:E1; [|clear Hab|done].
  - apply lex_compare_eq in E1. by rewrite E1 in Hac.
  - destruct (lex_compare b.1 c.1) eqn:E2; [|clear Hbc|done].
    + apply lex_compare_eq in E2. rewrite E2 in E1. by rewrite E1 in Hac.
    + rewrite (lex_compare_trans Lt _ b.1) in Hac; done.
Qed.

#[export] Instance pair_le_total : Total pair_le.
Proof.
  intros a b. unfold pair_le. rewrite (lex_compare_antisym a.1 b.1).
  destruct (lex_compare a.1 b.1); simpl; [by left|by left|by right].
Qed.

Definition selected (n : nat) (s : bytes) (kv : bytes * bytes) : Prop :=
  take n kv.1 = take n s /\ lex_compare s kv.1 <> Gt.

#[export] Instance selected_dec n s kv : Decision (selected n s kv) :=
  ltac:(unfold selected; solve_decision).

#[export] Instance store_db : RocksDb Store := {
  db_get d k := d !! k;
  db_put d k v := <[k := v]> d;
  db_delete d k := delete k d;
  db_remove_range d lo hi := filter (fun kv => in_range lo hi kv.1 = false) d;
  db_scan d n s := merge_sort pair_le (filter (selected n s) (map_to_list d))
}.

Lemma sorted_strict (l : list (bytes * bytes)) :
  StronglySorted pair_le l -> NoDup l.*1 -> StronglySorted key_lt l.
Proof.
  induction 1 as [|a l Hl IH Ha]; intros Hnd; constructor; inversion_clear Hnd as [|? ? Hn Hnd'].
  - by apply IH.
  - apply Forall_forall. intros b Hb. rewrite Forall_forall in Ha. specialize (Ha b Hb).
    unfold pair_le, key_lt in *. destruct (lex_compare a.1 b.1) eqn:E; [|done..].
    apply lex_compare_eq in E. destruct Hn. rewrite E. by apply list_elem_of_fmap_2.
Qed.

#[export] Instance store_laws : RocksDbLaws Store.
Proof.
  split; simpl.
  - intros. destruct (decide (k' = k)) as [->|]; by simplify_map_eq.
  - intros. destruct (decide (k' = k)) as [->|]; by simplify_map_eq.
  - intros. destruct (in_range lo hi k) eqn:E.
    + apply map_lookup_filter_None. right. intros v _. simpl. by rewrite E.
    + destruct (d !! k) eqn:Ed; [by apply map_lookup_filter_Some|].
      apply map_lookup_filter_None. by left.
  - intros. rewrite merge_sort_Permutation, list_elem_of_filter, elem_of_map_to_list.
    unfold selected. simpl. tauto.
  - intros. apply sorted_strict; [apply (StronglySorted_merge_sort pair_le)|].
    rewrite merge_sort_Permutation. eapply sublist_NoDup; [apply (NoDup_fst_map_to_list d)|].
    apply fmap_sublist, sublist_filter.
Qed.
