(* ===== verification/Ordered.v ===== *)
(** * Strictly sorted lists of byte strings

    Keys in the order of the store: lists of them without repetition, what a
    cursor that moves forward leaves of them, and the list a set determines. *)

From Stdlib Require Import Sorted.
From stdpp Require Import sorting.
From S2P Require Import Prelude.

(** [a < b] of [std::string]. *)
Definition bytes_ltb (a b : bytes) : bool :=
  match lex_compare a b with Lt => true | _ => false end.

Definition bytes_lt (a b : bytes) : Prop := lex_compare a b = Lt.

#[export] Instance bytes_lt_dec : RelDecision bytes_lt.
Proof. intros a b. unfold bytes_lt. solve_decision. Defined.

#[export] Instance bytes_lt_strict : StrictOrder bytes_lt.
Proof.
  split.
  - intros a. red. unfold bytes_lt. by rewrite lex_compare_refl.
  - intros a b c. apply lex_compare_trans.
Qed.

Lemma bytes_ltb_spec a b : bytes_ltb a b = true <-> bytes_lt a b.
Proof. unfold bytes_ltb, bytes_lt. by case_match. Qed.

Lemma bytes_ltb_false a b : bytes_ltb a b = false <-> ~ bytes_lt a b.
Proof. unfold bytes_ltb, bytes_lt. by case_match. Qed.

Lemma bytes_lt_irrefl a : ~ bytes_lt a a.
Proof. apply irreflexivity, _. Qed.

Lemma bytes_lt_total a b : bytes_lt a b \/ a = b \/ bytes_lt b a.
Proof.
  unfold bytes_lt. destruct (lex_compare a b) eqn:E; [|by left|].
  - right; left. by apply lex_compare_eq.
  - right; right. by rewrite lex_compare_antisym, E.
Qed.

Lemma bytes_lt_asym a b : bytes_lt a b -> ~ bytes_lt b a.
Proof. intros H1 H2. by apply (bytes_lt_irrefl a), (transitivity H1). Qed.

Lemma bytes_lt_gt a b : lex_compare a b = Gt <-> bytes_lt b a.
Proof.
  unfold bytes_lt. rewrite (lex_compare_antisym b a).
  by destruct (lex_compare b a).
Qed.

Lemma bytes_not_lt_trans a b c : ~ bytes_lt b a -> ~ bytes_lt c b -> ~ bytes_lt c a.
Proof.
  intros H1 H2 H3. destruct (bytes_lt_total a b) as [?|[->|?]]; [|done..].
  by apply H2; transitivity a.
Qed.

Lemma not_lt_nil a : ~ bytes_lt a [].
Proof. unfold bytes_lt. by destruct a. Qed.

(** ** Sorted lists *)

Definition sorted (l : list bytes) : Prop := StronglySorted bytes_lt l.

Lemma sorted_cons x l : sorted (x :: l) <-> Forall (bytes_lt x) l /\ sorted l.
Proof.
  split; [intros H; inversion H; subst; by split|]. intros []. by constructor.
Qed.

Lemma sorted_nil : sorted [].
Proof. constructor. Qed.

Lemma sorted_tail l : sorted l -> sorted (tail l).
Proof. destruct l; [done|]. by intros [_ ?]%sorted_cons. Qed.

Lemma sorted_head_lt x y l : sorted (x :: l) -> y ∈ l -> bytes_lt x y.
Proof. rewrite sorted_cons, Forall_forall. intros []; auto. Qed.

Lemma sorted_sublist l l' : l' `sublist_of` l -> sorted l -> sorted l'.
Proof.
  induction 1 as [|x l1 l2 Hs IH|x l1 l2 Hs IH]; [done| |].
  - rewrite !sorted_cons. intros [Hx Hl]. split; [|auto].
    apply Forall_forall. intros y Hy. eapply Forall_forall in Hx; [done|].
    by eapply elem_of_sublist.
  - rewrite sorted_cons. intros []; auto.
Qed.

Lemma sorted_filter P `{forall x, Decision (P x)} l : sorted l -> sorted (filter P l).
Proof. apply sorted_sublist, sublist_filter. Qed.

Lemma sorted_NoDup l : sorted l -> NoDup l.
Proof.
  induction l as [|x l IH]; [constructor|]. intros H. constructor.
  - intros Hx. by eapply bytes_lt_irrefl, sorted_head_lt.
  - apply IH. by apply sorted_cons in H as [].
Qed.

(** A sorted list is determined by its elements. *)
Lemma sorted_ext l1 l2 :
  sorted l1 -> sorted l2 -> (forall x, x ∈ l1 <-> x ∈ l2) -> l1 = l2.
Proof.
  intros H1 H2 Heq. apply (StronglySorted_unique_strong bytes_lt); [|done..|].
  - intros x y _ _ Hx Hy. by apply bytes_lt_asym in Hx.
  - apply NoDup_Permutation; auto using sorted_NoDup.
Qed.

Lemma sorted_head_least x l y : sorted (x :: l) -> y ∈ x :: l -> ~ bytes_lt y x.
Proof.
  intros Hs [->|Hy]%elem_of_cons; [apply bytes_lt_irrefl|].
  by apply bytes_lt_asym, (sorted_head_lt _ _ l).
Qed.

Lemma sorted_lookup_lt l i j x y :
  sorted l -> (i < j)%nat -> l !! i = Some x -> l !! j = Some y -> bytes_lt x y.
Proof.
  intros Hs. revert i j. induction l as [|z l IH]; intros [|i] [|j] Hij Hi Hj; try done; try lia.
  - simplify_eq/=. apply (sorted_head_lt _ _ l Hs). by eapply list_elem_of_lookup_2.
  - simpl in *. apply sorted_cons in Hs as [_ Hs]. apply (IH Hs i j); [lia|done..].
Qed.

Lemma elem_of_tail_sorted x l y :
  sorted (x :: l) -> y ∈ l <-> y ∈ x :: l /\ y <> x.
Proof.
  intros Hs. rewrite elem_of_cons. split.
  - intros Hy. split; [by right|]. intros ->. by eapply bytes_lt_irrefl, sorted_head_lt.
  - by intros [[?|?] ?].
Qed.

(** ** Moving forward to a target *)

(** What is left from the first element that is not below [t]. *)
Fixpoint drop_lt (t : bytes) (l : list bytes) : list bytes :=
  match l with
  | [] => []
  | x :: l' => if bytes_ltb x t then drop_lt t l' else l
  end.

Lemma drop_lt_sublist t l : drop_lt t l `sublist_of` l.
Proof.
  induction l as [|x l IH]; simpl; [done|]. case_match; [by apply sublist_cons|done].
Qed.

Lemma sorted_drop_lt t l : sorted l -> sorted (drop_lt t l).
Proof. apply sorted_sublist, drop_lt_sublist. Qed.

Lemma elem_of_drop_lt t l x :
  sorted l -> x ∈ drop_lt t l <-> x ∈ l /\ ~ bytes_lt x t.
Proof.
  induction l as [|y l IH]; simpl.
  { intros _. by split; [intros ?%elem_of_nil|intros [?%elem_of_nil _]]. }
  intros Hs. destruct (bytes_ltb y t) eqn:E.
  - apply bytes_ltb_spec in E. apply sorted_cons in Hs as [_ Hs]. rewrite IH by done.
    rewrite elem_of_cons. split; [tauto|]. intros [[->|?] ?]; [done|tauto].
  - apply bytes_ltb_false in E. split; [|tauto]. intros Hx. split; [done|].
    eapply bytes_not_lt_trans; [exact E|]. by apply (sorted_head_least y l).
Qed.

Lemma drop_lt_id t x l : ~ bytes_lt x t -> drop_lt t (x :: l) = x :: l.
Proof. intros Hx. simpl. by rewrite (proj2 (bytes_ltb_false x t)). Qed.

Lemma drop_lt_length t l : (length (drop_lt t l) <= length l)%nat.
Proof. apply sublist_length, drop_lt_sublist. Qed.

Lemma drop_lt_all t l : sorted l -> Forall (fun x => ~ bytes_lt x t) l -> drop_lt t l = l.
Proof. intros Hs Hl. destruct Hl; [done|]. by apply drop_lt_id. Qed.

(** ** The head of a sorted list *)

Lemma head_sorted_spec l x :
  sorted l -> head l = Some x <-> x ∈ l /\ forall y, y ∈ l -> ~ bytes_lt y x.
Proof.
  intros Hs. destruct l as [|z l]; simpl.
  { split; [done|]. by intros [?%elem_of_nil _]. }
  split.
  - intros [= ->]. split; [apply elem_of_cons; by left|].
    intros y. by apply sorted_head_least.
  - intros [Hx Hmin]. apply elem_of_cons in Hx as [->|Hx]; [done|].
    destruct (Hmin z); [apply elem_of_cons; by left|]. by apply (sorted_head_lt z x l).
Qed.

Lemma head_None_nil (l : list bytes) : head l = None <-> l = [].
Proof. by destruct l. Qed.

(** ** The sorted list of a set *)

Definition bytes_le (a b : bytes) : Prop := ~ bytes_lt b a.

#[export] Instance bytes_le_dec : RelDecision bytes_le.
Proof. intros a b. unfold bytes_le. apply _. Defined.

#[export] Instance bytes_le_trans : Transitive bytes_le.
Proof. intros a b c. apply bytes_not_lt_trans. Qed.

#[export] Instance bytes_le_total : Total bytes_le.
Proof.
  intros a b. unfold bytes_le. destruct (bytes_lt_total a b) as [?|[->|?]].
  - left. by apply bytes_lt_asym.
  - left. apply bytes_lt_irrefl.
  - right. by apply bytes_lt_asym.
Qed.

Definition sort_ids (l : list bytes) : list bytes := merge_sort bytes_le (remove_dups l).

Lemma elem_of_sort_ids x l : x ∈ sort_ids l <-> x ∈ l.
Proof. unfold sort_ids. by rewrite merge_sort_Permutation, elem_of_remove_dups. Qed.

Lemma weak_sorted_strict l : StronglySorted bytes_le l -> NoDup l -> sorted l.
Proof.
  induction 1 as [|x l Hl IH Hx]; intros Hnd; [constructor|].
  inversion_clear Hnd as [|? ? Hn Hnd']. constructor; [by apply IH|].
  apply Forall_forall. intros y Hy. rewrite Forall_forall in Hx. specialize (Hx y Hy).
  destruct (bytes_lt_total x y) as [?|[->|?]]; [done|done|]. by destruct Hx.
Qed.

Lemma sort_ids_sorted l : sorted (sort_ids l).
Proof.
  apply weak_sorted_strict; [apply (StronglySorted_merge_sort bytes_le)|].
  unfold sort_ids. rewrite merge_sort_Permutation. apply NoDup_remove_dups.
Qed.

Lemma sort_ids_length l : (length (sort_ids l) <= length l)%nat.
Proof.
  apply submseteq_length, NoDup_submseteq; [apply sorted_NoDup, sort_ids_sorted|].
  intros x. by rewrite elem_of_sort_ids.
Qed.
