(* ===== verification/Heap.v ===== *)
(** * Binary heaps in a vector

    The sorters of the executor and the disjunction of the full-text engine each
    carry a copy of the same heap code.  It is modelled once, over the
    comparison that brings an element up. *)

From S2P Require Import Prelude.

#[local] Open Scope nat_scope.

(** ** Definitions *)

Section Heap.
Context {A : Type} (less : A -> A -> bool).

(** [less(h[i], h[j])]; both positions are in range where the code calls it. *)
Definition less_at (h : list A) (i j : nat) : bool :=
  match h !! i, h !! j with
  | Some a, Some b => less a b
  | _, _ => false
  end.

(** [std::iter_swap]. *)
Definition swap_at (h : list A) (i j : nat) : list A :=
  match h !! i, h !! j with
  | Some a, Some b => <[i := b]> (<[j := a]> h)
  | _, _ => h
  end.

(** The position that moves up among [index] and its children. *)
Definition min_child (h : list A) (index : nat) : nat :=
  let left := index * 2 + 1 in
  let right := left + 1 in
  let min := if less_at h left index then left else index in
  if (right <? length h) && less_at h right min then right else min.

Fixpoint shiftdown_fuel (fuel : nat) (h : list A) (index : nat) : list A :=
  match fuel with
  | O => h
  | S fuel =>
      if length h <=? index * 2 + 1 then h
      else
        let min := min_child h index in
        if min =? index then h else shiftdown_fuel fuel (swap_at h min index) min
  end.

(** The position grows with every call. *)
Definition shiftdown (h : list A) (index : nat) : list A := shiftdown_fuel (length h) h index.

(** The loop from position [n - 1] down to the root. *)
Fixpoint make_heap_from (n : nat) (h : list A) : list A :=
  match n with
  | O => h
  | S n => make_heap_from n (shiftdown h n)
  end.

Definition make_heap (h : list A) : list A := make_heap_from (length h / 2) h.

Fixpoint shiftup_fuel (fuel : nat) (h : list A) (index : nat) : list A :=
  match fuel, index with
  | O, _ | _, O => h
  | S fuel, S i =>
      let parent := i / 2 in
      if less_at h index parent then shiftup_fuel fuel (swap_at h index parent) parent else h
  end.

Definition shiftup (h : list A) (index : nat) : list A := shiftup_fuel (length h) h index.

(** ** The heap property *)

Definition child (i j : nat) : Prop := j = i * 2 + 1 \/ j = i * 2 + 2.

(** The element at [i] need not give way to the one at [j]. *)
Definition ok_at (h : list A) (i j : nat) : Prop := less_at h j i = false.

(** Every parent from position [k] on is in order with its children. *)
Definition heap_from (k : nat) (h : list A) : Prop :=
  forall i j, k <= i -> child i j -> ok_at h i j.

(** The same, but for the children of [index], which its parent may pass. *)
Definition heap_except (k index : nat) (h : list A) : Prop :=
  (forall i j, k <= i -> i <> index -> child i j -> ok_at h i j) /\
  (forall i j, k <= i -> child i index -> child index j -> ok_at h i j).

(** The same with one child out of order with its parent. *)
Definition heap_below (index : nat) (h : list A) : Prop :=
  (forall i j, j <> index -> child i j -> ok_at h i j) /\
  (forall i j, child i index -> child index j -> ok_at h i j).

End Heap.

(** A strict weak order: [less a b = false] is a total preorder. *)
Class StrictWeak {A : Type} (less : A -> A -> bool) := {
  less_asym a b : less a b = true -> less b a = false;
  less_negtrans a b c : less b a = false -> less c b = false -> less c a = false
}.

(** ** Moving elements *)

Section Moves.
Context {A : Type} (less : A -> A -> bool).
Implicit Types h : list A.

Lemma length_swap_at h i j : length (swap_at h i j) = length h.
Proof. unfold swap_at. repeat case_match; by rewrite ?length_insert. Qed.

Lemma lookup_swap_l h i j : is_Some (h !! i) -> is_Some (h !! j) -> swap_at h i j !! i = h !! j.
Proof.
  intros [a Ha] [b Hb]. unfold swap_at. rewrite Ha, Hb.
  apply list_lookup_insert_eq. rewrite length_insert. by eapply lookup_lt_Some.
Qed.

Lemma lookup_swap_r h i j : is_Some (h !! i) -> is_Some (h !! j) -> swap_at h i j !! j = h !! i.
Proof.
  intros [a Ha] [b Hb]. unfold swap_at. rewrite Ha, Hb.
  destruct (decide (i = j)) as [->|Hne].
  - rewrite list_lookup_insert_eq; [congruence|].
    rewrite length_insert. by eapply lookup_lt_Some.
  - rewrite list_lookup_insert_ne by done.
    apply list_lookup_insert_eq. by eapply lookup_lt_Some.
Qed.

Lemma lookup_swap_ne h i j n : n <> i -> n <> j -> swap_at h i j !! n = h !! n.
Proof.
  intros. unfold swap_at. repeat case_match; [|done..].
  by rewrite !list_lookup_insert_ne.
Qed.

Lemma swap_at_perm h i j : swap_at h i j ≡ₚ h.
Proof.
  unfold swap_at. destruct (h !! i) as [a|] eqn:Ha; [|done].
  destruct (h !! j) as [b|] eqn:Hb; [|done].
  destruct (decide (i = j)) as [->|Hne].
  { rewrite list_insert_insert_eq, list_insert_id; [done|congruence]. }
  apply Permutation_inj. split; [by rewrite !length_insert|].
  exists (fun n => if decide (n = i) then j else if decide (n = j) then i else n).
  split.
  - intros x y. repeat case_decide; congruence.
  - intros n. repeat case_decide; subst.
    + rewrite list_lookup_insert_eq; [done|]. rewrite length_insert. by eapply lookup_lt_Some.
    + rewrite list_lookup_insert_ne, list_lookup_insert_eq by (done || by eapply lookup_lt_Some).
      done.
    + by rewrite !list_lookup_insert_ne by done.
Qed.

Lemma shiftdown_fuel_perm fuel h i : shiftdown_fuel less fuel h i ≡ₚ h.
Proof.
  revert h i; induction fuel as [|fuel IH]; intros h i; simpl; [done|].
  repeat case_match; [done..|]. rewrite IH. apply swap_at_perm.
Qed.

Lemma shiftdown_perm h i : shiftdown less h i ≡ₚ h.
Proof. apply shiftdown_fuel_perm. Qed.

Lemma make_heap_from_perm n h : make_heap_from less n h ≡ₚ h.
Proof.
  revert h; induction n as [|n IH]; intros h; simpl; [done|].
  rewrite IH. apply shiftdown_perm.
Qed.

Lemma make_heap_perm h : make_heap less h ≡ₚ h.
Proof. apply make_heap_from_perm. Qed.

Lemma shiftup_perm h i : shiftup less h i ≡ₚ h.
Proof.
  unfold shiftup. generalize (length h) as fuel. intros fuel; revert h i.
  induction fuel as [|fuel IH]; intros h [|i]; simpl; try done.
  case_match; [|done]. rewrite IH. apply swap_at_perm.
Qed.

Lemma less_at_lt h i j : less_at less h i j = true -> i < length h /\ j < length h.
Proof.
  unfold less_at. destruct (h !! i) eqn:Hi, (h !! j) eqn:Hj; try done.
  split; by eapply lookup_lt_Some.
Qed.

Lemma min_child_cases h i :
  min_child less h i = i \/ (child i (min_child less h i) /\ min_child less h i < length h).
Proof.
  unfold min_child, child.
  destruct (less_at less h (i * 2 + 1) i) eqn:Hl; [apply less_at_lt in Hl as [??]|];
    (case_match; [|auto with lia]); right; split; try lia.
  all: match goal with H : _ && _ = true |- _ => apply andb_true_iff in H as [H _] end.
  all: by apply Nat.ltb_lt.
Qed.

(** Nothing before the position moves. *)
Lemma shiftdown_below h i n : n < i -> shiftdown less h i !! n = h !! n.
Proof.
  unfold shiftdown. generalize (length h) as fuel. intros fuel; revert h i.
  induction fuel as [|fuel IH]; intros h i Hn; simpl; [done|].
  case_match; [done|]. case_match; [done|].
  destruct (min_child_cases h i) as [Hm|[Hm _]].
  - match goal with H : (_ =? _) = false |- _ => apply Nat.eqb_neq in H end. congruence.
  - unfold child in Hm. rewrite IH by lia. apply lookup_swap_ne; lia.
Qed.

End Moves.

(** ** Order *)

Section Order.
Context {A : Type} (less : A -> A -> bool) `{!StrictWeak less}.
Implicit Types h : list A.

Lemma less_irrefl a : less a a = false.
Proof. destruct (less a a) eqn:E; [by rewrite <- E; apply less_asym|done]. Qed.

(** [less_at] sees only the two elements. *)
Lemma less_at_ext h h' i j i' j' :
  h !! i = h' !! i' -> h !! j = h' !! j' -> less_at less h i j = less_at less h' i' j'.
Proof. unfold less_at. by intros -> ->. Qed.

Lemma less_at_asym h i j : less_at less h i j = true -> less_at less h j i = false.
Proof. unfold less_at. repeat case_match; try done. apply less_asym. Qed.

Lemma less_at_negtrans h i j k :
  is_Some (h !! j) -> less_at less h j i = false -> less_at less h k j = false ->
  less_at less h k i = false.
Proof.
  intros [b Hb]. unfold less_at. rewrite Hb.
  repeat case_match; try done. intros. by eapply less_negtrans.
Qed.

Lemma less_at_irrefl h i : less_at less h i i = false.
Proof. unfold less_at. case_match; [apply less_irrefl|done]. Qed.

(** The position that moves up is in order with the other two. *)
Lemma min_child_least h i n :
  i < length h -> n = i \/ child i n -> less_at less h n (min_child less h i) = false.
Proof.
  intros Hi Hn. unfold min_child. set (l := i * 2 + 1) in *.
  set (m := if less_at less h l i then l else i).
  assert (Hm : is_Some (h !! m) /\ less_at less h i m = false /\ less_at less h l m = false).
  { unfold m. destruct (less_at less h l i) eqn:E.
    - pose proof (less_at_lt _ _ _ _ E) as []. repeat split;
        [by apply lookup_lt_is_Some|by apply less_at_asym|apply less_at_irrefl].
    - repeat split; [by apply lookup_lt_is_Some|apply less_at_irrefl|done]. }
  destruct Hm as (Hsome & Him & Hlm).
  destruct ((l + 1 <? length h) && less_at less h (l + 1) m) eqn:E.
  - apply andb_true_iff in E as [_ E]. pose proof (less_at_asym _ _ _ E) as E'.
    unfold child in Hn. fold l in Hn. destruct Hn as [->|[->| ->]].
    + by apply (less_at_negtrans _ _ m).
    + by apply (less_at_negtrans _ _ m).
    + replace (i * 2 + 2) with (l + 1) by lia. apply less_at_irrefl.
  - unfold child in Hn. fold l in Hn. destruct Hn as [->|[->| ->]]; [done..|].
    replace (i * 2 + 2) with (l + 1) by lia.
    apply andb_false_iff in E as [E|E]; [|done]. apply Nat.ltb_ge in E.
    unfold less_at. by rewrite (proj2 (lookup_ge_None _ _)) by done.
Qed.

Lemma child_inj i i' j : child i j -> child i' j -> i = i'.
Proof. unfold child. lia. Qed.

Lemma child_lt i j : child i j -> i < j.
Proof. unfold child. lia. Qed.

(** One step down moves the disorder to the child. *)
Lemma heap_except_step k h i m :
  i < length h -> m = min_child less h i -> m <> i -> k <= i ->
  heap_except less k i h -> heap_except less k m (swap_at h m i).
Proof.
  intros Hi Hmin Hne Hk [H1 H2].
  destruct (min_child_cases less h i) as [E|[Hc Hm]]; [congruence|].
  rewrite <- Hmin in Hc, Hm.
  apply lookup_lt_is_Some in Hi as Hsi. apply lookup_lt_is_Some in Hm as Hsm.
  pose proof (child_lt _ _ Hc) as Hlt.
  assert (Hup : forall a b, a <> i -> a <> m -> b <> i -> b <> m ->
    less_at less (swap_at h m i) a b = less_at less h a b).
  { intros. apply less_at_ext; by rewrite lookup_swap_ne. }
  split.
  - intros p j Hp Hpm Hcp. unfold ok_at.
    destruct (decide (p = i)) as [->|Hpi].
    + (* the children of [index] against the element moved up *)
      rewrite (less_at_ext _ h _ _ (if decide (j = m) then i else j) m).
      * rewrite Hmin. apply min_child_least; [by apply lookup_lt_is_Some|].
        case_decide; [by left|by right].
      * case_decide; [subst; by rewrite lookup_swap_l|].
        apply lookup_swap_ne; [done|]. pose proof (child_lt _ _ Hcp). lia.
      * by rewrite lookup_swap_r.
    + destruct (decide (j = i)) as [->|Hji].
      * (* the parent of [index] against the element moved up *)
        rewrite (less_at_ext _ h _ _ m p); [by apply H2|by apply lookup_swap_r|].
        by apply lookup_swap_ne.
      * assert (j <> m) by (intros ->; by apply Hpi, (child_inj p i m)).
        rewrite Hup by done. by apply H1.
  - intros p j Hp Hcp Hcm. assert (p = i) as -> by by apply (child_inj p i m).
    unfold ok_at. pose proof (child_lt _ _ Hcm).
    rewrite (less_at_ext _ h _ _ j m); [|apply lookup_swap_ne; lia|by apply lookup_swap_r].
    apply H1; [lia|lia|done].
Qed.

Lemma heap_except_leaf k h i :
  length h <= i * 2 + 1 -> heap_except less k i h -> heap_from less k h.
Proof.
  intros Hlen [H1 _] p j Hp Hc. destruct (decide (p = i)) as [->|]; [|by apply H1].
  unfold ok_at, less_at. rewrite (proj2 (lookup_ge_None h j)); [done|].
  unfold child in Hc. lia.
Qed.

Lemma shiftdown_fuel_heap fuel k h i :
  length h <= fuel + i -> k <= i -> heap_except less k i h ->
  heap_from less k (shiftdown_fuel less fuel h i).
Proof.
  revert h i; induction fuel as [|fuel IH]; intros h i Hf Hk Hh; simpl.
  { apply (heap_except_leaf k h i); [lia|done]. }
  destruct (Nat.leb_spec (length h) (i * 2 + 1)).
  { by apply (heap_except_leaf k h i). }
  destruct (Nat.eqb_spec (min_child less h i) i) as [E|E].
  - intros p j Hp Hc. destruct Hh as [H1 _].
    destruct (decide (p = i)) as [->|]; [|by apply H1].
    pose proof (min_child_least h i j ltac:(lia) (or_intror Hc)) as M. by rewrite E in M.
  - destruct (min_child_cases less h i) as [?|[Hc Hm]]; [done|].
    pose proof (child_lt _ _ Hc).
    apply IH; [rewrite length_swap_at; lia|lia|].
    by apply heap_except_step; try lia.
Qed.

(** Moving an element down restores the heap. *)
Lemma shiftdown_heap k h i :
  k <= i -> heap_except less k i h -> heap_from less k (shiftdown less h i).
Proof. intros. apply shiftdown_fuel_heap; [lia|done..]. Qed.

Lemma make_heap_from_heap n h : heap_from less n h -> heap_from less 0 (make_heap_from less n h).
Proof.
  revert h; induction n as [|n IH]; intros h Hh; simpl; [done|].
  apply IH, shiftdown_heap; [done|]. split.
  - intros i j Hi Hne. apply Hh. lia.
  - intros i j Hi Hc. pose proof (child_lt _ _ Hc). lia.
Qed.

Lemma make_heap_heap h : heap_from less 0 (make_heap less h).
Proof.
  apply make_heap_from_heap. intros i j Hi Hc. unfold ok_at, less_at.
  rewrite (proj2 (lookup_ge_None h j)); [done|].
  pose proof (Nat.div_mod (length h) 2 ltac:(lia)).
  pose proof (Nat.mod_upper_bound (length h) 2 ltac:(lia)). unfold child in Hc. lia.
Qed.

(** Every element is in order with the root of the subtree it is in. *)
Lemma heap_subtree k h j :
  heap_from less 0 h -> j < length h -> k <= j ->
  exists r, k <= r <= k * 2 /\ r <= j /\ less_at less h j r = false.
Proof.
  intros Hh. induction (lt_wf j) as [j _ IH]; intros Hj Hk.
  destruct (decide (j <= k * 2)) as [?|Hgt].
  { exists j. repeat split; [lia..|]. apply less_at_irrefl. }
  set (p := (j - 1) / 2).
  assert (Hp : child p j).
  { unfold child, p. pose proof (Nat.div_mod (j - 1) 2 ltac:(lia)).
    pose proof (Nat.mod_upper_bound (j - 1) 2 ltac:(lia)). lia. }
  pose proof (child_lt _ _ Hp).
  destruct (IH p) as (r & Hr & Hrp & Hle); [lia|lia|unfold child in Hp; lia|].
  exists r. repeat split; [lia..|].
  apply (less_at_negtrans _ _ p); [apply lookup_lt_is_Some; lia|done|].
  apply Hh; [lia|done].
Qed.

Lemma heap_root h a b :
  heap_from less 0 h -> h !! 0 = Some a -> b ∈ h -> less b a = false.
Proof.
  intros Hh Ha [j Hj]%list_elem_of_lookup_1.
  pose proof (lookup_lt_Some _ _ _ Hj).
  destruct (heap_subtree 0 h j) as (r & Hr & _ & Hle); [done|lia|lia|].
  assert (r = 0) as -> by lia. unfold less_at in Hle. by rewrite Hj, Ha in Hle.
Qed.

(** ** Moving up *)

Lemma heap_below_step h i p :
  child p i -> i < length h -> less_at less h i p = true ->
  heap_below less i h -> heap_below less p (swap_at h i p).
Proof.
  intros Hc Hi Hlt [H1 H2]. pose proof (child_lt _ _ Hc).
  assert (Hsi : is_Some (h !! i)) by by apply lookup_lt_is_Some.
  assert (Hsp : is_Some (h !! p)) by (apply lookup_lt_is_Some; lia).
  pose proof (less_at_asym _ _ _ Hlt) as Hge.
  assert (Hup : forall a b, a <> i -> a <> p -> b <> i -> b <> p ->
    less_at less (swap_at h i p) a b = less_at less h a b).
  { intros. apply less_at_ext; by rewrite lookup_swap_ne. }
  split.
  - intros q j Hj Hcq. unfold ok_at. pose proof (child_lt _ _ Hcq).
    destruct (decide (q = p)) as [->|Hqp].
    + (* the children of the parent, now the smallest of the three *)
      destruct (decide (j = i)) as [->|Hji].
      * by rewrite (less_at_ext _ h _ _ p i); [|apply lookup_swap_l|apply lookup_swap_r].
      * rewrite (less_at_ext _ h _ _ j i); [|apply lookup_swap_ne; lia|by apply lookup_swap_r].
        apply (less_at_negtrans _ _ p); [done| |by apply H1]. done.
    + destruct (decide (q = i)) as [->|Hqi].
      * rewrite (less_at_ext _ h _ _ j p); [|apply lookup_swap_ne; lia|by apply lookup_swap_l].
        by apply H2.
      * assert (j <> i) by (intros ->; by apply Hqp, (child_inj q p i)).
        rewrite Hup by done. by apply H1.
  - intros q j Hcq Hcj. unfold ok_at. pose proof (child_lt _ _ Hcq). pose proof (child_lt _ _ Hcj).
    destruct (decide (j = i)) as [->|Hji].
    + rewrite (less_at_ext _ h _ _ p q); [|by apply lookup_swap_l|apply lookup_swap_ne; lia].
      apply H1; [lia|done].
    + rewrite Hup by lia.
      apply (less_at_negtrans _ _ p); [done|apply H1; [lia|done]|by apply H1].
Qed.

(** Moving the last element up restores the heap. *)
Lemma shiftup_heap h i :
  i < length h -> heap_below less i h -> heap_from less 0 (shiftup less h i).
Proof.
  intros Hi. unfold shiftup. assert (Hf : i < length h) by done. revert Hf Hi.
  generalize (length h) at 1 3 as fuel. intros fuel; revert h i.
  induction fuel as [|fuel IH]; intros h [|i] Hf Hi Hh; cbn [shiftup_fuel]; [lia|lia| |].
  { intros p j _ Hc. pose proof (child_lt _ _ Hc). destruct Hh as [H1 _].
    apply H1; [lia|done]. }
  set (p := i / 2). fold p.
  assert (Hc : child p (S i)).
  { unfold child, p. pose proof (Nat.div_mod i 2 ltac:(lia)).
    pose proof (Nat.mod_upper_bound i 2 ltac:(lia)). lia. }
  pose proof (child_lt _ _ Hc).
  destruct (less_at less h (S i) p) eqn:E.
  - apply IH; [lia|rewrite length_swap_at; lia|]. by apply heap_below_step.
  - intros q j _ Hcq. destruct Hh as [H1 _].
    destruct (decide (j = S i)) as [->|]; [|by apply H1].
    by assert (q = p) as -> by by apply (child_inj q p (S i)).
Qed.

End Order.

(** ** Heaps of images

    Only the comparisons matter: a heap of elements and the heap of what they
    are compared by move alike. *)

Section Image.
Context {A B : Type} (f : A -> B) (less : A -> A -> bool) (less' : B -> B -> bool).
Context (P : A -> Prop).
Hypothesis less_image : forall a b, P a -> P b -> less a b = less' (f a) (f b).
Implicit Types h : list A.

Lemma less_at_image h i j : Forall P h -> less_at less h i j = less_at less' (f <$> h) i j.
Proof.
  intros Hh. unfold less_at. rewrite !list_lookup_fmap.
  destruct (h !! i) eqn:Hi, (h !! j) eqn:Hj; try done. simpl.
  apply less_image; by eapply Forall_lookup_1 in Hh.
Qed.

Lemma swap_at_image h i j : f <$> swap_at h i j = swap_at (f <$> h) i j.
Proof.
  unfold swap_at. rewrite !list_lookup_fmap.
  destruct (h !! i), (h !! j); try done. simpl. by rewrite !list_fmap_insert.
Qed.

Lemma min_child_image h i : Forall P h -> min_child less h i = min_child less' (f <$> h) i.
Proof. intros. unfold min_child. by rewrite !less_at_image, length_fmap. Qed.

Lemma swap_at_Forall h i j : Forall P h -> Forall P (swap_at h i j).
Proof. intros. by rewrite swap_at_perm. Qed.

Lemma shiftdown_image h i : Forall P h -> f <$> shiftdown less h i = shiftdown less' (f <$> h) i.
Proof.
  unfold shiftdown. rewrite length_fmap. generalize (length h) as fuel. intros fuel; revert h i.
  induction fuel as [|fuel IH]; intros h i Hh; simpl; [done|]. rewrite length_fmap.
  case_match; [done|]. rewrite <- min_child_image by done. case_match; [done|].
  rewrite IH by by apply swap_at_Forall. by rewrite swap_at_image.
Qed.

Lemma make_heap_image h : Forall P h -> f <$> make_heap less h = make_heap less' (f <$> h).
Proof.
  unfold make_heap. rewrite length_fmap. generalize (length h / 2) as n. intros n; revert h.
  induction n as [|n IH]; intros h Hh; simpl; [done|].
  rewrite IH by by rewrite shiftdown_perm. by rewrite shiftdown_image.
Qed.

End Image.
