(* ===== verification/FloatArith.v ===== *)
(** * IEEE 754 arithmetic and conversions

    A [float] or [double] is its bit pattern ([KeyEncoder]): [w] bits of which
    [m] are the fraction.  A finite value is an integer significand times a
    power of two, so every operation is exact integer arithmetic followed by
    one rounding to nearest, ties to even.  The sign and payload of a NaN that
    an operation makes are not specified by the language; [fp_qnan] stands for
    all of them. *)

From S2P Require Import Prelude KeyEncoder.

Definition round_half_even (num den : Z) : Z :=
  let q := num / den in
  let r := num mod den in
  match 2 * r ?= den with
  | Lt => q
  | Gt => q + 1
  | Eq => if Z.even q then q else q + 1
  end.

Section Format.
Variables (w m : Z).

Definition fp_qnan : Z := fp_inf w m + 2 ^ (m - 1).
Definition fp_is_inf (x : Z) : bool := fp_mag w x =? fp_inf w m.
Definition fp_is_zero (x : Z) : bool := fp_mag w x =? 0.
Definition fp_signed (neg : bool) (mag : Z) : Z :=
  if neg then 2 ^ (w - 1) + mag else mag.

(** The exponent field, the integer significand and the power of two. *)
Definition fp_exp_field (x : Z) : Z := fp_mag w x / 2 ^ m.
Definition fp_significand (x : Z) : Z :=
  let frac := fp_mag w x mod 2 ^ m in
  if fp_exp_field x =? 0 then frac else frac + 2 ^ m.

(** The exponent of the smallest normal number. *)
Definition fp_emin : Z := 2 - 2 ^ (w - 2 - m).
Definition fp_exponent (x : Z) : Z := Z.max 1 (fp_exp_field x) - 1 + fp_emin - m.

(** The magnitude of a finite value as a fraction. *)
Definition fp_num (x : Z) : Z := fp_significand x * 2 ^ Z.max (fp_exponent x) 0.
Definition fp_den (x : Z) : Z := 2 ^ Z.max (- fp_exponent x) 0.

(** The binary exponent of [num / den]. *)
Definition log2_ratio (num den : Z) : Z :=
  let l := Z.log2 num - Z.log2 den in
  if den * 2 ^ Z.max l 0 <=? num * 2 ^ Z.max (- l) 0 then l else l - 1.

(** [num / den] rounded to the format.  A significand that rounds up to the
    next power of two carries into the exponent field. *)
Definition fp_round_mag (num den : Z) : Z :=
  if num =? 0 then 0 else
  let qe := Z.max (log2_ratio num den) fp_emin - m in
  let q := round_half_even (num * 2 ^ Z.max (- qe) 0) (den * 2 ^ Z.max qe 0) in
  Z.min ((qe + m - fp_emin) * 2 ^ m + q) (fp_inf w m).

Definition fp_make (neg : bool) (num den : Z) : Z :=
  fp_signed neg (fp_round_mag num den).

Definition fp_of_Z (z : Z) : Z := fp_make (z <? 0) (Z.abs z) 1.

(** Conversion to an integer drops the fraction; it is undefined for a NaN or
    an infinity. *)
Definition fp_trunc (x : Z) : option Z :=
  if fp_inf w m <=? fp_mag w x then None
  else let z := fp_num x / fp_den x in Some (if fp_sign w x then - z else z).

Definition fp_mul (x y : Z) : Z :=
  let neg := xorb (fp_sign w x) (fp_sign w y) in
  if fp_is_nan w m x || fp_is_nan w m y then fp_qnan
  else if fp_is_inf x || fp_is_inf y then
    if fp_is_zero x || fp_is_zero y then fp_qnan else fp_signed neg (fp_inf w m)
  else fp_make neg (fp_num x * fp_num y) (fp_den x * fp_den y).

Definition fp_div (x y : Z) : Z :=
  let neg := xorb (fp_sign w x) (fp_sign w y) in
  if fp_is_nan w m x || fp_is_nan w m y then fp_qnan
  else if fp_is_inf x then if fp_is_inf y then fp_qnan else fp_signed neg (fp_inf w m)
  else if fp_is_inf y then fp_signed neg 0
  else if fp_is_zero y then
    if fp_is_zero x then fp_qnan else fp_signed neg (fp_inf w m)
  else fp_make neg (fp_num x * fp_den y) (fp_den x * fp_num y).

Definition fp_snum (x : Z) : Z := if fp_sign w x then - fp_num x else fp_num x.

(** An exact sum of zero is negative only when both operands are. *)
Definition fp_add (x y : Z) : Z :=
  if fp_is_nan w m x || fp_is_nan w m y then fp_qnan
  else if fp_is_inf x then
    if fp_is_inf y && xorb (fp_sign w x) (fp_sign w y) then fp_qnan else x
  else if fp_is_inf y then y
  else let n := fp_snum x * fp_den y + fp_snum y * fp_den x in
       fp_make (if n =? 0 then fp_sign w x && fp_sign w y else n <? 0)
               (Z.abs n) (fp_den x * fp_den y).

(** [::round]: to the nearest integer, halves away from zero. *)
Definition fp_round (x : Z) : Z :=
  if fp_inf w m <=? fp_mag w x then x
  else fp_make (fp_sign w x) ((2 * fp_num x + fp_den x) / (2 * fp_den x)) 1.

End Format.

(** Conversion between formats. *)
Definition fp_convert (w m w' m' x : Z) : Z :=
  if fp_is_nan w m x then fp_qnan w' m'
  else if fp_is_inf w m x then fp_signed w' (fp_sign w x) (fp_inf w' m')
  else fp_make w' m' (fp_sign w x) (fp_num w m x) (fp_den w m x).

Abbreviation f32_of_Z := (fp_of_Z 32 23).
Abbreviation f64_of_Z := (fp_of_Z 64 52).
Abbreviation f64_of_f32 := (fp_convert 32 23 64 52).
Abbreviation f32_of_f64 := (fp_convert 64 52 32 23).

(** ** Integers that a format represents exactly *)

Section Exact.
Context (w m : Z) (Hm : 0 < m) (Hw : m <= 2 ^ (w - 2 - m) - 1) (Hwm : m < w - 2).

Lemma log2_ratio_1 n : 0 < n -> log2_ratio n 1 = Z.log2 n.
Proof.
  intros Hn. unfold log2_ratio. cbn [Z.log2]. rewrite Z.sub_0_r.
  pose proof (Z.log2_nonneg n). pose proof (Z.log2_spec n Hn).
  rewrite (Z.max_l (Z.log2 n)), (Z.max_r (- Z.log2 n)) by lia.
  rewrite (proj2 (Z.leb_le _ _)); lia.
Qed.

Lemma round_half_even_1 n : round_half_even n 1 = n.
Proof. unfold round_half_even. rewrite Z.div_1_r, Z.mod_1_r. done. Qed.

(** The magnitude of a positive integer below [2^(m+1)]. *)
Lemma fp_round_mag_small n :
  0 < n < 2 ^ (m + 1) ->
  let l := Z.log2 n in
  fp_round_mag w m n 1 = (l - fp_emin w m) * 2 ^ m + n * 2 ^ (m - l) /\
  (l - fp_emin w m + 2) * 2 ^ m <= fp_inf w m /\
  2 ^ m <= n * 2 ^ (m - l) < 2 * 2 ^ m.
Proof.
  intros Hn l. pose proof (Z.log2_nonneg n) as Hl0. pose proof (Z.log2_spec n ltac:(lia)) as Hs.
  assert (Hl : l <= m) by (apply Z.lt_succ_r, Z.log2_lt_pow2; [lia|apply Hn]).
  fold l in Hl0, Hs.
  assert (Hq : 2 ^ m <= n * 2 ^ (m - l) < 2 * 2 ^ m).
  { replace (2 ^ m) with (2 ^ l * 2 ^ (m - l)) by (rewrite <- Z.pow_add_r by lia; f_equal; lia).
    assert (0 < 2 ^ (m - l)) by (apply Z.pow_pos_nonneg; lia).
    rewrite Z.pow_succ_r in Hs by done. nia. }
  assert (Hi : (l - fp_emin w m + 2) * 2 ^ m <= fp_inf w m).
  { unfold fp_inf, fp_emin. replace (w - 1) with (w - 2 - m + 1 + m) by lia.
    rewrite !Z.pow_add_r by lia. assert (0 < 2 ^ m) by (apply Z.pow_pos_nonneg; lia). nia. }
  split; [|done]. unfold fp_round_mag.
  rewrite (proj2 (Z.eqb_neq n 0)), log2_ratio_1 by lia. fold l.
  assert (fp_emin w m <= 0) by (unfold fp_emin; lia).
  rewrite (Z.max_l l), (Z.max_r (l - m)), (Z.max_l (- (l - m))) by lia.
  change (2 ^ 0) with 1. rewrite Z.mul_1_r, round_half_even_1.
  replace (- (l - m)) with (m - l) by lia. replace (l - m + m) with l by lia.
  apply Z.min_l. lia.
Qed.

(** Reading back a sign and a magnitude. *)
Lemma fp_signed_read neg mag :
  0 <= mag < 2 ^ (w - 1) ->
  fp_mag w (fp_signed w neg mag) = mag /\ fp_sign w (fp_signed w neg mag) = neg.
Proof.
  intros Hmag. pose proof (pow2_double w ltac:(lia)) as E.
  assert (is_u w (fp_signed w neg mag))
    by (unfold is_u, fp_signed; destruct neg; lia).
  split.
  - unfold fp_mag, fp_signed. destruct neg; [|by apply Z.mod_small].
    replace (2 ^ (w - 1) + mag) with (mag + 1 * 2 ^ (w - 1)) by lia.
    rewrite Z.mod_add by lia. by apply Z.mod_small.
  - rewrite (fp_sign_spec w 0) by (done || lia). unfold fp_signed.
    destruct neg; [apply Z.leb_le|apply Z.leb_gt]; lia.
Qed.

Lemma fp_inf_range : 0 < fp_inf w m <= 2 ^ (w - 1).
Proof.
  unfold fp_inf. assert (2 ^ m < 2 ^ (w - 1)) by (apply Z.pow_lt_mono_r; lia).
  assert (0 < 2 ^ m) by (apply Z.pow_pos_nonneg; lia). lia.
Qed.

Lemma round_half_even_nonneg num den : 0 <= num -> 0 < den -> 0 <= round_half_even num den.
Proof.
  intros. pose proof (Z.div_pos num den ltac:(lia) ltac:(lia)).
  unfold round_half_even. repeat case_match; lia.
Qed.

Lemma fp_round_mag_range num den :
  0 <= num -> 0 < den -> 0 <= fp_round_mag w m num den <= fp_inf w m.
Proof.
  intros Hn Hd. pose proof fp_inf_range. unfold fp_round_mag.
  destruct (num =? 0); [lia|]. cbv zeta. set (qe := Z.max _ _ - m).
  assert (0 <= round_half_even (num * 2 ^ Z.max (- qe) 0) (den * 2 ^ Z.max qe 0)).
  { apply round_half_even_nonneg; [|apply Z.mul_pos_pos; [done|]].
    - apply Z.mul_nonneg_nonneg; [done|apply Z.pow_nonneg; lia].
    - apply Z.pow_pos_nonneg; lia. }
  assert (0 <= (qe + m - fp_emin w m) * 2 ^ m).
  { apply Z.mul_nonneg_nonneg; [subst qe; lia|apply Z.pow_nonneg; lia]. }
  lia.
Qed.

Lemma fp_of_Z_range z : is_u w (fp_of_Z w m z).
Proof.
  pose proof (fp_round_mag_range (Z.abs z) 1 ltac:(lia) ltac:(lia)).
  pose proof fp_inf_range. pose proof (pow2_double w ltac:(lia)).
  assert (fp_inf w m < 2 ^ (w - 1))
    by (unfold fp_inf; assert (0 < 2 ^ m) by (apply Z.pow_pos_nonneg; lia); lia).
  unfold is_u, fp_of_Z, fp_make, fp_signed. destruct (z <? 0); lia.
Qed.

Lemma fp_trunc_zero : fp_trunc w m 0 = Some 0.
Proof.
  pose proof fp_inf_range. assert (0 < 2 ^ m) by (apply Z.pow_pos_nonneg; lia).
  unfold fp_trunc, fp_num, fp_significand, fp_exp_field, fp_mag.
  rewrite (Z.mod_0_l (2 ^ (w - 1))), (Z.div_0_l (2 ^ m)), (Z.mod_0_l (2 ^ m)) by lia.
  rewrite (proj2 (Z.leb_gt _ _)) by lia. cbn [Z.eqb].
  assert (0 < fp_den w m 0) by (apply Z.pow_pos_nonneg; lia).
  rewrite Z.mul_0_l, Z.div_0_l by lia. by destruct (fp_sign w 0).
Qed.

Lemma fp_trunc_of_Z z : Z.abs z < 2 ^ (m + 1) -> fp_trunc w m (fp_of_Z w m z) = Some z.
Proof.
  intros Hz. unfold fp_of_Z, fp_make.
  pose proof fp_inf_range as Hinf. destruct (Z.eq_dec z 0) as [->|Hnz].
  { apply fp_trunc_zero. }
  destruct (fp_round_mag_small (Z.abs z)) as (Hr & Hi & Hq); [lia|].
  set (l := Z.log2 (Z.abs z)) in *. set (q := Z.abs z * 2 ^ (m - l)) in *.
  set (M := fp_round_mag w m (Z.abs z) 1) in *.
  pose proof (Z.log2_nonneg (Z.abs z)) as Hl0. fold l in Hl0.
  assert (Hl : l <= m) by (apply Z.lt_succ_r, Z.log2_lt_pow2; [lia|apply Hz]).
  assert (He : fp_emin w m <= 0) by (unfold fp_emin; lia).
  assert (H2m : 0 < 2 ^ m) by (apply Z.pow_pos_nonneg; lia).
  destruct (fp_signed_read (z <? 0) M) as [Em Es]; [nia|].
  unfold fp_trunc. rewrite Em, Es, (proj2 (Z.leb_gt _ _)) by nia.
  assert (Ef : M / 2 ^ m = l - fp_emin w m + 1 /\ M mod 2 ^ m = q - 2 ^ m).
  { replace M with ((l - fp_emin w m + 1) * 2 ^ m + (q - 2 ^ m)) by lia.
    rewrite Z.div_add_l, (Z.div_small (q - 2 ^ m)) by lia.
    rewrite (Z.add_comm (_ * _)), Z.mod_add, (Z.mod_small (q - 2 ^ m)) by lia. lia. }
  unfold fp_num, fp_den, fp_exponent, fp_significand, fp_exp_field.
  rewrite Em. destruct Ef as [-> ->].
  rewrite (proj2 (Z.eqb_neq _ 0)) by lia. rewrite (Z.max_r 1) by lia.
  replace (l - fp_emin w m + 1 - 1 + fp_emin w m - m) with (l - m) by lia.
  rewrite (Z.max_r (l - m)), (Z.max_l (- (l - m))) by lia.
  replace (- (l - m)) with (m - l) by lia. rewrite Z.sub_add. change (2 ^ 0) with 1.
  rewrite Z.mul_1_r. unfold q. rewrite Z.div_mul by lia.
  f_equal. destruct (Z.ltb_spec z 0); lia.
Qed.

End Exact.

(** * Double arithmetic as the source writes it

    The operators of [FloatArith] at the format of [double], and the functions of the C
    library whose last bit it does not specify. *)

(** [sqrt], [pow] and [log]. *)
Class Libm := { libm_sqrt : Z -> Z; libm_pow : Z -> Z -> Z; libm_log : Z -> Z }.

Definition f64_one : Z := 0x3ff0000000000000.
Definition f64_half : Z := 0x3fe0000000000000.
Definition f64_inf : Z := fp_inf 64 52.
Definition f64_nan : Z := fp_qnan 64 52.
Definition f64_add := fp_add 64 52.
Definition f64_mul := fp_mul 64 52.
Definition f64_div := fp_div 64 52.
Definition f64_sub (x y : Z) : Z := fp_add 64 52 x (Z.lxor y (2 ^ 63)).

(** [==], [<=] and [fabs] of doubles. *)
Definition f64_eqb (x y : Z) : bool :=
  negb (fp_is_nan 64 52 x) && negb (fp_is_nan 64 52 y) && (fp_key 64 x =? fp_key 64 y).
Definition f64_leb (x y : Z) : bool := fp_lt 64 52 x y || f64_eqb x y.
Definition f64_abs (x : Z) : Z := fp_mag 64 x.
