(* ===== verification/Calendar.v ===== *)
(** * The C library's calendar

    What the sources use of [<time.h>]: broken-down time, the proleptic
    Gregorian calendar, [gmtime_r], [localtime_r] and [mktime].  The time
    zone is a parameter: a class gives the offset from UTC and the daylight
    saving flag of every instant and the function [mktime] computes. *)

From S2P Require Import Prelude.

Record tm := mk_tm {
  tm_sec : Z; tm_min : Z; tm_hour : Z;
  tm_mday : Z; tm_mon : Z; tm_year : Z;
  tm_isdst : Z
}.

(** Days since 1970-01-01 of a date; the year starts in March and [mp] counts
    its months from 0.  The month is in [1, 12]. *)
Definition days_from_civil (y m d : Z) : Z :=
  let y := if m <=? 2 then y - 1 else y in
  let era := y / 400 in
  let yoe := y mod 400 in
  let mp := if 2 <? m then m - 3 else m + 9 in
  let doy := (153 * mp + 2) / 5 + d - 1 in
  let doe := yoe * 365 + yoe / 4 - yoe / 100 + doy in
  era * 146097 + doe - 719468.

Definition civil_from_days (z : Z) : Z * Z * Z :=
  let z := z + 719468 in
  let era := z / 146097 in
  let doe := z mod 146097 in
  let yoe := (doe - doe / 1460 + doe / 36524 - doe / 146096) / 365 in
  let doy := doe - (365 * yoe + yoe / 4 - yoe / 100) in
  let mp := (5 * doy + 2) / 153 in
  let d := doy - (153 * mp + 2) / 5 + 1 in
  let m := if mp <? 10 then mp + 3 else mp - 9 in
  let y := yoe + era * 400 in
  (if m <=? 2 then y + 1 else y, m, d).

(** The broken-down UTC time of an instant. *)
Definition gmtime (t : Z) : tm :=
  let '(y, m, d) := civil_from_days (t / 86400) in
  let s := t mod 86400 in
  mk_tm (s mod 60) (s / 60 mod 60) (s / 3600) d (m - 1) (y - 1900) 0.

(** The instant of a broken-down UTC time; fields outside their ranges are
    carried, as [mktime] does. *)
Definition timegm (x : tm) : Z :=
  let y := tm_year x + 1900 + tm_mon x / 12 in
  let m := tm_mon x mod 12 + 1 in
  86400 * (days_from_civil y m 1 + (tm_mday x - 1))
  + 3600 * tm_hour x + 60 * tm_min x + tm_sec x.

Class Zone := {
  zone_offset : Z -> Z;      (** seconds east of UTC at an instant *)
  zone_dst : Z -> bool;      (** daylight saving in force at an instant *)
  mktime : tm -> Z
}.

Definition localtime `{Zone} (t : Z) : tm :=
  let x := gmtime (t + zone_offset t) in
  mk_tm (tm_sec x) (tm_min x) (tm_hour x) (tm_mday x) (tm_mon x) (tm_year x)
        (Z.b2z (zone_dst t)).

(** What a program may rely on: where daylight saving is not in force,
    [mktime] inverts [localtime]. *)
Class ZoneOk `{Zone} := {
  mktime_localtime t : zone_dst t = false -> mktime (localtime t) = t
}.

(** A zone with a fixed offset, such as UTC+8. *)
Definition fixed_zone (offset : Z) : Zone := {|
  zone_offset _ := offset;
  zone_dst _ := false;
  mktime x := timegm x - offset
|}.

(** ** The calendar is consistent *)

Ltac div_lia := Z.div_mod_to_equations; lia.

(** The year of a 400-year era and the day of that year. *)
Lemma era_split doe :
  0 <= doe < 146097 ->
  let yoe := (doe - doe / 1460 + doe / 36524 - doe / 146096) / 365 in
  0 <= yoe < 400 /\ 0 <= doe - (365 * yoe + yoe / 4 - yoe / 100) < 366.
Proof. intros H. cbv zeta. div_lia. Qed.

Lemma civil_month doy :
  0 <= doy < 366 ->
  let mp := (5 * doy + 2) / 153 in
  0 <= mp < 12 /\ 1 <= doy - (153 * mp + 2) / 5 + 1 <= 31.
Proof. intros H. cbv zeta. div_lia. Qed.

(** Every day number is the number of its date. *)
Lemma days_civil z :
  let '(y, m, d) := civil_from_days z in
  1 <= m <= 12 /\ 1 <= d <= 31 /\ days_from_civil y m d = z.
Proof.
  unfold civil_from_days. cbv zeta.
  set (era := (z + 719468) / 146097). set (doe := (z + 719468) mod 146097).
  assert (Hdoe : 0 <= doe < 146097) by (apply Z.mod_pos_bound; lia).
  assert (Hz : z = era * 146097 + doe - 719468)
    by (subst era doe; div_lia).
  clearbody era doe. pose proof (era_split doe Hdoe) as Hy. cbv zeta in Hy.
  set (yoe := (doe - _ + _ - _) / 365) in *. clearbody yoe.
  set (doy := doe - _) in *. destruct Hy as [Hyoe Hdoy].
  pose proof (civil_month doy Hdoy) as Hmp. cbv zeta in Hmp.
  set (mp := (5 * doy + 2) / 153) in *. clearbody mp.
  split; [repeat bool_case; lia|]. split; [lia|].
  unfold days_from_civil. subst doy.
  assert (E : forall y, y = yoe + era * 400 -> y / 400 = era /\ y mod 400 = yoe).
  { intros y ->. rewrite Z.div_add, Z.mod_add by lia.
    rewrite Z.div_small, Z.mod_small by lia. lia. }
  destruct (Z.ltb_spec mp 10).
  - rewrite (proj2 (Z.leb_gt (mp + 3) 2)), (proj2 (Z.ltb_lt 2 (mp + 3))) by lia.
    destruct (E _ eq_refl) as [-> ->].
    replace (mp + 3 - 3) with mp by lia. lia.
  - rewrite (proj2 (Z.leb_le (mp - 9) 2)), (proj2 (Z.ltb_ge 2 (mp - 9))) by lia.
    destruct (E (yoe + era * 400 + 1 - 1) ltac:(lia)) as [-> ->].
    replace (mp - 9 + 9) with mp by lia. lia.
Qed.

Definition is_leap (y : Z) : bool :=
  (y mod 4 =? 0) && negb (y mod 100 =? 0) || (y mod 400 =? 0).

Definition month_days (y m : Z) : Z :=
  match m with
  | 2 => if is_leap y then 29 else 28
  | 4 | 6 | 9 | 11 => 30
  | _ => 31
  end.

Definition valid_date (y m d : Z) : Prop :=
  1 <= m <= 12 /\ 1 <= d <= month_days y m.

(** The year of the era is recovered from the day of the era; day 365 only
    occurs in years that end with a leap February. *)
Lemma era_join yoe doy :
  0 <= yoe < 400 -> 0 <= doy < 366 ->
  (doy = 365 -> (yoe mod 4 = 3 /\ yoe mod 100 <> 99) \/ yoe = 399) ->
  let doe := yoe * 365 + yoe / 4 - yoe / 100 + doy in
  0 <= doe < 146097 /\
  (doe - doe / 1460 + doe / 36524 - doe / 146096) / 365 = yoe.
Proof. intros Hy Hd H365. cbv zeta. div_lia. Qed.

(** Counting months from March, the day of the year determines the month. *)
Lemma month_join m d :
  1 <= m <= 12 -> 1 <= d ->
  (d <= 31 /\ m <> 2 /\ m <> 4 /\ m <> 6 /\ m <> 9 /\ m <> 11 \/ d <= 30 /\ m <> 2
   \/ d <= 29) ->
  let mp := if 2 <? m then m - 3 else m + 9 in
  let doy := (153 * mp + 2) / 5 + d - 1 in
  0 <= mp < 12 /\ 0 <= doy < 366 /\ (5 * doy + 2) / 153 = mp /\
  (doy = 365 -> m = 2 /\ d = 29).
Proof. intros Hm Hd Hc. cbv zeta. bool_case; div_lia. Qed.

Lemma month_days_cases y m d :
  1 <= m <= 12 -> d <= month_days y m ->
  (d <= 31 /\ m <> 2 /\ m <> 4 /\ m <> 6 /\ m <> 9 /\ m <> 11 \/ d <= 30 /\ m <> 2
   \/ d <= 29) /\ (m = 2 -> d = 29 -> is_leap y = true).
Proof.
  intros Hm Hd.
  assert (m = 1 \/ m = 2 \/ m = 3 \/ m = 4 \/ m = 5 \/ m = 6 \/ m = 7 \/ m = 8 \/
          m = 9 \/ m = 10 \/ m = 11 \/ m = 12) as Hc by lia.
  unfold month_days in Hd.
  destruct Hc as [->|[->|[->|[->|[->|[->|[->|[->|[->|[->|[->| ->]]]]]]]]]]];
    try (split; [lia|lia]).
  destruct (is_leap y); split; auto; lia.
Qed.

(** Dates are determined by their day numbers. *)
Lemma civil_days y m d :
  valid_date y m d -> civil_from_days (days_from_civil y m d) = (y, m, d).
Proof.
  intros [Hm [Hd1 Hd2]].
  destruct (month_days_cases y m d Hm Hd2) as [Hd Hleap].
  pose proof (month_join m d Hm Hd1 Hd) as Hmj.
  unfold days_from_civil, civil_from_days. cbv zeta in *.
  set (mp := if 2 <? m then m - 3 else m + 9) in *.
  set (y' := if m <=? 2 then y - 1 else y) in *.
  set (doy := (153 * mp + 2) / 5 + d - 1) in *.
  destruct Hmj as (Hmp & Hdoy & Emp & H365).
  pose proof (Z.mod_pos_bound y' 400 ltac:(lia)) as Hyoe.
  pose proof (era_join (y' mod 400) doy Hyoe Hdoy) as Hj. cbv zeta in Hj.
  destruct Hj as [Hdoe Eyoe].
  { intros [-> ->]%H365. specialize (Hleap eq_refl eq_refl).
    unfold is_leap in Hleap. subst y'; simpl in *. clear -Hleap.
    apply orb_true_iff in Hleap as [Hl|Hl].
    - apply andb_true_iff in Hl as [H4 H100].
      apply Z.eqb_eq in H4. apply negb_true_iff, Z.eqb_neq in H100. left. div_lia.
    - apply Z.eqb_eq in Hl. right. div_lia. }
  set (doe := y' mod 400 * 365 + _ - _ + doy) in *.
  replace (y' / 400 * 146097 + doe - 719468 + 719468)
    with (doe + y' / 400 * 146097) by lia.
  rewrite Z.div_add, Z.mod_add, (Z.div_small doe), (Z.mod_small doe) by lia.
  rewrite Eyoe.
  replace (doe - (365 * (y' mod 400) + y' mod 400 / 4 - y' mod 400 / 100))
    with doy by (unfold doe; ring).
  rewrite Emp. subst y' doy mp. f_equal; [f_equal|].
  - repeat bool_case; try lia; div_lia.
  - repeat bool_case; lia.
  - lia.
Qed.

(** ** Instants and broken-down time *)

Lemma timegm_gmtime t : timegm (gmtime t) = t.
Proof.
  unfold timegm, gmtime. pose proof (days_civil (t / 86400)) as Hd.
  destruct (civil_from_days (t / 86400)) as [[y m] d].
  destruct Hd as (Hm & Hd & Ed). simpl.
  rewrite (Z.div_small (m - 1)), (Z.mod_small (m - 1)) by lia.
  assert (days_from_civil (y - 1900 + 1900 + 0) (m - 1 + 1) 1 + (d - 1) = t / 86400) as ->.
  { rewrite <- Ed. unfold days_from_civil.
    replace (y - 1900 + 1900 + 0) with y by lia.
    replace (m - 1 + 1) with m by lia. lia. }
  div_lia.
Qed.

Lemma gmtime_range t :
  let x := gmtime t in
  0 <= tm_sec x < 60 /\ 0 <= tm_min x < 60 /\ 0 <= tm_hour x < 24 /\
  1 <= tm_mday x <= 31 /\ 0 <= tm_mon x < 12.
Proof.
  unfold gmtime. pose proof (days_civil (t / 86400)) as Hd.
  destruct (civil_from_days (t / 86400)) as [[y m] d]. simpl. div_lia.
Qed.

(** A valid broken-down time is the time of its instant. *)
Lemma gmtime_timegm x :
  valid_date (tm_year x + 1900) (tm_mon x + 1) (tm_mday x) ->
  0 <= tm_hour x < 24 -> 0 <= tm_min x < 60 -> 0 <= tm_sec x < 60 ->
  tm_isdst x = 0 -> gmtime (timegm x) = x.
Proof.
  intros Hv Hh Hm Hs Hdst. unfold gmtime, timegm.
  assert (0 <= tm_mon x < 12) by (destruct Hv; lia).
  rewrite (Z.div_small (tm_mon x)), (Z.mod_small (tm_mon x)) by lia.
  set (days := days_from_civil _ _ 1 + (tm_mday x - 1)).
  assert (days = days_from_civil (tm_year x + 1900) (tm_mon x + 1) (tm_mday x)) as Ed.
  { subst days. unfold days_from_civil. rewrite Z.add_0_r. lia. }
  set (s := 3600 * tm_hour x + 60 * tm_min x + tm_sec x).
  replace (86400 * days + 3600 * tm_hour x + 60 * tm_min x + tm_sec x)
    with (s + days * 86400) by (subst s; lia).
  rewrite Z.div_add, Z.mod_add by lia.
  rewrite (Z.div_small s), (Z.mod_small s) by (subst s; lia).
  rewrite Z.add_0_l, Ed, civil_days by done.
  destruct x; simpl in *; subst s; f_equal; try lia; div_lia.
Qed.

#[export] Instance fixed_zone_ok offset : @ZoneOk (fixed_zone offset).
Proof.
  constructor. intros t _.
  change (timegm (gmtime (t + offset)) - offset = t).
  rewrite timegm_gmtime. lia.
Qed.
