(* ===== verification/Stdio.v ===== *)
(** * Decimal text: [std::to_string], [snprintf] and [sscanf]

    What the sources use of C and C++ text conversion, on byte strings. *)

From S2P Require Import Prelude.

Definition chr (a : ascii) : Z := Z.of_nat (nat_of_ascii a).

Definition isdigit (c : Z) : bool := (48 <=? c) && (c <=? 57).
Definition isspace (c : Z) : bool := (c =? 32) || ((9 <=? c) && (c <=? 13)).

(** ** Printing *)

(** The decimal digits of a nonnegative integer, most significant first. *)
Fixpoint dec_go (fuel : nat) (n : Z) (acc : bytes) : bytes :=
  match fuel with
  | O => acc
  | S fuel =>
      let acc := 48 + n mod 10 :: acc in
      if n <? 10 then acc else dec_go fuel (n / 10) acc
  end.

Definition dec_u (n : Z) : bytes := dec_go (S (Z.to_nat (Z.log2 n))) n [].

(** [std::to_string] of an integer. *)
Definition to_string (n : Z) : bytes :=
  if n <? 0 then 45 :: dec_u (- n) else dec_u n.

Definition pad (w : nat) (s : bytes) : bytes :=
  replicate (w - length s) 48 ++ s.

(** The conversion [%0<w>d]. *)
Definition printf_0d (w : nat) (n : Z) : bytes :=
  if n <? 0 then 45 :: pad (w - 1) (dec_u (- n)) else pad w (dec_u n).

(** ** Scanning *)

Definition dec_value (s : bytes) : Z :=
  foldl (fun v c => 10 * v + (c - 48)) 0 s.

(** The longest run of at most [w] digits, and the rest. *)
Fixpoint span_digits (w : nat) (s : bytes) : bytes * bytes :=
  match w, s with
  | S w, c :: s' =>
      if isdigit c then
        let '(ds, rest) := span_digits w s' in (c :: ds, rest)
      else ([], s)
  | _, _ => ([], s)
  end.

Fixpoint drop_spaces (s : bytes) : bytes :=
  match s with
  | c :: s' => if isspace c then drop_spaces s' else s
  | [] => []
  end.

(** [std::stol]: blanks, a sign and digits; no digits and a value out of range
    throw. *)
Definition stol (s : bytes) : option Z :=
  let s := drop_spaces s in
  let '(neg, s) :=
    match s with
    | c :: s' => if (c =? 45) || (c =? 43) then (c =? 45, s') else (false, s)
    | [] => (false, s)
    end in
  match span_digits (length s) s with
  | ([], _) => None
  | (ds, _) =>
      let v := if neg then - dec_value ds else dec_value ds in
      if (- 2 ^ 63 <=? v) && (v <? 2 ^ 63) then Some v else None
  end.

Inductive directive :=
| DLu (w : nat)                (** [%<w>lu] *)
| DU (w : nat)                 (** [%<w>u] into an [int]; without a width, 0 *)
| DD                           (** [%d] *)
| DSpace                       (** white space *)
| DSkip (stop : Z -> bool)     (** [%*[^<set>]], a nonempty run *)
| DLit (c : Z).                (** an ordinary character *)

(** [%<w>lu]: leading white space is skipped, a sign counts in the width, a
    conversion without digits fails. *)
Definition scan_lu (w : nat) (s : bytes) : option (Z * bytes) :=
  let s := drop_spaces s in
  let '(neg, w, s) :=
    match s with
    | c :: s' =>
        if (c =? 45) || (c =? 43) then (c =? 45, (w - 1)%nat, s') else (false, w, s)
    | [] => (false, w, s)
    end in
  match span_digits w s with
  | ([], _) => None
  | (ds, rest) =>
      let v := dec_value ds in
      let v := if 2 ^ 64 <=? v then 2 ^ 64 - 1 else if neg then u64 (- v) else v in
      Some (v, rest)
  end.

Definition scan_u (w : nat) (s : bytes) : option (Z * bytes) :=
  '(v, rest) ← scan_lu (if (w =? 0)%nat then length s else w) s; Some (i32 v, rest).

(** [%d]: the text is read as a [long], saturated, and stored in an [int]. *)
Definition scan_d (s : bytes) : option (Z * bytes) :=
  let s := drop_spaces s in
  let '(neg, s) :=
    match s with
    | c :: s' => if (c =? 45) || (c =? 43) then (c =? 45, s') else (false, s)
    | [] => (false, s)
    end in
  match span_digits (length s) s with
  | ([], _) => None
  | (ds, rest) =>
      let v := dec_value ds in
      Some (i32 (if neg then Z.max (- v) (- 2 ^ 63) else Z.min v (2 ^ 63 - 1)), rest)
  end.

Fixpoint drop_until (stop : Z -> bool) (s : bytes) : bytes :=
  match s with
  | c :: s' => if stop c then s else drop_until stop s'
  | [] => []
  end.

(** The values assigned by [sscanf] before the first failing directive. *)
Fixpoint sscanf (fmt : list directive) (s : bytes) : list Z :=
  match fmt with
  | [] => []
  | DLu w :: fmt =>
      match scan_lu w s with
      | Some (v, rest) => v :: sscanf fmt rest
      | None => []
      end
  | DU w :: fmt =>
      match scan_u w s with
      | Some (v, rest) => v :: sscanf fmt rest
      | None => []
      end
  | DD :: fmt =>
      match scan_d s with
      | Some (v, rest) => v :: sscanf fmt rest
      | None => []
      end
  | DSpace :: fmt => sscanf fmt (drop_spaces s)
  | DSkip stop :: fmt =>
      match s with
      | c :: s' => if stop c then [] else sscanf fmt (drop_until stop s')
      | [] => []
      end
  | DLit d :: fmt =>
      match s with
      | c :: s' => if c =? d then sscanf fmt s' else []
      | [] => []
      end
  end.

(** ** Fixed-width decimals *)

Fixpoint dec_fix (w : nat) (n : Z) : bytes :=
  match w with
  | O => []
  | S w => dec_fix w (n / 10) ++ [48 + n mod 10]
  end.

Lemma length_dec_fix w n : length (dec_fix w n) = w.
Proof.
  revert n; induction w as [|w IH]; intros n; [done|].
  cbn [dec_fix]. rewrite length_app, IH. simpl. lia.
Qed.

Lemma dec_fix_digits w n : Forall (fun c => isdigit c = true) (dec_fix w n).
Proof.
  revert n; induction w as [|w IH]; intros n; [constructor|].
  cbn [dec_fix]. apply Forall_app; split; [apply IH|].
  constructor; [|constructor]. unfold isdigit.
  pose proof (Z.mod_pos_bound n 10 ltac:(lia)).
  apply andb_true_iff; split; apply Z.leb_le; lia.
Qed.

Lemma dec_value_snoc s c : dec_value (s ++ [c]) = 10 * dec_value s + (c - 48).
Proof. unfold dec_value. by rewrite foldl_app. Qed.

Lemma dec_value_fix w n : 0 <= n < 10 ^ Z.of_nat w -> dec_value (dec_fix w n) = n.
Proof.
  revert n; induction w as [|w IH]; intros n Hn; [simpl in *; cbv; lia|].
  rewrite Nat2Z.inj_succ, Z.pow_succ_r in Hn by lia. cbn [dec_fix].
  rewrite dec_value_snoc, IH by
    (split; [apply Z.div_pos|apply Z.div_lt_upper_bound]; lia).
  pose proof (Z.div_mod n 10); lia.
Qed.

Lemma dec_fix_pad j k n :
  0 <= n < 10 ^ Z.of_nat k -> dec_fix (j + k) n = replicate j 48 ++ dec_fix k n.
Proof.
  revert n; induction k as [|k IH]; intros n Hn.
  - simpl in Hn. replace n with 0 by lia.
    rewrite Nat.add_0_r, app_nil_r. induction j as [|j IHj]; [done|].
    cbn [dec_fix]. change (0 / 10) with 0. rewrite IHj.
    symmetry. rewrite replicate_S_end. done.
  - rewrite Nat2Z.inj_succ, Z.pow_succ_r in Hn by lia.
    rewrite <- plus_n_Sm. cbn [dec_fix].
    rewrite IH by (split; [apply Z.div_pos|apply Z.div_lt_upper_bound]; lia).
    by rewrite app_assoc.
Qed.

(** Printing an integer writes its fixed-width decimal of the least width. *)
Lemma dec_go_spec fuel n acc :
  (1 <= fuel)%nat -> 0 <= n < 2 ^ Z.of_nat fuel ->
  exists k, (1 <= k)%nat /\ n < 10 ^ Z.of_nat k /\
    (k = 1%nat \/ 10 ^ Z.of_nat (k - 1) <= n) /\
    dec_go fuel n acc = dec_fix k n ++ acc.
Proof.
  revert n acc; induction fuel as [|f IH]; intros n acc Hf Hn; [lia|].
  cbn [dec_go]. destruct (Z.ltb_spec n 10) as [Hlt|Hge].
  - exists 1%nat. split; [lia|]. split; [done|]. auto.
  - rewrite Nat2Z.inj_succ, Z.pow_succ_r in Hn by lia.
    assert (1 <= f)%nat by (destruct f; simpl in Hn; lia).
    pose proof (Z.div_mod n 10 ltac:(lia)).
    pose proof (Z.mod_pos_bound n 10 ltac:(lia)).
    destruct (IH (n / 10) (48 + n mod 10 :: acc)) as (k & Hk & Hlt & Hlo & ->);
      [done|lia|].
    exists (S k). split; [lia|].
    rewrite Nat2Z.inj_succ, Z.pow_succ_r by lia. split; [lia|].
    split; [right|cbn [dec_fix]; by rewrite <- app_assoc].
    replace (S k - 1)%nat with (S (k - 1)) by lia.
    rewrite Nat2Z.inj_succ, Z.pow_succ_r by lia.
    destruct Hlo as [->|Hlo]; [simpl; lia|lia].
Qed.

Lemma dec_u_spec n :
  0 <= n -> exists k, (1 <= k)%nat /\ n < 10 ^ Z.of_nat k /\
    (k = 1%nat \/ 10 ^ Z.of_nat (k - 1) <= n) /\ dec_u n = dec_fix k n.
Proof.
  intros Hn. unfold dec_u.
  destruct (dec_go_spec (S (Z.to_nat (Z.log2 n))) n []) as (k & Hk).
  - lia.
  - split; [done|]. pose proof (Z.log2_nonneg n).
    rewrite Nat2Z.inj_succ, Z2Nat.id by done.
    destruct (decide (n = 0)) as [->|]; [done|].
    apply Z.log2_spec. lia.
  - exists k. by rewrite app_nil_r in Hk.
Qed.

Lemma pow10_lt_inv a b : 10 ^ Z.of_nat a < 10 ^ Z.of_nat b -> (a < b)%nat.
Proof.
  intros Hlt. destruct (decide (a < b)%nat); [done|].
  assert (10 ^ Z.of_nat b <= 10 ^ Z.of_nat a) by (apply Z.pow_le_mono_r; lia). lia.
Qed.

(** A conversion wide enough for its argument has exactly its width. *)
Lemma printf_0d_fix w n :
  (1 <= w)%nat -> 0 <= n < 10 ^ Z.of_nat w -> printf_0d w n = dec_fix w n.
Proof.
  intros Hw Hn. unfold printf_0d. rewrite (proj2 (Z.ltb_ge n 0)) by lia.
  destruct (dec_u_spec n ltac:(lia)) as (k & Hk & Hlt & Hlo & ->).
  assert (k <= w)%nat.
  { destruct Hlo as [->|Hlo]; [done|].
    assert (k - 1 < w)%nat by (apply pow10_lt_inv; lia). lia. }
  unfold pad. rewrite length_dec_fix.
  replace w with ((w - k) + k)%nat at 2 by lia.
  symmetry. apply dec_fix_pad. lia.
Qed.

Lemma dec_value_to_string n : 0 <= n -> dec_value (to_string n) = n.
Proof.
  intros Hn. unfold to_string. rewrite (proj2 (Z.ltb_ge n 0)) by lia.
  destruct (dec_u_spec n Hn) as (k & _ & Hlt & _ & ->).
  apply dec_value_fix. lia.
Qed.

(** ** Scanning printed numbers *)

Lemma span_digits_app ds rest w :
  Forall (fun c => isdigit c = true) ds -> length ds = w ->
  span_digits w (ds ++ rest) = (ds, rest).
Proof.
  intros Hds; revert w.
  induction Hds as [|c ds Hc Hds IH]; intros w <-; [by destruct rest|].
  simpl. by rewrite Hc, IH.
Qed.

Lemma isdigit_not_space c : isdigit c = true -> isspace c = false.
Proof.
  unfold isdigit, isspace. intros Hc.
  destruct (Z.eqb_spec c 32), (Z.leb_spec 9 c), (Z.leb_spec c 13),
    (Z.leb_spec 48 c), (Z.leb_spec c 57); simpl in *; done || lia.
Qed.

Lemma isdigit_not_sign c : isdigit c = true -> (c =? 45) || (c =? 43) = false.
Proof.
  unfold isdigit. intros Hc.
  destruct (Z.eqb_spec c 45), (Z.eqb_spec c 43), (Z.leb_spec 48 c);
    simpl in *; done || lia.
Qed.

Lemma scan_lu_fix w n rest :
  (1 <= w <= 18)%nat -> 0 <= n < 10 ^ Z.of_nat w ->
  scan_lu w (dec_fix w n ++ rest) = Some (n, rest).
Proof.
  intros Hw Hn. unfold scan_lu.
  pose proof (dec_fix_digits w n) as Hd. pose proof (length_dec_fix w n) as Hl.
  pose proof (dec_value_fix w n Hn) as Hv.
  destruct (dec_fix w n) as [|c ds] eqn:E; [simpl in Hl; lia|].
  assert (Hc : isdigit c = true) by (by inversion Hd).
  cbn [app drop_spaces]. rewrite isdigit_not_space, isdigit_not_sign by done.
  change (c :: ds ++ rest) with ((c :: ds) ++ rest).
  rewrite span_digits_app by done. rewrite Hv.
  assert (10 ^ Z.of_nat w <= 10 ^ 18) by (apply Z.pow_le_mono_r; lia).
  rewrite (proj2 (Z.leb_gt (2 ^ 64) n)) by lia. done.
Qed.

(** ** [std::stol] *)

Lemma stol_digits k n :
  (1 <= k)%nat -> 0 <= n < 10 ^ Z.of_nat k -> n < 2 ^ 63 -> stol (dec_fix k n) = Some n.
Proof.
  intros Hk Hn Hlt. unfold stol.
  pose proof (dec_fix_digits k n) as Hd. pose proof (length_dec_fix k n) as Hl.
  pose proof (dec_value_fix k n Hn) as Hv.
  destruct (dec_fix k n) as [|c ds] eqn:E; [simpl in Hl; lia|].
  assert (Hc : isdigit c = true) by (by inversion Hd).
  cbn [drop_spaces]. rewrite isdigit_not_space, isdigit_not_sign by done.
  rewrite <- (app_nil_r (c :: ds)) at 2. rewrite span_digits_app by done. rewrite Hv.
  rewrite (proj2 (Z.leb_le (- 2 ^ 63) n)), (proj2 (Z.ltb_lt n (2 ^ 63))) by lia. done.
Qed.

Lemma stol_minus k n :
  (1 <= k)%nat -> 0 <= n < 10 ^ Z.of_nat k -> n <= 2 ^ 63 -> stol (45 :: dec_fix k n) = Some (- n).
Proof.
  intros Hk Hn Hlt. unfold stol. change (drop_spaces (45 :: dec_fix k n)) with (45 :: dec_fix k n).
  simpl. pose proof (dec_fix_digits k n) as Hd. pose proof (length_dec_fix k n) as Hl.
  pose proof (dec_value_fix k n Hn) as Hv.
  rewrite <- (app_nil_r (dec_fix k n)) at 2. rewrite span_digits_app by done.
  destruct (dec_fix k n) as [|c ds] eqn:E; [simpl in Hl; lia|]. rewrite Hv.
  rewrite (proj2 (Z.leb_le (- 2 ^ 63) (- n))), (proj2 (Z.ltb_lt (- n) (2 ^ 63))) by lia. done.
Qed.

Lemma stol_to_string n : is_i 64 n -> stol (to_string n) = Some n.
Proof.
  unfold is_i. intros Hn. unfold to_string. destruct (Z.ltb_spec n 0).
  - destruct (dec_u_spec (- n) ltac:(lia)) as (k & Hk & Hlt & _ & ->).
    rewrite stol_minus by lia. f_equal. lia.
  - destruct (dec_u_spec n ltac:(lia)) as (k & Hk & Hlt & _ & ->). by apply stol_digits; lia.
Qed.
