(* ===== verification/FloatText.v ===== *)
(** * Numbers from and to text: [%.<n>f], [%.<n>g], [strtod] and [strtoull]

    The decimal conversions are exact integer arithmetic followed by one
    rounding to nearest, ties to even. *)

From S2P Require Import Prelude KeyEncoder FloatArith Stdio.

Section FloatText.
Variables (w m : Z).

(** The magnitude times [10^k], rounded to an integer. *)
Definition fp_scaled (x k : Z) : Z :=
  round_half_even (fp_num w m x * 10 ^ Z.max k 0)
                  (fp_den w m x * 10 ^ Z.max (- k) 0).

Definition fp_sign_text (x : Z) : bytes := if fp_sign w x then [45] else [].

Definition fp_special (x : Z) : option bytes :=
  if fp_is_nan w m x then Some (bytes_of_string "nan")
  else if fp_mag w x =? fp_inf w m then Some (bytes_of_string "inf")
  else None.

(** [n] fraction digits of the integer [q], which counts units of [10^-n]. *)
Definition fixed_digits (n : nat) (q : Z) : bytes :=
  let p := 10 ^ Z.of_nat n in
  dec_u (q / p) ++ match n with O => [] | _ => 46 :: dec_fix n (q mod p) end.

Definition printf_f (n : nat) (x : Z) : bytes :=
  fp_sign_text x ++
  match fp_special x with
  | Some s => s
  | None => fixed_digits n (fp_scaled x (Z.of_nat n))
  end.

(** Whether [10^k] is at most the magnitude. *)
Definition fp_reaches (x k : Z) : bool :=
  fp_den w m x * 10 ^ Z.max k 0 <=? fp_num w m x * 10 ^ Z.max (- k) 0.

(** The decimal exponent of a nonzero magnitude: an estimate from the binary
    one, corrected by one step either way. *)
Definition fp_decade (x : Z) : Z :=
  let k := (Z.log2 (fp_significand w m x) + fp_exponent w m x) * 30103 / 100000 in
  if fp_reaches x (k + 1) then k + 1 else if fp_reaches x k then k else k - 1.

Fixpoint drop_zeros (rev_digits : bytes) : bytes :=
  match rev_digits with
  | c :: r => if c =? 48 then drop_zeros r else rev_digits
  | [] => []
  end.

(** Trailing zeros of the fraction go, and the point when nothing is left. *)
Definition strip_fraction (s : bytes) : bytes :=
  if existsb (Z.eqb 46) s then
    match drop_zeros (rev s) with
    | c :: r => if c =? 46 then rev r else rev (c :: r)
    | [] => []
    end
  else s.

Definition exp_text (k : Z) : bytes :=
  [101; if k <? 0 then 45 else 43] ++ pad 2 (dec_u (Z.abs k)).

Definition printf_g (p : Z) (x : Z) : bytes :=
  fp_sign_text x ++
  match fp_special x with
  | Some s => s
  | None =>
      if fp_significand w m x =? 0 then [48] else
      let k0 := fp_decade x in
      let d0 := fp_scaled x (p - 1 - k0) in
      let '(k, d) := if d0 =? 10 ^ p then (k0 + 1, 10 ^ (p - 1)) else (k0, d0) in
      if (-4 <=? k) && (k <? p)
      then strip_fraction (fixed_digits (Z.to_nat (p - 1 - k)) d)
      else strip_fraction (fixed_digits (Z.to_nat (p - 1)) d) ++ exp_text k
  end.

End FloatText.

(** ** [strtod] and [strtoull] *)

Definition tolower (c : Z) : Z := if (65 <=? c) && (c <=? 90) then c + 32 else c.

Definition has_prefix_ci (p s : bytes) : bool :=
  bool_decide (tolower <$> take (length p) s = p).

Definition hex_digit (c : Z) : option Z :=
  let c := tolower c in
  if isdigit c then Some (c - 48)
  else if (97 <=? c) && (c <=? 102) then Some (c - 87) else None.

Definition dec_digit (c : Z) : option Z := if isdigit c then Some (c - 48) else None.

(** The value of the leading digits in a base, how many there are, the rest. *)
Fixpoint span_base (digit : Z -> option Z) (base v : Z) (n : nat) (s : bytes) :
    Z * nat * bytes :=
  match s with
  | c :: s' =>
      match digit c with
      | Some d => span_base digit base (base * v + d) (S n) s'
      | None => (v, n, s)
      end
  | [] => (v, n, s)
  end.

(** Digits, an optional point and more digits: the value of all digits, the
    number of digits and of digits after the point, the rest. *)
Definition span_fraction (digit : Z -> option Z) (base : Z) (s : bytes) :
    Z * nat * nat * bytes :=
  let '(v, n, s) := span_base digit base 0 0 s in
  match s with
  | c :: s' =>
      if c =? 46 then
        let '(v', k, s'') := span_base digit base v 0 s' in (v', (n + k)%nat, k, s'')
      else (v, n, 0%nat, s)
  | [] => (v, n, 0%nat, s)
  end.

Definition read_sign (s : bytes) : bool * bytes :=
  match s with
  | c :: s' => if (c =? 45) || (c =? 43) then (c =? 45, s') else (false, s)
  | [] => (false, s)
  end.

(** An exponent counts only when a digit follows its letter and sign. *)
Definition read_exponent (letter : Z) (s : bytes) : Z :=
  match s with
  | c :: s' =>
      if tolower c =? letter then
        let '(neg, s') := read_sign s' in
        let '(v, n, _) := span_base dec_digit 10 0 0 s' in
        if (n =? 0)%nat then 0 else if neg then - v else v
      else 0
  | [] => 0
  end.

Definition scale_ratio (neg : bool) (v base e : Z) : Z :=
  fp_make 64 52 neg (v * base ^ Z.max e 0) (base ^ Z.max (- e) 0).

Definition strtod (s : bytes) : Z :=
  let '(neg, s) := read_sign (drop_spaces s) in
  if has_prefix_ci (bytes_of_string "inf") s then fp_signed 64 neg (fp_inf 64 52)
  else if has_prefix_ci (bytes_of_string "nan") s then fp_qnan 64 52
  else
    let '(hv, hn, hk, hs) := span_fraction hex_digit 16 (drop 2 s) in
    if has_prefix_ci (bytes_of_string "0x") s && negb (hn =? 0)%nat
    then scale_ratio neg hv 2 (read_exponent 112 hs - 4 * Z.of_nat hk)
    else
      let '(v, n, k, s') := span_fraction dec_digit 10 s in
      if (n =? 0)%nat then 0
      else scale_ratio neg v 10 (read_exponent 101 s' - Z.of_nat k).

(** [strtoull(s, NULL, 10)]: a minus sign negates modulo [2^64], a value out of
    range gives the largest one. *)
Definition strtoull (s : bytes) : Z :=
  let '(neg, s) := read_sign (drop_spaces s) in
  let '(v, _, _) := span_base dec_digit 10 0 0 s in
  if 2 ^ 64 <=? v then 2 ^ 64 - 1 else if neg then u64 (- v) else v.
