(* ===== verification/DateTime.v ===== *)
(** * Date and time values ([src/common/datetime.cpp], [include/common/datetime.h])

    A DATETIME is packed in 64 bits: 17 bits of [13 * year + month], 5 of day,
    5 of hour, 6 of minute, 6 of second and 24 of microsecond.  A DATE is the
    top 22 of these bits, a TIME is a signed 32-bit pack of hours, minutes and
    seconds. *)

From S2P Require Import Prelude KeyEncoder Stdio FloatArith FloatText Calendar.

(** ** Definitions *)

(** *** Constants of the clock ([namespace tso] of [include/common/common.h]) *)

Definition base_timestamp_ms : Z := 1577808000000.

(** *** Broken-down values exchanged with clients *)

Record DateTime := mk_DateTime {
  year : Z; month : Z; day : Z; hour : Z; minute : Z; second : Z;
  macrosec : Z; is_negative : Z
}.

Definition MYSQL_TYPE_TIMESTAMP : Z := 7.
Definition MYSQL_TYPE_TIME : Z := 11.
Definition MYSQL_TYPE_DATETIME : Z := 12.

(** *** Packed fields *)

(** [((datetime >> 46) & 0x1FFFF)] and its neighbours. *)
Definition dt_year_month (datetime : Z) : Z := Z.land (Z.shiftr datetime 46) 0x1FFFF.
Definition dt_hour (datetime : Z) : Z := Z.land (Z.shiftr datetime 36) 0x1F.
Definition dt_minute (datetime : Z) : Z := Z.land (Z.shiftr datetime 30) 0x3F.
Definition dt_second (datetime : Z) : Z := Z.land (Z.shiftr datetime 24) 0x3F.
Definition dt_macrosec (datetime : Z) : Z := Z.land datetime 0xFFFFFF.

Definition datetime_to_day (datetime : Z) : Z := Z.land (Z.shiftr datetime 41) 0x1F.
Definition datetime_to_month (datetime : Z) : Z := dt_year_month datetime mod 13.
Definition datetime_to_year (datetime : Z) : Z := dt_year_month datetime / 13.

Definition datetime_to_date (datetime : Z) : Z := Z.land (Z.shiftr datetime 41) 0x3FFFFF.
Definition date_to_datetime (date : Z) : Z := u64 (Z.shiftl date 41).

(** The sequence of [|=] that assembles a DATETIME, in [uint64_t]. *)
Definition pack_datetime (year month day hour minute second macrosec : Z) : Z :=
  let year_month := u64 (year * 13 + month) in
  let datetime := 0 in
  let datetime := Z.lor datetime (u64 (Z.shiftl year_month 46)) in
  let datetime := Z.lor datetime (u64 (Z.shiftl day 41)) in
  let datetime := Z.lor datetime (u64 (Z.shiftl hour 36)) in
  let datetime := Z.lor datetime (u64 (Z.shiftl minute 30)) in
  let datetime := Z.lor datetime (u64 (Z.shiftl second 24)) in
  Z.lor datetime macrosec.

(** *** DATETIME and text *)

Definition datetime_to_str (datetime precision_len : Z) : bytes :=
  let year := datetime_to_year datetime in
  let month := datetime_to_month datetime in
  let macrosec := dt_macrosec datetime in
  let buf :=
    printf_0d 4 year ++ [45] ++ printf_0d 2 month ++ [45]
    ++ printf_0d 2 (datetime_to_day datetime) ++ [32]
    ++ printf_0d 2 (dt_hour datetime) ++ [58]
    ++ printf_0d 2 (dt_minute datetime) ++ [58]
    ++ printf_0d 2 (dt_second datetime) ++ [46] ++ printf_0d 6 macrosec in
  if (0 <? precision_len) && (precision_len <=? 6)
  then take (Z.to_nat (20 + precision_len)) buf
  else if (precision_len =? 0) || (macrosec =? 0) then take 19 buf
  else take 26 buf.

Definition max_time_size : nat := 26.

(** The loop that finds the fraction: where it stops and the length of the
    year, [-1] when no delimiter was met. *)
Fixpoint scan_fields (has_delim : bool) (l : bytes)
    (idx delim_cnt year_length : Z) : Z * Z :=
  match l with
  | [] => (idx, year_length)
  | c :: l =>
      if has_delim then
        let nd := negb (isdigit c) in
        let delim_cnt := if nd then delim_cnt + 1 else delim_cnt in
        let year_length :=
          if nd && (year_length =? -1) then idx else year_length in
        if (5 <? delim_cnt) && (c =? 46) then (idx, year_length)
        else scan_fields has_delim l (idx + 1) delim_cnt year_length
      else if c =? 46 then (idx, year_length)
      else scan_fields has_delim l (idx + 1) delim_cnt year_length
  end.

(** The six places after the decimal point are made digits. *)
Definition fill_fraction (idx : Z) (buf : bytes) : bytes :=
  imap (fun i c =>
    let i := Z.of_nat i in
    if (idx + 1 <=? i) && (i <=? idx + 6) && (i <? Z.of_nat max_time_size)
       && negb (isdigit c)
    then 48 else c) buf.

(** The scan set of [%*[^0-9a-z]]. *)
Definition delim_stop (c : Z) : bool :=
  isdigit c || ((97 <=? c) && (c <=? 122)).

Definition fmt_delim : list directive :=
  [DLu 4; DSkip delim_stop; DLu 2; DSkip delim_stop; DLu 2; DSkip delim_stop;
   DLu 2; DSkip delim_stop; DLu 2; DSkip delim_stop; DLu 2; DLit 46; DLu 6].
Definition fmt_6 : list directive := [DLu 2; DLu 2; DLu 2].
Definition fmt_8 : list directive := [DLu 4; DLu 2; DLu 2].
Definition fmt_12 : list directive :=
  [DLu 2; DLu 2; DLu 2; DLu 2; DLu 2; DLu 2; DLit 46; DLu 6].
Definition fmt_13 : list directive := [DLu 2; DLu 2; DLu 2; DLu 2; DLu 2; DLu 2].
Definition fmt_14 : list directive :=
  [DLu 4; DLu 2; DLu 2; DLu 2; DLu 2; DLu 2; DLit 46; DLu 6].

(** The format chosen, whether it is a full date and time, and the length of
    the year: the chain of tests on [has_delim] and [idx]. *)
Definition choose_format (has_delim : bool) (idx year_length : Z) :
    option (list directive * bool * Z) :=
  if has_delim then Some (fmt_delim, true, year_length)
  else if idx <=? 6 then Some (fmt_6, false, 2)
  else if idx =? 8 then Some (fmt_8, false, year_length)
  else if idx =? 12 then Some (fmt_12, true, 2)
  else if idx <=? 13 then Some (fmt_13, true, 2)
  else if 14 <=? idx then Some (fmt_14, true, year_length)
  else None.

(** The result, and what is stored through [is_full_datetime] if anything.
    [mem] is the memory at [str_time]; [None] is a read past its end. *)
Definition str_to_datetime_internal (mem : bytes) (len0 : Z) :
    option (Z * option bool) :=
  let str_time := drop_until (fun c => negb (c =? 32)) mem in
  let len := Z.min len0 (Z.of_nat max_time_size) in
  if Z.of_nat (length str_time) <? len then None else
  let buf := take (Z.to_nat len) str_time
             ++ replicate (S max_time_size - Z.to_nat len) 0 in
  let has_delim := negb (isdigit (nth 2 buf 0) && isdigit (nth 4 buf 0)) in
  let has_delim := if nth 3 buf 0 =? 45 then true else has_delim in
  let '(idx, year_length) :=
    scan_fields has_delim (take (Z.to_nat len) buf) 0 0 (-1) in
  let buf := if idx <? len then fill_fraction idx buf else buf in
  match choose_format has_delim idx year_length with
  | None => Some (0, None)
  | Some (fmt, is_full, year_length) =>
      let v := sscanf fmt (default buf (c_str buf)) in
      let year := nth 0 v 0 in
      let month := nth 1 v 0 in
      let day := nth 2 v 0 in
      let hour := nth 3 v 0 in
      let minute := nth 4 v 0 in
      let second := nth 5 v 0 in
      let macrosec := nth 6 v 0 in
      let year :=
        if year_length =? 2 then
          if (70 <=? year) && (year <? 100) then year + 1900
          else if (year <? 70) && (0 <? year) then year + 2000 else year
        else year in
      if 12 <? month then Some (0, None)
      else if 31 <? day then Some (0, None)
      else if (23 <? hour) || (59 <? minute) || (59 <? second) then Some (0, None)
      else Some (pack_datetime year month day hour minute second macrosec,
                 Some is_full)
  end.

(** The overload on C strings: the memory is the string and its NUL. *)
Definition str_to_datetime (s : bytes) : option (Z * option bool) :=
  str_to_datetime_internal (s ++ [0]) (Z.of_nat (length s)).

Definition bin_date_to_datetime (t : DateTime) : Z :=
  let yr := if (70 <? year t) && (year t <? 100) then year t + 1900
            else if year t <? 70 then year t + 2000 else year t in
  if (month t =? 0) || (12 <? month t) then 0
  else if 31 <? day t then 0
  else if (23 <? hour t) || (59 <? minute t) || (59 <? second t) then 0
  else pack_datetime yr (month t) (day t) (hour t) (minute t) (second t) (macrosec t).

(** *** DATE and TIME as text *)

Definition date_to_str (date : Z) : bytes :=
  let year_month := Z.land (Z.shiftr date 5) 0x1FFFF in
  printf_0d 4 (year_month / 13) ++ [45] ++ printf_0d 2 (year_month mod 13) ++ [45]
  ++ printf_0d 2 (Z.land date 0x1F).

(** The three fields of the magnitude of a TIME. *)
Definition time_abs (time : Z) : bool * Z :=
  if time <? 0 then (true, i32 (- time)) else (false, time).
Definition time_hour (time : Z) : Z := Z.land (Z.shiftr time 12) 0x3FF.
Definition time_minute (time : Z) : Z := Z.land (Z.shiftr time 6) 0x3F.
Definition time_second (time : Z) : Z := Z.land time 0x3F.

Definition time_to_str (time : Z) : bytes :=
  let '(minus, time) := time_abs time in
  (if minus : bool then [45] else [])
  ++ printf_0d 2 (time_hour time) ++ [58] ++ printf_0d 2 (time_minute time)
  ++ [58] ++ printf_0d 2 (time_second time).

Definition time_to_seconds (time : Z) : Z :=
  let '(minus, time) := time_abs time in
  let res := i32 (time_second time + time_minute time * 60 + time_hour time * 3600) in
  if minus : bool then i32 (res * -1) else res.

(** The assembly of a TIME from its fields. *)
Definition pack_time (hour min sec : Z) : Z :=
  let time := 0 in
  let time := Z.lor time sec in
  let time := Z.lor time (i32 (Z.shiftl min 6)) in
  Z.lor time (i32 (Z.shiftl hour 12)).

Definition seconds_to_time (seconds : Z) : Z :=
  let minus := seconds <? 0 in
  let seconds := if minus then i32 (- seconds) else seconds in
  let sec := Z.rem seconds 60 in
  let min := Z.rem (Z.quot seconds 60) 60 in
  let hour := Z.quot seconds 3600 in
  let time := pack_time hour min sec in
  if minus then i32 (- time) else time.

Definition datetime_to_time (datetime : Z) : Z :=
  pack_time (dt_hour datetime) (dt_minute datetime) (dt_second datetime).

(** The blank, delimiter and point scan of [str_to_time]: where it stops and
    what it saw. *)
Fixpoint scan_time (l : bytes) (idx : Z) (has_blank has_delim : bool) :
    Z * bool * bool :=
  match l with
  | [] => (idx, has_blank, has_delim)
  | c :: l =>
      let has_delim := if (c =? 32) || (c =? 58) then true else has_delim in
      let has_blank := if c =? 32 then true else has_blank in
      if c =? 46 then (idx, has_blank, has_delim)
      else scan_time l (idx + 1) has_blank has_delim
  end.

(** [int x = strtod(...)]; [None] when the value is out of range. *)
Definition strtod_int (s : bytes) : option Z :=
  v ← fp_trunc 64 52 (strtod s);
  if (- 2 ^ 31 <=? v) && (v <? 2 ^ 31) then Some v else None.

(** Day, hour, minute and second of the text that starts at [mem], as the three
    notations give them; the digits are taken from the right. *)
Definition time_fields (mem : bytes) (idx : Z) (has_blank has_delim : bool) :
    option (Z * Z * Z * Z) :=
  let sub pos n := take (Z.to_nat n) (drop (Z.to_nat pos) mem) in
  if has_blank then
    let v := sscanf [DD; DSpace; DU 0; DLit 58; DU 2; DLit 58; DU 2]
               (default mem (c_str mem)) in
    Some (nth 0 v 0, nth 1 v 0, nth 2 v 0, nth 3 v 0)
  else if has_delim then
    let v := sscanf [DD; DLit 58; DU 2; DLit 58; DU 2] (default mem (c_str mem)) in
    Some (0, nth 0 v 0, nth 1 v 0, nth 2 v 0)
  else if 4 <=? idx then
    s ← strtod_int (sub (idx - 2) 2);
    mi ← strtod_int (sub (idx - 4) 2);
    h ← strtod_int (sub 0 (idx - 4));
    Some (0, h, mi, s)
  else if 2 <=? idx then
    s ← strtod_int (sub (idx - 2) 2);
    mi ← strtod_int (sub 0 (idx - 2));
    Some (0, 0, mi, s)
  else
    s ← strtod_int (sub 0 idx);
    Some (0, 0, 0, s).

(** [None]: a conversion or the arithmetic on [int] overflows, or the text is
    read outside its buffer. *)
Definition str_to_time (str : bytes) : option Z :=
  let mem := drop_until (fun c => negb (c =? 32)) (str ++ [0]) in
  let '(minus, mem) :=
    match mem with
    | c :: mem' => if c =? 45 then (true, mem') else (false, mem)
    | [] => (false, mem)
    end in
  let text := default mem (c_str mem) in
  let len := Nat.min (length text) 20 in
  let '(idx, has_blank, has_delim) := scan_time (take len mem) 0 false false in
  full ← (if 12 <=? idx then
            '(datetime, is_full) ← str_to_datetime text;
            Some (if default false is_full then Some (datetime_to_time datetime)
                  else None)
          else Some None);
  match full with
  | Some t => Some t
  | None =>
      '(day, hour, minute, second) ← time_fields mem idx has_blank has_delim;
      if (day <? 0) || (hour <? 0) || (minute <? 0) || (59 <? minute)
         || (second <? 0) || (59 <? second) then Some 0
      else
        let hour := hour + day * 24 in
        if 2 ^ 19 <=? hour then None else
        let time := Z.lor (Z.lor second (Z.shiftl minute 6)) (Z.shiftl hour 12) in
        Some (if minus : bool then - time else time)
  end.

Definition bin_time_to_datetime (t : DateTime) : Z :=
  let day := i32 (day t) in
  let hour := i32 (hour t) in
  let minute := i32 (minute t) in
  let second := i32 (second t) in
  if (day <? 0) || (hour <? 0) || (minute <? 0) || (59 <? minute)
     || (second <? 0) || (59 <? second) then 0
  else
    let time := pack_time (i32 (hour + day * 24)) minute second in
    if is_negative t =? 0 then time else i32 (- time).

(** *** Calendar arithmetic *)

Definition is_leap_year (year : Z) : bool :=
  (Z.rem year 4 =? 0) && negb (Z.rem year 100 =? 0) || (Z.rem year 400 =? 0).

Definition days_in_month : list Z := [31; 28; 31; 30; 31; 30; 31; 31; 30; 31; 30; 31].

(** [std::stoi] of a substring of digits. *)
Definition substr_int (s : bytes) (pos n : nat) : Z := dec_value (take n (drop pos s)).

Definition is_valid_date (date_str : bytes) (has_hour : bool) : bool :=
  if negb (Z.of_nat (length date_str) =? (if has_hour then 10 else 8)) then false
  else if negb (forallb isdigit (take 8 date_str)) then false
  else
    let year := substr_int date_str 0 4 in
    let mon := substr_int date_str 4 2 in
    let mday := substr_int date_str 6 2 in
    if (mon <? 1) || (12 <? mon) then false
    else
      let mday_max := nth (Z.to_nat (mon - 1)) days_in_month 0 in
      let mday_max :=
        if (mon =? 2) && is_leap_year year then mday_max + 1 else mday_max in
      if (mday <? 1) || (mday_max <? mday) then false
      else if has_hour then
        if negb (forallb isdigit (take 2 (drop 8 date_str))) then false
        else
          let hour := substr_int date_str 8 2 in
          negb ((hour <? 0) || (23 <? hour))
      else true.

Definition timestamp_to_ts (timestamp : Z) : Z :=
  i64 (Z.shiftl (timestamp * 1000 - base_timestamp_ms) 18).

(** [tso::get_timestamp_internal] of [include/common/common.h]. *)
Definition get_timestamp_internal (offset : Z) : Z :=
  u32 (Z.quot (Z.shiftr offset 18 + base_timestamp_ms) 1000).

Inductive TimeUnit := YEAR | MONTH | DAY | HOUR | MINUTE | SECOND.

(** The year, month (from 0) and day reached by adding [interval] years or
    months to a date. *)
Definition add_years (interval year mon day : Z) : Z * Z * Z :=
  let year := i32 (year + interval) in
  (year, mon,
   if (mon + 1 =? 2) && (day =? 29) && negb (is_leap_year year) then 28 else day).

Definition add_months (interval year mon day : Z) : Z * Z * Z :=
  let mon := i32 (mon + interval) in
  let year := i32 (year + Z.quot mon 12 + (if mon <? 0 then -1 else 0)) in
  let mon := Z.rem (Z.rem mon 12 + 12) 12 in
  let dim := nth (Z.to_nat mon) days_in_month 0 in
  (year, mon,
   if dim <? day
   then if (mon + 1 =? 2) && is_leap_year year then dim + 1 else dim
   else day).

(** *** Functions of the clock and the time zone *)

Section Zoned.
Context `{Zone}.

(** The text of [strftime] with "%Y-%m-%d %H:%M:%S". *)
Definition strftime_ymdhms (t : tm) : bytes :=
  to_string (tm_year t + 1900) ++ [45] ++ printf_0d 2 (tm_mon t + 1) ++ [45]
  ++ printf_0d 2 (tm_mday t) ++ [32] ++ printf_0d 2 (tm_hour t) ++ [58]
  ++ printf_0d 2 (tm_min t) ++ [58] ++ printf_0d 2 (tm_sec t).

(** [localtime_r] with the correction of daylight saving. *)
Definition localtime_no_dst (timestamp : Z) : tm :=
  let t := localtime timestamp in
  if tm_isdst t =? 1 then localtime (timestamp - 3600) else t.

(** [None]: the text does not fit the buffer of 21 bytes, whose contents
    [strftime] leaves unspecified. *)
Definition timestamp_to_str (timestamp : Z) (is_utc : bool) : option bytes :=
  if timestamp <=? 0 then Some (bytes_of_string "0000-00-00 00:00:00")
  else
    let t := if is_utc then gmtime timestamp else localtime_no_dst timestamp in
    let s := strftime_ymdhms t in
    if (20 <? length s)%nat then None else Some s.

Definition ts_to_datetime_str (ts : Z) : option bytes :=
  if ts <=? 0 then Some (bytes_of_string "0000-00-00 00:00:00")
  else timestamp_to_str (get_timestamp_internal ts) false.

Definition datetime_to_timestamp (datetime : Z) : Z :=
  if datetime =? 0 then 0
  else
    let mon := datetime_to_month datetime in
    let mday := datetime_to_day datetime in
    if mon =? 0 then 0
    else if mday =? 0 then 0
    else
      let t := mktime (mk_tm (dt_second datetime) (dt_minute datetime)
        (dt_hour datetime) mday (mon - 1) (datetime_to_year datetime - 1900) 0) in
      if t <=? 0 then 0 else t.

Definition snapshot_to_timestamp (snapshot : Z) : Z :=
  let date_tm := snapshot mod 10000000000 / 100 in
  let year := date_tm / 10000 in
  let month := date_tm mod 10000 / 100 in
  let day := date_tm mod 100 in
  mktime (mk_tm 0 0 0 day (month - 1) (year - 1900) 0).

Definition timestamp_to_datetime (timestamp : Z) : Z :=
  if timestamp =? 0 then 0
  else
    let t := localtime timestamp in
    let year_month := u64 (i32 ((tm_year t + 1900) * 13 + (tm_mon t + 1))) in
    let datetime := 0 in
    let datetime := Z.lor datetime (u64 (Z.shiftl year_month 46)) in
    let datetime := Z.lor datetime (u64 (Z.shiftl (tm_mday t) 41)) in
    let datetime := Z.lor datetime (u64 (Z.shiftl (tm_hour t) 36)) in
    let datetime := Z.lor datetime (u64 (Z.shiftl (tm_min t) 30)) in
    Z.lor datetime (u64 (Z.shiftl (tm_sec t) 24)).

Definition datetime_to_time_struct (datetime : Z) (s : DateTime) (type : Z) : DateTime :=
  if type =? MYSQL_TYPE_TIME then
    let time := i32 datetime in
    let '(neg, time) := if time <? 0 then (1, i32 (- time)) else (is_negative s, time) in
    let h := time_hour time in
    mk_DateTime (year s) (month s) (h / 24) (h mod 24) (time_minute time)
      (time_second time) (macrosec s) neg
  else if type =? MYSQL_TYPE_TIMESTAMP then
    let t := localtime_no_dst (i64 datetime) in
    mk_DateTime (u64 (tm_year t + 1900)) (u64 (tm_mon t + 1)) (u64 (tm_mday t))
      (u64 (tm_hour t)) (u64 (tm_min t)) (u64 (tm_sec t)) 0 (is_negative s)
  else if type =? MYSQL_TYPE_DATETIME then
    mk_DateTime (datetime_to_year datetime) (datetime_to_month datetime)
      (datetime_to_day datetime) (dt_hour datetime) (dt_minute datetime)
      (dt_second datetime) (macrosec s) (is_negative s)
  else s.

(** [now] is the result of [time(NULL)]. *)
Definition time_to_datetime (now time : Z) : Z :=
  let now := Z.quot (now + 28800) 86400 * 86400 in
  let '(minus, time) := time_abs time in
  let delta_sec := i32 (u32 (time_hour time * 3600 + time_minute time * 60
                             + time_second time)) in
  let delta_sec := if minus : bool then i32 (- delta_sec) else delta_sec in
  timestamp_to_datetime (now - 28800 + delta_sec).

Definition date_add_interval (ts interval : Z) (unit : TimeUnit) : Z :=
  let by_date f :=
    let t := localtime ts in
    let '(year, mon, day) := f interval (tm_year t + 1900) (tm_mon t) (tm_mday t) in
    mktime (mk_tm (tm_sec t) (tm_min t) (tm_hour t) day mon (year - 1900) (tm_isdst t)) in
  match unit with
  | YEAR => by_date add_years
  | MONTH => by_date add_months
  | DAY => i64 (ts + interval * 86400)
  | HOUR => i64 (ts + interval * 3600)
  | MINUTE => i64 (ts + interval * 60)
  | SECOND => i64 (ts + interval)
  end.

Definition date_sub_interval (ts interval : Z) (unit : TimeUnit) : Z :=
  date_add_interval ts (i64 (- interval)) unit.

Definition get_current_day_timestamp (now current_ts : Z) : Z :=
  let t := localtime (if current_ts =? -1 then now else current_ts) in
  mktime (mk_tm 0 0 0 (tm_mday t) (tm_mon t) (tm_year t) (tm_isdst t)).

Definition get_current_month_timestamp (now start_day_of_month : Z) : Z :=
  let t := localtime now in
  mktime (mk_tm 0 0 0 start_day_of_month (tm_mon t) (tm_year t) (tm_isdst t)).

(** [None] is the result [false], which leaves [result] unchanged. *)
Definition tz_to_second (now : Z) (time_zone : option bytes) : option Z :=
  match time_zone with
  | None => None
  | Some tz =>
      if decide (tz = bytes_of_string "SYSTEM") then
        let hour := tm_hour (localtime now) - tm_hour (gmtime now) in
        let hour := if hour <? -12 then hour + 24
                    else if 12 <? hour then hour - 24 else hour in
        Some (hour * 3600)
      else if negb (length tz =? 6)%nat then None
      else
        let c i := nth i tz 0 in
        let num i := 10 * (c i - 48) + c (S i) - 48 in
        if negb ((c 0%nat =? 45) || (c 0%nat =? 43)) then None
        else if negb (c 3%nat =? 58) then None
        else if negb (isdigit (c 1%nat)) || negb (isdigit (c 2%nat))
                || negb (isdigit (c 4%nat)) || negb (isdigit (c 5%nat)) then None
        else
          let minu := if c 0%nat =? 45 then -1 else 1 in
          let hour := num 1%nat in
          let min := num 4%nat in
          if (12 <? hour) || (59 <? min) then None
          else Some ((hour * 3600 + min * 60) * minu)
  end.

End Zoned.

(** *** DATE_FORMAT

    [date_format_internal] rewrites a MySQL format into a [strftime] format
    in which the conversions the two do not share have been expanded. *)

Definition ordinal_suffix (mday : Z) : bytes :=
  if (mday =? 1) || (mday =? 21) || (mday =? 31) then bytes_of_string "st"
  else if (mday =? 2) || (mday =? 22) then bytes_of_string "nd"
  else if (mday =? 3) || (mday =? 23) then bytes_of_string "rd"
  else bytes_of_string "th".

Definition hour12 (tp : tm) : Z :=
  let h := Z.rem (tm_hour tp) 12 in if h =? 0 then 12 else h.

Definition am_pm (tp : tm) : bytes :=
  if 12 <=? Z.rem (tm_hour tp) 24 then bytes_of_string "PM" else bytes_of_string "AM".

(** The expansion of the conversion with letter [c]. *)
Definition date_format_conv (tp : tm) (c : Z) : bytes :=
  if c =? chr "c" then to_string (tm_mon tp + 1)
  else if c =? chr "D" then to_string (tm_mday tp) ++ ordinal_suffix (tm_mday tp)
  else if c =? chr "e" then to_string (tm_mday tp)
  else if c =? chr "f" then bytes_of_string "000000"
  else if (c =? chr "h") || (c =? chr "I") then
    (if hour12 tp <? 10 then bytes_of_string "0" else []) ++ to_string (hour12 tp)
  else if c =? chr "i" then bytes_of_string "%M"
  else if c =? chr "l" then to_string (hour12 tp)
  else if c =? chr "M" then bytes_of_string "%B"
  else if c =? chr "p" then am_pm tp
  else if c =? chr "r" then
    printf_0d 2 (hour12 tp) ++ [58] ++ printf_0d 2 (tm_min tp) ++ [58]
    ++ printf_0d 2 (tm_sec tp) ++ [32] ++ am_pm tp
  else if c =? chr "v" then bytes_of_string "%V"
  else if c =? chr "W" then bytes_of_string "%A"
  else if (c =? chr "X") || (c =? chr "x") then bytes_of_string "%Y"
  else if c =? chr "s" then bytes_of_string "%S"
  else if c =? chr "k" then to_string (tm_hour tp)
  else if c =? chr "u" then bytes_of_string "%W"
  else [37; c].

(** The string [f] built by the loop; the format has no NUL. *)
Fixpoint date_format_string (tp : tm) (format : bytes) : bytes :=
  match format with
  | [] => []
  | c :: format =>
      if negb (c =? 37) then c :: date_format_string tp format
      else
        match format with
        | [] => []
        | c :: format => date_format_conv tp c ++ date_format_string tp format
        end
  end.
