(* ===== verification/DateTimeFacts.v ===== *)
(** * Properties of date and time values *)

From S2P Require Import Prelude Stdio Calendar DateTime.

(** ** Packing *)

(** The fields fit their bits, and the month its slot of 13. *)
Definition fields_ok (y mo d h mi s us : Z) : Prop :=
  0 <= y /\ 0 <= mo < 13 /\ 13 * y + mo < 2 ^ 17 /\ 0 <= d < 32 /\
  0 <= h < 32 /\ 0 <= mi < 64 /\ 0 <= s < 64 /\ 0 <= us < 2 ^ 24.

Lemma shiftl_u64 x k : 0 <= k -> 0 <= x * 2 ^ k < 2 ^ 64 -> u64 (Z.shiftl x k) = x * 2 ^ k.
Proof. intros. rewrite Z.shiftl_mul_pow2 by done. by apply wrap_id. Qed.

Lemma pack_datetime_sum y mo d h mi s us :
  fields_ok y mo d h mi s us ->
  pack_datetime y mo d h mi s us =
  (13 * y + mo) * 2 ^ 46 + d * 2 ^ 41 + h * 2 ^ 36 + mi * 2 ^ 30 + s * 2 ^ 24 + us.
Proof.
  intros (Hy & Hmo & Hym & Hd & Hh & Hmi & Hs & Hus). unfold pack_datetime.
  rewrite (wrap_id 64 (y * 13 + mo)) by (unfold is_u; lia).
  rewrite !shiftl_u64 by lia. rewrite Z.lor_0_l.
  rewrite (lor_field 5 41), (lor_field 5 36), (lor_field 6 30), (lor_field 6 24) by lia.
  rewrite <- (Z.mul_1_r us) at 1. rewrite (lor_field 24 0) by lia. lia.
Qed.

Lemma field_spec x k j m :
  m = 2 ^ j - 1 -> 0 <= j -> 0 <= k ->
  Z.land (Z.shiftr x k) m = x / 2 ^ k mod 2 ^ j.
Proof. intros -> ??. by rewrite land_ones_mod, Z.shiftr_div_pow2. Qed.

Lemma unpack_fields y mo d h mi s us :
  fields_ok y mo d h mi s us ->
  let dt := pack_datetime y mo d h mi s us in
  dt_year_month dt = 13 * y + mo /\ datetime_to_day dt = d /\ dt_hour dt = h /\
  dt_minute dt = mi /\ dt_second dt = s /\ dt_macrosec dt = us.
Proof.
  intros Hok. cbv zeta. rewrite pack_datetime_sum by done.
  destruct Hok as (Hy & Hmo & Hym & Hd & Hh & Hmi & Hs & Hus).
  unfold dt_year_month, datetime_to_day, dt_hour, dt_minute, dt_second, dt_macrosec.
  rewrite (field_spec _ 46 17), (field_spec _ 41 5), (field_spec _ 36 5),
    (field_spec _ 30 6), (field_spec _ 24 6) by done.
  rewrite (land_ones_mod _ 24) by done. div_lia.
Qed.

Lemma unpack_year_month y mo d h mi s us :
  fields_ok y mo d h mi s us ->
  let dt := pack_datetime y mo d h mi s us in
  datetime_to_year dt = y /\ datetime_to_month dt = mo.
Proof.
  intros Hok. destruct (unpack_fields _ _ _ _ _ _ _ Hok) as [E _].
  cbv zeta in *. unfold datetime_to_year, datetime_to_month. rewrite E.
  destruct Hok. div_lia.
Qed.

(** Mixed-radix comparison: the leading digit decides first. *)
Lemma compare_radix B a b x y :
  0 <= x < B -> 0 <= y < B ->
  (a * B + x ?= b * B + y) = match a ?= b with Eq => x ?= y | c => c end.
Proof.
  intros Hx Hy. destruct (Z.compare_spec a b) as [->|Hab|Hab].
  - destruct (Z.compare_spec x y) as [->|Hxy|Hxy].
    + apply Z.compare_refl.
    + apply Z.compare_lt_iff; lia.
    + apply Z.compare_gt_iff; lia.
  - apply Z.compare_lt_iff; nia.
  - apply Z.compare_gt_iff; nia.
Qed.

(** ** Scanning a printed DATETIME *)

Lemma scan_fields_digits ds l idx dc yl :
  Forall (fun c => isdigit c = true) ds ->
  scan_fields true (ds ++ l) idx dc yl =
  scan_fields true l (idx + Z.of_nat (length ds)) dc yl.
Proof.
  intros Hds; revert idx. induction Hds as [|c ds Hc Hds IH]; intros idx.
  - by rewrite Z.add_0_r.
  - cbn [app scan_fields length]. rewrite Hc.
    assert ((c =? 46) = false) as ->.
    { apply Z.eqb_neq. intros ->. done. }
    rewrite andb_false_r. cbn [negb andb]. rewrite IH. f_equal. lia.
Qed.

Lemma scan_fields_fix w n l idx dc yl :
  scan_fields true (dec_fix w n ++ l) idx dc yl =
  scan_fields true l (idx + Z.of_nat w) dc yl.
Proof.
  rewrite scan_fields_digits by apply dec_fix_digits. by rewrite length_dec_fix.
Qed.

Lemma scan_fields_delim c l idx dc yl :
  isdigit c = false -> (5 <? dc + 1) && (c =? 46) = false -> yl <> -1 ->
  scan_fields true (c :: l) idx dc yl = scan_fields true l (idx + 1) (dc + 1) yl.
Proof.
  intros Hc Hd Hy. cbn [scan_fields]. rewrite Hc. cbn [negb].
  rewrite Hd, (proj2 (Z.eqb_neq yl (-1))) by done. done.
Qed.

Lemma drop_until_fix w n rest :
  (1 <= w)%nat -> drop_until delim_stop (dec_fix w n ++ rest) = dec_fix w n ++ rest.
Proof.
  intros Hw. pose proof (dec_fix_digits w n) as Hd.
  pose proof (length_dec_fix w n) as Hl.
  destruct (dec_fix w n) as [|c ds]; [simpl in Hl; lia|].
  inversion Hd; subst. cbn [app drop_until]. unfold delim_stop.
  by match goal with H : isdigit c = true |- _ => rewrite H end.
Qed.

Lemma sscanf_lu w n fmt rest :
  (1 <= w <= 18)%nat -> 0 <= n < 10 ^ Z.of_nat w ->
  sscanf (DLu w :: fmt) (dec_fix w n ++ rest) = n :: sscanf fmt rest.
Proof. intros Hw Hn. cbn [sscanf]. by rewrite scan_lu_fix. Qed.

Lemma sscanf_skip c w n fmt rest :
  delim_stop c = false -> (1 <= w)%nat ->
  sscanf (DSkip delim_stop :: fmt) (c :: dec_fix w n ++ rest) =
  sscanf fmt (dec_fix w n ++ rest).
Proof. intros Hc Hw. cbn [sscanf]. by rewrite Hc, drop_until_fix. Qed.

Lemma fill_fraction_id idx buf :
  (forall i c, buf !! i = Some c -> idx + 1 <= Z.of_nat i <= idx + 6 ->
     isdigit c = true) ->
  fill_fraction idx buf = buf.
Proof.
  intros Hb. apply list_eq; intros i. unfold fill_fraction.
  rewrite list_lookup_imap. destruct (buf !! i) as [c|] eqn:E; [|done]. simpl.
  destruct (Z.leb_spec (idx + 1) (Z.of_nat i)); [|done].
  destruct (Z.leb_spec (Z.of_nat i) (idx + 6)); [|done].
  rewrite (Hb i c E) by lia. by rewrite andb_false_r.
Qed.

(** The canonical text of a date and time with microseconds. *)
Definition datetime_text (y mo d h mi s us : Z) : bytes :=
  dec_fix 4 y ++ 45 :: dec_fix 2 mo ++ 45 :: dec_fix 2 d ++ 32 :: dec_fix 2 h
  ++ 58 :: dec_fix 2 mi ++ 58 :: dec_fix 2 s ++ 46 :: dec_fix 6 us.

Definition text_ok (y mo d h mi s us : Z) : Prop :=
  0 <= y <= 9999 /\ 0 <= mo <= 12 /\ 0 <= d <= 31 /\ 0 <= h <= 23 /\
  0 <= mi <= 59 /\ 0 <= s <= 59 /\ 0 <= us <= 999999.

Lemma text_fields_ok y mo d h mi s us :
  text_ok y mo d h mi s us -> fields_ok y mo d h mi s us.
Proof. unfold text_ok, fields_ok. lia. Qed.

Lemma datetime_to_str_text y mo d h mi s us :
  text_ok y mo d h mi s us ->
  datetime_to_str (pack_datetime y mo d h mi s us) 6 = datetime_text y mo d h mi s us.
Proof.
  intros Hok. pose proof (text_fields_ok _ _ _ _ _ _ _ Hok) as Hf.
  destruct (unpack_fields _ _ _ _ _ _ _ Hf) as (_ & Ed & Eh & Emi & Es & Eus).
  destruct (unpack_year_month _ _ _ _ _ _ _ Hf) as (Ey & Emo).
  unfold datetime_to_str. rewrite Ey, Emo, Ed, Eh, Emi, Es, Eus.
  unfold text_ok in Hok. rewrite !printf_0d_fix by (simpl; lia).
  unfold datetime_text. cbn [Z.ltb Z.leb Z.compare andb].
  rewrite take_ge; [by rewrite <- ?app_assoc|].
  rewrite !length_app, !length_dec_fix. simpl. lia.
Qed.

Lemma length_datetime_text y mo d h mi s us :
  length (datetime_text y mo d h mi s us) = 26%nat.
Proof.
  unfold datetime_text.
  repeat (rewrite ?length_app, ?length_dec_fix; cbn [length]). done.
Qed.

Lemma scan_fields_text y mo d h mi s us :
  scan_fields true (datetime_text y mo d h mi s us) 0 0 (-1) = (19, 4).
Proof.
  unfold datetime_text. rewrite scan_fields_fix.
  change (scan_fields true (45 :: ?l) ?i 0 (-1)) with (scan_fields true l (i + 1) 1 i).
  do 4 (rewrite scan_fields_fix, scan_fields_delim by done).
  by rewrite scan_fields_fix.
Qed.

Lemma sscanf_text y mo d h mi s us :
  text_ok y mo d h mi s us ->
  sscanf fmt_delim (datetime_text y mo d h mi s us) = [y; mo; d; h; mi; s; us].
Proof.
  intros Hok. unfold text_ok in Hok. unfold fmt_delim, datetime_text.
  rewrite sscanf_lu by (simpl; lia).
  do 4 (rewrite sscanf_skip, sscanf_lu by (done || (simpl; lia))).
  rewrite sscanf_skip, sscanf_lu by (done || (simpl; lia)).
  cbn [sscanf Z.eqb Pos.eqb]. rewrite <- (app_nil_r (dec_fix 6 us)).
  by rewrite scan_lu_fix by (simpl; lia).
Qed.

Lemma datetime_text_chars y mo d h mi s us :
  no_nul (datetime_text y mo d h mi s us).
Proof.
  assert (Hd : forall w n, no_nul (dec_fix w n)).
  { intros w n. eapply Forall_impl; [apply dec_fix_digits|]. by intros c Hc ->. }
  unfold datetime_text, no_nul in *.
  repeat first [apply Forall_app; split; [by apply Hd|] | constructor; [lia|]].
  apply Hd.
Qed.

Lemma dec_fix_hd w n rest :
  (1 <= w)%nat -> exists c l, dec_fix w n ++ rest = c :: l /\ isdigit c = true.
Proof.
  intros Hw. pose proof (dec_fix_digits w n) as Hd.
  pose proof (length_dec_fix w n) as Hl.
  destruct (dec_fix w n) as [|c ds]; [simpl in Hl; lia|].
  inversion Hd; subst. eauto.
Qed.

(** The shape tests on the third, fourth and fifth characters. *)
Lemma datetime_text_delims y mo d h mi s us rest :
  let buf := datetime_text y mo d h mi s us ++ rest in
  isdigit (nth 4 buf 0) = false /\ (nth 3 buf 0 =? 45) = false.
Proof.
  unfold datetime_text. cbv zeta. rewrite <- app_assoc. split.
  - rewrite app_nth2; rewrite length_dec_fix; [done|lia].
  - rewrite app_nth1 by (rewrite length_dec_fix; lia).
    cbn [dec_fix app nth]. apply Z.eqb_neq.
    pose proof (Z.mod_pos_bound y 10). lia.
Qed.

Lemma fill_fraction_text y mo d h mi s us :
  fill_fraction 19 (datetime_text y mo d h mi s us ++ [0])
  = datetime_text y mo d h mi s us ++ [0].
Proof.
  apply fill_fraction_id. intros i c Hc Hi.
  set (pre := dec_fix 4 y ++ 45 :: dec_fix 2 mo ++ 45 :: dec_fix 2 d ++ 32
    :: dec_fix 2 h ++ 58 :: dec_fix 2 mi ++ 58 :: dec_fix 2 s ++ [46]).
  assert (Hpre : length pre = 20%nat).
  { subst pre. repeat (rewrite ?length_app, ?length_dec_fix; cbn [length]). done. }
  assert (E : datetime_text y mo d h mi s us ++ [0] = pre ++ dec_fix 6 us ++ [0]).
  { subst pre. unfold datetime_text. by repeat rewrite <- ?app_assoc, <- ?app_comm_cons. }
  rewrite E, lookup_app_r, lookup_app_l in Hc
    by (rewrite ?Hpre, ?length_dec_fix; lia).
  pose proof (dec_fix_digits 6 us) as Hd. rewrite Forall_lookup in Hd. eauto.
Qed.

Lemma str_to_datetime_text y mo d h mi s us :
  text_ok y mo d h mi s us ->
  str_to_datetime (datetime_text y mo d h mi s us)
  = Some (pack_datetime y mo d h mi s us, Some true).
Proof.
  intros Hok. set (t := datetime_text y mo d h mi s us).
  assert (Ht : length t = 26%nat) by apply length_datetime_text.
  assert (Hskip : drop_until (fun c => negb (c =? 32)) (t ++ [0]) = t ++ [0]).
  { subst t. unfold datetime_text. rewrite <- app_assoc.
    destruct (dec_fix_hd 4 y ((45 :: dec_fix 2 mo ++ 45 :: dec_fix 2 d ++ 32 ::
      dec_fix 2 h ++ 58 :: dec_fix 2 mi ++ 58 :: dec_fix 2 s ++ 46 :: dec_fix 6 us)
      ++ [0])) as (c & l & -> & Hc); [lia|].
    cbn [drop_until]. apply isdigit_not_space in Hc. unfold isspace in Hc.
    destruct (c =? 32); done. }
  unfold str_to_datetime, str_to_datetime_internal. rewrite Hskip.
  rewrite length_app, Ht. cbv zeta.
  change (Z.min (Z.of_nat 26) (Z.of_nat max_time_size)) with 26.
  change (Z.of_nat (26 + length [0]) <? 26) with false. cbv iota.
  change (Z.to_nat 26) with 26%nat. change (S max_time_size - 26)%nat with 1%nat.
  rewrite take_app_length' by done. cbn [replicate].
  destruct (datetime_text_delims y mo d h mi s us [0]) as [E4 E3]. cbv zeta in *.
  fold t in E4, E3. rewrite E4, E3, andb_false_r. cbn [negb].
  rewrite take_app_length' by done.
  assert (Hscan : scan_fields true t 0 0 (-1) = (19, 4)) by apply scan_fields_text.
  assert (Hfill : fill_fraction 19 (t ++ [0]) = t ++ [0]) by apply fill_fraction_text.
  assert (Hstr : c_str (t ++ [0]) = Some t)
    by apply (c_str_app _ []), datetime_text_chars.
  assert (Hval : sscanf fmt_delim t = [y; mo; d; h; mi; s; us]) by by apply sscanf_text.
  rewrite Hscan. cbv beta iota. change (19 <? 26) with true. cbv iota.
  rewrite Hfill, Hstr. cbn [choose_format default from_option id].
  rewrite Hval. cbn [nth].
  unfold text_ok in Hok. change (4 =? 2) with false. cbv iota.
  rewrite (proj2 (Z.ltb_ge 12 mo)), (proj2 (Z.ltb_ge 31 d)), (proj2 (Z.ltb_ge 23 h)),
    (proj2 (Z.ltb_ge 59 mi)), (proj2 (Z.ltb_ge 59 s)) by lia.
  done.
Qed.

(** ** DATETIME *)

(** C11. Printing a DATETIME with microseconds and parsing the text gives the
    same DATETIME back, recognised as a full date and time. *)
Theorem datetime_str_roundtrip y mo d h mi s us :
  text_ok y mo d h mi s us ->
  str_to_datetime (datetime_to_str (pack_datetime y mo d h mi s us) 6)
  = Some (pack_datetime y mo d h mi s us, Some true).
Proof.
  intros Hok. rewrite datetime_to_str_text by done. by apply str_to_datetime_text.
Qed.

Lemma datetime_str_roundtrip_witness :
  text_ok 2024 2 29 23 59 58 123456 /\
  str_to_datetime (datetime_to_str (pack_datetime 2024 2 29 23 59 58 123456) 6)
  = Some (pack_datetime 2024 2 29 23 59 58 123456, Some true).
Proof.
  split; [unfold text_ok; lia|]. apply datetime_str_roundtrip. unfold text_ok. lia.
Defined.

(** The fields of a DATETIME. *)
Definition datetime_fields (dt : Z) : list Z :=
  [datetime_to_year dt; datetime_to_month dt; datetime_to_day dt; dt_hour dt;
   dt_minute dt; dt_second dt; dt_macrosec dt].

(** Packing loses nothing: every field is read back, and the top bit of
    the 64-bit value, which must stay clear because DATETIMEs are handled as
    signed integers, is clear. *)
Theorem datetime_pack_unpack y mo d h mi s us :
  fields_ok y mo d h mi s us ->
  datetime_fields (pack_datetime y mo d h mi s us) = [y; mo; d; h; mi; s; us] /\
  is_u 63 (pack_datetime y mo d h mi s us).
Proof.
  intros Hok. split.
  - destruct (unpack_fields _ _ _ _ _ _ _ Hok) as (_ & Ed & Eh & Emi & Es & Eus).
    destruct (unpack_year_month _ _ _ _ _ _ _ Hok) as (Ey & Emo).
    unfold datetime_fields. by rewrite Ey, Emo, Ed, Eh, Emi, Es, Eus.
  - rewrite pack_datetime_sum by done. unfold fields_ok, is_u in *. lia.
Qed.

Lemma datetime_pack_unpack_witness :
  datetime_fields (pack_datetime 9999 12 31 23 59 59 999999)
  = [9999; 12; 31; 23; 59; 59; 999999] /\
  is_u 63 (pack_datetime 9999 12 31 23 59 59 999999).
Proof. apply datetime_pack_unpack. unfold fields_ok. lia. Defined.

(** Packed DATETIMEs compare as unsigned integers exactly as their fields
    compare in order, year first: comparisons, sorting and index ranges can
    work on the packed form. *)
Theorem datetime_pack_order y mo d h mi s us y' mo' d' h' mi' s' us' :
  fields_ok y mo d h mi s us -> fields_ok y' mo' d' h' mi' s' us' ->
  (pack_datetime y mo d h mi s us ?= pack_datetime y' mo' d' h' mi' s' us')
  = lex_compare [y; mo; d; h; mi; s; us] [y'; mo'; d'; h'; mi'; s'; us'].
Proof.
  intros H1 H2. rewrite !pack_datetime_sum by done. unfold fields_ok in *.
  assert (E : forall y mo d h mi s us,
    (13 * y + mo) * 2 ^ 46 + d * 2 ^ 41 + h * 2 ^ 36 + mi * 2 ^ 30 + s * 2 ^ 24 + us
    = (((((y * 13 + mo) * 2 ^ 5 + d) * 2 ^ 5 + h) * 2 ^ 6 + mi) * 2 ^ 6 + s) * 2 ^ 24
      + us) by (intros; lia).
  rewrite !E, !compare_radix by lia. cbn [lex_compare].
  destruct (y ?= y'), (mo ?= mo'), (d ?= d'), (h ?= h'), (mi ?= mi'), (s ?= s'),
    (us ?= us'); done.
Qed.

Lemma datetime_pack_order_witness :
  (pack_datetime 2023 12 31 23 59 59 0 ?= pack_datetime 2024 1 1 0 0 0 0) = Lt.
Proof.
  rewrite datetime_pack_order; [done|unfold fields_ok; lia..].
Defined.

Lemma localtime_range `{Zone} t :
  let x := localtime t in
  (0 <= tm_sec x < 60 /\ 0 <= tm_min x < 60 /\ 0 <= tm_hour x < 24 /\
   1 <= tm_mday x <= 31 /\ 0 <= tm_mon x < 12) /\ tm_isdst x = Z.b2z (zone_dst t).
Proof. split; [apply (gmtime_range (t + zone_offset t))|done]. Qed.

(** A DATETIME built from the instant [t] in local time converts back to
    [t]: for every time zone whose [mktime] inverts [localtime] where daylight
    saving is not in force, and for every instant within the years a DATETIME
    can hold. *)
Theorem timestamp_datetime_roundtrip `{ZoneOk} t :
  0 < t -> zone_dst t = false ->
  0 <= tm_year (localtime t) + 1900 <= 9999 ->
  datetime_to_timestamp (timestamp_to_datetime t) = t.
Proof.
  intros Ht Hdst Hy. unfold timestamp_to_datetime.
  rewrite (proj2 (Z.eqb_neq t 0)) by lia.
  pose proof (localtime_range t) as (Hr & Hl). rewrite Hdst in Hl.
  pose proof (mktime_localtime t Hdst) as Hmk.
  destruct (localtime t) as [sec min hr md mon yr dst]. simpl in *. subst dst.
  rewrite (swrap_id 32) by (unfold is_i; lia).
  assert (Hok : fields_ok (yr + 1900) (mon + 1) md hr min sec 0)
    by (unfold fields_ok; lia).
  pose proof (unpack_fields _ _ _ _ _ _ _ Hok) as (_ & Ed & Eh & Emi & Es & _).
  pose proof (unpack_year_month _ _ _ _ _ _ _ Hok) as (Ey & Emo).
  pose proof (pack_datetime_sum _ _ _ _ _ _ _ Hok) as Hsum.
  unfold pack_datetime in *. rewrite Z.lor_0_r in *. cbv zeta in *.
  set (dt := Z.lor _ (u64 (sec ≪ 24))) in *. unfold datetime_to_timestamp.
  rewrite (proj2 (Z.eqb_neq dt 0)) by (rewrite Hsum; lia).
  rewrite Emo, Ed, Es, Emi, Eh, Ey.
  rewrite (proj2 (Z.eqb_neq (mon + 1) 0)), (proj2 (Z.eqb_neq md 0)) by lia.
  replace (mon + 1 - 1) with mon by lia. replace (yr + 1900 - 1900) with yr by lia.
  rewrite Hmk. by rewrite (proj2 (Z.leb_gt t 0)).
Qed.

Lemma timestamp_datetime_roundtrip_witness :
  @datetime_to_timestamp (fixed_zone 28800)
    (@timestamp_to_datetime (fixed_zone 28800) 1700000000) = 1700000000.
Proof. apply timestamp_datetime_roundtrip; [lia|done|vm_compute; split; discriminate]. Defined.

(** ** TIME *)

Lemma pack_time_sum h m s :
  0 <= h < 2 ^ 19 -> 0 <= m < 64 -> 0 <= s < 64 ->
  pack_time h m s = h * 2 ^ 12 + m * 2 ^ 6 + s.
Proof.
  intros Hh Hm Hs. unfold pack_time. rewrite Z.lor_0_l, !Z.shiftl_mul_pow2 by lia.
  rewrite !(swrap_id 32) by (unfold is_i; lia).
  rewrite (lor_disjoint 6) by lia. rewrite lor_disjoint; lia.
Qed.

Lemma time_fields h m s :
  0 <= h < 2 ^ 10 -> 0 <= m < 64 -> 0 <= s < 64 ->
  let t := h * 2 ^ 12 + m * 2 ^ 6 + s in
  time_hour t = h /\ time_minute t = m /\ time_second t = s.
Proof.
  intros Hh Hm Hs. cbv zeta. unfold time_hour, time_minute, time_second.
  rewrite (field_spec _ 12 10), (field_spec _ 6 6), (land_ones_mod _ 6) by done.
  div_lia.
Qed.

(** Converting a number of seconds to a TIME and back is the identity
    for every duration the 10-bit hour field can hold, of either sign. *)
Theorem seconds_time_roundtrip seconds :
  Z.abs seconds < 1024 * 3600 -> time_to_seconds (seconds_to_time seconds) = seconds.
Proof.
  intros Hs. unfold seconds_to_time, time_to_seconds, time_abs.
  set (a := Z.abs seconds) in *.
  assert ((if seconds <? 0 then i32 (- seconds) else seconds) = a) as ->.
  { subst a. bool_case; [rewrite swrap_id; unfold is_i|]; lia. }
  assert (0 <= a) by (subst a; lia).
  rewrite !Z.quot_div_nonneg, !Z.rem_mod_nonneg by (try apply Z.div_pos; lia).
  assert (Hf : 0 <= a / 3600 < 2 ^ 10 /\ 0 <= a / 60 mod 60 < 64 /\ 0 <= a mod 60 < 64
               /\ a mod 60 + a / 60 mod 60 * 60 + a / 3600 * 3600 = a)
    by div_lia.
  destruct Hf as (Hh & Hm & Hsec & Hsum). rewrite pack_time_sum by lia.
  pose proof (time_fields _ _ _ Hh Hm Hsec) as (Eh & Em & Es). cbv zeta in *.
  set (t := a / 3600 * 2 ^ 12 + _ + _) in *.
  assert (Ht : 0 <= t < 2 ^ 31) by (subst t; lia).
  assert (Hpos : (if t <? 0 then (true, i32 (- t)) else (false, t)) = (false, t))
    by (bool_case; [lia|done]).
  destruct (Z.ltb_spec seconds 0) as [Hneg|Hnn]; cbv beta iota zeta.
  - rewrite (swrap_id 32 (- t)) by (unfold is_i; lia).
    destruct (decide (t = 0)) as [E0|Hne].
    { assert (a = 0) by (rewrite E0 in *; change (time_hour 0) with 0 in Eh;
        change (time_minute 0) with 0 in Em; change (time_second 0) with 0 in Es; lia).
      subst a. lia. }
    rewrite (proj2 (Z.ltb_lt (- t) 0)), Z.opp_involutive by lia.
    rewrite (swrap_id 32 t) by (unfold is_i; lia). rewrite Eh, Em, Es, Hsum.
    subst a. rewrite !(swrap_id 32); unfold is_i; try lia.
    rewrite swrap_id; unfold is_i; lia.
  - rewrite Hpos, Eh, Em, Es, Hsum. subst a. rewrite swrap_id; unfold is_i; lia.
Qed.

Lemma seconds_time_roundtrip_witness :
  time_to_seconds (seconds_to_time (-3020399)) = -3020399.
Proof. apply seconds_time_roundtrip. lia. Defined.

(** ** Calendar arithmetic *)

Lemma rem_zero_mod x n : 0 < n -> (Z.rem x n =? 0) = (x mod n =? 0).
Proof.
  intros Hn. apply eq_true_iff_eq. rewrite !Z.eqb_eq.
  rewrite Z.rem_divide, Z.mod_divide by lia. done.
Qed.

Lemma is_leap_year_spec y : is_leap_year y = is_leap y.
Proof. unfold is_leap_year, is_leap. by rewrite !rem_zero_mod by lia. Qed.

(** The table of month lengths, corrected for leap years. *)
Lemma days_in_month_spec y mon :
  0 <= mon < 12 ->
  month_days y (mon + 1) =
  nth (Z.to_nat mon) days_in_month 0 + (if (mon + 1 =? 2) && is_leap_year y then 1 else 0).
Proof.
  intros Hm. rewrite is_leap_year_spec. unfold month_days.
  generalize (is_leap y); intros b.
  assert (mon = 0 \/ mon = 1 \/ mon = 2 \/ mon = 3 \/ mon = 4 \/ mon = 5 \/ mon = 6 \/
          mon = 7 \/ mon = 8 \/ mon = 9 \/ mon = 10 \/ mon = 11) as Hc by lia.
  destruct Hc as [->|[->|[->|[->|[->|[->|[->|[->|[->|[->|[->| ->]]]]]]]]]]];
    by destruct b.
Qed.

Lemma month_days_range y m : 28 <= month_days y m <= 31.
Proof. unfold month_days. repeat case_match; lia. Qed.

Lemma quot_rem_12 m :
  Z.rem (Z.rem m 12 + 12) 12 = m mod 12 /\
  Z.quot m 12 + (if m <? 0 then -1 else 0) =
  m / 12 - (if (m <? 0) && (m mod 12 =? 0) then 1 else 0).
Proof.
  rewrite (Z.rem_mod_nonneg (Z.rem m 12 + 12)) by (pose proof (Z.rem_bound_abs m 12); lia).
  destruct (Z.ltb_spec m 0) as [Hneg|Hnn].
  - rewrite <- (Z.opp_involutive m) at 1 3. rewrite Z.rem_opp_l, Z.quot_opp_l by lia.
    rewrite Z.rem_mod_nonneg, Z.quot_div_nonneg by lia.
    bool_case; cbn [andb]; div_lia.
  - rewrite Z.rem_mod_nonneg, Z.quot_div_nonneg by lia. cbn [andb]. div_lia.
Qed.

Lemma add_months_lands interval y mon day :
  0 <= mon < 12 -> 1 <= day <= 31 -> is_i 32 (mon + interval) ->
  is_i 31 y ->
  let '(y', mon', day') := add_months interval y mon day in
  let m := mon + interval in
  12 * y' + mon' =
    12 * y + m - (if (m <? 0) && (m mod 12 =? 0) then 12 else 0) /\
  0 <= mon' < 12 /\ day' = Z.min day (month_days y' (mon' + 1)).
Proof.
  intros Hm Hd Hi Hy. unfold add_months. cbv zeta.
  rewrite (swrap_id 32 (mon + interval)) by done.
  set (m := mon + interval) in *. pose proof (quot_rem_12 m) as [Er Eq].
  rewrite Er, <- Z.add_assoc, Eq. set (c := (m <? 0) && (m mod 12 =? 0)).
  rewrite swrap_id; [|done|unfold is_i in *; destruct c; div_lia].
  pose proof (Z.mod_pos_bound m 12 ltac:(lia)).
  split; [destruct c; div_lia|]. split; [done|].
  rewrite days_in_month_spec by done.
  set (dim := nth (Z.to_nat (m mod 12)) days_in_month 0).
  destruct (m mod 12 + 1 =? 2), (is_leap_year _), (Z.ltb_spec dim day);
    cbn [andb]; lia.
Qed.

(** Adding months clamps the day to the length of the month reached, as
    MySQL does, and reaches the month [interval] months away, except that a
    negative month count that is a multiple of twelve lands one year early. *)
Theorem add_months_spec interval y mon day :
  0 <= mon < 12 -> 1 <= day <= 31 -> is_i 32 (mon + interval) ->
  is_i 31 y ->
  let '(y', mon', day') := add_months interval y mon day in
  let m := mon + interval in
  12 * y' + mon' =
    12 * y + m - (if (m <? 0) && (m mod 12 =? 0) then 12 else 0) /\
  0 <= mon' < 12 /\ day' = Z.min day (month_days y' (mon' + 1)).
Proof. apply add_months_lands. Qed.

Lemma add_months_spec_witness :
  let '(y', mon', day') := add_months (-1) 2024 2 31 in
  12 * y' + mon' = 12 * 2024 + 1 /\ 0 <= mon' < 12 /\
  day' = Z.min 31 (month_days y' (mon' + 1)).
Proof. apply (add_months_spec (-1) 2024 2 31); unfold is_i; lia. Defined.

(** Going back twelve months from January 2024 gives January 2022. *)
Example add_months_minus_twelve : add_months (-12) 2024 0 15 = (2022, 0, 15).
Proof. reflexivity. Qed.

Lemma gmtime_isdst t : tm_isdst (gmtime t) = 0.
Proof. unfold gmtime. by destruct (civil_from_days _) as [[y m] d]. Qed.

Lemma fixed_zone_localtime offset t :
  @localtime (fixed_zone offset) t = gmtime (t + offset).
Proof.
  unfold localtime. cbn [zone_offset zone_dst fixed_zone Z.b2z].
  unfold gmtime. by destruct (civil_from_days _) as [[y m] d].
Qed.

(** In a zone with a fixed offset, adding months to a timestamp moves the
    local date as [add_months] says and keeps the local time of day. *)
Theorem date_add_month_local offset ts interval :
  let t := gmtime (ts + offset) in
  is_i 32 (tm_mon t + interval) -> is_i 31 (tm_year t + 1900) ->
  let '(y', mon', day') :=
    add_months interval (tm_year t + 1900) (tm_mon t) (tm_mday t) in
  @localtime (fixed_zone offset)
    (@date_add_interval (fixed_zone offset) ts interval MONTH)
  = mk_tm (tm_sec t) (tm_min t) (tm_hour t) day' mon' (y' - 1900) 0.
Proof.
  intros t Hi Hy. pose proof (gmtime_range (ts + offset)) as Hr.
  cbv zeta in Hr. fold t in Hr. destruct Hr as (Hs & Hmi & Hh & Hd & Hmo).
  pose proof (add_months_lands interval (tm_year t + 1900) (tm_mon t) (tm_mday t)
    Hmo Hd Hi Hy) as Ha.
  unfold date_add_interval. rewrite !fixed_zone_localtime. fold t.
  destruct (add_months _ _ _ _) as [[y' mon'] day'].
  destruct Ha as (_ & Hmon & ->). cbn [mktime fixed_zone].
  assert (tm_isdst t = 0) as -> by apply gmtime_isdst.
  rewrite Z.sub_add, gmtime_timegm;
    cbn [tm_sec tm_min tm_hour tm_mday tm_mon tm_year tm_isdst]; try done.
  split; [lia|]. replace (y' - 1900 + 1900) with y' by lia.
  pose proof (month_days_range y' (mon' + 1)). lia.
Qed.

Lemma date_add_month_local_witness :
  @localtime (fixed_zone 28800)
    (@date_add_interval (fixed_zone 28800) 1709136000 1 MONTH)
  = mk_tm 0 0 0 29 2 124 0.
Proof.
  apply (date_add_month_local 28800 1709136000 1); vm_compute; split; discriminate || done.
Defined.

Lemma digits_fix s :
  Forall (fun c => isdigit c = true) s ->
  s = dec_fix (length s) (dec_value s) /\ 0 <= dec_value s < 10 ^ Z.of_nat (length s).
Proof.
  induction s as [|c s IH] using rev_ind; [done|].
  intros [Hs Hc]%Forall_app. destruct (IH Hs) as [E Hr]. inversion Hc as [|? ? Hd]; subst.
  unfold isdigit in Hd. apply andb_true_iff in Hd as [H1 H2].
  apply Z.leb_le in H1, H2.
  rewrite dec_value_snoc, length_app, Nat.add_1_r, Nat2Z.inj_succ, Z.pow_succ_r by lia.
  split; [|lia]. cbn [dec_fix].
  replace ((10 * dec_value s + (c - 48)) / 10) with (dec_value s) by div_lia.
  replace ((10 * dec_value s + (c - 48)) mod 10) with (c - 48) by div_lia.
  rewrite <- E. do 2 f_equal. lia.
Qed.

(** Reading [n] digits at [pos]. *)
Lemma substr_int_fix pre w n post :
  0 <= n < 10 ^ Z.of_nat w ->
  substr_int (pre ++ dec_fix w n ++ post) (length pre) w = n.
Proof.
  intros Hn. unfold substr_int. rewrite drop_app_length.
  rewrite take_app_length' by by rewrite length_dec_fix. by apply dec_value_fix.
Qed.

Lemma forallb_digits s : forallb isdigit s = true <-> Forall (fun c => isdigit c = true) s.
Proof. by rewrite List.forallb_forall, List.Forall_forall. Qed.

(** The checks made on the three numbers. *)
Lemma date_check_spec y m d :
  (if (m <? 1) || (12 <? m) then false
   else
     let mday_max := nth (Z.to_nat (m - 1)) days_in_month 0 in
     let mday_max := if (m =? 2) && is_leap_year y then mday_max + 1 else mday_max in
     negb ((d <? 1) || (mday_max <? d))) = true <-> valid_date y m d.
Proof.
  unfold valid_date. destruct (Z.ltb_spec m 1), (Z.ltb_spec 12 m); cbn [orb];
    try (split; [done|lia]).
  pose proof (days_in_month_spec y (m - 1) ltac:(lia)) as E.
  replace (m - 1 + 1) with m in E by lia. cbv zeta. rewrite E.
  set (dim := nth _ _ _). destruct ((m =? 2) && is_leap_year y);
    destruct (Z.ltb_spec d 1); cbn [orb negb]; try (split; [done|lia]);
    match goal with |- context [?x <? d] => destruct (Z.ltb_spec x d) end;
    cbn [negb]; split; done || lia.
Qed.

Lemma is_valid_date_text y m d (tl : bytes) (has_hour : bool) :
  0 <= y < 10 ^ 4 -> 0 <= m < 10 ^ 2 -> 0 <= d < 10 ^ 2 ->
  length tl = (if has_hour then 2 else 0)%nat ->
  is_valid_date (dec_fix 4 y ++ dec_fix 2 m ++ dec_fix 2 d ++ tl) has_hour = true <->
  valid_date y m d /\
  (has_hour = true -> forallb isdigit tl = true /\ 0 <= dec_value tl <= 23).
Proof.
  intros Hy Hm Hd Htl.
  set (s := dec_fix 4 y ++ dec_fix 2 m ++ dec_fix 2 d ++ tl).
  assert (Hlen : length s = (8 + length tl)%nat).
  { subst s. by rewrite !length_app, !length_dec_fix. }
  assert (E0 : substr_int s 0 4 = y) by by apply (substr_int_fix []).
  assert (E4 : substr_int s 4 2 = m) by by apply (substr_int_fix (dec_fix 4 y)).
  assert (E6 : substr_int s 6 2 = d).
  { replace s with ((dec_fix 4 y ++ dec_fix 2 m) ++ dec_fix 2 d ++ tl)
      by (subst s; by rewrite <- app_assoc).
    by apply (substr_int_fix (dec_fix 4 y ++ dec_fix 2 m)). }
  assert (E8 : drop 8 s = tl /\ take 8 s = dec_fix 4 y ++ dec_fix 2 m ++ dec_fix 2 d).
  { replace s with ((dec_fix 4 y ++ dec_fix 2 m ++ dec_fix 2 d) ++ tl)
      by (subst s; by rewrite <- !app_assoc).
    split; [apply (drop_app_length (dec_fix 4 y ++ dec_fix 2 m ++ dec_fix 2 d))|].
    apply (take_app_length (dec_fix 4 y ++ dec_fix 2 m ++ dec_fix 2 d)). }
  destruct E8 as [Edrop Etake].
  assert (Hdig : forallb isdigit (take 8 s) = true).
  { rewrite Etake. apply forallb_digits, Forall_app. split; [apply dec_fix_digits|].
    apply Forall_app; split; apply dec_fix_digits. }
  rewrite <- date_check_spec. unfold is_valid_date.
  rewrite Hlen, Htl, Hdig, E0, E4, E6, Edrop. cbv zeta.
  assert (Hsub : substr_int s 8 2 = dec_value (take 2 tl)) by (unfold substr_int; by rewrite Edrop).
  rewrite Hsub. destruct has_hour; cbn [negb].
  - rewrite take_ge by lia. change (Z.of_nat (8 + 2) =? 10) with true. cbn [negb].
    destruct ((m <? 1) || (12 <? m)); [split; [done|by intros []]|].
    destruct ((d <? 1) || _); cbn [negb]; [split; [done|by intros []]|].
    destruct (forallb isdigit tl); cbn [negb]; [|split; [done|by intros [_ [? ?]]]].
    destruct (Z.ltb_spec (dec_value tl) 0), (Z.ltb_spec 23 (dec_value tl)); cbn;
      split; try done; try (intros [_ [? ?]]; [done|lia]); lia.
  - change (Z.of_nat (8 + 0) =? 8) with true. cbn [negb].
    destruct ((m <? 1) || (12 <? m)); [split; [done|by intros []]|].
    destruct ((d <? 1) || _); cbn [negb]; split; try done. by intros [].
Qed.

(** A string that passes the shape checks splits into its numbers. *)
Lemma is_valid_date_shape s has_hour :
  is_valid_date s has_hour = true ->
  exists y m d tl, s = dec_fix 4 y ++ dec_fix 2 m ++ dec_fix 2 d ++ tl /\
    0 <= y < 10 ^ 4 /\ 0 <= m < 10 ^ 2 /\ 0 <= d < 10 ^ 2 /\
    length tl = (if has_hour then 2 else 0)%nat.
Proof.
  unfold is_valid_date. destruct (Z.eqb_spec (Z.of_nat (length s)) (if has_hour then 10 else 8))
    as [Hlen|]; [|done]. cbn [negb].
  destruct (forallb isdigit (take 8 s)) eqn:Hd; [|done]. intros _.
  apply forallb_digits in Hd.
  assert (length s = (8 + (if has_hour then 2 else 0))%nat) as Hlen' by (destruct has_hour; lia).
  rewrite <- (take_drop 4 (take 8 s)), take_take in Hd.
  apply Forall_app in Hd as [H4 H8].
  rewrite <- (take_drop 2 (drop 4 (take 8 s))) in H8. apply Forall_app in H8 as [H6 H8].
  pose proof (digits_fix _ H4) as [E4 R4]. pose proof (digits_fix _ H6) as [E6 R6].
  pose proof (digits_fix _ H8) as [E8 R8].
  assert (L4 : length (take (4 `min` 8) s) = 4%nat) by (rewrite length_take; lia).
  assert (L6 : length (take 2 (drop 4 (take 8 s))) = 2%nat)
    by (rewrite length_take, length_drop, length_take; lia).
  assert (L8 : length (drop 2 (drop 4 (take 8 s))) = 2%nat)
    by (rewrite !length_drop, length_take; lia).
  rewrite L4 in *. rewrite L6 in *. rewrite L8 in *.
  eexists _, _, _, (drop 8 s). split; [|split; [exact R4|split; [exact R6|split; [exact R8|]]]].
  - rewrite <- E4, <- E6, <- E8. rewrite (app_assoc (take 2 _)), take_drop.
    by rewrite <- take_take, app_assoc, !take_drop.
  - rewrite length_drop. destruct has_hour; lia.
Qed.

(** A string is accepted as YYYYMMDD, or YYYYMMDDHH, exactly when it is
    the fixed-width decimal text of a date of the Gregorian calendar and, in
    the second form, of an hour of the day. *)
Theorem is_valid_date_spec s has_hour :
  is_valid_date s has_hour = true <->
  exists y m d tl, 0 <= y <= 9999 /\ valid_date y m d /\
    (if has_hour then exists h, 0 <= h <= 23 /\ tl = dec_fix 2 h else tl = []) /\
    s = dec_fix 4 y ++ dec_fix 2 m ++ dec_fix 2 d ++ tl.
Proof.
  split.
  - intros Hv. destruct (is_valid_date_shape s has_hour Hv)
      as (y & m & d & tl & -> & Hy & Hm & Hd & Htl).
    apply is_valid_date_text in Hv as [Hv Htl']; try done.
    exists y, m, d, tl. split; [lia|]. split; [done|]. split; [|done].
    destruct has_hour; [|by destruct tl].
    destruct (Htl' eq_refl) as [Hdig Hh]. apply forallb_digits in Hdig.
    exists (dec_value tl). split; [done|].
    destruct (digits_fix tl Hdig) as [E _]. by rewrite Htl in E.
  - intros (y & m & d & tl & Hy & Hv & Htl & ->).
    pose proof (month_days_range y m).
    apply is_valid_date_text; try (unfold valid_date in Hv; lia).
    + destruct has_hour; [|by subst]. destruct Htl as (h & _ & ->). apply length_dec_fix.
    + split; [done|]. intros ->. destruct Htl as (h & Hh & ->).
      split; [apply forallb_digits, dec_fix_digits|].
      rewrite dec_value_fix; [lia|simpl; lia].
Qed.

(** ** Time zones *)

(** Offsets written as [+HH:MM] or [-HH:MM] with at most 12 hours are
    converted to seconds, and whatever the text an accepted offset lies within
    12 hours and 59 minutes of UTC. *)
Theorem tz_to_second_spec `{Zone} now :
  (forall (neg : bool) h m, 0 <= h <= 12 -> 0 <= m <= 59 ->
     tz_to_second now
       (Some ((if neg then 45 else 43) :: dec_fix 2 h ++ 58 :: dec_fix 2 m))
     = Some ((if neg then -1 else 1) * (h * 3600 + m * 60))) /\
  (forall tz r, tz_to_second now tz = Some r -> -46740 <= r <= 46740).
Proof.
  split.
  - intros neg h m Hh Hm. unfold tz_to_second.
    destruct (decide _) as [E|_]; [by destruct neg|].
    cbn [dec_fix app length Nat.eqb nth].
    pose proof (dec_fix_digits 2 h) as Hdh. pose proof (dec_fix_digits 2 m) as Hdm.
    pose proof (dec_value_fix 2 h ltac:(simpl; lia)) as Eh.
    pose proof (dec_value_fix 2 m ltac:(simpl; lia)) as Em.
    cbn [dec_fix app] in *. unfold dec_value in Eh, Em. cbn [foldl] in Eh, Em.
    set (h1 := 48 + h / 10 mod 10) in *. set (h2 := 48 + h mod 10) in *.
    set (m1 := 48 + m / 10 mod 10) in *. set (m2 := 48 + m mod 10) in *.
    apply Forall_cons in Hdh as [H1 [H2 _]%Forall_cons].
    apply Forall_cons in Hdm as [H3 [H4 _]%Forall_cons].
    rewrite H1, H2, H3, H4. clearbody h1 h2 m1 m2.
    rewrite (proj2 (Z.ltb_ge 12 _)), (proj2 (Z.ltb_ge 59 _)) by lia.
    destruct neg; simpl; f_equal; lia.
  - intros [tz|] r; unfold tz_to_second; [|done].
    destruct (decide _).
    + pose proof (localtime_range now) as [Hl _].
      pose proof (gmtime_range now) as Hg. cbv zeta in *.
      generalize dependent (tm_hour (localtime now)).
      generalize dependent (tm_hour (gmtime now)).
      intros g Hg l Hl [=<-]. repeat bool_case; lia.
    + repeat case_match; try done; intros [=<-];
        repeat match goal with
        | H : _ || _ = false |- _ => apply orb_false_iff in H as [? ?]
        | H : negb _ = false |- _ => apply negb_false_iff in H
        | H : (_ <? _) = false |- _ => apply Z.ltb_ge in H
        | H : isdigit _ = true |- _ =>
            unfold isdigit in H; apply andb_true_iff in H as [?%Z.leb_le ?%Z.leb_le]
        end; lia.
Qed.

Lemma tz_to_second_spec_witness :
  @tz_to_second (fixed_zone 0) 0 (Some (bytes_of_string "-08:30")) = Some (-30600).
Proof. apply (proj1 (@tz_to_second_spec (fixed_zone 0) 0) true 8 30); lia. Defined.

(** ** DATE_FORMAT *)

(** Every percent sign introduces a conversion. *)
Fixpoint percent_ok (f : bytes) : bool :=
  match f with
  | [] => true
  | c :: f =>
      if c =? 37 then match f with [] => false | _ :: f => percent_ok f end
      else percent_ok f
  end.

Definition no_percent (f : bytes) : Prop := Forall (fun c => c <> 37) f.

Lemma no_percent_app_ok f g : no_percent f -> percent_ok (f ++ g) = percent_ok g.
Proof.
  induction 1 as [|c f Hc Hf IH]; [done|]. simpl. by rewrite (proj2 (Z.eqb_neq c 37)).
Qed.

Lemma dec_fix_no_percent w n : no_percent (dec_fix w n).
Proof. eapply Forall_impl; [apply dec_fix_digits|]. by intros c Hc ->. Qed.

Lemma to_string_no_percent n : no_percent (to_string n).
Proof.
  unfold to_string. destruct (Z.ltb_spec n 0).
  - destruct (dec_u_spec (- n)) as (k & _ & _ & _ & ->); [lia|].
    constructor; [lia|apply dec_fix_no_percent].
  - destruct (dec_u_spec n) as (k & _ & _ & _ & ->); [lia|apply dec_fix_no_percent].
Qed.

Lemma printf_no_percent w n : no_percent (printf_0d w n).
Proof.
  assert (Hpad : forall w m, 0 <= m -> no_percent (pad w (dec_u m))).
  { intros w' m Hm. destruct (dec_u_spec m Hm) as (k & _ & _ & _ & ->).
    apply Forall_app; split; [|apply dec_fix_no_percent].
    apply Forall_replicate. lia. }
  unfold printf_0d. destruct (Z.ltb_spec n 0).
  - constructor; [lia|apply Hpad; lia].
  - by apply Hpad.
Qed.

(** An expansion is free of percent signs or is one conversion. *)
Lemma date_format_conv_shape tp c :
  no_percent (date_format_conv tp c) \/ exists d, date_format_conv tp c = [37; d].
Proof.
  assert (Hap : no_percent (am_pm tp)).
  { unfold am_pm. case_match; repeat constructor; done. }
  assert (Hor : no_percent (ordinal_suffix (tm_mday tp))).
  { unfold ordinal_suffix. repeat case_match; repeat constructor; done. }
  unfold date_format_conv.
  repeat case_match; first
    [ right; eexists; reflexivity
    | left; repeat (apply Forall_app; split);
      first [ apply Hap | apply Hor | apply to_string_no_percent
            | apply printf_no_percent | repeat (constructor; try done) ] ].
Qed.

(** Whatever the MySQL format, the format handed to [strftime] is well
    formed: no percent sign is left without its conversion letter, not even
    when the MySQL format ends with one; and the clock of 12 hours shows an
    hour from 1 to 12. *)
Theorem date_format_well_formed tp format :
  0 <= tm_hour tp < 24 ->
  percent_ok (date_format_string tp format) = true /\ 1 <= hour12 tp <= 12.
Proof.
  intros Hh. split.
  - remember (length format) as n eqn:Hn. revert format Hn.
    induction n as [n IH] using lt_wf_ind; intros [|c f] ->; [done|].
    cbn [date_format_string]. destruct (Z.eqb_spec c 37) as [->|Hc]; cbn [negb].
    + destruct f as [|d f]; [done|].
      assert (percent_ok (date_format_string tp f) = true) as Hf
        by (eapply IH; [|done]; simpl; lia).
      destruct (date_format_conv_shape tp d) as [Hnp|[e ->]];
        [by rewrite no_percent_app_ok|done].
    + cbn [percent_ok]. rewrite (proj2 (Z.eqb_neq c 37)) by done.
      eapply IH; [|done]. simpl. lia.
  - unfold hour12. rewrite Z.rem_mod_nonneg by lia. bool_case; div_lia.
Qed.

Lemma date_format_well_formed_witness :
  percent_ok (date_format_string (mk_tm 5 4 0 3 1 124 0)
    (bytes_of_string "%Y-%m-%D %r 100%")) = true /\
  1 <= hour12 (mk_tm 5 4 0 3 1 124 0) <= 12.
Proof. apply date_format_well_formed. simpl. lia. Defined.

(** ** Departures from the intended behaviour *)

(** The comment on the packed form says its highest bit must be zero; a year
    written with a sign sets it. *)
Example negative_year_sets_top_bit :
  exists dt, str_to_datetime (bytes_of_string "-1-01-01") = Some (dt, Some true)
             /\ 2 ^ 63 <= dt.
Proof. eexists. split; [vm_compute; reflexivity|done]. Qed.

(** The number of bytes copied is measured before leading blanks are skipped,
    so two blanks make the copy run past the terminating NUL. *)
Example leading_blanks_overread :
  str_to_datetime (bytes_of_string "  2024-01-01") = None.
Proof. vm_compute. reflexivity. Qed.

(** The year 70 is 1970 in text and 70 in the binary protocol. *)
Example year_70_text_binary :
  match str_to_datetime (bytes_of_string "70-01-01") with
  | Some (dt, _) => datetime_to_year dt = 1970
  | None => False
  end /\
  datetime_to_year (bin_date_to_datetime (mk_DateTime 70 1 1 0 0 0 0 0)) = 70.
Proof. split; vm_compute; reflexivity. Qed.
