(* ===== verification/ExprValue.v ===== *)
(** * Values of the executor ([include/common/expr_value.h],
      [include/common/type_utils.h])

    A value is a type tag, an eight-byte union and a string.  The union is the
    bytes it occupies, so writing one member and reading another gives what the
    hardware gives.  Bitmaps (CRoaring) and the hash function (butil) are
    parameters. *)

From S2P Require Import Prelude KeyEncoder Stdio FloatArith FloatText Calendar DateTime.

(** ** Types *)

Inductive PrimitiveType :=
| INVALID_TYPE | NULL_TYPE | BOOL | INT8 | INT16 | INT32 | INT64
| UINT8 | UINT16 | UINT32 | UINT64 | FLOAT | DOUBLE | STRING
| DATETIME | TIMESTAMP | DATE | HLL | TIME | PLACE_HOLDER | HEX
| BITMAP | TDIGEST | JSON | MAXVALUE_TYPE.

#[global] Instance PrimitiveType_eq_dec : EqDecision PrimitiveType.
Proof. solve_decision. Defined.

Definition type_eqb (a b : PrimitiveType) : bool := bool_decide (a = b).

Definition is_double (t : PrimitiveType) : bool :=
  match t with FLOAT | DOUBLE => true | _ => false end.

Definition has_double (types : list PrimitiveType) : bool := existsb is_double types.

Definition is_datetime_specic (t : PrimitiveType) : bool :=
  match t with DATETIME | TIMESTAMP | DATE | TIME => true | _ => false end.

Definition is_current_timestamp_specic (t : PrimitiveType) : bool :=
  match t with DATETIME | TIMESTAMP => true | _ => false end.

Definition has_timestamp (types : list PrimitiveType) : bool :=
  existsb (type_eqb TIMESTAMP) types.
Definition has_datetime (types : list PrimitiveType) : bool :=
  existsb (type_eqb DATETIME) types.
Definition has_time (types : list PrimitiveType) : bool := existsb (type_eqb TIME) types.
Definition has_date (types : list PrimitiveType) : bool := existsb (type_eqb DATE) types.

Definition is_int (t : PrimitiveType) : bool :=
  match t with
  | INT8 | INT16 | INT32 | INT64 | UINT8 | UINT16 | UINT32 | UINT64 => true
  | _ => false
  end.

Definition is_uint (t : PrimitiveType) : bool :=
  match t with UINT8 | UINT16 | UINT32 | UINT64 => true | _ => false end.

Definition has_uint (types : list PrimitiveType) : bool := existsb is_uint types.
Definition has_int (types : list PrimitiveType) : bool := existsb is_int types.
Definition all_uint (types : list PrimitiveType) : bool := forallb is_uint types.
Definition all_int (types : list PrimitiveType) : bool := forallb is_int types.

Definition is_string (t : PrimitiveType) : bool :=
  match t with STRING | HEX | BITMAP | HLL | TDIGEST => true | _ => false end.
Definition has_string (types : list PrimitiveType) : bool := existsb is_string types.

Definition get_num_size (t : PrimitiveType) : Z :=
  match t with
  | BOOL => 1
  | INT8 | UINT8 => 1
  | INT16 | UINT16 => 2
  | INT32 | UINT32 | DATE | TIMESTAMP | TIME => 4
  | INT64 | UINT64 | DATETIME => 8
  | FLOAT => 4
  | DOUBLE => 8
  | _ => -1
  end.

Definition is_precision (t : PrimitiveType) : bool :=
  match t with FLOAT | DOUBLE | DATETIME => true | _ => false end.

(** ** Libraries *)

(** Bitmaps, as far as values use them. *)
Class RoaringLib := {
  Roaring : Type;
  roaring_new : Roaring;
  roaring_runOptimize : Roaring -> Roaring;
  roaring_getSizeInBytes : Roaring -> Z;
  roaring_write : Roaring -> bytes;
  (** [None]: the text is rejected with an exception. *)
  roaring_readSafe : bytes -> option Roaring
}.

(** The first 64 bits of [MurmurHash3_x64_128] of some bytes with a seed. *)
Class Murmur := murmur : bytes -> Z -> Z.

(** ** Values *)

(** The targets of the template [get_numberic]. *)
Inductive num_type := TBool | TInt (w : Z) | TUint (w : Z) | TFloat | TDouble.

(** Conversion of an integer, and of a floating-point number, to such a type.
    A floating-point number outside the range of an integer type has no
    converted value. *)
Definition conv_int (T : num_type) (z : Z) : Z :=
  match T with
  | TBool => if z =? 0 then 0 else 1
  | TInt w => swrap w z
  | TUint w => wrap w z
  | TFloat => f32_of_Z z
  | TDouble => f64_of_Z z
  end.

Definition in_range (lo hi z : Z) : option Z :=
  if (lo <=? z) && (z <? hi) then Some z else None.

Definition conv_fp (T : num_type) (w m x : Z) : option Z :=
  match T with
  | TBool => Some (if fp_is_zero w x then 0 else 1)
  | TInt v => z ← fp_trunc w m x; in_range (- 2 ^ (v - 1)) (2 ^ (v - 1)) z
  | TUint v => z ← fp_trunc w m x; in_range 0 (2 ^ v) z
  | TFloat => Some (if w =? 32 then x else fp_convert w m 32 23 x)
  | TDouble => Some (if w =? 64 then x else fp_convert w m 64 52 x)
  end.

(** A value read as a base-256 number, as HEX literals are. *)
Definition hex_value (s : bytes) : Z :=
  foldl (fun value c => u64 (value * 256 + c)) 0 s.

Section Values.
Context `{Host, RoaringLib}.

Record ExprValue := mk_ExprValue {
  type : PrimitiveType;
  float_precision_len : Z;
  _u : bytes;
  bitmap : option Roaring;
  str_val : bytes
}.

(** *** The union *)

Definition u_read (n : nat) (v : ExprValue) : Z := mem_value (take n (_u v)).

Definition bool_val := u_read 1.
Definition int8_val (v : ExprValue) : Z := i8 (u_read 1 v).
Definition int16_val (v : ExprValue) : Z := i16 (u_read 2 v).
Definition int32_val (v : ExprValue) : Z := i32 (u_read 4 v).
Definition int64_val (v : ExprValue) : Z := i64 (u_read 8 v).
Definition uint8_val := u_read 1.
Definition uint16_val := u_read 2.
Definition uint32_val := u_read 4.
Definition uint64_val := u_read 8.
Definition float_val := u_read 4.
Definition double_val := u_read 8.

(** Writing [n] bytes leaves the others as they are. *)
Definition u_write (n : nat) (x : Z) (v : ExprValue) : ExprValue :=
  mk_ExprValue (type v) (float_precision_len v)
    (mem_store n (wrap (8 * Z.of_nat n) x) ++ drop n (_u v)) (bitmap v) (str_val v).

Definition set_type (t : PrimitiveType) (v : ExprValue) : ExprValue :=
  mk_ExprValue t (float_precision_len v) (_u v) (bitmap v) (str_val v).
Definition set_str (s : bytes) (v : ExprValue) : ExprValue :=
  mk_ExprValue (type v) (float_precision_len v) (_u v) (bitmap v) s.
Definition set_bitmap (b : option Roaring) (v : ExprValue) : ExprValue :=
  mk_ExprValue (type v) (float_precision_len v) (_u v) b (str_val v).
Definition put_precision (n : Z) (v : ExprValue) : ExprValue :=
  mk_ExprValue (type v) n (_u v) (bitmap v) (str_val v).

(** *** Construction *)

(** [td_init] on a buffer of [td_required_buf_size]: the magic, the capacity,
    the compression 100.0 and zeros ([src/common/tdigest.cpp]). *)
Definition td_empty : bytes :=
  let cap := 6 * 100 + 10 in
  bytes_of_string "TDGT" ++ mem_store 4 cap ++ mem_store 8 0x4059000000000000
  ++ replicate (Z.to_nat (24 + 16 * cap)) 0.

Definition new_ExprValue (t : PrimitiveType) : ExprValue :=
  mk_ExprValue t (-1) (replicate 8 0)
    (if type_eqb t BITMAP then Some roaring_new else None)
    (if type_eqb t TDIGEST then td_empty else []).

(** The message [pb::ExprValue]; an absent field reads as its default. *)
Record pb_ExprValue := mk_pb {
  pb_type : PrimitiveType;
  pb_bool_val : Z; pb_int32_val : Z; pb_uint32_val : Z; pb_int64_val : Z;
  pb_uint64_val : Z; pb_float_val : Z; pb_double_val : Z; pb_string_val : bytes
}.

(** The constructor from the message; it writes one member of a union whose
    bytes [u0] it does not initialise. *)
Definition from_proto (u0 : bytes) (value : pb_ExprValue) : ExprValue :=
  let v := mk_ExprValue (pb_type value) (-1) u0 None [] in
  match pb_type value with
  | BOOL => u_write 1 (pb_bool_val value) v
  | INT8 => u_write 1 (pb_int32_val value) v
  | INT16 => u_write 2 (pb_int32_val value) v
  | INT32 | TIME => u_write 4 (pb_int32_val value) v
  | INT64 => u_write 8 (pb_int64_val value) v
  | UINT8 => u_write 1 (pb_uint32_val value) v
  | UINT16 => u_write 2 (pb_uint32_val value) v
  | UINT32 | TIMESTAMP | DATE => u_write 4 (pb_uint32_val value) v
  | UINT64 | DATETIME => u_write 8 (pb_uint64_val value) v
  | FLOAT => u_write 4 (pb_float_val value) v
  | DOUBLE => u_write 8 (pb_double_val value) v
  | STRING | HLL | HEX | TDIGEST | JSON => set_str (pb_string_val value) v
  | BITMAP =>
      set_bitmap (Some match pb_string_val value with
                       | [] => roaring_new
                       | s => default roaring_new (roaring_readSafe s)
                       end) v
  | _ => v
  end.

(** [to_proto] sets the tag and one field of a message. *)
Definition to_proto (v : ExprValue) (p : pb_ExprValue) : pb_ExprValue :=
  let 'mk_pb _ b i32v u32v i64v u64v f d s := p in
  let t := type v in
  match t with
  | BOOL => mk_pb t (bool_val v) i32v u32v i64v u64v f d s
  | INT8 => mk_pb t b (int8_val v) u32v i64v u64v f d s
  | INT16 => mk_pb t b (int16_val v) u32v i64v u64v f d s
  | INT32 | TIME => mk_pb t b (int32_val v) u32v i64v u64v f d s
  | INT64 => mk_pb t b i32v u32v (int64_val v) u64v f d s
  | UINT8 => mk_pb t b i32v (uint8_val v) i64v u64v f d s
  | UINT16 => mk_pb t b i32v (uint16_val v) i64v u64v f d s
  | UINT32 | TIMESTAMP | DATE => mk_pb t b i32v (uint32_val v) i64v u64v f d s
  | UINT64 | DATETIME => mk_pb t b i32v u32v i64v (uint64_val v) f d s
  | FLOAT => mk_pb t b i32v u32v i64v u64v (float_val v) d s
  | DOUBLE => mk_pb t b i32v u32v i64v u64v f (double_val v) s
  | STRING | HEX | BITMAP | JSON | TDIGEST =>
      mk_pb t b i32v u32v i64v u64v f d (str_val v)
  | _ => mk_pb t b i32v u32v i64v u64v f d s
  end.

(** *** Predicates *)

Definition is_null (v : ExprValue) : bool :=
  type_eqb (type v) NULL_TYPE || type_eqb (type v) INVALID_TYPE.
Definition is_maxvalue (v : ExprValue) : bool := type_eqb (type v) MAXVALUE_TYPE.
Definition is_numberic (v : ExprValue) : bool :=
  is_int (type v) || type_eqb (type v) BOOL || is_double (type v).
Definition is_string_value (v : ExprValue) : bool :=
  match type v with STRING | HEX | BITMAP | HLL | TDIGEST | JSON => true | _ => false end.

(** *** Strings *)

Fixpoint common_prefix (a b : bytes) : Z :=
  match a, b with
  | x :: a, y :: b => if x =? y then 1 + common_prefix a b else 0
  | _, _ => 0
  end.

Definition common_prefix_length (v other : ExprValue) : Z :=
  if negb (type_eqb (type v) STRING) || negb (type_eqb (type other) STRING) then 0
  else common_prefix (str_val v) (str_val other).

(** The loop of [float_value] over eight positions, past the end as zeros. *)
Definition float_chars (s : bytes) : Z :=
  foldl (fun val i => u64 (val + u64 (u64 (Z.shiftl val 8) + nth i s 0))) 0 (seq 0 8).

(** The loop of [unit64_value]. *)
Definition unit64_chars (s : bytes) : Z :=
  foldl (fun val i => u64 (u64 (Z.shiftl val 8) + nth i s 0)) 0 (seq 0 8).

Definition unit64_value (prefix_len : Z) (v : ExprValue) : Z :=
  if type_eqb (type v) STRING then
    if Z.of_nat (length (str_val v)) <=? prefix_len then 0
    else unit64_chars (drop (Z.to_nat prefix_len) (str_val v))
  else 0.

(** *** Numbers *)

(** [::round(x * carry) / carry] with [carry = pow(10, len)]; a power above the
    range of [int32_t] has no value. *)
Definition round_precision (w m : Z) (len x : Z) : option Z :=
  if 0 <? len then
    if 9 <? len then None
    else
      let carry := fp_of_Z w m (10 ^ len) in
      Some (fp_div w m (fp_round w m (fp_mul w m x carry)) carry)
  else Some x.

Definition is_integral (T : num_type) : bool :=
  match T with TBool | TInt _ | TUint _ => true | TFloat | TDouble => false end.

Definition get_numberic (T : num_type) (v : ExprValue) : option Z :=
  match type v with
  | BOOL => Some (conv_int T (bool_val v))
  | INT8 => Some (conv_int T (int8_val v))
  | INT16 => Some (conv_int T (int16_val v))
  | INT32 => Some (conv_int T (int32_val v))
  | INT64 => Some (conv_int T (int64_val v))
  | UINT8 => Some (conv_int T (uint8_val v))
  | UINT16 => Some (conv_int T (uint16_val v))
  | UINT32 => Some (conv_int T (uint32_val v))
  | UINT64 => Some (conv_int T (uint64_val v))
  | FLOAT =>
      x ← round_precision 32 23 (float_precision_len v) (float_val v); conv_fp T 32 23 x
  | DOUBLE =>
      x ← round_precision 64 52 (float_precision_len v) (double_val v); conv_fp T 64 52 x
  | STRING =>
      if is_integral T then Some (conv_int T (strtoull (str_val v)))
      else conv_fp T 64 52 (strtod (str_val v))
  | HEX => Some (conv_int T (hex_value (str_val v)))
  | DATETIME => Some (conv_int T (uint64_val v))
  | TIME => Some (conv_int T (int32_val v))
  | TIMESTAMP => Some (conv_int T (uint32_val v))
  | DATE => Some (conv_int T (uint32_val v))
  | _ => Some (conv_int T 0)
  end.

(** [set_numeric] of an integer; the result is the return code. *)
Definition set_numeric (val : Z) (v : ExprValue) : Z * ExprValue :=
  let v := put_precision 0 v in
  match type v with
  | BOOL => (0, u_write 1 (conv_int TBool val) v)
  | INT8 | UINT8 => (0, u_write 1 val v)
  | INT16 | UINT16 => (0, u_write 2 val v)
  | INT32 | TIME | UINT32 | TIMESTAMP | DATE => (0, u_write 4 val v)
  | INT64 | UINT64 | DATETIME => (0, u_write 8 val v)
  | FLOAT => (0, u_write 4 (f32_of_Z val) v)
  | DOUBLE => (0, u_write 8 (f64_of_Z val) v)
  | _ => (-1, v)
  end.

Definition size (v : ExprValue) : Z :=
  match type v with
  | BOOL | INT8 | UINT8 => 1
  | INT16 | UINT16 => 2
  | INT32 | UINT32 => 4
  | INT64 | UINT64 => 8
  | FLOAT => 4
  | DOUBLE => 8
  | STRING | HEX | HLL | JSON | TDIGEST => Z.of_nat (length (str_val v))
  | DATETIME => 8
  | TIME | DATE | TIMESTAMP => 4
  | BITMAP =>
      match bitmap v with Some b => roaring_getSizeInBytes b | None => 0 end
  | _ => 0
  end.

(** *** Comparison *)

(** [a > b ? 1 : (a < b ? -1 : 0)]. *)
Definition three_way (a b : Z) : Z := if b <? a then 1 else if a <? b then -1 else 0.
Definition fp_three_way (w m a b : Z) : Z :=
  if fp_lt w m b a then 1 else if fp_lt w m a b then -1 else 0.

(** Of [std::string::compare] only the sign of the result is specified. *)
Definition compare (v other : ExprValue) : Z :=
  if is_maxvalue v || is_maxvalue other then
    if is_maxvalue v && is_maxvalue other then 0 else if is_maxvalue v then 1 else -1
  else
    match type v with
    | BOOL => bool_val v - bool_val other
    | INT8 => int8_val v - int8_val other
    | INT16 => int16_val v - int16_val other
    | INT32 | TIME => int32_val v - int32_val other
    | INT64 => three_way (int64_val v) (int64_val other)
    | UINT8 => uint8_val v - uint8_val other
    | UINT16 => uint16_val v - uint16_val other
    | UINT32 | TIMESTAMP | DATE => uint32_val v - uint32_val other
    | UINT64 | DATETIME => three_way (uint64_val v) (uint64_val other)
    | FLOAT => fp_three_way 32 23 (float_val v) (float_val other)
    | DOUBLE => fp_three_way 64 52 (double_val v) (double_val other)
    | STRING | HEX | JSON => cmp_int (lex_compare (str_val v) (str_val other))
    | NULL_TYPE => -1
    | _ => 0
    end.

Definition value_eqb (v other : ExprValue) : bool := compare other v =? 0.

Definition hash `{Murmur} (seed : Z) (v : ExprValue) : Z :=
  match type v with
  | BOOL | INT8 | UINT8 => murmur (take 1 (_u v)) seed
  | INT16 | UINT16 => murmur (take 2 (_u v)) seed
  | INT32 | UINT32 | FLOAT | TIMESTAMP | DATE | TIME => murmur (take 4 (_u v)) seed
  | INT64 | UINT64 | DOUBLE | DATETIME => murmur (take 8 (_u v)) seed
  | STRING | JSON | HEX => murmur (str_val v) seed
  | _ => 0
  end.

(** The hash of [ExprValueFlatSet]. *)
Definition HashFunction `{Murmur} (ev : ExprValue) : Z :=
  match type ev with
  | STRING | HEX | JSON => hash 0x110 ev
  | _ => uint64_val ev
  end.

(** *** Text *)

(** The text of [snprintf] in the buffer of 24 bytes.  A precision below -1
    makes a format without meaning. *)
Definition float_text (w m p len x : Z) : option bytes :=
  if len =? -1 then Some (take 23 (printf_g w m p x))
  else if len <? -1 then None
  else Some (take 23 (printf_f w m (Z.to_nat len) x)).

Definition get_int_text (v : ExprValue) : option bytes :=
  match type v with
  | BOOL => Some (to_string (bool_val v))
  | INT8 => Some (to_string (int8_val v))
  | INT16 => Some (to_string (int16_val v))
  | INT32 => Some (to_string (int32_val v))
  | INT64 => Some (to_string (int64_val v))
  | UINT8 => Some (to_string (uint8_val v))
  | UINT16 => Some (to_string (uint16_val v))
  | UINT32 => Some (to_string (uint32_val v))
  | UINT64 => Some (to_string (uint64_val v))
  | FLOAT => float_text 32 23 6 (float_precision_len v) (float_val v)
  | DOUBLE => float_text 64 52 12 (float_precision_len v) (double_val v)
  | BITMAP =>
      Some match bitmap v with
           | Some b => roaring_write (roaring_runOptimize b)
           | None => []
           end
  | _ => Some []
  end.

Definition get_int_string (v : ExprValue) : option bytes :=
  match type v with
  | MAXVALUE_TYPE => Some (bytes_of_string "MAXVALUE")
  | STRING | HEX | HLL | TDIGEST => Some (str_val v)
  | DATETIME => Some (to_string (uint64_val v))
  | TIME => Some (to_string (int32_val v))
  | TIMESTAMP => Some (to_string (uint32_val v))
  | DATE => Some (to_string (uint32_val v))
  | _ => get_int_text v
  end.

Definition get_string `{Zone} (v : ExprValue) : option bytes :=
  match type v with
  | MAXVALUE_TYPE => Some (bytes_of_string "MAXVALUE")
  | STRING | HEX | JSON | HLL | TDIGEST => Some (str_val v)
  | DATETIME => Some (datetime_to_str (uint64_val v) (float_precision_len v))
  | TIME => Some (time_to_str (int32_val v))
  | TIMESTAMP => timestamp_to_str (uint32_val v) false
  | DATE => Some (date_to_str (uint32_val v))
  | _ => get_int_text v
  end.

(** *** Precision of a DATETIME *)

Definition dt_cast_len (v : ExprValue) : ExprValue :=
  let len := float_precision_len v in
  if (0 <=? len) && (len <=? 6) then
    let carry := 10 ^ (6 - len) in
    let oldmic := Z.land (uint64_val v) 0xffffff in
    let newmic := oldmic / carry * carry in
    u_write 8 (Z.lor (Z.land (uint64_val v) (u64 (Z.lnot 0xffffff))) newmic) v
  else v.

Definition set_precision_len (precision : Z) (v : ExprValue) : ExprValue :=
  if float_precision_len v =? precision then v
  else
    let v := put_precision precision v in
    if type_eqb (type v) DATETIME then dt_cast_len v else v.

(** *** Casts *)

(** Whether a string is a t-digest: the counts lie at offsets 16 and 20. *)
Definition is_td_object (td : bytes) : option bool :=
  if Z.of_nat (length td) <? 4 then Some false
  else if negb (bool_decide (take 4 td = bytes_of_string "TDGT")) then Some false
  else
    merged ← mem_load td 16 4;
    unmerged ← mem_load td 20 4;
    Some (40 + u64 (i32 (i32 merged + i32 unmerged)) * 16 <=? Z.of_nat (length td)).

Section Casts.
Context `{Zone}.

(** The result of [time(NULL)] during the call. *)
Variable now : Z.

Definition c_string (s : bytes) : bytes := default s (c_str (s ++ [0])).

(** The cast of a value that is neither null nor MAXVALUE nor of the target
    type to a number or a string. *)
Definition cast_number (T : num_type) (n : nat) (v : ExprValue) : option ExprValue :=
  x ← get_numberic T v; Some (u_write n x v).

(** The branch [case pb::DATETIME]. *)
Definition cast_datetime (v : ExprValue) : option ExprValue :=
  v ← match type v with
      | STRING =>
          '(datetime, _) ← str_to_datetime (c_string (str_val v));
          Some (set_str [] (u_write 8 datetime v))
      | TIMESTAMP => Some (u_write 8 (timestamp_to_datetime (uint32_val v)) v)
      | DATE => Some (u_write 8 (date_to_datetime (uint32_val v)) v)
      | TIME => Some (u_write 8 (time_to_datetime now (int32_val v)) v)
      | _ => cast_number (TUint 64) 8 v
      end;
  Some (set_type DATETIME v).

(** [cast_to(pb::DATETIME)] inside another cast. *)
Definition to_datetime (v : ExprValue) : option ExprValue :=
  if type_eqb (type v) DATETIME then Some v else cast_datetime v.

Definition cast_to (t : PrimitiveType) (v : ExprValue) : option ExprValue :=
  if is_null v || is_maxvalue v || type_eqb (type v) t then Some v else
  v ← match t with
      | BOOL => cast_number TBool 1 v
      | INT8 => cast_number (TInt 8) 1 v
      | INT16 => cast_number (TInt 16) 2 v
      | INT32 => cast_number (TInt 32) 4 v
      | INT64 => cast_number (TInt 64) 8 v
      | UINT8 => cast_number (TUint 8) 1 v
      | UINT16 => cast_number (TUint 16) 2 v
      | UINT32 => cast_number (TUint 32) 4 v
      | UINT64 => cast_number (TUint 64) 8 v
      | DATETIME => cast_datetime v
      | TIMESTAMP =>
          if negb (is_numberic v) then
            v ← to_datetime v; Some (u_write 4 (datetime_to_timestamp (uint64_val v)) v)
          else cast_number (TUint 32) 4 v
      | DATE =>
          if negb (is_numberic v) then
            v ← to_datetime v; Some (u_write 4 (datetime_to_date (uint64_val v)) v)
          else cast_number (TUint 32) 4 v
      | TIME =>
          if is_numberic v then cast_number (TInt 32) 4 v
          else if is_string_value v then
            t ← str_to_time (c_string (str_val v)); Some (u_write 4 t v)
          else v ← to_datetime v; Some (u_write 4 (datetime_to_time (uint64_val v)) v)
      | FLOAT => cast_number TFloat 4 v
      | DOUBLE => cast_number TDouble 8 v
      | STRING | JSON => s ← get_string v; Some (set_str s v)
      | BITMAP =>
          Some (set_bitmap (Some match str_val v with
                                 | [] => roaring_new
                                 | s => default roaring_new (roaring_readSafe s)
                                 end) v)
      | TDIGEST =>
          b ← is_td_object (str_val v);
          Some (if b : bool then v else set_str td_empty v)
      | _ => Some v
      end;
  Some (set_type t v).

(** The constructor from a type and a text. *)
Definition parse_ExprValue (u0 : bytes) (primitive_type : PrimitiveType) (value_str : bytes) :
    option ExprValue :=
  let v := mk_ExprValue STRING (-1) u0 None value_str in
  match primitive_type with
  | STRING | JSON | HEX | BITMAP | HLL | TDIGEST => Some v
  | t => cast_to t v
  end.

(** [float_value], which casts dates to TIMESTAMP in place. *)
Definition float_value (prefix_len : Z) (v : ExprValue) : option (Z * ExprValue) :=
  match type v with
  | BOOL => Some (f64_of_Z (bool_val v), v)
  | INT8 => Some (f64_of_Z (int8_val v), v)
  | INT16 => Some (f64_of_Z (int16_val v), v)
  | INT32 => Some (f64_of_Z (int32_val v), v)
  | INT64 => Some (f64_of_Z (int64_val v), v)
  | UINT8 => Some (f64_of_Z (uint8_val v), v)
  | UINT16 => Some (f64_of_Z (uint16_val v), v)
  | UINT32 | TIMESTAMP => Some (f64_of_Z (uint32_val v), v)
  | UINT64 => Some (f64_of_Z (uint64_val v), v)
  | FLOAT => Some (f64_of_f32 (float_val v), v)
  | DOUBLE => Some (double_val v, v)
  | TIME | DATE | DATETIME =>
      v ← cast_to TIMESTAMP v; Some (f64_of_Z (uint32_val v), v)
  | STRING | HEX =>
      Some (if Z.of_nat (length (str_val v)) <=? prefix_len then 0
            else f64_of_Z (float_chars (drop (Z.to_nat prefix_len) (str_val v))), v)
  | _ => Some (0, v)
  end.

Definition fp_neg (w x : Z) : Z := Z.lxor x (2 ^ (w - 1)).

(** [end - self]; the end is a copy, the start may be cast. *)
Definition calc_diff (v end_ : ExprValue) (prefix_len : Z) : option (Z * ExprValue) :=
  '(e, _) ← float_value prefix_len end_;
  '(s, v) ← float_value prefix_len v;
  Some (fp_add 64 52 e (fp_neg 64 s), v).

(** Both operands are cast in place before they are compared. *)
Definition compare_diff_type (v other : ExprValue) :
    option (Z * ExprValue * ExprValue) :=
  if type_eqb (type v) (type other) then Some (compare v other, v, other)
  else
    let either t := type_eqb (type v) t || type_eqb (type other) t in
    let t :=
      if is_int (type v) && is_int (type other) then
        if is_uint (type v) || is_uint (type other) then UINT64 else INT64
      else if either DATETIME then DATETIME
      else if either TIMESTAMP then TIMESTAMP
      else if either DATE then DATE
      else if either TIME then TIME
      else if is_double (type v) || is_double (type other) then DOUBLE
      else if is_int (type v) || is_int (type other) then DOUBLE
      else STRING in
    v ← cast_to t v;
    other ← cast_to t other;
    Some (compare v other, v, other).

End Casts.

(** *** Addition *)

Definition add_number (T : num_type) (n : nat) (x : Z) (v value : ExprValue) :
    option (ExprValue * ExprValue) :=
  y ← get_numberic T value; Some (u_write n (x + y) v, value).

(** [this.add(value)]: the new [this] and the new [value].  The sum of signed
    integers wraps around. *)
Definition add (v value : ExprValue) : option (ExprValue * ExprValue) :=
  match type v with
  | BOOL =>
      y ← get_numberic TBool value;
      Some (v, u_write 1 (conv_int TBool (bool_val value + y)) value)
  | INT8 => add_number (TInt 8) 1 (int8_val v) v value
  | INT16 => add_number (TInt 16) 2 (int16_val v) v value
  | INT32 => add_number (TInt 32) 4 (int32_val v) v value
  | INT64 => add_number (TInt 64) 8 (int64_val v) v value
  | UINT8 => add_number (TUint 8) 1 (uint8_val v) v value
  | UINT16 => add_number (TUint 16) 2 (uint16_val v) v value
  | UINT32 => add_number (TUint 32) 4 (uint32_val v) v value
  | UINT64 => add_number (TUint 64) 8 (uint64_val v) v value
  | FLOAT =>
      y ← get_numberic TFloat value;
      Some (u_write 4 (fp_add 32 23 (float_val v) y) v, value)
  | DOUBLE =>
      y ← get_numberic TDouble value;
      Some (u_write 8 (fp_add 64 52 (double_val v) y) v, value)
  | NULL_TYPE => Some (value, value)
  | _ => Some (v, value)
  end.

End Values.
