(* ===== verification/ExprValueFacts.v ===== *)
(** * Correctness of values ([ExprValue])

    The members of the union, the order of [compare] and its agreement with the
    hashes, the message round trip, casts between integers and the helpers of
    region splitting. *)

From S2P Require Import Prelude KeyEncoder Stdio FloatArith FloatText Calendar DateTime ExprValue.

Section Facts.
Context `{Host, RoaringLib}.

(** ** The union *)

(** The union has eight bytes and a boolean is 0 or 1. *)
Record value_ok (v : ExprValue) : Prop := {
  ok_length : length (_u v) = 8%nat;
  ok_bytes : bytes_ok (_u v);
  ok_bool : type v = BOOL -> bool_val v = 0 \/ bool_val v = 1;
  ok_str : bytes_ok (str_val v)
}.

Lemma mem_value_range b :
  bytes_ok b -> 0 <= mem_value b < 256 ^ Z.of_nat (length b).
Proof.
  intros Hb. unfold mem_value. case_match; [|by apply le_combine_range].
  unfold be_combine. rewrite <- length_rev. by apply le_combine_range, bytes_ok_rev.
Qed.

Lemma pow_256 n : 256 ^ Z.of_nat n = 2 ^ (8 * Z.of_nat n).
Proof. rewrite Z.pow_mul_r by lia. done. Qed.

Lemma mem_store_ok n x : bytes_ok (mem_store n x).
Proof. unfold mem_store. case_match; [apply be_split_ok|apply le_split_ok]. Qed.

Lemma mem_store_value b : bytes_ok b -> mem_store (length b) (mem_value b) = b.
Proof.
  intros. unfold mem_store, mem_value. case_match;
    [by apply be_split_combine|by apply le_split_combine].
Qed.

Lemma u_read_range n v :
  value_ok v -> (n <= 8)%nat -> is_u (8 * Z.of_nat n) (u_read n v).
Proof.
  intros Hv Hn. unfold u_read, is_u. rewrite <- pow_256.
  pose proof (mem_value_range (take n (_u v)) (Forall_take _ n _ (ok_bytes v Hv))) as Hr.
  rewrite length_take, (ok_length v Hv), Nat.min_l in Hr; done.
Qed.

Lemma u_read_write n x v : u_read n (u_write n x v) = wrap (8 * Z.of_nat n) x.
Proof.
  unfold u_read, u_write; simpl.
  rewrite take_app_length' by by rewrite length_mem_store.
  apply mem_value_store. rewrite pow_256. apply wrap_range. lia.
Qed.

Lemma u_write_u_ok n x v :
  length (_u v) = 8%nat -> bytes_ok (_u v) -> (n <= 8)%nat ->
  length (_u (u_write n x v)) = 8%nat /\ bytes_ok (_u (u_write n x v)).
Proof.
  intros Hl Hb Hn; simpl. rewrite length_app, length_mem_store, length_drop. split; [lia|].
  apply Forall_app; split; [apply mem_store_ok|by apply Forall_drop].
Qed.

(** The union agrees with another one on its first [n] bytes. *)
Lemma u_read_eq n v w :
  value_ok v -> value_ok w -> (n <= 8)%nat ->
  u_read n v = u_read n w -> take n (_u v) = take n (_u w).
Proof.
  intros Hv Hw Hn E. unfold u_read in E.
  assert (Hl : forall x, value_ok x -> length (take n (_u x)) = n)
    by (intros x Hx; rewrite length_take, (ok_length x Hx); lia).
  rewrite <- (mem_store_value (take n (_u v))) by apply Forall_take, (ok_bytes v Hv).
  rewrite <- (mem_store_value (take n (_u w))) by apply Forall_take, (ok_bytes w Hw).
  by rewrite !Hl, E by done.
Qed.

(** ** What a value denotes *)

Inductive sem := SemInt (z : Z) | SemStr (s : bytes).

Definition sem_compare (a b : sem) : comparison :=
  match a, b with
  | SemInt x, SemInt y => x ?= y
  | SemStr s, SemStr t => lex_compare s t
  | SemInt _, SemStr _ => Lt
  | SemStr _, SemInt _ => Gt
  end.

(** The width and the reading of the active member. *)
Definition member_width (t : PrimitiveType) : nat :=
  match t with
  | BOOL | INT8 | UINT8 => 1
  | INT16 | UINT16 => 2
  | INT32 | UINT32 | DATE | TIMESTAMP | TIME | FLOAT => 4
  | INT64 | UINT64 | DATETIME | DOUBLE => 8
  | _ => 0
  end%nat.

Definition fp_sem (w m x : Z) : option sem :=
  if fp_is_nan w m x then None else Some (SemInt (fp_key w x)).

(** The abstract value: a number, ordered as reals, or a string.  A NaN and the
    types [compare] does not order have none. *)
Definition denote (v : ExprValue) : option sem :=
  match type v with
  | INT8 => Some (SemInt (int8_val v))
  | INT16 => Some (SemInt (int16_val v))
  | INT32 | TIME => Some (SemInt (int32_val v))
  | INT64 => Some (SemInt (int64_val v))
  | BOOL | UINT8 | UINT16 | UINT32 | TIMESTAMP | DATE | UINT64 | DATETIME =>
      Some (SemInt (u_read (member_width (type v)) v))
  | FLOAT => fp_sem 32 23 (float_val v)
  | DOUBLE => fp_sem 64 52 (double_val v)
  | STRING | HEX | JSON => Some (SemStr (str_val v))
  | _ => None
  end.

Lemma sub_compare a b : int_cmp (a - b) = (a ?= b).
Proof. unfold int_cmp. by rewrite <- Z.compare_sub. Qed.

Lemma three_way_compare a b : int_cmp (three_way a b) = (a ?= b).
Proof.
  unfold three_way, int_cmp. destruct (Z.compare_spec a b); repeat bool_case; lia || done.
Qed.

Lemma fp_three_way_compare w m x y :
  fp_is_nan w m x = false -> fp_is_nan w m y = false ->
  int_cmp (fp_three_way w m x y) = (fp_key w x ?= fp_key w y).
Proof.
  intros Hx Hy. unfold fp_three_way, fp_lt. rewrite Hx, Hy. cbn [negb andb].
  apply three_way_compare.
Qed.

Lemma cmp_int_compare c : int_cmp (cmp_int c) = c.
Proof. by destruct c. Qed.

(** [compare] decides the order of the abstract values of one type. *)
Lemma compare_denotes v w a b :
  type v = type w -> denote v = Some a -> denote w = Some b ->
  int_cmp (compare v w) = sem_compare a b.
Proof.
  intros Et Ha Hb. unfold compare, is_maxvalue.
  assert (Hm : type_eqb (type v) MAXVALUE_TYPE = false)
    by (unfold denote, type_eqb in *; by destruct (type v)).
  rewrite <- Et, Hm. cbn [orb]. unfold denote, fp_sem in *. rewrite <- Et in Hb.
  destruct (type v); simplify_eq; cbn [sem_compare];
    try apply sub_compare; try apply three_way_compare; try apply cmp_int_compare.
  all: destruct (fp_is_nan _ _ _) eqn:E1 in Ha; [done|];
    destruct (fp_is_nan _ _ _) eqn:E2 in Hb; [done|]; simplify_eq;
    cbn [sem_compare]; by apply fp_three_way_compare.
Qed.

Lemma sem_compare_antisym a b : sem_compare b a = CompOpp (sem_compare a b).
Proof.
  destruct a, b; simpl; [apply Z.compare_antisym|done|done|apply lex_compare_antisym].
Qed.

Lemma sem_compare_trans c a b d :
  sem_compare a b = c -> sem_compare b d = c -> sem_compare a d = c.
Proof.
  destruct a, b, d; simpl; try congruence; [|by apply lex_compare_trans].
  intros. destruct c.
  - apply Z.compare_eq_iff. transitivity z0; by apply Z.compare_eq_iff.
  - apply Z.compare_lt_iff. transitivity z0; by apply Z.compare_lt_iff.
  - apply Z.compare_gt_iff. transitivity z0; by apply Z.compare_gt_iff.
Qed.

Lemma int_cmp_opp z : int_cmp (- z) = CompOpp (int_cmp z).
Proof. unfold int_cmp. destruct z; done. Qed.

(** A float and its bits: values that compare equal have the same bits unless
    both are zeros. *)
Lemma fp_key_inj w x y :
  1 < w -> is_u w x -> is_u w y -> fp_key w x = fp_key w y ->
  x = y \/ (fp_key w x = 0 /\ fp_key w y = 0).
Proof.
  intros Hw Hx Hy. pose proof (pow2_double w ltac:(lia)).
  rewrite !(fp_key_spec w 0) by (done || lia).
  unfold is_u in *. repeat bool_case; lia.
Qed.

Definition float_zero (v : ExprValue) : bool :=
  match type v with
  | FLOAT => fp_key 32 (float_val v) =? 0
  | DOUBLE => fp_key 64 (double_val v) =? 0
  | _ => false
  end.

Lemma swrap_inj w x y :
  0 < w -> is_u w x -> is_u w y -> swrap w x = swrap w y -> x = y.
Proof.
  intros Hw Hx Hy E. rewrite <- (wrap_swrap_id w x), <- (wrap_swrap_id w y) by done.
  by rewrite E.
Qed.

Lemma u_read_swrap_eq n v w :
  value_ok v -> value_ok w -> (0 < n <= 8)%nat ->
  swrap (8 * Z.of_nat n) (u_read n v) = swrap (8 * Z.of_nat n) (u_read n w) ->
  take n (_u v) = take n (_u w).
Proof.
  intros Hv Hw Hn E. apply u_read_eq; [done..|lia|].
  apply swrap_inj in E; [done|lia|apply u_read_range; [done|lia]..].
Qed.

(** Values of one type with the same denotation have the same active bytes. *)
Lemma denote_bytes v w a :
  value_ok v -> value_ok w -> type v = type w ->
  denote v = Some a -> denote w = Some a -> float_zero v = false ->
  take (member_width (type v)) (_u v) = take (member_width (type v)) (_u w) /\
  (is_string (type v) || type_eqb (type v) JSON = true -> str_val v = str_val w).
Proof.
  intros Hv Hw Et Ha Hb Hz. unfold denote, float_zero in *. rewrite <- Et in Hb.
  destruct (type v) eqn:Ev; cbn [member_width] in *; simplify_eq;
    (split; [|unfold type_eqb; try (by intros); congruence]).
  all: try (apply u_read_eq; [done..|lia|congruence]).
  all: try (apply u_read_swrap_eq; [done..|lia|exact Ha]).
  all: try done.
  all: unfold fp_sem in *; repeat case_match; simplify_eq.
  - apply u_read_eq; [done..|lia|].
    destruct (fp_key_inj 32 (float_val v) (float_val w)) as [?|[? _]];
      [done|apply (u_read_range 4); [done|lia]..|done|done|lia].
  - apply u_read_eq; [done..|lia|].
    destruct (fp_key_inj 64 (double_val v) (double_val w)) as [?|[? _]];
      [done|apply (u_read_range 8); [done|lia]..|done|done|lia].
Qed.

(** ** The order and the hashes *)

Lemma int_cmp_eq z : int_cmp z = Eq <-> z = 0.
Proof. unfold int_cmp. apply Z.compare_eq_iff. Qed.

Lemma int_cmp_le z : z <= 0 <-> int_cmp z <> Gt.
Proof. unfold int_cmp. by rewrite Z.compare_le_iff. Qed.

Lemma sem_compare_eq a b : sem_compare a b = Eq <-> a = b.
Proof.
  destruct a, b; simpl; [|done|done|].
  - rewrite Z.compare_eq_iff. naive_solver.
  - rewrite lex_compare_eq. naive_solver.
Qed.

Lemma sem_compare_le_trans a b d :
  sem_compare a b <> Gt -> sem_compare b d <> Gt -> sem_compare a d <> Gt.
Proof.
  intros H1 H2 H3. destruct (sem_compare a b) eqn:E1; [| |done].
  - apply sem_compare_eq in E1 as ->. done.
  - destruct (sem_compare b d) eqn:E2; [| |done].
    + apply sem_compare_eq in E2 as ->. congruence.
    + by rewrite (sem_compare_trans Lt a b d) in H3.
Qed.

(** C39. On the values of one ordered type, NaN excluded, [compare] is a total
    order: its sign is antisymmetric, at most zero is transitive, and it is zero
    exactly when the two values denote the same number or string. *)
Theorem compare_order v w x a b c :
  type v = type w -> type w = type x ->
  denote v = Some a -> denote w = Some b -> denote x = Some c ->
  int_cmp (compare w v) = CompOpp (int_cmp (compare v w)) /\
  (compare v w <= 0 -> compare w x <= 0 -> compare v x <= 0) /\
  (compare v w = 0 <-> a = b).
Proof.
  intros E1 E2 Ha Hb Hc.
  rewrite (compare_denotes w v b a), !int_cmp_le, <- int_cmp_eq,
    (compare_denotes v w a b), (compare_denotes w x b c), (compare_denotes v x a c)
    by congruence.
  split; [apply sem_compare_antisym|]. split; [apply sem_compare_le_trans|].
  apply sem_compare_eq.
Qed.

(** The bytes [hash] reads, and none for the other types. *)
Lemma hash_active `{Murmur} seed v w :
  type v = type w ->
  take (member_width (type v)) (_u v) = take (member_width (type v)) (_u w) ->
  (is_string (type v) || type_eqb (type v) JSON = true -> str_val v = str_val w) ->
  hash seed v = hash seed w.
Proof.
  intros Et Hu Hs. unfold hash. rewrite <- Et. unfold type_eqb in Hs.
  destruct (type v); cbn [member_width] in Hu; rewrite ?Hu; try done; by rewrite Hs.
Qed.

(** Values of one type that [compare] finds equal have the same [hash], the
    two floating-point zeros excepted. *)
Theorem hash_compare `{Murmur} seed v w a b :
  value_ok v -> value_ok w -> type v = type w ->
  denote v = Some a -> denote w = Some b -> float_zero v = false ->
  compare v w = 0 -> hash seed v = hash seed w.
Proof.
  intros Hv Hw Et Ha Hb Hz E.
  apply int_cmp_eq in E. rewrite (compare_denotes v w a b) in E by done.
  apply sem_compare_eq in E as ->.
  destruct (denote_bytes v w b) as [? ?]; [done..|]. by apply hash_active.
Qed.

(** ** The message round trip *)

Lemma take_u_write n x v :
  take n (_u (u_write n x v)) = mem_store n (wrap (8 * Z.of_nat n) x).
Proof. simpl. by rewrite take_app_length' by by rewrite length_mem_store. Qed.

Lemma take_u_write_read n x v v0 :
  value_ok v -> (n <= 8)%nat -> wrap (8 * Z.of_nat n) x = u_read n v ->
  take n (_u (u_write n x v0)) = take n (_u v).
Proof.
  intros Hv Hn E. rewrite take_u_write, E. unfold u_read.
  rewrite <- (mem_store_value (take n (_u v))) at 2 by apply Forall_take, (ok_bytes v Hv).
  by rewrite length_take, (ok_length v Hv), Nat.min_l.
Qed.

(** A value sent in a message arrives with its type, the bytes of its
    active member and its string, for every type but BITMAP and HLL, whatever
    the uninitialised bytes of the receiver and the old contents of the message;
    so it denotes the same and hashes the same. *)
Theorem proto_roundtrip `{Murmur} seed u0 v p :
  value_ok v -> type v <> BITMAP -> type v <> HLL ->
  let v' := from_proto u0 (to_proto v p) in
  type v' = type v /\
  take (member_width (type v)) (_u v') = take (member_width (type v)) (_u v) /\
  (is_string (type v) || type_eqb (type v) JSON = true -> str_val v' = str_val v) /\
  hash seed v' = hash seed v.
Proof.
  intros Hv Hb Hh v'.
  assert (type v' = type v /\
    take (member_width (type v)) (_u v') = take (member_width (type v)) (_u v) /\
    (is_string (type v) || type_eqb (type v) JSON = true -> str_val v' = str_val v))
    as (Et & Hu & Hs).
  { subst v'. destruct p as [pt b i1 u1 i2 u2 f d s]. unfold to_proto, from_proto.
    destruct (type v) eqn:Ev; cbn [pb_type]; try done;
      (split; [by cbn|]); (split; [|done]);
      cbn [member_width pb_bool_val pb_int32_val pb_uint32_val pb_int64_val pb_uint64_val
           pb_float_val pb_double_val];
      (apply take_u_write_read; [done|lia|]).
    all: match goal with
         | |- wrap ?w _ = u_read ?n ?v =>
             first [ apply (wrap_id w (u_read n v)), (u_read_range n); [done|lia]
                   | apply (wrap_swrap_id w (u_read n v)); [lia|];
                     apply (u_read_range n); [done|lia] ]
         end. }
  repeat split; try done. apply hash_active; [done| |]; rewrite Et; done.
Qed.

(** ** Casts between integers *)

(** The C++ type of an integer type. *)
Definition num_of (t : PrimitiveType) : num_type :=
  let w := 8 * Z.of_nat (member_width t) in
  if is_uint t then TUint w else TInt w.

Lemma member_width_le t : (member_width t <= 8)%nat.
Proof. destruct t; simpl; lia. Qed.

Lemma member_width_pos t : is_int t = true -> (0 < member_width t)%nat.
Proof. destruct t; simpl; (lia || done). Qed.

Lemma conv_int_read t v :
  value_ok v -> is_int t = true -> type v = t ->
  denote v = Some (SemInt (conv_int (num_of t) (u_read (member_width t) v))).
Proof.
  intros Hv Ht Ev. unfold denote. rewrite Ev.
  destruct t; try done; cbn [num_of is_uint member_width conv_int]; try done;
    rewrite wrap_id; try done; apply (u_read_range _ v); done || lia.
Qed.

Lemma get_numberic_int T v z :
  is_int (type v) = true -> denote v = Some (SemInt z) ->
  get_numberic T v = Some (conv_int T z).
Proof. unfold denote, get_numberic. destruct (type v); try done; by intros _ [= <-]. Qed.

Lemma cast_to_int `{Zone} now t v :
  is_int t = true -> type v <> t -> is_int (type v) = true ->
  cast_to now t v = cast_number (num_of t) (member_width t) v ≫= Some ∘ set_type t.
Proof.
  intros Ht Hne Hv. unfold cast_to, is_null, is_maxvalue.
  assert (E : forall t', t' = type v -> (type_eqb t' NULL_TYPE || type_eqb t' INVALID_TYPE
    || type_eqb t' MAXVALUE_TYPE || type_eqb t' t) = false).
  { intros t' ->. unfold type_eqb at 4. rewrite bool_decide_eq_false_2 by done.
    by destruct (type v). }
  rewrite E by done. by destruct t.
Qed.

Lemma conv_int_idem t x :
  is_int t = true -> conv_int (num_of t) (wrap (8 * Z.of_nat (member_width t)) x)
  = conv_int (num_of t) x.
Proof.
  intros Ht. pose proof (member_width_pos t Ht). unfold num_of.
  destruct (is_uint t); cbn [conv_int].
  - unfold wrap. by rewrite Zmod_mod.
  - apply swrap_wrap. lia.
Qed.

Lemma conv_int_fix t x :
  is_int t = true -> conv_int (num_of t) (conv_int (num_of t) x) = conv_int (num_of t) x.
Proof.
  intros Ht. pose proof (member_width_pos t Ht). unfold num_of.
  destruct (is_uint t); cbn [conv_int].
  - unfold wrap. by rewrite Zmod_mod.
  - apply swrap_id; [lia|apply swrap_range; lia].
Qed.

Lemma value_ok_write t n x v :
  value_ok v -> t <> BOOL -> (n <= 8)%nat -> value_ok (set_type t (u_write n x v)).
Proof.
  intros [Hl Hb Hbool Hs] Ht Hn. destruct (u_write_u_ok n x v) as [? ?]; [done..|].
  by constructor.
Qed.

Lemma u_read_set_type t n v : u_read n (set_type t v) = u_read n v.
Proof. done. Qed.

Lemma cast_int_int_value `{Zone} now t v z :
  value_ok v -> is_int (type v) = true -> is_int t = true ->
  denote v = Some (SemInt z) ->
  exists v', cast_to now t v = Some v' /\ type v' = t /\ value_ok v' /\
    denote v' = Some (SemInt (conv_int (num_of t) z)).
Proof.
  intros Hv Hi Ht Hz. destruct (decide (type v = t)) as [E|E].
  - exists v. unfold cast_to, type_eqb at 1. rewrite E, bool_decide_eq_true_2 by done.
    rewrite orb_true_r. repeat split; try done; [apply Hv..|].
    rewrite (conv_int_read t v) in * by done. simplify_eq. by rewrite conv_int_fix.
  - rewrite cast_to_int by done. unfold cast_number.
    rewrite (get_numberic_int _ v z) by done. cbn [mbind option_bind compose].
    eexists. split; [done|]. split; [done|].
    assert (Hok : value_ok (set_type t (u_write (member_width t)
      (conv_int (num_of t) z) v))).
    { apply value_ok_write; [done|by destruct t|apply member_width_le]. }
    split; [done|]. rewrite (conv_int_read t) by done. do 2 f_equal.
    rewrite u_read_set_type, u_read_write, conv_int_idem by done. by apply conv_int_fix.
Qed.

(** A cast from any integer type to any integer type never fails and gives
    the value modulo the width of the target; a value the target can hold is
    preserved, and casting back restores the original. *)
Theorem cast_int_roundtrip `{Zone} now t v z :
  value_ok v -> is_int (type v) = true -> is_int t = true ->
  denote v = Some (SemInt z) -> conv_int (num_of t) z = z ->
  exists v' v'', cast_to now t v = Some v' /\ denote v' = Some (SemInt z) /\
    cast_to now (type v) v' = Some v'' /\ type v'' = type v /\
    denote v'' = Some (SemInt z).
Proof.
  intros Hv Hi Ht Hz Hfit.
  destruct (cast_int_int_value now t v z) as (v' & Hc & Et & Hok & Hd); [done..|].
  rewrite Hfit in Hd.
  destruct (cast_int_int_value now (type v) v' z) as (v'' & Hc' & Et' & _ & Hd');
    [done|by rewrite Et|done..|].
  exists v', v''. repeat split; try done. rewrite Hd'. do 2 f_equal.
  rewrite (conv_int_read (type v) v) in Hz by done. simplify_eq. by rewrite conv_int_fix.
Qed.

(** The order of two integers after the casts of [compare_diff_type]. *)
Definition mixed_compare (t1 t2 : PrimitiveType) (z1 z2 : Z) : comparison :=
  if type_eqb t1 t2 then z1 ?= z2
  else if is_uint t1 || is_uint t2 then u64 z1 ?= u64 z2 else i64 z1 ?= i64 z2.

(** Comparing integers of different types compares them as [uint64_t] when
    one of the types is unsigned and as [int64_t] otherwise; in particular the
    result is the order of the numbers when both are nonnegative. *)
Theorem compare_diff_type_int `{Zone} now v w z1 z2 :
  value_ok v -> value_ok w -> is_int (type v) = true -> is_int (type w) = true ->
  denote v = Some (SemInt z1) -> denote w = Some (SemInt z2) ->
  exists r v' w', compare_diff_type now v w = Some (r, v', w') /\
    int_cmp r = mixed_compare (type v) (type w) z1 z2.
Proof.
  intros Hv Hw Iv Iw Dv Dw. unfold compare_diff_type, mixed_compare.
  destruct (type_eqb (type v) (type w)) eqn:Et.
  - apply bool_decide_eq_true in Et. do 3 eexists. split; [done|].
    by rewrite (compare_denotes v w _ _ Et Dv Dw).
  - rewrite Iv, Iw. cbn [andb]. set (u := is_uint (type v) || is_uint (type w)).
    set (t := if u then UINT64 else INT64).
    assert (Ht : is_int t = true) by (unfold t; by destruct u).
    destruct (cast_int_int_value now t v z1) as (v' & -> & Etv & _ & Dv'); [done..|].
    destruct (cast_int_int_value now t w z2) as (w' & Cw & Etw & _ & Dw'); [done..|].
    cbn [mbind option_bind]. rewrite Cw. cbn [mbind option_bind].
    do 3 eexists. split; [done|].
    rewrite (compare_denotes v' w' _ _ (eq_trans Etv (eq_sym Etw)) Dv' Dw').
    unfold t. by destruct u.
Qed.

(** An integer of at most 53 bits survives the cast to DOUBLE and back. *)
Theorem cast_int_double_roundtrip `{Zone} now v z :
  value_ok v -> is_int (type v) = true -> denote v = Some (SemInt z) ->
  Z.abs z < 2 ^ 53 -> float_precision_len v <= 0 ->
  exists v' v'', cast_to now DOUBLE v = Some v' /\ type v' = DOUBLE /\
    cast_to now INT64 v' = Some v'' /\ denote v'' = Some (SemInt z).
Proof.
  intros Hv Hi Hz Habs Hp.
  assert (Hne : forall t, is_int t = false -> type_eqb (type v) t = false).
  { intros t Ht. apply bool_decide_eq_false_2. intros E. congruence. }
  unfold cast_to at 1, is_null, is_maxvalue.
  rewrite !Hne by done. cbn [orb]. unfold cast_number.
  rewrite (get_numberic_int TDouble v z) by done. cbn [mbind option_bind conv_int].
  eexists _, _. split; [done|]. split; [done|].
  set (v' := set_type DOUBLE _).
  assert (Hx : is_u 64 (f64_of_Z z)) by by apply fp_of_Z_range.
  assert (Hg : get_numberic (TInt 64) v' = Some z).
  { unfold get_numberic. cbn [type v' set_type]. unfold round_precision.
    cbn [float_precision_len]. rewrite (proj2 (Z.ltb_ge _ _)) by done.
    cbn [mbind option_bind conv_fp].
    change (double_val v') with (u_read 8 (u_write 8 (f64_of_Z z) v)). rewrite u_read_write.
    rewrite wrap_id by done. rewrite fp_trunc_of_Z by (done || lia).
    cbn [mbind option_bind]. unfold in_range. repeat bool_case; cbn [andb]; lia || done. }
  unfold cast_to, cast_number. cbn [type v' set_type is_null is_maxvalue orb type_eqb].
  fold v'. rewrite Hg. cbn [mbind option_bind is_null type v' set_type].
  split; [reflexivity|]. unfold denote. cbn [type set_type]. do 2 f_equal.
  unfold int64_val. rewrite u_read_set_type, u_read_write.
  apply swrap_wrap_id; [lia|]. unfold is_i. lia.
Qed.

(** ** Prefixes and the numeric value of strings *)

Lemma common_prefix_spec a b :
  let n := Z.to_nat (common_prefix a b) in
  take n a = take n b /\ (n <= length a)%nat /\ (n <= length b)%nat /\
  (forall x y, a !! n = Some x -> b !! n = Some y -> x <> y) /\
  lex_compare (drop n a) (drop n b) = lex_compare a b.
Proof.
  revert b; induction a as [|x a IH]; intros [|y b]; simpl; try (repeat split; lia || done).
  destruct (Z.eqb_spec x y) as [->|Hne].
  - destruct (IH b) as (Ht & Ha & Hb & Hd & Hl).
    assert (0 <= common_prefix a b).
    { clear. revert b; induction a; intros [|]; simpl; try lia. case_match; [|lia].
      pose proof (IHa l). lia. }
    rewrite Z.add_1_l, Z2Nat.inj_succ by done. simpl.
    rewrite Z.compare_refl, Ht. repeat split; try done; lia.
  - repeat split; try done; [lia..|]. intros x' y' [= ->] [= ->]. done.
Qed.

(** The first [n] bytes as a number, zeros past the end. *)
Fixpoint be_prefix (n : nat) (s : bytes) : Z :=
  match n with
  | O => 0
  | S n => hd 0 s * 256 ^ Z.of_nat n + be_prefix n (tl s)
  end.

Lemma hd_range s : bytes_ok s -> 0 <= hd 0 s < 256.
Proof. destruct 1 as [|x s Hx Hs]; simpl; [lia|apply Hx]. Qed.

Lemma tl_ok s : bytes_ok s -> bytes_ok (tl s).
Proof. intros Hs. destruct Hs; [constructor|done]. Qed.

Lemma be_prefix_range n s : bytes_ok s -> 0 <= be_prefix n s < 256 ^ Z.of_nat n.
Proof.
  revert s; induction n as [|n IH]; intros s Hs; [simpl; lia|]. cbn [be_prefix].
  rewrite Nat2Z.inj_succ, Z.pow_succ_r by lia.
  pose proof (hd_range s Hs). specialize (IH _ (tl_ok s Hs)). nia.
Qed.

Lemma be_prefix_mono n s t :
  bytes_ok s -> bytes_ok t -> lex_compare s t <> Gt -> be_prefix n s <= be_prefix n t.
Proof.
  revert s t; induction n as [|n IH]; intros s t Hs Ht Hc; [done|].
  destruct s as [|x s].
  { assert (E : forall k, be_prefix k [] = 0)
      by (intros k; induction k as [|k IHk]; [done|simpl; rewrite IHk; lia]).
    rewrite E. by apply be_prefix_range. }
  destruct t as [|y t]; [done|]. inversion Hs as [|? ? Hx Hs']; subst.
  inversion Ht as [|? ? Hy Ht']; subst. cbn [be_prefix hd tl].
  cbn [lex_compare] in Hc. destruct (Z.compare_spec x y) as [->|Hlt|]; [|clear Hc|done].
  - specialize (IH s t Hs' Ht' Hc). lia.
  - pose proof (be_prefix_range n s Hs'). pose proof (be_prefix_range n t Ht'). nia.
Qed.

Lemma unit64_loop s n : forall acc k,
  bytes_ok s -> 0 <= acc -> (acc + 1) * 256 ^ Z.of_nat n <= 2 ^ 64 ->
  foldl (fun val i => u64 (u64 (Z.shiftl val 8) + nth i s 0)) acc (seq k n)
  = acc * 256 ^ Z.of_nat n + be_prefix n (drop k s).
Proof.
  induction n as [|n IH]; intros acc k Hs Ha Hb; [simpl; lia|].
  cbn [seq foldl be_prefix]. rewrite Nat2Z.inj_succ, Z.pow_succ_r in * by lia.
  assert (E : nth k s 0 = hd 0 (drop k s)).
  { clear. revert k; induction s as [|x s IHs]; intros [|k]; try done. simpl. by rewrite IHs. }
  assert (Hd : bytes_ok (drop k s)) by by apply Forall_drop.
  pose proof (hd_range _ Hd) as Hh. rewrite E.
  assert (0 < 256 ^ Z.of_nat n) by (apply Z.pow_pos_nonneg; lia).
  rewrite Z.shiftl_mul_pow2 by lia. change (2 ^ 8) with 256.
  rewrite (wrap_id 64 (acc * 256)), wrap_id by (unfold is_u; nia).
  rewrite IH by (done || nia).
  replace (drop (S k) s) with (tl (drop k s)); [nia|].
  clear. revert k; induction s as [|x s IHs]; intros [|k]; try done. simpl. apply IHs.
Qed.

Lemma unit64_chars_spec s : bytes_ok s -> unit64_chars s = be_prefix 8 s.
Proof. intros Hs. unfold unit64_chars. by rewrite unit64_loop. Qed.

(** [unit64_value] after the common prefix keeps the order of the strings,
    so that a position between two keys can be interpolated. *)
Theorem unit64_value_mono v w :
  value_ok v -> value_ok w -> type v = STRING -> type w = STRING ->
  compare v w <= 0 ->
  let p := common_prefix_length v w in
  unit64_value p v <= unit64_value p w.
Proof.
  intros Hv Hw Ev Ew Hc p.
  apply (proj1 (int_cmp_le _)) in Hc. rewrite (compare_denotes v w (SemStr (str_val v))
    (SemStr (str_val w))) in Hc by (unfold denote; rewrite ?Ev, ?Ew; done).
  unfold unit64_value, p, common_prefix_length. rewrite Ev, Ew.
  change (type_eqb STRING STRING) with true. cbn [negb orb].
  pose proof (common_prefix_spec (str_val v) (str_val w)) as (_ & Ha & Hb & _ & Hl).
  cbv zeta in *. set (n := common_prefix _ _) in *.
  cbn [sem_compare] in Hc. rewrite <- Hl in Hc.
  assert (Hdv : bytes_ok (drop (Z.to_nat n) (str_val v))) by apply Forall_drop, Hv.
  assert (Hdw : bytes_ok (drop (Z.to_nat n) (str_val w))) by apply Forall_drop, Hw.
  pose proof (be_prefix_range 8 _ Hdw).
  bool_case; [bool_case; [done|rewrite unit64_chars_spec by done; lia]|].
  bool_case.
  - rewrite (skipn_all2 (str_val w)) in Hc by lia.
    destruct (drop (Z.to_nat n) (str_val v)) eqn:E; [|done].
    apply (f_equal length) in E. rewrite length_drop in E. simpl in E. lia.
  - rewrite !unit64_chars_spec by done. by apply be_prefix_mono.
Qed.

(** ** Precision of a DATETIME *)

Lemma land_high x k : is_u 64 x -> 0 <= k <= 64 ->
  Z.land x (u64 (Z.lnot (2 ^ k - 1))) = x / 2 ^ k * 2 ^ k.
Proof.
  intros Hx Hk. unfold wrap. rewrite <- Z.land_ones, Z.land_comm, <- Z.land_assoc by lia.
  rewrite (Z.land_comm (Z.ones 64)), Z.land_ones, Z.mod_small by (done || lia).
  rewrite Z.land_comm, <- Z.ldiff_land.
  replace (2 ^ k - 1) with (Z.ones k) by (rewrite Z.ones_equiv; lia).
  rewrite Z.ldiff_ones_r, Z.shiftr_div_pow2, Z.shiftl_mul_pow2; lia.
Qed.

Lemma value_ok_u64 v : value_ok v -> is_u 64 (uint64_val v).
Proof. intros. apply (u_read_range 8); [done|lia]. Qed.

(** Giving a DATETIME a precision of [p] digits rounds its microseconds
    towards zero to a multiple of [10^(6-p)] and leaves its other fields. *)
Theorem set_precision_truncates v p :
  value_ok v -> type v = DATETIME -> 0 <= p <= 6 -> float_precision_len v <> p ->
  let v' := set_precision_len p v in
  let c := 10 ^ (6 - p) in
  float_precision_len v' = p /\
  dt_macrosec (uint64_val v') = dt_macrosec (uint64_val v) / c * c /\
  uint64_val v' / 2 ^ 24 = uint64_val v / 2 ^ 24.
Proof.
  intros Hv Et Hp Hne v' c. unfold v', set_precision_len.
  rewrite (proj2 (Z.eqb_neq _ _)) by done. cbn [type put_precision].
  rewrite Et. change (type_eqb DATETIME DATETIME) with true. cbv iota.
  unfold dt_cast_len. cbn [float_precision_len put_precision].
  rewrite (proj2 (Z.leb_le 0 p)), (proj2 (Z.leb_le p 6)) by lia.
  cbn [andb]. cbv zeta. fold c.
  change (uint64_val (put_precision p v)) with (uint64_val v).
  pose proof (value_ok_u64 v Hv) as Hx. set (x := uint64_val v) in *.
  split; [done|]. unfold uint64_val. rewrite u_read_write.
  unfold dt_macrosec. change 0xffffff with (2 ^ 24 - 1).
  rewrite land_high, !land_ones_mod by (done || lia).
  pose proof (Z.mod_pos_bound x (2 ^ 24) ltac:(lia)) as Hm.
  assert (Hc : 0 < c) by (apply Z.pow_pos_nonneg; lia).
  pose proof (Z.mul_div_le (x mod 2 ^ 24) c Hc).
  pose proof (Z.div_pos (x mod 2 ^ 24) c ltac:(lia) Hc).
  assert (Hd : 0 <= x mod 2 ^ 24 / c * c < 2 ^ 24) by nia.
  rewrite Z.lor_comm, lor_disjoint by (done || lia). set (d := x mod 2 ^ 24 / c * c) in *.
  assert (is_u 64 (d + x / 2 ^ 24 * 2 ^ 24)) by (unfold is_u in *; div_lia).
  rewrite wrap_id by done. split; div_lia.
Qed.

(** ** Addition *)

Lemma conv_int_add t x y :
  is_int t = true ->
  conv_int (num_of t) (x + conv_int (num_of t) y) = conv_int (num_of t) (x + y).
Proof.
  intros Ht. pose proof (member_width_pos t Ht). unfold num_of.
  destruct (is_uint t); cbn [conv_int].
  - unfold wrap. by rewrite Zplus_mod_idemp_r.
  - unfold swrap. set (w := 8 * _). f_equal.
    replace (x + ((y + 2 ^ (w - 1)) mod 2 ^ w - 2 ^ (w - 1)) + 2 ^ (w - 1))
      with (x + (y + 2 ^ (w - 1)) mod 2 ^ w) by lia.
    rewrite Zplus_mod_idemp_r. f_equal. lia.
Qed.

(** Adding an integer value to one of any integer type gives the sum modulo
    the width of the first, leaves its type, and does not change the second. *)
Theorem add_int v value z1 z2 :
  value_ok v -> is_int (type v) = true -> is_int (type value) = true ->
  denote v = Some (SemInt z1) -> denote value = Some (SemInt z2) ->
  exists v', add v value = Some (v', value) /\ type v' = type v /\
    denote v' = Some (SemInt (conv_int (num_of (type v)) (z1 + z2))).
Proof.
  intros Hv Hi Hi' D1 D2.
  assert (add v value =
    add_number (num_of (type v)) (member_width (type v)) z1 v value) as ->.
  { unfold denote in D1. unfold add. destruct (type v); try done; simplify_eq; done. }
  unfold add_number. rewrite (get_numberic_int _ value z2) by done.
  cbn [mbind option_bind]. eexists. split; [done|]. split; [done|].
  rewrite (conv_int_read (type v)); [|apply (value_ok_write (type v)); [done| |]|done..].
  - rewrite u_read_write, conv_int_idem, conv_int_add by done. done.
  - by destruct (type v).
  - apply member_width_le.
Qed.

(** ** Values for examples *)

(** A value of a fixed-width type, and a string. *)
Definition number (t : PrimitiveType) (x : Z) : ExprValue :=
  u_write (member_width t) x (new_ExprValue t).
Definition text (s : string) : ExprValue :=
  set_str (bytes_of_string s) (new_ExprValue STRING).

Lemma new_value_ok t : t <> TDIGEST -> value_ok (new_ExprValue t).
Proof.
  intros Ht. constructor; simpl.
  - done.
  - repeat (apply Forall_cons; split; [unfold is_u; lia|]). constructor.
  - intros _. left. unfold bool_val, u_read, mem_value. by case_match.
  - unfold type_eqb. rewrite bool_decide_eq_false_2 by done. constructor.
Qed.

Lemma number_ok t x : t <> TDIGEST -> t <> BOOL -> value_ok (number t x).
Proof.
  intros. apply (value_ok_write t); [by apply new_value_ok|done|apply member_width_le].
Qed.

Lemma bytes_of_string_ok s : bytes_ok (bytes_of_string s).
Proof.
  apply Forall_fmap, Forall_true. intros a. unfold is_u; simpl.
  pose proof (nat_ascii_bounded a). lia.
Qed.

Lemma text_ok s : value_ok (text s).
Proof.
  destruct (new_value_ok STRING) as [? ? ? ?]; [done|]. constructor; try done.
  apply bytes_of_string_ok.
Qed.

End Facts.

(** ** Instances and departures from the intended behaviour *)

Definition le_host : Host := false.

(** A library of bitmaps without bitmaps, for examples that have none. *)
Definition no_bitmaps : RoaringLib :=
  {| Roaring := unit; roaring_new := tt; roaring_runOptimize := id;
     roaring_getSizeInBytes := fun _ => 0; roaring_write := fun _ => [];
     roaring_readSafe := fun _ => None |}.

Definition sum_murmur : Murmur := fun b seed => le_combine b + seed.

#[local] Existing Instances le_host no_bitmaps sum_murmur.

Lemma compare_order_witness :
  int_cmp (compare (number INT8 5) (number INT8 (-3))) = Gt /\
  (compare (number INT8 (-3)) (number INT8 5) <= 0 ->
   compare (number INT8 5) (number INT8 7) <= 0 ->
   compare (number INT8 (-3)) (number INT8 7) <= 0).
Proof.
  destruct (compare_order (number INT8 (-3)) (number INT8 5) (number INT8 7)
    (SemInt (-3)) (SemInt 5) (SemInt 7)) as (E & T & _); [done..|].
  split; [by rewrite E|exact T].
Defined.

Lemma hash_compare_witness :
  hash 7 (u_write 1 44 (number INT8 300)) = hash 7 (number INT8 44).
Proof.
  apply (hash_compare 7 _ _ (SemInt 44) (SemInt 44)); try done.
  - apply (value_ok_write INT8 1 44 (number INT8 300)); [by apply number_ok|done|lia].
  - by apply number_ok.
Defined.

Lemma proto_roundtrip_witness :
  let v := number DATETIME 1234567 in
  hash 7 (from_proto (replicate 8 170) (to_proto v (mk_pb NULL_TYPE 0 0 0 0 0 0 0 [])))
  = hash 7 v.
Proof.
  destruct (proto_roundtrip 7 (replicate 8 170) (number DATETIME 1234567)
    (mk_pb NULL_TYPE 0 0 0 0 0 0 0 [])) as (_ & _ & _ & E); [by apply number_ok|done..|].
  exact E.
Defined.

Lemma cast_int_roundtrip_witness :
  exists v' v'', @cast_to _ _ (fixed_zone 0) 0 INT64 (number INT8 (-3)) = Some v' /\
    denote v' = Some (SemInt (-3)) /\
    @cast_to _ _ (fixed_zone 0) 0 INT8 v' = Some v'' /\ type v'' = INT8 /\
    denote v'' = Some (SemInt (-3)).
Proof.
  apply (@cast_int_roundtrip _ _ (fixed_zone 0) 0 INT64 (number INT8 (-3)) (-3)); try done.
  by apply number_ok.
Defined.

Lemma compare_diff_type_int_witness :
  exists r v' w', @compare_diff_type _ _ (fixed_zone 0) 0
    (number INT32 (-1)) (number UINT8 1) = Some (r, v', w') /\ int_cmp r = Gt.
Proof.
  apply (@compare_diff_type_int _ _ (fixed_zone 0) 0 (number INT32 (-1)) (number UINT8 1)
    (-1) 1); try done; by apply number_ok.
Defined.

Lemma cast_int_double_roundtrip_witness :
  exists v' v'', @cast_to _ _ (fixed_zone 0) 0 DOUBLE (number INT64 (-123456789)) = Some v' /\
    type v' = DOUBLE /\ @cast_to _ _ (fixed_zone 0) 0 INT64 v' = Some v'' /\
    denote v'' = Some (SemInt (-123456789)).
Proof.
  apply (@cast_int_double_roundtrip _ _ (fixed_zone 0) 0 (number INT64 (-123456789))
    (-123456789)); try done. by apply number_ok.
Defined.

Lemma unit64_value_mono_witness :
  unit64_value (common_prefix_length (text "key10") (text "key2")) (text "key10")
  <= unit64_value (common_prefix_length (text "key10") (text "key2")) (text "key2").
Proof.
  apply (unit64_value_mono (text "key10") (text "key2")); try apply text_ok; done.
Defined.

Lemma set_precision_truncates_witness :
  dt_macrosec (uint64_val (set_precision_len 3 (number DATETIME 123789))) = 123000.
Proof.
  destruct (set_precision_truncates (number DATETIME 123789) 3) as (_ & E & _);
    [by apply number_ok|done|lia|done|]. exact E.
Defined.

Lemma add_int_witness :
  exists v', add (number UINT8 250) (number INT16 10) = Some (v', number INT16 10) /\
    type v' = UINT8 /\ denote v' = Some (SemInt 4).
Proof.
  apply (add_int (number UINT8 250) (number INT16 10) 250 10); try done.
  by apply number_ok.
Defined.

(** A cast writes only the bytes of its target, and the set of values hashes all
    eight: 300 cast to INT8 equals 44 and hashes differently. *)
Example flat_set_hash_mismatch :
  exists v, @cast_to _ _ (fixed_zone 0) 0 INT8 (number INT64 300) = Some v /\
    value_eqb v (number INT8 44) = true /\ HashFunction v <> HashFunction (number INT8 44).
Proof. eexists. split; [reflexivity|]. split; [reflexivity|]. by vm_compute. Qed.

(** The two zeros compare equal and hash differently. *)
Example zero_hash_mismatch :
  compare (number DOUBLE 0) (number DOUBLE (2 ^ 63)) = 0 /\
  hash 0 (number DOUBLE 0) <> hash 0 (number DOUBLE (2 ^ 63)).
Proof. split; [reflexivity|by vm_compute]. Qed.

(** [add] on BOOL changes its argument and not the value itself. *)
Example add_bool_changes_argument :
  add (number BOOL 0) (number BOOL 1) = Some (number BOOL 0, number BOOL 1) /\
  add (number BOOL 1) (number BOOL 0) = Some (number BOOL 1, number BOOL 0).
Proof. split; reflexivity. Qed.

(** A NULL is less than itself. *)
Example null_below_null : compare (new_ExprValue NULL_TYPE) (new_ExprValue NULL_TYPE) = -1.
Proof. reflexivity. Qed.

(** [float_value] multiplies by 257 instead of shifting by eight bits, so a
    string that starts with a large byte wraps around and loses its place. *)
Example float_value_not_monotone :
  lex_compare [249] [255] = Lt /\ float_chars [255] < float_chars [249] /\
  unit64_chars [249] < unit64_chars [255].
Proof. repeat split. Qed.

(** A HLL value is not carried by the message. *)
Example proto_drops_hll :
  let v := set_str (bytes_of_string "HLL") (new_ExprValue HLL) in
  str_val (from_proto (replicate 8 0) (to_proto v (mk_pb NULL_TYPE 0 0 0 0 0 0 0 []))) = [].
Proof. reflexivity. Qed.
