(* ===== verification/TableKey.v ===== *)
(** * Table keys ([include/common/mut_table_key.h], [src/common/mut_table_key.cpp],
      [include/common/table_key.h], [src/common/table_key.cpp])

    A key is a byte string built by appending encoded fields and read back at
    positions.  Reading outside the slice is undefined behaviour and has no
    result ([None]). *)

From S2P Require Import Prelude KeyEncoder Stdio FloatArith FloatText Calendar DateTime ExprValue.

(** ** Protocol buffer messages

    The interface of [google::protobuf::Reflection] the keys use.  A field is
    named by its index in the descriptor. *)

Inductive cpp_type :=
| CPPTYPE_INT32 | CPPTYPE_INT64 | CPPTYPE_UINT32 | CPPTYPE_UINT64
| CPPTYPE_DOUBLE | CPPTYPE_FLOAT | CPPTYPE_BOOL | CPPTYPE_STRING.

#[global] Instance cpp_type_eq_dec : EqDecision cpp_type.
Proof. solve_decision. Defined.

(** The contents of a field: an integer, the bits of a float, or a string. *)
Inductive pb_val := PNum (x : Z) | PStr (s : bytes).

Definition pb_num (p : pb_val) : Z := match p with PNum x => x | PStr _ => 0 end.
Definition pb_str (p : pb_val) : bytes := match p with PNum _ => [] | PStr s => s end.

Class Reflection (M : Type) := {
  (** [descriptor->field(idx)], null when there is none. *)
  field_by_idx : M -> Z -> bool;
  field_cpp_type : M -> Z -> cpp_type;
  HasField : M -> Z -> bool;
  (** [GetInt32], [GetString], ...: the accessor of a type; the default of the
      type when the field is absent. *)
  GetField : cpp_type -> M -> Z -> pb_val;
  SetField : cpp_type -> Z -> pb_val -> M -> M;
  ClearField : Z -> M -> M
}.

(** The documented behaviour of the accessors. *)
Class ReflectionLaws (M : Type) `{Reflection M} := {
  has_set f ct p m : HasField (SetField ct f p m) f = true;
  has_set_ne f g ct p m : f <> g -> HasField (SetField ct f p m) g = HasField m g;
  get_set f ct p m : GetField ct (SetField ct f p m) f = p;
  get_set_ne f g ct ct' p m :
    f <> g -> GetField ct' (SetField ct f p m) g = GetField ct' m g;
  has_clear f m : HasField (ClearField f m) f = false;
  has_clear_ne f g m : f <> g -> HasField (ClearField f m) g = HasField m g;
  get_clear_ne f g ct m : f <> g -> GetField ct (ClearField f m) g = GetField ct m g;
  field_by_idx_set f g ct p m : field_by_idx (SetField ct f p m) g = field_by_idx m g;
  field_by_idx_clear f g m : field_by_idx (ClearField f m) g = field_by_idx m g
}.

(** ** Building keys *)

Record MutTableKey := mk_MutTableKey { mk_full : bool; mk_data : bytes }.

Definition append_data (s : bytes) (k : MutTableKey) : MutTableKey :=
  mk_MutTableKey (mk_full k) (mk_data k ++ s).

(** [_data.replace(pos, len, s, size)]: a position past the end throws. *)
Definition replace_data (pos len : Z) (s : bytes) (k : MutTableKey) : option MutTableKey :=
  let pos := u64 pos in
  if Z.of_nat (length (mk_data k)) <? pos then None
  else Some (mk_MutTableKey (mk_full k)
         (take (Z.to_nat pos) (mk_data k) ++ s ++ drop (Z.to_nat (pos + len)) (mk_data k))).

Section Build.
Context `{Host}.

Definition append_i8 (val : Z) := append_data (mem_store 1 (encode_i8 val)).
Definition append_u8 (val : Z) := append_data (mem_store 1 val).
Definition replace_u8 (val pos : Z) := replace_data pos 1 (mem_store 1 val).
Definition append_i16 (val : Z) :=
  append_data (mem_store 2 (to_endian_u16 (encode_i16 val))).
Definition append_u16 (val : Z) := append_data (mem_store 2 (to_endian_u16 val)).
Definition append_i32 (val : Z) :=
  append_data (mem_store 4 (to_endian_u32 (encode_i32 val))).
Definition replace_i32 (val pos : Z) :=
  replace_data pos 4 (mem_store 4 (to_endian_u32 (encode_i32 val))).
Definition append_u32 (val : Z) := append_data (mem_store 4 (to_endian_u32 val)).
Definition replace_u32 (val pos : Z) :=
  replace_data pos 4 (mem_store 4 (to_endian_u32 val)).
Definition append_i64 (val : Z) :=
  append_data (mem_store 8 (to_endian_u64 (encode_i64 val))).
Definition replace_i64 (val pos : Z) :=
  replace_data pos 8 (mem_store 8 (to_endian_u64 (encode_i64 val))).
Definition append_u64 (val : Z) := append_data (mem_store 8 (to_endian_u64 val)).
Definition replace_u64 (val pos : Z) :=
  replace_data pos 8 (mem_store 8 (to_endian_u64 val)).
Definition append_float (val : Z) :=
  append_data (mem_store 4 (to_endian_u32 (encode_f32 val))).
Definition append_double (val : Z) :=
  append_data (mem_store 8 (to_endian_u64 (encode_f64 val))).
Definition append_string (val : bytes) (k : MutTableKey) : MutTableKey :=
  append_data [0] (append_data val k).
Definition append_string_prefix (val : bytes) := append_data val.
Definition append_boolean (val : Z) :=
  append_data (mem_store 1 (if val =? 0 then 0 else 1)).
Definition append_index (key : bytes) := append_data key.
Definition set_full (full : bool) (k : MutTableKey) : MutTableKey :=
  mk_MutTableKey full (mk_data k).

Definition append_value `{RoaringLib} (value : ExprValue) (k : MutTableKey) : MutTableKey :=
  match type value with
  | BOOL => append_boolean (bool_val value) k
  | INT8 => append_i8 (int8_val value) k
  | INT16 => append_i16 (int16_val value) k
  | INT32 | TIME => append_i32 (int32_val value) k
  | INT64 => append_i64 (int64_val value) k
  | UINT8 => append_u8 (uint8_val value) k
  | UINT16 => append_u16 (uint16_val value) k
  | UINT32 | TIMESTAMP | DATE => append_u32 (uint32_val value) k
  | UINT64 | DATETIME => append_u64 (uint64_val value) k
  | FLOAT => append_float (float_val value) k
  | DOUBLE => append_double (double_val value) k
  | STRING => append_string (str_val value) k
  | _ => k
  end.

(** [None]: the position lies outside the key. *)
Definition replace_partition_col `{RoaringLib} (new_partition_value : ExprValue) (pos : Z)
    (k : MutTableKey) : option MutTableKey :=
  match type new_partition_value with
  | DATE => replace_u32 (uint32_val new_partition_value) pos k
  | DATETIME => replace_u64 (uint64_val new_partition_value) pos k
  | _ => Some k
  end.

End Build.

(** ** Reading keys *)

(** A slice with the flag of a full key. *)
Record TableKey := mk_TableKey { tk_full : bool; tk_data : bytes }.

Definition table_key (k : MutTableKey) : TableKey := mk_TableKey (mk_full k) (mk_data k).

Definition tk_size (k : TableKey) : Z := Z.of_nat (length (tk_data k)).

(** [rocksdb::Slice] comparison of region ends, where empty is infinity. *)
Definition end_key_compare (key1 key2 : bytes) : Z :=
  if bool_decide (key1 = key2) then 0
  else match key1, key2 with
       | [], _ => 1
       | _, [] => -1
       | _, _ => cmp_int (lex_compare key1 key2)
       end.

Section Read.
Context `{Host}.
Variable k : TableKey.

Definition skip_table_prefix (pos : Z) : Z := i32 (pos + 8).
Definition skip_region_prefix (pos : Z) : Z := i32 (pos + 8).

Definition extract_i8 (pos : Z) : option Z := decode_i8 <$> mem_load (tk_data k) pos 1.
Definition extract_u8 (pos : Z) : option Z := mem_load (tk_data k) pos 1.
Definition extract_i16 (pos : Z) : option Z :=
  decode_i16 ∘ to_endian_u16 <$> mem_load (tk_data k) pos 2.
Definition extract_u16 (pos : Z) : option Z :=
  to_endian_u16 <$> mem_load (tk_data k) pos 2.
Definition extract_i32 (pos : Z) : option Z :=
  decode_i32 ∘ to_endian_u32 <$> mem_load (tk_data k) pos 4.
Definition extract_u32 (pos : Z) : option Z :=
  to_endian_u32 <$> mem_load (tk_data k) pos 4.
Definition extract_i64 (pos : Z) : option Z :=
  decode_i64 ∘ to_endian_u64 <$> mem_load (tk_data k) pos 8.
Definition extract_u64 (pos : Z) : option Z :=
  to_endian_u64 <$> mem_load (tk_data k) pos 8.
Definition extract_float (pos : Z) : option Z :=
  decode_f32 ∘ to_endian_u32 <$> mem_load (tk_data k) pos 4.
Definition extract_double (pos : Z) : option Z :=
  decode_f64 ∘ to_endian_u64 <$> mem_load (tk_data k) pos 8.
Definition extract_boolean (pos : Z) : option Z :=
  (fun x => if x =? 0 then 0 else 1) <$> mem_load (tk_data k) pos 1.
(** The text up to the first NUL; [None] when the slice has none from here. *)
Definition extract_string (pos : Z) : option bytes := c_str_at (tk_data k) pos.

(** The guards [pos + sizeof(T) > size()], in [size_t], and
    [pos >= (int)size()]. *)
Definition past_end (pos : Z) (n : nat) : bool := tk_size k <? u64 (u64 pos + Z.of_nat n).
Definition string_past_end (pos : Z) : bool := i32 (tk_size k) <=? pos.

Definition advance (pos : Z) (n : nat) : Z := i32 (pos + Z.of_nat n).

(** The outcome of reading a field: the return code, the position after it and
    the updated destination.  A fixed-width field reads [n] bytes with
    [extract]. *)
Definition fixed_field {A} (n : nat) (extract : Z -> option Z) (store : Z -> A -> A)
    (pos : Z) (a : A) : option (Z * Z * A) :=
  if past_end pos n then Some (-2, pos, a)
  else x ← extract pos; Some (0, advance pos n, store x a).

Definition string_field {A} (store : bytes -> A -> A) (pos : Z) (a : A) :
    option (Z * Z * A) :=
  if string_past_end pos then Some (-2, pos, a)
  else s ← extract_string pos; Some (0, advance pos (length s + 1), store s a).

Definition decode_field {M} `{Reflection M} (field : Z) (t : PrimitiveType)
    (pos : Z) (message : M) : option (Z * Z * M) :=
  let set ct x := SetField ct field (PNum x) in
  match t with
  | INT8 => fixed_field 1 extract_i8 (set CPPTYPE_INT32) pos message
  | INT16 => fixed_field 2 extract_i16 (set CPPTYPE_INT32) pos message
  | TIME | INT32 => fixed_field 4 extract_i32 (set CPPTYPE_INT32) pos message
  | INT64 => fixed_field 8 extract_i64 (set CPPTYPE_INT64) pos message
  | UINT8 => fixed_field 1 extract_u8 (set CPPTYPE_UINT32) pos message
  | UINT16 => fixed_field 2 extract_u16 (set CPPTYPE_UINT32) pos message
  | TIMESTAMP | DATE | UINT32 => fixed_field 4 extract_u32 (set CPPTYPE_UINT32) pos message
  | DATETIME | UINT64 => fixed_field 8 extract_u64 (set CPPTYPE_UINT64) pos message
  | FLOAT => fixed_field 4 extract_float (set CPPTYPE_FLOAT) pos message
  | DOUBLE => fixed_field 8 extract_double (set CPPTYPE_DOUBLE) pos message
  | BOOL => fixed_field 1 extract_boolean (set CPPTYPE_BOOL) pos message
  | STRING => string_field (fun s => SetField CPPTYPE_STRING field (PStr s)) pos message
  | _ => Some (-1, pos, message)
  end.

(** The small integers are written to the 32-bit member of the union. *)
Definition decode_field_for_chunk `{RoaringLib} (t : PrimitiveType) (pos : Z)
    (value : ExprValue) : option (Z * Z * ExprValue) :=
  let value := set_type t value in
  match t with
  | INT8 => fixed_field 1 extract_i8 (u_write 4) pos value
  | INT16 => fixed_field 2 extract_i16 (u_write 4) pos value
  | TIME | INT32 => fixed_field 4 extract_i32 (u_write 4) pos value
  | INT64 => fixed_field 8 extract_i64 (u_write 8) pos value
  | UINT8 => fixed_field 1 extract_u8 (u_write 4) pos value
  | UINT16 => fixed_field 2 extract_u16 (u_write 4) pos value
  | TIMESTAMP | DATE | UINT32 => fixed_field 4 extract_u32 (u_write 4) pos value
  | DATETIME | UINT64 => fixed_field 8 extract_u64 (u_write 8) pos value
  | FLOAT => fixed_field 4 extract_float (u_write 4) pos value
  | DOUBLE => fixed_field 8 extract_double (u_write 8) pos value
  | BOOL => fixed_field 1 extract_boolean (u_write 1) pos value
  | STRING => string_field set_str pos value
  | _ => Some (-1, pos, value)
  end.

(** The number of bytes of a fixed-width field. *)
Definition key_width (t : PrimitiveType) : option nat :=
  match t with
  | INT8 | UINT8 | BOOL => Some 1
  | INT16 | UINT16 => Some 2
  | TIME | INT32 | TIMESTAMP | DATE | UINT32 | FLOAT => Some 4
  | INT64 | DATETIME | UINT64 | DOUBLE => Some 8
  | _ => None
  end%nat.

(** The return code and the position; a fixed-width field is not checked
    against the end. *)
Definition skip_field (t : PrimitiveType) (pos : Z) : option (Z * Z) :=
  match t with
  | STRING =>
      if string_past_end pos then Some (-2, pos)
      else s ← extract_string pos; Some (0, advance pos (length s + 1))
  | _ =>
      match key_width t with
      | Some n => Some (0, advance pos n)
      | None => Some (-1, pos)
      end
  end.

(** The position after one column, -1 when it does not fit. *)
Definition col_pos (t : PrimitiveType) (pos : Z) : option Z :=
  match t with
  | STRING =>
      if string_past_end pos then Some (-1)
      else s ← extract_string pos; Some (advance pos (length s + 1))
  | _ =>
      match key_width t with
      | Some n => if past_end pos n then Some (-1) else Some (advance pos n)
      | None => Some (-1)
      end
  end.

Fixpoint cols_pos (types : list PrimitiveType) (pos : Z) : option Z :=
  match types with
  | [] => Some pos
  | t :: types =>
      pos ← col_pos t pos; if pos <? 0 then Some pos else cols_pos types pos
  end.

Definition get_partition_col_pos (types : list PrimitiveType) (partition_col_num : nat)
    (pos : Z) : option Z :=
  if (length types <? partition_col_num)%nat then Some (-1)
  else cols_pos (take partition_col_num types) pos.

(** *** The text of a start key *)

(** The position moves on even when the field does not fit. *)
Definition start_key_fixed (n : nat) (show : option bytes) (pos : Z) : option (bytes * Z) :=
  if past_end pos n then Some (bytes_of_string "decode fail", advance pos n)
  else s ← show; Some (s, advance pos n).

Definition decode_start_key_field `{Zone, RoaringLib} (t : PrimitiveType) (pos : Z) :
    option (bytes * Z) :=
  let text n x := get_string (u_write n x (new_ExprValue t)) in
  match t with
  | INT8 => start_key_fixed 1 (to_string <$> extract_i8 pos) pos
  | INT16 => start_key_fixed 2 (to_string <$> extract_i16 pos) pos
  | TIME | INT32 => start_key_fixed 4 (extract_i32 pos ≫= text 4%nat) pos
  | UINT8 => start_key_fixed 1 (to_string <$> extract_u8 pos) pos
  | UINT16 => start_key_fixed 2 (to_string <$> extract_u16 pos) pos
  | UINT32 | TIMESTAMP | DATE => start_key_fixed 4 (extract_u32 pos ≫= text 4%nat) pos
  | INT64 => start_key_fixed 8 (to_string <$> extract_i64 pos) pos
  | UINT64 | DATETIME => start_key_fixed 8 (extract_u64 pos ≫= text 8%nat) pos
  | FLOAT => start_key_fixed 4 (printf_f 32 23 6 <$> extract_float pos) pos
  | DOUBLE => start_key_fixed 8 (printf_f 64 52 6 <$> extract_double pos) pos
  | STRING =>
      s ← (if string_past_end pos then Some [] else extract_string pos);
      Some (s, advance pos (length s + 1))
  | BOOL => start_key_fixed 1 (to_string <$> extract_boolean pos) pos
  | _ => Some (bytes_of_string "unsupport type", pos)
  end.

(** The fields separated by commas; the second overload stops after
    [dimension] of them, but never before the first. *)
Fixpoint decode_start_key_loop `{Zone, RoaringLib} (types : list PrimitiveType)
    (dimension : option Z) (pos : Z) : option bytes :=
  match types with
  | [] => Some []
  | t :: types =>
      '(s, pos) ← decode_start_key_field t pos;
      let dimension := (fun d => d - 1) <$> dimension in
      rest ← (match dimension with
              | Some d => if d <=? 0 then Some [] else decode_start_key_loop types dimension pos
              | None => decode_start_key_loop types dimension pos
              end);
      Some (s ++ [44] ++ rest)
  end.

Definition decode_start_key_string `{Zone, RoaringLib} (types : list PrimitiveType)
    (dimension : option Z) : option bytes :=
  s ← decode_start_key_loop types dimension 0; Some (removelast s).

End Read.
