(* ===== verification/TableKeyFacts.v ===== *)
(** * Correctness of table keys ([TableKey])

    Keys are ordered byte by byte as their values are ordered, every field can
    be read back, reads stay inside the slice, and positions of columns are
    those of their encodings. *)

From stdpp Require Import gmap.
From S2P Require Import Prelude KeyEncoder Stdio FloatArith FloatText Calendar DateTime ExprValue ExprValueFacts TableKey.

Section Facts.
Context `{Host, RoaringLib}.

(** ** The encoding of a value *)

(** The types a key can hold. *)
Definition keyable (t : PrimitiveType) : bool :=
  match t with
  | BOOL | INT8 | INT16 | INT32 | TIME | INT64 | UINT8 | UINT16 | UINT32
  | TIMESTAMP | DATE | UINT64 | DATETIME | FLOAT | DOUBLE | STRING => true
  | _ => false
  end.

(** The unsigned number whose big-endian bytes encode a fixed-width value. *)
Definition key_num (v : ExprValue) : Z :=
  match type v with
  | INT8 => int8_val v + 2 ^ 7
  | INT16 => int16_val v + 2 ^ 15
  | INT32 | TIME => int32_val v + 2 ^ 31
  | INT64 => int64_val v + 2 ^ 63
  | FLOAT => encode_f32 (float_val v)
  | DOUBLE => encode_f64 (double_val v)
  | t => u_read (member_width t) v
  end.

Definition key_bytes (v : ExprValue) : bytes :=
  match type v with
  | STRING => str_val v ++ [0]
  | t => if keyable t then be_split (member_width t) (key_num v) else []
  end.

(** What a key can represent faithfully: no NaN, no NUL inside a string. *)
Definition key_value (v : ExprValue) : Prop :=
  value_ok v /\ keyable (type v) = true /\ denote v <> None /\
  (type v = STRING -> no_nul (str_val v)).

Lemma int8_range v : is_i 8 (int8_val v).
Proof. by apply swrap_range. Qed.
Lemma int16_range v : is_i 16 (int16_val v).
Proof. by apply swrap_range. Qed.
Lemma int32_range v : is_i 32 (int32_val v).
Proof. by apply swrap_range. Qed.
Lemma int64_range v : is_i 64 (int64_val v).
Proof. by apply swrap_range. Qed.

Lemma key_width_member t :
  keyable t = true -> t <> STRING -> key_width t = Some (member_width t).
Proof. by destruct t. Qed.

Lemma append_value_spec v k :
  value_ok v -> append_value v k = append_data (key_bytes v) k.
Proof.
  intros Hv. unfold append_value, key_bytes, key_num.
  destruct (type v) eqn:Et; cbn [keyable member_width];
    unfold append_boolean, append_i8, append_u8, append_i16, append_u16, append_i32,
      append_u32, append_i64, append_u64, append_float, append_double, append_string;
    rewrite ?store_endian_u16, ?store_endian_u32, ?store_endian_u64, ?store_u8.
  all: try (by rewrite ?encode_i8_spec, ?encode_i16_spec, ?encode_i32_spec, ?encode_i64_spec
              by first [apply int8_range|apply int16_range|apply int32_range|apply int64_range]).
  all: try (destruct k; unfold append_data; simpl; by rewrite ?app_nil_r, ?app_assoc).
  do 2 f_equal. unfold bool_val in *. change (u_read 1 v) with (bool_val v).
  by destruct (ok_bool v Hv Et) as [-> | ->].
Qed.

Lemma key_num_range v :
  key_value v -> type v <> STRING -> is_u (8 * Z.of_nat (member_width (type v))) (key_num v).
Proof.
  intros (Hv & Hk & Hd & _) Hs. unfold key_num, denote in *.
  pose proof (int8_range v). pose proof (int16_range v). pose proof (int32_range v).
  pose proof (int64_range v). unfold is_u, is_i in *.
  destruct (type v) eqn:Et; cbn [member_width] in *; try done; try lia;
    try (apply (u_read_range _ v Hv); lia).
  all: unfold fp_sem in Hd; case_match eqn:En; [done|].
  - by apply (fp_encode_range 32 23); [lia|apply (u_read_range 4 v Hv); lia|].
  - by apply (fp_encode_range 64 52); [lia|apply (u_read_range 8 v Hv); lia|].
Qed.

Lemma key_num_compare v w a b :
  value_ok v -> value_ok w -> keyable (type v) = true -> type v <> STRING ->
  type v = type w -> denote v = Some a -> denote w = Some b ->
  (key_num v ?= key_num w) = sem_compare a b.
Proof.
  intros Hv Hw Hk Hs Et Ha Hb. unfold key_num, denote in *. rewrite <- Et in *.
  destruct (type v); try done; simplify_eq; cbn [sem_compare];
    try (rewrite !(Z.add_comm _ (2 ^ _)); apply Z.add_compare_mono_l); try done.
  all: unfold fp_sem in *; repeat case_match; simplify_eq; cbn [sem_compare].
  - apply (fp_encode_compare 32 23);
      [lia|apply (u_read_range 4 _); [done|lia]..|done|done].
  - apply (fp_encode_compare 64 52);
      [lia|apply (u_read_range 8 _); [done|lia]..|done|done].
Qed.

Lemma key_bytes_order v w a b :
  key_value v -> key_value w -> type v = type w ->
  lex_compare (key_bytes v ++ a) (key_bytes w ++ b) =
  match int_cmp (compare v w) with Eq => lex_compare a b | c => c end.
Proof.
  intros Kv Kw Et. pose proof Kv as (Hv & Hk & Hd & Hn). pose proof Kw as (Hw & _ & Hd' & Hn').
  destruct (denote v) as [x|] eqn:Dv; [clear Hd|done].
  destruct (denote w) as [y|] eqn:Dw; [clear Hd'|done].
  rewrite (compare_denotes v w x y) by done.
  destruct (decide (type v = STRING)) as [Es|Es].
  - unfold key_bytes. rewrite <- Et, Es, <- !app_assoc. cbn [app].
    unfold denote in Dv, Dw. rewrite <- Et, Es in *. simplify_eq. cbn [sem_compare].
    apply lex_compare_c_string; [apply Hv|apply Hw|auto..].
  - assert (E : forall u, type u = type v ->
      key_bytes u = be_split (member_width (type v)) (key_num u)).
    { intros u Eu. unfold key_bytes. rewrite Eu. by destruct (type v). }
    rewrite !E by done. rewrite lex_compare_app by by rewrite !length_be_split.
    pose proof (key_num_range v Kv Es) as Rv. pose proof (key_num_range w Kw) as Rw.
    rewrite <- Et in Rw. specialize (Rw Es). unfold is_u in Rv, Rw.
    rewrite be_split_compare by by rewrite pow_256.
    by rewrite (key_num_compare v w x y).
Qed.

(** ** Composite keys *)

Definition append_values (vs : list ExprValue) (k : MutTableKey) : MutTableKey :=
  foldl (fun k v => append_value v k) k vs.

(** Two lists of columns of the same types, one possibly shorter. *)
Fixpoint same_columns (vs ws : list ExprValue) : Prop :=
  match vs, ws with
  | v :: vs, w :: ws => type v = type w /\ same_columns vs ws
  | _, _ => True
  end.

(** The order of rows: column by column, a proper prefix first. *)
Fixpoint columns_compare (vs ws : list ExprValue) : comparison :=
  match vs, ws with
  | [], [] => Eq
  | [], _ => Lt
  | _, [] => Gt
  | v :: vs, w :: ws =>
      match int_cmp (compare v w) with Eq => columns_compare vs ws | c => c end
  end.

Lemma append_values_spec vs k :
  Forall value_ok vs ->
  append_values vs k = append_data (concat (key_bytes <$> vs)) k.
Proof.
  intros Hvs. revert k; induction Hvs as [|v vs Hv Hvs IH]; intros k.
  - destruct k. unfold append_data; simpl. by rewrite app_nil_r.
  - unfold append_values. cbn [foldl fmap list_fmap concat].
    fold (append_values vs (append_value v k)).
    rewrite IH, append_value_spec by done. unfold append_data; simpl. by rewrite app_assoc.
Qed.

Lemma key_bytes_nonempty v : key_value v -> exists x l, key_bytes v = x :: l.
Proof.
  intros (Hv & Hk & _). unfold key_bytes.
  destruct (key_bytes v) as [|x l] eqn:E; unfold key_bytes in E.
  - destruct (type v); try done;
      apply (f_equal length) in E; rewrite ?length_app, ?length_be_split in E; simpl in E; lia.
  - rewrite E. eauto.
Qed.

Lemma columns_order vs ws :
  Forall key_value vs -> Forall key_value ws -> same_columns vs ws ->
  lex_compare (concat (key_bytes <$> vs)) (concat (key_bytes <$> ws))
  = columns_compare vs ws.
Proof.
  intros Hvs. revert ws; induction Hvs as [|v vs Hv Hvs IH];
    intros ws [|w ws' Hw Hws] Hc; cbn [fmap list_fmap concat columns_compare]; [done| | |].
  - destruct (key_bytes_nonempty w Hw) as (x & l & ->). done.
  - destruct (key_bytes_nonempty v Hv) as (x & l & ->). done.
  - destruct Hc as [Et Hc]. rewrite key_bytes_order by done. by rewrite IH.
Qed.

(** C6. Composite keys are ordered byte by byte exactly as rows are ordered by
    [ExprValue::compare], column after column, a proper prefix before its
    extensions: for integers, floats (NaN excepted), dates and NUL-free strings,
    on hosts of either endianness, behind any common prefix. *)
Theorem key_order vs ws k :
  Forall key_value vs -> Forall key_value ws -> same_columns vs ws ->
  lex_compare (mk_data (append_values vs k)) (mk_data (append_values ws k))
  = columns_compare vs ws.
Proof.
  intros Hvs Hws Hc.
  rewrite !append_values_spec by (eapply Forall_impl; [done|]; by intros ? (? & _)).
  unfold append_data; simpl. rewrite lex_compare_app_l. by apply columns_order.
Qed.

(** ** Reading a field back *)

Lemma load_at pre b post n :
  length b = n -> mem_load (pre ++ b ++ post) (Z.of_nat (length pre)) n = Some (mem_value b).
Proof.
  intros <-. unfold mem_load. rewrite !length_app.
  rewrite (proj2 (Z.leb_le 0 _)), (proj2 (Z.leb_le _ _)) by lia. cbn [andb].
  by rewrite Nat2Z.id, drop_app_length, take_app_length.
Qed.

Section At.
Context (full : bool) (pre post : bytes).

Lemma load_be_u8 x : is_u 8 x ->
  mem_load (pre ++ be_split 1 x ++ post) (Z.of_nat (length pre)) 1 = Some x.
Proof.
  intros. rewrite load_at by apply length_be_split.
  by rewrite load_u8, be_combine_split by apply length_be_split || done.
Qed.

Lemma load_be_u16 x : is_u 16 x ->
  to_endian_u16 <$> mem_load (pre ++ be_split 2 x ++ post) (Z.of_nat (length pre)) 2 = Some x.
Proof.
  intros. rewrite load_at by apply length_be_split. simpl.
  by rewrite load_endian_u16, be_combine_split
    by (apply be_split_ok || apply length_be_split || done).
Qed.

Lemma load_be_u32 x : is_u 32 x ->
  to_endian_u32 <$> mem_load (pre ++ be_split 4 x ++ post) (Z.of_nat (length pre)) 4 = Some x.
Proof.
  intros. rewrite load_at by apply length_be_split. simpl.
  by rewrite load_endian_u32, be_combine_split
    by (apply be_split_ok || apply length_be_split || done).
Qed.

Lemma load_be_u64 x : is_u 64 x ->
  to_endian_u64 <$> mem_load (pre ++ be_split 8 x ++ post) (Z.of_nat (length pre)) 8 = Some x.
Proof.
  intros. rewrite load_at by apply length_be_split. simpl.
  by rewrite load_endian_u64, be_combine_split
    by (apply be_split_ok || apply length_be_split || done).
Qed.

(** The accessor the decoders use for a type. *)
Definition extract_of (k : TableKey) (t : PrimitiveType) (pos : Z) : option Z :=
  match t with
  | INT8 => extract_i8 k pos
  | INT16 => extract_i16 k pos
  | TIME | INT32 => extract_i32 k pos
  | INT64 => extract_i64 k pos
  | UINT8 => extract_u8 k pos
  | UINT16 => extract_u16 k pos
  | TIMESTAMP | DATE | UINT32 => extract_u32 k pos
  | DATETIME | UINT64 => extract_u64 k pos
  | FLOAT => extract_float k pos
  | DOUBLE => extract_double k pos
  | BOOL => extract_boolean k pos
  | _ => None
  end.

(** What a fixed-width value is read back as: itself, negative zero as zero. *)
Definition decoded_num (v : ExprValue) : Z :=
  match type v with
  | INT8 => int8_val v
  | INT16 => int16_val v
  | INT32 | TIME => int32_val v
  | INT64 => int64_val v
  | FLOAT => if float_val v =? 2 ^ 31 then 0 else float_val v
  | DOUBLE => if double_val v =? 2 ^ 63 then 0 else double_val v
  | t => u_read (member_width t) v
  end.

Lemma extract_of_spec v :
  key_value v -> type v <> STRING ->
  extract_of (mk_TableKey full (pre ++ key_bytes v ++ post)) (type v)
    (Z.of_nat (length pre)) = Some (decoded_num v).
Proof.
  intros Kv Es. pose proof (key_num_range v Kv Es) as Hr.
  destruct Kv as (Hv & Hk & Hd & _). unfold key_bytes, decoded_num, denote in *.
  unfold key_num in *.
  destruct (type v) eqn:Et; try done; cbn [keyable member_width extract_of] in *;
    unfold extract_i8, extract_u8, extract_i16, extract_u16, extract_i32, extract_u32,
      extract_i64, extract_u64, extract_float, extract_double, extract_boolean;
    cbn [tk_data]; rewrite ?option_fmap_compose;
    rewrite ?load_be_u8, ?load_be_u16, ?load_be_u32, ?load_be_u64 by done;
    cbn [fmap option_fmap option_map]; try done;
    rewrite ?decode_i8_spec, ?decode_i16_spec, ?decode_i32_spec, ?decode_i64_spec by done;
    try (f_equal; lia).
  - by destruct (ok_bool v Hv Et) as [E|E]; unfold bool_val in E; rewrite E.
  - unfold fp_sem in Hd. case_match eqn:En; [done|].
    f_equal. by apply (fp_decode_encode 32 23); [lia|apply (u_read_range 4 v Hv); lia|].
  - unfold fp_sem in Hd. case_match eqn:En; [done|].
    f_equal. by apply (fp_decode_encode 64 52); [lia|apply (u_read_range 8 v Hv); lia|].
Qed.

(** The guards accept what fits, for keys below 2 GiB. *)
Lemma past_end_fits k pos n :
  0 <= pos -> pos + Z.of_nat n <= tk_size k -> tk_size k < 2 ^ 31 ->
  past_end k pos n = false /\ advance pos n = pos + Z.of_nat n.
Proof.
  intros. unfold past_end, advance.
  rewrite (wrap_id 64 pos), wrap_id by (unfold is_u; lia).
  rewrite swrap_id by (unfold is_i; lia). split; [apply Z.ltb_ge|]; lia.
Qed.

Lemma string_past_end_fits k pos :
  0 <= pos < tk_size k -> tk_size k < 2 ^ 31 -> string_past_end k pos = false.
Proof.
  intros. unfold string_past_end. rewrite swrap_id by (unfold is_i; lia).
  apply Z.leb_gt. lia.
Qed.

Definition key_length (v : ExprValue) : Z := Z.of_nat (length (key_bytes v)).

Lemma key_length_fixed v :
  keyable (type v) = true -> type v <> STRING ->
  length (key_bytes v) = member_width (type v).
Proof.
  intros Hk Hs. unfold key_bytes. destruct (type v); try done; by rewrite length_be_split.
Qed.

End At.

Section Fields.
Context (full : bool) (pre post : bytes) (v : ExprValue) (Kv : key_value v).
Let k := mk_TableKey full (pre ++ key_bytes v ++ post).
Let pos := Z.of_nat (length pre).
Context (Hsize : tk_size k < 2 ^ 31).

Lemma size_at : tk_size k = pos + key_length v + Z.of_nat (length post).
Proof. unfold tk_size, k, pos, key_length. simpl. rewrite !length_app. lia. Qed.

Lemma fixed_field_at {A} (store : Z -> A -> A) a :
  type v <> STRING ->
  fixed_field k (member_width (type v)) (extract_of k (type v)) store pos a
  = Some (0, pos + key_length v, store (decoded_num v) a).
Proof.
  intros Hs. pose proof size_at as E. pose proof Kv as (_ & Hk & _).
  unfold key_length in *. rewrite key_length_fixed in * by done. unfold fixed_field.
  destruct (past_end_fits k pos (member_width (type v))) as [-> ->]; [lia..|].
  unfold k, pos. by rewrite extract_of_spec.
Qed.

Lemma extract_string_at : type v = STRING -> extract_string k pos = Some (str_val v).
Proof.
  intros Es. destruct Kv as (_ & _ & _ & Hn). unfold extract_string, k, pos, key_bytes.
  rewrite Es. cbn [tk_data]. rewrite <- app_assoc. cbn [app]. apply c_str_at_app. auto.
Qed.

Lemma string_length_at :
  type v = STRING -> key_length v = Z.of_nat (length (str_val v) + 1).
Proof.
  intros Es. unfold key_length, key_bytes. rewrite Es, length_app. done.
Qed.

Lemma string_field_at {A} (store : bytes -> A -> A) a :
  type v = STRING ->
  string_field k store pos a = Some (0, pos + key_length v, store (str_val v) a).
Proof.
  intros Es. pose proof size_at. pose proof (string_length_at Es).
  unfold string_field. rewrite string_past_end_fits by lia.
  rewrite extract_string_at by done. cbn [mbind option_bind].
  destruct (past_end_fits k pos (length (str_val v) + 1)) as [_ ->]; [lia..|].
  do 3 f_equal. lia.
Qed.

(** Where the decoder of a message puts a field, and what. *)
Definition cpp_of (t : PrimitiveType) : cpp_type :=
  match t with
  | INT64 => CPPTYPE_INT64
  | UINT8 | UINT16 | TIMESTAMP | DATE | UINT32 => CPPTYPE_UINT32
  | DATETIME | UINT64 => CPPTYPE_UINT64
  | FLOAT => CPPTYPE_FLOAT
  | DOUBLE => CPPTYPE_DOUBLE
  | BOOL => CPPTYPE_BOOL
  | STRING => CPPTYPE_STRING
  | _ => CPPTYPE_INT32
  end.

Definition decoded (v : ExprValue) : pb_val :=
  if type_eqb (type v) STRING then PStr (str_val v) else PNum (decoded_num v).

Lemma decode_field_at {M} `{Reflection M} field (m : M) :
  decode_field k field (type v) pos m
  = Some (0, pos + key_length v, SetField (cpp_of (type v)) field (decoded v) m).
Proof.
  unfold decoded. destruct (decide (type v = STRING)) as [Es|Es].
  - rewrite Es. cbn [decode_field cpp_of]. change (type_eqb STRING STRING) with true.
    by rewrite string_field_at.
  - unfold type_eqb. rewrite bool_decide_eq_false_2 by done.
    rewrite <- (fixed_field_at (fun x => SetField (cpp_of (type v)) field (PNum x)) m Es).
    destruct Kv as (_ & Hk & _). by destruct (type v).
Qed.

(** The chunk decoder, given that writing the 32-bit member of the union and
    reading a smaller one agree. *)
Lemma decode_chunk_at value :
  decode_field_for_chunk k (type v) pos value
  = Some (0, pos + key_length v,
      match type v with
      | STRING => set_str (str_val v) (set_type STRING value)
      | t => u_write (match t with
                      | BOOL => 1
                      | INT64 | UINT64 | DATETIME | DOUBLE => 8
                      | _ => 4
                      end) (decoded_num v) (set_type t value)
      end).
Proof.
  destruct (decide (type v = STRING)) as [Es|Es].
  - rewrite Es. cbn [decode_field_for_chunk]. by rewrite string_field_at.
  - pose proof (fun n => fixed_field_at (u_write n) (set_type (type v) value) Es) as E.
    destruct Kv as (_ & Hk & _). unfold decode_field_for_chunk.
    destruct (type v); try done; cbn [member_width extract_of] in E; apply E.
Qed.

Lemma skip_field_at : skip_field k (type v) pos = Some (0, pos + key_length v).
Proof.
  pose proof size_at. destruct (decide (type v = STRING)) as [Es|Es].
  - pose proof (string_length_at Es). rewrite Es. cbn [skip_field].
    rewrite string_past_end_fits, extract_string_at by (done || lia). cbn [mbind option_bind].
    destruct (past_end_fits k pos (length (str_val v) + 1)) as [_ ->]; [lia..|].
    do 2 f_equal. lia.
  - destruct Kv as (_ & Hk & _). unfold key_length in *. rewrite key_length_fixed in * by done.
    assert (skip_field k (type v) pos = Some (0, advance pos (member_width (type v)))) as ->
      by by destruct (type v).
    destruct (past_end_fits k pos (member_width (type v))) as [_ ->]; [lia..|done].
Qed.

Lemma col_pos_at : col_pos k (type v) pos = Some (pos + key_length v).
Proof.
  pose proof size_at. destruct (decide (type v = STRING)) as [Es|Es].
  - pose proof (string_length_at Es). rewrite Es. cbn [col_pos].
    rewrite string_past_end_fits, extract_string_at by (done || lia). cbn [mbind option_bind].
    destruct (past_end_fits k pos (length (str_val v) + 1)) as [_ ->]; [lia..|].
    f_equal. lia.
  - destruct Kv as (_ & Hk & _). unfold key_length in *. rewrite key_length_fixed in * by done.
    unfold col_pos.
    destruct (past_end_fits k pos (member_width (type v))) as [E1 E2]; [lia..|].
    destruct (type v); try done; cbn [key_width]; cbn [member_width] in *;
      by rewrite E1, E2.
Qed.

End Fields.

(** ** The chunk decoder on little-endian hosts *)

Lemma le_split_take n m x : (n <= m)%nat -> take n (le_split m x) = le_split n x.
Proof.
  revert m x; induction n as [|n IH]; intros [|m] x Hn; try done; [lia|].
  cbn [le_split take]. by rewrite IH by lia.
Qed.

Lemma le_split_wrap n m x :
  (n <= m)%nat -> le_split n (wrap (8 * Z.of_nat m) x) = le_split n x.
Proof.
  intros Hn. rewrite <- (le_split_mod n), <- (le_split_mod n x). f_equal. unfold wrap.
  rewrite <- pow_256. apply Z.mod_mod_divide. exists (256 ^ Z.of_nat (m - n)).
  rewrite <- Z.pow_add_r by lia. f_equal. lia.
Qed.

Lemma u_read_write_small n m x v :
  host_big_endian = false -> (n <= m <= 8)%nat ->
  u_read n (u_write m x v) = wrap (8 * Z.of_nat n) x.
Proof.
  intros Hle Hn. unfold u_read, u_write; simpl.
  rewrite take_app_le by (rewrite length_mem_store; lia).
  unfold mem_store, mem_value. rewrite Hle, le_split_take, le_split_wrap by lia.
  rewrite <- le_split_mod, pow_256. apply le_combine_split. rewrite pow_256.
  apply Z.mod_pos_bound, Z.pow_pos_nonneg; lia.
Qed.

Lemma fp_key_neg_zero w : 1 < w -> fp_key w (2 ^ (w - 1)) = 0 /\ fp_key w 0 = 0.
Proof.
  intros Hw. pose proof (pow2_double w ltac:(lia)).
  assert (0 < 2 ^ (w - 1)) by (apply Z.pow_pos_nonneg; lia).
  rewrite !(fp_key_spec w 0) by (lia || unfold is_u; lia). repeat bool_case; lia.
Qed.

(** Replacing negative zero by zero does not change what a float denotes. *)
Lemma fp_sem_zero w m x :
  0 <= m < w - 1 -> is_u w x ->
  fp_sem w m (wrap w (if x =? 2 ^ (w - 1) then 0 else x)) = fp_sem w m x.
Proof.
  intros Hm Hx. destruct (Z.eqb_spec x (2 ^ (w - 1))) as [->|]; [|by rewrite wrap_id].
  pose proof (fp_key_neg_zero w ltac:(lia)) as [E1 E2].
  assert (0 < 2 ^ m < 2 ^ (w - 1))
    by (split; [apply Z.pow_pos_nonneg; lia|apply Z.pow_lt_mono_r; lia]).
  rewrite wrap_id by (unfold is_u; lia). unfold fp_sem. rewrite E1, E2.
  unfold fp_is_nan, fp_mag. by rewrite Z.mod_0_l, Z.mod_same by lia.
Qed.

(** The stored member denotes what the original value does. *)
Lemma chunk_denote v value :
  host_big_endian = false -> key_value v ->
  denote (match type v with
          | STRING => set_str (str_val v) (set_type STRING value)
          | t => u_write (match t with
                          | BOOL => 1
                          | INT64 | UINT64 | DATETIME | DOUBLE => 8
                          | _ => 4
                          end) (decoded_num v) (set_type t value)
          end) = denote v.
Proof.
  intros Hle (Hv & Hk & Hd & _). unfold denote, decoded_num in *.
  destruct (type v) eqn:Et; try done; cbn [type set_type u_write set_str member_width];
    unfold int8_val, int16_val, int32_val, int64_val, float_val, double_val.
  all: rewrite ?u_read_write_small by (done || lia).
  all: rewrite ?(swrap_wrap_id 8), ?(swrap_wrap_id 16), ?(swrap_wrap_id 32),
    ?(swrap_wrap_id 64) by (done || by apply swrap_range).
  all: try done.
  all: try (rewrite wrap_id; [done|apply (u_read_range _ v Hv); lia]).
  - by apply (fp_sem_zero 32 23); [lia|apply (u_read_range 4 v Hv); lia].
  - by apply (fp_sem_zero 64 52); [lia|apply (u_read_range 8 v Hv); lia].
Qed.

(** On a little-endian host, the chunk decoder reads back from a key a
    value of the type and denotation of the one that was appended, and moves
    the position past it, whatever surrounds it in the key. *)
Theorem chunk_roundtrip full k0 v post value :
  host_big_endian = false -> key_value v ->
  let data := mk_data (append_value v k0) ++ post in
  Z.of_nat (length data) < 2 ^ 31 ->
  exists v', decode_field_for_chunk (mk_TableKey full data) (type v)
      (Z.of_nat (length (mk_data k0))) value
    = Some (0, Z.of_nat (length (mk_data (append_value v k0))), v') /\
    type v' = type v /\ denote v' = denote v.
Proof.
  intros Hle Kv data Hsize. pose proof Kv as (Hv & Hk & Hd & _).
  assert (Ed : data = mk_data k0 ++ key_bytes v ++ post)
    by (unfold data; rewrite append_value_spec by done; simpl; by rewrite app_assoc).
  assert (El : Z.of_nat (length (mk_data (append_value v k0)))
    = Z.of_nat (length (mk_data k0)) + key_length v)
    by (rewrite append_value_spec by done; unfold key_length; simpl; rewrite length_app; lia).
  rewrite Ed, El, decode_chunk_at by (done || unfold tk_size; simpl; by rewrite <- Ed).
  eexists. split; [done|]. split; [by destruct (type v)|by apply chunk_denote].
Qed.

(** ** Reads stay inside the slice *)

Lemma mem_load_inside data pos n :
  0 <= pos -> pos + Z.of_nat n <= Z.of_nat (length data) ->
  exists x, mem_load data pos n = Some x.
Proof.
  intros. unfold mem_load. rewrite (proj2 (Z.leb_le 0 _)), (proj2 (Z.leb_le _ _)) by lia. eauto.
Qed.

Lemma extract_of_inside k t n pos :
  key_width t = Some n -> 0 <= pos -> pos + Z.of_nat n <= tk_size k ->
  exists x, extract_of k t pos = Some x.
Proof.
  intros Ht Hp Hs. destruct (mem_load_inside (tk_data k) pos n Hp Hs) as [x Hx].
  destruct t; simplify_eq/=;
    unfold extract_i8, extract_u8, extract_i16, extract_u16, extract_i32, extract_u32,
      extract_i64, extract_u64, extract_float, extract_double, extract_boolean;
    rewrite ?Hx; simpl; eauto.
Qed.

Lemma past_end_spec k pos n :
  0 <= pos < 2 ^ 31 -> (n <= 8)%nat -> past_end k pos n = (tk_size k <? pos + Z.of_nat n).
Proof.
  intros. unfold past_end. by rewrite (wrap_id 64 pos), wrap_id by (unfold is_u; lia).
Qed.

Lemma key_width_bound t n : key_width t = Some n -> (0 < n <= 8)%nat.
Proof. destruct t; intros [= <-]; lia. Qed.

Lemma fixed_field_outcome {A} k t n (store : Z -> A -> A) pos a :
  key_width t = Some n -> 0 <= pos -> pos <= tk_size k -> tk_size k < 2 ^ 31 ->
  if tk_size k <? pos + Z.of_nat n
  then fixed_field k n (extract_of k t) store pos a = Some (-2, pos, a)
  else exists x, extract_of k t pos = Some x /\
         fixed_field k n (extract_of k t) store pos a = Some (0, pos + Z.of_nat n, store x a).
Proof.
  intros Hw Hp Hs Hb. pose proof (key_width_bound t n Hw). unfold fixed_field.
  rewrite past_end_spec by lia. destruct (Z.ltb_spec (tk_size k) (pos + Z.of_nat n)); [done|].
  destruct (extract_of_inside k t n pos Hw Hp) as [x Hx]; [done|]. exists x. split; [done|].
  rewrite Hx. cbn [mbind option_bind]. by destruct (past_end_fits k pos n) as [_ ->]; [lia..|].
Qed.

Lemma c_str_none b : no_nul b -> c_str b = None.
Proof.
  induction 1 as [|x b Hx Hb IH]; [done|]. simpl. by rewrite (proj2 (Z.eqb_neq x 0)), IH.
Qed.

Lemma string_field_found {A} k (store : bytes -> A -> A) pos a s rest :
  0 <= pos -> tk_size k < 2 ^ 31 -> drop (Z.to_nat pos) (tk_data k) = s ++ 0 :: rest -> no_nul s ->
  string_field k store pos a = Some (0, pos + Z.of_nat (length s) + 1, store s a) /\
  pos + Z.of_nat (length s) + 1 <= tk_size k.
Proof.
  intros Hp Hb Hd Hs. assert (Hlen : pos + Z.of_nat (length s) + 1 <= tk_size k).
  { apply (f_equal length) in Hd. rewrite length_drop, length_app in Hd. cbn in Hd. unfold tk_size. lia. }
  split; [|done]. unfold string_field. rewrite string_past_end_fits by lia. unfold extract_string, c_str_at.
  rewrite (proj2 (Z.leb_le 0 pos)), Hd, c_str_app by done. cbn [mbind option_bind].
  destruct (past_end_fits k pos (length s + 1)) as [_ ->]; [done|lia|done|]. do 3 f_equal. lia.
Qed.

(** What decoding a field does.  A field of a fixed width is read inside the
    slice, or refused with -2 when it does not fit. *)
Definition fixed_outcome {M} `{Reflection M} (k : TableKey) field t pos (m : M) : Prop :=
  if tk_size k <? pos + Z.of_nat (member_width t)
  then decode_field k field t pos m = Some (-2, pos, m)
  else exists x, extract_of k t pos = Some x /\
         decode_field k field t pos m
         = Some (0, pos + Z.of_nat (member_width t), SetField (cpp_of t) field (PNum x) m).

(** A string is read up to its NUL, refused at the end of the slice, and read
    beyond the slice when the slice holds no NUL behind the position. *)
Definition string_outcome {M} `{Reflection M} (k : TableKey) field pos (m : M) : Prop :=
  (pos = tk_size k -> decode_field k field STRING pos m = Some (-2, pos, m)) /\
  (forall s rest, drop (Z.to_nat pos) (tk_data k) = s ++ 0 :: rest -> no_nul s ->
     decode_field k field STRING pos m
     = Some (0, pos + Z.of_nat (length s) + 1, SetField CPPTYPE_STRING field (PStr s) m) /\
     pos + Z.of_nat (length s) + 1 <= tk_size k) /\
  (pos < tk_size k -> no_nul (drop (Z.to_nat pos) (tk_data k)) ->
     decode_field k field STRING pos m = None).

(** C38. Decoding a field at a position of a key below 2 GB, on every branch: -1
    for a type keys cannot hold, with position and message unchanged; a field of
    fixed width is read inside the key and stored, with the position moved by its
    width, or refused with -2 when it does not fit; a string is read up to its NUL
    and the position moves behind it, it is refused with -2 at the end of the key,
    and when no NUL follows in the key the read runs beyond the key, the one case
    in which the model is undefined. *)
Theorem decode_field_outcome {M} `{Reflection M} k field t pos (m : M) :
  0 <= pos <= tk_size k -> tk_size k < 2 ^ 31 ->
  if negb (keyable t) then decode_field k field t pos m = Some (-1, pos, m)
  else if decide (t = STRING) then string_outcome k field pos m
  else fixed_outcome k field t pos m.
Proof.
  intros [Hp Hs] Hb. destruct (keyable t) eqn:Hk; cbn [negb]; [|by destruct t].
  destruct (decide (t = STRING)) as [->|Hs'].
  - cbn [decode_field]. split_and!.
    + intros ->. cbn [decode_field]. unfold string_field, string_past_end.
      by rewrite swrap_id, (proj2 (Z.leb_le _ _)) by (unfold is_i; lia).
    + intros s rest Hd Hn. cbn [decode_field]. by apply (string_field_found k (fun s => SetField CPPTYPE_STRING field (PStr s)) pos m s rest).
    + intros Hlt Hn. cbn [decode_field]. unfold string_field. rewrite string_past_end_fits by lia.
      unfold extract_string, c_str_at. by rewrite (proj2 (Z.leb_le 0 pos)), c_str_none by done.
  - pose proof (key_width_member t Hk Hs') as Hw. unfold fixed_outcome.
    pose proof (fixed_field_outcome k t (member_width t)
      (fun x => SetField (cpp_of t) field (PNum x)) pos m Hw Hp Hs Hb) as E.
    replace (decode_field k field t pos m) with (fixed_field k (member_width t) (extract_of k t)
      (fun x => SetField (cpp_of t) field (PNum x)) pos m) by (by destruct t). exact E.
Qed.

(** Skipping a field moves the position exactly as decoding it does. *)
Theorem skip_decode {M} `{Reflection M} k field t pos (m : M) pos' m' :
  decode_field k field t pos m = Some (0, pos', m') ->
  skip_field k t pos = Some (0, pos').
Proof.
  intros E. destruct (decide (t = STRING)) as [->|Hs].
  - cbn [decode_field skip_field] in *. unfold string_field in E.
    destruct (string_past_end k pos); [done|]. destruct (extract_string k pos); [|done].
    cbn [mbind option_bind] in *. by simplify_eq.
  - assert (keyable t = true) as Hk by (by destruct t).
    pose proof (key_width_member t Hk Hs) as Hw.
    assert (skip_field k t pos = Some (0, advance pos (member_width t))) as ->
      by (unfold skip_field; rewrite Hw; by destruct t).
    assert (fixed_field k (member_width t) (extract_of k t)
      (fun x => SetField (cpp_of t) field (PNum x)) pos m = Some (0, pos', m')) as E'
      by (rewrite <- E; by destruct t).
    unfold fixed_field in E'. destruct (past_end _ _ _); [done|].
    destruct (extract_of k t pos); [|done]. cbn [mbind option_bind] in E'. by simplify_eq.
Qed.

(** ** Columns of a partition key *)

Lemma cols_pos_at full vs pre post :
  Forall key_value vs ->
  Z.of_nat (length (pre ++ concat (key_bytes <$> vs) ++ post)) < 2 ^ 31 ->
  cols_pos (mk_TableKey full (pre ++ concat (key_bytes <$> vs) ++ post))
    (type <$> vs) (Z.of_nat (length pre))
  = Some (Z.of_nat (length (pre ++ concat (key_bytes <$> vs)))).
Proof.
  intros Hvs. revert pre; induction Hvs as [|v vs Hv Hvs IH]; intros pre Hb.
  - cbn [fmap list_fmap concat cols_pos]. by rewrite app_nil_r.
  - cbn [fmap list_fmap concat cols_pos] in *. rewrite <- app_assoc in *.
    rewrite col_pos_at by done. cbn [mbind option_bind]. unfold key_length.
    rewrite (proj2 (Z.ltb_ge _ _)) by lia.
    rewrite <- Nat2Z.inj_add, <- length_app, app_assoc in *.
    rewrite IH by done. by rewrite <- app_assoc.
Qed.

Lemma append_values_data vs k :
  Forall key_value vs -> mk_data (append_values vs k) = mk_data k ++ concat (key_bytes <$> vs).
Proof.
  intros Hvs. rewrite append_values_spec; [done|].
  eapply Forall_impl; [done|]. by intros ? (? & _).
Qed.

Lemma replace_data_middle full pre b c post len :
  Z.of_nat (length pre) < 2 ^ 64 -> Z.of_nat (length b) = len ->
  replace_data (Z.of_nat (length pre)) len c
    (mk_MutTableKey full (pre ++ b ++ post))
  = Some (mk_MutTableKey full (pre ++ c ++ post)).
Proof.
  intros Hp <-. unfold replace_data. simpl. rewrite wrap_id by (unfold is_u; lia).
  rewrite !length_app, (proj2 (Z.ltb_ge _ _)) by lia. do 2 f_equal.
  rewrite Nat2Z.id, take_app_length. f_equal. f_equal.
  replace (Z.to_nat _) with (length (pre ++ b)) by (rewrite length_app; lia).
  by rewrite app_assoc, drop_app_length.
Qed.

(** The position computed for the partition column of a key is where that
    column is encoded, and replacing the column there, for DATE and DATETIME
    columns, gives the key of the row with the new value in that column. *)
Theorem partition_col_replace full vs v v' ws :
  Forall key_value vs -> key_value v -> key_value v' -> Forall key_value ws ->
  type v = type v' -> type v = DATE \/ type v = DATETIME ->
  let k0 := mk_MutTableKey full [] in
  let k := append_values (vs ++ v :: ws) k0 in
  Z.of_nat (length (mk_data k)) < 2 ^ 31 ->
  exists pos,
    get_partition_col_pos (table_key k) (type <$> (vs ++ v :: ws)) (length vs) 0 = Some pos /\
    replace_partition_col v' pos k = Some (append_values (vs ++ v' :: ws) k0).
Proof.
  intros Hvs Hv Hv' Hws Et Hd k0 k Hb.
  assert (Happ : forall x, key_value x ->
    append_values (vs ++ x :: ws) k0 = mk_MutTableKey full
      (concat (key_bytes <$> vs) ++ key_bytes x ++ concat (key_bytes <$> ws))).
  { intros x Hx. rewrite append_values_spec.
    - unfold append_data, k0; simpl. by rewrite fmap_app, concat_app.
    - eapply Forall_impl; [apply Forall_app; split; [done|by constructor]|].
      by intros ? (? & _). }
  unfold k in *. rewrite !Happ in * by done.
  exists (Z.of_nat (length (concat (key_bytes <$> vs)))). split.
  - unfold get_partition_col_pos. rewrite length_fmap, length_app; simpl.
    rewrite (proj2 (Nat.ltb_ge _ _)) by lia.
    rewrite fmap_app, take_app_length' by by rewrite length_fmap.
    by apply (cols_pos_at full vs []).
  - simpl in Hb. rewrite length_app in Hb.
    unfold replace_partition_col, replace_u32, replace_u64. rewrite <- Et.
    destruct Hd as [E|E]; rewrite E, ?store_endian_u32, ?store_endian_u64.
    + replace (be_split 4 (uint32_val v')) with (key_bytes v')
        by (unfold key_bytes, key_num; by rewrite <- Et, E).
      apply replace_data_middle; [lia|]. rewrite key_length_fixed, E by (apply Hv || by rewrite E).
      done.
    + replace (be_split 8 (uint64_val v')) with (key_bytes v')
        by (unfold key_bytes, key_num; by rewrite <- Et, E).
      apply replace_data_middle; [lia|]. rewrite key_length_fixed, E by (apply Hv || by rewrite E).
      done.
Qed.

Lemma number_key t x a :
  t <> BOOL -> keyable t = true -> t <> STRING -> denote (number t x) = Some a ->
  key_value (number t x).
Proof.
  intros Hb Hk Hs Hd. split; [apply number_ok; [by destruct t|done]|].
  split; [done|]. split; [by rewrite Hd|done].
Qed.

Lemma text_key s :
  forallb (fun x => negb (x =? 0)) (bytes_of_string s) = true -> key_value (text s).
Proof.
  intros Hs. split; [apply text_ok|]. split; [done|]. split; [done|]. intros _.
  apply Forall_forall. intros x Hx%list_elem_of_In. rewrite forallb_forall in Hs.
  specialize (Hs x Hx). by apply negb_true_iff, Z.eqb_neq in Hs.
Qed.

End Facts.

(** ** Ends of regions *)

(** The order of end keys: byte strings, with the empty one above all. *)
Definition end_compare (a b : bytes) : comparison :=
  match a, b with
  | [], [] => Eq
  | [], _ => Gt
  | _, [] => Lt
  | _, _ => lex_compare a b
  end.

Lemma end_key_compare_spec a b : int_cmp (end_key_compare a b) = end_compare a b.
Proof.
  unfold end_key_compare. case_bool_decide as E.
  - subst. destruct b; [done|]. unfold end_compare. by rewrite lex_compare_refl.
  - destruct a, b; try done. unfold end_compare. by rewrite cmp_int_compare.
Qed.

(** [end_key_compare] is a total order on end keys in which the empty key is
    the largest: zero only on equal keys, antisymmetric and transitive, and it
    agrees with the byte order on keys that are not empty. *)
Theorem end_key_order a b c :
  (end_key_compare a b = 0 <-> a = b) /\
  int_cmp (end_key_compare b a) = CompOpp (int_cmp (end_key_compare a b)) /\
  (int_cmp (end_key_compare a b) = Lt -> int_cmp (end_key_compare b c) = Lt ->
   int_cmp (end_key_compare a c) = Lt) /\
  (a <> [] -> int_cmp (end_key_compare a []) = Lt) /\
  (a <> [] -> b <> [] -> int_cmp (end_key_compare a b) = lex_compare a b).
Proof.
  rewrite <- int_cmp_eq, !end_key_compare_spec.
  split; [|split; [|split; [|split]]].
  - destruct a as [|x a], b as [|y b]; try done. apply (lex_compare_eq (x :: a) (y :: b)).
  - destruct a as [|x a], b as [|y b]; try done.
    apply (lex_compare_antisym (x :: a) (y :: b)).
  - destruct a as [|x a], b as [|y b], c as [|z c]; try done. apply lex_compare_trans.
  - by destruct a.
  - by destruct a, b.
Qed.

(** ** Messages as finite maps *)

Record dyn_message := mk_message {
  msg_schema : Z -> option cpp_type;
  msg_fields : gmap Z pb_val
}.

Definition default_of (ct : cpp_type) : pb_val :=
  match ct with CPPTYPE_STRING => PStr [] | _ => PNum 0 end.

#[global] Instance dyn_reflection : Reflection dyn_message := {|
  field_by_idx m f := bool_decide (is_Some (msg_schema m f));
  field_cpp_type m f := default CPPTYPE_INT32 (msg_schema m f);
  HasField m f := bool_decide (is_Some (msg_fields m !! f));
  GetField ct m f := default (default_of ct) (msg_fields m !! f);
  SetField ct f p m := mk_message (msg_schema m) (<[f := p]> (msg_fields m));
  ClearField f m := mk_message (msg_schema m) (delete f (msg_fields m))
|}.

#[global] Instance dyn_reflection_laws : ReflectionLaws dyn_message.
Proof.
  constructor; intros; cbn [HasField GetField SetField ClearField field_by_idx dyn_reflection
    msg_fields msg_schema]; rewrite ?lookup_insert_eq, ?lookup_insert_ne, ?lookup_delete_eq,
    ?lookup_delete_ne by done; try done; by case_bool_decide as E; destruct E.
Qed.

(** ** Instances *)

#[local] Existing Instances le_host no_bitmaps.

Ltac solve_keys :=
  repeat first [apply List.Forall_nil | apply List.Forall_cons];
  first [by eapply number_key | by apply text_key].

Lemma key_order_witness :
  lex_compare
    (mk_data (append_values [text "ab"; number INT32 (-5)] (mk_MutTableKey false [7])))
    (mk_data (append_values [text "ab"; number INT32 3; number UINT8 1]
      (mk_MutTableKey false [7]))) = Lt.
Proof.
  etransitivity; [apply (key_order [text "ab"; number INT32 (-5)]
    [text "ab"; number INT32 3; number UINT8 1] (mk_MutTableKey false [7]))|reflexivity].
  - solve_keys.
  - solve_keys.
  - done.
Defined.

Lemma chunk_roundtrip_witness :
  exists v', decode_field_for_chunk
      (mk_TableKey true (mk_data (append_value (number INT16 (-2)) (mk_MutTableKey true [9]))
        ++ [1; 2])) INT16 1 (new_ExprValue NULL_TYPE) = Some (0, 3, v') /\
    type v' = INT16 /\ denote v' = Some (SemInt (-2)).
Proof.
  destruct (chunk_roundtrip true (mk_MutTableKey true [9]) (number INT16 (-2)) [1; 2]
    (new_ExprValue NULL_TYPE)) as (v' & E & T & D); [done|by eapply number_key|done|].
  exists v'. split; [exact E|]. split; [exact T|exact D].
Defined.

Lemma decode_field_outcome_witness :
  let m := mk_message (fun _ => None) (∅ : gmap Z pb_val) in
  string_outcome (mk_TableKey true [104; 105; 0; 1]) 3 0 m /\
  decode_field (mk_TableKey true [104; 105; 0; 1]) 3 STRING 0 m
  = Some (0, 3, SetField CPPTYPE_STRING 3 (PStr [104; 105]) m).
Proof.
  intros m. assert (E : string_outcome (mk_TableKey true [104; 105; 0; 1]) 3 0 m)
    by exact (decode_field_outcome (mk_TableKey true [104; 105; 0; 1]) 3 STRING 0 m ltac:(by split) eq_refl).
  split; [exact E|]. destruct E as (_ & E & _). apply (E [104; 105] [1]); [done|by repeat constructor].
Defined.

Lemma skip_decode_witness : skip_field (mk_TableKey true [104; 105; 0; 1]) STRING 0 = Some (0, 3).
Proof.
  eapply (skip_decode (mk_TableKey true [104; 105; 0; 1]) 3 STRING 0
    (mk_message (fun _ => None) (∅ : gmap Z pb_val))). reflexivity.
Defined.

Lemma partition_col_replace_witness :
  let k0 := mk_MutTableKey true [] in
  exists pos,
    get_partition_col_pos (table_key (append_values [number INT64 7; number DATE 5; number UINT8 1] k0))
      [INT64; DATE; UINT8] 1 0 = Some pos /\
    replace_partition_col (number DATE 9) pos
      (append_values [number INT64 7; number DATE 5; number UINT8 1] k0)
    = Some (append_values [number INT64 7; number DATE 9; number UINT8 1] k0).
Proof.
  apply (partition_col_replace true [number INT64 7] (number DATE 5) (number DATE 9)
    [number UINT8 1]); try done; (solve_keys || by left).
Defined.

(** ** Departures from the intended behaviour *)

(** A string field at the end of a key without its NUL is read past the slice:
    the guard looks only at where the string starts. *)
Example unterminated_string_overread :
  decode_field (mk_TableKey true [104; 105]) 3 STRING 0
    (mk_message (fun _ => None) (∅ : gmap Z pb_val)) = None.
Proof. reflexivity. Qed.

(** A string with a NUL inside comes back cut short. *)
Example embedded_nul_truncates :
  exists m, decode_field (table_key (append_string [104; 0; 105] (mk_MutTableKey true [])))
    3 STRING 0 (mk_message (fun _ => None) (∅ : gmap Z pb_val)) = Some (0, 2, m) /\
    GetField CPPTYPE_STRING m 3 = PStr [104].
Proof. eexists. split; reflexivity. Qed.

(** On a big-endian host the chunk decoder stores a small integer where its
    member of the union does not read it. *)
Example chunk_big_endian :
  let be : Host := true in
  match @decode_field_for_chunk be
    (mk_TableKey true (mk_data (@append_u8 be 200 (mk_MutTableKey true [])))) no_bitmaps
    UINT8 0 (new_ExprValue NULL_TYPE) with
  | Some (code, _, v) => code = 0 /\ @uint8_val be no_bitmaps v = 0
  | None => False
  end.
Proof. vm_compute. split; reflexivity. Qed.
