(* ===== verification/TableRecord.v ===== *)
(** * Records and their keys ([src/common/table_record.cpp],
      [include/common/message_helper.h], [FieldInfo] and [IndexInfo] of
      [include/common/schema_factory.h])

    A record is a protocol buffer message; an index names the fields that make
    its key.  An operation returns its code with the key and the message as it
    leaves them, also after an error. *)

From S2P Require Import Prelude KeyEncoder Stdio FloatArith FloatText Calendar DateTime ExprValue TableKey.

Inductive IndexType :=
| I_NONE | I_PRIMARY | I_UNIQ | I_KEY | I_FULLTEXT | I_VECTOR | I_ROLLUP.

#[global] Instance IndexType_eq_dec : EqDecision IndexType.
Proof. solve_decision. Defined.

Section Records.
Context `{Host, RoaringLib}.

(** The members of [FieldInfo] and [IndexInfo] that keys depend on. *)
Record FieldInfo := mk_FieldInfo {
  fi_id : Z;
  fi_pb_idx : Z;
  fi_type : PrimitiveType;
  fi_can_null : bool;
  fi_default_expr_value : ExprValue
}.

Record IndexInfo := mk_IndexInfo {
  ix_id : Z;
  ix_type : IndexType;
  ix_fields : list FieldInfo;
  ix_has_nullable : bool;
  ix_pk_fields : list FieldInfo
}.

Context {M : Type} `{Reflection M}.

Definition GetNum (ct : cpp_type) (m : M) (f : Z) : Z := pb_num (GetField ct m f).
Definition GetString (m : M) (f : Z) : bytes := pb_str (GetField CPPTYPE_STRING m f).

(** *** [MessageHelper] *)

Definition helper_is_null (field : Z) (m : M) : bool := negb (HasField m field).

(** [get_int32] and its siblings: -2 when the field is absent. *)
Definition helper_get (ct : cpp_type) (field : Z) (m : M) (val : pb_val) : Z * pb_val :=
  if negb (HasField m field) then (-2, val) else (0, GetField ct m field).

(** [None]: the conversion of the value has no result. *)
Definition set_value `{Zone} (field : Z) (value : ExprValue) (m : M) : option (Z * M) :=
  if is_null value then Some (0, ClearField field m)
  else
    let num T := x ← get_numberic T value;
                 Some (0, SetField (field_cpp_type m field) field (PNum x) m) in
    match field_cpp_type m field with
    | CPPTYPE_INT32 => num (TInt 32)
    | CPPTYPE_UINT32 => num (TUint 32)
    | CPPTYPE_INT64 => num (TInt 64)
    | CPPTYPE_UINT64 => num (TUint 64)
    | CPPTYPE_FLOAT => num TFloat
    | CPPTYPE_DOUBLE => num TDouble
    | CPPTYPE_BOOL => num TBool
    | CPPTYPE_STRING =>
        s ← get_string value; Some (0, SetField CPPTYPE_STRING field (PStr s) m)
    end.

Definition get_value (field : Z) (m : M) : ExprValue :=
  if negb (HasField m field) then new_ExprValue NULL_TYPE
  else
    let num t n := u_write n (GetNum (field_cpp_type m field) m field) (new_ExprValue t) in
    match field_cpp_type m field with
    | CPPTYPE_INT32 => num INT32 4%nat
    | CPPTYPE_UINT32 => num UINT32 4%nat
    | CPPTYPE_INT64 => num INT64 8%nat
    | CPPTYPE_UINT64 => num UINT64 8%nat
    | CPPTYPE_FLOAT => num FLOAT 4%nat
    | CPPTYPE_DOUBLE => num DOUBLE 8%nat
    | CPPTYPE_BOOL => num BOOL 1%nat
    | CPPTYPE_STRING => set_str (GetString m field) (new_ExprValue STRING)
    end.

(** Integer sums wrap around; other fields are left alone. *)
Definition add_value `{Zone} (field : Z) (value : ExprValue) (m : M) : option M :=
  m ← (if negb (HasField m field)
       then snd <$> set_value field (new_ExprValue INT64) m else Some m);
  let ct := field_cpp_type m field in
  let put x := Some (SetField ct field (PNum x) m) in
  match ct with
  | CPPTYPE_INT32 => put (i32 (GetNum ct m field + int32_val value))
  | CPPTYPE_UINT32 => put (u32 (GetNum ct m field + uint32_val value))
  | CPPTYPE_INT64 => put (i64 (GetNum ct m field + int64_val value))
  | CPPTYPE_UINT64 => put (u64 (GetNum ct m field + uint64_val value))
  | _ => Some m
  end.

(** A column value stored on its own, little end first. *)
Definition helper_decode_field (field : Z) (t : PrimitiveType) (data : bytes) (m : M) :
    option (Z * M) :=
  let fixed n ct (conv : Z -> Z) :=
    if (length data <? n)%nat then Some (-2, m)
    else x ← mem_load data 0 n; Some (0, SetField ct field (PNum (conv x)) m) in
  match t with
  | INT8 => fixed 1%nat CPPTYPE_INT32 i8
  | INT16 => fixed 2%nat CPPTYPE_INT32 (fun x => i16 (to_little_endian_u16 x))
  | TIME | INT32 => fixed 4%nat CPPTYPE_INT32 (fun x => i32 (to_little_endian_u32 x))
  | INT64 => fixed 8%nat CPPTYPE_INT64 (fun x => i64 (to_little_endian_u64 x))
  | UINT8 => fixed 1%nat CPPTYPE_UINT32 id
  | UINT16 => fixed 2%nat CPPTYPE_UINT32 to_little_endian_u16
  | TIMESTAMP | DATE | UINT32 => fixed 4%nat CPPTYPE_UINT32 to_little_endian_u32
  | DATETIME | UINT64 => fixed 8%nat CPPTYPE_UINT64 to_little_endian_u64
  | FLOAT => fixed 4%nat CPPTYPE_FLOAT to_little_endian_u32
  | DOUBLE => fixed 8%nat CPPTYPE_DOUBLE to_little_endian_u64
  | BOOL => fixed 1%nat CPPTYPE_BOOL (fun x => if x =? 0 then 0 else 1)
  | STRING => Some (0, SetField CPPTYPE_STRING field (PStr data) m)
  | _ => Some (-1, m)
  end.

(** *** Encoding a field *)

Definition encode_field (field : Z) (t : PrimitiveType) (key : MutTableKey)
    (clear like_prefix : bool) (m : M) : Z * MutTableKey * M :=
  let done key := (0, key, if clear then ClearField field m else m) in
  match t with
  | INT8 => done (append_i8 (i8 (GetNum CPPTYPE_INT32 m field)) key)
  | INT16 => done (append_i16 (i16 (GetNum CPPTYPE_INT32 m field)) key)
  | TIME | INT32 => done (append_i32 (GetNum CPPTYPE_INT32 m field) key)
  | INT64 => done (append_i64 (GetNum CPPTYPE_INT64 m field) key)
  | UINT8 => done (append_u8 (u8 (GetNum CPPTYPE_UINT32 m field)) key)
  | UINT16 => done (append_u16 (u16 (GetNum CPPTYPE_UINT32 m field)) key)
  | TIMESTAMP | DATE | UINT32 => done (append_u32 (GetNum CPPTYPE_UINT32 m field) key)
  | DATETIME | UINT64 => done (append_u64 (GetNum CPPTYPE_UINT64 m field) key)
  | FLOAT => done (append_float (GetNum CPPTYPE_FLOAT m field) key)
  | DOUBLE => done (append_double (GetNum CPPTYPE_DOUBLE m field) key)
  | BOOL => done (append_boolean (GetNum CPPTYPE_BOOL m field) key)
  | STRING =>
      done (if like_prefix then append_string_prefix (GetString m field) key
            else append_string (GetString m field) key)
  | _ => (-1, key, m)
  end.

(** *** Keys *)

(** What the machine computes for a shift by a count outside [0, 31]. *)
Variable bad_shift : Z -> Z.

Definition is_secondary (t : IndexType) : bool :=
  match t with I_KEY | I_UNIQ | I_ROLLUP => true | _ => false end.

(** [0x01 << (7 - idx)] and [(null_flag >> (7 - idx)) & 0x01], with the count a
    [uint32_t]. *)
Definition null_bit (idx : Z) : Z :=
  if idx <=? 7 then Z.shiftl 1 (7 - idx) else bad_shift idx.
Definition null_test (null_flag idx : Z) : bool :=
  if idx <=? 7 then Z.testbit null_flag (7 - idx) else Z.odd (bad_shift idx).

(** The loop of [encode_key] over the first [col_cnt] fields. *)
Fixpoint encode_fields (t : IndexType) (fields : list FieldInfo) (idx col_cnt : Z)
    (clear like_prefix : bool) (null_flag : Z) (key : MutTableKey) (m : M) :
    Z * Z * MutTableKey * M :=
  match fields with
  | [] => (0, null_flag, key, m)
  | info :: fields =>
      let last := like_prefix && (idx =? u32 (col_cnt - 1)) in
      let field := fi_pb_idx info in
      if negb (field_by_idx m field) then (-1, null_flag, key, m)
      else
        let encode :=
          let '(res, key, m) := encode_field field (fi_type info) key clear last m in
          if negb (res =? 0) then (-1, null_flag, key, m)
          else encode_fields t fields (idx + 1) col_cnt clear like_prefix null_flag key m in
        match t with
        | I_PRIMARY | I_FULLTEXT =>
            if negb (HasField m field) then (-2, null_flag, key, m) else encode
        | I_KEY | I_UNIQ | I_ROLLUP =>
            if negb (HasField m field) && fi_can_null info
            then encode_fields t fields (idx + 1) col_cnt clear like_prefix
                   (u8 (Z.lor null_flag (null_bit idx))) key m
            else encode
        | _ => (-1, null_flag, key, m)
        end
  end.

(** [None]: an exception of [std::string::replace]. *)
Definition encode_key (index : IndexInfo) (key : MutTableKey) (field_cnt : Z)
    (clear like_prefix : bool) (m : M) : option (Z * MutTableKey * M) :=
  let t := ix_type index in
  let pos := i32 (Z.of_nat (length (mk_data key))) in
  let n := Z.of_nat (length (ix_fields index)) in
  if bool_decide (t = I_NONE) then Some (-1, key, m)
  else
    let key := if is_secondary t then append_u8 0 key else key in
    let col_cnt := u32 (if field_cnt =? -1 then n else field_cnt) in
    if (n <? col_cnt) || (ix_has_nullable index && (8 <? col_cnt)) then Some (-1, key, m)
    else
      let '(code, null_flag, key, m) :=
        encode_fields t (take (Z.to_nat col_cnt) (ix_fields index)) 0 col_cnt
          clear like_prefix 0 key m in
      if negb (code =? 0) then Some (code, key, m)
      else
        key ← match t with
              | I_KEY | I_UNIQ => replace_u8 null_flag pos key
              | _ => Some key
              end;
        let full := match t with
                    | I_PRIMARY | I_UNIQ => col_cnt =? n
                    | _ => false
                    end in
        Some (0, set_full full key, m).

(** The loop shared by the primary key suffix of secondary indexes. *)
Fixpoint encode_pk_fields (fields : list FieldInfo) (key : MutTableKey) (m : M) :
    Z * MutTableKey * M :=
  match fields with
  | [] => (0, key, m)
  | info :: fields =>
      let field := fi_pb_idx info in
      if negb (field_by_idx m field) then (-1, key, m)
      else if negb (HasField m field) then (-2, key, m)
      else
        let '(res, key, m) := encode_field field (fi_type info) key false false m in
        if negb (res =? 0) then (-1, key, m) else encode_pk_fields fields key m
  end.

(** [None]: more columns are asked for than the vector has. *)
Definition encode_primary_key (index : IndexInfo) (key : MutTableKey) (field_cnt : Z) (m : M) :
    option (Z * MutTableKey * M) :=
  match ix_type index with
  | I_KEY | I_UNIQ =>
      let n := Z.of_nat (length (ix_pk_fields index)) in
      let col_cnt := u32 (if field_cnt =? -1 then n else field_cnt) in
      let '(code, key, m) :=
        encode_pk_fields (take (Z.to_nat col_cnt) (ix_pk_fields index)) key m in
      if (code =? 0) && (n <? col_cnt) then None else Some (code, key, m)
  | _ => Some (-1, key, m)
  end.

(** *** Decoding keys *)

Fixpoint decode_fields (null_flag : Z) (fields : list FieldInfo) (idx : Z)
    (key : TableKey) (pos : Z) (m : M) : option (Z * Z * M) :=
  match fields with
  | [] => Some (0, pos, m)
  | info :: fields =>
      let field := fi_pb_idx info in
      if negb (field_by_idx m field) then Some (-1, pos, m)
      else if null_test null_flag idx && fi_can_null info
      then decode_fields null_flag fields (idx + 1) key pos m
      else
        '(code, pos, m) ← decode_field key field (fi_type info) pos m;
        if negb (code =? 0) then Some (-1, pos, m)
        else decode_fields null_flag fields (idx + 1) key pos m
  end.

(** The flag byte is read without a look at the size of the key. *)
Definition decode_key (index : IndexInfo) (key : TableKey) (pos : Z) (m : M) :
    option (Z * Z * M) :=
  if bool_decide (ix_type index = I_NONE) then Some (-1, pos, m)
  else if is_secondary (ix_type index) then
    null_flag ← extract_u8 key pos;
    decode_fields null_flag (ix_fields index) 0 key (advance pos 1) m
  else decode_fields 0 (ix_fields index) 0 key pos m.

Fixpoint decode_pk_fields (fields : list FieldInfo) (key : TableKey) (pos : Z) (m : M) :
    option (Z * Z * M) :=
  match fields with
  | [] => Some (0, pos, m)
  | info :: fields =>
      let field := fi_pb_idx info in
      if negb (field_by_idx m field) then Some (-1, pos, m)
      else
        '(code, pos, m) ← decode_field key field (fi_type info) pos m;
        if negb (code =? 0) then Some (-1, pos, m) else decode_pk_fields fields key pos m
  end.

Definition decode_primary_key (index : IndexInfo) (key : TableKey) (pos : Z) (m : M) :
    option (Z * Z * M) :=
  match ix_type index with
  | I_KEY | I_UNIQ => decode_pk_fields (ix_pk_fields index) key pos m
  | _ => Some (-1, pos, m)
  end.

(** *** Columns stored one by one *)

(** The stored bytes of a field, with the value it is compared to when the
    column has a default. *)
Definition cstore_bytes (t : PrimitiveType) (field : Z) (m : M) : option bytes :=
  match t with
  | INT8 => Some (mem_store 1 (u8 (GetNum CPPTYPE_INT32 m field)))
  | INT16 => Some (mem_store 2 (to_little_endian_u16 (u16 (GetNum CPPTYPE_INT32 m field))))
  | TIME | INT32 => Some (mem_store 4 (to_little_endian_u32 (u32 (GetNum CPPTYPE_INT32 m field))))
  | INT64 => Some (mem_store 8 (to_little_endian_u64 (u64 (GetNum CPPTYPE_INT64 m field))))
  | UINT8 => Some (mem_store 1 (u8 (GetNum CPPTYPE_UINT32 m field)))
  | UINT16 => Some (mem_store 2 (to_little_endian_u16 (u16 (GetNum CPPTYPE_UINT32 m field))))
  | TIMESTAMP | DATE | UINT32 =>
      Some (mem_store 4 (to_little_endian_u32 (GetNum CPPTYPE_UINT32 m field)))
  | DATETIME | UINT64 =>
      Some (mem_store 8 (to_little_endian_u64 (GetNum CPPTYPE_UINT64 m field)))
  | FLOAT => Some (mem_store 4 (to_little_endian_u32 (GetNum CPPTYPE_FLOAT m field)))
  | DOUBLE => Some (mem_store 8 (to_little_endian_u64 (GetNum CPPTYPE_DOUBLE m field)))
  | BOOL => Some (mem_store 1 (GetNum CPPTYPE_BOOL m field))
  | STRING => Some (GetString m field)
  | _ => None
  end.

(** Whether the field equals the default of its column; floats never do. *)
Definition equals_default (t : PrimitiveType) (field : Z) (m : M) (d : ExprValue) : bool :=
  negb (is_null d) &&
  match t with
  | INT8 => i8 (GetNum CPPTYPE_INT32 m field) =? int8_val d
  | INT16 => i16 (GetNum CPPTYPE_INT32 m field) =? int16_val d
  | TIME | INT32 => GetNum CPPTYPE_INT32 m field =? int32_val d
  | INT64 => GetNum CPPTYPE_INT64 m field =? int64_val d
  | UINT8 => u8 (GetNum CPPTYPE_UINT32 m field) =? uint8_val d
  | UINT16 => u16 (GetNum CPPTYPE_UINT32 m field) =? uint16_val d
  | TIMESTAMP | DATE | UINT32 => GetNum CPPTYPE_UINT32 m field =? uint32_val d
  | DATETIME | UINT64 => GetNum CPPTYPE_UINT64 m field =? uint64_val d
  | BOOL => GetNum CPPTYPE_BOOL m field =? bool_val d
  | STRING => bool_decide (GetString m field = str_val d)
  | _ => false
  end.

(** The code and the appended output: -2 for an absent field, -3 for one that
    equals its default and is not stored. *)
Definition encode_field_for_cstore (info : FieldInfo) (m : M) (out : bytes) : Z * bytes :=
  let field := fi_pb_idx info in
  if negb (field_by_idx m field) then (-1, out)
  else if negb (HasField m field) then (-2, out)
  else if equals_default (fi_type info) field m (fi_default_expr_value info) then (-3, out)
  else match cstore_bytes (fi_type info) field m with
       | Some b => (0, out ++ b)
       | None => (-1, out)
       end.

Definition cstore_decode_field (info : FieldInfo) (data : bytes) (m : M) : option (Z * M) :=
  let field := fi_pb_idx info in
  if negb (field_by_idx m field) then Some (-1, m)
  else helper_decode_field field (fi_type info) data m.

(** *** Text *)

(** [None] also where a cast has no result; the inner option is the null flag. *)
Definition field_to_string `{Zone} (now : Z) (info : FieldInfo) (m : M) :
    option (Z * option bytes) :=
  let field := fi_pb_idx info in
  if negb (field_by_idx m field) then Some (-1, None)
  else
    let v := get_value field m in
    if is_null v then Some (0, None)
    else v ← cast_to now (fi_type info) v; s ← get_string v; Some (0, Some s).

Fixpoint index_value_loop `{Zone} (fields : list FieldInfo) (m : M) : option bytes :=
  match fields with
  | [] => Some []
  | info :: fields =>
      s ← get_string (get_value (fi_pb_idx info) m);
      rest ← index_value_loop fields m;
      Some (s ++ [45] ++ rest)
  end.

Definition get_index_value `{Zone} (index : IndexInfo) (m : M) : option bytes :=
  s ← index_value_loop (ix_fields index) m; Some (removelast s).

(** [word] is the caller's string, kept when the field is absent. *)
Definition get_reverse_word `{Zone} (index : IndexInfo) (word : bytes) (m : M) :
    option (Z * bytes) :=
  let n := length (ix_fields index) in
  if (bool_decide (ix_type index = I_FULLTEXT) && negb (n =? 1)%nat)
     || (bool_decide (ix_type index = I_VECTOR) && negb (n =? 1)%nat && negb (n =? 2)%nat)
  then Some (-1, word)
  else
    let field_idx :=
      if bool_decide (ix_type index = I_VECTOR) && (1 <? n)%nat then 1%nat else 0%nat in
    info ← ix_fields index !! field_idx;
    if type_eqb (fi_type info) STRING then
      let '(code, p) := helper_get CPPTYPE_STRING (fi_pb_idx info) m (PStr word) in
      Some (code, pb_str p)
    else s ← get_string (get_value (fi_pb_idx info) m); Some (0, s).

(** *** Rollup *)

(** One field of [encode_value_for_rollup]: the summed fields stay, negated for
    a deletion, the others are cleared. *)
Fixpoint rollup_fields `{Zone} (total_fields : list FieldInfo) (need_sum : list Z)
    (is_delete : bool) (m : M) : option (Z * M) :=
  match total_fields with
  | [] => Some (0, m)
  | info :: total_fields =>
      let field := fi_pb_idx info in
      m ← (if negb (HasField m field)
           then snd <$> set_value field (new_ExprValue INT64) m else Some m);
      if bool_decide (field ∈ need_sum) then
        if is_delete then
          match fi_type info with
          | INT32 =>
              rollup_fields total_fields need_sum is_delete
                (SetField CPPTYPE_INT32 field (PNum (i32 (- GetNum CPPTYPE_INT32 m field))) m)
          | INT64 =>
              rollup_fields total_fields need_sum is_delete
                (SetField CPPTYPE_INT64 field (PNum (i64 (- GetNum CPPTYPE_INT64 m field))) m)
          | _ => Some (-1, m)
          end
        else rollup_fields total_fields need_sum is_delete m
      else rollup_fields total_fields need_sum is_delete (ClearField field m)
  end.

Definition encode_value_for_rollup `{Zone} (index : IndexInfo) (total_fields : list FieldInfo)
    (fields_need_sum : list FieldInfo) (is_delete : bool) (m : M) : option (Z * M) :=
  if negb (bool_decide (ix_type index = I_ROLLUP)) then Some (-1, m)
  else rollup_fields total_fields (fi_pb_idx <$> fields_need_sum) is_delete m.

End Records.
