(* ===== verification/TableRecordFacts.v ===== *)
(** * Correctness of record keys ([TableRecord])

    A key built from a record gives the record back, null columns included;
    keys of records without nulls are ordered as the records are; a column
    stored on its own can be read back. *)

From stdpp Require Import gmap.
From S2P Require Import Prelude KeyEncoder Stdio FloatArith FloatText Calendar DateTime ExprValue ExprValueFacts TableKey TableKeyFacts TableRecord.

Section Facts.
Context `{Host, RoaringLib} {M : Type} `{ReflectionLaws M}.
Variable bad_shift : Z -> Z.

(** ** The value of a field *)

Definition field_value (m : M) (info : FieldInfo) : ExprValue :=
  match fi_type info with
  | STRING => set_str (GetString m (fi_pb_idx info)) (new_ExprValue STRING)
  | t => u_write (member_width t) (GetNum (cpp_of t) m (fi_pb_idx info)) (new_ExprValue t)
  end.

(** A number has the range of its C++ type. *)
Definition in_cpp_range (ct : cpp_type) (x : Z) : Prop :=
  match ct with
  | CPPTYPE_INT32 => is_i 32 x
  | CPPTYPE_INT64 => is_i 64 x
  | CPPTYPE_UINT32 | CPPTYPE_FLOAT => is_u 32 x
  | CPPTYPE_UINT64 | CPPTYPE_DOUBLE => is_u 64 x
  | CPPTYPE_BOOL => x = 0 \/ x = 1
  | CPPTYPE_STRING => True
  end.

(** A field that a key can hold: of a supported type, its contents in the range
    of its accessor, no NaN and no NUL. *)
Record field_ok (m : M) (info : FieldInfo) : Prop := {
  fok_idx : field_by_idx m (fi_pb_idx info) = true;
  fok_type : keyable (fi_type info) = true;
  fok_range : in_cpp_range (cpp_of (fi_type info))
    (GetNum (cpp_of (fi_type info)) m (fi_pb_idx info));
  fok_string : fi_type info = STRING ->
    bytes_ok (GetString m (fi_pb_idx info)) /\ no_nul (GetString m (fi_pb_idx info));
  fok_float : fi_type info = FLOAT ->
    f32_is_nan (GetNum CPPTYPE_FLOAT m (fi_pb_idx info)) = false;
  fok_double : fi_type info = DOUBLE ->
    f64_is_nan (GetNum CPPTYPE_DOUBLE m (fi_pb_idx info)) = false
}.

(** What comes back: a small integer reduced to its width, zero for negative
    zero, everything else unchanged. *)
Definition normalize (t : PrimitiveType) (p : pb_val) : pb_val :=
  match t with
  | STRING => PStr (pb_str p)
  | INT8 => PNum (i8 (pb_num p))
  | INT16 => PNum (i16 (pb_num p))
  | UINT8 => PNum (u8 (pb_num p))
  | UINT16 => PNum (u16 (pb_num p))
  | FLOAT => PNum (if pb_num p =? 2 ^ 31 then 0 else pb_num p)
  | DOUBLE => PNum (if pb_num p =? 2 ^ 63 then 0 else pb_num p)
  | _ => PNum (pb_num p)
  end.

Lemma field_value_type m info :
  type (field_value m info) = fi_type info.
Proof. unfold field_value. by destruct (fi_type info). Qed.

Lemma field_value_ok m info : field_ok m info -> value_ok (field_value m info).
Proof.
  intros Hf. pose proof (fok_type m info Hf) as Hk. unfold field_value.
  destruct (fi_type info) eqn:Et; try done;
    try match goal with
        | |- value_ok (u_write ?n ?x (new_ExprValue ?t)) =>
            apply (value_ok_write t n x (new_ExprValue t));
            [by apply new_value_ok|done|simpl; lia]
        end.
  - pose proof (fok_range m info Hf) as Hr. rewrite Et in Hr.
    destruct (new_value_ok BOOL) as [? ? ? ?]; [done|].
    destruct (u_write_u_ok 1 (GetNum CPPTYPE_BOOL m (fi_pb_idx info)) (new_ExprValue BOOL))
      as [? ?]; [done..|lia|].
    constructor; [done|done| |done]. intros _. cbn [cpp_of member_width]. unfold bool_val.
    rewrite u_read_write. cbn [in_cpp_range cpp_of] in Hr. destruct Hr as [-> | ->]; auto.
  - destruct (new_value_ok STRING) as [? ? ? ?]; [done|].
    constructor; simpl; [done|done|by intros|by apply (fok_string m info Hf)].
Qed.

Lemma field_value_read m info n :
  n = member_width (fi_type info) -> fi_type info <> STRING ->
  u_read n (field_value m info)
  = wrap (8 * Z.of_nat n) (GetNum (cpp_of (fi_type info)) m (fi_pb_idx info)).
Proof.
  intros -> Hs. unfold field_value. destruct (fi_type info); try done; apply u_read_write.
Qed.

Lemma field_value_key m info : field_ok m info -> key_value (field_value m info).
Proof.
  intros Hf. split; [by apply field_value_ok|]. rewrite field_value_type.
  pose proof (fok_type m info Hf) as Hk. pose proof (fok_range m info Hf) as Hr.
  pose proof (fok_float m info Hf) as Hnf. pose proof (fok_double m info Hf) as Hnd.
  split; [done|]. split.
  - unfold denote, fp_sem. rewrite field_value_type.
    destruct (fi_type info) eqn:Et; try done; cbn [cpp_of in_cpp_range] in Hr.
    + unfold float_val. rewrite field_value_read by (rewrite Et; done). rewrite Et.
      cbn [cpp_of]. rewrite wrap_id by done. by rewrite Hnf.
    + unfold double_val. rewrite field_value_read by (rewrite Et; done). rewrite Et.
      cbn [cpp_of]. rewrite wrap_id by done. by rewrite Hnd.
  - intros Es. unfold field_value. rewrite Es. by apply (fok_string m info Hf).
Qed.

(** Encoding a field appends its value. *)
Lemma encode_field_spec m info key :
  field_ok m info ->
  encode_field (fi_pb_idx info) (fi_type info) key false false m
  = (0, append_value (field_value m info) key, m).
Proof.
  intros Hf. pose proof (fok_type m info Hf) as Hk. pose proof (fok_range m info Hf) as Hr.
  unfold encode_field, append_value. rewrite field_value_type.
  destruct (fi_type info) eqn:Et; try done; cbn [cpp_of in_cpp_range] in Hr;
    unfold int8_val, int16_val, int32_val, int64_val, uint8_val, uint16_val, uint32_val,
      uint64_val, float_val, double_val, bool_val;
    rewrite ?field_value_read by (rewrite Et; done); rewrite ?Et; cbn [cpp_of].
  all: try (by unfold field_value; rewrite Et).
  all: do 2 f_equal; try f_equal; symmetry.
  all: try (apply (swrap_wrap 8); lia); try (apply (swrap_wrap 16); lia).
  all: try (apply (swrap_wrap_id 32); [lia|done]); try (apply (swrap_wrap_id 64); [lia|done]).
  all: try done.
  all: try (by apply wrap_id).
  by destruct Hr as [-> | ->].
Qed.

(** Reading it back gives its normal form. *)
Lemma decoded_field_value m info :
  field_ok m info ->
  decoded (field_value m info)
  = normalize (fi_type info) (GetField (cpp_of (fi_type info)) m (fi_pb_idx info)).
Proof.
  intros Hf. pose proof (fok_type m info Hf) as Hk. pose proof (fok_range m info Hf) as Hr.
  unfold decoded, decoded_num, normalize. rewrite field_value_type. unfold GetNum in Hr.
  destruct (fi_type info) eqn:Et; try done;
    unfold type_eqb; rewrite ?bool_decide_eq_false_2, ?bool_decide_eq_true_2 by done;
    cbn [cpp_of in_cpp_range member_width] in *;
    unfold int8_val, int16_val, int32_val, int64_val, float_val, double_val;
    rewrite ?field_value_read by (rewrite Et; done); rewrite ?Et; cbn [cpp_of]; unfold GetNum.
  all: try (by unfold field_value; rewrite Et).
  all: f_equal.
  all: try (apply (swrap_wrap 8); lia); try (apply (swrap_wrap 16); lia).
  all: try (apply (swrap_wrap_id 32); [lia|done]); try (apply (swrap_wrap_id 64); [lia|done]).
  all: try (by rewrite wrap_id).
  by destruct Hr as [-> | ->].
Qed.

(** ** Null flags *)

(** A column is in the key unless it is nullable and absent. *)
Definition present (m : M) (info : FieldInfo) : bool :=
  HasField m (fi_pb_idx info) || negb (fi_can_null info).

Definition key_columns (m : M) (fields : list FieldInfo) : list ExprValue :=
  field_value m <$> filter (fun info => present m info = true) fields.

(** The flags the encoder collects. *)
Fixpoint null_flags (m : M) (fields : list FieldInfo) (idx flag : Z) : Z :=
  match fields with
  | [] => flag
  | info :: fields =>
      null_flags m fields (idx + 1)
        (if present m info then flag else u8 (Z.lor flag (null_bit bad_shift idx)))
  end.

Lemma u8_bit x i : 0 <= i < 8 -> Z.testbit (u8 x) i = Z.testbit x i.
Proof. intros. unfold wrap. by rewrite Z.mod_pow2_bits_low by lia. Qed.

Lemma null_bit_test idx j :
  0 <= idx <= 7 -> 0 <= j <= 7 -> Z.testbit (null_bit bad_shift idx) (7 - j) = (idx =? j).
Proof.
  intros Hi Hj. unfold null_bit. rewrite (proj2 (Z.leb_le idx 7)) by lia.
  rewrite Z.shiftl_1_l, Z.pow2_bits_eqb by lia.
  destruct (Z.eqb_spec (7 - idx) (7 - j)), (Z.eqb_spec idx j); lia || done.
Qed.

(** Nullable columns are among the first eight. *)
Definition nullable_ok (fields : list FieldInfo) (idx : Z) : Prop :=
  Forall (fun info => fi_can_null info = false) fields \/
  0 <= idx /\ idx + Z.of_nat (length fields) <= 8.

Lemma nullable_ok_tl info fields idx :
  nullable_ok (info :: fields) idx -> nullable_ok fields (idx + 1).
Proof.
  intros [Hf|[? Hl]]; [left; by inversion Hf|right; simpl in Hl; lia].
Qed.

Lemma present_head_bit m info fields idx :
  nullable_ok (info :: fields) idx -> present m info = false -> 0 <= idx <= 7.
Proof.
  intros [Hf|[? Hl]] Hp; [|simpl in Hl; lia].
  inversion Hf as [|? ? Hn]; subst. unfold present in Hp. rewrite Hn in Hp.
  by rewrite orb_true_r in Hp.
Qed.

(** A bit below [idx] keeps its value, the bit of an absent column is set. *)
Lemma null_flags_low m fields idx flag j :
  nullable_ok fields idx -> 0 <= j <= 7 -> j < idx ->
  Z.testbit (null_flags m fields idx flag) (7 - j) = Z.testbit flag (7 - j).
Proof.
  revert idx flag; induction fields as [|info fields IH]; intros idx flag Hn Hj Hlt; [done|].
  cbn [null_flags]. rewrite IH by (try lia; by eapply nullable_ok_tl).
  destruct (present m info) eqn:Hp; [done|].
  pose proof (present_head_bit m info fields idx Hn Hp).
  rewrite u8_bit, Z.lor_spec, null_bit_test by lia.
  destruct (Z.eqb_spec idx j); [lia|]. apply orb_false_r.
Qed.

Lemma null_flags_range m fields idx flag :
  is_u 8 flag -> is_u 8 (null_flags m fields idx flag).
Proof.
  revert idx flag; induction fields as [|info fields IH]; intros idx flag Hf; [done|].
  cbn [null_flags]. apply IH. destruct (present m info); [done|by apply wrap_range].
Qed.

(** A flag byte that tells the absent columns among the nullable ones. *)
Fixpoint flags_match (flag : Z) (m : M) (fields : list FieldInfo) (idx : Z) : Prop :=
  match fields with
  | [] => True
  | info :: fields =>
      (fi_can_null info = true ->
       null_test bad_shift flag idx = negb (HasField m (fi_pb_idx info))) /\
      flags_match flag m fields (idx + 1)
  end.

Lemma null_flags_match m fields idx flag :
  nullable_ok fields idx -> 0 <= idx ->
  (forall j, idx <= j <= 7 -> Z.testbit flag (7 - j) = false) ->
  flags_match (null_flags m fields idx flag) m fields idx.
Proof.
  revert idx flag; induction fields as [|info fields IH]; intros idx flag Hn Hi Hz; [done|].
  cbn [flags_match null_flags]. pose proof (nullable_ok_tl _ _ _ Hn) as Hn'. split.
  - intros Hc. assert (idx <= 7) as H7.
    { destruct Hn as [Hf|[_ Hl]]; [|simpl in Hl; lia]. inversion Hf. congruence. }
    unfold null_test. rewrite (proj2 (Z.leb_le idx 7)), null_flags_low by (done || lia).
    unfold present. rewrite Hc. destruct (HasField m (fi_pb_idx info)); cbn [orb negb].
    + apply Hz. lia.
    + rewrite u8_bit, Z.lor_spec, null_bit_test, Z.eqb_refl by lia. apply orb_true_r.
  - apply IH; [done|lia|]. intros j Hj. destruct (present m info) eqn:Hp; [apply Hz; lia|].
    pose proof (present_head_bit m info fields idx Hn Hp).
    rewrite u8_bit, Z.lor_spec, null_bit_test, Hz by lia.
    destruct (Z.eqb_spec idx j); [lia|done].
Qed.

(** ** The encoder *)

(** Every column exists, and those in the key can be held by it. *)
Definition fields_ok (m : M) (fields : list FieldInfo) : Prop :=
  Forall (fun info => field_by_idx m (fi_pb_idx info) = true /\
                      (present m info = true -> field_ok m info)) fields.

Lemma key_columns_cons m info fields :
  key_columns m (info :: fields) =
  if present m info then field_value m info :: key_columns m fields else key_columns m fields.
Proof.
  unfold key_columns. rewrite filter_cons. by case_decide as E; destruct (present m info).
Qed.

Lemma key_columns_ok m fields : fields_ok m fields -> Forall key_value (key_columns m fields).
Proof.
  induction 1 as [|info fields [_ Hf] _ IH]; [constructor|]. rewrite key_columns_cons.
  destruct (present m info); [|done]. constructor; [by apply field_value_key, Hf|done].
Qed.

Lemma encode_fields_secondary t m fields col idx flag key :
  is_secondary t = true -> fields_ok m fields ->
  encode_fields bad_shift t fields idx col false false flag key m
  = (0, null_flags m fields idx flag, append_values (key_columns m fields) key, m).
Proof.
  intros Ht Hf. revert idx flag key; induction Hf as [|info fields [Hi Hp] Hf IH];
    intros idx flag key; [done|].
  rewrite key_columns_cons. cbn [encode_fields null_flags]. rewrite Hi. cbn [negb andb].
  destruct (present m info) eqn:Hpr.
  - rewrite encode_field_spec by auto. change (negb (0 =? 0)) with false. cbv iota.
    rewrite IH. destruct t; try done; unfold present in Hpr;
      destruct (HasField m (fi_pb_idx info)), (fi_can_null info); done.
  - unfold present in Hpr. apply orb_false_iff in Hpr as [-> Hc%negb_false_iff].
    rewrite Hc, IH. by destruct t.
Qed.

Lemma encode_fields_primary t m fields col idx flag key :
  t = I_PRIMARY \/ t = I_FULLTEXT -> fields_ok m fields ->
  Forall (fun info => HasField m (fi_pb_idx info) = true) fields ->
  encode_fields bad_shift t fields idx col false false flag key m
  = (0, flag, append_values (key_columns m fields) key, m).
Proof.
  intros Ht Hf. revert idx flag key; induction Hf as [|info fields [Hi Hp] Hf IH];
    intros idx flag key Hh; [done|]. inversion Hh as [|? ? Hhas Hh']; subst.
  assert (Hpr : present m info = true) by (unfold present; by rewrite Hhas).
  rewrite key_columns_cons, Hpr. cbn [encode_fields]. rewrite Hi, Hhas. cbn [negb andb].
  rewrite encode_field_spec by auto. change (negb (0 =? 0)) with false. cbv iota.
  rewrite IH by done. by destruct Ht as [-> | ->].
Qed.

(** ** The decoder *)

(** The message after the columns of [m] are set in it. *)
Fixpoint put_columns (m : M) (fields : list FieldInfo) (m0 : M) : M :=
  match fields with
  | [] => m0
  | info :: fields =>
      put_columns m fields
        (if present m info
         then SetField (cpp_of (fi_type info)) (fi_pb_idx info)
                (normalize (fi_type info)
                   (GetField (cpp_of (fi_type info)) m (fi_pb_idx info))) m0
         else m0)
  end.

Lemma decode_fields_spec full flag m fields idx pre post m0 :
  fields_ok m fields -> flags_match flag m fields idx ->
  Forall (fun info => field_by_idx m0 (fi_pb_idx info) = true) fields ->
  let body := concat (key_bytes <$> key_columns m fields) in
  Z.of_nat (length (pre ++ body ++ post)) < 2 ^ 31 ->
  decode_fields bad_shift flag fields idx (mk_TableKey full (pre ++ body ++ post))
    (Z.of_nat (length pre)) m0
  = Some (0, Z.of_nat (length (pre ++ body)), put_columns m fields m0).
Proof.
  intros Hf. revert idx pre m0; induction Hf as [|info fields [Hi Hp] Hf IH];
    intros idx pre m0 Hm Hd body Hb.
  - unfold body. simpl. by rewrite app_nil_r.
  - inversion Hd as [|? ? Hidx Hd']; subst. destruct Hm as [Hn Hm].
    subst body. cbn [decode_fields put_columns]. rewrite Hidx. cbn [negb].
    rewrite key_columns_cons in *. destruct (present m info) eqn:Hpr.
    + assert (null_test bad_shift flag idx && fi_can_null info = false) as ->.
      { unfold present in Hpr. destruct (fi_can_null info); [|apply andb_false_r].
        rewrite Hn by done. rewrite orb_false_r in Hpr. by rewrite Hpr. }
      cbn [fmap list_fmap concat] in *. rewrite <- app_assoc in *.
      rewrite <- (field_value_type m info).
      rewrite decode_field_at by (done || by apply field_value_key, Hp).
      cbn [mbind option_bind]. change (negb (0 =? 0)) with false. cbv iota.
      unfold key_length. rewrite <- Nat2Z.inj_add, <- length_app, app_assoc in *.
      rewrite field_value_type, decoded_field_value by auto.
      rewrite IH; [by rewrite <- app_assoc|done| |exact Hb].
      eapply Forall_impl; [done|]. intros x Hx. by rewrite field_by_idx_set.
    + unfold present in Hpr. apply orb_false_iff in Hpr as [Hh Hc%negb_false_iff].
      rewrite Hn, Hh, Hc by done. cbn [negb andb]. by apply IH.
Qed.

Lemma put_columns_other m fields m0 f :
  f ∉ (fi_pb_idx <$> fields) ->
  HasField (put_columns m fields m0) f = HasField m0 f /\
  forall ct, GetField ct (put_columns m fields m0) f = GetField ct m0 f.
Proof.
  revert m0; induction fields as [|info fields IH]; intros m0 Hf; [done|].
  rewrite fmap_cons, not_elem_of_cons in Hf. destruct Hf as [Hne Hf].
  cbn [put_columns]. destruct (present m info); [|by apply IH].
  destruct (IH (SetField (cpp_of (fi_type info)) (fi_pb_idx info)
    (normalize (fi_type info) (GetField (cpp_of (fi_type info)) m (fi_pb_idx info))) m0) Hf)
    as [-> Hg].
  rewrite has_set_ne by done. split; [done|]. intros ct. by rewrite Hg, get_set_ne.
Qed.

(** What a decoded message says of a column. *)
Definition column_back (m m0 m1 : M) (info : FieldInfo) : Prop :=
  let f := fi_pb_idx info in
  let ct := cpp_of (fi_type info) in
  if present m info
  then HasField m1 f = true /\ GetField ct m1 f = normalize (fi_type info) (GetField ct m f)
  else HasField m1 f = HasField m0 f.

Lemma put_columns_back m fields m0 :
  NoDup (fi_pb_idx <$> fields) ->
  Forall (column_back m m0 (put_columns m fields m0)) fields.
Proof.
  revert m0; induction fields as [|info fields IH]; intros m0 Hnd; [constructor|].
  rewrite fmap_cons, NoDup_cons in Hnd. destruct Hnd as [Hni Hnd].
  constructor; unfold column_back; cbn [put_columns].
  - destruct (present m info).
    + destruct (put_columns_other m fields (SetField (cpp_of (fi_type info)) (fi_pb_idx info)
        (normalize (fi_type info) (GetField (cpp_of (fi_type info)) m (fi_pb_idx info))) m0)
        (fi_pb_idx info) Hni) as [-> Hg].
      by rewrite Hg, has_set, get_set.
    + by apply put_columns_other.
  - destruct (present m info) eqn:Hp; [|by apply IH].
    specialize (IH (SetField (cpp_of (fi_type info)) (fi_pb_idx info)
      (normalize (fi_type info) (GetField (cpp_of (fi_type info)) m (fi_pb_idx info))) m0) Hnd).
    rewrite Forall_forall in *. intros x Hx. specialize (IH x Hx). unfold column_back in IH.
    destruct (present m x); [done|]. rewrite IH. apply has_set_ne.
    intros E. apply Hni. rewrite E. by apply list_elem_of_fmap_2.
Qed.

(** ** Records without nulls *)

Lemma has_present m info : HasField m (fi_pb_idx info) = true -> present m info = true.
Proof. unfold present. by intros ->. Qed.

Lemma null_flags_present m fields idx flag :
  Forall (fun info => HasField m (fi_pb_idx info) = true) fields ->
  null_flags m fields idx flag = flag.
Proof.
  intros Hf. revert idx flag; induction Hf as [|info fields Hh _ IH]; intros idx flag; [done|].
  cbn [null_flags]. by rewrite has_present, IH.
Qed.

Lemma key_columns_present m fields :
  Forall (fun info => HasField m (fi_pb_idx info) = true) fields ->
  key_columns m fields = field_value m <$> fields.
Proof.
  induction 1 as [|info fields Hh _ IH]; [done|].
  rewrite key_columns_cons, has_present by done. by rewrite fmap_cons, IH.
Qed.

Lemma field_values_same m m' fields :
  same_columns (field_value m <$> fields) (field_value m' <$> fields).
Proof.
  induction fields as [|info fields IH]; [done|]. cbn [fmap list_fmap same_columns].
  by rewrite !field_value_type.
Qed.

(** ** Keys of records *)

(** An index whose key can be decoded, and a record it can index. *)
Record index_ok (index : IndexInfo) (m : M) : Prop := {
  iok_type : ix_type index = I_PRIMARY \/ ix_type index = I_FULLTEXT \/
             ix_type index = I_KEY \/ ix_type index = I_UNIQ;
  iok_nodup : NoDup (fi_pb_idx <$> ix_fields index);
  iok_nullable : ix_has_nullable index = existsb fi_can_null (ix_fields index);
  iok_eight : ix_has_nullable index = true -> (length (ix_fields index) <= 8)%nat;
  iok_count : Z.of_nat (length (ix_fields index)) < 2 ^ 32;
  iok_fields : fields_ok m (ix_fields index);
  iok_primary : is_secondary (ix_type index) = false ->
    Forall (fun info => HasField m (fi_pb_idx info) = true) (ix_fields index)
}.

Lemma iok_nullable_ok index m : index_ok index m -> nullable_ok (ix_fields index) 0.
Proof.
  intros Hi. pose proof (iok_nullable _ _ Hi) as Hn. pose proof (iok_eight _ _ Hi) as H8.
  destruct (ix_has_nullable index).
  - right. specialize (H8 eq_refl). lia.
  - left. apply Forall_forall. intros x Hx%list_elem_of_In.
    destruct (fi_can_null x) eqn:E; [|done]. symmetry in Hn.
    assert (existsb fi_can_null (ix_fields index) = true) by (apply existsb_exists; eauto).
    congruence.
Qed.

Definition index_flag (index : IndexInfo) (m : M) : bytes :=
  if is_secondary (ix_type index)
  then be_split 1 (null_flags m (ix_fields index) 0 0) else [].

(** The key an index gives a record: the flag byte of secondary indexes, then
    the columns that are present. *)
Definition index_key (index : IndexInfo) (m : M) : bytes :=
  index_flag index m ++ concat (key_bytes <$> key_columns m (ix_fields index)).

Lemma encode_key_spec index key m :
  index_ok index m -> Z.of_nat (length (mk_data key)) < 2 ^ 31 ->
  exists full,
  encode_key bad_shift index key (-1) false false m
  = Some (0, mk_MutTableKey full (mk_data key ++ index_key index m), m).
Proof.
  intros Hi Hk. pose proof (iok_fields _ _ Hi) as Hf. pose proof (iok_count _ _ Hi).
  pose proof (key_columns_ok m _ Hf) as Hc. unfold encode_key, index_key, index_flag.
  rewrite bool_decide_eq_false_2
    by (destruct (iok_type _ _ Hi) as [-> |[-> |[-> | ->]]]; done).
  change (-1 =? -1) with true. cbv iota. rewrite wrap_id by (unfold is_u; lia).
  rewrite (proj2 (Z.ltb_ge _ _)) by lia. cbn [orb].
  assert (ix_has_nullable index && (8 <? Z.of_nat (length (ix_fields index))) = false) as ->.
  { destruct (ix_has_nullable index) eqn:E; [|done]. pose proof (iok_eight _ _ Hi E).
    apply Z.ltb_ge. lia. }
  rewrite Nat2Z.id, firstn_all, swrap_id by (unfold is_i; lia).
  destruct (is_secondary (ix_type index)) eqn:Hs.
  - rewrite encode_fields_secondary by done. change (negb (0 =? 0)) with false. cbv iota.
    set (F := null_flags _ _ _ _).
    assert (E : append_values (key_columns m (ix_fields index)) (append_u8 0 key)
      = mk_MutTableKey (mk_full key) (mk_data key ++ mem_store 1 0
          ++ concat (key_bytes <$> key_columns m (ix_fields index)))).
    { rewrite append_values_spec; [unfold append_data; simpl; by rewrite <- app_assoc|].
      eapply Forall_impl; [done|]. by intros ? (? & _). }
    rewrite E. unfold replace_u8.
    destruct (iok_type _ _ Hi) as [Et|[Et|[Et|Et]]]; rewrite Et in *; try done;
      rewrite replace_data_middle by (rewrite ?length_mem_store; lia);
      rewrite store_u8; cbn [mbind option_bind]; by eexists.
  - rewrite encode_fields_primary; [|destruct (iok_type _ _ Hi) as [-> |[-> |[E|E]]];
      [auto|auto|by rewrite E in Hs..]|done|by apply (iok_primary _ _ Hi)].
    change (negb (0 =? 0)) with false. cbv iota.
    rewrite append_values_spec by (eapply Forall_impl; [done|]; by intros ? (? & _)).
    destruct (iok_type _ _ Hi) as [Et|[Et|[Et|Et]]]; rewrite Et in *; try done;
      cbn [mbind option_bind]; by eexists.
Qed.

Lemma decode_key_spec full index m pre post m0 :
  index_ok index m ->
  Forall (fun info => field_by_idx m0 (fi_pb_idx info) = true) (ix_fields index) ->
  Z.of_nat (length (pre ++ index_key index m ++ post)) < 2 ^ 31 ->
  decode_key bad_shift index (mk_TableKey full (pre ++ index_key index m ++ post))
    (Z.of_nat (length pre)) m0
  = Some (0, Z.of_nat (length (pre ++ index_key index m)),
          put_columns m (ix_fields index) m0).
Proof.
  intros Hi Hd. pose proof (iok_fields _ _ Hi) as Hf.
  pose proof (iok_nullable_ok _ _ Hi) as Hn.
  unfold decode_key, index_key, index_flag. rewrite bool_decide_eq_false_2
    by (destruct (iok_type _ _ Hi) as [-> |[-> |[-> | ->]]]; done).
  destruct (is_secondary (ix_type index)) eqn:Hs; intros Hb.
  - rewrite <- !app_assoc in *.
    assert (HF : is_u 8 (null_flags m (ix_fields index) 0 0)) by by apply null_flags_range.
    unfold extract_u8. cbn [tk_data]. rewrite load_be_u8 by done. cbn [mbind option_bind].
    rewrite app_assoc in *. set (pre' := pre ++ be_split 1 _) in *.
    assert (El : length pre' = (length pre + 1)%nat)
      by (unfold pre'; by rewrite length_app, length_be_split).
    assert (Ea : advance (Z.of_nat (length pre)) 1 = Z.of_nat (length pre')).
    { unfold advance. rewrite !length_app in Hb. rewrite swrap_id by (unfold is_i; lia). lia. }
    rewrite Ea, app_assoc in *. rewrite <- app_assoc in *. rewrite decode_fields_spec; try done.
    + unfold pre'. by rewrite <- app_assoc.
    + apply null_flags_match; [done|lia|]. intros; apply Z.testbit_0_l.
  - cbn [app] in *. rewrite decode_fields_spec; try done.
    assert (E : flags_match (null_flags m (ix_fields index) 0 0) m (ix_fields index) 0)
      by (apply null_flags_match; [done|lia|]; intros; apply Z.testbit_0_l).
    by rewrite null_flags_present in E by by apply (iok_primary _ _ Hi).
Qed.

(** C1. Key round trip.  For a record an index can hold, [encode_key] succeeds
    and leaves the record alone; whatever precedes and follows the key in the
    slice, [decode_key] then succeeds, moves the position past the key, and sets
    exactly the columns that are not null to their values in the record: small
    integers reduced to their width, negative zero as zero. *)
Theorem key_roundtrip index key m :
  index_ok index m -> Z.of_nat (length (mk_data key)) < 2 ^ 31 ->
  exists k', encode_key bad_shift index key (-1) false false m = Some (0, k', m) /\
  forall full post m0,
    Forall (fun info => field_by_idx m0 (fi_pb_idx info) = true) (ix_fields index) ->
    Z.of_nat (length (mk_data k' ++ post)) < 2 ^ 31 ->
    exists m1,
      decode_key bad_shift index (mk_TableKey full (mk_data k' ++ post))
        (Z.of_nat (length (mk_data key))) m0
      = Some (0, Z.of_nat (length (mk_data k')), m1) /\
      Forall (column_back m m0 m1) (ix_fields index) /\
      (forall f, f ∉ (fi_pb_idx <$> ix_fields index) ->
         HasField m1 f = HasField m0 f /\ forall ct, GetField ct m1 f = GetField ct m0 f).
Proof.
  intros Hi Hk. destruct (encode_key_spec index key m Hi Hk) as [full E].
  eexists. split; [exact E|]. cbn [mk_data]. intros full' post m0 Hd Hb.
  rewrite <- app_assoc in *. eexists. split; [by apply decode_key_spec|].
  split; [apply put_columns_back, Hi|]. intros f Hf. by apply put_columns_other.
Qed.

(** Key order.  Two records without null columns get keys that compare byte
    by byte as the rows of their columns compare, for primary and secondary
    indexes alike. *)
Theorem record_key_order index key m m' :
  index_ok index m -> index_ok index m' -> Z.of_nat (length (mk_data key)) < 2 ^ 31 ->
  Forall (fun info => HasField m (fi_pb_idx info) = true) (ix_fields index) ->
  Forall (fun info => HasField m' (fi_pb_idx info) = true) (ix_fields index) ->
  exists k k',
    encode_key bad_shift index key (-1) false false m = Some (0, k, m) /\
    encode_key bad_shift index key (-1) false false m' = Some (0, k', m') /\
    lex_compare (mk_data k) (mk_data k')
    = columns_compare (field_value m <$> ix_fields index) (field_value m' <$> ix_fields index).
Proof.
  intros Hi Hi' Hk Hp Hp'.
  destruct (encode_key_spec index key m Hi Hk) as [full E].
  destruct (encode_key_spec index key m' Hi' Hk) as [full' E'].
  do 2 eexists. split; [exact E|]. split; [exact E'|]. cbn [mk_data].
  rewrite lex_compare_app_l. unfold index_key, index_flag.
  rewrite !null_flags_present, lex_compare_app_l by done.
  rewrite columns_order; [by rewrite !key_columns_present|by apply key_columns_ok, iok_fields..|].
  rewrite !key_columns_present by done. apply field_values_same.
Qed.

(** ** Columns stored one by one *)

Lemma swap_twice n (swap : Z -> Z) x :
  (forall y, swap y = be_combine (le_split n y)) -> 0 <= x < 256 ^ Z.of_nat n ->
  swap (swap x) = x /\ 0 <= swap x < 256 ^ Z.of_nat n.
Proof.
  intros Hs Hx. rewrite !Hs. unfold be_combine.
  assert (Hr : bytes_ok (rev (le_split n x))) by apply bytes_ok_rev, le_split_ok.
  assert (Hl : length (rev (le_split n x)) = n) by by rewrite length_rev, length_le_split.
  split.
  - rewrite <- Hl at 1. rewrite le_split_combine, rev_involutive by done.
    by apply le_combine_split.
  - pose proof (le_combine_range _ Hr) as R. by rewrite Hl in R.
Qed.

(** Storing and loading a number little end first. *)
Lemma little_endian_back n (swap : Z -> Z) x :
  (forall y, swap y = be_combine (le_split n y)) -> 0 <= x < 256 ^ Z.of_nat n ->
  let conv y := if negb is_big_endian then y else swap y in
  mem_load (mem_store n (conv x)) 0 n = Some (conv x) /\ conv (conv x) = x.
Proof.
  intros Hs Hx conv. destruct (swap_twice n swap x Hs Hx) as [E R].
  assert (Hc : 0 <= conv x < 256 ^ Z.of_nat n) by (unfold conv; by case_match).
  split; [|unfold conv; by case_match].
  pose proof (mem_load_store [] n (conv x) [] Hc) as L. by rewrite app_nil_r in L.
Qed.

(** A stored column comes back reduced to its width; floats keep their bits. *)
Definition stored (t : PrimitiveType) (p : pb_val) : pb_val :=
  match t with FLOAT | DOUBLE => PNum (pb_num p) | _ => normalize t p end.

(** Loading what [mem_store] wrote, as the decoder does. *)
Lemma load_stored n x :
  0 <= x < 256 ^ Z.of_nat n ->
  (length (mem_store n x) <? n)%nat = false /\ mem_load (mem_store n x) 0 n = Some x.
Proof.
  intros Hx. rewrite length_mem_store, Nat.ltb_irrefl. split; [done|].
  pose proof (mem_load_store [] n x [] Hx) as L. by rewrite app_nil_r in L.
Qed.

Lemma le_u16_back x : is_u 16 x ->
  (length (mem_store 2 (to_little_endian_u16 x)) <? 2)%nat = false /\
  mem_load (mem_store 2 (to_little_endian_u16 x)) 0 2 = Some (to_little_endian_u16 x) /\
  to_little_endian_u16 (to_little_endian_u16 x) = x.
Proof.
  intros. rewrite length_mem_store. split; [done|].
  by apply (little_endian_back _ swap_u16); [apply swap_u16_bytes|].
Qed.

Lemma le_u32_back x : is_u 32 x ->
  (length (mem_store 4 (to_little_endian_u32 x)) <? 4)%nat = false /\
  mem_load (mem_store 4 (to_little_endian_u32 x)) 0 4 = Some (to_little_endian_u32 x) /\
  to_little_endian_u32 (to_little_endian_u32 x) = x.
Proof.
  intros. rewrite length_mem_store. split; [done|].
  by apply (little_endian_back _ swap_u32); [apply swap_u32_bytes|].
Qed.

Lemma le_u64_back x : is_u 64 x ->
  (length (mem_store 8 (to_little_endian_u64 x)) <? 8)%nat = false /\
  mem_load (mem_store 8 (to_little_endian_u64 x)) 0 8 = Some (to_little_endian_u64 x) /\
  to_little_endian_u64 (to_little_endian_u64 x) = x.
Proof.
  intros. rewrite length_mem_store. split; [done|].
  by apply (little_endian_back _ swap_u64); [apply swap_u64_bytes|].
Qed.

Ltac stored_back H :=
  let L := fresh "L" in let M := fresh "M" in let E := fresh "E" in
  pose proof H as (L & M & E); rewrite L, M; cbn [mbind option_bind]; rewrite E; clear L M E.

Ltac stored_byte H :=
  let L := fresh "L" in let M := fresh "M" in
  pose proof H as (L & M); rewrite L, M; cbn [mbind option_bind]; clear L M.

Lemma cstore_bytes_back m m0 info :
  keyable (fi_type info) = true ->
  in_cpp_range (cpp_of (fi_type info)) (GetNum (cpp_of (fi_type info)) m (fi_pb_idx info)) ->
  exists b, cstore_bytes (fi_type info) (fi_pb_idx info) m = Some b /\
    helper_decode_field (fi_pb_idx info) (fi_type info) b m0
    = Some (0, SetField (cpp_of (fi_type info)) (fi_pb_idx info)
        (stored (fi_type info) (GetField (cpp_of (fi_type info)) m (fi_pb_idx info))) m0).
Proof.
  intros Hk Hr. unfold cstore_bytes, stored, normalize. set (f := fi_pb_idx info) in *.
  unfold GetNum, GetString in *.
  destruct (fi_type info) eqn:Et; try done; cbn [cpp_of in_cpp_range] in *;
    (eexists; split; [reflexivity|]); cbn [helper_decode_field]; try done.
  all: match goal with |- context [pb_num ?p] => set (x := pb_num p) in * end.
  all: try match goal with
    | |- context [to_little_endian_u16 ?y] =>
        stored_back (le_u16_back y ltac:(first [done|by apply wrap_range]))
    | |- context [to_little_endian_u32 ?y] =>
        stored_back (le_u32_back y ltac:(first [done|by apply wrap_range]))
    | |- context [to_little_endian_u64 ?y] =>
        stored_back (le_u64_back y ltac:(first [done|by apply wrap_range]))
    | |- context [mem_store 1 (u8 ?y)] =>
        stored_byte (load_stored 1 (u8 y) ltac:(by apply (wrap_range 8)))
    | B : ?y = 0 \/ ?y = 1 |- context [mem_store 1 ?y] =>
        stored_byte (load_stored 1 y ltac:(by destruct B as [-> | ->]))
    end.
  all: do 3 f_equal; try done.
  all: try (f_equal; first [by apply swrap_wrap_id|by apply swrap_wrap]).
  by destruct Hr as [-> | ->].
Qed.

(** A column stored on its own and not equal to its default is encoded
    after what is already in the output, and decoding it sets the field to its
    value; an absent column and one equal to its default are not stored. *)
Theorem cstore_roundtrip info m out :
  keyable (fi_type info) = true -> field_by_idx m (fi_pb_idx info) = true ->
  in_cpp_range (cpp_of (fi_type info)) (GetNum (cpp_of (fi_type info)) m (fi_pb_idx info)) ->
  let '(code, out') := encode_field_for_cstore info m out in
  if negb (HasField m (fi_pb_idx info)) then code = -2 /\ out' = out
  else if equals_default (fi_type info) (fi_pb_idx info) m (fi_default_expr_value info)
  then code = -3 /\ out' = out
  else code = 0 /\ exists b, out' = out ++ b /\
    forall m0, field_by_idx m0 (fi_pb_idx info) = true ->
      cstore_decode_field info b m0
      = Some (0, SetField (cpp_of (fi_type info)) (fi_pb_idx info)
          (stored (fi_type info) (GetField (cpp_of (fi_type info)) m (fi_pb_idx info))) m0).
Proof.
  intros Hk Hi Hr. unfold encode_field_for_cstore. rewrite Hi. cbn [negb].
  destruct (HasField m (fi_pb_idx info)); cbn [negb]; [|done].
  destruct (equals_default _ _ _ _); [done|].
  destruct (cstore_bytes_back m m info Hk Hr) as (b & E & _). rewrite E.
  split; [done|]. exists b. split; [done|]. intros m0 Hm0.
  unfold cstore_decode_field. rewrite Hm0. cbn [negb].
  destruct (cstore_bytes_back m m0 info Hk Hr) as (b' & E' & D). congruence.
Qed.

End Facts.

(** ** Instances *)

#[local] Existing Instances le_host no_bitmaps.

Definition example_field (idx : Z) (t : PrimitiveType) (can_null : bool) : FieldInfo :=
  mk_FieldInfo idx idx t can_null (new_ExprValue NULL_TYPE).

Definition example_index (t : IndexType) : IndexInfo :=
  mk_IndexInfo 1 t
    [example_field 1 INT32 false; example_field 2 STRING true; example_field 3 INT64 true]
    true [].

Definition example_schema (f : Z) : option cpp_type :=
  if f =? 1 then Some CPPTYPE_INT32
  else if f =? 2 then Some CPPTYPE_STRING else Some CPPTYPE_INT64.

(** The last column is null. *)
Definition example_record : dyn_message :=
  mk_message example_schema
    (<[1 := PNum (-5)]> (<[2 := PStr (bytes_of_string "ab")]> (∅ : gmap Z pb_val))).

Definition full_record (x : Z) : dyn_message :=
  mk_message example_schema
    (<[1 := PNum x]> (<[2 := PStr (bytes_of_string "ab")]>
      (<[3 := PNum 7]> (∅ : gmap Z pb_val)))).

Lemma num_field_ok m idx t b :
  keyable t = true -> t <> STRING -> is_double t = false ->
  field_by_idx m idx = true -> in_cpp_range (cpp_of t) (GetNum (cpp_of t) m idx) ->
  field_ok m (example_field idx t b).
Proof. intros. constructor; try done; cbn [fi_type example_field]; intros ->; done. Qed.

Lemma text_field_ok m idx b s :
  field_by_idx m idx = true -> GetString m idx = bytes_of_string s ->
  forallb (fun x => negb (x =? 0)) (bytes_of_string s) = true ->
  field_ok m (example_field idx STRING b).
Proof.
  intros Hi Es Hs. constructor; try done. intros _. cbn [fi_pb_idx example_field]. rewrite Es.
  split; [apply bytes_of_string_ok|]. by apply (text_key s).
Qed.

Lemma example_nodup t : NoDup (fi_pb_idx <$> ix_fields (example_index t)).
Proof. apply (bool_decide_unpack _). by vm_compute. Qed.

Lemma example_index_ok : index_ok (example_index I_KEY) example_record.
Proof.
  constructor; try done; [auto|apply example_nodup|simpl; lia|].
  apply List.Forall_cons; [|apply List.Forall_cons; [|apply List.Forall_cons]];
    [| | |apply List.Forall_nil]; (split; [done|]); intros Hp; [| |done].
  - by apply num_field_ok.
  - by apply (text_field_ok _ _ _ "ab").
Qed.

Lemma full_index_ok x : is_i 32 x -> index_ok (example_index I_PRIMARY) (full_record x).
Proof.
  intros Hx. constructor; try done; [auto|apply example_nodup|simpl; lia| |].
  - apply List.Forall_cons; [|apply List.Forall_cons; [|apply List.Forall_cons]];
      [| | |apply List.Forall_nil]; (split; [done|]); intros Hp.
    + by apply num_field_ok.
    + by apply (text_field_ok _ _ _ "ab").
    + by apply num_field_ok.
  - intros _. by repeat (apply List.Forall_cons; [done|]).
Qed.

Lemma key_roundtrip_witness :
  exists k', encode_key (fun _ => 0) (example_index I_KEY) (mk_MutTableKey false [1; 2])
      (-1) false false example_record = Some (0, k', example_record) /\
  exists m1,
    decode_key (fun _ => 0) (example_index I_KEY) (mk_TableKey true (mk_data k' ++ [9]))
      2 (full_record 1) = Some (0, Z.of_nat (length (mk_data k')), m1) /\
    Forall (column_back example_record (full_record 1) m1) (ix_fields (example_index I_KEY)).
Proof.
  destruct (key_roundtrip (fun _ => 0) (example_index I_KEY) (mk_MutTableKey false [1; 2])
    example_record example_index_ok ltac:(done)) as (k' & E & D).
  exists k'. split; [exact E|].
  destruct (D true [9] (full_record 1)) as (m1 & E1 & B & _).
  - by repeat (apply List.Forall_cons; [done|]).
  - vm_compute in E. injection E as <-. done.
  - exists m1. split; [exact E1|exact B].
Defined.

Lemma record_key_order_witness :
  exists k k',
    encode_key (fun _ => 0) (example_index I_PRIMARY) (mk_MutTableKey false []) (-1) false false
      (full_record (-5)) = Some (0, k, full_record (-5)) /\
    encode_key (fun _ => 0) (example_index I_PRIMARY) (mk_MutTableKey false []) (-1) false false
      (full_record 3) = Some (0, k', full_record 3) /\
    lex_compare (mk_data k) (mk_data k') = Lt.
Proof.
  destruct (record_key_order (fun _ => 0) (example_index I_PRIMARY) (mk_MutTableKey false [])
    (full_record (-5)) (full_record 3)) as (k & k' & E & E' & C);
    [by apply full_index_ok|by apply full_index_ok|done
    |by repeat (apply List.Forall_cons; [done|])|by repeat (apply List.Forall_cons; [done|])|].
  exists k, k'. split; [exact E|]. split; [exact E'|]. rewrite C. by vm_compute.
Defined.

Lemma cstore_roundtrip_witness :
  let '(code, out') := encode_field_for_cstore (example_field 1 INT32 false) example_record [7] in
  code = 0 /\ exists b, out' = [7] ++ b /\
    forall m0, field_by_idx m0 1 = true ->
      cstore_decode_field (example_field 1 INT32 false) b m0
      = Some (0, SetField CPPTYPE_INT32 1 (PNum (-5)) m0).
Proof.
  exact (cstore_roundtrip (example_field 1 INT32 false) example_record [7]
    eq_refl eq_refl ltac:(by split)).
Defined.

(** ** Departures from the intended behaviour *)

(** A rollup index collects null flags and reads them back, but does not store
    them: a key with a null column cannot be decoded. *)
Example rollup_null_flag_lost :
  exists k, encode_key (fun _ => 0) (example_index I_ROLLUP) (mk_MutTableKey false [])
      (-1) false false example_record = Some (0, k, example_record) /\
    nth 0 (mk_data k) 1 = 0 /\
    exists pos m, decode_key (fun _ => 0) (example_index I_ROLLUP) (table_key k) 0 example_record
      = Some (-1, pos, m).
Proof.
  eexists. split; [vm_compute; reflexivity|]. split; [reflexivity|].
  do 2 eexists. vm_compute. reflexivity.
Qed.

(** The flag byte of an empty key is read outside the slice. *)
Example decode_key_empty_overread :
  decode_key (fun _ => 0) (example_index I_KEY) (mk_TableKey true []) 0 example_record = None.
Proof. reflexivity. Qed.
