(* ===== verification/Tso.v ===== *)
(** * The timestamp oracle ([src/meta_server/tso_state_machine.cpp],
      [include/meta_server/tso_state_machine.h], [namespace tso] of
      [include/common/common.h])

    The oracle hands out timestamps made of a physical part in milliseconds
    and a logical counter.  The leader keeps the current timestamp in memory and
    replicates a bound, [last_save_physical], that a later leader starts above.
    Times in milliseconds stay far below [2^63] and are integers; the count of a
    request comes from outside and is added in 64 bits. *)

From S2P Require Import Prelude Stdio.

Definition update_timestamp_interval_ms : Z := 50.
Definition update_timestamp_guard_ms : Z := 1.
Definition save_interval_ms : Z := 3000.
Definition logical_bits : Z := 18.
Definition max_logical : Z := Z.shiftl 1 logical_bits.

(** ** Data *)

Record TsoTimestamp := mk_ts { physical : Z; logical : Z }.

Record TsoObj := mk_obj { current_timestamp : TsoTimestamp; last_save_physical : Z }.

Inductive TsoOp := OP_GEN_TSO | OP_RESET_TSO | OP_UPDATE_TSO | OP_QUERY_TSO_INFO | OP_OTHER.

(** An absent optional field is [None]; its accessor gives the default. *)
Record TsoRequest := mk_req {
  op_type : TsoOp;
  count : Z;
  req_current : option TsoTimestamp;
  req_save : option Z;
  force : bool
}.

Definition request_current (r : TsoRequest) : TsoTimestamp :=
  default (mk_ts 0 0) (req_current r).
Definition request_save (r : TsoRequest) : Z := default 0 (req_save r).

Inductive ErrCode :=
| SUCCESS | INPUT_PARAM_ERROR | RETRY_LATER | EXEC_FAIL | NOT_LEADER
| INTERNAL_ERROR | UNSUPPORT_REQ_TYPE.

#[export] Instance err_code_eq_dec : EqDecision ErrCode := ltac:(solve_decision).

(** The members of the state machine: [_tso_obj], [_is_healty] and the
    inherited [_is_leader]. *)
Record Node := mk_node { tso_obj : TsoObj; is_healty : bool; is_leader : bool }.

Definition init_node : Node := mk_node (mk_obj (mk_ts 0 0) 0) true false.

Definition set_obj (o : TsoObj) (n : Node) : Node := mk_node o (is_healty n) (is_leader n).

(** ** Handing out timestamps *)

(** One round of the loop, under the lock: the timestamp taken, or nothing when
    it must be retried. *)
Definition gen_tso_try (cnt : Z) (o : TsoObj) : option TsoTimestamp * TsoObj :=
  let cur := current_timestamp o in
  if negb (physical cur =? 0) then
    let new_logical := i64 (logical cur + cnt) in
    if new_logical <? max_logical
    then (Some cur, mk_obj (mk_ts (physical cur) new_logical) (last_save_physical o))
    else (None, o)
  else (None, o).

(** Up to [rounds] rounds; [others k] is what the other threads do to the state
    machine during the sleep before the next round. *)
Fixpoint gen_tso_loop (rounds : nat) (others : nat -> Node -> Node) (cnt : Z) (n : Node) :
    option TsoTimestamp * Node :=
  match rounds with
  | O => (None, n)
  | S k =>
      let '(r, o) := gen_tso_try cnt (tso_obj n) in
      match r with
      | Some ts => (Some ts, set_obj o n)
      | None => gen_tso_loop k others cnt (others k n)
      end
  end.

Definition gen_tso (others : nat -> Node -> Node) (r : TsoRequest) (n : Node) :
    ErrCode * option (TsoTimestamp * Z) * Node :=
  if count r =? 0 then (INPUT_PARAM_ERROR, None, n)
  else if negb (is_healty n) then (RETRY_LATER, None, n)
  else
    match gen_tso_loop 50 others (count r) n with
    | (Some ts, n) => (SUCCESS, Some (ts, count r), n)
    | (None, n) => (EXEC_FAIL, None, n)
    end.

(** ** Replicated operations *)

Definition time_fallback (phys : Z) (cur : TsoTimestamp) (o : TsoObj) : bool :=
  (phys <? last_save_physical o) || (physical cur <? physical (current_timestamp o)).

(** A request without a timestamp or a bound is ignored. *)
Definition reset_tso (r : TsoRequest) (n : Node) : option ErrCode * Node :=
  match req_current r, req_save r with
  | Some cur, Some phys =>
      if time_fallback phys cur (tso_obj n) && negb (force r)
      then (Some INTERNAL_ERROR, n)
      else (Some SUCCESS, mk_node (mk_obj cur phys) true (is_leader n))
  | _, _ => (None, n)
  end.

Definition update_tso (r : TsoRequest) (n : Node) : ErrCode * Node :=
  if time_fallback (request_save r) (request_current r) (tso_obj n)
  then (INTERNAL_ERROR, n)
  else (SUCCESS, set_obj (mk_obj (request_current r) (request_save r)) n).

(** One entry of the log, once parsed. *)
Definition on_apply (r : TsoRequest) (n : Node) : option ErrCode * Node :=
  match op_type r with
  | OP_RESET_TSO => reset_tso r n
  | OP_UPDATE_TSO => let '(e, n) := update_tso r n in (Some e, n)
  | _ => (Some UNSUPPORT_REQ_TYPE, n)
  end.

(** What becomes of a request: an answer now, or an entry for the log. *)
Inductive Outcome :=
| Answered (e : ErrCode) (ts : option (TsoTimestamp * Z))
| Proposed (r : TsoRequest).

Definition process (others : nat -> Node -> Node) (r : TsoRequest) (n : Node) :
    Outcome * Node :=
  match op_type r with
  | OP_QUERY_TSO_INFO => (Answered SUCCESS (Some (current_timestamp (tso_obj n), 0)), n)
  | op =>
      if negb (is_leader n) then (Answered NOT_LEADER None, n)
      else match op with
           | OP_GEN_TSO =>
               let '(e, ts, n) := gen_tso others r n in (Answered e ts, n)
           | _ => (Proposed r, n)
           end
  end.

(** ** The leader *)

(** The entry [sync_timestamp] proposes. *)
Definition sync_request (cur : TsoTimestamp) (save : Z) : TsoRequest :=
  mk_req OP_UPDATE_TSO 0 (Some cur) (Some save) false.

(** One run of the timer at clock time [now]: the entry to propose, if any. *)
Definition update_timestamp (now : Z) (n : Node) : option TsoRequest :=
  if negb (is_leader n) then None
  else
    let o := tso_obj n in
    let prev_physical := physical (current_timestamp o) in
    let prev_logical := logical (current_timestamp o) in
    let last_save := last_save_physical o in
    let delta := now - prev_physical in
    let next :=
      if update_timestamp_guard_ms <? delta then Some now
      else if max_logical / 2 <? prev_logical
      then Some (prev_physical + update_timestamp_guard_ms)
      else None in
    next ← next;
    let save := if last_save - next <=? update_timestamp_guard_ms
                then next + save_interval_ms else last_save in
    Some (sync_request (mk_ts next 0) save).

(** What [on_leader_start] proposes, and what its thread does when the proposal
    is answered. *)
Definition on_leader_start (now : Z) (n : Node) : TsoRequest :=
  let last_save := last_save_physical (tso_obj n) in
  let current :=
    if now <? last_save + update_timestamp_guard_ms
    then last_save + update_timestamp_guard_ms else now in
  sync_request (mk_ts current 0) (current + save_interval_ms).

Definition leader_started (ok : bool) (n : Node) : Node :=
  mk_node (tso_obj n) (if ok then is_healty n else false) true.

Definition on_leader_stop (n : Node) : Node := mk_node (tso_obj n) (is_healty n) false.

(** ** Snapshots *)

Definition on_snapshot_save (n : Node) : bytes := to_string (last_save_physical (tso_obj n)).

Definition load_tso (extra : bytes) (n : Node) : Z * Node :=
  match stol extra with
  | Some v => (0, set_obj (mk_obj (current_timestamp (tso_obj n)) v) n)
  | None => (-1, n)
  end.

(** [file] is the content of [/tso.file], when the snapshot lists it. *)
Definition on_snapshot_load (file : option bytes) (n : Node) : Z * Node :=
  match file with
  | None => (0, n)
  | Some extra =>
      let '(ret, n) := load_tso extra n in
      if negb (ret =? 0) then (-1, n) else (0, n)
  end.
