(* ===== verification/TsoCluster.v ===== *)
(** * The replicas of the timestamp oracle together

    What the oracle relies on of the raft library: entries are committed in one
    sequence by the leader of the current term, which at its election may also
    commit any earlier proposals; each replica applies that sequence in order;
    [on_leader_start] runs when everything committed before has been applied;
    and a replica applies an entry of another leader only after its
    [on_leader_stop].  A run of the timer reads the state and proposes at once,
    and a leader waits for the answer of its last proposal.

    The steps cover what the code admits beside the orderly course: a request
    for any count other than 0, a round of [gen_tso] on a node that has been
    deposed since it took the request, operations a client sends through
    [process], a thread of [on_leader_start] that outlives the leadership, and
    restarts, after which the whole log is applied again.  Snapshots are left
    out, and the timer such a late thread leaves running.  [orderly] names the conditions on the events of a run under which the
    leaders never repeat a timestamp. *)

From S2P Require Import Prelude Stdio Tso.

Record Replica := mk_replica {
  node : Node;
  applied : nat;
  role : option nat;                       (** the term it leads, between start and stop *)
  started : bool;                          (** the thread of [on_leader_start] is done *)
  inflight : option (TsoRequest * bool);   (** its proposal, and whether it is committed *)
  sync_ok : bool                           (** the answer to its last proposal *)
}.

Record Issue := mk_issue { i_term : nat; i_start : TsoTimestamp; i_count : Z }.

(** What runs beside the leaders' proposals. *)
Record Threads := mk_threads {
  waiting : list (nat * Z);           (** requests for timestamps taken by a node *)
  orphans : list (nat * bool);        (** start threads on nodes deposed since, and the answer *)
  clients : list (nat * TsoRequest);  (** operations of clients given to raft in a term *)
  client_at : list nat;               (** their positions once committed *)
  stray : list Issue                  (** timestamps handed out by a node that does not lead,
                                          newest first; the term is the current one *)
}.

Record Cluster := mk_cluster {
  log : list (nat * TsoRequest);           (** committed entries and the committing term *)
  term : nat;
  raft_leader : nat;
  fresh : bool;                            (** the leader has not started yet *)
  replicas : nat -> Replica;
  proposed : list TsoRequest;
  issued : list Issue;                     (** handed out by a leader, newest first *)
  threads : Threads
}.

Definition init_replica : Replica := mk_replica init_node 0 None false None false.
Definition init_threads : Threads := mk_threads [] [] [] [] [].
Definition init_cluster : Cluster :=
  mk_cluster [] 0 0 false (fun _ => init_replica) [] [] init_threads.

Definition set_replica (i : nat) (r : Replica) (c : Cluster) : Cluster :=
  mk_cluster (log c) (term c) (raft_leader c) (fresh c)
    (fun j => if decide (j = i) then r else replicas c j) (proposed c) (issued c) (threads c).

Definition set_node (n : Node) (r : Replica) : Replica :=
  mk_replica n (applied r) (role r) (started r) (inflight r) (sync_ok r).

Definition set_threads (th : Threads) (c : Cluster) : Cluster :=
  mk_cluster (log c) (term c) (raft_leader c) (fresh c) (replicas c) (proposed c) (issued c) th.

Definition set_waiting (w : list (nat * Z)) (th : Threads) : Threads :=
  mk_threads w (orphans th) (clients th) (client_at th) (stray th).
Definition set_orphans (o : list (nat * bool)) (th : Threads) : Threads :=
  mk_threads (waiting th) o (clients th) (client_at th) (stray th).

Definition add_proposed (q : TsoRequest) (c : Cluster) : Cluster :=
  mk_cluster (log c) (term c) (raft_leader c) (fresh c) (replicas c) (q :: proposed c)
    (issued c) (threads c).

Definition propose (q : TsoRequest) (r : Replica) : Replica :=
  mk_replica (node r) (applied r) (role r) (started r) (Some (q, false)) (sync_ok r).

(** An applied entry answers the replica's own proposal. *)
Definition apply_entry (own : bool) (q : TsoRequest) (r : Replica) : Replica :=
  let '(e, n) := on_apply q (node r) in
  mk_replica n (S (applied r)) (role r) (started r)
    (if own then None else inflight r)
    (if own then bool_decide (e = Some SUCCESS) else sync_ok r).

(** The entry at the position of the replica is the one it proposed and waits
    for. *)
Definition own_entry (c : Cluster) (i t : nat) : bool :=
  bool_decide (role (replicas c i) = Some t) &&
  negb (bool_decide (applied (replicas c i) ∈ client_at (threads c))).

(** The node leads a term, says so and is healthy. *)
Definition leads (r : Replica) : option nat :=
  if is_leader (node r) && is_healty (node r) then role r else None.

(** Records what a node hands out. *)
Definition hand_out (i : nat) (ts : TsoTimestamp) (cnt : Z) (c : Cluster) : Cluster :=
  match leads (replicas c i) with
  | Some t => mk_cluster (log c) (term c) (raft_leader c) (fresh c) (replicas c) (proposed c)
                (mk_issue t ts cnt :: issued c) (threads c)
  | None => let th := threads c in
            set_threads (mk_threads (waiting th) (orphans th) (clients th) (client_at th)
                           (mk_issue (term c) ts cnt :: stray th)) c
  end.

(** The threads of a node that crashes are gone. *)
Definition crash_threads (i : nat) (th : Threads) : Threads :=
  set_waiting (filter (fun w => w.1 <> i) (waiting th))
    (set_orphans (filter (fun o => o.1 <> i) (orphans th)) th).

Inductive event :=
| Elect (i : nat) (extra : list TsoRequest)
| LeaderStart (now : Z)
| Commit
| CommitClient (k : nat)
| Apply (i : nat)
| Started (i : nat)
| Timer (i : nat) (now : Z)
| Accept (i : nat) (cnt : Z)         (** the checks before the rounds of [gen_tso] *)
| Round (k : nat)                    (** a successful round *)
| GiveUp (k : nat)
| Client (i : nat) (q : TsoRequest)  (** a reset or an update sent to [process] *)
| Stop (i : nat)
| LateStart (k : nat)                (** the end of a start thread after the stop *)
| Restart (i : nat).

Inductive step (c : Cluster) : event -> Cluster -> Prop :=
| step_elect i (extra : list TsoRequest) :
    Forall (fun q => q ∈ proposed c) extra ->
    step c (Elect i extra)
      (mk_cluster (log c ++ (pair (S (term c)) <$> extra)) (S (term c)) i true
         (replicas c) (proposed c) (issued c) (threads c))
| step_leader_start i now :
    raft_leader c = i -> fresh c = true -> role (replicas c i) = None ->
    applied (replicas c i) = length (log c) ->
    let q := on_leader_start now (node (replicas c i)) in
    let r := mk_replica (node (replicas c i)) (applied (replicas c i)) (Some (term c))
               false (Some (q, false)) false in
    step c (LeaderStart now)
      (mk_cluster (log c) (term c) i false
         (replicas (set_replica i r c)) (q :: proposed c) (issued c) (threads c))
| step_commit i q :
    raft_leader c = i -> role (replicas c i) = Some (term c) ->
    inflight (replicas c i) = Some (q, false) ->
    let r := replicas c i in
    let r := mk_replica (node r) (applied r) (role r) (started r) (Some (q, true)) (sync_ok r) in
    step c Commit
      (mk_cluster (log c ++ [(term c, q)]) (term c) i (fresh c)
         (replicas (set_replica i r c)) (proposed c) (issued c) (threads c))
| step_commit_client k q :
    clients (threads c) !! k = Some (term c, q) ->
    role (replicas c (raft_leader c)) = Some (term c) ->
    let th := threads c in
    step c (CommitClient k)
      (mk_cluster (log c ++ [(term c, q)]) (term c) (raft_leader c) (fresh c) (replicas c)
         (proposed c) (issued c)
         (mk_threads (waiting th) (orphans th) (delete k (clients th))
            (length (log c) :: client_at th) (stray th)))
| step_apply i t q :
    log c !! applied (replicas c i) = Some (t, q) ->
    role (replicas c i) = None \/ role (replicas c i) = Some t ->
    step c (Apply i) (set_replica i (apply_entry (own_entry c i t) q (replicas c i)) c)
| step_started i t :
    role (replicas c i) = Some t -> started (replicas c i) = false ->
    inflight (replicas c i) = None ->
    let r := replicas c i in
    step c (Started i)
      (set_replica i (mk_replica (leader_started (sync_ok r) (node r)) (applied r) (role r) true
                        None (sync_ok r)) c)
| step_timer i t now q :
    role (replicas c i) = Some t -> started (replicas c i) = true ->
    inflight (replicas c i) = None ->
    update_timestamp now (node (replicas c i)) = Some q ->
    step c (Timer i now) (add_proposed q (set_replica i (propose q (replicas c i)) c))
| step_accept i cnt :
    is_leader (node (replicas c i)) = true -> is_healty (node (replicas c i)) = true ->
    cnt <> 0 ->
    let th := threads c in
    step c (Accept i cnt) (set_threads (set_waiting ((i, cnt) :: waiting th) th) c)
| step_round k i cnt ts o :
    waiting (threads c) !! k = Some (i, cnt) ->
    gen_tso_try cnt (tso_obj (node (replicas c i))) = (Some ts, o) ->
    let r := replicas c i in
    let th := threads c in
    step c (Round k)
      (hand_out i ts cnt
         (set_threads (set_waiting (delete k (waiting th)) th)
            (set_replica i (set_node (set_obj o (node r)) r) c)))
| step_give_up k :
    let th := threads c in
    step c (GiveUp k) (set_threads (set_waiting (delete k (waiting th)) th) c)
| step_client i t q :
    is_leader (node (replicas c i)) = true -> role (replicas c i) = Some t ->
    let th := threads c in
    step c (Client i q)
      (add_proposed q
         (set_threads (mk_threads (waiting th) (orphans th) ((t, q) :: clients th)
                         (client_at th) (stray th)) c))
| step_stop i t :
    role (replicas c i) = Some t ->
    let r := replicas c i in
    let th := threads c in
    let ok := match inflight r with None => sync_ok r | Some _ => false end in
    step c (Stop i)
      (set_threads (if started r then th else set_orphans ((i, ok) :: orphans th) th)
         (set_replica i (mk_replica (on_leader_stop (node r)) (applied r) None false None false) c))
| step_late_start k i ok :
    orphans (threads c) !! k = Some (i, ok) ->
    let r := replicas c i in
    let th := threads c in
    step c (LateStart k)
      (set_threads (set_orphans (delete k (orphans th)) th)
         (set_replica i (set_node (leader_started ok (node r)) r) c))
| step_restart i :
    step c (Restart i)
      (set_threads (crash_threads i (threads c)) (set_replica i init_replica c)).

(** The clusters reached by events that meet a condition. *)
Inductive reachable (P : Cluster -> event -> Prop) : Cluster -> Prop :=
| reach_init : reachable P init_cluster
| reach_step c e c' : reachable P c -> P c e -> step c e c' -> reachable P c'.

(** ** The conditions on a run *)

(** A positive count whose sum with a logical part stays in 64 bits. *)
Definition count_ok (cnt : Z) : Prop := 0 < cnt /\ cnt + max_logical <= 2 ^ 63.

Definition counts_ok (e : event) : Prop :=
  match e with Accept _ cnt => count_ok cnt | _ => True end.

(** No client sends resets or updates. *)
Definition no_clients (e : event) : Prop :=
  match e with Client _ _ => False | _ => True end.

(** The thread of [on_leader_start] ends before [on_leader_stop]. *)
Definition start_ends (c : Cluster) (e : event) : Prop :=
  match e with Stop i => started (replicas c i) = true | _ => True end.

Definition orderly (c : Cluster) (e : event) : Prop :=
  counts_ok e /\ no_clients e /\ start_ends c e.

(** The timestamps an answer covers. *)
Definition timestamps (a : Issue) : list (Z * Z) :=
  (fun k => (physical (i_start a), logical (i_start a) + Z.of_nat k)) <$>
  seq 0 (Z.to_nat (i_count a)).


(** ** The committed sequence *)

Definition phys (n : Node) : Z := physical (current_timestamp (tso_obj n)).
Definition save (n : Node) : Z := last_save_physical (tso_obj n).
Definition req_phys (q : TsoRequest) : Z := physical (request_current q).

(** The state a replica reaches from a sequence of entries, up to the logical
    part. *)
Definition replay (l : list (nat * TsoRequest)) : Node :=
  foldl (fun n e => snd (on_apply e.2 n)) init_node l.
Definition save_at (l : list (nat * TsoRequest)) (k : nat) : Z := save (replay (take k l)).

(** The first [k] entries were committed in terms below [t]. *)
Definition low (l : list (nat * TsoRequest)) (t k : nat) : Prop :=
  (k <= length l)%nat /\ forall j e, (j < k)%nat -> l !! j = Some e -> (e.1 < t)%nat.

(** [x] is above every bound saved in terms below [t]. *)
Definition above (l : list (nat * TsoRequest)) (t : nat) (x : Z) : Prop :=
  forall k, low l t k -> save_at l k < x.

(** An answer ends before a timestamp. *)
Definition before (a : Issue) (ts : TsoTimestamp) : Prop :=
  physical (i_start a) < physical ts \/
  (physical (i_start a) = physical ts /\ logical (i_start a) + i_count a <= logical ts).

(** The proposals of a leader. *)
Definition sync_wf (q : TsoRequest) : Prop :=
  exists p s, q = sync_request (mk_ts p 0) s /\ p <= s.

Record replica_ok (l : list (nat * TsoRequest)) (tm : nat) (fr : bool) (iss : list Issue)
    (r : Replica) : Prop := {
  ro_applied : (applied r <= length l)%nat;
  ro_phys : phys (node r) = phys (replay (take (applied r) l));
  ro_save : save (node r) = save (replay (take (applied r) l));
  ro_logical : 0 <= logical (current_timestamp (tso_obj (node r))) < max_logical;
  ro_none : role r = None -> is_leader (node r) = false;
  ro_term t : role r = Some t ->
    (t <= tm)%nat /\ low l (S t) (applied r) /\ (t = tm -> fr = false);
  ro_inflight t q b : role r = Some t -> inflight r = Some (q, b) -> sync_wf q;
  ro_own t k q : role r = Some t -> (applied r <= k)%nat -> l !! k = Some (t, q) ->
    k = applied r /\ inflight r = Some (q, true);
  ro_current : role r = Some tm -> forall b,
    match inflight r with Some (_, b) => b | None => false end = b ->
    length l = (applied r + Nat.b2n b)%nat;
  ro_starting t : role r = Some t -> started r = false ->
    is_leader (node r) = false /\ Forall (fun a => i_term a <> t) iss /\
    (forall q b, inflight r = Some (q, b) -> above l t (req_phys q)) /\
    (inflight r = None -> sync_ok r = true -> above l t (phys (node r)));
  ro_leading t : role r = Some t -> started r = true ->
    (is_healty (node r) = true -> above l t (phys (node r))) /\
    (forall q b, inflight r = Some (q, b) -> phys (node r) < req_phys q) /\
    Forall (fun a => i_term a = t -> before a (current_timestamp (tso_obj (node r)))) iss
}.

Record cluster_ok (c : Cluster) : Prop := {
  co_log : Forall (fun e => sync_wf e.2) (log c);
  co_log_term : Forall (fun e => (e.1 <= term c)%nat) (log c);
  co_proposed : Forall sync_wf (proposed c);
  co_replica i : replica_ok (log c) (term c) (fresh c) (issued c) (replicas c i);
  co_unique i j t : role (replicas c i) = Some t -> role (replicas c j) = Some t -> i = j;
  co_terms : Forall (fun a => (i_term a <= term c)%nat) (issued c);
  co_fresh : fresh c = true -> Forall (fun a => (i_term a < term c)%nat) (issued c);
  co_low : Forall (fun a => exists k, low (log c) (S (i_term a)) k /\
                            physical (i_start a) <= save_at (log c) k) (issued c);
  co_above : Forall (fun a => above (log c) (i_term a) (physical (i_start a))) (issued c);
  co_order : ForallOrdPairs
    (fun late early => i_term early = i_term late -> before early (i_start late)) (issued c);
  co_waiting : Forall (fun w => count_ok w.2) (waiting (threads c));
  co_orphans : orphans (threads c) = [];
  co_clients : clients (threads c) = [] /\ client_at (threads c) = []
}.

Lemma on_apply_sync p s n :
  on_apply (sync_request (mk_ts p 0) s) n =
  if (s <? save n) || (p <? phys n) then (Some INTERNAL_ERROR, n)
  else (Some SUCCESS, set_obj (mk_obj (mk_ts p 0) s) n).
Proof.
  unfold on_apply, update_tso, time_fallback, save, phys. simpl. by destruct orb.
Qed.

(** Cases on whether an entry is accepted. *)
Lemma on_apply_cases q n :
  sync_wf q ->
  (on_apply q n = (Some INTERNAL_ERROR, n) /\ (req_phys q < phys n \/ request_save q < save n)) \/
  (exists o, on_apply q n = (Some SUCCESS, set_obj o n) /\
    current_timestamp o = mk_ts (req_phys q) 0 /\ last_save_physical o = request_save q /\
    phys n <= req_phys q <= request_save q /\ save n <= request_save q).
Proof.
  intros (p & s & -> & Hps). rewrite on_apply_sync. cbn.
  destruct (Z.ltb_spec s (save n)), (Z.ltb_spec p (phys n)); simpl; [left; eauto..|].
  right. eexists. split; [done|]. simpl. repeat split; lia.
Qed.

Lemma on_apply_congr q n n' :
  sync_wf q -> phys n = phys n' -> save n = save n' ->
  phys (on_apply q n).2 = phys (on_apply q n').2 /\
  save (on_apply q n).2 = save (on_apply q n').2.
Proof.
  intros (p & s & -> & _) Hp Hs. rewrite !on_apply_sync, Hp, Hs. by destruct orb.
Qed.

Lemma on_apply_flags q n :
  sync_wf q -> is_healty (on_apply q n).2 = is_healty n /\
               is_leader (on_apply q n).2 = is_leader n.
Proof. intros (p & s & -> & _). rewrite on_apply_sync. by destruct orb. Qed.

Lemma on_apply_logical q n :
  sync_wf q -> 0 <= logical (current_timestamp (tso_obj n)) < max_logical ->
  0 <= logical (current_timestamp (tso_obj (on_apply q n).2)) < max_logical.
Proof. intros (p & s & -> & _). rewrite on_apply_sync. by destruct orb. Qed.

Lemma replay_snoc l e : replay (l ++ [e]) = (on_apply e.2 (replay l)).2.
Proof. unfold replay. by rewrite foldl_app. Qed.

Lemma replay_take_S l k e :
  l !! k = Some e -> replay (take (S k) l) = (on_apply e.2 (replay (take k l))).2.
Proof. intros He. by rewrite (take_S_r _ _ _ He), replay_snoc. Qed.

Lemma save_at_mono l k k' :
  Forall (fun e => sync_wf e.2) l -> (k <= k')%nat -> save_at l k <= save_at l k'.
Proof.
  intros Hl. induction 1 as [|k' _ IH]; [done|]. etrans; [done|]. unfold save_at.
  destruct (l !! k') as [e|] eqn:E.
  - rewrite (replay_take_S _ _ _ E).
    destruct (on_apply_cases e.2 (replay (take k' l))) as [[-> _]|(o & -> & _ & Ho & _ & ?)].
    + exact (Forall_lookup_1 _ _ _ _ Hl E).
    + done.
    + unfold save at 2. simpl. rewrite Ho. done.
  - apply lookup_ge_None in E. by rewrite !take_ge by lia.
Qed.

Lemma replay_bounded l :
  Forall (fun e => sync_wf e.2) l -> phys (replay l) <= save (replay l).
Proof.
  induction l as [|e l IH] using rev_ind; intros Hl; [done|].
  apply Forall_app in Hl as [Hl He]. rewrite replay_snoc.
  destruct (on_apply_cases e.2 (replay l)) as [[-> _]|(o & -> & Hc & Ho & ? & _)].
  - by inversion He.
  - auto.
  - unfold phys, save. simpl. rewrite Hc, Ho. simpl. lia.
Qed.

Lemma save_at_app l l' k : (k <= length l)%nat -> save_at (l ++ l') k = save_at l k.
Proof. intros. unfold save_at. by rewrite take_app_le. Qed.

Lemma replay_take_app l l' k :
  (k <= length l)%nat -> replay (take k (l ++ l')) = replay (take k l).
Proof. intros. by rewrite take_app_le. Qed.

(** ** Growing the sequence *)

Lemma low_app l l' t k : low l t k -> low (l ++ l') t k.
Proof.
  intros [Hk Hl]. split; [rewrite length_app; lia|].
  intros j e Hj He. rewrite lookup_app_l in He by lia. eauto.
Qed.

Lemma low_app_inv l l' t k :
  Forall (fun e : nat * TsoRequest => (t <= e.1)%nat) l' -> low (l ++ l') t k -> low l t k.
Proof.
  intros Hl' [Hk Hl]. assert (Hkl : (k <= length l)%nat).
  { destruct (decide (k <= length l)%nat) as [|Hn]; [done|].
    destruct (lookup_lt_is_Some_2 (l ++ l') (length l)) as [e He]; [lia|].
    assert (Ht : (e.1 < t)%nat) by (apply (Hl (length l)); [lia|done]).
    rewrite lookup_app_r in He by lia.
    pose proof (Forall_lookup_1 _ _ _ _ Hl' He). simpl in *. lia. }
  split; [done|]. intros j e Hj He. apply (Hl j); [done|]. by rewrite lookup_app_l by lia.
Qed.

Lemma above_app l l' t x :
  Forall (fun e : nat * TsoRequest => (t <= e.1)%nat) l' -> above l t x -> above (l ++ l') t x.
Proof.
  intros Hl' Ha k Hk. apply low_app_inv in Hk; [|done].
  rewrite save_at_app by apply Hk. by apply Ha.
Qed.

Lemma above_le l t x y : above l t x -> x <= y -> above l t y.
Proof. intros Ha Hxy k Hk. pose proof (Ha k Hk). lia. Qed.

(** Entries of a later leader leave a replica's invariant alone. *)
Lemma replica_ok_extend l l' tm tm' fr fr' iss r :
  replica_ok l tm fr iss r -> (tm <= tm')%nat ->
  Forall (fun e : nat * TsoRequest => e.1 = tm') l' ->
  (forall t, role r = Some t -> (t < tm')%nat) ->
  replica_ok (l ++ l') tm' fr' iss r.
Proof.
  intros [] Htm Hl' Hrole.
  assert (Hge : forall t, role r = Some t ->
            Forall (fun e : nat * TsoRequest => (t <= e.1)%nat) l').
  { intros t Ht. eapply Forall_impl; [exact Hl'|]. simpl. intros e ->.
    specialize (Hrole t Ht). lia. }
  split; rewrite ?replay_take_app by done; try done.
  - rewrite length_app. lia.
  - intros t Ht. specialize (Hrole t Ht). destruct (ro_term0 t Ht) as (? & ? & _).
    split_and!; [lia|by apply low_app|lia].
  - intros t k q Ht Hk Hq. apply lookup_app_Some in Hq as [Hq|[? Hq]]; [eauto|].
    pose proof (Forall_lookup_1 _ _ _ _ Hl' Hq) as He. simpl in He.
    specialize (Hrole t Ht). lia.
  - intros Ht. specialize (Hrole tm' Ht). lia.
  - intros t Ht Hs. destruct (ro_starting0 t Ht Hs) as (? & ? & Hq & Hok).
    split_and!; [done..| |]; intros; apply above_app; eauto.
  - intros t Ht Hs. destruct (ro_leading0 t Ht Hs) as (Hh & ? & ?).
    split_and!; [|done..]. intros; apply above_app; eauto.
Qed.

Lemma issues_extend l l' tm iss :
  Forall (fun e : nat * TsoRequest => (tm <= e.1)%nat) l' ->
  Forall (fun a => (i_term a <= tm)%nat) iss ->
  Forall (fun a => exists k, low l (S (i_term a)) k /\ physical (i_start a) <= save_at l k) iss ->
  Forall (fun a => above l (i_term a) (physical (i_start a))) iss ->
  Forall (fun a => exists k, low (l ++ l') (S (i_term a)) k /\
                   physical (i_start a) <= save_at (l ++ l') k) iss /\
  Forall (fun a => above (l ++ l') (i_term a) (physical (i_start a))) iss.
Proof.
  rewrite !Forall_forall. intros Hl' Htm Hlow Hab. split; intros a Ha.
  - destruct (Hlow a Ha) as (k & Hk & Hp). exists k. split; [by apply low_app|].
    rewrite save_at_app by apply Hk. done.
  - apply above_app; [|by apply Hab]. apply Forall_forall. intros e He.
    specialize (Htm a Ha). specialize (Hl' e He). lia.
Qed.

(** ** What a leader proposes *)

Lemma on_leader_start_wf now n :
  sync_wf (on_leader_start now n) /\ save n < req_phys (on_leader_start now n).
Proof.
  unfold on_leader_start, save. destruct (Z.ltb_spec now (last_save_physical (tso_obj n) +
    update_timestamp_guard_ms)); cbn in *;
    (split; [eexists _, _; split; [done|unfold save_interval_ms; lia]|
             unfold update_timestamp_guard_ms in *; lia]).
Qed.

Lemma update_timestamp_wf now n q :
  update_timestamp now n = Some q -> sync_wf q /\ phys n < req_phys q.
Proof.
  unfold update_timestamp, phys, update_timestamp_guard_ms, save_interval_ms.
  destruct (is_leader n); [|done]. simpl.
  set (p := physical _). set (s := last_save_physical _).
  destruct (Z.ltb_spec 1 (now - p)); [|destruct (_ <? _); [|done]]; simpl; intros [= <-];
    cbn; (split; [eexists _, _; split; [done|]; case_match eqn:E;
                  [|apply Z.leb_gt in E]; lia|lia]).
Qed.

Lemma gen_tso_try_ok cnt o ts o' :
  0 <= logical (current_timestamp o) < max_logical -> count_ok cnt ->
  gen_tso_try cnt o = (Some ts, o') ->
  ts = current_timestamp o /\
  o' = mk_obj (mk_ts (physical ts) (logical ts + cnt)) (last_save_physical o) /\
  logical ts + cnt < max_logical.
Proof.
  unfold gen_tso_try, count_ok. change max_logical with 262144. intros Hl Hc.
  rewrite swrap_id by (unfold is_i; lia).
  destruct (_ =? 0); [done|]. simpl.
  destruct (Z.ltb_spec (logical (current_timestamp o) + cnt) 262144); [|done].
  intros [= <- <-]. done.
Qed.

(** ** Each step keeps the invariant *)

Lemma set_replica_cases (P : nat -> Replica -> Prop) i r c :
  P i r -> (forall j, j <> i -> P j (replicas c j)) ->
  forall j, P j (replicas (set_replica i r c) j).
Proof. intros Hi Hne j. simpl. destruct (decide (j = i)) as [->|]; auto. Qed.

(** The roles stay, except that of [i], which may be given up. *)
Lemma unique_keep i r c :
  (forall t, role r = Some t -> role (replicas c i) = Some t) ->
  (forall i j t, role (replicas c i) = Some t -> role (replicas c j) = Some t -> i = j) ->
  forall j k t, role (replicas (set_replica i r c) j) = Some t ->
    role (replicas (set_replica i r c) k) = Some t -> j = k.
Proof.
  intros Hr Hu j k t. simpl.
  destruct (decide (j = i)) as [->|], (decide (k = i)) as [->|]; eauto.
Qed.

Lemma elect_ok c i extra :
  cluster_ok c -> Forall (fun q => q ∈ proposed c) extra ->
  cluster_ok (mk_cluster (log c ++ (pair (S (term c)) <$> extra)) (S (term c)) i true
                (replicas c) (proposed c) (issued c) (threads c)).
Proof.
  intros [] Hx.
  assert (Hex : Forall (fun e : nat * TsoRequest => e.1 = S (term c))
                       (pair (S (term c)) <$> extra)).
  { apply Forall_fmap, Forall_forall. done. }
  destruct (issues_extend (log c) (pair (S (term c)) <$> extra) (term c) (issued c)) as [? ?];
    try done.
  { eapply Forall_impl; [exact Hex|]. simpl. lia. }
  split; simpl; try done.
  - apply Forall_app. split; [done|]. apply Forall_fmap. eapply Forall_impl; [exact Hx|].
    simpl. intros q Hq. by eapply Forall_forall in Hq; [|exact co_proposed0].
  - apply Forall_app. split.
    + eapply Forall_impl; [exact co_log_term0|]. simpl. lia.
    + eapply Forall_impl; [exact Hex|]. simpl. lia.
  - intros j. eapply replica_ok_extend; [by apply co_replica0|lia|done|].
    intros t Ht. apply (ro_term _ _ _ _ _ (co_replica0 j)) in Ht. lia.
  - eapply Forall_impl; [exact co_terms0|]. simpl. lia.
  - intros _. eapply Forall_impl; [exact co_terms0|]. simpl. lia.
Qed.

Lemma leader_start_ok c i now :
  cluster_ok c -> fresh c = true -> role (replicas c i) = None ->
  applied (replicas c i) = length (log c) ->
  let q := on_leader_start now (node (replicas c i)) in
  let r := mk_replica (node (replicas c i)) (applied (replicas c i)) (Some (term c))
             false (Some (q, false)) false in
  cluster_ok (mk_cluster (log c) (term c) i false
                (replicas (set_replica i r c)) (q :: proposed c) (issued c) (threads c)).
Proof.
  intros [] Hf Hrole Happ q r.
  destruct (on_leader_start_wf now (node (replicas c i))) as [Hwf Hgt].
  assert (Hother : forall j t, role (replicas c j) = Some t -> (t < term c)%nat).
  { intros j t Ht. apply (ro_term _ _ _ _ _ (co_replica0 j)) in Ht as (? & _ & Hne).
    destruct (decide (t = term c)); [|lia]. rewrite Hne in Hf; done. }
  split; try done.
  - by constructor.
  - apply (set_replica_cases (fun _ => replica_ok _ _ _ _)).
    + destruct (co_replica0 i). split; simpl; try done.
      * intros t [= <-]. split_and!; [lia| |done]. split; [lia|].
        intros j e Hj He. pose proof (Forall_lookup_1 _ _ _ _ co_log_term0 He). simpl in *. lia.
      * by intros t q' b _ [= <- <-].
      * intros t k q' _ Hk Hq. apply lookup_lt_Some in Hq. lia.
      * intros _ b <-. simpl. lia.
      * intros t [= <-] _. split_and!; [by apply ro_none0| | |done].
        -- eapply Forall_impl; [by apply co_fresh0|]. simpl. lia.
        -- intros q' b [= <- <-] k [Hk _].
           eapply Z.le_lt_trans; [|exact Hgt]. rewrite ro_save0.
           apply save_at_mono; [done|lia].
    + intros j _. destruct (co_replica0 j). split; try done.
      intros t Ht. destruct (ro_term0 t Ht) as (? & ? & _). auto.
  - intros j k t. simpl. destruct (decide (j = i)) as [->|], (decide (k = i)) as [->|]; simpl.
    + done.
    + intros [= <-] Hk%Hother. lia.
    + intros Hk%Hother [= <-]. lia.
    + apply co_unique0.
Qed.

(** Steps that change one replica only. *)
Lemma set_replica_ok c i r :
  cluster_ok c -> replica_ok (log c) (term c) (fresh c) (issued c) r ->
  (forall t, role r = Some t -> role (replicas c i) = Some t) ->
  cluster_ok (set_replica i r c).
Proof.
  intros [] Hr Hrole. split; try done.
  - by apply (set_replica_cases (fun _ => replica_ok _ _ _ _)).
  - by apply unique_keep.
Qed.

Lemma commit_ok c i q :
  cluster_ok c -> role (replicas c i) = Some (term c) ->
  inflight (replicas c i) = Some (q, false) ->
  let r := replicas c i in
  let r := mk_replica (node r) (applied r) (role r) (started r) (Some (q, true)) (sync_ok r) in
  cluster_ok (mk_cluster (log c ++ [(term c, q)]) (term c) i (fresh c)
                (replicas (set_replica i r c)) (proposed c) (issued c) (threads c)).
Proof.
  intros [] Hrole Hfl r0 r. subst r0 r.
  pose proof (co_replica0 i) as [].
  pose proof (ro_inflight0 _ _ _ Hrole Hfl) as Hwf.
  assert (Hlen : length (log c) = applied (replicas c i)).
  { specialize (ro_current0 Hrole false). rewrite Hfl in ro_current0. simpl in *.
    rewrite ro_current0 by done. lia. }
  assert (Hl' : Forall (fun e : nat * TsoRequest => e.1 = term c) [(term c, q)]) by (by constructor).
  assert (Hge : forall t, (t <= term c)%nat ->
            Forall (fun e : nat * TsoRequest => (t <= e.1)%nat) [(term c, q)]) by (by constructor).
  destruct (issues_extend (log c) [(term c, q)] (term c) (issued c)) as [? ?]; try done.
  { by apply Hge. }
  split; simpl; try done.
  - apply Forall_app. split; [done|]. by constructor.
  - apply Forall_app. split; [done|]. by constructor.
  - apply (set_replica_cases (fun _ => replica_ok _ _ _ _)).
    + split; simpl; rewrite ?replay_take_app by done; try done.
      * rewrite length_app. lia.
      * intros t Ht. destruct (ro_term0 t Ht) as (? & ? & ?).
        split_and!; [lia|by apply low_app|done].
      * by intros t q' b _ [= <- <-].
      * intros t k q' Ht Hk Hq. rewrite Hrole in Ht. injection Ht as <-.
        apply lookup_app_Some in Hq as [Hq|[Hge' Hq]].
        -- apply lookup_lt_Some in Hq. lia.
        -- apply list_lookup_singleton_Some in Hq as [? [= <-]]. split; [lia|done].
      * intros _ b <-. rewrite length_app. simpl. lia.
      * intros t Ht Hs. destruct (ro_starting0 t Ht Hs) as (? & ? & Hq & _).
        destruct (ro_term0 t Ht) as [? _].
        split_and!; [done..| |done]. intros q' b [= <- <-]. apply above_app; eauto.
      * intros t Ht Hs. destruct (ro_leading0 t Ht Hs) as (Hh & Hq & ?).
        destruct (ro_term0 t Ht) as [? _].
        split_and!; [|by intros q' b [= <- <-]; eauto|done].
        intros. apply above_app; eauto.
    + intros j Hj. eapply replica_ok_extend; [by apply co_replica0|lia|done|].
      intros t Ht. pose proof (ro_term _ _ _ _ _ (co_replica0 j) t Ht) as [? _].
      destruct (decide (t = term c)) as [->|]; [|lia]. by destruct Hj; eauto.
  - apply unique_keep; done.
Qed.

Lemma apply_ok c i t q :
  cluster_ok c -> log c !! applied (replicas c i) = Some (t, q) ->
  role (replicas c i) = None \/ role (replicas c i) = Some t ->
  replica_ok (log c) (term c) (fresh c) (issued c)
    (apply_entry (own_entry c i t) q (replicas c i)).
Proof.
  intros [] Hq Hrole. pose proof (co_replica0 i) as [].
  unfold own_entry. rewrite (proj2 co_clients0), (bool_decide_false (_ ∈ [])) by apply not_elem_of_nil.
  rewrite andb_true_r.
  pose proof (Forall_lookup_1 _ _ _ _ co_log0 Hq) as Hwf. simpl in Hwf.
  destruct (on_apply_congr q (node (replicas c i)) _ Hwf ro_phys0 ro_save0) as [Hp Hs].
  destruct (on_apply_flags q (node (replicas c i)) Hwf) as [Hh Hl].
  pose proof (on_apply_logical q (node (replicas c i)) Hwf ro_logical0) as Hlog.
  pose proof (on_apply_cases q (node (replicas c i)) Hwf) as Hcases.
  unfold apply_entry. destruct (on_apply q (node (replicas c i))) as [e n]. simpl in *.
  pose proof (lookup_lt_Some _ _ _ Hq) as Hlt.
  split; simpl; rewrite ?(replay_take_S _ _ _ Hq); simpl; try done.
  - intros Hr. rewrite Hl. auto.
  - intros t' Ht'. destruct Hrole as [Hr|Hr]; [congruence|].
    rewrite Hr in Ht'. injection Ht' as <-. destruct (ro_term0 t Hr) as (? & [? Hlow] & ?).
    split_and!; [done| |done]. split; [lia|]. intros j x Hj Hx.
    destruct (decide (j = applied (replicas c i))) as [->|].
    + rewrite Hq in Hx. injection Hx as <-. simpl. lia.
    + eapply Hlow; [|done]. lia.
  - intros t' q' b Ht'. destruct Hrole as [Hr|Hr]; [congruence|]. by rewrite bool_decide_true by done.
  - intros t' k q' Ht' Hk Hq'. destruct Hrole as [Hr|Hr]; [congruence|].
    rewrite Hr in Ht'. injection Ht' as <-.
    destruct (ro_own0 _ _ _ Hr (Nat.le_trans _ _ _ (Nat.le_succ_diag_r _) Hk) Hq') as [-> _]. lia.
  - intros Htm b. destruct Hrole as [Hr|Hr]; [congruence|].
    rewrite bool_decide_true by done. intros <-. simpl.
    destruct (ro_own0 _ _ _ Hr (Nat.le_refl _) Hq) as [_ Hfl].
    specialize (ro_current0 Htm true). rewrite Hfl in ro_current0. simpl in *.
    specialize (ro_current0 eq_refl). lia.
  - intros t' Ht' Hst. destruct Hrole as [Hr|Hr]; [congruence|].
    rewrite Hr in Ht'. injection Ht' as <-. rewrite bool_decide_true by done.
    destruct (ro_own0 _ _ _ Hr (Nat.le_refl _) Hq) as [_ Hfl].
    destruct (ro_starting0 t Hr Hst) as (? & ? & Hab & _).
    split_and!; [congruence|done|done|]. intros _ ->%bool_decide_eq_true.
    destruct Hcases as [[[=] _]|(o & [= ->] & Ho & _)].
    unfold phys. simpl. rewrite Ho. by eapply Hab.
  - intros t' Ht' Hst. destruct Hrole as [Hr|Hr]; [congruence|].
    rewrite Hr in Ht'. injection Ht' as <-. rewrite bool_decide_true by done.
    destruct (ro_own0 _ _ _ Hr (Nat.le_refl _) Hq) as [_ Hfl].
    destruct (ro_leading0 t Hr Hst) as (Hab & Hnext & Hbef). specialize (Hnext _ _ Hfl).
    rewrite Hh. destruct Hcases as [[[= -> ->] _]|(o & [= -> ->] & Ho & _)]; [done|].
    split_and!; [|done|].
    + intros Hy. eapply above_le; [by apply Hab|]. unfold phys at 2. simpl. rewrite Ho. simpl. lia.
    + eapply Forall_impl; [exact Hbef|]. simpl. intros a Ha Hat. left. rewrite Ho. simpl.
      destruct (Ha Hat) as [?|[? _]]; unfold phys in *; lia.
Qed.

Lemma started_ok c i t :
  cluster_ok c -> role (replicas c i) = Some t -> started (replicas c i) = false ->
  inflight (replicas c i) = None ->
  let r := replicas c i in
  replica_ok (log c) (term c) (fresh c) (issued c)
    (mk_replica (leader_started (sync_ok r) (node r)) (applied r) (role r) true None (sync_ok r)).
Proof.
  intros [] Hrole Hst Hfl r. subst r. destruct (co_replica0 i).
  destruct (ro_starting0 t Hrole Hst) as (_ & Hno & _ & Hab).
  split; simpl; try done.
  - congruence.
  - intros t' k q Ht Hk Hq. destruct (ro_own0 _ _ _ Ht Hk Hq). congruence.
  - intros Htm b <-. specialize (ro_current0 Htm false). rewrite Hfl in ro_current0. auto.
  - intros t' Ht _. rewrite Hrole in Ht. injection Ht as <-. split_and!.
    + destruct (sync_ok (replicas c i)); [|done]. intros _. by apply Hab.
    + done.
    + eapply Forall_impl; [exact Hno|]. done.
Qed.

Lemma timer_ok c i t now q :
  cluster_ok c -> role (replicas c i) = Some t -> started (replicas c i) = true ->
  inflight (replicas c i) = None ->
  update_timestamp now (node (replicas c i)) = Some q ->
  replica_ok (log c) (term c) (fresh c) (issued c) (propose q (replicas c i)).
Proof.
  intros [] Hrole Hst Hfl Hq. destruct (co_replica0 i).
  apply update_timestamp_wf in Hq as [Hwf Hgt].
  split; simpl; try done.
  - by intros t' q' b _ [= <- <-].
  - intros t' k q' Ht Hk Hq'. destruct (ro_own0 _ _ _ Ht Hk Hq'). congruence.
  - intros Htm b <-. specialize (ro_current0 Htm false). rewrite Hfl in ro_current0. auto.
  - congruence.
  - intros t' Ht _. destruct (ro_leading0 t' Ht Hst) as (? & _ & ?).
    split_and!; [done| |done]. by intros q' b [= <- <-].
Qed.

Lemma stop_ok c i t :
  cluster_ok c -> role (replicas c i) = Some t ->
  let r := replicas c i in
  replica_ok (log c) (term c) (fresh c) (issued c)
    (mk_replica (on_leader_stop (node r)) (applied r) None false None false).
Proof. intros [] _ r. subst r. destruct (co_replica0 i). by split. Qed.

(** Handing out timestamps keeps a replica's invariant. *)
Lemma replica_ok_gen l tm fr iss r cnt ts o :
  replica_ok l tm fr iss r -> count_ok cnt ->
  gen_tso_try cnt (tso_obj (node r)) = (Some ts, o) ->
  replica_ok l tm fr iss (set_node (set_obj o (node r)) r).
Proof.
  intros [] Hc Hgen. apply gen_tso_try_ok in Hgen as (-> & -> & Hmax); [|done..].
  unfold count_ok in Hc. split; simpl; try done; [lia|].
  intros t Ht Hst. destruct (ro_leading0 t Ht Hst) as (Hab & Hnext & Hbef).
  split_and!; [done..|]. eapply Forall_impl; [exact Hbef|]. simpl. intros a Ha Hat.
  destruct (Ha Hat) as [?|[? ?]]; [by left|right]. simpl. lia.
Qed.

(** Handing out timestamps as the leader of a term. *)
Lemma gen_ok c i t cnt ts o :
  cluster_ok c -> role (replicas c i) = Some t ->
  is_leader (node (replicas c i)) = true -> is_healty (node (replicas c i)) = true ->
  count_ok cnt -> gen_tso_try cnt (tso_obj (node (replicas c i))) = (Some ts, o) ->
  let r := replicas c i in
  let c' := set_replica i (set_node (set_obj o (node r)) r) c in
  cluster_ok (mk_cluster (log c') (term c') (raft_leader c') (fresh c') (replicas c')
                (proposed c') (mk_issue t ts cnt :: issued c') (threads c')).
Proof.
  intros [] Hrole Hlead Hh Hc Hgen r c'. subst r c'. pose proof (co_replica0 i) as [].
  apply gen_tso_try_ok in Hgen as (-> & -> & Hmax); [|done..].
  destruct (started (replicas c i)) eqn:Hst;
    [|by destruct (ro_starting0 t Hrole eq_refl) as [? _]; congruence].
  destruct (ro_leading0 t Hrole eq_refl) as (Hab & Hnext & Hbef).
  destruct (ro_term0 t Hrole) as (Htm & Hlow & Hfr).
  unfold count_ok in Hc. set (cur := current_timestamp _) in *.
  split; simpl; try done.
  - apply (set_replica_cases (fun _ => replica_ok _ _ _ _)).
    + split; simpl; rewrite ?Hst; try done; [lia|].
      intros t' Ht _. rewrite Hrole in Ht. injection Ht as <-.
      split_and!; [done..|]. constructor.
      * intros _. right. simpl. lia.
      * eapply Forall_impl; [exact Hbef|]. simpl. intros a Ha Hat.
        destruct (Ha Hat) as [?|[? ?]]; [by left|right]. simpl. lia.
    + intros j Hj. pose proof (co_replica0 j) as []. split; try done.
      * intros t' Ht Hs. destruct (ro_starting1 t' Ht Hs) as (? & ? & ? & ?).
        split_and!; try done. constructor; [|done]. simpl. intros ->. by destruct Hj; eauto.
      * intros t' Ht Hs. destruct (ro_leading1 t' Ht Hs) as (? & ? & ?).
        split_and!; try done. constructor; [|done]. simpl. intros ->. by destruct Hj; eauto.
  - by apply unique_keep.
  - by constructor.
  - intros Hf. constructor; [|by apply co_fresh0]. simpl.
    destruct (decide (t = term c)); [|lia]. rewrite Hfr in Hf; done.
  - constructor; [|done]. exists (applied (replicas c i)). simpl. split; [done|].
    unfold save_at. change (physical cur) with (phys (node (replicas c i))).
    rewrite ro_phys0. apply replay_bounded. by apply Forall_take.
  - constructor; [|done]. by apply Hab.
  - constructor; [|done]. eapply Forall_impl; [exact Hbef|]. done.
Qed.

(** The threads may change as long as they stay orderly. *)
Lemma set_threads_ok c th :
  cluster_ok c -> Forall (fun w => count_ok w.2) (waiting th) -> orphans th = [] ->
  clients th = [] /\ client_at th = [] -> cluster_ok (set_threads th c).
Proof. intros [] ???. by split. Qed.

Lemma Forall_delete {A} (P : A -> Prop) k l : Forall P l -> Forall P (delete k l).
Proof.
  intros Hl. rewrite delete_take_drop. apply Forall_app. split; [by apply Forall_take|by apply Forall_drop].
Qed.

Lemma round_ok c k i cnt ts o :
  cluster_ok c -> waiting (threads c) !! k = Some (i, cnt) ->
  gen_tso_try cnt (tso_obj (node (replicas c i))) = (Some ts, o) ->
  let r := replicas c i in
  let th := threads c in
  cluster_ok (hand_out i ts cnt
    (set_threads (set_waiting (delete k (waiting th)) th)
       (set_replica i (set_node (set_obj o (node r)) r) c))).
Proof.
  intros Hc Hw Hgen r th. subst r th.
  pose proof (Forall_lookup_1 _ _ _ _ (co_waiting c Hc) Hw) as Hcnt. simpl in Hcnt.
  assert (Hth : Forall (fun w => count_ok w.2) (delete k (waiting (threads c))))
    by apply Forall_delete, Hc.
  unfold hand_out, leads. simpl. rewrite decide_True by done. simpl.
  destruct (role (replicas c i)) as [t|] eqn:Hrole,
    (is_leader (node (replicas c i))) eqn:Hl, (is_healty (node (replicas c i))) eqn:Hh; simpl.
  1: apply (set_threads_ok _ (set_waiting (delete k (waiting (threads c))) (threads c))
              (gen_ok c i t cnt ts o Hc Hrole Hl Hh Hcnt Hgen) Hth); apply Hc.
  all: apply set_threads_ok; [|done|apply Hc..].
  all: apply set_threads_ok; [|done|apply Hc..].
  all: apply set_replica_ok; [done| |done].
  all: apply (replica_ok_gen _ _ _ _ _ cnt ts); [apply Hc|done|done].
Qed.

Lemma restart_ok c i :
  cluster_ok c -> cluster_ok (set_threads (crash_threads i (threads c)) (set_replica i init_replica c)).
Proof.
  intros Hc. apply set_threads_ok; simpl; [| | |apply Hc].
  - apply set_replica_ok; [done| |done]. split; simpl; try done; lia.
  - apply Forall_forall. intros w [_ Hw]%list_elem_of_filter.
    by eapply Forall_forall in Hw; [|exact (co_waiting c Hc)].
  - by rewrite (co_orphans c Hc).
Qed.

Lemma step_ok c e c' : cluster_ok c -> orderly c e -> step c e c' -> cluster_ok c'.
Proof.
  intros Hc (Hcnt & Hcl & Hst) Hs. destruct Hs; simpl in *.
  - by apply elect_ok.
  - subst i. by apply leader_start_ok.
  - subst i. by apply commit_ok.
  - by rewrite (proj1 (co_clients c Hc)) in *.
  - apply set_replica_ok; [done|by apply apply_ok|].
    intros t'. unfold apply_entry. by destruct on_apply.
  - apply set_replica_ok; [done|by eapply started_ok|done].
  - assert (Hok : cluster_ok (set_replica i (propose q (replicas c i)) c))
      by (apply set_replica_ok; [done|by eapply timer_ok|done]).
    match goal with H : update_timestamp _ _ = _ |- _ => apply update_timestamp_wf in H as [? _] end.
    destruct Hok. split; try done. by constructor.
  - apply set_threads_ok; [done| |apply Hc..]. simpl. constructor; [done|apply Hc].
  - by apply round_ok.
  - apply set_threads_ok; [done| |apply Hc..]. simpl. apply Forall_delete, Hc.
  - done.
  - subst r th. rewrite Hst. apply set_threads_ok; [|apply Hc..].
    apply set_replica_ok; [done|by eapply stop_ok|done].
  - by rewrite (co_orphans c Hc) in *.
  - by apply restart_ok.
Qed.

Lemma init_cluster_ok : cluster_ok init_cluster.
Proof.
  split; simpl; try done; by constructor.
Qed.

Lemma reachable_ok c : reachable orderly c -> cluster_ok c.
Proof. induction 1; [apply init_cluster_ok|by eapply step_ok]. Qed.

(** ** What the oracle promises *)

(** How an answer relates to an earlier one. *)
Definition follows (late early : Issue) : Prop :=
  ((i_term early < i_term late)%nat -> physical (i_start early) < physical (i_start late)) /\
  ((i_term late < i_term early)%nat -> physical (i_start late) < physical (i_start early)) /\
  (i_term early = i_term late -> before early (i_start late)).

Lemma terms_ordered c a b :
  cluster_ok c -> a ∈ issued c -> b ∈ issued c -> (i_term a < i_term b)%nat ->
  physical (i_start a) < physical (i_start b).
Proof.
  intros [] Ha Hb Hab.
  pose proof (proj1 (Forall_forall _ _) co_low0 a Ha) as (k & [Hk Hlow] & Hp).
  pose proof (proj1 (Forall_forall _ _) co_above0 b Hb k) as Hb'. simpl in *.
  eapply Z.le_lt_trans; [exact Hp|]. apply Hb'. split; [done|].
  intros j e Hj He. specialize (Hlow j e Hj He). lia.
Qed.

Lemma FOP_strengthen {A} (R S : A -> A -> Prop) (l : list A) :
  (forall x y, x ∈ l -> y ∈ l -> R x y -> S x y) ->
  ForallOrdPairs R l -> ForallOrdPairs S l.
Proof.
  intros H Hl. induction Hl as [|x l Hx Hl IH]; constructor.
  - rewrite Forall_forall in *. intros y Hy. apply H; [by left|by right|by apply Hx].
  - apply IH. intros y z Hy Hz. apply H; by right.
Qed.

Lemma issued_ordered c : cluster_ok c -> ForallOrdPairs follows (issued c).
Proof.
  intros Hc. eapply FOP_strengthen; [|exact (co_order c Hc)]. simpl.
  intros late early Hl He Hsame. split_and!; [by apply (terms_ordered c)..|done].
Qed.

Lemma follows_disjoint late early x :
  follows late early -> x ∈ timestamps late -> x ∈ timestamps early -> False.
Proof.
  intros (Hlt & Hgt & Heq) Hl He. unfold timestamps in *.
  apply list_elem_of_fmap in Hl as (k & -> & Hk). apply list_elem_of_fmap in He as (k' & [= Hp Hlg] & Hk').
  apply elem_of_seq in Hk, Hk'. simpl in *.
  destruct (Nat.lt_total (i_term early) (i_term late)) as [H|[H|H]].
  - specialize (Hlt H). lia.
  - destruct (Heq H) as [?|[? ?]]; lia.
  - specialize (Hgt H). lia.
Qed.

Lemma timestamps_NoDup a : NoDup (timestamps a).
Proof.
  unfold timestamps. apply NoDup_fmap_2; [|apply NoDup_seq]. intros k k' [= ?]. lia.
Qed.
