(* ===== verification/TsoFacts.v ===== *)
(** * Properties of the timestamp oracle *)

From S2P Require Import Prelude Stdio Tso TsoCluster.

(** ** Across the cluster *)

(** C3. In every run, with any elections, clocks, lost proposals, restarts and
    delayed answers, in which counts are positive and in range ([counts_ok]),
    clients send no resets or updates ([no_clients]) and each thread of
    [on_leader_start] ends before [on_leader_stop] ([start_ends]), no timestamp
    is handed out twice by nodes that lead when they answer; nodes deposed in
    the middle of [gen_tso] may answer too, and what they hand out is not
    counted. *)
Theorem tso_distinct c :
  reachable orderly c -> NoDup (issued c ≫= timestamps).
Proof.
  intros Hc%reachable_ok%issued_ordered.
  induction Hc as [|a l Ha Hl IH]; simpl; [constructor|].
  apply NoDup_app. split_and!; [apply timestamps_NoDup| |done].
  intros x Hx (b & Hb & Hin)%list_elem_of_bind.
  rewrite Forall_forall in Ha. by eapply follows_disjoint; [apply Ha| |].
Qed.

(** C8. In the same runs, of two answers given by nodes that lead when they
    answer: within a term the later one starts after the end of the earlier one,
    and the one of the higher term has the larger physical part, whichever was
    given first.  An earlier leader that has not seen its [on_leader_stop] yet
    still leads its term. *)
Theorem tso_increasing c late early k k' :
  reachable orderly c ->
  issued c !! k = Some late -> issued c !! k' = Some early -> (k < k')%nat ->
  follows late early.
Proof.
  intros Hc%reachable_ok%issued_ordered. revert k k'.
  induction Hc as [|a l Ha Hl IH]; intros k k' Hk Hk' Hlt; [done|].
  destruct k' as [|k']; [lia|]. simpl in Hk'. destruct k as [|k]; simpl in Hk.
  - injection Hk as ->. by apply (Forall_lookup_1 _ _ _ _ Ha Hk').
  - eapply IH; [done..|lia].
Qed.

(** ** Running the cluster *)

#[export] Instance tso_timestamp_eq_dec : EqDecision TsoTimestamp := ltac:(solve_decision).
#[export] Instance tso_op_eq_dec : EqDecision TsoOp := ltac:(solve_decision).
#[export] Instance tso_request_eq_dec : EqDecision TsoRequest := ltac:(solve_decision).

(** The successor of a cluster under an event whose guards hold. *)
Definition exec (e : event) (c : Cluster) : option Cluster :=
  let th := threads c in
  match e with
  | Elect i extra =>
      guard (Forall (fun q => q ∈ proposed c) extra);;
      Some (mk_cluster (log c ++ (pair (S (term c)) <$> extra)) (S (term c)) i true
              (replicas c) (proposed c) (issued c) th)
  | LeaderStart now =>
      let i := raft_leader c in
      let r := replicas c i in
      guard (fresh c = true /\ role r = None /\ applied r = length (log c));;
      let q := on_leader_start now (node r) in
      Some (mk_cluster (log c) (term c) i false
              (replicas (set_replica i (mk_replica (node r) (applied r) (Some (term c))
                                          false (Some (q, false)) false) c))
              (q :: proposed c) (issued c) th)
  | Commit =>
      let i := raft_leader c in
      let r := replicas c i in
      guard (role r = Some (term c));;
      match inflight r with
      | Some (q, false) =>
          Some (mk_cluster (log c ++ [(term c, q)]) (term c) i (fresh c)
                  (replicas (set_replica i (mk_replica (node r) (applied r) (role r)
                     (started r) (Some (q, true)) (sync_ok r)) c)) (proposed c) (issued c) th)
      | _ => None
      end
  | CommitClient k =>
      '(t, q) ← clients th !! k;
      guard (t = term c /\ role (replicas c (raft_leader c)) = Some (term c));;
      Some (mk_cluster (log c ++ [(term c, q)]) (term c) (raft_leader c) (fresh c) (replicas c)
              (proposed c) (issued c)
              (mk_threads (waiting th) (orphans th) (delete k (clients th))
                 (length (log c) :: client_at th) (stray th)))
  | Apply i =>
      let r := replicas c i in
      '(t, q) ← log c !! applied r;
      guard (role r = None \/ role r = Some t);;
      Some (set_replica i (apply_entry (own_entry c i t) q r) c)
  | Started i =>
      let r := replicas c i in
      guard (is_Some (role r) /\ started r = false /\ inflight r = None);;
      Some (set_replica i (mk_replica (leader_started (sync_ok r) (node r)) (applied r)
                             (role r) true None (sync_ok r)) c)
  | Timer i now =>
      let r := replicas c i in
      guard (is_Some (role r) /\ started r = true /\ inflight r = None);;
      q ← update_timestamp now (node r);
      Some (add_proposed q (set_replica i (propose q r) c))
  | Accept i cnt =>
      let n := node (replicas c i) in
      guard (is_leader n = true /\ is_healty n = true /\ cnt <> 0);;
      Some (set_threads (set_waiting ((i, cnt) :: waiting th) th) c)
  | Round k =>
      '(i, cnt) ← waiting th !! k;
      let r := replicas c i in
      let '(ts, o) := gen_tso_try cnt (tso_obj (node r)) in
      ts ← ts;
      Some (hand_out i ts cnt
              (set_threads (set_waiting (delete k (waiting th)) th)
                 (set_replica i (set_node (set_obj o (node r)) r) c)))
  | GiveUp k => Some (set_threads (set_waiting (delete k (waiting th)) th) c)
  | Client i q =>
      guard (is_leader (node (replicas c i)) = true);;
      t ← role (replicas c i);
      Some (add_proposed q
              (set_threads (mk_threads (waiting th) (orphans th) ((t, q) :: clients th)
                              (client_at th) (stray th)) c))
  | Stop i =>
      let r := replicas c i in
      let ok := match inflight r with None => sync_ok r | Some _ => false end in
      guard (is_Some (role r));;
      Some (set_threads (if started r then th else set_orphans ((i, ok) :: orphans th) th)
              (set_replica i
                 (mk_replica (on_leader_stop (node r)) (applied r) None false None false) c))
  | LateStart k =>
      '(i, ok) ← orphans th !! k;
      let r := replicas c i in
      Some (set_threads (set_orphans (delete k (orphans th)) th)
              (set_replica i (set_node (leader_started ok (node r)) r) c))
  | Restart i => Some (set_threads (crash_threads i th) (set_replica i init_replica c))
  end.

Lemma exec_step e c c' : exec e c = Some c' -> step c e c'.
Proof.
  intros H. destruct e; cbn beta iota zeta delta [exec] in H; simplify_option_eq;
    destruct_and?; try match goal with H : is_Some _ |- _ => destruct H end;
    try (by eapply step_stop); repeat case_match; simplify_option_eq;
    try by apply step_apply.
  - by apply step_elect.
  - by apply step_leader_start.
  - by apply step_commit.
  - by apply step_commit_client.
  - by eapply step_started.
  - by eapply step_timer.
  - by apply step_accept.
  - by apply step_round.
  - by apply step_give_up.
  - by apply step_client.
  - by apply step_late_start.
  - by apply step_restart.
Qed.

Section runs.
Context (P : Cluster -> event -> Prop) {Pdec : forall c e, Decision (P c e)}.

Definition run (acts : list event) : option Cluster :=
  foldl (fun c e => c ← c; guard (P c e);; exec e c) (Some init_cluster) acts.

Lemma run_reachable acts c : run acts = Some c -> reachable P c.
Proof.
  revert c. induction acts as [|e acts IH] using rev_ind; intros c.
  - intros [= <-]. apply reach_init.
  - unfold run. rewrite foldl_app. simpl. fold (run acts).
    destruct (run acts) as [c'|] eqn:E; [|done]. simpl. intros Hr. simplify_option_eq.
    eapply reach_step; [by apply IH|done|by apply exec_step].
Qed.

Lemma run_answers acts iss str :
  (fun c => (issued c, stray (threads c))) <$> run acts = Some (iss, str) ->
  exists c, reachable P c /\ issued c = iss /\ stray (threads c) = str.
Proof.
  destruct (run acts) as [c|] eqn:E; [|done]. intros [= <- <-].
  exists c. split; [by apply run_reachable in E|done].
Qed.
End runs.

#[export] Instance counts_ok_dec e : Decision (counts_ok e).
Proof. destruct e; simpl; unfold count_ok; apply _. Defined.
#[export] Instance no_clients_dec e : Decision (no_clients e).
Proof. destruct e; simpl; apply _. Defined.
#[export] Instance start_ends_dec c e : Decision (start_ends c e).
Proof. destruct e; simpl; apply _. Defined.
#[export] Instance orderly_dec c e : Decision (orderly c e).
Proof. unfold orderly. apply _. Defined.

(** A node takes the lead, at clock time [now], having applied [k] entries of
    earlier leaders; a node is asked for timestamps and answers at once. *)
Definition take_lead (i k : nat) (now : Z) : list event :=
  [Elect i []] ++ repeat (Apply i) k ++
  [LeaderStart now; Commit; Apply i; Started i].
Definition ask (i : nat) (cnt : Z) : list event := [Accept i cnt; Round 0].

(** A run with two leaders: the first still answers after the election of the
    second, whose clock is behind; then it is deposed and answers the request it
    has kept. *)
Definition demo_run : list event :=
  take_lead 0 0 100 ++ ask 0 5 ++ [Timer 0 160; Commit] ++ [Elect 1 []] ++ ask 0 2 ++
  [Apply 1; Apply 1; LeaderStart 60; Commit; Apply 1; Started 1] ++ ask 1 7 ++
  [Apply 0] ++ ask 0 4 ++ [Accept 0 8; Stop 0; Apply 0; Round 0].

Definition demo_issues : list Issue :=
  [mk_issue 1 (mk_ts 160 0) 4; mk_issue 2 (mk_ts 3101 0) 7; mk_issue 1 (mk_ts 100 5) 2;
   mk_issue 1 (mk_ts 100 0) 5].

Lemma demo_reachable : exists c, reachable orderly c /\ issued c = demo_issues /\
  stray (threads c) = [mk_issue 2 (mk_ts 3101 0) 8].
Proof. apply (run_answers orderly demo_run). vm_compute. reflexivity. Qed.

Lemma tso_distinct_witness : exists c, reachable orderly c /\ length (issued c) = 4%nat /\
  NoDup (issued c ≫= timestamps).
Proof.
  destruct demo_reachable as (c & Hc & Hi & _). exists c. split; [done|].
  split; [by rewrite Hi|]. apply tso_distinct. exact Hc.
Defined.

Lemma tso_increasing_witness : exists c, reachable orderly c /\
  follows (mk_issue 2 (mk_ts 3101 0) 7) (mk_issue 1 (mk_ts 100 5) 2).
Proof.
  destruct demo_reachable as (c & Hc & Hi & _). exists c. split; [done|].
  apply (tso_increasing c _ _ 1 2); [exact Hc|by rewrite Hi|by rewrite Hi|lia].
Defined.

(** ** Each condition is needed *)




(** ** One node *)

(** The result a round gives, when there is one. *)
Lemma gen_tso_loop_some rounds others cnt n ts n' :
  gen_tso_loop rounds others cnt n = (Some ts, n') ->
  exists m o, gen_tso_try cnt (tso_obj m) = (Some ts, o) /\ n' = set_obj o m.
Proof.
  revert n. induction rounds as [|k IH]; intros n; simpl; [done|].
  destruct (gen_tso_try cnt (tso_obj n)) as [[ts'|] o] eqn:E; [|eauto].
  intros [= -> <-]. eauto.
Qed.

(** A node that is not the leader answers no request for timestamps, and an
    unhealthy one none either. *)
Theorem process_gen_guarded others r n :
  op_type r = OP_GEN_TSO -> is_leader n = false \/ is_healty n = false ->
  exists e, e <> SUCCESS /\ process others r n = (Answered e None, n).
Proof.
  intros Hop Hn. unfold process. rewrite Hop. destruct (is_leader n); simpl; [|by exists NOT_LEADER].
  destruct Hn as [?|Hn]; [done|]. unfold gen_tso. rewrite Hn.
  destruct (count r =? 0); [by exists INPUT_PARAM_ERROR|by exists RETRY_LATER].
Qed.

Lemma process_gen_guarded_witness :
  exists e, e <> SUCCESS /\
    process (fun _ n => n) (mk_req OP_GEN_TSO 3 None None false)
      (mk_node (mk_obj (mk_ts 10 0) 20) true false) =
    (Answered e None, mk_node (mk_obj (mk_ts 10 0) 20) true false).
Proof. apply process_gen_guarded; [reflexivity|left; reflexivity]. Defined.

(** Replicated operations never move the bound or the physical part back,
    unless a reset is forced; a rejected one changes nothing. *)
Theorem on_apply_no_fallback r n :
  force r = false ->
  save n <= save (on_apply r n).2 /\ phys n <= phys (on_apply r n).2 /\
  ((on_apply r n).1 <> Some SUCCESS -> (on_apply r n).2 = n).
Proof.
  intros Hf. unfold on_apply, reset_tso, update_tso, time_fallback, save, phys.
  rewrite Hf. destruct (op_type r); simpl; try (split_and!; done || lia).
  - destruct (req_current r), (req_save r); simpl; try (split_and!; done || lia).
    destruct (Z.ltb_spec z (last_save_physical (tso_obj n))),
      (Z.ltb_spec (physical t) (physical (current_timestamp (tso_obj n))));
      simpl; split_and!; done || lia.
  - destruct (Z.ltb_spec (request_save r) (last_save_physical (tso_obj n))),
      (Z.ltb_spec (physical (request_current r)) (physical (current_timestamp (tso_obj n))));
      simpl; split_and!; done || lia.
Qed.

Lemma on_apply_no_fallback_witness :
  save (mk_node (mk_obj (mk_ts 10 4) 20) true true) <=
  save (on_apply (sync_request (mk_ts 15 0) 20) (mk_node (mk_obj (mk_ts 10 4) 20) true true)).2.
Proof. apply on_apply_no_fallback. reflexivity. Defined.

(** ** Snapshots *)

(** A snapshot restores the bound on any node, whatever it held before, so
    a leader elected from it starts above everything handed out so far; the
    current timestamp is not restored. *)
Theorem snapshot_roundtrip n m :
  is_i 64 (save n) ->
  on_snapshot_load (Some (on_snapshot_save n)) m =
  (0, mk_node (mk_obj (current_timestamp (tso_obj m)) (save n)) (is_healty m) (is_leader m)).
Proof.
  intros Hn. unfold on_snapshot_load, load_tso, on_snapshot_save. fold (save n).
  by rewrite stol_to_string.
Qed.

Lemma snapshot_roundtrip_witness :
  on_snapshot_load (Some (on_snapshot_save (mk_node (mk_obj (mk_ts 10 4) 20) true true))) init_node =
  (0, mk_node (mk_obj (mk_ts 0 0) 20) true false).
Proof. apply (snapshot_roundtrip (mk_node (mk_obj (mk_ts 10 4) 20) true true)). vm_compute. split; congruence. Defined.

(** ** Where timestamps can repeat *)

Definition alone (_ : nat) (n : Node) : Node := n.
Definition gen_request (cnt : Z) : TsoRequest := mk_req OP_GEN_TSO cnt None None false.

(** A negative count is accepted and moves the logical part back. *)
Example negative_count_moves_back :
  process alone (gen_request (-4)) (mk_node (mk_obj (mk_ts 10 4) 20) true true) =
  (Answered SUCCESS (Some (mk_ts 10 4, -4)), mk_node (mk_obj (mk_ts 10 0) 20) true true).
Proof. reflexivity. Qed.

(** A reset without [force] to the current physical part resets the logical
    part, although the check is there to refuse going back. *)
Example reset_same_physical_moves_back :
  on_apply (mk_req OP_RESET_TSO 0 (Some (mk_ts 10 0)) (Some 20) false)
    (mk_node (mk_obj (mk_ts 10 4) 20) true true) =
  (Some SUCCESS, mk_node (mk_obj (mk_ts 10 0) 20) true true).
Proof. reflexivity. Qed.

(** The leader is checked once, before the rounds: a node whose logical part is
    used up and that is deposed while it sleeps hands out the first timestamps
    of the new leader. *)
Example deposed_while_retrying :
  let deposed k n :=
    if (k =? 49)%nat
    then (on_apply (sync_request (mk_ts 21 0) 3021) (on_leader_stop n)).2 else n in
  process deposed (gen_request 8) (mk_node (mk_obj (mk_ts 10 262140) 20) true true) =
  (Answered SUCCESS (Some (mk_ts 21 0, 8)), mk_node (mk_obj (mk_ts 21 8) 3021) true false).
Proof. reflexivity. Qed.

(** A node deposed before its first proposal is answered marks itself leader
    afterwards; the next reset, applied everywhere, makes it healthy, and it
    hands out the timestamps of the real leader. *)
Example failed_start_leads_after_reset :
  let n := leader_started false (on_leader_stop (mk_node (mk_obj (mk_ts 10 0) 20) true false)) in
  let n := (on_apply (mk_req OP_RESET_TSO 0 (Some (mk_ts 30 0)) (Some 3030) false) n).2 in
  (process alone (gen_request 8) n).1 = Answered SUCCESS (Some (mk_ts 30 0, 8)).
Proof. reflexivity. Qed.
