(* ===== verification/AutoIncr.v ===== *)
(** * Auto-increment identifiers ([src/meta_server/auto_incr_state_machine.cpp])

    One counter per table, replicated: the next identifier to hand out.  The
    JSON document of a snapshot is written and read by rapidjson, the table id
    in it is read by boost; both are parameters. *)

From stdpp Require Import gmap.
From S2P Require Import Prelude Stdio.

(** ** Data *)

Inductive OpType :=
| OP_ADD_ID_FOR_AUTO_INCREMENT | OP_DROP_ID_FOR_AUTO_INCREMENT
| OP_GEN_ID_FOR_AUTO_INCREMENT | OP_UPDATE_FOR_AUTO_INCREMENT | OP_UNKNOWN.

Record AutoIncrementRequest := mk_incr {
  op_type : OpType;
  table_id : Z;
  count : option Z;
  start_id : option Z;
  increment_id : option Z;
  force : option bool
}.

Inductive ErrCode := SUCCESS | INPUT_PARAM_ERROR | UNSUPPORT_REQ_TYPE.

Record Response := mk_resp {
  errcode : ErrCode;
  resp_start_id : option Z;
  resp_end_id : option Z
}.

Definition error (e : ErrCode) : Response := mk_resp e None None.

(** ** Operations on [_auto_increment_map] *)

Definition add_table_id (r : AutoIncrementRequest) (m : gmap Z Z) : Response * gmap Z Z :=
  let start := default 0 (start_id r) in
  match m !! table_id r with
  | Some _ => (error INPUT_PARAM_ERROR, m)
  | None => (mk_resp SUCCESS (Some start) None, <[table_id r := start]> m)
  end.

Definition drop_table_id (r : AutoIncrementRequest) (m : gmap Z Z) : Response * gmap Z Z :=
  match m !! table_id r with
  | None => (error INPUT_PARAM_ERROR, m)
  | Some _ => (mk_resp SUCCESS None None, delete (table_id r) m)
  end.

Definition gen_id (r : AutoIncrementRequest) (m : gmap Z Z) : Response * gmap Z Z :=
  match m !! table_id r with
  | None => (error INPUT_PARAM_ERROR, m)
  | Some old =>
      let old :=
        match start_id r with
        | Some s => if old <? u64 (s + 1) then u64 (s + 1) else old
        | None => old
        end in
      let next := u64 (old + default 0 (count r)) in
      (mk_resp SUCCESS (Some old) (Some next), <[table_id r := next]> m)
  end.

Definition update (r : AutoIncrementRequest) (m : gmap Z Z) : Response * gmap Z Z :=
  match m !! table_id r with
  | None => (error INPUT_PARAM_ERROR, m)
  | Some old =>
      match start_id r, increment_id r with
      | None, None | Some _, Some _ => (error INPUT_PARAM_ERROR, m)
      | Some s, None =>
          if (u64 (s + 1) <? old) && negb (default false (force r))
          then (error INPUT_PARAM_ERROR, m)
          else (mk_resp SUCCESS (Some (u64 (s + 1))) None, <[table_id r := u64 (s + 1)]> m)
      | None, Some d =>
          (mk_resp SUCCESS (Some (u64 (old + d))) None, <[table_id r := u64 (old + d)]> m)
      end
  end.

(** One entry of the log, once parsed. *)
Definition on_apply (r : AutoIncrementRequest) (m : gmap Z Z) : Response * gmap Z Z :=
  match op_type r with
  | OP_ADD_ID_FOR_AUTO_INCREMENT => add_table_id r m
  | OP_DROP_ID_FOR_AUTO_INCREMENT => drop_table_id r m
  | OP_GEN_ID_FOR_AUTO_INCREMENT => gen_id r m
  | OP_UPDATE_FOR_AUTO_INCREMENT => update r m
  | OP_UNKNOWN => (error UNSUPPORT_REQ_TYPE, m)
  end.

(** The answers to a sequence of entries, and the state they leave. *)
Fixpoint apply_all (rs : list AutoIncrementRequest) (m : gmap Z Z) :
    list Response * gmap Z Z :=
  match rs with
  | [] => ([], m)
  | r :: rs =>
      let '(a, m) := on_apply r m in
      let '(l, m) := apply_all rs m in (a :: l, m)
  end.

(** ** Snapshots *)

(** The members of a JSON object whose values are unsigned 64-bit numbers. *)
Class JsonLib := {
  json_write : list (bytes * Z) -> bytes;
  json_parse : bytes -> option (list (bytes * Z));
  lexical_cast : bytes -> option Z
}.

(** What the snapshot relies on: a written object holds no zero byte and reads
    back with its members in order; the text of a 64-bit integer casts back. *)
Class JsonLaws `{JsonLib} := {
  json_roundtrip l :
    Forall (fun e => no_nul e.1 /\ is_u 64 e.2) l ->
    no_nul (json_write l) /\ json_parse (json_write l) = Some l;
  lexical_cast_to_string n : is_i 64 n -> lexical_cast (to_string n) = Some n
}.

Section Snapshot.
Context `{JsonLib}.

Definition save_auto_increment (m : gmap Z Z) : bytes :=
  json_write ((fun e => (to_string e.1, e.2)) <$> map_to_list m).

(** A name that does not cast throws. *)
Fixpoint load_members (l : list (bytes * Z)) (m : gmap Z Z) : option (gmap Z Z) :=
  match l with
  | [] => Some m
  | (name, max_id) :: l =>
      t ← lexical_cast name;
      load_members l (<[t := max_id]> m)
  end.

(** The result and the map; nothing for an exception that leaves. *)
Definition parse_json_string (s : bytes) (m : gmap Z Z) : option (Z * gmap Z Z) :=
  match c_str (s ++ [0]) ≫= json_parse with
  | None => Some (-1, m)
  | Some l => pair 0 <$> load_members l m
  end.

Definition load_auto_increment (extra : bytes) (m : gmap Z Z) : option (Z * gmap Z Z) :=
  parse_json_string extra ∅.

End Snapshot.

(** ** Counters only grow *)

(** The counter and every sum of the request fit in 64 bits. *)
Definition u64_ok (x : Z) : bool := (0 <=? x) && (x <? 2 ^ 64).

Definition fits (r : AutoIncrementRequest) (m : gmap Z Z) : bool :=
  let cnt := default 0 (count r) in
  let inc := default 0 (increment_id r) in
  u64_ok cnt && u64_ok inc &&
  match start_id r with Some s => (0 <=? s) && u64_ok (s + 1 + cnt) | None => true end &&
  match m !! table_id r with
  | Some old => (0 <=? old) && u64_ok (old + cnt) && u64_ok (old + inc)
  | None => true
  end.

(** The request does not drop table [t] nor force its counter back. *)
Definition keeps (t : Z) (r : AutoIncrementRequest) : bool :=
  negb (table_id r =? t) ||
  match op_type r with
  | OP_DROP_ID_FOR_AUTO_INCREMENT => false
  | OP_UPDATE_FOR_AUTO_INCREMENT => negb (default false (force r))
  | _ => true
  end.

Fixpoint fits_all (rs : list AutoIncrementRequest) (m : gmap Z Z) : bool :=
  match rs with
  | [] => true
  | r :: rs => fits r m && fits_all rs (on_apply r m).2
  end.

Lemma u64_ok_spec x : u64_ok x = true <-> is_u 64 x.
Proof. unfold u64_ok, is_u. lia. Qed.

Lemma fits_spec r m :
  fits r m = true ->
  (forall s, start_id r = Some s ->
     is_u 64 (s + 1) /\ 0 <= s /\ is_u 64 (s + 1 + default 0 (count r))) /\
  (forall old, m !! table_id r = Some old ->
     is_u 64 old /\ 0 <= default 0 (count r) /\ 0 <= default 0 (increment_id r) /\
     is_u 64 (old + default 0 (count r)) /\ is_u 64 (old + default 0 (increment_id r))).
Proof.
  unfold fits. rewrite !andb_true_iff, !u64_ok_spec. unfold is_u.
  intros [[[Hc Hi] Hs] Hm]. split.
  - intros s E. rewrite E, andb_true_iff, u64_ok_spec in Hs. unfold is_u in *. lia.
  - intros old E. rewrite E, !andb_true_iff, !u64_ok_spec in Hm. unfold is_u in *. lia.
Qed.

Lemma u64_id x : is_u 64 x -> u64 x = x.
Proof. intros. by apply wrap_id. Qed.

Lemma on_apply_other r m t :
  t <> table_id r -> (on_apply r m).2 !! t = m !! t.
Proof.
  intros Ht. unfold on_apply, add_table_id, drop_table_id, gen_id, update.
  destruct (op_type r), (m !! table_id r); repeat case_match; simpl;
    rewrite ?lookup_insert_ne, ?lookup_delete_ne by done; done.
Qed.

Lemma on_apply_grows r m t old :
  m !! t = Some old -> is_u 64 old -> fits r m = true -> keeps t r = true ->
  exists new, (on_apply r m).2 !! t = Some new /\ old <= new /\ is_u 64 new.
Proof.
  intros Hm Hold [Hs Hsum]%fits_spec Hk.
  destruct (decide (t = table_id r)) as [->|Hne];
    [|rewrite on_apply_other by done; by eauto with lia].
  unfold keeps in Hk. rewrite Z.eqb_refl in Hk. simpl in Hk.
  destruct (Hsum _ Hm) as (_ & Hc & Hi & Hsc & Hsi).
  unfold on_apply, add_table_id, gen_id, update. rewrite Hm.
  destruct (op_type r); try done; [by eauto with lia| | |by eauto with lia]; simpl.
  - destruct (start_id r) as [s|]; [destruct (Hs s eq_refl) as (H1 & H2 & H3);
      rewrite !(u64_id (s + 1)) by done; destruct (Z.ltb_spec old (s + 1))|];
      simpl; rewrite lookup_insert_eq, u64_id by done; eexists; split_and!; try done; lia.
  - rewrite Hk.
    destruct (start_id r) as [s|], (increment_id r) as [d|]; simpl in *; try by eauto with lia.
    + destruct (Hs s eq_refl) as (H1 & _). rewrite andb_true_r, u64_id by done.
      destruct (Z.ltb_spec (s + 1) old); simpl; [by eauto with lia|].
      rewrite lookup_insert_eq. by eauto.
    + rewrite lookup_insert_eq, u64_id by done. eexists. split_and!; [done|lia|done..].
Qed.

Lemma gen_answer r m a m' :
  op_type r = OP_GEN_ID_FOR_AUTO_INCREMENT -> on_apply r m = (a, m') -> errcode a = SUCCESS ->
  fits r m = true ->
  exists old lo hi, m !! table_id r = Some old /\ m' !! table_id r = Some hi /\
    resp_start_id a = Some lo /\ resp_end_id a = Some hi /\
    old <= lo /\ hi = lo + default 0 (count r) /\ is_u 64 hi /\
    forall s, start_id r = Some s -> s < lo.
Proof.
  intros Hop Ha He [Hs Hsum]%fits_spec. revert Ha He. unfold on_apply, gen_id. rewrite Hop.
  destruct (m !! table_id r) as [old|] eqn:Hm; [|by intros [= <- <-]].
  intros [= <- <-] _. exists old. eexists _, _. simpl. rewrite lookup_insert_eq.
  split_and!; [done..| | | |]; destruct (Hsum _ eq_refl) as (Hold & _ & _ & Hc & _);
    (destruct (start_id r) as [s|]; [|rewrite ?u64_id by done; done || lia]);
    destruct (Hs s eq_refl) as (H1 & H2 & H3); rewrite !(u64_id (s + 1)) by done;
    destruct (Z.ltb_spec old (s + 1)); rewrite ?u64_id by done; try done; try lia;
    intros ? [= <-]; lia.
Qed.

Lemma apply_all_grows rs m t old :
  m !! t = Some old -> is_u 64 old -> fits_all rs m = true -> forallb (keeps t) rs = true ->
  exists new, (apply_all rs m).2 !! t = Some new /\ old <= new /\ is_u 64 new.
Proof.
  revert m old. induction rs as [|r rs IH]; intros m old Hm Hold Hf Hk; simpl; [by eauto with lia|].
  simpl in Hf, Hk. apply andb_true_iff in Hf as [Hf Hfs], Hk as [Hk1 Hk2].
  destruct (on_apply_grows r m t old Hm Hold Hf Hk1) as (mid & Hmid & Hle & Hu).
  destruct (on_apply r m) as [a m1]. simpl in *.
  destruct (IH m1 mid Hmid Hu Hfs Hk2) as (new & Hnew & ? & ?).
  destruct (apply_all rs m1) as [l m2]. simpl in *. eauto with lia.
Qed.

(** C22. Two answers for the same table never share an identifier and come in
    increasing order, whatever entries lie between them, unless one of those
    drops the table or forces its counter back, and as long as no sum overflows
    64 bits ([fits]). *)
Theorem gen_ranges_disjoint r1 rs r2 m a1 m1 a2 lo1 hi1 lo2 :
  op_type r1 = OP_GEN_ID_FOR_AUTO_INCREMENT -> op_type r2 = OP_GEN_ID_FOR_AUTO_INCREMENT ->
  table_id r1 = table_id r2 ->
  on_apply r1 m = (a1, m1) -> errcode a1 = SUCCESS ->
  (on_apply r2 (apply_all rs m1).2).1 = a2 -> errcode a2 = SUCCESS ->
  resp_start_id a1 = Some lo1 -> resp_end_id a1 = Some hi1 -> resp_start_id a2 = Some lo2 ->
  fits_all (r1 :: rs) m = true -> fits r2 (apply_all rs m1).2 = true ->
  forallb (keeps (table_id r1)) rs = true ->
  hi1 = lo1 + default 0 (count r1) /\ hi1 <= lo2.
Proof.
  intros Hop1 Hop2 Ht Ha1 Hs1 Ha2 Hs2 Hlo1 Hhi1 Hlo2 Hf Hf2 Hk.
  simpl in Hf. apply andb_true_iff in Hf as [Hf1 Hfs]. rewrite Ha1 in Hfs. simpl in Hfs.
  destruct (gen_answer r1 m a1 m1 Hop1 Ha1 Hs1 Hf1) as (old & lo & hi & _ & Hm1 & E1 & E2 & _ & Hhi & Hu & _).
  destruct (apply_all_grows rs m1 _ _ Hm1 Hu Hfs Hk) as (new & Hnew & Hle & Hu2).
  destruct (on_apply r2 (apply_all rs m1).2) as [a m2] eqn:E. simpl in Ha2. subst a.
  destruct (gen_answer r2 _ _ _ Hop2 E Hs2 Hf2) as (old2 & lo' & hi' & Hm2 & _ & E3 & _ & Hlo & _).
  rewrite Ht in Hnew. simplify_eq. split; [congruence|lia].
Qed.

Definition gen_req (t cnt : Z) (s : option Z) : AutoIncrementRequest :=
  mk_incr OP_GEN_ID_FOR_AUTO_INCREMENT t (Some cnt) s None None.

Lemma gen_ranges_disjoint_witness :
  15 = 10 + 5 /\ 15 <= 101.
Proof.
  apply (gen_ranges_disjoint (gen_req 7 5 None)
           [mk_incr OP_UPDATE_FOR_AUTO_INCREMENT 7 None None (Some 3) None;
            mk_incr OP_UPDATE_FOR_AUTO_INCREMENT 7 None (Some 2) None None;
            mk_incr OP_DROP_ID_FOR_AUTO_INCREMENT 8 None None None None]
           (gen_req 7 2 (Some 100)) {[7 := 10; 8 := 1]}
           (mk_resp SUCCESS (Some 10) (Some 15)) {[7 := 15; 8 := 1]}
           (mk_resp SUCCESS (Some 101) (Some 103)) 10 15 101); vm_compute; reflexivity.
Defined.

(** The answer to a request with a lower bound starts above it, so that an
    identifier a client inserted itself is not handed out again. *)
Theorem gen_above_start r m a m' s lo :
  op_type r = OP_GEN_ID_FOR_AUTO_INCREMENT -> on_apply r m = (a, m') -> errcode a = SUCCESS ->
  start_id r = Some s -> resp_start_id a = Some lo -> fits r m = true -> s < lo.
Proof.
  intros Hop Ha Hs Hst Hlo Hf.
  destruct (gen_answer r m a m' Hop Ha Hs Hf) as (? & lo' & ? & _ & _ & E & _ & _ & _ & _ & Hgt).
  simplify_eq. by apply Hgt.
Qed.

Lemma gen_above_start_witness : 100 < 101.
Proof.
  apply (gen_above_start (gen_req 7 2 (Some 100)) {[7 := 10]}
           (mk_resp SUCCESS (Some 101) (Some 103)) {[7 := 103]}); vm_compute; reflexivity.
Defined.

(** ** Snapshots *)

Section Roundtrip.
Context `{JsonLaws}.

Lemma load_members_list l m :
  NoDup l.*1 -> Forall (fun e => is_i 64 e.1) l ->
  load_members ((fun e => (to_string e.1, e.2)) <$> l) m = Some (list_to_map l ∪ m).
Proof.
  revert m. induction l as [|[t v] l IH]; intros m Hnd Hl; simpl.
  - by rewrite (left_id_L ∅ (∪)).
  - inversion_clear Hnd as [|? ? Hnin Hnd']. inversion_clear Hl as [|? ? Ht Hl'].
    rewrite lexical_cast_to_string by done. simpl. rewrite IH by done. f_equal.
    rewrite <- insert_union_l, insert_union_r by (by apply not_elem_of_list_to_map_1). done.
Qed.

Lemma to_string_no_nul n : no_nul (to_string n).
Proof.
  assert (Hd : forall n, 0 <= n -> no_nul (dec_u n)).
  { intros k Hk. destruct (dec_u_spec k Hk) as (j & _ & _ & _ & ->).
    eapply Forall_impl; [apply dec_fix_digits|]. simpl. intros c Hc ->. by vm_compute in Hc. }
  unfold to_string. destruct (Z.ltb_spec n 0); [constructor; [done|]|]; apply Hd; lia.
Qed.

(** Loading a snapshot gives exactly the counters that were saved,
    whatever the node held before. *)
Theorem incr_snapshot_roundtrip m m' :
  map_Forall (fun t v => is_i 64 t /\ is_u 64 v) m ->
  load_auto_increment (save_auto_increment m) m' = Some (0, m).
Proof.
  intros Hm. unfold load_auto_increment, parse_json_string, save_auto_increment.
  rewrite map_Forall_to_list in Hm.
  destruct (json_roundtrip ((fun e => (to_string e.1, e.2)) <$> map_to_list m)) as [Hnn Hp].
  { apply Forall_fmap. eapply Forall_impl; [exact Hm|]. intros [t v] [_ Hv]. simpl.
    split; [apply to_string_no_nul|done]. }
  rewrite c_str_app by done. simpl. rewrite Hp. rewrite load_members_list.
  - simpl. by rewrite list_to_map_to_list, (right_id_L ∅ (∪)).
  - apply NoDup_fst_map_to_list.
  - eapply Forall_impl; [exact Hm|]. by intros [t v] [Ht _].
Qed.

End Roundtrip.

(** A codec of objects that satisfies the laws: each name with its length, then
    its value. *)
Fixpoint demo_parse (fuel : nat) (s : bytes) : option (list (bytes * Z)) :=
  match fuel, s with
  | _, [] => Some []
  | S fuel, n :: s =>
      let k := Z.to_nat (n - 1) in
      match drop k s with
      | v :: s' => cons (take k s, v - 1) <$> demo_parse fuel s'
      | [] => None
      end
  | O, _ => None
  end.

Definition demo_write (l : list (bytes * Z)) : bytes :=
  l ≫= fun e => Z.of_nat (length e.1) + 1 :: e.1 ++ [e.2 + 1].

#[local] Instance demo_json : JsonLib := {
  json_write := demo_write;
  json_parse s := demo_parse (length s) s;
  lexical_cast := stol
}.

Lemma demo_parse_write l fuel :
  (length l <= fuel)%nat -> demo_parse fuel (demo_write l) = Some l.
Proof.
  revert fuel. induction l as [|[k v] l IH]; intros fuel Hf; [by destruct fuel|].
  destruct fuel as [|fuel]; [simpl in Hf; lia|]. simpl.
  replace (Z.to_nat (Z.of_nat (length k) + 1 - 1)) with (length k) by lia.
  rewrite <- app_assoc, drop_app_length, take_app_length. simpl.
  rewrite IH by (simpl in Hf; lia). simpl. repeat f_equal. lia.
Qed.

Lemma demo_write_length l : (length l <= length (demo_write l))%nat.
Proof.
  induction l as [|e l IH]; [done|]. unfold demo_write in *.
  rewrite bind_cons, length_app. simpl. lia.
Qed.

#[local] Instance demo_json_laws : JsonLaws.
Proof.
  split; [|exact stol_to_string]. intros l Hl. simpl. split.
  - induction Hl as [|[k v] l [Hk Hv] Hl IH]; [constructor|].
    unfold is_u in Hv. simpl in *. constructor; [lia|].
    apply Forall_app. split; [|done]. apply Forall_app. split; [done|]. constructor; [lia|done].
  - apply demo_parse_write, demo_write_length.
Qed.

Lemma incr_snapshot_roundtrip_witness :
  load_auto_increment (save_auto_increment {[7 := 103; -2 := 2 ^ 64 - 1]}) {[9 := 9]} =
  Some (0, {[7 := 103; -2 := 2 ^ 64 - 1]}).
Proof.
  apply incr_snapshot_roundtrip. unfold is_i, is_u.
  intros t v [[<- <-]|[_ [<- <-]%lookup_singleton_Some]]%lookup_insert_Some; lia.
Defined.

(** ** Sums that leave 64 bits *)

(** The largest identifier as lower bound wraps to zero and is ignored. *)
Example gen_start_wraps :
  (on_apply (gen_req 7 2 (Some (2 ^ 64 - 1))) {[7 := 10]}).1 =
  mk_resp SUCCESS (Some 10) (Some 12).
Proof. reflexivity. Qed.

(** A count past the end wraps the counter, and identifiers repeat. *)
Example gen_count_wraps :
  let '(a, m) := on_apply (gen_req 7 (2 ^ 64 - 5) None) {[7 := 10]} in
  a = mk_resp SUCCESS (Some 10) (Some 5) /\
  (on_apply (gen_req 7 8 None) m).1 = mk_resp SUCCESS (Some 5) (Some 13).
Proof. vm_compute. auto. Qed.
