(* ===== verification/IndexTermMap.v ===== *)
(** * The term map of a raft log ([include/raft/index_term_map.h])

    A queue of the log ids at which the term changes, from which the term of any
    index is found by a linear scan when it is short and by a binary search
    otherwise. *)

From Stdlib Require Import Sorted.
From S2P Require Import Prelude.

Record LogId := mk_id { index : Z; id_term : Z }.

Section Search.

Variable q : list LogId.

Definition nth_index (k : nat) : Z := default 0 (index <$> q !! k).
Definition nth_term (k : nat) : Z := default 0 (id_term <$> q !! k).

(** [std::upper_bound]: the first of the [len] positions from [first] whose
    index is above [i]. *)
Fixpoint upper_bound (fuel : nat) (i : Z) (first len : nat) : nat :=
  match fuel, len with
  | S fuel, S _ =>
      let half := Nat.div2 len in
      let mid := (first + half)%nat in
      if i <? nth_index mid then upper_bound fuel i first half
      else upper_bound fuel i (S mid) (len - half - 1)
  | _, _ => first
  end.

(** The scan from the back, over the first [k] elements. *)
Fixpoint scan_back (i : Z) (k : nat) : Z :=
  match k with
  | O => 0
  | S k => if nth_index k <=? i then nth_term k else scan_back i k
  end.

Definition get_term (i : Z) : Z :=
  let n := length q in
  if (n =? 0)%nat then 0
  else if nth_index (n - 1) <=? i then nth_term (n - 1)
  else if (n <? 15)%nat then scan_back i n
  else
    match upper_bound n i 0 n with
    | O => 0
    | S k => nth_term k
    end.

End Search.

Definition append (e : LogId) (q : list LogId) : Z * list LogId :=
  match last q with
  | None => (0, [e])
  | Some b =>
      if (index e <=? index b) || (id_term e <? id_term b) then (-1, q)
      else if negb (id_term e =? id_term b) then (0, q ++ [e])
      else (0, q)
  end.

(** How many of the following elements start at or below [first_index_kept]. *)
Fixpoint num_pop (first_index_kept : Z) (q : list LogId) : nat :=
  match q with
  | e :: q => if index e <=? first_index_kept then S (num_pop first_index_kept q) else 0
  | [] => 0
  end.

Definition truncate_prefix (first_index_kept : Z) (q : list LogId) : list LogId :=
  match q with
  | [] => []
  | _ :: rest => drop (num_pop first_index_kept rest) q
  end.

(** The elements popped from the back are those above [last_index_kept]. *)
Fixpoint pop_above (last_index_kept : Z) (rq : list LogId) : list LogId :=
  match rq with
  | e :: rq' => if last_index_kept <? index e then pop_above last_index_kept rq' else rq
  | [] => []
  end.

Definition truncate_suffix (last_index_kept : Z) (q : list LogId) : list LogId :=
  rev (pop_above last_index_kept (rev q)).

(** ** Reference *)

(** Indices and terms both increase. *)
Definition increasing (a b : LogId) : Prop := index a < index b /\ id_term a < id_term b.
Definition map_ok (q : list LogId) : Prop := StronglySorted increasing q.

(** The term of the last element at or below [i], 0 when there is none. *)
Fixpoint term_of (q : list LogId) (i : Z) : Z :=
  match q with
  | [] => 0
  | e :: q' =>
      if i <? index e then 0
      else match q' with
           | [] => id_term e
           | e' :: _ => if i <? index e' then id_term e else term_of q' i
           end
  end.

(** [k] elements start at or below [i] and the others above. *)
Definition cut (q : list LogId) (i : Z) (k : nat) : Prop :=
  (k <= length q)%nat /\
  (forall j, (j < k)%nat -> nth_index q j <= i) /\
  (forall j, (k <= j < length q)%nat -> i < nth_index q j).

Lemma cut_cons e q i k :
  index e <= i -> cut q i k -> cut (e :: q) i (S k).
Proof.
  intros He (Hk & Hlo & Hhi). split_and!; simpl; [lia| |].
  - intros [|j] Hj; [done|]. apply Hlo. lia.
  - intros [|j] Hj; [lia|]. apply Hhi. lia.
Qed.

Lemma map_ok_cut q i : map_ok q -> exists k, cut q i k.
Proof.
  induction 1 as [|e q Hq IH He]; [exists 0%nat; repeat split; simpl; lia|].
  destruct IH as [k Hk]. destruct (Z.le_gt_cases (index e) i) as [Hle|Hgt].
  - exists (S k). by apply cut_cons.
  - exists 0%nat. split_and!; [lia|lia|]. intros [|j] Hj; [done|]. simpl in Hj.
    destruct (lookup_lt_is_Some_2 q j) as [x Hx]; [lia|].
    pose proof (Forall_lookup_1 _ _ _ _ He Hx) as [Hix _].
    unfold nth_index. simpl. rewrite Hx. simpl. lia.
Qed.

Lemma cut_unique q i k k' : cut q i k -> cut q i k' -> k = k'.
Proof.
  intros (Hk & Hlo & Hhi) (Hk' & Hlo' & Hhi').
  destruct (Nat.lt_total k k') as [H|[H|H]]; [|done|].
  - specialize (Hlo' k H). specialize (Hhi k). lia.
  - specialize (Hlo k' H). specialize (Hhi' k'). lia.
Qed.

Lemma term_of_cut q i k : cut q i k ->
  term_of q i = match k with O => 0 | S k => nth_term q k end.
Proof.
  revert k. induction q as [|e q IH]; intros k (Hk & Hlo & Hhi).
  - simpl in Hk. by destruct k; [|lia].
  - cbn [term_of]. destruct k as [|k].
    + pose proof (Hhi 0%nat ltac:(simpl; lia)) as H0. unfold nth_index in H0. simpl in H0.
      by rewrite (proj2 (Z.ltb_lt i (index e))).
    + pose proof (Hlo 0%nat ltac:(lia)) as H0. unfold nth_index in H0. simpl in H0.
      rewrite (proj2 (Z.ltb_ge i (index e))) by done.
      assert (Hcut : cut q i k).
      { split_and!; [simpl in Hk; lia| |].
        - intros j Hj. apply (Hlo (S j)). lia.
        - intros j Hj. apply (Hhi (S j)). simpl. lia. }
      rewrite (IH k Hcut). destruct q as [|e' q']; [by destruct k; [|simpl in Hk; lia]|].
      destruct k as [|k].
      * pose proof (Hhi 1%nat ltac:(simpl; lia)) as H1. unfold nth_index in H1. simpl in H1.
        by rewrite (proj2 (Z.ltb_lt i (index e'))).
      * pose proof (Hlo 1%nat ltac:(lia)) as H1. unfold nth_index in H1. simpl in H1.
        by rewrite (proj2 (Z.ltb_ge i (index e'))).
Qed.

Lemma scan_back_cut q i k n : cut q i k -> (k <= n <= length q)%nat ->
  scan_back q i n = match k with O => 0 | S k => nth_term q k end.
Proof.
  intros (Hk & Hlo & Hhi). induction n as [|n IH]; intros Hn; simpl.
  - by replace k with 0%nat by lia.
  - destruct (decide (k = S n)) as [->|Hne].
    + by rewrite (proj2 (Z.leb_le _ _) (Hlo n ltac:(lia))).
    + rewrite (proj2 (Z.leb_gt _ _) (Hhi n ltac:(lia))). apply IH. lia.
Qed.

(** The search narrows an interval that holds the cut. *)
Lemma upper_bound_cut q i k fuel first len :
  cut q i k -> (first <= k <= first + len)%nat -> (first + len <= length q)%nat ->
  (len <= fuel)%nat -> upper_bound q fuel i first len = k.
Proof.
  intros (Hk & Hlo & Hhi). revert first len.
  induction fuel as [|fuel IH]; intros first len Hin Hlen Hf; simpl; [lia|].
  destruct len as [|len]; [lia|].
  assert (Hhalf : (Nat.div2 (S len) < S len)%nat) by (apply Nat.lt_div2; lia).
  set (half := Nat.div2 (S len)) in *.
  destruct (Z.ltb_spec i (nth_index q (first + half))) as [Hlt|Hge].
  - apply IH; [|lia..]. split; [lia|].
    destruct (decide (first + half < k)%nat); [|lia]. specialize (Hlo (first + half)%nat). lia.
  - apply IH; [|lia..]. split; [|lia].
    destruct (decide (first + half < k)%nat); [lia|]. specialize (Hhi (first + half)%nat). lia.
Qed.

Lemma get_term_search q i : map_ok q -> get_term q i = term_of q i.
Proof.
  intros Hq. destruct (map_ok_cut q i Hq) as [k Hk]. rewrite (term_of_cut q i k Hk).
  pose proof Hk as (Hlen & Hlo & Hhi). unfold get_term.
  destruct (Nat.eqb_spec (length q) 0) as [E|E]; [by replace k with 0%nat by lia|].
  destruct (Z.leb_spec (nth_index q (length q - 1)) i) as [Hle|Hgt].
  - destruct (decide (k = length q)) as [->|Hne].
    + destruct (length q) as [|n]; [done|]. by replace (S n - 1)%nat with n by lia.
    + specialize (Hhi (length q - 1)%nat). lia.
  - destruct (_ <? _)%nat; [by apply scan_back_cut; [|lia]|].
    rewrite (upper_bound_cut q i k); [done|exact Hk|lia..].
Qed.

(** C25. Both searches of the term map, the scan of a short queue and the
    binary search of a long one, find the term of the last change at or before
    the index. *)
Theorem get_term_reference q i : map_ok q -> get_term q i = term_of q i.
Proof. apply get_term_search. Qed.

Lemma map_ok_of_lookup q :
  (forall j a b, q !! j = Some a -> q !! S j = Some b -> increasing a b) -> map_ok q.
Proof.
  intros H. apply Sorted_StronglySorted.
  - intros a b c [? ?] [? ?]. split; lia.
  - induction q as [|e q IH]; constructor.
    + apply IH. intros j a b. apply (H (S j)).
    + destruct q; constructor. by apply (H 0%nat).
Qed.

Lemma get_term_reference_witness :
  get_term ((fun k => mk_id (10 * Z.of_nat k) (Z.of_nat k + 1)) <$> seq 0 20) 57 =
  term_of ((fun k => mk_id (10 * Z.of_nat k) (Z.of_nat k + 1)) <$> seq 0 20) 57.
Proof.
  apply get_term_reference. apply map_ok_of_lookup. intros j a b Ha Hb.
  apply list_lookup_fmap_Some in Ha as (x & -> & [-> _]%lookup_seq),
    Hb as (y & -> & [-> _]%lookup_seq). split; simpl; lia.
Defined.

(** ** Changes to the queue *)

Lemma map_ok_snoc q e :
  map_ok (q ++ [e]) <-> map_ok q /\ Forall (fun b => increasing b e) q.
Proof.
  unfold map_ok. induction q as [|b q IH]; simpl.
  - split; [intros _; repeat constructor|intros _; repeat constructor].
  - split.
    + intros Hs. apply StronglySorted_inv in Hs as [Hs Hb]. apply Forall_app in Hb as [Hb He].
      apply IH in Hs as [Hq Hall]. inversion_clear He. split; by constructor.
    + intros [Hs Hall]. apply StronglySorted_inv in Hs as [Hs Hb].
      inversion_clear Hall. constructor; [by apply IH|]. apply Forall_app. split; [done|by constructor].
Qed.

Lemma term_of_snoc q e i :
  map_ok (q ++ [e]) ->
  term_of (q ++ [e]) i = if index e <=? i then id_term e else term_of q i.
Proof.
  intros [Hq Hall]%map_ok_snoc. induction q as [|b q IH]; simpl.
  - destruct (Z.ltb_spec i (index e)), (Z.leb_spec (index e) i); done || lia.
  - apply StronglySorted_inv in Hq as [Hq Hb]. inversion_clear Hall as [|? ? [Hbe _] Hall'].
    specialize (IH Hq Hall'). destruct (Z.ltb_spec i (index b)).
    + by rewrite (proj2 (Z.leb_gt _ _)) by lia.
    + destruct q as [|b' q]; simpl in *.
      * destruct (Z.ltb_spec i (index e)), (Z.leb_spec (index e) i); done || lia.
      * destruct (Z.ltb_spec i (index b')); [|done].
        inversion_clear Hall' as [|? ? [? _] _]. by rewrite (proj2 (Z.leb_gt _ _)) by lia.
Qed.

Lemma append_spec e q q' :
  map_ok q -> append e q = (0, q') ->
  map_ok q' /\ (forall i, i < index e -> term_of q' i = term_of q i) /\
  (forall i, index e <= i -> term_of q' i = id_term e).
Proof.
  unfold append. destruct q as [|b q] using rev_ind.
  - intros _ [= <-]. split_and!; [repeat constructor| |]; intros i Hi; simpl.
    + by rewrite (proj2 (Z.ltb_lt _ _)).
    + by rewrite (proj2 (Z.ltb_ge _ _)).
  - clear IHq. rewrite last_snoc. intros Hq.
    destruct (Z.leb_spec (index e) (index b)), (Z.ltb_spec (id_term e) (id_term b)); try done. simpl.
    destruct (Z.eqb_spec (id_term e) (id_term b)) as [Ht|Ht]; simpl; intros [= <-].
    + split_and!; [done..|]. intros i Hi. rewrite term_of_snoc by done.
      by rewrite (proj2 (Z.leb_le _ _)) by lia.
    + assert (Hok : map_ok ((q ++ [b]) ++ [e])).
      { apply map_ok_snoc. split; [done|]. apply map_ok_snoc in Hq as [_ Hall].
        apply Forall_app. split.
        - eapply Forall_impl; [exact Hall|]. intros x [? ?]. split; lia.
        - constructor; [split; lia|done]. }
      split_and!; [done| |]; intros i Hi; rewrite term_of_snoc by done.
      * by rewrite (proj2 (Z.leb_gt _ _)) by lia.
      * by rewrite (proj2 (Z.leb_le _ _)) by lia.
Qed.

Lemma truncate_prefix_spec k q :
  map_ok q ->
  map_ok (truncate_prefix k q) /\
  (forall i, k <= i -> term_of (truncate_prefix k q) i = term_of q i).
Proof.
  destruct q as [|e q]; [done|]. revert e. induction q as [|e' q IH]; intros e Hq; [done|].
  simpl. destruct (Z.leb_spec (index e') k) as [Hle|]; [|done].
  apply StronglySorted_inv in Hq as [Hq He]. inversion_clear He as [|? ? [Hi _] _].
  destruct (IH e' Hq) as [Hok Hterm]. simpl in *. split; [done|].
  intros i Hk. rewrite Hterm by done.
  by rewrite (proj2 (Z.ltb_ge i (index e))), (proj2 (Z.ltb_ge i (index e'))) by lia.
Qed.

Lemma truncate_suffix_snoc k q e :
  truncate_suffix k (q ++ [e]) = if k <? index e then truncate_suffix k q else q ++ [e].
Proof.
  unfold truncate_suffix. rewrite rev_app_distr. simpl. destruct (k <? index e); [done|].
  simpl. by rewrite rev_involutive.
Qed.

Lemma truncate_suffix_spec k q :
  map_ok q ->
  map_ok (truncate_suffix k q) /\ Forall (fun e => index e <= k) (truncate_suffix k q) /\
  (forall i, i <= k -> term_of (truncate_suffix k q) i = term_of q i).
Proof.
  induction q as [|e q IH] using rev_ind; intros Hq; [by repeat split|].
  rewrite truncate_suffix_snoc. pose proof Hq as [Hq' Hall]%map_ok_snoc.
  destruct (Z.ltb_spec k (index e)) as [Hlt|Hge].
  - destruct (IH Hq') as (? & ? & Hterm). split_and!; [done..|]. intros i Hi.
    rewrite term_of_snoc, Hterm by done. by rewrite (proj2 (Z.leb_gt _ _)) by lia.
  - split_and!; [done| |done]. apply Forall_app. split; [|by constructor].
    eapply Forall_impl; [exact Hall|]. intros x [? _]. simpl. lia.
Qed.

(** Popping gives back the queue before the ids above [k] were appended. *)
Lemma append_truncate e q q' r k :
  k < index e -> append e q = (r, q') ->
  truncate_suffix k q' = truncate_suffix k q.
Proof.
  intros Hk. unfold append.
  destruct (last q) as [b|] eqn:E.
  - destruct orb; [by intros [= _ <-]|]. destruct negb; intros [= _ <-]; [|done].
    rewrite truncate_suffix_snoc. by rewrite (proj2 (Z.ltb_lt _ _)).
  - apply last_None in E as ->. intros [= _ <-]. unfold truncate_suffix. simpl.
    by rewrite (proj2 (Z.ltb_lt _ _)).
Qed.

Lemma truncate_suffix_id k q :
  Forall (fun b => index b <= k) q -> truncate_suffix k q = q.
Proof.
  induction q as [|e q _] using rev_ind; intros Hq; [done|].
  rewrite truncate_suffix_snoc. apply Forall_app in Hq as [_ He]. inversion_clear He.
  by rewrite (proj2 (Z.ltb_ge _ _)).
Qed.

Lemma term_of_last q b i :
  map_ok q -> last q = Some b -> index b <= i -> term_of q i = id_term b.
Proof.
  intros Hq [q0 ->]%last_Some Hi. rewrite term_of_snoc by done.
  by rewrite (proj2 (Z.leb_le _ _)).
Qed.

(** The head of the queue covers index [i]. *)
Definition covers (q : list LogId) (i : Z) : Prop := exists b, head q = Some b /\ index b <= i.

Lemma covers_append e q q' i :
  append e q = (0, q') -> covers q i \/ (q = [] /\ index e <= i) -> covers q' i.
Proof.
  unfold append, covers. destruct q as [|x q].
  - intros [= <-] [(b & [=] & _)|[_ Hi]]. eauto.
  - intros Ha [(b & Hb & Hi)|[[=] _]]. exists b. split; [|done].
    destruct (last (x :: q)) eqn:E; [|by apply last_None in E].
    destruct orb; [done|]. destruct negb; injection Ha as <-; done.
Qed.

Lemma covers_truncate_prefix k q i :
  covers q i -> i <= k -> covers (truncate_prefix k q) k.
Proof.
  intros (b & Hb & Hi) Hk. destruct q as [|e q]; [done|]. injection Hb as ->.
  assert (Hbk : index b <= k) by lia. clear Hi Hk i. revert b Hbk.
  induction q as [|e q IH]; intros b Hbk; simpl; [by exists b|].
  destruct (Z.leb_spec (index e) k) as [He|]; [|by exists b]. by apply IH.
Qed.

Lemma covers_truncate_suffix k q i : covers q i -> i <= k -> covers (truncate_suffix k q) i.
Proof.
  intros (b & Hb & Hi) Hk. induction q as [|e q IH] using rev_ind; [done|].
  rewrite truncate_suffix_snoc. destruct (Z.ltb_spec k (index e)); [|by exists b].
  destruct q as [|x q]; [injection Hb as ->; lia|]. by apply IH.
Qed.
