(* ===== verification/RaftLog.v ===== *)
(** * The raft log in the key-value store
      ([src/raft/my_raft_log_storage.cpp], [include/raft/my_raft_log_storage.h])

    The entries of a region's log, stored under keys that order as their
    indices, with the first index under a key of its own and the term map in
    memory.  In a binlog region the data of a prewrite request goes to a column
    family of its own, under its timestamp, and the log keeps a reduced request.
    The store and what braft, butil and protocol buffers serialize are
    parameters; every write, and the reads of recovery, take whether they
    succeed.  Any other read that fails counts as one that finds nothing: both
    give no entry. *)

From S2P Require Import Prelude KeyEncoder KvStore IndexTermMap.

(** ** What the storage calls *)

(** The entry types of braft, the head of a value ([butil::RawPacker]) and the
    configuration message, whose peers are given by their text. *)
Class Braft := {
  ENTRY_TYPE_NO_OP : Z;
  ENTRY_TYPE_DATA : Z;
  ENTRY_TYPE_CONFIGURATION : Z;
  head_pack : Z -> Z -> bytes;
  head_unpack : bytes -> Z * Z;
  conf_write : list bytes -> list bytes -> bytes;
  conf_parse : bytes -> option (list bytes * list bytes)
}.

Definition LOG_HEAD_SIZE : nat := 12.

Class BraftLaws `{Braft} := {
  entry_types_distinct :
    NoDup [ENTRY_TYPE_NO_OP; ENTRY_TYPE_DATA; ENTRY_TYPE_CONFIGURATION];
  head_pack_length t c : length (head_pack t c) = LOG_HEAD_SIZE;
  head_roundtrip t c rest : is_i 64 t -> is_i 32 c -> head_unpack (head_pack t c ++ rest) = (t, c);
  conf_roundtrip ps os : conf_parse (conf_write ps os) = Some (ps, os)
}.

(** The request in an entry of a binlog region, as far as the storage looks at
    it; the other fields are opaque. *)
Record BinlogDesc := mk_desc { binlog_ts : option Z; desc_rest : bytes }.

Record StoreReq := mk_store_req {
  op_type : Z;
  req_region_id : Z;
  region_version : Z;
  binlog_desc : option BinlogDesc;
  req_rest : bytes
}.

Definition OP_PREWRITE_BINLOG : Z := 61.

Class StoreReqLib := {
  req_parse : bytes -> option StoreReq;
  req_serialize : StoreReq -> option bytes
}.

(** A message whose required fields are set serializes and parses back. *)
Class StoreReqLaws `{StoreReqLib} := {
  req_roundtrip r d ts : binlog_desc r = Some d -> binlog_ts d = Some ts -> is_i 64 ts ->
    req_rest r = [] -> exists b, req_serialize r = Some b /\ req_parse b = Some r
}.

(** ** The URI of a log *)

(** [std::string::find]. *)
Fixpoint find_sub (pat s : bytes) : option nat :=
  if bool_decide (take (length pat) s = pat) then Some 0%nat
  else match s with
       | [] => None
       | _ :: s => S <$> find_sub pat s
       end.

(** The region id as text, and whether the region stores binlogs. *)
Definition parse_my_raft_log_uri (uri : bytes) : option (bytes * bool) :=
  match find_sub (bytes_of_string "id=") uri with
  | None | Some O => None
  | Some pos =>
      Some (drop (pos + 3) uri,
            bool_decide (is_Some (find_sub (bytes_of_string "my_bin_log") uri)))
  end.

(** ** Data *)

Record LogEntry := mk_entry {
  id : LogId;
  type : Z;
  data : bytes;
  peers : option (list bytes);
  old_peers : option (list bytes)
}.

Record Storage (D : Type) := mk_storage {
  first_log_index : Z;
  last_log_index : Z;
  term_map : list LogId;
  db : D;
  binlog_db : D
}.
Arguments mk_storage {D}.
Arguments first_log_index {D}.
Arguments last_log_index {D}.
Arguments term_map {D}.
Arguments db {D}.
Arguments binlog_db {D}.

Definition LOG_META_KEY_SIZE : nat := 9.
Definition LOG_DATA_KEY_SIZE : nat := 17.
Definition LOG_META_IDENTIFY : Z := 1.
Definition LOG_DATA_IDENTIFY : Z := 2.

Section RaftLog.
Context `{Host} `{Braft} `{StoreReqLib} {D : Type} `{RocksDb D} (region_id : Z).

(** Whether the region stores binlogs, and the column family of old binlogs. *)
Variable is_binlog_region : bool.
Variable old_binlog_db : option D.

(** ** Keys *)

Definition encode_log_data_key (i : Z) : bytes :=
  mem_store 8 (to_endian_u64 (encode_i64 region_id)) ++ [LOG_DATA_IDENTIFY] ++
  mem_store 8 (to_endian_u64 (encode_i64 i)).

Definition encode_log_meta_key : bytes :=
  mem_store 8 (to_endian_u64 (encode_i64 region_id)) ++ [LOG_META_IDENTIFY].

Definition decode_log_data_key (k : bytes) : option (Z * Z) :=
  if negb (length k =? LOG_DATA_KEY_SIZE)%nat then None
  else
    r ← mem_load k 0 8;
    i ← mem_load k 9 8;
    Some (decode_i64 (to_endian_u64 r), decode_i64 (to_endian_u64 i)).

(** [RaftLogCompactionFilter::Filter]: whether a compaction drops the key, given
    the first index kept for a region and the index a split still needs. *)
Definition compaction_filter (first_index : Z -> option Z) (split_index : Z -> Z)
    (key : bytes) : bool :=
  match decode_log_data_key key with
  | None => false
  | Some (r, i) =>
      match first_index r with
      | None => false
      | Some f => i <? (if f <? split_index r then f else split_index r)
      end
  end.

(** ** Values *)

Definition binlog_key (ts : Z) : bytes := mem_store 8 (to_endian_u64 (encode_i64 ts)).

Definition request_ts (r : StoreReq) : Z :=
  default 0 (binlog_ts (default (mk_desc None []) (binlog_desc r))).

(** The request kept in the log for a prewrite. *)
Definition reduced (r : StoreReq) : StoreReq :=
  mk_store_req (op_type r) (req_region_id r) (region_version r)
    (Some (default (mk_desc None []) (binlog_desc r))) [].

(** The value of a data entry of a binlog region and, for a prewrite, the pair
    for the binlog column family. *)
Definition binlog_value (head buf : bytes) : option (bytes * option (bytes * bytes)) :=
  r ← req_parse buf;
  if negb (op_type r =? OP_PREWRITE_BINLOG) then Some (head ++ buf, None)
  else
    b ← req_serialize (reduced r);
    Some (head ++ b, Some (binlog_key (request_ts r), buf)).

(** What is stored for an entry; an unknown type is refused, and the array for
    a configuration has no room for an entry without peers. *)
Definition build_value (e : LogEntry) : option (bytes * option (bytes * bytes)) :=
  let head := head_pack (id_term (id e)) (type e) in
  if type e =? ENTRY_TYPE_DATA then
    if negb is_binlog_region then Some (head ++ data e, None)
    else binlog_value head (data e)
  else if type e =? ENTRY_TYPE_CONFIGURATION then
    ps ← peers e;
    Some (head ++ conf_write ps (default [] (old_peers e)), None)
  else if type e =? ENTRY_TYPE_NO_OP then Some (head, None)
  else None.

(** The pairs for the two column families. *)
Definition build_key_value (e : LogEntry) : option (bytes * bytes * option (bytes * bytes)) :=
  '(v, b) ← build_value e;
  Some (encode_log_data_key (index (id e)), v, b).

Definition parse_meta (i : LogId) (t : Z) (value : bytes) : option LogEntry :=
  '(ps, os) ← conf_parse value;
  Some (mk_entry i t [] (Some ps) (if (length os =? 0)%nat then None else Some os)).

(** [RocksWrapper::get_binlog_value]: the old column family has the timestamp
    itself as key. *)
Definition get_binlog_value (ts : Z) (s : Storage D) : option bytes :=
  match db_get (binlog_db s) (binlog_key ts) with
  | Some v => Some v
  | None => d ← old_binlog_db; db_get d (mem_store 8 (u64 ts))
  end.

(** The data of an entry of a binlog region, from the value in the log. *)
Definition get_binlog_entry (value : bytes) (s : Storage D) : option bytes :=
  r ← req_parse value;
  if negb (op_type r =? OP_PREWRITE_BINLOG) then Some value
  else
    d ← binlog_desc r;
    get_binlog_value (default 0 (binlog_ts d)) s.

(** The entry of a stored value. *)
Definition parse_entry (i : Z) (value : bytes) (s : Storage D) : option LogEntry :=
  if (length value <? LOG_HEAD_SIZE)%nat then None
  else
    let '(t, ty) := head_unpack value in
    let rest := drop LOG_HEAD_SIZE value in
    if ty =? ENTRY_TYPE_DATA then
      d ← (if negb is_binlog_region then Some rest else get_binlog_entry rest s);
      Some (mk_entry (mk_id i t) ty d None None)
    else if ty =? ENTRY_TYPE_CONFIGURATION then parse_meta (mk_id i t) ty rest
    else if ty =? ENTRY_TYPE_NO_OP then
      if negb (length rest =? 0)%nat then None
      else Some (mk_entry (mk_id i t) ty [] None None)
    else None.

Definition get_entry (i : Z) (s : Storage D) : option LogEntry :=
  v ← db_get (db s) (encode_log_data_key i);
  parse_entry i v s.

Definition storage_get_term (i : Z) (s : Storage D) : Z :=
  if (i <? first_log_index s) || (last_log_index s <? i) then 0
  else get_term (term_map s) i.

(** ** Appending *)

(** The term map after the ids, and whether each was accepted. *)
Fixpoint append_ids (es : list LogEntry) (q : list LogId) : bool * list LogId :=
  match es with
  | [] => (true, q)
  | e :: es =>
      let '(r, q) := append (id e) q in
      if negb (r =? 0) then (false, q) else append_ids es q
  end.

Definition write_batch (d : D) (kvs : list (bytes * bytes)) : D :=
  foldl (fun d kv => db_put d kv.1 kv.2) d kvs.

Definition append_entries (write_ok : bool) (es : list LogEntry) (s : Storage D) :
    Z * Storage D :=
  match es with
  | [] => (0, s)
  | e :: _ =>
      if negb (last_log_index s + 1 =? index (id e)) then (-1, s)
      else
        match mapM build_key_value es with
        | None => (-1, s)
        | Some kvs =>
            if negb write_ok then (-1, s)
            else
              let d := write_batch (db s) kvs.*1 in
              let b := write_batch (binlog_db s) (omap snd kvs) in
              let '(ok, q) := append_ids es (term_map s) in
              if ok then
                (Z.of_nat (length es),
                 mk_storage (first_log_index s) (last_log_index s + Z.of_nat (length es)) q d b)
              else
                (-1, mk_storage (first_log_index s) (last_log_index s)
                       (truncate_suffix (last_log_index s) q) d b)
        end
  end.

Definition append_entry (write_ok : bool) (e : LogEntry) (s : Storage D) : Z * Storage D :=
  let '(n, s) := append_entries write_ok [e] s in (if n =? 1 then 0 else -1, s).

(** ** Truncating *)

Definition storage_truncate_prefix (put_ok range_ok : bool) (first_index_kept : Z)
    (s : Storage D) : Z * Storage D :=
  if first_index_kept <=? first_log_index s then (0, s)
  else
    let start_index := first_log_index s in
    if start_index <? 0 then (0, s)
    else
      let last := if last_log_index s <? first_index_kept then first_index_kept - 1
                  else last_log_index s in
      let s := mk_storage first_index_kept last
                 (truncate_prefix first_index_kept (term_map s)) (db s) (binlog_db s) in
      if negb put_ok then (-1, s)
      else
        let d := db_put (db s) encode_log_meta_key (mem_store 8 (u64 first_index_kept)) in
        if negb range_ok then (-1, mk_storage first_index_kept last (term_map s) d (binlog_db s))
        else
          (0, mk_storage first_index_kept last (term_map s)
                (db_remove_range d (encode_log_data_key start_index)
                   (encode_log_data_key first_index_kept)) (binlog_db s)).

Definition storage_truncate_suffix (write_ok : bool) (last_index_kept : Z) (s : Storage D) :
    Z * Storage D :=
  let last := last_log_index s in
  if last <=? last_index_kept then (0, s)
  else
    let dels := (fun k => encode_log_data_key (last_index_kept + 1 + Z.of_nat k)) <$>
                seq 0 (Z.to_nat (last - last_index_kept)) in
    (0, mk_storage (first_log_index s) last_index_kept
          (truncate_suffix last_index_kept (term_map s))
          (if write_ok then foldl db_delete (db s) dels else db s) (binlog_db s)).

Definition storage_reset (put_ok range_ok write_ok : bool) (next_log_index : Z)
    (s : Storage D) : Z * Storage D :=
  let s := (storage_truncate_prefix put_ok range_ok next_log_index s).2 in
  let s := (storage_truncate_suffix write_ok (next_log_index - 1) s).2 in
  (0, mk_storage (first_log_index s) (last_log_index s) [] (db s) (binlog_db s)).

(** ** Recovery *)

(** The loop over the stored entries: the last index, the term map and the
    configurations found, unless an entry is refused. *)
Fixpoint init_loop (l : list (bytes * bytes)) (expected_index last : Z) (q : list LogId)
    (confs : list LogEntry) : option (Z * list LogId * list LogEntry) :=
  match l with
  | [] => Some (last, q, confs)
  | (k, value) :: l =>
      '(r, i) ← decode_log_data_key k;
      if negb (r =? region_id) then None
      else if negb (expected_index =? i) then None
      else if (length value <? LOG_HEAD_SIZE)%nat then None
      else
        let '(t, ty) := head_unpack value in
        let '(ret, q) := append (mk_id i t) q in
        if negb (ret =? 0) then None
        else if ty =? ENTRY_TYPE_CONFIGURATION then
          e ← parse_meta (mk_id i t) ty (drop LOG_HEAD_SIZE value);
          init_loop l (expected_index + 1) i q (confs ++ [e])
        else init_loop l (expected_index + 1) i q confs
  end.

(** A new region writes its first index; an iteration that fails refuses. *)
Definition init (get_ok put_ok iter_ok : bool) (d b : D) :
    option (Storage D * list LogEntry) :=
  if negb get_ok then None
  else
    '(first, d) ←
      match db_get d encode_log_meta_key with
      | None => if put_ok then Some (1, db_put d encode_log_meta_key (mem_store 8 1)) else None
      | Some v => f ← mem_load v 0 8; Some (i64 f, d)
      end;
    '(last, q, confs) ←
      init_loop (db_scan d LOG_META_KEY_SIZE (encode_log_data_key first)) first 0 [] [];
    if negb iter_ok then None
    else Some (mk_storage first (if last =? 0 then first - 1 else last) q d b, confs).

End RaftLog.
