(* ===== verification/RaftLogFacts.v ===== *)
(** * The raft log implements a log: keys, refinement and recovery *)

From Stdlib Require Import Sorted.
From stdpp Require Import sorting.
From S2P Require Import Prelude KeyEncoder KvStore IndexTermMap RaftLog.

Section Keys.
Context `{Host} (region_id : Z).
Hypothesis region_ok : is_i 64 region_id.

Abbreviation data_key := (encode_log_data_key region_id).
Abbreviation meta_key := (encode_log_meta_key region_id).

Lemma data_key_bytes i :
  data_key i = be_split 8 (encode_i64 region_id) ++ [LOG_DATA_IDENTIFY] ++ be_split 8 (encode_i64 i).
Proof. unfold encode_log_data_key. by rewrite !store_endian_u64. Qed.

Lemma meta_key_bytes : meta_key = be_split 8 (encode_i64 region_id) ++ [LOG_META_IDENTIFY].
Proof. unfold encode_log_meta_key. by rewrite !store_endian_u64. Qed.

Lemma length_data_key i : length (data_key i) = LOG_DATA_KEY_SIZE.
Proof. rewrite data_key_bytes, !length_app, !length_be_split. done. Qed.

(** Keys order as their indices. *)
Lemma data_key_compare i j :
  is_i 64 i -> is_i 64 j -> lex_compare (data_key i) (data_key j) = (i ?= j).
Proof.
  intros Hi Hj. rewrite !data_key_bytes.
  rewrite lex_compare_app_l. cbn [app lex_compare]. rewrite Z.compare_refl.
  rewrite be_split_compare; rewrite !encode_i64_spec by done; unfold is_i in *;
    [|change (256 ^ Z.of_nat 8) with (2 ^ 64); lia..].
  destruct (Z.compare_spec i j), (Z.compare_spec (i + 2 ^ 63) (j + 2 ^ 63)); done || lia.
Qed.

Lemma data_key_inj i j : is_i 64 i -> is_i 64 j -> data_key i = data_key j -> i = j.
Proof.
  intros Hi Hj E. apply Z.compare_eq. rewrite <- data_key_compare by done.
  rewrite E. apply lex_compare_refl.
Qed.

Lemma take_data_key i :
  take 9 (data_key i) = be_split 8 (encode_i64 region_id) ++ [LOG_DATA_IDENTIFY].
Proof.
  rewrite data_key_bytes, app_assoc. apply take_app_length'.
  by rewrite length_app, length_be_split.
Qed.

Lemma meta_key_prefix i : take 9 meta_key <> take 9 (data_key i).
Proof.
  rewrite take_data_key, meta_key_bytes.
  rewrite take_ge by (by rewrite length_app, length_be_split).
  intros E. apply app_inj_1 in E as [_ E]; [done|]. by rewrite !length_be_split.
Qed.

Lemma meta_key_data_key i : meta_key <> data_key i.
Proof. intros E. apply (meta_key_prefix i). by rewrite E. Qed.

Lemma data_key_in_range a b i :
  is_i 64 a -> is_i 64 b -> is_i 64 i ->
  in_range (data_key a) (data_key b) (data_key i) = (a <=? i) && (i <? b).
Proof.
  intros Ha Hb Hi. unfold in_range. rewrite !data_key_compare by done.
  destruct (Z.compare_spec a i), (Z.compare_spec i b), (Z.leb_spec a i), (Z.ltb_spec i b);
    done || lia.
Qed.

Lemma meta_key_in_range a b : in_range (data_key a) (data_key b) meta_key = false.
Proof.
  unfold in_range. rewrite data_key_bytes, meta_key_bytes, lex_compare_app_l. done.
Qed.

Lemma mem_load_endian pre x post :
  is_i 64 x ->
  (fun v => decode_i64 (to_endian_u64 v)) <$>
    mem_load (pre ++ be_split 8 (encode_i64 x) ++ post) (Z.of_nat (length pre)) 8 = Some x.
Proof.
  intros Hx. unfold mem_load. rewrite !length_app, length_be_split, Nat2Z.id.
  rewrite (proj2 (Z.leb_le 0 _)), (proj2 (Z.leb_le _ _)) by lia. simpl andb.
  rewrite drop_app_length, take_app_length' by by rewrite length_be_split. simpl. f_equal.
  rewrite load_endian_u64 by (apply be_split_ok || apply length_be_split).
  rewrite encode_i64_spec by done. unfold is_i in Hx.
  rewrite be_combine_split by (change (256 ^ Z.of_nat 8) with (2 ^ 64); lia).
  rewrite decode_i64_spec by (unfold is_u; lia). lia.
Qed.

Lemma decode_data_key i :
  is_i 64 i -> decode_log_data_key (data_key i) = Some (region_id, i).
Proof.
  intros Hi. unfold decode_log_data_key. rewrite length_data_key. simpl negb. cbv iota.
  pose proof (mem_load_endian [] region_id ([LOG_DATA_IDENTIFY] ++ be_split 8 (encode_i64 i)) region_ok) as Hr.
  pose proof (mem_load_endian (be_split 8 (encode_i64 region_id) ++ [LOG_DATA_IDENTIFY]) i [] Hi) as Hi'.
  rewrite length_app, length_be_split in Hi'. rewrite app_nil_r, <- app_assoc in Hi'.
  rewrite data_key_bytes. cbn [app length] in Hr.
  change (Z.of_nat 0) with 0 in Hr. change (Z.of_nat (8 + length [LOG_DATA_IDENTIFY])) with 9 in Hi'.
  cbn [app] in Hi'. cbn [app].
  apply fmap_Some in Hr as (r & -> & ->), Hi' as (v & -> & ->). done.
Qed.

(** A compaction keeps every entry from the first index on, and drops nothing of
    a region it does not know. *)
Lemma compaction_keeps first_index split_index f i :
  first_index region_id = Some f \/ first_index region_id = None -> is_i 64 i ->
  f <= i -> compaction_filter first_index split_index (data_key i) = false.
Proof.
  intros Hf Hi Hle. unfold compaction_filter. rewrite decode_data_key by done.
  destruct Hf as [-> | ->]; [|done].
  destruct (Z.ltb_spec f (split_index region_id)); apply Z.ltb_ge; lia.
Qed.

End Keys.

(** ** Values *)

Section Values.
Context `{Host} `{BraftLaws} `{StoreReqLaws} {D : Type} `{RocksDb D}.
Context (is_binlog_region : bool) (old_binlog_db : option D).

(** In a binlog region the data is a request, and a prewrite has its timestamp. *)
Definition data_ok (buf : bytes) : Prop :=
  is_binlog_region = true -> exists r, req_parse buf = Some r /\
    (op_type r = OP_PREWRITE_BINLOG -> exists d ts,
       binlog_desc r = Some d /\ binlog_ts d = Some ts /\ is_i 64 ts).

(** An entry with the fields of its type and no others. *)
Definition entry_ok (e : LogEntry) : Prop :=
  is_i 64 (id_term (id e)) /\ is_i 32 (type e) /\
  ((type e = ENTRY_TYPE_DATA /\ data_ok (data e) /\ peers e = None /\ old_peers e = None) \/
   (type e = ENTRY_TYPE_CONFIGURATION /\ data e = [] /\ is_Some (peers e) /\
    old_peers e <> Some []) \/
   (type e = ENTRY_TYPE_NO_OP /\ data e = [] /\ peers e = None /\ old_peers e = None)).

(** The parts of what is stored for an entry. *)
Definition raft_value (e : LogEntry) : option bytes := fst <$> build_value is_binlog_region e.
Definition binlog_part (e : LogEntry) : option (bytes * bytes) :=
  build_value is_binlog_region e ≫= snd.

(** The tests on the type of an entry. *)
Lemma entry_type_tests :
  (ENTRY_TYPE_CONFIGURATION =? ENTRY_TYPE_DATA) = false /\
  (ENTRY_TYPE_NO_OP =? ENTRY_TYPE_DATA) = false /\
  (ENTRY_TYPE_NO_OP =? ENTRY_TYPE_CONFIGURATION) = false /\
  (ENTRY_TYPE_DATA =? ENTRY_TYPE_CONFIGURATION) = false.
Proof.
  pose proof entry_types_distinct as Hd.
  rewrite !NoDup_cons in Hd.
  destruct Hd as (Hn & Hd & _). rewrite !Z.eqb_neq.
  split_and!; intros E;
    first [solve [apply Hn; rewrite E; repeat constructor]
          |solve [apply Hd; rewrite E; repeat constructor]].
Qed.

(** The data of a binlog region: what is stored for it gives it back. *)
Lemma binlog_value_ok head buf :
  is_binlog_region = true -> data_ok buf ->
  exists rest b, binlog_value head buf = Some (head ++ rest, b) /\
    forall s : Storage D, (forall k d, b = Some (k, d) -> db_get (binlog_db s) k = Some d) ->
      get_binlog_entry old_binlog_db rest s = Some buf.
Proof.
  intros Hb Hd. destruct (Hd Hb) as (r & Hr & Hpre). unfold binlog_value. rewrite Hr. cbn.
  destruct (Z.eqb_spec (op_type r) OP_PREWRITE_BINLOG) as [E|E]; cbn.
  - destruct (Hpre E) as (d & ts & Hdesc & Hts & Hi).
    assert (Hred : reduced r = mk_store_req (op_type r) (req_region_id r) (region_version r) (Some d) [])
      by (unfold reduced; by rewrite Hdesc).
    destruct (req_roundtrip (reduced r) d ts) as (b & Hser & Hpar); [by rewrite Hred|done..|].
    rewrite Hser. cbn. eexists b, _. split; [done|]. intros s Hs.
    unfold get_binlog_entry. rewrite Hpar. cbn. rewrite E. cbn. unfold get_binlog_value.
    rewrite Hdesc. cbn. rewrite Hts. cbn.
    rewrite (Hs (binlog_key ts) buf); [done|]. unfold request_ts. rewrite Hdesc. cbn. by rewrite Hts.
  - eexists buf, None. split; [done|]. intros s _. unfold get_binlog_entry. rewrite Hr. cbn.
    by rewrite (proj2 (Z.eqb_neq _ _)).
Qed.

Lemma build_value_some e : entry_ok e -> exists rest b,
  build_value is_binlog_region e = Some (head_pack (id_term (id e)) (type e) ++ rest, b).
Proof.
  destruct entry_type_tests as (E1 & E2 & E3 & _).
  intros (_ & _ & [(Ey & Hd & _)|[(Ey & _ & [ps Hps] & _)|(Ey & _)]]); unfold build_value; rewrite Ey.
  - rewrite Z.eqb_refl. destruct is_binlog_region eqn:Eb; simpl; [|eauto].
    destruct (binlog_value_ok (head_pack (id_term (id e)) ENTRY_TYPE_DATA) (data e)) as (rest & b & -> & _);
      [done..|]. eauto.
  - rewrite E1, Z.eqb_refl, Hps. simpl. eauto.
  - rewrite E2, E3, Z.eqb_refl. exists [], None. by rewrite app_nil_r.
Qed.

Lemma parse_build e v b (s : Storage D) :
  entry_ok e -> build_value is_binlog_region e = Some (v, b) ->
  (forall k d, b = Some (k, d) -> db_get (binlog_db s) k = Some d) ->
  parse_entry is_binlog_region old_binlog_db (index (id e)) v s = Some e.
Proof.
  intros (Ht & Hty & He) Hv Hs. destruct entry_type_tests as (E1 & E2 & E3 & _).
  assert (Hlen : forall rest, (length (head_pack (id_term (id e)) (type e) ++ rest) <? LOG_HEAD_SIZE)%nat = false).
  { intros rest. apply Nat.ltb_ge. rewrite length_app, head_pack_length. lia. }
  assert (Hdrop : forall rest, drop LOG_HEAD_SIZE (head_pack (id_term (id e)) (type e) ++ rest) = rest).
  { intros rest. by rewrite drop_app_length' by (by rewrite head_pack_length). }
  unfold build_value in Hv.
  destruct He as [(Ey & Hd & Hp & Ho)|[(Ey & Hd & [ps Hp] & Ho)|(Ey & Hd & Hp & Ho)]];
    rewrite Ey, ?E1, ?E2, ?E3, Z.eqb_refl, ?Hp in Hv; cbn in Hv.
  - assert (Hrest : exists rest, v = head_pack (id_term (id e)) (type e) ++ rest /\
      (if negb is_binlog_region then Some rest else get_binlog_entry old_binlog_db rest s) = Some (data e)).
    { destruct is_binlog_region eqn:Eb; cbn in Hv |- *.
      - destruct (binlog_value_ok (head_pack (id_term (id e)) ENTRY_TYPE_DATA) (data e))
          as (rest & b' & Hbv & Hget); [done..|].
        rewrite Hbv in Hv. injection Hv as <- <-. exists rest. rewrite Ey. auto.
      - injection Hv as <- _. exists (data e). by rewrite Ey. }
    destruct Hrest as (rest & -> & Hdata). unfold parse_entry.
    rewrite Hlen, head_roundtrip, Hdrop by done. rewrite Ey, Z.eqb_refl, <- Ey, Hdata. cbn.
    by destruct e as [[] ? ? ? ?]; simpl in *; subst.
  - injection Hv as <- _. rewrite <- Ey. unfold parse_entry, parse_meta.
    rewrite Hlen, head_roundtrip, Hdrop by done. rewrite Ey, E1, Z.eqb_refl, <- Ey.
    rewrite conf_roundtrip. cbn.
    destruct e as [[] ? ? ? os]; simpl in *; subst. destruct os as [[|]|]; done.
  - injection Hv as <- _. rewrite <- (app_nil_r (head_pack _ _)), <- Ey. unfold parse_entry.
    rewrite Hlen, head_roundtrip, Hdrop by done. rewrite Ey, E2, E3, Z.eqb_refl, <- Ey. cbn.
    by destruct e as [[] ? ? ? ?]; simpl in *; subst.
Qed.

Lemma parse_conf e rest b :
  entry_ok e -> type e = ENTRY_TYPE_CONFIGURATION ->
  build_value is_binlog_region e = Some (head_pack (id_term (id e)) (type e) ++ rest, b) ->
  parse_meta (id e) (type e) rest = Some e.
Proof.
  intros (_ & _ & He) Ey Hv. destruct entry_type_tests as (E1 & _ & E3 & E4).
  unfold build_value in Hv. rewrite Ey, E1, Z.eqb_refl in Hv.
  destruct He as [(Ed & _)|[(_ & Hd & [ps Hp] & Ho)|(Ed & _)]];
    [rewrite <- Ed, Ey, Z.eqb_refl in E4; done| |rewrite <- Ed, Ey, Z.eqb_refl in E3; done].
  rewrite Hp in Hv. cbn in Hv. injection Hv as Hv _. apply app_inv_head in Hv as <-.
  unfold parse_meta. rewrite conf_roundtrip. cbn.
  destruct e as [[] ? ? ? os]; simpl in *; subst. destruct os as [[|]|]; done.
Qed.

End Values.

(** ** The log a storage holds *)

Section Refinement.
Context `{Host} `{BraftLaws} `{StoreReqLaws} {D : Type} `{RocksDbLaws D}.
Context (region_id : Z) (is_binlog_region : bool) (old_binlog_db : option D).
Hypothesis region_ok : is_i 64 region_id.

Abbreviation data_key := (encode_log_data_key region_id).
Abbreviation meta_key := (encode_log_meta_key region_id).
Abbreviation ok := (entry_ok is_binlog_region).
Abbreviation value_of := (raft_value is_binlog_region).
Abbreviation binlog_of := (binlog_part is_binlog_region).

(** The storage holds the entries [es] from index [first] on: in the store,
    with nothing above them, and in the term map. *)
Record holds (s : Storage D) (first : Z) (es : list LogEntry) : Prop := {
  h_first : first_log_index s = first;
  h_last : last_log_index s = first + Z.of_nat (length es) - 1;
  h_range : 1 <= first /\ first + Z.of_nat (length es) < 2 ^ 63;
  h_entry k e : es !! k = Some e ->
    index (id e) = first + Z.of_nat k /\ ok e /\
    db_get (db s) (data_key (first + Z.of_nat k)) = value_of e /\
    term_of (term_map s) (first + Z.of_nat k) = id_term (id e);
  h_above i : is_i 64 i -> last_log_index s < i -> db_get (db s) (data_key i) = None;
  h_meta : db_get (db s) meta_key = Some (mem_store 8 (u64 first));
  h_keys k v : db_get (db s) k = Some v -> take 9 k = take 9 (data_key 0) ->
    exists i, is_i 64 i /\ k = data_key i;
  h_map : map_ok (term_map s);
  h_map_last : Forall (fun x => index x <= last_log_index s) (term_map s);
  h_binlog e k v : e ∈ es -> binlog_of e = Some (k, v) -> db_get (binlog_db s) k = Some v;
  h_cover : es <> [] -> covers (term_map s) first;
  h_sorted : StronglySorted (fun a b => id_term (id a) <= id_term (id b)) es
}.

Lemma index_range s first es i :
  holds s first es -> first <= i <= last_log_index s -> is_i 64 i.
Proof. intros []. unfold is_i. lia. Qed.

Lemma value_of_some e : ok e -> exists rest b,
  build_value is_binlog_region e = Some (head_pack (id_term (id e)) (type e) ++ rest, b) /\
  value_of e = Some (head_pack (id_term (id e)) (type e) ++ rest) /\ binlog_of e = b.
Proof.
  intros He. unfold raft_value, binlog_part.
  destruct (build_value_some is_binlog_region old_binlog_db e He) as (rest & b & ->). eauto.
Qed.

Lemma get_entry_holds s first es k e :
  holds s first es -> es !! k = Some e ->
  get_entry region_id is_binlog_region old_binlog_db (first + Z.of_nat k) s = Some e.
Proof.
  intros [] He. destruct (h_entry0 k e He) as (Hi & Hok & Hg & Ht).
  destruct (value_of_some e Hok) as (rest & b & Hv & Hval & Hb).
  unfold get_entry. rewrite Hg, Hval. cbn. rewrite <- Hi. eapply parse_build; [done..|].
  intros k' d ->. eapply h_binlog0; [by eapply list_elem_of_lookup_2|done].
Qed.

(** Reading an index gives the entry of the log there, and its term is the
    one of the term map; outside the log the term is 0. *)
Theorem read_correct s first es :
  holds s first es ->
  (forall k e, es !! k = Some e ->
     get_entry region_id is_binlog_region old_binlog_db (first + Z.of_nat k) s = Some e /\
     storage_get_term (first + Z.of_nat k) s = id_term (id e)) /\
  (forall i, i < first \/ first + Z.of_nat (length es) <= i -> storage_get_term i s = 0).
Proof.
  intros Hs. pose proof Hs as []. unfold storage_get_term. split.
  - intros k e He. destruct (h_entry0 k e He) as (Hi & Hok & Hg & Ht).
    pose proof (lookup_lt_Some _ _ _ He). split; [by eapply get_entry_holds|].
    rewrite h_first0, h_last0.
    rewrite (proj2 (Z.ltb_ge _ _)), (proj2 (Z.ltb_ge _ _)) by lia. simpl.
    by rewrite get_term_search.
  - intros i Hi. rewrite h_first0, h_last0.
    destruct (Z.ltb_spec i first), (Z.ltb_spec (first + Z.of_nat (length es) - 1) i); done || lia.
Qed.
(** ** Appending *)

Lemma append_accept e q :
  (forall b, last q = Some b -> index b < index e /\ id_term b <= id_term e) ->
  Forall (fun x => index x <= index e) q ->
  exists q' b, append e q = (0, q') /\ last q' = Some b /\ id_term b = id_term e /\
    Forall (fun x => index x <= index e) q'.
Proof.
  intros Hb Hq. unfold append. destruct (last q) as [b|] eqn:E.
  - destruct (Hb b eq_refl) as [Hi Ht].
    rewrite (proj2 (Z.leb_gt _ _)), (proj2 (Z.ltb_ge _ _)) by done. simpl.
    destruct (Z.eqb_spec (id_term e) (id_term b)) as [Et|Et]; simpl.
    + exists q, b. split_and!; done.
    + exists (q ++ [e]), e. rewrite last_snoc. split_and!; try done.
      apply Forall_app. split; [done|]. by constructor.
  - exists [e], e. split_and!; try done. by constructor.
Qed.

(** The ids follow on [last], their terms do not decrease and are not below the
    last term of the map. *)
Definition follow_on (l : Z) (q : list LogId) (es : list LogEntry) : Prop :=
  (forall k e, es !! k = Some e -> index (id e) = l + 1 + Z.of_nat k) /\
  StronglySorted (fun a b => id_term (id a) <= id_term (id b)) es /\
  (forall b e, last q = Some b -> e ∈ es -> id_term b <= id_term (id e)).

Lemma append_ids_follow es : forall l q,
  map_ok q -> Forall (fun x => index x <= l) q -> follow_on l q es ->
  exists q', append_ids es q = (true, q') /\ map_ok q' /\
    Forall (fun x => index x <= l + Z.of_nat (length es)) q' /\
    (forall i, i <= l -> term_of q' i = term_of q i) /\
    (forall k e, es !! k = Some e -> term_of q' (l + 1 + Z.of_nat k) = id_term (id e)).
Proof.
  induction es as [|e es IH]; intros l q Hok Hq (Hidx & Hsort & Hterm).
  { exists q. split_and!; simpl; try done. eapply Forall_impl; [exact Hq|]. simpl. lia. }
  pose proof (Hidx 0%nat e eq_refl) as He. simpl in He.
  destruct (append_accept (id e) q) as (q1 & b & Ha & Hlast & Hbt & Hle).
  { intros b Hb. split; [|apply Hterm; [done|by left]].
    apply last_Some in Hb as [q0 ->]. apply Forall_app in Hq as [_ Hb].
    inversion_clear Hb. lia. }
  { eapply Forall_impl; [exact Hq|]. simpl. lia. }
  destruct (append_spec _ _ _ Hok Ha) as (Hok1 & Hlow & Hhigh).
  apply StronglySorted_inv in Hsort as [Hsort Hall].
  destruct (IH (l + 1) q1) as (q' & Hids & Hok' & Hq' & Hlow' & Hhigh'); [done| | |].
  { eapply Forall_impl; [exact Hle|]. simpl. lia. }
  { split_and!; [|done|].
    - intros k x Hx. rewrite (Hidx (S k) x Hx). lia.
    - intros b' x Hb' Hx. rewrite Hlast in Hb'. injection Hb' as <-. rewrite Hbt.
      rewrite Forall_forall in Hall. by apply Hall. }
  exists q'. simpl. rewrite Ha. simpl. split_and!; [done|done| | |].
  - eapply Forall_impl; [exact Hq'|]. simpl. lia.
  - intros i Hi. rewrite Hlow', Hlow by lia. done.
  - intros [|k] x Hx; simpl in Hx.
    + injection Hx as <-. rewrite Hlow', Hhigh by lia. done.
    + rewrite <- (Hhigh' k x Hx). f_equal. lia.
Qed.

Lemma write_batch_other kvs : forall (d : D) k,
  k ∉ kvs.*1 -> db_get (write_batch d kvs) k = db_get d k.
Proof.
  induction kvs as [|[k0 v0] kvs IH]; intros d k Hk; [done|].
  simpl in Hk. apply not_elem_of_cons in Hk as [Hne Hk]. unfold write_batch. simpl.
  fold (write_batch (db_put d k0 v0) kvs). rewrite IH, get_put by done.
  by rewrite decide_False.
Qed.

Lemma write_batch_get kvs : forall (d : D) k v,
  NoDup kvs.*1 -> (k, v) ∈ kvs -> db_get (write_batch d kvs) k = Some v.
Proof.
  induction kvs as [|[k0 v0] kvs IH]; intros d k v Hnd Hk; [by apply elem_of_nil in Hk|].
  simpl in Hnd. apply NoDup_cons in Hnd as [Hnin Hnd]. unfold write_batch. simpl.
  fold (write_batch (db_put d k0 v0) kvs).
  apply elem_of_cons in Hk as [[= -> ->]|Hk]; [|by apply IH].
  rewrite write_batch_other, get_put by done. by rewrite decide_True.
Qed.

(** The pairs written for entries that can be stored. *)
Definition entry_pair (e : LogEntry) : bytes * bytes :=
  (data_key (index (id e)), default [] (value_of e)).

Definition entry_pairs (e : LogEntry) : bytes * bytes * option (bytes * bytes) :=
  (entry_pair e, binlog_of e).

Lemma build_pairs es :
  Forall ok es -> mapM (build_key_value region_id is_binlog_region) es = Some (entry_pairs <$> es).
Proof.
  induction 1 as [|e es He Hes IH]; [done|]. simpl. rewrite IH.
  unfold build_key_value, entry_pairs, entry_pair.
  destruct (value_of_some e He) as (rest & b & -> & -> & ->). done.
Qed.

Lemma mapM_pairs es kvs :
  mapM (build_key_value region_id is_binlog_region) es = Some kvs -> kvs = entry_pairs <$> es.
Proof.
  intros Hm%mapM_Some. induction Hm as [|e kv es kvs Hkv Hm IH]; [done|]. simpl. f_equal; [|done].
  unfold build_key_value in Hkv. unfold entry_pairs, entry_pair, raft_value, binlog_part.
  destruct (build_value is_binlog_region e) as [[v b]|]; [|done]. by injection Hkv as <-.
Qed.

Lemma entry_pairs_split es :
  (entry_pairs <$> es).*1 = entry_pair <$> es /\ omap snd (entry_pairs <$> es) = omap binlog_of es.
Proof.
  split; [by rewrite <- list_fmap_compose|]. induction es as [|e es IH]; [done|].
  cbn [fmap list_fmap omap list_omap snd entry_pairs]. cbn [omap] in IH. by rewrite IH.
Qed.

Lemma entry_keys_NoDup l es :
  - 2 ^ 63 <= l + 1 -> l + Z.of_nat (length es) < 2 ^ 63 ->
  (forall k e, es !! k = Some e -> index (id e) = l + 1 + Z.of_nat k) ->
  NoDup (entry_pair <$> es).*1.
Proof.
  intros Hlo Hhi Hidx. apply NoDup_alt. intros j k x Hj Hk.
  rewrite <- list_fmap_compose in Hj, Hk.
  apply list_lookup_fmap_Some in Hj as (a & -> & Ha), Hk as (b & E & Hb). simpl in E.
  pose proof (lookup_lt_Some _ _ _ Ha). pose proof (lookup_lt_Some _ _ _ Hb).
  rewrite (Hidx _ _ Ha), (Hidx _ _ Hb) in E.
  apply data_key_inj in E; unfold is_i; lia.
Qed.

(** The terms of the log are not above the last term of the map. *)
Lemma holds_last_term s first es e b :
  holds s first es -> e ∈ es -> last (term_map s) = Some b -> id_term (id e) <= id_term b.
Proof.
  intros [] He Hb. destruct es as [|z es _] using rev_ind; [by apply elem_of_nil in He|].
  assert (Hz : id_term (id z) = id_term b).
  { destruct (h_entry0 (length es) z) as (_ & _ & _ & <-).
    { rewrite lookup_app_r by lia. by rewrite Nat.sub_diag. }
    apply term_of_last; [done..|]. apply last_Some in Hb as [q0 Hq]. rewrite Hq in h_map_last0.
    apply Forall_app in h_map_last0 as [_ Hb]. inversion_clear Hb.
    rewrite h_last0, length_app in *. simpl in *. lia. }
  rewrite <- Hz. apply elem_of_app in He as [He|He]; [|apply list_elem_of_singleton in He as ->; lia].
  clear -h_sorted0 He. induction es as [|a es IH]; [by apply elem_of_nil in He|].
  simpl in h_sorted0. apply StronglySorted_inv in h_sorted0 as [Hs Ha].
  apply elem_of_cons in He as [->|He]; [|by apply IH].
  rewrite Forall_forall in Ha. apply Ha. apply elem_of_app. right. by apply list_elem_of_singleton.
Qed.

Lemma StronglySorted_append {A} (R : A -> A -> Prop) (l l' : list A) :
  StronglySorted R l -> StronglySorted R l' ->
  (forall x y, x ∈ l -> y ∈ l' -> R x y) -> StronglySorted R (l ++ l').
Proof.
  induction 1 as [|a l Hl IH Ha]; intros Hl' Hx; simpl; [done|]. constructor.
  - apply IH; [done|]. intros x y Hin. apply Hx. by apply elem_of_cons; right.
  - apply Forall_app. split; [done|]. apply Forall_forall. intros y Hy.
    apply Hx; [by apply elem_of_cons; left|done].
Qed.

(** What the store holds after the batch. *)
Lemma append_store s first es es' i :
  holds s first es -> Forall ok es' -> follow_on (last_log_index s) (term_map s) es' ->
  first + Z.of_nat (length (es ++ es')) < 2 ^ 63 -> is_i 64 i ->
  db_get (write_batch (db s) (entry_pair <$> es')) (data_key i) =
  if (last_log_index s <? i) && (i <=? last_log_index s + Z.of_nat (length es'))
  then es' !! Z.to_nat (i - last_log_index s - 1) ≫= value_of
  else db_get (db s) (data_key i).
Proof.
  intros [] Hok (Hidx & _ & _) Hlen Hi. rewrite length_app in Hlen.
  destruct (Z.ltb_spec (last_log_index s) i), (Z.leb_spec i (last_log_index s + Z.of_nat (length es')));
    simpl; [|apply write_batch_other..].
  { destruct (lookup_lt_is_Some_2 es' (Z.to_nat (i - last_log_index s - 1))) as [e He]; [lia|].
    rewrite He. simpl.
    destruct (value_of_some e) as (rest & b & _ & Hv & _); [by eapply Forall_lookup_1|].
    rewrite Hv. apply write_batch_get.
    - apply (entry_keys_NoDup (last_log_index s)); [lia..|done].
    - apply list_elem_of_fmap. exists e. split; [|by eapply list_elem_of_lookup_2].
      unfold entry_pair. rewrite Hv, (Hidx _ _ He). simpl. f_equal. f_equal. lia. }
  all: rewrite <- list_fmap_compose; intros (e & E & [k He]%list_elem_of_lookup_1)%list_elem_of_fmap.
  all: simpl in E; pose proof (lookup_lt_Some _ _ _ He); rewrite (Hidx _ _ He) in E.
  all: apply data_key_inj in E; unfold is_i in *; lia.
Qed.

Lemma append_ids_covers es : forall q q' i,
  append_ids es q = (true, q') ->
  covers q i \/ (q = [] /\ exists e es', es = e :: es' /\ index (id e) <= i) -> covers q' i.
Proof.
  induction es as [|e es IH]; intros q q' i.
  - intros [= <-] [?|(_ & ? & ? & [=] & _)]. done.
  - simpl. destruct (append (id e) q) as [r q1] eqn:Ha.
    destruct (Z.eqb_spec r 0) as [->|]; [|done]. simpl. intros Hids Hc.
    eapply IH; [done|]. left. eapply covers_append; [done|].
    destruct Hc as [?|(-> & ? & ? & [= -> ->] & ?)]; auto.
Qed.

(** No two prewrites share a timestamp. *)
Definition distinct_binlogs (es : list LogEntry) : Prop := NoDup (omap binlog_of es).*1.

Lemma binlog_store s first es es' e k v :
  holds s first es -> distinct_binlogs (es ++ es') -> e ∈ es ++ es' -> binlog_of e = Some (k, v) ->
  db_get (write_batch (binlog_db s) (omap binlog_of es')) k = Some v.
Proof.
  intros [] Hd [He|He]%elem_of_app Hb; unfold distinct_binlogs in Hd;
    rewrite omap_app, fmap_app in Hd; apply NoDup_app in Hd as (_ & Hdis & Hnd).
  - rewrite write_batch_other; [by eapply h_binlog0|]. apply Hdis.
    apply list_elem_of_fmap. exists (k, v). split; [done|]. apply list_elem_of_omap. eauto.
  - apply write_batch_get; [done|]. apply list_elem_of_omap. eauto.
Qed.

Lemma holds_append s first es es' q d b :
  holds s first es -> Forall ok es' -> es' <> [] -> distinct_binlogs (es ++ es') ->
  follow_on (last_log_index s) (term_map s) es' ->
  first + Z.of_nat (length (es ++ es')) < 2 ^ 63 ->
  append_ids es' (term_map s) = (true, q) -> d = write_batch (db s) (entry_pair <$> es') ->
  b = write_batch (binlog_db s) (omap binlog_of es') ->
  holds (mk_storage first (last_log_index s + Z.of_nat (length es')) q d b) first (es ++ es').
Proof.
  intros Hs Hok Hne Hdist Hf Hlen Hids -> ->. pose proof Hs as [].
  destruct (append_ids_follow es' _ _ h_map0 h_map_last0 Hf) as (q' & E & Hq & Hle & Hlow & Hhigh).
  rewrite Hids in E. injection E as <-.
  pose proof (fun i => append_store s first es es' i Hs Hok Hf Hlen) as Hstore.
  destruct Hf as (Hidx & Hsort & Hterm).
  assert (Hmiss : forall k, take 9 k <> take 9 (data_key 0) -> k ∉ (entry_pair <$> es').*1).
  { intros k Hk. rewrite <- list_fmap_compose. intros (e & -> & _)%list_elem_of_fmap.
    apply Hk. simpl. by rewrite !take_data_key. }
  rewrite length_app in Hlen.
  split; simpl; try done.
  - rewrite length_app. lia.
  - rewrite length_app. lia.
  - intros k e [He|[Hge He]]%lookup_app_Some.
    + destruct (h_entry0 k e He) as (? & ? & ? & ?). pose proof (lookup_lt_Some _ _ _ He).
      split_and!; [done..| |].
      * rewrite Hstore by (unfold is_i; lia). rewrite (proj2 (Z.ltb_ge _ _)) by lia. done.
      * by rewrite Hlow by lia.
    + pose proof (lookup_lt_Some _ _ _ He).
      replace (first + Z.of_nat k) with (last_log_index s + 1 + Z.of_nat (k - length es)) by lia.
      split_and!; [by apply Hidx|by eapply Forall_lookup_1| |by apply Hhigh].
      rewrite Hstore by (unfold is_i; lia).
      rewrite (proj2 (Z.ltb_lt _ _)), (proj2 (Z.leb_le _ _)) by lia. simpl.
      replace (Z.to_nat _) with (k - length es)%nat by lia. by rewrite He.
  - intros i Hi Hgt. rewrite Hstore by done. rewrite (proj2 (Z.leb_gt _ _)) by lia.
    rewrite andb_false_r. apply h_above0; [done|lia].
  - rewrite write_batch_other; [done|]. apply Hmiss. apply meta_key_prefix.
  - intros k v Hv Hk. destruct (decide (k ∈ (entry_pair <$> es').*1)) as [Hin|Hnin].
    + rewrite <- list_fmap_compose in Hin.
      apply list_elem_of_fmap in Hin as (e & -> & [j He]%list_elem_of_lookup_1). simpl.
      pose proof (lookup_lt_Some _ _ _ He). eexists. split; [|done].
      rewrite (Hidx _ _ He). unfold is_i. lia.
    + rewrite write_batch_other in Hv by done. eauto.
  - intros e k v He Hb. by eapply binlog_store.
  - intros _. eapply append_ids_covers; [done|]. destruct es as [|x es].
    + destruct (term_map s) as [|b q0] eqn:Eq.
      * right. split; [done|]. destruct es' as [|e es']; [done|]. exists e, es'. split; [done|].
        rewrite (Hidx 0%nat e) by done. simpl in *. lia.
      * left. exists b. split; [done|]. inversion_clear h_map_last0. simpl in *. lia.
    + left. by apply h_cover0.
  - apply StronglySorted_append; [done..|]. intros x y Hx Hy.
    destruct (last (term_map s)) as [b|] eqn:Eb.
    + etrans; [by eapply holds_last_term|by apply Hterm].
    + apply last_None in Eb. destruct es as [|z es]; [by apply elem_of_nil in Hx|].
      destruct h_cover0 as (b & Hb & _); [done|]. by rewrite Eb in Hb.
Qed.

(** C7. Appending entries that follow on the log, do not lower the term and do
    not reuse the timestamp of a binlog succeeds, and the storage then holds the
    longer log. *)
Theorem append_entries_refines s first es es' :
  holds s first es -> Forall ok es' -> es' <> [] -> distinct_binlogs (es ++ es') ->
  follow_on (last_log_index s) (term_map s) es' ->
  first + Z.of_nat (length (es ++ es')) < 2 ^ 63 ->
  exists s', append_entries region_id is_binlog_region true es' s = (Z.of_nat (length es'), s') /\
    holds s' first (es ++ es').
Proof.
  intros Hs Hok Hne Hdist Hf Hlen. pose proof Hs as [].
  destruct (entry_pairs_split es') as [Hraft Hbin].
  destruct (append_ids_follow es' _ _ h_map0 h_map_last0 Hf) as (q & Hids & _).
  destruct Hf as (Hidx & Hrest). destruct es' as [|e r]; [done|].
  unfold append_entries. rewrite build_pairs by done.
  rewrite (Hidx 0%nat e) by done.
  replace (last_log_index s + 1 + Z.of_nat 0) with (last_log_index s + 1) by lia.
  rewrite Z.eqb_refl, Hids, Hraft, Hbin. eexists. split; [done|].
  rewrite h_first0. eapply holds_append; done.
Qed.

(** ** Truncating *)

Lemma delete_all_get ks : forall (d : D) k,
  db_get (foldl db_delete d ks) k = if decide (k ∈ ks) then None else db_get d k.
Proof.
  induction ks as [|k0 ks IH]; intros d k; cbn [foldl].
  - rewrite decide_False; [done|apply not_elem_of_nil].
  - rewrite IH, get_delete. destruct (decide (k ∈ ks)) as [Hin|Hnin].
    + rewrite decide_True; [done|]. by apply elem_of_cons; right.
    + destruct (decide (k = k0)) as [->|Hne].
      * rewrite decide_True; [done|]. by apply elem_of_cons; left.
      * rewrite decide_False; [done|]. by rewrite elem_of_cons; intros [?|?].
Qed.

(** The keys [truncate_suffix] deletes. *)
Lemma elem_of_dels lo n i :
  is_i 64 i -> - 2 ^ 63 <= lo -> lo + Z.of_nat n <= 2 ^ 63 ->
  data_key i ∈ ((fun k => data_key (lo + Z.of_nat k)) <$> seq 0 n) <->
  lo <= i < lo + Z.of_nat n.
Proof.
  intros Hi Hlo Hn. rewrite list_elem_of_fmap. split.
  - intros (k & E & Hk%elem_of_seq). apply data_key_inj in E; unfold is_i in *; lia.
  - intros Hin. exists (Z.to_nat (i - lo)). split; [f_equal; lia|]. apply elem_of_seq. lia.
Qed.

Lemma StronglySorted_take {A} (R : A -> A -> Prop) (l : list A) n :
  StronglySorted R l -> StronglySorted R (take n l).
Proof.
  intros Hl. revert n. induction Hl as [|a l Hl IH Ha]; intros [|n]; simpl; constructor; [done|].
  by apply Forall_take.
Qed.

Lemma StronglySorted_drop {A} (R : A -> A -> Prop) (l : list A) n :
  StronglySorted R l -> StronglySorted R (drop n l).
Proof.
  intros Hl. revert n. induction Hl as [|a l Hl IH Ha]; intros [|n]; simpl; auto; by constructor.
Qed.

Lemma elem_of_take_in {A} (l : list A) n x : x ∈ take n l -> x ∈ l.
Proof. intros Hx. rewrite <- (take_drop n l). apply elem_of_app. by left. Qed.

Lemma elem_of_drop_in {A} (l : list A) n x : x ∈ drop n l -> x ∈ l.
Proof. intros Hx. rewrite <- (take_drop n l). apply elem_of_app. by right. Qed.

Lemma holds_truncate_suffix s first es k :
  holds s first es -> first - 1 <= k ->
  holds (storage_truncate_suffix region_id true k s).2 first
    (take (Z.to_nat (k - first + 1)) es).
Proof.
  intros Hs Hk. pose proof Hs as []. unfold storage_truncate_suffix.
  destruct (Z.leb_spec (last_log_index s) k) as [Hle|Hgt]; [by rewrite take_ge by lia|].
  assert (Hdel : forall i, is_i 64 i ->
    db_get (foldl db_delete (db s)
      ((fun j => data_key (k + 1 + Z.of_nat j)) <$> seq 0 (Z.to_nat (last_log_index s - k))))
      (data_key i) = if (k <? i) && (i <=? last_log_index s) then None
                     else db_get (db s) (data_key i)).
  { intros i Hi. rewrite delete_all_get.
    destruct (Z.ltb_spec k i), (Z.leb_spec i (last_log_index s)); simpl;
      [rewrite decide_True; [done|]|rewrite decide_False; [done|]..];
      rewrite elem_of_dels by (unfold is_i in *; lia); lia. }
  destruct (truncate_suffix_spec k (term_map s) h_map0) as (Hm & Hle & Ht).
  split; simpl; try done.
  - rewrite length_take. lia.
  - rewrite length_take. lia.
  - intros j e [He Hj]%lookup_take_Some. destruct (h_entry0 j e He) as (? & ? & ? & ?).
    split_and!; [done..| |rewrite Ht by lia; done].
    rewrite Hdel by (unfold is_i; lia). by rewrite (proj2 (Z.ltb_ge _ _)) by lia.
  - intros i Hi Hki. rewrite Hdel by done. rewrite (proj2 (Z.ltb_lt _ _)) by done.
    destruct (Z.leb_spec i (last_log_index s)); [done|]. simpl. by apply h_above0.
  - rewrite delete_all_get, decide_False; [done|].
    intros (j & E & _)%list_elem_of_fmap. by apply meta_key_data_key in E.
  - intros x v. rewrite delete_all_get. destruct decide; [done|]. apply h_keys0.
  - intros e x v He%elem_of_take_in. by apply h_binlog0.
  - intros Hne. apply covers_truncate_suffix.
    + apply h_cover0. intros ->. by rewrite take_nil in Hne.
    + destruct (Z.to_nat (k - first + 1)) eqn:E; [done|lia].
  - by apply StronglySorted_take.
Qed.

Lemma holds_truncate_prefix s first es k range_ok :
  holds s first es -> first <= k < 2 ^ 63 ->
  holds (storage_truncate_prefix region_id true range_ok k s).2 k
    (drop (Z.to_nat (k - first)) es).
Proof.
  intros Hs Hk. pose proof Hs as []. unfold storage_truncate_prefix. rewrite h_first0.
  destruct (Z.leb_spec k first) as [Hle|Hgt].
  { replace k with first by lia. by rewrite Z.sub_diag. }
  rewrite (proj2 (Z.ltb_ge first 0)) by lia. simpl negb. cbv iota. cbn [db term_map].
  destruct (truncate_prefix_spec k (term_map s) h_map0) as [Hm Ht].
  set (d := db_put (db s) meta_key (mem_store 8 (u64 k))).
  set (d' := if negb range_ok then d else db_remove_range d (data_key first) (data_key k)).
  assert (Hd : forall i, is_i 64 i -> k <= i -> db_get d' (data_key i) = db_get (db s) (data_key i)).
  { intros i Hi Hki. subst d' d. destruct range_ok; simpl.
    - rewrite get_remove_range, data_key_in_range by (done || unfold is_i; lia).
      rewrite (proj2 (Z.ltb_ge i k)) by done. rewrite andb_false_r, get_put, decide_False; [done|].
      intros E. by apply symmetry, meta_key_data_key in E.
    - rewrite get_put, decide_False; [done|]. intros E. by apply symmetry, meta_key_data_key in E. }
  set (l := if last_log_index s <? k then k - 1 else last_log_index s).
  assert (Hl : l = Z.max (last_log_index s) (k - 1)).
  { subst l. destruct (Z.ltb_spec (last_log_index s) k); lia. }
  enough (holds (mk_storage k l (truncate_prefix k (term_map s)) d' (binlog_db s)) k
            (drop (Z.to_nat (k - first)) es)) by (subst d'; by destruct range_ok).
  split; simpl; try done.
  - rewrite length_drop. lia.
  - rewrite length_drop. lia.
  - intros j e He. rewrite lookup_drop in He.
    destruct (h_entry0 _ e He) as (? & ? & ? & ?). pose proof (lookup_lt_Some _ _ _ He).
    replace (k + Z.of_nat j) with (first + Z.of_nat (Z.to_nat (k - first) + j)) by lia.
    split_and!; [done..| |]; [rewrite Hd by (unfold is_i; lia); done|rewrite Ht by lia; done].
  - intros i Hi Hli. rewrite Hd by (done || lia). apply h_above0; [done|lia].
  - subst d' d. destruct range_ok; simpl.
    + rewrite get_remove_range, meta_key_in_range, get_put, decide_True; done.
    + by rewrite get_put, decide_True.
  - intros x v Hv Hx. apply (h_keys0 x v); [|done].
    assert (Hxm : x <> meta_key) by (intros ->; by apply meta_key_prefix in Hx).
    subst d' d. destruct range_ok; simpl in Hv.
    + rewrite get_remove_range, get_put, decide_False in Hv by done. by destruct in_range.
    + by rewrite get_put, decide_False in Hv.
  - unfold truncate_prefix. destruct (term_map s); [done|]. apply Forall_drop.
    eapply Forall_impl; [exact h_map_last0|]. simpl. lia.
  - intros e x v He%elem_of_drop_in. by apply h_binlog0.
  - intros Hne. eapply covers_truncate_prefix; [|apply Hk].
    apply h_cover0. intros ->. by rewrite drop_nil in Hne.
  - by apply StronglySorted_drop.
Qed.

Lemma truncate_both s first es next range_ok :
  holds s first es -> first < next < 2 ^ 63 ->
  holds (storage_truncate_suffix region_id true (next - 1)
           (storage_truncate_prefix region_id true range_ok next s).2).2 next [].
Proof.
  intros Hs Hn.
  assert (Hp : first <= next < 2 ^ 63) by lia.
  pose proof (holds_truncate_prefix s first es next range_ok Hs Hp) as Hpre.
  pose proof (holds_truncate_suffix _ next _ (next - 1) Hpre ltac:(lia)) as Hsuf.
  by replace (Z.to_nat (next - 1 - next + 1)) with 0%nat in Hsuf by lia.
Qed.

(** Truncating the end of the log removes exactly the entries above the
    index kept, from the store and from the term map. *)
Theorem truncate_suffix_refines s first es k :
  holds s first es -> first - 1 <= k ->
  holds (storage_truncate_suffix region_id true k s).2 first
    (take (Z.to_nat (k - first + 1)) es).
Proof. apply holds_truncate_suffix. Qed.

(** C35. Truncating the start of the log keeps the entries from the index kept
    on, and moves the first index in the store, even when the removal of the
    old entries fails or the index is past the end. *)
Theorem truncate_prefix_refines s first es k range_ok :
  holds s first es -> first <= k < 2 ^ 63 ->
  holds (storage_truncate_prefix region_id true range_ok k s).2 k
    (drop (Z.to_nat (k - first)) es).
Proof. apply holds_truncate_prefix. Qed.

(** ** Recovery *)

Definition is_conf (e : LogEntry) : bool := type e =? ENTRY_TYPE_CONFIGURATION.

(** The loop over the stored entries rebuilds the term map. *)
Lemma init_loop_entries es : forall l q q' last confs,
  Forall ok es ->
  (forall k e, es !! k = Some e -> index (id e) = l + 1 + Z.of_nat k) ->
  - 2 ^ 63 <= l + 1 -> l + Z.of_nat (length es) < 2 ^ 63 ->
  append_ids es q = (true, q') ->
  init_loop region_id (entry_pair <$> es) (l + 1) last q confs =
  Some (if (length es =? 0)%nat then last else l + Z.of_nat (length es), q',
        confs ++ List.filter is_conf es).
Proof.
  induction es as [|e es IH]; intros l q q' last confs Hok Hidx Hlo Hhi Hids.
  { injection Hids as <-. simpl. by rewrite app_nil_r. }
  inversion_clear Hok as [|? ? He Hok']. simpl in Hhi.
  assert (Hi : index (id e) = l + 1) by (rewrite (Hidx 0%nat e eq_refl); lia).
  cbn [append_ids] in Hids. destruct (append (id e) q) as [r q1] eqn:Ha.
  destruct (Z.eqb_spec r 0) as [->|]; [|done]. cbn [negb] in Hids.
  destruct (value_of_some e He) as (rest & b & Hb & Hv & _). pose proof He as (Ht & Hty & _).
  assert (Hpair : entry_pair e = (data_key (index (id e)), head_pack (id_term (id e)) (type e) ++ rest))
    by (unfold entry_pair; by rewrite Hv).
  cbn [fmap list_fmap]. rewrite Hpair. cbn [init_loop].
  rewrite Hi, decode_data_key by (done || unfold is_i; lia). cbn [mbind option_bind].
  rewrite !Z.eqb_refl. cbn [negb].
  rewrite (proj2 (Nat.ltb_ge _ _)) by (rewrite length_app, head_pack_length; lia).
  rewrite head_roundtrip by done.
  replace (mk_id (l + 1) (id_term (id e))) with (id e) by (rewrite <- Hi; by destruct (id e)).
  rewrite Ha. cbn [negb Z.eqb].
  assert (Hnext : forall confs', init_loop region_id (entry_pair <$> es) (l + 1 + 1) (l + 1) q1 confs' =
    Some (l + Z.of_nat (S (length es)), q', confs' ++ List.filter is_conf es)).
  { intros confs'. rewrite (IH (l + 1) q1 q' (l + 1) confs'); [|done| |lia|lia|done].
    - destruct (length es) eqn:E; simpl; do 3 f_equal; lia.
    - intros k x Hx. rewrite (Hidx (S k) x Hx). lia. }
  cbn [List.filter]. change (is_conf e) with (type e =? ENTRY_TYPE_CONFIGURATION).
  destruct (Z.eqb_spec (type e) ENTRY_TYPE_CONFIGURATION) as [Ey|Ey].
  - pose proof (parse_conf is_binlog_region e rest b He Ey Hb) as Hp.
    rewrite drop_app_length' by (by rewrite head_pack_length).
    rewrite Hp. cbn. rewrite Hnext. by rewrite <- app_assoc.
  - apply Hnext.
Qed.

Lemma key_lt_unique (l l' : list (bytes * bytes)) :
  StronglySorted key_lt l -> StronglySorted key_lt l' -> (forall x, x ∈ l <-> x ∈ l') -> l = l'.
Proof.
  intros Hl Hl' Hx.
  assert (Hnd : forall l, StronglySorted key_lt l -> NoDup l).
  { induction 1 as [|a m Hm IH Ha]; constructor; [|done].
    intros Hin. rewrite Forall_forall in Ha. specialize (Ha a Hin).
    unfold key_lt in Ha. by rewrite lex_compare_refl in Ha. }
  assert (AntiSymm eq key_lt).
  { intros a b Hab Hba. unfold key_lt in *. rewrite lex_compare_antisym, Hab in Hba. done. }
  apply (StronglySorted_unique key_lt); [done..|]. by apply NoDup_Permutation; auto.
Qed.

(** The iterator visits exactly the entries of the log, in order. *)
Lemma holds_scan s first es :
  holds s first es -> db_scan (db s) 9 (data_key first) = entry_pair <$> es.
Proof.
  intros []. apply key_lt_unique; [apply scan_sorted| |].
  - assert (Hidx : forall k e, es !! k = Some e -> index (id e) = first + Z.of_nat k)
      by (intros k e He; exact (proj1 (h_entry0 k e He))).
    clear -Hidx h_range0 region_ok. revert first h_range0 Hidx.
    induction es as [|e es IH]; intros first Hr Hidx; simpl; constructor.
    + apply (IH (first + 1)); [simpl in Hr; lia|]. intros k x Hx. rewrite (Hidx (S k) x Hx). lia.
    + apply Forall_fmap, Forall_forall. intros x [k Hx]%list_elem_of_lookup_1.
      unfold key_lt. simpl. pose proof (lookup_lt_Some _ _ _ Hx). simpl in Hr.
      rewrite (Hidx 0%nat e eq_refl), (Hidx (S k) x Hx).
      rewrite data_key_compare by (unfold is_i; lia). apply Z.compare_lt_iff. lia.
  - intros [k v]. rewrite elem_of_scan, list_elem_of_fmap. split.
    + intros (Hg & Hpre & Hcmp).
      destruct (h_keys0 k v Hg) as (i & Hi & ->); [by rewrite Hpre, !take_data_key|].
      rewrite data_key_compare in Hcmp by (done || unfold is_i; lia).
      assert (Hge : first <= i) by (apply Z.compare_le_iff; done).
      destruct (Z.le_gt_cases i (last_log_index s)) as [Hle|Hgt];
        [|by rewrite (h_above0 i Hi Hgt) in Hg].
      destruct (lookup_lt_is_Some_2 es (Z.to_nat (i - first))) as [e He]; [lia|].
      destruct (h_entry0 _ e He) as (Hidx & _ & Hv & _).
      replace (first + Z.of_nat (Z.to_nat (i - first))) with i in * by lia.
      exists e. split; [|by eapply list_elem_of_lookup_2].
      unfold entry_pair. rewrite <- Hv, Hg, Hidx. done.
    + intros (e & [= -> ->] & [j He]%list_elem_of_lookup_1).
      destruct (h_entry0 j e He) as (Hidx & Hok & Hv & _). pose proof (lookup_lt_Some _ _ _ He).
      destruct (value_of_some e Hok) as (rest & b & _ & Hb & _). rewrite Hidx, Hv, Hb. split; [done|].
      split; [by rewrite !take_data_key|].
      rewrite data_key_compare by (unfold is_i; lia). rewrite Z.compare_gt_iff. lia.
Qed.

(** C2. After a restart, reading the store gives back the same log, with its
    first and last index and the term of every entry, and reports its
    configuration entries in order. *)
Theorem init_recovers s first es put_ok :
  holds s first es ->
  exists s', init region_id true put_ok true (db s) (binlog_db s) = Some (s', List.filter is_conf es) /\
    db s' = db s /\ holds s' first es.
Proof.
  intros Hs. pose proof (holds_scan s first es Hs) as Hscan. pose proof Hs as [].
  assert (Hf : follow_on (first - 1) [] es).
  { split_and!; [|done|done]. intros k e He. destruct (h_entry0 k e He) as [-> _]. lia. }
  destruct (append_ids_follow es (first - 1) []) as (q & Hids & Hq & Hle & _ & Hterm);
    [constructor|done|done|].
  unfold init. cbn [negb]. rewrite h_meta0. cbn [mbind option_bind].
  assert (Hu : u64 first = first) by (apply wrap_id; unfold is_u; lia).
  pose proof (mem_load_store [] 8 (u64 first) []) as Hload.
  rewrite app_nil_r in Hload. cbn [app length] in Hload. change (Z.of_nat 0) with 0 in Hload.
  rewrite Hload by (rewrite Hu; change (256 ^ Z.of_nat 8) with (2 ^ 64); lia). cbn [mbind option_bind].
  rewrite Hu, swrap_id by (unfold is_i; lia). unfold LOG_META_KEY_SIZE. rewrite Hscan.
  pose proof (init_loop_entries es (first - 1) [] q 0 []) as Hrun.
  replace (first - 1 + 1) with first in Hrun by lia. rewrite Hrun; [|..]; try done; try lia.
  - cbn [mbind option_bind negb app].
    set (l := if (length es =? 0)%nat then 0 else first - 1 + Z.of_nat (length es)).
    assert (Hlast : (if l =? 0 then first - 1 else l) = last_log_index s).
    { subst l. destruct (Nat.eqb_spec (length es) 0) as [E|E]; [simpl; lia|].
      destruct (Z.eqb_spec (first - 1 + Z.of_nat (length es)) 0); lia. }
    rewrite Hlast. eexists. split; [done|]. split; [done|]. split; cbn; try done.
    + intros k e He. destruct (h_entry0 k e He) as (? & ? & ? & ?).
      split_and!; [done..|]. rewrite <- (Hterm k e He). f_equal. lia.
    + eapply Forall_impl; [exact Hle|]. simpl. lia.
    + intros Hne. eapply append_ids_covers; [done|]. right. split; [done|].
      destruct es as [|e es]; [done|]. exists e, es. split; [done|].
      destruct (h_entry0 0%nat e eq_refl) as [-> _]. lia.
  - apply Forall_forall. intros e [k He]%list_elem_of_lookup_1. by destruct (h_entry0 k e He) as (_ & ? & _).
  - intros k e He. exact (proj1 (h_entry0 k e He)).
Qed.

(** A store without any key of the region. *)
Definition no_region (d : D) : Prop :=
  db_get d meta_key = None /\
  forall k v, db_get d k = Some v -> take 9 k <> take 9 (data_key 0).

Lemma init_new d b :
  no_region d -> exists s, init region_id true true true d b = Some (s, []) /\ holds s 1 [].
Proof.
  intros [Hmeta Hno]. unfold init. cbn [negb]. rewrite Hmeta. cbn [mbind option_bind].
  set (d' := db_put d meta_key (mem_store 8 1)).
  assert (Hd' : forall k v, db_get d' k = Some v -> take 9 k <> take 9 (data_key 0)).
  { intros k v. subst d'. rewrite get_put. destruct (decide (k = meta_key)) as [->|]; [|apply Hno].
    intros _. apply meta_key_prefix. }
  assert (Hscan : db_scan d' 9 (data_key 1) = []).
  { apply elem_of_nil_inv. intros [k v]. rewrite elem_of_scan. intros (Hg & Hk & _).
    apply (Hd' k v Hg). by rewrite Hk, !take_data_key. }
  unfold LOG_META_KEY_SIZE. rewrite Hscan. cbn. eexists. split; [done|].
  split; cbn; try done; try (by constructor).
  - intros i Hi _. destruct (db_get d' (data_key i)) as [v|] eqn:E; [|done].
    apply Hd' in E. by rewrite !take_data_key in E.
  - subst d'. by rewrite get_put, decide_True.
  - intros k v Hg Hk. by apply Hd' in Hg.
  - intros e k v He. by apply elem_of_nil in He.
Qed.

(** A reset past the first index leaves an empty log that starts at the
    index given, whether or not the old entries could be removed. *)
Theorem reset_refines s first es next range_ok :
  holds s first es -> first < next < 2 ^ 63 ->
  holds (storage_reset region_id true range_ok true next s).2 next [].
Proof.
  intros Hs Hn. unfold storage_reset.
  destruct (truncate_both s first es next range_ok Hs Hn) as [? ? ? ? ? ? ? ? ? ?]. simpl in *.
  split; simpl; try done. constructor.
Qed.

(** ** Failures *)

Lemma append_ids_undo es : forall l q r q',
  Forall (fun x => index x <= l) q -> Forall (fun e => l < index (id e)) es ->
  append_ids es q = (r, q') -> truncate_suffix l q' = q.
Proof.
  assert (Hgen : forall es l q0 q r q', Forall (fun e => l < index (id e)) es ->
    truncate_suffix l q = q0 -> append_ids es q = (r, q') -> truncate_suffix l q' = q0).
  { clear. intros es l q0. induction es as [|e es IH]; intros q r q' Hes Hq; simpl.
    - by intros [= _ <-].
    - inversion_clear Hes as [|? ? He Hes']. destruct (append (id e) q) as [ret q1] eqn:Ha.
      assert (Hq1 : truncate_suffix l q1 = q0) by (rewrite <- Hq; by eapply append_truncate).
      destruct negb; [by intros [= _ <-]|]. by apply IH. }
  intros l q r q' Hq Hes. apply Hgen; [done|]. by apply truncate_suffix_id.
Qed.

(** C37. An append that fails, on a gap, an entry that cannot be stored, a
    failed write or a refused term, leaves the log as it was: the same first
    and last index, the same terms, the same entries.  The indices of the new
    entries lie behind the log, and no binlog timestamp is used twice. *)
Theorem append_entries_failure s first es es' write_ok r s' :
  holds s first es -> distinct_binlogs (es ++ es') ->
  Forall (fun e => last_log_index s < index (id e) < 2 ^ 63) es' ->
  append_entries region_id is_binlog_region write_ok es' s = (r, s') -> r < 0 ->
  first_log_index s' = first_log_index s /\ last_log_index s' = last_log_index s /\
  term_map s' = term_map s /\
  (forall k e, es !! k = Some e -> get_entry region_id is_binlog_region old_binlog_db (first + Z.of_nat k) s' = Some e).
Proof.
  intros Hs Hdist Hes Ha Hr. pose proof Hs as [].
  assert (Hread : forall k e, es !! k = Some e ->
    get_entry region_id is_binlog_region old_binlog_db (first + Z.of_nat k) s = Some e)
    by (intros; by eapply get_entry_holds).
  unfold append_entries in Ha. destruct es' as [|e0 es0]; [injection Ha as <- <-; lia|].
  destruct negb; [by injection Ha as <- <-|].
  destruct (mapM _ _) as [kvs|] eqn:Ekv; [|by injection Ha as <- <-].
  destruct write_ok; [|by injection Ha as <- <-]. simpl negb in Ha. cbv iota in Ha.
  destruct (append_ids _ _) as [ok q] eqn:Eq. destruct ok; injection Ha as <- <-; [lia|].
  cbn. split_and!; [done..| |].
  - eapply append_ids_undo; [done| |done]. eapply Forall_impl; [exact Hes|]. simpl. lia.
  - intros k e He. apply mapM_pairs in Ekv as ->.
    destruct (entry_pairs_split (e0 :: es0)) as [-> ->].
    destruct (h_entry0 k e He) as (Hi & Hok & Hg & _). pose proof (lookup_lt_Some _ _ _ He).
    destruct (value_of_some e Hok) as (rest & b & Hv & Hval & Hb).
    unfold get_entry. cbn [db]. rewrite write_batch_other.
    + rewrite Hg, Hval. cbn [mbind option_bind]. rewrite <- Hi. eapply parse_build; [done..|].
      intros k' d ->. cbn [binlog_db]. eapply (binlog_store s first es); [done..| |done].
      apply elem_of_app. left. by eapply list_elem_of_lookup_2.
    + rewrite <- list_fmap_compose. intros (e1 & E & He1)%list_elem_of_fmap. simpl in E.
      rewrite Forall_forall in Hes. specialize (Hes e1 He1).
      apply data_key_inj in E; unfold is_i; lia.
Qed.

End Refinement.
