(* ===== verification/RaftLogExamples.v ===== *)
(** * The raft log on a concrete store: witnesses and unexpected behaviour *)

From Stdlib Require Import Sorted.
From stdpp Require Import gmap sorting.
From S2P Require Import Prelude KeyEncoder KvStore IndexTermMap RaftLog RaftLogFacts.

(** ** Serializations with the laws *)

#[local] Instance le_machine : Host := false.

(** Texts one after the other, each with its length. *)
Definition texts_write (l : list bytes) : bytes := l ≫= fun t => Z.of_nat (length t) :: t.

Fixpoint texts_parse (fuel : nat) (s : bytes) : list bytes :=
  match fuel, s with
  | S fuel, n :: s => take (Z.to_nat n) s :: texts_parse fuel (drop (Z.to_nat n) s)
  | _, _ => []
  end.

Lemma texts_roundtrip l fuel :
  (length l <= fuel)%nat -> texts_parse fuel (texts_write l) = l.
Proof.
  revert fuel. induction l as [|t l IH]; intros fuel Hf; [by destruct fuel|].
  destruct fuel as [|fuel]; [simpl in Hf; lia|]. unfold texts_write. rewrite bind_cons. simpl.
  rewrite Nat2Z.id, take_app_length, drop_app_length. f_equal. apply IH. simpl in Hf. lia.
Qed.

Lemma texts_write_length l : (length l <= length (texts_write l))%nat.
Proof.
  induction l as [|t l IH]; [done|]. unfold texts_write in *.
  rewrite bind_cons, length_app. simpl. lia.
Qed.

#[local] Instance demo_braft : Braft := {
  ENTRY_TYPE_NO_OP := 1;
  ENTRY_TYPE_DATA := 2;
  ENTRY_TYPE_CONFIGURATION := 3;
  head_pack t c := be_split 8 (u64 t) ++ be_split 4 (u32 c);
  head_unpack b := (i64 (be_combine (take 8 b)), i32 (be_combine (take 4 (drop 8 b))));
  conf_write ps os := Z.of_nat (length (texts_write ps)) :: texts_write ps ++ texts_write os;
  conf_parse b :=
    match b with
    | n :: b => Some (texts_parse (length b) (take (Z.to_nat n) b),
                      texts_parse (length b) (drop (Z.to_nat n) b))
    | [] => None
    end
}.

#[local] Instance demo_braft_laws : BraftLaws.
Proof.
  split; cbn -[be_split be_combine].
  - apply (bool_decide_eq_true_1 (NoDup [1; 2; 3])). reflexivity.
  - intros. by rewrite length_app, !length_be_split.
  - intros t c rest Ht Hc.
    rewrite <- app_assoc, take_app_length', drop_app_length', take_app_length'
      by by rewrite length_be_split.
    pose proof (wrap_range 64 t ltac:(lia)). pose proof (wrap_range 32 c ltac:(lia)).
    unfold is_u in *.
    rewrite !be_combine_split by (change (256 ^ Z.of_nat 8) with (2 ^ 64) ||
      change (256 ^ Z.of_nat 4) with (2 ^ 32); lia).
    by rewrite !swrap_wrap_id by (done || lia).
  - intros ps os. rewrite Nat2Z.id, take_app_length, drop_app_length.
    pose proof (texts_write_length ps). pose proof (texts_write_length os).
    rewrite !texts_roundtrip by (rewrite length_app; lia). done.
Qed.

(** A request as its fields one after the other. *)
#[local] Instance demo_req : StoreReqLib := {
  req_parse b :=
    match b with
    | op :: r :: v :: 1 :: ts :: n :: rest =>
        Some (mk_store_req op r v (Some (mk_desc (Some ts) (take (Z.to_nat n) rest)))
                (drop (Z.to_nat n) rest))
    | op :: r :: v :: 0 :: rest => Some (mk_store_req op r v None rest)
    | _ => None
    end;
  req_serialize r :=
    match binlog_desc r with
    | Some (mk_desc (Some ts) d) =>
        Some (op_type r :: req_region_id r :: region_version r :: 1 :: ts ::
              Z.of_nat (length d) :: d ++ req_rest r)
    | Some (mk_desc None _) => None
    | None => Some (op_type r :: req_region_id r :: region_version r :: 0 :: req_rest r)
    end
}.

#[local] Instance demo_req_laws : StoreReqLaws.
Proof.
  split. intros [op rg v de rest] [bts dr] ts Hd Hts _ Hr. simpl in Hd, Hts, Hr. subst.
  eexists. split; [reflexivity|]. cbn -[Z.of_nat]. rewrite app_nil_r, Nat2Z.id.
  by rewrite firstn_all, skipn_all.
Qed.

(** ** A binlog region with a log of three entries *)

(** A prewrite with its timestamp and the data it carries. *)
Definition data_entry (i t : Z) : LogEntry :=
  mk_entry (mk_id i t) 2 [61; 7; 1; 1; 1000 + i; 0; 5; 5] None None.
Definition conf_entry (i t : Z) : LogEntry := mk_entry (mk_id i t) 3 [] (Some [[49]; [50; 51]]) None.
Definition noop_entry (i t : Z) : LogEntry := mk_entry (mk_id i t) 1 [] None None.

Definition demo_entries : list LogEntry := [data_entry 1 1; conf_entry 2 1; noop_entry 3 2].

Lemma region_7_ok : is_i 64 7.
Proof. unfold is_i. lia. Qed.

(** A storage that holds the three entries, from a new region. *)
Definition demo_new : Storage Store :=
  match init 7 true true true ∅ ∅ with
  | Some (s, _) => s
  | None => mk_storage 0 0 [] ∅ ∅
  end.
Definition demo_storage : Storage Store := (append_entries 7 true true demo_entries demo_new).2.

Lemma demo_new_holds : holds 7 true demo_new 1 [].
Proof.
  destruct (init_new 7 true (∅ : Store) ∅) as (s & Hi & Hs).
  { split; [done|]. intros k v. simpl. by rewrite lookup_empty. }
  unfold demo_new. rewrite Hi. exact Hs.
Qed.

Lemma demo_entries_ok : Forall (entry_ok true) demo_entries.
Proof.
  unfold demo_entries, entry_ok, is_i. rewrite !Forall_cons, Forall_nil. cbn.
  split_and!; try lia; try done.
  - left. split_and!; try done. intros _. eexists. split; [reflexivity|].
    intros _. exists (mk_desc (Some 1001) []), 1001. by split_and!.
  - right. left. split_and!; eauto.
  - right. right. by split_and!.
Qed.

Lemma follow_on_of_list l q es :
  (forall k e, es !! k = Some e -> index (id e) = l + 1 + Z.of_nat k) ->
  StronglySorted (fun a b => id_term (id a) <= id_term (id b)) es -> q = [] -> follow_on l q es.
Proof. intros Hi Hs ->. split_and!; [done..|]. intros b e [=]. Qed.

Lemma demo_follow : follow_on (last_log_index demo_new) (term_map demo_new) demo_entries.
Proof.
  apply follow_on_of_list.
  - intros k e He. destruct k as [|[|[|k]]]; simplify_eq/=; reflexivity.
  - repeat constructor; simpl; lia.
  - reflexivity.
Qed.

Lemma demo_distinct : distinct_binlogs true ([] ++ demo_entries).
Proof. apply NoDup_ListNoDup. vm_compute. repeat constructor; simpl; intuition discriminate. Qed.

Lemma append_entries_refines_witness :
  exists s', append_entries 7 true true demo_entries demo_new = (3, s') /\
    holds 7 true s' 1 ([] ++ demo_entries).
Proof.
  apply (append_entries_refines 7 true None demo_new 1 [] demo_entries).
  - exact demo_new_holds.
  - exact demo_entries_ok.
  - discriminate.
  - exact demo_distinct.
  - exact demo_follow.
  - reflexivity.
Defined.

Lemma demo_storage_holds : holds 7 true demo_storage 1 demo_entries.
Proof.
  assert (Hi : append_entries 7 true true demo_entries demo_new = (3, demo_storage))
    by (vm_compute; reflexivity).
  destruct (append_ids_follow demo_entries _ _ (h_map _ _ _ _ _ demo_new_holds)
              (h_map_last _ _ _ _ _ demo_new_holds) demo_follow) as (q & Hq & _).
  pose proof (holds_append 7 true None demo_new 1 [] demo_entries q _ _ demo_new_holds demo_entries_ok
                ltac:(discriminate) demo_distinct demo_follow ltac:(reflexivity) Hq eq_refl eq_refl) as Hh.
  vm_compute in Hq. injection Hq as <-. exact Hh.
Qed.

Lemma read_correct_witness :
  get_entry 7 true None (1 + Z.of_nat 0) demo_storage = Some (data_entry 1 1).
Proof. apply (read_correct 7 true None demo_storage 1 demo_entries demo_storage_holds). reflexivity. Defined.

Lemma truncate_suffix_refines_witness :
  holds 7 true (storage_truncate_suffix 7 true 2 demo_storage).2 1 [data_entry 1 1; conf_entry 2 1].
Proof. apply (truncate_suffix_refines 7 true demo_storage 1 demo_entries 2 demo_storage_holds). lia. Defined.

Lemma truncate_prefix_refines_witness :
  holds 7 true (storage_truncate_prefix 7 true false 3 demo_storage).2 3 [noop_entry 3 2].
Proof. apply (truncate_prefix_refines 7 true demo_storage 1 demo_entries 3 false demo_storage_holds). lia. Defined.

Lemma reset_refines_witness :
  holds 7 true (storage_reset 7 true true true 10 demo_storage).2 10 [].
Proof. apply (reset_refines 7 true demo_storage 1 demo_entries 10 true demo_storage_holds). lia. Defined.

Lemma init_recovers_witness :
  exists s', init 7 true true true (db demo_storage) (binlog_db demo_storage) = Some (s', [conf_entry 2 1]) /\
    db s' = db demo_storage /\ holds 7 true s' 1 demo_entries.
Proof. apply (init_recovers 7 true None region_7_ok demo_storage 1 demo_entries true demo_storage_holds). Defined.

Lemma append_entries_failure_witness :
  term_map (append_entries 7 true true [data_entry 4 1] demo_storage).2 = term_map demo_storage.
Proof.
  destruct (append_entries 7 true true [data_entry 4 1] demo_storage) as [r s'] eqn:E.
  assert (Hr : r = -1) by (vm_compute in E; congruence).
  apply (append_entries_failure 7 true None demo_storage 1 demo_entries [data_entry 4 1] true r s'
           demo_storage_holds); [|..|exact E|lia].
  { apply NoDup_ListNoDup. vm_compute. repeat constructor; simpl; intuition discriminate. }
  constructor; [|constructor]. vm_compute. split; [reflexivity|reflexivity].
Defined.

Example demo_uri :
  parse_my_raft_log_uri (bytes_of_string "my_bin_log://x?id=42") = Some ([52; 50], true) /\
  parse_my_raft_log_uri (bytes_of_string "id=42") = None.
Proof. vm_compute. auto. Qed.

(** ** Unexpected behaviour *)

(** An append refused for its term has written its entries before: the next
    start refuses the region. *)
Example refused_append_blocks_start :
  let s := (append_entries 7 true true [data_entry 4 1] demo_storage).2 in
  last_log_index s = 3 /\ init 7 true true true (db s) (binlog_db s) = None.
Proof. vm_compute. auto. Qed.

(** A truncation whose write fails reports success; after a restart the
    truncated entries are back. *)
Example failed_truncation_undone :
  let '(r, s) := storage_truncate_suffix 7 false 1 demo_storage in
  r = 0 /\ last_log_index s = 1 /\
  (last_log_index ∘ fst <$> init 7 true true true (db s) (binlog_db s)) = Some 3.
Proof. vm_compute. auto. Qed.

(** A reset to an index not above the first one keeps the first index, so that
    the next entry is not the first of the log. *)
Example reset_below_first :
  let s := (storage_truncate_prefix 7 true true 3 demo_storage).2 in
  let s := (storage_reset 7 true true true 2 s).2 in
  first_log_index s = 3 /\ last_log_index s = 1.
Proof. vm_compute. auto. Qed.
