(* ===== verification/LruCache.v ===== *)
(** * The least-recently-used cache ([include/common/lru_cache.h] and [.hpp])

    A map from keys to nodes on the heap, and a linked list of the same nodes in
    the order of their use.  The cache is shown to be a bounded list of entries in
    that order. *)

From stdpp Require Import gmap fin_maps fin_sets.
From S2P Require Import Prelude.

(** ** The linked list

    [butil::LinkedList], an intrusive list: a node is in it at most once. *)

Abbreviation NodePtr := nat.

Class LinkedList (L : Type) := {
  ll_new : L;
  ll_append : L -> NodePtr -> L;
  ll_remove : L -> NodePtr -> L;
  ll_head : L -> option NodePtr
}.

Class LinkedListLaws (L : Type) `{LinkedList L} := {
  ll_items : L -> list NodePtr;
  ll_items_new : ll_items ll_new = [];
  ll_items_append l p : p ∉ ll_items l -> ll_items (ll_append l p) = ll_items l ++ [p];
  ll_items_remove l p : p ∈ ll_items l -> ll_items (ll_remove l p) = filter (.≠ p) (ll_items l);
  ll_head_items l : ll_head l = head (ll_items l)
}.

#[export] Instance list_linked : LinkedList (list NodePtr) := {
  ll_new := [];
  ll_append l p := l ++ [p];
  ll_remove l p := filter (.≠ p) l;
  ll_head := head
}.

#[export] Program Instance list_linked_laws : LinkedListLaws (list NodePtr) := {
  ll_items l := l
}.
Solve Obligations with done.

(** ** The cache *)

Record LruNode (K V : Type) := mk_lru {
  lru_value : V;
  lru_key : K
}.
Arguments mk_lru {K V}.
Arguments lru_value {K V}.
Arguments lru_key {K V}.

Section Cache.
Context {L : Type} `{LinkedList L}.
Context {K V : Type} {eqk : EqDecision K} {ck : Countable K} {ik : Inhabited K} {iv : Inhabited V}.

(** [lru_heap] holds the nodes that were not deleted. *)
Record Cache := mk_cache {
  lru_list : L;
  lru_map : gmap K NodePtr;
  lru_heap : gmap NodePtr (LruNode K V);
  total_count : Z;
  hit_count : Z;
  len_threshold : Z
}.

Definition new_cache : Cache := mk_cache ll_new ∅ ∅ 0 0 10000.

Definition cache_init (threshold : Z) (c : Cache) : Cache :=
  mk_cache (lru_list c) (lru_map c) (lru_heap c) (total_count c) (hit_count c) threshold.

Definition set_nodes (c : Cache) l m h : Cache :=
  mk_cache l m h (total_count c) (hit_count c) (len_threshold c).

Definition cache_check (k : K) (c : Cache) : Z :=
  if decide (is_Some (lru_map c !! k)) then 0 else -1.

(** The value is the one written through the pointer; [None] outside is a
    dereference of a deleted node. *)
Definition cache_find (k : K) (c : Cache) : option (option V * Cache) :=
  let total := i64 (total_count c + 1) in
  match lru_map c !! k with
  | Some p =>
      node ← lru_heap c !! p;
      Some (Some (lru_value node),
            mk_cache (ll_append (ll_remove (lru_list c) p) p) (lru_map c) (lru_heap c)
              total (i64 (hit_count c + 1)) (len_threshold c))
  | None =>
      Some (None, mk_cache (lru_list c) (lru_map c) (lru_heap c) total (hit_count c) (len_threshold c))
  end.

(** The loop that makes room; every round erases an entry of the map. *)
Fixpoint evict_loop (fuel : nat) (c : Cache) : option Cache :=
  match fuel with
  | O => None
  | S fuel =>
      if len_threshold c <=? Z.of_nat (size (lru_map c)) then
        match ll_head (lru_list c) with
        | None => Some c
        | Some h =>
            node ← lru_heap c !! h;
            evict_loop fuel
              (set_nodes c (ll_remove (lru_list c) h) (delete (lru_key node) (lru_map c))
                 (delete h (lru_heap c)))
        end
      else Some c
  end.

Definition cache_add (k : K) (v : V) (c : Cache) : option Cache :=
  let '(p, c) :=
    match lru_map c !! k with
    | Some p => (p, set_nodes c (ll_remove (lru_list c) p) (lru_map c) (lru_heap c))
    | None =>
        let p := fresh (dom (lru_heap c)) in
        (p, set_nodes c (lru_list c) (<[k := p]> (lru_map c))
              (<[p := mk_lru inhabitant inhabitant]> (lru_heap c)))
    end in
  c ← evict_loop (S (size (lru_map c))) c;
  if decide (is_Some (lru_heap c !! p)) then
    Some (set_nodes c (ll_append (lru_list c) p) (lru_map c) (<[p := mk_lru v k]> (lru_heap c)))
  else None.

Definition cache_del (k : K) (c : Cache) : option Cache :=
  match lru_map c !! k with
  | Some p =>
      node ← lru_heap c !! p;
      Some (set_nodes c (ll_remove (lru_list c) p) (delete (lru_key node) (lru_map c))
              (delete p (lru_heap c)))
  | None => Some c
  end.

(** The calls a client makes one after the other. *)
Inductive CacheOp : Type :=
  | OpCheck (k : K)
  | OpFind (k : K)
  | OpAdd (k : K) (v : V)
  | OpDel (k : K).

(** [find] gives a value, [check] whether the key is there. *)
Inductive CacheAnswer : Type := AnsCheck (ret : Z) | AnsFind (v : option V) | AnsDone.

Definition cache_call (op : CacheOp) (c : Cache) : option (CacheAnswer * Cache) :=
  match op with
  | OpCheck k => Some (AnsCheck (cache_check k c), c)
  | OpFind k => '(v, c) ← cache_find k c; Some (AnsFind v, c)
  | OpAdd k v => c ← cache_add k v c; Some (AnsDone, c)
  | OpDel k => c ← cache_del k c; Some (AnsDone, c)
  end.

Fixpoint cache_run (ops : list CacheOp) (c : Cache) : option (list CacheAnswer * Cache) :=
  match ops with
  | [] => Some ([], c)
  | op :: ops =>
      '(a, c) ← cache_call op c;
      '(answers, c) ← cache_run ops c;
      Some (a :: answers, c)
  end.

End Cache.
Arguments Cache L K V {_ _}.
Arguments CacheOp : clear implicits.
Arguments CacheAnswer : clear implicits.

(** ** What the cache promises

    Entries from the least to the most recently used. *)

Section Spec.
Context {K V : Type} {eqk : EqDecision K}.
Implicit Type s : list (K * V).

Definition without (k : K) s : list (K * V) := filter (fun e => e.1 <> k) s.

Definition entry (k : K) s : option V := snd <$> head (filter (fun e => e.1 = k) s).

(** Room for one more entry below the threshold. *)
Fixpoint make_room (threshold : Z) s : list (K * V) :=
  match s with
  | [] => []
  | _ :: s' => if threshold <=? Z.of_nat (S (length s)) then make_room threshold s' else s
  end.

Definition lru_find (k : K) s : list (K * V) :=
  match entry k s with Some v => without k s ++ [(k, v)] | None => s end.

Definition lru_add (threshold : Z) (k : K) (v : V) s : list (K * V) :=
  make_room threshold (without k s) ++ [(k, v)].

Definition lru_step (threshold : Z) (op : CacheOp K V) s : list (K * V) :=
  match op with
  | OpCheck _ => s
  | OpFind k => lru_find k s
  | OpAdd k v => lru_add threshold k v s
  | OpDel k => without k s
  end.

Definition lru_answer (op : CacheOp K V) s : CacheAnswer V :=
  match op with
  | OpCheck k => AnsCheck (match entry k s with Some _ => 0 | None => -1 end)
  | OpFind k => AnsFind (entry k s)
  | _ => AnsDone
  end.

Definition lru_state (threshold : Z) (ops : list (CacheOp K V)) s : list (K * V) :=
  foldl (fun s op => lru_step threshold op s) s ops.

Fixpoint lru_answers (threshold : Z) (ops : list (CacheOp K V)) s : list (CacheAnswer V) :=
  match ops with
  | [] => []
  | op :: ops => lru_answer op s :: lru_answers threshold ops (lru_step threshold op s)
  end.

(** What the calls wrote last under a key. *)
Definition last_write (k : K) (ops : list (CacheOp K V)) : option V :=
  foldl (fun o op =>
           match op with
           | OpAdd k' v => if decide (k' = k) then Some v else o
           | OpDel k' => if decide (k' = k) then None else o
           | _ => o
           end) None ops.

(** The other keys calls use. *)
Definition op_key (op : CacheOp K V) : K :=
  match op with OpCheck k | OpFind k | OpAdd k _ | OpDel k => k end.

End Spec.

(** ** Refinement *)

Section Refine.
Context {L : Type} {ll : LinkedList L} {laws : LinkedListLaws L}.
Context {K V : Type} {eqk : EqDecision K} {ck : Countable K} {ik : Inhabited K} {iv : Inhabited V}.
Implicit Type c : Cache L K V.
Implicit Type s : list (K * V).

(** A node of the list, with its entry. *)
Definition node_of c (p : NodePtr) (e : K * V) : Prop :=
  lru_heap c !! p = Some (mk_lru e.2 e.1) /\ lru_map c !! e.1 = Some p.

(** [extra] is a key in the map whose node is not in the list yet. *)
Record holds c (extra : option K) s : Prop := {
  holds_nodes : Forall2 (node_of c) (ll_items (lru_list c)) s;
  holds_nodup : NoDup s.*1;
  holds_extra k : extra = Some k -> k ∉ s.*1;
  holds_dom k : is_Some (lru_map c !! k) <-> k ∈ s.*1 \/ extra = Some k
}.

(** A cache determines its entries. *)
Lemma holds_unique c s s' : holds c None s -> holds c None s' -> s = s'.
Proof.
  intros [Hs _ _ _] [Hs' _ _ _]. revert s' Hs'. induction Hs as [|p e ps s He Hs IH]; intros s' Hs'; inversion Hs' as [|? e' ? s'' He' Hs'']; [done|].
  subst. f_equal; [|by apply IH]. destruct e, e'. unfold node_of in *. naive_solver.
Qed.

Lemma entry_Some k v s : NoDup s.*1 -> entry k s = Some v <-> (k, v) ∈ s.
Proof.
  unfold entry. induction s as [|[k' v'] s IH]; intros Hnd.
  - simpl. by rewrite elem_of_nil.
  - rewrite fmap_cons in Hnd. apply NoDup_cons in Hnd as [Hk Hnd]. rewrite elem_of_cons.
    destruct (decide (k' = k)) as [->|Hne].
    + rewrite filter_cons_True by done. simpl. split; [intros [= ->]; by left|].
      intros [[= ->]|Hin]; [done|]. destruct Hk. by apply (list_elem_of_fmap_2 fst) in Hin.
    + rewrite filter_cons_False by done. rewrite IH by done. split; [by right|].
      intros [[= -> ->]|Hin]; done.
Qed.

Lemma entry_None k s : entry k s = None <-> k ∉ s.*1.
Proof.
  unfold entry. induction s as [|[k' v'] s IH]; [simpl; rewrite elem_of_nil; tauto|].
  rewrite fmap_cons, not_elem_of_cons. destruct (decide (k' = k)) as [->|Hne].
  - rewrite filter_cons_True by done. simpl. split; [done|tauto].
  - rewrite filter_cons_False by done. simpl in *. rewrite IH. split; [by split|tauto].
Qed.

Lemma without_keys k s k' : k' ∈ (without k s).*1 <-> k' ∈ s.*1 /\ k' <> k.
Proof.
  unfold without. rewrite !list_elem_of_fmap. split.
  - intros ([a b] & -> & [Hk Hin]%list_elem_of_filter). split; [by eexists|done].
  - intros [([a b] & -> & Hin) Hk]. exists (a, b). split; [done|]. by apply list_elem_of_filter.
Qed.

Lemma without_nodup k s : NoDup s.*1 -> NoDup (without k s).*1.
Proof. intros. eapply sublist_NoDup; [done|]. apply fmap_sublist, sublist_filter. Qed.

Lemma without_fresh k s : k ∉ s.*1 -> without k s = s.
Proof.
  intros Hk. apply list_filter_all. intros e Hin E. apply Hk. rewrite <- E.
  by apply list_elem_of_fmap_2.
Qed.

(** Nodes and keys determine one another. *)
Lemma node_of_inj c p e p' e' : node_of c p e -> node_of c p' e' -> p = p' <-> e.1 = e'.1.
Proof.
  destruct e as [k v], e' as [k' v']. intros [H1 H2] [H3 H4]. simpl in *.
  split; intros ->; simplify_eq; done.
Qed.

Lemma filter_nodes c p e ps s :
  node_of c p e -> Forall2 (node_of c) ps s ->
  Forall2 (node_of c) (filter (.≠ p) ps) (without e.1 s).
Proof.
  intros Hp. unfold without. induction 1 as [|q e' ps s Hq Hrest IH]; [constructor|].
  pose proof (node_of_inj c q e' p e Hq Hp) as Hinj. rewrite !filter_cons.
  destruct (decide (q <> p)), (decide (e'.1 <> e.1)); [by constructor|tauto|tauto|done].
Qed.

Lemma items_nodup c extra s : holds c extra s -> NoDup (ll_items (lru_list c)).
Proof.
  intros [Hn Hd _ _]. revert Hd. induction Hn as [|p e ps s Hp Hrest IH]; [constructor|].
  rewrite fmap_cons, !NoDup_cons. intros [Hk Hd]. split; [|by apply IH].
  intros Hin. apply Hk. apply list_elem_of_lookup in Hin as [i Hi].
  destruct (Forall2_lookup_l _ _ _ _ _ Hrest Hi) as (e' & He' & Hp').
  apply list_elem_of_fmap. exists e'. split; [by apply (node_of_inj c p e p e')|].
  by apply list_elem_of_lookup_2 in He'.
Qed.

Lemma size_holds c extra s :
  holds c extra s -> size (lru_map c) = (length s + match extra with Some _ => 1 | None => 0 end)%nat.
Proof.
  intros [_ Hd He Hdom]. rewrite <- size_dom.
  assert (E : dom (lru_map c) = list_to_set (s.*1 ++ option_list extra)).
  { apply set_eq. intros k. rewrite elem_of_dom, Hdom, elem_of_list_to_set, elem_of_app.
    destruct extra as [k'|]; simpl; [rewrite list_elem_of_singleton|rewrite elem_of_nil]; intuition congruence. }
  rewrite E, size_list_to_set.
  - rewrite length_app, length_fmap. by destruct extra.
  - apply NoDup_app. split; [done|]. destruct extra as [k|]; simpl.
    + split; [|apply NoDup_singleton]. intros x Hx ->%list_elem_of_singleton. by apply (He k).
    + split; [|constructor]. intros x _. apply not_elem_of_nil.
Qed.

Lemma holds_node c extra s k v :
  holds c extra s -> (k, v) ∈ s -> exists p, lru_map c !! k = Some p /\ node_of c p (k, v) /\
    p ∈ ll_items (lru_list c).
Proof.
  intros [Hn _ _ _] [i Hi]%list_elem_of_lookup_1.
  destruct (Forall2_lookup_r _ _ _ _ _ Hn Hi) as (p & Hp & Hnode).
  exists p. split; [by apply Hnode|]. split; [done|]. by apply list_elem_of_lookup_2 in Hp.
Qed.

(** Taking a node out of the list leaves it as the extra one. *)
Lemma unlink_holds c s k v p :
  holds c None s -> (k, v) ∈ s -> lru_map c !! k = Some p ->
  holds (set_nodes c (ll_remove (lru_list c) p) (lru_map c) (lru_heap c)) (Some k) (without k s).
Proof.
  intros Hh Hin Hp. destruct (holds_node c None s k v Hh Hin) as (p' & Hp' & Hnode & Hitem).
  simplify_eq. destruct Hh as [Hn Hd _ Hdom]. split; simpl.
  - rewrite ll_items_remove by done. apply (filter_nodes c p (k, v)); done.
  - by apply without_nodup.
  - intros k' [= <-]. rewrite without_keys. tauto.
  - intros k'. rewrite Hdom, without_keys. split.
    + intros [Hk|?]; [|done]. destruct (decide (k' = k)) as [->|]; auto.
    + intros [[Hk _]|[= <-]]; [by left|]. left. by apply (list_elem_of_fmap_2 fst) in Hin.
Qed.

(** Writing the extra node and appending it. *)
Lemma link_holds c s k v p :
  holds c (Some k) s -> lru_map c !! k = Some p -> p ∉ ll_items (lru_list c) ->
  holds (set_nodes c (ll_append (lru_list c) p) (lru_map c) (<[p := mk_lru v k]> (lru_heap c))) None (s ++ [(k, v)]).
Proof.
  intros [Hn Hd He Hdom] Hp Hpi. split; simpl.
  - rewrite ll_items_append by done. apply Forall2_app.
    + eapply Forall2_impl; [apply Forall2_same_length_lookup_2; [by eapply Forall2_length|]|].
      2: { intros q e Hq. exact Hq. }
      intros i q e Hq Hi. assert (Hnode : node_of c q e) by by eapply Forall2_lookup_lr.
      destruct Hnode as [H1' H2']. split; [|done]. simpl. rewrite lookup_insert_ne; [done|].
      intros <-. by apply list_elem_of_lookup_2 in Hq.
    + repeat constructor; simpl; [by rewrite lookup_insert_eq|done].
  - rewrite fmap_app. apply NoDup_app. split; [done|]. split; [|apply NoDup_singleton].
    intros x Hx ->%list_elem_of_singleton. by apply (He k).
  - done.
  - intros k'. rewrite Hdom, fmap_app, elem_of_app. simpl. rewrite list_elem_of_singleton.
    intuition congruence.
Qed.

(** Dropping the head of the list and its entry. *)
Lemma drop_head_holds c extra p ps e s :
  holds c extra (e :: s) -> ll_items (lru_list c) = p :: ps ->
  node_of c p e /\
  holds (set_nodes c (ll_remove (lru_list c) p) (delete e.1 (lru_map c)) (delete p (lru_heap c)))
    extra s.
Proof.
  intros Hh Hi. pose proof (items_nodup _ _ _ Hh) as Hnd. rewrite Hi in Hnd.
  apply NoDup_cons in Hnd as [Hpi _]. destruct Hh as [Hn Hd He Hdom]. rewrite Hi in Hn.
  apply Forall2_cons in Hn as [Hp Hn]. rewrite fmap_cons in Hd, He, Hdom.
  apply NoDup_cons in Hd as [Hk Hd]. split; [done|]. split; simpl.
  - rewrite ll_items_remove by (rewrite Hi; by left). rewrite Hi, filter_cons_False by tauto.
    rewrite list_filter_all by (intros q Hq ->; done).
    apply Forall2_same_length_lookup_2; [by eapply Forall2_length|].
    intros i q e' Hq Hi'. assert (Hnode : node_of c q e') by by eapply Forall2_lookup_lr.
    destruct Hnode as [H1' H2']. split; simpl.
    + rewrite lookup_delete_ne; [done|]. intros <-. by apply list_elem_of_lookup_2 in Hq.
    + rewrite lookup_delete_ne; [done|]. intros E. apply Hk. rewrite E.
      apply list_elem_of_fmap_2. by apply list_elem_of_lookup_2 in Hi'.
  - done.
  - intros k Ek Hin. apply (He k Ek). by right.
  - intros k. destruct (decide (k = e.1)) as [->|Hne].
    + rewrite lookup_delete_eq. split; [by intros []|]. intros [?|Ek]; [done|].
      destruct (He _ Ek). by left.
    + rewrite lookup_delete_ne by done. rewrite Hdom, elem_of_cons. intuition congruence.
Qed.

Lemma evict_loop_spec fuel c k p s :
  holds c (Some k) s -> (length s < fuel)%nat -> lru_map c !! k = Some p ->
  p ∉ ll_items (lru_list c) -> is_Some (lru_heap c !! p) ->
  exists c', evict_loop fuel c = Some c' /\ holds c' (Some k) (make_room (len_threshold c) s) /\
    lru_map c' !! k = Some p /\ (p ∉ ll_items (lru_list c')) /\ is_Some (lru_heap c' !! p) /\
    len_threshold c' = len_threshold c.
Proof.
  revert c s; induction fuel as [|fuel IH]; [lia|]. intros c s Hh Hf Hk Hp Hheap.
  cbn [evict_loop]. rewrite (size_holds _ _ _ Hh). rewrite ll_head_items.
  pose proof (holds_nodes _ _ _ Hh) as Hn. destruct s as [|e s].
  - apply Forall2_nil_inv_r in Hn. rewrite Hn. exists c. split; [by case_match|done].
  - apply Forall2_cons_inv_r in Hn as (q & ps & Hq & Hrest & Hi). rewrite Hi. cbn [head make_room].
    replace (length (e :: s) + 1)%nat with (S (length (e :: s))) by (simpl; lia).
    destruct (len_threshold c <=? Z.of_nat (S (length (e :: s)))) eqn:Et.
    2: { by exists c. }
    destruct (drop_head_holds c (Some k) q ps e s Hh Hi) as [[Hqh Hqm] Hh'].
    rewrite Hqh. cbn [mbind option_bind lru_key].
    assert (Hne : e.1 <> k). { intros <-. apply (holds_extra _ _ _ Hh e.1); [done|]. by left. }
    assert (Hqp : q <> p) by (intros ->; apply Hp; rewrite Hi; by left).
    apply (IH _ s Hh'); simpl.
    + simpl in Hf. lia.
    + by rewrite lookup_delete_ne.
    + rewrite ll_items_remove by (rewrite Hi; by left). rewrite list_elem_of_filter. tauto.
    + by rewrite lookup_delete_ne.
Qed.

Lemma cache_find_spec k c s :
  holds c None s ->
  exists c', cache_find k c = Some (entry k s, c') /\ holds c' None (lru_find k s) /\
    len_threshold c' = len_threshold c.
Proof.
  intros Hh. pose proof (holds_nodup _ _ _ Hh) as Hnd. unfold cache_find, lru_find.
  destruct (entry k s) as [v|] eqn:Ee.
  - apply entry_Some in Ee; [|done].
    destruct (holds_node c None s k v Hh Ee) as (p & Hp & Hnode & Hi). rewrite Hp.
    pose proof (unlink_holds c s k v p Hh Ee Hp) as Hu.
    assert (Hpi : p ∉ ll_items (ll_remove (lru_list c) p)).
    { rewrite ll_items_remove by done. rewrite list_elem_of_filter. tauto. }
    pose proof (link_holds _ _ k v p Hu Hp Hpi) as Hl. destruct Hnode as [Hheap _]. rewrite Hheap.
    eexists. split; [done|]. split; [|done]. simpl in Hl. rewrite (insert_id _ _ _ Hheap) in Hl.
    destruct Hl. by split.
  - apply entry_None in Ee. destruct (lru_map c !! k) as [p|] eqn:Ep.
    + destruct (proj1 (holds_dom _ _ _ Hh k)) as [?|?]; [by eexists|done..].
    + eexists. split; [done|]. split; [|done]. destruct Hh. by split.
Qed.

Lemma cache_add_spec k v c s :
  holds c None s ->
  exists c', cache_add k v c = Some c' /\ holds c' None (lru_add (len_threshold c) k v s) /\
    len_threshold c' = len_threshold c.
Proof.
  intros Hh. pose proof (holds_nodup _ _ _ Hh) as Hnd. unfold cache_add, lru_add.
  set (pc := match lru_map c !! k with Some _ => _ | None => _ end).
  assert (Hpc : holds pc.2 (Some k) (without k s) /\ lru_map pc.2 !! k = Some pc.1 /\
    (pc.1 ∉ ll_items (lru_list pc.2)) /\ is_Some (lru_heap pc.2 !! pc.1) /\
    len_threshold pc.2 = len_threshold c).
  { unfold pc. destruct (lru_map c !! k) as [p|] eqn:Ep; simpl.
    - assert (Hk : k ∈ s.*1).
      { destruct (proj1 (holds_dom _ _ _ Hh k)) as [?|?]; [by eexists|done..]. }
      apply list_elem_of_fmap in Hk as ([k' v'] & -> & Hin).
      destruct (holds_node c None s _ v' Hh Hin) as (p' & Hp' & Hnode & Hi). simpl in *. simplify_eq.
      split; [by apply (unlink_holds c s k' v')|]. split; [done|]. split; [|split; [|done]].
      + rewrite ll_items_remove by done. rewrite list_elem_of_filter. tauto.
      + destruct Hnode as [-> _]. by eexists.
    - assert (Hk : k ∉ s.*1).
      { intros Hk. destruct (proj2 (holds_dom _ _ _ Hh k)) as [p Hp]; [by left|]. by simplify_eq. }
      pose proof (is_fresh (dom (lru_heap c))) as Hf. set (p := fresh _) in *.
      apply not_elem_of_dom in Hf. rewrite without_fresh by done.
      assert (Hpi : p ∉ ll_items (lru_list c)).
      { intros [i Hi]%list_elem_of_lookup_1.
        destruct (Forall2_lookup_l _ _ _ _ _ (holds_nodes _ _ _ Hh) Hi) as (e & _ & [He _]).
        by rewrite Hf in He. }
      split; [|split; [by rewrite lookup_insert_eq|split; [done|split; [|done]]]].
      2: { rewrite lookup_insert_eq. by eexists. }
      destruct Hh as [Hn _ _ Hdom]. split; simpl; [|done|by intros k' [= <-]|].
      + eapply Forall2_impl; [exact Hn|]. intros q e [H1' H2']. split; simpl.
        * rewrite lookup_insert_ne; [done|]. intros <-. by rewrite Hf in H1'.
        * rewrite lookup_insert_ne; [done|]. intros E. by rewrite E, H2' in Ep.
      + intros k'. rewrite lookup_insert. case_decide as Ek; [subst; split; [by right|by eexists]|].
        rewrite Hdom. intuition congruence. }
  destruct pc as [p c0]. simpl in Hpc. destruct Hpc as (Hh0 & Hp & Hpi & Hheap & Ht).
  destruct (evict_loop_spec (S (size (lru_map c0))) c0 k p (without k s) Hh0)
    as (c1 & -> & Hh1 & Hp1 & Hpi1 & Hheap1 & Ht1); [|done..|].
  { rewrite (size_holds _ _ _ Hh0). lia. }
  cbn [mbind option_bind]. rewrite decide_True by done. eexists. split; [done|].
  rewrite Ht in *. split; [|done]. by apply link_holds.
Qed.

Lemma cache_del_spec k c s :
  holds c None s ->
  exists c', cache_del k c = Some c' /\ holds c' None (without k s) /\
    len_threshold c' = len_threshold c.
Proof.
  intros Hh. unfold cache_del. destruct (lru_map c !! k) as [p|] eqn:Ep.
  - assert (Hk : k ∈ s.*1).
    { destruct (proj1 (holds_dom _ _ _ Hh k)) as [?|?]; [by eexists|done..]. }
    apply list_elem_of_fmap in Hk as ([k' v'] & Ek & Hin). simpl in Ek. subst k'.
    destruct (holds_node c None s k v' Hh Hin) as (p' & Hp' & Hnode & Hi). simplify_eq.
    destruct Hnode as [Hheap Hmap]. rewrite Hheap. eexists. split; [done|]. split; [|done].
    destruct (unlink_holds c s k v' p Hh Hin Ep) as [Hn Hd He Hdom]. simpl in *.
    split; simpl; [|done|done|].
    + apply Forall2_same_length_lookup_2; [by eapply Forall2_length|].
      intros i q e Hq Hi'.
      assert (Hnode : node_of c q e).
      { pose proof (Forall2_lookup_lr _ _ _ _ _ _ Hn Hq Hi') as [? ?]. by split. }
      assert (Hne : q <> p).
      { intros ->. apply list_elem_of_lookup_2 in Hq. rewrite ll_items_remove in Hq by done.
        apply list_elem_of_filter in Hq. tauto. }
      destruct Hnode as [H1' H2']. split; simpl; [by rewrite lookup_delete_ne|].
      rewrite lookup_delete_ne; [done|]. intros E. rewrite <- E in H2'. simplify_eq.
    + intros k'. destruct (decide (k' = k)) as [->|Hne].
      * rewrite lookup_delete_eq, without_keys. split; [by intros []|]. intros [[]|]; done.
      * rewrite lookup_delete_ne by done. rewrite Hdom. intuition congruence.
  - assert (Hk : k ∉ s.*1).
    { intros Hk. destruct (proj2 (holds_dom _ _ _ Hh k)) as [p Hp]; [by left|]. by simplify_eq. }
    exists c. rewrite without_fresh by done. done.
Qed.

Lemma cache_check_spec k c s :
  holds c None s -> cache_check k c = match entry k s with Some _ => 0 | None => -1 end.
Proof.
  intros Hh. pose proof (holds_dom _ _ _ Hh k) as Hd. unfold cache_check.
  destruct (entry k s) as [v|] eqn:E.
  - apply entry_Some in E; [|apply Hh]. apply (list_elem_of_fmap_2 fst) in E.
    rewrite decide_True; [done|]. tauto.
  - apply entry_None in E. rewrite decide_False; [done|]. intros Hs. by apply Hd in Hs as [?|?].
Qed.

Lemma new_cache_holds thr : holds (cache_init thr new_cache : Cache L K V) None [].
Proof.
  split; simpl.
  - rewrite ll_items_new. constructor.
  - constructor.
  - done.
  - intros k. rewrite lookup_empty, elem_of_nil. split; [by intros []|]. by intros [].
Qed.

Lemma cache_run_spec ops c s :
  holds c None s ->
  exists c', cache_run ops c = Some (lru_answers (len_threshold c) ops s, c') /\
    holds c' None (lru_state (len_threshold c) ops s) /\ len_threshold c' = len_threshold c.
Proof.
  revert c s; induction ops as [|op ops IH]; intros c s Hh; [by exists c|].
  assert (Hstep : exists c1, cache_call op c = Some (lru_answer op s, c1) /\
    holds c1 None (lru_step (len_threshold c) op s) /\ len_threshold c1 = len_threshold c).
  { destruct op as [k|k|k v|k]; cbn [cache_call lru_answer lru_step].
    - exists c. by rewrite (cache_check_spec k c s).
    - destruct (cache_find_spec k c s Hh) as (c1 & -> & ? & ?). by exists c1.
    - destruct (cache_add_spec k v c s Hh) as (c1 & -> & ? & ?). by exists c1.
    - destruct (cache_del_spec k c s Hh) as (c1 & -> & ? & ?). by exists c1. }
  destruct Hstep as (c1 & E1 & Hh1 & Et). cbn [cache_run]. rewrite E1. cbn [mbind option_bind].
  destruct (IH c1 _ Hh1) as (c2 & E2 & Hh2 & Et2). rewrite E2. cbn [mbind option_bind].
  rewrite Et in *. by exists c2.
Qed.

End Refine.

(** ** The order of use *)

Section Recency.
Context {K V : Type} {eqk : EqDecision K} {ck : Countable K}.
Implicit Type s : list (K * V).

Lemma make_room_suffix thr s : exists dropped, s = dropped ++ make_room thr s.
Proof.
  induction s as [|e s [d IH]]; [by exists []|]. cbn [make_room]. case_match; [|by exists []].
  exists (e :: d). simpl. by rewrite <- IH.
Qed.

Lemma make_room_length thr s : Z.of_nat (length (make_room thr s)) <= Z.max 0 (thr - 2).
Proof.
  induction s as [|e s IH]; cbn [make_room]; [simpl; lia|].
  destruct (Z.leb_spec thr (Z.of_nat (S (length (e :: s))))); [done|]. cbn [length] in *. lia.
Qed.

Lemma step_nodup thr op s : NoDup s.*1 -> NoDup (lru_step thr op s).*1.
Proof.
  assert (Happ : forall k (v : V) s', k ∉ s'.*1 -> NoDup s'.*1 -> NoDup (s' ++ [(k, v)]).*1).
  { intros k v s' Hk Hnd. rewrite fmap_app. apply NoDup_app. split; [done|].
    split; [|apply NoDup_singleton]. by intros x Hx ->%list_elem_of_singleton. }
  intros Hnd. destruct op as [k|k|k v|k]; simpl; [done| | |by apply without_nodup].
  - unfold lru_find. destruct (entry k s); [|done].
    apply Happ; [rewrite without_keys; tauto|by apply without_nodup].
  - unfold lru_add. destruct (make_room_suffix thr (without k s)) as [d Hd].
    pose proof (without_nodup k s Hnd) as Hnd'. apply Happ.
    + intros Hin. assert (Hk : k ∈ (without k s).*1).
      { rewrite Hd, fmap_app. apply elem_of_app. by right. }
      apply without_keys in Hk. tauto.
    + rewrite Hd, fmap_app in Hnd'. by apply NoDup_app in Hnd' as (_ & _ & ?).
Qed.

Lemma step_length thr op s :
  Z.of_nat (length s) <= Z.max 1 (thr - 1) -> NoDup s.*1 ->
  Z.of_nat (length (lru_step thr op s)) <= Z.max 1 (thr - 1).
Proof.
  intros Hl Hnd. assert (Hw : forall k, (length (without k s) <= length s)%nat)
    by (intros; apply length_filter).
  destruct op as [k|k|k v|k]; simpl; [done| | |specialize (Hw k); lia].
  - unfold lru_find. destruct (entry k s) as [v|] eqn:E; [|done].
    assert (Hlt : (length (without k s) < length s)%nat).
    { apply entry_Some in E; [|done]. apply length_filter_lt with (x := (k, v)); [done|tauto]. }
    rewrite length_app. simpl. lia.
  - unfold lru_add. rewrite length_app. simpl. pose proof (make_room_length thr (without k s)). lia.
Qed.

Lemma state_inv thr ops s :
  NoDup s.*1 -> Z.of_nat (length s) <= Z.max 1 (thr - 1) ->
  NoDup (lru_state thr ops s).*1 /\ Z.of_nat (length (lru_state thr ops s)) <= Z.max 1 (thr - 1).
Proof.
  revert s; induction ops as [|op ops IH]; intros s Hnd Hl; [done|].
  apply IH; [by apply step_nodup|by apply step_length].
Qed.

(** An entry followed by entries of the given keys only. *)
Definition recent (k : K) (v : V) (ks : gset K) s : Prop :=
  exists pre post, s = pre ++ (k, v) :: post /\ list_to_set post.*1 ⊆ ks.

Lemma recent_last k v ks s : recent k v ks (s ++ [(k, v)]).
Proof. exists s, []. split; [done|]. set_solver. Qed.

Lemma without_app k s1 s2 : without k (s1 ++ s2) = without k s1 ++ without k s2.
Proof. apply filter_app. Qed.

Lemma recent_without k v ks k' s :
  k' <> k -> recent k v ks s -> recent k v (ks ∖ {[k']}) (without k' s).
Proof.
  intros Hne (pre & post & -> & Hp). exists (without k' pre), (without k' post).
  rewrite without_app. unfold without at 2. rewrite filter_cons_True by done. split; [done|].
  intros x. rewrite elem_of_list_to_set, without_keys. intros [Hx Hxk].
  apply elem_of_difference. split; [|set_solver]. apply Hp. by apply elem_of_list_to_set.
Qed.

Lemma recent_room thr k v ks s :
  NoDup s.*1 -> (Z.of_nat (size ks) + 2 < thr) -> recent k v ks s -> recent k v ks (make_room thr s).
Proof.
  intros Hnd Ht (pre & post & -> & Hp). induction pre as [|e pre IH].
  - assert (Hlen : (length post <= size ks)%nat).
    { simpl in Hnd. apply NoDup_cons in Hnd as [_ Hnd].
      rewrite <- (length_fmap fst post), <- (size_list_to_set (C := gset K)) by done.
      by apply subseteq_size. }
    simpl. destruct (Z.leb_spec thr (Z.of_nat (S (S (length post))))); [lia|]. by exists [], post.
  - cbn [make_room app]. case_match; [|by exists (e :: pre), post].
    apply IH. simpl in Hnd. by apply NoDup_cons in Hnd as [_ ?].
Qed.

Lemma recent_append k v ks k' v' s :
  k' ∈ ks -> recent k v (ks ∖ {[k']}) s -> recent k v ks (s ++ [(k', v')]).
Proof.
  intros Hk' (pre & post & -> & Hp). exists pre, (post ++ [(k', v')]).
  rewrite <- app_assoc. split; [done|]. rewrite fmap_app, list_to_set_app. set_solver.
Qed.

Lemma recent_entry k v ks s : NoDup s.*1 -> recent k v ks s -> entry k s = Some v.
Proof.
  intros Hnd (pre & post & -> & _). apply entry_Some; [done|].
  apply elem_of_app. right. left.
Qed.

(** Uses of other keys keep an entry while they are few. *)
Lemma recent_step thr k v ks op s :
  NoDup s.*1 -> Z.of_nat (size ks) + 1 < thr -> op_key op <> k -> op_key op ∈ ks ->
  recent k v ks s -> recent k v ks (lru_step thr op s).
Proof.
  intros Hnd Ht Hne Hin Hr.
  assert (Hless : (size (ks ∖ {[op_key op]}) < size ks)%nat) by (apply subset_size; set_solver).
  destruct op as [k'|k'|k' v'|k']; simpl in *; [done| | |].
  - unfold lru_find. destruct (entry k' s); [|done]. apply recent_append; [done|].
    by apply recent_without.
  - unfold lru_add. apply recent_append; [done|].
    apply recent_room; [by apply without_nodup|lia|by apply recent_without].
  - destruct (recent_without k v ks k' s Hne Hr) as (pre & post & E & Hp).
    exists pre, post. split; [done|]. set_solver.
Qed.

Lemma recent_state thr k v ks ops s :
  NoDup s.*1 -> Z.of_nat (size ks) + 1 < thr -> Forall (fun op => op_key op <> k) ops ->
  list_to_set (op_key <$> ops) ⊆ ks ->
  recent k v ks s -> recent k v ks (lru_state thr ops s) /\ NoDup (lru_state thr ops s).*1.
Proof.
  revert s; induction ops as [|op ops IH]; intros s Hnd Ht Hne Hks Hr; [done|].
  apply Forall_cons in Hne as [Hop Hne]. rewrite fmap_cons in Hks. simpl in Hks.
  apply IH; [by apply step_nodup|done|done|set_solver|]. apply recent_step; [done|done|done|set_solver|done].
Qed.

(** Only values that were written and not deleted are found. *)
Lemma entry_without k k' s : entry k (without k' s) = if decide (k' = k) then None else entry k s.
Proof.
  unfold entry, without. rewrite list_filter_filter.
  destruct (decide (k' = k)) as [->|Hne].
  - rewrite list_filter_none; [done|]. tauto.
  - f_equal. f_equal. apply list_filter_iff. intros e. split; [tauto|]. intros <-. by split; [|intros <-].
Qed.

Lemma entry_app k s1 s2 :
  entry k (s1 ++ s2) = match entry k s1 with Some v => Some v | None => entry k s2 end.
Proof. unfold entry. rewrite filter_app. by destruct (filter _ s1). Qed.

Lemma entry_singleton (k k' : K) (v : V) : entry k [(k', v)] = if decide (k' = k) then Some v else None.
Proof.
  unfold entry. case_decide; [by rewrite filter_cons_True|by rewrite filter_cons_False].
Qed.

Lemma entry_room thr k s : NoDup s.*1 -> forall v, entry k (make_room thr s) = Some v -> entry k s = Some v.
Proof.
  intros Hnd v. destruct (make_room_suffix thr s) as [d Hd].
  assert (Hnd' : NoDup (make_room thr s).*1).
  { rewrite Hd, fmap_app in Hnd. by apply NoDup_app in Hnd as (_ & _ & ?). }
  rewrite !entry_Some by done. rewrite Hd at 2. rewrite elem_of_app. by right.
Qed.

Lemma last_write_snoc k ops (op : CacheOp K V) :
  last_write k (ops ++ [op]) =
  match op with
  | OpAdd k' v => if decide (k' = k) then Some v else last_write k ops
  | OpDel k' => if decide (k' = k) then None else last_write k ops
  | _ => last_write k ops
  end.
Proof. unfold last_write. rewrite foldl_app. done. Qed.

Lemma state_snoc thr ops (op : CacheOp K V) s :
  lru_state thr (ops ++ [op]) s = lru_step thr op (lru_state thr ops s).
Proof. unfold lru_state. rewrite foldl_app. done. Qed.

Lemma state_sound thr ops (k : K) (v : V) : entry k (lru_state thr ops []) = Some v -> last_write k ops = Some v.
Proof.
  revert v. induction ops as [|op ops IH] using rev_ind; intros v; [done|].
  assert (Hnd : NoDup (lru_state thr ops []).*1) by (apply state_inv; [constructor|simpl; lia]).
  rewrite state_snoc, last_write_snoc. set (s := lru_state thr ops []) in *.
  destruct op as [k'|k'|k' v'|k']; simpl.
  - apply IH.
  - unfold lru_find. destruct (entry k' s) as [v0|] eqn:E; [|apply IH].
    rewrite entry_app, entry_without, entry_singleton. case_decide as Ek; [subst k'|].
    + intros [= <-]. by apply IH.
    + destruct (entry k s) eqn:Ek'; [|done]. intros [= <-]. by apply IH.
  - unfold lru_add. rewrite entry_app, entry_singleton.
    destruct (entry k (make_room thr (without k' s))) as [v0|] eqn:E.
    + intros [= <-]. apply entry_room in E; [|by apply without_nodup].
      rewrite entry_without in E. case_decide; [done|]. by apply IH.
    + case_decide; [done|]. done.
  - rewrite entry_without. case_decide; [done|]. apply IH.
Qed.

End Recency.

(** ** Theorems *)

(** C18. For any sequence of calls on a new cache of a threshold, no call uses a
    deleted node, every answer is the one of the list of entries in the order of
    their use, from which the oldest are dropped to make room, and the map never
    has more than [max 1 (threshold - 1)] entries. *)
Theorem cache_refines {L K V} `{LinkedListLaws L} `{Countable K} `{Inhabited K} `{Inhabited V}
    (threshold : Z) (ops : list (CacheOp K V)) :
  exists c' : Cache L K V,
    cache_run ops (cache_init threshold new_cache) = Some (lru_answers threshold ops [], c') /\
    size (lru_map c') = length (lru_state threshold ops []) /\
    Z.of_nat (size (lru_map c')) <= Z.max 1 (threshold - 1).
Proof.
  destruct (cache_run_spec ops _ [] (new_cache_holds threshold)) as (c' & E & Hh & _).
  exists c'. split; [done|]. rewrite (size_holds _ _ _ Hh), Nat.add_0_r. split; [done|].
  apply state_inv; [constructor|simpl; lia].
Qed.

(** A value found is the last one added under the key and not deleted since;
    and an entry just added is found again as long as the keys other calls used
    meanwhile, with it, are fewer than the threshold by two. *)
Theorem cache_sound_and_retains {K V} `{Countable K} (threshold : Z) :
  (forall ops (k : K) (v : V), entry k (lru_state threshold ops []) = Some v -> last_write k ops = Some v) /\
  (forall before (k : K) (v : V) ops,
     Forall (fun op => op_key op <> k) ops ->
     Z.of_nat (size (list_to_set (op_key <$> ops) : gset K)) + 1 < threshold ->
     entry k (lru_state threshold (before ++ OpAdd k v :: ops) []) = Some v).
Proof.
  split; [intros ops k v; apply state_sound|]. intros before k v ops Hne Ht.
  unfold lru_state. rewrite foldl_app. simpl.
  destruct (state_inv threshold before []) as [Hnd _]; [constructor|simpl; lia|].
  set (s := foldl _ [] before) in *.
  assert (Hnd' : NoDup (lru_add threshold k v s).*1) by apply (step_nodup threshold (OpAdd k v) s Hnd).
  destruct (recent_state threshold k v (list_to_set (op_key <$> ops)) ops (lru_add threshold k v s))
    as [Hr Hnd2]; [done|done|done|done|apply recent_last|].
  by eapply recent_entry.
Qed.

(** A cache of threshold 3 holds two entries: the third key drops the oldest, which
    a lookup had made the second. *)
Lemma cache_refines_example :
  exists c' : Cache (list NodePtr) Z Z,
    cache_run [OpAdd 1 10; OpAdd 2 20; OpFind 1; OpAdd 3 30; OpFind 2; OpFind 1; OpDel 1; OpCheck 1]
      (cache_init 3 new_cache) =
    Some ([AnsDone; AnsDone; AnsFind (Some 10); AnsDone; AnsFind None; AnsFind (Some 10); AnsDone;
           AnsCheck (-1)], c').
Proof.
  destruct (cache_refines (L := list NodePtr) 3
    [OpAdd 1 10; OpAdd 2 20; OpFind 1; OpAdd 3 30; OpFind 2; OpFind 1; OpDel 1; OpCheck 1])
    as (c' & E & _).
  exists c'. rewrite E. vm_compute. reflexivity.
Defined.

Lemma cache_retains_example :
  entry 7 (lru_state 4 [OpAdd 7 70; OpAdd 8 80; OpAdd 9 90; OpFind 8] []) = Some 70.
Proof.
  apply (proj2 (cache_sound_and_retains 4) [] 7 70 [OpAdd 8 80; OpAdd 9 90; OpFind 8]).
  - repeat constructor; simpl; lia.
  - vm_compute. reflexivity.
Defined.
