(* ===== verification/ReverseList.v ===== *)
(** * Posting lists of a full-text index and the merge of their levels
      ([include/reverse/reverse_common.h], [include/reverse/reverse_common.hpp])

    A term of a full-text index has a posting list of primary keys, kept in
    three levels of increasing age.  Iterators hide how a level is stored;
    [level_merge] merges a newer level into an older one. *)

From Stdlib Require Import Sorted.
From stdpp Require Import gmap.
From S2P Require Import Prelude Ordered.

(** ** Results of calls that can fail

    [Failed] is a negative return value and [Undefined] a null pointer or a
    position outside a list; [NoFuel] marks a loop cut off by the model. *)

Inductive res (A : Type) : Type :=
  | Ok (a : A)
  | Failed
  | Undefined
  | NoFuel.
Arguments Ok {A}.
Arguments Failed {A}.
Arguments Undefined {A}.
Arguments NoFuel {A}.

#[export] Instance res_ret : MRet res := fun A a => Ok a.

#[export] Instance res_bind : MBind res := fun A B f m =>
  match m with
  | Ok a => f a
  | Failed => Failed
  | Undefined => Undefined
  | NoFuel => NoFuel
  end.

(** Dereferencing. *)
Definition deref {A} (o : option A) : res A :=
  match o with Some a => Ok a | None => Undefined end.

(** ** Nodes *)

Inductive ReverseNodeType : Type := REVERSE_NODE_NORMAL | REVERSE_NODE_DELETE.

#[export] Instance ReverseNodeType_eq_dec : EqDecision ReverseNodeType.
Proof. solve_decision. Defined.

(** [pb::CommonReverseNode]; the weight is the bit pattern of a [float]. *)
Record ReverseNode := mk_node {
  key : bytes;
  flag : ReverseNodeType;
  weight : Z
}.

#[export] Instance ReverseNode_eq_dec : EqDecision ReverseNode.
Proof. solve_decision. Defined.

(** A message whose fields were never set. *)
Definition default_node : ReverseNode := mk_node [] REVERSE_NODE_NORMAL 0.

Definition live (n : ReverseNode) : Prop := flag n = REVERSE_NODE_NORMAL.

#[export] Instance live_dec n : Decision (live n).
Proof. unfold live. solve_decision. Defined.

(** The bounds of the region; an empty bound is absent. *)
Abbreviation KeyRange := (bytes * bytes)%type.

Definition below_range (r : KeyRange) (k : bytes) : bool :=
  negb (bool_decide (r.1 = [])) && bytes_ltb k r.1.

Definition above_range (r : KeyRange) (k : bytes) : bool :=
  negb (bool_decide (r.2 = [])) && negb (bytes_ltb k r.2).

Definition in_key_range (r : KeyRange) (k : bytes) : Prop :=
  below_range r k = false /\ above_range r k = false.

#[export] Instance in_key_range_dec r k : Decision (in_key_range r k).
Proof. unfold in_key_range. solve_decision. Defined.

(** ** Iterators over a level *)

(** [next] gives the key of the next node, or none at the end; [ms_value] is the
    node [get_flag], [get_value] and [add_node] use. *)
Class MergeSortIterator (I : Type) := {
  ms_next : I -> res (I * option bytes);
  ms_value : I -> option ReverseNode
}.

(** *** The second and the third level: a sorted array *)

Record SecondLevelMSIterator := mk_second {
  sl_list : list ReverseNode;
  sl_key_range : KeyRange;
  sl_index : nat;
  sl_first : bool
}.

Definition second_iterator (l : list ReverseNode) (r : KeyRange) : SecondLevelMSIterator :=
  mk_second l r 0 true.

(** The inner loop: the last of the nodes that follow with the same key. *)
Fixpoint skip_same (k : bytes) (following : list ReverseNode) (i : nat) : nat :=
  match following with
  | n :: following => if bool_decide (k = key n) then skip_same k following (S i) else i
  | [] => i
  end.

Fixpoint second_next_fuel (fuel : nat) (it : SecondLevelMSIterator) :
    res (SecondLevelMSIterator * option bytes) :=
  match fuel with
  | O => NoFuel
  | S fuel =>
      let l := sl_list it in
      let r := sl_key_range it in
      let i := if sl_first it then sl_index it else S (sl_index it) in
      match l !! i with
      | None => Ok (mk_second l r i false, None)
      | Some n =>
          let k := key n in
          let it := mk_second l r (skip_same k (drop (S i) l) i) false in
          if below_range r k then second_next_fuel fuel it
          else Ok (it, if above_range r k then None else Some k)
      end
  end.

Definition second_next (it : SecondLevelMSIterator) : res (SecondLevelMSIterator * option bytes) :=
  second_next_fuel (S (length (sl_list it))) it.

#[export] Instance second_ms : MergeSortIterator SecondLevelMSIterator := {
  ms_next := second_next;
  ms_value it := sl_list it !! sl_index it
}.

(** ** Merging two levels *)

(** [if (!(is_del && flag == DELETE)) add_node]. *)
Definition add_kept (is_del : bool) (n : ReverseNode) (acc : list ReverseNode) : list ReverseNode :=
  if is_del && bool_decide (flag n = REVERSE_NODE_DELETE) then acc else acc ++ [n].

Section Merge.
Context {NI OI : Type} `{MergeSortIterator NI} `{MergeSortIterator OI}.

(** The keys are those of the last calls of [next]; the result is the list, whose
    length the code returns, and the iterators. *)
Fixpoint merge_loop (fuel : nat) (is_del : bool) (new : NI) (new_key : option bytes)
    (old : OI) (old_key : option bytes) (acc : list ReverseNode) :
    res (list ReverseNode * NI * OI) :=
  match fuel with
  | O => NoFuel
  | S fuel =>
      match new_key, old_key with
      | Some nk, Some ok =>
          match lex_compare nk ok with
          | Lt =>
              n ← deref (ms_value new);
              '(new, nk) ← ms_next new;
              merge_loop fuel is_del new nk old old_key (add_kept is_del n acc)
          | Gt =>
              n ← deref (ms_value old);
              '(old, ok) ← ms_next old;
              merge_loop fuel is_del new new_key old ok (add_kept is_del n acc)
          | Eq =>
              n ← deref (ms_value new);
              '(new, nk) ← ms_next new;
              '(old, ok) ← ms_next old;
              merge_loop fuel is_del new nk old ok (add_kept is_del n acc)
          end
      | Some _, None =>
          n ← deref (ms_value new);
          '(new, nk) ← ms_next new;
          merge_loop fuel is_del new nk old old_key (add_kept is_del n acc)
      | None, Some _ =>
          n ← deref (ms_value old);
          '(old, ok) ← ms_next old;
          merge_loop fuel is_del new new_key old ok (add_kept is_del n acc)
      | None, None => Ok (acc, new, old)
      end
  end.

Definition level_merge (fuel : nat) (is_del : bool) (new : NI) (old : OI) :
    res (list ReverseNode * NI * OI) :=
  '(new, nk) ← ms_next new;
  '(old, ok) ← ms_next old;
  merge_loop fuel is_del new nk old ok [].

End Merge.

(** ** Reference definitions *)

Definition keys (l : list ReverseNode) : list bytes := key <$> l.

(** The nodes by key. *)
Definition nodes_map (l : list ReverseNode) : gmap bytes ReverseNode :=
  list_to_map ((fun n => (key n, n)) <$> l).

(** The last node of every run of one key. *)
Fixpoint dedup_last (l : list ReverseNode) : list ReverseNode :=
  match l with
  | [] => []
  | n :: l' =>
      match l' with
      | m :: _ => if bool_decide (key n = key m) then dedup_last l' else n :: dedup_last l'
      | [] => [n]
      end
  end.

(** Two sorted lists as one, the newer node first where both have the key. *)
Fixpoint merge_nodes (new old : list ReverseNode) : list ReverseNode :=
  match new with
  | [] => old
  | n :: new' =>
      (fix inner (old : list ReverseNode) : list ReverseNode :=
         match old with
         | [] => n :: new'
         | o :: old' =>
             match lex_compare (key n) (key o) with
             | Lt => n :: merge_nodes new' old
             | Gt => o :: inner old'
             | Eq => n :: merge_nodes new' old'
             end
         end) old
  end.

(** The nodes from a target on. *)
Definition from (target : bytes) (l : list ReverseNode) : list ReverseNode :=
  filter (fun n => ~ bytes_lt (key n) target) l.

(** What an iterator yields until its end, and the iterator then. *)
Inductive yields {I : Type} `{MergeSortIterator I} : I -> list ReverseNode -> I -> Prop :=
  | yields_end it it' : ms_next it = Ok (it', None) -> yields it [] it'
  | yields_node it it1 n l it' :
      ms_next it = Ok (it1, Some (key n)) -> ms_value it1 = Some n ->
      yields it1 l it' -> yields it (n :: l) it'.

(** ** Lemmas on the reference *)

Lemma merge_nodes_nil_r l : merge_nodes l [] = l.
Proof. by destruct l. Qed.

Lemma merge_nodes_cons n new o old :
  merge_nodes (n :: new) (o :: old) =
  match lex_compare (key n) (key o) with
  | Lt => n :: merge_nodes new (o :: old)
  | Gt => o :: merge_nodes (n :: new) old
  | Eq => n :: merge_nodes new old
  end.
Proof. done. Qed.

(** Induction on the two lists a merge consumes. *)
Lemma merge_ind (P : list ReverseNode -> list ReverseNode -> Prop) :
  (forall old, P [] old) -> (forall n new, P (n :: new) []) ->
  (forall n new o old, lex_compare (key n) (key o) = Lt -> P new (o :: old) -> P (n :: new) (o :: old)) ->
  (forall n new o old, lex_compare (key n) (key o) = Gt -> P (n :: new) old -> P (n :: new) (o :: old)) ->
  (forall n new o old, key n = key o -> P new old -> P (n :: new) (o :: old)) ->
  forall new old, P new old.
Proof.
  intros H0 H1 Hlt Hgt Heq new. induction new as [|n new IH]; [apply H0|].
  intros old. induction old as [|o old IHo]; [apply H1|].
  destruct (lex_compare (key n) (key o)) eqn:E; [|by apply Hlt|by apply Hgt].
  apply Heq; [by apply lex_compare_eq|apply IH].
Qed.

Lemma elem_of_keys_merge new old k :
  k ∈ keys (merge_nodes new old) <-> k ∈ keys new \/ k ∈ keys old.
Proof.
  revert new old. apply merge_ind.
  - intros old. simpl. rewrite elem_of_nil. tauto.
  - intros n new. rewrite merge_nodes_nil_r. simpl. rewrite elem_of_nil. tauto.
  - intros n new o old E IH. rewrite merge_nodes_cons, E. unfold keys in *.
    rewrite !fmap_cons, !elem_of_cons in *. rewrite IH. tauto.
  - intros n new o old E IH. rewrite merge_nodes_cons, E. unfold keys in *.
    rewrite !fmap_cons, !elem_of_cons in *. rewrite IH. tauto.
  - intros n new o old E IH. rewrite merge_nodes_cons, E, lex_compare_refl. unfold keys in *.
    rewrite !fmap_cons, !elem_of_cons, IH, E. tauto.
Qed.

Lemma Forall_lt_merge k new old :
  Forall (bytes_lt k) (keys new) -> Forall (bytes_lt k) (keys old) ->
  Forall (bytes_lt k) (keys (merge_nodes new old)).
Proof.
  rewrite !Forall_forall. intros Hn Ho x Hx.
  apply elem_of_keys_merge in Hx as [?|?]; auto.
Qed.

Lemma Forall_lt_trans a b l : bytes_lt a b -> Forall (bytes_lt b) l -> Forall (bytes_lt a) l.
Proof. intros ? H. eapply Forall_impl; [exact H|]. intros. by transitivity b. Qed.

Lemma keys_cons n l : keys (n :: l) = key n :: keys l.
Proof. done. Qed.

Lemma merge_nodes_sorted new old :
  sorted (keys new) -> sorted (keys old) -> sorted (keys (merge_nodes new old)).
Proof.
  revert new old. apply (merge_ind (fun new old =>
    sorted (keys new) -> sorted (keys old) -> sorted (keys (merge_nodes new old)))).
  - done.
  - intros n new. by rewrite merge_nodes_nil_r.
  - intros n new o old E IH Hn Ho. rewrite merge_nodes_cons, E.
    rewrite !keys_cons in *. pose proof Hn as [Hn1 Hn2]%sorted_cons.
    pose proof Ho as [Ho1 Ho2]%sorted_cons. apply sorted_cons. split; [|by apply IH].
    apply Forall_lt_merge; [done|]. constructor; [done|]. by apply (Forall_lt_trans _ (key o)).
  - intros n new o old E IH Hn Ho. rewrite merge_nodes_cons, E. apply bytes_lt_gt in E.
    rewrite !keys_cons in *. pose proof Hn as [Hn1 Hn2]%sorted_cons.
    pose proof Ho as [Ho1 Ho2]%sorted_cons. apply sorted_cons. split; [|by apply IH].
    apply Forall_lt_merge; [|done]. constructor; [done|]. by apply (Forall_lt_trans _ (key n)).
  - intros n new o old E IH Hn Ho. rewrite merge_nodes_cons, E, lex_compare_refl.
    rewrite !keys_cons in *. pose proof Hn as [Hn1 Hn2]%sorted_cons.
    pose proof Ho as [Ho1 Ho2]%sorted_cons. apply sorted_cons. split; [|by apply IH].
    apply Forall_lt_merge; [done|]. by rewrite E.
Qed.

Lemma nodes_map_cons n l : nodes_map (n :: l) = <[key n := n]> (nodes_map l).
Proof. done. Qed.

Lemma nodes_map_None l k : Forall (bytes_lt k) (keys l) -> nodes_map l !! k = None.
Proof.
  intros Hk. apply not_elem_of_list_to_map_1. rewrite <- list_fmap_compose.
  intros Hin. rewrite Forall_forall in Hk. by apply (bytes_lt_irrefl k), Hk.
Qed.

(** Merging is the union of the maps in which the newer node wins. *)
Lemma nodes_map_merge new old :
  sorted (keys new) -> sorted (keys old) ->
  nodes_map (merge_nodes new old) = nodes_map new ∪ nodes_map old.
Proof.
  revert new old. apply (merge_ind (fun new old =>
    sorted (keys new) -> sorted (keys old) ->
    nodes_map (merge_nodes new old) = nodes_map new ∪ nodes_map old)).
  - intros old _ _. symmetry. apply (left_id_L ∅ (∪)).
  - intros n new _ _. rewrite merge_nodes_nil_r. symmetry. apply (right_id_L ∅ (∪)).
  - intros n new o old E IH Hn Ho. rewrite merge_nodes_cons, E.
    rewrite !keys_cons in *. pose proof Hn as [Hn1 Hn2]%sorted_cons.
    rewrite nodes_map_cons, (IH Hn2 Ho), (nodes_map_cons n new). by rewrite insert_union_l.
  - intros n new o old E IH Hn Ho. rewrite merge_nodes_cons, E. apply bytes_lt_gt in E.
    rewrite !keys_cons in *. pose proof Hn as [Hn1 Hn2]%sorted_cons.
    pose proof Ho as [Ho1 Ho2]%sorted_cons.
    rewrite nodes_map_cons, (IH Hn Ho2), (nodes_map_cons o old).
    apply insert_union_r. apply nodes_map_None. rewrite keys_cons.
    constructor; [done|]. by apply (Forall_lt_trans _ (key n)).
  - intros n new o old E IH Hn Ho. rewrite merge_nodes_cons, E, lex_compare_refl.
    rewrite !keys_cons in *. pose proof Hn as [Hn1 Hn2]%sorted_cons.
    pose proof Ho as [Ho1 Ho2]%sorted_cons.
    rewrite !nodes_map_cons, (IH Hn2 Ho2), <- E.
    apply map_eq. intros k. rewrite lookup_insert, !lookup_union, !lookup_insert.
    case_decide; [|done]. by destruct (nodes_map old !! k).
Qed.

(** ** The merge against the reference *)

Definition keep (is_del : bool) (n : ReverseNode) : Prop := is_del = true -> live n.

#[export] Instance keep_dec is_del n : Decision (keep is_del n).
Proof. unfold keep. apply _. Defined.

Lemma add_kept_filter is_del n acc : add_kept is_del n acc = acc ++ filter (keep is_del) [n].
Proof.
  unfold add_kept. rewrite filter_cons, filter_nil.
  assert (Hk : keep is_del n <-> is_del && bool_decide (flag n = REVERSE_NODE_DELETE) = false).
  { unfold keep, live. destruct is_del; simpl; [|naive_solver].
    rewrite bool_decide_eq_false. destruct (flag n); naive_solver. }
  destruct (decide (keep is_del n)) as [Hd|Hd]; rewrite Hk in Hd; [by rewrite Hd|].
  apply not_false_iff_true in Hd. by rewrite Hd, app_nil_r.
Qed.

Section MergeSpec.
Context {NI OI : Type} `{MergeSortIterator NI} `{MergeSortIterator OI}.

(** The key last read, and the node behind it. *)
Definition pending {I} `{MergeSortIterator I} (it : I) (k : option bytes) (l : list ReverseNode)
    (it' : I) : Prop :=
  match l with
  | [] => k = None /\ it' = it
  | n :: l => k = Some (key n) /\ ms_value it = Some n /\ yields it l it'
  end.

Lemma yields_pending {I} `{MergeSortIterator I} (it : I) l it' :
  yields it l it' -> exists it1 k, ms_next it = Ok (it1, k) /\ pending it1 k l it'.
Proof. intros []; eexists _, _; split; eauto; by repeat split. Qed.

Lemma merge_loop_spec is_del (ln lo : list ReverseNode) (new new' : NI) nk (old old' : OI) ok acc fuel :
  pending new nk ln new' -> pending old ok lo old' ->
  (length ln + length lo < fuel)%nat ->
  merge_loop fuel is_del new nk old ok acc =
  Ok (acc ++ filter (keep is_del) (merge_nodes ln lo), new', old').
Proof.
  revert ln lo new nk old ok acc. induction fuel as [|fuel IH]; [lia|].
  intros ln lo new nk old ok acc Hn Ho Hf. destruct ln as [|n ln], lo as [|o lo].
  - destruct Hn as [-> ->], Ho as [-> ->]. simpl. by rewrite app_nil_r.
  - destruct Hn as [-> ->], Ho as (-> & Hv & Hy). cbn [merge_loop]. rewrite Hv. simpl.
    apply yields_pending in Hy as (it1 & k & Hnx & Hp). rewrite Hnx. simpl.
    rewrite (IH [] lo); [|by split|done|simpl in *; lia].
    by rewrite add_kept_filter, <- app_assoc, <- filter_app.
  - destruct Hn as (-> & Hv & Hy), Ho as [-> ->]. cbn [merge_loop]. rewrite Hv. simpl.
    apply yields_pending in Hy as (it1 & k & Hnx & Hp). rewrite Hnx. simpl.
    rewrite (IH ln []); [|done|by split|simpl in *; lia].
    by rewrite add_kept_filter, <- app_assoc, <- filter_app, merge_nodes_nil_r.
  - destruct Hn as (-> & Hvn & Hyn), Ho as (-> & Hvo & Hyo). cbn [merge_loop].
    rewrite merge_nodes_cons. destruct (lex_compare (key n) (key o)) eqn:E.
    + rewrite Hvn. simpl. apply yields_pending in Hyn as (it1 & k & Hnx & Hp). rewrite Hnx. simpl.
      apply yields_pending in Hyo as (it2 & k2 & Hnx2 & Hp2). rewrite Hnx2. simpl.
      rewrite (IH ln lo); [|done|done|simpl in *; lia].
      by rewrite add_kept_filter, <- app_assoc, <- filter_app.
    + rewrite Hvn. simpl. apply yields_pending in Hyn as (it1 & k & Hnx & Hp). rewrite Hnx. simpl.
      rewrite (IH ln (o :: lo)); [|done|done|simpl in *; lia].
      by rewrite add_kept_filter, <- app_assoc, <- filter_app.
    + rewrite Hvo. simpl. apply yields_pending in Hyo as (it1 & k & Hnx & Hp). rewrite Hnx. simpl.
      rewrite (IH (n :: ln) lo); [|done|done|simpl in *; lia].
      by rewrite add_kept_filter, <- app_assoc, <- filter_app.
Qed.

End MergeSpec.

(** ** What the array iterator yields *)

(** Not decreasing, repetitions allowed. *)
Definition weakly_sorted (l : list ReverseNode) : Prop :=
  StronglySorted (fun a b => ~ bytes_lt (key b) (key a)) l.

Definition ranged (r : KeyRange) (l : list ReverseNode) : list ReverseNode :=
  filter (fun n => in_key_range r (key n)) l.

Lemma ranged_nil r l : ranged r l = [] <-> forall n, n ∈ l -> ~ in_key_range r (key n).
Proof.
  split.
  - intros H n Hn Hr. apply (not_elem_of_nil n). rewrite <- H. by apply list_elem_of_filter.
  - intros H. destruct (ranged r l) as [|n l'] eqn:E; [done|].
    assert (Hn : n ∈ ranged r l) by (rewrite E; by left).
    apply list_elem_of_filter in Hn as [Hr Hl]. by destruct (H n Hl).
Qed.

Lemma dedup_last_cons n m l :
  dedup_last (n :: m :: l) =
  if bool_decide (key n = key m) then dedup_last (m :: l) else n :: dedup_last (m :: l).
Proof. done. Qed.

Lemma skip_same_spec l i n :
  l !! i = Some n ->
  let j := skip_same (key n) (drop (S i) l) i in
  (i <= j)%nat /\ exists m, l !! j = Some m /\ key m = key n /\
  dedup_last (drop i l) = m :: dedup_last (drop (S j) l).
Proof.
  remember (drop (S i) l) as rest eqn:Hr. revert i n Hr.
  induction rest as [|m rest IH]; intros i n Hr Hn; cbn [skip_same].
  - split; [done|]. exists n. repeat split; [done|]. rewrite <- Hr.
    by rewrite (drop_S l n i Hn), <- Hr.
  - assert (Hm : l !! S i = Some m) by (rewrite <- (Nat.add_0_r (S i)), <- lookup_drop, <- Hr; done).
    rewrite (drop_S l n i Hn), <- Hr, dedup_last_cons.
    destruct (bool_decide (key n = key m)) eqn:E.
    + apply bool_decide_eq_true in E. rewrite E.
      assert (Hr' : rest = drop (S (S i)) l).
      { rewrite (drop_S l m (S i) Hm) in Hr. by injection Hr. }
      destruct (IH (S i) m Hr' Hm) as [Hle (x & Hx & Hk & Hd)]. split; [lia|].
      exists x. repeat split; [done|by rewrite Hk|]. rewrite <- Hd.
      by rewrite (drop_S l m (S i) Hm), <- Hr'.
    + split; [done|]. exists n. repeat split; [done|]. by rewrite <- Hr.
Qed.

Lemma weakly_sorted_drop l i : weakly_sorted l -> weakly_sorted (drop i l).
Proof.
  unfold weakly_sorted. revert i; induction l as [|n l IH]; intros [|i] Hl; try done.
  simpl. apply IH. by inversion Hl.
Qed.

Lemma weakly_sorted_above r n l :
  weakly_sorted (n :: l) -> above_range r (key n) = true -> ranged r (n :: l) = [].
Proof.
  unfold weakly_sorted. intros Hs Ha. inversion_clear Hs as [|? ? _ Hall].
  assert (Hout : forall m, ~ bytes_lt (key m) (key n) -> ~ in_key_range r (key m)).
  { intros m Hm [_ Hr]. unfold above_range in *. apply andb_true_iff in Ha as [H1 H2].
    rewrite H1 in Hr. simpl in Hr. apply negb_true_iff, bytes_ltb_false in H2.
    apply negb_false_iff, bytes_ltb_spec in Hr.
    destruct (bytes_lt_total (key n) (key m)) as [?|[E|?]]; [|congruence|done].
    apply H2. by transitivity (key m). }
  apply ranged_nil. intros m [->|Hm]%elem_of_cons; [apply Hout, bytes_lt_irrefl|].
  apply Hout. by eapply Forall_forall in Hall.
Qed.

Lemma dedup_last_sublist l : dedup_last l `sublist_of` l.
Proof.
  induction l as [|n [|m l] IH]; [done|done|]. rewrite dedup_last_cons.
  case_match; [by apply sublist_cons|by apply sublist_skip].
Qed.

Lemma ranged_dedup_nil r l : ranged r l = [] -> ranged r (dedup_last l) = [].
Proof.
  rewrite !ranged_nil. intros H n Hn. apply H. eapply elem_of_sublist; [done|].
  apply dedup_last_sublist.
Qed.

(** The nodes an iterator has still to look at. *)
Definition second_rest (it : SecondLevelMSIterator) : list ReverseNode :=
  drop (if sl_first it then sl_index it else S (sl_index it)) (sl_list it).

Definition second_todo (it : SecondLevelMSIterator) : list ReverseNode :=
  ranged (sl_key_range it) (dedup_last (second_rest it)).

Lemma ranged_cons r n l :
  ranged r (n :: l) = if decide (in_key_range r (key n)) then n :: ranged r l else ranged r l.
Proof. unfold ranged. by rewrite filter_cons. Qed.

Lemma second_next_spec fuel it :
  weakly_sorted (sl_list it) -> (length (second_rest it) < fuel)%nat ->
  exists it', sl_list it' = sl_list it /\ sl_key_range it' = sl_key_range it /\
  second_next_fuel fuel it =
    Ok (it', key <$> head (second_todo it)) /\
  (second_todo it = [] \/
   exists n, ms_value it' = Some n /\ second_todo it = n :: second_todo it').
Proof.
  revert it; induction fuel as [|fuel IH]; [lia|]. intros it Hs Hf.
  cbn [second_next_fuel]. unfold second_todo, second_rest in *.
  set (i := if sl_first it then sl_index it else S (sl_index it)) in *.
  destruct (sl_list it !! i) as [n|] eqn:Hn.
  - destruct (skip_same_spec _ _ _ Hn) as [Hij (m & Hm & Hk & Hd)].
    set (j := skip_same (key n) (drop (S i) (sl_list it)) i) in *.
    rewrite Hd, ranged_cons, Hk.
    set (it1 := mk_second (sl_list it) (sl_key_range it) j false).
    destruct (below_range (sl_key_range it) (key n)) eqn:Hb.
    + rewrite decide_False by (intros [? _]; congruence).
      destruct (IH it1) as (it' & ? & ? & He & Ht); [done| |by eauto 10].
      pose proof (lookup_lt_Some _ _ _ Hn). unfold it1. simpl. rewrite length_drop in *. lia.
    + destruct (above_range (sl_key_range it) (key n)) eqn:Ha.
      * rewrite decide_False by (intros [_ ?]; congruence).
        assert (E : ranged (sl_key_range it) (dedup_last (drop (S j) (sl_list it))) = []).
        { apply ranged_dedup_nil.
          assert (Hs' : weakly_sorted (m :: drop (S j) (sl_list it))).
          { rewrite <- drop_S by done. by apply weakly_sorted_drop. }
          rewrite <- Hk in Ha. apply (weakly_sorted_above (sl_key_range it)) in Hs'; [|done].
          rewrite ranged_cons in Hs'. by case_decide. }
        exists it1. rewrite E. by repeat split; [..|left].
      * rewrite decide_True by done. exists it1. repeat split; [simpl; by rewrite Hk|].
        right. by exists m.
  - apply lookup_ge_None in Hn. rewrite (drop_ge _ i) by done.
    exists (mk_second (sl_list it) (sl_key_range it) i false). by repeat split; [..|left].
Qed.

Lemma second_yields it :
  weakly_sorted (sl_list it) -> exists it', yields it (second_todo it) it'.
Proof.
  intros Hs. remember (length (second_todo it)) as n eqn:Hn.
  revert it Hs Hn. induction n as [|n IH]; intros it Hs Hn.
  all: destruct (second_next_spec (S (length (sl_list it))) it Hs) as (it1 & Hl & Hr & He & Ht).
  1, 3: unfold second_rest; rewrite length_drop; lia.
  - apply symmetry, nil_length_inv in Hn. rewrite Hn in *. exists it1. by apply yields_end.
  - destruct Ht as [Ht|(m & Hv & Ht)]; [by rewrite Ht in Hn|].
    rewrite Ht in *. destruct (IH it1) as [it' Hy]; [by rewrite Hl|by simplify_eq/=|].
    exists it'. by apply (yields_node _ it1).
Qed.

(** Strictly sorted lists are what the merge writes. *)
Lemma sorted_weakly l : sorted (keys l) -> weakly_sorted l.
Proof.
  induction l as [|n l IH]; [constructor|]. rewrite keys_cons, sorted_cons. intros [Hn Hl].
  constructor; [by apply IH|]. apply Forall_forall. intros m Hm. apply bytes_lt_asym.
  rewrite Forall_forall in Hn. apply Hn. by apply list_elem_of_fmap_2.
Qed.

Lemma dedup_sorted l : sorted (keys l) -> dedup_last l = l.
Proof.
  induction l as [|n [|m l] IH]; [done|done|]. rewrite keys_cons, sorted_cons. intros [Hn Hl].
  rewrite dedup_last_cons, IH by done. rewrite bool_decide_eq_false_2; [done|].
  intros E. rewrite keys_cons in Hn. inversion Hn as [|? ? Hlt]; subst. rewrite E in Hlt.
  by apply bytes_lt_irrefl in Hlt.
Qed.

Lemma keys_sublist l l' : l' `sublist_of` l -> keys l' `sublist_of` keys l.
Proof. apply fmap_sublist. Qed.

Lemma ranged_sorted r l : sorted (keys l) -> sorted (keys (ranged r l)).
Proof. apply sorted_sublist, keys_sublist, sublist_filter. Qed.

Lemma second_iterator_todo l r : sorted (keys l) -> second_todo (second_iterator l r) = ranged r l.
Proof. intros. unfold second_todo, second_rest. simpl. by rewrite drop_0, dedup_sorted. Qed.

Lemma length_merge_nodes new old :
  (length (merge_nodes new old) <= length new + length old)%nat.
Proof.
  revert new old. apply merge_ind.
  - done.
  - intros. rewrite merge_nodes_nil_r. lia.
  - intros n new o old E IH. rewrite merge_nodes_cons, E. simpl in *. lia.
  - intros n new o old E IH. rewrite merge_nodes_cons, E. simpl in *. lia.
  - intros n new o old E IH. rewrite merge_nodes_cons, E, lex_compare_refl. simpl in *. lia.
Qed.

(** Merging any two levels: the iterators yield the nodes, the loop ends and the
    list is the reference merge. *)
Lemma level_merge_ref {NI OI : Type} `{MergeSortIterator NI} `{MergeSortIterator OI}
    is_del (new new' : NI) (old old' : OI) ln lo fuel :
  yields new ln new' -> yields old lo old' -> (length ln + length lo < fuel)%nat ->
  level_merge fuel is_del new old =
  Ok (filter (keep is_del) (merge_nodes ln lo), new', old').
Proof.
  intros Hn Ho Hf. unfold level_merge.
  apply yields_pending in Hn as (n1 & nk & -> & Hn). simpl.
  apply yields_pending in Ho as (o1 & ok & -> & Ho). simpl.
  by rewrite (merge_loop_spec is_del ln lo n1 new' nk o1 old' ok [] fuel).
Qed.

Lemma keep_sorted is_del l : sorted (keys l) -> sorted (keys (filter (keep is_del) l)).
Proof. apply sorted_sublist, keys_sublist, sublist_filter. Qed.

(** [nodes_map] and filters on nodes commute when keys do not repeat. *)
Lemma nodes_map_lookup l k n :
  sorted (keys l) -> nodes_map l !! k = Some n <-> n ∈ l /\ key n = k.
Proof.
  intros Hs. unfold nodes_map. rewrite <- elem_of_list_to_map.
  - rewrite list_elem_of_fmap. split.
    + intros (m & [= -> <-] & Hm). done.
    + intros [Hn <-]. by exists n.
  - rewrite <- list_fmap_compose. by apply sorted_NoDup.
Qed.

Lemma nodes_map_filter (P : ReverseNode -> Prop) `{forall n, Decision (P n)} l :
  sorted (keys l) -> nodes_map (filter P l) = filter (fun kn => P kn.2) (nodes_map l).
Proof.
  intros Hs. apply map_eq. intros k. apply option_eq. intros n.
  rewrite map_lookup_filter_Some, !nodes_map_lookup, list_elem_of_filter by
    (done || by apply (sorted_sublist (keys l)), Hs; apply keys_sublist, sublist_filter).
  simpl. tauto.
Qed.
