(* ===== verification/BoolExecutor.v ===== *)
(** * The boolean engine of full-text search
      ([include/reverse/boolean_engine/boolean_executor.h] and [.hpp])

    A query is a tree whose leaves walk posting lists and whose inner nodes
    intersect, unite or weigh what their children yield; all of them are cursors
    that only move forward.  [next] and [advance] return the current node of the
    state they leave, so the definitions give that state; [None] is a null
    pointer dereferenced or a loop cut off. *)

From S2P Require Import Prelude Ordered Heap ReverseList.

(** ** Interfaces *)

(** [RindexNodeParser]: a cursor over a posting list.  [p_update] writes through
    the pointer to the current node, [p_size] bounds the nodes left. *)
Class RindexNodeParser (P : Type) := {
  p_current_node : P -> option ReverseNode;
  p_next : P -> option P;
  p_advance : bytes -> P -> option P;
  p_update : (ReverseNode -> ReverseNode) -> P -> P;
  p_size : P -> nat
}.

(** [BooleanExecutor], with the same two additions. *)
Class BooleanExecutor (E : Type) := {
  current_node : E -> option ReverseNode;
  current_id : E -> option bytes;
  next : E -> option E;
  advance : bytes -> E -> option E;
  update_node : (ReverseNode -> ReverseNode) -> E -> E;
  size : E -> nat
}.

Inductive bool_executor_type : Type := NODE_COPY | NODE_NOT_COPY.

(** [SchemaBase::filter] and [SchemaBase::init_node]. *)
Definition schema_filter (n : ReverseNode) : bool := false.
Definition schema_init_node (n : ReverseNode) : ReverseNode := n.

(** ** Leaves *)

(** [_curr_node_ptr]: null, the node of the parser, or the executor's copy. *)
Inductive TermPtr : Type := TermNull | TermList | TermCopy.

Record TermBooleanExecutor (P : Type) := mk_term {
  t_posting_list : P;
  t_type : bool_executor_type;
  t_init_flag : bool;
  t_curr_node : ReverseNode;
  t_curr_node_ptr : TermPtr
}.
Arguments mk_term {P}.
Arguments t_posting_list {P}.
Arguments t_type {P}.
Arguments t_init_flag {P}.
Arguments t_curr_node {P}.
Arguments t_curr_node_ptr {P}.

Section Term.
Context {P : Type} `{RindexNodeParser P}.

Definition term_executor (ty : bool_executor_type) (p : P) : TermBooleanExecutor P :=
  mk_term p ty true default_node TermNull.

Definition term_current_node (t : TermBooleanExecutor P) : option ReverseNode :=
  match t_curr_node_ptr t with
  | TermNull => None
  | TermList => p_current_node (t_posting_list t)
  | TermCopy => Some (t_curr_node t)
  end.

Definition term_current_id (t : TermBooleanExecutor P) : option bytes :=
  key <$> term_current_node t.

(** Whether the walk passes over a node. *)
Definition skipped (n : ReverseNode) : bool :=
  bool_decide (flag n = REVERSE_NODE_DELETE) || schema_filter n.

(** The state when the parser stands on what is to be returned. *)
Definition term_stop (t : TermBooleanExecutor P) (p : P) : TermBooleanExecutor P :=
  match p_current_node p with
  | None => mk_term p (t_type t) false (t_curr_node t) TermNull
  | Some n =>
      match t_type t with
      | NODE_COPY => mk_term p (t_type t) false (schema_init_node n) TermCopy
      | NODE_NOT_COPY => mk_term p (t_type t) false (t_curr_node t) TermList
      end
  end.

Fixpoint term_loop (fuel : nat) (init_flag : bool) (p : P) (t : TermBooleanExecutor P) :
    option (TermBooleanExecutor P) :=
  match fuel with
  | O => None
  | S fuel =>
      p ← (if init_flag then Some p else p_next p);
      match p_current_node p with
      | Some n => if skipped n then term_loop fuel false p t else Some (term_stop t p)
      | None => Some (term_stop t p)
      end
  end.

Definition term_next (t : TermBooleanExecutor P) : option (TermBooleanExecutor P) :=
  term_loop (S (S (p_size (t_posting_list t)))) (t_init_flag t) (t_posting_list t) t.

Definition term_advance (target : bytes) (t : TermBooleanExecutor P) :
    option (TermBooleanExecutor P) :=
  p ← p_advance target (t_posting_list t);
  match p_current_node p with
  | Some n =>
      if skipped n then term_loop (S (S (p_size p))) false p t else Some (term_stop t p)
  | None => Some (term_stop t p)
  end.

Definition term_update (f : ReverseNode -> ReverseNode) (t : TermBooleanExecutor P) :
    TermBooleanExecutor P :=
  match t_curr_node_ptr t with
  | TermNull => t
  | TermList =>
      mk_term (p_update f (t_posting_list t)) (t_type t) (t_init_flag t) (t_curr_node t) TermList
  | TermCopy =>
      mk_term (t_posting_list t) (t_type t) (t_init_flag t) (f (t_curr_node t)) TermCopy
  end.

#[export] Instance term_ops : BooleanExecutor (TermBooleanExecutor P) := {
  current_node := term_current_node;
  current_id := term_current_id;
  next := term_next;
  advance := term_advance;
  update_node := term_update;
  size t := p_size (t_posting_list t)
}.

End Term.

(** ** Inner nodes *)

(** Where [_curr_node_ptr] and [_curr_id_ptr] point: a member of the node itself,
    a sub-clause, or the mandatory clause of a weighted node. *)
Inductive Ptr : Type := Self | Sub (i : nat) | Must.

Abbreviation MergeFuncT := (ReverseNode -> ReverseNode -> ReverseNode).

Record OperatorBooleanExecutor (E : Type) := mk_operator {
  o_type : bool_executor_type;
  o_init_flag : bool;
  o_is_null_flag : bool;
  o_curr_node_ptr : Ptr;
  o_curr_id_ptr : Ptr;
  o_curr_node : ReverseNode;
  o_curr_id : bytes;
  o_merge_func : MergeFuncT;
  o_sub_clauses : list E;
  o_op_executor : option E
}.
Arguments mk_operator {E}.
Arguments o_type {E}.
Arguments o_init_flag {E}.
Arguments o_is_null_flag {E}.
Arguments o_curr_node_ptr {E}.
Arguments o_curr_id_ptr {E}.
Arguments o_curr_node {E}.
Arguments o_curr_id {E}.
Arguments o_merge_func {E}.
Arguments o_sub_clauses {E}.
Arguments o_op_executor {E}.

Section Operator.
Context {E : Type} `{BooleanExecutor E}.
Implicit Type o : OperatorBooleanExecutor E.

(** The constructors and [set_merge_func]. *)
Definition new_operator (ty : bool_executor_type) (merge : MergeFuncT) :
    OperatorBooleanExecutor E :=
  mk_operator ty true false Self Self default_node [] merge [] None.

Definition set_subs o (subs : list E) : OperatorBooleanExecutor E :=
  mk_operator (o_type o) (o_init_flag o) (o_is_null_flag o) (o_curr_node_ptr o) (o_curr_id_ptr o)
    (o_curr_node o) (o_curr_id o) (o_merge_func o) subs (o_op_executor o).

Definition set_init o (init : bool) : OperatorBooleanExecutor E :=
  mk_operator (o_type o) init (o_is_null_flag o) (o_curr_node_ptr o) (o_curr_id_ptr o)
    (o_curr_node o) (o_curr_id o) (o_merge_func o) (o_sub_clauses o) (o_op_executor o).

Definition set_null o : OperatorBooleanExecutor E :=
  mk_operator (o_type o) (o_init_flag o) true (o_curr_node_ptr o) (o_curr_id_ptr o)
    (o_curr_node o) (o_curr_id o) (o_merge_func o) (o_sub_clauses o) (o_op_executor o).

Definition set_id_ptr o (ptr : Ptr) : OperatorBooleanExecutor E :=
  mk_operator (o_type o) (o_init_flag o) (o_is_null_flag o) (o_curr_node_ptr o) ptr
    (o_curr_node o) (o_curr_id o) (o_merge_func o) (o_sub_clauses o) (o_op_executor o).

Definition set_must o (must : option E) : OperatorBooleanExecutor E :=
  mk_operator (o_type o) (o_init_flag o) (o_is_null_flag o) (o_curr_node_ptr o) (o_curr_id_ptr o)
    (o_curr_node o) (o_curr_id o) (o_merge_func o) (o_sub_clauses o) must.

(** [add]. *)
Definition add_clause o (e : E) : OperatorBooleanExecutor E := set_subs o (o_sub_clauses o ++ [e]).

Definition pointee o (ptr : Ptr) : option E :=
  match ptr with
  | Self => None
  | Sub i => o_sub_clauses o !! i
  | Must => o_op_executor o
  end.

(** [*_curr_node_ptr] and [*_curr_id_ptr]. *)
Definition deref_node o : option ReverseNode :=
  match o_curr_node_ptr o with
  | Self => Some (o_curr_node o)
  | ptr => pointee o ptr ≫= current_node
  end.

Definition deref_id o : option bytes :=
  match o_curr_id_ptr o with
  | Self => Some (o_curr_id o)
  | ptr => pointee o ptr ≫= current_id
  end.

Definition op_current_node o : option ReverseNode :=
  if o_is_null_flag o then None else deref_node o.

Definition op_current_id o : option bytes :=
  if o_is_null_flag o then None else deref_id o.

Definition op_update (f : ReverseNode -> ReverseNode) o : OperatorBooleanExecutor E :=
  match o_curr_node_ptr o with
  | Self =>
      mk_operator (o_type o) (o_init_flag o) (o_is_null_flag o) (o_curr_node_ptr o)
        (o_curr_id_ptr o) (f (o_curr_node o)) (o_curr_id o) (o_merge_func o)
        (o_sub_clauses o) (o_op_executor o)
  | Sub i => set_subs o (alter (update_node f) i (o_sub_clauses o))
  | Must => set_must o (update_node f <$> o_op_executor o)
  end.

(** The call of [_merge_func] on the node [_curr_node_ptr] points to. *)
Definition merge_into o (from : ReverseNode) : OperatorBooleanExecutor E :=
  op_update (fun to => o_merge_func o to from) o.

(** The choice by [_type] at the end of [find_next] and [next]: copy the node
    behind [ptr], or point to it. *)
Definition take_node o (ptr : Ptr) : option (OperatorBooleanExecutor E) :=
  e ← pointee o ptr;
  match o_type o with
  | NODE_COPY =>
      n ← current_node e;
      i ← current_id e;
      Some (mk_operator (o_type o) (o_init_flag o) (o_is_null_flag o) (o_curr_node_ptr o)
              (o_curr_id_ptr o) n i (o_merge_func o) (o_sub_clauses o) (o_op_executor o))
  | NODE_NOT_COPY =>
      Some (mk_operator (o_type o) (o_init_flag o) (o_is_null_flag o) ptr ptr
              (o_curr_node o) (o_curr_id o) (o_merge_func o) (o_sub_clauses o) (o_op_executor o))
  end.

Definition subs_size o : nat := sum_list_with size (o_sub_clauses o).

(** *** Conjunction *)

(** The loop of [find_next]: whether it ends on a common id, the clauses, and
    the pivot, whose id [_curr_id_ptr] points to. *)
Fixpoint and_loop (fuel : nat) (subs : list E) (forward_idx pivot_idx : nat) :
    option (bool * list E * nat) :=
  match fuel with
  | O => None
  | S fuel =>
      forward ← subs !! forward_idx;
      if negb (forward_idx =? pivot_idx)%nat then
        id ← (subs !! pivot_idx ≫= current_id);
        forward ← advance id forward;
        let subs := <[forward_idx := forward]> subs in
        match current_node forward with
        | Some _ =>
            fid ← current_id forward;
            let pivot_idx := if bool_decide (fid = id) then pivot_idx else forward_idx in
            and_loop fuel subs
              (if (forward_idx =? length subs - 1)%nat then 0%nat else S forward_idx) pivot_idx
        | None => Some (bool_decide (is_Some (current_id forward)), subs, pivot_idx)
        end
      else Some (bool_decide (is_Some (current_id forward)), subs, pivot_idx)
  end.

(** Between two changes of the pivot every clause is visited once, and a change
    leaves fewer ids above the pivot's. *)
Definition and_fuel (subs : list E) : nat :=
  S (length subs * S (sum_list_with size subs)).

Fixpoint merge_rest o (subs : list E) : option (OperatorBooleanExecutor E) :=
  match subs with
  | [] => Some o
  | e :: subs => n ← current_node e; merge_rest (merge_into o n) subs
  end.

Definition and_find_next o : option (OperatorBooleanExecutor E) :=
  let subs := o_sub_clauses o in
  let pivot_idx := (length subs - 1)%nat in
  pivot ← subs !! pivot_idx;
  match current_node pivot with
  | None => Some (set_null o)
  | Some _ =>
      '(found, subs, pivot_idx) ← and_loop (and_fuel subs) subs 0 pivot_idx;
      let o := set_id_ptr (set_subs o subs) (Sub pivot_idx) in
      if negb found then Some (set_null o)
      else
        o ← take_node o (Sub 0);
        merge_rest o (tail (o_sub_clauses o))
  end.

(** The first call moves every clause and stops at one that is exhausted. *)
Fixpoint move_until_null (move : E -> option E) (subs : list E) : option (bool * list E) :=
  match subs with
  | [] => Some (true, [])
  | e :: subs =>
      e ← move e;
      match current_node e with
      | None => Some (false, e :: subs)
      | Some _ => '(ok, subs) ← move_until_null move subs; Some (ok, e :: subs)
      end
  end.

Definition and_first o (move : E -> option E) : option (OperatorBooleanExecutor E) :=
  '(ok, subs) ← move_until_null move (o_sub_clauses o);
  let o := set_init (set_subs o subs) false in
  if negb ok then Some (set_null o) else and_find_next o.

Definition and_later o (move : E -> option E) : option (OperatorBooleanExecutor E) :=
  let last := (length (o_sub_clauses o) - 1)%nat in
  e ← o_sub_clauses o !! last;
  e ← move e;
  and_find_next (set_subs o (<[last := e]> (o_sub_clauses o))).

Definition op_done o : bool :=
  (length (o_sub_clauses o) =? 0)%nat || o_is_null_flag o.

Definition and_next o : option (OperatorBooleanExecutor E) :=
  if op_done o then Some (set_null o)
  else if o_init_flag o then and_first o next
  else and_later o next.

Definition and_advance (target : bytes) o : option (OperatorBooleanExecutor E) :=
  if op_done o then Some (set_null o)
  else if o_init_flag o then and_first o (advance target)
  else
    id ← op_current_id o;
    if bytes_ltb id target then and_later o (advance target) else Some o.

(** *** Disjunction *)

(** [CompareAsc]: an exhausted clause comes last. *)
Definition compare_asc (a b : E) : bool :=
  match current_id a, current_id b with
  | None, _ => false
  | Some _, None => true
  | Some x, Some y => bytes_ltb x y
  end.

Definition or_shiftdown (subs : list E) (index : nat) : list E := shiftdown compare_asc subs index.
Definition or_make_heap (subs : list E) : list E := make_heap compare_asc subs.

(** One of the two loops of [find_next]: clauses at position [i] of the heap
    with the current id are merged and moved on. *)
Fixpoint or_drain (rounds : nat) (i : nat) o : option (OperatorBooleanExecutor E) :=
  match rounds with
  | O => Some o
  | S rounds =>
      e ← o_sub_clauses o !! i;
      match current_id e with
      | None => Some o
      | Some x =>
          id ← deref_id o;
          if bool_decide (x = id) then
            n ← current_node e;
            let o := merge_into o n in
            e ← o_sub_clauses o !! i;
            e ← next e;
            or_drain rounds i (set_subs o (or_shiftdown (<[i := e]> (o_sub_clauses o)) i))
          else Some o
      end
  end.

Definition or_find_next o : option (OperatorBooleanExecutor E) :=
  first ← o_sub_clauses o !! 0%nat;
  match current_id first with
  | None => Some (set_null o)
  | Some _ =>
      o ← take_node o (Sub 0);
      let n := length (o_sub_clauses o) in
      o ← (if (1 <? n)%nat then or_drain n 1 o else Some o);
      if (2 <? n)%nat then or_drain n 2 o else Some o
  end.

Definition or_next o : option (OperatorBooleanExecutor E) :=
  if op_done o then Some (set_null o)
  else if o_init_flag o then
    subs ← mapM next (o_sub_clauses o);
    or_find_next (set_init (set_subs o (or_make_heap subs)) false)
  else
    e ← o_sub_clauses o !! 0%nat;
    e ← next e;
    or_find_next (set_subs o (or_shiftdown (<[0%nat := e]> (o_sub_clauses o)) 0)).

Definition or_advance (target : bytes) o : option (OperatorBooleanExecutor E) :=
  if op_done o then Some (set_null o)
  else
    let move o :=
      subs ← mapM (advance target) (o_sub_clauses o);
      or_find_next (set_subs o (or_make_heap subs)) in
    if o_init_flag o then move (set_init o false)
    else
      id ← op_current_id o;
      if bytes_ltb id target then move o else Some o.

(** *** Weighting *)

Definition add_must o (e : E) : OperatorBooleanExecutor E := set_must o (Some e).

Definition add_not_must o (e : E) : option (OperatorBooleanExecutor E) :=
  e ← next e;
  Some (add_clause o e).

Fixpoint add_weight_from (i : nat) (count : nat) o : option (OperatorBooleanExecutor E) :=
  match count with
  | O => Some o
  | S count =>
      e ← o_sub_clauses o !! i;
      match current_id e with
      | None => add_weight_from (S i) count o
      | Some x =>
          id ← deref_id o;
          match lex_compare x id with
          | Gt => add_weight_from (S i) count o
          | Eq => n ← current_node e; add_weight_from (S i) count (merge_into o n)
          | Lt =>
              e ← advance id e;
              let o := set_subs o (<[i := e]> (o_sub_clauses o)) in
              match current_id e with
              | None => add_weight_from (S i) count o
              | Some x =>
                  if bool_decide (x = id) then
                    n ← current_node e; add_weight_from (S i) count (merge_into o n)
                  else add_weight_from (S i) count o
              end
          end
      end
  end.

Definition add_weight o : option (OperatorBooleanExecutor E) :=
  add_weight_from 0 (length (o_sub_clauses o)) o.

Definition weighted_move o (move : E -> option E) : option (OperatorBooleanExecutor E) :=
  match o_op_executor o with
  | Some e =>
      if o_is_null_flag o then Some (set_null o)
      else
        e ← move e;
        let o := set_must o (Some e) in
        match current_node e with
        | None => Some (set_null o)
        | Some _ => o ← take_node o Must; add_weight o
        end
  | None => Some (set_null o)
  end.

End Operator.

(** The three classes over a class of clauses. *)
Inductive AndBooleanExecutor (E : Type) : Type := mk_and (o : OperatorBooleanExecutor E).
Inductive OrBooleanExecutor (E : Type) : Type := mk_or (o : OperatorBooleanExecutor E).
Inductive WeightedBooleanExecutor (E : Type) : Type := mk_weighted (o : OperatorBooleanExecutor E).
Arguments mk_and {E}.
Arguments mk_or {E}.
Arguments mk_weighted {E}.

Definition and_op {E} (a : AndBooleanExecutor E) := let 'mk_and o := a in o.
Definition or_op {E} (a : OrBooleanExecutor E) := let 'mk_or o := a in o.
Definition weighted_op {E} (a : WeightedBooleanExecutor E) := let 'mk_weighted o := a in o.

#[export] Instance and_ops {E} `{BooleanExecutor E} : BooleanExecutor (AndBooleanExecutor E) := {
  current_node a := op_current_node (and_op a);
  current_id a := op_current_id (and_op a);
  next a := mk_and <$> and_next (and_op a);
  advance t a := mk_and <$> and_advance t (and_op a);
  update_node f a := mk_and (op_update f (and_op a));
  size a := subs_size (and_op a)
}.

#[export] Instance or_ops {E} `{BooleanExecutor E} : BooleanExecutor (OrBooleanExecutor E) := {
  current_node a := op_current_node (or_op a);
  current_id a := op_current_id (or_op a);
  next a := mk_or <$> or_next (or_op a);
  advance t a := mk_or <$> or_advance t (or_op a);
  update_node f a := mk_or (op_update f (or_op a));
  size a := subs_size (or_op a)
}.

#[export] Instance weighted_ops {E} `{BooleanExecutor E} :
    BooleanExecutor (WeightedBooleanExecutor E) := {
  current_node a := op_current_node (weighted_op a);
  current_id a := op_current_id (weighted_op a);
  next a := mk_weighted <$> weighted_move (weighted_op a) next;
  advance t a := mk_weighted <$> weighted_move (weighted_op a) (advance t);
  update_node f a := mk_weighted (op_update f (weighted_op a));
  size a := (from_option size 0 (o_op_executor (weighted_op a)) + subs_size (weighted_op a))%nat
}.
