(* ===== verification/BoolExecutorFacts.v ===== *)
(** * What the boolean engine yields

    Leaves, conjunctions, disjunctions and weighted nodes are cursors over
    strictly sorted lists of ids: over correct clauses a conjunction walks their
    intersection, a disjunction their union, a weighted node its mandatory
    clause. *)

From S2P Require Import Prelude Ordered Heap ReverseList BoolExecutor.

(** ** The contract of a cursor *)

(** Functions that change no more than the weight. *)
Definition keeps (f : ReverseNode -> ReverseNode) : Prop :=
  forall n, key (f n) = key n /\ flag (f n) = flag n.

Definition kf (n : ReverseNode) : bytes * ReverseNodeType := (key n, flag n).

Class ParserLaws (P : Type) `{RindexNodeParser P} := {
  p_wf : P -> Prop;
  p_nodes : P -> list ReverseNode;
  p_sorted p : p_wf p -> sorted (keys (p_nodes p));
  p_current_spec p : p_wf p -> p_current_node p = head (p_nodes p);
  p_next_spec p : p_wf p ->
    exists p', p_next p = Some p' /\ p_wf p' /\ p_nodes p' = tail (p_nodes p);
  p_advance_spec t p : p_wf p ->
    exists p', p_advance t p = Some p' /\ p_wf p' /\ p_nodes p' = from t (p_nodes p);
  p_update_spec f p : p_wf p -> keeps f ->
    p_wf (p_update f p) /\ kf <$> p_nodes (p_update f p) = kf <$> p_nodes p;
  p_size_spec p : p_wf p -> (length (p_nodes p) <= p_size p)%nat
}.

(** [ids] are those from the current one on, or all before the first call. *)
Class ExecutorLaws (E : Type) `{BooleanExecutor E} := {
  wf : E -> Prop;
  started : E -> bool;
  ids : E -> list bytes;
  ids_sorted e : wf e -> sorted (ids e);
  ids_size e : wf e -> (length (ids e) <= size e)%nat;
  current_id_spec e : wf e -> started e = true -> current_id e = head (ids e);
  current_node_spec e : wf e -> started e = true ->
    (key <$> current_node e) = head (ids e) /\ forall n, current_node e = Some n -> live n;
  next_spec e : wf e ->
    exists e', next e = Some e' /\ wf e' /\ started e' = true /\
      ids e' = if started e then tail (ids e) else ids e;
  advance_spec t e : wf e ->
    exists e', advance t e = Some e' /\ wf e' /\ started e' = true /\ ids e' = drop_lt t (ids e);
  update_spec f e : wf e -> keeps f ->
    wf (update_node f e) /\ started (update_node f e) = started e /\ ids (update_node f e) = ids e
}.

(** ** Leaves *)

Section Term.
Context {P : Type} `{ParserLaws P}.
Implicit Type t : TermBooleanExecutor P.

Definition live_nodes (p : P) : list ReverseNode := filter live (p_nodes p).

(** The pointer of a leaf that was moved. *)
Definition term_ptr_ok t : Prop :=
  match t_curr_node_ptr t with
  | TermNull => p_nodes (t_posting_list t) = []
  | TermList => exists n, head (p_nodes (t_posting_list t)) = Some n /\ live n
  | TermCopy => exists n, head (p_nodes (t_posting_list t)) = Some n /\ live n /\
      kf (t_curr_node t) = kf n
  end.

Definition term_wf t : Prop :=
  p_wf (t_posting_list t) /\ (t_init_flag t = false -> term_ptr_ok t).

Definition term_ids t : list bytes := keys (live_nodes (t_posting_list t)).

Lemma skipped_live n : skipped n = negb (bool_decide (live n)).
Proof.
  unfold skipped, schema_filter. rewrite orb_false_r.
  case_bool_decide as H1; case_bool_decide as H2; unfold live in *; try done; [congruence|].
  by destruct (flag n).
Qed.

Lemma head_live (n : ReverseNode) l : live n -> filter live (n :: l) = n :: filter live l.
Proof. intros. by rewrite filter_cons_True. Qed.

Lemma term_stop_wf t p :
  p_wf p -> (forall n, head (p_nodes p) = Some n -> live n) -> term_wf (term_stop t p).
Proof.
  intros Hp Hlive. unfold term_stop. rewrite p_current_spec by done.
  destruct (p_nodes p) as [|n l] eqn:E; simpl.
  - split; [done|]. intros _. done.
  - specialize (Hlive n eq_refl).
    destruct (t_type t); (split; [done|]); intros _; unfold term_ptr_ok; simpl; rewrite E; eauto.
Qed.

Lemma term_stop_list t p : t_posting_list (term_stop t p) = p /\ t_init_flag (term_stop t p) = false.
Proof. unfold term_stop. by repeat case_match. Qed.

Lemma term_loop_spec fuel (init : bool) p t :
  p_wf p -> (length (if init then p_nodes p else tail (p_nodes p)) < fuel)%nat ->
  exists p', term_loop fuel init p t = Some (term_stop t p') /\ p_wf p' /\
    live_nodes p' = filter live (if init then p_nodes p else tail (p_nodes p)) /\
    forall n, head (p_nodes p') = Some n -> live n.
Proof.
  revert init p; induction fuel as [|fuel IH]; [lia|]. intros init p Hp Hf. cbn [term_loop].
  assert (Hmove : exists p1, (if init then Some p else p_next p) = Some p1 /\ p_wf p1 /\
    p_nodes p1 = if init then p_nodes p else tail (p_nodes p)).
  { destruct init; [by exists p|]. by apply p_next_spec. }
  destruct Hmove as (p1 & -> & Hp1 & E1). rewrite <- E1 in *. cbn [mbind option_bind].
  rewrite p_current_spec by done. destruct (p_nodes p1) as [|n l] eqn:El; simpl.
  - exists p1. rewrite El. repeat split; try done. unfold live_nodes. by rewrite El.
  - rewrite skipped_live. destruct (bool_decide (live n)) eqn:Hl; simpl.
    + apply bool_decide_eq_true in Hl. exists p1. rewrite El. repeat split; try done.
      * unfold live_nodes. by rewrite El.
      * intros m [= <-]. done.
    + apply bool_decide_eq_false in Hl.
      destruct (IH false p1 Hp1) as (p' & -> & Hp' & E' & Hh); [rewrite El; simpl in *; lia|].
      exists p'. repeat split; try done. rewrite E', El. simpl. by rewrite filter_cons_False.
Qed.

Lemma keys_from (t : bytes) l : sorted (keys l) -> keys (from t l) = drop_lt t (keys l).
Proof.
  induction l as [|n l IH]; [done|]. rewrite keys_cons, sorted_cons. intros [Hn Hl]. simpl.
  unfold from in *. destruct (bytes_ltb (key n) t) eqn:E.
  - apply bytes_ltb_spec in E. rewrite filter_cons_False by tauto. by apply IH.
  - apply bytes_ltb_false in E. rewrite filter_cons_True by done. rewrite keys_cons. f_equal.
    rewrite IH by done. apply drop_lt_all; [done|]. eapply Forall_impl; [exact Hn|].
    intros k Hk Hlt. apply E. by transitivity k.
Qed.

Lemma live_sorted p : p_wf p -> sorted (keys (live_nodes p)).
Proof.
  intros. eapply sorted_sublist; [apply keys_sublist, sublist_filter|]. by apply p_sorted.
Qed.

Lemma live_from (t : bytes) (l : list ReverseNode) : filter live (from t l) = from t (filter live l).
Proof. unfold from. rewrite !list_filter_filter. apply list_filter_iff. tauto. Qed.

Lemma term_advance_spec target t :
  term_wf t ->
  exists t', term_advance target t = Some t' /\ term_wf t' /\ t_init_flag t' = false /\
    term_ids t' = drop_lt target (term_ids t).
Proof.
  intros [Hp _]. unfold term_advance.
  destruct (p_advance_spec target _ Hp) as (p1 & -> & Hp1 & E1). cbn [mbind option_bind].
  unfold term_ids. rewrite <- keys_from by by apply live_sorted.
  unfold live_nodes at 2. rewrite <- live_from, <- E1.
  assert (Hdone : (forall n, head (p_nodes p1) = Some n -> live n) ->
    exists t', Some (term_stop t p1) = Some t' /\ term_wf t' /\ t_init_flag t' = false /\
      keys (live_nodes (t_posting_list t')) = keys (filter live (p_nodes p1))).
  { intros Hl. destruct (term_stop_list t p1) as [E2 E3]. exists (term_stop t p1).
    split; [done|]. split; [by apply term_stop_wf|]. split; [done|]. by rewrite E2. }
  rewrite p_current_spec by done. destruct (head (p_nodes p1)) as [n|] eqn:Eh; [|by apply Hdone].
  rewrite skipped_live. destruct (bool_decide (live n)) eqn:Hl; simpl.
  - apply bool_decide_eq_true in Hl. apply Hdone. by intros m [= <-].
  - apply bool_decide_eq_false in Hl. clear Hdone.
    pose proof (p_size_spec p1 Hp1) as Hsize.
    destruct (term_loop_spec (S (S (p_size p1))) false p1 t Hp1) as (p2 & E2 & Hp2 & En & Hlive).
    { destruct (p_nodes p1); simpl in *; lia. }
    simpl in E2. rewrite E2. destruct (term_stop_list t p2) as [E3 E4].
    eexists. split; [done|]. split; [by apply term_stop_wf|]. split; [done|]. rewrite E3, En.
    destruct (p_nodes p1) as [|m l]; [done|]. simplify_eq/=. by rewrite filter_cons_False.
Qed.

Lemma live_nodes_head t n :
  term_ptr_ok t -> head (p_nodes (t_posting_list t)) = Some n -> live n.
Proof.
  unfold term_ptr_ok. destruct (t_curr_node_ptr t).
  - intros ->. done.
  - intros (m & -> & ?) [= <-]. done.
  - intros (m & -> & ? & _) [= <-]. done.
Qed.

Lemma term_next_spec t :
  term_wf t ->
  exists t', term_next t = Some t' /\ term_wf t' /\ t_init_flag t' = false /\
    term_ids t' = if negb (t_init_flag t) then tail (term_ids t) else term_ids t.
Proof.
  intros [Hp Hptr]. unfold term_next. pose proof (p_size_spec _ Hp) as Hsize.
  destruct (term_loop_spec (S (S (p_size (t_posting_list t)))) (t_init_flag t) (t_posting_list t) t Hp)
    as (p1 & E1 & Hp1 & En & Hlive).
  { destruct (t_init_flag t), (p_nodes (t_posting_list t)); simpl in *; lia. }
  rewrite E1. destruct (term_stop_list t p1) as [E3 E4].
  eexists. split; [done|]. split; [by apply term_stop_wf|]. split; [done|]. unfold term_ids. rewrite E3, En.
  destruct (t_init_flag t) eqn:Ei; [done|]. simpl. unfold live_nodes.
  specialize (Hptr eq_refl). pose proof (live_nodes_head t) as Hh.
  destruct (p_nodes (t_posting_list t)) as [|n l]; [done|].
  simpl. by rewrite head_live by by apply Hh.
Qed.

Lemma keeps_live f n : keeps f -> live n -> live (f n).
Proof. unfold live. intros Hf. by destruct (Hf n) as [_ ->]. Qed.

Lemma kf_live_keys l1 l2 :
  kf <$> l1 = kf <$> l2 -> keys (filter live l1) = keys (filter live l2).
Proof.
  revert l2; induction l1 as [|n l1 IH]; intros [|m l2] E; try done.
  rewrite !fmap_cons in E. injection E as Ek Ef E.
  destruct (decide (live n)) as [Hn|Hn].
  - rewrite !filter_cons_True by (done || by unfold live in *; congruence).
    rewrite !keys_cons. f_equal; [done|by apply IH].
  - rewrite !filter_cons_False by (done || by unfold live in *; congruence). by apply IH.
Qed.

Lemma kf_head l1 l2 n :
  kf <$> l1 = kf <$> l2 -> head l1 = Some n -> exists m, head l2 = Some m /\ kf m = kf n.
Proof.
  destruct l1 as [|a l1], l2 as [|b l2]; try done. rewrite !fmap_cons.
  intros [= Ek Ef E] [= <-]. exists b. split; [done|]. unfold kf. congruence.
Qed.

Lemma term_update_wf f t :
  term_wf t -> keeps f -> term_wf (term_update f t) /\ t_init_flag (term_update f t) = t_init_flag t /\
    term_ids (term_update f t) = term_ids t.
Proof.
  intros [Hp Hptr] Hf. unfold term_update. destruct (t_curr_node_ptr t) eqn:Ec; [by repeat split| |].
  - destruct (p_update_spec f _ Hp Hf) as [Hp' Ek].
    split; [split; [done|]|split; [done|by apply kf_live_keys]]. intros Hi. specialize (Hptr Hi).
    unfold term_ptr_ok in *. rewrite Ec in Hptr. simpl in *. destruct Hptr as (n & Hn & Hl).
    destruct (kf_head _ _ _ (eq_sym Ek) Hn) as (m & Hm & Ekf). exists m. split; [done|].
    unfold live, kf in *. congruence.
  - split; [split; [done|]|done]. intros Hi. specialize (Hptr Hi).
    unfold term_ptr_ok in *. rewrite Ec in Hptr. simpl in *. destruct Hptr as (n & Hn & Hl & Ekf).
    exists n. repeat split; [done..|]. unfold kf. by destruct (Hf (t_curr_node t)) as [-> ->].
Qed.

Lemma term_current_spec t :
  term_wf t -> t_init_flag t = false ->
  (key <$> term_current_node t) = head (term_ids t) /\
  forall n, term_current_node t = Some n -> live n.
Proof.
  intros [Hp Hptr] Hi. specialize (Hptr Hi). unfold term_ptr_ok, term_current_node, term_ids in *.
  unfold live_nodes. destruct (t_curr_node_ptr t).
  - rewrite Hptr. done.
  - destruct Hptr as (n & Hn & Hl). rewrite p_current_spec, Hn by done.
    destruct (p_nodes (t_posting_list t)) as [|m l]; [done|]. simplify_eq/=.
    rewrite head_live by done. split; [done|]. by intros m [= <-].
  - destruct Hptr as (n & Hn & Hl & Ek).
    destruct (p_nodes (t_posting_list t)) as [|m l]; [done|]. simplify_eq/=.
    rewrite head_live by done. unfold kf, live in *. split; [simpl; congruence|].
    intros m [= <-]. congruence.
Qed.

#[export] Program Instance term_laws : ExecutorLaws (TermBooleanExecutor P) := {
  wf := term_wf;
  started t := negb (t_init_flag t);
  ids := term_ids
}.
Next Obligation. intros t [Hp _]. by apply live_sorted. Qed.
Next Obligation.
  intros t [Hp _]. unfold term_ids, keys. rewrite length_fmap. cbn.
  etransitivity; [apply length_filter|by apply p_size_spec].
Qed.
Next Obligation.
  intros t Hwf Hs. apply negb_true_iff in Hs. by apply term_current_spec.
Qed.
Next Obligation.
  intros t Hwf Hs. apply negb_true_iff in Hs. by apply term_current_spec.
Qed.
Next Obligation.
  intros t Hwf. destruct (term_next_spec t Hwf) as (t' & ? & ? & Hi & ?).
  exists t'. by rewrite Hi.
Qed.
Next Obligation.
  intros target t Hwf. destruct (term_advance_spec target t Hwf) as (t' & ? & ? & Hi & ?).
  exists t'. by rewrite Hi.
Qed.
Next Obligation.
  intros f t Hwf Hf. destruct (term_update_wf f t Hwf Hf) as (? & Hi & ?). cbn. by rewrite Hi.
Qed.

End Term.

(** ** Lists of ids side by side *)

Definition common (ls : list (list bytes)) (x : bytes) : Prop := forall l, l ∈ ls -> x ∈ l.

Definition inter (ls : list (list bytes)) : list bytes :=
  match ls with
  | [] => []
  | l :: _ => filter (fun x => Forall (fun l => x ∈ l) ls) l
  end.

Definition union (ls : list (list bytes)) : list bytes := sort_ids (mjoin ls).

Lemma elem_of_inter ls x : x ∈ inter ls <-> ls <> [] /\ common ls x.
Proof.
  unfold common. destruct ls as [|l ls]; simpl.
  { rewrite elem_of_nil. tauto. }
  rewrite list_elem_of_filter, Forall_forall. split; [by intros [? _]|].
  intros [_ Hx]. split; [done|]. apply Hx. left.
Qed.

Lemma inter_sorted ls : Forall sorted ls -> sorted (inter ls).
Proof. intros [|l ls' Hl Hls]; [apply sorted_nil|]. by apply sorted_filter. Qed.

Lemma inter_ext ls1 ls2 :
  Forall sorted ls1 -> Forall sorted ls2 -> ls1 <> [] -> ls2 <> [] ->
  (forall x, common ls1 x <-> common ls2 x) -> inter ls1 = inter ls2.
Proof.
  intros. apply sorted_ext; [by apply inter_sorted..|]. intros x. rewrite !elem_of_inter. firstorder.
Qed.

Lemma elem_of_union ls x : x ∈ union ls <-> exists l, x ∈ l /\ l ∈ ls.
Proof. unfold union. by rewrite elem_of_sort_ids, list_elem_of_join. Qed.

Lemma union_ext ls1 ls2 :
  (forall x, (exists l, x ∈ l /\ l ∈ ls1) <-> (exists l, x ∈ l /\ l ∈ ls2)) -> union ls1 = union ls2.
Proof.
  intros Hx. apply sorted_ext; [apply sort_ids_sorted..|]. intros x. by rewrite !elem_of_union.
Qed.

(** The ids above one, over all lists: what bounds the rounds of a conjunction. *)
Definition count_above (c : bytes) (ls : list (list bytes)) : nat :=
  sum_list_with (fun l => length (filter (bytes_lt c) l)) ls.

Lemma filter_drop_lt c l : filter (bytes_lt c) (drop_lt c l) = filter (bytes_lt c) l.
Proof.
  induction l as [|x l IH]; [done|]. simpl. destruct (bytes_ltb x c) eqn:E; [|done].
  apply bytes_ltb_spec in E. rewrite IH, filter_cons_False; [done|]. by apply bytes_lt_asym.
Qed.

Lemma count_above_advance c ls i l :
  ls !! i = Some l -> count_above c (<[i := drop_lt c l]> ls) = count_above c ls.
Proof.
  intros Hl. pose proof (sum_list_insert (fun l => length (filter (bytes_lt c) l)) ls i l
    (drop_lt c l) Hl) as E. simpl in E. rewrite filter_drop_lt in E. unfold count_above. lia.
Qed.

Lemma count_above_lt c c' ls i l :
  bytes_lt c c' -> ls !! i = Some l -> c' ∈ l -> (count_above c' ls < count_above c ls)%nat.
Proof.
  intros Hlt. unfold count_above.
  assert (Hle : forall l, (length (filter (bytes_lt c') l) <= length (filter (bytes_lt c) l))%nat).
  { intros l'. induction l' as [|x l' IH]; [done|]. rewrite !filter_cons.
    case_decide as H1; case_decide as H2; simpl; try lia. destruct H2. by transitivity c'. }
  assert (Hstrict : forall l, c' ∈ l ->
    (length (filter (bytes_lt c') l) < length (filter (bytes_lt c) l))%nat).
  { intros l'. induction l' as [|x l' IH]; [by intros ?%elem_of_nil|]. rewrite !filter_cons.
    intros [->|Hx]%elem_of_cons.
    - rewrite decide_False by apply bytes_lt_irrefl. rewrite decide_True by done. simpl.
      specialize (Hle l'). lia.
    - specialize (IH Hx). case_decide as H1; case_decide as H2; simpl; try lia.
      destruct H2. by transitivity c'. }
  revert i; induction ls as [|l0 ls IH]; intros [|i] Hi Hc; simplify_eq/=.
  - specialize (Hstrict l Hc).
    pose proof (sum_list_le (fun l => length (filter (bytes_lt c') l))
      (fun l => length (filter (bytes_lt c) l)) ls (fun l _ => Hle l)). lia.
  - specialize (IH i Hi Hc). specialize (Hle l0). lia.
Qed.

Lemma common_advance c ls i l :
  Forall sorted ls -> ls !! i = Some l -> (forall x, common ls x -> ~ bytes_lt x c) ->
  forall x, common (<[i := drop_lt c l]> ls) x <-> common ls x.
Proof.
  intros Hs Hl Hc x. rewrite Forall_forall in Hs.
  assert (Hsl : sorted l) by by apply Hs, list_elem_of_lookup_2 with i.
  unfold common in *. split.
  - intros Hx l' [j Hj]%list_elem_of_lookup_1. destruct (decide (j = i)) as [->|Hne].
    + assert (l' = l) as -> by congruence. specialize (Hx (drop_lt c l)). rewrite elem_of_drop_lt in Hx by done.
      apply Hx. apply list_elem_of_lookup_2 with i. apply list_lookup_insert_eq.
      by eapply lookup_lt_Some.
    + apply Hx. apply list_elem_of_lookup_2 with j. by rewrite list_lookup_insert_ne.
  - intros Hx l' [j Hj]%list_elem_of_lookup_1. destruct (decide (j = i)) as [->|Hne].
    + rewrite list_lookup_insert_eq in Hj by by eapply lookup_lt_Some. simplify_eq.
      apply elem_of_drop_lt; [done|]. split; [by apply Hx, list_elem_of_lookup_2 with i|by apply Hc].
    + rewrite list_lookup_insert_ne in Hj by done. by apply Hx, list_elem_of_lookup_2 with j.
Qed.

Lemma common_head_least ls l c x :
  Forall sorted ls -> l ∈ ls -> head l = Some c -> common ls x -> ~ bytes_lt x c.
Proof.
  rewrite Forall_forall. intros Hs Hl Hh Hx.
  apply head_sorted_spec in Hh as [_ Hmin]; [|by apply Hs]. apply Hmin, Hx, Hl.
Qed.

(** ** Inner nodes and what they point to *)

Section Operator.
Context {E : Type} `{ExecutorLaws E}.
Implicit Type o : OperatorBooleanExecutor E.
Implicit Type e : E.
Implicit Type subs : list E.

Definition ready e : Prop := wf e /\ started e = true.
Definition fresh e : Prop := wf e /\ started e = false.

Lemma ready_id e : ready e -> current_id e = head (ids e).
Proof. intros []. by apply current_id_spec. Qed.

Lemma ready_node e : ready e -> (key <$> current_node e) = head (ids e).
Proof. intros []. by apply current_node_spec. Qed.

Lemma ready_live e n : ready e -> current_node e = Some n -> head (ids e) = Some (key n) /\ live n.
Proof.
  intros Hr Hn. pose proof (ready_node e Hr) as E1. rewrite Hn in E1. split; [done|].
  destruct Hr. by apply (current_node_spec e).
Qed.

Lemma ready_null e : ready e -> current_node e = None <-> ids e = [].
Proof.
  intros Hr. pose proof (ready_node e Hr) as E1.
  destruct (current_node e), (ids e); simpl in *; naive_solver.
Qed.

Lemma ready_sorted subs : Forall ready subs -> Forall sorted (ids <$> subs).
Proof.
  intros Hs. apply Forall_fmap. eapply Forall_impl; [exact Hs|].
  intros e []. by apply ids_sorted.
Qed.

Lemma Forall_lookup_ready subs i e : Forall ready subs -> subs !! i = Some e -> ready e.
Proof. intros Hs Hi. by eapply Forall_lookup_1 in Hs. Qed.


(** Every clause is correct, merging changes weights only, and a node that copies
    keeps pointing to its copy. *)
Definition op_ok o : Prop :=
  (forall from, keeps (fun to => o_merge_func o to from)) /\
  (o_type o = NODE_COPY -> o_curr_node_ptr o = Self) /\
  Forall wf (o_sub_clauses o) /\ (forall e, o_op_executor o = Some e -> wf e).

(** The clause a pointer leads to stands on [m]. *)
Definition stands_on o (ptr : Ptr) (m : bytes) : Prop :=
  exists e, pointee o ptr = Some e /\ ready e /\ head (ids e) = Some m.

Definition node_at o (m : bytes) : Prop :=
  match o_curr_node_ptr o with
  | Self => key (o_curr_node o) = m /\ live (o_curr_node o)
  | ptr => stands_on o ptr m
  end.

Definition id_at o (m : bytes) : Prop :=
  match o_curr_id_ptr o with
  | Self => o_curr_id o = m
  | ptr => stands_on o ptr m
  end.

Lemma node_at_deref o m :
  node_at o m -> (key <$> deref_node o) = Some m /\ forall n, deref_node o = Some n -> live n.
Proof.
  unfold node_at, deref_node, stands_on. destruct (o_curr_node_ptr o).
  - intros [<- Hl]. split; [done|]. by intros n [= <-].
  - intros (e & -> & Hr & Hh). cbn [mbind option_bind]. rewrite ready_node by done.
    split; [done|]. intros n Hn. by apply (ready_live e n) in Hn as [].
  - intros (e & -> & Hr & Hh). cbn [mbind option_bind]. rewrite ready_node by done.
    split; [done|]. intros n Hn. by apply (ready_live e n) in Hn as [].
Qed.

Lemma id_at_deref o m : id_at o m -> deref_id o = Some m.
Proof.
  unfold id_at, deref_id, stands_on. destruct (o_curr_id_ptr o).
  - by intros <-.
  - intros (e & -> & Hr & Hh). cbn [mbind option_bind]. by rewrite ready_id.
  - intros (e & -> & Hr & Hh). cbn [mbind option_bind]. by rewrite ready_id.
Qed.

(** Two states that differ in weights only. *)
Record op_sim o o' : Prop := {
  sim_type : o_type o' = o_type o;
  sim_init : o_init_flag o' = o_init_flag o;
  sim_null : o_is_null_flag o' = o_is_null_flag o;
  sim_node_ptr : o_curr_node_ptr o' = o_curr_node_ptr o;
  sim_id_ptr : o_curr_id_ptr o' = o_curr_id_ptr o;
  sim_merge : o_merge_func o' = o_merge_func o;
  sim_ids : ids <$> o_sub_clauses o' = ids <$> o_sub_clauses o;
  sim_started : started <$> o_sub_clauses o' = started <$> o_sub_clauses o;
  sim_must_ids : ids <$> o_op_executor o' = ids <$> o_op_executor o;
  sim_must_started : started <$> o_op_executor o' = started <$> o_op_executor o
}.

Lemma op_sim_refl o : op_sim o o.
Proof. by split. Qed.

Lemma op_sim_trans o1 o2 o3 : op_sim o1 o2 -> op_sim o2 o3 -> op_sim o1 o3.
Proof. intros [] []. split; congruence. Qed.

Lemma alter_update f i subs :
  keeps f -> Forall wf subs ->
  Forall wf (alter (update_node f) i subs) /\
  ids <$> alter (update_node f) i subs = ids <$> subs /\
  started <$> alter (update_node f) i subs = started <$> subs.
Proof.
  intros Hf Hs. revert i; induction Hs as [|e subs He Hs IH]; intros [|i]; [done|done| |].
  - change (alter (update_node f) 0%nat (e :: subs)) with (update_node f e :: subs).
    destruct (update_spec f e He Hf) as (Hw & E1 & E2). rewrite !fmap_cons, E1, E2.
    split; [by constructor|done].
  - change (alter (update_node f) (S i) (e :: subs)) with (e :: alter (update_node f) i subs).
    destruct (IH i) as (Hw & E1 & E2). rewrite !fmap_cons, E1, E2.
    split; [by constructor|done].
Qed.

Lemma alter_update_lookup f i j subs e :
  keeps f -> subs !! j = Some e -> ready e ->
  exists e', alter (update_node f) i subs !! j = Some e' /\ ready e' /\ ids e' = ids e.
Proof.
  intros Hf Hj [Hw Hst]. rewrite list_lookup_alter. case_decide as Hij.
  - subst i. rewrite Hj. simpl. destruct (update_spec f e Hw Hf) as (Hw' & E1 & E2). eexists. split; [done|].
    split; [split; [done|congruence]|done].
  - exists e. done.
Qed.

Lemma op_update_sim f o : op_ok o -> keeps f -> op_ok (op_update f o) /\ op_sim o (op_update f o).
Proof.
  intros (Hm & Hc & Hw & Hmust) Hf. unfold op_update. destruct (o_curr_node_ptr o) as [|i|] eqn:Ep.
  - split; [|by split]. split; [done|]. split; [done|]. by split.
  - destruct (alter_update f i _ Hf Hw) as (Hw' & E1 & E2).
    split; [split; [done|split; [|by split]]|by split]. intros Ht. discriminate (Hc Ht).
  - split.
    + split; [done|]. split; [intros Ht; discriminate (Hc Ht)|]. split; [done|]. intros e He. simpl in He.
      destruct (o_op_executor o) as [e0|] eqn:Eo; [|done]. simplify_eq/=.
      by apply update_spec; [apply Hmust|].
    + split; try done; simpl; destruct (o_op_executor o) as [e0|] eqn:Eo; try done; simpl.
      all: destruct (update_spec f e0 (Hmust e0 eq_refl) Hf) as (_ & E1 & E2); congruence.
Qed.

Lemma stands_on_update f o ptr m :
  keeps f -> stands_on o ptr m -> stands_on (op_update f o) ptr m.
Proof.
  intros Hf (e & He & Hr & Hh). unfold stands_on, op_update.
  destruct (o_curr_node_ptr o) as [|i|]; [by exists e| |].
  - destruct ptr as [|j|]; [done| |by exists e].
    destruct (alter_update_lookup f i j _ e Hf He Hr) as (e' & He' & Hr' & E').
    exists e'. by rewrite E'.
  - destruct ptr as [|j|]; [done|by exists e|]. simpl in *. rewrite He. simpl.
    destruct Hr as [Hw Hst]. destruct (update_spec f e Hw Hf) as (Hw' & E1 & E2).
    eexists. split; [done|]. rewrite E2. split; [split; [done|congruence]|done].
Qed.

Lemma node_at_update f o m : keeps f -> node_at o m -> node_at (op_update f o) m.
Proof.
  intros Hf. unfold node_at.
  assert (Ep : o_curr_node_ptr (op_update f o) = o_curr_node_ptr o).
  { unfold op_update. by destruct (o_curr_node_ptr o) eqn:E0; simpl; rewrite ?E0. }
  rewrite Ep. destruct (o_curr_node_ptr o) as [|i|] eqn:E0; [|by apply stands_on_update..].
  unfold op_update. rewrite E0. simpl. unfold live.
  by destruct (Hf (o_curr_node o)) as [-> ->].
Qed.

Lemma id_at_update f o m : keeps f -> id_at o m -> id_at (op_update f o) m.
Proof.
  intros Hf. unfold id_at.
  assert (Ep : o_curr_id_ptr (op_update f o) = o_curr_id_ptr o /\
    o_curr_id (op_update f o) = o_curr_id o).
  { unfold op_update. by destruct (o_curr_node_ptr o). }
  destruct Ep as [-> ->]. destruct (o_curr_id_ptr o); [done|by apply stands_on_update..].
Qed.

Lemma merge_into_spec o n m :
  op_ok o -> node_at o m -> id_at o m ->
  let o' := merge_into o n in op_ok o' /\ op_sim o o' /\ node_at o' m /\ id_at o' m.
Proof.
  intros Hok Hn Hi. assert (Hf : keeps (fun to => o_merge_func o to n)) by apply Hok.
  destruct (op_update_sim _ o Hok Hf). split; [done|]. split; [done|].
  split; [by apply node_at_update|by apply id_at_update].
Qed.

(** Copying or pointing to the clause behind [ptr]. *)
Lemma take_node_spec o ptr m :
  op_ok o -> stands_on o ptr m -> (o_type o = NODE_COPY -> id_at o m \/ o_curr_id_ptr o = Self) ->
  exists o', take_node o ptr = Some o' /\ op_ok o' /\ node_at o' m /\ id_at o' m /\
    o_sub_clauses o' = o_sub_clauses o /\ o_op_executor o' = o_op_executor o /\
    o_init_flag o' = o_init_flag o /\ o_is_null_flag o' = o_is_null_flag o /\
    o_type o' = o_type o /\ (o_type o = NODE_COPY -> o_curr_id_ptr o' = o_curr_id_ptr o).
Proof.
  intros (Hm & Hc & Hw & Hmust) (e & He & Hr & Hh) Hid. unfold take_node. rewrite He.
  cbn [mbind option_bind]. destruct (o_type o) eqn:Et.
  - pose proof (ready_node e Hr) as En. pose proof (ready_id e Hr) as Ei. rewrite Hh in En, Ei.
    destruct (current_node e) as [n|] eqn:En'; [|done]. rewrite Ei. cbn [mbind option_bind].
    destruct (ready_live e n Hr En') as [Hk Hl]. specialize (Hc eq_refl).
    eexists. split; [done|]. split; [done|]. split; [|split; [|done]].
    + unfold node_at. simpl. rewrite Hc. split; [|done]. congruence.
    + destruct (Hid eq_refl) as [Hi|Hi]; unfold id_at in *; simpl; [|by rewrite Hi].
      by destruct (o_curr_id_ptr o).
  - eexists. split; [done|]. split; [by split|].
    assert (Hs : stands_on o ptr m) by by exists e.
    split; [|split; [|done]]; unfold node_at, id_at; simpl; by destruct ptr.
Qed.

Lemma ready_subs subs :
  Forall ready subs <-> Forall wf subs /\ Forall (eq true) (started <$> subs).
Proof.
  rewrite Forall_fmap, <- Forall_and. apply Forall_proper; [|done].
  intros e. unfold ready. simpl. split; intros []; split; done.
Qed.

Lemma ready_sim o o' : op_ok o' -> op_sim o o' -> Forall ready (o_sub_clauses o) ->
  Forall ready (o_sub_clauses o').
Proof.
  rewrite !ready_subs. intros (_ & _ & Hw & _) Hs [_ Hst]. split; [done|].
  by rewrite (sim_started _ _ Hs).
Qed.

End Operator.
