(* ===== verification/BoolNodes.v ===== *)
(** * Inner nodes of the boolean engine

    Over correct clauses a conjunction is a correct cursor over their intersection, a
    disjunction over their union, and a weighted node over what its mandatory clause yields.
    The clauses of a disjunction stay in a heap by their current id; what [find_next] passes
    over are the clauses on the smallest id, all of which are reached through the two children
    of the root. *)

From S2P Require Import Prelude Ordered Heap ReverseList BoolExecutor BoolExecutorFacts.

(** * Conjunctions of the boolean engine *)

Section And.
Context {E : Type} `{ExecutorLaws E}.
Implicit Type o : OperatorBooleanExecutor E.
Implicit Type e : E.
Implicit Type subs : list E.

(** Steps from [forward_idx] around to [pivot_idx]. *)
Definition distance (n forward_idx pivot_idx : nat) : nat :=
  if (forward_idx <=? pivot_idx)%nat then (pivot_idx - forward_idx)%nat
  else (n - forward_idx + pivot_idx)%nat.

(** The clauses between the pivot and the next one to move. *)
Definition visited (pivot_idx forward_idx i : nat) : Prop :=
  if (pivot_idx <? forward_idx)%nat then (pivot_idx < i < forward_idx)%nat
  else (pivot_idx < i \/ i < forward_idx)%nat.

Definition wrap_next (n i : nat) : nat := if (i =? n - 1)%nat then 0%nat else S i.

Lemma visited_step n p f i :
  (p < n)%nat -> (f < n)%nat -> (i < n)%nat -> f <> p ->
  visited p (wrap_next n f) i -> visited p f i \/ i = f.
Proof.
  unfold visited, wrap_next. destruct (Nat.eqb_spec f (n - 1)), (Nat.ltb_spec p f);
    repeat case_match; try lia.
  all: repeat match goal with
    | H : (_ <? _)%nat = true |- _ => apply Nat.ltb_lt in H
    | H : (_ <? _)%nat = false |- _ => apply Nat.ltb_ge in H
    end; lia.
Qed.

Lemma visited_new n f i : (f < n)%nat -> (i < n)%nat -> ~ visited f (wrap_next n f) i.
Proof.
  unfold visited, wrap_next. destruct (Nat.eqb_spec f (n - 1)); case_match.
  all: repeat match goal with
    | H : (_ <? _)%nat = true |- _ => apply Nat.ltb_lt in H
    | H : (_ <? _)%nat = false |- _ => apply Nat.ltb_ge in H
    end; lia.
Qed.

Lemma distance_step n p f :
  (p < n)%nat -> (f < n)%nat -> f <> p ->
  (distance n (wrap_next n f) p < distance n f p)%nat /\ (distance n (wrap_next n f) f < n)%nat.
Proof.
  unfold distance, wrap_next. intros. destruct (Nat.eqb_spec f (n - 1)).
  all: repeat match goal with
    | |- context [(?a <=? ?b)%nat] => destruct (Nat.leb_spec a b)
    end; lia.
Qed.

Lemma wrap_next_lt n f : (f < n)%nat -> (wrap_next n f < n)%nat.
Proof. unfold wrap_next. destruct (Nat.eqb_spec f (n - 1)); lia. Qed.

Definition loop_result (subs : list E) (r : bool * list E * nat) : Prop :=
  let '(found, subs', pivot') := r in
  Forall ready subs' /\ length subs' = length subs /\
  (forall x, common (ids <$> subs') x <-> common (ids <$> subs) x) /\
  if (found : bool)
  then (pivot' < length subs)%nat /\ exists m, Forall (fun l => head l = Some m) (ids <$> subs')
  else forall x, ~ common (ids <$> subs') x.

Lemma loop_result_trans subs subs1 r :
  length subs1 = length subs -> (forall x, common (ids <$> subs1) x <-> common (ids <$> subs) x) ->
  loop_result subs1 r -> loop_result subs r.
Proof.
  destruct r as [[found subs'] pivot']. intros Hlen Hc (Hr & Hl & Hc' & Hf).
  split; [done|]. split; [congruence|]. split; [|by rewrite <- Hlen].
  intros x. by rewrite Hc', Hc.
Qed.

Lemma and_loop_spec fuel subs forward pivot c l :
  Forall ready subs -> (forward < length subs)%nat ->
  (ids <$> subs) !! pivot = Some l -> head l = Some c ->
  (forall i l, visited pivot forward i -> (ids <$> subs) !! i = Some l -> head l = Some c) ->
  (count_above c (ids <$> subs) * length subs + distance (length subs) forward pivot < fuel)%nat ->
  exists r, and_loop fuel subs forward pivot = Some r /\ loop_result subs r.
Proof.
  revert subs forward pivot c l. induction fuel as [|fuel IH]; [lia|].
  intros subs f p c l Hr Hf Hp Hc Hv Hfuel. cbn [and_loop].
  assert (Hpn : (p < length subs)%nat).
  { apply lookup_lt_Some in Hp. by rewrite length_fmap in Hp. }
  destruct (lookup_lt_is_Some_2 subs f Hf) as [fe Hfe]. rewrite Hfe. cbn [mbind option_bind].
  assert (Hrf : ready fe) by by eapply Forall_lookup_ready.
  rewrite list_lookup_fmap_Some in Hp. destruct Hp as (pe & -> & Hpe).
  assert (Hrp : ready pe) by by eapply Forall_lookup_ready.
  pose proof (ready_sorted subs Hr) as Hs.
  assert (Hleast : forall x, common (ids <$> subs) x -> ~ bytes_lt x c).
  { intros x. apply (common_head_least _ (ids pe)); [done| |done].
    by apply list_elem_of_fmap_2, list_elem_of_lookup_2 with p. }
  destruct (Nat.eqb_spec f p) as [->|Hne]; cbn [negb].
  - (* back at the pivot: every clause stands on its id *)
    assert (fe = pe) as -> by congruence. rewrite ready_id, Hc by done. eexists. split; [done|].
    split; [done|]. split; [done|]. split; [done|]. simpl. split; [done|]. exists c.
    apply Forall_forall. intros l' [i Hi]%list_elem_of_lookup_1.
    destruct (decide (i = p)) as [->|Hip].
    + rewrite list_lookup_fmap, Hfe in Hi. by simplify_eq/=.
    + apply (Hv i); [|done]. unfold visited. rewrite (proj2 (Nat.ltb_ge p p)) by lia. lia.
  - rewrite Hpe. cbn [mbind option_bind]. rewrite (ready_id pe), Hc by done. cbn [mbind option_bind].
    destruct (advance_spec c fe) as (fe' & -> & Hwf' & Hst' & Hids'); [by destruct Hrf|].
    cbn [mbind option_bind]. assert (Hrf' : ready fe') by by split.
    set (subs' := <[f := fe']> subs).
    assert (Hlen' : length subs' = length subs) by apply length_insert.
    assert (Hr' : Forall ready subs') by by apply Forall_insert.
    assert (Hfl : (ids <$> subs) !! f = Some (ids fe)) by by rewrite list_lookup_fmap, Hfe.
    assert (Hls' : ids <$> subs' = <[f := drop_lt c (ids fe)]> (ids <$> subs)).
    { unfold subs'. by rewrite list_fmap_insert, Hids'. }
    assert (Hcom : forall x, common (ids <$> subs') x <-> common (ids <$> subs) x).
    { rewrite Hls'. by apply common_advance. }
    pose proof (ready_node fe' Hrf') as Enode. pose proof (ready_id fe' Hrf') as Eid.
    destruct (current_node fe') as [n|] eqn:En.
    + rewrite Eid, <- Enode. cbn [fmap option_fmap option_map mbind option_bind]. fold (wrap_next (length subs') f).
      assert (Hge : ~ bytes_lt (key n) c).
      { assert (Hin : key n ∈ ids fe').
        { destruct (ids fe'); [done|]. simplify_eq/=. left. }
        rewrite Hids' in Hin. by apply elem_of_drop_lt in Hin as [_ ?]; [|by apply ids_sorted, Hrf]. }
      pose proof (distance_step (length subs) p f Hpn Hf Hne) as [Hd1 Hd2].
      destruct (bool_decide (key n = c)) eqn:Ec.
      * (* the clause agrees: the pivot stays *)
        apply bool_decide_eq_true in Ec.
        destruct (IH subs' (wrap_next (length subs') f) p c (ids pe)) as (r & Er & Hres).
        -- done.
        -- rewrite Hlen'. by apply wrap_next_lt.
        -- rewrite Hls', list_lookup_insert_ne by done. by rewrite list_lookup_fmap, Hpe.
        -- done.
        -- intros i l' Hvi Hi. rewrite Hlen' in Hvi.
           assert (Hin : (i < length subs)%nat).
           { apply lookup_lt_Some in Hi. by rewrite length_fmap, Hlen' in Hi. }
           destruct (visited_step (length subs) p f i Hpn Hf Hin Hne Hvi) as [Hvi'| ->].
           ++ destruct (decide (i = f)) as [->|Hif].
              ** rewrite list_lookup_fmap in Hi. unfold subs' in Hi.
                 rewrite list_lookup_insert_eq in Hi by done. simplify_eq/=. by rewrite <- Enode.
              ** apply (Hv i); [done|]. by rewrite Hls', list_lookup_insert_ne in Hi.
           ++ rewrite list_lookup_fmap in Hi. unfold subs' in Hi.
              rewrite list_lookup_insert_eq in Hi by done. simplify_eq/=. by rewrite <- Enode.
        -- rewrite Hls', count_above_advance, Hlen' by done. lia.
        -- exists r. split; [exact Er|]. by apply (loop_result_trans _ subs').
      * (* it is ahead: it becomes the pivot *)
        apply bool_decide_eq_false in Ec.
        assert (Hlt : bytes_lt c (key n)).
        { destruct (bytes_lt_total c (key n)) as [?|[?|?]]; [done|congruence|done]. }
        destruct (IH subs' (wrap_next (length subs') f) f (key n) (ids fe')) as (r & Er & Hres).
        -- done.
        -- rewrite Hlen'. by apply wrap_next_lt.
        -- rewrite list_lookup_fmap. unfold subs'. by rewrite list_lookup_insert_eq.
        -- by rewrite <- Enode.
        -- intros i l' Hvi Hi. rewrite Hlen' in Hvi. exfalso. apply (visited_new (length subs) f i Hf); [|done].
           apply lookup_lt_Some in Hi. by rewrite length_fmap, Hlen' in Hi.
        -- assert (Hcnt : (count_above (key n) (ids <$> subs') < count_above c (ids <$> subs))%nat).
           { rewrite <- (count_above_advance c (ids <$> subs) f (ids fe)), <- Hls' by done.
             apply (count_above_lt _ _ _ f (ids fe')); [done| |].
             - rewrite list_lookup_fmap. unfold subs'. by rewrite list_lookup_insert_eq.
             - destruct (ids fe'); [done|]. simplify_eq/=. left. }
           rewrite Hlen'. nia.
        -- exists r. split; [exact Er|]. by apply (loop_result_trans _ subs').
    + (* the clause is exhausted *)
      simpl in Enode. rewrite Eid, <- Enode. eexists. split; [done|].
      split; [done|]. split; [done|]. split; [done|]. simpl. intros x Hx.
      apply (not_elem_of_nil x). apply symmetry, head_None_nil in Enode. rewrite <- Enode. apply Hx.
      apply list_elem_of_fmap_2, list_elem_of_lookup_2 with f. by apply list_lookup_insert_eq.
Qed.

Definition and_wf o : Prop :=
  op_ok o /\
  if o_is_null_flag o then True
  else if o_init_flag o then Forall (eq false) (started <$> o_sub_clauses o)
  else
    o_sub_clauses o <> [] /\ Forall (eq true) (started <$> o_sub_clauses o) /\
    exists m, Forall (fun l => head l = Some m) (ids <$> o_sub_clauses o) /\
      node_at o m /\ id_at o m.

Definition and_started o : bool := negb (o_init_flag o) || o_is_null_flag o.

Definition and_ids o : list bytes :=
  if o_is_null_flag o then [] else inter (ids <$> o_sub_clauses o).

Lemma merge_rest_spec o subs m :
  op_ok o -> node_at o m -> id_at o m -> Forall ready subs ->
  Forall (fun l => head l = Some m) (ids <$> subs) ->
  exists o', merge_rest o subs = Some o' /\ op_ok o' /\ op_sim o o' /\ node_at o' m /\ id_at o' m.
Proof.
  intros Hok Hn Hi Hr Hh. revert o Hok Hn Hi. induction Hr as [|e subs He Hr IH]; intros o Hok Hn Hi.
  { exists o. split; [done|]. split; [done|]. split; [apply op_sim_refl|done]. }
  rewrite fmap_cons in Hh. apply Forall_cons in Hh as [Hm Hh]. cbn [merge_rest].
  pose proof (ready_node e He) as En. rewrite Hm in En.
  destruct (current_node e) as [n|]; [|done]. cbn [mbind option_bind].
  destruct (merge_into_spec o n m Hok Hn Hi) as (Hok1 & Hs1 & Hn1 & Hi1).
  destruct (IH Hh _ Hok1 Hn1 Hi1) as (o' & -> & Hok' & Hs' & ?).
  exists o'. split; [done|]. split; [done|]. split; [by eapply op_sim_trans|done].
Qed.

Lemma and_null o : op_ok o -> and_wf (set_null o) /\ and_started (set_null o) = true /\
  and_ids (set_null o) = [].
Proof. intros Hok. split; [by split|]. split; [apply orb_true_r|done]. Qed.

Lemma inter_nil ls : (forall x, ~ common ls x) -> inter ls = [].
Proof.
  intros Hn. destruct (inter ls) as [|x l] eqn:Ei; [done|].
  assert (Hx : x ∈ inter ls) by (rewrite Ei; left). apply elem_of_inter in Hx as [_ Hx].
  by apply Hn in Hx.
Qed.

Lemma count_above_size c subs :
  Forall wf subs -> (count_above c (ids <$> subs) <= sum_list_with size subs)%nat.
Proof.
  unfold count_above. induction 1 as [|e subs He Hs IH]; [done|]. rewrite fmap_cons. simpl.
  pose proof (ids_size e He). pose proof (length_filter (bytes_lt c) (ids e)). lia.
Qed.

Lemma ready_wf subs : Forall ready subs -> Forall wf subs.
Proof. intros Hr. eapply Forall_impl; [exact Hr|]. by intros e []. Qed.

(** The loop, started at the last clause, finds the first common id. *)
Lemma and_loop_start subs pe :
  Forall ready subs -> subs !! (length subs - 1)%nat = Some pe -> ids pe <> [] ->
  exists r, and_loop (and_fuel subs) subs 0 (length subs - 1) = Some r /\ loop_result subs r.
Proof.
  intros Hr Hp Hne. pose proof (lookup_lt_Some _ _ _ Hp) as Hlen.
  destruct (ids pe) as [|c l] eqn:Ec; [done|].
  apply (and_loop_spec _ _ _ _ c (c :: l)); [done|lia| |done| |].
  - by rewrite list_lookup_fmap, Hp, <- Ec.
  - intros i l' Hv Hi. exfalso. apply lookup_lt_Some in Hi. rewrite length_fmap in Hi.
    unfold visited in Hv. destruct (Nat.ltb_spec (length subs - 1) 0); lia.
  - unfold and_fuel. pose proof (count_above_size c subs (ready_wf _ Hr)).
    unfold distance. destruct (Nat.leb_spec 0 (length subs - 1)); [|lia]. nia.
Qed.

Lemma and_find_next_spec o :
  op_ok o -> Forall ready (o_sub_clauses o) -> o_sub_clauses o <> [] ->
  o_init_flag o = false -> o_is_null_flag o = false ->
  exists o', and_find_next o = Some o' /\ and_wf o' /\ and_started o' = true /\
    and_ids o' = inter (ids <$> o_sub_clauses o).
Proof.
  intros Hok Hr Hne Hi Hnull. unfold and_find_next.
  set (subs := o_sub_clauses o) in *.
  assert (Hlen : (0 < length subs)%nat) by (destruct subs; [done|simpl; lia]).
  destruct (lookup_lt_is_Some_2 subs (length subs - 1)) as [pe Hpe]; [lia|]. rewrite Hpe.
  cbn [mbind option_bind]. assert (Hrp : ready pe) by by eapply Forall_lookup_ready.
  destruct (current_node pe) as [n|] eqn:En.
  - destruct (and_loop_start subs pe) as ([[found subs'] pivot'] & -> & Hr' & Hl' & Hc & Hf);
      [done|done| |].
    { intros E0. apply (ready_null pe Hrp) in E0. congruence. }
    cbn [mbind option_bind].
    assert (Hei : inter (ids <$> subs') = inter (ids <$> subs)).
    { apply inter_ext; [by apply ready_sorted..| | |done].
      - intros E0%fmap_nil_inv. by rewrite E0 in Hl'; simpl in Hl'; lia.
      - by intros E0%fmap_nil_inv. }
    destruct Hok as (Hm & Hcp & Hw & Hmust).
    set (o1 := set_id_ptr (set_subs o subs') (Sub pivot')).
    assert (Hok1 : op_ok o1) by (split; [done|]; split; [done|]; split; [by apply ready_wf|done]).
    destruct found; simpl in Hf |- *.
    + destruct Hf as [Hpl (m & Hheads)].
      assert (Hst : forall i, (i < length subs)%nat -> stands_on o1 (Sub i) m).
      { intros i Hil. destruct (lookup_lt_is_Some_2 subs' i) as [e He]; [lia|].
        exists e. split; [done|]. split; [by eapply Forall_lookup_ready|].
        rewrite Forall_fmap in Hheads. by eapply Forall_lookup_1 in Hheads. }
      destruct (take_node_spec o1 (Sub 0) m Hok1) as (o2 & -> & Hok2 & Hn2 & Hi2 & Es & _ & Ei & En2 & _);
        [by apply Hst|intros _; left; by apply Hst|]. cbn [mbind option_bind].
      rewrite Es. change (o_sub_clauses o1) with subs'.
      destruct (merge_rest_spec o2 (tail subs') m) as (o3 & -> & Hok3 & Hs3 & Hn3 & Hi3); [done..| | |].
      { destruct Hr'; [constructor|done]. }
      { destruct subs' as [|e0 subs0]; [done|]. by apply Forall_cons in Hheads as []. }
      exists o3. split; [done|]. change (o_sub_clauses o1) with subs' in Es.
      unfold and_wf, and_started, and_ids.
      rewrite (sim_null _ _ Hs3), (sim_init _ _ Hs3), (sim_ids _ _ Hs3), (sim_started _ _ Hs3), En2, Ei, Es.
      simpl. rewrite Hnull, Hi. split; [split; [done|]|done].
      split; [|split; [by apply ready_subs in Hr' as []|by exists m]].
      intros E0. pose proof (sim_ids _ _ Hs3) as E1. rewrite E0, Es in E1.
      apply symmetry, fmap_nil_inv in E1. rewrite E1 in Hl'. simpl in Hl'. lia.
    + eexists. split; [done|]. destruct (and_null o1 Hok1) as (? & ? & E0). rewrite E0, <- Hei.
      split; [done|]. split; [done|]. symmetry. by apply inter_nil.
  - eexists. split; [done|]. destruct (and_null o Hok) as (? & ? & E0). rewrite E0.
    split; [done|]. split; [done|]. symmetry. apply inter_nil. intros x Hx.
    apply (ready_null pe Hrp) in En. apply (not_elem_of_nil x). rewrite <- En. apply Hx.
    apply list_elem_of_fmap_2. by eapply list_elem_of_lookup_2.
Qed.

(** *** Moving *)

(** A movement of a clause: [next] or [advance], and its effect on the ids. *)
Definition moves (move : E -> option E) (g : E -> list bytes) : Prop :=
  forall e, wf e -> exists e', move e = Some e' /\ ready e' /\ ids e' = g e.

Lemma next_moves : moves next (fun e => if started e then tail (ids e) else ids e).
Proof. intros e He. destruct (next_spec e He) as (e' & ? & ? & ? & ?). by exists e'. Qed.

Lemma advance_moves t : moves (advance t) (fun e => drop_lt t (ids e)).
Proof. intros e He. destruct (advance_spec t e He) as (e' & ? & ? & ? & ?). by exists e'. Qed.

Lemma move_until_null_spec move g subs :
  moves move g -> Forall wf subs ->
  exists ok subs', move_until_null move subs = Some (ok, subs') /\ Forall wf subs' /\
    length subs' = length subs /\
    if (ok : bool) then Forall ready subs' /\ ids <$> subs' = g <$> subs
    else exists e, e ∈ subs /\ g e = [].
Proof.
  intros Hm. induction 1 as [|e subs He Hs IH]; simpl.
  { exists true, []. by repeat split. }
  destruct (Hm e He) as (e' & -> & Hr' & Hi'). cbn [mbind option_bind].
  destruct (current_node e') as [n|] eqn:En.
  - destruct IH as (ok & subs' & -> & Hw & Hl & Hok). cbn [mbind option_bind].
    exists ok, (e' :: subs'). split; [done|]. split; [constructor; [apply Hr'|done]|].
    split; [simpl; congruence|]. destruct ok.
    + destruct Hok as [Hr Ei]. split; [by constructor|]. by rewrite !fmap_cons, Hi', Ei.
    + destruct Hok as (e0 & Hin & E0). exists e0. split; [by right|done].
  - exists false, (e' :: subs). split; [done|]. split; [constructor; [apply Hr'|done]|].
    split; [done|]. exists e. split; [by left|].
    rewrite <- Hi'. by apply (ready_null e' Hr').
Qed.

Lemma and_first_spec o move g :
  moves move g -> op_ok o -> o_is_null_flag o = false -> o_sub_clauses o <> [] ->
  exists o', and_first o move = Some o' /\ and_wf o' /\ and_started o' = true /\
    and_ids o' = inter (g <$> o_sub_clauses o).
Proof.
  intros Hmove (Hm & Hc & Hw & Hmust) Hnull Hne. unfold and_first.
  destruct (move_until_null_spec move g _ Hmove Hw) as (ok & subs' & -> & Hw' & Hl & Hok).
  cbn [mbind option_bind]. set (o1 := set_init (set_subs o subs') false).
  assert (Hok1 : op_ok o1) by by split; [|split; [|split]].
  destruct ok; cbn [negb].
  - destruct Hok as [Hr Ei]. rewrite <- Ei. apply (and_find_next_spec o1); try done.
    intros E0. change (subs' = []) in E0. rewrite E0 in Hl. by apply symmetry, nil_length_inv in Hl.
  - eexists. split; [done|]. destruct (and_null o1 Hok1) as (? & ? & ->).
    split; [done|]. split; [done|]. symmetry. apply inter_nil. intros x Hx.
    destruct Hok as (e & He & E0). apply (not_elem_of_nil x). rewrite <- E0. apply Hx.
    by apply list_elem_of_fmap_2.
Qed.

Lemma and_later_spec o move g :
  moves move g -> op_ok o -> o_is_null_flag o = false -> o_init_flag o = false ->
  Forall ready (o_sub_clauses o) -> o_sub_clauses o <> [] ->
  exists o' e, and_later o move = Some o' /\ and_wf o' /\ and_started o' = true /\
    o_sub_clauses o !! (length (o_sub_clauses o) - 1)%nat = Some e /\
    and_ids o' = inter (<[(length (o_sub_clauses o) - 1)%nat := g e]> (ids <$> o_sub_clauses o)).
Proof.
  intros Hmove (Hm & Hc & Hw & Hmust) Hnull Hi Hr Hne. unfold and_later.
  set (subs := o_sub_clauses o) in *. set (n := (length subs - 1)%nat).
  assert (Hlen : (n < length subs)%nat) by (destruct subs; [done|simpl in *; lia]).
  destruct (lookup_lt_is_Some_2 subs n Hlen) as [e He]. rewrite He. cbn [mbind option_bind].
  destruct (Hmove e) as (e' & -> & Hr' & Hi'). { by eapply Forall_lookup_1 in Hw. }
  cbn [mbind option_bind]. set (o1 := set_subs o (<[n := e']> subs)).
  assert (Hr1 : Forall ready (<[n := e']> subs)) by by apply Forall_insert.
  assert (Hok1 : op_ok o1) by (split; [done|]; split; [done|]; split; [by apply ready_wf|done]).
  destruct (and_find_next_spec o1) as (o' & -> & Hwf & Hst & Hids); [done..| |done|done|].
  { intros E0. apply (f_equal length) in E0. simpl in E0. rewrite length_insert in E0. lia. }
  exists o', e. split; [done|]. split; [done|]. split; [done|]. split; [done|].
  rewrite Hids. simpl. by rewrite list_fmap_insert, Hi'.
Qed.

(** *** The laws *)

Lemma and_ids_sorted o : op_ok o -> sorted (and_ids o).
Proof.
  intros (_ & _ & Hw & _). unfold and_ids. case_match; [apply sorted_nil|].
  apply inter_sorted, Forall_fmap. eapply Forall_impl; [exact Hw|]. apply ids_sorted.
Qed.

Lemma and_head o m :
  op_ok o -> o_is_null_flag o = false -> o_sub_clauses o <> [] ->
  Forall (fun l => head l = Some m) (ids <$> o_sub_clauses o) -> head (and_ids o) = Some m.
Proof.
  intros Hok Hn Hne Hh. pose proof (and_ids_sorted o Hok) as Hs. unfold and_ids in *.
  rewrite Hn in *. apply head_sorted_spec; [done|]. rewrite Forall_forall in Hh.
  assert (Hls : ids <$> o_sub_clauses o <> []) by by intros ?%fmap_nil_inv.
  split.
  - apply elem_of_inter. split; [done|]. intros l Hl. specialize (Hh l Hl).
    destruct l; [done|]. simplify_eq/=. left.
  - intros y [_ Hy]%elem_of_inter. destruct (ids <$> o_sub_clauses o) as [|l ls] eqn:El; [done|].
    assert (Hsl : sorted l).
    { destruct Hok as (_ & _ & Hw & _). destruct (o_sub_clauses o); [done|].
      rewrite fmap_cons in El. injection El as <- _. apply ids_sorted. by apply Forall_cons in Hw as []. }
    apply (head_sorted_spec l m Hsl); [apply Hh; left|]. apply Hy. left.
Qed.

Lemma common_insert ls i l l' x :
  ls !! i = Some l -> (x ∈ l' -> x ∈ l) ->
  common (<[i := l']> ls) x <-> common ls x /\ x ∈ l'.
Proof.
  intros Hl Hsub. pose proof (lookup_lt_Some _ _ _ Hl) as Hi. unfold common. split.
  - intros Hx. assert (Hx' : x ∈ l').
    { apply Hx, list_elem_of_lookup_2 with i. by apply list_lookup_insert_eq. }
    split; [|done]. intros k [j Hj]%list_elem_of_lookup_1.
    destruct (decide (j = i)) as [->|Hne].
    + assert (k = l) as -> by congruence. by apply Hsub.
    + apply Hx, list_elem_of_lookup_2 with j. by rewrite list_lookup_insert_ne.
  - intros [Hx Hx'] k [j Hj]%list_elem_of_lookup_1. destruct (decide (j = i)) as [->|Hne].
    + rewrite list_lookup_insert_eq in Hj by done. by simplify_eq.
    + rewrite list_lookup_insert_ne in Hj by done. by apply Hx, list_elem_of_lookup_2 with j.
Qed.

Lemma insert_not_nil {A} (l : list A) i x : l <> [] -> <[i := x]> l <> [].
Proof. intros Hne E0. apply (f_equal length) in E0. rewrite length_insert in E0. by destruct l. Qed.

Lemma inter_tail ls i l m :
  Forall sorted ls -> Forall (fun l => head l = Some m) ls -> ls !! i = Some l ->
  inter (<[i := tail l]> ls) = tail (inter ls).
Proof.
  intros Hs Hh Hl. assert (Hne : ls <> []) by by intros ->.
  assert (Hsl : sorted l) by by eapply Forall_lookup_1 in Hs.
  assert (Hhl : head l = Some m) by by eapply Forall_lookup_1 in Hh.
  destruct l as [|y l]; [done|]. injection Hhl as ->. simpl.
  pose proof (inter_sorted ls Hs) as His.
  assert (Hhead : head (inter ls) = Some m).
  { apply head_sorted_spec; [done|]. split.
    - apply elem_of_inter. split; [done|]. intros k Hk. rewrite Forall_forall in Hh.
      specialize (Hh k Hk). destruct k; [done|]. simplify_eq/=. left.
    - intros z [_ Hz]%elem_of_inter. apply (sorted_head_least m l); [done|].
      apply Hz. by eapply list_elem_of_lookup_2. }
  destruct (inter ls) as [|z r] eqn:Er; [done|]. injection Hhead as ->. simpl.
  apply sorted_ext.
  - apply inter_sorted, Forall_insert; [done|]. by apply sorted_cons in Hsl as [].
  - by apply sorted_cons in His as [].
  - intros x. rewrite (elem_of_tail_sorted m r x His), <- Er, !elem_of_inter.
    rewrite (common_insert ls i (m :: l) l) by (done || intros; by right).
    rewrite (elem_of_tail_sorted m l x Hsl).
    assert (Hx : common ls x -> x ∈ m :: l) by (intros Hx; apply Hx; by eapply list_elem_of_lookup_2).
    pose proof (insert_not_nil ls i l Hne). tauto.
Qed.

Lemma inter_drop_at ls i l t :
  Forall sorted ls -> ls !! i = Some l ->
  inter (<[i := drop_lt t l]> ls) = drop_lt t (inter ls).
Proof.
  intros Hs Hl. assert (Hne : ls <> []) by by intros ->.
  assert (Hsl : sorted l) by by eapply Forall_lookup_1 in Hs.
  pose proof (inter_sorted ls Hs) as His. apply sorted_ext.
  - apply inter_sorted, Forall_insert; [done|]. by apply sorted_drop_lt.
  - by apply sorted_drop_lt.
  - intros x. rewrite elem_of_drop_lt, !elem_of_inter by done.
    pose proof (elem_of_drop_lt t l x Hsl) as Hd.
    rewrite (common_insert ls i l) by (done || tauto). rewrite Hd.
    assert (Hx : common ls x -> x ∈ l) by (intros Hx; apply Hx; by eapply list_elem_of_lookup_2).
    pose proof (insert_not_nil ls i (drop_lt t l) Hne). tauto.
Qed.

Lemma inter_drop ls t : Forall sorted ls -> inter (drop_lt t <$> ls) = drop_lt t (inter ls).
Proof.
  intros Hs. pose proof (inter_sorted ls Hs) as His. apply sorted_ext.
  - apply inter_sorted, Forall_fmap. eapply Forall_impl; [exact Hs|]. intros l. apply sorted_drop_lt.
  - by apply sorted_drop_lt.
  - intros x. rewrite elem_of_drop_lt, !elem_of_inter by done. unfold common.
    rewrite Forall_forall in Hs. split.
    + intros [Hne Hx]. assert (Hne' : ls <> []) by (intros ->; done). split; [split; [done|]|].
      * intros l Hl. specialize (Hx (drop_lt t l)). rewrite elem_of_drop_lt in Hx by by apply Hs.
        by apply Hx, list_elem_of_fmap_2.
      * destruct ls as [|l ls]; [done|]. specialize (Hx (drop_lt t l)).
        rewrite elem_of_drop_lt in Hx by (apply Hs; left). apply Hx. left.
    + intros [[Hne Hx] Hlt]. split; [by intros ?%fmap_nil_inv|].
      intros l' (l & -> & Hl)%list_elem_of_fmap. apply elem_of_drop_lt; [by apply Hs|]. auto.
Qed.

Lemma op_done_cases o : op_done o = true <-> o_sub_clauses o = [] \/ o_is_null_flag o = true.
Proof.
  unfold op_done. rewrite orb_true_iff, Nat.eqb_eq.
  split; (intros [E0|E0]; [left|by right]); [by apply nil_length_inv|by rewrite E0].
Qed.

Lemma and_done_ids o : op_done o = true -> and_ids o = [].
Proof.
  intros [E0|E0]%op_done_cases; unfold and_ids; rewrite E0; [|done]. by case_match.
Qed.

Lemma not_done o : op_done o = false -> o_sub_clauses o <> [] /\ o_is_null_flag o = false.
Proof.
  intros Hd. split; [|destruct (o_is_null_flag o) eqn:Hn; [|done]];
    [intros E0|]; (rewrite (proj2 (op_done_cases o)) in Hd; [done|tauto]).
Qed.

Lemma and_next_spec o :
  and_wf o ->
  exists o', and_next o = Some o' /\ and_wf o' /\ and_started o' = true /\
    and_ids o' = if and_started o then tail (and_ids o) else and_ids o.
Proof.
  intros [Hok Hwf]. unfold and_next. destruct (op_done o) eqn:Hd.
  { destruct (and_null o Hok) as (? & ? & E0). eexists. split; [done|]. rewrite E0.
    rewrite (and_done_ids o) by done. split; [done|]. split; [done|]. by destruct (and_started o). }
  apply not_done in Hd as [Hne Hnull]. rewrite Hnull in Hwf. unfold and_started at 2.
  rewrite Hnull, orb_false_r. destruct (o_init_flag o) eqn:Hi.
  - destruct (and_first_spec o _ _ next_moves Hok Hnull Hne) as (o' & -> & ? & ? & Hids).
    exists o'. split; [done|]. split; [done|]. split; [done|]. rewrite Hids. simpl. unfold and_ids.
    rewrite Hnull. f_equal. apply list_fmap_ext. intros i e He. rewrite Forall_fmap in Hwf.
    by rewrite <- (Forall_lookup_1 _ _ _ _ Hwf He).
  - destruct Hwf as (_ & Hst & m & Hh & _ & _).
    assert (Hr : Forall ready (o_sub_clauses o)) by (apply ready_subs; split; [apply Hok|done]).
    destruct (and_later_spec o _ _ next_moves Hok Hnull Hi Hr Hne) as (o' & e & -> & ? & ? & He & Hids).
    exists o'. split; [done|]. split; [done|]. split; [done|]. rewrite Hids. unfold and_ids.
    rewrite Hnull. assert (Hre : ready e) by by eapply Forall_lookup_ready.
    destruct Hre as [_ ->]. apply (inter_tail _ _ _ m); [by apply ready_sorted|done|].
    by rewrite list_lookup_fmap, He.
Qed.

Lemma and_current_spec o :
  and_wf o -> and_started o = true ->
  op_current_id o = head (and_ids o) /\ (key <$> op_current_node o) = head (and_ids o) /\
  forall n, op_current_node o = Some n -> live n.
Proof.
  intros [Hok Hwf] Hst. unfold op_current_id, op_current_node, and_started in *.
  destruct (o_is_null_flag o) eqn:Hnull; [unfold and_ids; by rewrite Hnull|].
  rewrite orb_false_r in Hst. apply negb_true_iff in Hst. rewrite Hst in Hwf.
  destruct Hwf as (Hne & _ & m & Hh & Hn & Hi).
  rewrite (and_head o m) by done. rewrite (id_at_deref o m) by done.
  by destruct (node_at_deref o m Hn).
Qed.

Lemma and_advance_spec t o :
  and_wf o ->
  exists o', and_advance t o = Some o' /\ and_wf o' /\ and_started o' = true /\
    and_ids o' = drop_lt t (and_ids o).
Proof.
  intros Hand. pose proof Hand as [Hok Hwf]. unfold and_advance. destruct (op_done o) eqn:Hd.
  { destruct (and_null o Hok) as (? & ? & E0). eexists. split; [done|]. rewrite E0.
    by rewrite and_done_ids. }
  apply not_done in Hd as [Hne Hnull]. rewrite Hnull in Hwf.
  assert (Hs : Forall sorted (ids <$> o_sub_clauses o)).
  { apply Forall_fmap. destruct Hok as (_ & _ & Hw & _). eapply Forall_impl; [exact Hw|].
    apply ids_sorted. }
  destruct (o_init_flag o) eqn:Hi.
  - destruct (and_first_spec o _ _ (advance_moves t) Hok Hnull Hne) as (o' & -> & ? & ? & Hids).
    exists o'. split; [done|]. split; [done|]. split; [done|]. rewrite Hids. unfold and_ids.
    rewrite Hnull, <- inter_drop by done. f_equal. by rewrite <- list_fmap_compose.
  - assert (Hst' : and_started o = true) by (unfold and_started; by rewrite Hi).
    destruct (and_current_spec o Hand Hst') as [Ecur _].
    destruct Hwf as (_ & Hst & m & Hh & _ & _). rewrite (and_head o m) in Ecur by done.
    rewrite Ecur. cbn [mbind option_bind]. destruct (bytes_ltb m t) eqn:Hlt.
    + assert (Hr : Forall ready (o_sub_clauses o)) by (apply ready_subs; split; [apply Hok|done]).
      destruct (and_later_spec o _ _ (advance_moves t) Hok Hnull Hi Hr Hne)
        as (o' & e & -> & ? & ? & He & Hids).
      exists o'. split; [done|]. split; [done|]. split; [done|]. rewrite Hids. unfold and_ids.
      rewrite Hnull. apply inter_drop_at; [done|]. by rewrite list_lookup_fmap, He.
    + exists o. split; [done|]. split; [done|]. split; [done|].
      pose proof (and_head o m Hok Hnull Hne Hh) as Ehead.
      destruct (and_ids o) as [|x l]; [done|]. injection Ehead as ->. symmetry.
      apply drop_lt_id. by apply bytes_ltb_false.
Qed.

Lemma and_update_spec f o :
  and_wf o -> keeps f ->
  and_wf (op_update f o) /\ and_started (op_update f o) = and_started o /\
  and_ids (op_update f o) = and_ids o.
Proof.
  intros [Hok Hwf] Hf. destruct (op_update_sim f o Hok Hf) as [Hok' Hs].
  pose proof (sim_ids _ _ Hs) as Eids. unfold and_wf, and_started, and_ids.
  rewrite (sim_null _ _ Hs), (sim_init _ _ Hs), (sim_started _ _ Hs), Eids.
  split; [|done]. split; [done|]. case_match; [done|]. case_match; [done|].
  destruct Hwf as (Hne & Hst & m & Hh & Hn & Hi).
  split; [intros E0; rewrite E0 in Eids; by apply symmetry, fmap_nil_inv in Eids|].
  split; [done|]. exists m. split; [done|]. split; [by apply node_at_update|by apply id_at_update].
Qed.

Lemma and_ids_size o : op_ok o -> (length (and_ids o) <= subs_size o)%nat.
Proof.
  intros (_ & _ & Hw & _). unfold and_ids, subs_size. case_match; [simpl; lia|].
  destruct Hw as [|e subs He Hs]; [done|]. rewrite fmap_cons. simpl.
  pose proof (ids_size e He).
  pose proof (length_filter (fun x => Forall (fun l => x ∈ l) (ids e :: (ids <$> subs))) (ids e)). lia.
Qed.

#[export] Program Instance and_laws : ExecutorLaws (AndBooleanExecutor E) := {
  wf a := and_wf (and_op a);
  started a := and_started (and_op a);
  ids a := and_ids (and_op a)
}.
Next Obligation. intros [o] [Hok _]. by apply and_ids_sorted. Qed.
Next Obligation. intros [o] [Hok _]. by apply and_ids_size. Qed.
Next Obligation. intros [o] Hw Hs. by apply and_current_spec. Qed.
Next Obligation. intros [o] Hw Hs. by apply and_current_spec. Qed.
Next Obligation.
  intros [o] Hw. destruct (and_next_spec o Hw) as (o' & E0 & ?). exists (mk_and o').
  cbn. by rewrite E0.
Qed.
Next Obligation.
  intros t [o] Hw. destruct (and_advance_spec t o Hw) as (o' & E0 & ?). exists (mk_and o').
  cbn. by rewrite E0.
Qed.
Next Obligation. intros f [o] Hw Hf. by apply and_update_spec. Qed.

End And.

(** * Disjunctions of the boolean engine *)

(** ** The heap of the lists *)

(** [CompareAsc] on what is left of two clauses. *)
Definition head_less (a b : list bytes) : bool :=
  match head a, head b with
  | None, _ => false
  | Some _, None => true
  | Some x, Some y => bytes_ltb x y
  end.

#[export] Instance head_less_weak : StrictWeak head_less.
Proof.
  split.
  - intros a b. unfold head_less. destruct (head a), (head b); try done.
    rewrite bytes_ltb_spec, bytes_ltb_false. apply bytes_lt_asym.
  - intros a b c. unfold head_less. destruct (head a), (head b), (head c); try done.
    rewrite !bytes_ltb_false. intros. by eapply bytes_not_lt_trans.
Qed.

Abbreviation heap := (heap_from head_less 0).

(** All ids are at least [m]. *)
Definition from_min (m : bytes) (ls : list (list bytes)) : Prop :=
  forall l x, l ∈ ls -> x ∈ l -> ~ bytes_lt x m.

Lemma head_not_less_least a b x m :
  sorted a -> head b = Some m -> head_less a b = false -> x ∈ a -> ~ bytes_lt x m.
Proof.
  intros Hs Hb Hle Hx. unfold head_less in Hle. rewrite Hb in Hle.
  destruct a as [|y a]; [by apply elem_of_nil in Hx|]. simpl in Hle.
  apply bytes_ltb_false in Hle. eapply bytes_not_lt_trans; [exact Hle|].
  by apply (sorted_head_least y a).
Qed.

Lemma heap_from_min ls m l0 :
  Forall sorted ls -> heap ls -> ls !! 0%nat = Some l0 -> head l0 = Some m -> from_min m ls.
Proof.
  intros Hs Hh H0 Hm l x Hl Hx. rewrite Forall_forall in Hs.
  apply (head_not_less_least l l0); [by apply Hs|done| |done].
  by apply (heap_root head_less ls).
Qed.

Lemma heap_exhausted ls l0 :
  Forall sorted ls -> heap ls -> ls !! 0%nat = Some l0 -> head l0 = None -> union ls = [].
Proof.
  intros Hs Hh H0 Hn. destruct (union ls) as [|x u] eqn:Eu; [done|].
  assert (Hx : x ∈ union ls) by (rewrite Eu; left).
  apply elem_of_union in Hx as (l & Hx & Hl).
  pose proof (heap_root head_less ls l0 l Hh H0 Hl) as Hle. unfold head_less in Hle.
  rewrite Hn in Hle. destruct l as [|y l]; [by apply elem_of_nil in Hx|]. done.
Qed.

(** Replacing the list at the root or at one of its children. *)
Lemma heap_except_root ls l : heap ls -> heap_except head_less 0 0 (<[0%nat := l]> ls).
Proof.
  intros Hh. split.
  - intros i j Hi Hne Hc. unfold ok_at.
    rewrite (less_at_ext _ _ ls _ _ j i); [by apply Hh| |].
    all: apply list_lookup_insert_ne; unfold child in Hc; lia.
  - intros i j _ Hc. unfold child in Hc. lia.
Qed.

Lemma heap_except_child ls i l l0 m :
  (1 <= i <= 2)%nat -> heap ls -> ls !! 0%nat = Some l0 -> head l0 = Some m -> from_min m ls ->
  sorted l -> Forall (bytes_lt m) l ->
  heap_except head_less 0 i (<[i := l]> ls).
Proof.
  intros Hi Hh H0 Hm Hmin Hs Hl.
  assert (Hroot : forall j, j <> i -> less_at head_less (<[i := l]> ls) j 0 = false).
  { intros j Hj. rewrite (less_at_ext _ _ ls _ _ j 0%nat) by (apply list_lookup_insert_ne; lia).
    unfold less_at. rewrite H0. destruct (ls !! j) as [lj|] eqn:Ej; [|done].
    by apply (heap_root head_less ls); [..|eapply list_elem_of_lookup_2]. }
  split.
  - intros p j _ Hpi Hc. unfold ok_at. destruct (decide (j = i)) as [->|Hji].
    + assert (p = 0%nat) as -> by (unfold child in Hc; lia).
      unfold less_at. rewrite (list_lookup_insert_ne ls i 0%nat), H0 by lia.
      destruct (<[i := l]> ls !! i) as [l'|] eqn:El; [|done].
      assert (l' = l) as ->.
      { pose proof (lookup_lt_Some _ _ _ El) as Hlt. rewrite length_insert in Hlt.
        rewrite list_lookup_insert_eq in El by done. congruence. }
      unfold head_less. rewrite Hm. destruct Hl as [|y l Hy Hl]; [done|]. simpl.
      by apply bytes_ltb_false, bytes_lt_asym.
    + rewrite (less_at_ext _ _ ls _ _ j p) by by apply list_lookup_insert_ne. by apply Hh; [lia|].
  - intros p j _ Hcp Hcj. assert (p = 0%nat) as -> by (unfold child in Hcp; lia).
    apply Hroot. unfold child in Hcj. lia.
Qed.

(** The lists on [m], of which the root is one. *)
Definition count_on (m : bytes) (ls : list (list bytes)) : nat :=
  sum_list_with (fun l => if bool_decide (head l = Some m) then 1 else 0)%nat ls.

Lemma count_on_perm m ls ls' : ls ≡ₚ ls' -> count_on m ls = count_on m ls'.
Proof. intros Hp. unfold count_on. induction Hp; simpl; lia. Qed.

Lemma count_on_length m ls : (count_on m ls <= length ls)%nat.
Proof. unfold count_on. induction ls as [|l ls IH]; simpl; [lia|]. case_bool_decide; lia. Qed.

Lemma count_on_advance m ls i l l' :
  ls !! i = Some l -> head l = Some m -> head l' <> Some m ->
  count_on m ls = S (count_on m (<[i := l']> ls)).
Proof.
  intros Hl Hh Hh'. unfold count_on.
  pose proof (sum_list_insert (fun l => if bool_decide (head l = Some m) then 1 else 0)%nat ls i l l' Hl)
    as Es. simpl in Es. rewrite bool_decide_eq_true_2, (bool_decide_eq_false_2 (head l' = _)) in Es by done.
  lia.
Qed.

Lemma count_on_two m ls i j li lj :
  i <> j -> ls !! i = Some li -> ls !! j = Some lj -> head li = Some m -> head lj = Some m ->
  (2 <= count_on m ls)%nat.
Proof.
  intros Hne Hi Hj Hmi Hmj. rewrite (count_on_advance m ls i li []) by done.
  rewrite (count_on_advance m _ j lj []); [lia| |done..]. by rewrite list_lookup_insert_ne.
Qed.

(** After the two children of the root left [m], everything but the root has. *)
Lemma others_above ls m l0 :
  Forall sorted ls -> heap ls -> ls !! 0%nat = Some l0 -> head l0 = Some m ->
  (forall r l, (1 <= r <= 2)%nat -> ls !! r = Some l -> head l <> Some m) ->
  forall j l x, (1 <= j)%nat -> ls !! j = Some l -> x ∈ l -> bytes_lt m x.
Proof.
  intros Hs Hh H0 Hm Hch j l x Hj Hl Hx.
  pose proof (heap_from_min ls m l0 Hs Hh H0 Hm) as Hmin.
  pose proof (lookup_lt_Some _ _ _ Hl) as Hlen.
  destruct (heap_subtree head_less 1 ls j Hh Hlen Hj) as (r & Hr & Hrj & Hle).
  destruct (lookup_lt_is_Some_2 ls r) as [lr Hlr]; [lia|].
  unfold less_at in Hle. rewrite Hl, Hlr in Hle.
  assert (Hsl : sorted l) by by eapply Forall_lookup_1 in Hs.
  destruct (head lr) as [c|] eqn:Ec.
  - assert (Hcm : bytes_lt m c).
    { destruct (bytes_lt_total m c) as [?|[->|Hlt]]; [done| |].
      - by destruct (Hch r lr).
      - destruct (Hmin lr c); [by eapply list_elem_of_lookup_2| |done].
        destruct lr; [done|]. simplify_eq/=. left. }
    pose proof (head_not_less_least l lr x c Hsl Ec Hle Hx) as Hge.
    destruct (bytes_lt_total c x) as [?|[->|?]]; [by transitivity c|done|done].
  - unfold head_less in Hle. rewrite Ec in Hle. destruct l; [by apply elem_of_nil in Hx|done].
Qed.

Lemma union_perm ls ls' : ls ≡ₚ ls' -> union ls = union ls'.
Proof.
  intros Hp. apply union_ext. intros x. split; intros (l & Hx & Hl); exists l; split; [done| |done|].
  - by rewrite <- Hp.
  - by rewrite Hp.
Qed.

Lemma elem_of_lists (ls : list (list bytes)) (x : bytes) : (exists l, x ∈ l /\ l ∈ ls) <-> exists i l, ls !! i = Some l /\ x ∈ l.
Proof.
  split.
  - intros (l & Hx & [i Hi]%list_elem_of_lookup_1). eauto.
  - intros (i & l & Hi & Hx). exists l. split; [done|]. by eapply list_elem_of_lookup_2.
Qed.

Lemma elem_of_lists_insert (ls : list (list bytes)) i l l' (x : bytes) :
  ls !! i = Some l -> (x ∈ l <-> x ∈ l') ->
  (exists l, x ∈ l /\ l ∈ <[i := l']> ls) <-> (exists l, x ∈ l /\ l ∈ ls).
Proof.
  intros Hl Hx. rewrite !elem_of_lists. pose proof (lookup_lt_Some _ _ _ Hl) as Hi.
  split; intros (j & k & Hj & Hk); exists j; destruct (decide (j = i)) as [->|Hne].
  - exists l. split; [done|]. rewrite list_lookup_insert_eq in Hj by done. simplify_eq. by apply Hx.
  - exists k. by rewrite list_lookup_insert_ne in Hj.
  - exists l'. split; [by apply list_lookup_insert_eq|].
    assert (k = l) as -> by congruence. by apply Hx.
  - exists k. by rewrite list_lookup_insert_ne.
Qed.

(** ** The executor *)

Section Or.
Context {E : Type} {ops : BooleanExecutor E} {laws : ExecutorLaws E}.
Implicit Type o : OperatorBooleanExecutor E.
Implicit Type e : E.
Implicit Type subs : list E.

Lemma compare_asc_ids e1 e2 : ready e1 -> ready e2 -> compare_asc e1 e2 = head_less (ids e1) (ids e2).
Proof. intros. unfold compare_asc, head_less. by rewrite !ready_id. Qed.

Lemma ids_shiftdown subs i :
  Forall ready subs -> ids <$> or_shiftdown subs i = shiftdown head_less (ids <$> subs) i.
Proof. apply shiftdown_image. apply compare_asc_ids. Qed.

Lemma ids_make_heap subs :
  Forall ready subs -> ids <$> or_make_heap subs = make_heap head_less (ids <$> subs).
Proof. apply make_heap_image. apply compare_asc_ids. Qed.

(** What does not change while clauses are passed over. *)
Record or_fixed o o' : Prop := {
  fixed_type : o_type o' = o_type o;
  fixed_init : o_init_flag o' = o_init_flag o;
  fixed_null : o_is_null_flag o' = o_is_null_flag o;
  fixed_id_ptr : o_curr_id_ptr o' = o_curr_id_ptr o;
  fixed_length : length (o_sub_clauses o') = length (o_sub_clauses o)
}.

Lemma or_fixed_trans o1 o2 o3 : or_fixed o1 o2 -> or_fixed o2 o3 -> or_fixed o1 o3.
Proof. intros [] []. split; congruence. Qed.

Record drain_inv o (m : bytes) : Prop := {
  di_ok : op_ok o;
  di_ready : Forall ready (o_sub_clauses o);
  di_node : node_at o m;
  di_id : id_at o m;
  di_heap : heap (ids <$> o_sub_clauses o);
  di_root : exists l, (ids <$> o_sub_clauses o) !! 0%nat = Some l /\ head l = Some m
}.

(** The pointers do not lead behind the root. *)
Definition ptrs_at_root o : Prop :=
  (o_curr_node_ptr o = Self \/ o_curr_node_ptr o = Sub 0) /\
  (o_curr_id_ptr o = Self \/ o_curr_id_ptr o = Sub 0).

Lemma stands_on_set_subs o subs m :
  subs !! 0%nat = o_sub_clauses o !! 0%nat -> stands_on o (Sub 0) m -> stands_on (set_subs o subs) (Sub 0) m.
Proof. intros E0 (e & He & Hr). exists e. simpl in *. by rewrite E0. Qed.

Lemma at_set_subs o subs m :
  ptrs_at_root o -> subs !! 0%nat = o_sub_clauses o !! 0%nat ->
  node_at o m -> id_at o m -> node_at (set_subs o subs) m /\ id_at (set_subs o subs) m.
Proof.
  intros [Hn Hi] E0 Hnode Hid. unfold node_at, id_at in *. simpl.
  split; [destruct Hn as [Hn|Hn]|destruct Hi as [Hi|Hi]];
    rewrite ?Hn, ?Hi in *; try done; by apply stands_on_set_subs.
Qed.

(** One clause on [m] is passed over. *)
Lemma or_drain_step o m i l :
  drain_inv o m -> ptrs_at_root o -> (1 <= i <= 2)%nat ->
  (ids <$> o_sub_clauses o) !! i = Some l -> head l = Some m ->
  exists e n e1 e2, let o1 := merge_into o n in
    o_sub_clauses o !! i = Some e /\ current_id e = Some m /\ current_node e = Some n /\
    o_sub_clauses o1 !! i = Some e1 /\ next e1 = Some e2 /\
    let o2 := set_subs o1 (or_shiftdown (<[i := e2]> (o_sub_clauses o1)) i) in
    drain_inv o2 m /\ ptrs_at_root o2 /\ or_fixed o o2 /\
    ids <$> o_sub_clauses o2 = shiftdown head_less (<[i := tail l]> (ids <$> o_sub_clauses o)) i.
Proof.
  intros [Hok Hr Hn Hid Hh (l0 & H0 & Hm0)] Hptr Hi Hl Hm.
  apply list_lookup_fmap_Some in Hl as (e & -> & He).
  assert (Hre : ready e) by by eapply Forall_lookup_ready.
  pose proof (ready_id e Hre) as Eid. pose proof (ready_node e Hre) as Enode. rewrite Hm in Eid, Enode.
  destruct (current_node e) as [n|] eqn:En; [|done].
  destruct (merge_into_spec o n m Hok Hn Hid) as (Hok1 & Hs1 & Hn1 & Hi1).
  set (o1 := merge_into o n) in *. pose proof (ready_sim o o1 Hok1 Hs1 Hr) as Hr1.
  pose proof (sim_ids _ _ Hs1) as Eids1.
  assert (Hl1 : (ids <$> o_sub_clauses o1) !! i = Some (ids e)).
  { by rewrite Eids1, list_lookup_fmap, He. }
  apply list_lookup_fmap_Some in Hl1 as (e1 & Ee1 & He1).
  assert (Hre1 : ready e1) by by eapply Forall_lookup_ready.
  destruct (next_spec e1) as (e2 & En2 & Hw2 & Hst2 & Eids2); [apply Hre1|].
  destruct Hre1 as [_ Hst1]. rewrite Hst1, <- Ee1 in Eids2.
  exists e, n, e1, e2. fold o1. split; [done|]. split; [done|]. split; [done|]. split; [done|].
  split; [done|]. set (subs1 := <[i := e2]> (o_sub_clauses o1)).
  assert (Hrs1 : Forall ready subs1) by by apply Forall_insert.
  assert (Els : ids <$> subs1 = <[i := tail (ids e)]> (ids <$> o_sub_clauses o)).
  { unfold subs1. by rewrite list_fmap_insert, Eids2, Eids1. }
  assert (Els2 : ids <$> or_shiftdown subs1 i =
    shiftdown head_less (<[i := tail (ids e)]> (ids <$> o_sub_clauses o)) i).
  { by rewrite ids_shiftdown, Els. }
  assert (Hse : sorted (ids e)) by apply ids_sorted, Hre.
  assert (Hs : Forall sorted (ids <$> o_sub_clauses o)) by by apply ready_sorted.
  assert (Htail : Forall (bytes_lt m) (tail (ids e))).
  { destruct (ids e) as [|y t]; [done|]. simplify_eq/=. by apply sorted_cons in Hse as []. }
  assert (E00 : or_shiftdown subs1 i !! 0%nat = o_sub_clauses o1 !! 0%nat).
  { unfold or_shiftdown. rewrite shiftdown_below by lia. unfold subs1.
    by rewrite list_lookup_insert_ne by lia. }
  assert (Hptr1 : ptrs_at_root o1).
  { unfold ptrs_at_root in *. by rewrite (sim_node_ptr _ _ Hs1), (sim_id_ptr _ _ Hs1). }
  destruct (at_set_subs o1 (or_shiftdown subs1 i) m Hptr1 E00 Hn1 Hi1) as [Hn2 Hi2].
  assert (Hr2 : Forall ready (or_shiftdown subs1 i)) by by unfold or_shiftdown; rewrite shiftdown_perm.
  split; [|split; [done|split]].
  - split; try done.
    + destruct Hok1 as (? & ? & _ & ?). split; [done|]. split; [done|].
      split; [by apply ready_wf|done].
    + cbn [o_sub_clauses set_subs]. rewrite Els2. apply shiftdown_heap; [apply _|lia|].
      apply (heap_except_child _ _ _ l0 m); try done.
      * by apply (heap_from_min _ m l0).
      * by apply sorted_tail.
    + exists l0. split; [|done]. cbn [o_sub_clauses set_subs]. rewrite Els2, shiftdown_below by lia.
      by rewrite list_lookup_insert_ne by lia.
  - split; simpl; try apply Hs1.
    apply (f_equal length) in Els2. rewrite !length_fmap in Els2. rewrite Els2.
    rewrite (Permutation_length (shiftdown_perm head_less _ i)), length_insert. by rewrite length_fmap.
  - done.
Qed.

Lemma or_drain_spec rounds i o m :
  drain_inv o m -> ptrs_at_root o -> (1 <= i <= 2)%nat -> (i < length (o_sub_clauses o))%nat ->
  (count_on m (ids <$> o_sub_clauses o) <= S rounds)%nat ->
  exists o', or_drain rounds i o = Some o' /\ drain_inv o' m /\ ptrs_at_root o' /\ or_fixed o o' /\
    (forall j, (j < i)%nat -> (ids <$> o_sub_clauses o') !! j = (ids <$> o_sub_clauses o) !! j) /\
    (forall l, (ids <$> o_sub_clauses o') !! i = Some l -> head l <> Some m) /\
    (forall x, x <> m -> (exists l, x ∈ l /\ l ∈ ids <$> o_sub_clauses o') <->
       (exists l, x ∈ l /\ l ∈ ids <$> o_sub_clauses o)).
Proof.
  revert o; induction rounds as [|rounds IH]; intros o Hinv Hptr Hi Hlen Hcnt; cbn [or_drain].
  - exists o. split; [done|]. split; [done|]. split; [done|]. split; [done|]. split; [done|].
    split; [|done]. intros l Hl Hm. destruct (di_root _ _ Hinv) as (l0 & H0 & Hm0).
    pose proof (count_on_two m _ i 0%nat l l0 ltac:(lia) Hl H0 Hm Hm0). lia.
  - destruct (lookup_lt_is_Some_2 _ _ Hlen) as [e He]. rewrite He. cbn [mbind option_bind].
    assert (Hre : ready e) by (eapply Forall_lookup_ready; [apply Hinv|done]).
    assert (Hl : (ids <$> o_sub_clauses o) !! i = Some (ids e)) by by rewrite list_lookup_fmap, He.
    rewrite (ready_id e) by done.
    assert (Hstop : head (ids e) <> Some m ->
      exists o', Some o = Some o' /\ drain_inv o' m /\ ptrs_at_root o' /\ or_fixed o o' /\
      (forall j, (j < i)%nat -> (ids <$> o_sub_clauses o') !! j = (ids <$> o_sub_clauses o) !! j) /\
      (forall l, (ids <$> o_sub_clauses o') !! i = Some l -> head l <> Some m) /\
      (forall x, x <> m -> (exists l, x ∈ l /\ l ∈ ids <$> o_sub_clauses o') <->
         (exists l, x ∈ l /\ l ∈ ids <$> o_sub_clauses o))).
    { intros Hne. exists o. split; [done|]. split; [done|]. split; [done|]. split; [done|].
      split; [done|]. split; [|done]. intros l Hl'. by simplify_eq. }
    destruct (head (ids e)) as [x|] eqn:Ex; [|by apply Hstop].
    rewrite (id_at_deref o m) by apply Hinv. cbn [mbind option_bind].
    destruct (bool_decide (x = m)) eqn:Exm; [|apply Hstop; intros [= ->]; by rewrite bool_decide_eq_true_2 in Exm].
    apply bool_decide_eq_true in Exm as ->. clear Hstop.
    destruct (or_drain_step o m i (ids e) Hinv Hptr Hi Hl Ex)
      as (e' & n & e1 & e2 & He' & _ & Hn & He1 & He2 & Hinv2 & Hptr2 & Hfix2 & Els2).
    assert (e' = e) as -> by congruence. rewrite Hn. cbn [mbind option_bind].
    rewrite He1. cbn [mbind option_bind]. rewrite He2. cbn [mbind option_bind].
    set (o2 := set_subs _ _) in *.
    assert (Hse : sorted (ids e)) by apply ids_sorted, Hre.
    assert (Hnext : head (tail (ids e)) <> Some m).
    { destruct (ids e) as [|y t]; [done|]. simplify_eq/=. intros Ht.
      destruct t as [|z t]; [done|]. simplify_eq/=. apply (bytes_lt_irrefl m).
      apply (sorted_head_lt m m (m :: t)); [done|]. left. }
    destruct (IH o2) as (o' & -> & Hinv' & Hptr' & Hfix' & Hbelow & Hat & Hmem); [done|done|done| | |].
    + by rewrite (fixed_length _ _ Hfix2).
    + rewrite Els2, (count_on_perm m _ _ (shiftdown_perm head_less _ i)).
      rewrite (count_on_advance m _ i (ids e) (tail (ids e))) in Hcnt by done. lia.
    + exists o'. split; [done|]. split; [done|]. split; [done|]. split; [by eapply or_fixed_trans|].
      split; [|split; [done|]].
      * intros j Hj. rewrite Hbelow, Els2, shiftdown_below, list_lookup_insert_ne by lia. done.
      * intros x Hx. rewrite Hmem, Els2 by done.
        rewrite <- (elem_of_lists_insert (ids <$> o_sub_clauses o) i (ids e) (tail (ids e)) x); [|done|].
        -- split; intros (l & Hxl & Hll); exists l; (split; [done|]).
           ++ by rewrite (shiftdown_perm head_less _ i) in Hll.
           ++ by rewrite (shiftdown_perm head_less _ i).
        -- destruct (ids e) as [|y t]; [done|]. simplify_eq/=. rewrite elem_of_cons.
           split; [by intros [?|?]|by right].
Qed.

Definition or_wf o : Prop :=
  op_ok o /\ ptrs_at_root o /\ (o_type o = NODE_COPY -> o_curr_id_ptr o = Self) /\
  if o_is_null_flag o then True
  else if o_init_flag o then Forall (eq false) (started <$> o_sub_clauses o)
  else
    exists m, drain_inv o m /\
      forall j l x, (1 <= j)%nat -> (ids <$> o_sub_clauses o) !! j = Some l -> x ∈ l -> bytes_lt m x.

Definition or_started o : bool := negb (o_init_flag o) || o_is_null_flag o.

Definition or_ids o : list bytes :=
  if o_is_null_flag o then [] else union (ids <$> o_sub_clauses o).

Definition or_base o : Prop :=
  op_ok o /\ ptrs_at_root o /\ (o_type o = NODE_COPY -> o_curr_id_ptr o = Self).

Lemma or_null o : or_base o -> or_wf (set_null o) /\ or_started (set_null o) = true /\
  or_ids (set_null o) = [].
Proof. intros (? & ? & ?). split; [by split|]. split; [apply orb_true_r|done]. Qed.

Lemma take_node_ptrs o o' :
  ptrs_at_root o -> take_node o (Sub 0) = Some o' -> ptrs_at_root o'.
Proof.
  intros Hp. unfold take_node. destruct (pointee o (Sub 0)) as [e|]; [|done]. cbn [mbind option_bind].
  destruct (o_type o); [|intros [= <-]; split; by right].
  destruct (current_node e); [|done]. destruct (current_id e); [|done].
  intros [= <-]. done.
Qed.

(** The part of [find_next] after the smallest clause was taken. *)
Definition drain_both o : option (OperatorBooleanExecutor E) :=
  let n := length (o_sub_clauses o) in
  o ← (if (1 <? n)%nat then or_drain n 1 o else Some o);
  if (2 <? n)%nat then or_drain n 2 o else Some o.

Lemma drain_both_spec o m :
  drain_inv o m -> ptrs_at_root o ->
  exists o', drain_both o = Some o' /\ drain_inv o' m /\ ptrs_at_root o' /\ or_fixed o o' /\
    (forall r l, (1 <= r <= 2)%nat -> (ids <$> o_sub_clauses o') !! r = Some l -> head l <> Some m) /\
    (forall x, x <> m -> (exists l, x ∈ l /\ l ∈ ids <$> o_sub_clauses o') <->
       (exists l, x ∈ l /\ l ∈ ids <$> o_sub_clauses o)).
Proof.
  intros Hinv Hptr. unfold drain_both. set (n := length (o_sub_clauses o)).
  pose proof (count_on_length m (ids <$> o_sub_clauses o)) as Hcnt. rewrite length_fmap in Hcnt.
  destruct (Nat.ltb_spec 1 n) as [H1|H1].
  - destruct (or_drain_spec n 1 o m Hinv Hptr) as (o1 & -> & Hinv1 & Hptr1 & Hfix1 & _ & Hat1 & Hmem1);
      [lia|done|lia|]. cbn [mbind option_bind].
    destruct (Nat.ltb_spec 2 n) as [H2|H2].
    + pose proof (count_on_length m (ids <$> o_sub_clauses o1)) as Hcnt1. rewrite length_fmap in Hcnt1.
      destruct (or_drain_spec n 2 o1 m Hinv1 Hptr1) as (o2 & -> & Hinv2 & Hptr2 & Hfix2 & Hb2 & Hat2 & Hmem2);
        [lia|by rewrite (fixed_length _ _ Hfix1)|rewrite (fixed_length _ _ Hfix1) in Hcnt1; lia|].
      exists o2. split; [done|]. split; [done|]. split; [done|]. split; [by eapply or_fixed_trans|].
      split.
      * intros r l Hr Hl. destruct (decide (r = 2%nat)) as [->|]; [by apply Hat2|].
        apply Hat1. assert (r = 1%nat) as -> by lia. by rewrite <- Hb2 by lia.
      * intros x Hx. by rewrite Hmem2, Hmem1.
    + exists o1. split; [done|]. split; [done|]. split; [done|]. split; [done|]. split; [|done].
      intros r l Hr Hl. destruct (decide (r = 1%nat)) as [->|]; [by apply Hat1|].
      apply lookup_lt_Some in Hl. rewrite length_fmap, (fixed_length _ _ Hfix1) in Hl. lia.
  - cbn [mbind option_bind]. rewrite (proj2 (Nat.ltb_ge 2 n)) by lia.
    exists o. split; [done|]. split; [done|]. split; [done|]. split; [done|]. split; [|done].
    intros r l Hr Hl. apply lookup_lt_Some in Hl. rewrite length_fmap in Hl. lia.
Qed.

Lemma or_find_next_spec o :
  or_base o -> Forall ready (o_sub_clauses o) -> o_sub_clauses o <> [] ->
  heap (ids <$> o_sub_clauses o) -> o_init_flag o = false -> o_is_null_flag o = false ->
  exists o', or_find_next o = Some o' /\ or_wf o' /\ or_started o' = true /\
    or_ids o' = union (ids <$> o_sub_clauses o).
Proof.
  intros (Hok & Hptr & Hcopy) Hr Hne Hh Hi Hnull. unfold or_find_next.
  destruct (o_sub_clauses o) as [|e0 subs0] eqn:Es; [done|]. cbn [lookup list_lookup mbind option_bind].
  rewrite <- Es in *. assert (He0 : o_sub_clauses o !! 0%nat = Some e0) by by rewrite Es.
  assert (Hr0 : ready e0) by by eapply Forall_lookup_ready.
  assert (Hl0 : (ids <$> o_sub_clauses o) !! 0%nat = Some (ids e0)) by by rewrite list_lookup_fmap, He0.
  pose proof (ready_sorted _ Hr) as Hs. rewrite (ready_id e0) by done.
  destruct (head (ids e0)) as [m|] eqn:Em.
  - assert (Hst : stands_on o (Sub 0) m) by by exists e0.
    destruct (take_node_spec o (Sub 0) m Hok Hst) as
      (o1 & Et & Hok1 & Hn1 & Hi1 & Es1 & _ & Ei1 & En1 & Ety & Eid); [intros ?; right; by apply Hcopy|].
    rewrite Et. cbn [mbind option_bind].
    assert (Hinv1 : drain_inv o1 m).
    { split; try done; rewrite Es1; [done|done|]. by exists (ids e0). }
    pose proof (take_node_ptrs o o1 Hptr Et) as Hptr1.
    destruct (drain_both_spec o1 m Hinv1 Hptr1) as (o2 & E2 & Hinv2 & Hptr2 & Hfix2 & Hch & Hmem).
    unfold drain_both in E2. exists o2. split; [exact E2|]. pose proof Hfix2 as [].
    assert (Hst2 : or_started o2 = true).
    { unfold or_started. rewrite fixed_init0, Ei1, Hi. done. }
    destruct (di_root _ _ Hinv2) as (l2 & Hl2 & Hm2).
    pose proof (ready_sorted _ (di_ready _ _ Hinv2)) as Hs2.
    split; [|split; [done|]].
    + split; [apply Hinv2|]. split; [done|].
      split; [rewrite fixed_type0, Ety, fixed_id_ptr0; intros Hc; rewrite Eid by done; by apply Hcopy|].
      rewrite fixed_null0, En1, Hnull, fixed_init0, Ei1, Hi. exists m. split; [done|].
      apply (others_above _ m l2); [done|apply Hinv2|done..].
    + unfold or_ids. rewrite fixed_null0, En1, Hnull. apply union_ext. intros x.
      destruct (decide (x = m)) as [->|Hx]; [|rewrite Hmem by done; by rewrite Es1].
      split; intros _.
      * exists (ids e0). split; [destruct (ids e0); [done|]; simplify_eq/=; left|].
        by eapply list_elem_of_lookup_2.
      * exists l2. split; [destruct l2; [done|]; simplify_eq/=; left|]. by eapply list_elem_of_lookup_2.
  - eexists. split; [done|]. destruct (or_null o) as (? & ? & ->); [done|].
    split; [done|]. split; [done|]. symmetry. by apply (heap_exhausted _ (ids e0)).
Qed.

(** *** Moving *)

Lemma mapM_move move g subs :
  moves move g -> Forall wf subs ->
  exists subs', mapM move subs = Some subs' /\ Forall ready subs' /\ ids <$> subs' = g <$> subs /\
    length subs' = length subs.
Proof.
  intros Hm. induction 1 as [|e subs He Hs IH]; [by exists []|].
  destruct IH as (subs' & Es & Hr & Ei & El). destruct (Hm e He) as (e' & Ee & Hr' & Ei').
  exists (e' :: subs'). split; [simpl; by rewrite Ee, Es|]. split; [by constructor|].
  split; [by rewrite !fmap_cons, Ei, Ei'|simpl; by rewrite El].
Qed.

Lemma or_all_spec o move g :
  moves move g -> or_base o -> o_is_null_flag o = false -> o_sub_clauses o <> [] ->
  o_init_flag o = false ->
  exists o', (subs ← mapM move (o_sub_clauses o); or_find_next (set_subs o (or_make_heap subs))) = Some o' /\
    or_wf o' /\ or_started o' = true /\ or_ids o' = union (g <$> o_sub_clauses o).
Proof.
  intros Hm (Hok & Hptr & Hcopy) Hnull Hne Hi.
  destruct (mapM_move move g (o_sub_clauses o) Hm) as (subs' & -> & Hr & Ei & El); [apply Hok|].
  cbn [mbind option_bind].
  assert (Hr' : Forall ready (or_make_heap subs')) by by unfold or_make_heap; rewrite make_heap_perm.
  destruct (or_find_next_spec (set_subs o (or_make_heap subs'))) as (o' & -> & Hwf & Hst & Hids); try done.
  - split; [|by split]. destruct Hok as (? & ? & _ & ?). split; [done|]. split; [done|].
    split; [by apply ready_wf|done].
  - cbn [o_sub_clauses set_subs]. intros E0. apply Hne, nil_length_inv. rewrite <- El.
    rewrite <- (Permutation_length (make_heap_perm compare_asc subs')).
    change (length (or_make_heap subs') = 0%nat). by rewrite E0.
  - cbn [o_sub_clauses set_subs]. rewrite ids_make_heap by done. apply make_heap_heap, _.
  - exists o'. split; [done|]. split; [done|]. split; [done|]. rewrite Hids.
    cbn [o_sub_clauses set_subs]. rewrite ids_make_heap, Ei by done. apply union_perm, make_heap_perm.
Qed.

Lemma or_later_spec o m :
  or_base o -> o_is_null_flag o = false -> o_init_flag o = false -> drain_inv o m ->
  exists o' e, o_sub_clauses o !! 0%nat = Some e /\
    (e ← o_sub_clauses o !! 0%nat; e ← next e;
     or_find_next (set_subs o (or_shiftdown (<[0%nat := e]> (o_sub_clauses o)) 0))) = Some o' /\
    or_wf o' /\ or_started o' = true /\
    or_ids o' = union (<[0%nat := tail (ids e)]> (ids <$> o_sub_clauses o)).
Proof.
  intros (Hok & Hptr & Hcopy) Hnull Hi Hinv. destruct (di_root _ _ Hinv) as (l0 & Hl0 & Hm0).
  apply list_lookup_fmap_Some in Hl0 as (e & -> & He). pose proof (di_ready _ _ Hinv) as Hr.
  assert (Hre : ready e) by by eapply Forall_lookup_ready.
  rewrite He. cbn [mbind option_bind].
  destruct (next_spec e) as (e' & -> & Hw' & Hst' & Eids'); [apply Hre|]. cbn [mbind option_bind].
  destruct Hre as [_ Hste]. rewrite Hste in Eids'.
  set (subs1 := <[0%nat := e']> (o_sub_clauses o)).
  assert (Hr1 : Forall ready subs1) by by apply Forall_insert.
  assert (Hr2 : Forall ready (or_shiftdown subs1 0)) by by unfold or_shiftdown; rewrite shiftdown_perm.
  assert (Els : ids <$> subs1 = <[0%nat := tail (ids e)]> (ids <$> o_sub_clauses o)).
  { unfold subs1. by rewrite list_fmap_insert, Eids'. }
  destruct (or_find_next_spec (set_subs o (or_shiftdown subs1 0))) as (o' & -> & Hwf & Hst & Hids); try done.
  - split; [|by split]. destruct Hok as (? & ? & _ & ?). split; [done|]. split; [done|].
    split; [by apply ready_wf|done].
  - cbn [o_sub_clauses set_subs]. intros E0. apply (f_equal length) in E0. unfold or_shiftdown in E0.
    rewrite (Permutation_length (shiftdown_perm compare_asc subs1 0)) in E0.
    unfold subs1 in E0. rewrite length_insert in E0. apply lookup_lt_Some in He. simpl in E0. lia.
  - cbn [o_sub_clauses set_subs]. rewrite ids_shiftdown, Els by done.
    apply shiftdown_heap; [apply _|lia|]. apply heap_except_root, Hinv.
  - exists o', e. split; [done|]. split; [done|]. split; [done|]. split; [done|]. rewrite Hids.
    cbn [o_sub_clauses set_subs]. rewrite ids_shiftdown, Els by done. apply union_perm, shiftdown_perm.
Qed.

(** *** The laws *)

Lemma union_tail ls l m :
  Forall sorted ls -> ls !! 0%nat = Some l -> head l = Some m -> from_min m ls ->
  (forall j l x, (1 <= j)%nat -> ls !! j = Some l -> x ∈ l -> bytes_lt m x) ->
  union (<[0%nat := tail l]> ls) = tail (union ls) /\ head (union ls) = Some m.
Proof.
  intros Hs Hl Hm Hmin Habove. pose proof (sort_ids_sorted (mjoin ls)) as Hus. fold (union ls) in Hus.
  assert (Hsl : sorted l) by by eapply Forall_lookup_1 in Hs.
  destruct l as [|y t]; [done|]. injection Hm as ->. cbn [tail].
  assert (Hhead : head (union ls) = Some m).
  { apply head_sorted_spec; [done|]. split.
    - apply elem_of_union. exists (m :: t). split; [left|]. by eapply list_elem_of_lookup_2.
    - intros x (l & Hx & Hl')%elem_of_union. by apply (Hmin l). }
  split; [|done]. destruct (union ls) as [|z u] eqn:Eu; [done|]. injection Hhead as ->. cbn [tail].
  apply sorted_ext; [apply sort_ids_sorted|by apply sorted_cons in Hus as []|].
  intros x. rewrite (elem_of_tail_sorted m u x Hus), <- Eu, !elem_of_union.
  pose proof (lookup_lt_Some _ _ _ Hl) as Hlen. rewrite !elem_of_lists. split.
  - intros (j & k & Hj & Hx). destruct (decide (j = 0%nat)) as [->|Hne].
    + rewrite list_lookup_insert_eq in Hj by done. injection Hj as <-.
      apply (elem_of_tail_sorted m t x Hsl) in Hx as [Hx ?]. split; [|done]. by exists 0%nat, (m :: t).
    + rewrite list_lookup_insert_ne in Hj by done. split; [by exists j, k|].
      intros ->. apply (bytes_lt_irrefl m), (Habove j k); [lia|done..].
  - intros [(j & k & Hj & Hx) Hxm]. exists j. destruct (decide (j = 0%nat)) as [->|Hne].
    + exists t. split; [by apply list_lookup_insert_eq|]. assert (k = m :: t) as -> by congruence.
      by apply (elem_of_tail_sorted m t x Hsl).
    + exists k. by rewrite list_lookup_insert_ne.
Qed.

Lemma union_drop ls t : Forall sorted ls -> union (drop_lt t <$> ls) = drop_lt t (union ls).
Proof.
  intros Hs. pose proof (sort_ids_sorted (mjoin ls)) as Hus. apply sorted_ext.
  - apply sort_ids_sorted.
  - by apply sorted_drop_lt.
  - intros x. rewrite elem_of_drop_lt, !elem_of_union by done. rewrite Forall_forall in Hs. split.
    + intros (l' & Hx & (l & -> & Hl)%list_elem_of_fmap). apply elem_of_drop_lt in Hx as [Hx ?]; [|by apply Hs].
      split; [by exists l|done].
    + intros [(l & Hx & Hl) Hlt]. exists (drop_lt t l). split; [|by apply list_elem_of_fmap_2].
      apply elem_of_drop_lt; [by apply Hs|done].
Qed.

Lemma or_done_ids o : op_done o = true -> or_ids o = [].
Proof.
  intros [E0|E0]%op_done_cases; unfold or_ids; rewrite E0; [|done]. by case_match.
Qed.

Lemma or_at_min o m :
  drain_inv o m -> o_is_null_flag o = false ->
  (forall j l x, (1 <= j)%nat -> (ids <$> o_sub_clauses o) !! j = Some l -> x ∈ l -> bytes_lt m x) ->
  exists e, o_sub_clauses o !! 0%nat = Some e /\ head (or_ids o) = Some m /\
    union (<[0%nat := tail (ids e)]> (ids <$> o_sub_clauses o)) = tail (or_ids o).
Proof.
  intros Hinv Hnull Habove. destruct (di_root _ _ Hinv) as (l0 & Hl0 & Hm0).
  pose proof (ready_sorted _ (di_ready _ _ Hinv)) as Hs.
  destruct (union_tail _ l0 m Hs Hl0 Hm0) as [Et Eh].
  { apply (heap_from_min _ m l0); [done|apply Hinv|done..]. }
  { done. }
  apply list_lookup_fmap_Some in Hl0 as (e & -> & He). exists e. unfold or_ids. by rewrite Hnull.
Qed.

Lemma or_next_spec o :
  or_wf o ->
  exists o', or_next o = Some o' /\ or_wf o' /\ or_started o' = true /\
    or_ids o' = if or_started o then tail (or_ids o) else or_ids o.
Proof.
  intros (Hok & Hptr & Hcopy & Hwf). assert (Hb : or_base o) by by split. unfold or_next.
  destruct (op_done o) eqn:Hd.
  { destruct (or_null o Hb) as (? & ? & E0). eexists. split; [done|]. rewrite E0.
    rewrite (or_done_ids o) by done. split; [done|]. split; [done|]. by destruct (or_started o). }
  apply not_done in Hd as [Hne Hnull]. rewrite Hnull in Hwf. unfold or_started at 2.
  rewrite Hnull, orb_false_r. destruct (o_init_flag o) eqn:Hi; cbn [negb].
  - destruct (or_all_spec (set_init o false) _ _ next_moves) as (o' & Eo & ? & ? & Hids); try done.
    exists o'. split; [|split; [done|split; [done|]]].
    + destruct (mapM next (o_sub_clauses o)) as [subs'|] eqn:Em; cbn in Eo; rewrite Em in Eo; done.
    + rewrite Hids. unfold or_ids. rewrite Hnull. f_equal. apply list_fmap_ext. intros i e He.
      rewrite Forall_fmap in Hwf. by rewrite <- (Forall_lookup_1 _ _ _ _ Hwf He).
  - destruct Hwf as (m & Hinv & Habove).
    destruct (or_later_spec o m Hb Hnull Hi Hinv) as (o' & e & He & -> & ? & ? & Hids).
    exists o'. split; [done|]. split; [done|]. split; [done|]. rewrite Hids.
    destruct (or_at_min o m Hinv Hnull Habove) as (e' & He' & _ & Et). by simplify_eq.
Qed.

Lemma or_current_spec o :
  or_wf o -> or_started o = true ->
  op_current_id o = head (or_ids o) /\ (key <$> op_current_node o) = head (or_ids o) /\
  forall n, op_current_node o = Some n -> live n.
Proof.
  intros (Hok & Hptr & Hcopy & Hwf) Hst. unfold op_current_id, op_current_node, or_started in *.
  destruct (o_is_null_flag o) eqn:Hnull; [unfold or_ids; by rewrite Hnull|].
  rewrite orb_false_r in Hst. apply negb_true_iff in Hst. rewrite Hst in Hwf.
  destruct Hwf as (m & Hinv & Habove). destruct (or_at_min o m Hinv Hnull Habove) as (e & _ & -> & _).
  rewrite (id_at_deref o m) by apply Hinv. by destruct (node_at_deref o m (di_node _ _ Hinv)).
Qed.

Lemma or_advance_spec t o :
  or_wf o ->
  exists o', or_advance t o = Some o' /\ or_wf o' /\ or_started o' = true /\
    or_ids o' = drop_lt t (or_ids o).
Proof.
  intros Hor. pose proof Hor as (Hok & Hptr & Hcopy & Hwf). assert (Hb : or_base o) by by split.
  unfold or_advance. destruct (op_done o) eqn:Hd.
  { destruct (or_null o Hb) as (? & ? & E0). eexists. split; [done|]. rewrite E0.
    by rewrite (or_done_ids o). }
  apply not_done in Hd as [Hne Hnull]. rewrite Hnull in Hwf.
  assert (Hs : Forall sorted (ids <$> o_sub_clauses o)).
  { apply Forall_fmap. destruct Hok as (_ & _ & Hw & _). eapply Forall_impl; [exact Hw|].
    apply ids_sorted. }
  assert (Hids0 : union ((fun e => drop_lt t (ids e)) <$> o_sub_clauses o) = drop_lt t (or_ids o)).
  { unfold or_ids. rewrite Hnull, <- union_drop by done. by rewrite <- list_fmap_compose. }
  destruct (o_init_flag o) eqn:Hi.
  - destruct (or_all_spec (set_init o false) _ _ (advance_moves t)) as (o' & Eo & ? & ? & Hids); try done.
    exists o'. split; [exact Eo|]. split; [done|]. split; [done|]. by rewrite Hids.
  - assert (Hst' : or_started o = true) by (unfold or_started; by rewrite Hi).
    destruct (or_current_spec o Hor Hst') as [Ecur _]. destruct Hwf as (m & Hinv & Habove).
    destruct (or_at_min o m Hinv Hnull Habove) as (e & _ & Eh & _). rewrite Ecur, Eh.
    cbn [mbind option_bind]. destruct (bytes_ltb m t) eqn:Hlt.
    + destruct (or_all_spec o _ _ (advance_moves t)) as (o' & Eo & ? & ? & Hids); try done.
      exists o'. split; [exact Eo|]. split; [done|]. split; [done|]. by rewrite Hids.
    + exists o. split; [done|]. split; [done|]. split; [done|].
      destruct (or_ids o) as [|x l]; [done|]. injection Eh as ->. symmetry.
      apply drop_lt_id. by apply bytes_ltb_false.
Qed.

Lemma or_update_spec f o :
  or_wf o -> keeps f ->
  or_wf (op_update f o) /\ or_started (op_update f o) = or_started o /\
  or_ids (op_update f o) = or_ids o.
Proof.
  intros (Hok & Hptr & Hcopy & Hwf) Hf. destruct (op_update_sim f o Hok Hf) as [Hok' Hs].
  unfold or_wf, or_started, or_ids.
  rewrite (sim_null _ _ Hs), (sim_init _ _ Hs), (sim_started _ _ Hs), (sim_ids _ _ Hs).
  rewrite (sim_type _ _ Hs), (sim_id_ptr _ _ Hs).
  split; [|done]. split; [done|]. split; [|split; [done|]].
  { unfold ptrs_at_root in *. by rewrite (sim_node_ptr _ _ Hs), (sim_id_ptr _ _ Hs). }
  case_match; [done|]. case_match; [done|]. destruct Hwf as (m & Hinv & Habove). exists m.
  split; [|done]. destruct Hinv. split; try done; rewrite ?(sim_ids _ _ Hs); try done.
  - by apply (ready_sim o).
  - by apply node_at_update.
  - by apply id_at_update.
Qed.

Lemma or_ids_size o : op_ok o -> (length (or_ids o) <= subs_size o)%nat.
Proof.
  intros (_ & _ & Hw & _). unfold or_ids, subs_size. case_match; [simpl; lia|].
  etransitivity; [apply sort_ids_length|].
  induction Hw as [|e subs He Hs IH]; [done|]. rewrite fmap_cons. simpl. rewrite length_app.
  pose proof (ids_size e He). lia.
Qed.

#[export] Program Instance or_laws : ExecutorLaws (OrBooleanExecutor E) := {
  wf a := or_wf (or_op a);
  started a := or_started (or_op a);
  ids a := or_ids (or_op a)
}.
Next Obligation.
  intros [o] _. cbn. unfold or_ids. case_match; [apply sorted_nil|apply sort_ids_sorted].
Qed.
Next Obligation. intros [o] [Hok _]. by apply or_ids_size. Qed.
Next Obligation. intros [o] Hw Hs. by apply or_current_spec. Qed.
Next Obligation. intros [o] Hw Hs. by apply or_current_spec. Qed.
Next Obligation.
  intros [o] Hw. destruct (or_next_spec o Hw) as (o' & E0 & ?). exists (mk_or o').
  cbn. by rewrite E0.
Qed.
Next Obligation.
  intros t [o] Hw. destruct (or_advance_spec t o Hw) as (o' & E0 & ?). exists (mk_or o').
  cbn. by rewrite E0.
Qed.
Next Obligation. intros f [o] Hw Hf. by apply or_update_spec. Qed.

End Or.

(** * Weighted nodes of the boolean engine *)

Section Weighted.
Context {E : Type} {ops : BooleanExecutor E} {laws : ExecutorLaws E}.
Implicit Type o : OperatorBooleanExecutor E.
Implicit Type e : E.

(** The pointers lead to the node itself or to the mandatory clause. *)
Definition ptrs_at_must o : Prop :=
  (o_curr_node_ptr o = Self \/ o_curr_node_ptr o = Must) /\
  (o_curr_id_ptr o = Self \/ o_curr_id_ptr o = Must).

Definition weighted_base o : Prop :=
  op_ok o /\ ptrs_at_must o /\ (o_type o = NODE_COPY -> o_curr_id_ptr o = Self) /\
  Forall ready (o_sub_clauses o).

Definition weighted_wf o : Prop :=
  weighted_base o /\
  if o_is_null_flag o then True
  else forall e, o_op_executor o = Some e -> started e = true ->
    exists m, head (ids e) = Some m /\ node_at o m /\ id_at o m.

Definition weighted_started o : bool :=
  o_is_null_flag o || from_option started false (o_op_executor o).

Definition weighted_ids o : list bytes :=
  if o_is_null_flag o then [] else from_option ids [] (o_op_executor o).

(** What adding weights leaves alone. *)
Record weighted_fixed o o' : Prop := {
  wfixed_null : o_is_null_flag o' = o_is_null_flag o;
  wfixed_ids : ids <$> o_op_executor o' = ids <$> o_op_executor o;
  wfixed_started : started <$> o_op_executor o' = started <$> o_op_executor o
}.

Lemma weighted_fixed_trans o1 o2 o3 :
  weighted_fixed o1 o2 -> weighted_fixed o2 o3 -> weighted_fixed o1 o3.
Proof. intros [] []. split; congruence. Qed.

Lemma at_must_set_subs o subs m :
  ptrs_at_must o -> node_at o m -> id_at o m -> node_at (set_subs o subs) m /\ id_at (set_subs o subs) m.
Proof.
  intros [Hn Hi] Hnode Hid. unfold node_at, id_at, stands_on in *. simpl.
  split; [destruct Hn as [Hn|Hn]|destruct Hi as [Hi|Hi]]; by rewrite ?Hn, ?Hi in *.
Qed.

(** A step of the loop: merging a node, or moving a clause. *)
Lemma weighted_merge o n m :
  weighted_base o -> node_at o m -> id_at o m ->
  let o' := merge_into o n in
  weighted_base o' /\ node_at o' m /\ id_at o' m /\ weighted_fixed o o' /\
  length (o_sub_clauses o') = length (o_sub_clauses o).
Proof.
  intros (Hok & Hptr & Hcopy & Hr) Hn Hi.
  destruct (merge_into_spec o n m Hok Hn Hi) as (Hok' & Hs & Hn' & Hi').
  split; [|split; [done|split; [done|split]]].
  - split; [done|]. unfold ptrs_at_must in *.
    rewrite (sim_node_ptr _ _ Hs), (sim_id_ptr _ _ Hs), (sim_type _ _ Hs).
    split; [done|]. split; [done|]. by apply (ready_sim o).
  - split; apply Hs.
  - rewrite <- (length_fmap ids), (sim_ids _ _ Hs). apply length_fmap.
Qed.

Lemma weighted_set o m i e :
  weighted_base o -> node_at o m -> id_at o m -> ready e ->
  let o' := set_subs o (<[i := e]> (o_sub_clauses o)) in
  weighted_base o' /\ node_at o' m /\ id_at o' m /\ weighted_fixed o o' /\
  length (o_sub_clauses o') = length (o_sub_clauses o).
Proof.
  intros (Hok & Hptr & Hcopy & Hr) Hn Hi He.
  destruct (at_must_set_subs o (<[i := e]> (o_sub_clauses o)) m Hptr Hn Hi) as [Hn' Hi'].
  assert (Hr' : Forall ready (<[i := e]> (o_sub_clauses o))) by by apply Forall_insert.
  split; [|split; [done|split; [done|split]]].
  - split; [|done]. destruct Hok as (? & ? & _ & ?). split; [done|]. split; [done|].
    split; [by apply ready_wf|done].
  - done.
  - apply length_insert.
Qed.

Lemma add_weight_from_spec count i o m :
  weighted_base o -> node_at o m -> id_at o m -> (i + count = length (o_sub_clauses o))%nat ->
  exists o', add_weight_from i count o = Some o' /\ weighted_base o' /\ node_at o' m /\ id_at o' m /\
    weighted_fixed o o'.
Proof.
  revert i o; induction count as [|count IH]; intros i o Hb Hn Hi Hlen; cbn [add_weight_from].
  { exists o. split; [done|]. split; [done|]. split; [done|]. split; [done|]. by split. }
  assert (Hcont : forall o1, weighted_base o1 -> node_at o1 m -> id_at o1 m -> weighted_fixed o o1 ->
    length (o_sub_clauses o1) = length (o_sub_clauses o) ->
    exists o', add_weight_from (S i) count o1 = Some o' /\ weighted_base o' /\ node_at o' m /\
      id_at o' m /\ weighted_fixed o o').
  { intros o1 Hb1 Hn1 Hi1 Hf1 Hl1.
    destruct (IH (S i) o1) as (o' & -> & ? & ? & ? & ?); [done..|lia|].
    exists o'. split; [done|]. split; [done|]. split; [done|]. split; [done|].
    by eapply weighted_fixed_trans. }
  destruct (lookup_lt_is_Some_2 (o_sub_clauses o) i) as [e He]; [lia|]. rewrite He.
  cbn [mbind option_bind]. assert (Hre : ready e) by (eapply Forall_lookup_ready; [apply Hb|done]).
  rewrite (ready_id e Hre). destruct (head (ids e)) as [x|] eqn:Ex; [|by apply Hcont].
  rewrite (id_at_deref o m) by done. cbn [mbind option_bind].
  pose proof (ready_node e Hre) as En. rewrite Ex in En.
  destruct (lex_compare x m) eqn:Hc; [| |by apply Hcont].
  - destruct (current_node e) as [n|]; [|done]. cbn [mbind option_bind].
    destruct (weighted_merge o n m) as (? & ? & ? & ? & ?); [done..|]. by apply Hcont.
  - destruct (advance_spec m e) as (e' & -> & Hw' & Hst' & _); [apply Hre|].
    cbn [mbind option_bind]. assert (Hre' : ready e') by by split.
    destruct (weighted_set o m i e') as (Hb1 & Hn1 & Hi1 & Hf1 & Hl1); [done..|].
    set (o1 := set_subs o _) in *. rewrite (ready_id e' Hre').
    pose proof (ready_node e' Hre') as En'.
    destruct (head (ids e')) as [y|]; [|by apply Hcont].
    destruct (bool_decide (y = m)); [|by apply Hcont].
    destruct (current_node e') as [n|]; [|done]. cbn [mbind option_bind].
    destruct (weighted_merge o1 n m) as (? & ? & ? & ? & ?); [done..|].
    apply Hcont; [done..|by eapply weighted_fixed_trans|congruence].
Qed.

Lemma weighted_null o : weighted_base o -> weighted_wf (set_null o) /\
  weighted_started (set_null o) = true /\ weighted_ids (set_null o) = [].
Proof. intros Hb. split; [by split|done]. Qed.

Lemma take_must_ptrs o o' :
  ptrs_at_must o -> take_node o Must = Some o' -> ptrs_at_must o'.
Proof.
  intros Hp. unfold take_node. destruct (pointee o Must) as [e|]; [|done]. cbn [mbind option_bind].
  destruct (o_type o); [|intros [= <-]; split; by right].
  destruct (current_node e); [|done]. destruct (current_id e); [|done].
  intros [= <-]. done.
Qed.

Lemma weighted_move_spec o move g :
  moves move g -> weighted_wf o ->
  exists o', weighted_move o move = Some o' /\ weighted_wf o' /\ weighted_started o' = true /\
    weighted_ids o' = if o_is_null_flag o then [] else from_option g [] (o_op_executor o).
Proof.
  intros Hm [Hb Hwf]. unfold weighted_move. destruct (o_op_executor o) as [e|] eqn:Ee.
  2: { destruct (weighted_null o Hb) as (? & ? & E0). eexists. split; [done|]. rewrite E0.
       by destruct (o_is_null_flag o). }
  destruct (o_is_null_flag o) eqn:Hnull.
  { destruct (weighted_null o Hb) as (? & ? & E0). eexists. by split. }
  destruct Hb as ((Hmf & Hcp & Hw & Hmust) & Hptr & Hcopy & Hr). cbn [from_option].
  destruct (Hm e) as (e' & -> & Hre' & Eids); [by apply Hmust|]. cbn [mbind option_bind].
  set (o1 := set_must o (Some e')).
  assert (Hok1 : op_ok o1).
  { split; [done|]. split; [done|]. split; [done|]. intros e0 [= <-]. apply Hre'. }
  assert (Hb1 : weighted_base o1) by by split.
  pose proof (ready_node e' Hre') as En.
  destruct (current_node e') as [n|] eqn:Ecur.
  - assert (Hst : stands_on o1 Must (key n)) by by exists e'.
    destruct (take_node_spec o1 Must (key n) Hok1 Hst) as
      (o2 & Et & Hok2 & Hn2 & Hi2 & Es2 & Eo2 & _ & En2 & Ety2 & Eid2); [intros ?; right; by apply Hcopy|].
    rewrite Et. cbn [mbind option_bind]. pose proof (take_must_ptrs o1 o2 Hptr Et) as Hptr2.
    assert (Hb2 : weighted_base o2).
    { split; [done|]. split; [done|]. rewrite Es2. split; [|done].
      rewrite Ety2. intros Hc. rewrite Eid2 by done. by apply Hcopy. }
    unfold add_weight. destruct (add_weight_from_spec (length (o_sub_clauses o2)) 0 o2 (key n))
      as (o3 & -> & Hb3 & Hn3 & Hi3 & [Hf1 Hf2 Hf3]); [done..|].
    exists o3. split; [done|]. rewrite Eo2 in Hf2, Hf3. rewrite En2 in Hf1.
    change (o_is_null_flag o3 = o_is_null_flag o) in Hf1. rewrite Hnull in Hf1.
    destruct (o_op_executor o3) as [e3|] eqn:Ee3; [|done].
    assert (E1 : ids e3 = ids e') by (injection Hf2; done).
    assert (E2 : started e3 = started e') by (injection Hf3; done).
    unfold weighted_wf, weighted_started, weighted_ids. rewrite Hf1, Ee3. simpl.
    split; [split; [done|]|split; [rewrite E2; apply Hre'|by rewrite E1, Eids]].
    intros e0 [= <-] _. exists (key n). rewrite E1. done.
  - eexists. split; [done|]. destruct (weighted_null o1 Hb1) as (? & ? & E0). rewrite E0.
    split; [done|]. split; [done|]. rewrite <- Eids. simpl in En.
    by apply symmetry, head_None_nil in En.
Qed.

Lemma weighted_current_spec o :
  weighted_wf o -> weighted_started o = true ->
  op_current_id o = head (weighted_ids o) /\ (key <$> op_current_node o) = head (weighted_ids o) /\
  forall n, op_current_node o = Some n -> live n.
Proof.
  intros [Hb Hwf] Hst. unfold op_current_id, op_current_node, weighted_started, weighted_ids in *.
  destruct (o_is_null_flag o) eqn:Hnull; [done|]. simpl in Hst.
  destruct (o_op_executor o) as [e|] eqn:Ee; [|done]. simpl in *.
  destruct (Hwf e eq_refl Hst) as (m & -> & Hn & Hi). rewrite (id_at_deref o m) by done.
  by destruct (node_at_deref o m Hn).
Qed.

Lemma weighted_update_spec f o :
  weighted_wf o -> keeps f ->
  weighted_wf (op_update f o) /\ weighted_started (op_update f o) = weighted_started o /\
  weighted_ids (op_update f o) = weighted_ids o.
Proof.
  intros [(Hok & Hptr & Hcopy & Hr) Hwf] Hf. destruct (op_update_sim f o Hok Hf) as [Hok' Hs].
  pose proof (sim_must_ids _ _ Hs) as Ei. pose proof (sim_must_started _ _ Hs) as Es.
  unfold weighted_wf, weighted_started, weighted_ids, weighted_base, ptrs_at_must in *.
  rewrite (sim_null _ _ Hs), (sim_node_ptr _ _ Hs), (sim_id_ptr _ _ Hs), (sim_type _ _ Hs).
  split; [split; [|case_match; [done|]]|].
  - split; [done|]. split; [done|]. split; [done|]. by apply (ready_sim o).
  - intros e' He' Hst'. rewrite He' in Ei, Es.
    destruct (o_op_executor o) as [e|] eqn:Ee; [|done].
    assert (E1 : ids e' = ids e) by (injection Ei; done).
    assert (E2 : started e' = started e) by (injection Es; done). rewrite E2 in Hst'.
    destruct (Hwf e eq_refl Hst') as (m & ? & Hn & Hi). exists m. rewrite E1.
    split; [done|]. split; [by apply node_at_update|by apply id_at_update].
  - destruct (o_op_executor (op_update f o)), (o_op_executor o); try done. simpl in *.
    injection Ei as ->. by injection Es as ->.
Qed.

#[export] Program Instance weighted_laws : ExecutorLaws (WeightedBooleanExecutor E) := {
  wf a := weighted_wf (weighted_op a);
  started a := weighted_started (weighted_op a);
  ids a := weighted_ids (weighted_op a)
}.
Next Obligation.
  intros [o] [(Hok & _) _]. cbn. unfold weighted_ids. case_match; [apply sorted_nil|].
  destruct (o_op_executor o) as [e|] eqn:Ee; [|apply sorted_nil]. simpl. apply ids_sorted.
  by apply Hok.
Qed.
Next Obligation.
  intros [o] [(Hok & _) _]. cbn. unfold weighted_ids. case_match; [simpl; lia|].
  destruct (o_op_executor o) as [e|] eqn:Ee; [|simpl; lia]. simpl.
  assert (Hw : wf e) by by apply Hok. pose proof (ids_size e Hw). lia.
Qed.
Next Obligation. intros [o] Hw Hs. by apply weighted_current_spec. Qed.
Next Obligation. intros [o] Hw Hs. by apply weighted_current_spec. Qed.
Next Obligation.
  intros [o] Hw. destruct (weighted_move_spec o _ _ next_moves Hw) as (o' & E0 & Hw' & Hs' & Hi').
  exists (mk_weighted o'). cbn. rewrite E0. split; [done|]. split; [done|]. split; [done|].
  rewrite Hi'. unfold weighted_started, weighted_ids. destruct (o_is_null_flag o); [done|]. simpl.
  by destruct (o_op_executor o).
Qed.
Next Obligation.
  intros t [o] Hw. destruct (weighted_move_spec o _ _ (advance_moves t) Hw) as (o' & E0 & Hw' & Hs' & Hi').
  exists (mk_weighted o'). cbn. rewrite E0. split; [done|]. split; [done|]. split; [done|].
  rewrite Hi'. unfold weighted_ids. destruct (o_is_null_flag o); [done|].
  by destruct (o_op_executor o).
Qed.
Next Obligation. intros f [o] Hw Hf. by apply weighted_update_spec. Qed.

End Weighted.
