(* ===== verification/BoolQuery.v ===== *)
(** * Queries of the boolean engine
      ([include/reverse/boolean_engine/logical_query.h] and [.hpp],
      [include/reverse/reverse_index.h])

    The executors as a tree of any depth, how a logical query becomes such a
    tree, and the loop that reads its results. *)

From S2P Require Import Prelude Ordered Heap ReverseList BoolExecutor BoolExecutorFacts BoolNodes.

#[local] Set Warnings "-register-all".

(** ** Trees of executors *)

(** A node of a tree whose children are in [E]; the virtual functions dispatch. *)
Inductive Layer (P E : Type) : Type :=
  | LTerm (t : TermBooleanExecutor P)
  | LAnd (a : AndBooleanExecutor E)
  | LOr (a : OrBooleanExecutor E)
  | LWeighted (a : WeightedBooleanExecutor E).
Arguments LTerm {P E}.
Arguments LAnd {P E}.
Arguments LOr {P E}.
Arguments LWeighted {P E}.

#[export] Instance layer_ops {P E} `{RindexNodeParser P} `{BooleanExecutor E} :
    BooleanExecutor (Layer P E) := {
  current_node l := match l with
    | LTerm t => current_node t | LAnd a => current_node a
    | LOr a => current_node a | LWeighted a => current_node a end;
  current_id l := match l with
    | LTerm t => current_id t | LAnd a => current_id a
    | LOr a => current_id a | LWeighted a => current_id a end;
  next l := match l with
    | LTerm t => LTerm <$> next t | LAnd a => LAnd <$> next a
    | LOr a => LOr <$> next a | LWeighted a => LWeighted <$> next a end;
  advance x l := match l with
    | LTerm t => LTerm <$> advance x t | LAnd a => LAnd <$> advance x a
    | LOr a => LOr <$> advance x a | LWeighted a => LWeighted <$> advance x a end;
  update_node f l := match l with
    | LTerm t => LTerm (update_node f t) | LAnd a => LAnd (update_node f a)
    | LOr a => LOr (update_node f a) | LWeighted a => LWeighted (update_node f a) end;
  size l := match l with
    | LTerm t => size t | LAnd a => size a | LOr a => size a | LWeighted a => size a end
}.

(** Trees with at most [n] inner nodes on a path. *)
Fixpoint Exec (P : Type) (n : nat) : Type :=
  match n with
  | O => TermBooleanExecutor P
  | S n => Layer P (Exec P n)
  end.

#[export] Instance exec_ops {P} `{RindexNodeParser P} (n : nat) : BooleanExecutor (Exec P n) :=
  (fix go n : BooleanExecutor (Exec P n) :=
     match n with
     | O => term_ops
     | S n => let _ := go n in layer_ops
     end) n.

(** ** Logical queries *)

Inductive NodeType : Type := AND | OR | WEIGHT | TERM.

Inductive ExecutorNode : Type :=
  mk_exec_node (type : NodeType) (merge_func : MergeFuncT) (term : bytes)
    (sub_nodes : list ExecutorNode).

Section Query.
Context {P : Type} `{RindexNodeParser P}.

(** [Schema::executor_type], and a new parser for a term. *)
Context (executor_type : bool_executor_type) (init_parser : bytes -> option P).

Definition parse_term_node (term : bytes) : option (TermBooleanExecutor P) :=
  p ← init_parser term;
  Some (term_executor executor_type p).

Definition and_or_add_subnode {E} (op : OperatorBooleanExecutor E) (subs : list (option E)) :
    OperatorBooleanExecutor E :=
  foldl (fun op sub => match sub with Some e => add_clause op e | None => op end) op subs.

Definition weight_add_subnode {E} `{BooleanExecutor E} (op : OperatorBooleanExecutor E)
    (subs : list (option E)) : option (OperatorBooleanExecutor E) :=
  match subs with
  | [] => Some op
  | must :: subs =>
      let op := match must with Some e => add_must op e | None => op end in
      foldl (fun op sub =>
               op ← op;
               match sub with Some e => add_not_must op e | None => Some op end) (Some op) subs
  end.

(** [parse_executor_node] and [parse_op_node]; the inner option is the pointer
    they return, the outer one fails for a tree deeper than [n]. *)
Fixpoint parse_executor_node (n : nat) (node : ExecutorNode) : option (option (Exec P n)) :=
  let '(mk_exec_node type merge_func term sub_nodes) := node in
  match n with
  | O =>
      match type with
      | TERM => Some <$> parse_term_node term
      | _ => match sub_nodes with [] => Some None | _ => None end
      end
  | S n =>
      match type with
      | TERM => (fun t => Some (LTerm t)) <$> parse_term_node term
      | _ =>
          match sub_nodes with
          | [] => Some None
          | _ =>
              subs ← mapM (parse_executor_node n) sub_nodes;
              let op := new_operator executor_type merge_func in
              match type with
              | AND => Some (Some (LAnd (mk_and (and_or_add_subnode op subs))))
              | OR => Some (Some (LOr (mk_or (and_or_add_subnode op subs))))
              | _ => (fun op => Some (LWeighted (mk_weighted op))) <$> weight_add_subnode op subs
              end
          end
      end
  end.

End Query.

(** [SchemaBase::valid]: moves on to the next node that is not deleted. *)
Fixpoint schema_valid {E} `{BooleanExecutor E} (fuel : nat) (e : E) : option (bool * E) :=
  match fuel with
  | O => None
  | S fuel =>
      e ← next e;
      match current_node e with
      | Some n =>
          if bool_decide (flag n = REVERSE_NODE_NORMAL) then Some (true, e) else schema_valid fuel e
      | None => Some (false, e)
      end
  end.

(** The keys a caller reads while [valid]. *)
Fixpoint read_all {E} `{BooleanExecutor E} (fuel : nat) (e : E) : option (list bytes) :=
  match fuel with
  | O => None
  | S fuel =>
      '(ok, e) ← schema_valid fuel e;
      if negb ok then Some []
      else
        n ← current_node e;
        l ← read_all fuel e;
        Some (key n :: l)
  end.

(** ** Reference *)

(** What a query selects, given the ids of every term; [None] for a node without
    an executor. *)
Fixpoint node_ids (postings : bytes -> list bytes) (node : ExecutorNode) : option (list bytes) :=
  let '(mk_exec_node type _ term sub_nodes) := node in
  match type with
  | TERM => Some (postings term)
  | _ =>
      match sub_nodes with
      | [] => None
      | first :: _ =>
          match type with
          | AND => Some (inter (omap (node_ids postings) sub_nodes))
          | OR => Some (union (omap (node_ids postings) sub_nodes))
          | _ => Some (default [] (node_ids postings first))
          end
      end
  end.

(** The inner nodes on a longest path. *)
Fixpoint depth (node : ExecutorNode) : nat :=
  let '(mk_exec_node type _ _ sub_nodes) := node in
  match type with
  | TERM => 0
  | _ => match sub_nodes with [] => 0 | _ => S (list_max (depth <$> sub_nodes)) end
  end%nat.

(** The leaves and the merge functions of a query satisfy a property each. *)
Inductive query_ok (term_ok : bytes -> Prop) (merge_ok : MergeFuncT -> Prop) : ExecutorNode -> Prop :=
  | query_term m t subs : term_ok t -> query_ok term_ok merge_ok (mk_exec_node TERM m t subs)
  | query_op type m t subs : type <> TERM -> merge_ok m -> Forall (query_ok term_ok merge_ok) subs ->
      query_ok term_ok merge_ok (mk_exec_node type m t subs).

(** ** Correctness *)

Section Laws.
Context {P E : Type} {pops : RindexNodeParser P} {plaws : ParserLaws P}
  {ops : BooleanExecutor E} {laws : ExecutorLaws E}.

Definition layer_wf (l : Layer P E) : Prop :=
  match l with LTerm t => wf t | LAnd a => wf a | LOr a => wf a | LWeighted a => wf a end.

Definition layer_started (l : Layer P E) : bool :=
  match l with
  | LTerm t => started t | LAnd a => started a | LOr a => started a | LWeighted a => started a
  end.

Definition layer_ids (l : Layer P E) : list bytes :=
  match l with LTerm t => ids t | LAnd a => ids a | LOr a => ids a | LWeighted a => ids a end.

#[export] Program Instance layer_laws : ExecutorLaws (Layer P E) := {
  wf := layer_wf;
  started := layer_started;
  ids := layer_ids
}.
Next Obligation. intros [t|a|a|a] Hw; exact (ids_sorted _ Hw). Qed.
Next Obligation. intros [t|a|a|a] Hw; exact (ids_size _ Hw). Qed.
Next Obligation. intros [t|a|a|a] Hw; exact (current_id_spec _ Hw). Qed.
Next Obligation. intros [t|a|a|a] Hw; exact (current_node_spec _ Hw). Qed.
Next Obligation.
  intros [t|a|a|a] Hw; destruct (next_spec _ Hw) as (e' & E0 & ?); cbn [next layer_ops];
    rewrite E0; eexists; (split; [done|]); done.
Qed.
Next Obligation.
  intros x [t|a|a|a] Hw; destruct (advance_spec x _ Hw) as (e' & E0 & ?); cbn [advance layer_ops];
    rewrite E0; eexists; (split; [done|]); done.
Qed.
Next Obligation. intros f [t|a|a|a] Hw Hf; exact (update_spec f _ Hw Hf). Qed.

End Laws.

#[export] Instance exec_laws {P} {pops : RindexNodeParser P} {plaws : ParserLaws P} (n : nat) :
    ExecutorLaws (Exec P n) :=
  (fix go n : ExecutorLaws (Exec P n) :=
     match n with
     | O => term_laws
     | S n => let _ := go n in layer_laws
     end) n.

(** *** From a query to its tree *)

Section Parse.
Context {P : Type} {pops : RindexNodeParser P} {plaws : ParserLaws P}.
Context (ty : bool_executor_type) (init_parser : bytes -> option P) (postings : bytes -> list bytes).

(** The parser of a term walks the term's postings. *)
Definition leaf_ok (t : bytes) : Prop :=
  exists p, init_parser t = Some p /\ p_wf p /\ keys (live_nodes p) = postings t.

Definition merge_keeps (m : MergeFuncT) : Prop := forall from, keeps (fun to => m to from).

(** An executor for what a node selects, not yet moved. *)
Definition executes {E} `{ExecutorLaws E} (r : option E) (l : option (list bytes)) : Prop :=
  match r, l with
  | None, None => True
  | Some e, Some l => fresh e /\ ids e = l
  | _, _ => False
  end.

Lemma parse_term_spec t :
  leaf_ok t -> exists e, parse_term_node ty init_parser t = Some e /\ fresh e /\ ids e = postings t.
Proof.
  intros (p & Hp & Hwf & Hids). unfold parse_term_node. rewrite Hp. eexists. split; [done|].
  split; [|done]. split; [|done]. by split.
Qed.

Lemma add_subnodes {E} (op : OperatorBooleanExecutor E) subs :
  and_or_add_subnode op subs = set_subs op (o_sub_clauses op ++ omap id subs).
Proof.
  unfold and_or_add_subnode. revert op; induction subs as [|[e|] subs IH]; intros op; simpl.
  - rewrite app_nil_r. by destruct op.
  - rewrite IH. simpl. by rewrite <- app_assoc.
  - rewrite IH. done.
Qed.

Lemma executes_ids {E} `{ExecutorLaws E} rs ls :
  Forall2 executes rs ls ->
  Forall fresh (omap id rs) /\ ids <$> omap id rs = omap id ls.
Proof.
  induction 1 as [|r l rs ls Hr _ [IH1 IH2]]; [done|].
  destruct r as [e|], l as [l|]; try done; simpl.
  destruct Hr as [Hf <-]. split; [by constructor|]. cbn. by f_equal.
Qed.

Lemma fresh_split {E} `{ExecutorLaws E} (subs : list E) :
  Forall fresh subs -> Forall wf subs /\ Forall (eq false) (started <$> subs).
Proof.
  intros Hf. rewrite Forall_fmap. split; eapply Forall_impl; [exact Hf| |exact Hf|]; by intros e [].
Qed.

Lemma omap_id_fmap {A B} (f : A -> option B) (l : list A) : omap id (f <$> l) = omap f l.
Proof.
  induction l as [|x l IH]; [done|]. rewrite fmap_cons. cbn.
  destruct (f x); [f_equal|]; exact IH.
Qed.

(** Operators over children that are not yet moved. *)
Lemma new_operator_ok {E} `{ExecutorLaws E} m (subs : list E) :
  merge_keeps m -> Forall wf subs -> op_ok (set_subs (new_operator ty m) subs).
Proof. intros Hm Hw. split; [exact Hm|]. split; [done|]. by split. Qed.

Lemma parse_and {E} `{ExecutorLaws E} m rs ls :
  merge_keeps m -> Forall2 executes rs ls ->
  fresh (mk_and (and_or_add_subnode (new_operator ty m) (rs : list (option E)))) /\
  ids (mk_and (and_or_add_subnode (new_operator ty m) rs)) = inter (omap id ls).
Proof.
  intros Hm Hrs. destruct (executes_ids rs ls Hrs) as [Hf Ei]. apply fresh_split in Hf as [Hw Hst].
  rewrite add_subnodes. simpl. split; [split; [|done]|by rewrite <- Ei].
  split; [by apply new_operator_ok|done].
Qed.

Lemma parse_or {E} `{ExecutorLaws E} m rs ls :
  merge_keeps m -> Forall2 executes rs ls ->
  fresh (mk_or (and_or_add_subnode (new_operator ty m) (rs : list (option E)))) /\
  ids (mk_or (and_or_add_subnode (new_operator ty m) rs)) = union (omap id ls).
Proof.
  intros Hm Hrs. destruct (executes_ids rs ls Hrs) as [Hf Ei]. apply fresh_split in Hf as [Hw Hst].
  rewrite add_subnodes. simpl. split; [split; [|done]|by rewrite <- Ei].
  split; [by apply new_operator_ok|]. split; [split; by left|done].
Qed.

Lemma add_not_musts {E} `{ExecutorLaws E} (op : OperatorBooleanExecutor E) rs :
  Forall ready (o_sub_clauses op) -> Forall fresh (omap id rs) ->
  exists subs, Forall ready subs /\
    foldl (fun op sub =>
             op ← op;
             match sub with Some e => add_not_must op e | None => Some op end) (Some op) rs =
    Some (set_subs op subs).
Proof.
  revert op; induction rs as [|[e|] rs IH]; intros op Hr Hf.
  - exists (o_sub_clauses op). split; [done|]. by destruct op.
  - simpl in Hf. apply Forall_cons in Hf as [[He _] Hf]. cbn [foldl mbind option_bind].
    unfold add_not_must. destruct (next_spec e He) as (e' & -> & Hw & Hst & _).
    cbn [mbind option_bind]. destruct (IH (add_clause op e')) as (subs & Hs & E0); [|done|].
    { apply Forall_app. split; [done|]. by repeat constructor. }
    exists subs. split; [done|exact E0].
  - apply IH; done.
Qed.

Lemma parse_weight {E} `{ExecutorLaws E} m r rs l ls :
  merge_keeps m -> Forall2 executes (r :: rs) (l :: ls) ->
  exists op, weight_add_subnode (new_operator ty m) ((r :: rs) : list (option E)) = Some op /\
    fresh (mk_weighted op) /\ ids (mk_weighted op) = default [] l.
Proof.
  intros Hm Hrs. inversion Hrs as [|? ? ? ? Hr Hrest]; subst.
  destruct (executes_ids rs ls Hrest) as [Hf _]. unfold weight_add_subnode.
  set (op := match r with Some e => _ | None => _ end).
  destruct (add_not_musts op rs) as (subs & Hs & ->); [by destruct r|done|].
  eexists. split; [done|].
  assert (Hw : forall e, o_op_executor op = Some e -> fresh e).
  { unfold op. destruct r as [e|]; simpl; [|done]. intros ? [= <-]. destruct l; [apply Hr|done]. }
  split; [split|].
  - assert (Enull : o_is_null_flag op = false) by by unfold op; destruct r.
    split; [|cbn; rewrite Enull; intros e' He Hst; destruct (Hw e' He); congruence].
    split; [|split; [by unfold op; destruct r; split; left|split; [by unfold op; destruct r|done]]].
    split; [unfold op; by destruct r|]. split; [unfold op; by destruct r|].
    split; [by apply ready_wf|]. intros e' He. by apply (Hw e').
  - cbn. unfold weighted_started, op in *. destruct r as [e|]; [|done]. cbn in Hw |- *.
    by destruct (Hw e eq_refl).
  - cbn. unfold weighted_ids, op in *. destruct r as [e|], l as [l|]; try done. simpl. by destruct Hr.
Qed.

Lemma depth_sub type m t subs sub :
  type <> TERM -> sub ∈ subs -> (depth sub < depth (mk_exec_node type m t subs))%nat.
Proof.
  intros Ht Hsub. assert (Hd : (depth sub <= list_max (depth <$> subs))%nat).
  { pose proof (proj1 (list_max_le (depth <$> subs) _) (le_n _)) as Hall.
    rewrite List.Forall_forall in Hall. apply Hall. apply list_elem_of_In.
    by apply list_elem_of_fmap_2. }
  destruct type; [| | |done]; simpl; destruct subs; [by apply elem_of_nil in Hsub| |
    by apply elem_of_nil in Hsub| |by apply elem_of_nil in Hsub|]; lia.
Qed.

Lemma parse_subs n (subs : list ExecutorNode) :
  (forall sub, sub ∈ subs -> exists r, parse_executor_node ty init_parser n sub = Some r /\
     executes r (node_ids postings sub)) ->
  exists rs, mapM (parse_executor_node ty init_parser n) subs = Some rs /\
    Forall2 executes rs (node_ids postings <$> subs).
Proof.
  induction subs as [|sub subs IH]; intros Hs; [by exists []|].
  destruct (Hs sub) as (r & Er & Hr); [left|].
  destruct IH as (rs & Ers & Hrs); [intros; apply Hs; by right|].
  exists (r :: rs). split; [simpl; by rewrite Er, Ers|]. rewrite fmap_cons. by constructor.
Qed.

Lemma parse_correct n node :
  query_ok leaf_ok merge_keeps node -> (depth node <= n)%nat ->
  exists r, parse_executor_node ty init_parser n node = Some r /\ executes r (node_ids postings node).
Proof.
  revert node; induction n as [|n IH]; intros [type m t subs] Hok Hd.
  - inversion Hok as [? ? ? Ht|? ? ? ? Hty Hm Hs]; subst.
    + destruct (parse_term_spec t Ht) as (e & Ee & ?). exists (Some e). cbn. by rewrite Ee.
    + exists None. destruct type; [| | |done]; by destruct subs; [|simpl in Hd; lia].
  - inversion Hok as [? ? ? Ht|? ? ? ? Hty Hm Hs]; subst.
    + destruct (parse_term_spec t Ht) as (e & Ee & ?). exists (Some (LTerm e)). cbn. by rewrite Ee.
    + destruct subs as [|sub subs]; [exists None; by destruct type|].
      destruct (parse_subs n (sub :: subs)) as (rs & Ers & Hrs).
      { intros s Hin. apply IH; [by eapply Forall_forall in Hs|].
        pose proof (depth_sub type m t (sub :: subs) s Hty Hin). lia. }
      destruct type; [| | |done]; cbn [parse_executor_node node_ids].
      * rewrite Ers. cbn [mbind option_bind]. eexists. split; [done|].
        rewrite <- omap_id_fmap. apply (parse_and m rs _ Hm Hrs).
      * rewrite Ers. cbn [mbind option_bind]. eexists. split; [done|].
        rewrite <- omap_id_fmap. apply (parse_or m rs _ Hm Hrs).
      * rewrite Ers. cbn [mbind option_bind]. destruct rs as [|r rs]; [by inversion Hrs|].
        rewrite fmap_cons in Hrs. destruct (parse_weight m r rs _ _ Hm Hrs) as (op & Eop & Hf & Hi).
        rewrite Eop. eexists. split; [done|]. done.
Qed.

End Parse.

(** *** Reading the results *)

Lemma schema_valid_spec {E} `{ExecutorLaws E} fuel (e : E) :
  wf e -> (0 < fuel)%nat ->
  let l := if started e then tail (ids e) else ids e in
  exists e', ready e' /\ ids e' = l /\
    schema_valid fuel e = Some (bool_decide (l <> []), e').
Proof.
  intros Hw Hf l. destruct fuel as [|fuel]; [lia|]. cbn [schema_valid].
  destruct (next_spec e Hw) as (e' & -> & Hw' & Hst' & Hids'). cbn [mbind option_bind]. fold l in Hids'.
  assert (Hr : ready e') by by split. exists e'. split; [done|]. split; [done|].
  destruct (current_node e') as [n|] eqn:En.
  - destruct (ready_live e' n Hr En) as [Hh Hl]. rewrite bool_decide_eq_true_2 by done.
    rewrite bool_decide_eq_true_2; [done|]. intros El. by rewrite Hids', El in Hh.
  - apply (ready_null e' Hr) in En. rewrite bool_decide_eq_false_2; [done|].
    intros Hl. apply Hl. by rewrite <- Hids'.
Qed.

Lemma read_all_spec {E} `{ExecutorLaws E} fuel (e : E) :
  wf e -> let l := if started e then tail (ids e) else ids e in
  (length l + 2 <= fuel)%nat -> read_all fuel e = Some l.
Proof.
  revert e; induction fuel as [|fuel IH]; intros e Hw l Hf; [lia|]. cbn [read_all].
  destruct (schema_valid_spec fuel e Hw) as (e' & Hr & Hids & ->); [lia|]. fold l in Hids |- *.
  cbn [mbind option_bind]. destruct l as [|x l'] eqn:El; [done|].
  rewrite bool_decide_eq_true_2 by done. cbn [negb].
  pose proof (ready_node e' Hr) as En. rewrite Hids in En.
  destruct (current_node e') as [n|]; [|done]. cbn [mbind option_bind].
  destruct Hr as [Hw' Hst']. rewrite IH; rewrite ?Hst', ?Hids; [|done|simpl in *; lia].
  cbn [mbind option_bind tail]. by injection En as ->.
Qed.
