(* ===== verification/ReverseParser.v ===== *)
(** * Reading a posting list
      ([include/reverse/reverse_interface.h], [include/reverse/reverse_interface.hpp])

    A parser walks the merged first two levels and the third level of a term side
    by side, the newer node hiding the older, and jumps ahead with a doubling
    step and a binary search. *)

From Stdlib Require Import Sorted.
From stdpp Require Import gmap sorting.
From S2P Require Import Prelude Ordered ReverseList BoolExecutor BoolExecutorFacts.

(** ** Searching an array *)

(** [ReverseTrait::get_reverse_key]. *)
Definition get_reverse_key (l : list ReverseNode) (i : Z) : option bytes :=
  if i <? 0 then None else key <$> l !! Z.to_nat i.

(** [(uint32_t)-1]. *)
Definition NOT_FOUND : Z := 2 ^ 32 - 1.

(** The doubling loop; it ends within 32 rounds, as [j] passes [2^31]. *)
Fixpoint gallop (fuel : nat) (first off : Z) (target : bytes) (l : list ReverseNode) (j : Z) :
    option Z :=
  match fuel with
  | O => None
  | S fuel =>
      if j <=? off then
        k ← get_reverse_key l (u32 (first + j));
        match lex_compare target k with
        | Gt => gallop fuel first off target l (u32 (Z.shiftl j 1))
        | _ => Some j
        end
      else Some j
  end.

Fixpoint bisect (fuel : nat) (first last : Z) (target : bytes) (l : list ReverseNode) : option Z :=
  match fuel with
  | O => None
  | S fuel =>
      if first <? last then
        let mid := u32 (first + Z.shiftr (u32 (last - first)) 1) in
        k ← get_reverse_key l mid;
        match lex_compare target k with
        | Lt => bisect fuel first mid target l
        | Gt => bisect fuel (u32 (mid + 1)) last target l
        | Eq => Some mid
        end
      else Some first
  end.

Definition binary_search (first last : Z) (target : bytes) (l : list ReverseNode) : option Z :=
  if last <? first then Some NOT_FOUND
  else
    let off := u32 (last - first) in
    j ← gallop 33 first off target l 1;
    let last := u32 (first + (if off <? j then off else j)) in
    let first := u32 (first + Z.shiftr j 1) in
    k ← get_reverse_key l last;
    match lex_compare target k with
    | Gt => Some NOT_FOUND
    | _ => bisect 33 first last target l
    end.

(** ** The parser *)

(** Where [_curr_node] points. *)
Inductive NodeRef : Type := InNew (i : Z) | InOld (i : Z).

(** [_curr_id_new] and [_curr_id_old] are the keys at the two positions, which the
    code looks up again whenever it moves them. *)
Record Parser := mk_parser {
  new_list : list ReverseNode;
  old_list : list ReverseNode;
  curr_ix_new : Z;
  curr_ix_old : Z;
  cmp_res : Z;
  curr_node : option NodeRef;
  key_range : KeyRange
}.

Definition list_at (l : list ReverseNode) (i : Z) : option ReverseNode :=
  if i <? 0 then None else l !! Z.to_nat i.

Definition parser_node (p : Parser) : option ReverseNode :=
  match curr_node p with
  | None => None
  | Some (InNew i) => list_at (new_list p) i
  | Some (InOld i) => list_at (old_list p) i
  end.

(** The end of [next] and [advance]: which list is ahead at the positions. *)
Definition settle (p : Parser) (ix_new ix_old : Z) : option Parser :=
  let finish c n :=
    k ← get_reverse_key (match n with InNew _ => new_list p | InOld _ => old_list p end)
          (match n with InNew i | InOld i => i end);
    Some (mk_parser (new_list p) (old_list p) ix_new ix_old c
            (if above_range (key_range p) k then None else Some n) (key_range p)) in
  if negb (ix_new =? -1) && negb (ix_old =? -1) then
    a ← get_reverse_key (new_list p) ix_new;
    b ← get_reverse_key (old_list p) ix_old;
    let c := cmp_int (lex_compare a b) in
    finish c (if c <=? 0 then InNew ix_new else InOld ix_old)
  else if negb (ix_new =? -1) then finish (-1) (InNew ix_new)
  else if negb (ix_old =? -1) then finish 1 (InOld ix_old)
  else
    Some (mk_parser (new_list p) (old_list p) ix_new ix_old (cmp_res p) None (key_range p)).

Definition parser_next (p : Parser) : option Parser :=
  match curr_node p with
  | None => Some p
  | Some _ =>
      let ix_new := if cmp_res p <=? 0 then curr_ix_new p + 1 else curr_ix_new p in
      let ix_old := if cmp_res p <? 0 then curr_ix_old p else curr_ix_old p + 1 in
      let bound ix l := if (ix =? -1) || (Z.of_nat (length l) <=? ix) then -1 else ix in
      settle p (bound ix_new (new_list p)) (bound ix_old (old_list p))
  end.

Definition parser_advance (target : bytes) (p : Parser) : option Parser :=
  match curr_node p with
  | None => Some p
  | Some _ =>
      let search ix (l : list ReverseNode) :=
        if ix =? -1 then Some (-1)
        else i32 <$> binary_search ix (Z.of_nat (length l) - 1) target l in
      ix_new ← search (curr_ix_new p) (new_list p);
      ix_old ← search (curr_ix_old p) (old_list p);
      settle p ix_new ix_old
  end.

(** The positions after the lists were fetched. *)
Definition parser_start (r : KeyRange) (new old : list ReverseNode) : Parser :=
  let ix l := match l with [] => -1 | _ => 0 end in
  let c :=
    match new, old with
    | n :: _, o :: _ => cmp_int (lex_compare (key n) (key o))
    | _ :: _, [] => -1
    | [], _ => 1
    end in
  let node :=
    match new, old with
    | [], [] => None
    | _ :: _, [] => Some (InNew 0)
    | [], _ :: _ => Some (InOld 0)
    | _ :: _, _ :: _ => Some (if 0 <? c then InOld 0 else InNew 0)
    end in
  mk_parser new old (ix new) (ix old) c node r.

(** [init] for a term that has no parser yet; a second parser of a term starts as
    a copy of the first. *)
Definition parser_init (r : KeyRange) (new old : list ReverseNode) : option Parser :=
  let p := parser_start r new old in
  if bool_decide (r.1 = []) then Some p else parser_advance r.1 p.

(** Writing through [_curr_node]. *)
Definition parser_update (f : ReverseNode -> ReverseNode) (p : Parser) : Parser :=
  match curr_node p with
  | Some (InNew i) =>
      mk_parser (alter f (Z.to_nat i) (new_list p)) (old_list p) (curr_ix_new p) (curr_ix_old p)
        (cmp_res p) (curr_node p) (key_range p)
  | Some (InOld i) =>
      mk_parser (new_list p) (alter f (Z.to_nat i) (old_list p)) (curr_ix_new p) (curr_ix_old p)
        (cmp_res p) (curr_node p) (key_range p)
  | None => p
  end.

(** ** The search against the reference *)

Section Search.
Context (l : list ReverseNode).
Hypothesis l_sorted : sorted (keys l).
Hypothesis l_small : Z.of_nat (length l) < 2 ^ 31.

Lemma key_at i : 0 <= i < Z.of_nat (length l) -> exists k, get_reverse_key l i = Some k.
Proof.
  intros Hi. unfold get_reverse_key. rewrite (proj2 (Z.ltb_ge _ _)) by lia.
  destruct (lookup_lt_is_Some_2 l (Z.to_nat i)) as [n ->]; [lia|]. by eexists.
Qed.

Lemma get_reverse_key_lookup i k :
  get_reverse_key l i = Some k <-> 0 <= i /\ keys l !! Z.to_nat i = Some k.
Proof.
  unfold get_reverse_key, keys. rewrite list_lookup_fmap.
  destruct (Z.ltb_spec i 0); [|split; [done|tauto]]. split; [done|lia].
Qed.

Lemma key_at_lt i j a b :
  i < j -> get_reverse_key l i = Some a -> get_reverse_key l j = Some b -> bytes_lt a b.
Proof.
  rewrite !get_reverse_key_lookup. intros Hij [Hi Ha] [Hj Hb].
  by apply (sorted_lookup_lt (keys l) (Z.to_nat i) (Z.to_nat j)); [|lia|..].
Qed.

(** All keys before a position are below the target. *)
Definition below (target : bytes) (first i : Z) : Prop :=
  forall n k, first <= n < i -> get_reverse_key l n = Some k -> bytes_lt k target.

Lemma below_extend target first i k :
  0 <= first <= i -> get_reverse_key l i = Some k -> bytes_lt k target ->
  below target first (i + 1).
Proof.
  intros Hi Hk Hlt n k' Hn Hk'. destruct (decide (n = i)) as [->|]; [by simplify_eq|].
  assert (bytes_lt k' k) by by apply (key_at_lt n i); [lia|..]. by transitivity k.
Qed.

(** The position of the first key that is not below the target. *)
Definition first_at_least (target : bytes) (first i : Z) : Prop :=
  first <= i < Z.of_nat (length l) /\ below target first i /\
  exists k, get_reverse_key l i = Some k /\ ~ bytes_lt k target.

Lemma gallop_spec fuel first off target j :
  0 <= first -> first + off = Z.of_nat (length l) - 1 -> 0 <= off ->
  (exists e, 0 <= e <= 31 /\ j = 2 ^ e /\ 32 <= e + Z.of_nat fuel) ->
  (j = 1 \/ (j / 2 <= off /\ exists k, get_reverse_key l (first + j / 2) = Some k /\ bytes_lt k target)) ->
  exists j', gallop fuel first off target l j = Some j' /\
    (exists e, 0 <= e <= 31 /\ j' = 2 ^ e) /\
    (j' = 1 \/ (j' / 2 <= off /\
       exists k, get_reverse_key l (first + j' / 2) = Some k /\ bytes_lt k target)) /\
    (off < j' \/ (j' <= off /\ exists k, get_reverse_key l (first + j') = Some k /\ ~ bytes_lt k target)).
Proof.
  intros Hf Hoff Hoff0. revert j. induction fuel as [|fuel IH]; intros j (e & He & -> & Hfuel) Hj.
  { lia. }
  cbn [gallop]. destruct (Z.leb_spec (2 ^ e) off) as [Hle|Hgt]; [|by eexists; eauto 10].
  assert (0 < 2 ^ e) by lia.
  assert (He30 : e < 31). { apply (Z.pow_lt_mono_r_iff 2); lia. }
  destruct (key_at (first + 2 ^ e)) as [k Hk]; [lia|].
  rewrite (wrap_id 32 (first + 2 ^ e)) by (unfold is_u; lia). rewrite Hk. cbn [mbind option_bind].
  destruct (lex_compare target k) eqn:Hc.
  1, 2: exists (2 ^ e); repeat split; eauto; right; split; [lia|]; exists k; split; [done|].
  { apply lex_compare_eq in Hc. subst. apply bytes_lt_irrefl. }
  { by apply bytes_lt_asym. }
  apply bytes_lt_gt in Hc.
  assert (E : u32 (Z.shiftl (2 ^ e) 1) = 2 ^ (e + 1)).
  { rewrite Z.shiftl_mul_pow2, <- Z.pow_add_r by lia. apply wrap_id. split; [lia|].
    apply Z.pow_lt_mono_r; lia. }
  rewrite E. apply IH.
  - exists (e + 1). repeat split; lia.
  - right. rewrite Z.pow_add_r, Z.pow_1_r, Z.div_mul by lia. split; [done|]. eauto.
Qed.

Lemma bisect_spec fuel first0 first last target :
  0 <= first0 <= first -> first <= last < Z.of_nat (length l) ->
  last - first < 2 ^ (Z.of_nat fuel - 1) ->
  below target first0 first ->
  (exists k, get_reverse_key l last = Some k /\ ~ bytes_lt k target) ->
  exists i, bisect fuel first last target l = Some i /\ first_at_least target first0 i.
Proof.
  revert first last. induction fuel as [|fuel IH]; intros first last Hf Hl Hfuel Hb Hlast.
  { simpl in Hfuel. lia. }
  cbn [bisect]. destruct (Z.ltb_spec first last) as [Hlt|Hge].
  - set (mid := first + (last - first) / 2).
    assert (Hmid : first <= mid < last).
    { unfold mid. pose proof (Z.div_mod (last - first) 2). pose proof (Z.mod_pos_bound (last - first) 2).
      lia. }
    assert (Em : u32 (first + Z.shiftr (u32 (last - first)) 1) = mid).
    { rewrite (wrap_id 32 (last - first)) by (unfold is_u; lia).
      rewrite Z.shiftr_div_pow2 by lia. apply wrap_id. unfold is_u. fold mid. lia. }
    rewrite Em. destruct (key_at mid) as [k Hk]; [lia|]. rewrite Hk. cbn [mbind option_bind].
    assert (Hhalf : (last - first) / 2 < 2 ^ (Z.of_nat fuel - 1)).
    { destruct fuel as [|fuel]; [simpl in Hfuel; lia|].
      apply Z.div_lt_upper_bound; [lia|].
      replace (Z.of_nat (S (S fuel)) - 1) with (Z.succ (Z.of_nat (S fuel) - 1)) in Hfuel by lia.
      rewrite Z.pow_succ_r in Hfuel by lia. lia. }
    destruct (lex_compare target k) eqn:Hc.
    + apply lex_compare_eq in Hc. subst k. exists mid. split; [done|]. split; [lia|].
      split; [|exists target; split; [done|apply bytes_lt_irrefl]].
      intros n k' Hn Hk'. by apply (key_at_lt n mid); [lia|..].
    + apply IH; [lia|lia|unfold mid; lia|done|]. exists k. split; [done|]. by apply bytes_lt_asym.
    + apply bytes_lt_gt in Hc. rewrite (wrap_id 32 (mid + 1)) by (unfold is_u; lia).
      apply IH; [lia|lia| |by apply (below_extend _ _ _ k); [lia|..]|done].
      unfold mid. pose proof (Z.div_mod (last - first) 2). pose proof (Z.mod_pos_bound (last - first) 2).
      lia.
  - assert (first = last) as -> by lia. exists last. split; [done|]. repeat split; [lia|lia|done..].
Qed.

Lemma binary_search_correct first target :
  0 <= first < Z.of_nat (length l) ->
  exists r, binary_search first (Z.of_nat (length l) - 1) target l = Some r /\
    (first_at_least target first r \/
     (r = NOT_FOUND /\ below target first (Z.of_nat (length l)))).
Proof.
  intros Hf. set (len := Z.of_nat (length l)) in *. unfold binary_search.
  rewrite (proj2 (Z.ltb_ge _ _)) by lia.
  rewrite (wrap_id 32 (len - 1 - first)) by (unfold is_u; lia).
  remember (len - 1 - first) as off eqn:Hoff.
  destruct (gallop_spec 33 first off target 1) as (j & -> & (e & He & ->) & Hlow & Hhigh);
    [lia|lia|lia| |by left|].
  { exists 0. lia. }
  cbn [mbind option_bind]. assert (Hj : 1 <= 2 ^ e) by lia.
  assert (Hj31 : 2 ^ e <= 2 ^ 31) by (apply Z.pow_le_mono_r; lia).
  set (j := 2 ^ e) in *. rewrite Z.shiftr_div_pow2 by lia. change (2 ^ 1) with 2.
  set (top := first + (if off <? j then off else j)).
  assert (Htop : first <= top < len) by (unfold top; destruct (Z.ltb_spec off j); lia).
  rewrite (wrap_id 32 top) by (unfold is_u; lia).
  assert (Hh : 0 <= j / 2 /\ (j = 1 /\ j / 2 = 0 \/ j / 2 <= off)).
  { split; [apply Z.div_pos; lia|]. destruct Hlow as [->|[? _]]; [by left|by right]. }
  assert (Hlo : first <= first + j / 2 <= top).
  { unfold top. pose proof (Z.div_le_upper_bound j 2 j). destruct (Z.ltb_spec off j); lia. }
  rewrite (wrap_id 32 (first + j / 2)) by (unfold is_u; lia).
  assert (Hbelow : below target first (first + j / 2)).
  { destruct Hlow as [E|[_ (k & Hk & Hlt)]].
    - rewrite E. intros n k Hn. change (1 / 2) with 0 in Hn. lia.
    - intros n k' Hn Hk'. assert (bytes_lt k' k) by by apply (key_at_lt n (first + j / 2)); [lia|..].
      by transitivity k. }
  destruct (key_at top) as [k Hk]; [lia|]. rewrite Hk. cbn [mbind option_bind].
  destruct (decide (bytes_lt k target)) as [Hlt|Hge].
  - rewrite (proj2 (bytes_lt_gt target k)) by done. eexists. split; [done|]. right. split; [done|].
    (* the last key inspected is then the last of the list *)
    assert (top = len - 1).
    { unfold top in *. destruct (Z.ltb_spec off j); [lia|].
      destruct Hhigh as [?|[_ (k' & Hk' & ?)]]; [lia|]. by simplify_eq. }
    replace len with (top + 1) by lia. apply (below_extend _ _ _ k); [lia|done..].
  - destruct (bisect_spec 33 first (first + j / 2) top target) as (i & Hi & Hfirst);
      [lia|lia| |done|by exists k|].
    { change (2 ^ (Z.of_nat 33 - 1)) with (2 ^ 32). lia. }
    exists i. split; [|by left].
    destruct (lex_compare target k) eqn:Hc; [done|done|]. by apply bytes_lt_gt in Hc.
Qed.

End Search.

(** ** Lists of nodes by their keys *)

(** The nodes before the end of the region. *)
Definition upto (r : KeyRange) (l : list ReverseNode) : list ReverseNode :=
  filter (fun n => above_range r (key n) = false) l.

Lemma filter_keys_sorted (P : ReverseNode -> Prop) `{forall n, Decision (P n)} l :
  sorted (keys l) -> sorted (keys (filter P l)).
Proof. apply sorted_sublist, keys_sublist, sublist_filter. Qed.

Lemma sorted_nodes l :
  sorted (keys l) -> StronglySorted (fun a b => bytes_lt (key a) (key b)) l.
Proof.
  induction l as [|n l IH]; [constructor|]. rewrite keys_cons, sorted_cons. intros [Hn Hl].
  constructor; [by apply IH|]. unfold keys in Hn. by rewrite Forall_fmap in Hn.
Qed.

(** Sorted lists with the same nodes are the same list. *)
Lemma nodes_ext l1 l2 :
  sorted (keys l1) -> sorted (keys l2) -> nodes_map l1 = nodes_map l2 -> l1 = l2.
Proof.
  intros H1 H2 E.
  apply (StronglySorted_unique_strong (fun a b => bytes_lt (key a) (key b)));
    [|by apply sorted_nodes..|].
  - intros x y _ _ Hx Hy. by apply bytes_lt_asym in Hx.
  - apply NoDup_Permutation; [apply (NoDup_fmap_1 key), sorted_NoDup, H1|
      apply (NoDup_fmap_1 key), sorted_NoDup, H2|].
    intros x. pose proof (nodes_map_lookup l1 (key x) x H1) as L1.
    pose proof (nodes_map_lookup l2 (key x) x H2) as L2. rewrite E in L1. tauto.
Qed.

(** A filter on keys passes through a merge. *)
Lemma merge_filter_key (P : bytes -> Prop) `{forall k, Decision (P k)} new old :
  sorted (keys new) -> sorted (keys old) ->
  merge_nodes (filter (fun n => P (key n)) new) (filter (fun n => P (key n)) old) =
  filter (fun n => P (key n)) (merge_nodes new old).
Proof.
  intros Hn Ho. pose proof (merge_nodes_sorted new old Hn Ho).
  apply nodes_ext; [by apply merge_nodes_sorted; apply filter_keys_sorted|by apply filter_keys_sorted|].
  rewrite nodes_map_merge by by apply filter_keys_sorted.
  rewrite !nodes_map_filter, nodes_map_merge by done.
  assert (Hkey : forall l k n, sorted (keys l) -> nodes_map l !! k = Some n -> key n = k).
  { intros l k n Hl Hk. by apply nodes_map_lookup in Hk as []. }
  apply map_eq. intros k. apply option_eq. intros n.
  rewrite map_lookup_filter_Some, !lookup_union_Some_raw, !map_lookup_filter_Some,
    map_lookup_filter_None. simpl. split.
  - intros [[? ?]|[[Hnone|Hout] [? ?]]]; [by eauto..|].
    split; [|done]. right. split; [|done].
    destruct (nodes_map new !! k) as [m|] eqn:Em; [|done].
    destruct (Hout m eq_refl). rewrite (Hkey new k m Hn Em). by rewrite <- (Hkey old k n).
  - intros [[?|[? ?]] ?]; [by left|]. right. split; [by left|done].
Qed.

Lemma from_merge target new old :
  sorted (keys new) -> sorted (keys old) ->
  merge_nodes (from target new) (from target old) = from target (merge_nodes new old).
Proof. exact (merge_filter_key (fun k => ~ bytes_lt k target) new old). Qed.

Lemma filter_from_drop target l i n :
  sorted (keys l) -> (forall j m, (j < i)%nat -> l !! j = Some m -> bytes_lt (key m) target) ->
  l !! i = Some n -> ~ bytes_lt (key n) target -> from target l = drop i l.
Proof.
  intros Hs Hb Hn Hge. unfold from. rewrite <- (take_drop i l) at 1. rewrite filter_app.
  rewrite (list_filter_none _ (take i l)), list_filter_all; [done|..].
  - intros m [j Hj]%list_elem_of_lookup_1. rewrite lookup_drop in Hj.
    destruct j as [|j]; [rewrite Nat.add_0_r in Hj; by simplify_eq|].
    intros Hlt. apply Hge.
    assert (bytes_lt (key n) (key m)).
    { apply (sorted_lookup_lt (keys l) i (i + S j)); [done|lia|..];
        unfold keys; rewrite list_lookup_fmap; [by rewrite Hn|by rewrite Hj]. }
    by transitivity (key m).
  - intros m [j Hj]%list_elem_of_lookup_1. apply lookup_take_Some in Hj as [Hj ?].
    intros Hno. apply Hno. by apply (Hb j).
Qed.

(** ** The parser as a cursor over the merged lists *)

Definition rest (ix : Z) (l : list ReverseNode) : list ReverseNode :=
  if ix =? -1 then [] else drop (Z.to_nat ix) l.

Definition position_ok (ix : Z) (l : list ReverseNode) : Prop :=
  ix = -1 \/ 0 <= ix < Z.of_nat (length l).

Definition list_ok (l : list ReverseNode) : Prop :=
  sorted (keys l) /\ Z.of_nat (length l) < 2 ^ 31.

(** What [_cmp_res] and [_curr_node] are for two positions. *)
Definition settled (p : Parser) (ix_new ix_old : Z) : Prop :=
  match rest ix_new (new_list p), rest ix_old (old_list p) with
  | n :: _, o :: _ =>
      cmp_res p = cmp_int (lex_compare (key n) (key o)) /\
      curr_node p = Some (if cmp_res p <=? 0 then InNew ix_new else InOld ix_old)
  | _ :: _, [] => cmp_res p = -1 /\ curr_node p = Some (InNew ix_new)
  | [], _ :: _ => cmp_res p = 1 /\ curr_node p = Some (InOld ix_old)
  | [], [] => False
  end.

Definition merged (p : Parser) : list ReverseNode :=
  merge_nodes (rest (curr_ix_new p) (new_list p)) (rest (curr_ix_old p) (old_list p)).

(** The nodes from the current one to the end of the region. *)
Definition parser_nodes (p : Parser) : list ReverseNode :=
  match curr_node p with
  | None => []
  | Some _ => upto (key_range p) (merged p)
  end.

Record parser_wf (p : Parser) : Prop := {
  wf_new : list_ok (new_list p);
  wf_old : list_ok (old_list p);
  wf_ix_new : position_ok (curr_ix_new p) (new_list p);
  wf_ix_old : position_ok (curr_ix_old p) (old_list p);
  wf_node : is_Some (curr_node p) -> settled p (curr_ix_new p) (curr_ix_old p);
  wf_in_range n : parser_node p = Some n -> above_range (key_range p) (key n) = false
}.

Lemma rest_sorted ix l : sorted (keys l) -> sorted (keys (rest ix l)).
Proof.
  intros. unfold rest. case_match; [apply sorted_nil|].
  eapply sorted_sublist; [apply keys_sublist, sublist_drop|done].
Qed.

Lemma rest_head ix l :
  position_ok ix l -> ix <> -1 ->
  exists n, l !! Z.to_nat ix = Some n /\ rest ix l = n :: drop (S (Z.to_nat ix)) l.
Proof.
  intros [->|Hix] Hne; [done|]. unfold rest. rewrite (proj2 (Z.eqb_neq _ _)) by done.
  destruct (lookup_lt_is_Some_2 l (Z.to_nat ix)) as [n Hn]; [lia|].
  exists n. split; [done|]. by apply drop_S.
Qed.

Lemma rest_nil ix l : position_ok ix l -> rest ix l = [] <-> ix = -1.
Proof.
  intros Hp. split; [|intros ->; done]. intros E.
  destruct (decide (ix = -1)) as [|Hne]; [done|].
  destruct (rest_head ix l Hp Hne) as (n & _ & E'). by rewrite E' in E.
Qed.

Lemma list_at_rest ix l n l' :
  position_ok ix l -> rest ix l = n :: l' -> list_at l ix = Some n /\ get_reverse_key l ix = Some (key n).
Proof.
  intros Hp E. assert (Hne : ix <> -1) by (intros ->; done).
  destruct (rest_head ix l Hp Hne) as (m & Hm & E'). rewrite E in E'. injection E' as <- ->.
  destruct Hp as [?|Hp]; [done|]. unfold list_at, get_reverse_key.
  rewrite (proj2 (Z.ltb_ge _ _)) by lia. by rewrite Hm.
Qed.

Lemma cmp_int_le c : (cmp_int c <=? 0) = match c with Gt => false | _ => true end.
Proof. by destruct c. Qed.

(** The head of the merge is where the comparison points. *)
Lemma settled_head p :
  position_ok (curr_ix_new p) (new_list p) -> position_ok (curr_ix_old p) (old_list p) ->
  settled p (curr_ix_new p) (curr_ix_old p) ->
  exists n, parser_node p = Some n /\ head (merged p) = Some n.
Proof.
  intros Hpn Hpo Hs. unfold settled, merged, parser_node in *.
  destruct (rest (curr_ix_new p) (new_list p)) as [|n ln] eqn:En,
    (rest (curr_ix_old p) (old_list p)) as [|o lo] eqn:Eo; [done|..].
  - destruct Hs as [_ ->]. apply list_at_rest in Eo as [-> _]; [|done]. by exists o.
  - destruct Hs as [_ ->]. apply list_at_rest in En as [-> _]; [|done]. by exists n.
  - destruct Hs as [-> ->]. apply list_at_rest in En as [En _]; [|done].
    apply list_at_rest in Eo as [Eo _]; [|done]. rewrite cmp_int_le, merge_nodes_cons.
    destruct (lex_compare (key n) (key o)); eauto.
Qed.

Lemma upto_above r n l :
  sorted (keys (n :: l)) -> above_range r (key n) = true -> upto r (n :: l) = [].
Proof.
  intros Hs Ha. apply list_filter_none. intros m [->|Hm]%elem_of_cons; [by rewrite Ha|].
  assert (Hlt : bytes_lt (key n) (key m)).
  { apply (sorted_head_lt _ _ (keys l)); [done|]. by apply list_elem_of_fmap_2. }
  unfold above_range in *. apply andb_true_iff in Ha as [-> Ha]. simpl.
  apply negb_true_iff, bytes_ltb_false in Ha.
  rewrite (proj2 (bytes_ltb_false _ _)); [done|]. intros Hlt2. apply Ha. by transitivity (key m).
Qed.

Lemma settle_spec p ix_new ix_old :
  list_ok (new_list p) -> list_ok (old_list p) ->
  position_ok ix_new (new_list p) -> position_ok ix_old (old_list p) ->
  exists p', settle p ix_new ix_old = Some p' /\ parser_wf p' /\ key_range p' = key_range p /\
    parser_nodes p' =
    upto (key_range p) (merge_nodes (rest ix_new (new_list p)) (rest ix_old (old_list p))).
Proof.
  intros Hln Hlo Hpn Hpo.
  set (m := merge_nodes (rest ix_new (new_list p)) (rest ix_old (old_list p))).
  assert (Hm : sorted (keys m)) by (apply merge_nodes_sorted; apply rest_sorted; apply Hln || apply Hlo).
  (* the state at the end of the function, for the node chosen *)
  assert (Hfin : forall c ref k,
    let p' := mk_parser (new_list p) (old_list p) ix_new ix_old c (Some ref) (key_range p) in
    settled p' ix_new ix_old ->
    (exists n, parser_node p' = Some n /\ key n = k) ->
    let p'' := mk_parser (new_list p) (old_list p) ix_new ix_old c
      (if above_range (key_range p) k then None else Some ref) (key_range p) in
    parser_wf p'' /\ key_range p'' = key_range p /\ parser_nodes p'' = upto (key_range p) m).
  { intros c ref k p' Hset (n & Hn & <-) p''.
    destruct (settled_head p' Hpn Hpo Hset) as (n' & Hn' & Hh). rewrite Hn in Hn'. injection Hn' as <-.
    change (merged p') with m in Hh. unfold p''. destruct (above_range (key_range p) (key n)) eqn:Ha.
    - split; [|split; [done|]].
      + split; try done. intros [? ?]; done.
      + unfold parser_nodes. simpl. destruct m as [|n' m'] eqn:Em; [done|]. simplify_eq/=.
        symmetry. by apply upto_above.
    - split; [|split; done]. split; try done. intros n' Hn'.
      change (parser_node p' = Some n') in Hn'. rewrite Hn in Hn'. by injection Hn' as <-. }
  unfold settle. 
  destruct (decide (ix_new = -1)) as [En|En], (decide (ix_old = -1)) as [Eo|Eo].
  - subst. simpl. eexists. split; [done|]. split; [|done]. split; try done.  intros [? ?]; done.
  - subst ix_new. rewrite (proj2 (Z.eqb_neq ix_old (-1))) by done. simpl.
    destruct (rest_head ix_old _ Hpo Eo) as (o & _ & Er).
    destruct (list_at_rest _ _ _ _ Hpo Er) as [Ha Hk]. rewrite Hk. simpl.
    eexists. split; [done|]. apply Hfin; [|by exists o].
    unfold settled. simpl. by rewrite Er.
  - subst ix_old. rewrite (proj2 (Z.eqb_neq ix_new (-1))) by done. simpl.
    destruct (rest_head ix_new _ Hpn En) as (n & _ & Er).
    destruct (list_at_rest _ _ _ _ Hpn Er) as [Ha Hk]. rewrite Hk. simpl.
    eexists. split; [done|]. apply Hfin; [|by exists n].
    unfold settled. simpl. by rewrite Er.
  - rewrite !(proj2 (Z.eqb_neq _ (-1))) by done. simpl.
    destruct (rest_head ix_new _ Hpn En) as (n & _ & Er).
    destruct (list_at_rest _ _ _ _ Hpn Er) as [Ha Hk].
    destruct (rest_head ix_old _ Hpo Eo) as (o & _ & Er').
    destruct (list_at_rest _ _ _ _ Hpo Er') as [Ha' Hk']. rewrite Hk, Hk'. simpl.
    rewrite cmp_int_le.
    destruct (lex_compare (key n) (key o)) eqn:Hc; rewrite ?Hk, ?Hk'; simpl;
      (eexists; split; [done|]; apply Hfin; [|eauto]);
      unfold settled; simpl; rewrite Er, Er', Hc; done.
Qed.

Definition next_position (ix : Z) (l : list ReverseNode) : Z :=
  if (ix =? -1) || (Z.of_nat (length l) <=? ix) then -1 else ix.

Lemma rest_step ix l n l' :
  position_ok ix l -> rest ix l = n :: l' ->
  position_ok (next_position (ix + 1) l) l /\ rest (next_position (ix + 1) l) l = l'.
Proof.
  intros Hp E. assert (Hne : ix <> -1) by (intros ->; done).
  destruct (rest_head ix l Hp Hne) as (m & _ & E'). rewrite E in E'. injection E' as _ ->.
  destruct Hp as [?|Hp]; [done|]. unfold next_position.
  rewrite (proj2 (Z.eqb_neq (ix + 1) (-1))) by lia. simpl.
  destruct (Z.leb_spec (Z.of_nat (length l)) (ix + 1)).
  - split; [by left|]. symmetry. apply drop_ge. lia.
  - split; [right; lia|]. unfold rest. rewrite (proj2 (Z.eqb_neq (ix + 1) (-1))) by lia.
    f_equal. lia.
Qed.

Lemma position_stay ix l : position_ok ix l -> next_position ix l = ix.
Proof.
  unfold next_position. intros [->|Hp]; [done|].
  rewrite (proj2 (Z.eqb_neq _ _)), (proj2 (Z.leb_gt _ _)) by lia. done.
Qed.

Lemma upto_tail r n l : above_range r (key n) = false -> upto r l = tail (upto r (n :: l)).
Proof. intros Hn. unfold upto. by rewrite filter_cons_True. Qed.

Lemma parser_nodes_head p : parser_wf p -> parser_node p = head (parser_nodes p).
Proof.
  intros []. unfold parser_nodes. destruct (curr_node p) as [ref|] eqn:Ec.
  - destruct (settled_head p) as (n & Hn & Hh); [done..|by apply wf_node0|].
    rewrite Hn. destruct (merged p) as [|m l]; [done|]. injection Hh as ->.
    unfold upto. rewrite filter_cons_True; [done|]. by apply wf_in_range0.
  - unfold parser_node. by rewrite Ec.
Qed.

Lemma parser_next_spec p :
  parser_wf p ->
  exists p', parser_next p = Some p' /\ parser_wf p' /\ parser_nodes p' = tail (parser_nodes p).
Proof.
  intros Hwf. pose proof Hwf as []. unfold parser_next.
  destruct (curr_node p) as [ref|] eqn:Ec.
  2: { exists p. unfold parser_nodes. by rewrite Ec. }
  assert (Hset : settled p (curr_ix_new p) (curr_ix_old p)) by by apply wf_node0.
  destruct (settled_head p) as (x & Hx & Hh); [done..|]. apply wf_in_range0 in Hx.
  unfold parser_nodes. rewrite Ec.
  fold (next_position (if cmp_res p <=? 0 then curr_ix_new p + 1 else curr_ix_new p) (new_list p)).
  fold (next_position (if cmp_res p <? 0 then curr_ix_old p else curr_ix_old p + 1) (old_list p)).
  set (ixn := next_position _ (new_list p)). set (ixo := next_position _ (old_list p)).
  assert (Hgoal : position_ok ixn (new_list p) /\ position_ok ixo (old_list p) /\
    merge_nodes (rest ixn (new_list p)) (rest ixo (old_list p)) = tail (merged p)).
  { unfold settled, merged in *.
    destruct (rest (curr_ix_new p) (new_list p)) as [|n ln] eqn:En,
      (rest (curr_ix_old p) (old_list p)) as [|o lo] eqn:Eo; [done|..].
    - destruct Hset as [Hc _]. subst ixn ixo. rewrite Hc. simpl.
      rewrite (position_stay (curr_ix_new p)) by done.
      destruct (rest_step _ _ _ _ wf_ix_old0 Eo) as [? ->]. by rewrite En.
    - destruct Hset as [Hc _]. subst ixn ixo. rewrite Hc. simpl.
      rewrite (position_stay (curr_ix_old p)) by done.
      destruct (rest_step _ _ _ _ wf_ix_new0 En) as [? ->]. rewrite Eo. by rewrite merge_nodes_nil_r.
    - destruct Hset as [Hc _]. subst ixn ixo. rewrite Hc, merge_nodes_cons.
      destruct (rest_step _ _ _ _ wf_ix_old0 Eo) as [? Ero].
      destruct (rest_step _ _ _ _ wf_ix_new0 En) as [? Ern].
      destruct (lex_compare (key n) (key o)); simpl;
        rewrite ?(position_stay (curr_ix_new p)), ?(position_stay (curr_ix_old p)),
          ?Ern, ?Ero, ?En, ?Eo by done; done. }
  destruct Hgoal as (Hn & Ho & Hm).
  destruct (settle_spec p ixn ixo) as (p' & -> & Hwf' & _ & Hnodes); [done..|].
  exists p'. split; [done|]. split; [done|]. unfold parser_nodes in Hnodes.
  rewrite Hnodes, Hm. destruct (merged p) as [|y l]; [done|]. injection Hh as ->.
  by rewrite (upto_tail _ x l).
Qed.

Definition search_from (target : bytes) (ix : Z) (l : list ReverseNode) : option Z :=
  if ix =? -1 then Some (-1) else i32 <$> binary_search ix (Z.of_nat (length l) - 1) target l.

Lemma search_from_spec target ix l :
  list_ok l -> position_ok ix l ->
  exists ix', search_from target ix l = Some ix' /\ position_ok ix' l /\
    rest ix' l = from target (rest ix l).
Proof.
  intros [Hs Hlen] Hp. unfold search_from. destruct (Z.eqb_spec ix (-1)) as [->|Hne].
  { exists (-1). split; [done|]. by split; [left|]. }
  destruct Hp as [?|Hp]; [done|].
  assert (Hix : rest ix l = drop (Z.to_nat ix) l).
  { unfold rest. by rewrite (proj2 (Z.eqb_neq _ _)). }
  assert (Hsd : sorted (keys (drop (Z.to_nat ix) l))) by (rewrite <- Hix; by apply rest_sorted).
  assert (Hkey : forall j m, l !! j = Some m -> get_reverse_key l (Z.of_nat j) = Some (key m)).
  { intros j m Hj. unfold get_reverse_key. rewrite (proj2 (Z.ltb_ge _ _)), Nat2Z.id, Hj by lia. done. }
  destruct (binary_search_correct l Hs Hlen ix target Hp) as (r & -> & [Hfirst|[-> Hb]]).
  - destruct Hfirst as (Hr & Hb & k & Hk & Hge).
    exists r. split; [simpl; f_equal; apply swrap_id; unfold is_i; lia|]. split; [right; lia|].
    unfold rest at 1. rewrite (proj2 (Z.eqb_neq r (-1))) by lia. rewrite Hix.
    destruct (lookup_lt_is_Some_2 l (Z.to_nat r)) as [n Hn]; [lia|].
    rewrite (filter_from_drop target _ (Z.to_nat r - Z.to_nat ix) n); [|done| | |].
    + rewrite drop_drop. f_equal. lia.
    + intros j m Hj Hm. rewrite lookup_drop in Hm.
      apply (Hb (Z.of_nat (Z.to_nat ix + j))); [lia|by apply Hkey].
    + rewrite lookup_drop. by rewrite <- Hn; f_equal; lia.
    + apply Hkey in Hn. rewrite Z2Nat.id in Hn by lia. by simplify_eq.
  - exists (-1). split; [done|]. split; [by left|]. rewrite Hix. symmetry.
    apply list_filter_none. intros m [j Hj]%list_elem_of_lookup_1 Hno. rewrite lookup_drop in Hj.
    apply Hno, (Hb (Z.of_nat (Z.to_nat ix + j))); [|by apply Hkey].
    pose proof (lookup_lt_Some _ _ _ Hj). lia.
Qed.

Lemma parser_advance_spec target p :
  parser_wf p ->
  exists p', parser_advance target p = Some p' /\ parser_wf p' /\
    parser_nodes p' = from target (parser_nodes p).
Proof.
  intros Hwf. pose proof Hwf as []. unfold parser_advance, parser_nodes.
  destruct (curr_node p) as [ref|] eqn:Ec.
  2: { exists p. by rewrite Ec. }
  fold (search_from target (curr_ix_new p) (new_list p)).
  fold (search_from target (curr_ix_old p) (old_list p)).
  destruct (search_from_spec target (curr_ix_new p) (new_list p)) as (ixn & -> & Hn & En); [done..|].
  destruct (search_from_spec target (curr_ix_old p) (old_list p)) as (ixo & -> & Ho & Eo); [done..|].
  cbn [mbind option_bind].
  destruct (settle_spec p ixn ixo) as (p' & -> & Hwf' & _ & Hnodes); [done..|].
  exists p'. split; [done|]. split; [done|]. unfold parser_nodes in Hnodes. rewrite Hnodes, En, Eo.
  rewrite from_merge by (apply rest_sorted; apply wf_new0 || apply wf_old0).
  unfold from, upto, merged. rewrite !list_filter_filter. apply list_filter_iff. tauto.
Qed.

(** ** Writing weights *)

Lemma kf_keys (l1 l2 : list ReverseNode) : kf <$> l1 = kf <$> l2 -> keys l1 = keys l2.
Proof.
  intros E. unfold keys. apply (f_equal (fmap fst)) in E. rewrite <- !list_fmap_compose in E. exact E.
Qed.

Lemma kf_filter (P : bytes -> Prop) `{forall k, Decision (P k)} (l1 l2 : list ReverseNode) :
  kf <$> l1 = kf <$> l2 ->
  kf <$> filter (fun n => P (key n)) l1 = kf <$> filter (fun n => P (key n)) l2.
Proof.
  revert l2; induction l1 as [|n l1 IH]; intros [|m l2] E; try done.
  rewrite !fmap_cons in E. injection E as Ek Ef E. rewrite !filter_cons, Ek.
  case_decide; [|by apply IH]. rewrite !fmap_cons, (IH l2) by done. unfold kf. by rewrite Ek, Ef.
Qed.

Lemma kf_merge (a a' b b' : list ReverseNode) :
  kf <$> a = kf <$> a' -> kf <$> b = kf <$> b' ->
  kf <$> merge_nodes a b = kf <$> merge_nodes a' b'.
Proof.
  revert a b a' b'. apply (merge_ind (fun a b => forall a' b', kf <$> a = kf <$> a' ->
    kf <$> b = kf <$> b' -> kf <$> merge_nodes a b = kf <$> merge_nodes a' b')).
  - by intros old [|] b' E1 E2.
  - by intros n new [|m a'] [|] E1 E2.
  - intros n new o old E IH [|n' new'] [|o' old'] E1 E2; try done.
    rewrite !fmap_cons in E1, E2. injection E1 as Ek1 Ef1 E1. injection E2 as Ek2 Ef2 E2.
    rewrite !merge_nodes_cons, <- Ek1, <- Ek2, E, !fmap_cons. f_equal; [unfold kf; congruence|].
    apply IH; [done|]. rewrite !fmap_cons, E2. f_equal. unfold kf. congruence.
  - intros n new o old E IH [|n' new'] [|o' old'] E1 E2; try done.
    rewrite !fmap_cons in E1, E2. injection E1 as Ek1 Ef1 E1. injection E2 as Ek2 Ef2 E2.
    rewrite !merge_nodes_cons, <- Ek1, <- Ek2, E, !fmap_cons. f_equal; [unfold kf; congruence|].
    apply IH; [|done]. rewrite !fmap_cons, E1. f_equal. unfold kf. congruence.
  - intros n new o old E IH [|n' new'] [|o' old'] E1 E2; try done.
    rewrite !fmap_cons in E1, E2. injection E1 as Ek1 Ef1 E1. injection E2 as Ek2 Ef2 E2.
    rewrite !merge_nodes_cons, <- Ek1, <- Ek2, E, lex_compare_refl, !fmap_cons.
    f_equal; [unfold kf; congruence|]. by apply IH.
Qed.

Lemma kf_rest ix (l l' : list ReverseNode) : kf <$> l = kf <$> l' -> kf <$> rest ix l = kf <$> rest ix l'.
Proof. intros E. unfold rest. case_match; [done|]. by rewrite !fmap_drop, E. Qed.

Lemma kf_alter f i (l : list ReverseNode) : keeps f -> kf <$> alter f i l = kf <$> l.
Proof.
  intros Hf. revert i; induction l as [|n l IH]; intros [|i]; try done.
  - change (kf (f n) :: (kf <$> l) = kf n :: (kf <$> l)). f_equal. unfold kf.
    by destruct (Hf n) as [-> ->].
  - change (kf n :: (kf <$> alter f i l) = kf n :: (kf <$> l)). by rewrite IH.
Qed.

(** A parser over lists with other weights. *)
Definition reweighted (p p' : Parser) : Prop :=
  kf <$> new_list p' = kf <$> new_list p /\ kf <$> old_list p' = kf <$> old_list p /\
  curr_ix_new p' = curr_ix_new p /\ curr_ix_old p' = curr_ix_old p /\
  cmp_res p' = cmp_res p /\ curr_node p' = curr_node p /\ key_range p' = key_range p.

Lemma update_reweighted f p : keeps f -> reweighted p (parser_update f p).
Proof.
  intros Hf. unfold parser_update. destruct (curr_node p) as [[i|i]|] eqn:Ec; [| |done];
    unfold reweighted; simpl; rewrite (kf_alter f) by done; by rewrite ?Ec.
Qed.

Lemma kf_list_ok (l l' : list ReverseNode) : kf <$> l' = kf <$> l -> list_ok l -> list_ok l'.
Proof.
  intros E [? ?]. unfold list_ok. rewrite (kf_keys _ _ E). split; [done|].
  apply (f_equal length) in E. rewrite !length_fmap in E. by rewrite E.
Qed.

Lemma kf_position (l l' : list ReverseNode) ix : kf <$> l' = kf <$> l -> position_ok ix l -> position_ok ix l'.
Proof. intros E. unfold position_ok. apply (f_equal length) in E. rewrite !length_fmap in E. by rewrite E. Qed.

Lemma reweighted_node p p' n :
  reweighted p p' -> parser_node p' = Some n -> exists m, parser_node p = Some m /\ key m = key n.
Proof.
  intros (En & Eo & _ & _ & _ & Ec & _). unfold parser_node. rewrite Ec.
  assert (Hlist : forall l l' i, kf <$> l' = kf <$> l -> list_at l' i = Some n ->
    exists m, list_at l i = Some m /\ key m = key n).
  { intros l l' i E. unfold list_at. case_match; [done|]. intros Hn.
    assert (Hk : (kf <$> l) !! Z.to_nat i = Some (kf n)) by by rewrite <- E, list_lookup_fmap, Hn.
    apply list_lookup_fmap_Some in Hk as (m & Em & Hm). exists m. unfold kf in Em. split; [done|congruence]. }
  destruct (curr_node p) as [[i|i]|]; [by apply Hlist..|done].
Qed.

Lemma reweighted_wf p p' : parser_wf p -> reweighted p p' -> parser_wf p'.
Proof.
  intros Hwf Hr. pose proof Hr as (En & Eo & Ein & Eio & Ecmp & Ec & Er). pose proof Hwf as [].
  split.
  - by apply (kf_list_ok (new_list p)).
  - by apply (kf_list_ok (old_list p)).
  - rewrite Ein. by apply (kf_position (new_list p)).
  - rewrite Eio. by apply (kf_position (old_list p)).
  - rewrite Ec, Ein, Eio. intros Hs. specialize (wf_node0 Hs). unfold settled in *.
    pose proof (kf_rest (curr_ix_new p) _ _ En) as E1. pose proof (kf_rest (curr_ix_old p) _ _ Eo) as E2.
    rewrite Ecmp, Ec.
    destruct (rest (curr_ix_new p) (new_list p')), (rest (curr_ix_new p) (new_list p)),
      (rest (curr_ix_old p) (old_list p')), (rest (curr_ix_old p) (old_list p)); try done.
    rewrite !fmap_cons in E1, E2. injection E1 as Ek1 _ _. injection E2 as Ek2 _ _.
    by rewrite Ek1, Ek2.
  - intros n Hn. destruct (reweighted_node p p' n Hr Hn) as (m & Hm & <-). rewrite Er. eauto.
Qed.

Lemma reweighted_nodes p p' : reweighted p p' -> kf <$> parser_nodes p' = kf <$> parser_nodes p.
Proof.
  intros (En & Eo & Ein & Eio & _ & Ec & Er). unfold parser_nodes. rewrite Ec, Er.
  destruct (curr_node p); [|done]. unfold upto.
  refine (kf_filter (fun k => above_range (key_range p) k = false) (merged p') (merged p) _).
  unfold merged. rewrite Ein, Eio. by apply kf_merge; apply kf_rest.
Qed.

(** ** The parser as a cursor *)

#[export] Instance parser_ops : RindexNodeParser Parser := {
  p_current_node := parser_node;
  p_next := parser_next;
  p_advance := parser_advance;
  p_update := parser_update;
  p_size p := (length (new_list p) + length (old_list p))%nat
}.

Lemma parser_nodes_size p : (length (parser_nodes p) <= length (new_list p) + length (old_list p))%nat.
Proof.
  unfold parser_nodes. case_match; [|simpl; lia]. unfold upto. etransitivity; [apply length_filter|].
  unfold merged. etransitivity; [apply length_merge_nodes|].
  assert (Hr : forall ix l, (length (rest ix l) <= length l)%nat).
  { intros ix l. unfold rest. case_match; [simpl; lia|]. rewrite length_drop. lia. }
  pose proof (Hr (curr_ix_new p) (new_list p)). pose proof (Hr (curr_ix_old p) (old_list p)). lia.
Qed.

Lemma parser_nodes_sorted p : parser_wf p -> sorted (keys (parser_nodes p)).
Proof.
  intros []. unfold parser_nodes. case_match; [|apply sorted_nil].
  apply filter_keys_sorted, merge_nodes_sorted; apply rest_sorted; [apply wf_new0|apply wf_old0].
Qed.

#[export] Program Instance parser_laws : ParserLaws Parser := {
  p_wf := parser_wf;
  p_nodes := parser_nodes
}.
Next Obligation. apply parser_nodes_sorted. Qed.
Next Obligation. apply parser_nodes_head. Qed.
Next Obligation. apply parser_next_spec. Qed.
Next Obligation. apply parser_advance_spec. Qed.
Next Obligation.
  intros f p Hwf Hf. pose proof (update_reweighted f p Hf) as Hr.
  split; [by apply (reweighted_wf p)|by apply reweighted_nodes].
Qed.
Next Obligation. intros p _. apply parser_nodes_size. Qed.

(** ** Starting *)

(** The nodes of a term that a search may return: the newer ones hide the older,
    and only the region's count. *)
Definition visible (r : KeyRange) (new old : list ReverseNode) : list ReverseNode :=
  ranged r (merge_nodes new old).

Lemma start_settled r new old :
  list_ok new -> list_ok old -> let p := parser_start r new old in
  position_ok (curr_ix_new p) new /\ position_ok (curr_ix_old p) old /\
  (is_Some (curr_node p) -> settled p (curr_ix_new p) (curr_ix_old p)) /\
  (curr_node p = None <-> merge_nodes new old = []) /\
  rest (curr_ix_new p) new = new /\ rest (curr_ix_old p) old = old.
Proof.
  intros Hn Ho. destruct new as [|n new], old as [|o old]; simpl.
  - split; [by left|]. split; [by left|]. split; [by intros [? ?]|done].
  - split; [by left|]. split; [right; simpl; lia|]. done.
  - split; [right; simpl; lia|]. split; [by left|]. done.
  - split; [right; simpl; lia|]. split; [right; simpl; lia|].
    split; [|split; [|done]].
    + intros _. unfold settled. simpl. split; [done|]. by destruct (lex_compare (key n) (key o)).
    + split; [done|]. by destruct (lex_compare (key n) (key o)).
Qed.

Lemma below_range_nonempty r k : r.1 <> [] -> below_range r k = bytes_ltb k r.1.
Proof. intros Hr. unfold below_range. by rewrite bool_decide_eq_false_2. Qed.

(** After [init] the parser walks exactly the visible nodes.  A region without a
    lower bound needs its first node to be in range, since [init] does not look. *)
Lemma parser_init_spec r new old :
  list_ok new -> list_ok old ->
  (r.1 = [] -> forall n, head (merge_nodes new old) = Some n -> above_range r (key n) = false) ->
  exists p, parser_init r new old = Some p /\ parser_wf p /\ parser_nodes p = visible r new old.
Proof.
  intros Hn Ho Hfirst. unfold parser_init.
  destruct (start_settled r new old Hn Ho) as (Hpn & Hpo & Hset & Hnone & Ern & Ero).
  set (p := parser_start r new old) in *.
  assert (Hm : merged p = merge_nodes new old) by exact (f_equal2 merge_nodes Ern Ero).
  assert (Hsm : sorted (keys (merge_nodes new old))) by (apply merge_nodes_sorted; [apply Hn|apply Ho]).
  destruct (bool_decide (r.1 = [])) eqn:Er.
  - apply bool_decide_eq_true in Er. specialize (Hfirst Er).
    assert (Hwf : parser_wf p).
    { split; try done. intros n Hnode. apply Hfirst. destruct (curr_node p) eqn:Ec.
      - destruct (settled_head p Hpn Hpo) as (n' & Hn' & Hh); [by apply Hset|].
        rewrite Hm in Hh. congruence.
      - unfold parser_node in Hnode. by rewrite Ec in Hnode. }
    exists p. split; [done|]. split; [done|].
    assert (Evis : visible r new old = upto r (merge_nodes new old)).
    { unfold visible, ranged, upto. apply list_filter_iff. intros n. unfold in_key_range, below_range.
      rewrite Er. simpl. tauto. }
    rewrite Evis. unfold parser_nodes. rewrite Hm. destruct (curr_node p) eqn:Ec; [done|].
    by rewrite (proj1 Hnone).
  - apply bool_decide_eq_false in Er. unfold parser_advance.
    assert (Evis : visible r new old = upto r (from r.1 (merge_nodes new old))).
    { unfold visible, ranged, upto, from. rewrite list_filter_filter. apply list_filter_iff. intros n.
      unfold in_key_range. rewrite below_range_nonempty, bytes_ltb_false by done. tauto. }
    destruct (curr_node p) as [ref|] eqn:Ec.
    + change (new_list p) with new. change (old_list p) with old.
      fold (search_from r.1 (curr_ix_new p) new). fold (search_from r.1 (curr_ix_old p) old).
      destruct (search_from_spec r.1 (curr_ix_new p) new Hn Hpn) as (ixn & -> & Hpn' & Ein).
      destruct (search_from_spec r.1 (curr_ix_old p) old Ho Hpo) as (ixo & -> & Hpo' & Eio).
      cbn [mbind option_bind].
      destruct (settle_spec p ixn ixo) as (p' & -> & Hwf & _ & Hnodes); [done..|].
      exists p'. split; [done|]. split; [done|]. rewrite Hnodes, Evis.
      change (new_list p) with new. change (old_list p) with old.
      rewrite Ein, Eio, Ern, Ero, from_merge by apply Hn || apply Ho. done.
    + exists p. split; [done|]. split.
      * split; try done; [by intros [? ?]; congruence|].
        intros n Hnode. unfold parser_node in Hnode. by rewrite Ec in Hnode.
      * rewrite Evis, (proj1 Hnone) by done. unfold parser_nodes. by rewrite Ec.
Qed.
