(* ===== verification/ReverseIndex.v ===== *)
(** * The levels of a full-text index in the store
      ([include/reverse/reverse_index.h] and [.hpp], [include/reverse/reverse_common.hpp],
      [src/reverse/reverse_common.cpp])

    Writes add single nodes to the first level of a term; a background merge moves
    them into the list of the second level and, when that is long, into the third;
    reads put the levels together. *)

From stdpp Require Import gmap.
From S2P Require Import Prelude KeyEncoder KvStore TableKey Ordered ReverseList LruCache.

(** ** What the messages become in the store

    Nodes and lists are protobuf messages or Arrow batches. *)

Class ReverseCodec := {
  node_serialize : ReverseNode -> option bytes;
  node_parse : bytes -> option ReverseNode;
  list_serialize : list ReverseNode -> option bytes;
  list_parse : bytes -> option (list ReverseNode)
}.

Class ReverseCodecLaws `{ReverseCodec} := {
  node_parse_serialize n v : node_serialize n = Some v -> node_parse v = Some n;
  list_parse_serialize l v : list_serialize l = Some v -> list_parse v = Some l
}.

(** The pairs an iterator has still to visit, the current one first. *)
Abbreviation Iterator := (list (bytes * bytes)).

Section Index.
Context {host : Host} {codec : ReverseCodec}.
Context {D : Type} {db : RocksDb D}.
Context {L : Type} {ll : LinkedList L}.

(** ** Keys *)

(** What identifies an index in the store. *)
Record IndexId := mk_index_id {
  region_id : Z;
  index_id : Z
}.

(** [_reverse_prefix]. *)
Definition reverse_prefix : Z := 1.

Definition create_reverse_key_prefix (ix : IndexId) (level : Z) : bytes :=
  mem_store 8 (to_endian_u64 (encode_i64 (region_id ix))) ++
  mem_store 8 (to_endian_u64 (encode_i64 (index_id ix))) ++
  mem_store 1 (u8 level).

(** A list of the second or the third level. *)
Definition term_key (ix : IndexId) (level : Z) (term : bytes) : bytes :=
  create_reverse_key_prefix ix level ++ term.

(** A node of the first level. *)
Definition first_key (ix : IndexId) (term pk : bytes) (time : Z) : bytes :=
  create_reverse_key_prefix ix reverse_prefix ++ term ++ [0] ++ pk ++ [0] ++
  mem_store 8 (to_endian_u64 (encode_i64 time)).

(** A [Slice] indexed past its end is [None]. *)
Definition get_level_from_reverse_key (k : bytes) : option Z := k !! 16%nat.

Definition get_term_from_reverse_key (k : bytes) : option bytes := c_str (drop 17 k).

Definition is_prefix_end (it : Iterator) (level : Z) : res bool :=
  match it with
  | [] => Ok true
  | (k, _) :: _ =>
      l ← deref (get_level_from_reverse_key k);
      Ok (negb (level =? l))
  end.

(** The prefix extractor of the column family takes 16 bytes. *)
Definition DATA_PREFIX : nat := 16.

(** An iterator from the prefix on, below [iterate_upper_bound]. *)
Definition end_key (prefix : bytes) : bytes := prefix ++ mem_store 8 (2 ^ 64 - 1).

Definition bounded_scan (d : D) (prefix : bytes) : Iterator :=
  filter (fun kv => bytes_lt kv.1 (end_key prefix)) (db_scan d DATA_PREFIX prefix).

(** ** The first level as an iterator *)

(** [fl_txn] is the transaction, absent when the pointer is null. *)
Record FirstLevelMSIterator := mk_first {
  fl_iter : Iterator;
  fl_prefix : Z;
  fl_key_range : KeyRange;
  fl_merge_term : bytes;
  fl_del : bool;
  fl_txn : option D;
  fl_first : bool;
  fl_curr_node : ReverseNode;
  fl_node_dq : list ReverseNode;
  fl_need_next : bool
}.

Definition first_iterator (it : Iterator) (prefix : Z) (r : KeyRange) (term : bytes) (del : bool)
    (txn : option D) : FirstLevelMSIterator :=
  mk_first it prefix r term del txn true default_node [] true.

Definition first_move (fi : FirstLevelMSIterator) (it : Iterator) (txn : option D) :
    FirstLevelMSIterator :=
  mk_first it (fl_prefix fi) (fl_key_range fi) (fl_merge_term fi) (fl_del fi) txn false
    (fl_curr_node fi) (fl_node_dq fi) (fl_need_next fi).

Section First.
(** Whether [GetForUpdate] gets the lock of a key in time. *)
Context (lock_ok : bytes -> bool).

(** The loop of [internal_next] from the current pair on. *)
Fixpoint internal_loop (fi : FirstLevelMSIterator) (it : Iterator) (txn : option D) :
    res (FirstLevelMSIterator * option ReverseNode) :=
  match it with
  | [] => Ok (first_move fi [] txn, None)
  | (k, _) :: rest =>
      level ← deref (get_level_from_reverse_key k);
      if negb (fl_prefix fi =? level) then Ok (first_move fi it txn, None)
      else
        term ← deref (get_term_from_reverse_key k);
        if negb (bool_decide (term = fl_merge_term fi)) then Ok (first_move fi it txn, None)
        else
          d ← deref txn;
          if negb (lock_ok k) then Failed
          else
            match v ← db_get d k; node_parse v with
            | None => Failed
            | Some node =>
                let d := if fl_del fi then db_delete d k else d in
                if below_range (fl_key_range fi) (key node) || above_range (fl_key_range fi) (key node)
                then internal_loop fi rest (Some d)
                else Ok (first_move fi it (Some d), Some node)
            end
  end.

Definition internal_next (fi : FirstLevelMSIterator) :
    res (FirstLevelMSIterator * option ReverseNode) :=
  internal_loop fi (if fl_first fi then fl_iter fi else tail (fl_iter fi)) (fl_txn fi).

Definition set_dq (fi : FirstLevelMSIterator) (dq : list ReverseNode) (need_next : bool) :
    FirstLevelMSIterator :=
  mk_first (fl_iter fi) (fl_prefix fi) (fl_key_range fi) (fl_merge_term fi) (fl_del fi) (fl_txn fi)
    (fl_first fi) (fl_curr_node fi) dq need_next.

(** The loop that fills the queue with two keys; a key seen again replaces the node. *)
Fixpoint fill_dq (fuel : nat) (fi : FirstLevelMSIterator) : res FirstLevelMSIterator :=
  match fuel with
  | O => NoFuel
  | S fuel =>
      if fl_need_next fi && (Z.of_nat (length (fl_node_dq fi)) <? 2) then
        '(fi, node) ← internal_next fi;
        match node with
        | None => Ok (set_dq fi (fl_node_dq fi) false)
        | Some node =>
            match last (fl_node_dq fi) with
            | None => fill_dq fuel (set_dq fi [node] true)
            | Some back =>
                if bool_decide (key node = key back) then
                  fill_dq fuel (set_dq fi (removelast (fl_node_dq fi) ++ [node]) true)
                else Ok (set_dq fi (fl_node_dq fi ++ [node]) true)
            end
        end
      else Ok fi
  end.

Definition first_pop (fi : FirstLevelMSIterator) : res (FirstLevelMSIterator * option bytes) :=
  let pop node dq :=
    Ok (mk_first (fl_iter fi) (fl_prefix fi) (fl_key_range fi) (fl_merge_term fi) (fl_del fi)
          (fl_txn fi) (fl_first fi) node dq (fl_need_next fi), Some (key node)) in
  match fl_node_dq fi with
  | front :: next :: dq => pop front (next :: dq)
  | [front] => if fl_need_next fi then Ok (fi, Some []) else pop front []
  | [] => Ok (fi, if fl_need_next fi then Some [] else None)
  end.

Definition first_next (fi : FirstLevelMSIterator) : res (FirstLevelMSIterator * option bytes) :=
  fi ← fill_dq (2 + length (fl_iter fi)) fi;
  first_pop fi.

Definition first_ms : MergeSortIterator FirstLevelMSIterator := {|
  ms_next := first_next;
  ms_value fi := Some (fl_curr_node fi)
|}.

End First.

(** ** The index *)

Record ReverseIndex := mk_reverse_index {
  ri_id : IndexId;
  second_level_length : Z;
  is_over_cache : bool;
  cached_list_length : Z;
  ri_key_range : KeyRange;
  write_count : Z;
  level_1_scan_count : Z;
  ri_cache : Cache L bytes (list ReverseNode);
  cache_keys : list bytes
}.

Definition set_merge_state (ri : ReverseIndex) (count : Z) (ks : list bytes) : ReverseIndex :=
  mk_reverse_index (ri_id ri) (second_level_length ri) (is_over_cache ri) (cached_list_length ri)
    (ri_key_range ri) (write_count ri) count (ri_cache ri) ks.

Definition set_cache (ri : ReverseIndex) (c : Cache L bytes (list ReverseNode)) : ReverseIndex :=
  mk_reverse_index (ri_id ri) (second_level_length ri) (is_over_cache ri) (cached_list_length ri)
    (ri_key_range ri) (write_count ri) (level_1_scan_count ri) c (cache_keys ri).

Definition start_merge (ri : ReverseIndex) (r : KeyRange) : ReverseIndex :=
  mk_reverse_index (ri_id ri) (second_level_length ri) (is_over_cache ri) (cached_list_length ri)
    r (write_count ri) (level_1_scan_count ri) (ri_cache ri) (cache_keys ri).

Definition reset_counts (ri : ReverseIndex) : ReverseIndex :=
  mk_reverse_index (ri_id ri) (second_level_length ri) (is_over_cache ri) (cached_list_length ri)
    (ri_key_range ri) 0 0 (ri_cache ri) (cache_keys ri).

(** A new index: it merges once, and its range is everything until the first merge. *)
Definition new_reverse_index (ix : IndexId) (length : Z) (over_cache : bool) (cache_size cached_length : Z) :
    ReverseIndex :=
  mk_reverse_index ix length over_cache cached_length ([], []) 1 0
    (if over_cache then cache_init cache_size new_cache else new_cache) [].

Definition add_write_count (ri : ReverseIndex) : ReverseIndex :=
  mk_reverse_index (ri_id ri) (second_level_length ri) (is_over_cache ri) (cached_list_length ri)
    (ri_key_range ri) (i64 (write_count ri + 1)) (level_1_scan_count ri) (ri_cache ri) (cache_keys ri).

(** ** Reading a list *)

(** The list of a level without the cache, empty when there is none; [get_ok] is
    false for an error other than not found. *)
Definition read_level (ix : IndexId) (get_ok : bool) (level : Z) (term : bytes) (d : D) :
    res (list ReverseNode) :=
  if negb get_ok then Failed
  else
    match db_get d (term_key ix level term) with
    | None => Ok []
    | Some v => match list_parse v with Some l => Ok l | None => Failed end
    end.

(** [_get_level_reverse_list] with the cache, as the third level is read; the list
    stays empty when the call fails.  First the part after the cache was asked. *)
Definition load_level (ri : ReverseIndex) (get_ok : bool) (k : bytes) (d : D) :
    res (list ReverseNode * ReverseIndex) :=
  if negb get_ok then Ok ([], ri)
  else
    match v ← db_get d k; list_parse v with
    | None => Ok ([], ri)
    | Some l =>
        if is_over_cache ri && (cached_list_length ri <=? Z.of_nat (length l)) then
          c ← deref (cache_add k l (ri_cache ri));
          Ok (l, set_cache ri c)
        else Ok (l, ri)
    end.

Definition get_level_cached (ri : ReverseIndex) (get_ok : bool) (level : Z) (term : bytes) (d : D) :
    res (list ReverseNode * ReverseIndex) :=
  let k := term_key (ri_id ri) level term in
  if is_over_cache ri then
    '(found, c) ← deref (cache_find k (ri_cache ri));
    let ri := set_cache ri c in
    match found with
    | Some l => Ok (l, ri)
    | None => load_level ri get_ok k d
    end
  else load_level ri get_ok k d.

Definition or_empty (r : res (list ReverseNode)) : res (list ReverseNode) :=
  match r with Failed => Ok [] | _ => r end.

(** [get_reverse_list_two]: the newer and the older list of a term.  Without [is_fast]
    the first level is merged in, through an iterator that has no transaction; what
    [level_merge] returns is not looked at. *)
Definition get_reverse_list_two (ri : ReverseIndex) (get_ok : Z -> bool) (is_fast : bool)
    (term : bytes) (d : D) : res (list ReverseNode * list ReverseNode * ReverseIndex) :=
  let ix := ri_id ri in
  new ←
    (second ← or_empty (read_level ix (get_ok 2) 2 term d);
     if is_fast then Ok second
     else
       let k := term_key ix reverse_prefix term in
       let it := db_scan d DATA_PREFIX k in
       let fi := first_iterator it reverse_prefix (ri_key_range ri) term false None in
       let _ := first_ms (fun _ => true) in
       '(l, _, _) ←
         level_merge (2 + length it + length second) false fi
           (second_iterator second (ri_key_range ri));
       Ok l);
  '(old, ri) ← get_level_cached ri (get_ok 3) 3 term d;
  Ok (new, old, ri).

(** ** Writing *)

(** [None] is the error code; [put_ok] the status of the write. *)
Definition insert_one_reverse_node (ix : IndexId) (put_ok : bool) (time : Z) (term : bytes)
    (node : ReverseNode) (d : D) : option D :=
  v ← node_serialize node;
  if put_ok then Some (db_put d (first_key ix term (key node) time) v) else None.

Fixpoint insert_nodes (ix : IndexId) (put_ok : bytes -> bool) (time : bytes -> Z)
    (nodes : list (bytes * ReverseNode)) (d : D) : option D :=
  match nodes with
  | [] => Some d
  | (term, node) :: nodes =>
      d ← insert_one_reverse_node ix (put_ok term) (time term) term node d;
      insert_nodes ix put_ok time nodes d
  end.

(** ** Dropping what is outside the region *)

(** How the calls of the store end for one key. *)
Record RemoveStatus := mk_remove_status {
  rs_write : bool;
  rs_commit : bool
}.

(** The test that skips a list whose ends are in the range. *)
Definition ends_in_range (r : KeyRange) (l : list ReverseNode) : bool :=
  match head l, last l with
  | Some first, Some last =>
      negb (bytes_ltb (key first) r.1) && (end_key_compare (key last) r.2 <? 0)
  | _, _ => false
  end.

(** One round; the result is the return code, when the loop ends here, and the
    store. *)
Definition remove_round (r : KeyRange) (st : RemoveStatus) (kv : bytes * bytes) (d : D) :
    res (option Z * D) :=
  let '(k, v) := kv in
  if (Z.of_nat (length k) <=? 17) then Ok (None, d)
  else
    match list_parse v with
    | None => Ok (Some (-1), d)
    | Some third =>
        if ends_in_range r third then Ok (None, d)
        else
          match
            level_merge (S (length third)) false (second_iterator [] r) (second_iterator third r)
          with
          | Ok (l, _, _) =>
              if (0 <? Z.of_nat (length third)) && (Z.of_nat (length l) =? Z.of_nat (length third))
              then Ok (None, d)
              else
                match list_serialize l with
                | None => Ok (Some (-1), d)
                | Some v' =>
                    if rs_write st && rs_commit st then
                      Ok (None, match l with [] => db_delete d k | _ => db_put d k v' end)
                    else Ok (Some (-1), d)
                end
          | Failed => Ok (Some (-1), d)
          | Undefined => Undefined
          | NoFuel => NoFuel
          end
    end.

(** [_reverse_remove_range_for_third_level] after the seek. *)
Fixpoint remove_loop (r : KeyRange) (prefix : Z) (st : bytes -> RemoveStatus) (it : Iterator) (d : D) :
    res (Z * D) :=
  match it with
  | [] => Ok (0, d)
  | kv :: rest =>
      over ← is_prefix_end it prefix;
      if over : bool then Ok (0, d)
      else
        '(ret, d) ← remove_round r (st kv.1) kv d;
        match ret with
        | Some code => Ok (code, d)
        | None => remove_loop r prefix st rest d
        end
  end.

Definition reverse_remove_range_for_third_level (ri : ReverseIndex) (prefix : Z)
    (st : bytes -> RemoveStatus) (d : D) : res (Z * D) :=
  remove_loop (ri_key_range ri) prefix st
    (bounded_scan d (create_reverse_key_prefix (ri_id ri) prefix)) d.

(** ** Merging the first level into the second, and that into the third *)

(** How the calls of the store end while one term is merged. *)
Record MergeStatus := mk_merge_status {
  ms_lock : bytes -> bool;
  ms_get2 : bool;
  ms_put2 : bool;
  ms_commit2 : bool;
  ms_get3 : bool;
  ms_write3 : bool;
  ms_delete2 : bool;
  ms_commit3 : bool
}.

(** The return code, the store, the iterator and the index. *)
Record MergeOut := mk_merge_out {
  mo_ret : Z;
  mo_db : D;
  mo_iter : Iterator;
  mo_index : ReverseIndex
}.

(** The second transaction, for a second level that has become long. *)
Definition merge_to_third_level (ri : ReverseIndex) (st : MergeStatus) (term : bytes)
    (second : list ReverseNode) (d : D) (it : Iterator) : res MergeOut :=
  let r := ri_key_range ri in
  let k3 := term_key (ri_id ri) 3 term in
  let error := Ok (mk_merge_out (-1) d it ri) in
  match read_level (ri_id ri) (ms_get3 st) 3 term d with
  | Ok third =>
      match
        level_merge (S (length second + length third)) true (second_iterator second r)
          (second_iterator third r)
      with
      | Ok (l, _, _) =>
          match list_serialize l with
          | None => error
          | Some v =>
              if ms_write3 st && ms_delete2 st && ms_commit3 st then
                let d := match l with [] => db_delete d k3 | _ => db_put d k3 v end in
                let d := db_delete d (term_key (ri_id ri) 2 term) in
                Ok (mk_merge_out 0 d it
                      (if is_over_cache ri then
                         set_merge_state ri (level_1_scan_count ri) (cache_keys ri ++ [k3])
                       else ri))
              else error
          end
      | Failed => error
      | Undefined => Undefined
      | NoFuel => NoFuel
      end
  | Failed => error
  | Undefined => Undefined
  | NoFuel => NoFuel
  end.

Definition reverse_merge_to_second_level (ri : ReverseIndex) (prefix : Z) (st : MergeStatus)
    (it : Iterator) (d : D) : res MergeOut :=
  over ← is_prefix_end it prefix;
  if over : bool then Ok (mk_merge_out 1 d it ri)
  else
    let r := ri_key_range ri in
    let error := Ok (mk_merge_out (-1) d it ri) in
    '(k, _) ← deref (head it);
    term ← deref (get_term_from_reverse_key k);
    match read_level (ri_id ri) (ms_get2 st) 2 term d with
    | Ok second =>
        let fi := first_iterator it prefix r term true (Some d) in
        let _ := first_ms (ms_lock st) in
        match
          level_merge (2 + length it + length second) false fi (second_iterator second r)
        with
        | Ok (l, fi, _) =>
            let count := i64 (level_1_scan_count ri + Z.of_nat (length l) - Z.of_nat (length second)) in
            let ri := set_merge_state ri count (cache_keys ri) in
            match list_serialize l with
            | None => Ok (mk_merge_out (-1) d it ri)
            | Some v =>
                d' ← deref (fl_txn fi);
                let d' := db_put d' (term_key (ri_id ri) 2 term) v in
                if negb (ms_put2 st && ms_commit2 st) then Ok (mk_merge_out (-1) d it ri)
                else if second_level_length ri <=? Z.of_nat (length l) then
                  merge_to_third_level ri st term l d' (fl_iter fi)
                else Ok (mk_merge_out 0 d' (fl_iter fi) ri)
            end
        | Failed => error
        | Undefined => Undefined
        | NoFuel => NoFuel
        end
    | Failed => error
    | Undefined => Undefined
    | NoFuel => NoFuel
    end.

(** The loop over the terms; every round takes a pair or ends. *)
Fixpoint merge_terms (fuel : nat) (ri : ReverseIndex) (prefix : Z) (st : nat -> MergeStatus)
    (it : Iterator) (d : D) : res MergeOut :=
  match fuel with
  | O => NoFuel
  | S fuel =>
      o ← reverse_merge_to_second_level ri prefix (st fuel) it d;
      if mo_ret o =? 0 then merge_terms fuel (mo_index o) prefix st (mo_iter o) (mo_db o)
      else Ok o
  end.

(** [_cache.del] for every key of [_cache_keys]. *)
Fixpoint del_keys (ks : list bytes) (c : Cache L bytes (list ReverseNode)) :
    res (Cache L bytes (list ReverseNode)) :=
  match ks with
  | [] => Ok c
  | k :: ks => c ← deref (cache_del k c); del_keys ks c
  end.

(** [reverse_merge_func]: the return code, the store and the index. *)
Definition reverse_merge_func (ri : ReverseIndex) (r : KeyRange) (need_remove_third : bool)
    (rst : Z -> bytes -> RemoveStatus) (mst : nat -> MergeStatus) (d : D) :
    res (Z * D * ReverseIndex) :=
  let ri := start_merge ri r in
  d ←
    (if need_remove_third then
       '(_, d) ← reverse_remove_range_for_third_level ri 2 (rst 2) d;
       '(_, d) ← reverse_remove_range_for_third_level ri 3 (rst 3) d;
       Ok d
     else Ok d);
  if write_count ri <=? 0 then Ok (0, d, ri)
  else
    let ri := reset_counts ri in
    let it := bounded_scan d (create_reverse_key_prefix (ri_id ri) reverse_prefix) in
    over ← is_prefix_end it reverse_prefix;
    let ri := if is_over_cache ri then set_merge_state ri (level_1_scan_count ri) [] else ri in
    if over : bool then Ok (0, d, ri)
    else
      o ← merge_terms (S (length it)) ri reverse_prefix mst it d;
      if mo_ret o =? -1 then Ok (-1, mo_db o, mo_index o)
      else if is_over_cache ri then
        c ← del_keys (cache_keys (mo_index o)) (ri_cache (mo_index o));
        Ok (0, mo_db o, set_cache (mo_index o) c)
      else Ok (0, mo_db o, mo_index o).

End Index.
Arguments FirstLevelMSIterator D : clear implicits.
Arguments ReverseIndex L : clear implicits.
