(* ===== verification/ReverseFirstFacts.v ===== *)
(** * The first level of a term as a merge iterator

    The single nodes of a term, read through the queue of the iterator, come out
    once per primary key, the newest of each, and are deleted on the way. *)

From Stdlib Require Import Sorted.
From stdpp Require Import gmap.
From S2P Require Import Prelude KeyEncoder KvStore Ordered ReverseList LruCache ReverseIndex.

(** ** Outcomes cut short by an error *)

(** The call fails for the given reason, or it ends as the other one. *)
Definition fails_or (reason : Prop) {A} (r1 r2 : res A) : Prop := (reason /\ r1 = Failed) \/ r1 = r2.

Lemma fails_or_bind reason {A B} (m1 m2 : res A) (f1 f2 : A -> res B) :
  fails_or reason m1 m2 -> (forall a, fails_or reason (f1 a) (f2 a)) ->
  fails_or reason (m1 ≫= f1) (m2 ≫= f2).
Proof. intros [[Hr ->]| ->] Hf; [by left|]. destruct m2; simpl; [apply Hf|by right..]. Qed.

Section LockFail.
Context {host : Host} {codec : ReverseCodec} {D : Type} {db : RocksDb D}.
Context (lock : bytes -> bool).

(** Some lock is not got. *)
Definition lock_missed : Prop := exists k, lock k = false.

Implicit Type fi : FirstLevelMSIterator D.

Lemma internal_loop_lock fi it txn :
  fails_or lock_missed (internal_loop lock fi it txn) (internal_loop (fun _ => true) fi it txn).
Proof.
  revert txn; induction it as [|[k v] it IH]; intros txn; [by right|]. cbn [internal_loop].
  apply fails_or_bind; [by right|]. intros level. case_match; [by right|].
  apply fails_or_bind; [by right|]. intros term. case_match; [by right|].
  apply fails_or_bind; [by right|]. intros d. destruct (lock k) eqn:Ek; cbn [negb]; [|left; split; [by exists k|done]].
  case_match; [|by right]. case_match; [apply IH|by right].
Qed.

Lemma fill_dq_lock fuel fi : fails_or lock_missed (fill_dq lock fuel fi) (fill_dq (fun _ => true) fuel fi).
Proof.
  revert fi; induction fuel as [|fuel IH]; intros fi; [by right|]. cbn [fill_dq].
  case_match; [|by right]. apply fails_or_bind; [apply internal_loop_lock|].
  intros [fi' [node|]]; [|by right]. case_match; [case_match|]; [apply IH|by right|apply IH].
Qed.

Lemma first_next_lock fi : fails_or lock_missed (first_next lock fi) (first_next (fun _ => true) fi).
Proof. apply fails_or_bind; [apply fill_dq_lock|]. intros. by right. Qed.

(** Locks decide only whether a merge fails. *)
Lemma merge_loop_lock {OI} `{MergeSortIterator OI} fuel is_del fi nk (old : OI) ok acc :
  fails_or lock_missed (@merge_loop _ _ (first_ms lock) _ fuel is_del fi nk old ok acc)
    (@merge_loop _ _ (first_ms (fun _ => true)) _ fuel is_del fi nk old ok acc).
Proof.
  revert fi nk old ok acc. induction fuel as [|fuel IH]; intros fi nk old ok acc; [by right|].
  cbn [merge_loop]. destruct nk as [nk|], ok as [ok|]; [case_match| | |by right].
  all: apply fails_or_bind; [by right|]; intros n.
  all: apply fails_or_bind; [first [apply first_next_lock|by right]|]; intros [a b].
  all: try apply IH. apply fails_or_bind; [by right|]. intros [c e]. apply IH.
Qed.

Lemma level_merge_lock {OI} `{MergeSortIterator OI} fuel is_del fi (old : OI) :
  fails_or lock_missed (@level_merge _ _ (first_ms lock) _ fuel is_del fi old)
    (@level_merge _ _ (first_ms (fun _ => true)) _ fuel is_del fi old).
Proof.
  unfold level_merge. apply fails_or_bind; [apply first_next_lock|]. intros [a b].
  apply fails_or_bind; [by right|]. intros [c e]. apply merge_loop_lock.
Qed.

End LockFail.

(** ** The nodes of one term *)

Section Pairs.
Context {codec : ReverseCodec} {D : Type} {db : RocksDb D} {laws : RocksDbLaws D}.

Definition nodes_of (ps : Iterator) : list ReverseNode := omap (fun kv => node_parse kv.2) ps.

Definition delete_pairs (ps : Iterator) (d : D) : D := foldl (fun d kv => db_delete d kv.1) d ps.

Lemma get_delete_pairs ps (d0 : D) k :
  db_get (delete_pairs ps d0) k = if decide (k ∈ ps.*1) then None else db_get d0 k.
Proof.
  unfold delete_pairs. induction ps as [|kv ps IH] using rev_ind; [done|].
  rewrite foldl_app. simpl. rewrite get_delete, IH, fmap_app. simpl.
  destruct (decide (k = kv.1)) as [E|Hne].
  - rewrite decide_True; [done|]. apply elem_of_app. right. by apply list_elem_of_singleton.
  - apply decide_ext. rewrite elem_of_app, list_elem_of_singleton. tauto.
Qed.

Lemma delete_pairs_snoc ps (d0 : D) kv : db_delete (delete_pairs ps d0) kv.1 = delete_pairs (ps ++ [kv]) d0.
Proof. unfold delete_pairs. by rewrite foldl_app. Qed.

Lemma nodes_of_cons kv ps n : node_parse kv.2 = Some n -> nodes_of (kv :: ps) = n :: nodes_of ps.
Proof. intros E. unfold nodes_of. simpl. by rewrite E. Qed.

End Pairs.

Section Run.
Context {host : Host} {codec : ReverseCodec}.
Context {D : Type} {db : RocksDb D} {laws : RocksDbLaws D}.
Context (prefix : Z) (r : KeyRange) (t : bytes) (all rest : Iterator) (d0 : D).
Implicit Type fi : FirstLevelMSIterator D.

(** A pair of the term's first level. *)
Definition pair_of_term (kv : bytes * bytes) : Prop :=
  get_level_from_reverse_key kv.1 = Some prefix /\ get_term_from_reverse_key kv.1 = Some t /\
  is_Some (node_parse kv.2).

(** The pair after the last of the term, where the iterator stops. *)
Definition stops (it : Iterator) : Prop :=
  match it with
  | [] => True
  | (k, _) :: _ =>
      exists level, get_level_from_reverse_key k = Some level /\
        (level <> prefix \/ exists t', get_term_from_reverse_key k = Some t' /\ t' <> t)
  end.

Hypothesis all_term : Forall pair_of_term all.
Hypothesis all_stored : Forall (fun kv => db_get d0 kv.1 = Some kv.2) all.
Hypothesis all_nodup : NoDup all.*1.
Hypothesis rest_stops : stops rest.

(** The iterator has dealt with [done] and comes to [todo]. *)
Record standing fi (done todo : Iterator) : Prop := {
  st_prefix : fl_prefix fi = prefix;
  st_range : fl_key_range fi = r;
  st_term : fl_merge_term fi = t;
  st_del : fl_del fi = true;
  st_txn : fl_txn fi = Some (delete_pairs done d0);
  st_iter : (if fl_first fi then fl_iter fi else tail (fl_iter fi)) = todo ++ rest;
  st_all : all = done ++ todo
}.

(** The iterator is past the nodes of the term. *)
Record finished fi : Prop := {
  fin_txn : fl_txn fi = Some (delete_pairs all d0);
  fin_iter : fl_iter fi = rest
}.

Lemma internal_loop_spec fi done todo :
  fl_prefix fi = prefix -> fl_key_range fi = r -> fl_merge_term fi = t -> fl_del fi = true ->
  all = done ++ todo ->
  (ranged r (nodes_of todo) = [] /\
   internal_loop (fun _ => true) fi (todo ++ rest) (Some (delete_pairs done d0)) =
   Ok (first_move fi rest (Some (delete_pairs all d0)), None)) \/
  exists done' kv todo' n, todo' `suffix_of` todo /\ (length todo' < length todo)%nat /\
    all = done' ++ todo' /\ ranged r (nodes_of todo) = n :: ranged r (nodes_of todo') /\
    internal_loop (fun _ => true) fi (todo ++ rest) (Some (delete_pairs done d0)) =
    Ok (first_move fi (kv :: todo' ++ rest) (Some (delete_pairs done' d0)), Some n).
Proof.
  intros Ep Er Et Ed. revert done. induction todo as [|[k v] todo IH]; intros done Ea.
  - left. split; [done|]. rewrite app_nil_r in Ea. subst done. simpl.
    destruct rest as [|[k v] rest']; [done|]. destruct rest_stops as (level & El & Hl). cbn [internal_loop].
    rewrite El, Ep. cbn [deref mbind res_bind]. destruct Hl as [Hl|(t' & Et' & Hne)].
    + by rewrite (proj2 (Z.eqb_neq _ _)) by congruence.
    + case_match; [done|]. rewrite Et', Et. cbn [deref mbind res_bind].
      by rewrite bool_decide_eq_false_2 by congruence.
  - assert (Hin : (k, v) ∈ all) by (rewrite Ea; apply elem_of_app; right; left).
    pose proof (proj1 (Forall_forall _ _) all_term _ Hin) as (El & Etm & [n En]).
    pose proof (proj1 (Forall_forall _ _) all_stored _ Hin) as Eg.
    cbn [fst snd] in El, Etm, En, Eg. cbn [app internal_loop].
    rewrite El. cbn [deref mbind res_bind]. rewrite Ep, Z.eqb_refl, Etm. cbn [deref mbind res_bind negb].
    rewrite Et, bool_decide_eq_true_2 by done. cbn [negb].
    assert (Hnew : k ∉ done.*1).
    { intros Hk. rewrite Ea, fmap_app in all_nodup. apply NoDup_app in all_nodup as (_ & Hd & _).
      apply (Hd k Hk). left. }
    rewrite get_delete_pairs, decide_False, Eg by done. cbn [mbind option_bind]. rewrite En, Er, Ed.
    pose proof (delete_pairs_snoc done d0 (k, v)) as Esnoc. cbn [fst] in Esnoc. rewrite Esnoc.
    rewrite (nodes_of_cons (k, v) todo n En).
    rewrite ranged_cons. assert (Ea' : all = (done ++ [(k, v)]) ++ todo) by by rewrite <- app_assoc.
    destruct (decide (in_key_range r (key n))) as [[Hb Ha]|Hout].
    + right. exists (done ++ [(k, v)]), (k, v), todo, n. rewrite Hb, Ha.
      split; [by exists [(k, v)]|]. split; [simpl; lia|]. split; [done|]. by split.
    + assert (Hor : below_range r (key n) || above_range r (key n) = true).
      { unfold in_key_range in Hout. destruct (below_range _ _), (above_range _ _); tauto. }
      rewrite Hor.
      destruct (IH (done ++ [(k, v)]) Ea') as [[E1 E2]|(done' & kv & todo' & m & Hs & Hl & E1 & E2 & E3)].
      * left. by split.
      * right. exists done', kv, todo', m. split; [by apply suffix_cons_r|]. split; [simpl; lia|]. by split.
Qed.

(** What is still to come out: the queue and the nodes not yet read. *)
Inductive coming : FirstLevelMSIterator D -> list ReverseNode -> Prop :=
  | coming_more fi done todo :
      standing fi done todo -> fl_need_next fi = true ->
      coming fi (fl_node_dq fi ++ ranged r (nodes_of todo))
  | coming_end fi : finished fi -> fl_need_next fi = false -> coming fi (fl_node_dq fi).

Lemma internal_next_spec fi done todo :
  standing fi done todo -> fl_need_next fi = true ->
  exists fi' o, internal_next (fun _ => true) fi = Ok (fi', o) /\
    fl_node_dq fi' = fl_node_dq fi /\ fl_need_next fi' = true /\
    match o with
    | None => finished fi' /\ ranged r (nodes_of todo) = []
    | Some n => exists done' todo', standing fi' done' todo' /\ (length todo' < length todo)%nat /\
        ranged r (nodes_of todo) = n :: ranged r (nodes_of todo')
    end.
Proof.
  intros [Ep Er Et Ed Ex Ei Ea] Hn. unfold internal_next. rewrite Ex, Ei.
  destruct (internal_loop_spec fi done todo Ep Er Et Ed Ea)
    as [[E1 E2]|(done' & kv & todo' & n & Hs & Hl & E1 & E2 & E3)].
  - eexists _, None. split; [exact E2|]. by repeat split.
  - eexists _, (Some n). split; [exact E3|]. split; [done|]. split; [done|].
    exists done', todo'. split; [|done]. by split.
Qed.

Lemma dedup_same n m l : key n = key m -> dedup_last (n :: m :: l) = dedup_last (m :: l).
Proof. intros E. rewrite dedup_last_cons. by rewrite bool_decide_eq_true_2. Qed.

Lemma dedup_diff n m l : key n <> key m -> dedup_last (n :: m :: l) = n :: dedup_last (m :: l).
Proof. intros E. rewrite dedup_last_cons. by rewrite bool_decide_eq_false_2. Qed.

(** After the loop the queue has two keys, or the nodes are finished. *)
Definition filled fi (l : list ReverseNode) : Prop :=
  (exists a b done todo, standing fi done todo /\ fl_need_next fi = true /\ fl_node_dq fi = [a; b] /\
     l = a :: b :: ranged r (nodes_of todo) /\ key a <> key b) \/
  (finished fi /\ fl_need_next fi = false /\ l = fl_node_dq fi /\ (length l <= 1)%nat).

Lemma fill_dq_spec fuel fi done todo :
  standing fi done todo -> fl_need_next fi = true -> (length (fl_node_dq fi) <= 1)%nat ->
  (length todo < fuel)%nat ->
  exists fi' l, fill_dq (fun _ => true) fuel fi = Ok fi' /\ filled fi' l /\
    dedup_last l = dedup_last (fl_node_dq fi ++ ranged r (nodes_of todo)).
Proof.
  revert fi done todo. induction fuel as [|fuel IH]; [lia|]. intros fi done todo Hs Hn Hq Hf.
  cbn [fill_dq]. rewrite Hn, (proj2 (Z.ltb_lt _ _)) by lia. cbn [andb].
  destruct (internal_next_spec fi done todo Hs Hn) as (fi' & o & -> & Edq & Hn' & Ho).
  cbn [mbind res_bind]. destruct o as [n|].
  - destruct Ho as (done' & todo' & Hs' & Hl & E). rewrite E, Edq.
    destruct (fl_node_dq fi) as [|x [|y dq]] eqn:Eq; cbn [last app removelast]; [| |simpl in Hq; lia].
    + destruct (IH (set_dq fi' [n] true) done' todo') as (fi2 & l & E2 & Hfl & Ed);
        [by destruct Hs'; split|done|simpl; lia|lia|]. exists fi2, l. by rewrite E2.
    + case_bool_decide as Hk.
      * destruct (IH (set_dq fi' [n] true) done' todo') as (fi2 & l & E2 & Hfl & Ed);
          [by destruct Hs'; split|done|simpl; lia|lia|]. exists fi2, l. rewrite E2.
        split; [done|]. split; [done|]. by rewrite Ed, dedup_same.
      * exists (set_dq fi' [x; n] true), (x :: n :: ranged r (nodes_of todo')). split; [done|].
        split; [|done]. left. exists x, n, done', todo'. split; [by destruct Hs'; split|].
        repeat split; congruence.
  - destruct Ho as [Hfin E]. rewrite E, app_nil_r, Edq.
    exists (set_dq fi' (fl_node_dq fi) false), (fl_node_dq fi). split; [done|]. split; [|done].
    right. split; [by destruct Hfin; split|]. by repeat split.
Qed.

(** The iterator yields the nodes in range, the newest of every key. *)
Lemma first_next_spec fi l :
  coming fi l -> (length (fl_node_dq fi) <= 1)%nat ->
  exists fi', first_next (fun _ => true) fi = Ok (fi', key <$> head (dedup_last l)) /\
    match dedup_last l with
    | [] => finished fi'
    | n :: l' => fl_curr_node fi' = n /\ (length (fl_node_dq fi') <= 1)%nat /\
        exists l'', coming fi' l'' /\ dedup_last l'' = l'
    end.
Proof.
  intros Hc Hq. unfold first_next.
  assert (Hfill : exists fi' l', fill_dq (fun _ => true) (2 + length (fl_iter fi)) fi = Ok fi' /\
    filled fi' l' /\ dedup_last l' = dedup_last l).
  { destruct Hc as [fi done todo Hs Hn|fi Hfin Hn].
    - apply (fill_dq_spec _ fi done todo Hs Hn Hq). pose proof (st_iter _ _ _ Hs) as Ei.
      apply (f_equal length) in Ei. rewrite length_app in Ei.
      assert (length (tail (fl_iter fi)) <= length (fl_iter fi))%nat by (destruct (fl_iter fi); simpl; lia).
      destruct (fl_first fi); lia.
    - exists fi, (fl_node_dq fi). cbn [Nat.add fill_dq]. rewrite Hn. split; [done|]. split; [|done].
      right. split; [done|]. by split. }
  destruct Hfill as (fi1 & l1 & -> & Hfl & <-). cbn [mbind res_bind].
  destruct Hfl as [(a & b & done & todo & Hs & Hn & Edq & -> & Hne)|(Hfin & Hn & -> & Hl)];
    unfold first_pop.
  - rewrite Edq, dedup_diff by done. eexists. split; [done|]. split; [done|]. split; [simpl; lia|].
    exists (b :: ranged r (nodes_of todo)). split; [|done].
    apply (coming_more (mk_first _ _ _ _ _ _ _ _ [b] _) done todo); [by destruct Hs; split|done].
  - rewrite Hn. destruct (fl_node_dq fi1) as [|x [|y dq]] eqn:Eq; [by exists fi1| |simpl in Hl; lia].
    eexists. split; [done|]. split; [done|]. split; [simpl; lia|]. exists []. split; [|done].
    apply (coming_end (mk_first _ _ _ _ _ _ _ _ [] _)); [by destruct Hfin; split|done].
Qed.

Lemma first_yields_coming fi l :
  coming fi l -> (length (fl_node_dq fi) <= 1)%nat ->
  exists fi', @yields _ (first_ms (fun _ => true)) fi (dedup_last l) fi' /\ finished fi'.
Proof.
  remember (length (dedup_last l)) as n eqn:Hn. revert fi l Hn.
  induction n as [|n IH]; intros fi l Hn Hc Hq;
    destruct (first_next_spec fi l Hc Hq) as (fi1 & E1 & Hm);
    destruct (dedup_last l) as [|x l'] eqn:El; try done.
  - exists fi1. split; [|done]. by apply yields_end.
  - destruct Hm as (Hcur & Hq1 & l'' & Hc1 & <-). simpl in Hn.
    destruct (IH fi1 l'') as (fi' & Hy & Hfin); [lia|done|done|].
    exists fi'. split; [|done]. apply (yields_node _ fi1); [done|simpl; by rewrite Hcur|done].
Qed.

Lemma first_yields :
  exists fi', @yields _ (first_ms (fun _ => true))
    (first_iterator (all ++ rest) prefix r t true (Some d0))
    (dedup_last (ranged r (nodes_of all))) fi' /\ finished fi'.
Proof.
  apply (first_yields_coming (first_iterator (all ++ rest) prefix r t true (Some d0))
    ([] ++ ranged r (nodes_of all))).
  - apply (coming_more (first_iterator (all ++ rest) prefix r t true (Some d0)) [] all); [by split|done].
  - simpl. lia.
Qed.

End Run.
