(* ===== verification/ReverseIndexFacts.v ===== *)
(** * Merging the levels of a full-text index

    What a term selects, as the levels of the store determine it, and that neither
    a merge nor the removal of what is outside the region changes it, however the
    calls of the store end. *)

From Stdlib Require Import Sorted.
From stdpp Require Import gmap sorting.
From S2P Require Import Prelude KeyEncoder KvStore Ordered ReverseList LruCache ReverseIndex ReverseFirstFacts.

(** ** Lists of pairs in the order of the store *)

Lemma StronglySorted_impl_in {A} (R R' : A -> A -> Prop) l :
  StronglySorted R l -> (forall x y, x ∈ l -> y ∈ l -> R x y -> R' x y) -> StronglySorted R' l.
Proof.
  induction 1 as [|x l Hl IH Hx]; intros HR; constructor.
  - apply IH. intros a b Ha Hb. apply HR; by right.
  - apply Forall_forall. intros y Hy. apply HR; [left|by right|]. by eapply Forall_forall in Hx.
Qed.

Lemma StronglySorted_filter {A} (R : A -> A -> Prop) (P : A -> Prop) `{forall x, Decision (P x)} l :
  StronglySorted R l -> StronglySorted R (filter P l).
Proof.
  induction 1 as [|x l Hl IH Hx]; [constructor|]. rewrite filter_cons. case_decide; [|done].
  constructor; [done|]. apply Forall_forall. intros y [_ Hy]%list_elem_of_filter.
  by eapply Forall_forall in Hx.
Qed.

(** Filters that agree on the elements. *)
Lemma list_filter_iff' {A} (P Q : A -> Prop) `{forall x, Decision (P x)} `{forall x, Decision (Q x)} (l : list A) :
  (forall x, x ∈ l -> P x <-> Q x) -> filter P l = filter Q l.
Proof.
  induction l as [|x l IH]; intros Hl; [done|]. rewrite !filter_cons, IH by (intros; apply Hl; by right).
  pose proof (Hl x ltac:(left)). destruct (decide (P x)), (decide (Q x)); tauto.
Qed.

#[export] Instance key_lt_strict : StrictOrder key_lt.
Proof.
  split.
  - intros a. red. unfold key_lt. by rewrite lex_compare_refl.
  - intros a b c. apply lex_compare_trans.
Qed.

Lemma key_lt_asym a b : key_lt a b -> ~ key_lt b a.
Proof. apply bytes_lt_asym. Qed.

Lemma pairs_nodup l : StronglySorted key_lt l -> NoDup l.*1.
Proof.
  induction 1 as [|x l Hl IH Hx]; [constructor|]. rewrite fmap_cons. constructor; [|done].
  intros (y & E & Hy)%list_elem_of_fmap. eapply Forall_forall in Hx; [|done].
  unfold key_lt in Hx. by rewrite E, lex_compare_refl in Hx.
Qed.

Lemma pairs_ext l1 l2 :
  StronglySorted key_lt l1 -> StronglySorted key_lt l2 -> (forall kv, kv ∈ l1 <-> kv ∈ l2) -> l1 = l2.
Proof.
  intros H1 H2 E. apply (StronglySorted_unique_strong key_lt); [|done|done|].
  - intros x y _ _ Hx Hy. by destruct (key_lt_asym x y).
  - apply NoDup_Permutation; [..|done]; eapply NoDup_fmap_1, pairs_nodup; done.
Qed.

(** Elements with a property that come first are a prefix. *)
Lemma split_run {A} (T : A -> Prop) `{forall x, Decision (T x)} l :
  StronglySorted (fun x y => T y -> T x) l -> l = filter T l ++ filter (fun x => ~ T x) l.
Proof.
  induction 1 as [|x l Hl IH Hx]; [done|]. destruct (decide (T x)) as [HT|HT].
  - rewrite filter_cons_True, filter_cons_False by tauto. simpl. by f_equal.
  - rewrite filter_cons_False by done. rewrite (filter_cons_True (fun x => ~ T x)) by done.
    assert (Hn : forall y, y ∈ l -> ~ T y).
    { intros y Hy HTy. apply HT. eapply Forall_forall in Hx; [|done]. by apply Hx. }
    rewrite (list_filter_none T l) by done. by rewrite list_filter_all.
Qed.

(** ** Strings between two with a common prefix *)

Lemma between_prefix p a b x :
  lex_compare (p ++ a) x <> Gt -> lex_compare x (p ++ b) <> Gt -> exists c, x = p ++ c.
Proof.
  revert x; induction p as [|y p IH]; intros x Ha Hb; [by exists x|].
  destruct x as [|z x]; [done|]. simpl in Ha, Hb.
  destruct (Z.compare_spec y z) as [->|Hlt|Hgt]; [| |done].
  - rewrite Z.compare_refl in Hb. destruct (IH x Ha Hb) as [c ->]. by exists c.
  - rewrite (proj2 (Z.compare_gt_iff z y)) in Hb by lia. done.
Qed.

(** Neither string is a prefix of the other: what follows does not matter. *)
Lemma lex_compare_free a b x y :
  ~ a `prefix_of` b -> ~ b `prefix_of` a -> lex_compare (a ++ x) (b ++ y) = lex_compare a b.
Proof.
  revert b; induction a as [|z a IH]; intros [|w b] Ha Hb; simpl.
  1-3: by (destruct Ha; apply prefix_nil) || destruct Hb; apply prefix_nil.
  destruct (Z.compare_spec z w) as [->|Hlt|Hgt]; [|done..].
  apply IH; intros Hp; [apply Ha|apply Hb]; by apply prefix_cons.
Qed.

(** A string closed by NUL compares with one without NUL whatever follows. *)
Lemma lex_compare_nul t x y f :
  no_nul f -> lex_compare (t ++ 0 :: x) f = lex_compare (t ++ 0 :: y) f.
Proof.
  intros Hf. revert t. induction Hf as [|z f Hz Hf IH]; intros [|w t]; cbn [app lex_compare]; try done.
  - destruct (Z.compare_spec 0 z); [congruence|done|done].
  - destruct (w ?= z); [apply IH|done|done].
Qed.

(** ** Runs of one key *)

Lemma weakly_sorted_cons n l :
  weakly_sorted (n :: l) <-> Forall (fun m => ~ bytes_lt (key m) (key n)) l /\ weakly_sorted l.
Proof. unfold weakly_sorted. split; [by inversion 1|]. intros []. by constructor. Qed.

Lemma dedup_keys l k : k ∈ keys (dedup_last l) <-> k ∈ keys l.
Proof.
  induction l as [|n [|m l] IH]; [done|done|]. rewrite dedup_last_cons.
  case_bool_decide as E; rewrite !keys_cons, !elem_of_cons in *.
  - rewrite IH, E. tauto.
  - rewrite IH. done.
Qed.

Lemma dedup_last_sorted l : weakly_sorted l -> sorted (keys (dedup_last l)).
Proof.
  induction l as [|n [|m l] IH]; intros Hs; [apply sorted_nil|by repeat constructor|].
  apply weakly_sorted_cons in Hs as [Hn Hs]. specialize (IH Hs). rewrite dedup_last_cons.
  case_bool_decide as E; [done|]. rewrite keys_cons. apply sorted_cons. split; [|done].
  apply Forall_forall. intros k Hk. apply (dedup_keys (m :: l)) in Hk. rewrite keys_cons in Hk.
  apply weakly_sorted_cons in Hs as [Hm Hs].
  assert (Hlt : bytes_lt (key n) (key m)).
  { apply Forall_cons in Hn as [Hn _]. destruct (bytes_lt_total (key n) (key m)) as [?|[?|?]]; done. }
  apply elem_of_cons in Hk as [->|Hk]; [done|]. apply list_elem_of_fmap in Hk as (x & -> & Hx).
  eapply Forall_forall in Hm; [|done].
  destruct (bytes_lt_total (key m) (key x)) as [?|[<-|?]]; [by transitivity (key m)|done|done].
Qed.

Lemma dedup_ranged r l : weakly_sorted l -> dedup_last (ranged r l) = ranged r (dedup_last l).
Proof.
  induction l as [|n [|m l] IH]; intros Hs; [done| |].
  { unfold ranged. simpl. rewrite filter_cons. by case_decide. }
  apply weakly_sorted_cons in Hs as [Hn Hs]. specialize (IH Hs). rewrite dedup_last_cons.
  case_bool_decide as E.
  - rewrite <- IH, !(ranged_cons r), E. case_decide; [|done]. by rewrite dedup_same.
  - rewrite (ranged_cons r n (m :: l)), (ranged_cons r n (dedup_last (m :: l))), <- IH.
    case_decide; [|done]. destruct (ranged r (m :: l)) as [|x l'] eqn:El; [done|].
    rewrite dedup_diff; [done|]. intros Ex.
    assert (Hx : x ∈ m :: l).
    { assert (Hx : x ∈ ranged r (m :: l)) by (rewrite El; left). by apply list_elem_of_filter in Hx as []. }
    apply weakly_sorted_cons in Hs as [Hm _]. apply elem_of_cons in Hx as [->|Hx]; [done|].
    eapply Forall_forall in Hm; [|done]. apply Forall_cons in Hn as [Hn _]. rewrite <- Ex in Hm.
    destruct (bytes_lt_total (key n) (key m)) as [?|[?|?]]; done.
Qed.

(** ** Keys of an index *)

Section Keys.
Context {host : Host}.
Implicit Type ix : IndexId.

Lemma length_reverse_prefix ix level : length (create_reverse_key_prefix ix level) = 17%nat.
Proof. unfold create_reverse_key_prefix. by rewrite !length_app, !length_mem_store. Qed.

Lemma take_reverse_prefix ix level s :
  take 17 (create_reverse_key_prefix ix level ++ s) = create_reverse_key_prefix ix level.
Proof. by rewrite take_app_length' by (symmetry; apply length_reverse_prefix). Qed.

Lemma drop_reverse_prefix ix level s : drop 17 (create_reverse_key_prefix ix level ++ s) = s.
Proof. by rewrite drop_app_length' by (symmetry; apply length_reverse_prefix). Qed.

Lemma reverse_prefix_split ix level :
  create_reverse_key_prefix ix level = take 16 (create_reverse_key_prefix ix 0) ++ [u8 level].
Proof.
  unfold create_reverse_key_prefix. rewrite !store_u8, !app_assoc.
  rewrite take_app_length' by by rewrite !length_app, !length_mem_store.
  f_equal. change (be_split 1 (u8 level)) with [u8 level mod 256]. f_equal.
  apply Z.mod_small. apply (wrap_range 8). lia.
Qed.

Lemma take_16_prefix ix level s :
  take 16 (create_reverse_key_prefix ix level ++ s) = take 16 (create_reverse_key_prefix ix 0).
Proof.
  rewrite reverse_prefix_split, <- app_assoc. apply take_app_length'.
  rewrite length_take, length_reverse_prefix. done.
Qed.

Lemma level_of_prefix ix level s :
  is_u 8 level -> get_level_from_reverse_key (create_reverse_key_prefix ix level ++ s) = Some level.
Proof.
  intros Hl. unfold get_level_from_reverse_key. rewrite reverse_prefix_split, <- app_assoc.
  rewrite lookup_app_r; rewrite length_take, length_reverse_prefix; [|done].
  simpl. by rewrite wrap_id.
Qed.

Lemma term_key_inj ix level level' t t' :
  is_u 8 level -> is_u 8 level' ->
  term_key ix level t = term_key ix level' t' <-> level = level' /\ t = t'.
Proof.
  intros Hl Hl'. split; [|intros [-> ->]; done]. unfold term_key. intros E. split.
  - apply (f_equal get_level_from_reverse_key) in E. rewrite !level_of_prefix in E by done. by simplify_eq.
  - apply (f_equal (drop 17)) in E. by rewrite !drop_reverse_prefix in E.
Qed.

(** Keys of different levels. *)
Lemma prefix_level_ne ix level level' k :
  is_u 8 level -> is_u 8 level' -> level <> level' ->
  take 17 k = create_reverse_key_prefix ix level -> take 17 k <> create_reverse_key_prefix ix level'.
Proof.
  intros Hl Hl' Hne E E'. rewrite E in E'. apply (f_equal (.++ [])) in E'.
  apply (f_equal get_level_from_reverse_key) in E'. rewrite !level_of_prefix in E' by done. by simplify_eq.
Qed.

Lemma first_not_list ix level t k :
  level = 2 \/ level = 3 -> take 17 k = create_reverse_key_prefix ix reverse_prefix ->
  k <> term_key ix level t.
Proof.
  intros Hl Hk ->. unfold term_key in Hk. rewrite take_reverse_prefix in Hk.
  pose proof (level_of_prefix ix level []) as E. rewrite Hk, level_of_prefix in E by done.
  destruct Hl as [-> | ->]; by specialize (E ltac:(done)).
Qed.

Lemma key_of_prefix (k : bytes) p : take 17 k = p -> k = p ++ drop 17 k.
Proof. intros <-. by rewrite take_drop. Qed.

Lemma term_of_first_key ix t pk time : no_nul t -> get_term_from_reverse_key (first_key ix t pk time) = Some t.
Proof.
  intros Ht. unfold get_term_from_reverse_key, first_key. rewrite drop_reverse_prefix. simpl.
  by apply c_str_app.
Qed.

Lemma end_key_no_nul p : exists f, end_key p = p ++ f /\ no_nul f.
Proof.
  exists (mem_store 8 (2 ^ 64 - 1)). split; [done|]. unfold mem_store. case_match; vm_compute; by repeat constructor.
Qed.

End Keys.

(** ** What the store says about a term *)

Section Postings.
Context {host : Host} {codec : ReverseCodec}.
Context {D : Type} {db : RocksDb D} {laws : RocksDbLaws D}.
Context (ix : IndexId).
Implicit Type d : D.

Definition is_level (level : Z) (k : bytes) : Prop := take 17 k = create_reverse_key_prefix ix level.

#[export] Instance is_level_dec level k : Decision (is_level level k).
Proof. unfold is_level. apply _. Defined.

(** The first level of all terms, of those a merge looks at, and of one term. *)
Definition first_pairs d : Iterator :=
  filter (fun kv => is_level reverse_prefix kv.1)
    (db_scan d DATA_PREFIX (create_reverse_key_prefix ix reverse_prefix)).

Definition pending_pairs d : Iterator :=
  filter (fun kv => bytes_lt kv.1 (end_key (create_reverse_key_prefix ix reverse_prefix)))
    (first_pairs d).

Definition term_pairs (t : bytes) d : Iterator :=
  filter (fun kv => get_term_from_reverse_key kv.1 = Some t) (first_pairs d).

Definition first_nodes (t : bytes) d : list ReverseNode := nodes_of (term_pairs t d).

Definition level_list (level : Z) (t : bytes) d : list ReverseNode :=
  default [] (v ← db_get d (term_key ix level t); list_parse v).

(** The newest node of every primary key. *)
Definition newest (t : bytes) d : gmap bytes ReverseNode :=
  nodes_map (dedup_last (first_nodes t d)) ∪ nodes_map (level_list 2 t d) ∪ nodes_map (level_list 3 t d).

(** What a search for the term is to find in the region. *)
Definition postings (r : KeyRange) (t : bytes) d : gmap bytes ReverseNode :=
  filter (fun kn => in_key_range r kn.1 /\ live kn.2) (newest t d).

(** *** Scans *)

Lemma first_pairs_sorted d : StronglySorted key_lt (first_pairs d).
Proof. apply StronglySorted_filter, scan_sorted. Qed.

Lemma pending_pairs_sorted d : StronglySorted key_lt (pending_pairs d).
Proof. apply StronglySorted_filter, first_pairs_sorted. Qed.

Lemma term_pairs_sorted t d : StronglySorted key_lt (term_pairs t d).
Proof. apply StronglySorted_filter, first_pairs_sorted. Qed.

Lemma not_before_prefix p s : lex_compare p (p ++ s) <> Gt.
Proof. rewrite <- (app_nil_r p) at 1. rewrite lex_compare_app_l. by destruct s. Qed.

Lemma elem_of_first_pairs d k v :
  (k, v) ∈ first_pairs d <-> db_get d k = Some v /\ is_level reverse_prefix k.
Proof.
  unfold first_pairs. rewrite list_elem_of_filter, elem_of_scan. simpl. unfold is_level.
  split; [tauto|]. intros [Hg Ht]. split; [done|]. split; [done|]. apply key_of_prefix in Ht.
  rewrite Ht. split; [|apply not_before_prefix].
  rewrite take_16_prefix, <- (take_16_prefix ix reverse_prefix []). by rewrite app_nil_r.
Qed.

(** The bound leaves no other level. *)
Lemma bounded_scan_first d :
  bounded_scan d (create_reverse_key_prefix ix reverse_prefix) = pending_pairs d.
Proof.
  unfold bounded_scan, pending_pairs, first_pairs. rewrite list_filter_filter.
  apply list_filter_iff'. intros [k v] Hin. apply elem_of_scan in Hin as (_ & Ht & Hge). simpl.
  split; [|tauto]. intros Hlt. split; [done|]. unfold bytes_lt in Hlt.
  destruct (between_prefix (create_reverse_key_prefix ix reverse_prefix) [] (mem_store 8 (2 ^ 64 - 1)) k)
    as [c ->].
  - by rewrite app_nil_r.
  - unfold end_key in Hlt. by rewrite Hlt.
  - apply take_reverse_prefix.
Qed.

Lemma elem_of_term_pairs t d k v :
  (k, v) ∈ term_pairs t d <->
  db_get d k = Some v /\ is_level reverse_prefix k /\ get_term_from_reverse_key k = Some t.
Proof. unfold term_pairs. rewrite list_elem_of_filter, elem_of_first_pairs. simpl. tauto. Qed.

Lemma first_level k : is_level reverse_prefix k -> get_level_from_reverse_key k = Some reverse_prefix.
Proof. intros ->%key_of_prefix. by apply level_of_prefix. Qed.

(** ** The form of an index

    Primary keys of one index are self-delimiting: none is a proper prefix of
    another. *)
Context (pk_ok : bytes -> Prop).

Record index_ok d : Prop := {
  ok_first k v : db_get d k = Some v -> is_level reverse_prefix k ->
    exists t n time, no_nul t /\ (pk_ok (key n) /\ is_i 64 time) /\ k = first_key ix t (key n) time /\ node_parse v = Some n;
  ok_list level k v : level = 2 \/ level = 3 -> db_get d k = Some v -> is_level level k ->
    exists l, list_parse v = Some l /\ sorted (keys l)
}.

Lemma level_list_sorted d level t :
  index_ok d -> level = 2 \/ level = 3 -> sorted (keys (level_list level t d)).
Proof.
  intros Hok Hl. unfold level_list. destruct (db_get d (term_key ix level t)) as [v|] eqn:E; [|apply sorted_nil].
  destruct (ok_list d Hok level _ v Hl E) as (l & El & Hs); [apply take_reverse_prefix|].
  cbn [mbind option_bind]. by rewrite El.
Qed.

(** *** The first level of a term is one run *)

Lemma term_of_pair d k v t :
  index_ok d -> db_get d k = Some v -> is_level reverse_prefix k ->
  get_term_from_reverse_key k = Some t ->
  exists n time, no_nul t /\ (pk_ok (key n) /\ is_i 64 time) /\ k = first_key ix t (key n) time /\ node_parse v = Some n.
Proof.
  intros Hok Hg Hl Ht. destruct (ok_first d Hok k v Hg Hl) as (t' & n & time & Hn & Hpk & -> & Hp).
  rewrite term_of_first_key in Ht by done. simplify_eq. eauto 10.
Qed.

Lemma first_key_split t pk time :
  first_key ix t pk time =
  (create_reverse_key_prefix ix reverse_prefix ++ t ++ [0]) ++ pk ++ [0] ++
  mem_store 8 (to_endian_u64 (encode_i64 time)).
Proof. unfold first_key. by rewrite <- !app_assoc. Qed.

(** A key between two of a term is of that term. *)
Lemma between_term t pk time pk' time' k :
  no_nul t -> lex_compare (first_key ix t pk time) k <> Gt ->
  lex_compare k (first_key ix t pk' time') <> Gt -> get_term_from_reverse_key k = Some t.
Proof.
  intros Ht. rewrite !first_key_split. intros H1 H2.
  destruct (between_prefix _ _ _ _ H1 H2) as [c ->]. unfold get_term_from_reverse_key.
  rewrite <- !app_assoc, drop_reverse_prefix. by apply c_str_app.
Qed.

Lemma not_gt_lt a b : bytes_lt a b -> lex_compare a b <> Gt.
Proof. unfold bytes_lt. by intros ->. Qed.

(** The pairs of the term at the head of the iterator come first, and are all
    there are of it. *)
Lemma pending_split d k v it t :
  index_ok d -> pending_pairs d = (k, v) :: it -> get_term_from_reverse_key k = Some t ->
  pending_pairs d = term_pairs t d ++
    filter (fun kv => get_term_from_reverse_key kv.1 <> Some t) (pending_pairs d).
Proof.
  intros Hok E Ht.
  assert (Hmem : forall x, x ∈ pending_pairs d <->
    db_get d x.1 = Some x.2 /\ is_level reverse_prefix x.1 /\
    bytes_lt x.1 (end_key (create_reverse_key_prefix ix reverse_prefix))).
  { intros [a b]. unfold pending_pairs. rewrite list_elem_of_filter, elem_of_first_pairs. simpl. tauto. }
  assert (Hhead : (k, v) ∈ pending_pairs d) by (rewrite E; left).
  apply Hmem in Hhead as (Hg & Hl & Hlt). simpl in *.
  destruct (term_of_pair d k v t Hok Hg Hl Ht) as (n & time & Hn & _ & Ek & _).
  assert (Hterm : filter (fun kv => get_term_from_reverse_key kv.1 = Some t) (pending_pairs d) = term_pairs t d).
  { unfold pending_pairs, term_pairs. rewrite list_filter_filter. apply list_filter_iff'.
    intros [a b] Hab. apply elem_of_first_pairs in Hab as [Hga Hla]. simpl. split; [tauto|].
    intros Hta. split; [done|].
    destruct (term_of_pair d a b t Hok Hga Hla Hta) as (m & time' & _ & _ & -> & _).
    destruct (end_key_no_nul (create_reverse_key_prefix ix reverse_prefix)) as (f & Ef & Hf).
    rewrite Ef in *. unfold bytes_lt, first_key in *. rewrite Ek, lex_compare_app_l in Hlt.
    rewrite lex_compare_app_l. cbn [app] in *. rewrite <- Hlt. by apply lex_compare_nul. }
  rewrite <- Hterm. apply (split_run (fun kv => get_term_from_reverse_key kv.1 = Some t)).
  pose proof (pending_pairs_sorted d) as Hs. eapply StronglySorted_impl_in; [exact Hs|].
  intros x y Hx Hy Hxy Hty. apply Hmem in Hy as (Hgy & Hly & _).
  destruct (term_of_pair d y.1 y.2 t Hok Hgy Hly Hty) as (m & time' & _ & _ & Ey & _).
  apply (between_term t (key n) time (key m) time' x.1 Hn).
  - rewrite <- Ek. rewrite E in Hx, Hs. apply elem_of_cons in Hx as [->|Hx].
    + by rewrite lex_compare_refl.
    + inversion Hs as [|? ? _ Hall]; subst. eapply Forall_forall in Hall; [|done]. by apply not_gt_lt.
  - rewrite <- Ey. by apply not_gt_lt.
Qed.

(** *** The order of the nodes of a term *)

Hypothesis pk_free : forall a b, pk_ok a -> pk_ok b -> a `prefix_of` b -> a = b.

Lemma nodes_weakly_sorted d ps t :
  index_ok d -> StronglySorted key_lt ps -> (forall x, x ∈ ps -> x ∈ term_pairs t d) ->
  weakly_sorted (nodes_of ps).
Proof.
  intros Hok. induction 1 as [|[k v] ps Hps IH Hx]; intros Hin; [constructor|].
  assert (Hk : (k, v) ∈ term_pairs t d) by (apply Hin; left).
  apply elem_of_term_pairs in Hk as (Hg & Hl & Ht).
  destruct (term_of_pair d k v t Hok Hg Hl Ht) as (n & time & _ & [Hpk _] & Ek & Hp).
  rewrite (nodes_of_cons (k, v) ps n Hp). apply weakly_sorted_cons.
  split; [|apply IH; intros; apply Hin; by right]. apply Forall_forall. intros m Hm Hlt.
  unfold nodes_of in Hm. apply list_elem_of_omap in Hm as ([k' v'] & Hk' & Hp').
  pose proof (proj1 (Forall_forall _ _) Hx _ Hk') as Hlt'.
  assert (Hk2 : (k', v') ∈ term_pairs t d) by (apply Hin; by right).
  apply elem_of_term_pairs in Hk2 as (Hg' & Hl' & Ht').
  destruct (term_of_pair d k' v' t Hok Hg' Hl' Ht') as (m' & time' & _ & [Hpk' _] & Ek' & Hp'').
  simpl in Hp'. rewrite Hp' in Hp''. injection Hp'' as <-.
  unfold key_lt in Hlt'. simpl in Hlt'. rewrite Ek, Ek', !first_key_split, lex_compare_app_l in Hlt'.
  rewrite lex_compare_free in Hlt'; [by apply (bytes_lt_asym (key m) (key n))|..]; intros Hpre.
  - rewrite (pk_free (key n) (key m)) in Hlt by done. by apply bytes_lt_irrefl in Hlt.
  - rewrite (pk_free (key m) (key n)) in Hlt by done. by apply bytes_lt_irrefl in Hlt.
Qed.

Lemma first_nodes_sorted t d : index_ok d -> weakly_sorted (first_nodes t d).
Proof. intros Hok. by apply (nodes_weakly_sorted d _ t); [|apply term_pairs_sorted|]. Qed.

End Postings.
