(* ===== verification/ReverseMergeFacts.v ===== *)
(** * A merge changes nothing a search finds *)

From Stdlib Require Import Sorted.
From stdpp Require Import gmap sorting.
From S2P Require Import Prelude KeyEncoder KvStore Ordered LruCache ReverseList ReverseIndex ReverseFirstFacts ReverseIndexFacts.

(** ** Maps of nodes in a range *)

Lemma nodes_map_ranged r l k :
  sorted (keys l) -> in_key_range r k -> nodes_map (ranged r l) !! k = nodes_map l !! k.
Proof.
  intros Hs Hk. apply option_eq. intros n. rewrite !nodes_map_lookup by (done || by apply ranged_sorted).
  unfold ranged. rewrite list_elem_of_filter. split; [tauto|]. intros [? <-]. done.
Qed.

Lemma nodes_map_keep l k n :
  sorted (keys l) -> live n -> nodes_map (filter (keep true) l) !! k = Some n <-> nodes_map l !! k = Some n.
Proof.
  intros Hs Hl. rewrite !nodes_map_lookup by (done || by apply keep_sorted).
  rewrite list_elem_of_filter. unfold keep. tauto.
Qed.

Lemma ranged_idem r l : ranged r (ranged r l) = ranged r l.
Proof. unfold ranged. rewrite list_filter_filter. apply list_filter_iff. tauto. Qed.

(** Lists whose keys are all in the region. *)
Definition in_region (r : KeyRange) (l : list ReverseNode) : Prop := Forall (fun n => in_key_range r (key n)) l.

Lemma in_region_ranged r l : in_region r (ranged r l).
Proof. apply Forall_forall. by intros n [? _]%list_elem_of_filter. Qed.

Lemma ranged_in_region r l : in_region r l -> ranged r l = l.
Proof. intros Hl. apply list_filter_all. intros n Hn. by eapply Forall_forall in Hl. Qed.

Lemma in_region_merge r new old : in_region r new -> in_region r old -> in_region r (merge_nodes new old).
Proof.
  revert new old. apply (merge_ind (fun new old =>
    in_region r new -> in_region r old -> in_region r (merge_nodes new old))).
  - done.
  - intros n new. by rewrite merge_nodes_nil_r.
  - intros n new o old E IH Hn Ho. rewrite merge_nodes_cons, E. apply Forall_cons in Hn as [? ?]. constructor; [done|by apply IH].
  - intros n new o old E IH Hn Ho. rewrite merge_nodes_cons, E. apply Forall_cons in Ho as [? ?]. constructor; [done|by apply IH].
  - intros n new o old E IH Hn Ho. rewrite merge_nodes_cons, E, lex_compare_refl.
    apply Forall_cons in Hn as [? ?], Ho as [_ ?]. constructor; [done|by apply IH].
Qed.

Lemma in_region_merged r del a b : in_region r (filter (keep del) (merge_nodes (ranged r a) (ranged r b))).
Proof.
  pose proof (in_region_merge r _ _ (in_region_ranged r a) (in_region_ranged r b)) as H.
  apply Forall_forall. intros n [_ Hn]%list_elem_of_filter. by eapply Forall_forall in H.
Qed.

Section Merge.
Context {host : Host} {codec : ReverseCodec} {codec_laws : ReverseCodecLaws}.
Context {D : Type} {db : RocksDb D} {laws : RocksDbLaws D}.
Context {L : Type} {ll : LinkedList L}.
Context (ix : IndexId) (pk_ok : bytes -> Prop).
Hypothesis pk_free : forall a b, pk_ok a -> pk_ok b -> a `prefix_of` b -> a = b.
Implicit Type d : D.

(** ** One list written *)

(** A store in which the list of one term and level is another. *)
Definition list_written (level : Z) (t : bytes) (l : list ReverseNode) d d' : Prop :=
  (forall k, k <> term_key ix level t -> db_get d' k = db_get d k) /\
  match db_get d' (term_key ix level t) with
  | Some v => list_parse v = Some l
  | None => l = []
  end.

Lemma put_list_written level t l v d :
  list_serialize l = Some v -> list_written level t l d (db_put d (term_key ix level t) v).
Proof.
  intros E. split.
  - intros k Hk. by rewrite get_put, decide_False.
  - rewrite get_put, decide_True by done. by apply list_parse_serialize.
Qed.

Lemma delete_list_written level t d : list_written level t [] d (db_delete d (term_key ix level t)).
Proof.
  split.
  - intros k Hk. by rewrite get_delete, decide_False.
  - by rewrite get_delete, decide_True.
Qed.

Lemma store_list_written level t l v d :
  list_serialize l = Some v ->
  list_written level t l d
    (match l with [] => db_delete d (term_key ix level t) | _ => db_put d (term_key ix level t) v end).
Proof. intros E. destruct l; [apply delete_list_written|by apply put_list_written]. Qed.

Section Written.
Context (level : Z) (t : bytes) (l : list ReverseNode) (d d' : D).
Hypothesis level_ok : level = 2 \/ level = 3.
Hypothesis written : list_written level t l d d'.

Lemma written_first_level k : is_level ix reverse_prefix k -> db_get d' k = db_get d k.
Proof.
  intros Hk. apply written. by apply first_not_list.
Qed.

Lemma written_first_pairs : first_pairs ix d' = first_pairs ix d.
Proof.
  apply pairs_ext; [apply first_pairs_sorted..|]. intros [k v]. rewrite !elem_of_first_pairs.
  split; intros [Hg Hl]; rewrite written_first_level in * by done; done.
Qed.

Lemma written_list level' t' :
  level' = 2 \/ level' = 3 ->
  level_list ix level' t' d' =
  if decide (level' = level /\ t' = t) then l else level_list ix level' t' d.
Proof.
  intros Hl'. destruct written as [Hother Hthis]. unfold level_list. case_decide as E.
  - destruct E as [-> ->]. destruct (db_get d' (term_key ix level t)) as [v|]; [|done].
    cbn [mbind option_bind]. by rewrite Hthis.
  - rewrite Hother; [done|]. intros Ek. apply term_key_inj in Ek; [done|..];
      destruct Hl' as [-> | ->], level_ok as [-> | ->]; done.
Qed.

Lemma written_ok : sorted (keys l) -> index_ok ix pk_ok d -> index_ok ix pk_ok d'.
Proof.
  intros Hs Hok. split.
  - intros k v Hg Hk. rewrite written_first_level in Hg by done. by apply (ok_first ix pk_ok d Hok k v).
  - intros level' k v Hl' Hg Hk. destruct written as [Hother Hthis].
    destruct (decide (k = term_key ix level t)) as [->|Hne].
    + rewrite Hg in Hthis. by exists l.
    + rewrite Hother in Hg by done. by apply (ok_list ix pk_ok d Hok level' k v).
Qed.

End Written.

(** ** The first level of one term deleted *)

Section Deleted.
Context (t : bytes) (d : D).
Hypothesis ok : index_ok ix pk_ok d.

Definition first_deleted : D := delete_pairs (term_pairs ix t d) d.

Lemma get_first_deleted k :
  db_get first_deleted k =
  if decide (is_level ix reverse_prefix k /\ get_term_from_reverse_key k = Some t) then None
  else db_get d k.
Proof.
  unfold first_deleted. rewrite get_delete_pairs.
  destruct (decide (k ∈ (term_pairs ix t d).*1)) as [Hin|Hout].
  - rewrite decide_True; [done|]. apply list_elem_of_fmap in Hin as ([k' v] & -> & Hin).
    apply elem_of_term_pairs in Hin. tauto.
  - case_decide as E; [|done]. destruct (db_get d k) as [v|] eqn:Eg; [|done].
    destruct Hout. apply list_elem_of_fmap. exists (k, v). split; [done|]. by apply elem_of_term_pairs.
Qed.

Lemma deleted_term_pairs t' :
  term_pairs ix t' first_deleted = if decide (t' = t) then [] else term_pairs ix t' d.
Proof.
  apply pairs_ext; [apply term_pairs_sorted| |].
  { case_decide; [constructor|apply term_pairs_sorted]. }
  intros [k v]. rewrite elem_of_term_pairs, get_first_deleted. case_decide as E; case_decide as Et.
  - rewrite elem_of_nil. split; [by intros []|done].
  - rewrite elem_of_term_pairs. split; [by intros []|]. intros (_ & _ & Ht). destruct E as [_ E].
    rewrite E in Ht. by injection Ht as ->.
  - rewrite elem_of_nil. subst. tauto.
  - by rewrite elem_of_term_pairs.
Qed.

Lemma deleted_list level t' :
  level = 2 \/ level = 3 -> level_list ix level t' first_deleted = level_list ix level t' d.
Proof.
  intros Hl. unfold level_list. rewrite get_first_deleted, decide_False; [done|]. intros [Hk _].
  by apply (first_not_list ix level t') in Hk.
Qed.

Lemma deleted_ok : index_ok ix pk_ok first_deleted.
Proof.
  split.
  - intros k v Hg Hk. rewrite get_first_deleted in Hg. case_decide; [done|].
    by apply (ok_first ix pk_ok d ok k v).
  - intros level k v Hl Hg Hk. rewrite get_first_deleted in Hg. case_decide; [done|].
    by apply (ok_list ix pk_ok d ok level k v).
Qed.

Lemma deleted_pending :
  pending_pairs ix first_deleted =
  filter (fun kv => get_term_from_reverse_key kv.1 <> Some t) (pending_pairs ix d).
Proof.
  apply pairs_ext; [apply pending_pairs_sorted|apply StronglySorted_filter, pending_pairs_sorted|].
  intros [k v]. unfold pending_pairs. rewrite !list_elem_of_filter, !elem_of_first_pairs, get_first_deleted.
  simpl. case_decide as E; [|tauto]. split; [by intros (_ & ? & _)|]. intros (Hne & _). tauto.
Qed.

End Deleted.

(** ** Searches *)

Lemma postings_ext r t d d' :
  (forall k n, in_key_range r k -> live n ->
     newest ix t d' !! k = Some n <-> newest ix t d !! k = Some n) ->
  postings ix r t d' = postings ix r t d.
Proof.
  intros H. unfold postings. apply map_eq. intros k. apply option_eq. intros n.
  rewrite !map_lookup_filter_Some. simpl. split; intros [Hk [Hr Hl]]; (split; [|done]);
    by apply (H k n Hr Hl).
Qed.

(** Searches see the pairs of the first level and the two lists. *)
Lemma postings_frame r t d d' :
  term_pairs ix t d' = term_pairs ix t d ->
  (forall level, level = 2 \/ level = 3 -> level_list ix level t d' = level_list ix level t d) ->
  postings ix r t d' = postings ix r t d.
Proof.
  intros Hf Hl. unfold postings, newest, first_nodes. rewrite Hf, !Hl by auto. done.
Qed.

(** The first level moved into the second. *)
Lemma merged_second r t v d (l := merge_nodes (ranged r (dedup_last (first_nodes ix t d)))
    (ranged r (level_list ix 2 t d))) :
  index_ok ix pk_ok d -> list_serialize l = Some v ->
  let d' := db_put (first_deleted t d) (term_key ix 2 t) v in
  index_ok ix pk_ok d' /\
  (forall level t', level = 2 \/ level = 3 ->
     level_list ix level t' d' = if decide (level = 2 /\ t' = t) then l else level_list ix level t' d) /\
  pending_pairs ix d' =
    filter (fun kv => get_term_from_reverse_key kv.1 <> Some t) (pending_pairs ix d) /\
  forall t', postings ix r t' d' = postings ix r t' d.
Proof.
  intros Hok Ev d'. assert (Hw : list_written 2 t l (first_deleted t d) d') by by apply put_list_written.
  assert (Hn : sorted (keys (dedup_last (first_nodes ix t d)))).
  { apply dedup_last_sorted. by apply (first_nodes_sorted ix pk_ok pk_free). }
  assert (H2 : sorted (keys (level_list ix 2 t d))) by (eapply level_list_sorted; [done|by left]).
  assert (Hl : sorted (keys l)) by (apply merge_nodes_sorted; by apply ranged_sorted).
  assert (Ho : index_ok ix pk_ok d') by (eapply written_ok; [by left|done|done|by apply deleted_ok]).
  assert (Elist : forall level t', level = 2 \/ level = 3 -> level_list ix level t' d' =
    if decide (level = 2 /\ t' = t) then l else level_list ix level t' d).
  { intros level t' Hlv. rewrite (written_list 2 t l _ _ ltac:(by left) Hw) by done.
    case_decide; [done|]. by apply deleted_list. }
  assert (Epairs : forall t', term_pairs ix t' d' = if decide (t' = t) then [] else term_pairs ix t' d).
  { intros t'. rewrite <- deleted_term_pairs. unfold term_pairs.
    by rewrite (written_first_pairs 2 t l _ _ ltac:(by left) Hw). }
  split; [done|]. split; [done|]. split.
  { unfold pending_pairs. rewrite (written_first_pairs 2 t l _ _ ltac:(by left) Hw).
    apply deleted_pending. }
  intros t'. destruct (decide (t' = t)) as [->|Hne].
  - apply postings_ext. intros k n Hk _. unfold newest, first_nodes.
    rewrite Epairs, decide_True, !Elist by auto. rewrite decide_True, decide_False by (done || lia).
    change (nodes_map (dedup_last (nodes_of []))) with (∅ : gmap bytes ReverseNode).
    rewrite (left_id_L ∅ (∪)). fold (first_nodes ix t d).
    unfold l. rewrite nodes_map_merge by by apply ranged_sorted.
    rewrite !lookup_union, !nodes_map_ranged by done. done.
  - apply postings_frame; [by rewrite Epairs, decide_False|].
    intros level Hlv. rewrite Elist, decide_False by tauto. done.
Qed.

(** The second level moved into the third, which drops the deleted nodes. *)
Lemma merged_third r t v d (l := filter (keep true) (merge_nodes (ranged r (level_list ix 2 t d))
    (ranged r (level_list ix 3 t d)))) :
  index_ok ix pk_ok d -> list_serialize l = Some v ->
  let k3 := term_key ix 3 t in
  let d1 := match l with [] => db_delete d k3 | _ => db_put d k3 v end in
  let d' := db_delete d1 (term_key ix 2 t) in
  index_ok ix pk_ok d' /\
  (forall level t', level = 2 \/ level = 3 -> level_list ix level t' d' =
     if decide (t' = t) then (if decide (level = 2) then [] else l) else level_list ix level t' d) /\
  pending_pairs ix d' = pending_pairs ix d /\
  forall t', postings ix r t' d' = postings ix r t' d.
Proof.
  intros Hok Ev k3 d1 d'. assert (Hw1 : list_written 3 t l d d1) by by apply store_list_written.
  assert (Hw2 : list_written 2 t [] d1 d') by apply delete_list_written.
  assert (H2 : sorted (keys (level_list ix 2 t d))) by (eapply level_list_sorted; [done|by left]).
  assert (H3 : sorted (keys (level_list ix 3 t d))) by (eapply level_list_sorted; [done|by right]).
  assert (Hm : sorted (keys (merge_nodes (ranged r (level_list ix 2 t d)) (ranged r (level_list ix 3 t d)))))
    by (apply merge_nodes_sorted; by apply ranged_sorted).
  assert (Ho1 : index_ok ix pk_ok d1) by (eapply written_ok; [by right|done|by apply keep_sorted|done]).
  assert (Elist : forall level t', level = 2 \/ level = 3 -> level_list ix level t' d' =
    if decide (t' = t) then (if decide (level = 2) then [] else l) else level_list ix level t' d).
  { intros level t' Hlv. rewrite (written_list 2 t [] _ _ ltac:(by left) Hw2) by done.
    rewrite (written_list 3 t l _ _ ltac:(by right) Hw1) by done.
    destruct Hlv as [-> | ->]; repeat case_decide; intuition congruence. }
  assert (Efirst : first_pairs ix d' = first_pairs ix d).
  { rewrite (written_first_pairs 2 t [] _ _ ltac:(by left) Hw2).
    by rewrite (written_first_pairs 3 t l _ _ ltac:(by right) Hw1). }
  split; [eapply written_ok; [by left|done|apply sorted_nil|done]|].
  split; [done|]. split; [unfold pending_pairs; by rewrite Efirst|].
  intros t'. destruct (decide (t' = t)) as [->|Hne].
  - apply postings_ext. intros k n Hk Hn. unfold newest, first_nodes, term_pairs.
    rewrite Efirst, !Elist, !decide_True, decide_False by (auto || lia).
    rewrite !lookup_union. change (nodes_map [] !! k) with (None : option ReverseNode).
    fold (term_pairs ix t d). fold (first_nodes ix t d).
    destruct (nodes_map (dedup_last (first_nodes ix t d)) !! k) as [m|].
    + destruct (nodes_map l !! k), (nodes_map (level_list ix 2 t d) !! k),
        (nodes_map (level_list ix 3 t d) !! k); done.
    + rewrite !(left_id_L None union). unfold l. rewrite nodes_map_keep by done.
      rewrite nodes_map_merge by by apply ranged_sorted.
      by rewrite lookup_union, !nodes_map_ranged.
  - apply postings_frame; [unfold term_pairs; by rewrite Efirst|].
    intros level Hlv. by rewrite Elist, decide_False.
Qed.

(** A list cut to the region. *)
Lemma ranged_list r level t v d (l := ranged r (level_list ix level t d)) :
  level = 2 \/ level = 3 -> index_ok ix pk_ok d -> list_serialize l = Some v ->
  let k := term_key ix level t in
  let d' := match l with [] => db_delete d k | _ => db_put d k v end in
  index_ok ix pk_ok d' /\
  (forall level' t', level' = 2 \/ level' = 3 -> level_list ix level' t' d' =
     if decide (level' = level /\ t' = t) then l else level_list ix level' t' d) /\
  first_pairs ix d' = first_pairs ix d /\
  forall t', postings ix r t' d' = postings ix r t' d.
Proof.
  intros Hlv Hok Ev k d'. assert (Hw : list_written level t l d d') by by apply store_list_written.
  assert (Hs : sorted (keys (level_list ix level t d))) by by eapply level_list_sorted.
  assert (Elist : forall level' t', level' = 2 \/ level' = 3 -> level_list ix level' t' d' =
     if decide (level' = level /\ t' = t) then l else level_list ix level' t' d)
    by (intros; by apply written_list).
  assert (Efirst : first_pairs ix d' = first_pairs ix d) by by eapply written_first_pairs.
  split; [eapply written_ok; [done|done|by apply ranged_sorted|done]|]. split; [done|]. split; [done|].
  intros t'. destruct (decide (t' = t)) as [->|Hne].
  - apply postings_ext. intros x n Hk _. unfold newest, first_nodes, term_pairs.
    rewrite Efirst, !lookup_union, !Elist by auto.
    destruct Hlv as [-> | ->].
    + rewrite decide_True, decide_False by (done || lia). unfold l. by rewrite nodes_map_ranged.
    + rewrite decide_False, decide_True by (done || lia). unfold l. by rewrite nodes_map_ranged.
  - apply postings_frame; [unfold term_pairs; by rewrite Efirst|].
    intros level' Hlv'. rewrite Elist, decide_False by tauto. done.
Qed.

End Merge.

(** * The merge of a full-text index, call by call

    The functions that merge the levels or cut them to the region, with every way
    the calls of the store can end. *)

Section Steps.
Context {host : Host} {codec : ReverseCodec} {codec_laws : ReverseCodecLaws}.
Context {D : Type} {db : RocksDb D} {laws : RocksDbLaws D}.
Context {L : Type} {ll : LinkedList L}.
Context (ix : IndexId) (pk_ok : bytes -> Prop).
Hypothesis pk_free : forall a b, pk_ok a -> pk_ok b -> a `prefix_of` b -> a = b.
Implicit Type d : D.
Implicit Type ri : ReverseIndex L.

(** ** What a step may change *)

(** Third levels that are the same in the region, those of some keys apart. *)
Definition third_kept (r : KeyRange) (ks : list bytes) d d' : Prop :=
  forall t, term_key ix 3 t ∉ ks -> ranged r (level_list ix 3 t d') = ranged r (level_list ix 3 t d).

Definition same_index ri ri' : Prop :=
  ri_id ri' = ri_id ri /\ second_level_length ri' = second_level_length ri /\
  is_over_cache ri' = is_over_cache ri /\ cached_list_length ri' = cached_list_length ri /\
  ri_key_range ri' = ri_key_range ri /\ write_count ri' = write_count ri /\ ri_cache ri' = ri_cache ri.

(** The second and third levels hold keys of the region only. *)
Definition lists_bounded (r : KeyRange) d : Prop :=
  forall level t, level = 2 \/ level = 3 -> in_region r (level_list ix level t d).

Record step_ok (r : KeyRange) ri d ri' d' : Prop := {
  step_index_ok : index_ok ix pk_ok d';
  step_postings t : postings ix r t d' = postings ix r t d;
  step_same : same_index ri ri';
  step_keys k : k ∈ cache_keys ri -> k ∈ cache_keys ri';
  step_third : is_over_cache ri = true -> third_kept r (cache_keys ri') d d';
  step_bounded : lists_bounded r d -> lists_bounded r d'
}.

Lemma same_index_refl ri : same_index ri ri.
Proof. by repeat split. Qed.

Lemma same_index_trans ri1 ri2 ri3 : same_index ri1 ri2 -> same_index ri2 ri3 -> same_index ri1 ri3.
Proof. unfold same_index. intros H1 H2. repeat split; intuition congruence. Qed.

Lemma step_refl r ri d : index_ok ix pk_ok d -> step_ok r ri d ri d.
Proof. intros. split; try done. Qed.

Lemma step_trans r ri1 d1 ri2 d2 ri3 d3 :
  step_ok r ri1 d1 ri2 d2 -> step_ok r ri2 d2 ri3 d3 -> step_ok r ri1 d1 ri3 d3.
Proof.
  intros [H1 H2 H3 H4 H5 H6] [G1 G2 G3 G4 G5 G6]. split.
  - done.
  - intros t. by rewrite G2.
  - by eapply same_index_trans.
  - auto.
  - intros Hc t Ht. destruct H3 as (_ & _ & Eo & _). rewrite G5 by (congruence || done).
    apply H5; [done|]. intros Hin. by apply Ht, G4.
  - auto.
Qed.

(** ** Reading and merging lists *)

Lemma read_level_spec get_ok level t d :
  index_ok ix pk_ok d -> level = 2 \/ level = 3 ->
  read_level ix get_ok level t d = if get_ok then Ok (level_list ix level t d) else Failed.
Proof.
  intros Hok Hl. unfold read_level, level_list. destruct get_ok; [|done]. cbn [negb].
  destruct (db_get d (term_key ix level t)) as [v|] eqn:E; [|done].
  destruct (ok_list ix pk_ok d Hok level _ v Hl E) as (l & El & _); [apply take_reverse_prefix|].
  cbn [mbind option_bind]. by rewrite El.
Qed.

Lemma length_ranged r l : (length (ranged r l) <= length l)%nat.
Proof. apply length_filter. Qed.

Lemma second_merge r is_del a b fuel :
  sorted (keys a) -> sorted (keys b) -> (length a + length b < fuel)%nat ->
  exists i j, level_merge fuel is_del (second_iterator a r) (second_iterator b r) =
    Ok (filter (keep is_del) (merge_nodes (ranged r a) (ranged r b)), i, j).
Proof.
  intros Ha Hb Hf.
  destruct (second_yields (second_iterator a r)) as [i Hi]; [by apply sorted_weakly|].
  destruct (second_yields (second_iterator b r)) as [j Hj]; [by apply sorted_weakly|].
  rewrite second_iterator_todo in Hi, Hj by done. exists i, j.
  apply level_merge_ref; [done|done|]. pose proof (length_ranged r a). pose proof (length_ranged r b). lia.
Qed.

Lemma keep_false (l : list ReverseNode) : filter (keep false) l = l.
Proof. by apply list_filter_all. Qed.

(** ** The second level into the third *)

(** A store whose calls succeed. *)
Definition good_status (st : MergeStatus) : Prop :=
  (forall k, ms_lock st k = true) /\ ms_get2 st = true /\ ms_put2 st = true /\ ms_commit2 st = true /\
  ms_get3 st = true /\ ms_write3 st = true /\ ms_delete2 st = true /\ ms_commit3 st = true.

Definition serialize_total : Prop := forall l, is_Some (list_serialize l).

Definition third_written ri (t : bytes) : ReverseIndex L :=
  if is_over_cache ri
  then set_merge_state ri (level_1_scan_count ri) (cache_keys ri ++ [term_key (ri_id ri) 3 t])
  else ri.

Lemma third_step r ri t v d (l := filter (keep true) (merge_nodes (ranged r (level_list ix 2 t d))
    (ranged r (level_list ix 3 t d)))) :
  index_ok ix pk_ok d -> ri_id ri = ix -> list_serialize l = Some v ->
  let k3 := term_key ix 3 t in
  let d1 := match l with [] => db_delete d k3 | _ => db_put d k3 v end in
  let d' := db_delete d1 (term_key ix 2 t) in
  step_ok r ri d (third_written ri t) d' /\ pending_pairs ix d' = pending_pairs ix d.
Proof.
  intros Hok Hid Ev k3 d1 d'.
  destruct (merged_third ix pk_ok r t v d Hok Ev) as (Hok' & H3 & Hp & Hpost).
  fold l k3 in Hok', H3, Hp, Hpost. fold d1 in Hok', H3, Hp, Hpost. fold d' in Hok', H3, Hp, Hpost.
  split; [|done]. split; [done|done| | | |].
  - unfold third_written. destruct (is_over_cache ri) eqn:E; [by repeat split|apply same_index_refl].
  - intros k Hk. unfold third_written. destruct (is_over_cache ri); [|done].
    simpl. apply elem_of_app. by left.
  - intros Hc t' Ht'. unfold third_written in Ht'. rewrite Hc, Hid in Ht'. simpl in Ht'.
    rewrite H3, decide_False; [done| |by right]. intros ->. apply Ht', elem_of_app. right. by apply list_elem_of_singleton.
  - intros Hb level t' Hlv. rewrite H3 by done. repeat case_decide; [constructor|apply in_region_merged|by apply Hb].
Qed.

Lemma merge_to_third_spec r ri st t d it :
  index_ok ix pk_ok d -> ri_id ri = ix -> ri_key_range ri = r ->
  exists o, merge_to_third_level ri st t (level_list ix 2 t d) d it = Ok o /\
    step_ok r ri d (mo_index o) (mo_db o) /\ pending_pairs ix (mo_db o) = pending_pairs ix d /\
    mo_iter o = it /\ (mo_ret o = 0 \/ mo_ret o = -1) /\
    (good_status st -> serialize_total -> mo_ret o = 0).
Proof.
  intros Hok Hid Hr. unfold merge_to_third_level. rewrite Hid, Hr.
  assert (Herr : forall P : Prop, ~ P ->
    exists o, Ok (mk_merge_out (-1) d it ri) = Ok o /\
      step_ok r ri d (mo_index o) (mo_db o) /\ pending_pairs ix (mo_db o) = pending_pairs ix d /\
      mo_iter o = it /\ (mo_ret o = 0 \/ mo_ret o = -1) /\ (P -> serialize_total -> mo_ret o = 0)).
  { intros P HP. eexists. split; [done|]. split; [by apply step_refl|].
    split; [done|]. split; [done|]. split; [by right|]. intros HP'. by destruct HP. }
  rewrite read_level_spec by auto. destruct (ms_get3 st) eqn:Eg; [|apply Herr; unfold good_status; intuition congruence].
  assert (H2 : sorted (keys (level_list ix 2 t d))) by (eapply level_list_sorted; [done|by left]).
  assert (H3 : sorted (keys (level_list ix 3 t d))) by (eapply level_list_sorted; [done|by right]).
  destruct (second_merge r true (level_list ix 2 t d) (level_list ix 3 t d)
    (S (length (level_list ix 2 t d) + length (level_list ix 3 t d))) H2 H3) as (i & j & ->); [lia|].
  destruct (list_serialize _) as [v|] eqn:Ev.
  2: { eexists. split; [done|]. split; [by apply step_refl|].
       split; [done|]. split; [done|]. split; [by right|]. intros _ Htot.
       destruct (Htot (filter (keep true) (merge_nodes (ranged r (level_list ix 2 t d))
         (ranged r (level_list ix 3 t d))))) as [? E]. by rewrite E in Ev. }
  destruct (ms_write3 st && ms_delete2 st && ms_commit3 st) eqn:Es.
  2: { apply Herr. intros (_ & _ & _ & _ & _ & E1 & E2 & E3). by rewrite E1, E2, E3 in Es. }
  destruct (third_step r ri t v d Hok Hid Ev) as [Hstep Hp].
  eexists. split; [done|]. unfold third_written in Hstep. rewrite Hid in Hstep.
  split; [exact Hstep|]. split; [exact Hp|]. split; [done|]. split; [by left|done].
Qed.

(** ** The first level into the second *)

Lemma count_step r ri d ri' d' count :
  step_ok r (set_merge_state ri count (cache_keys ri)) d ri' d' -> step_ok r ri d ri' d'.
Proof. intros []. by split. Qed.

Lemma pending_head d k v it :
  index_ok ix pk_ok d -> pending_pairs ix d = (k, v) :: it ->
  get_level_from_reverse_key k = Some reverse_prefix /\ exists t, get_term_from_reverse_key k = Some t.
Proof.
  intros Hok E. assert (Hin : (k, v) ∈ pending_pairs ix d) by (rewrite E; left).
  unfold pending_pairs in Hin. apply list_elem_of_filter in Hin as [_ Hin].
  apply elem_of_first_pairs in Hin as [Hg Hl]. split; [by apply (first_level ix)|].
  destruct (ok_first ix pk_ok d Hok k v Hg Hl) as (t & n & time & Ht & _ & -> & _).
  exists t. by apply term_of_first_key.
Qed.

Lemma length_dedup l : (length (dedup_last l) <= length l)%nat.
Proof. apply sublist_length, dedup_last_sublist. Qed.

Lemma length_nodes_of ps : (length (nodes_of ps) <= length ps)%nat.
Proof.
  unfold nodes_of. induction ps as [|kv ps IH]; [done|].
  cbn [omap list_omap] in *. destruct (node_parse kv.2); cbn [length]; lia.
Qed.

(** What merging the term at the head gives when no lock is missed. *)
Lemma first_merge r d k v it t fuel (rest := filter (fun kv => get_term_from_reverse_key kv.1 <> Some t)
    (pending_pairs ix d)) :
  index_ok ix pk_ok d -> pending_pairs ix d = (k, v) :: it -> get_term_from_reverse_key k = Some t ->
  (2 + length (pending_pairs ix d) + length (level_list ix 2 t d) <= fuel)%nat ->
  exists fi j, @level_merge _ _ (first_ms (fun _ => true)) _ fuel false
      (first_iterator (pending_pairs ix d) reverse_prefix r t true (Some d))
      (second_iterator (level_list ix 2 t d) r) =
    Ok (merge_nodes (ranged r (dedup_last (first_nodes ix t d))) (ranged r (level_list ix 2 t d)), fi, j) /\
    fl_txn fi = Some (first_deleted ix t d) /\ fl_iter fi = rest /\ (length rest < length (pending_pairs ix d))%nat.
Proof.
  intros Hok E Ht Hf. pose proof (pending_split ix pk_ok d k v it t Hok E Ht) as Hsplit. fold rest in Hsplit.
  assert (Hall : Forall (pair_of_term reverse_prefix t) (term_pairs ix t d)).
  { apply Forall_forall. intros [k' v'] Hin. apply elem_of_term_pairs in Hin as (Hg & Hl & Ht').
    split; [by apply (first_level ix)|]. split; [done|].
    destruct (ok_first ix pk_ok d Hok k' v' Hg Hl) as (? & n & ? & _ & _ & _ & Hp). by exists n. }
  assert (Hst : Forall (fun kv => db_get d kv.1 = Some kv.2) (term_pairs ix t d)).
  { apply Forall_forall. intros [k' v'] Hin. by apply elem_of_term_pairs in Hin as (Hg & _). }
  assert (Hnd : NoDup (term_pairs ix t d).*1) by apply pairs_nodup, term_pairs_sorted.
  assert (Hstop : stops reverse_prefix t rest).
  { assert (Hr : forall x, x ∈ rest -> get_term_from_reverse_key x.1 <> Some t /\ x ∈ pending_pairs ix d)
      by (intros x [? ?]%list_elem_of_filter; done).
    destruct rest as [|[k' v'] rest']; [done|]. destruct (Hr (k', v')) as [Hne Hin]; [left|].
    unfold pending_pairs in Hin. apply list_elem_of_filter in Hin as [_ Hin].
    apply elem_of_first_pairs in Hin as [Hg Hl]. exists reverse_prefix.
    split; [by apply (first_level ix)|]. right.
    destruct (ok_first ix pk_ok d Hok k' v' Hg Hl) as (t' & n & time & Ht' & _ & Ek & _).
    exists t'. simpl in Hne. rewrite Ek, term_of_first_key in Hne |- * by done. split; [done|congruence]. }
  destruct (first_yields reverse_prefix r t (term_pairs ix t d) rest d Hall Hst Hnd Hstop)
    as (fi & Hy & [Htxn Hiter]).
  rewrite <- Hsplit in Hy. fold (first_nodes ix t d) in Hy.
  assert (H2 : sorted (keys (level_list ix 2 t d))) by (eapply level_list_sorted; [done|by left]).
  destruct (second_yields (second_iterator (level_list ix 2 t d) r)) as [j Hj]; [by apply sorted_weakly|].
  rewrite second_iterator_todo in Hj by done.
  rewrite dedup_ranged in Hy by by apply (first_nodes_sorted ix pk_ok pk_free).
  assert (Hlen : (length (term_pairs ix t d) + length rest = length (pending_pairs ix d))%nat)
    by (rewrite <- length_app; by f_equal).
  exists fi, j. split; [|split; [done|split; [done|]]].
  - rewrite <- (keep_false (merge_nodes _ _)). apply (level_merge_ref false _ fi _ j _ _ fuel Hy Hj).
    pose proof (length_ranged r (dedup_last (first_nodes ix t d))).
    pose proof (length_ranged r (level_list ix 2 t d)).
    pose proof (length_dedup (first_nodes ix t d)). pose proof (length_nodes_of (term_pairs ix t d)).
    unfold first_nodes in *. lia.
  - assert (Hk : (k, v) ∈ term_pairs ix t d).
    { apply list_elem_of_filter. split; [done|]. assert (Hin : (k, v) ∈ pending_pairs ix d) by (rewrite E; left).
      by apply list_elem_of_filter in Hin as [_ ?]. }
    destruct (term_pairs ix t d); [by apply elem_of_nil in Hk|]. simpl in Hlen. lia.
Qed.

Lemma merge_second_spec r ri st d :
  index_ok ix pk_ok d -> ri_id ri = ix -> ri_key_range ri = r ->
  exists o, reverse_merge_to_second_level ri reverse_prefix st (pending_pairs ix d) d = Ok o /\
    step_ok r ri d (mo_index o) (mo_db o) /\
    (mo_ret o = 1 /\ pending_pairs ix (mo_db o) = [] \/
     mo_ret o = -1 /\ ~ (good_status st /\ serialize_total) \/
     mo_ret o = 0 /\ mo_iter o = pending_pairs ix (mo_db o) /\
       (length (mo_iter o) < length (pending_pairs ix d))%nat).
Proof.
  intros Hok Hid Hr. unfold reverse_merge_to_second_level.
  destruct (pending_pairs ix d) as [|[k v] it] eqn:Ep.
  { eexists. split; [done|]. split; [by apply step_refl|]. left. by split. }
  destruct (pending_head d k v it Hok Ep) as (El & t & Et).
  cbn [is_prefix_end]. rewrite El. cbn [deref mbind res_bind head]. rewrite Z.eqb_refl. cbn [negb].
  rewrite Et. cbn [deref mbind res_bind]. rewrite Hid, read_level_spec by auto.
  assert (Herr : forall ri' (P : Prop), ri' = ri \/ (exists c, ri' = set_merge_state ri c (cache_keys ri)) -> ~ P ->
    exists o, Ok (mk_merge_out (-1) d ((k, v) :: it) ri') = Ok o /\
    step_ok r ri d (mo_index o) (mo_db o) /\
    (mo_ret o = 1 /\ pending_pairs ix (mo_db o) = [] \/ mo_ret o = -1 /\ ~ P \/
     mo_ret o = 0 /\ mo_iter o = pending_pairs ix (mo_db o) /\
       (length (mo_iter o) < length ((k, v) :: it))%nat)).
  { intros ri' P Hri HP. eexists. split; [done|]. split; [|right; left; done].
    destruct Hri as [->|[c ->]]; [by apply step_refl|]. by split. }
  destruct (ms_get2 st) eqn:Eg; [|apply Herr; [by left|unfold good_status; intuition congruence]].
  destruct (first_merge r d k v it t (2 + length ((k, v) :: it) + length (level_list ix 2 t d)) Hok Ep Et)
    as (fi & j & Em & Htxn & Hit & Hlen); [rewrite Ep; lia|].
  rewrite <- Hit in Hlen. rewrite Ep in Em, Hlen. rewrite Hr.
  pose proof (level_merge_lock (ms_lock st) (2 + length ((k, v) :: it) + length (level_list ix 2 t d)) false
    (first_iterator ((k, v) :: it) reverse_prefix r t true (Some d))
    (second_iterator (level_list ix 2 t d) r)) as Hlock.
  rewrite Em in Hlock. set (lm := level_merge _ _ _ _) in *.
  destruct Hlock as [[[kl Hkl] Hfail]|Hlock].
  { rewrite Hfail. apply Herr; [by left|]. intros [[Hg _] _]. by rewrite Hg in Hkl. }
  rewrite Hlock. set (l := merge_nodes _ _) in *.
  set (ri1 := set_merge_state ri _ _).
  destruct (list_serialize l) as [v2|] eqn:Ev.
  2: { apply Herr; [right; by eexists|]. intros [_ Htot]. destruct (Htot l) as [? E]. congruence. }
  rewrite Htxn. cbn [deref mbind res_bind].
  destruct (ms_put2 st && ms_commit2 st) eqn:Es; cbn [negb].
  2: { apply Herr; [right; by eexists|]. intros [(_ & _ & E1 & E2 & _) _]. by rewrite E1, E2 in Es. }
  destruct (merged_second ix pk_ok pk_free r t v2 d Hok Ev) as (Hok2 & Elist & Hp2 & Hpost2).
  set (d2 := db_put (first_deleted ix t d) (term_key ix 2 t) v2) in *. fold l in Elist.
  assert (El2 : level_list ix 2 t d2 = l) by (rewrite Elist by auto; by rewrite decide_True).
  assert (Hstep2 : step_ok r ri d ri1 d2).
  { split; [done|done|by repeat split|done| |].
    - intros _ t' _. by rewrite Elist, decide_False by (auto || lia).
    - intros Hb level t' Hlv. rewrite Elist by done. case_decide; [|by apply Hb].
      unfold l. rewrite <- (keep_false (merge_nodes _ _)). apply in_region_merged. }
  change (ri_id ri1) with (ri_id ri). rewrite Hid. fold d2.
  assert (Hrest : fl_iter fi = pending_pairs ix d2) by by rewrite Hit.
  case_match.
  - rewrite <- El2.
    destruct (merge_to_third_spec r ri1 st t d2 (fl_iter fi) Hok2 Hid Hr)
      as (o & -> & Hstep3 & Hp3 & Hi3 & Hret & Hgood).
    exists o. split; [done|]. split; [by eapply step_trans|]. right.
    destruct Hret as [Hret|Hret].
    + right. split; [done|]. rewrite Hi3, Hp3. by split.
    + left. split; [done|]. intros [Hg Ht]. rewrite Hgood in Hret by done. done.
  - eexists. split; [done|]. split; [done|]. right. right. by repeat split.
Qed.

End Steps.
