(* ===== verification/ReverseMergeFunc.v ===== *)
(** * The background merge of a full-text index

    [reverse_merge_func] as a whole: it ends, keeps what searches find and leaves
    nothing in the first level; and the cache of third levels stays true to the
    store when the merge succeeds. *)

From Stdlib Require Import Sorted.
From stdpp Require Import gmap sorting.
From S2P Require Import Prelude KeyEncoder KvStore TableKey Ordered ReverseList LruCache ReverseIndex ReverseFirstFacts ReverseIndexFacts ReverseMergeFacts.

(** ** Lists that lie in the region *)

Lemma end_key_compare_lt a b : end_key_compare a b < 0 <-> a <> b /\ (b = [] \/ (a <> [] /\ bytes_lt a b)).
Proof.
  unfold end_key_compare, bytes_lt. case_bool_decide as E; [split; [lia|tauto]|].
  destruct a as [|x a], b as [|y b]; [done| | |].
  - split; [lia|]. intros [_ [?|[? _]]]; done.
  - split; [by split; [|left]|lia].
  - destruct (lex_compare (x :: a) (y :: b)) eqn:Ec; simpl.
    + by apply lex_compare_eq in Ec.
    + split; [|lia]. intros _. split; [done|]. right. by split.
    + split; [lia|]. by intros [_ [?|[_ ?]]].
Qed.

Lemma below_range_false r k : below_range r k = false <-> ~ bytes_lt k r.1.
Proof.
  unfold below_range. rewrite andb_false_iff, negb_false_iff, bool_decide_eq_true, bytes_ltb_false.
  split; [|by right]. intros [->|?]; [apply not_lt_nil|done].
Qed.

Lemma above_range_false r k : above_range r k = false <-> r.2 = [] \/ bytes_lt k r.2.
Proof.
  unfold above_range. rewrite andb_false_iff, !negb_false_iff, bool_decide_eq_true, bytes_ltb_spec. done.
Qed.

Lemma ends_in_range_all r l : sorted (keys l) -> ends_in_range r l = true -> ranged r l = l.
Proof.
  intros Hs He. unfold ends_in_range in He. destruct (head l) as [a|] eqn:Eh; [|done].
  destruct (last l) as [b|] eqn:El; [|done]. apply andb_true_iff in He as [H1 H2].
  apply negb_true_iff, bytes_ltb_false in H1. apply Z.ltb_lt, end_key_compare_lt in H2 as [_ H2].
  assert (Hfirst : forall n, n ∈ l -> ~ bytes_lt (key n) (key a)).
  { intros n Hn. destruct l as [|a' l]; [done|]. injection Eh as ->. rewrite keys_cons in Hs.
    apply (sorted_head_least (key a) (keys l) (key n) Hs).
    apply elem_of_cons in Hn as [->|Hn]; [left|right]. by apply list_elem_of_fmap_2. }
  assert (Hlast : forall n, n ∈ l -> key n = key b \/ bytes_lt (key n) (key b)).
  { intros n [i Hi]%list_elem_of_lookup_1. rewrite last_lookup in El.
    pose proof (lookup_lt_Some _ _ _ Hi). destruct (decide (i = pred (length l))) as [->|Hne].
    - left. congruence.
    - right. apply (sorted_lookup_lt (keys l) i (pred (length l))); [done|lia|..];
        unfold keys; rewrite list_lookup_fmap; [by rewrite Hi|by rewrite El]. }
  apply list_filter_all. intros n Hn. split.
  - apply below_range_false. intros Hlt. apply H1. specialize (Hfirst n Hn).
    destruct (bytes_lt_total (key a) (key n)) as [?|[->|?]]; [by transitivity (key n)|done|done].
  - apply above_range_false. destruct H2 as [?|[_ H2]]; [by left|right].
    destruct (Hlast n Hn) as [->|?]; [done|by transitivity (key b)].
Qed.

Lemma ranged_full r l : length (ranged r l) = length l -> ranged r l = l.
Proof.
  unfold ranged. induction l as [|n l IH]; [done|]. rewrite filter_cons. case_decide; simpl.
  - intros [= E]. f_equal. by apply IH.
  - pose proof (length_ranged r l). unfold ranged in *. lia.
Qed.

Section Func.
Context {host : Host} {codec : ReverseCodec} {codec_laws : ReverseCodecLaws}.
Context {D : Type} {db : RocksDb D} {laws : RocksDbLaws D}.
Context {L : Type} {ll : LinkedList L} {ll_laws : LinkedListLaws L}.
Context (ix : IndexId) (pk_ok : bytes -> Prop).
Hypothesis pk_free : forall a b, pk_ok a -> pk_ok b -> a `prefix_of` b -> a = b.
Implicit Type d : D.
Implicit Type ri : ReverseIndex L.

(** ** All terms *)

Lemma merge_terms_spec r fuel ri st d :
  index_ok ix pk_ok d -> ri_id ri = ix -> ri_key_range ri = r ->
  (length (pending_pairs ix d) < fuel)%nat ->
  exists o, merge_terms fuel ri reverse_prefix st (pending_pairs ix d) d = Ok o /\
    step_ok ix pk_ok r ri d (mo_index o) (mo_db o) /\
    (mo_ret o = 1 /\ pending_pairs ix (mo_db o) = [] \/
     mo_ret o = -1 /\ ~ ((forall i, good_status (st i)) /\ serialize_total)).
Proof.
  revert ri d. induction fuel as [|fuel IH]; [lia|]. intros ri d Hok Hid Hr Hf. cbn [merge_terms].
  destruct (merge_second_spec ix pk_ok pk_free r ri (st fuel) d Hok Hid Hr) as (o & -> & Hstep & Ho).
  cbn [mbind res_bind]. destruct Ho as [[Hret Hp]|[[Hret Hg]|(Hret & Hit & Hlen)]]; rewrite Hret; cbn [Z.eqb].
  - exists o. split; [done|]. split; [done|]. by left.
  - exists o. split; [done|]. split; [done|]. right. split; [done|]. intros [? ?]. by apply Hg.
  - rewrite Hit in *. pose proof (step_same _ _ _ _ _ _ _ Hstep) as (Eid & _ & _ & _ & Er & _).
    destruct (IH (mo_index o) (mo_db o)) as (o' & -> & Hstep' & Ho').
    + apply Hstep.
    + congruence.
    + congruence.
    + lia.
    + exists o'. split; [done|]. split; [by eapply step_trans|done].
Qed.

(** ** Cutting lists to the region *)

(** Cuts at one level leave everything else. *)
Definition cut_ok (r : KeyRange) d d' : Prop :=
  index_ok ix pk_ok d' /\ (forall t, postings ix r t d' = postings ix r t d) /\
  third_kept ix r [] d d' /\ (lists_bounded ix r d -> lists_bounded ix r d') /\
  first_pairs ix d' = first_pairs ix d.

Lemma cut_refl r d : index_ok ix pk_ok d -> cut_ok r d d.
Proof. intros. by split. Qed.

Lemma cut_trans r d1 d2 d3 : cut_ok r d1 d2 -> cut_ok r d2 d3 -> cut_ok r d1 d3.
Proof.
  intros (H1 & H2 & H3 & H4 & H5) (G1 & G2 & G3 & G4 & G5). split; [done|]. split; [intros; by rewrite G2|].
  split; [intros t Ht; by rewrite G3, H3|]. split; [auto|congruence].
Qed.

Lemma remove_round_spec r level st k v d :
  level = 2 \/ level = 3 -> index_ok ix pk_ok d -> db_get d k = Some v -> is_level ix level k ->
  exists ret d', remove_round r st (k, v) d = Ok (ret, d') /\ cut_ok r d d' /\
    (forall k', k' <> k -> db_get d' k' = db_get d k') /\
    (ret = Some (-1) \/ ret = None /\ ((17 < length k)%nat ->
       forall l, level_list ix level (drop 17 k) d' = l -> ranged r l = l)).
Proof.
  intros Hlv Hok Hg Hk. unfold remove_round.
  assert (Ek : k = term_key ix level (drop 17 k)) by by apply key_of_prefix.
  set (t := drop 17 k) in *.
  assert (El : exists l, list_parse v = Some l /\ sorted (keys l) /\ level_list ix level t d = l).
  { destruct (ok_list ix pk_ok d Hok level k v Hlv Hg Hk) as (l & E & Hs). exists l.
    split; [done|]. split; [done|]. unfold level_list. rewrite <- Ek, Hg. cbn [mbind option_bind]. by rewrite E. }
  destruct El as (l & Epar & Hs & El).
  assert (Hstay : forall ret,
    (ret = Some (-1) \/ ret = None /\ ((17 < length k)%nat -> ranged r l = l)) ->
    exists ret' d', Ok (ret, d) = Ok (ret', d') /\ cut_ok r d d' /\
      (forall k', k' <> k -> db_get d' k' = db_get d k') /\
      (ret' = Some (-1) \/ ret' = None /\ ((17 < length k)%nat ->
         forall l, level_list ix level t d' = l -> ranged r l = l))).
  { intros ret Hret. exists ret, d. split; [done|]. split; [by apply cut_refl|]. split; [done|].
    destruct Hret as [?|[? Hret]]; [by left|right]. split; [done|]. intros Hl l' <-. rewrite El.
    by apply Hret. }
  destruct (Z.leb_spec (Z.of_nat (length k)) 17); [apply Hstay; right; split; [done|lia]|].
  rewrite Epar. destruct (ends_in_range r l) eqn:Ee.
  { apply Hstay. right. split; [done|]. intros _. by apply ends_in_range_all. }
  destruct (second_merge r false [] l (S (length l)) (sorted_nil) Hs) as (i & j & ->); [simpl; lia|].
  rewrite keep_false. change (merge_nodes (ranged r []) (ranged r l)) with (ranged r l).
  destruct ((0 <? Z.of_nat (length l)) && (Z.of_nat (length (ranged r l)) =? Z.of_nat (length l))) eqn:En.
  { apply Hstay. right. split; [done|]. intros _. apply ranged_full. apply andb_true_iff in En as [_ En].
    apply Z.eqb_eq in En. lia. }
  destruct (list_serialize (ranged r l)) as [v'|] eqn:Ev; [|apply Hstay; by left].
  destruct (rs_write st && rs_commit st); [|apply Hstay; by left].
  rewrite <- El in Ev. destruct (ranged_list ix pk_ok r level t v' d Hlv Hok Ev) as (Hok' & Hl' & Hf' & Hp').
  rewrite El, <- Ek in Hok', Hl', Hf', Hp'. eexists None, _. split; [done|]. split; [|split].
  - split; [done|]. split; [done|]. split; [|split; [|done]].
    + intros t' _. rewrite Hl' by auto. case_decide as E; [|done].
      destruct E as [<- ->]. by rewrite El, ranged_idem.
    + intros Hb level' t' Hlv'. rewrite Hl' by done. case_decide; [apply in_region_ranged|by apply Hb].
  - intros k' Hne. destruct (ranged r l); [by rewrite get_delete, decide_False|by rewrite get_put, decide_False].
  - right. split; [done|]. intros _ l' <-. rewrite Hl', decide_True by done. apply ranged_idem.
Qed.

Lemma remove_loop_spec r level st it d :
  level = 2 \/ level = 3 -> index_ok ix pk_ok d -> NoDup it.*1 ->
  Forall (fun kv => db_get d kv.1 = Some kv.2 /\ is_level ix level kv.1) it ->
  exists ret d', remove_loop r level st it d = Ok (ret, d') /\ cut_ok r d d' /\
    (forall k', k' ∉ it.*1 -> db_get d' k' = db_get d k') /\
    (ret = 0 -> forall k, k ∈ it.*1 -> (17 < length k)%nat ->
       ranged r (level_list ix level (drop 17 k) d') = level_list ix level (drop 17 k) d').
Proof.
  intros Hlv. revert d. induction it as [|[k v] it IH]; intros d Hok Hnd Hall.
  { exists 0, d. split; [done|]. split; [by apply cut_refl|]. split; [done|].
    intros _ k Hk. by apply elem_of_nil in Hk. }
  rewrite fmap_cons in *. apply NoDup_cons in Hnd as [Hk Hnd]. apply Forall_cons in Hall as [[Hg Hl] Hall].
  simpl in Hg, Hl, Hk. cbn [remove_loop is_prefix_end].
  assert (Hu : is_u 8 level) by by destruct Hlv as [-> | ->].
  assert (Elv : get_level_from_reverse_key k = Some level).
  { rewrite (key_of_prefix k _ Hl). by apply level_of_prefix. }
  rewrite Elv. cbn [deref mbind res_bind]. rewrite Z.eqb_refl. cbn [negb].
  destruct (remove_round_spec r level (st k) k v d Hlv Hok Hg Hl) as (ret & d1 & E1 & Hcut & Hother & Hin).
  cbn [fst]. rewrite E1. cbn [mbind res_bind]. destruct Hin as [-> |[-> Hin]].
  - exists (-1), d1. split; [done|]. split; [done|]. split; [|done].
    intros k' Hk'. apply Hother. intros ->. apply Hk'. left.
  - destruct (IH d1) as (ret & d' & E' & Hcut' & Hother' & Hin').
    + apply Hcut.
    + done.
    + apply Forall_forall. intros [k' v'] Hin2. eapply Forall_forall in Hall; [|done].
      rewrite Hother; [done|]. intros E. apply Hk. rewrite <- E. by apply list_elem_of_fmap_2.
    + exists ret, d'. split; [done|]. split; [by eapply cut_trans|]. split.
      * intros k' Hk'. rewrite Hother'; [apply Hother|]; intros ?; apply Hk'; [subst; left|by right].
      * intros Hret k' [->|Hk']%elem_of_cons Hlen; [|by apply Hin'].
        assert (Ek : term_key ix level (drop 17 k) = k) by (symmetry; by apply key_of_prefix).
        apply (Hin Hlen). unfold level_list. by rewrite Ek, Hother'.
Qed.


Lemma bounded_scan_level level d kv :
  kv ∈ bounded_scan d (create_reverse_key_prefix ix level) <->
  db_get d kv.1 = Some kv.2 /\ is_level ix level kv.1 /\
  bytes_lt kv.1 (end_key (create_reverse_key_prefix ix level)).
Proof.
  destruct kv as [k v]. unfold bounded_scan. rewrite list_elem_of_filter, elem_of_scan. simpl. split.
  - intros (Hlt & Hg & Ht & Hge). split; [done|]. split; [|done]. unfold bytes_lt in Hlt.
    destruct (between_prefix (create_reverse_key_prefix ix level) [] (mem_store 8 (2 ^ 64 - 1)) k)
      as [c ->]; [by rewrite app_nil_r|unfold end_key in Hlt; by rewrite Hlt|apply take_reverse_prefix].
  - intros (Hg & Hl & Hlt). split; [done|]. split; [done|]. unfold is_level in Hl.
    apply key_of_prefix in Hl. rewrite Hl. split; [|apply not_before_prefix].
    rewrite take_16_prefix, <- (take_16_prefix ix level []). by rewrite app_nil_r.
Qed.

Lemma remove_range_spec r ri level st d :
  level = 2 \/ level = 3 -> ri_id ri = ix -> ri_key_range ri = r -> index_ok ix pk_ok d ->
  exists ret d', reverse_remove_range_for_third_level ri level st d = Ok (ret, d') /\ cut_ok r d d' /\
    (ret = 0 -> forall t, t <> [] ->
       bytes_lt (term_key ix level t) (end_key (create_reverse_key_prefix ix level)) ->
       ranged r (level_list ix level t d') = level_list ix level t d').
Proof.
  intros Hlv Hid Hr Hok. unfold reverse_remove_range_for_third_level. rewrite Hid, Hr.
  set (it := bounded_scan d _). assert (Hit := fun kv => bounded_scan_level level d kv). fold it in Hit.
  destruct (remove_loop_spec r level st it d Hlv Hok) as (ret & d' & E & Hcut & Hother & Hin).
  - apply pairs_nodup, StronglySorted_filter, scan_sorted.
  - apply Forall_forall. intros kv Hkv. apply Hit in Hkv. tauto.
  - exists ret, d'. split; [done|]. split; [done|]. intros Hret t Ht Hlt.
    destruct (decide (term_key ix level t ∈ it.*1)) as [Hk|Hk].
    + specialize (Hin Hret _ Hk). unfold term_key in Hin. rewrite drop_reverse_prefix in Hin.
      apply Hin. rewrite length_app, length_reverse_prefix. destruct t; [done|]. simpl. lia.
    + assert (E2 : level_list ix level t d' = []); [|by rewrite E2].
      unfold level_list. rewrite Hother by done.
      destruct (db_get d (term_key ix level t)) as [v|] eqn:Eg; [|done].
      destruct Hk. apply list_elem_of_fmap. exists (term_key ix level t, v). split; [done|].
      apply Hit. split; [done|]. split; [apply take_reverse_prefix|done].
Qed.

(** ** The cache *)

(** Every cached list is the stored one as far as the region goes, those of some
    keys apart. *)
Definition coherent (r : KeyRange) (ks : list bytes) (s : list (bytes * list ReverseNode)) d : Prop :=
  forall k l, (k, l) ∈ s -> k ∉ ks ->
    exists t, k = term_key ix 3 t /\ sorted (keys l) /\
      ranged r l = ranged r (level_list ix 3 t d).

Lemma coherent_kept r ks ks' s d d' :
  coherent r ks s d -> (forall k, k ∈ ks -> k ∈ ks') -> third_kept ix r ks' d d' -> coherent r ks' s d'.
Proof.
  intros Hc Hsub Ht k l Hin Hk. destruct (Hc k l Hin) as (t & -> & Hs & E); [auto|].
  exists t. split; [done|]. split; [done|]. by rewrite E, Ht.
Qed.

Definition cache_holds ri s : Prop := holds (ri_cache ri) None s.

Lemma del_keys_spec ks c (s : list (bytes * list ReverseNode)) :
  holds c None s ->
  exists c', del_keys ks c = Ok c' /\ holds c' None (foldr without s (reverse ks)).
Proof.
  revert c s; induction ks as [|k ks IH]; intros c s Hh; [by exists c|]. cbn [del_keys].
  destruct (cache_del_spec k c s Hh) as (c1 & -> & Hh1 & _). cbn [deref mbind res_bind].
  destruct (IH c1 _ Hh1) as (c2 & E2 & Hh2). exists c2. split; [done|].
  rewrite reverse_cons, foldr_app. done.
Qed.

Lemma foldr_without ks (s : list (bytes * list ReverseNode)) e :
  e ∈ foldr without s ks <-> e ∈ s /\ e.1 ∉ ks.
Proof.
  induction ks as [|k ks IH]; simpl; [rewrite elem_of_nil; tauto|].
  unfold without at 1. rewrite list_elem_of_filter, IH, not_elem_of_cons. tauto.
Qed.

(** ** The whole merge *)

Lemma pending_over d :
  index_ok ix pk_ok d ->
  is_prefix_end (pending_pairs ix d) reverse_prefix = Ok (bool_decide (pending_pairs ix d = [])).
Proof.
  intros Hok. destruct (pending_pairs ix d) as [|[k v] it] eqn:E; [done|].
  destruct (pending_head ix pk_ok d k v it Hok E) as [El _]. cbn [is_prefix_end]. by rewrite El.
Qed.

(** The lists of the second and third level cut, if asked for. *)
Lemma cut_phase r ri (need : bool) rst d :
  index_ok ix pk_ok d -> ri_id ri = ix -> ri_key_range ri = r ->
  exists d', (if need then
       '(_, d) ← reverse_remove_range_for_third_level ri 2 (rst 2) d;
       '(_, d) ← reverse_remove_range_for_third_level ri 3 (rst 3) d;
       Ok d
     else Ok d) = Ok d' /\ cut_ok r d d'.
Proof.
  intros Hok Hid Hr. destruct need; [|exists d; split; [done|by apply cut_refl]].
  destruct (remove_range_spec r ri 2 (rst 2) d ltac:(by left) Hid Hr Hok) as (? & d1 & -> & Hc1 & _).
  cbn [mbind res_bind].
  destruct (remove_range_spec r ri 3 (rst 3) d1 ltac:(by right) Hid Hr) as (? & d2 & -> & Hc2 & _);
    [apply Hc1|]. exists d2. split; [done|]. by eapply cut_trans.
Qed.

(** Cached lists hold keys of the region only. *)
Definition cache_bounded (r : KeyRange) ri : Prop :=
  forall s k l, cache_holds ri s -> (k, l) ∈ s -> in_region r l.

Lemma cache_bounded_sub r ri ri' s s' :
  cache_bounded r ri -> cache_holds ri s -> cache_holds ri' s' ->
  (forall k l, (k, l) ∈ s' -> (k, l) ∈ s \/ in_region r l) -> cache_bounded r ri'.
Proof.
  intros Hb Hs Hs' Hsub s1 k l Hs1 Hin. rewrite (holds_unique _ _ _ Hs1 Hs') in Hin.
  destruct (Hsub k l Hin); [by eapply Hb|done].
Qed.

(** What a merge does beside: lists stay in the region, nothing of the first level
    changes when nothing was written, the count of writes stays positive or zero, and the
    region is remembered. *)
Definition merge_frame (r : KeyRange) ri d ri' d' : Prop :=
  (lists_bounded ix r d -> cache_bounded r ri -> lists_bounded ix r d' /\ cache_bounded r ri') /\
  (write_count ri <= 0 -> first_pairs ix d' = first_pairs ix d) /\
  (0 <= write_count ri -> 0 <= write_count ri') /\ ri_key_range ri' = r.

Lemma merge_frame_same r ri d ri' d' :
  ri_cache ri' = ri_cache ri -> (lists_bounded ix r d -> lists_bounded ix r d') ->
  (write_count ri <= 0 -> first_pairs ix d' = first_pairs ix d) ->
  (0 <= write_count ri -> 0 <= write_count ri') -> ri_key_range ri' = r -> merge_frame r ri d ri' d'.
Proof.
  intros Ec Hl Hf Hw Hr. split; [|by split_and!]. intros Hb Hc. split; [by apply Hl|].
  intros s k l. unfold cache_holds. rewrite Ec. apply Hc.
Qed.

(** An index whose cache is true to the store. *)
Definition index_ready (r : KeyRange) (ri : ReverseIndex L) d : Prop :=
  ri_id ri = ix /\ exists s, cache_holds ri s /\ (is_over_cache ri = true -> coherent r [] s d).

(** The merge ends with code 0 or -1; in either case the index is in form and every
    term selects what it did; with code 0 the first level is empty and the cache is
    true, and -1 is for calls of the store that failed. *)
Lemma merge_func_spec r ri need rst mst d :
  index_ok ix pk_ok d -> index_ready r ri d ->
  exists ret d' ri', reverse_merge_func ri r need rst mst d = Ok (ret, d', ri') /\
    index_ok ix pk_ok d' /\ (forall t, postings ix r t d' = postings ix r t d) /\
    (ret = 0 /\ (0 < write_count ri -> pending_pairs ix d' = []) /\ index_ready r ri' d' \/
     ret = -1 /\ ~ ((forall i, good_status (mst i)) /\ serialize_total)) /\
    merge_frame r ri d ri' d'.
Proof.
  intros Hok (Hid & s & Hh & Hcoh). unfold reverse_merge_func.
  destruct (cut_phase r (start_merge ri r) need rst d Hok Hid eq_refl) as (d1 & -> & Hok1 & Hp1 & H31 & Hb1 & Hf1).
  cbn [mbind res_bind]. change (write_count (start_merge ri r)) with (write_count ri).
  assert (Hcoh1 : is_over_cache ri = true -> coherent r [] s d1).
  { intros Hc. apply (coherent_kept r [] [] s d d1); [by apply Hcoh|done|done]. }
  destruct (Z.leb_spec (write_count ri) 0) as [Hw|Hw].
  { eexists _, _, _. split; [done|]. split; [done|]. split; [done|]. split; [|by apply merge_frame_same].
    left. split; [done|]. split; [lia|]. split; [done|]. exists s. by split. }
  change (ri_id (reset_counts (start_merge ri r))) with (ri_id ri). rewrite Hid, bounded_scan_first.
  rewrite pending_over by done. cbn [mbind res_bind].
  change (is_over_cache (reset_counts (start_merge ri r))) with (is_over_cache ri).
  set (ri1 := if is_over_cache ri then _ else reset_counts (start_merge ri r)).
  assert (Hri1 : same_index (reset_counts (start_merge ri r)) ri1).
  { unfold ri1. destruct (is_over_cache ri); by repeat split. }
  pose proof Hri1 as (Eid & _ & Eover & _ & Er & Ew & Ec). change (ri_id ri1 = ri_id ri) in Eid.
  change (is_over_cache ri1 = is_over_cache ri) in Eover. change (ri_cache ri1 = ri_cache ri) in Ec.
  case_bool_decide as Epend.
  { eexists _, _, _. split; [done|]. split; [done|]. split; [done|].
    split; [|apply merge_frame_same; [done|done|lia|by rewrite Ew|by rewrite Er]]. left. split; [done|].
    split; [done|]. split; [congruence|]. exists s.
    split; [unfold cache_holds; by rewrite Ec|by rewrite Eover]. }
  destruct (merge_terms_spec r (S (length (pending_pairs ix d1))) ri1 mst d1)
    as (o & -> & Hstep & Hret); [done|congruence|done|lia|]. cbn [mbind res_bind].
  assert (Hp : forall t, postings ix r t (mo_db o) = postings ix r t d).
  { intros t. by rewrite (step_postings _ _ _ _ _ _ _ Hstep), Hp1. }
  pose proof (step_index_ok _ _ _ _ _ _ _ Hstep) as Hok2.
  pose proof (step_same _ _ _ _ _ _ _ Hstep) as (Eid2 & _ & Eo2 & _ & Er2 & Ew2 & Ec2).
  assert (Hframe : merge_frame r ri d (mo_index o) (mo_db o)).
  { apply merge_frame_same; [by rewrite Ec2, Ec| |lia|by rewrite Ew2, Ew|by rewrite Er2, Er].
    intros Hb. apply (step_bounded _ _ _ _ _ _ _ Hstep). by apply Hb1. }
  destruct Hret as [[Hret Hpend]|[Hret Hbad]]; rewrite Hret; cbn [Z.eqb].
  2: { eexists _, _, _. split; [done|]. split; [done|]. split; [done|]. split; [by right|done]. }
  rewrite Eover. destruct (is_over_cache ri) eqn:Eo.
  - destruct (del_keys_spec (cache_keys (mo_index o)) (ri_cache (mo_index o)) s) as (c' & -> & Hh').
    { by rewrite Ec2, Ec. }
    cbn [mbind res_bind]. eexists _, _, _. split; [done|]. split; [done|]. split; [done|].
    split; [|split; [|split; [lia|split; [intros _; cbn [write_count set_cache]; by rewrite Ew2, Ew|by cbn [ri_key_range set_cache]; rewrite Er2, Er]]]].
    2: { intros Hb Hc. split; [by apply Hframe|]. eapply (cache_bounded_sub r ri _ s); [done|done|exact Hh'|].
         intros k l Hin. apply foldr_without in Hin as [Hin _]. by left. }
    left. split; [done|]. split; [done|]. split; [simpl; congruence|].
    eexists. split; [exact Hh'|]. intros _ k l Hin _.
    apply foldr_without in Hin as [Hin Hk]. rewrite elem_of_reverse in Hk.
    apply (coherent_kept r [] (cache_keys (mo_index o)) s d1 (mo_db o)) with (k := k) (l := l); try done.
    + by apply Hcoh1.
    + intros k'. by rewrite elem_of_nil.
    + apply (step_third _ _ _ _ _ _ _ Hstep). by rewrite Eover.
  - eexists _, _, _. split; [done|]. split; [done|]. split; [done|]. split; [|done].
    left. split; [done|]. split; [done|]. split; [congruence|]. exists s.
    split; [unfold cache_holds; by rewrite Ec2, Ec|]. intros E. congruence.
Qed.

(** ** Reading *)

Lemma lru_find_elem {K V} `{EqDecision K} (k : K) (s : list (K * V)) e :
  e ∈ lru_find k s -> e ∈ s.
Proof.
  unfold lru_find. destruct (entry k s) as [v|] eqn:E; [|done]. rewrite elem_of_app, list_elem_of_singleton.
  intros [He| ->]; [by apply list_elem_of_filter in He as []|].
  unfold entry in E. destruct (filter _ s) as [|x l] eqn:Ef; [done|]. injection E as E.
  assert (Hx : x ∈ filter (fun e => e.1 = k) s) by (rewrite Ef; left).
  apply list_elem_of_filter in Hx as [Hk Hx]. destruct x. simpl in *. by subst.
Qed.

Lemma lru_add_elem {K V} `{EqDecision K} thr (k : K) (v : V) s e :
  e ∈ lru_add thr k v s -> e = (k, v) \/ e ∈ s.
Proof.
  unfold lru_add. rewrite elem_of_app, list_elem_of_singleton. intros [He| ->]; [right|by left].
  destruct (make_room_suffix thr (without k s)) as [dropped Hd].
  assert (He' : e ∈ without k s) by (rewrite Hd; apply elem_of_app; by right).
  by apply list_elem_of_filter in He' as [].
Qed.

(** A list, as far as the region goes that of the store, with a cache that is true. *)
Definition read_ok r t d (out : res (list ReverseNode * ReverseIndex L)) : Prop :=
  exists l ri', out = Ok (l, ri') /\ sorted (keys l) /\
    ranged r l = ranged r (level_list ix 3 t d) /\ index_ready r ri' d.

Lemma load_level_spec r ri t d :
  index_ok ix pk_ok d -> index_ready r ri d ->
  read_ok r t d (load_level ri true (term_key ix 3 t) d).
Proof.
  intros Hok Hready. pose proof Hready as (Hid & s & Hh & Hc). unfold load_level. cbn [negb].
  assert (Hs : sorted (keys (level_list ix 3 t d))) by (eapply level_list_sorted; [done|by right]).
  destruct (v ← db_get d (term_key ix 3 t); list_parse v) as [l|] eqn:El.
  - assert (Ell : level_list ix 3 t d = l) by (unfold level_list; by rewrite El).
    rewrite Ell in Hs. destruct (is_over_cache ri && _) eqn:Eb.
    + destruct (cache_add_spec (term_key ix 3 t) l _ _ Hh) as (c' & -> & Hh' & _). cbn [deref mbind res_bind].
      eexists _, _. split; [done|]. split; [done|]. split; [by rewrite Ell|]. split; [done|].
      eexists. split; [exact Hh'|]. intros Ho k l' [[= -> ->]|Hin]%lru_add_elem Hk; [|by apply Hc].
      exists t. by rewrite Ell.
    + exists l, ri. split; [done|]. split; [done|]. by rewrite Ell.
  - exists [], ri. split; [done|]. split; [apply sorted_nil|]. split; [|done].
    unfold level_list. by rewrite El.
Qed.

(** The third level through the cache. *)
Lemma get_level_cached_spec r ri t d :
  index_ok ix pk_ok d -> index_ready r ri d -> read_ok r t d (get_level_cached ri true 3 t d).
Proof.
  intros Hok Hready. pose proof Hready as (Hid & s & Hh & Hcoh). unfold get_level_cached. rewrite Hid.
  destruct (is_over_cache ri) eqn:Eo; [|by apply load_level_spec].
  destruct (cache_find_spec (term_key ix 3 t) _ _ Hh) as (c' & -> & Hh' & _). cbn [deref mbind res_bind].
  assert (Hready' : index_ready r (set_cache ri c') d).
  { split; [done|]. exists (lru_find (term_key ix 3 t) s). split; [done|].
    intros _ k l Hin%lru_find_elem. by apply Hcoh. }
  destruct (entry (term_key ix 3 t) s) as [l|] eqn:Ee; [|by apply load_level_spec].
  eexists _, _. split; [done|]. apply entry_Some in Ee; [|apply Hh].
  destruct (Hcoh eq_refl _ _ Ee) as (t' & Et & Hl & E); [apply not_elem_of_nil|].
  by apply term_key_inj in Et as [_ <-].
Qed.

(** Reads keep to the region as well. *)
Lemma load_level_bounded r ri t d l ri' :
  index_ready r ri d -> lists_bounded ix r d -> cache_bounded r ri ->
  load_level ri true (term_key ix 3 t) d = Ok (l, ri') ->
  in_region r l /\ cache_bounded r ri' /\ write_count ri' = write_count ri.
Proof.
  intros (Hid & s & Hh & _) Hb Hc. unfold load_level. cbn [negb].
  destruct (v ← db_get d (term_key ix 3 t); list_parse v) as [l0|] eqn:El; [|intros [= <- <-]; by split; [constructor|]].
  assert (Hl0 : in_region r l0).
  { specialize (Hb 3 t ltac:(by right)). unfold level_list in Hb. by rewrite El in Hb. }
  destruct (is_over_cache ri && _); [|by intros [= <- <-]].
  destruct (cache_add_spec (term_key ix 3 t) l0 _ _ Hh) as (c' & -> & Hh' & _). cbn [deref mbind res_bind].
  intros [= <- <-]. split; [done|]. split; [|done]. eapply (cache_bounded_sub r ri _ s); [done|done|exact Hh'|].
  intros k l' [[= -> ->]|Hin]%lru_add_elem; [by right|by left].
Qed.

Lemma get_level_cached_bounded r ri t d l ri' :
  index_ready r ri d -> lists_bounded ix r d -> cache_bounded r ri ->
  get_level_cached ri true 3 t d = Ok (l, ri') ->
  in_region r l /\ cache_bounded r ri' /\ write_count ri' = write_count ri.
Proof.
  intros Hready Hb Hc. pose proof Hready as (Hid & s & Hh & Hcoh). unfold get_level_cached. rewrite Hid.
  destruct (is_over_cache ri) eqn:Eo; [|by apply load_level_bounded].
  destruct (cache_find_spec (term_key ix 3 t) _ _ Hh) as (c' & -> & Hh' & _). cbn [deref mbind res_bind].
  assert (Hc' : cache_bounded r (set_cache ri c')).
  { eapply (cache_bounded_sub r ri _ s); [done|done|exact Hh'|]. intros k l' Hin%lru_find_elem. by left. }
  destruct (entry (term_key ix 3 t) s) as [l0|] eqn:Ee.
  - intros [= <- <-]. apply entry_Some in Ee; [|apply Hh]. split; [by eapply Hc|done].
  - intros E. apply (load_level_bounded r (set_cache ri c') t d); [|done|done|done].
    split; [done|]. exists (lru_find (term_key ix 3 t) s). split; [done|]. intros _ k l' Hin%lru_find_elem. by apply Hcoh.
Qed.

Lemma get_level_cached_range ri ok t d l ri' :
  get_level_cached ri ok 3 t d = Ok (l, ri') -> ri_key_range ri' = ri_key_range ri.
Proof.
  assert (Hload : forall ri k, load_level ri ok k d = Ok (l, ri') -> ri_key_range ri' = ri_key_range ri).
  { clear ri. intros ri k. unfold load_level. destruct (negb ok); [by intros [= _ <-]|].
    destruct (v ← _; _); [|by intros [= _ <-]]. destruct (is_over_cache ri && _); [|by intros [= _ <-]].
    destruct (cache_add _ _ _); [|done]. by intros [= _ <-]. }
  unfold get_level_cached. destruct (is_over_cache ri); [|apply Hload].
  destruct (cache_find _ _) as [[[found|] c]|]; cbn [deref mbind res_bind]; [by intros [= _ <-]| |done].
  intros E%Hload. exact E.
Qed.

End Func.
