(* ===== verification/ReverseInsertFacts.v ===== *)
(** * Adding nodes to a full-text index

    A node written for a term becomes the newest of its primary key, and the other
    terms and keys are as before. *)

From Stdlib Require Import Sorted.
From stdpp Require Import gmap sorting.
From S2P Require Import Prelude KeyEncoder KvStore Ordered ReverseList LruCache ReverseIndex ReverseFirstFacts ReverseIndexFacts ReverseMergeFacts.

(** ** The last node of a key *)

Lemma dedup_last_lookup l k :
  weakly_sorted l -> nodes_map (dedup_last l) !! k = last (filter (fun n => key n = k) l).
Proof.
  intros Hs. induction l as [|n [|m l] IH]; [done| |].
  { simpl. unfold nodes_map. simpl. rewrite lookup_insert, filter_cons. by case_decide. }
  apply weakly_sorted_cons in Hs as [Hn Hs]. specialize (IH Hs). rewrite dedup_last_cons.
  rewrite (filter_cons _ n). case_bool_decide as E.
  - rewrite IH. case_decide as Ek; [|done]. rewrite filter_cons, decide_True by congruence.
    by rewrite last_cons_cons.
  - rewrite nodes_map_cons, lookup_insert. case_decide as Ek; [|done]. subst k.
    rewrite list_filter_none; [done|]. intros x Hx Ex.
    apply weakly_sorted_cons in Hs as [Hm _]. apply elem_of_cons in Hx as [->|Hx]; [done|].
    eapply Forall_forall in Hm; [|done]. apply Forall_cons in Hn as [Hn _]. rewrite Ex in Hm.
    destruct (bytes_lt_total (key n) (key m)) as [?|[?|?]]; done.
Qed.

Lemma last_greatest l x :
  StronglySorted key_lt l -> x ∈ l -> (forall y, y ∈ l -> ~ key_lt x y) -> last l = Some x.
Proof.
  induction 1 as [|a l Hl IH Ha]; intros Hx Hmax; [by apply elem_of_nil in Hx|].
  destruct l as [|b l].
  - by apply list_elem_of_singleton in Hx as ->.
  - rewrite last_cons_cons. apply IH; [|intros y Hy; apply Hmax; by right].
    apply elem_of_cons in Hx as [->|Hx]; [|done]. exfalso.
    apply (Hmax b); [right; left|]. by apply Forall_cons in Ha as [? _].
Qed.

Section Insert.
Context {host : Host} {codec : ReverseCodec} {codec_laws : ReverseCodecLaws}.
Context {D : Type} {db : RocksDb D} {laws : RocksDbLaws D}.
Context (ix : IndexId) (pk_ok : bytes -> Prop).
Hypothesis pk_free : forall a b, pk_ok a -> pk_ok b -> a `prefix_of` b -> a = b.
Implicit Type d : D.

(** The pairs whose node has a primary key. *)
Definition of_pk (pk : bytes) (kv : bytes * bytes) : Prop := (key <$> node_parse kv.2) = Some pk.

#[export] Instance of_pk_dec pk kv : Decision (of_pk pk kv).
Proof. unfold of_pk. apply _. Defined.

Lemma nodes_of_filter pk ps :
  filter (fun n => key n = pk) (nodes_of ps) = nodes_of (filter (of_pk pk) ps).
Proof.
  induction ps as [|kv ps IH]; [done|]. destruct (node_parse kv.2) as [n|] eqn:E.
  - rewrite (nodes_of_cons kv ps n E), !filter_cons.
    destruct (decide (key n = pk)) as [Hk|Hk], (decide (of_pk pk kv)) as [Ho|Ho];
      unfold of_pk in Ho; rewrite E in Ho; simpl in Ho; try congruence.
    by rewrite (nodes_of_cons kv _ n E), IH.
  - rewrite filter_cons_False by (unfold of_pk; by rewrite E).
    rewrite <- IH. unfold nodes_of. cbn [omap list_omap]. by rewrite E.
Qed.

Lemma nodes_of_last ps :
  Forall (fun kv => is_Some (node_parse kv.2)) ps -> last (nodes_of ps) = (kv ← last ps; node_parse kv.2).
Proof.
  induction ps as [|kv ps IH] using rev_ind; [done|]. rewrite Forall_app, Forall_singleton.
  intros [Hps [n Hn]]. unfold nodes_of. rewrite omap_app. simpl. rewrite Hn, !last_snoc. done.
Qed.

Lemma newest_lookup t d k :
  index_ok ix pk_ok d ->
  newest ix t d !! k =
  match kv ← last (filter (of_pk k) (term_pairs ix t d)); node_parse kv.2 with
  | Some n => Some n
  | None => (nodes_map (level_list ix 2 t d) ∪ nodes_map (level_list ix 3 t d)) !! k
  end.
Proof.
  intros Hok. unfold newest. rewrite <- (assoc_L (∪)), lookup_union.
  rewrite dedup_last_lookup by by apply (first_nodes_sorted ix pk_ok pk_free).
  unfold first_nodes. rewrite nodes_of_filter, nodes_of_last.
  - destruct (kv ← last (filter (of_pk k) (term_pairs ix t d)); node_parse kv.2) as [n|].
    + by destruct ((_ ∪ _) !! k).
    + by destruct ((_ ∪ _) !! k).
  - apply Forall_forall. intros [k' v'] [_ Hin]%list_elem_of_filter.
    apply elem_of_term_pairs in Hin as (Hg & Hl & Ht).
    destruct (term_of_pair ix pk_ok d k' v' t Hok Hg Hl Ht) as (n & _ & _ & _ & _ & Hp). by exists n.
Qed.

(** ** One node *)

Section One.
Context (t : bytes) (n : ReverseNode) (time : Z) (v : bytes) (d : D).
Hypothesis ok : index_ok ix pk_ok d.
Hypothesis t_ok : no_nul t.
Hypothesis pk : pk_ok (key n).
Hypothesis time_ok : is_i 64 time.
Hypothesis v_ok : node_serialize n = Some v.

(** The clock has not gone back since the key was last written for the term. *)
Hypothesis clock : forall time' v', is_i 64 time' ->
  db_get d (first_key ix t (key n) time') = Some v' -> time' <= time.

Let d' := db_put d (first_key ix t (key n) time) v.

Lemma first_key_level t' pk' time' : is_level ix reverse_prefix (first_key ix t' pk' time').
Proof. unfold is_level, first_key. apply take_reverse_prefix. Qed.

Lemma insert_ok : index_ok ix pk_ok d'.
Proof.
  split.
  - intros k v' Hg Hk. unfold d' in Hg. rewrite get_put in Hg. case_decide as E.
    + injection Hg as <-. exists t, n, time. split; [done|]. split; [by split|]. split; [done|].
      by apply node_parse_serialize.
    + by apply (ok_first ix pk_ok d ok k v').
  - intros level k v' Hl Hg Hk. unfold d' in Hg. rewrite get_put in Hg. case_decide as E.
    + subst k. exfalso. unfold is_level, first_key in Hk. rewrite take_reverse_prefix in Hk.
      pose proof (level_of_prefix ix reverse_prefix [] ltac:(done)) as E1.
      rewrite Hk, level_of_prefix in E1; destruct Hl as [-> | ->]; done.
    + by apply (ok_list ix pk_ok d ok level k v').
Qed.

Lemma insert_list level t' : level = 2 \/ level = 3 -> level_list ix level t' d' = level_list ix level t' d.
Proof.
  intros Hl. unfold level_list, d'. rewrite get_put, decide_False; [done|].
  intros E. symmetry in E. revert E. apply first_not_list; [done|apply first_key_level].
Qed.

Lemma elem_of_insert_pairs t' kv :
  kv ∈ term_pairs ix t' d' <->
  (t' = t /\ kv = (first_key ix t (key n) time, v)) \/
  (kv ∈ term_pairs ix t' d /\ kv.1 <> first_key ix t (key n) time).
Proof.
  destruct kv as [k v']. rewrite !elem_of_term_pairs. unfold d'. rewrite get_put. simpl.
  case_decide as E.
  - subst k. rewrite term_of_first_key by done. split.
    + intros ([= <-] & _ & [= <-]). by left.
    + intros [[-> [= ->]]|[_ ?]]; [|done]. split; [done|]. split; [apply first_key_level|done].
  - split; [by right|]. intros [[_ [= -> _]]|[? _]]; done.
Qed.

Lemma encode_time_lt a b : is_i 64 a -> is_i 64 b ->
  lex_compare (mem_store 8 (to_endian_u64 (encode_i64 a))) (mem_store 8 (to_endian_u64 (encode_i64 b))) = (a ?= b).
Proof.
  intros Ha Hb. rewrite !store_endian_u64, !encode_i64_spec by done. unfold is_i in *.
  rewrite be_split_compare by (change (256 ^ Z.of_nat 8) with (2 ^ 64); lia).
  destruct (Z.compare_spec a b), (Z.compare_spec (a + 2 ^ 63) (b + 2 ^ 63)); done || lia.
Qed.

Lemma first_key_pk t' pk1 time1 pk2 time2 :
  first_key ix t' pk1 time1 = first_key ix t' pk2 time2 -> pk1 = pk2.
Proof.
  rewrite !first_key_split. intros E%app_inv_head.
  apply app_inj_2 in E as [E _]; [done|]. by rewrite !length_app, !length_mem_store.
Qed.

Lemma insert_newest_same : newest ix t d' = <[key n := n]> (newest ix t d).
Proof.
  apply map_eq. intros k. rewrite lookup_insert, !newest_lookup by (done || by apply insert_ok).
  rewrite !insert_list by auto. case_decide as Ek.
  - subst k. rewrite (last_greatest _ (first_key ix t (key n) time, v)).
    + cbn [mbind option_bind snd]. by rewrite (node_parse_serialize n v v_ok).
    + apply StronglySorted_filter, term_pairs_sorted.
    + apply list_elem_of_filter. split.
      * unfold of_pk. simpl. by rewrite (node_parse_serialize n v v_ok).
      * apply elem_of_insert_pairs. by left.
    + intros y [Hpk Hy]%list_elem_of_filter Hlt. apply elem_of_insert_pairs in Hy as [[_ ->]|[Hy Hne]].
      { by apply (irreflexivity key_lt) in Hlt. }
      destruct y as [k' v']. apply elem_of_term_pairs in Hy as (Hg & Hl & Ht). simpl in *.
      destruct (term_of_pair ix pk_ok d k' v' t ok Hg Hl Ht) as (m & time' & _ & [_ Htime] & -> & Hp).
      unfold of_pk in Hpk. simpl in Hpk. rewrite Hp in Hpk. injection Hpk as Hpk. rewrite Hpk in *.
      pose proof (clock time' v' Htime Hg). unfold key_lt in Hlt. simpl in Hlt.
      unfold first_key in Hlt. rewrite !app_assoc in Hlt.
      rewrite !lex_compare_app_l, encode_time_lt in Hlt by done. change (time < time') in Hlt. lia.
  - enough (Epairs : filter (of_pk k) (term_pairs ix t d') = filter (of_pk k) (term_pairs ix t d))
      by by rewrite Epairs.
    apply pairs_ext; [apply StronglySorted_filter, term_pairs_sorted..|].
    intros kv. rewrite !list_elem_of_filter, elem_of_insert_pairs. unfold of_pk. split.
    + intros [Hpk [[_ ->]|[Hin _]]]; [|done]. simpl in Hpk.
      rewrite (node_parse_serialize n v v_ok) in Hpk. simpl in Hpk. by injection Hpk.
    + intros [Hpk Hin]. split; [done|]. right. split; [done|]. destruct kv as [k' v']. simpl in *. intros ->.
      apply elem_of_term_pairs in Hin as (Hg & Hl & Ht).
      destruct (term_of_pair ix pk_ok d _ v' t ok Hg Hl Ht) as (m & time' & _ & [Hm _] & Ekey & Hp).
      rewrite Hp in Hpk. injection Hpk as <-. apply Ek.
      by apply first_key_pk in Ekey.
Qed.

Lemma insert_newest_other t' : t' <> t -> newest ix t' d' = newest ix t' d.
Proof.
  intros Hne. unfold newest, first_nodes. rewrite !insert_list by auto.
  replace (term_pairs ix t' d') with (term_pairs ix t' d); [done|].
  apply pairs_ext; [apply term_pairs_sorted..|]. intros kv. rewrite elem_of_insert_pairs. split.
  - intros Hin. right. split; [done|]. intros E. destruct kv as [k v']. simpl in E. subst k.
    apply elem_of_term_pairs in Hin as (_ & _ & Ht). rewrite term_of_first_key in Ht by done. congruence.
  - by intros [[? _]|[? _]].
Qed.

End One.

(** ** The nodes of a document *)

(** What [handle_reverse] writes: one node per term of the document. *)
Definition nodes_ok (time : bytes -> Z) (nodes : list (bytes * ReverseNode)) d : Prop :=
  NoDup nodes.*1 /\
  Forall (fun tn => no_nul tn.1 /\ pk_ok (key tn.2) /\ is_i 64 (time tn.1) /\
    forall time' v', is_i 64 time' ->
      db_get d (first_key ix tn.1 (key tn.2) time') = Some v' -> time' <= time tn.1) nodes.

Lemma first_key_term t pk' time t' pk1 time1 :
  no_nul t -> no_nul t' -> first_key ix t pk' time = first_key ix t' pk1 time1 -> t = t'.
Proof.
  intros Ht Ht' E. apply (f_equal get_term_from_reverse_key) in E.
  rewrite !term_of_first_key in E by done. by injection E.
Qed.

Lemma insert_nodes_spec put_ok time nodes d d' :
  index_ok ix pk_ok d -> nodes_ok time nodes d ->
  insert_nodes ix put_ok time nodes d = Some d' ->
  index_ok ix pk_ok d' /\
  (forall level t, level = 2 \/ level = 3 -> level_list ix level t d' = level_list ix level t d) /\
  forall t, newest ix t d' =
    match (list_to_map nodes : gmap bytes ReverseNode) !! t with
    | Some n => <[key n := n]> (newest ix t d)
    | None => newest ix t d
    end.
Proof.
  revert d. induction nodes as [|[t n] nodes IH]; intros d Hok [Hnd Hall] Hins.
  { simpl in Hins. injection Hins as <-. split; [done|]. split; [done|]. intros t. simpl. by rewrite lookup_empty. }
  rewrite fmap_cons in Hnd. apply NoDup_cons in Hnd as [Ht Hnd]. simpl in Ht.
  apply Forall_cons in Hall as [(Hnul & Hpk & Htime & Hclock) Hall]. simpl in *.
  unfold insert_one_reverse_node in Hins.
  destruct (node_serialize n) as [v|] eqn:Ev; [|done]. cbn [mbind option_bind] in Hins.
  destruct (put_ok t); [|done]. cbn [mbind option_bind] in Hins.
  set (d1 := db_put d (first_key ix t (key n) (time t)) v) in *.
  assert (Hok1 : index_ok ix pk_ok d1) by by apply insert_ok.
  destruct (IH d1 Hok1) as (Hok' & Hlists & Hnew); [|done|].
  { split; [done|]. apply Forall_forall. intros [t' n'] Hin.
    pose proof (proj1 (Forall_forall _ _) Hall _ Hin) as (H1 & H2 & H3 & H4). simpl in *.
    split; [done|]. split; [done|]. split; [done|]. intros time' v' Htime' Hg. apply (H4 time' v' Htime').
    unfold d1 in Hg. rewrite get_put in Hg. case_decide as E; [|done].
    apply first_key_term in E; [|done|done]. subst t'. destruct Ht.
    by apply (list_elem_of_fmap_2 fst) in Hin. }
  split; [done|]. split; [intros level t' Hl; rewrite Hlists by done; by apply insert_list|].
  intros t'. rewrite Hnew. simpl. rewrite lookup_insert. case_decide as Et.
  - subst t'. rewrite not_elem_of_list_to_map_1 by done. by apply insert_newest_same.
  - unfold d1. rewrite insert_newest_other by done. done.
Qed.

(** ** What a search finds afterwards *)

Lemma postings_insert r t d d' n :
  newest ix t d' = <[key n := n]> (newest ix t d) -> in_key_range r (key n) ->
  postings ix r t d' =
  if decide (live n) then <[key n := n]> (postings ix r t d) else delete (key n) (postings ix r t d).
Proof.
  intros E Hr. unfold postings. rewrite E. case_decide as Hl.
  - by rewrite map_filter_insert_True.
  - rewrite map_filter_insert_False by (simpl; tauto). by rewrite map_filter_delete.
Qed.

End Insert.
