(* ===== verification/Tokenizer.v ===== *)
(** * Cutting text into terms ([src/reverse/reverse_common.cpp],
      [include/reverse/reverse_common.h])

    The tokenizers of full-text indexes: windows of characters, the standard
    analyzer, and the splitting of a query at a delimiter. *)

From stdpp Require Import gmap.
From S2P Require Import Prelude FloatArith Stdio.

(** The dictionaries the program reads at its start: punctuation, and the ASCII
    form of full-width characters. *)
Class TokenizerDict := {
  punctuation_blank : bytes -> bool;
  q2b_gbk : bytes -> option bytes;
  q2b_utf8 : bytes -> option bytes
}.

Inductive Charset : Type := GBK | UTF8.

(** ** Characters *)

Definition isupper (c : Z) : bool := (65 <=? c) && (c <=? 90).
Definition islower (c : Z) : bool := (97 <=? c) && (c <=? 122).
Definition tolower (c : Z) : Z := if isupper c then c + 32 else c.

Definition get_utf8_len (c : Z) : nat :=
  if Z.land c 0xFE =? 0xFC then 6
  else if Z.land c 0xFC =? 0xF8 then 5
  else if Z.land c 0xF8 =? 0xF0 then 4
  else if Z.land c 0xF0 =? 0xE0 then 3
  else if Z.land c 0xE0 =? 0xC0 then 2
  else 1.

Definition get_utf8_bom_len (word : bytes) : nat :=
  match word with
  | 0xEF :: 0xBB :: 0xBF :: _ => 3
  | _ => 0
  end.

Definition bom_len (cs : Charset) (word : bytes) : nat :=
  match cs with UTF8 => get_utf8_bom_len word | GBK => 0 end.

(** The bytes of the character that starts with [c]. *)
Definition char_len (cs : Charset) (c : Z) : nat :=
  match cs with
  | UTF8 => get_utf8_len c
  | GBK => if Z.land c 0x80 =? 0 then 1 else 2
  end.

(** How far a loop moves at a position; for GBK it may pass the end by one.  A
    string of [size] bytes is followed by a NUL. *)
Definition advance_len (cs : Charset) (word : bytes) (size i : nat) : nat :=
  let n := char_len cs (nth i word 0) in
  match cs with UTF8 => Nat.min n (size - i) | GBK => n end.

(** A one-byte character is written back in lower case. *)
Definition lower_at (cs : Charset) (word : bytes) (i : nat) : bytes :=
  let c := nth i word 0 in
  if (char_len cs c =? 1)%nat then <[i := tolower c]> word else word.

Definition substr (word : bytes) (pos n : nat) : bytes := take n (drop pos word).

(** ** Terms with weights *)

Abbreviation TermMap := (gmap bytes Z).

(** [1.0 / term_map.size()] as a [float]. *)
Definition equal_weight (n : nat) : Z :=
  fp_convert 64 52 32 23 (fp_div 64 52 (f64_of_Z 1) (f64_of_Z (Z.of_nat n))).

Definition set_weights (m : TermMap) : TermMap := (fun _ => equal_weight (size m)) <$> m.

(** ** [simple_seg]: windows of [word_count] characters *)

(** The loop over the first [count] characters: the word and the position. *)
Fixpoint first_chars (cs : Charset) (count : nat) (word : bytes) (i : nat) : bytes * nat :=
  match count with
  | O => (word, i)
  | S count =>
      if (i <? length word)%nat then
        first_chars cs count (lower_at cs word i) (i + advance_len cs word (length word) i)
      else (word, i)
  end.

Section Seg.
Context `{TokenizerDict}.

(** The loop that moves both ends of the window by a character. *)
Fixpoint window_loop (cs : Charset) (fuel : nat) (word : bytes) (slow fast : nat) (m : TermMap) :
    option TermMap :=
  match fuel with
  | O => None
  | S fuel =>
      if (fast <? length word)%nat then
        let slow := (slow + advance_len cs word (length word) slow)%nat in
        let word' := lower_at cs word fast in
        let fast := (fast + advance_len cs word (length word) fast)%nat in
        let term := substr word' slow (fast - slow) in
        window_loop cs fuel word' slow fast
          (if punctuation_blank term then m else if decide (is_Some (m !! term)) then m else <[term := 0]> m)
      else Some m
  end.

Definition simple_seg (cs : Charset) (word : bytes) (word_count : nat) (m : TermMap) : option TermMap :=
  if (length word =? 0)%nat then Some m
  else
    let bom := bom_len cs word in
    let '(word, fast) := first_chars cs word_count word bom in
    let term := substr word bom (fast - bom) in
    if (length word <=? fast)%nat then Some (<[term := f32_of_Z 1]> m)
    else
      let m := if punctuation_blank term then m else <[term := 0]> m in
      m ← window_loop cs (S (length word)) word bom fast m;
      Some (if (0 <? size m)%nat then set_weights m else m).

(** ** [es_standard]: letters, numbers and single characters *)

Record EsState := mk_es {
  es_term : bytes;
  is_word : bool;
  is_num : bool;
  has_point : bool;
  es_map : TermMap
}.

Definition es_flush (st : EsState) : EsState :=
  mk_es [] false false false
    (match es_term st with [] => es_map st | t => <[t := 0]> (es_map st) end).

(** One character in ASCII form; the decisions go by its first byte. *)
Definition es_ascii (st : EsState) (now : bytes) : EsState :=
  let c := nth 0 now 0 in
  let st :=
    match es_term st with
    | [] => st
    | t =>
        if is_word st && islower c then mk_es (t ++ now) (is_word st) (is_num st) (has_point st) (es_map st)
        else if is_num st && isdigit c then mk_es (t ++ now) (is_word st) (is_num st) (has_point st) (es_map st)
        else if is_num st && negb (has_point st) && bool_decide (now = [46]) then
          mk_es (t ++ now) (is_word st) (is_num st) true (es_map st)
        else es_flush st
    end in
  match es_term st with
  | [] =>
      if islower c then mk_es now true (is_num st) (has_point st) (es_map st)
      else if isdigit c then mk_es now (is_word st) true (has_point st) (es_map st)
      else st
  | _ => st
  end.

(** A character of several bytes that has no ASCII form is a term of its own. *)
Definition es_single (st : EsState) (now : bytes) : EsState :=
  es_flush (mk_es (es_term st) (is_word st) (is_num st) (has_point st) (<[now := 0]> (es_map st))).

(** In UTF-8 the first byte of an ASCII form is used and an empty form is passed over; in GBK the
    whole form is appended. *)
Definition es_char (cs : Charset) (st : EsState) (now : bytes) (c : Z) : EsState :=
  if (char_len cs c =? 1)%nat then es_ascii st [tolower c]
  else
    match (match cs with UTF8 => q2b_utf8 now | GBK => q2b_gbk now end) with
    | None => es_single st now
    | Some form =>
        match cs, form with
        | UTF8, [] => st
        | UTF8, c :: _ => es_ascii st [c]
        | GBK, _ => es_ascii st form
        end
    end.

Fixpoint es_loop (cs : Charset) (fuel : nat) (word : bytes) (i : nat) (st : EsState) : option EsState :=
  match fuel with
  | O => None
  | S fuel =>
      if (i <? length word)%nat then
        let c := nth i word 0 in
        let now := substr word i (char_len cs c) in
        es_loop cs fuel word (i + advance_len cs word (length word) i) (es_char cs st now c)
      else Some st
  end.

Definition es_standard (cs : Charset) (word : bytes) (m : TermMap) : option TermMap :=
  if (length word =? 0)%nat then Some m
  else
    st ← es_loop cs (S (length word)) word (bom_len cs word) (mk_es [] false false false m);
    let m := es_map (es_flush st) in
    Some (if (0 <? size m)%nat then set_weights m else m).

End Seg.

(** ** [split_str] *)

Fixpoint split_loop (cs : Charset) (fuel : nat) (delim : Z) (word : bytes) (size i last : nat)
    (acc : list bytes) : option (list bytes) :=
  let push acc := if (last <? i)%nat then acc ++ [substr word last (i - last)] else acc in
  match fuel with
  | O => None
  | S fuel =>
      if (i <? size)%nat then
        if nth i word 0 =? delim then split_loop cs fuel delim word size (S i) (S i) (push acc)
        else split_loop cs fuel delim word size (i + advance_len cs word size i) last acc
      else Some (push acc)
  end.

(** A [%] at either end, as in a LIKE pattern, is dropped. *)
Definition split_str (cs : Charset) (word : bytes) (delim : Z) : option (list bytes) :=
  if (length word =? 0)%nat then Some []
  else
    let i := bom_len cs word in
    let i := if nth i word 0 =? 37 then S i else i in
    let size := if nth (length word - 1) word 0 =? 37 then (length word - 1)%nat else length word in
    split_loop cs (S (length word)) delim word size i i [].
