(* ===== verification/TokenizerFacts.v ===== *)
(** * What the tokenizers yield

    [simple_seg] against the windows of the list of characters, [split_str] against
    splitting that list, and [es_standard] against cutting the list into runs. *)

From stdpp Require Import gmap.
From S2P Require Import Prelude FloatArith Stdio Tokenizer.

(** ** Characters of a text *)

(** A text as its characters; the last one may be cut off. *)
Fixpoint chars (cs : Charset) (fuel : nat) (b : bytes) : list bytes :=
  match fuel, b with
  | S fuel, c :: _ => take (char_len cs c) b :: chars cs fuel (drop (char_len cs c) b)
  | _, _ => []
  end.

Definition chars_of (cs : Charset) (b : bytes) : list bytes := chars cs (length b) b.

(** One-byte characters in lower case. *)
Definition lower_char (ch : bytes) : bytes := match ch with [c] => [tolower c] | _ => ch end.

(** The strings of [n] characters in a row. *)
Definition windows (n : nat) (ws : list bytes) : list bytes :=
  (fun s => mjoin (take n (drop s ws))) <$> seq 0 (S (length ws - n)).

Lemma char_len_pos cs c : (1 <= char_len cs c)%nat.
Proof. destruct cs; simpl; [|unfold get_utf8_len]; repeat case_match; lia. Qed.

Lemma char_len_ascii cs c : 0 <= c < 128 -> char_len cs c = 1%nat.
Proof.
  intros Hc. assert (Hall : forallb (fun c => (char_len cs c =? 1)%nat) (Z.of_nat <$> seq 0 128) = true).
  { destruct cs; vm_compute; reflexivity. }
  apply Nat.eqb_eq. rewrite List.forallb_forall in Hall. apply Hall. apply list_elem_of_In.
  apply list_elem_of_fmap. exists (Z.to_nat c). split; [lia|]. apply elem_of_seq. lia.
Qed.

Lemma tolower_ascii c : 0 <= c < 128 -> 0 <= tolower c < 128.
Proof. unfold tolower, isupper. repeat bool_case; simpl; lia. Qed.

Lemma tolower_high c : 128 <= c -> tolower c = c.
Proof. unfold tolower, isupper. intros. by rewrite (proj2 (Z.leb_gt c 90)), andb_false_r by lia. Qed.

Lemma char_len_tolower cs c : is_u 8 c -> char_len cs (tolower c) = char_len cs c.
Proof.
  intros [H0 H1]. destruct (Z.ltb_spec c 128).
  - pose proof (tolower_ascii c). rewrite !char_len_ascii; lia.
  - by rewrite tolower_high.
Qed.

(** The characters of a text: each as long as its first byte says, the last at most. *)
Inductive is_chars (cs : Charset) : list bytes -> Prop :=
  | is_chars_nil : is_chars cs []
  | is_chars_last c t : bytes_ok (c :: t) -> (length (c :: t) <= char_len cs c)%nat -> is_chars cs [c :: t]
  | is_chars_cons c t ws : bytes_ok (c :: t) -> length (c :: t) = char_len cs c -> ws <> [] ->
      is_chars cs ws -> is_chars cs ((c :: t) :: ws).

Lemma join_cons {A} (x : list A) l : mjoin (x :: l) = x ++ mjoin l.
Proof. done. Qed.

Lemma join_app {A} (l l' : list (list A)) : mjoin (l ++ l') = mjoin l ++ mjoin l'.
Proof.
  induction l as [|x l IH]; [done|]. cbn [app]. rewrite !join_cons, IH. by rewrite app_assoc.
Qed.

Lemma chars_nil cs fuel : chars cs fuel [] = [].
Proof. by destruct fuel. Qed.

Lemma chars_ok cs fuel b :
  bytes_ok b -> (length b <= fuel)%nat -> is_chars cs (chars cs fuel b) /\ mjoin (chars cs fuel b) = b.
Proof.
  revert b; induction fuel as [|fuel IH]; intros [|c b] Hb Hf; [split; [constructor|done]|simpl in Hf; lia|
    split; [constructor|done]|].
  cbn [chars]. pose proof (char_len_pos cs c) as Hp. remember (char_len cs c) as n eqn:En.
  destruct (IH (drop n (c :: b))) as [H1 H2].
  - by apply Forall_drop.
  - rewrite length_drop. simpl in *. lia.
  - split; [|by rewrite join_cons, H2, take_drop].
    destruct n as [|n]; [lia|]. cbn [take drop] in *.
    assert (Ht : bytes_ok (c :: take n b)).
    { inversion Hb; subst. constructor; [done|by apply Forall_take]. }
    destruct (chars cs fuel (drop n b)) as [|ch ws] eqn:Ec.
    + constructor; [done|]. simpl. rewrite length_take. lia.
    + constructor; [done| |done|done]. simpl. rewrite length_take.
      assert (drop n b <> []) by (intros E; rewrite E, chars_nil in Ec; done).
      assert (n < length b)%nat.
      { destruct (Nat.lt_ge_cases n (length b)); [done|]. by rewrite drop_ge in * by done. }
      lia.
Qed.

(** ** A loop that walks over the characters *)

Lemma length_lower ch : length (lower_char ch) = length ch.
Proof. destruct ch as [|c [|c' t]]; done. Qed.

Lemma length_join_lower ws : length (mjoin (lower_char <$> ws)) = length (mjoin ws).
Proof.
  induction ws as [|ch ws IH]; [done|]. rewrite fmap_cons, !join_cons, !length_app, IH, length_lower. done.
Qed.

Lemma is_chars_lookup cs ws k ch :
  is_chars cs ws -> ws !! k = Some ch ->
  exists c t, ch = c :: t /\ bytes_ok ch /\ (length ch <= char_len cs c)%nat /\
    ((S k < length ws)%nat -> length ch = char_len cs c).
Proof.
  intros Hw. revert k. induction Hw as [|c t Hb Hl|c t ws Hb Hl Hne Hw IH]; intros [|k] Hk; try done.
  - injection Hk as <-. exists c, t. split; [done|]. split; [done|]. split; [done|]. simpl. lia.
  - injection Hk as <-. exists c, t. split; [done|]. split; [done|]. split; [lia|done].
  - destruct (IH k Hk) as (c' & t' & -> & ? & ? & Hlast). exists c', t'. split; [done|].
    split; [done|]. split; [done|]. intros Hlt. apply Hlast. simpl in Hlt. lia.
Qed.

Section Walk.
Context (cs : Charset) (pre : bytes) (ws : list bytes).
Hypothesis ws_ok : is_chars cs ws.

(** The text when the first [k] characters are in lower case. *)
Definition text (k : nat) : bytes := pre ++ mjoin (lower_char <$> take k ws) ++ mjoin (drop k ws).

Definition pos (k : nat) : nat := length pre + length (mjoin (take k ws)).

(** A position is at a character, or at the end, which it may pass. *)
Definition at_char (k i : nat) : Prop :=
  if decide (k < length ws)%nat then i = pos k else (length (text 0) <= i)%nat.

Lemma length_text k : length (text k) = (length pre + length (mjoin ws))%nat.
Proof.
  unfold text. rewrite !length_app, length_join_lower, <- length_app, <- join_app.
  by rewrite take_drop.
Qed.

Lemma length_head k : length (pre ++ mjoin (lower_char <$> take k ws)) = pos k.
Proof. rewrite length_app, length_join_lower. done. Qed.

Lemma text_high k ch :
  ws !! k = Some ch ->
  text k = (pre ++ mjoin (lower_char <$> take k ws)) ++ ch ++ mjoin (drop (S k) ws).
Proof. intros Hk. unfold text. rewrite (drop_S ws ch k Hk), join_cons. by rewrite app_assoc. Qed.

Lemma text_next k ch :
  ws !! k = Some ch ->
  text (S k) = (pre ++ mjoin (lower_char <$> take k ws)) ++ lower_char ch ++ mjoin (drop (S k) ws).
Proof.
  intros Hk. unfold text. rewrite (take_S_r ws k ch Hk), fmap_app, join_app.
  change (lower_char <$> [ch]) with [lower_char ch].
  rewrite (join_cons (lower_char ch)). change (mjoin []) with ([] : bytes).
  by rewrite app_nil_r, <- !app_assoc.
Qed.

Lemma text_low s k ch :
  (s < k)%nat -> ws !! s = Some ch ->
  exists rest, text k = (pre ++ mjoin (lower_char <$> take s ws)) ++ lower_char ch ++ rest.
Proof.
  intros Hs Hch. assert (Ht : take k ws = take s ws ++ ch :: drop (S s) (take k ws)).
  { rewrite <- (take_drop_middle (take k ws) s ch) at 1.
    - by rewrite take_take, Nat.min_l by lia.
    - apply lookup_take_Some. by split. }
  unfold text. rewrite Ht, fmap_app, join_app, fmap_cons, join_cons.
  eexists. rewrite <- !app_assoc. done.
Qed.

Lemma pos_S k ch : ws !! k = Some ch -> pos (S k) = (pos k + length ch)%nat.
Proof.
  intros Hk. unfold pos. rewrite (take_S_r ws k ch Hk), join_app, length_app, join_cons.
  change (mjoin []) with ([] : bytes). rewrite app_nil_r. lia.
Qed.

Lemma pos_le k : (pos k <= length pre + length (mjoin ws))%nat.
Proof. unfold pos. rewrite <- (take_drop k ws) at 2. rewrite join_app, length_app. lia. Qed.

Lemma pos_all k : (length ws <= k)%nat -> pos k = (length pre + length (mjoin ws))%nat.
Proof. intros Hk. unfold pos. by rewrite take_ge. Qed.

Lemma nth_at (a b : bytes) c t : nth (length a) (a ++ (c :: t) ++ b) 0 = c.
Proof. rewrite app_nth2 by lia. by rewrite Nat.sub_diag. Qed.

Lemma lower_step k : (k < length ws)%nat -> lower_at cs (text k) (pos k) = text (S k).
Proof.
  intros Hk. destruct (lookup_lt_is_Some_2 ws k Hk) as [ch Hch].
  destruct (is_chars_lookup cs ws k ch ws_ok Hch) as (c & t & -> & Hb & Hl & _).
  rewrite (text_next k _ Hch), (text_high k _ Hch). unfold lower_at. rewrite <- (length_head k), nth_at.
  inversion_clear Hb as [|? ? Hc Ht].
  destruct (Nat.eqb_spec (char_len cs c) 1) as [E|E].
  - destruct t as [|? ?]; [|simpl in Hl; lia].
    rewrite insert_app_r_alt by lia. rewrite Nat.sub_diag. done.
  - destruct t as [|? ?]; [|done]. simpl. destruct (Z.ltb_spec c 128).
    + rewrite char_len_ascii in E by (unfold is_u in *; lia). done.
    + by rewrite tolower_high.
Qed.

Lemma size_text k : (length (text k) = length (text 0))%nat.
Proof. by rewrite !length_text. Qed.

(** The front of the window. *)
Lemma fast_step k : (k < length ws)%nat ->
  at_char (S k) (pos k + advance_len cs (text k) (length (text k)) (pos k)).
Proof.
  intros Hk. destruct (lookup_lt_is_Some_2 ws k Hk) as [ch Hch].
  destruct (is_chars_lookup cs ws k ch ws_ok Hch) as (c & t & E & _ & Hl & Hfull).
  assert (Hc : nth (pos k) (text k) 0 = c).
  { rewrite (text_high k _ Hch), <- (length_head k), E. apply nth_at. }
  unfold advance_len. rewrite Hc. pose proof (pos_S k ch Hch) as Hpos. pose proof (pos_le (S k)) as Hle.
  unfold at_char. case_decide as Hd.
  - rewrite Hpos, (Hfull Hd). destruct cs; [done|]. rewrite length_text, <- (Hfull Hd). lia.
  - rewrite pos_all in Hpos by lia. rewrite length_text. destruct cs; rewrite ?length_text; lia.
Qed.

(** The back of the window. *)
Lemma slow_step s k : (s < k)%nat -> (k < length ws)%nat ->
  (pos s + advance_len cs (text k) (length (text k)) (pos s))%nat = pos (S s).
Proof.
  intros Hs Hk. destruct (lookup_lt_is_Some_2 ws s) as [ch Hch]; [lia|].
  destruct (is_chars_lookup cs ws s ch ws_ok Hch) as (c & t & E & Hb & _ & Hfull).
  specialize (Hfull ltac:(lia)). destruct (text_low s k ch Hs Hch) as [rest Hrest].
  assert (Hc : char_len cs (nth (pos s) (text k) 0) = char_len cs c).
  { rewrite Hrest, <- (length_head s), E. rewrite E in Hb. inversion_clear Hb as [|? ? Hc _].
    destruct t as [|c' t]; cbn [lower_char]; rewrite nth_at; [by apply char_len_tolower|done]. }
  unfold advance_len. rewrite Hc, (pos_S s ch Hch), Hfull. destruct cs; [done|].
  rewrite length_text. pose proof (pos_le (S s)) as Hle. rewrite (pos_S s ch Hch), Hfull in Hle. lia.
Qed.

(** The string between two positions. *)
Lemma substr_text s k i :
  (s <= k)%nat -> at_char k i ->
  substr (text k) (pos s) (i - pos s) = mjoin (lower_char <$> take (k - s) (drop s ws)).
Proof.
  intros Hs Hi. unfold substr, text.
  assert (Ht : take k ws = take s ws ++ take (k - s) (drop s ws)).
  { rewrite take_drop_commute. replace (s + (k - s))%nat with k by lia.
    rewrite <- (take_drop s (take k ws)) at 1. by rewrite take_take, Nat.min_l by lia. }
  rewrite Ht, fmap_app, join_app. rewrite <- !app_assoc, app_assoc.
  rewrite drop_app_length' by (symmetry; apply length_head). unfold at_char in Hi. case_decide as Hk.
  - assert (Hlen : (i - pos s)%nat = length (mjoin (lower_char <$> take (k - s) (drop s ws)))).
    { subst i. unfold pos. rewrite Ht, join_app, length_app, length_join_lower. lia. }
    rewrite Hlen. apply take_app_length.
  - rewrite (drop_ge ws k) by lia. change (mjoin []) with ([] : bytes). rewrite app_nil_r.
    apply take_ge. rewrite length_join_lower, length_text in *.
    assert (Hp : pos k = (pos s + length (mjoin (take (k - s) (drop s ws))))%nat).
    { unfold pos. rewrite Ht, join_app, length_app. lia. }
    rewrite pos_all in Hp by lia. lia.
Qed.

(** *** Windows *)

Context `{TokenizerDict}.

Definition zero_map (s : gset bytes) : TermMap := gset_to_gmap 0 s.

Lemma add_term (s : gset bytes) t :
  (if decide (is_Some (zero_map s !! t)) then zero_map s else <[t := 0]> (zero_map s)) =
  zero_map ({[t]} ∪ s).
Proof.
  unfold zero_map. rewrite gset_to_gmap_union_singleton. case_decide as E; [|done].
  symmetry. apply insert_id. destruct E as [x E]. rewrite E. by apply lookup_gset_to_gmap_Some in E as [_ <-].
Qed.

Definition kept (t : bytes) : Prop := punctuation_blank t = false.

#[export] Instance kept_dec t : Decision (kept t).
Proof. unfold kept. apply _. Defined.

Definition window (n s : nat) : bytes := mjoin (lower_char <$> take n (drop s ws)).

Lemma window_loop_spec n s fuel i A :
  (1 <= n)%nat -> (s + n <= length ws)%nat -> at_char (s + n) i ->
  (length ws - (s + n) < fuel)%nat ->
  window_loop cs fuel (text (s + n)) (pos s) i (zero_map A) =
  Some (zero_map (list_to_set (filter kept (window n <$> seq (S s) (length ws - (s + n)))) ∪ A)).
Proof.
  intros Hn. revert s i A. induction fuel as [|fuel IH]; intros s i A Hs Hi Hf; [lia|].
  cbn [window_loop]. unfold at_char in Hi. case_decide as Hk.
  - subst i. pose proof (pos_S (s + n)) as Hpos.
    destruct (lookup_lt_is_Some_2 ws (s + n) Hk) as [ch Hch]. specialize (Hpos ch Hch).
    destruct (is_chars_lookup cs ws (s + n) ch ws_ok Hch) as (c & t & -> & _).
    pose proof (pos_le (S (s + n))) as Hle. simpl in Hpos.
    rewrite (proj2 (Nat.ltb_lt _ _)) by (rewrite length_text; lia).
    rewrite lower_step by done. rewrite (slow_step s (s + n)) by lia.
    set (i := (pos (s + n) + advance_len cs (text (s + n)) (length (text (s + n))) (pos (s + n)))%nat).
    assert (Hi : at_char (S (s + n)) i) by by apply fast_step.
    rewrite (substr_text (S s) (S (s + n)) i) by (done || lia).
    replace (S (s + n) - S s)%nat with n by lia. fold (window n (S s)).
    replace (length ws - (s + n))%nat with (S (length ws - (S s + n))) by lia.
    cbn [seq]. rewrite fmap_cons, filter_cons. change (S (s + n)) with (S s + n)%nat in *.
    destruct (punctuation_blank (window n (S s))) eqn:Ep.
    + rewrite IH by (done || lia). rewrite decide_False; [done|]. unfold kept. congruence.
    + rewrite add_term, IH by (done || lia). rewrite decide_True by done.
      do 2 f_equal. rewrite list_to_set_cons. set_solver.
  - rewrite (proj2 (Nat.ltb_ge _ _)) by by rewrite size_text.
    replace (length ws - (s + n))%nat with 0%nat by lia. simpl. by rewrite (left_id_L ∅ (∪)).
Qed.

Lemma first_chars_spec n k i :
  (k <= length ws)%nat -> at_char k i ->
  exists i', first_chars cs n (text k) i = (text (Nat.min (k + n) (length ws)), i') /\
    at_char (Nat.min (k + n) (length ws)) i'.
Proof.
  revert k i. induction n as [|n IH]; intros k i Hk Hi.
  { exists i. rewrite Nat.add_0_r, Nat.min_l by done. done. }
  cbn [first_chars]. pose proof Hi as Hi'. unfold at_char in Hi'. case_decide as Hd.
  - subst i. destruct (lookup_lt_is_Some_2 ws k Hd) as [ch Hch]. pose proof (pos_S k ch Hch) as Hpos.
    destruct (is_chars_lookup cs ws k ch ws_ok Hch) as (c & t & -> & _).
    pose proof (pos_le (S k)) as Hle. simpl in Hpos.
    rewrite (proj2 (Nat.ltb_lt _ _)) by (rewrite length_text; lia).
    rewrite lower_step by done. destruct (IH (S k) _ ltac:(lia) (fast_step k Hd)) as (i' & E & Hi').
    exists i'. replace (k + S n)%nat with (S k + n)%nat by lia. done.
  - rewrite (proj2 (Nat.ltb_ge _ _)) by by rewrite size_text.
    exists i. rewrite Nat.min_r by lia. assert (k = length ws) as -> by lia. done.
Qed.

End Walk.

(** ** [simple_seg] *)

Lemma fmap_take_drop {A B} (f : A -> B) n s (l : list A) : f <$> take n (drop s l) = take n (drop s (f <$> l)).
Proof. by rewrite fmap_take, fmap_drop. Qed.

(** The terms of a text cut into windows. *)
Definition window_terms `{TokenizerDict} (n : nat) (ws : list bytes) : gset bytes :=
  list_to_set (filter kept (windows n ws)).

Lemma bom_len_le cs word : (bom_len cs word <= length word)%nat.
Proof. destruct cs; simpl; [lia|]. unfold get_utf8_bom_len. repeat case_match; simpl; lia. Qed.

Lemma set_weights_zero (s : gset bytes) :
  (if (0 <? size (zero_map s))%nat then set_weights (zero_map s) else zero_map s) =
  gset_to_gmap (equal_weight (size s)) s.
Proof.
  assert (Hsize : size (zero_map s) = size s).
  { unfold zero_map. by rewrite <- size_dom, dom_gset_to_gmap. }
  rewrite Hsize. destruct (Nat.ltb_spec 0 (size s)) as [Hlt|Hge].
  - unfold set_weights. rewrite Hsize. unfold zero_map. apply map_eq. intros k.
    rewrite lookup_fmap. apply option_eq. intros x. rewrite fmap_Some.
    rewrite lookup_gset_to_gmap_Some. setoid_rewrite lookup_gset_to_gmap_Some. naive_solver.
  - assert (s = ∅) as -> by (apply leibniz_equiv, size_empty_inv; lia). done.
Qed.

Lemma chars_length cs ws : is_chars cs ws -> (length ws <= length (mjoin ws))%nat.
Proof.
  induction 1 as [|c t ? ?|c t ws ? ? ? ? IH]; [done|simpl; lia|].
  rewrite join_cons, length_app. simpl. lia.
Qed.

Section SimpleSeg.
Context `{TokenizerDict}.
Context (cs : Charset) (word : bytes) (n : nat).
Hypothesis word_ok : bytes_ok word.
Hypothesis word_ne : word <> [].
Hypothesis n_pos : (1 <= n)%nat.

Let bom := bom_len cs word.
Let pre := take bom word.
Let rs := chars_of cs (drop bom word).
Let ws := lower_char <$> rs.

Lemma rs_ok : is_chars cs rs /\ mjoin rs = drop bom word.
Proof. apply chars_ok; [by apply Forall_drop|done]. Qed.

Lemma length_pre : length pre = bom.
Proof. unfold pre. rewrite length_take. apply Nat.min_l. apply bom_len_le. Qed.

Lemma word_text : word = text pre rs 0.
Proof.
  unfold text. rewrite take_0, drop_0, (proj2 rs_ok). change (mjoin (lower_char <$> [])) with ([] : bytes).
  unfold pre. simpl. by rewrite take_drop.
Qed.

Lemma pos_bom : pos pre rs 0 = bom.
Proof. unfold pos. rewrite take_0, length_pre. change (mjoin []) with ([] : bytes). simpl. lia. Qed.

Lemma at_bom : at_char pre rs 0 bom.
Proof.
  unfold at_char. case_decide as Hd; [by rewrite pos_bom|]. rewrite length_text, length_pre.
  destruct rs; [|simpl in *; lia]. simpl. lia.
Qed.

Lemma first_term k i :
  at_char pre rs k i -> substr (text pre rs k) bom (i - bom) = mjoin (lower_char <$> take k rs).
Proof.
  intros Hk. pose proof (substr_text pre rs 0 k i ltac:(lia) Hk) as E.
  rewrite pos_bom, Nat.sub_0_r, drop_0 in E. done.
Qed.

Lemma windows_set :
  list_to_set (filter kept (window rs n <$> seq 1 (length rs - n))) ∪
    (if punctuation_blank (mjoin (lower_char <$> take n rs)) then (∅ : gset bytes)
     else {[mjoin (lower_char <$> take n rs)]}) = window_terms n ws.
Proof.
  unfold window_terms, windows, ws. rewrite length_fmap. cbn [seq].
  rewrite fmap_cons, filter_cons, drop_0, <- fmap_take.
  assert (Ew : window rs n <$> seq 1 (length rs - n) =
    (fun s => mjoin (take n (drop s (lower_char <$> rs)))) <$> seq 1 (length rs - n)).
  { apply list_fmap_ext. intros ? s _. unfold window. by rewrite fmap_take_drop. }
  rewrite Ew. case_decide as Hk; unfold kept in Hk.
  - rewrite Hk, list_to_set_cons. by rewrite (comm_L (∪)).
  - apply not_false_iff_true in Hk. rewrite Hk. by rewrite (right_id_L ∅ (∪)).
Qed.

(** Fewer characters than a window has. *)
Lemma seg_short i :
  (length rs <= n)%nat -> first_chars cs n word bom = (text pre rs (length rs), i) ->
  at_char pre rs (length rs) i -> simple_seg cs word n ∅ = Some {[ mjoin ws := f32_of_Z 1 ]}.
Proof.
  intros Hn E Hi. unfold simple_seg. rewrite (proj2 (Nat.eqb_neq _ _)) by (destruct word; simpl; done || lia).
  fold bom. rewrite E, first_term by done. rewrite take_ge by done.
  unfold at_char in Hi. case_decide; [lia|]. rewrite (proj2 (Nat.leb_le _ _)) by by rewrite size_text.
  done.
Qed.

Lemma seg_long i :
  (n < length rs)%nat -> first_chars cs n word bom = (text pre rs n, i) -> at_char pre rs n i ->
  simple_seg cs word n ∅ =
  Some (gset_to_gmap (equal_weight (size (window_terms n ws))) (window_terms n ws)).
Proof.
  intros Hn E Hi. unfold simple_seg. rewrite (proj2 (Nat.eqb_neq _ _)) by (destruct word; simpl; done || lia).
  fold bom. rewrite E, first_term by done. destruct rs_ok as [Hrs _]. pose proof Hi as Hin.
  unfold at_char in Hin. case_decide; [|lia].
  destruct (lookup_lt_is_Some_2 rs n Hn) as [ch Hch].
  destruct (is_chars_lookup cs rs n ch Hrs Hch) as (c & t & -> & _).
  pose proof (pos_S pre rs n _ Hch) as HS. pose proof (pos_le pre rs (S n)) as Hle. simpl in HS.
  rewrite (proj2 (Nat.leb_gt _ _)) by (rewrite length_text; lia).
  assert (EA : (if punctuation_blank (mjoin (lower_char <$> take n rs)) then ∅
                else <[mjoin (lower_char <$> take n rs) := 0]> ∅) =
    zero_map (if punctuation_blank (mjoin (lower_char <$> take n rs)) then ∅
              else {[mjoin (lower_char <$> take n rs)]})).
  { unfold zero_map. destruct (punctuation_blank _); [done|]. by rewrite gset_to_gmap_singleton. }
  rewrite EA. pose proof pos_bom as Hp0. rewrite <- Hp0 at 1.
  pose proof (window_loop_spec cs pre rs Hrs n 0 (S (length (text pre rs n))) i) as Hloop.
  cbn [Nat.add] in Hloop. rewrite Hloop; [|done|lia|done|].
  - cbn [mbind option_bind]. rewrite set_weights_zero, windows_set. done.
  - rewrite length_text. pose proof (chars_length cs rs Hrs). lia.
Qed.

(** The terms of a text are its windows that are not punctuation, with equal weights,
    or the whole text when it is no longer than a window. *)
Lemma simple_seg_spec :
  simple_seg cs word n ∅ =
  Some (if decide (length ws <= n)%nat then {[ mjoin ws := f32_of_Z 1 ]}
        else gset_to_gmap (equal_weight (size (window_terms n ws))) (window_terms n ws)).
Proof.
  destruct (first_chars_spec cs pre rs (proj1 rs_ok) n 0 bom ltac:(lia) at_bom) as (i & E & Hi).
  rewrite <- word_text in E. cbn [Nat.add] in E, Hi.
  assert (Hl : length ws = length rs) by apply length_fmap. case_decide as Hd; rewrite Hl in Hd.
  - rewrite Nat.min_r in E, Hi by done. by apply (seg_short i).
  - rewrite Nat.min_l in E, Hi by lia. apply (seg_long i); [lia|done|done].
Qed.

End SimpleSeg.

(** ** [split_str] on UTF-8 *)

(** The characters between delimiters, empty pieces left out. *)
Fixpoint split_chars (delim : Z) (cur : bytes) (ws : list bytes) : list bytes :=
  let piece := match cur with [] => [] | _ => [cur] end in
  match ws with
  | [] => piece
  | ch :: ws =>
      if decide (ch = [delim]) then piece ++ split_chars delim [] ws
      else split_chars delim (cur ++ ch) ws
  end.

Lemma substr_middle (a b c : bytes) : substr (a ++ b ++ c) (length a) (length b) = b.
Proof. unfold substr. rewrite drop_app_length. apply take_app_length. Qed.

Lemma push_piece (a cur b : bytes) (acc : list bytes) :
  (if (length a <? length a + length cur)%nat
   then acc ++ [substr (a ++ cur ++ b) (length a) (length a + length cur - length a)] else acc) =
  acc ++ match cur with [] => [] | _ => [cur] end.
Proof.
  destruct cur as [|c cur].
  - rewrite (proj2 (Nat.ltb_ge _ _)) by (simpl; lia). by rewrite app_nil_r.
  - rewrite (proj2 (Nat.ltb_lt _ _)) by (simpl; lia).
    replace (length a + length (c :: cur) - length a)%nat with (length (c :: cur)) by lia.
    by rewrite substr_middle.
Qed.

Lemma is_chars_tail cs ch ws : is_chars cs (ch :: ws) -> is_chars cs ws.
Proof. inversion 1; subst; [constructor|done]. Qed.

Lemma split_loop_spec delim ws a cur b acc fuel :
  0 <= delim < 128 -> is_chars UTF8 ws -> (length ws < fuel)%nat ->
  split_loop UTF8 fuel delim (a ++ cur ++ mjoin ws ++ b)
    (length a + length cur + length (mjoin ws)) (length a + length cur) (length a) acc =
  Some (acc ++ split_chars delim cur ws).
Proof.
  intros Hd. revert a cur acc fuel. induction ws as [|ch ws IH]; intros a cur acc [|fuel] Hw Hf; try (simpl in Hf; lia).
  - cbn [split_loop]. change (mjoin []) with ([] : bytes). simpl length.
    rewrite (proj2 (Nat.ltb_ge _ _)) by lia. cbn [app]. by rewrite push_piece.
  - destruct (is_chars_lookup UTF8 (ch :: ws) 0 ch Hw eq_refl) as (c & t & -> & Hb & Hl & Hfull).
    apply is_chars_tail in Hw. rewrite join_cons. cbn [split_loop].
    rewrite (proj2 (Nat.ltb_lt _ _)) by (rewrite length_app; simpl; lia).
    assert (Hnth : nth (length a + length cur) (a ++ cur ++ ((c :: t) ++ mjoin ws) ++ b) 0 = c).
    { rewrite <- length_app, app_assoc, <- (app_assoc (c :: t)). apply nth_at. }
    rewrite Hnth. destruct (Z.eqb_spec c delim) as [->|Hne].
    + rewrite char_len_ascii in Hl by done. destruct t; [|simpl in Hl; lia].
      rewrite push_piece. cbn [split_chars]. rewrite decide_True by done.
      pose proof (IH (a ++ cur ++ [delim]) [] (acc ++ match cur with [] => [] | _ => [cur] end) fuel Hw) as E.
      rewrite !length_app in E. cbn [length app] in E.
      replace (S (length a + length cur)) with (length a + (length cur + 1) + 0)%nat at 1 by lia.
      replace (S (length a + length cur)) with (length a + (length cur + 1))%nat by lia.
      replace (length a + length cur + length ([delim] ++ mjoin ws))%nat
        with (length a + (length cur + 1) + 0 + length (mjoin ws))%nat by (simpl; lia).
      rewrite <- !app_assoc in E. cbn [app] in *. rewrite E by (simpl in Hf; lia). by rewrite ?app_assoc.
    + cbn [split_chars]. rewrite decide_False by congruence.
      assert (Hadv : advance_len UTF8 (a ++ cur ++ ((c :: t) ++ mjoin ws) ++ b)
        (length a + length cur + length ((c :: t) ++ mjoin ws)) (length a + length cur) = length (c :: t)).
      { unfold advance_len. rewrite Hnth, length_app. cbn [char_len] in *.
        destruct ws as [|ch' ws]; [change (mjoin []) with ([] : bytes); simpl in *; lia|].
        rewrite <- Hfull by (simpl; lia). lia. }
      rewrite Hadv. pose proof (IH a (cur ++ c :: t) acc fuel Hw) as E. rewrite !length_app in E.
      rewrite length_app. rewrite <- !app_assoc in E. cbn [app] in *.
      replace (length a + length cur + length (c :: t))%nat with (length a + (length cur + length (c :: t)))%nat by lia.
      replace (length a + length cur + (length (c :: t) + length (mjoin ws)))%nat
        with (length a + (length cur + length (c :: t)) + length (mjoin ws))%nat by lia.
      rewrite <- (app_assoc t). apply E. simpl in Hf. lia.
Qed.

(** The part of a pattern between its [%]. *)
Definition like_body (word : bytes) : bytes :=
  let i := get_utf8_bom_len word in
  let i := if nth i word 0 =? 37 then S i else i in
  let size := if nth (length word - 1) word 0 =? 37 then (length word - 1)%nat else length word in
  substr word i (size - i).

(** A pattern is split at the delimiters that are characters of their own: the pieces
    are the runs of characters between them, without the [%] at the ends and without
    empty pieces. *)
Theorem split_str_spec word delim :
  bytes_ok word -> 0 <= delim < 128 ->
  split_str UTF8 word delim = Some (split_chars delim [] (chars_of UTF8 (like_body word))).
Proof.
  intros Hb Hd. unfold split_str, like_body. destruct (Nat.eqb_spec (length word) 0) as [E|Hne].
  { apply nil_length_inv in E. subst. done. }
  change (bom_len UTF8 word) with (get_utf8_bom_len word).
  set (i0 := get_utf8_bom_len word). set (i := if nth i0 word 0 =? 37 then S i0 else i0).
  set (sz := if nth (length word - 1) word 0 =? 37 then (length word - 1)%nat else length word).
  assert (Hsz : (sz <= length word)%nat) by (unfold sz; case_match; lia).
  destruct (Nat.le_gt_cases i sz) as [Hi|Hi].
  - set (body := substr word i (sz - i)).
    assert (Hlb : length body = (sz - i)%nat) by (unfold body, substr; rewrite length_take, length_drop; lia).
    destruct (chars_ok UTF8 (length body) body) as [Hw Hj]; [by apply Forall_take, Forall_drop|done|].
    fold (chars_of UTF8 body) in Hw, Hj.
    assert (Hword : word = take i word ++ [] ++ mjoin (chars_of UTF8 body) ++ drop sz word).
    { rewrite Hj. cbn [app]. unfold body, substr. replace sz with (i + (sz - i))%nat at 2 by lia.
      rewrite <- drop_drop. by rewrite take_drop, take_drop. }
    pose proof (split_loop_spec delim (chars_of UTF8 body) (take i word) [] (drop sz word) []
      (S (length word)) Hd Hw) as E.
    rewrite <- Hword, Hj, Hlb, length_take, Nat.min_l in E by lia. cbn [length app] in E.
    replace (i + 0 + (sz - i))%nat with sz in E by lia. rewrite Nat.add_0_r in E.
    apply E. pose proof (chars_length UTF8 _ Hw) as Hc. rewrite Hj, Hlb in Hc. lia.
  - replace (sz - i)%nat with 0%nat by lia. unfold substr. rewrite take_0. cbn [split_loop].
    rewrite (proj2 (Nat.ltb_ge _ _)) by lia. rewrite (proj2 (Nat.ltb_ge _ _)) by lia. done.
Qed.

(** ** [es_standard]: runs of letters and numbers *)

(** The bytes of a character by the range of its first byte. *)
Definition lead_len (cs : Charset) (c : Z) : nat :=
  match cs with
  | GBK => if c <? 128 then 1 else 2
  | UTF8 => if c <? 192 then 1 else if c <? 224 then 2 else if c <? 240 then 3
            else if c <? 248 then 4 else if c <? 252 then 5 else if c <? 254 then 6 else 1
  end.

Fixpoint lead_chars (cs : Charset) (fuel : nat) (b : bytes) : list bytes :=
  match fuel, b with
  | S fuel, c :: _ => take (lead_len cs c) b :: lead_chars cs fuel (drop (lead_len cs c) b)
  | _, _ => []
  end.

(** What a character counts as: text in ASCII form, or a term of its own. *)
Inductive Symbol := Ascii (now : bytes) | Own (ch : bytes).

Definition text_of (s : Symbol) : bytes := match s with Ascii now => now | Own ch => ch end.
Definition letter (s : Symbol) : bool := match s with Ascii (c :: _) => islower c | _ => false end.
Definition digit (s : Symbol) : bool := match s with Ascii (c :: _) => isdigit c | _ => false end.
Definition point (s : Symbol) : bool := match s with Ascii now => bool_decide (now = [46]) | _ => false end.

Fixpoint span {A} (p : A -> bool) (l : list A) : list A * list A :=
  match l with
  | [] => ([], [])
  | x :: r => if p x then let '(a, b) := span p r in (x :: a, b) else ([], l)
  end.

(** A number goes on with a point and digits. *)
Definition fraction (l : list Symbol) : list Symbol * list Symbol :=
  match l with
  | p :: r => if point p then let '(f, r) := span digit r in (p :: f, r) else ([], l)
  | [] => ([], [])
  end.

(** The terms: the longest words, the longest numbers, and the characters on their own. *)
Fixpoint cut (fuel : nat) (l : list Symbol) : list bytes :=
  match fuel, l with
  | S fuel, Own ch :: r => ch :: cut fuel r
  | S fuel, Ascii now :: r =>
      if letter (Ascii now) then let '(w, r) := span letter r in (now ++ (w ≫= text_of)) :: cut fuel r
      else if digit (Ascii now) then
        let '(d, r) := span digit r in
        let '(f, r) := fraction r in
        ((now ++ (d ≫= text_of)) ++ (f ≫= text_of)) :: cut fuel r
      else cut fuel r
  | _, _ => []
  end.

Lemma char_len_lead cs c : is_u 8 c -> char_len cs c = lead_len cs c.
Proof.
  intros Hc. assert (Hall : forallb (fun c => (char_len cs c =? lead_len cs c)%nat) (Z.of_nat <$> seq 0 256) = true)
    by (destruct cs; vm_compute; reflexivity).
  apply Nat.eqb_eq. rewrite List.forallb_forall in Hall. apply Hall. apply list_elem_of_In.
  unfold is_u in Hc. apply list_elem_of_fmap. exists (Z.to_nat c). split; [lia|]. apply elem_of_seq. lia.
Qed.

Lemma lead_len_pos cs c : (1 <= lead_len cs c)%nat.
Proof. unfold lead_len. repeat case_match; lia. Qed.

Lemma span_length {A} p (l : list A) : (length (span p l).2 <= length l)%nat.
Proof. induction l as [|x l IH]; [done|]. cbn [span]. destruct (p x); [|done]. destruct (span p l). cbn in *. lia. Qed.

Lemma span_stops {A} p (l : list A) : match (span p l).2 with x :: _ => p x = false | [] => True end.
Proof. induction l as [|x l IH]; [done|]. cbn [span]. destruct (p x) eqn:E; [|done]. by destruct (span p l). Qed.

Lemma fraction_length l : (length (fraction l).2 <= length l)%nat.
Proof.
  destruct l as [|p l]; [done|]. cbn [fraction]. destruct (point p); [|done].
  pose proof (span_length digit l). destruct (span digit l). cbn in *. lia.
Qed.

Section Es.
Context `{TokenizerDict} (cs : Charset).

(** Full-width characters count as their ASCII form, if they have one. *)
Definition symbol (ch : bytes) : option Symbol :=
  c ← head ch;
  if (lead_len cs c =? 1)%nat then Some (Ascii [tolower c])
  else
    match (match cs with UTF8 => q2b_utf8 ch | GBK => q2b_gbk ch end) with
    | None => Some (Own ch)
    | Some form => match cs with GBK => Some (Ascii form) | UTF8 => c ← head form; Some (Ascii [c]) end
    end.

Definition symbols (b : bytes) : list Symbol := omap symbol (lead_chars cs (length b) b).

(** The terms of a text, a byte order mark left out. *)
Definition text_terms (word : bytes) : gset bytes :=
  let l := symbols (drop (bom_len cs word) word) in list_to_set (cut (length l) l).

Definition es_step (st : EsState) (s : Symbol) : EsState :=
  match s with Ascii now => es_ascii st now | Own ch => es_single st ch end.

Lemma lead_chars_fuel fuel b : (length b <= fuel)%nat -> lead_chars cs fuel b = lead_chars cs (length b) b.
Proof.
  remember (length b) as n eqn:En. revert fuel b En. induction (lt_wf n) as [n _ IH]. intros fuel b -> Hf.
  destruct b as [|c b]; [by destruct fuel|]. destruct fuel as [|fuel]; [cbn in Hf; lia|].
  cbn [length lead_chars]. pose proof (lead_len_pos cs c).
  assert (Hl : (length (drop (lead_len cs c) (c :: b)) <= length b)%nat) by (rewrite length_drop; cbn; lia).
  assert (Hlt : (length (drop (lead_len cs c) (c :: b)) < S (length b))%nat) by lia.
  cbn [length] in Hf. rewrite (IH _ Hlt fuel) by (done || lia). by rewrite (IH _ Hlt (length b)) by (done || lia).
Qed.

Lemma es_char_symbol st ch c :
  is_u 8 c -> head ch = Some c ->
  es_char cs st ch c = match symbol ch with Some s => es_step st s | None => st end.
Proof.
  intros Hc Hh. unfold es_char, symbol. rewrite Hh, (char_len_lead cs c Hc). cbn [mbind option_bind].
  destruct (_ =? 1)%nat; [done|]. destruct cs.
  - by destruct (q2b_gbk ch).
  - destruct (q2b_utf8 ch) as [[|c' ?]|]; done.
Qed.

Lemma es_loop_symbols fuel word i st :
  bytes_ok word -> (length word - i < fuel)%nat ->
  es_loop cs fuel word i st = Some (foldl es_step st (symbols (drop i word))).
Proof.
  intros Hb. revert i st. induction fuel as [|fuel IH]; intros i st Hf; [lia|]. cbn [es_loop].
  destruct (Nat.ltb_spec i (length word)) as [Hi|Hi]; [|by rewrite drop_ge by lia].
  destruct (lookup_lt_is_Some_2 word i Hi) as [c Hc].
  assert (Hu : is_u 8 c) by (by apply (Forall_lookup_1 _ _ _ _ Hb Hc)).
  rewrite (nth_lookup_Some _ _ _ _ Hc). unfold symbols, substr. rewrite (drop_S word c i Hc).
  cbn [length lead_chars omap list_omap]. rewrite char_len_lead by done.
  pose proof (lead_len_pos cs c) as Hpos.
  rewrite es_char_symbol with (c := c); [|done|by destruct (lead_len cs c); [lia|]].
  assert (Hadv : drop (i + advance_len cs word (length word) i) word = drop (lead_len cs c) (c :: drop (S i) word)).
  { unfold advance_len. rewrite (nth_lookup_Some _ _ _ _ Hc), char_len_lead, <- (drop_S word c i Hc), drop_drop by done.
    destruct cs; [done|]. destruct (Nat.min_spec (lead_len UTF8 c) (length word - i)) as [[_ ->]|[? ->]]; [done|].
    by rewrite !drop_ge by lia. }
  rewrite IH by (unfold advance_len; rewrite (nth_lookup_Some _ _ _ _ Hc), char_len_lead by done; destruct cs; lia).
  rewrite Hadv. unfold symbols. rewrite <- (lead_chars_fuel (length (drop (S i) word))).
  - by destruct (symbol (take (lead_len cs c) (c :: drop (S i) word))).
  - rewrite length_drop. cbn [length]. lia.
Qed.

(** *** Runs *)

Definition idle (m : TermMap) : EsState := mk_es [] false false false m.

Definition continues (w n p : bool) (s : Symbol) : bool :=
  w && letter s || n && digit s || n && negb p && point s.

Lemma letter_ascii now : islower (nth 0 now 0) = letter (Ascii now).
Proof. by destruct now. Qed.

Lemma digit_ascii now : isdigit (nth 0 now 0) = digit (Ascii now).
Proof. by destruct now. Qed.

Lemma zero_insert t A : <[t := 0]> (zero_map A) = zero_map ({[t]} ∪ A).
Proof. unfold zero_map. by rewrite gset_to_gmap_union_singleton. Qed.

(** A symbol that does not continue a term ends it. *)
Lemma step_breaks t w n p A s :
  t <> [] -> continues w n p s = false ->
  es_step (mk_es t w n p (zero_map A)) s = es_step (idle (zero_map ({[t]} ∪ A))) s.
Proof.
  intros Ht Hs. destruct t as [|x t]; [done|]. destruct s as [now|ch]; cbn [es_step].
  - unfold continues in Hs. apply orb_false_iff in Hs as [[Hl Hd]%orb_false_iff Hp].
    unfold es_ascii. cbn [es_term is_word is_num has_point es_map idle].
    rewrite letter_ascii, Hl, digit_ascii, Hd. cbn [point] in Hp. rewrite Hp.
    unfold es_flush. cbn [es_term es_map]. by rewrite zero_insert.
  - unfold es_single, es_flush. cbn [es_term es_map idle]. rewrite !zero_insert.
    unfold idle. f_equal. f_equal. set_solver.
Qed.

Lemma run_ends t w n p A r :
  t <> [] -> match r with s :: _ => continues w n p s = false | [] => True end ->
  es_map (es_flush (foldl es_step (mk_es t w n p (zero_map A)) r)) =
  es_map (es_flush (foldl es_step (idle (zero_map ({[t]} ∪ A))) r)).
Proof.
  intros Ht Hr. destruct r as [|s r]; cbn [foldl]; [|by rewrite step_breaks].
  destruct t as [|x t]; [done|]. unfold es_flush. cbn [es_term es_map idle]. by rewrite zero_insert.
Qed.

(** Symbols that continue a term are appended to it. *)
Lemma run_grows q w n p :
  (forall s, q s = true -> exists now, s = Ascii now /\ forall t m, t <> [] ->
     es_ascii (mk_es t w n p m) now = mk_es (t ++ now) w n p m) ->
  forall l t m, t <> [] ->
  foldl es_step (mk_es t w n p m) l
  = foldl es_step (mk_es (t ++ ((span q l).1 ≫= text_of)) w n p m) (span q l).2.
Proof.
  intros Hq l. induction l as [|s l IH]; intros t m Ht; cbn [span]; [by cbn; rewrite app_nil_r|].
  destruct (q s) eqn:E; [|by cbn; rewrite app_nil_r].
  destruct (Hq s E) as (now & -> & Hnow). cbn [foldl es_step]. rewrite Hnow, IH by (done || by destruct t).
  destruct (span q l) as [a b]. cbn [fst snd mbind list_bind text_of]. by rewrite <- app_assoc.
Qed.

Lemma word_grows s : letter s = true ->
  exists now, s = Ascii now /\ forall t m, t <> [] ->
    es_ascii (mk_es t true false false m) now = mk_es (t ++ now) true false false m.
Proof.
  destruct s as [now|]; [|done]. intros Hs. exists now. split; [done|]. intros [|x t] m Ht; [done|].
  unfold es_ascii. cbn [es_term is_word is_num has_point es_map andb]. by rewrite letter_ascii, Hs.
Qed.

Lemma number_grows p s : digit s = true ->
  exists now, s = Ascii now /\ forall t m, t <> [] ->
    es_ascii (mk_es t false true p m) now = mk_es (t ++ now) false true p m.
Proof.
  destruct s as [now|]; [|done]. intros Hs. exists now. split; [done|]. intros [|x t] m Ht; [done|].
  unfold es_ascii. cbn [es_term is_word is_num has_point es_map andb]. by rewrite digit_ascii, Hs.
Qed.

Lemma point_grows s t m : point s = true -> t <> [] ->
  es_step (mk_es t false true false m) s = mk_es (t ++ text_of s) false true true m.
Proof.
  destruct s as [now|]; [|done]. intros ->%bool_decide_eq_true Ht. by destruct t as [|x t].
Qed.

Lemma fraction_run t l A :
  t <> [] -> match l with s :: _ => digit s = false | [] => True end ->
  es_map (es_flush (foldl es_step (mk_es t false true false (zero_map A)) l)) =
  es_map (es_flush (foldl es_step (idle (zero_map ({[t ++ ((fraction l).1 ≫= text_of)]} ∪ A))) (fraction l).2)).
Proof.
  intros Ht Hl. destruct l as [|s l]; [cbn [fraction]; cbn [fst mbind list_bind]; rewrite app_nil_r; by apply run_ends|].
  cbn [fraction]. destruct (point s) eqn:Ep.
  - cbn [foldl]. rewrite point_grows by done.
    rewrite (run_grows digit false true true (number_grows true)) by (by destruct t).
    pose proof (span_stops digit l) as Hs. destruct (span digit l) as [f r]. cbn [fst snd mbind list_bind] in *.
    rewrite run_ends; [by rewrite <- app_assoc|by destruct t|].
    destruct r; [done|]. unfold continues. cbn [andb orb negb]. by rewrite Hs.
  - cbn [fst snd mbind list_bind]. rewrite app_nil_r. apply run_ends; [done|].
    unfold continues. cbn [andb orb negb]. by rewrite Hl, Ep.
Qed.

(** Starting a term. *)
Lemma step_starts now m :
  es_step (idle m) (Ascii now) =
  if letter (Ascii now) then mk_es now true false false m
  else if digit (Ascii now) then mk_es now false true false m else idle m.
Proof. unfold es_step, es_ascii. cbn [es_term idle is_word is_num has_point es_map]. by rewrite letter_ascii, digit_ascii. Qed.

Lemma symbols_cut n l A :
  (length l <= n)%nat ->
  es_map (es_flush (foldl es_step (idle (zero_map A)) l)) = zero_map (list_to_set (cut n l) ∪ A).
Proof.
  revert l A. induction n as [|n IH]; intros l A Hl; (destruct l as [|s l]; [cbn; f_equal; set_solver|]); [cbn in Hl; lia|].
  cbn [length] in Hl. destruct s as [now|ch]; cbn [foldl cut].
  - rewrite step_starts. destruct (letter (Ascii now)) eqn:El; [|destruct (digit (Ascii now)) eqn:Ed].
    + assert (Hne : now <> []) by (by destruct now). rewrite (run_grows letter true false false word_grows) by done.
      pose proof (span_stops letter l) as Hs. pose proof (span_length letter l).
      destruct (span letter l) as [w r]. cbn [fst snd] in *. rewrite run_ends.
      * rewrite IH by lia. f_equal. cbn [list_to_set]. set_solver.
      * by destruct now.
      * destruct r; [done|]. unfold continues. cbn [andb orb negb]. by rewrite Hs.
    + assert (Hne : now <> []) by (by destruct now).
      rewrite (run_grows digit false true false (number_grows false)) by done.
      pose proof (span_stops digit l) as Hs. pose proof (span_length digit l).
      destruct (span digit l) as [d r]. cbn [fst snd] in *. rewrite fraction_run by (done || by destruct now).
      pose proof (fraction_length r). destruct (fraction r) as [f r']. cbn [fst snd] in *.
      rewrite IH by lia. f_equal. cbn [list_to_set]. set_solver.
    + by rewrite IH by lia.
  - assert (E : es_single (idle (zero_map A)) ch = idle (zero_map ({[ch]} ∪ A)))
      by (unfold es_single, es_flush; cbn [es_term es_map idle]; by rewrite zero_insert).
    cbn [es_step]. rewrite E, IH by lia. f_equal. cbn [list_to_set]. set_solver.
Qed.

(** C36. The standard tokenizer never fails and yields exactly the terms of the text, with equal
    weights: cut from the left after lower-casing and after full-width characters are replaced
    by their ASCII forms, these are the longest runs of letters, the longest numbers with at most
    one point, and each other character of several bytes on its own; everything else separates. *)
Theorem es_standard_terms word :
  bytes_ok word ->
  es_standard cs word ∅ = Some (gset_to_gmap (equal_weight (base.size (text_terms word))) (text_terms word)).
Proof.
  intros Hb. unfold es_standard. destruct (Nat.eqb_spec (length word) 0) as [E|_].
  { destruct word; [|done]. unfold text_terms. by destruct cs. }
  rewrite es_loop_symbols by (done || lia). cbn [mbind option_bind].
  change (mk_es [] false false false ∅) with (idle (zero_map ∅)).
  rewrite (symbols_cut (length (symbols (drop (bom_len cs word) word)))) by done.
  change (list_to_set _) with (text_terms word). rewrite (union_empty_r_L (text_terms word)).
  f_equal. apply set_weights_zero.
Qed.

End Es.

(** ** Windows *)

(** The characters of a text in lower case, the byte order mark left out. *)
Definition text_chars (cs : Charset) (word : bytes) : list bytes :=
  lower_char <$> chars_of cs (drop (bom_len cs word) word).

(** The terms of a text are its windows of [n] characters that are not punctuation,
    each once and with equal weights, or the whole text when it is no longer than a
    window. *)
Theorem simple_seg_windows `{TokenizerDict} cs word n :
  bytes_ok word -> word <> [] -> (1 <= n)%nat ->
  let ws := text_chars cs word in
  simple_seg cs word n ∅ =
  Some (if decide (length ws <= n)%nat then {[ mjoin ws := f32_of_Z 1 ]}
        else gset_to_gmap (equal_weight (size (window_terms n ws))) (window_terms n ws)).
Proof. intros Hb Hne Hn. exact (simple_seg_spec cs word n Hb Hne Hn). Qed.

(** ** Examples *)

(** A dictionary with the blank and the full-width exclamation mark. *)
Definition plain_dict : TokenizerDict := {|
  punctuation_blank t := bool_decide (t = [32]);
  q2b_gbk _ := None;
  q2b_utf8 t := if bool_decide (t = [239; 188; 129]) then Some [33] else None
|}.

(** "Ab c" in two-character windows. *)
Lemma simple_seg_windows_example :
  let _ := plain_dict in
  option_map (fun m : gmap bytes Z => (map_to_list m).*1) (simple_seg UTF8 [65; 98; 32; 99] 2 ∅)
  = Some (map_to_list (gset_to_gmap 0 (list_to_set [[97; 98]; [98; 32]; [32; 99]] : gset bytes))).*1.
Proof.
  intros d. rewrite (simple_seg_windows UTF8 [65; 98; 32; 99] 2);
    [vm_compute; reflexivity|repeat (apply Forall_cons; split; [unfold is_u; lia|]); constructor|done|lia].
Defined.

(** "A1.5.7", a full-width exclamation mark and a Chinese character. *)
Definition es_sample : bytes := [65; 49; 46; 53; 46; 55; 239; 188; 129; 228; 184; 173].

Lemma es_standard_terms_witness :
  let _ := plain_dict in
  es_standard UTF8 es_sample ∅
  = Some (gset_to_gmap (equal_weight 4) (list_to_set [[97]; [49; 46; 53]; [55]; [228; 184; 173]])).
Proof.
  intros d. rewrite (es_standard_terms UTF8 es_sample);
    [vm_compute; reflexivity|repeat (apply Forall_cons; split; [unfold is_u; lia|]); constructor].
Defined.

(** "%ab|c%" has the alternatives "ab" and "c". *)
Lemma split_str_example :
  split_str UTF8 [37; 97; 98; 124; 99; 37] 124 = Some [[97; 98]; [99]].
Proof.
  rewrite (split_str_spec [37; 97; 98; 124; 99; 37] 124);
    [vm_compute; reflexivity|repeat (apply Forall_cons; split; [unfold is_u; lia|]); constructor|lia].
Defined.
