(* ===== verification/ReverseSearch.v ===== *)
(** * Searching a full-text index
      ([include/reverse/reverse_interface.h] and [.hpp], [include/reverse/reverse_index.hpp])

    A document becomes one node per term; a search text becomes a query, whose
    terms are read from the levels of the index and combined by the boolean
    engine. *)

From stdpp Require Import gmap.
From S2P Require Import Prelude FloatArith KeyEncoder KvStore Ordered Heap LruCache ReverseList BoolExecutor ReverseParser ReverseIndex BoolQuery Tokenizer.

Inductive SegmentType : Type :=
  | S_NO_SEGMENT | S_UNIGRAMS | S_BIGRAMS | S_ES_STANDARD | S_OTHER.

Inductive MatchMode : Type := M_NARUTAL_LANGUAGE | M_BOOLEAN | M_LIKE.

(** ** Weights of nodes met by several clauses *)

Definition set_weight (n : ReverseNode) (w : Z) : ReverseNode := mk_node (key n) (flag n) w.

Definition merge_and (to from : ReverseNode) : ReverseNode :=
  set_weight to (fp_add 32 23 (weight to) (weight from)).

Definition merge_or (to from : ReverseNode) : ReverseNode :=
  set_weight to (fp_add 32 23 (weight to) (weight from)).

Definition merge_weight (to from : ReverseNode) : ReverseNode := to.

(** The nodes of a document by term, in the order of the map. *)
Abbreviation SegMap := (list (bytes * ReverseNode)).

Section Search.
Context {host : Host} {codec : ReverseCodec} {dict : TokenizerDict}.
Context {D : Type} {db : RocksDb D}.
Context {L : Type} {ll : LinkedList L}.

(** ** Terms of a text *)

(** The switch on the kind of segmentation; [None] is the error code. *)
Definition segment_terms (cs : Charset) (seg : SegmentType) (word : bytes) : option TermMap :=
  match seg with
  | S_NO_SEGMENT => Some {[ word := 0 ]}
  | S_UNIGRAMS => simple_seg cs word 1 ∅
  | S_BIGRAMS => simple_seg cs word 2 ∅
  | S_ES_STANDARD => es_standard cs word ∅
  | S_OTHER => None
  end.

(** The terms of a map in its order. *)
Definition terms_of (m : TermMap) : list bytes := sort_ids (map_to_list m).*1.

(** ** Documents *)

Definition term_node (m : TermMap) (pk : bytes) (fl : ReverseNodeType) (t : bytes) : bytes * ReverseNode :=
  (t, mk_node pk fl (default 0 (m !! t))).

(** [NewSchema::segment]: with nodes from the cache only key and flag are set. *)
Definition segment (cs : Charset) (seg : SegmentType) (word pk : bytes) (fl : ReverseNodeType)
    (res : SegMap) : option SegMap :=
  match res with
  | [] => (fun m => term_node m pk fl <$> terms_of m) <$> segment_terms cs seg word
  | _ => Some ((fun tn => (tn.1, mk_node pk fl (weight tn.2))) <$> res)
  end.

(** [handle_reverse]; [None] outside is a dereference of a deleted cache node.  The
    inner option is the store, absent when the code is -1. *)
Definition handle_reverse (ix : IndexId) (cs : Charset) (seg : SegmentType)
    (seg_cache : option (Cache L bytes SegMap)) (put_ok : bytes -> bool) (time : bytes -> Z)
    (fl : ReverseNodeType) (word pk : bytes) (d : D) :
    option (option D * option (Cache L bytes SegMap)) :=
  match word with
  | [] => Some (Some d, seg_cache)
  | _ =>
      '(nodes, seg_cache) ←
        match seg_cache with
        | Some c =>
            '(found, c) ← cache_find word c;
            match found with
            | None =>
                let nodes := segment cs seg word pk fl [] in
                c ← cache_add word (default [] nodes) c;
                Some (nodes, Some c)
            | Some cached => Some (segment cs seg word pk fl cached, Some c)
            end
        | None => Some (segment cs seg word pk fl [], None)
        end;
      Some (nodes ← nodes; insert_nodes ix put_ok time nodes d, seg_cache)
  end.

(** The cache of segmented texts of a new index. *)
Definition new_seg_cache (is_seg_cache : bool) (cache_size : Z) : option (Cache L bytes SegMap) :=
  if is_seg_cache then Some (cache_init cache_size new_cache) else None.

(** A document as a transaction writes it. *)
Record Doc : Type := mk_doc { doc_flag : ReverseNodeType; doc_word : bytes; doc_pk : bytes }.

(** The commit of a transaction counts one write when it had a text for the index. *)
Definition commit_count (docs : list Doc) (ri : ReverseIndex L) : ReverseIndex L :=
  if existsb (fun doc => bool_decide (doc_word doc <> [])) docs then add_write_count ri else ri.

(** ** Queries *)

(** One alternative of the search text: nothing, a term, or the conjunction of its
    terms. *)
Definition item_node (type : NodeType) (merge : MergeFuncT) (terms : list bytes) : option ExecutorNode :=
  match terms with
  | [] => None
  | [t] => Some (mk_exec_node TERM merge t [])
  | ts => Some (mk_exec_node type merge [] ((fun t => mk_exec_node TERM merge_and t []) <$> ts))
  end.

(** The alternatives of a search text. *)
Definition or_items (cs : Charset) (mode : MatchMode) (data : bytes) : option (list bytes) :=
  match mode with
  | M_NARUTAL_LANGUAGE => Some [data]
  | M_BOOLEAN => split_str cs data 32
  | M_LIKE => split_str cs data 124
  end.

(** [NewSchema::create_executor] up to the query: the outer option is the error, the
    inner one an absent executor. *)
Definition create_query (cs : Charset) (seg : SegmentType) (mode : MatchMode) (data : bytes) :
    option (option ExecutorNode) :=
  items ← or_items cs mode data;
  match items with
  | [] => Some None
  | [item] =>
      m ← segment_terms cs seg item;
      let '(type, merge) :=
        match mode with M_NARUTAL_LANGUAGE => (OR, merge_or) | _ => (AND, merge_and) end in
      Some (item_node type merge (terms_of m))
  | _ =>
      ms ← mapM (segment_terms cs seg) items;
      Some (Some (mk_exec_node OR merge_or [] (omap (item_node AND merge_and) (terms_of <$> ms))))
  end.

(** The executor of a query over the lists of its terms. *)
Definition init_parser (r : KeyRange) (lists : bytes -> list ReverseNode * list ReverseNode) (t : bytes) :
    option Parser :=
  parser_init r (lists t).1 (lists t).2.

(** The keys a search gives, one after the other. *)
Definition search_keys (ty : bool_executor_type) (r : KeyRange)
    (lists : bytes -> list ReverseNode * list ReverseNode) (fuel : nat) (q : option ExecutorNode) :
    option (list bytes) :=
  match q with
  | None => Some []
  | Some node =>
      e ← parse_executor_node ty (init_parser r lists) 2 node;
      match e with
      | None => Some []
      | Some e => read_all fuel e
      end
  end.

(** The terms of a search text. *)
Definition query_terms (cs : Charset) (seg : SegmentType) (mode : MatchMode) (data : bytes) : list bytes :=
  default [] (items ← or_items cs mode data; ms ← mapM (segment_terms cs seg) items;
              Some (mjoin (terms_of <$> ms))).

(** The two lists of the terms read so far. *)
Abbreviation TermLists := (gmap bytes (list ReverseNode * list ReverseNode)).

(** The lists of the terms, read one after the other without the first level, as the
    parsers of a search are initialized; a term met again is not read again. *)
Fixpoint read_terms (ts : list bytes) (ls : TermLists) (ri : ReverseIndex L) (d : D) :
    res (TermLists * ReverseIndex L) :=
  match ts with
  | [] => Ok (ls, ri)
  | t :: ts =>
      match ls !! t with
      | Some _ => read_terms ts ls ri d
      | None =>
          '(new, old, ri) ← get_reverse_list_two ri (fun _ => true) true t d;
          read_terms ts (<[t := (new, old)]> ls) ri d
      end
  end.

Definition lists_at (ls : TermLists) (t : bytes) : list ReverseNode * list ReverseNode :=
  default ([], []) (ls !! t).

(** [ReverseIndex::search] and the keys its executor then gives, in the range of the
    last merge. *)
Definition search (ty : bool_executor_type) (ri : ReverseIndex L) (cs : Charset) (seg : SegmentType)
    (mode : MatchMode) (data : bytes) (fuel : nat) (d : D) : option (list bytes * ReverseIndex L) :=
  q ← create_query cs seg mode data;
  match read_terms (query_terms cs seg mode data) ∅ ri d with
  | Ok (ls, ri) => l ← search_keys ty (ri_key_range ri) (lists_at ls) fuel q; Some (l, ri)
  | _ => None
  end.

End Search.
