(* ===== verification/ReverseSearchFacts.v ===== *)
(** * Searches find what was indexed

    Documents change what their terms select and nothing else; searches give the
    keys the query selects, in order. *)

From Stdlib Require Import Sorted.
From stdpp Require Import gmap sorting.
From S2P Require Import Prelude FloatArith KeyEncoder KvStore Ordered Heap LruCache ReverseList BoolExecutor BoolExecutorFacts BoolNodes ReverseParser BoolQuery ReverseIndex ReverseFirstFacts ReverseIndexFacts ReverseMergeFacts ReverseMergeFunc ReverseInsertFacts Tokenizer ReverseSearch.

(** ** The shape of queries *)

Lemma merge_and_keeps : merge_keeps merge_and.
Proof. by intros from to. Qed.

Lemma merge_or_keeps : merge_keeps merge_or.
Proof. by intros from to. Qed.

Lemma item_node_ok term_ok type merge terms node :
  merge_keeps merge -> type <> TERM -> Forall term_ok terms ->
  item_node type merge terms = Some node ->
  query_ok term_ok merge_keeps node /\ (depth node <= 1)%nat.
Proof.
  intros Hm Hty Hts E. destruct terms as [|t [|t' ts]]; simplify_eq/=.
  - split; [|lia]. apply query_term. by inversion Hts.
  - split.
    + apply query_op; [done|done|].
      change (Forall (query_ok term_ok merge_keeps) ((fun t => mk_exec_node TERM merge_and t []) <$> t :: t' :: ts)).
      apply Forall_fmap. eapply Forall_impl; [exact Hts|]. intros. by apply query_term.
    + assert (Hd : list_max (depth <$> ((fun t => mk_exec_node TERM merge_and t []) <$> ts)) = 0%nat).
      { induction ts as [|x ts IH]; [done|]. simpl. apply IH.
        inversion Hts as [|? ? ? H2]; subst. inversion H2 as [|? ? ? H3]; subst. inversion H3; subst.
        by repeat constructor. }
      destruct type; simpl; try done; simpl in Hd; lia.
Qed.

Section Query.
Context {dict : TokenizerDict}.

(** Every query has at most two operators above a term. *)
Lemma create_query_ok cs seg mode data node (term_ok : bytes -> Prop) :
  (forall t, t ∈ query_terms cs seg mode data -> term_ok t) ->
  create_query cs seg mode data = Some (Some node) ->
  query_ok term_ok merge_keeps node /\ (depth node <= 2)%nat.
Proof.
  unfold create_query, query_terms. destruct (or_items cs mode data) as [items|]; [|done].
  cbn [mbind option_bind]. destruct items as [|item [|item' items]]; [done| |].
  - simpl. destruct (segment_terms cs seg item) as [m|]; [|done]. cbn. intros Hok.
    assert (Hall : Forall term_ok (terms_of m)).
    { apply Forall_forall. intros t Hin. apply Hok. by apply elem_of_app; left. }
    destruct mode; intros [= E]; apply (item_node_ok term_ok) in E;
      try done; try apply merge_or_keeps; try apply merge_and_keeps; destruct E; (split; [done|lia]).
  - destruct (mapM _ _) as [ms|]; [|done]. cbn [mbind option_bind default from_option].
    intros Hok [= <-]. set (nodes := omap _ _).
    assert (Hn : Forall (fun n => query_ok term_ok merge_keeps n /\ (depth n <= 1)%nat) nodes).
    { apply Forall_forall. intros n (ts & Hts & E)%list_elem_of_omap.
      apply (item_node_ok term_ok) in E; [done|apply merge_and_keeps|done|].
      apply Forall_forall. intros t Ht. apply Hok. apply list_elem_of_join. by exists ts. }
    split.
    + constructor; [done|apply merge_or_keeps|]. eapply Forall_impl; [exact Hn|]. by intros n [].
    + assert (Hd : (list_max (depth <$> nodes) <= 1)%nat).
      { apply list_max_le. apply Forall_fmap. eapply Forall_impl; [exact Hn|]. by intros n []. }
      simpl. destruct nodes; [lia|]. simpl in *. lia.
Qed.

(** The keys a search text asks for, given the keys of every term: those with all
    the terms of one alternative or, in natural mode, with any term. *)
Definition asks_for (ids : bytes -> list bytes) (cs : Charset) (seg : SegmentType) (mode : MatchMode)
    (data x : bytes) : Prop :=
  exists items item m,
    or_items cs mode data = Some items /\ item ∈ items /\ segment_terms cs seg item = Some m /\
    match mode with
    | M_NARUTAL_LANGUAGE => exists t, t ∈ terms_of m /\ x ∈ ids t
    | _ => terms_of m <> [] /\ forall t, t ∈ terms_of m -> x ∈ ids t
    end.

Lemma leaf_ids (ids : bytes -> list bytes) (ts : list bytes) :
  omap (node_ids ids) ((fun t => mk_exec_node TERM merge_and t []) <$> ts) = ids <$> ts.
Proof. induction ts as [|t ts IH]; [done|]. cbn. by f_equal. Qed.

Lemma item_and_ids (ids : bytes -> list bytes) merge (ts : list bytes) x :
  x ∈ default [] (node ← item_node AND merge ts; node_ids ids node) <->
  ts <> [] /\ forall t, t ∈ ts -> x ∈ ids t.
Proof.
  destruct ts as [|t [|t' ts]].
  - simpl. rewrite elem_of_nil. by split; [|intros []].
  - cbn. split; [|intros [_ H]; apply H; left]. intros Hx. split; [done|]. by intros ? ->%list_elem_of_singleton.
  - assert (E : (node ← item_node AND merge (t :: t' :: ts); node_ids ids node) =
      Some (inter (ids <$> t :: t' :: ts))) by (cbn; by rewrite <- leaf_ids).
    rewrite E. cbn [default from_option id]. rewrite elem_of_inter. unfold common. split.
    + intros [_ H]. split; [done|]. intros u Hu. apply H. by apply (list_elem_of_fmap_2 ids) in Hu.
    + intros [_ H]. split; [done|]. intros l (u & -> & Hu)%(list_elem_of_fmap ids). by apply H.
Qed.

Lemma item_or_ids (ids : bytes -> list bytes) merge (ts : list bytes) x :
  x ∈ default [] (node ← item_node OR merge ts; node_ids ids node) <-> exists t, t ∈ ts /\ x ∈ ids t.
Proof.
  destruct ts as [|t [|t' ts]].
  - simpl. rewrite elem_of_nil. split; [done|]. by intros (t & []%elem_of_nil & _).
  - cbn. split; [exists t; by split; [left|]|]. by intros (? & ->%list_elem_of_singleton & ?).
  - assert (E : (node ← item_node OR merge (t :: t' :: ts); node_ids ids node) =
      Some (union (ids <$> t :: t' :: ts))) by (cbn; by rewrite <- leaf_ids).
    rewrite E. cbn [default from_option id]. rewrite elem_of_union. split.
    + intros (l & Hx & (u & -> & Hu)%(list_elem_of_fmap ids)). by exists u.
    + intros (u & Hu & Hx). exists (ids u). split; [done|]. by apply (list_elem_of_fmap_2 ids) in Hu.
Qed.

Lemma items_ids ids nodes x :
  x ∈ default [] (node_ids ids (mk_exec_node OR merge_or [] nodes)) <->
  exists n, n ∈ nodes /\ x ∈ default [] (node_ids ids n).
Proof.
  assert (E : default [] (node_ids ids (mk_exec_node OR merge_or [] nodes)) = union (omap (node_ids ids) nodes))
    by by destruct nodes.
  rewrite E, elem_of_union. split.
  - intros (l & Hx & (n & Hn & El)%list_elem_of_omap). exists n. by rewrite El.
  - intros (n & Hn & Hx). destruct (node_ids ids n) as [l|] eqn:El; [|by apply elem_of_nil in Hx].
    exists l. split; [done|]. apply list_elem_of_omap. by exists n.
Qed.

(** The query of a text selects the keys the text asks for. *)
Lemma create_query_asks ids cs seg mode data q x :
  create_query cs seg mode data = Some q ->
  x ∈ default [] (node ← q; node_ids ids node) <-> asks_for ids cs seg mode data x.
Proof.
  unfold create_query, asks_for. destruct (or_items cs mode data) as [items|] eqn:Ei; [|done].
  cbn [mbind option_bind]. destruct items as [|item [|item' items]].
  - intros [= <-]. simpl. rewrite elem_of_nil. split; [done|].
    by intros (? & ? & ? & [= <-] & []%elem_of_nil & _).
  - destruct (segment_terms cs seg item) as [m|] eqn:Em; [|done]. cbn [mbind option_bind]. intros Eq.
    transitivity (match mode with
      | M_NARUTAL_LANGUAGE => exists t, t ∈ terms_of m /\ x ∈ ids t
      | _ => terms_of m <> [] /\ forall t, t ∈ terms_of m -> x ∈ ids t end).
    + destruct mode; injection Eq as <-; first [apply item_or_ids|apply item_and_ids].
    + split; [intros Hx; exists [item], item, m; split; [done|]; split; [left|by split]|].
      intros (? & ? & ? & [= <-] & ->%list_elem_of_singleton & Em' & Hx). by simplify_eq.
  - destruct (mapM (segment_terms cs seg) (item :: item' :: items)) as [ms|] eqn:Ems; [|done].
    cbn [mbind option_bind]. intros [= <-].
    cbn [mbind option_bind]. rewrite items_ids. apply mapM_Some in Ems.
    assert (Hmode : mode <> M_NARUTAL_LANGUAGE) by (intros ->; done).
    transitivity (exists m, m ∈ ms /\ terms_of m <> [] /\ forall t, t ∈ terms_of m -> x ∈ ids t).
    + split.
      * intros (n & (ts & (m & -> & Hm)%list_elem_of_fmap & En)%list_elem_of_omap & Hx).
        exists m. split; [done|]. apply (item_and_ids ids merge_and). by rewrite En.
      * intros (m & Hm & Hx%(item_and_ids ids merge_and)).
        destruct (item_node AND merge_and (terms_of m)) as [n|] eqn:En; [|by apply elem_of_nil in Hx].
        exists n. split; [|done]. apply list_elem_of_omap. exists (terms_of m).
        split; [by apply (list_elem_of_fmap_2 terms_of)|done].
    + split.
      * intros (m & Hm & Hx). apply list_elem_of_lookup in Hm as [j Hj].
        destruct (Forall2_lookup_r _ _ _ _ _ Ems Hj) as (i & Hi%list_elem_of_lookup_2 & Em).
        exists (item :: item' :: items), i, m. by destruct mode.
      * intros (? & i & m & [= <-] & Hi & Em & Hx).
        apply list_elem_of_lookup in Hi as [j Hj].
        destruct (Forall2_lookup_l _ _ _ _ _ Ems Hj) as (m' & Hm%list_elem_of_lookup_2 & Em').
        assert (m' = m) as -> by congruence. exists m. by destruct mode.
Qed.

Lemma node_ids_sorted ids node l :
  (forall t, sorted (ids t)) -> query_ok (fun _ => True) merge_keeps node -> node_ids ids node = Some l -> sorted l.
Proof.
  intros Hs. revert node l. fix IH 3. intros node l Hq.
  destruct Hq as [m t subs _|type m t subs Hty _ Hsubs]; [by intros [= <-]|].
  assert (Hall : Forall sorted (omap (node_ids ids) subs)).
  { clear Hty l. induction Hsubs as [|n subs Hn Hsubs IHs]; [constructor|]. cbn.
    destruct (node_ids ids n) as [l|] eqn:El; [|done]. constructor; [by apply (IH n)|done]. }
  destruct subs as [|sub subs]; [by destruct type|]. destruct type; [| | |done]; intros [= <-].
  - by apply inter_sorted.
  - apply sort_ids_sorted.
  - inversion Hsubs as [|? ? Hsub _]; subst. destruct (node_ids ids sub) as [k|] eqn:Ek; [|constructor].
    by apply (IH sub).
Qed.

Lemma query_ids_sorted ids cs seg mode data q :
  create_query cs seg mode data = Some q -> (forall t, sorted (ids t)) ->
  sorted (default [] (node ← q; node_ids ids node)).
Proof.
  intros Eq Hs. destruct q as [node|]; [|apply sorted_nil]. cbn [mbind option_bind].
  destruct (node_ids ids node) as [l|] eqn:El; [|apply sorted_nil].
  apply (node_ids_sorted ids node l Hs); [|done].
  by apply (create_query_ok cs seg mode data node (fun _ => True)).
Qed.

(** A text asks by its terms only. *)
Lemma asks_for_terms ids ids' cs seg mode data q x :
  create_query cs seg mode data = Some q ->
  (forall t, t ∈ query_terms cs seg mode data -> x ∈ ids t <-> x ∈ ids' t) ->
  asks_for ids cs seg mode data x <-> asks_for ids' cs seg mode data x.
Proof.
  intros Eq E.
  assert (Hin : forall items item m t, or_items cs mode data = Some items -> item ∈ items ->
    segment_terms cs seg item = Some m -> t ∈ terms_of m -> t ∈ query_terms cs seg mode data).
  { intros items item m t Ei Hitem Em Ht. unfold create_query, query_terms in *. rewrite Ei in *. cbn [mbind option_bind] in *.
    assert (exists ms, mapM (segment_terms cs seg) items = Some ms) as [ms Ems].
    { destruct items as [|i1 [|i2 items]]; [by exists []| |].
      - simpl. destruct (segment_terms cs seg i1); [by eexists|done].
      - destruct (mapM _ _); [by eexists|done]. }
    rewrite Ems. cbn [mbind option_bind default from_option id]. apply mapM_Some in Ems.
    apply list_elem_of_lookup in Hitem as [k Hk].
    destruct (Forall2_lookup_l _ _ _ _ _ Ems Hk) as (m' & Hm & Em'). assert (m' = m) as -> by congruence.
    apply list_elem_of_join. exists (terms_of m). split; [done|]. apply list_elem_of_lookup_2 in Hm.
    by apply (list_elem_of_fmap_2 terms_of). }
  unfold asks_for. split; intros (items & item & m & Ei & Hi & Em & H); exists items, item, m; split_and!; try done;
    (destruct mode; [destruct H as (t & Ht & Hx); exists t; split; [done|]; by apply E; [eapply Hin|]
                    |destruct H as [Hne Hx]; split; [done|]; intros t Ht; apply E; [by eapply Hin|by apply Hx]..]).
Qed.

End Query.

(** ** Reading a term *)

Section Facts.
Context {host : Host} {codec : ReverseCodec} {codec_laws : ReverseCodecLaws} {dict : TokenizerDict}.
Context {D : Type} {db : RocksDb D} {laws : RocksDbLaws D}.
Context {L : Type} {ll : LinkedList L} {ll_laws : LinkedListLaws L}.
Context (ix : IndexId) (pk_ok : bytes -> Prop).
Hypothesis pk_free : forall a b, pk_ok a -> pk_ok b -> a `prefix_of` b -> a = b.
Implicit Type d : D.

(** The keys a term selects, in order. *)
Definition posting_ids (r : KeyRange) d (t : bytes) : list bytes :=
  sort_ids (map_to_list (postings ix r t d)).*1.

Lemma elem_of_posting_ids r d t x : x ∈ posting_ids r d t <-> is_Some (postings ix r t d !! x).
Proof.
  unfold posting_ids. rewrite elem_of_sort_ids, list_elem_of_fmap. split.
  - intros ([k n] & -> & Hin). apply elem_of_map_to_list in Hin. by exists n.
  - intros [n Hn]. exists (x, n). split; [done|]. by apply elem_of_map_to_list.
Qed.

Lemma index_ready_ext r (ri : ReverseIndex L) d d' :
  (forall t, level_list ix 3 t d = level_list ix 3 t d') -> index_ready ix r ri d -> index_ready ix r ri d'.
Proof.
  intros E (Hid & s & Hh & Hc). split; [done|]. exists s. split; [done|]. intros Ho k l Hin Hk.
  destruct (Hc Ho k l Hin Hk) as (t & ? & ? & ?). exists t. by rewrite <- E.
Qed.

(** A fast read of a term, with lists that keep to the region, gives the stored lists. *)
Lemma get_reverse_list_fast r ri t d :
  index_ok ix pk_ok d -> index_ready ix r ri d -> lists_bounded ix r d -> cache_bounded r ri ->
  exists ri', get_reverse_list_two ri (fun _ => true) true t d
      = Ok (level_list ix 2 t d, level_list ix 3 t d, ri') /\
    index_ready ix r ri' d /\ cache_bounded r ri' /\ write_count ri' = write_count ri /\
    ri_key_range ri' = ri_key_range ri.
Proof.
  intros Hok Hready Hb Hc. pose proof Hready as [Hid _]. unfold get_reverse_list_two. rewrite Hid.
  rewrite (read_level_spec ix pk_ok) by auto. cbn [or_empty mbind res_bind].
  destruct (get_level_cached_spec ix pk_ok r ri t d Hok Hready) as (old & ri' & E & Hs & Hr & Hready').
  destruct (get_level_cached_bounded ix r ri t d old ri' Hready Hb Hc E) as (Hold & Hc' & Hw).
  rewrite !ranged_in_region in Hr by (done || by apply Hb; right). rewrite E, Hr. cbn [mbind res_bind].
  exists ri'. split; [done|]. split; [done|]. split; [done|]. split; [done|]. by eapply get_level_cached_range.
Qed.

(** The keys that the second and the third level of a term select. *)
Definition merged_ids d (t : bytes) : list bytes :=
  keys (filter live (merge_nodes (level_list ix 2 t d) (level_list ix 3 t d))).

Lemma merged_sorted d t :
  index_ok ix pk_ok d -> sorted (keys (merge_nodes (level_list ix 2 t d) (level_list ix 3 t d))).
Proof.
  intros Hok. apply merge_nodes_sorted; (eapply level_list_sorted; [done|]); [by left|by right].
Qed.

Lemma merged_ids_sorted d t : index_ok ix pk_ok d -> sorted (merged_ids d t).
Proof. intros Hok. eapply sorted_sublist; [|by apply (merged_sorted d t)]. apply keys_sublist, sublist_filter. Qed.

(** Without nodes in the first level they are all there is. *)
Lemma merged_ids_all r d t x :
  index_ok ix pk_ok d -> lists_bounded ix r d -> term_pairs ix t d = [] ->
  x ∈ merged_ids d t <-> x ∈ posting_ids r d t.
Proof.
  intros Hok Hb Hp. pose proof (merged_sorted d t Hok) as Hm.
  assert (Hr : in_region r (merge_nodes (level_list ix 2 t d) (level_list ix 3 t d)))
    by (apply in_region_merge; apply Hb; auto).
  rewrite elem_of_posting_ids. unfold postings, newest, first_nodes. rewrite Hp.
  change (nodes_map (dedup_last (nodes_of []))) with (∅ : gmap bytes ReverseNode).
  rewrite (left_id_L ∅ (∪)), <- nodes_map_merge by (eapply level_list_sorted; [done|auto]).
  unfold merged_ids, keys. rewrite list_elem_of_fmap. split.
  - intros (n & -> & [Hl Hn]%list_elem_of_filter). exists n.
    apply map_lookup_filter_Some. split; [by apply nodes_map_lookup|]. split; [by eapply Forall_forall in Hr|done].
  - intros [n [Hn [Hk Hl]]%map_lookup_filter_Some]. apply nodes_map_lookup in Hn as [Hn <-]; [|done].
    exists n. split; [done|]. by apply list_elem_of_filter.
Qed.

(** ** Searching *)

(** Lists short enough for the positions of the parser. *)
Definition short_lists d (t : bytes) : Prop :=
  Z.of_nat (length (level_list ix 2 t d)) < 2 ^ 31 /\ Z.of_nat (length (level_list ix 3 t d)) < 2 ^ 31.

Lemma read_leaf r d t lists :
  index_ok ix pk_ok d -> lists_bounded ix r d -> short_lists d t ->
  lists t = (level_list ix 2 t d, level_list ix 3 t d) -> leaf_ok (init_parser r lists) (merged_ids d) t.
Proof.
  intros Hok Hb [Hl1 Hl2] E.
  assert (H2 : sorted (keys (level_list ix 2 t d))) by (eapply level_list_sorted; [done|by left]).
  assert (H3 : sorted (keys (level_list ix 3 t d))) by (eapply level_list_sorted; [done|by right]).
  assert (Hr : in_region r (merge_nodes (level_list ix 2 t d) (level_list ix 3 t d)))
    by (apply in_region_merge; apply Hb; auto).
  destruct (parser_init_spec r (level_list ix 2 t d) (level_list ix 3 t d)) as (p & Ep & Hwf & Hn); [done|done| |].
  { intros _ n Hn. destruct (merge_nodes _ _) as [|m l]; [done|]. injection Hn as <-. apply Forall_cons in Hr as [[_ ?] _]. done. }
  exists p. unfold init_parser. rewrite E. split; [done|]. split; [done|]. unfold live_nodes.
  change (p_nodes p) with (parser_nodes p). rewrite Hn. unfold visible, merged_ids. by rewrite (ranged_in_region r) by done.
Qed.

Lemma search_keys_spec r d ty lists cs seg mode data q :
  index_ok ix pk_ok d -> lists_bounded ix r d ->
  Forall (fun t => short_lists d t /\ lists t = (level_list ix 2 t d, level_list ix 3 t d)) (query_terms cs seg mode data) ->
  create_query cs seg mode data = Some q ->
  exists enough, forall fuel, (enough <= fuel)%nat ->
    search_keys ty r lists fuel q = Some (default [] (node ← q; node_ids (merged_ids d) node)).
Proof.
  intros Hok Hb Hl Eq. destruct q as [node|]; [|by exists 0%nat].
  destruct (create_query_ok cs seg mode data node (leaf_ok (init_parser r lists) (merged_ids d)))
    as [Hq Hd]; [|done|].
  { intros t Hin. eapply Forall_forall in Hl as [Hs El]; [|exact Hin]. by apply (read_leaf r). }
  destruct (parse_correct ty (init_parser r lists) (merged_ids d) 2 node Hq Hd) as (e & Ee & He).
  unfold search_keys. rewrite Ee. cbn [mbind option_bind]. unfold executes in He.
  destruct e as [e|], (node_ids (merged_ids d) node) as [l|]; try done.
  - destruct He as [[Hw Hst] <-]. exists (length (ids e) + 2)%nat. intros fuel Hf.
    pose proof (read_all_spec fuel e Hw) as Hr. rewrite Hst in Hr. by apply Hr.
  - by exists 0%nat.
Qed.

(** Reading the terms of a query. *)
Lemma read_terms_spec r ts ls ri d :
  index_ok ix pk_ok d -> index_ready ix r ri d -> lists_bounded ix r d -> cache_bounded r ri ->
  (forall t v, ls !! t = Some v -> v = (level_list ix 2 t d, level_list ix 3 t d)) ->
  exists ls' ri', read_terms ts ls ri d = Ok (ls', ri') /\
    (index_ready ix r ri' d /\ cache_bounded r ri' /\ write_count ri' = write_count ri /\
     ri_key_range ri' = ri_key_range ri) /\
    forall t, t ∈ ts \/ is_Some (ls !! t) -> ls' !! t = Some (level_list ix 2 t d, level_list ix 3 t d).
Proof.
  intros Hok Hready Hb Hc. revert ls ri Hready Hc. induction ts as [|t ts IH]; intros ls ri Hready Hc Hls; cbn [read_terms].
  { exists ls, ri. split; [done|]. split; [by split_and!|]. intros t [[]%elem_of_nil|[v Hv]]. by rewrite Hv, <- (Hls t v Hv). }
  destruct (ls !! t) as [v|] eqn:Et.
  { destruct (IH ls ri Hready Hc Hls) as (ls' & ri' & E & Hri & H). exists ls', ri'. split; [done|]. split; [done|].
    intros t' [[->|Ht']%elem_of_cons|Hs]; apply H; [right; by exists v|by left|by right]. }
  destruct (get_reverse_list_fast r ri t d Hok Hready Hb Hc) as (ri1 & -> & Hr1 & Hc1 & Ew & Ek). cbn [mbind res_bind].
  destruct (IH (<[t := (level_list ix 2 t d, level_list ix 3 t d)]> ls) ri1 Hr1 Hc1) as (ls' & ri' & E & (? & ? & ? & ?) & H).
  { intros t' v [[<- <-]|[_ Hv]]%lookup_insert_Some; [done|by apply Hls]. }
  exists ls', ri'. split; [done|]. split; [split_and!; [done|done|congruence|congruence]|].
  intros t' [[->|Ht']%elem_of_cons|Hs]; apply H; [right; rewrite lookup_insert_eq; by eexists|by left|right].
  rewrite lookup_insert. case_decide; [by eexists|done].
Qed.

(** A search gives what the second and the third level select. *)
Lemma search_spec r ty ri cs seg mode data q d :
  index_ok ix pk_ok d -> index_ready ix r ri d -> lists_bounded ix r d -> cache_bounded r ri ->
  lists_bounded ix (ri_key_range ri) d ->
  create_query cs seg mode data = Some q -> Forall (short_lists d) (query_terms cs seg mode data) ->
  exists enough l ri', (forall fuel, (enough <= fuel)%nat -> search ty ri cs seg mode data fuel d = Some (l, ri')) /\
    sorted l /\ forall x, x ∈ l <-> asks_for (merged_ids d) cs seg mode data x.
Proof.
  intros Hok Hready Hb Hc Hb' Eq Hs.
  destruct (read_terms_spec r (query_terms cs seg mode data) ∅ ri d Hok Hready Hb Hc) as (ls & ri' & Er & (_ & _ & _ & Ek) & Hls).
  { intros t v. by rewrite lookup_empty. }
  destruct (search_keys_spec (ri_key_range ri') d ty (lists_at ls) cs seg mode data q Hok) as [enough E]; [by rewrite Ek| |done|].
  { apply Forall_forall. intros t Ht. split; [by eapply Forall_forall in Hs|]. unfold lists_at. by rewrite Hls by by left. }
  eexists enough, _, ri'. split.
  { intros fuel Hf. unfold search. rewrite Eq, Er. cbn [mbind option_bind]. by rewrite (E fuel Hf). }
  split; [|intros x; by apply create_query_asks].
  apply (query_ids_sorted _ cs seg mode data); [done|]. intros t. by apply merged_ids_sorted.
Qed.

(** A term that does not start with the byte 255 is merged with the others. *)
Lemma pending_none d t :
  index_ok ix pk_ok d -> pending_pairs ix d = [] -> head t <> Some 255 ->
  bytes_ok t -> term_pairs ix t d = [].
Proof.
  intros Hok Hp Ht Hb. destruct (term_pairs ix t d) as [|[k v] l] eqn:E; [done|].
  assert (Hin : (k, v) ∈ term_pairs ix t d) by (rewrite E; left).
  apply elem_of_term_pairs in Hin as (Hg & Hl & Htm).
  destruct (term_of_pair ix pk_ok d k v t Hok Hg Hl Htm) as (n & time & Hn & _ & Ek & _).
  assert (Hpend : (k, v) ∈ pending_pairs ix d).
  { apply list_elem_of_filter. split; [|by apply elem_of_first_pairs]. simpl. rewrite Ek.
    unfold first_key, end_key, bytes_lt. rewrite lex_compare_app_l.
    assert (Ef : exists f, mem_store 8 (2 ^ 64 - 1) = 255 :: f).
    { unfold mem_store. case_match; by eexists. }
    destruct Ef as [f ->]. destruct t as [|c t]; [done|]. inversion_clear Hb as [|? ? Hc _]. simpl.
    rewrite (proj2 (Z.compare_lt_iff c 255)); [done|].
    assert (c <> 255) by (intros ->; done). unfold is_u in Hc. lia. }
  rewrite Hp in Hpend. by apply elem_of_nil in Hpend.
Qed.

(** ** Documents *)

(** The entries of the cache of segmented texts come from segmentation. *)
Definition seg_cached (cs : Charset) (seg : SegmentType) (s : list (bytes * SegMap)) : Prop :=
  forall w nodes, (w, nodes) ∈ s -> exists pk fl, nodes = default [] (segment cs seg w pk fl []).

Definition seg_cache_ok (cs : Charset) (seg : SegmentType) (sc : option (Cache L bytes SegMap)) : Prop :=
  match sc with
  | None => True
  | Some c => exists s, holds c None s /\ seg_cached cs seg s
  end.

Lemma segment_cached cs seg w pk fl pk' fl' :
  segment cs seg w pk fl (default [] (segment cs seg w pk' fl' [])) = segment cs seg w pk fl [].
Proof.
  unfold segment at 2. destruct (segment_terms cs seg w) as [m|] eqn:Em; [|done].
  cbn [fmap option_fmap option_map default from_option id].
  assert (E : segment cs seg w pk fl [] = Some (term_node m pk fl <$> terms_of m)).
  { unfold segment. by rewrite Em. }
  destruct (terms_of m) as [|t ts]; [by rewrite E|]. rewrite E.
  cbn. f_equal. f_equal. rewrite <- list_fmap_compose. by apply list_fmap_ext.
Qed.

(** The cache never changes the nodes of a text. *)
Lemma handle_reverse_nodes cs seg sc put_ok time fl word pk d :
  seg_cache_ok cs seg sc -> word <> [] ->
  exists sc', seg_cache_ok cs seg sc' /\
    handle_reverse ix cs seg sc put_ok time fl word pk d =
    Some (nodes ← segment cs seg word pk fl []; insert_nodes ix put_ok time nodes d, sc').
Proof.
  intros Hsc Hw. unfold handle_reverse. destruct word as [|b word]; [done|].
  set (w := b :: word) in *. destruct sc as [c|]; [|by exists None].
  destruct Hsc as (s & Hh & Hs). destruct (cache_find_spec w c s Hh) as (c1 & -> & Hh1 & _).
  cbn [mbind option_bind]. pose proof (holds_nodup _ _ _ Hh) as Hnd. destruct (entry w s) as [nodes|] eqn:Ee.
  - pose proof Ee as Hin. apply entry_Some in Hin; [|done]. destruct (Hs w nodes Hin) as (pk' & fl' & ->).
    rewrite segment_cached. exists (Some c1). split; [|done]. eexists. split; [exact Hh1|].
    intros w' nodes' Hin'. apply (Hs w' nodes'). unfold lru_find in Hin'. rewrite Ee in Hin'.
    apply elem_of_app in Hin' as [Hin'|[= -> ->]%list_elem_of_singleton]; [|done].
    by apply list_elem_of_filter in Hin' as [].
  - destruct (cache_add_spec w (default [] (segment cs seg w pk fl [])) c1 _ Hh1) as (c2 & -> & Hh2 & _).
    cbn [mbind option_bind]. exists (Some c2). split; [|done]. eexists. split; [exact Hh2|].
    intros w' nodes' Hin'. unfold lru_add, lru_find in Hin'. rewrite Ee in Hin'.
    apply elem_of_app in Hin' as [Hin'|[= -> ->]%list_elem_of_singleton]; [|by exists pk, fl].
    destruct (make_room_suffix (len_threshold c1) (without w s)) as [dropped Hd].
    assert (Hin2 : (w', nodes') ∈ without w s) by (rewrite Hd; apply elem_of_app; by right).
    apply list_elem_of_filter in Hin2 as []. by apply Hs.
Qed.

(** The terms a document is found by. *)
Definition doc_terms (cs : Charset) (seg : SegmentType) (word : bytes) : list bytes :=
  match word with [] => [] | _ => default [] (terms_of <$> segment_terms cs seg word) end.

(** The clock has not gone back since the document was last written. *)
Definition clock_ok (time : bytes -> Z) (ts : list bytes) (pk : bytes) d : Prop :=
  Forall (fun t => is_i 64 (time t) /\ forall time' v, is_i 64 time' ->
    db_get d (first_key ix t pk time') = Some v -> time' <= time t) ts.

Lemma nodes_lookup m pk fl ts t :
  (list_to_map (term_node m pk fl <$> ts) : gmap bytes ReverseNode) !! t =
  if decide (t ∈ ts) then Some (mk_node pk fl (default 0 (m !! t))) else None.
Proof.
  induction ts as [|u ts IH]; [done|]. rewrite fmap_cons. cbn [list_to_map foldr term_node fst snd].
  rewrite lookup_insert. destruct (decide (u = t)) as [->|E].
  - by rewrite decide_True by left.
  - rewrite IH. destruct (decide (t ∈ ts)) as [Hin|Hin].
    + by rewrite decide_True by by right.
    + rewrite decide_False; [done|]. rewrite elem_of_cons. by intros [->|].
Qed.

Lemma insert_nodes_total put_ok time nodes d :
  (forall t, put_ok t = true) -> (forall n, is_Some (node_serialize n)) ->
  is_Some (insert_nodes ix put_ok time nodes d).
Proof.
  intros Hput Hser. revert d. induction nodes as [|[t n] nodes IH]; intros d; [by eexists|].
  cbn [insert_nodes]. unfold insert_one_reverse_node. destruct (Hser n) as [v ->].
  cbn [mbind option_bind]. rewrite Hput. apply IH.
Qed.

(** What the terms of a document select after it was added or deleted. *)
Definition doc_effect (r : KeyRange) (ts : list bytes) (fl : ReverseNodeType) (pk : bytes) d d' : Prop :=
  forall t,
    if decide (t ∈ ts) then
      match fl with
      | REVERSE_NODE_NORMAL => exists n, key n = pk /\ postings ix r t d' = <[pk := n]> (postings ix r t d)
      | _ => postings ix r t d' = delete pk (postings ix r t d)
      end
    else postings ix r t d' = postings ix r t d.

Lemma handle_reverse_spec r cs seg sc put_ok time fl word pk d :
  index_ok ix pk_ok d -> seg_cache_ok cs seg sc -> Forall no_nul (doc_terms cs seg word) ->
  pk_ok pk -> in_key_range r pk -> clock_ok time (doc_terms cs seg word) pk d ->
  exists res sc', handle_reverse ix cs seg sc put_ok time fl word pk d = Some (res, sc') /\
    seg_cache_ok cs seg sc' /\
    (forall d', res = Some d' -> index_ok ix pk_ok d' /\ doc_effect r (doc_terms cs seg word) fl pk d d' /\
       (forall ri : ReverseIndex L, index_ready ix r ri d -> index_ready ix r ri d') /\
       forall level t, level = 2 \/ level = 3 -> level_list ix level t d' = level_list ix level t d) /\
    ((word = [] \/ is_Some (segment_terms cs seg word)) -> (forall t, put_ok t = true) ->
     (forall n, is_Some (node_serialize n)) -> is_Some res).
Proof.
  intros Hok Hsc Hnul Hpk Hr Hclock. destruct (decide (word = [])) as [->|Hw].
  { exists (Some d), sc. split; [done|]. split; [done|]. split; [|by eexists].
    intros d' [= <-]. by split_and!. }
  destruct (handle_reverse_nodes cs seg sc put_ok time fl word pk d Hsc Hw) as (sc' & Hsc' & ->).
  eexists _, sc'. split; [done|]. split; [done|].
  assert (Ed : doc_terms cs seg word = default [] (terms_of <$> segment_terms cs seg word)) by by destruct word.
  cbn [segment]. destruct (segment_terms cs seg word) as [m|]; cbn in Ed |- *.
  2: { split; [done|]. intros [?|[? ?]]; done. }
  rewrite Ed in *. split; [|intros _; apply insert_nodes_total].
  intros d' Hins. destruct (insert_nodes_spec ix pk_ok pk_free put_ok time (term_node m pk fl <$> terms_of m) d d')
    as (Hok' & Hlists & Hnew); [done| |done|].
  { split.
    - rewrite <- list_fmap_compose, (list_fmap_ext _ id), list_fmap_id; [|done].
      apply sorted_NoDup, sort_ids_sorted.
    - apply Forall_fmap, Forall_forall. intros t Ht. unfold clock_ok in Hclock.
      rewrite Forall_forall in Hnul, Hclock. destruct (Hclock t Ht).
      split; [by apply Hnul|]. split; [done|]. by split. }
  split; [done|]. split; [|split; [intros ri; apply index_ready_ext; intros t; symmetry; auto|done]].
  intros t. specialize (Hnew t). rewrite nodes_lookup in Hnew. case_decide as Ht.
  - apply (postings_insert ix r) in Hnew; [|done]. rewrite Hnew. cbn [key].
    destruct fl; [|done]. rewrite decide_True by done. eexists. by split; [|done].
  - unfold postings. by rewrite Hnew.
Qed.

End Facts.
