(* ===== verification/ReverseTheorems.v ===== *)
(** * What a full-text index promises

    Merging keeps what every term selects and empties the first level; searches give
    the keys the text asks for; documents change the results of their own terms. *)

From stdpp Require Import gmap countable.
From S2P Require Import Prelude KeyEncoder KvStore Ordered Heap FloatArith LruCache ReverseList BoolExecutor BoolExecutorFacts BoolQuery ReverseParser ReverseIndex ReverseFirstFacts ReverseIndexFacts ReverseMergeFacts ReverseMergeFunc ReverseInsertFacts Tokenizer TokenizerFacts ReverseSearch ReverseSearchFacts.

(** ** A store with messages, for examples *)

Definition node_fields (n : ReverseNode) : bytes * bool * Z :=
  (key n, bool_decide (flag n = REVERSE_NODE_NORMAL), weight n).

Definition fields_node (f : bytes * bool * Z) : ReverseNode :=
  mk_node f.1.1 (if f.1.2 then REVERSE_NODE_NORMAL else REVERSE_NODE_DELETE) f.2.

#[export] Instance node_countable : Countable ReverseNode.
Proof. apply (inj_countable' node_fields fields_node). by intros [k [] w]. Defined.

(** Messages as the number of what they hold. *)
#[export] Instance number_codec : ReverseCodec := {|
  node_serialize n := Some [Zpos (encode n)];
  node_parse v := match v with [Zpos p] => decode p | _ => None end;
  list_serialize l := Some [Zpos (encode l)];
  list_parse v := match v with [Zpos p] => decode p | _ => None end
|}.

#[export] Instance number_codec_laws : ReverseCodecLaws.
Proof. split; intros ? ? [= <-]; apply decode_encode. Qed.

Definition all_stored : MergeStatus := mk_merge_status (fun _ => true) true true true true true true true.

Section Theorems.
Context {host : Host} {codec : ReverseCodec} {codec_laws : ReverseCodecLaws} {dict : TokenizerDict}.
Context {D : Type} {db : RocksDb D} {laws : RocksDbLaws D}.
Context {L : Type} {ll : LinkedList L} {ll_laws : LinkedListLaws L}.
Context (ix : IndexId) (pk_ok : bytes -> Prop).
Hypothesis pk_free : forall a b, pk_ok a -> pk_ok b -> a `prefix_of` b -> a = b.
Implicit Type d : D.

(** C9. The background merge never changes what a term selects in the region, whichever
    calls of the store fail on the way; it comes to an end with code 0 or -1, with the
    index in form. *)
Theorem merge_preserves_postings r (ri : ReverseIndex L) need rst mst d :
  index_ok ix pk_ok d -> index_ready ix r ri d ->
  exists ret d' ri', reverse_merge_func ri r need rst mst d = Ok (ret, d', ri') /\
    (ret = 0 \/ ret = -1) /\ index_ok ix pk_ok d' /\
    forall t, postings ix r t d' = postings ix r t d.
Proof.
  intros Hok Hready.
  destruct (merge_func_spec ix pk_ok pk_free r ri need rst mst d Hok Hready) as (ret & d' & ri' & E & Hok' & Hp & H & _).
  exists ret, d', ri'. split; [done|]. split; [|done]. destruct H as [[-> _]|[-> _]]; auto.
Qed.

(** Adding a document adds its key to what its terms select, deleting it removes the
    key, and no other term or key changes; the cache of segmented texts makes no
    difference.  It fails only when the text has no segmentation or the store fails. *)
Theorem document_indexed (r : KeyRange) (cs : Charset) (seg : SegmentType) (sc : option (Cache L bytes SegMap))
    (put_ok : bytes -> bool) (time : bytes -> Z) (fl : ReverseNodeType) (word pk : bytes) d :
  index_ok ix pk_ok d -> seg_cache_ok cs seg sc -> Forall no_nul (doc_terms cs seg word) ->
  pk_ok pk -> in_key_range r pk -> clock_ok ix time (doc_terms cs seg word) pk d ->
  exists res sc', handle_reverse ix cs seg sc put_ok time fl word pk d = Some (res, sc') /\
    seg_cache_ok cs seg sc' /\
    (forall d', res = Some d' -> index_ok ix pk_ok d' /\ doc_effect ix r (doc_terms cs seg word) fl pk d d') /\
    ((word = [] \/ is_Some (segment_terms cs seg word)) -> (forall t, put_ok t = true) ->
     (forall n, is_Some (node_serialize n)) -> is_Some res).
Proof.
  intros Hok Hsc Hnul Hpk Hr Hclock.
  destruct (handle_reverse_spec ix pk_ok pk_free r cs seg sc put_ok time fl word pk d Hok Hsc Hnul Hpk Hr Hclock)
    as (res & sc' & E & Hsc' & Hres & Htot).
  exists res, sc'. split; [done|]. split; [done|]. split; [|done]. intros d' Ed. by destruct (Hres d' Ed) as (? & ? & _).
Qed.

(** The keys of a term once a document was added or deleted. *)
Definition doc_ids (ts : list bytes) (fl : ReverseNodeType) (pk : bytes) (ids : bytes -> list bytes) (t : bytes) :
    list bytes :=
  if decide (t ∈ ts) then
    match fl with
    | REVERSE_NODE_NORMAL => pk :: ids t
    | REVERSE_NODE_DELETE => filter (fun x => x <> pk) (ids t)
    end
  else ids t.

Lemma doc_effect_ids r ts fl pk d d' t x :
  doc_effect ix r ts fl pk d d' ->
  x ∈ posting_ids ix r d' t <-> x ∈ doc_ids ts fl pk (posting_ids ix r d) t.
Proof.
  intros He. specialize (He t). unfold doc_ids. rewrite elem_of_posting_ids.
  destruct (decide (t ∈ ts)); [destruct fl|].
  - destruct He as (n & _ & ->). rewrite elem_of_cons, elem_of_posting_ids, lookup_insert_is_Some.
    destruct (decide (x = pk)); naive_solver.
  - rewrite He, list_elem_of_filter, elem_of_posting_ids, lookup_delete_is_Some. naive_solver.
  - by rewrite He, elem_of_posting_ids.
Qed.

(** ** The life of an index *)

(** A document that can be written to the region: terms without NUL, and a clock that
    has not gone back since its key was last written. *)
Definition doc_ready (r : KeyRange) (cs : Charset) (seg : SegmentType) (time : bytes -> Z) (doc : Doc) d : Prop :=
  Forall no_nul (doc_terms cs seg (doc_word doc)) /\ pk_ok (doc_pk doc) /\ in_key_range r (doc_pk doc) /\
  clock_ok ix time (doc_terms cs seg (doc_word doc)) (doc_pk doc) d.

(** The documents of a transaction, one after the other. *)
Inductive writes (r : KeyRange) (cs : Charset) (seg : SegmentType) :
    list Doc -> D -> option (Cache L bytes SegMap) -> D -> option (Cache L bytes SegMap) -> Prop :=
  | writes_nil d sc : writes r cs seg [] d sc d sc
  | writes_snoc docs doc put_ok time d sc d1 sc1 d2 sc2 :
      writes r cs seg docs d sc d1 sc1 -> doc_ready r cs seg time doc d1 ->
      handle_reverse ix cs seg sc1 put_ok time (doc_flag doc) (doc_word doc) (doc_pk doc) d1 = Some (Some d2, sc2) ->
      writes r cs seg (docs ++ [doc]) d sc d2 sc2.

(** No key of the index is in the store. *)
Definition index_empty d : Prop :=
  forall level k v, level = reverse_prefix \/ level = 2 \/ level = 3 -> db_get d k = Some v -> ~ is_level ix level k.

(** The states of an index over a region: the documents merged, those written since,
    the store, the index and its cache of segmented texts.  An index is made over an
    empty region, and made again at a restart; transactions are committed or not, and a
    commit that fails counts too; merges return 0; searches fill the cache. *)
Inductive index_run (r : KeyRange) (cs : Charset) (seg : SegmentType) :
    list Doc -> list Doc -> D -> ReverseIndex L -> option (Cache L bytes SegMap) -> Prop :=
  | run_new d length over_cache seg_cache size cached :
      index_empty d ->
      index_run r cs seg [] [] d (new_reverse_index ix length over_cache size cached) (new_seg_cache seg_cache size)
  | run_restart h p d ri sc length over_cache seg_cache size cached :
      index_run r cs seg h p d ri sc ->
      index_run r cs seg h p d (new_reverse_index ix length over_cache size cached) (new_seg_cache seg_cache size)
  | run_commit h p d ri sc docs d' sc' :
      index_run r cs seg h p d ri sc -> writes r cs seg docs d sc d' sc' -> write_count ri < 2 ^ 63 - 1 ->
      index_run r cs seg h (p ++ docs) d' (commit_count docs ri) sc'
  | run_undone h p d ri sc docs d' sc' doc put_ok time res sc'' (counted : bool) :
      index_run r cs seg h p d ri sc -> writes r cs seg docs d sc d' sc' -> doc_ready r cs seg time doc d' ->
      handle_reverse ix cs seg sc' put_ok time (doc_flag doc) (doc_word doc) (doc_pk doc) d' = Some (res, sc'') ->
      write_count ri < 2 ^ 63 - 1 ->
      index_run r cs seg h p d (if counted then commit_count (docs ++ [doc]) ri else ri) sc''
  | run_merge h p d ri sc need rst mst d' ri' :
      index_run r cs seg h p d ri sc -> reverse_merge_func ri r need rst mst d = Ok (0, d', ri') ->
      index_run r cs seg (h ++ p) [] d' ri' sc
  | run_search h p d ri sc ty mode data fuel l ri' :
      index_run r cs seg h p d ri sc -> search ty ri cs seg mode data fuel d = Some (l, ri') ->
      index_run r cs seg h p d ri' sc.

(** What the documents written so far select, without the store. *)
Definition history_ids (cs : Charset) (seg : SegmentType) (docs : list Doc) : bytes -> list bytes :=
  foldl (fun ids doc => doc_ids (doc_terms cs seg (doc_word doc)) (doc_flag doc) (doc_pk doc) ids) (fun _ => []) docs.

(** Terms that a merge reaches. *)
Definition plain_term (t : bytes) : Prop := bytes_ok t /\ head t <> Some 255.

Record run_inv (r : KeyRange) (cs : Charset) (seg : SegmentType) (h p : list Doc) d (ri : ReverseIndex L)
    (sc : option (Cache L bytes SegMap)) : Prop := {
  inv_ok : index_ok ix pk_ok d;
  inv_ready : index_ready ix r ri d;
  inv_lists : lists_bounded ix r d;
  inv_cache : cache_bounded r ri;
  inv_seg : seg_cache_ok cs seg sc;
  inv_count : 0 <= write_count ri;
  inv_pending : write_count ri = 0 -> pending_pairs ix d = [];
  inv_range : ri_key_range ri = ([], []) \/ ri_key_range ri = r;
  inv_ids t x : x ∈ posting_ids ix r d t <-> x ∈ history_ids cs seg (h ++ p) t;
  inv_merged t x : plain_term t -> x ∈ merged_ids ix d t <-> x ∈ history_ids cs seg h t
}.

Lemma doc_ids_ext ts fl pk ids ids' t x :
  (x ∈ ids t <-> x ∈ ids' t) -> x ∈ doc_ids ts fl pk ids t <-> x ∈ doc_ids ts fl pk ids' t.
Proof.
  intros E. unfold doc_ids. destruct (decide (t ∈ ts)); [|done].
  destruct fl; [by rewrite !elem_of_cons, E|by rewrite !list_elem_of_filter, E].
Qed.

Lemma new_index_inv r cs seg length over_cache seg_cache size cached d :
  index_ready ix r (new_reverse_index ix length over_cache size cached) d /\
  cache_bounded r (new_reverse_index ix length over_cache size cached) /\
  seg_cache_ok cs seg (new_seg_cache seg_cache size).
Proof.
  assert (Hh : cache_holds (new_reverse_index ix length over_cache size cached) []).
  { unfold cache_holds, new_reverse_index. destruct over_cache; apply new_cache_holds. }
  split; [|split].
  - split; [done|]. exists []. split; [done|]. intros _ k l []%elem_of_nil.
  - intros s k l Hs. rewrite (holds_unique _ _ _ Hs Hh). by intros []%elem_of_nil.
  - destruct seg_cache; [|done]. exists []. split; [apply new_cache_holds|]. by intros w ns []%elem_of_nil.
Qed.

Lemma empty_inv d :
  index_empty d -> index_ok ix pk_ok d /\ first_pairs ix d = [] /\
    forall level t, level = 2 \/ level = 3 -> level_list ix level t d = [].
Proof.
  intros He. split; [split|split].
  - intros k v Hg Hl. destruct (He reverse_prefix k v); auto.
  - intros level k v Hl Hg Hk. destruct (He level k v); auto.
  - destruct (first_pairs ix d) as [|[k v] l] eqn:E; [done|].
    assert (Hin : (k, v) ∈ first_pairs ix d) by (rewrite E; left).
    apply elem_of_first_pairs in Hin as [Hg Hl]. destruct (He reverse_prefix k v); auto.
  - intros level t Hl. unfold level_list. destruct (db_get d (term_key ix level t)) as [v|] eqn:Eg; [|done].
    destruct (He level _ v (or_intror Hl) Eg). apply take_reverse_prefix.
Qed.

(** The documents of a transaction reach the first level only. *)
Lemma writes_spec r cs seg docs d sc d' sc' :
  writes r cs seg docs d sc d' sc' -> index_ok ix pk_ok d -> seg_cache_ok cs seg sc ->
  index_ok ix pk_ok d' /\ seg_cache_ok cs seg sc' /\
  (forall ri : ReverseIndex L, index_ready ix r ri d -> index_ready ix r ri d') /\
  (forall level t, level = 2 \/ level = 3 -> level_list ix level t d' = level_list ix level t d) /\
  (forall h t x, (x ∈ posting_ids ix r d t <-> x ∈ history_ids cs seg h t) ->
     x ∈ posting_ids ix r d' t <-> x ∈ history_ids cs seg (h ++ docs) t) /\
  (existsb (fun doc => bool_decide (doc_word doc <> [])) docs = false -> d' = d).
Proof.
  intros Hw Hok Hsc. induction Hw as [d sc|docs doc put_ok time d sc d1 sc1 d2 sc2 _ IH (Hnul & Hpk & Hr & Hclock) E].
  { split_and!; try done. intros h t x. by rewrite app_nil_r. }
  destruct (IH Hok Hsc) as (Hok1 & Hsc1 & Hready1 & Hl1 & Hids1 & He1).
  destruct (handle_reverse_spec ix pk_ok pk_free r cs seg sc1 put_ok time (doc_flag doc) (doc_word doc) (doc_pk doc) d1
    Hok1 Hsc1 Hnul Hpk Hr Hclock) as (res & sc2' & E' & Hsc2 & Hres & _). rewrite E in E'. injection E' as <- <-.
  destruct (Hres d2 eq_refl) as (Hok2 & Heff & Hready2 & Hl2). split_and!; [done|done|by auto| | |].
  - intros level t Hl. by rewrite Hl2, Hl1.
  - intros h t x Hx. rewrite (doc_effect_ids r _ _ _ d1 d2 t x Heff), app_assoc. unfold history_ids. rewrite foldl_app.
    apply doc_ids_ext. by apply Hids1.
  - rewrite existsb_app. cbn [existsb]. rewrite orb_false_r. intros [Hd Hdoc]%orb_false_iff.
    apply bool_decide_eq_false, dec_stable in Hdoc. rewrite Hdoc in E. injection E as <- _. by apply He1.
Qed.

Lemma commit_ready docs r (ri : ReverseIndex L) d :
  (index_ready ix r ri d -> index_ready ix r (commit_count docs ri) d) /\
  (cache_bounded r ri -> cache_bounded r (commit_count docs ri)).
Proof. unfold commit_count. by destruct (existsb _ docs). Qed.

Lemma commit_range docs (ri : ReverseIndex L) : ri_key_range (commit_count docs ri) = ri_key_range ri.
Proof. unfold commit_count. by destruct (existsb _ docs). Qed.

Lemma commit_writes docs (ri : ReverseIndex L) :
  0 <= write_count ri < 2 ^ 63 - 1 ->
  (existsb (fun doc => bool_decide (doc_word doc <> [])) docs = false /\ commit_count docs ri = ri) \/
  0 < write_count (commit_count docs ri).
Proof.
  intros Hw. unfold commit_count. destruct (existsb _ docs); [|by left]. right. unfold add_write_count; cbn [write_count].
  rewrite swrap_id; [lia|done|]. unfold is_i. lia.
Qed.

Lemma new_inv r cs seg d length over_cache seg_cache size cached :
  index_empty d ->
  run_inv r cs seg [] [] d (new_reverse_index ix length over_cache size cached) (new_seg_cache seg_cache size).
Proof.
  intros (Hok & Hf & Hl)%empty_inv.
  destruct (new_index_inv r cs seg length over_cache seg_cache size cached d) as (Hready & Hc & Hsc).
  assert (Hb : lists_bounded ix r d) by (intros level t Hlevel; rewrite Hl by done; constructor).
  assert (Em : forall t, merged_ids ix d t = []).
  { intros t. unfold merged_ids. by rewrite !Hl by auto. }
  split; try done; [by left| |].
  - intros t x. rewrite <- (merged_ids_all ix pk_ok r d t x), Em; [done|done|done|]. unfold term_pairs. by rewrite Hf.
  - intros t x _. by rewrite Em.
Qed.

Lemma commit_inv r cs seg h p d ri sc docs d' sc' :
  run_inv r cs seg h p d ri sc -> writes r cs seg docs d sc d' sc' -> write_count ri < 2 ^ 63 - 1 ->
  run_inv r cs seg h (p ++ docs) d' (commit_count docs ri) sc'.
Proof.
  intros [Hok Hready Hb Hc Hsc Hn Hpend Hr Hids Hm] Hw Hlt.
  destruct (writes_spec r cs seg docs d sc d' sc' Hw Hok Hsc) as (Hok' & Hsc' & Hready' & Hl & Hids' & He).
  destruct (commit_ready docs r ri d') as [Hready2 Hc2].
  destruct (commit_writes docs ri) as [[Ed Ec]|Hpos]; [lia| |]; (split; try done);
    try (by rewrite commit_range); try (by apply Hready2, Hready'); try (by apply Hc2); try lia;
    try (intros level t Hlevel; rewrite Hl by done; by apply Hb);
    try (intros t x; rewrite app_assoc; by apply Hids');
    try (intros t x Ht; unfold merged_ids; rewrite !Hl by auto; by apply Hm).
  - by rewrite Ec.
  - rewrite Ec, (He Ed). done.
Qed.

Lemma undone_inv r cs seg h p d ri sc docs d' sc' doc put_ok time res sc'' (counted : bool) :
  run_inv r cs seg h p d ri sc -> writes r cs seg docs d sc d' sc' -> doc_ready r cs seg time doc d' ->
  handle_reverse ix cs seg sc' put_ok time (doc_flag doc) (doc_word doc) (doc_pk doc) d' = Some (res, sc'') ->
  write_count ri < 2 ^ 63 - 1 ->
  run_inv r cs seg h p d (if counted then commit_count (docs ++ [doc]) ri else ri) sc''.
Proof.
  intros [Hok Hready Hb Hc Hsc Hn Hpend Hr Hids Hm] Hw (Hnul & Hpk & Hin & Hclock) E Hlt.
  destruct (writes_spec r cs seg docs d sc d' sc' Hw Hok Hsc) as (Hok' & Hsc' & _).
  destruct (handle_reverse_spec ix pk_ok pk_free r cs seg sc' put_ok time (doc_flag doc) (doc_word doc) (doc_pk doc) d'
    Hok' Hsc' Hnul Hpk Hin Hclock) as (res' & sc2 & E' & Hsc2 & _). rewrite E in E'. injection E' as <- <-.
  destruct counted; [|by split]. destruct (commit_ready (docs ++ [doc]) r ri d) as [Hready2 Hc2].
  destruct (commit_writes (docs ++ [doc]) ri) as [[_ Ec]|Hpos]; [lia|by rewrite Ec; split|].
  split; try done; [by apply Hready2|by apply Hc2|lia|lia|by rewrite commit_range].
Qed.

Lemma merge_inv r cs seg h p d ri sc need rst mst d' ri' :
  run_inv r cs seg h p d ri sc -> reverse_merge_func ri r need rst mst d = Ok (0, d', ri') ->
  run_inv r cs seg (h ++ p) [] d' ri' sc /\ pending_pairs ix d' = [].
Proof.
  intros [Hok Hready Hb Hc Hsc Hn Hpend Hr Hids Hm] Em.
  destruct (merge_func_spec ix pk_ok pk_free r ri need rst mst d Hok Hready)
    as (ret & d1 & ri1 & E & Hok' & Hp & H & Hframe & Hfirst & Hn' & Hr'). rewrite Em in E. injection E as <- <- <-.
  destruct H as [(_ & Hpend' & Hready')|[? _]]; [|done]. destruct (Hframe Hb Hc) as [Hb' Hc'].
  assert (Hnone : pending_pairs ix d' = []).
  { destruct (decide (write_count ri = 0)) as [E0|]; [|apply Hpend'; lia].
    unfold pending_pairs. rewrite Hfirst by lia. by apply Hpend. }
  assert (Hids' : forall t x, x ∈ posting_ids ix r d' t <-> x ∈ history_ids cs seg (h ++ p) t).
  { intros t x. unfold posting_ids. rewrite Hp. apply Hids. }
  split; [|done]. split; try done; [by apply Hn'|by right|by rewrite app_nil_r|].
  intros t x [Ht Hhead]. rewrite (merged_ids_all ix pk_ok r); [done|done|done|]. by apply (pending_none ix pk_ok).
Qed.

Lemma search_inv r cs seg h p d ri sc ty mode data fuel l ri' :
  run_inv r cs seg h p d ri sc -> search ty ri cs seg mode data fuel d = Some (l, ri') ->
  run_inv r cs seg h p d ri' sc.
Proof.
  intros [Hok Hready Hb Hc Hsc Hn Hpend Hr Hids Hm] E. unfold search in E.
  destruct (create_query cs seg mode data) as [q|]; [|done]. cbn [mbind option_bind] in E.
  destruct (read_terms_spec ix pk_ok r (query_terms cs seg mode data) ∅ ri d Hok Hready Hb Hc)
    as (ls & ri1 & Er & (Hready' & Hc' & Ew & Ek) & _); [intros t v; by rewrite lookup_empty|]. rewrite Er in E.
  destruct (search_keys ty _ _ fuel q); [|done]. injection E as _ <-.
  split; try done; [by rewrite Ew|by rewrite Ew|by rewrite Ek].
Qed.

(** Every state of an index keeps the invariant. *)
Lemma index_run_inv r cs seg h p d ri sc :
  index_run r cs seg h p d ri sc -> run_inv r cs seg h p d ri sc.
Proof.
  induction 1 as [| h p d ri sc length over_cache seg_cache size cached _ [] | | | |];
    [by apply new_inv| |by eapply commit_inv|by eapply undone_inv|by eapply merge_inv|by eapply search_inv].
  destruct (new_index_inv r cs seg length over_cache seg_cache size cached d) as (Hready & Hc & Hsc).
  split; try done. by left.
Qed.

(** A search in a state of an index. *)
Lemma run_search_spec r cs seg h p d ri sc ty mode data q :
  run_inv r cs seg h p d ri sc -> create_query cs seg mode data = Some q ->
  Forall plain_term (query_terms cs seg mode data) -> Forall (short_lists ix d) (query_terms cs seg mode data) ->
  exists enough l ri', (forall fuel, (enough <= fuel)%nat -> search ty ri cs seg mode data fuel d = Some (l, ri')) /\
    sorted l /\ forall x, x ∈ l <-> asks_for (history_ids cs seg h) cs seg mode data x.
Proof.
  intros [Hok Hready Hb Hc _ _ _ Hr _ Hm] Eq Hplain Hshort.
  destruct (search_spec ix pk_ok r ty ri cs seg mode data q d Hok Hready Hb Hc) as (enough & l & ri' & E & Hs & Hl); [|done|done|].
  { destruct Hr as [->| ->]; [|done]. intros level t _. by apply Forall_forall. }
  exists enough, l, ri'. split; [done|]. split; [done|]. intros x. rewrite Hl.
  apply (asks_for_terms _ _ _ _ _ _ q); [done|]. intros t Ht. apply Hm. by eapply Forall_forall in Hplain.
Qed.

(** A merge whose calls of the store succeed. *)
Lemma run_merge_total r cs seg h p d ri sc need rst mst :
  run_inv r cs seg h p d ri sc -> (forall i, good_status (mst i)) -> serialize_total ->
  exists d' ri', reverse_merge_func ri r need rst mst d = Ok (0, d', ri').
Proof.
  intros Hinv Hst Hser.
  destruct (merge_func_spec ix pk_ok pk_free r ri need rst mst d (inv_ok _ _ _ _ _ _ _ _ Hinv) (inv_ready _ _ _ _ _ _ _ _ Hinv))
    as (ret & d' & ri' & E & _ & _ & [(-> & _)|[_ Hn]] & _); [by exists d', ri'|by destruct Hn].
Qed.



(** C4. From the document to the search: in every state of an index, a document with a
    segmentation is written when the calls of the store succeed, the merge after its
    commit returns 0, and a search then gives the keys the text asks for by the earlier
    documents, with the key of this one added to the results of its terms, or taken out
    of them when it is deleted. *)
Theorem document_found r cs seg h p d (ri : ReverseIndex L) sc doc put_ok time need rst mst ty mode data q :
  index_run r cs seg h p d ri sc -> doc_ready r cs seg time doc d ->
  (doc_word doc = [] \/ is_Some (segment_terms cs seg (doc_word doc))) ->
  (forall t, put_ok t = true) -> (forall n, is_Some (node_serialize n)) -> write_count ri < 2 ^ 63 - 1 ->
  (forall i, good_status (mst i)) -> serialize_total ->
  create_query cs seg mode data = Some q -> Forall plain_term (query_terms cs seg mode data) ->
  exists d1 sc1 d2 ri2,
    handle_reverse ix cs seg sc put_ok time (doc_flag doc) (doc_word doc) (doc_pk doc) d = Some (Some d1, sc1) /\
    reverse_merge_func (commit_count [doc] ri) r need rst mst d1 = Ok (0, d2, ri2) /\
    index_run r cs seg (h ++ p ++ [doc]) [] d2 ri2 sc1 /\
    (Forall (short_lists ix d2) (query_terms cs seg mode data) ->
     exists enough l ri', (forall fuel, (enough <= fuel)%nat -> search ty ri2 cs seg mode data fuel d2 = Some (l, ri')) /\
       sorted l /\
       forall x, x ∈ l <->
         asks_for (doc_ids (doc_terms cs seg (doc_word doc)) (doc_flag doc) (doc_pk doc) (history_ids cs seg (h ++ p)))
           cs seg mode data x).
Proof.
  intros Hrun Hdoc Hseg Hput Hnode Hlt Hst Hser Eq Hplain. pose proof (index_run_inv _ _ _ _ _ _ _ _ Hrun) as Hinv.
  pose proof Hdoc as (Hnul & Hpk & Hr & Hclock).
  destruct (handle_reverse_spec ix pk_ok pk_free r cs seg sc put_ok time (doc_flag doc) (doc_word doc) (doc_pk doc) d
    (inv_ok _ _ _ _ _ _ _ _ Hinv) (inv_seg _ _ _ _ _ _ _ _ Hinv) Hnul Hpk Hr Hclock) as (res & sc1 & E & _ & _ & Htot).
  destruct (Htot Hseg Hput Hnode) as [d1 ->].
  assert (Hrun1 : index_run r cs seg h (p ++ [doc]) d1 (commit_count [doc] ri) sc1).
  { eapply run_commit; [exact Hrun| |done]. apply (writes_snoc r cs seg [] doc put_ok time d sc d sc d1 sc1); [constructor|done|done]. }
  pose proof (index_run_inv _ _ _ _ _ _ _ _ Hrun1) as Hinv1.
  destruct (run_merge_total _ _ _ _ _ _ _ _ need rst mst Hinv1 Hst Hser) as (d2 & ri2 & Em).
  pose proof (run_merge _ _ _ _ _ _ _ _ _ _ _ _ _ Hrun1 Em) as Hrun2.
  exists d1, sc1, d2, ri2. split; [done|]. split; [done|]. split; [done|]. intros Hshort.
  destruct (run_search_spec _ _ _ _ _ _ _ _ ty mode data q (index_run_inv _ _ _ _ _ _ _ _ Hrun2) Eq Hplain Hshort)
    as (enough & l & ri' & Es & Hs & Hl).
  exists enough, l, ri'. split; [done|]. split; [done|]. intros x. rewrite Hl, app_assoc.
  unfold history_ids at 1. by rewrite foldl_app.
Qed.

(** ** Reading the first level without a transaction *)

(** A seek to a term with nodes in the first level stops at one of them. *)
Lemma seek_term d t :
  index_ok ix pk_ok d -> (forall k v, db_get d k = Some v -> bytes_ok k) -> no_nul t ->
  term_pairs ix t d <> [] ->
  exists k v rest, db_scan d DATA_PREFIX (term_key ix reverse_prefix t) = (k, v) :: rest /\
    get_level_from_reverse_key k = Some reverse_prefix /\ get_term_from_reverse_key k = Some t.
Proof.
  intros Hok Hb Hnul Hne. destruct (term_pairs ix t d) as [|[k0 v0] ps] eqn:E; [done|].
  assert (Hin : (k0, v0) ∈ term_pairs ix t d) by (rewrite E; left).
  apply elem_of_term_pairs in Hin as (Hg0 & Hl0 & Ht0).
  destruct (term_of_pair ix pk_ok d k0 v0 t Hok Hg0 Hl0 Ht0) as (n & time & _ & _ & Ek0 & _).
  unfold first_key in Ek0. rewrite app_assoc in Ek0. fold (term_key ix reverse_prefix t) in Ek0.
  set (s := term_key ix reverse_prefix t) in *.
  assert (Hs0 : (k0, v0) ∈ db_scan d DATA_PREFIX s).
  { apply elem_of_scan. split; [done|]. rewrite Ek0. split.
    2: { rewrite <- (app_nil_r s) at 1. by rewrite lex_compare_app_l. }
    unfold s, term_key. rewrite <- app_assoc, !take_app_le by (rewrite length_reverse_prefix; unfold DATA_PREFIX; lia).
    done. }
  pose proof (scan_sorted d DATA_PREFIX s) as Hsort.
  destruct (db_scan d DATA_PREFIX s) as [|[k v] rest] eqn:Es; [by apply elem_of_nil in Hs0|].
  assert (Hk : (k, v) ∈ db_scan d DATA_PREFIX s) by (rewrite Es; left).
  apply elem_of_scan in Hk as (Hg & _ & Hge).
  assert (Hle : lex_compare k k0 <> Gt).
  { inversion_clear Hsort as [|? ? _ Hall]. apply elem_of_cons in Hs0 as [[= <- <-]|Hs0].
    - by rewrite lex_compare_refl.
    - rewrite Forall_forall in Hall. specialize (Hall _ Hs0). unfold key_lt in Hall. simpl in Hall. by rewrite Hall. }
  rewrite Ek0 in Hle. destruct (between_prefix s [] ([0] ++ key n ++ [0] ++ mem_store 8 (to_endian_u64 (encode_i64 time))) k)
    as [c ->]; [by rewrite app_nil_r|done|].
  rewrite lex_compare_app_l in Hle.
  exists (s ++ c), v, rest. split; [done|]. unfold s, term_key in *. rewrite <- app_assoc in *.
  split; [by apply level_of_prefix|]. unfold get_term_from_reverse_key. rewrite drop_reverse_prefix.
  destruct c as [|y c].
  - destruct (ok_first ix pk_ok d Hok _ _ Hg) as (t' & m & time' & _ & _ & Ek & _); [apply take_reverse_prefix|].
    unfold first_key in Ek. apply app_inv_head in Ek. rewrite app_nil_r in Ek. exfalso.
    rewrite Ek in Hnul. apply Forall_app in Hnul as [_ Hnul]. by inversion Hnul.
  - assert (Hy : y = 0).
    { specialize (Hb _ _ Hg). apply Forall_app in Hb as [_ Hb]. apply Forall_app in Hb as [_ Hb].
      inversion_clear Hb as [|? ? Hy _]. simpl in Hle. unfold is_u in Hy.
      destruct (Z.compare_spec y 0); [done|lia|done]. }
    subst y. by apply c_str_app.
Qed.

(** A read that is to see the first level dereferences the null transaction of its
    iterator as soon as the term has a node there. *)
Theorem slow_read_null_transaction (ri : ReverseIndex L) get_ok t d :
  index_ok (ri_id ri) pk_ok d -> (forall k v, db_get d k = Some v -> bytes_ok k) -> no_nul t ->
  ri_id ri = ix -> term_pairs ix t d <> [] ->
  get_reverse_list_two ri get_ok false t d = Undefined.
Proof.
  intros Hok Hb Hnul Hid Hne. unfold get_reverse_list_two. rewrite Hid in *.
  destruct (seek_term d t Hok Hb Hnul Hne) as (k & v & rest & Es & Hl & Ht). rewrite Es.
  assert (Hr : exists second, or_empty (read_level ix (get_ok 2) 2 t d) = Ok second).
  { unfold read_level. repeat case_match; by eexists. }
  destruct Hr as [second ->]. cbn [mbind res_bind]. unfold level_merge. cbn. by rewrite Hl; cbn; rewrite Ht; cbn;
    rewrite bool_decide_true.
Qed.

End Theorems.

(** * Full-text indexes at work

    Runs on a small store: the theorems at concrete inputs, and two courses of
    events in which a read goes wrong. *)

#[local] Instance le_machine : Host := false.
#[local] Instance dict : TokenizerDict := plain_dict.

Definition ix0 : IndexId := mk_index_id 1 2.
Definition whole : KeyRange := ([], []).
Definition one_byte (pk : bytes) : Prop := length pk = 1%nat.

Lemma one_byte_free a b : one_byte a -> one_byte b -> a `prefix_of` b -> a = b.
Proof.
  unfold one_byte. intros Ha Hb [c ->]. rewrite length_app in Hb.
  destruct c; [by rewrite app_nil_r|simpl in Hb; lia].
Qed.

(** A new index that merges into the third level at once and caches every list. *)
Definition index0 : ReverseIndex (list NodePtr) :=
  new_reverse_index ix0 1 true 10 1.

(** A document added at a time. *)
Definition add_doc (time : Z) (word pk : bytes) (d : Store) : Store :=
  default d (r ← handle_reverse (L := list NodePtr) ix0 UTF8 S_UNIGRAMS None (fun _ => true) (fun _ => time)
               REVERSE_NODE_NORMAL word pk d; r.1).

Definition merge (mst : nat -> MergeStatus) (ri : ReverseIndex (list NodePtr)) (d : Store) :
    Z * Store * ReverseIndex (list NodePtr) :=
  match reverse_merge_func (add_write_count ri) whole false (fun _ _ => mk_remove_status true true) mst d with
  | Ok out => out
  | _ => (-2, d, ri)
  end.

Definition read (ri : ReverseIndex (list NodePtr)) (t : bytes) (d : Store) :
    list ReverseNode * list ReverseNode * ReverseIndex (list NodePtr) :=
  match get_reverse_list_two ri (fun _ => true) true t d with
  | Ok out => out
  | _ => ([], [], ri)
  end.

(** The last term of a merge cannot be locked. *)
Definition second_fails (i : nat) : MergeStatus :=
  match i with
  | 2%nat => all_stored
  | _ => mk_merge_status (fun _ => false) true true true true true true true
  end.

Definition search_term (ri : ReverseIndex (list NodePtr)) (t : bytes) (d : Store) : option (list bytes) :=
  search_keys NODE_COPY whole (fun t => (read ri t d).1) 10 (Some (mk_exec_node TERM merge_and t [])).

Definition stale_run : Z * Z * option (list bytes) * list bytes :=
  let d := add_doc 1 [97] [1] ∅ in
  let '(_, d, ri) := merge (fun _ => all_stored) index0 d in
  let '(_, _, ri) := read ri [97] d in
  let d := add_doc 2 [97; 98] [2] d in
  let '(ret1, d, ri) := merge second_fails ri d in
  let '(ret2, d, ri) := merge (fun _ => all_stored) ri d in
  (ret1, ret2, search_term ri [97] d, posting_ids ix0 whole d [97]).

(** A merge that fails after it has rewritten the third level of a term leaves the old
    list in the cache, and the next merge forgets that it has to be dropped: the
    documents added meanwhile are in the index and no search finds them, though that
    merge returns 0. *)
Theorem failed_merge_hides_documents :
  stale_run = (-1, 0, Some [[1]], [[1]; [2]]).
Proof. vm_compute. reflexivity. Qed.

(** ** The theorems at a small index *)

(** The index with one document, "a". *)
Definition one_doc : Store := add_doc 1 [97] [1] ∅.

Lemma empty_ok : index_ok ix0 one_byte (∅ : Store).
Proof. split; intros; simpl in *; by rewrite lookup_empty in *. Qed.

Lemma index0_ready d : index_ready ix0 whole index0 (d : Store).
Proof.
  split; [done|]. exists []. split; [apply new_cache_holds|]. intros _ k l Hin. by apply elem_of_nil in Hin.
Qed.

Lemma doc_clock : clock_ok ix0 (fun _ => 1) (doc_terms UTF8 S_UNIGRAMS [97]) [1] (∅ : Store).
Proof.
  apply Forall_forall. intros t _. split; [unfold is_i; lia|]. intros time' v _ Hg. simpl in Hg.
  by rewrite lookup_empty in Hg.
Qed.

Lemma doc_terms_a : doc_terms UTF8 S_UNIGRAMS [97] = [[97]].
Proof. vm_compute. reflexivity. Qed.

Lemma a_no_nul : Forall no_nul (doc_terms UTF8 S_UNIGRAMS [97]).
Proof. rewrite doc_terms_a. repeat constructor; done. Qed.

Lemma one_doc_ok : index_ok ix0 one_byte one_doc.
Proof.
  destruct (handle_reverse_spec ix0 one_byte one_byte_free whole UTF8 S_UNIGRAMS (None : option (Cache (list NodePtr) bytes SegMap))
    (fun _ => true) (fun _ => 1) REVERSE_NODE_NORMAL [97] [1] (∅ : Store) empty_ok I a_no_nul eq_refl
    ltac:(split; done) doc_clock) as (res & sc' & E & _ & Hres & Htot).
  destruct Htot as [d' Ed]; [right; by eexists|done|by eexists|].
  unfold one_doc, add_doc. rewrite E. cbn [mbind option_bind fst]. rewrite Ed. exact (proj1 (Hres d' Ed)).
Qed.

Lemma merge_preserves_postings_example :
  exists ret d' ri', reverse_merge_func index0 whole true (fun _ _ => mk_remove_status true true)
    (fun _ => all_stored) one_doc = Ok (ret, d', ri') /\
    forall t, postings ix0 whole t d' = postings ix0 whole t one_doc.
Proof.
  destruct (merge_preserves_postings ix0 one_byte one_byte_free whole index0 true
    (fun _ _ => mk_remove_status true true) (fun _ => all_stored) one_doc one_doc_ok (index0_ready _))
    as (ret & d' & ri' & E & _ & _ & Hp).
  exists ret, d', ri'. exact (conj E Hp).
Defined.

Lemma document_indexed_example :
  exists d', postings ix0 whole [97] d' !! [1] <> None /\
    add_doc 1 [97] [1] ∅ = d'.
Proof.
  destruct (document_indexed ix0 one_byte one_byte_free whole UTF8 S_UNIGRAMS (None : option (Cache (list NodePtr) bytes SegMap))
    (fun _ => true) (fun _ => 1) REVERSE_NODE_NORMAL [97] [1] (∅ : Store) empty_ok I a_no_nul eq_refl
    ltac:(split; done) doc_clock) as (res & sc' & E & _ & Hres & Htot).
  destruct Htot as [d' Ed]; [right; by eexists|done|by eexists|].
  exists d'. split.
  - destruct (Hres d' Ed) as [_ Heff]. specialize (Heff [97]). rewrite doc_terms_a in Heff.
    rewrite decide_True in Heff by left. destruct Heff as (n & _ & ->). by rewrite lookup_insert_eq.
  - unfold add_doc. rewrite E. cbn [mbind option_bind fst]. by rewrite Ed.
Defined.

Lemma slow_read_example :
  get_reverse_list_two index0 (fun _ => true) false [97] one_doc = Undefined.
Proof.
  apply (slow_read_null_transaction ix0 one_byte index0 (fun _ => true) [97] one_doc).
  - exact one_doc_ok.
  - apply (proj2 (map_Forall_to_list (fun k _ => bytes_ok k) one_doc)).
    vm_compute. repeat constructor; done.
  - repeat constructor; done.
  - done.
  - vm_compute. done.
Defined.

(** ** A document, a merge and a search *)

Definition doc_a : Doc := mk_doc REVERSE_NODE_NORMAL [97] [1].

Definition merged : Z * Store * ReverseIndex (list NodePtr) := merge (fun _ => all_stored) index0 one_doc.

(** The index before the document, after its commit, and after the merge. *)
Lemma run_a0 : index_run ix0 one_byte whole UTF8 S_UNIGRAMS [] [] (∅ : Store) index0 None.
Proof.
  apply (run_new ix0 one_byte whole UTF8 S_UNIGRAMS (∅ : Store) 1 true false 10 1).
  intros level k v _ Hg. simpl in Hg. by rewrite lookup_empty in Hg.
Qed.

Lemma doc_a_ready : doc_ready ix0 one_byte whole UTF8 S_UNIGRAMS (fun _ => 1) doc_a (∅ : Store).
Proof. split; [apply a_no_nul|]. split; [done|]. split; [by split|apply doc_clock]. Qed.

Lemma one_doc_handled :
  handle_reverse (L := list NodePtr) ix0 UTF8 S_UNIGRAMS None (fun _ => true) (fun _ => 1) REVERSE_NODE_NORMAL [97] [1] ∅
    = Some (Some one_doc, None).
Proof. vm_compute. reflexivity. Qed.


Lemma merged_a :
  reverse_merge_func (commit_count [doc_a] index0) whole false (fun _ _ => mk_remove_status true true)
    (fun _ => all_stored) one_doc = Ok (0, merged.1.2, merged.2).
Proof. vm_compute. reflexivity. Qed.


Lemma query_a : query_terms UTF8 S_UNIGRAMS M_NARUTAL_LANGUAGE [97] = [[97]].
Proof. vm_compute. reflexivity. Qed.

Lemma plain_a : Forall plain_term (query_terms UTF8 S_UNIGRAMS M_NARUTAL_LANGUAGE [97]).
Proof. rewrite query_a. apply Forall_singleton. split; [by repeat constructor|done]. Qed.

Lemma short_a : Forall (short_lists ix0 merged.1.2) (query_terms UTF8 S_UNIGRAMS M_NARUTAL_LANGUAGE [97]).
Proof. rewrite query_a. apply Forall_singleton. split; vm_compute; reflexivity. Qed.

Lemma same_store {A B} (a c : A) (b e : B) : Some (Some a, b) = Some (Some c, e) -> a = c.
Proof. by intros [= -> _]. Qed.

Lemma same_merge {A B} (a c : A) (b e : B) : Ok (0, a, b) = Ok (0, c, e) -> a = c.
Proof. by intros [= -> _]. Qed.

Lemma short_after (d1 : Store) (sc1 : option (Cache (list NodePtr) bytes SegMap)) (d2 : Store) (ri2 : ReverseIndex (list NodePtr)) :
  handle_reverse ix0 UTF8 S_UNIGRAMS None (fun _ => true) (fun _ => 1) REVERSE_NODE_NORMAL [97] [1] (∅ : Store)
    = Some (Some d1, sc1) ->
  reverse_merge_func (commit_count [doc_a] index0) whole false (fun _ _ => mk_remove_status true true)
    (fun _ => all_stored) d1 = Ok (0, d2, ri2) ->
  Forall (short_lists ix0 d2) (query_terms UTF8 S_UNIGRAMS M_NARUTAL_LANGUAGE [97]).
Proof.
  intros Eh Em. pose proof (same_store _ _ _ _ (eq_trans (eq_sym one_doc_handled) Eh)) as E1. subst d1.
  pose proof (same_merge _ _ _ _ (eq_trans (eq_sym merged_a) Em)) as E2. subst d2. exact short_a.
Qed.

Lemma create_query_a :
  create_query UTF8 S_UNIGRAMS M_NARUTAL_LANGUAGE [97] = Some (Some (mk_exec_node TERM merge_or [97] [])).
Proof.
  assert (Es : terms_of <$> segment_terms UTF8 S_UNIGRAMS [97] = Some [[97]]) by (vm_compute; reflexivity).
  unfold create_query, or_items. cbn [mbind option_bind].
  destruct (segment_terms UTF8 S_UNIGRAMS [97]) as [m|]; [|done]. injection Es as Es.
  cbn [mbind option_bind]. by rewrite Es.
Qed.

(** A text of one term asks for the keys of the term. *)
Lemma asks_for_a ids x : asks_for ids UTF8 S_UNIGRAMS M_NARUTAL_LANGUAGE [97] x <-> x ∈ ids [97].
Proof.
  split.
  - intros (items & item & m & [= <-] & ->%list_elem_of_singleton & Em & t & Ht & Hx).
    vm_compute in Em. injection Em as <-. vm_compute in Ht. by apply list_elem_of_singleton in Ht as ->.
  - intros Hx. exists [[97]], [97], {[ [97] := f32_of_Z 1 ]}.
    split; [done|]. split; [left|]. split; [vm_compute; reflexivity|]. exists [97]. split; [vm_compute; left|done].
Qed.



Lemma document_found_example :
  exists d1 sc1 d2 ri2 enough l ri',
    handle_reverse ix0 UTF8 S_UNIGRAMS None (fun _ => true) (fun _ => 1) REVERSE_NODE_NORMAL [97] [1] (∅ : Store)
      = Some (Some d1, sc1) /\
    reverse_merge_func (commit_count [doc_a] index0) whole false (fun _ _ => mk_remove_status true true)
      (fun _ => all_stored) d1 = Ok (0, d2, ri2) /\
    (forall fuel, (enough <= fuel)%nat ->
      search NODE_COPY ri2 UTF8 S_UNIGRAMS M_NARUTAL_LANGUAGE [97] fuel d2 = Some (l, ri')) /\ [1] ∈ l.
Proof.
  destruct (document_found ix0 one_byte one_byte_free whole UTF8 S_UNIGRAMS [] [] (∅ : Store) index0 None doc_a
    (fun _ => true) (fun _ => 1) false (fun _ _ => mk_remove_status true true) (fun _ => all_stored) NODE_COPY
    M_NARUTAL_LANGUAGE [97] (Some (mk_exec_node TERM merge_or [97] [])) run_a0 doc_a_ready) as (d1 & sc1 & d2 & ri2 & Eh & Em & _ & Hs).
  - right. by eexists.
  - done.
  - by eexists.
  - done.
  - intros i. by repeat split.
  - by eexists.
  - exact create_query_a.
  - exact plain_a.
  - destruct Hs as (enough & l & ri' & E & _ & Hl).
    + exact (short_after d1 sc1 d2 ri2 Eh Em).
    + exists d1, sc1, d2, ri2, enough, l, ri'. split; [exact Eh|]. split; [exact Em|]. split; [exact E|].
      apply Hl, asks_for_a. vm_compute. left.
Defined.
