(* ===== verification/StringFn.v ===== *)
(** * String functions of SQL ([src/expr/internal_functions.cpp])

    The functions on texts, as they work on a vector of values.  [None] marks
    what the language leaves undefined, as in the values themselves. *)

From stdpp Require Import list.
From S2P Require Import Prelude Stdio FloatArith FloatText Calendar DateTime ExprValue.

(** ** [std::string] *)

(** [s.find(needle, from)]; [npos] is [None]. *)
Definition str_find (s needle : bytes) (from : nat) : option nat :=
  if (from <=? length s)%nat then
    (fun p => (from + p.1)%nat) <$>
      list_find (fun i => take (length needle) (drop (from + i) s) = needle) (seq 0 (S (length s - from)))
  else None.

(** [s.substr(pos, n)], which throws behind the end. *)
Definition str_substr (s : bytes) (pos : Z) (n : Z) : option bytes :=
  if (0 <=? pos) && (pos <=? Z.of_nat (length s)) then Some (take (Z.to_nat n) (drop (Z.to_nat pos) s))
  else None.

Definition str_tail (s : bytes) (pos : Z) : option bytes := str_substr s pos (Z.of_nat (length s)).

Definition toupper (c : Z) : Z := if (97 <=? c) && (c <=? 122) then c - 32 else c.

Section Fn.
Context {host : Host} {rlib : RoaringLib} {zone : Zone}.

(** The result of [time(NULL)] during the call, which casts of TIME values use. *)
Context (now : Z).
Implicit Type input : list ExprValue.

(** ** Values *)

(** [ExprValue::Null()], and values of a type with a member set. *)
Definition Null : ExprValue := new_ExprValue NULL_TYPE.
Definition string_value (s : bytes) : ExprValue := set_str s (new_ExprValue STRING).
Definition int32_value (x : Z) : ExprValue := u_write 4 x (new_ExprValue INT32).
Definition int64_value (x : Z) : ExprValue := u_write 8 x (new_ExprValue INT64).
Definition uint32_value (x : Z) : ExprValue := u_write 4 x (new_ExprValue UINT32).

Definition has_null input : bool := existsb is_null input.

(** [get_numberic<int>()] and [get_numberic<int64_t>()]. *)
Definition get_int (v : ExprValue) : option Z := get_numberic (TInt 32) v.
Definition get_int64 (v : ExprValue) : option Z := get_numberic (TInt 64) v.

(** A copy cast to STRING. *)
Definition as_string (v : ExprValue) : option bytes := str_val <$> cast_to now STRING v.

(** ** Lengths *)

Definition fn_length input : option ExprValue :=
  match input with
  | a :: _ =>
      if is_null a then Some Null
      else s ← get_string a; Some (uint32_value (Z.of_nat (length s)))
  | [] => Some Null
  end.

Definition fn_bit_length input : option ExprValue :=
  match input with
  | a :: _ =>
      if is_null a then Some Null
      else s ← get_string a; Some (uint32_value (Z.of_nat (length s) * 8))
  | [] => Some Null
  end.

(** The loop over the bytes: how many characters were counted and how many bytes
    are to follow. *)
Definition char_length_step (st : Z * Z) (ch : Z) : Z * Z :=
  let '(len, n) := st in
  let '(len, n) :=
    if Z.land ch 0x80 =? 0 then (len + 1, 0)
    else if Z.land ch 0xE0 =? 0xC0 then (len + 1, 1)
    else if Z.land ch 0xF0 =? 0xE0 then (len, 2)
    else if Z.land ch 0xF8 =? 0xF0 then (len, 3)
    else if Z.land ch 0xFC =? 0xF8 then (len, 4)
    else if Z.land ch 0xFE =? 0xFC then (len, 5)
    else (len, n) in
  (len, if n =? 0 then 1 else n - 1).

Definition fn_char_length input : option ExprValue :=
  if has_null input then Some Null
  else match input with
  | [a] => s ← as_string a; Some (int32_value (foldl char_length_step (0, 0) s).1)
  | _ => Some Null
  end.

(** ** Case *)

Definition fn_lower input : option ExprValue :=
  match input with
  | a :: _ => if is_null a then Some Null else s ← get_string a; Some (string_value (tolower <$> s))
  | [] => Some Null
  end.

(** Bytes with the high bit take the next one with them. *)
Fixpoint lower_gbk_loop (s : bytes) : bytes :=
  match s with
  | [] => []
  | c :: s' =>
      if Z.land c 0x80 =? 0 then tolower c :: lower_gbk_loop s'
      else match s' with
           | [] => [c]
           | d :: s'' => c :: d :: lower_gbk_loop s''
           end
  end.

Definition fn_lower_gbk input : option ExprValue :=
  match input with
  | a :: _ => if is_null a then Some Null else s ← get_string a; Some (string_value (lower_gbk_loop s))
  | [] => Some Null
  end.

Definition fn_upper input : option ExprValue :=
  match input with
  | a :: _ => if is_null a then Some Null else s ← get_string a; Some (string_value (toupper <$> s))
  | [] => Some Null
  end.

(** ** Putting together and cutting *)

Fixpoint concat_loop (acc : bytes) input : option ExprValue :=
  match input with
  | [] => Some (string_value acc)
  | a :: input => if is_null a then Some Null else s ← get_string a; concat_loop (acc ++ s) input
  end.

Definition fn_concat input : option ExprValue := concat_loop [] input.

Definition fn_substr input : option ExprValue :=
  match input with
  | a :: b :: rest =>
      if has_null input then Some Null
      else
        s ← get_string a;
        pos ← get_int b;
        let size := Z.of_nat (length s) in
        let pos := if pos <? 0 then i32 (u64 (size + pos)) else pos - 1 in
        if (pos <? 0) || (i32 size <=? pos) then Some (string_value [])
        else
          match rest with
          | [c] =>
              len ← get_int c;
              if len <=? 0 then Some (string_value []) else string_value <$> str_substr s pos len
          | _ => string_value <$> str_tail s pos
          end
  | _ => Some Null
  end.

Definition fn_left input : option ExprValue :=
  match input with
  | a :: b :: _ =>
      if has_null input then Some Null
      else
        len ← get_int b;
        if len <=? 0 then Some (string_value []) else string_value <$> str_substr (str_val a) 0 len
  | _ => Some Null
  end.

Definition fn_right input : option ExprValue :=
  match input with
  | a :: b :: _ =>
      if has_null input then Some Null
      else
        len ← get_int b;
        if len <=? 0 then Some (string_value [])
        else
          let pos := i32 (u64 (Z.of_nat (length (str_val a)) - len)) in
          string_value <$> str_tail (str_val a) (if pos <? 0 then 0 else pos)
  | _ => Some Null
  end.

(** [erase(0, find_first_not_of(" "))] and [erase(find_last_not_of(" ") + 1)]. *)
Definition ltrim_str (s : bytes) : bytes :=
  match list_find (fun c => c <> 32) s with
  | Some (i, _) => drop i s
  | None => []
  end.

Definition rtrim_str (s : bytes) : bytes :=
  match list_find (fun c => c <> 32) (reverse s) with
  | Some (i, _) => take (length s - i) s
  | None => []
  end.

Definition fn_trim input : option ExprValue :=
  match input with [a] => Some (string_value (rtrim_str (ltrim_str (str_val a)))) | _ => Some Null end.
Definition fn_ltrim input : option ExprValue :=
  match input with [a] => Some (string_value (ltrim_str (str_val a))) | _ => Some Null end.
Definition fn_rtrim input : option ExprValue :=
  match input with [a] => Some (string_value (rtrim_str (str_val a))) | _ => Some Null end.

(** The loop that repeats the padding; every round takes away at least a byte. *)
Fixpoint pad_loop (fuel : nat) (padlen : nat) (padstr acc : bytes) : option bytes :=
  match fuel with
  | O => None
  | S fuel =>
      if (length padstr <? padlen)%nat then pad_loop fuel (padlen - length padstr) padstr (acc ++ padstr)
      else Some (acc ++ take padlen padstr)
  end.

Definition fn_lpad input : option ExprValue :=
  match input with
  | [a; b; c] =>
      s ← get_string a;
      len ← get_int64 b;
      if (len <=? 0) || (2 ^ 16 - 1 <? len) then Some Null
      else if len <=? Z.of_nat (length s) then Some (string_value (take (Z.to_nat len) s))
      else
        padstr ← get_string c;
        if (length padstr =? 0)%nat then Some Null
        else
          let padlen := (Z.to_nat len - length s)%nat in
          p ← pad_loop (S padlen) padlen padstr [];
          Some (string_value (p ++ s))
  | _ => Some Null
  end.

Definition fn_rpad input : option ExprValue :=
  match input with
  | [a; b; c] =>
      s ← get_string a;
      len ← get_int64 b;
      if (len <=? 0) || (2 ^ 16 - 1 <? len) then Some Null
      else if len <=? Z.of_nat (length s) then Some (string_value (take (Z.to_nat len) s))
      else
        padstr ← get_string c;
        if (length padstr =? 0)%nat then Some Null
        else
          let padlen := (Z.to_nat len - length s)%nat in
          string_value <$> pad_loop (S padlen) padlen padstr s
  | _ => Some Null
  end.

(** [first_push] with the text so far. *)
Fixpoint concat_ws_loop (sep : ExprValue) (acc : option bytes) input : option ExprValue :=
  match input with
  | [] => Some (match acc with Some s => string_value s | None => Null end)
  | a :: input =>
      if is_null a then concat_ws_loop sep acc input
      else
        match acc with
        | None => s ← get_string a; concat_ws_loop sep (Some s) input
        | Some t => d ← get_string sep; s ← get_string a; concat_ws_loop sep (Some (t ++ d ++ s)) input
        end
  end.

Definition fn_concat_ws input : option ExprValue :=
  match input with
  | sep :: a :: rest => if is_null sep then Some Null else concat_ws_loop sep None (a :: rest)
  | _ => Some Null
  end.

(** The loop over the pieces; [current_part] is at most [part_index]. *)
Fixpoint split_part_loop (fuel : nat) (s delimiter : bytes) (start : nat) (current_part part_index : Z) :
    option bytes :=
  match fuel with
  | O => None
  | S fuel =>
      match str_find s delimiter start with
      | Some e =>
          if current_part =? part_index then str_substr s (Z.of_nat start) (Z.of_nat e - Z.of_nat start)
          else split_part_loop fuel s delimiter (e + length delimiter) (current_part + 1) part_index
      | None =>
          if current_part =? part_index then str_tail s (Z.of_nat start) else Some []
      end
  end.

Definition fn_split_part input : option ExprValue :=
  match input with
  | [a; b; c] =>
      if has_null input then Some Null
      else
        s ← get_string a;
        delimiter ← get_string b;
        part_index ← get_int c;
        if part_index <=? 0 then Some Null
        else string_value <$> split_part_loop (Z.to_nat part_index) s delimiter 0 1 part_index
  | _ => Some Null
  end.

(** The positions of the delimiter; its length is not 0. *)
Fixpoint find_all (fuel : nat) (s sub : bytes) (last_pos : nat) : option (list nat) :=
  match fuel with
  | O => None
  | S fuel =>
      match str_find s sub last_pos with
      | Some p => l ← find_all fuel s sub (p + length sub); Some (p :: l)
      | None => Some []
      end
  end.

Definition fn_substring_index input : option ExprValue :=
  match input with
  | [a; b; c] =>
      if has_null input then Some Null
      else
        pos ← get_int c;
        if pos =? 0 then Some (string_value [])
        else
          s ← get_string a;
          sub ← get_string b;
          if (length sub =? 0)%nat then Some (string_value [])
          else
            pos_vec ← find_all (S (length s)) s sub 0;
            let n := Z.of_nat (length pos_vec) in
            if 0 <? pos then
              if pos <=? n then
                p ← pos_vec !! Z.to_nat (pos - 1); string_value <$> str_substr s 0 (Z.of_nat p)
              else Some (string_value s)
            else
              pos ← in_range (- 2 ^ 31) (2 ^ 31) (- pos);
              if pos <=? n then
                p ← pos_vec !! Z.to_nat (n - pos); string_value <$> str_tail s (Z.of_nat (p + length sub))
              else Some (string_value s)
  | _ => Some Null
  end.

(** ** Searching and replacing *)

Definition fn_ascii input : option ExprValue :=
  match input with
  | a :: _ => if is_null a then Some Null else s ← as_string a; Some (int32_value (nth 0 s 0))
  | [] => Some Null
  end.

Definition fn_strcmp input : option ExprValue :=
  match input with
  | [a; b] =>
      let ret := compare a b in
      Some (int32_value (if ret <? 0 then -1 else if 0 <? ret then 1 else 0))
  | _ => Some Null
  end.

Definition fn_insert input : option ExprValue :=
  match input with
  | [a; b; c; d] =>
      if has_null input then Some Null
      else
        pos ← get_int b;
        if pos <? 1 then Some a
        else
          let pos := pos - 1 in
          len ← get_int c;
          if len <=? 0 then Some a
          else
            let s := str_val a in
            if Z.of_nat (length s) <=? pos then Some (string_value s)
            else Some (string_value (take (Z.to_nat pos) s ++ str_val d ++ drop (Z.to_nat (pos + len)) s))
  | _ => Some Null
  end.

(** The loop of [replace]; what is behind [pos] gets shorter in every round. *)
Fixpoint replace_loop (fuel : nat) (from to s : bytes) (pos : nat) : option bytes :=
  match fuel with
  | O => None
  | S fuel =>
      match str_find s from pos with
      | Some p => replace_loop fuel from to (take p s ++ to ++ drop (p + length from) s) (p + length to)
      | None => Some s
      end
  end.

Definition fn_replace input : option ExprValue :=
  match input with
  | [a; b; c] =>
      if is_null a then Some Null
      else if (length (str_val b) =? 0)%nat then Some a
      else string_value <$> replace_loop (S (length (str_val a))) (str_val b) (str_val c) (str_val a) 0
  | _ => Some Null
  end.

Definition fn_repeat input : option ExprValue :=
  match input with
  | [a; b] =>
      if is_null a then Some Null
      else
        len ← get_int b;
        if len <=? 0 then Some Null
        else s ← get_string a; Some (string_value (mjoin (replicate (Z.to_nat len) s)))
  | _ => Some Null
  end.

Definition fn_reverse input : option ExprValue :=
  match input with
  | [a] => if is_null a then Some Null else s ← get_string a; Some (string_value (reverse s))
  | _ => Some Null
  end.

Definition position_value (p : option nat) : ExprValue :=
  int32_value (match p with Some p => Z.of_nat p + 1 | None => 0 end).

(** The start, an [int], becomes a [size_t]. *)
Definition fn_locate input : option ExprValue :=
  let locate a b begin_pos :=
    s ← get_string b;
    needle ← get_string a;
    Some (position_value
            (if u64 begin_pos <=? Z.of_nat (length s) then str_find s needle (Z.to_nat (u64 begin_pos)) else None)) in
  match input with
  | [a; b] => if has_null input then Some Null else locate a b 0
  | [a; b; c] => if has_null input then Some Null else n ← get_int c; begin_pos ← in_range (- 2 ^ 31) (2 ^ 31) (n - 1); locate a b begin_pos
  | _ => Some Null
  end.

Definition fn_instr input : option ExprValue :=
  match input with
  | [a; b] =>
      if has_null input then Some Null
      else s ← get_string a; needle ← get_string b; Some (position_value (str_find s needle 0))
  | _ => Some Null
  end.

End Fn.
