(* ===== verification/StringFnFacts.v ===== *)
(** * Facts about the string functions

    Splitting a text at a delimiter, by one pass over its bytes, is the
    reference the functions that search for a delimiter are compared with. *)

From stdpp Require Import list.
From S2P Require Import Prelude Stdio FloatArith FloatText Calendar DateTime ExprValue StringFn.

(** ** The reference *)

(** The pieces between the occurrences of [d], found from the left; [skip] bytes
    belong to an occurrence already seen and [cur] is the piece so far. *)
Fixpoint split_go (d : bytes) (skip : nat) (s cur : bytes) : list bytes :=
  match s with
  | [] => [cur]
  | c :: s' =>
      match skip with
      | S k => split_go d k s' cur
      | O =>
          if decide (take (length d) s = d) then cur :: split_go d (length d - 1) s' []
          else split_go d 0 s' (cur ++ [c])
      end
  end.

Definition split (d s : bytes) : list bytes := split_go d 0 s [].

Fixpoint join (d : bytes) (l : list bytes) : bytes :=
  match l with
  | [] => []
  | [x] => x
  | x :: l => x ++ d ++ join d l
  end.

(** The first [n] bytes of a padding repeated without end. *)
Definition cycle (p : bytes) (n : nat) : bytes :=
  (fun i => nth (i mod length p) p 0) <$> seq 0 n.

(** ** Finding *)

Lemma str_find_from (s d : bytes) from :
  (from <= length s)%nat -> str_find s d from = Nat.add from <$> str_find (drop from s) d 0.
Proof.
  intros Hle. unfold str_find. rewrite (proj2 (Nat.leb_le _ _) Hle). cbn [Nat.leb].
  rewrite length_drop, Nat.sub_0_r.
  assert (forall l, list_find (fun i => take (length d) (drop (from + i) s) = d) l
          = list_find (fun i => take (length d) (drop (0 + i) (drop from s)) = d) l) as ->.
  { intros l. apply list_find_ext. intros i. by rewrite drop_drop. }
  destruct (list_find _ _) as [[i x]|]; done.
Qed.

Lemma str_find_nil (d : bytes) : d <> [] -> str_find [] d 0 = None.
Proof.
  intros Hd. unfold str_find. cbn. destruct d; [done|]. cbn. by rewrite decide_False.
Qed.

Lemma list_find_map_ext {A B} (f : A -> B) (P : B -> Prop) (Q : A -> Prop)
    `{forall x, Decision (P x), forall x, Decision (Q x)} l :
  (forall x, P (f x) <-> Q x) ->
  fst <$> list_find P (f <$> l) = fst <$> list_find Q l.
Proof.
  intros HPQ. induction l as [|x l IH]; [done|]. cbn.
  destruct (decide (P (f x))) as [E|E], (decide (Q x)) as [F|F]; try (by apply HPQ in E || apply HPQ in F);
    try done.
  destruct (list_find P _) as [[]|], (list_find Q _) as [[]|]; cbn in *; congruence.
Qed.

Lemma str_find_cons (d s : bytes) c :
  str_find (c :: s) d 0 =
  if decide (take (length d) (c :: s) = d) then Some 0%nat else S <$> str_find s d 0.
Proof.
  unfold str_find. rewrite !Nat.sub_0_r. cbn [Nat.leb length].
  change (seq 0 (S (S (length s)))) with (0%nat :: seq 1 (S (length s))). cbn [list_find Nat.add].
  rewrite drop_0. destruct (decide (take (length d) (c :: s) = d)) as [E|E]; [done|].
  rewrite <- fmap_S_seq.
  pose proof (list_find_map_ext S (fun i => take (length d) (drop i (c :: s)) = d)
                (fun i => take (length d) (drop i s) = d) (seq 0 (S (length s))) (fun i => iff_refl _)) as F.
  destruct (list_find _ (S <$> _)) as [[i x]|], (list_find _ (seq 0 _)) as [[j y]|]; cbn in *; congruence.
Qed.

(** Where something was found, and that nothing was found before. *)
Lemma str_find_spec (s d : bytes) p :
  str_find s d 0 = Some p -> s = take p s ++ d ++ drop (p + length d) s /\ (p + length d <= length s)%nat.
Proof.
  unfold str_find. cbn [Nat.leb]. intros H.
  destruct (list_find _ _) as [[i x]|] eqn:F; [|done]. cbn in H. injection H as <-.
  apply list_find_Some in F as (Hi & Hx & _). apply lookup_seq in Hi as [-> Hi]. cbn in Hx.
  assert (length d <= length (drop i s))%nat as L by (rewrite <- Hx, length_take; lia).
  rewrite length_drop in L. split; [|lia].
  rewrite <- drop_drop, <- Hx at 1. rewrite Hx. rewrite <- Hx at 1.
  by rewrite take_drop, take_drop.
Qed.

(** ** Splitting *)

Lemma split_go_skip d k s cur : split_go d k s cur = split_go d 0 (drop k s) cur.
Proof.
  revert s cur. induction k as [|k IH]; intros s cur; [by rewrite drop_0|].
  destruct s as [|c s]; [done|]. cbn. apply IH.
Qed.

Lemma split_go_cur d s cur :
  exists x l, split_go d 0 s [] = x :: l /\ split_go d 0 s cur = (cur ++ x) :: l.
Proof.
  assert (forall n s cur cur', (length s < n)%nat ->
    exists x l, split_go d 0 s cur' = (cur' ++ x) :: l /\ split_go d 0 s cur = (cur ++ x) :: l) as G.
  { clear s cur. intros n. induction n as [|n IH]; intros s cur cur' Hn; [lia|].
    destruct s as [|c s]; cbn [split_go].
    - exists [], []. by rewrite !app_nil_r.
    - destruct (decide _).
      + exists []. eexists. by rewrite !app_nil_r.
      + destruct (IH s (cur ++ [c]) (cur' ++ [c])) as (x & l & E1 & E2); [cbn in Hn; lia|].
        exists (c :: x), l. rewrite E1, E2, <- !app_assoc. done. }
  destruct (G (S (length s)) s cur []) as (x & l & E1 & E2); [lia|]. eauto.
Qed.

Lemma split_nonempty d s : split d s <> [].
Proof. destruct (split_go_cur d s []) as (x & l & E & _). unfold split. by rewrite E. Qed.

Lemma split_cons_miss d c s :
  take (length d) (c :: s) <> d ->
  exists x l, split d s = x :: l /\ split d (c :: s) = (c :: x) :: l.
Proof.
  intros H. destruct (split_go_cur d s [c]) as (x & l & E1 & E2). exists x, l.
  split; [done|]. unfold split. cbn [split_go]. by rewrite decide_False.
Qed.

Lemma split_found d s p :
  d <> [] -> str_find s d 0 = Some p -> split d s = take p s :: split d (drop (p + length d) s).
Proof.
  intros Hd. revert p. induction s as [|c s IH]; intros p; [by rewrite str_find_nil|].
  rewrite str_find_cons. destruct (decide _) as [E|E].
  - intros [= <-]. unfold split. cbn [split_go]. rewrite decide_True by done.
    rewrite split_go_skip. destruct d as [|b d]; [done|]. cbn [length Nat.add Nat.sub drop take].
    by rewrite Nat.sub_0_r.
  - destruct (str_find s d 0) as [q|] eqn:F; [|done]. intros [= <-].
    destruct (split_cons_miss d c s E) as (x & l & E1 & ->).
    rewrite (IH q) in E1 by done. injection E1 as <- <-. done.
Qed.

Lemma split_missing d s : d <> [] -> str_find s d 0 = None -> split d s = [s].
Proof.
  intros Hd. induction s as [|c s IH]; intros F; [done|].
  rewrite str_find_cons in F. destruct (decide _) as [E|E]; [done|].
  destruct (str_find s d 0) eqn:F'; [done|].
  destruct (split_cons_miss d c s E) as (x & l & E1 & ->).
  rewrite IH in E1 by done. by injection E1 as <- <-.
Qed.

Lemma join_piece d x l : l <> [] -> join d (x :: l) = x ++ d ++ join d l.
Proof. by destruct l. Qed.

(** Joining the pieces gives the text back. *)
Lemma join_split d s : d <> [] -> join d (split d s) = s.
Proof.
  intros Hd. remember (length s) as n eqn:Hn. revert s Hn.
  induction n as [n IH] using lt_wf_ind. intros s ->.
  destruct (str_find s d 0) as [p|] eqn:F; [|by rewrite split_missing].
  rewrite (split_found d s p), join_piece by (done || apply split_nonempty).
  destruct (str_find_spec s d p F) as [E L]. assert (0 < length d)%nat by (destruct d; cbn; [done|lia]).
  erewrite IH; [by rewrite <- E| |done]. rewrite length_drop. lia.
Qed.

(** The two facts for a search that starts in the middle. *)
Lemma find_step (s d : bytes) start :
  d <> [] -> (start <= length s)%nat ->
  match str_find s d start with
  | Some p =>
      (start <= p)%nat /\ (p + length d <= length s)%nat
      /\ take p s = take start s ++ take (p - start) (drop start s)
      /\ drop p s = d ++ drop (p + length d) s
      /\ split d (drop start s) = take (p - start) (drop start s) :: split d (drop (p + length d) s)
  | None => split d (drop start s) = [drop start s]
  end.
Proof.
  intros Hd L. rewrite str_find_from by done.
  destruct (str_find (drop start s) d 0) as [q|] eqn:F; cbn; [|by apply split_missing].
  destruct (str_find_spec _ _ _ F) as [_ B]. rewrite length_drop in B.
  rewrite (split_found d _ q) by done. rewrite drop_drop, Nat.add_assoc.
  replace (start + q - start)%nat with q by lia.
  split_and!; try lia; [by rewrite take_take_drop| |done].
  destruct (str_find_spec _ _ _ F) as [E _].
  rewrite <- (drop_drop s q start), E, drop_app_length' by (rewrite length_take, length_drop; lia).
  by rewrite drop_drop, Nat.add_assoc.
Qed.

(** ** The loops *)

Lemma length_delimiter (d : bytes) : d <> [] -> (0 < length d)%nat.
Proof. destruct d; cbn; [done|lia]. Qed.

(** What is behind [pos] gets shorter in every round, so the rounds are enough. *)
Lemma replace_loop_spec fuel from to s pos :
  from <> [] -> (pos <= length s)%nat -> (length s - pos < fuel)%nat ->
  replace_loop fuel from to s pos = Some (take pos s ++ join to (split from (drop pos s))).
Proof.
  intros Hd. pose proof (length_delimiter from Hd). revert s pos.
  induction fuel as [|fuel IH]; intros s pos L F; [lia|]. cbn [replace_loop].
  pose proof (find_step s from pos Hd L) as St.
  destruct (str_find s from pos) as [p|]; [|by rewrite St; cbn; rewrite take_drop].
  destruct St as (P1 & P2 & P3 & _ & ->).
  assert (length (take p s) = p) as Lp by (rewrite length_take; lia).
  rewrite IH; [|rewrite !length_app, length_drop, Lp; lia..].
  rewrite join_piece by apply split_nonempty.
  rewrite (app_assoc (take p s)), take_app_length', drop_app_length' by (rewrite length_app; lia).
  by rewrite P3, <- !app_assoc.
Qed.

Lemma split_part_loop_spec fuel s d start cur k :
  d <> [] -> (start <= length s)%nat -> cur <= k -> (Z.to_nat (k - cur) < fuel)%nat ->
  split_part_loop fuel s d start cur k = Some (default [] (split d (drop start s) !! Z.to_nat (k - cur))).
Proof.
  intros Hd. revert start cur. induction fuel as [|fuel IH]; intros start cur L C F; [lia|].
  cbn [split_part_loop]. pose proof (find_step s d start Hd L) as St.
  destruct (str_find s d start) as [e|].
  - destruct St as (P1 & P2 & P3 & _ & ->). destruct (Z.eqb_spec cur k) as [->|N].
    + rewrite Z.sub_diag. cbn. unfold str_substr.
      rewrite (proj2 (Z.leb_le 0 _)), (proj2 (Z.leb_le (Z.of_nat start) _)) by lia. cbn.
      by rewrite Nat2Z.id, <- Nat2Z.inj_sub, Nat2Z.id by lia.
    + rewrite IH by lia. replace (Z.to_nat (k - cur)) with (S (Z.to_nat (k - (cur + 1)))) by lia. done.
  - rewrite St. destruct (Z.eqb_spec cur k) as [->|N].
    + rewrite Z.sub_diag. cbn. unfold str_tail, str_substr.
      rewrite (proj2 (Z.leb_le 0 _)), (proj2 (Z.leb_le (Z.of_nat start) _)) by lia. cbn.
      rewrite !Nat2Z.id, take_ge; [done|rewrite length_drop; lia].
    + replace (Z.to_nat (k - cur)) with (S (Z.to_nat (k - (cur + 1)))) by lia.
      change (?x :: ?l) with ([x] ++ l). rewrite lookup_app_r by (cbn; lia). by rewrite lookup_nil.
Qed.

(** The positions cut the text before and behind each delimiter. *)
Lemma find_all_spec fuel s d start :
  d <> [] -> (start <= length s)%nat -> (length s - start < fuel)%nat ->
  exists ps, find_all fuel s d start = Some ps
    /\ length (split d (drop start s)) = S (length ps)
    /\ forall i p, ps !! i = Some p ->
       (start <= p)%nat /\ (p + length d <= length s)%nat
       /\ take (p - start) (drop start s) = join d (take (S i) (split d (drop start s)))
       /\ drop (p + length d) s = join d (drop (S i) (split d (drop start s))).
Proof.
  intros Hd. pose proof (length_delimiter d Hd). revert start.
  induction fuel as [|fuel IH]; intros start L F; [lia|]. cbn [find_all].
  pose proof (find_step s d start Hd L) as St. destruct (str_find s d start) as [q|].
  2:{ exists []. rewrite St. split_and!; [done..|]. intros i p Hi. by rewrite lookup_nil in Hi. }
  destruct St as (P1 & P2 & _ & P4 & E).
  destruct (IH (q + length d)%nat) as (ps & -> & N & Q); [lia..|]. cbn.
  exists (q :: ps). rewrite E. split_and!; [done|cbn; lia|]. intros [|i] p Hi; cbn in Hi.
  - injection Hi as ->. split_and!; [lia..|cbn [take]; by rewrite take_0|].
    cbn [drop]. by rewrite drop_0, join_split.
  - destruct (Q i p Hi) as (R1 & R2 & R3 & R4). split_and!; [lia..| |exact R4].
    change (take (S (S i)) (?x :: ?l)) with (x :: take (S i) l).
    rewrite join_piece.
    2:{ by destruct (split d (drop (q + length d) s)) eqn:Z; [apply split_nonempty in Z|]. }
    rewrite <- R3.
    replace (p - start)%nat with ((q - start) + (length d + (p - (q + length d))))%nat by lia.
    rewrite <- take_take_drop. f_equal. rewrite drop_drop. replace (start + (q - start))%nat with q by lia.
    rewrite P4, take_app_add. done.
Qed.

(** ** Padding *)

Lemma length_cycle p n : length (cycle p n) = n.
Proof. unfold cycle. by rewrite length_fmap, length_seq. Qed.

Lemma cycle_short p n : (n <= length p)%nat -> cycle p n = take n p.
Proof.
  intros L. apply (nth_ext _ _ 0 0); rewrite length_cycle, ?length_take; [lia|].
  intros i Hi. unfold cycle. rewrite nth_lookup, list_lookup_fmap, lookup_seq_lt by done. cbn.
  rewrite Nat.mod_small by lia. by rewrite nth_lookup, nth_lookup, lookup_take_lt by lia.
Qed.

Lemma cycle_add p n : p <> [] -> cycle p (length p + n) = p ++ cycle p n.
Proof.
  intros Hp. pose proof (length_delimiter p Hp). unfold cycle at 1. rewrite seq_app, fmap_app.
  apply (f_equal2 app).
  - change (cycle p (length p) = p). by rewrite cycle_short, take_ge.
  - rewrite Nat.add_comm, <- fmap_add_seq, <- list_fmap_compose. apply list_fmap_ext. intros _ i _. cbn.
    rewrite <- (Nat.mul_1_l (length p)) at 1. by rewrite Nat.add_comm, Nat.Div0.mod_add.
Qed.

Lemma pad_loop_spec fuel n p acc :
  p <> [] -> (n < fuel)%nat -> pad_loop fuel n p acc = Some (acc ++ cycle p n).
Proof.
  intros Hp. pose proof (length_delimiter p Hp). revert n acc.
  induction fuel as [|fuel IH]; intros n acc F; [lia|]. cbn [pad_loop].
  destruct (Nat.ltb_spec (length p) n) as [L|L]; [|by rewrite cycle_short].
  rewrite IH by lia. rewrite <- app_assoc, <- cycle_add by done. do 3 f_equal. lia.
Qed.

(** ** Theorems *)

Section Theorems.
Context {host : Host} {rlib : RoaringLib} {zone : Zone}.
Implicit Types a b c : ExprValue.

Lemma has_null3 a b c :
  is_null a = false -> is_null b = false -> is_null c = false -> has_null [a; b; c] = false.
Proof. unfold has_null. cbn. by intros -> -> ->. Qed.

Lemma str_substr_nat (s : bytes) p n :
  (p <= length s)%nat -> str_substr s (Z.of_nat p) (Z.of_nat n) = Some (take n (drop p s)).
Proof.
  intros L. unfold str_substr.
  rewrite (proj2 (Z.leb_le 0 _)), (proj2 (Z.leb_le (Z.of_nat p) _)) by lia. cbn. by rewrite !Nat2Z.id.
Qed.

Lemma str_tail_nat (s : bytes) p : (p <= length s)%nat -> str_tail s (Z.of_nat p) = Some (drop p s).
Proof.
  intros L. unfold str_tail. rewrite str_substr_nat by done.
  by rewrite take_ge by (rewrite length_drop; lia).
Qed.

(** C29. REPLACE ends on every input and puts the new text exactly where the old
    one stands: the result is the pieces of the text between the occurrences of
    the old text, found from the left, joined with the new text.  In particular
    a new text that contains the old one is not replaced again. *)
Theorem replace_splits (a b c : ExprValue) :
  is_null a = false -> str_val b <> [] ->
  fn_replace [a; b; c] = Some (string_value (join (str_val c) (split (str_val b) (str_val a)))).
Proof.
  intros Ha Hb. cbn [fn_replace]. rewrite Ha.
  destruct (Nat.eqb_spec (length (str_val b)) 0) as [E|_]; [by apply nil_length_inv in E|].
  rewrite replace_loop_spec by (done || lia). by rewrite drop_0.
Qed.

(** SPLIT_PART gives the piece with the wanted number, counted from 1, and
    the empty text when there are fewer pieces. *)
Theorem split_part_piece (a b c : ExprValue) (s d : bytes) (k : Z) :
  is_null a = false -> is_null b = false -> is_null c = false ->
  get_string a = Some s -> get_string b = Some d -> get_int c = Some k -> d <> [] -> 1 <= k ->
  fn_split_part [a; b; c] = Some (string_value (default [] (split d s !! Z.to_nat (k - 1)))).
Proof.
  intros Ha Hb Hc Hs Hd Hk Hne Hpos. cbn [fn_split_part]. rewrite has_null3, Hs, Hd, Hk by done.
  cbn [mbind option_bind]. rewrite (proj2 (Z.leb_gt k 0)) by lia.
  rewrite split_part_loop_spec by (done || lia). by rewrite drop_0.
Qed.

(** SUBSTRING_INDEX keeps the first [n] pieces of the text for a positive
    count and the last [-n] for a negative one, joined as they were; the whole
    text when there are fewer pieces, and the empty text for the count 0. *)
Theorem substring_index_pieces (a b c : ExprValue) (s d : bytes) (n : Z) :
  is_null a = false -> is_null b = false -> is_null c = false ->
  get_string a = Some s -> get_string b = Some d -> get_int c = Some n -> d <> [] ->
  - 2 ^ 31 < n < 2 ^ 31 ->
  fn_substring_index [a; b; c] =
  Some (string_value (join d (if 0 <=? n then take (Z.to_nat n) (split d s)
                              else drop (length (split d s) - Z.to_nat (- n)) (split d s)))).
Proof.
  intros Ha Hb Hc Hs Hd Hn Hne B. cbn [fn_substring_index]. rewrite has_null3, Hs, Hd, Hn by done.
  cbn [mbind option_bind]. destruct (Z.eqb_spec n 0) as [->|N0]; [done|].
  destruct (Nat.eqb_spec (length d) 0) as [E|_]; [by apply nil_length_inv in E|].
  destruct (find_all_spec (S (length s)) s d 0 Hne) as (ps & -> & L & Q); [lia..|].
  rewrite drop_0 in L, Q. cbn [mbind option_bind].
  destruct (Z.ltb_spec 0 n) as [P|P].
  - rewrite (proj2 (Z.leb_le 0 n)) by lia. destruct (Z.leb_spec n (Z.of_nat (length ps))) as [K|K].
    + destruct (lookup_lt_is_Some_2 ps (Z.to_nat (n - 1))) as [p Hp]; [lia|]. rewrite Hp. cbn [mbind option_bind].
      destruct (Q _ _ Hp) as (_ & Q2 & Q3 & _).
      change 0 with (Z.of_nat 0). rewrite (str_substr_nat s 0 p) by lia. cbn [fmap option_fmap option_map].
      rewrite drop_0, Nat.sub_0_r in *. rewrite Q3. do 4 f_equal. lia.
    + rewrite take_ge by lia. by rewrite join_split.
  - rewrite (proj2 (Z.leb_gt 0 n)) by lia. unfold in_range.
    rewrite (proj2 (Z.leb_le (- 2 ^ 31) _)), (proj2 (Z.ltb_lt (- n) _)) by lia. cbn [andb mbind option_bind].
    destruct (Z.leb_spec (- n) (Z.of_nat (length ps))) as [K|K].
    + destruct (lookup_lt_is_Some_2 ps (Z.to_nat (Z.of_nat (length ps) - - n))) as [p Hp]; [lia|].
      rewrite Hp. cbn [mbind option_bind]. destruct (Q _ _ Hp) as (_ & Q2 & _ & Q4).
      rewrite str_tail_nat, Q4 by lia. cbn [fmap option_fmap option_map]. do 4 f_equal. lia.
    + replace (length (split d s) - Z.to_nat (- n))%nat with 0%nat by lia. by rewrite drop_0, join_split.
Qed.

(** LPAD and RPAD give a text of exactly the wanted length: the text cut
    when it is longer, and otherwise the text with the padding, repeated as often
    as needed and cut at its end, before or behind it. *)
Theorem pad_exact (a b c : ExprValue) (s p : bytes) (n : Z) :
  get_string a = Some s -> get_int64 b = Some n -> get_string c = Some p -> p <> [] -> 0 < n < 2 ^ 16 ->
  let m := (Z.to_nat n - length s)%nat in
  let kept := take (Z.to_nat n) s in
  fn_lpad [a; b; c] = Some (string_value (cycle p m ++ kept))
  /\ fn_rpad [a; b; c] = Some (string_value (kept ++ cycle p m))
  /\ length (cycle p m ++ kept) = Z.to_nat n.
Proof.
  intros Hs Hn Hp Hne B m kept. cbn [fn_lpad fn_rpad]. rewrite Hs, Hn, Hp. cbn [mbind option_bind].
  rewrite (proj2 (Z.leb_gt n 0)), (proj2 (Z.ltb_ge (2 ^ 16 - 1) n)) by lia. cbn [orb].
  assert (length (cycle p m ++ kept) = Z.to_nat n) as Len
    by (rewrite length_app, length_cycle; unfold kept, m; rewrite length_take; lia).
  destruct (Z.leb_spec n (Z.of_nat (length s))) as [L|L].
  - assert (m = 0%nat) as M by (unfold m; lia). rewrite M in *. by rewrite app_nil_r.
  - destruct (Nat.eqb_spec (length p) 0) as [E|_]; [by apply nil_length_inv in E|].
    assert (kept = s) as -> by (apply take_ge; lia).
    by rewrite !pad_loop_spec by (done || lia).
Qed.

End Theorems.
