(* ===== verification/TextFn.v ===== *)
(** * Digits, sets and codes ([src/expr/internal_functions.cpp])

    The functions that write numbers in a base, pick from lists of texts and
    encode texts, and the functions that choose among their arguments. *)

From stdpp Require Import list.
From S2P Require Import Prelude Stdio FloatArith FloatText Calendar DateTime ExprValue StringFn.

(** [boost::split] with [is_any_of(seps)] and no token compression. *)
Class BoostSplit := boost_split : bytes -> bytes -> list bytes.

(** What a number is in a base, the most significant digit first; 64 rounds are
    enough for 64 bits. *)
Fixpoint base_go (fuel : nat) (b n : Z) (acc : bytes) : bytes :=
  match fuel with
  | O => acc
  | S fuel =>
      let d := n mod b in
      let c := if d <? 10 then 48 + d else 87 + d in
      if n / b =? 0 then c :: acc else base_go fuel b (n / b) (c :: acc)
  end.

(** [stringstream << std::oct << n] and [std::hex] of a signed number. *)
Definition base_text (b n : Z) : bytes := base_go 64 b (u64 n) [].

(** [sprintf("%02X")] of a byte. *)
Definition hex_char (d : Z) : Z := if d <? 10 then 48 + d else 55 + d.
Definition printf_02X (c : Z) : bytes := [hex_char (c / 16); hex_char (c mod 16)].

Section Fn.
Context {host : Host} {rlib : RoaringLib} {zone : Zone}.
Context (now : Z).
Implicit Type input : list ExprValue.

(** A copy cast to INT64. *)
Definition as_int64 (v : ExprValue) : option Z := int64_val <$> cast_to now INT64 v.

(** ** Numbers as digits *)

Fixpoint bit_count_loop (fuel : nat) (u : Z) : Z :=
  match fuel with
  | O => 0
  | S fuel => if u =? 0 then 0 else (if Z.testbit u 0 then 1 else 0) + bit_count_loop fuel (Z.shiftr u 1)
  end.

Definition fn_bit_count input : option ExprValue :=
  match input with
  | [a] =>
      if is_null a then Some Null
      else v ← cast_to now UINT64 a; Some (int64_value (bit_count_loop 64 (uint64_val v)))
  | _ => Some Null
  end.

Definition fn_oct input : option ExprValue :=
  if has_null input then Some Null
  else match input with
  | [a] => n ← as_int64 a; Some (string_value (base_text 8 n))
  | _ => Some Null
  end.

Definition fn_hex input : option ExprValue :=
  if has_null input then Some Null
  else match input with
  | [a] =>
      if is_numberic a then n ← as_int64 a; Some (string_value (toupper <$> base_text 16 n))
      else s ← as_string now a; Some (string_value (toupper <$> mjoin (printf_02X <$> s)))
  | _ => Some Null
  end.

(** The digits, the least significant first. *)
Fixpoint bin_loop (fuel : nat) (u : Z) : bytes :=
  match fuel with
  | O => []
  | S fuel => if u =? 0 then [] else (Z.land u 1 + 48) :: bin_loop fuel (Z.shiftr u 1)
  end.

Definition fn_bin input : option ExprValue :=
  if has_null input then Some Null
  else match input with
  | [a] =>
      n ← as_int64 a;
      Some (string_value (if u64 n =? 0 then [48] else reverse (bin_loop 64 (u64 n))))
  | _ => Some Null
  end.

Definition fn_space input : option ExprValue :=
  if has_null input then Some Null
  else match input with
  | [a] =>
      v ← cast_to now INT32 a;
      let num := int32_val v in
      if (num <? 1) || (1000000 <? num) then Some Null
      else Some (string_value (replicate (Z.to_nat num) 32))
  | _ => Some Null
  end.

Definition unhex_digit (ch : Z) : option Z :=
  if (48 <=? ch) && (ch <=? 57) then Some (ch - 48)
  else if (65 <=? ch) && (ch <=? 70) then Some (ch - 65 + 10)
  else if (97 <=? ch) && (ch <=? 102) then Some (ch - 97 + 10)
  else None.

(** The loop; [None] is the return of NULL at a character that is no digit. *)
Fixpoint unhex_loop (num : Z) (flag : bool) (acc s : bytes) : option bytes :=
  match s with
  | [] => Some (if num =? 0 then acc else acc ++ [u8 num])
  | ch :: s =>
      let flag := negb flag in
      d ← unhex_digit ch;
      let num := Z.shiftl num 4 + d in
      if flag then unhex_loop 0 flag (acc ++ [u8 num]) s else unhex_loop num flag acc s
  end.

Definition fn_unhex input : option ExprValue :=
  if has_null input then Some Null
  else match input with
  | [a] =>
      s ← as_string now a;
      Some (match unhex_loop 0 (Nat.even (length s)) [] s with
            | Some r => string_value r
            | None => Null
            end)
  | _ => Some Null
  end.

(** [str.insert(i, ",")] for every third place before the point. *)
Fixpoint format_loop (fuel : nat) (i : Z) (s : bytes) : bytes :=
  match fuel with
  | O => s
  | S fuel =>
      if 0 <? i then format_loop fuel (i - 3) (take (Z.to_nat i) s ++ [44] ++ drop (Z.to_nat i) s) else s
  end.

(** A negative precision is the default one, 6. *)
Definition fn_format input : option ExprValue :=
  if has_null input then Some Null
  else match input with
  | [a; b] =>
      num ← cast_to now DOUBLE a;
      pre ← cast_to now INT32 b;
      let p := int32_val pre in
      let s := printf_f 64 52 (Z.to_nat (if p <? 0 then 6 else p)) (double_val num) in
      let pos := match str_find s [46] 0 with Some p => p | None => length s end in
      Some (string_value (format_loop (length s) (Z.of_nat pos - 3) s))
  | _ => Some Null
  end.

(** ** Lists of texts *)

Definition fn_find_in_set `{BoostSplit} input : option ExprValue :=
  if has_null input then Some Null
  else match input with
  | [a; b] =>
      target ← as_string now a;
      set_str ← as_string now b;
      Some (int64_value match list_find (fun t => t = target) (boost_split set_str [44]) with
                        | Some (i, _) => Z.of_nat i + 1
                        | None => 0
                        end)
  | _ => Some Null
  end.

Fixpoint export_set_loop (n : nat) (first : bool) (num : Z) (on off sep : bytes) : bytes :=
  match n with
  | O => []
  | S n =>
      (if first then [] else sep) ++ (if Z.testbit num 0 then on else off)
      ++ export_set_loop n false (Z.shiftr num 1) on off sep
  end.

Definition fn_export_set input : option ExprValue :=
  let export num on off sep len :=
    num ← as_int64 num;
    on ← as_string now on;
    off ← as_string now off;
    sep ← as_string now sep;
    let len := if (64 <? len) || (len <? 1) then 64 else len in
    Some (string_value (export_set_loop (Z.to_nat len) true num on off sep)) in
  if has_null input then Some Null
  else match input with
  | [num; on; off; sep] => export num on off sep 64
  | [num; on; off; sep; l] => len ← as_int64 l; export num on off sep len
  | _ => Some Null
  end.

Fixpoint make_set_loop (num : Z) (flag : bool) (acc : bytes) (vs : list ExprValue) : option bytes :=
  match vs with
  | [] => Some acc
  | v :: vs =>
      acc' ← (if Z.testbit num 0 then
                t ← as_string now v; Some (acc ++ (if flag then [44] else []) ++ t)
              else Some acc);
      let num' := Z.shiftr num 1 in
      if num' =? 0 then Some acc' else make_set_loop num' (flag || Z.testbit num 0) acc' vs
  end.

Definition fn_make_set input : option ExprValue :=
  if has_null input then Some Null
  else match input with
  | num :: v :: vs => n ← as_int64 num; string_value <$> make_set_loop n false [] (v :: vs)
  | _ => Some Null
  end.

Definition fn_elt input : option ExprValue :=
  if has_null input then Some Null
  else match input with
  | a :: b :: rest =>
      index ← as_int64 a;
      if (index <? 1) || (Z.of_nat (length (b :: rest)) <? index) then Some Null
      else v ← input !! Z.to_nat index; cast_to now STRING v
  | _ => Some Null
  end.

(** The index of the first text equal to the target. *)
Fixpoint field_loop (i : Z) (target : bytes) (vs : list ExprValue) : option Z :=
  match vs with
  | [] => Some 0
  | v :: vs => s ← as_string now v; if decide (s = target) then Some i else field_loop (i + 1) target vs
  end.

Definition fn_field input : option ExprValue :=
  if has_null input then Some Null
  else match input with
  | a :: b :: rest =>
      target ← as_string now a;
      i ← field_loop 1 target (b :: rest);
      Some (int32_value i)
  | _ => Some Null
  end.

(** ** Codes *)

Definition quote_char (c : Z) : bytes := if c =? 39 then [92; 39] else if c =? 92 then [92; 92] else [c].

Definition fn_quote input : option ExprValue :=
  if has_null input then Some Null
  else match input with
  | [a] => s ← as_string now a; Some (string_value ([39] ++ mjoin (quote_char <$> s) ++ [39]))
  | _ => Some Null
  end.

(** The bytes of a 32-bit number, the least significant first. *)
Fixpoint char_loop (fuel : nat) (u : Z) : bytes :=
  match fuel with
  | O => []
  | S fuel => if u =? 0 then [] else Z.land u 255 :: char_loop fuel (Z.shiftr u 8)
  end.

Fixpoint func_char_loop (acc : bytes) (vs : list ExprValue) : option bytes :=
  match vs with
  | [] => Some acc
  | v :: vs => v ← cast_to now UINT32 v; func_char_loop (acc ++ reverse (char_loop 4 (uint32_val v))) vs
  end.

Definition fn_func_char input : option ExprValue :=
  if has_null input then Some Null
  else match input with
  | [] => Some Null
  | _ => string_value <$> func_char_loop [] input
  end.

Definition soundex_bytes (c : Z) : nat :=
  if (0xc0 <=? c) && (c <=? 0xdf) then 2
  else if (0xe0 <=? c) && (c <=? 0xef) then 3
  else if (0xf0 <=? c) && (c <=? 0xf7) then 4
  else if (0xf8 <=? c) && (c <=? 0xfb) then 5
  else if (0xfc <=? c) && (c <=? 0xfd) then 6
  else 1.

(** The [switch]; '0' for the letters without a code. *)
Definition soundex_code (low : Z) : Z :=
  let among s := existsb (Z.eqb low) (bytes_of_string s) in
  if among "bfpv"%string then 49
  else if among "cgjkqsxz"%string then 50
  else if among "dt"%string then 51
  else if among "l"%string then 52
  else if among "mn"%string then 53
  else if among "r"%string then 54
  else 48.

(** The loop: the code so far, how many digits it has and the last of them;
    every round moves on by at least a byte. *)
Fixpoint soundex_loop (fuel : nat) (s : bytes) (i : nat) (size : Z) (last_char : Z) (code : bytes) :
    bytes * Z :=
  match fuel with
  | O => (code, size)
  | S fuel =>
      if (i <? length s)%nat && (size <? 3) then
        let c := nth i s 0 in
        let n := soundex_bytes c in
        match code with
        | [] =>
            let code :=
              if (n =? 1)%nat && (97 <=? tolower c) && (tolower c <=? 122) then [toupper c]
              else if (1 <? n)%nat && (i + n <? length s)%nat then take n (drop i s)
              else [] in
            soundex_loop fuel s (i + n) size last_char code
        | _ =>
            let cur_c := soundex_code (tolower c) in
            if (n =? 1)%nat && negb (cur_c =? 48) && negb (cur_c =? last_char) then
              soundex_loop fuel s (i + n) (size + 1) cur_c (code ++ [cur_c])
            else soundex_loop fuel s (i + n) size last_char code
        end
      else (code, size)
  end.

Definition fn_soundex input : option ExprValue :=
  if has_null input then Some Null
  else match input with
  | [a] =>
      s ← as_string now a;
      let '(code, size) := soundex_loop (S (length s)) s 0 0 0 [] in
      Some (string_value match code with
                         | [] => []
                         | _ => code ++ replicate (Z.to_nat (3 - size)) 48
                         end)
  | _ => Some Null
  end.

(** ** Choosing *)

Fixpoint case_when_loop (vs : list ExprValue) : option ExprValue :=
  match vs with
  | c :: t :: vs => b ← get_numberic TBool c; if b =? 0 then case_when_loop vs else Some t
  | [e] => Some e
  | [] => Some Null
  end.

Definition fn_case_when input : option ExprValue := case_when_loop input.

(** The comparison may cast the first argument, which stays cast. *)
Fixpoint case_expr_loop (e : ExprValue) (vs : list ExprValue) : option ExprValue :=
  match vs with
  | c :: t :: vs =>
      '(r, e, _) ← compare_diff_type now e c;
      if r =? 0 then Some t else case_expr_loop e vs
  | [d] => Some d
  | [] => Some Null
  end.

(** Without arguments the size minus one wraps around. *)
Definition fn_case_expr_when input : option ExprValue :=
  match input with
  | e :: vs => case_expr_loop e vs
  | [] => None
  end.

Definition fn_if input : option ExprValue :=
  match input with
  | [c; t; e] => b ← get_numberic TBool c; Some (if b =? 0 then e else t)
  | _ => Some Null
  end.

Definition fn_ifnull input : option ExprValue :=
  match input with [a; b] => Some (if is_null a then b else a) | _ => Some Null end.

Definition fn_isnull input : option ExprValue :=
  match input with
  | [a] => Some (u_write 1 (if is_null a then 1 else 0) (new_ExprValue BOOL))
  | _ => Some Null
  end.

Definition fn_nullif input : option ExprValue :=
  match input with
  | [a; b] => '(r, _, _) ← compare_diff_type now a b; Some (if r =? 0 then Null else a)
  | _ => Some Null
  end.

End Fn.
