(* ===== verification/TextFnFacts.v ===== *)
(** * Facts about digits, sets and codes *)

From stdpp Require Import list.
From S2P Require Import Prelude Stdio FloatArith FloatText Calendar DateTime ExprValue ExprValueFacts StringFn StringFnFacts TextFn.

(** ** References *)

(** The value of a text of binary digits. *)
Definition binary_value (t : bytes) : Z := foldl (fun v c => 2 * v + (c - 48)) 0 t.

Definition ones (t : bytes) : Z := Z.of_nat (length (filter (eq 49) t)).

(** Reading a quoted literal behind its first quote: a backslash keeps the next
    character, and the quote ends the literal and the text. *)
Fixpoint unquote_body (s : bytes) : option bytes :=
  match s with
  | [] => None
  | c :: s' =>
      if c =? 39 then match s' with [] => Some [] | _ => None end
      else if c =? 92 then
        match s' with
        | [] => None
        | e :: s'' => cons e <$> unquote_body s''
        end
      else cons c <$> unquote_body s'
  end.

Definition unquote (s : bytes) : option bytes :=
  match s with
  | c :: s' => if c =? 39 then unquote_body s' else None
  | [] => None
  end.

(** The first bytes of the characters that take one or two bytes. *)
Definition starts_short (c : Z) : Prop := c < 128 \/ 192 <= c < 224.

Global Instance starts_short_dec c : Decision (starts_short c).
Proof. unfold starts_short. apply _. Defined.

(** What the documentation of [boost::split] says for one separator: the tokens
    are what stands between the separators. *)
Class BoostSplitLaws `{BoostSplit} : Prop := {
  boost_split_join : forall s c, join [c] (boost_split s [c]) = s;
  boost_split_clean : forall s c t, t ∈ boost_split s [c] -> c ∉ t
}.

(** ** Hexadecimal digits *)

Lemma unhex_digit_char d : 0 <= d < 16 -> unhex_digit (toupper (hex_char d)) = Some d.
Proof.
  intros H. unfold hex_char. destruct (Z.ltb_spec d 10).
  - assert (toupper (48 + d) = 48 + d) as -> by (unfold toupper; case_match; lia).
    unfold unhex_digit. rewrite (proj2 (Z.leb_le 48 _)), (proj2 (Z.leb_le _ 57)) by lia. cbn. f_equal. lia.
  - assert (toupper (55 + d) = 55 + d) as -> by (unfold toupper; case_match; lia).
    unfold unhex_digit. rewrite (proj2 (Z.leb_gt (55 + d) 57)), andb_false_r by lia.
    rewrite (proj2 (Z.leb_le 65 _)), (proj2 (Z.leb_le _ 70)) by lia. cbn. f_equal. lia.
Qed.

Lemma unhex_pair x y d e acc s :
  unhex_digit x = Some d -> unhex_digit y = Some e ->
  unhex_loop 0 true acc (x :: y :: s) = unhex_loop 0 true (acc ++ [u8 (d * 16 + e)]) s.
Proof.
  intros Hx Hy. cbn [unhex_loop negb]. rewrite Hx. cbn [mbind option_bind]. rewrite Hy.
  cbn [mbind option_bind]. by rewrite Z.shiftl_0_l, Z.shiftl_mul_pow2.
Qed.

Lemma unhex_pairs s acc :
  bytes_ok s -> unhex_loop 0 true acc (toupper <$> mjoin (printf_02X <$> s)) = Some (acc ++ s).
Proof.
  revert acc. induction s as [|c s IH]; intros acc Hs; [by rewrite app_nil_r|].
  apply Forall_cons in Hs as [Hc Hs]. unfold is_u in Hc. change (2 ^ 8) with 256 in Hc.
  change (toupper <$> mjoin (printf_02X <$> c :: s)) with
    (toupper (hex_char (c / 16)) :: toupper (hex_char (c mod 16)) :: (toupper <$> mjoin (printf_02X <$> s))).
  rewrite (unhex_pair _ _ (c / 16) (c mod 16)).
  2:{ apply unhex_digit_char. split; [apply Z.div_pos|apply Z.div_lt_upper_bound]; lia. }
  2:{ apply unhex_digit_char, Z.mod_pos_bound. lia. }
  replace (c / 16 * 16 + c mod 16) with c by (pose proof (Z.div_mod c 16); lia).
  assert (u8 c = c) as -> by (apply Z.mod_small; lia).
  rewrite IH by done. by rewrite <- app_assoc.
Qed.

Lemma length_hex_pairs s : length (toupper <$> mjoin (printf_02X <$> s)) = (2 * length s)%nat.
Proof.
  rewrite length_fmap. induction s as [|c s IH]; [done|].
  change (mjoin (printf_02X <$> c :: s)) with (printf_02X c ++ mjoin (printf_02X <$> s)).
  rewrite length_app, IH. unfold printf_02X. cbn [length]. lia.
Qed.

(** ** Binary digits *)

Lemma bin_loop_value fuel u :
  0 <= u < 2 ^ Z.of_nat fuel -> foldr (fun c v => 2 * v + (c - 48)) 0 (bin_loop fuel u) = u.
Proof.
  revert u. induction fuel as [|fuel IH]; intros u H; [cbn in *; lia|]. cbn [bin_loop].
  destruct (Z.eqb_spec u 0) as [->|N]; [done|]. cbn [foldr].
  rewrite Z.shiftr_div_pow2 by lia. change (2 ^ 1) with 2.
  rewrite Nat2Z.inj_succ, Z.pow_succ_r in H by lia.
  rewrite IH by (split; [apply Z.div_pos|apply Z.div_lt_upper_bound]; lia).
  change 1 with (Z.ones 1). rewrite Z.land_ones by lia. change (2 ^ 1) with 2.
  pose proof (Z.div_mod u 2). lia.
Qed.

Lemma bin_loop_ones fuel u : bit_count_loop fuel u = ones (bin_loop fuel u).
Proof.
  revert u. induction fuel as [|fuel IH]; intros u; [done|]. cbn [bin_loop bit_count_loop].
  destruct (u =? 0); [done|]. rewrite IH. unfold ones. rewrite filter_cons.
  assert (Z.land u 1 = Z.b2z (Z.testbit u 0)) as ->.
  { change 1 with (Z.ones 1). by rewrite Z.land_ones, Z.bit0_mod by lia. }
  destruct (Z.testbit u 0); cbn [Z.b2z]; [|by rewrite decide_False].
  rewrite decide_True by done. cbn [length]. lia.
Qed.

Lemma bin_loop_digits fuel u : Forall (fun c => c = 48 \/ c = 49) (bin_loop fuel u).
Proof.
  revert u. induction fuel as [|fuel IH]; intros u; [constructor|]. cbn [bin_loop].
  destruct (u =? 0); constructor; [|apply IH].
  change 1 with (Z.ones 1). rewrite Z.land_ones by lia. pose proof (Z.mod_pos_bound u (2 ^ 1)). lia.
Qed.

Lemma binary_value_reverse t : binary_value (reverse t) = foldr (fun c v => 2 * v + (c - 48)) 0 t.
Proof.
  unfold binary_value. induction t as [|c t IH]; [done|]. rewrite reverse_cons, foldl_app. cbn. by rewrite IH.
Qed.

Lemma ones_reverse t : ones (reverse t) = ones t.
Proof. unfold ones. by rewrite filter_reverse, length_reverse. Qed.

(** ** Quotes *)

Lemma unquote_quoted s : unquote_body (mjoin (quote_char <$> s) ++ [39]) = Some s.
Proof.
  induction s as [|c s IH]; [done|].
  change (mjoin (quote_char <$> c :: s)) with (quote_char c ++ mjoin (quote_char <$> s)).
  unfold quote_char at 1. destruct (Z.eqb_spec c 39) as [->|N1]; [by cbn; rewrite IH|].
  destruct (Z.eqb_spec c 92) as [->|N2]; [by cbn; rewrite IH|].
  cbn. rewrite (proj2 (Z.eqb_neq c 39)), (proj2 (Z.eqb_neq c 92)) by done. by rewrite IH.
Qed.

(** ** Characters *)

Lemma short_masks c :
  is_u 8 c ->
  (Z.land c 0x80 =? 0) || (Z.land c 0xE0 =? 0xC0) = bool_decide (starts_short c).
Proof.
  intros Hc. unfold is_u in Hc. change (2 ^ 8) with 256 in Hc.
  assert (forallb (fun k => let c := Z.of_nat k in
    Bool.eqb ((Z.land c 0x80 =? 0) || (Z.land c 0xE0 =? 0xC0)) (bool_decide (starts_short c))) (seq 0 256) = true)
    as G by (vm_compute; reflexivity).
  rewrite forallb_forall in G. specialize (G (Z.to_nat c)). cbv zeta in G. rewrite Z2Nat.id in G by lia.
  apply eqb_prop, G, in_seq. lia.
Qed.

Lemma char_length_step_spec st c :
  is_u 8 c -> (char_length_step st c).1 = st.1 + (if decide (starts_short c) then 1 else 0).
Proof.
  intros Hc. pose proof (short_masks c Hc) as M. destruct st as [len n]. unfold char_length_step.
  destruct (Z.land c 0x80 =? 0); cbn [orb] in M.
  { symmetry in M. apply bool_decide_eq_true in M. by rewrite decide_True. }
  destruct (Z.land c 0xE0 =? 0xC0).
  { symmetry in M. apply bool_decide_eq_true in M. by rewrite decide_True. }
  symmetry in M. apply bool_decide_eq_false in M. rewrite decide_False by done.
  repeat case_match; simplify_eq; cbn; lia.
Qed.

Lemma char_length_loop s st :
  bytes_ok s -> (foldl char_length_step st s).1 = st.1 + Z.of_nat (length (filter starts_short s)).
Proof.
  revert st. induction s as [|c s IH]; intros st Hs; [cbn; lia|].
  apply Forall_cons in Hs as [Hc Hs]. cbn [foldl]. rewrite IH, char_length_step_spec, filter_cons by done.
  destruct (decide (starts_short c)); cbn [length]; lia.
Qed.

(** ** Theorems *)

Section Theorems.
Context {host : Host} {rlib : RoaringLib} {zone : Zone}.
Context (now : Z).
Implicit Types a b : ExprValue.

Lemma as_string_value s : as_string now (string_value s) = Some s.
Proof. done. Qed.

Lemma as_int64_value n : is_i 64 n -> as_int64 now (int64_value n) = Some n.
Proof.
  intros H. unfold as_int64. change (cast_to now INT64 (int64_value n)) with (Some (int64_value n)).
  cbn [fmap option_fmap option_map]. unfold int64_val, int64_value. rewrite u_read_write.
  change (8 * Z.of_nat 8) with 64. f_equal. by apply swrap_wrap_id.
Qed.

Lemma cast_uint64_of_int64 n :
  is_i 64 n ->
  exists v, cast_to now UINT64 (int64_value n) = Some v /\ uint64_val v = u64 n.
Proof.
  intros Hn. eexists. split; [reflexivity|]. unfold uint64_val. rewrite u_read_set_type, u_read_write.
  unfold conv_int, int64_val, int64_value. rewrite u_read_write. change (8 * Z.of_nat 8) with 64.
  by rewrite swrap_wrap_id, wrap_id by (done || apply wrap_range; lia).
Qed.

(** UNHEX undoes HEX: the digits HEX gives for a text, two for each byte,
    are read back to that text. *)
Theorem hex_reads_back a s :
  is_null a = false -> is_numberic a = false -> as_string now a = Some s -> bytes_ok s ->
  exists h, fn_hex now [a] = Some (string_value h)
    /\ length h = (2 * length s)%nat
    /\ fn_unhex now [string_value h] = Some (string_value s).
Proof.
  intros Hn Hnum Hs Hok. exists (toupper <$> mjoin (printf_02X <$> s)). split_and!.
  - unfold fn_hex, has_null. cbn [existsb orb]. by rewrite Hn, Hnum, Hs.
  - apply length_hex_pairs.
  - unfold fn_unhex. change (has_null [string_value ?h]) with false. rewrite as_string_value.
    cbn [mbind option_bind]. rewrite length_hex_pairs, Nat.even_mul. cbn [Nat.even orb].
    by rewrite unhex_pairs.
Qed.

(** QUOTE gives a literal that reads back to the text: between its quotes,
    with a backslash keeping the character behind it. *)
Theorem quote_reads_back a s :
  is_null a = false -> as_string now a = Some s ->
  exists q, fn_quote now [a] = Some (string_value q) /\ unquote q = Some s.
Proof.
  intros Hn Hs. eexists. split.
  - unfold fn_quote, has_null. cbn [existsb orb]. by rewrite Hn, Hs.
  - apply unquote_quoted.
Qed.

(** CHAR_LENGTH counts the characters of one and two bytes and no others: a
    character of three or more bytes is not counted. *)
Theorem char_length_counts a s :
  is_null a = false -> as_string now a = Some s -> bytes_ok s ->
  fn_char_length now [a] = Some (int32_value (Z.of_nat (length (filter starts_short s)))).
Proof.
  intros Hn Hs Hok. unfold fn_char_length, has_null. cbn [existsb orb]. rewrite Hn, Hs.
  cbn [mbind option_bind]. by rewrite char_length_loop.
Qed.

(** BIN gives the binary digits of the 64 bits of a number, and BIT_COUNT the
    number of ones among them. *)
Theorem bin_bit_count n :
  is_i 64 n ->
  exists t, fn_bin now [int64_value n] = Some (string_value t)
    /\ Forall (fun c => c = 48 \/ c = 49) t
    /\ binary_value t = u64 n
    /\ fn_bit_count now [int64_value n] = Some (int64_value (ones t)).
Proof.
  intros Hn. assert (is_u 64 (u64 n)) as Hu by (apply wrap_range; lia). unfold is_u in Hu.
  exists (if u64 n =? 0 then [48] else reverse (bin_loop 64 (u64 n))). split_and!.
  - unfold fn_bin. change (has_null [int64_value n]) with false. by rewrite as_int64_value.
  - destruct (_ =? _); [by repeat constructor|]. apply Forall_reverse, bin_loop_digits.
  - destruct (Z.eqb_spec (u64 n) 0) as [->|_]; [done|]. rewrite binary_value_reverse.
    apply bin_loop_value. exact Hu.
  - unfold fn_bit_count. change (is_null (int64_value n)) with false. destruct (cast_uint64_of_int64 n Hn) as (v & -> & Hv).
    cbn [mbind option_bind]. rewrite Hv, bin_loop_ones.
    destruct (Z.eqb_spec (u64 n) 0) as [->|_]; [done|]. by rewrite ones_reverse.
Qed.

(** FIND_IN_SET gives the position, from 1, of the first member of the list
    that is the text, and 0 when the text is no member. *)
Theorem find_in_set_position `{BoostSplitLaws} a b s t :
  is_null a = false -> is_null b = false -> as_string now a = Some t -> as_string now b = Some s ->
  exists l i, join [44] l = s /\ (forall x, x ∈ l -> 44 ∉ x)
    /\ fn_find_in_set now [a; b] = Some (int64_value i)
    /\ ((i = 0 /\ t ∉ l)
        \/ (0 < i /\ l !! Z.to_nat (i - 1) = Some t
            /\ forall j, (j < Z.to_nat (i - 1))%nat -> l !! j <> Some t)).
Proof.
  intros Ha Hb Ht Hs. exists (boost_split s [44]).
  exists (match list_find (fun x => x = t) (boost_split s [44]) with Some (i, _) => Z.of_nat i + 1 | None => 0 end).
  split_and!; [apply boost_split_join|intros x; apply boost_split_clean| |].
  - unfold fn_find_in_set, has_null. cbn [existsb orb]. by rewrite Ha, Hb, Ht, Hs.
  - destruct (list_find _ _) as [[i x]|] eqn:F.
    + apply list_find_Some in F as (Hi & -> & Hmin). right. replace (Z.to_nat (Z.of_nat i + 1 - 1)) with i by lia.
      split_and!; [lia|done|]. intros j Hj E. by eapply Hmin.
    + left. split; [done|]. apply list_find_None in F. rewrite Forall_forall in F. intros E. by eapply F.
Qed.

End Theorems.
