(* ===== verification/DateFn.v ===== *)
(** * Date and time functions of SQL ([src/expr/internal_functions.cpp])

    The functions on dates and times, as they work on a vector of values.  The
    dates of [boost::gregorian] are a parameter: a class gives the constructor,
    which throws for dates that do not exist, and what the sources ask a date. *)

From stdpp Require Import list.
From S2P Require Import Prelude Stdio FloatArith FloatText Calendar DateTime ExprValue StringFn.

Class Gregorian := {
  greg_date : Type;
  greg_make : Z -> Z -> Z -> option greg_date;   (** [None]: an exception *)
  greg_day_of_week : greg_date -> Z;             (** 0 is Sunday *)
  greg_day_of_year : greg_date -> Z;
  greg_week_number : greg_date -> Z
}.

(** The value of an [int] expression, which must not overflow. *)
Definition int_expr (z : Z) : option Z := in_range (- 2 ^ 31) (2 ^ 31) z.

Definition days_in_year (year : Z) : Z :=
  if (Z.rem year 4 =? 0) && (negb (Z.rem year 100 =? 0) || (Z.rem year 400 =? 0)) then 366 else 365.

(** [is_monday_first], [zero_range] and [with_4_days] of a mode. *)
Definition calc_mode (mode : Z) : bool * bool * bool :=
  match mode with
  | 0 => (false, true, false)
  | 1 => (true, true, true)
  | 2 => (false, false, false)
  | 3 => (true, false, true)
  | 4 => (false, true, true)
  | 5 => (true, true, false)
  | 6 => (false, false, true)
  | 7 => (true, false, false)
  | _ => (false, true, false)
  end.

(** The part of [calc_week] behind the casts: the year and the week of the day
    [day_of_year] of a year whose first day is [first_weekday], 0 for Sunday. *)
Definition week_of (year month day day_of_year first_weekday : Z)
    (is_monday_first zero_range with_4_days : bool) : Z * Z :=
  let first_weekday :=
    if is_monday_first then if first_weekday =? 0 then 6 else first_weekday - 1 else first_weekday in
  let outside contain_days first_weekday :=
    (with_4_days && (contain_days <? 4)) || (negb with_4_days && negb (first_weekday =? 0)) in
  let contain_days := 7 - first_weekday in
  let early := (month =? 1) && (day <=? contain_days) && outside contain_days first_weekday in
  if early && zero_range then (year, 0)
  else
    let '(year, day_of_year, first_weekday) :=
      if early then
        (year - 1, day_of_year + days_in_year (year - 1),
         Z.rem (first_weekday + 53 * 7 - days_in_year (year - 1)) 7)
      else (year, day_of_year, first_weekday) in
    let contain_days := if early then 7 - first_weekday else contain_days in
    let days :=
      if outside contain_days first_weekday then day_of_year - contain_days - 1
      else day_of_year - contain_days - 1 + 7 in
    let weeks := Z.quot days 7 + 1 in
    if negb zero_range && (52 * 7 <=? days) then
      let first_weekday := Z.rem (first_weekday + days_in_year year) 7 in
      if (with_4_days && (4 <=? contain_days)) || (negb with_4_days && (first_weekday =? 0)) then (year + 1, 1)
      else (year, weeks)
    else (year, weeks).

Section Fn.
Context {host : Host} {rlib : RoaringLib} {zone : Zone} {greg : Gregorian}.
Context (now : Z).
Implicit Type input : list ExprValue.

Definition is_unit (s : string) (v : ExprValue) : bool := bool_decide (str_val v = bytes_of_string s).

(** A copy cast to a type, and the member of the union the caller reads. *)
Definition as_time (v : ExprValue) : option Z := int32_val <$> cast_to now TIME v.
Definition as_timestamp (v : ExprValue) : option Z := uint32_val <$> cast_to now TIMESTAMP v.

(** The [DATETIME] of an argument; an INT64 is read as a text. *)
Definition as_datetime (v : ExprValue) : option Z :=
  v ← (if type_eqb (type v) INT64 then cast_to now STRING v else Some v);
  uint64_val <$> cast_to now DATETIME v.

(** ** Periods *)

Definition fn_period_add input : option ExprValue :=
  if has_null input then Some Null
  else match input with
  | [a; b] =>
      p ← cast_to now INT64 a;
      n ← cast_to now INT32 b;
      let year := i32 (Z.quot (int64_val p) 100) in
      let month := i32 (Z.rem (int64_val p) 100) in
      years ← int_expr (year * 12);
      d ← int_expr (int32_val n + years);
      d ← int_expr (d - 1);
      month ← int_expr (month + d);
      let year := Z.quot month 12 in
      let month := Z.rem month 12 + 1 in
      Some (string_value (to_string year ++ printf_0d 2 month))
  | _ => Some Null
  end.

(** Both operands are the first argument. *)
Definition fn_period_diff input : option ExprValue :=
  if has_null input then Some Null
  else match input with
  | [a; _] =>
      dt1 ← cast_to now INT64 a;
      dt2 ← cast_to now INT64 a;
      let months v := i32 (Z.quot (int64_val v) 100 * 12 + Z.rem (int64_val v) 100) in
      diff ← int_expr (months dt1 - months dt2);
      Some (int32_value diff)
  | _ => Some Null
  end.

(** ** Parts of a time *)

Definition fn_hour input : option ExprValue :=
  match input with
  | a :: _ =>
      if is_null a then Some Null
      else t ← as_time a; Some (uint32_value (time_hour (if t <? 0 then - t else t)))
  | [] => Some Null
  end.

(** MINUTE and SECOND take the bits of the value as it is, a negative one too. *)
Definition fn_minute input : option ExprValue :=
  if has_null input then Some Null
  else match input with
  | [a] => t ← as_time a; Some (int32_value (time_minute t))
  | _ => Some Null
  end.

Definition fn_second input : option ExprValue :=
  if has_null input then Some Null
  else match input with
  | [a] => t ← as_time a; Some (int32_value (time_second t))
  | _ => Some Null
  end.

Definition fn_func_time input : option ExprValue :=
  if has_null input then Some Null
  else match input with [a] => cast_to now TIME a | _ => Some Null end.

(** The digits behind the point; more than nine would overflow an [int]. *)
Fixpoint micro_loop (micro : Z) (cnt : nat) (s : bytes) : option (Z * nat) :=
  match s with
  | c :: s =>
      if isdigit c then
        t ← int_expr (micro * 10);
        t ← int_expr (t + c);
        micro_loop (t - 48) (S cnt) s
      else Some (micro, cnt)
  | [] => Some (micro, cnt)
  end.

Definition fn_microsecond input : option ExprValue :=
  if has_null input then Some Null
  else match input with
  | [a] =>
      s ← as_string now a;
      let behind := match list_find (eq 46) s with Some (i, _) => drop (S i) s | None => [] end in
      '(micro, cnt) ← micro_loop 0 0 behind;
      Some (int32_value (if (cnt =? 0)%nat || (6 <? cnt)%nat then 0 else micro))
  | _ => Some Null
  end.

Definition fn_time_to_sec input : option ExprValue :=
  match input with
  | a :: _ =>
      if is_null a then Some Null
      else
        time ← as_time a;
        let minus := time <? 0 in
        let time := if minus then - time else time in
        let sec_sum := u32 (time_hour time * 3600 + time_minute time * 60 + time_second time) in
        Some (int32_value (if minus then u32 (- sec_sum) else sec_sum))
  | [] => Some Null
  end.

(** Of a value that is not a STRING the low four bytes of the union are taken. *)
Definition fn_sec_to_time input : option ExprValue :=
  match input with
  | a :: _ =>
      if is_null a then Some Null
      else
        v ← (if type_eqb (type a) STRING then cast_to now INT32 a else Some a);
        let secs := int32_val v in
        let minus := secs <? 0 in
        secs ← int_expr (if minus then - secs else secs);
        let hour := Z.quot secs 3600 in
        let min := u32 (secs - hour * 3600) / 60 in
        let sec := Z.rem secs 60 in
        let time := i32 (Z.lor (Z.lor sec (u32 (Z.shiftl min 6))) (u32 (Z.shiftl hour 12))) in
        time ← int_expr (if minus then - time else time);
        Some (u_write 4 time (new_ExprValue TIME))
  | [] => Some Null
  end.

(** ** Parts of a date *)

(** DATE, DAY, MONTH and YEAR. *)
Definition date_part (t : PrimitiveType) (part : Z -> Z) input : option ExprValue :=
  match input with
  | a :: _ =>
      if is_null a then Some Null
      else dt ← as_datetime a; Some (u_write 4 (part dt) (new_ExprValue t))
  | [] => Some Null
  end.

Definition fn_date : list ExprValue -> option ExprValue := date_part DATE datetime_to_date.
Definition fn_day : list ExprValue -> option ExprValue := date_part UINT32 datetime_to_day.
Definition fn_month : list ExprValue -> option ExprValue := date_part UINT32 datetime_to_month.
Definition fn_year : list ExprValue -> option ExprValue := date_part UINT32 datetime_to_year.

Definition fn_func_quarter input : option ExprValue :=
  if has_null input then Some Null
  else match input with
  | [a] =>
      v ← cast_to now DATE a;
      let year_month := Z.land (Z.shiftr (int32_val v) 5) 0x1FFFF in
      Some (int32_value (Z.quot (Z.rem year_month 13 - 1) 3 + 1))
  | _ => Some Null
  end.

(** The functions that build a date; the exception gives NULL. *)
Definition with_date (f : greg_date -> Z) (dt : Z) : option ExprValue :=
  let month := datetime_to_month dt in
  let day := datetime_to_day dt in
  if (month =? 0) || (day =? 0) then Some Null
  else Some (match greg_make (datetime_to_year dt) month day with
             | Some today => uint32_value (f today)
             | None => Null
             end).

Definition fn_dayofweek input : option ExprValue :=
  match input with
  | a :: _ =>
      if is_null a then Some Null
      else dt ← as_datetime a; with_date (fun today => greg_day_of_week today + 1) dt
  | [] => Some Null
  end.

Definition fn_dayofyear input : option ExprValue :=
  match input with
  | a :: _ => if is_null a then Some Null else dt ← as_datetime a; with_date greg_day_of_year dt
  | [] => Some Null
  end.

Definition fn_weekday input : option ExprValue :=
  match input with
  | a :: _ =>
      if is_null a then Some Null
      else
        dt ← as_datetime a;
        with_date (fun today => let d := greg_day_of_week today in if 1 <=? d then d - 1 else 6) dt
  | [] => Some Null
  end.

(** Here an INT64 is not read as a text. *)
Definition fn_weekofyear input : option ExprValue :=
  match input with
  | a :: _ =>
      if is_null a then Some Null
      else v ← cast_to now DATETIME a; with_date greg_week_number (uint64_val v)
  | [] => Some Null
  end.

Definition day_names : list string :=
  ["Sunday"; "Monday"; "Tuesday"; "Wednesday"; "Thursday"; "Friday"; "Saturday"]%string.
Definition month_names : list string :=
  ["January"; "February"; "March"; "April"; "May"; "June"; "July"; "August"; "September";
   "October"; "November"; "December"]%string.

Definition name_of (names : list string) (k : Z) : ExprValue :=
  if (k <=? Z.of_nat (length names)) && (0 <? k) then
    match names !! Z.to_nat (k - 1) with
    | Some s => string_value (bytes_of_string s)
    | None => Null
    end
  else Null.

Definition fn_dayname input : option ExprValue :=
  match input with
  | a :: _ =>
      if is_null a then Some Null else v ← fn_dayofweek input; Some (name_of day_names (uint32_val v))
  | [] => Some Null
  end.

Definition fn_monthname input : option ExprValue :=
  match input with
  | a :: _ =>
      if is_null a then Some Null else v ← fn_month input; Some (name_of month_names (uint32_val v))
  | [] => Some Null
  end.

(** ** Weeks *)

(** [None] inside is the return code -1. *)
Definition calc_week input (is_yearweek : bool) : option (option (Z * Z)) :=
  match input with
  | a :: rest =>
      if is_null a then Some None
      else
        one ← cast_to now DATETIME a;
        let dt := uint64_val one in
        let year := datetime_to_year dt in
        let month := datetime_to_month dt in
        let day := datetime_to_day dt in
        if (month =? 0) || (day =? 0) then Some None
        else
          match greg_make year 1 1, greg_make year month day with
          | Some first_day, Some today =>
              '(is_monday_first, zero_range, with_4_days) ←
                match rest with
                | b :: _ => m ← get_numberic (TUint 32) b; Some (calc_mode (m mod 8))
                | [] => Some (false, true, false)
                end;
              let zero_range := if is_yearweek then false else zero_range in
              Some (Some (week_of year month day (greg_day_of_year today) (greg_day_of_week first_day)
                            is_monday_first zero_range with_4_days))
          | _, _ => Some None
          end
  | [] => Some None
  end.

Definition fn_yearweek input : option ExprValue :=
  r ← calc_week input true;
  Some (match r with Some (year, weeks) => uint32_value (year * 100 + weeks) | None => Null end).

Definition fn_week input : option ExprValue :=
  r ← calc_week input false;
  Some (match r with Some (_, weeks) => uint32_value weeks | None => Null end).

(** ** Instants *)

Definition fn_unix_timestamp input : option ExprValue :=
  match input with
  | [] => Some (uint32_value now)
  | a :: _ =>
      if is_null a then Some Null
      else
        v ← (if type_eqb (type a) INT64 then cast_to now STRING a else Some a);
        t ← as_timestamp v; Some (uint32_value t)
  end.

Definition fn_from_unixtime input : option ExprValue :=
  match input with
  | a :: _ =>
      if is_null a then Some Null
      else n ← get_numberic (TUint 32) a; Some (u_write 4 n (new_ExprValue TIMESTAMP))
  | [] => Some Null
  end.

(** Seconds from the year 0 to 1970 and eight hours. *)
Definition fn_to_seconds input : option ExprValue :=
  if has_null input then Some Null
  else match input with
  | [a] =>
      v ← cast_to now TIMESTAMP a;
      v ← cast_to now INT64 v;
      Some (u_write 8 (int64_val v + 62167248000) v)
  | _ => Some Null
  end.

Definition fn_to_days input : option ExprValue :=
  if has_null input then Some Null
  else match input with
  | [a] =>
      v ← cast_to now TIMESTAMP a;
      v ← cast_to now INT64 v;
      Some (u_write 8 (Z.quot (int64_val v + 62167248000) 86400) v)
  | _ => Some Null
  end.

Definition fn_timediff input : option ExprValue :=
  if has_null input then Some Null
  else match input with
  | a :: b :: _ =>
      t1 ← as_timestamp a;
      t2 ← as_timestamp b;
      Some (u_write 4 (seconds_to_time (i32 (u32 (t1 - t2)))) (new_ExprValue TIME))
  | _ => Some Null
  end.

Definition fn_timestampdiff input : option ExprValue :=
  if has_null input then Some Null
  else match input with
  | unit :: b :: c :: _ =>
      t3 ← as_timestamp c;
      t2 ← as_timestamp b;
      let seconds := i32 (u32 (t3 - t2)) in
      Some (if is_unit "second" unit then int64_value seconds
            else if is_unit "minute" unit then int64_value (Z.quot seconds 60)
            else if is_unit "hour" unit then int64_value (Z.quot seconds 3600)
            else if is_unit "day" unit then int64_value (Z.quot seconds (24 * 3600))
            else Null)
  | _ => Some Null
  end.

Definition fn_datediff input : option ExprValue :=
  match input with
  | [a; b] =>
      if has_null input then Some Null
      else
        let as_text v := if type_eqb (type v) INT64 then cast_to now STRING v else Some v in
        left ← as_text a;
        right ← as_text b;
        left ← cast_to now DATE left;
        right ← cast_to now DATE right;
        t1 ← as_timestamp left;
        t2 ← as_timestamp right;
        Some (int32_value (Z.quot (t1 - t2) (3600 * 24)))
  | _ => Some Null
  end.

(** The unit of an interval; [None] is one that is not supported. *)
Definition interval_unit (v : ExprValue) : option TimeUnit :=
  if is_unit "second" v then Some SECOND
  else if is_unit "minute" v then Some MINUTE
  else if is_unit "hour" v then Some HOUR
  else if is_unit "day" v then Some DAY
  else if is_unit "month" v then Some MONTH
  else if is_unit "year" v then Some YEAR
  else None.

(** [date_add] and [date_sub] differ in the function that moves the instant. *)
Definition date_shift (move : Z -> Z -> TimeUnit -> Z) input : option ExprValue :=
  match input with
  | a :: b :: unit :: _ =>
      if has_null input then Some Null
      else
        n ← cast_to now INT32 b;
        v ← (if is_numberic a then cast_to now STRING a else Some a);
        ret ← cast_to now TIMESTAMP v;
        Some (match interval_unit unit with
              | Some u => u_write 4 (move (uint32_val ret) (int32_val n) u) ret
              | None => Null
              end)
  | _ => Some Null
  end.

Definition fn_date_add : list ExprValue -> option ExprValue := date_shift date_add_interval.
Definition fn_date_sub : list ExprValue -> option ExprValue := date_shift date_sub_interval.

(** The product of [int]s must not overflow; the sum wraps around. *)
Definition fn_timestampadd input : option ExprValue :=
  if has_null input then Some Null
  else match input with
  | [unit; b; c] =>
      ret ← cast_to now TIMESTAMP c;
      num ← cast_to now INT32 b;
      let n := int32_val num in
      let plus d := Some (u_write 4 (uint32_val ret + d) ret) in
      if is_unit "second" unit then plus n
      else if is_unit "minute" unit then d ← int_expr (n * 60); plus d
      else if is_unit "hour" unit then d ← int_expr (n * 3600); plus d
      else if is_unit "day" unit then d ← int_expr (n * 24); d ← int_expr (d * 3600); plus d
      else Some Null
  | _ => Some Null
  end.

Definition fn_timestamp input : option ExprValue :=
  if has_null input then Some Null
  else
    let convert a := v ← cast_to now DATETIME a; cast_to now TIMESTAMP v in
    match input with
    | [a] => convert a
    | [a; b] =>
        ret ← convert a;
        t ← fn_time_to_sec [b];
        Some (u_write 4 (uint32_val ret + int32_val t) ret)
    | _ => Some Null
    end.

(** [op] is the addition or the subtraction of the seconds. *)
Definition time_shift (op : Z -> Z -> Z) input : option ExprValue :=
  if has_null input then Some Null
  else match input with
  | [a; b] =>
      t2 ← as_time b;
      if t2 =? 0 then Some a
      else
        let seconds := time_to_seconds t2 in
        dt ← cast_to now DATETIME a;
        if negb (int64_val dt =? 0) then
          ts ← cast_to now TIMESTAMP dt;
          x ← int_expr (op (int32_val ts) seconds);
          cast_to now STRING (u_write 4 x ts)
        else
          t1 ← cast_to now TIME a;
          if negb (int32_val t1 =? 0) then
            cast_to now STRING (u_write 4 (seconds_to_time (op (time_to_seconds (int32_val t1)) seconds)) t1)
          else Some Null
  | _ => Some Null
  end.

Definition fn_addtime : list ExprValue -> option ExprValue := time_shift Z.add.
Definition fn_subtime : list ExprValue -> option ExprValue := time_shift Z.sub.

Definition fn_extract input : option ExprValue :=
  match input with
  | [unit; b] =>
      if has_null input then Some Null
      else
        t ← as_timestamp b;
        let x := localtime t in
        Some (if is_unit "year" unit then uint32_value (tm_year x + 1900)
              else if is_unit "month" unit then uint32_value (tm_mon x + 1)
              else if is_unit "day" unit then uint32_value (tm_mday x)
              else if is_unit "hour" unit then uint32_value (tm_hour x)
              else if is_unit "minute" unit then uint32_value (tm_min x)
              else if is_unit "second" unit then uint32_value (tm_sec x)
              else Null)
  | _ => Some Null
  end.

(** The integer is read from the union whatever the type of the value is. *)
Definition fn_tso_to_timestamp input : option ExprValue :=
  match input with
  | [a] =>
      if is_null a then Some Null
      else Some (u_write 4 (get_timestamp_internal (int64_val a)) (new_ExprValue TIMESTAMP))
  | _ => Some Null
  end.

Definition fn_timestamp_to_tso input : option ExprValue :=
  match input with
  | [a] => if is_null a then Some Null else t ← as_timestamp a; Some (int64_value (timestamp_to_ts t))
  | _ => Some Null
  end.

End Fn.
