(* ===== verification/DateFnFacts.v ===== *)
(** * Facts about the date and time functions *)

From stdpp Require Import list.
From S2P Require Import Prelude Stdio FloatArith FloatText Calendar DateTime DateTimeFacts ExprValue ExprValueFacts StringFn DateFn.

(** What the documentation of [boost::gregorian] says of a date from 1400 to 9999. *)
Class GregorianLaws `{Gregorian} : Prop := {
  greg_make_ok y m d :
    1400 <= y <= 9999 -> valid_date y m d ->
    exists g, greg_make y m d = Some g
      /\ greg_day_of_week g = (days_from_civil y m d + 4) mod 7
      /\ greg_day_of_year g = days_from_civil y m d - days_from_civil y 1 1 + 1
}.

(** ** Days of a year *)

(** The number of Sundays among the first [n] days of the year [y]. *)
Definition sundays (y : Z) (n : nat) : nat :=
  length (filter (fun k => (days_from_civil y 1 1 + Z.of_nat k + 4) mod 7 = 0) (seq 0 n)).

(** The same for a year whose first day is [w], 0 for Sunday. *)
Definition sundays_from (w : Z) (n : nat) : nat :=
  length (filter (fun k => (w + Z.of_nat k) mod 7 = 0) (seq 0 n)).

Lemma sundays_weekday y n : sundays y n = sundays_from ((days_from_civil y 1 1 + 4) mod 7) n.
Proof.
  unfold sundays, sundays_from. f_equal. apply list_filter_iff. intros k.
  rewrite Z.add_mod_idemp_l by lia. f_equiv. f_equal. lia.
Qed.

Lemma january y d : days_from_civil y 1 d - days_from_civil y 1 1 = d - 1.
Proof. unfold days_from_civil. cbn. lia. Qed.

Lemma march_start y : days_from_civil y 3 1 - days_from_civil y 1 1 = if is_leap y then 60 else 59.
Proof.
  unfold days_from_civil, is_leap. cbn [Z.leb Z.ltb Z.compare Pos.compare Pos.compare_cont].
  destruct (Z.eqb_spec (y mod 4) 0), (Z.eqb_spec (y mod 100) 0), (Z.eqb_spec (y mod 400) 0); cbn; div_lia.
Qed.

Lemma day_of_year_range y m d :
  valid_date y m d -> 2 <= m ->
  32 <= days_from_civil y m d - days_from_civil y 1 1 + 1 <= 366.
Proof.
  intros [Hm Hd] H2. pose proof (march_start y) as M. unfold month_days in Hd.
  assert (m = 2 \/ 3 <= m) as [->|H3] by lia.
  - assert (days_from_civil y 2 d - days_from_civil y 1 1 = d + 30) as E.
    { unfold days_from_civil. cbn. change ((153 * (2 + 9) + 2) / 5) with 337.
      change ((153 * (1 + 9) + 2) / 5) with 306. lia. }
    destruct (is_leap y); lia.
  - assert (days_from_civil y m d - days_from_civil y 3 1 = (153 * (m - 3) + 2) / 5 + d - 1) as E.
    { unfold days_from_civil. rewrite !(proj2 (Z.leb_gt _ 2)), !(proj2 (Z.ltb_lt 2 _)) by lia.
      change ((153 * (3 - 3) + 2) / 5) with 0. lia. }
    assert (days_from_civil y m d - days_from_civil y 1 1 <= 365) as U.
    { assert (m = 3 \/ m = 4 \/ m = 5 \/ m = 6 \/ m = 7 \/ m = 8 \/ m = 9 \/ m = 10 \/ m = 11 \/ m = 12) as C by lia.
      destruct (is_leap y); repeat destruct C as [->|C]; subst; cbn in Hd; div_lia. }
    assert (0 <= (153 * (m - 3) + 2) / 5) by (apply Z.div_pos; lia). destruct (is_leap y); lia.
Qed.

Lemma week_of_mode0 y m d n w :
  (week_of y m d n w false true false).2 =
  if (m =? 1) && (d <=? 7 - w) && negb (w =? 0) then 0
  else Z.quot (if w =? 0 then n - (7 - w) - 1 + 7 else n - (7 - w) - 1) 7 + 1.
Proof.
  unfold week_of. cbn -[Z.sub Z.quot Z.leb Z.eqb].
  destruct (m =? 1), (d <=? 7 - w), (w =? 0) eqn:E; cbn -[Z.sub Z.quot Z.leb Z.eqb];
    rewrite ?E; reflexivity.
Qed.

(** In mode 0 the week is the number of Sundays so far, for every first day of
    the year and every day. *)
Lemma week_of_sundays y m d n w :
  0 <= w < 7 -> (1 <= n <= 366)%nat -> (m = 1 /\ d = Z.of_nat n \/ 2 <= m /\ (32 <= n)%nat) ->
  (week_of y m d (Z.of_nat n) w false true false).2 = Z.of_nat (sundays_from w n).
Proof.
  intros Hw Hn Hmd.
  assert (forallb (fun w => forallb (fun n =>
    let w := Z.of_nat w in let r := Z.of_nat (sundays_from w n) in
    ((week_of 0 1 (Z.of_nat n) (Z.of_nat n) w false true false).2 =? r)
    && ((n <? 32)%nat || ((week_of 0 2 0 (Z.of_nat n) w false true false).2 =? r)))
    (seq 1 366)) (seq 0 7) = true) as G by (vm_compute; reflexivity).
  rewrite forallb_forall in G. specialize (G (Z.to_nat w)). rewrite forallb_forall in G.
  specialize (G ltac:(apply in_seq; lia) n ltac:(apply in_seq; lia)). cbv zeta in G.
  rewrite Z2Nat.id in G by lia. apply andb_prop in G as [G1 G2].
  destruct Hmd as [[-> ->]|[H2 H32]].
  - apply Z.eqb_eq in G1. rewrite <- G1. by rewrite !week_of_mode0.
  - apply orb_prop in G2 as [G2|G2]; [apply Nat.ltb_lt in G2; lia|]. apply Z.eqb_eq in G2. rewrite <- G2.
    by rewrite !week_of_mode0, (proj2 (Z.eqb_neq m 1)) by lia.
Qed.

(** ** Theorems *)

Section Theorems.
Context {host : Host} {rlib : RoaringLib}.

Definition datetime_value (dt : Z) : ExprValue := u_write 8 dt (new_ExprValue DATETIME).
Definition date_value (d : Z) : ExprValue := u_write 4 d (new_ExprValue DATE).
Definition time_value (t : Z) : ExprValue := u_write 4 t (new_ExprValue TIME).

Lemma uint64_datetime_value dt : is_u 64 dt -> uint64_val (datetime_value dt) = dt.
Proof. intros H. unfold uint64_val, datetime_value. rewrite u_read_write. by apply wrap_id. Qed.

Lemma int32_written x v : is_i 32 x -> int32_val (u_write 4 x v) = x.
Proof. intros H. unfold int32_val. rewrite u_read_write. by apply swrap_wrap_id. Qed.

(** A date without a time of day. *)
Definition packed_date (y m d : Z) : Z := pack_datetime y m d 0 0 0 0.

Lemma valid_fields y m d : 0 <= y <= 9999 -> valid_date y m d -> fields_ok y m d 0 0 0 0.
Proof.
  intros Hy [Hm Hd]. unfold fields_ok. pose proof (month_days_range y m). lia.
Qed.

Lemma packed_date_spec y m d :
  0 <= y <= 9999 -> valid_date y m d ->
  is_u 64 (packed_date y m d) /\ datetime_to_year (packed_date y m d) = y
  /\ datetime_to_month (packed_date y m d) = m /\ datetime_to_day (packed_date y m d) = d.
Proof.
  intros Hy Hv. pose proof (valid_fields y m d Hy Hv) as F.
  destruct (unpack_year_month _ _ _ _ _ _ _ F) as [E1 E2].
  destruct (unpack_fields _ _ _ _ _ _ _ F) as (_ & E3 & _). split_and!; [|done..].
  unfold packed_date. rewrite pack_datetime_sum by done. unfold fields_ok in F. unfold is_u. lia.
Qed.

(** C34. WEEK of a date, in the default mode, is the number of Sundays from the
    first of January to that date. *)
Theorem week_counts_sundays `{GregorianLaws} `{Zone} now y m d :
  1400 <= y <= 9999 -> valid_date y m d ->
  fn_week now [datetime_value (packed_date y m d)] =
  Some (uint32_value (Z.of_nat (sundays y (Z.to_nat (days_from_civil y m d - days_from_civil y 1 1 + 1))))).
Proof.
  intros Hy Hv. destruct (packed_date_spec y m d) as (U & E1 & E2 & E3); [lia|done|].
  destruct (greg_make_ok y m d Hy Hv) as (g & Hg & _ & Hdoy).
  destruct (greg_make_ok y 1 1 Hy) as (f & Hf & Hdow & _); [split; cbn; lia|].
  unfold fn_week, calc_week. change (is_null (datetime_value _)) with false.
  change (cast_to now DATETIME (datetime_value ?x)) with (Some (datetime_value x)).
  cbn [mbind option_bind]. rewrite uint64_datetime_value, E1, E2, E3 by done.
  pose proof Hv as [Hm Hd].
  rewrite (proj2 (Z.eqb_neq m 0)), (proj2 (Z.eqb_neq d 0)) by lia. cbn [orb]. rewrite Hf, Hg.
  cbn [mbind option_bind]. rewrite Hdoy, Hdow, sundays_weekday.
  set (n := days_from_civil y m d - days_from_civil y 1 1 + 1).
  assert (1 <= n <= 366 /\ (m = 1 /\ d = n \/ 2 <= m /\ 32 <= n)) as [Hn C].
  { assert (m = 1 \/ 2 <= m) as [->|H2] by lia.
    - subst n. pose proof (january y d). cbn in Hd. lia.
    - pose proof (day_of_year_range y m d Hv H2) as R. fold n in R. lia. }
  rewrite <- (week_of_sundays y m d); [|apply Z.mod_pos_bound; lia|lia|lia].
  rewrite Z2Nat.id by lia. by destruct (week_of _ _ _ _ _ _ _ _).
Qed.

Lemma int_expr_ok z : is_i 32 z -> int_expr z = Some z.
Proof.
  unfold is_i, int_expr, in_range. intros H.
  by rewrite (proj2 (Z.leb_le _ z)), (proj2 (Z.ltb_lt z _)) by lia.
Qed.

(** The packing of SEC_TO_TIME is the one the other functions use. *)
Lemma sec_to_time_pack h m s :
  0 <= h < 2 ^ 10 -> 0 <= m < 64 -> 0 <= s < 64 ->
  i32 (Z.lor (Z.lor s (u32 (Z.shiftl m 6))) (u32 (Z.shiftl h 12))) = h * 2 ^ 12 + m * 2 ^ 6 + s.
Proof.
  intros Hh Hm Hs. rewrite !Z.shiftl_mul_pow2 by lia. rewrite !(wrap_id 32) by (unfold is_u; lia).
  rewrite (lor_disjoint 6) by lia. rewrite lor_disjoint by lia. rewrite swrap_id; unfold is_i; lia.
Qed.

Lemma time_to_sec_spec `{Zone} now t h m s :
  0 <= h < 2 ^ 10 -> 0 <= m < 64 -> 0 <= s < 64 ->
  Z.abs t = h * 2 ^ 12 + m * 2 ^ 6 + s ->
  fn_time_to_sec now [time_value t] = Some (int32_value (Z.sgn t * (h * 3600 + m * 60 + s))).
Proof.
  intros Hh Hm Hs Ht. destruct (time_fields h m s Hh Hm Hs) as (Eh & Em & Es). rewrite <- Ht in Eh, Em, Es.
  unfold fn_time_to_sec, as_time. change (is_null (time_value t)) with false.
  change (cast_to now TIME (time_value t)) with (Some (time_value t)).
  cbn [fmap option_fmap option_map mbind option_bind]. unfold time_value.
  rewrite int32_written by (unfold is_i; lia).
  assert ((if t <? 0 then - t else t) = Z.abs t) as -> by (destruct (Z.ltb_spec t 0); lia).
  rewrite Eh, Em, Es, (wrap_id 32 (_ + _)) by (unfold is_u; lia). f_equal.
  unfold int32_value, u_write. cbn [type float_precision_len _u bitmap str_val]. do 3 f_equal.
  destruct (Z.ltb_spec t 0).
  - change (8 * Z.of_nat 4) with 32. rewrite Z.sgn_neg, (wrap_id 32 (wrap 32 _)) by (lia || apply wrap_range; lia).
    f_equal.
  - destruct (Z.eq_dec t 0) as [->|]; [|rewrite Z.sgn_pos by lia; f_equal; lia].
    cbn in Ht. f_equal. lia.
Qed.

(** TIME_TO_SEC undoes SEC_TO_TIME for every number of seconds, of either
    sign, whose hours fit the ten bits a TIME has for them. *)
Theorem sec_to_time_reads_back `{Zone} now n :
  Z.abs n < 1024 * 3600 ->
  exists t, fn_sec_to_time now [int32_value n] = Some (time_value t)
    /\ fn_time_to_sec now [time_value t] = Some (int32_value n).
Proof.
  intros Hn. set (a := Z.abs n) in *.
  assert (0 <= a / 3600 < 2 ^ 10 /\ 0 <= (a - a / 3600 * 3600) / 60 < 64 /\ 0 <= a mod 60 < 64
          /\ a / 3600 * 3600 + (a - a / 3600 * 3600) / 60 * 60 + a mod 60 = a) as (Hh & Hm & Hs & Sum)
    by div_lia.
  pose proof (sec_to_time_pack _ _ _ Hh Hm Hs) as P.
  set (t := a / 3600 * 2 ^ 12 + (a - a / 3600 * 3600) / 60 * 2 ^ 6 + a mod 60) in *.
  exists (Z.sgn n * t). split.
  - unfold fn_sec_to_time. change (is_null (int32_value n)) with false.
    change (type_eqb (type (int32_value n)) STRING) with false. cbn [mbind option_bind].
    unfold int32_value. rewrite int32_written by (unfold is_i; lia).
    assert ((if n <? 0 then - n else n) = a) as -> by (subst a; destruct (Z.ltb_spec n 0); lia).
    rewrite (int_expr_ok a) by (unfold is_i; lia). cbn [mbind option_bind]. rewrite Z.quot_div_nonneg, Z.rem_mod_nonneg by lia.
    rewrite (wrap_id 32 (a - _)) by (unfold is_u; div_lia). rewrite P.
    assert ((if n <? 0 then - t else t) = Z.sgn n * t) as ->.
    { destruct (Z.ltb_spec n 0); [rewrite Z.sgn_neg by lia; lia|].
      destruct (Z.eq_dec n 0) as [->|]; [|rewrite Z.sgn_pos by lia; lia]. by subst t a. }
    rewrite int_expr_ok; [done|]. unfold is_i. subst t. nia.
  - destruct (Z.eq_dec n 0) as [->|Hnz]; [subst t a; by rewrite (time_to_sec_spec now _ 0 0 0)|].
    assert (0 < t) by (subst t; lia).
    rewrite (time_to_sec_spec now _ _ _ _ Hh Hm Hs).
    + rewrite Z.sgn_mul, (Z.sgn_pos t), Z.mul_1_r, Sum by lia. subst a. do 2 f_equal.
      destruct (Z.sgn_spec n) as [[? ->]|[[? ->]|[? ->]]]; lia.
    + rewrite Z.abs_mul, (Z.abs_eq t) by lia. destruct (Z.sgn_spec n) as [[_ ->]|[[? _]|[_ ->]]]; lia.
Qed.

(** The DATE of a day, and the instant it starts at in a zone with a fixed offset. *)
Definition date_of (y m d : Z) : ExprValue := date_value (datetime_to_date (packed_date y m d)).

Lemma packed_date_sum y m d :
  0 <= y <= 9999 -> valid_date y m d -> packed_date y m d = ((13 * y + m) * 32 + d) * 2 ^ 41.
Proof.
  intros Hy Hv. unfold packed_date. rewrite pack_datetime_sum by by apply valid_fields. lia.
Qed.

Lemma date_of_datetime y m d :
  0 <= y <= 9999 -> valid_date y m d ->
  is_u 32 (datetime_to_date (packed_date y m d))
  /\ date_to_datetime (datetime_to_date (packed_date y m d)) = packed_date y m d.
Proof.
  intros Hy Hv. destruct (valid_fields y m d Hy Hv) as (? & ? & ? & ? & _).
  rewrite packed_date_sum by done. unfold datetime_to_date. rewrite (field_spec _ 41 22) by done.
  rewrite Z.div_mul by lia. rewrite Z.mod_small by lia. split; [unfold is_u; lia|].
  unfold date_to_datetime. by rewrite shiftl_u64 by lia.
Qed.

Lemma date_timestamp offset y m d :
  0 <= y <= 9999 -> valid_date y m d -> 0 < 86400 * days_from_civil y m d - offset ->
  @datetime_to_timestamp (fixed_zone offset) (packed_date y m d) = 86400 * days_from_civil y m d - offset.
Proof.
  intros Hy Hv Hpos. pose proof (valid_fields y m d Hy Hv) as F.
  destruct (packed_date_spec y m d Hy Hv) as (_ & E1 & E2 & E3).
  destruct (unpack_fields _ _ _ _ _ _ _ F) as (_ & _ & E4 & E5 & E6 & _). fold (packed_date y m d) in E4, E5, E6.
  pose proof Hv as [Hm Hd]. unfold datetime_to_timestamp. rewrite E1, E2, E3, E4, E5, E6.
  rewrite (proj2 (Z.eqb_neq m 0)), (proj2 (Z.eqb_neq d 0)) by lia.
  rewrite (proj2 (Z.eqb_neq (packed_date y m d) 0)) by (rewrite packed_date_sum by done; lia).
  cbn [mktime fixed_zone]. unfold timegm. cbn [tm_year tm_mon tm_mday tm_hour tm_min tm_sec].
  rewrite (Z.div_small (m - 1)), (Z.mod_small (m - 1)) by lia.
  replace (y - 1900 + 1900 + 0) with y by lia. replace (m - 1 + 1) with m by lia.
  assert (days_from_civil y m 1 + (d - 1) = days_from_civil y m d) as -> by (unfold days_from_civil; lia).
  rewrite (proj2 (Z.leb_gt _ 0)); lia.
Qed.

Lemma as_timestamp_date offset now y m d :
  0 <= y <= 9999 -> valid_date y m d -> 0 < 86400 * days_from_civil y m d - offset < 2 ^ 32 ->
  @as_timestamp _ _ (fixed_zone offset) now (date_of y m d) = Some (86400 * days_from_civil y m d - offset).
Proof.
  intros Hy Hv Hr. destruct (date_of_datetime y m d Hy Hv) as [U E].
  destruct (packed_date_spec y m d Hy Hv) as (U64 & _).
  unfold as_timestamp, cast_to.
  change (is_null (date_of y m d) || is_maxvalue (date_of y m d) || type_eqb (type (date_of y m d)) TIMESTAMP) with false.
  change (is_numberic (date_of y m d)) with false. cbn [negb]. unfold to_datetime, cast_datetime.
  change (type_eqb (type (date_of y m d)) DATETIME) with false. change (type (date_of y m d)) with DATE.
  cbn [mbind option_bind fmap option_fmap option_map]. unfold uint32_val, uint64_val.
  rewrite !u_read_set_type, !u_read_write. unfold date_of at 1, date_value. rewrite u_read_write.
  change (8 * Z.of_nat 4) with 32. change (8 * Z.of_nat 8) with 64.
  rewrite (wrap_id 32 (datetime_to_date _)), E, (wrap_id 64) by done.
  rewrite date_timestamp by (done || lia). rewrite wrap_id; [done|unfold is_u; lia].
Qed.

(** In a zone with a fixed offset, DATEDIFF of two dates whose instants fit
    a TIMESTAMP is the number of days between them in the calendar. *)
Theorem datediff_days offset now y m d y' m' d' :
  0 <= y <= 9999 -> valid_date y m d -> 0 < 86400 * days_from_civil y m d - offset < 2 ^ 32 ->
  0 <= y' <= 9999 -> valid_date y' m' d' -> 0 < 86400 * days_from_civil y' m' d' - offset < 2 ^ 32 ->
  @fn_datediff _ _ (fixed_zone offset) now [date_of y m d; date_of y' m' d'] =
  Some (int32_value (days_from_civil y m d - days_from_civil y' m' d')).
Proof.
  intros Hy Hv Hr Hy' Hv' Hr'. unfold fn_datediff. change (has_null [_; _]) with false.
  change (type_eqb (type (date_of y m d)) INT64) with false.
  change (type_eqb (type (date_of y' m' d')) INT64) with false. cbn [mbind option_bind].
  change (cast_to now DATE (date_of ?a ?b ?c)) with (Some (date_of a b c)). cbn [mbind option_bind].
  rewrite !as_timestamp_date by done. cbn [mbind option_bind]. do 2 f_equal.
  replace (_ - _ - (_ - _)) with ((days_from_civil y m d - days_from_civil y' m' d') * (3600 * 24)) by lia.
  by rewrite Z.quot_mul.
Qed.

(** PERIOD_DIFF gives 0 for all its arguments, since it takes the first
    argument for both operands. *)
Theorem period_diff_zero `{Zone} now a b v :
  is_null a = false -> is_null b = false -> cast_to now INT64 a = Some v ->
  fn_period_diff now [a; b] = Some (int32_value 0).
Proof.
  intros Ha Hb Hc. unfold fn_period_diff, has_null. cbn [existsb orb]. rewrite Ha, Hb, Hc.
  cbn [mbind option_bind]. by rewrite Z.sub_diag.
Qed.

End Theorems.
