(* ===== verification/FnExamples.v ===== *)
(** * Instances of the theorems on SQL functions, and what they do at the edges *)

From stdpp Require Import list.
From S2P Require Import Prelude Stdio FloatArith FloatText Calendar DateTime DateTimeFacts ExprValue ExprValueFacts StringFn StringFnFacts TextFn TextFnFacts DateFn DateFnFacts.

#[local] Instance machine : Host := le_host.
#[local] Instance bitmaps : RoaringLib := no_bitmaps.
#[local] Instance beijing : Zone := fixed_zone 28800.

Definition str (s : string) : ExprValue := string_value (bytes_of_string s).

(** Dates as the documentation describes them: from 1400 to 9999 and valid. *)
Definition date_ok (y m d : Z) : bool :=
  (1400 <=? y) && (y <=? 9999) && (1 <=? m) && (m <=? 12) && (1 <=? d) && (d <=? month_days y m).

(** The week by ISO 8601: the week of the year its Thursday lies in. *)
Definition iso_week (y m d : Z) : Z :=
  let n := days_from_civil y m d in
  let thursday := n - (n + 3) mod 7 + 3 in
  let '(ty, _, _) := civil_from_days thursday in
  (thursday - days_from_civil ty 1 1) / 7 + 1.

#[local] Instance civil_dates : Gregorian := {|
  greg_date := Z * Z * Z;
  greg_make y m d := if date_ok y m d then Some (y, m, d) else None;
  greg_day_of_week g := let '(y, m, d) := g in (days_from_civil y m d + 4) mod 7;
  greg_day_of_year g := let '(y, m, d) := g in days_from_civil y m d - days_from_civil y 1 1 + 1;
  greg_week_number g := let '(y, m, d) := g in iso_week y m d
|}.

#[local] Instance civil_dates_laws : GregorianLaws.
Proof.
  constructor. intros y m d Hy [Hm Hd]. exists (y, m, d). split; [|done].
  cbn. unfold date_ok.
  by rewrite !(proj2 (Z.leb_le _ _)) by lia.
Qed.

(** Splitting at one character, by the reference. *)
#[local] Instance plain_split : BoostSplit := fun s seps => split seps s.

Lemma split_clean c s t : t ∈ split [c] s -> c ∉ t.
Proof.
  revert t. induction s as [|x s IH]; intros t Ht.
  - apply list_elem_of_singleton in Ht as ->. apply not_elem_of_nil.
  - destruct (decide (take (length [c]) (x :: s) = [c])) as [E|E].
    + unfold split in Ht. cbn [split_go] in Ht. rewrite decide_True in Ht by done.
      apply elem_of_cons in Ht as [->|Ht]; [apply not_elem_of_nil|by apply IH].
    + destruct (split_cons_miss [c] x s E) as (y & l & E1 & E2). rewrite E2 in Ht.
      apply elem_of_cons in Ht as [->|Ht]; [|apply IH; rewrite E1; by right].
      rewrite not_elem_of_cons. split; [intros <-; by apply E|]. apply IH. rewrite E1. by left.
Qed.

#[local] Instance plain_split_laws : BoostSplitLaws.
Proof.
  constructor; [intros s c; by apply join_split|intros s c t; apply split_clean].
Qed.

(** ** Instances *)

Lemma replace_splits_witness :
  fn_replace [str "a.b.c"; str "."; str "<.>"] = Some (str "a<.>b<.>c").
Proof. rewrite (replace_splits (str "a.b.c") (str ".") (str "<.>")); done. Defined.

Lemma split_part_piece_witness :
  fn_split_part [str "a--b--c"; str "--"; int32_value 2] = Some (str "b").
Proof.
  rewrite (split_part_piece (str "a--b--c") (str "--") (int32_value 2)
             (bytes_of_string "a--b--c") (bytes_of_string "--") 2); done.
Defined.

Lemma substring_index_pieces_witness :
  fn_substring_index [str "www.baikal.db"; str "."; int32_value (-2)] = Some (str "baikal.db").
Proof.
  rewrite (substring_index_pieces (str "www.baikal.db") (str ".") (int32_value (-2))
             (bytes_of_string "www.baikal.db") (bytes_of_string ".") (-2)); done.
Defined.

Lemma pad_exact_witness :
  fn_lpad [str "hi"; int32_value 7; str "abc"] = Some (str "abcabhi").
Proof.
  destruct (pad_exact (str "hi") (int32_value 7) (str "abc")
             (bytes_of_string "hi") (bytes_of_string "abc") 7) as (E & _); [done..|lia|].
  rewrite E. reflexivity.
Defined.

Lemma hex_reads_back_witness :
  exists h, fn_hex 0 [str "db"] = Some (string_value h) /\ length h = 4%nat
    /\ fn_unhex 0 [string_value h] = Some (str "db").
Proof.
  apply (hex_reads_back 0 (str "db") (bytes_of_string "db")); [done..|]. change (bytes_ok [100; 98]).
  repeat (apply Forall_cons; split; [unfold is_u; lia|]); constructor.
Defined.

Lemma quote_reads_back_witness :
  exists q, fn_quote 0 [str "it's"] = Some (string_value q) /\ unquote q = Some (bytes_of_string "it's").
Proof. apply (quote_reads_back 0 (str "it's") (bytes_of_string "it's")); done. Defined.

(** A text of one character of three bytes has the length 0. *)
Lemma char_length_counts_witness :
  fn_char_length 0 [string_value [0xE4; 0xB8; 0xAD]] = Some (int32_value 0).
Proof.
  rewrite (char_length_counts 0 (string_value [0xE4; 0xB8; 0xAD]) [0xE4; 0xB8; 0xAD]); [done..|].
  repeat (apply Forall_cons; split; [unfold is_u; lia|]); constructor.
Defined.

Lemma bin_bit_count_witness :
  exists t, fn_bin 0 [int64_value 10] = Some (string_value t)
    /\ Forall (fun c => c = 48 \/ c = 49) t /\ binary_value t = 10
    /\ fn_bit_count 0 [int64_value 10] = Some (int64_value (ones t)).
Proof. apply (bin_bit_count 0 10). unfold is_i. lia. Defined.

Lemma find_in_set_position_witness :
  exists l i, join [44] l = bytes_of_string "a,b" /\ (forall x, x ∈ l -> 44 ∉ x)
    /\ fn_find_in_set 0 [str "b"; str "a,b"] = Some (int64_value i)
    /\ ((i = 0 /\ bytes_of_string "b" ∉ l)
        \/ (0 < i /\ l !! Z.to_nat (i - 1) = Some (bytes_of_string "b")
            /\ forall j, (j < Z.to_nat (i - 1))%nat -> l !! j <> Some (bytes_of_string "b"))).
Proof. apply (find_in_set_position 0 (str "b") (str "a,b")); done. Defined.

Lemma week_counts_sundays_witness :
  fn_week 0 [datetime_value (packed_date 2024 3 10)] = Some (uint32_value 10).
Proof.
  rewrite (week_counts_sundays 0 2024 3 10); [vm_compute; reflexivity|lia|].
  split; vm_compute; split; discriminate.
Defined.

Lemma sec_to_time_reads_back_witness :
  exists t, fn_sec_to_time 0 [int32_value (-3661)] = Some (time_value t)
    /\ fn_time_to_sec 0 [time_value t] = Some (int32_value (-3661)).
Proof. apply (sec_to_time_reads_back 0 (-3661)). lia. Defined.

Lemma datediff_days_witness :
  fn_datediff 0 [date_of 2024 3 1; date_of 2024 2 28] = Some (int32_value 2).
Proof.
  rewrite (datediff_days 28800 0 2024 3 1 2024 2 28); [reflexivity|..];
    try (vm_compute; repeat split; discriminate); lia.
Defined.

Lemma period_diff_zero_witness :
  fn_period_diff 0 [int64_value 202403; int64_value 202301] = Some (int32_value 0).
Proof. apply (period_diff_zero 0 (int64_value 202403) (int64_value 202301) (int64_value 202403)); done. Defined.

(** ** At the edges *)

(** WEEK in mode 3 and WEEKOFYEAR are both the week by ISO 8601; on the last day
    of 2020 they differ, because the days of the old year's first week decide
    whether the next year's first week has begun. *)
Lemma week_mode3_last_day :
  fn_week 0 [datetime_value (packed_date 2020 12 31); int32_value 3] = Some (uint32_value 1)
  /\ fn_weekofyear 0 [datetime_value (packed_date 2020 12 31)] = Some (uint32_value 53).
Proof. split; vm_compute; reflexivity. Qed.

(** The separator of thousands behind the sign. *)
Lemma format_negative : fn_format 0 [int64_value (-123); int32_value 0] = Some (str "-,123").
Proof. vm_compute. reflexivity. Qed.

(** A last character of two bytes is not taken into the code. *)
Lemma soundex_last_character :
  fn_soundex 0 [string_value [0xC3; 0xA9]] = Some (string_value [])
  /\ fn_soundex 0 [string_value [0xC3; 0xA9; 32]] = Some (string_value [0xC3; 0xA9; 48; 48; 48]).
Proof. split; vm_compute; reflexivity. Qed.

(** MINUTE of -01:30:00, whose bits are those of the two's complement. *)
Lemma minute_negative :
  fn_minute 0 [time_value (- (1 * 2 ^ 12 + 30 * 2 ^ 6))] = Some (int32_value 34).
Proof. vm_compute. reflexivity. Qed.

(** TO_DAYS of four o'clock in the afternoon of the first of January 1970, in a
    zone at UTC, is the number of the second of January: the constant has the
    eight hours of UTC+8. *)
Lemma to_days_zone :
  let at_16h := u_write 4 57600 (new_ExprValue TIMESTAMP) in
  @fn_to_days _ _ (fixed_zone 0) 0 [at_16h] = Some (set_type INT64 (u_write 8 719529 at_16h))
  /\ tm_mday (@localtime (fixed_zone 0) 57600) = 1.
Proof. split; vm_compute; reflexivity. Qed.
