(* ===== verification/Sorter.v ===== *)
(** * Sorting rows ([src/runtime/sorter.cpp], [src/runtime/topn_sorter.cpp],
    [src/mem_row/mem_row_compare.cpp], [src/exec/sort_node.cpp])

    Batches of rows, the comparison of ORDER BY, the merge of sorted batches on a
    heap, the heap that keeps the first rows, and the node that calls them.
    [None] marks reads outside a vector. *)

From S2P Require Import Prelude Heap ExprValue.

(** [std::sort]: elements that compare equal come in any order. *)
Class StdSort := std_sort : forall {A : Type}, (A -> A -> bool) -> list A -> list A.

(** ** Batches *)

Section Batch.
Context {Row : Type}.

Record RowBatch := mk_batch {
  rows : list Row;
  row_idx : nat;
  capacity : nat
}.

Definition reset (b : RowBatch) : RowBatch := mk_batch (rows b) 0 (capacity b).
Definition is_full (b : RowBatch) : bool := (capacity b <=? length (rows b))%nat.
Definition is_traverse_over (b : RowBatch) : bool := (length (rows b) <=? row_idx b)%nat.
Definition get_row (b : RowBatch) : option Row := rows b !! row_idx b.
Definition next (b : RowBatch) : RowBatch := mk_batch (rows b) (S (row_idx b)) (capacity b).
Definition move_row (r : Row) (b : RowBatch) : RowBatch :=
  mk_batch (rows b ++ [r]) (row_idx b) (capacity b).

Definition keep_first_rows (num_keep_rows : Z) (b : RowBatch) : RowBatch :=
  if i32 (Z.of_nat (length (rows b))) <=? num_keep_rows then b
  else if num_keep_rows <=? 0 then mk_batch [] (row_idx b) (capacity b)
  else mk_batch (take (Z.to_nat num_keep_rows) (rows b)) (row_idx b) (capacity b).

End Batch.
Arguments RowBatch : clear implicits.

(** ** Comparison of rows *)

Section Compare.
Context `{Host, RoaringLib} {Row : Type}.

(** An expression of ORDER BY, with its two flags. *)
Record OrderExpr := mk_order {
  get_value : Row -> ExprValue;
  is_asc : bool;
  is_null_first : bool
}.

Fixpoint row_compare (order : list OrderExpr) (left right : Row) : Z :=
  match order with
  | [] => 0
  | e :: order =>
      let left_value := get_value e left in
      let right_value := get_value e right in
      if is_null left_value && is_null right_value then row_compare order left right
      else if is_null left_value then if is_null_first e then -1 else 1
      else if is_null right_value then if is_null_first e then 1 else -1
      else
        let comp := compare left_value right_value in
        if negb (comp =? 0) then if is_asc e then comp else - comp
        else row_compare order left right
  end.

(** [need_not_compare()]. *)
Definition no_order (order : list OrderExpr) : bool := (length order =? 0)%nat.

Definition row_less (order : list OrderExpr) (left right : Row) : bool :=
  row_compare order left right <? 0.

End Compare.
Arguments OrderExpr {_} _.

(** ** The merge of batches *)

Section Sorter.
Context {Row : Type} `{StdSort}.

(** [_comp]: the comparison of two rows, and whether there is nothing to compare. *)
Variable comp : Row -> Row -> Z.
Variable need_not_compare : bool.

Definition less (left right : Row) : bool := comp left right <? 0.

Record Sorter := mk_sorter {
  min_heap : list (RowBatch Row);
  sorter_idx : nat
}.

Definition new_sorter : Sorter := mk_sorter [] 0.

Definition add_batch (batch : RowBatch Row) (s : Sorter) : Sorter :=
  mk_sorter (min_heap s ++ [reset batch]) (sorter_idx s).

(** The comparison of the current rows of two batches. *)
Definition less_batch (a b : RowBatch Row) : bool :=
  match get_row a, get_row b with
  | Some x, Some y => less x y
  | _, _ => false
  end.

Definition sort_batch (b : RowBatch Row) : RowBatch Row :=
  mk_batch (std_sort less (rows b)) (row_idx b) (capacity b).

Definition has_row (b : RowBatch Row) : bool := bool_decide (is_Some (get_row b)).

(** [make_heap] reads the current row of every batch. *)
Definition build_heap (h : list (RowBatch Row)) : option (list (RowBatch Row)) :=
  if forallb has_row h then Some (make_heap less_batch h) else None.

Definition sorter_sort (s : Sorter) : option Sorter :=
  if need_not_compare then Some s
  else
    match min_heap s with
    | [] => Some s
    | [b] => Some (mk_sorter [sort_batch b] (sorter_idx s))
    | h => h ← build_heap (sort_batch <$> h); Some (mk_sorter h (sorter_idx s))
    end.

Definition merge_sort (s : Sorter) : option Sorter :=
  if need_not_compare then Some s
  else
    match min_heap s with
    | [] | [_] => Some s
    | h => h ← build_heap h; Some (mk_sorter h (sorter_idx s))
    end.

(** [iter_swap] of the first and the last batch, [pop_back] and [shiftdown(0)]. *)
Definition pop_top (h : list (RowBatch Row)) : list (RowBatch Row) :=
  shiftdown less_batch (take (length h - 1) (swap_at h 0 (length h - 1))) 0.

(** The loop of [get_next]; a round takes a row from the heap. *)
Fixpoint merge_loop (fuel : nat) (h : list (RowBatch Row)) (batch : RowBatch Row) :
    option (list (RowBatch Row) * RowBatch Row * bool) :=
  match fuel with
  | O => None
  | S fuel =>
      if is_full batch then Some (h, batch, false)
      else
        match h with
        | [] => Some (h, batch, true)
        | top :: rest =>
            row ← get_row top;
            let top := next top in
            let h := if is_traverse_over top then pop_top (top :: rest)
                     else shiftdown less_batch (top :: rest) 0 in
            merge_loop fuel h (move_row row batch)
        end
  end.

Definition rows_left (h : list (RowBatch Row)) : nat :=
  sum_list ((fun b => length (rows b) - row_idx b)%nat <$> h).

(** The batch filled and [*eos], which the caller has set to false. *)
Definition sorter_get_next (s : Sorter) (batch : RowBatch Row) : option (Sorter * RowBatch Row * bool) :=
  match min_heap s with
  | [] => Some (s, batch, true)
  | h =>
      if need_not_compare then
        b ← h !! sorter_idx s;
        let eos := (sorter_idx s =? length h - 1)%nat in
        Some (mk_sorter (<[sorter_idx s := mk_batch (rows batch) (row_idx b) (capacity b)]> h) (S (sorter_idx s)),
              mk_batch (rows b) (row_idx batch) (capacity batch), eos)
      else
        '(h, batch, eos) ← merge_loop (2 + rows_left h) h batch;
        Some (mk_sorter h (sorter_idx s), batch, eos)
  end.

(** ** The first rows *)

(** A row and its number. *)
Record TopNHeapItem := mk_item { item_row : Row; item_idx : Z }.

Record TopNSorter := mk_topn {
  mem_row_heap : list TopNHeapItem;
  topn_limit : Z;
  current_count : Z;
  current_idx : Z
}.

Definition new_topn (limit : Z) : TopNSorter := mk_topn [] limit 0 0.

(** The heap has its greatest row at the root. *)
Definition greater_item (a b : TopNHeapItem) : bool := 0 <? comp (item_row a) (item_row b).

(** One row of [add_batch]. *)
Definition topn_add (row : Row) (t : TopNSorter) : option TopNSorter :=
  let idx := current_idx t + 1 in
  let h := mem_row_heap t in
  if current_count t <? topn_limit t then
    let h := h ++ [mk_item row idx] in
    let h := if need_not_compare then h else shiftup greater_item h (length h - 1) in
    Some (mk_topn h (topn_limit t) (current_count t + 1) idx)
  else if need_not_compare then Some (mk_topn h (topn_limit t) (current_count t) idx)
  else
    root ← h !! 0%nat;
    let h := if less row (item_row root) then shiftdown greater_item (<[0%nat := mk_item row idx]> h) 0 else h in
    Some (mk_topn h (topn_limit t) (current_count t) idx).

Fixpoint topn_add_rows (l : list Row) (t : TopNSorter) : option TopNSorter :=
  match l with
  | [] => Some t
  | row :: l => t ← topn_add row t; topn_add_rows l t
  end.

Definition topn_add_batch (batch : RowBatch Row) (t : TopNSorter) : option TopNSorter :=
  topn_add_rows (drop (row_idx batch) (rows batch)) t.

Definition item_less (left right : TopNHeapItem) : bool :=
  let c := comp (item_row left) (item_row right) in
  if c <? 0 then true else (c =? 0) && (item_idx left <? item_idx right).

Definition topn_sort (t : TopNSorter) : TopNSorter :=
  mk_topn (if need_not_compare then mem_row_heap t else std_sort item_less (mem_row_heap t))
    (topn_limit t) (current_count t) 0.

Fixpoint topn_loop (fuel : nat) (t : TopNSorter) (batch : RowBatch Row) :
    option (TopNSorter * RowBatch Row * bool) :=
  match fuel with
  | O => None
  | S fuel =>
      if is_full batch then Some (t, batch, false)
      else if Z.of_nat (length (mem_row_heap t)) <=? current_idx t then Some (t, batch, true)
      else
        item ← mem_row_heap t !! Z.to_nat (current_idx t);
        topn_loop fuel (mk_topn (mem_row_heap t) (topn_limit t) (current_count t) (current_idx t + 1))
          (move_row (item_row item) batch)
  end.

Definition topn_get_next (t : TopNSorter) (batch : RowBatch Row) : option (TopNSorter * RowBatch Row * bool) :=
  topn_loop (2 + length (mem_row_heap t)) t batch.

(** ** The node *)

Inductive AnySorter := Full (s : Sorter) | TopN (t : TopNSorter).

Definition make_sorter (limit : Z) : AnySorter :=
  if limit =? -1 then Full new_sorter else TopN (new_topn limit).

Definition any_add_batch (batch : RowBatch Row) (s : AnySorter) : option AnySorter :=
  match s with
  | Full s => Some (Full (add_batch batch s))
  | TopN t => TopN <$> topn_add_batch batch t
  end.

(** The loop over the batches the child gives, the last of them with [eos]. *)
Fixpoint fill_sorter (child : list (RowBatch Row)) (s : AnySorter) : option AnySorter :=
  match child with
  | [] => Some s
  | batch :: child =>
      if (length (rows batch) =? 0)%nat then Some s
      else s ← any_add_batch batch s; fill_sorter child s
  end.

Definition any_sort (s : AnySorter) : option AnySorter :=
  match s with
  | Full s => Full <$> sorter_sort s
  | TopN t => Some (TopN (topn_sort t))
  end.

Definition any_get_next (s : AnySorter) (batch : RowBatch Row) : option (AnySorter * RowBatch Row * bool) :=
  match s with
  | Full s => '(s, b, eos) ← sorter_get_next s batch; Some (Full s, b, eos)
  | TopN t => '(t, b, eos) ← topn_get_next t batch; Some (TopN t, b, eos)
  end.

Record SortNode := mk_node {
  node_sorter : AnySorter;
  node_limit : Z;
  num_rows_returned : Z
}.

Definition reached_limit (n : SortNode) : bool :=
  negb (node_limit n =? -1) && (node_limit n <=? num_rows_returned n).

(** The rows come from the sorter, not from an index. *)
Definition sort_open (limit : Z) (child : list (RowBatch Row)) : option SortNode :=
  s ← fill_sorter child (make_sorter limit);
  s ← any_sort s;
  Some (mk_node s limit 0).

Definition sort_get_next (n : SortNode) (batch : RowBatch Row) : option (SortNode * RowBatch Row * bool) :=
  if reached_limit n then Some (n, batch, true)
  else
    '(s, batch, eos) ← any_get_next (node_sorter n) batch;
    let size := Z.of_nat (length (rows batch)) in
    let n := mk_node s (node_limit n) (num_rows_returned n + size) in
    if reached_limit n then
      Some (mk_node s (node_limit n) (node_limit n),
            keep_first_rows (i32 (size - (num_rows_returned n - node_limit n))) batch, true)
    else Some (n, batch, eos).

End Sorter.
Arguments Sorter : clear implicits.
Arguments TopNHeapItem : clear implicits.
Arguments TopNSorter : clear implicits.
Arguments AnySorter : clear implicits.
Arguments SortNode : clear implicits.
