(* ===== verification/SorterFacts.v ===== *)
(** * Facts about sorting

    The rows a sort node gives, over all calls, are sorted and are the first ones
    of a permutation of the rows it was given. *)

From Stdlib Require Import Sorted.
From S2P Require Import Prelude Heap ExprValue ExprValueFacts Sorter.

(** What a comparison function has to satisfy: the sign is antisymmetric and "at
    most" is transitive. *)
Class CompOrder {A : Type} (comp : A -> A -> Z) : Prop := {
  comp_flip a b : Z.sgn (comp b a) = - Z.sgn (comp a b);
  comp_le_trans a b c : comp a b <= 0 -> comp b c <= 0 -> comp a c <= 0
}.

(** [std::sort] permutes, and sorts by a strict weak order. *)
Class StdSortLaws `{StdSort} : Prop := {
  std_sort_perm {A} (lt : A -> A -> bool) l : std_sort lt l ≡ₚ l;
  std_sort_sorted {A} (lt : A -> A -> bool) `{!StrictWeak lt} l :
    StronglySorted (fun a b => lt b a = false) (std_sort lt l)
}.

(** ** The order *)

Section Order.
Context {A : Type} (comp : A -> A -> Z) `{!CompOrder comp}.

(** [a] may come before [b]. *)
Definition before (a b : A) : Prop := less comp b a = false.

Lemma before_comp a b : before a b <-> comp a b <= 0.
Proof. unfold before, less. rewrite Z.ltb_ge. pose proof (comp_flip a b). lia. Qed.

Lemma before_trans a b c : before a b -> before b c -> before a c.
Proof. rewrite !before_comp. apply comp_le_trans. Qed.

Lemma before_refl a : before a a.
Proof. apply before_comp. pose proof (comp_flip a a). lia. Qed.

Lemma less_before a b : less comp a b = true -> before a b.
Proof. rewrite before_comp. unfold less. rewrite Z.ltb_lt. lia. Qed.

#[global] Instance less_weak : StrictWeak (less comp).
Proof.
  split; [intros a b H; apply less_before in H; exact H|].
  intros a b c H1 H2. by apply (before_trans a b c).
Qed.

#[global] Instance greater_weak : StrictWeak (greater_item comp).
Proof.
  split; unfold greater_item.
  - intros [a i] [b j]. cbn. rewrite Z.ltb_lt, Z.ltb_ge. pose proof (comp_flip a b). lia.
  - intros [a i] [b j] [c k]. cbn. rewrite !Z.ltb_ge. intros. by apply (comp_le_trans c b a).
Qed.

#[global] Instance item_less_weak : StrictWeak (item_less comp).
Proof.
  split; unfold item_less.
  - intros [a i] [b j]. cbn. pose proof (comp_flip a b).
    destruct (Z.ltb_spec (comp a b) 0), (Z.ltb_spec (comp b a) 0), (Z.eqb_spec (comp a b) 0),
      (Z.eqb_spec (comp b a) 0), (Z.ltb_spec i j), (Z.ltb_spec j i); cbn; try done; lia.
  - intros [a i] [b j] [c k]. cbn. intros H1 H2.
    pose proof (comp_flip a b). pose proof (comp_flip b c). pose proof (comp_flip a c).
    destruct (Z.ltb_spec (comp b a) 0); [done|]. destruct (Z.ltb_spec (comp c b) 0); [done|].
    assert (comp a c <= 0) by (apply (comp_le_trans a b c); lia).
    destruct (Z.ltb_spec (comp c a) 0); [lia|].
    destruct (Z.eqb_spec (comp c a) 0); [|done]. cbn.
    assert (comp b a <= 0) by (apply (comp_le_trans b c a); lia).
    assert (comp c b <= 0) by (apply (comp_le_trans c a b); lia).
    destruct (Z.eqb_spec (comp b a) 0); [|lia]. destruct (Z.eqb_spec (comp c b) 0); [|lia].
    cbn in *. apply Z.ltb_ge in H1, H2. apply Z.ltb_ge. lia.
Qed.

Lemma items_sorted l :
  StronglySorted (fun a b => item_less comp b a = false) l -> StronglySorted before (item_row <$> l).
Proof.
  induction 1 as [|a l _ IH Ha]; [constructor|]. constructor; [done|].
  apply Forall_fmap. eapply Forall_impl; [exact Ha|]. intros b Hb. unfold before, less. cbn.
  unfold item_less in Hb. by destruct (comp (item_row b) (item_row a) <? 0).
Qed.

End Order.

(** ** Batches on the heap *)

Section Merge.
Context {Row : Type} (comp : Row -> Row -> Z) `{!CompOrder comp}.
Implicit Types (h : list (RowBatch Row)) (b : RowBatch Row).

Definition left_rows b : list Row := drop (row_idx b) (rows b).
Definition pending h : list Row := mjoin (left_rows <$> h).

(** The comparison of batches on options, where a batch without a row is least. *)
Definition less_opt (a b : option Row) : bool :=
  match a, b with
  | Some x, Some y => less comp x y
  | None, Some _ => true
  | _, None => false
  end.
Definition lessb (a b : RowBatch Row) : bool := less_opt (get_row a) (get_row b).

#[global] Instance lessb_weak : StrictWeak lessb.
Proof.
  split; unfold lessb.
  - intros a b. destruct (get_row a), (get_row b); cbn; try done. apply less_asym.
  - intros a b c. destruct (get_row a), (get_row b), (get_row c); cbn; try done. apply less_negtrans.
Qed.

Definition with_row b : Prop := is_Some (get_row b).

Lemma less_batch_opt a b : with_row a -> with_row b -> less_batch comp a b = lessb a b.
Proof. intros [x Ha] [y Hb]. unfold less_batch, lessb. by rewrite Ha, Hb. Qed.

Lemma shiftdown_batches h i :
  Forall with_row h -> shiftdown (less_batch comp) h i = shiftdown lessb h i.
Proof.
  intros H. pose proof (shiftdown_image id _ lessb with_row less_batch_opt h i H) as E.
  by rewrite !list_fmap_id in E.
Qed.

Lemma make_heap_batches h : Forall with_row h -> make_heap (less_batch comp) h = make_heap lessb h.
Proof.
  intros H. pose proof (make_heap_image id _ lessb with_row less_batch_opt h H) as E.
  by rewrite !list_fmap_id in E.
Qed.

Lemma pending_app h h' : pending (h ++ h') = pending h ++ pending h'.
Proof.
  induction h as [|b h IH]; [done|].
  change (left_rows b ++ pending (h ++ h') = (left_rows b ++ pending h) ++ pending h'). by rewrite IH, app_assoc.
Qed.

Lemma pending_perm h h' : h ≡ₚ h' -> pending h ≡ₚ pending h'.
Proof. intros E. unfold pending. by rewrite E. Qed.

Lemma left_row b r : get_row b = Some r -> left_rows b = r :: left_rows (next b).
Proof. intros H. unfold left_rows, next. cbn. by apply drop_S. Qed.

Lemma over_left b : is_traverse_over b = true -> left_rows b = [].
Proof. intros H. apply Nat.leb_le in H. by apply drop_ge. Qed.

Lemma not_over b : is_traverse_over b = false -> with_row b.
Proof. intros H. apply Nat.leb_gt in H. by apply lookup_lt_is_Some. Qed.

(** A heap ready to be merged. *)
Definition ready h : Prop :=
  heap_from lessb 0 h /\ Forall with_row h /\ Forall (fun b => StronglySorted (before comp) (left_rows b)) h.

(** The current row of the first batch may come before all others. *)
Lemma top_first top rest r :
  ready (top :: rest) -> get_row top = Some r ->
  Forall (before comp r) (left_rows (next top) ++ pending rest).
Proof.
  intros (Hh & Hw & Hs) Hr. apply Forall_app. apply Forall_cons in Hs as [Hs1 Hs].
  rewrite (left_row top r Hr) in Hs1. apply StronglySorted_inv in Hs1 as [_ Hs1]. split; [done|].
  apply Forall_forall. intros x Hx. unfold pending in Hx.
  apply list_elem_of_join in Hx as (l & Hx & Hl). apply list_elem_of_fmap in Hl as (b & -> & Hb).
  assert (lessb b top = false) as Hle.
  { apply (heap_root lessb (top :: rest)); [done..|by right]. }
  rewrite Forall_forall in Hs, Hw. destruct (Hw b ltac:(by right)) as [y Hy].
  unfold lessb in Hle. rewrite Hy, Hr in Hle. cbn in Hle. specialize (Hs b Hb).
  rewrite (left_row b y Hy) in Hs, Hx. apply StronglySorted_inv in Hs as [_ Hs].
  apply elem_of_cons in Hx as [->|Hx]; [done|].
  apply (before_trans comp r y x); [done|]. by rewrite Forall_forall in Hs; apply Hs.
Qed.

Lemma ready_perm_ok h h' :
  h ≡ₚ h' -> Forall with_row h /\ Forall (fun b => StronglySorted (before comp) (left_rows b)) h ->
  Forall with_row h' /\ Forall (fun b => StronglySorted (before comp) (left_rows b)) h'.
Proof. intros E [H1 H2]. by rewrite <- !E. Qed.

(** Replacing the root leaves the heap below it. *)
Lemma heap_replace_root a b t :
  heap_from lessb 0 (a :: t) -> heap_except lessb 0 0 (b :: t).
Proof.
  intros H. split.
  - intros i j _ Hi Hc. pose proof (child_lt _ _ Hc). specialize (H i j (Nat.le_0_l i) Hc).
    unfold ok_at in *. rewrite <- H. apply less_at_ext; destruct i, j; done || lia.
  - intros i j _ Hc. pose proof (child_lt _ _ Hc). lia.
Qed.

(** Dropping the last batches keeps the heap. *)
Lemma heap_take n h : heap_from lessb 0 h -> heap_from lessb 0 (take n h).
Proof.
  intros H i j Hi Hc. pose proof (child_lt _ _ Hc). specialize (H i j Hi Hc). unfold ok_at, less_at in *.
  destruct (decide (j < n)%nat); [by rewrite !lookup_take_lt by lia|].
  by rewrite (lookup_take_ge h n j) by lia.
Qed.

Lemma pop_top_last top t last :
  pop_top comp (top :: t ++ [last]) = shiftdown (less_batch comp) (last :: t) 0
  /\ pop_top comp [top] = [].
Proof.
  split; [|done]. unfold pop_top. f_equal.
  rewrite length_cons, length_app. cbn [length].
  replace (S (length t + 1) - 1)%nat with (S (length t)) by lia.
  assert ((top :: t ++ [last]) !! S (length t) = Some last) as E
    by (apply (list_lookup_middle (top :: t) [] last); done).
  unfold swap_at. rewrite E. change ((top :: t ++ [last]) !! 0%nat) with (Some top). cbn iota.
  change (<[S (length t) := top]> (top :: t ++ [last])) with (top :: <[length t := top]> (t ++ [last])).
  rewrite insert_app_r_alt, Nat.sub_diag by lia. cbn. f_equal. by rewrite take_app_length.
Qed.

(** One round: the row taken may come first, and the heap is ready again. *)
Lemma merge_round top rest r :
  ready (top :: rest) -> get_row top = Some r ->
  let h' := if is_traverse_over (next top) then pop_top comp (next top :: rest)
            else shiftdown (less_batch comp) (next top :: rest) 0 in
  ready h' /\ pending (top :: rest) ≡ₚ r :: pending h' /\ Forall (before comp r) (pending h').
Proof.
  intros Hr Hrow. pose proof (top_first top rest r Hr Hrow) as Hf.
  destruct Hr as (Hh & Hw & Hs). apply Forall_cons in Hw as [Hw1 Hw]. apply Forall_cons in Hs as [Hs1 Hs].
  assert (pending (top :: rest) = r :: left_rows (next top) ++ pending rest) as ->
    by (unfold pending; cbn; by rewrite (left_row top r Hrow)).
  rewrite (left_row top r Hrow) in Hs1. apply StronglySorted_inv in Hs1 as [Hs1 _]. cbv zeta.
  assert (forall h1 a, heap_from lessb 0 (a :: h1) -> forall b,
    Forall with_row (b :: h1) /\ Forall (fun b => StronglySorted (before comp) (left_rows b)) (b :: h1) ->
    left_rows b ++ pending h1 ≡ₚ left_rows (next top) ++ pending rest ->
    ready (shiftdown (less_batch comp) (b :: h1) 0)
    /\ r :: left_rows (next top) ++ pending rest ≡ₚ r :: pending (shiftdown (less_batch comp) (b :: h1) 0)
    /\ Forall (before comp r) (pending (shiftdown (less_batch comp) (b :: h1) 0))) as Step.
  { intros h1 a Ha b Hb Hp. rewrite shiftdown_batches by apply Hb.
    pose proof (shiftdown_perm lessb (b :: h1) 0) as P. pose proof (pending_perm _ _ P) as P'.
    unfold pending in P' at 2. cbn in P'. fold (pending h1) in P'. rewrite Hp in P'.
    split; [|split; [by rewrite P'|by rewrite P']].
    split; [apply (shiftdown_heap lessb 0 (b :: h1) 0); [lia|by eapply heap_replace_root]|]. by apply (ready_perm_ok (b :: h1)). }
  destruct (is_traverse_over (next top)) eqn:O.
  2:{ apply (Step rest top); [done| |done]. rewrite !Forall_cons. by pose proof (not_over _ O). }
  rewrite (over_left _ O) in *. cbn [app] in *.
  destruct rest as [|last rest _] using rev_ind.
  { destruct (pop_top_last (next top) [] top) as [_ ->]. split; [|done].
    split; [|by split]. intros i j _ _. done. }
  destruct (pop_top_last (next top) rest last) as [-> _].
  rewrite !Forall_app in *. destruct Hw as [Hw Hwl], Hs as [Hs Hsl].
  apply (Step rest top).
  - pose proof (heap_take (S (length rest)) _ Hh) as T. cbn in T. by rewrite take_app_length in T.
  - rewrite Forall_singleton in Hwl, Hsl. rewrite !Forall_cons. done.
  - rewrite pending_app. unfold pending at 3. cbn. rewrite app_nil_r. apply Permutation_app_comm.
Qed.

Lemma rows_left_pending h : rows_left h = length (pending h).
Proof.
  unfold rows_left. induction h as [|b h IH]; [done|].
  change (pending (b :: h)) with (left_rows b ++ pending h). rewrite length_app, <- IH.
  unfold left_rows. by rewrite length_drop.
Qed.

Lemma sorted_app (l l' : list Row) :
  StronglySorted (before comp) l -> StronglySorted (before comp) l' ->
  (forall x y, x ∈ l -> y ∈ l' -> before comp x y) -> StronglySorted (before comp) (l ++ l').
Proof.
  intros Hl Hl' H. induction Hl as [|a l _ IH Ha]; [done|]. cbn. constructor.
  - apply IH. intros x y Hx. apply H. by right.
  - apply Forall_app. split; [done|]. apply Forall_forall. intros y Hy. apply H; [by left|done].
Qed.

(** The loop gives the next rows in order and ends with a full batch or an empty heap. *)
Lemma heap_merge_spec fuel h batch :
  ready h -> (length (pending h) < fuel)%nat -> (length (rows batch) <= capacity batch)%nat ->
  exists h' l eos,
    merge_loop comp fuel h batch = Some (h', mk_batch (rows batch ++ l) (row_idx batch) (capacity batch), eos)
    /\ ready h' /\ pending h ≡ₚ l ++ pending h'
    /\ StronglySorted (before comp) l /\ (forall x y, x ∈ l -> y ∈ pending h' -> before comp x y)
    /\ (length (rows batch ++ l) <= capacity batch)%nat
    /\ (if eos : bool then pending h' = [] else length (rows batch ++ l) = capacity batch).
Proof.
  revert h batch. induction fuel as [|fuel IH]; intros h batch Hr Hf Hc; [lia|]. cbn [merge_loop].
  unfold is_full at 1. destruct (Nat.leb_spec (capacity batch) (length (rows batch))) as [F|F].
  { exists h, [], false. rewrite app_nil_r. destruct batch as [rs i c]. cbn in *.
    split_and!; [done|done|done|constructor|intros x y Hx; by apply not_elem_of_nil in Hx|lia|lia]. }
  destruct h as [|top rest].
  { exists [], [], true. rewrite app_nil_r. destruct batch as [rs i c].
    split_and!; [done|done|done|constructor|intros x y Hx; by apply not_elem_of_nil in Hx|done|done]. }
  pose proof Hr as (_ & Hw & _). apply Forall_cons in Hw as [[r Hrow] _]. rewrite Hrow. cbn [mbind option_bind].
  destruct (merge_round top rest r Hr Hrow) as (Hr' & Hp & Hb). cbv zeta in Hr', Hp, Hb.
  set (h1 := if is_traverse_over (next top) then _ else _) in *.
  destruct (IH h1 (move_row r batch) Hr') as (h' & l & eos & E & R & P & S & B & C & T).
  { rewrite Hp in Hf. cbn in Hf. lia. }
  { cbn. rewrite length_app. cbn. lia. }
  exists h', (r :: l), eos. cbn in E, C, T. rewrite <- app_assoc in E, C, T. cbn in E, C, T.
  rewrite P in Hb. apply Forall_app in Hb as [Hb1 Hb2].
  split_and!; [exact E|exact R|by rewrite Hp, P|by constructor| |exact C|exact T].
  intros x y Hx Hy. apply elem_of_cons in Hx as [->|Hx]; [|by apply B].
  rewrite Forall_forall in Hb2. by apply Hb2.
Qed.

(** The heap made of sorted batches is ready. *)
Lemma merge_sort_ready h :
  Forall with_row h -> Forall (fun b => StronglySorted (before comp) (left_rows b)) h ->
  exists h', merge_sort comp false (mk_sorter h 0) = Some (mk_sorter h' 0)
    /\ ready h' /\ pending h' ≡ₚ pending h.
Proof.
  intros W S. unfold merge_sort. cbn [min_heap sorter_idx].
  destruct h as [|b [|b2 h]].
  - exists []. split_and!; [done| |done]. split; [|done]. intros i j _ _. done.
  - exists [b]. split_and!; [done| |done]. split; [|done].
    intros i j _ Hc. pose proof (child_lt _ _ Hc). unfold ok_at, less_at.
    by rewrite (lookup_ge_None_2 _ j) by (cbn; lia).
  - set (hs := b :: b2 :: h) in *.
    assert (forallb has_row hs = true) as F.
    { apply forallb_forall. intros x Hx. apply bool_decide_eq_true. rewrite Forall_forall in W.
      apply W. by apply list_elem_of_In. }
    exists (make_heap (less_batch comp) hs). unfold build_heap. rewrite F. split_and!; [done| |].
    + rewrite make_heap_batches by done. split; [exact (make_heap_heap lessb hs)|].
      apply (ready_perm_ok hs); [symmetry; apply make_heap_perm|done].
    + by rewrite (pending_perm _ _ (make_heap_perm _ _)).
Qed.

End Merge.

(** ** What the calls give *)

Section Calls.
Context {Row : Type} (comp : Row -> Row -> Z) (need_not_compare : bool) (cap : nat).
Implicit Types (s : AnySorter Row) (l : list Row) (h : list (RowBatch Row)).

Definition fresh : RowBatch Row := mk_batch [] 0 cap.

(** The rows of the calls until the end, each with a fresh batch; batches are of a
    size an [int] can hold. *)
Inductive delivers : AnySorter Row -> list Row -> Prop :=
| deliver_last s s' b :
    any_get_next comp need_not_compare s fresh = Some (s', b, true) ->
    Z.of_nat (length (rows b)) < 2 ^ 31 -> delivers s (rows b)
| deliver_more s s' b l :
    any_get_next comp need_not_compare s fresh = Some (s', b, false) ->
    Z.of_nat (length (rows b)) < 2 ^ 31 -> rows b <> [] -> delivers s' l -> delivers s (rows b ++ l).

(** The caller of the node: calls until the end. *)
Fixpoint run (fuel : nat) (n : SortNode Row) : option (list Row) :=
  match fuel with
  | O => None
  | S fuel =>
      '(n, b, eos) ← sort_get_next comp need_not_compare n fresh;
      if eos : bool then Some (rows b) else l ← run fuel n; Some (rows b ++ l)
  end.

(** The rows up to the limit. *)
Definition up_to (limit returned : Z) l : list Row :=
  if limit =? -1 then l else take (Z.to_nat (limit - returned)) l.

Lemma keep_first_limit limit returned (b : RowBatch Row) :
  0 <= returned < limit -> Z.of_nat (length (rows b)) < 2 ^ 31 ->
  limit <= returned + Z.of_nat (length (rows b)) ->
  rows (keep_first_rows (i32 (Z.of_nat (length (rows b)) - (returned + Z.of_nat (length (rows b)) - limit))) b)
  = take (Z.to_nat (limit - returned)) (rows b).
Proof.
  intros Hr Hb Hl. replace (_ - (_ - limit)) with (limit - returned) by lia.
  unfold keep_first_rows. rewrite !swrap_id by (unfold is_i; lia).
  destruct (Z.leb_spec (Z.of_nat (length (rows b))) (limit - returned)); [by rewrite take_ge by lia|].
  by rewrite (proj2 (Z.leb_gt _ 0)) by lia.
Qed.

(** One call of a node that has not reached its limit. *)
Lemma node_call s s' b eos limit returned :
  any_get_next comp need_not_compare s fresh = Some (s', b, eos) ->
  Z.of_nat (length (rows b)) < 2 ^ 31 -> limit = -1 \/ 0 <= returned < limit ->
  if negb (limit =? -1) && (limit <=? returned + Z.of_nat (length (rows b))) then
    exists n' b', sort_get_next comp need_not_compare (mk_node s limit returned) fresh = Some (n', b', true)
      /\ rows b' = up_to limit returned (rows b)
  else sort_get_next comp need_not_compare (mk_node s limit returned) fresh =
       Some (mk_node s' limit (returned + Z.of_nat (length (rows b))), b, eos).
Proof.
  intros E Hb HL.
  assert (negb (limit =? -1) && (limit <=? returned) = false) as N.
  { destruct HL as [->|HL]; [done|]. rewrite (proj2 (Z.leb_gt limit returned)) by lia. apply andb_false_r. }
  unfold sort_get_next, reached_limit. cbn [node_limit num_rows_returned node_sorter]. rewrite N, E.
  cbn [mbind option_bind].
  destruct (negb (limit =? -1) && (limit <=? returned + Z.of_nat (length (rows b)))) eqn:L; [|done].
  apply andb_prop in L as [L1 L2]. apply negb_true_iff in L1. apply Z.leb_le in L2.
  destruct HL as [->|HL]; [done|]. eexists _, _. split; [reflexivity|].
  unfold up_to. rewrite L1. by apply keep_first_limit.
Qed.

Lemma run_delivers s l limit returned fuel :
  delivers s l -> limit = -1 \/ 0 <= returned < limit -> (length l < fuel)%nat ->
  run fuel (mk_node s limit returned) = Some (up_to limit returned l).
Proof.
  intros D. revert returned fuel.
  induction D as [s s' b E Hb|s s' b l E Hb Hne D IH]; intros returned [|fuel] HL Hf; try lia; cbn [run];
    pose proof (node_call s s' b _ limit returned E Hb HL) as C; unfold up_to in *;
    destruct (negb (limit =? -1) && (limit <=? returned + Z.of_nat (length (rows b)))) eqn:L.
  - destruct C as (n' & b' & -> & R). cbn. by rewrite R.
  - rewrite C. cbn. f_equal. destruct (Z.eqb_spec limit (-1)); [done|]. cbn in L. apply Z.leb_gt in L.
    by rewrite take_ge by lia.
  - destruct C as (n' & b' & -> & R). cbn. rewrite R. destruct (limit =? -1); [done|]. cbn in L.
    apply Z.leb_le in L. by rewrite take_app_le by lia.
  - assert (0 < length (rows b))%nat by (destruct (rows b); cbn; [done|lia]).
    rewrite length_app in Hf. rewrite C. cbn [mbind option_bind]. rewrite IH; [|destruct HL|]; [|by left| |lia].
    + cbn [mbind option_bind]. f_equal. destruct (limit =? -1) eqn:M; [done|]. cbn in L. apply Z.leb_gt in L.
      rewrite (take_app_ge (rows b)) by lia. do 2 f_equal. lia.
    + destruct (Z.eqb_spec limit (-1)) as [->|]; [by left|]. cbn in L. apply Z.leb_gt in L. right. lia.
Qed.

End Calls.

(** ** The full sort *)

Section Full.
Context {Row : Type} (comp : Row -> Row -> Z) `{!CompOrder comp} `{StdSortLaws}.
Implicit Types (h : list (RowBatch Row)) (b : RowBatch Row).

Lemma sort_batch_ok b :
  row_idx b = 0%nat -> rows b <> [] ->
  with_row (sort_batch comp b) /\ StronglySorted (before comp) (left_rows (sort_batch comp b))
  /\ left_rows (sort_batch comp b) ≡ₚ rows b.
Proof.
  intros Hi Hne. unfold left_rows, with_row, get_row, sort_batch. cbn. rewrite Hi, drop_0.
  pose proof (std_sort_perm (less comp) (rows b)) as P. split_and!; [|exact (std_sort_sorted (less comp) (rows b))|done].
  apply lookup_lt_is_Some. rewrite P. destruct (rows b); cbn; [done|lia].
Qed.

Lemma sorted_batches h :
  Forall (fun b => row_idx b = 0%nat /\ rows b <> []) h ->
  Forall with_row (sort_batch comp <$> h)
  /\ Forall (fun b => StronglySorted (before comp) (left_rows b)) (sort_batch comp <$> h)
  /\ pending (sort_batch comp <$> h) ≡ₚ mjoin (rows <$> h).
Proof.
  induction 1 as [|b h [Hi Hne] _ (IH1 & IH2 & IH3)]; [done|].
  destruct (sort_batch_ok b Hi Hne) as (W & S & P).
  split_and!; [by constructor..|]. cbn. by rewrite P, IH3.
Qed.

Lemma full_sort h :
  Forall (fun b => row_idx b = 0%nat /\ rows b <> []) h ->
  exists h', sorter_sort comp false (mk_sorter h 0) = Some (mk_sorter h' 0)
    /\ ready comp h' /\ pending h' ≡ₚ mjoin (rows <$> h).
Proof.
  intros Hh. destruct (sorted_batches h Hh) as (W & S & P).
  destruct (merge_sort_ready comp (sort_batch comp <$> h) W S) as (h' & E & R & P').
  exists h'. split_and!; [|done|by rewrite P']. by destruct h as [|b [|b2 h]].
Qed.

Context (cap : nat) (Hcap : 0 < Z.of_nat cap < 2 ^ 31).

(** A heap that is ready gives its rows in order. *)
Lemma ready_delivers h i :
  ready comp h ->
  exists l, delivers comp false cap (Full (mk_sorter h i)) l /\ StronglySorted (before comp) l /\ l ≡ₚ pending h.
Proof.
  remember (length (pending h)) as n eqn:Hn. revert h Hn.
  induction n as [n IH] using lt_wf_ind. intros h -> Hr.
  destruct h as [|b h'] eqn:Eh.
  { exists (rows (fresh cap)). split; [|by split; [constructor|]].
    apply (deliver_last _ _ _ _ (Full (mk_sorter [] i))); [done|cbn; lia]. }
  rewrite <- Eh in *. pose proof (rows_left_pending h) as RL.
  destruct (heap_merge_spec comp (2 + rows_left h) h (fresh cap)) as (h2 & l & eos & E & R & P & S & B & C & T);
    [done|lia|cbn; lia|]. cbn [rows fresh app] in *.
  assert (any_get_next comp false (Full (mk_sorter h i)) (fresh cap)
          = Some (Full (mk_sorter h2 i), mk_batch l 0 cap, eos)) as G.
  { unfold any_get_next, sorter_get_next. cbn [min_heap sorter_idx]. rewrite Eh, <- Eh, E. done. }
  cbn in C, T. destruct eos.
  - exists l. rewrite T, app_nil_r in P. split; [|done].
    apply (deliver_last _ _ _ _ _ (mk_batch l 0 cap) G). cbn. lia.
  - assert (l <> []) as Hl by (destruct l; [cbn in T; lia|done]).
    destruct (IH (length (pending h2))) with (h := h2) as (l2 & D & S2 & P2); [|done..|].
    { rewrite P, length_app. destruct l; [done|cbn; lia]. }
    exists (l ++ l2). split_and!.
    + apply (deliver_more _ _ _ _ _ (mk_batch l 0 cap) l2 G); [cbn; lia|done|done].
    + apply sorted_app; [done..|]. intros x y Hx Hy. apply B; [done|]. by rewrite <- P2.
    + by rewrite P2, P.
Qed.

End Full.

(** ** The first rows *)

Section First.
Context {Row : Type} (comp : Row -> Row -> Z) `{!CompOrder comp} `{StdSortLaws}.
Implicit Types (h : list (TopNHeapItem Row)) (t : TopNSorter Row).

(** The heap holds the first rows of those seen: the others need not come before
    any of them, and there are others only when the heap is full. *)
Definition topn_inv t (seen : list Row) : Prop :=
  let h := mem_row_heap t in
  heap_from (greater_item comp) 0 h
  /\ current_count t = Z.of_nat (length h) /\ Z.of_nat (length h) <= topn_limit t
  /\ exists rest, (item_row <$> h) ++ rest ≡ₚ seen
       /\ (forall x y, x ∈ h -> y ∈ rest -> before comp (item_row x) y)
       /\ (rest <> [] -> Z.of_nat (length h) = topn_limit t).

(** The root may come behind all rows of the heap. *)
Lemma root_last h root x :
  heap_from (greater_item comp) 0 h -> h !! 0%nat = Some root -> x ∈ h -> before comp (item_row x) (item_row root).
Proof.
  intros Hh Hr Hx. pose proof (heap_root (greater_item comp) h root x Hh Hr Hx) as G.
  unfold greater_item in G. apply Z.ltb_ge in G. by apply before_comp.
Qed.

Lemma push_heap h x :
  heap_from (greater_item comp) 0 h -> heap_from (greater_item comp) 0 (shiftup (greater_item comp) (h ++ [x]) (length h)).
Proof.
  intros Hh. apply (shiftup_heap (greater_item comp) (h ++ [x])); [rewrite length_app; cbn; lia|]. split.
  - intros i j Hj Hc. pose proof (child_lt _ _ Hc). specialize (Hh i j (Nat.le_0_l i) Hc). unfold ok_at, less_at in *.
    destruct (decide (j < length h)%nat); [by rewrite !lookup_app_l by lia|].
    by rewrite (lookup_ge_None_2 (h ++ [x]) j) by (rewrite length_app; cbn; lia).
  - intros i j _ Hc. pose proof (child_lt _ _ Hc). unfold ok_at, less_at.
    by rewrite (lookup_ge_None_2 (h ++ [x]) j) by (rewrite length_app; cbn; lia).
Qed.

Lemma replace_heap a x h :
  heap_from (greater_item comp) 0 (a :: h) ->
  heap_from (greater_item comp) 0 (shiftdown (greater_item comp) (x :: h) 0).
Proof.
  intros Hh. apply (shiftdown_heap _ 0 (x :: h) 0); [lia|]. split.
  - intros i j _ Hi Hc. pose proof (child_lt _ _ Hc). specialize (Hh i j (Nat.le_0_l i) Hc).
    unfold ok_at in *. rewrite <- Hh. apply less_at_ext; destruct i, j; done || lia.
  - intros i j _ Hc. pose proof (child_lt _ _ Hc). lia.
Qed.

Lemma topn_add_inv t seen row :
  0 < topn_limit t -> topn_inv t seen ->
  exists t', topn_add comp false row t = Some t' /\ topn_limit t' = topn_limit t /\ topn_inv t' (seen ++ [row]).
Proof.
  intros Hl (Hh & Hc & Hle & rest & P & B & F). unfold topn_add. rewrite Hc.
  set (h := mem_row_heap t) in *. set (x := mk_item row (current_idx t + 1)).
  destruct (Z.ltb_spec (Z.of_nat (length h)) (topn_limit t)) as [L|L].
  { eexists. split_and!; [done|done|]. unfold topn_inv. cbn [mem_row_heap topn_limit current_count].
    rewrite length_app, Nat.add_sub. pose proof (shiftup_perm (greater_item comp) (h ++ [x]) (length h)) as Ps.
    assert (rest = []) as -> by (destruct rest; [done|]; specialize (F ltac:(done)); lia).
    split_and!; [by apply push_heap|rewrite Ps, length_app; cbn; lia|rewrite Ps, length_app; cbn; lia|].
    exists []. split_and!; [|intros y z _ Hz; by apply not_elem_of_nil in Hz|done].
    rewrite app_nil_r in *. by rewrite Ps, fmap_app, P. }
  destruct h as [|root h'] eqn:Eh; [cbn in *; lia|]. cbn [lookup list_lookup mbind option_bind].
  assert (forall y, y ∈ root :: h' -> before comp (item_row y) (item_row root)) as Last
    by (intros y Hy; by apply (root_last (root :: h'))).
  destruct (less comp row (item_row root)) eqn:Le.
  - eexists. split_and!; [done|done|]. unfold topn_inv. cbn [mem_row_heap topn_limit current_count].
    change (<[0%nat := x]> (root :: h')) with (x :: h').
    pose proof (shiftdown_perm (greater_item comp) (x :: h') 0) as Ps.
    split_and!; [by eapply replace_heap|by rewrite Ps|by rewrite Ps|].
    exists (item_row root :: rest). split_and!; [|intros y z Hy Hz|rewrite Ps; cbn in *; lia].
    + rewrite Ps, <- P. cbn. rewrite <- Permutation_middle.
      apply (Permutation_cons_append (item_row root :: (item_row <$> h') ++ rest) row).
    + rewrite Ps in Hy. apply elem_of_cons in Hz as [->|Hz], Hy as [->|Hy].
      * by apply less_before.
      * apply Last. by right.
      * apply (before_trans comp _ (item_row root)); [by apply less_before|]. apply B; [by left|done].
      * apply B; [by right|done].
  - eexists. split_and!; [done|done|]. unfold topn_inv. cbn [mem_row_heap topn_limit current_count].
    split_and!; [done..|]. exists (rest ++ [row]). split_and!; [by rewrite app_assoc, P| |intros _; lia].
    intros y z Hy Hz. apply elem_of_app in Hz as [Hz|Hz]; [by apply B|].
    apply list_elem_of_singleton in Hz as ->. apply (before_trans comp _ (item_row root)); [by apply Last|exact Le].
Qed.

Lemma topn_rows_inv l t seen :
  0 < topn_limit t -> topn_inv t seen ->
  exists t', topn_add_rows comp false l t = Some t' /\ topn_limit t' = topn_limit t /\ topn_inv t' (seen ++ l).
Proof.
  revert t seen. induction l as [|row l IH]; intros t seen Hl Hi; cbn [topn_add_rows].
  { exists t. by rewrite app_nil_r. }
  destruct (topn_add_inv t seen row Hl Hi) as (t1 & -> & L1 & I1). cbn [mbind option_bind].
  destruct (IH t1 (seen ++ [row])) as (t2 & -> & L2 & I2); [lia|done|].
  exists t2. rewrite <- app_assoc in I2. split_and!; [done|congruence|done].
Qed.

Lemma topn_new limit : 0 < limit -> topn_inv (new_topn limit) [].
Proof.
  intros Hl. split_and!; [intros i j _ _; done|done|cbn; lia|].
  exists []. split_and!; [done|intros x y Hx; by apply not_elem_of_nil in Hx|done].
Qed.

(** After [sort]: the rows kept in order. *)
Lemma topn_sort_inv t seen :
  topn_inv t seen ->
  exists l rest, item_row <$> mem_row_heap (topn_sort comp false t) = l /\ StronglySorted (before comp) l
    /\ l ++ rest ≡ₚ seen /\ (forall x y, x ∈ l -> y ∈ rest -> before comp x y)
    /\ Z.of_nat (length l) = Z.min (topn_limit t) (Z.of_nat (length seen)).
Proof.
  intros (Hh & Hc & Hle & rest & P & B & F). cbn. set (h := mem_row_heap t) in *.
  pose proof (std_sort_perm (item_less comp) h) as Ps.
  eexists _, rest. split; [done|]. split; [apply items_sorted, std_sort_sorted, _|]. split; [by rewrite Ps|]. split.
  - intros x y Hx Hy. rewrite Ps in Hx. apply list_elem_of_fmap in Hx as (i & -> & Hi). by apply B.
  - rewrite Ps, <- P, length_app, length_fmap. destruct rest as [|r rest]; [cbn; lia|].
    specialize (F ltac:(done)). lia.
Qed.

End First.

Section Items.
Context {Row : Type} (comp : Row -> Row -> Z) (need_not_compare : bool) `{StdSort} (cap : nat).
Context (Hcap : 0 < Z.of_nat cap < 2 ^ 31).
Implicit Types (t : TopNSorter Row).

Definition items_left t : list Row := item_row <$> drop (Z.to_nat (current_idx t)) (mem_row_heap t).

Lemma topn_loop_spec fuel t batch :
  0 <= current_idx t -> (length (items_left t) < fuel)%nat -> (length (rows batch) <= capacity batch)%nat ->
  exists t' l eos, topn_loop fuel t batch = Some (t', mk_batch (rows batch ++ l) (row_idx batch) (capacity batch), eos)
    /\ 0 <= current_idx t' /\ items_left t = l ++ items_left t'
    /\ (length (rows batch ++ l) <= capacity batch)%nat
    /\ (if eos : bool then items_left t' = [] else length (rows batch ++ l) = capacity batch).
Proof.
  revert t batch. induction fuel as [|fuel IH]; intros t batch Hi Hf Hc; [lia|]. cbn [topn_loop].
  unfold is_full at 1. destruct (Nat.leb_spec (capacity batch) (length (rows batch))) as [F|F].
  { exists t, [], false. rewrite app_nil_r. destruct batch; cbn in *. split_and!; [done..|lia|lia]. }
  destruct (Z.leb_spec (Z.of_nat (length (mem_row_heap t))) (current_idx t)) as [G|G].
  { exists t, [], true. rewrite app_nil_r. destruct batch; cbn in *. split_and!; [done..|lia|].
    unfold items_left. by rewrite drop_ge by lia. }
  destruct (lookup_lt_is_Some_2 (mem_row_heap t) (Z.to_nat (current_idx t))) as [item E]; [lia|].
  rewrite E. cbn [mbind option_bind]. set (t1 := mk_topn _ _ _ _).
  assert (items_left t = item_row item :: items_left t1) as EL.
  { unfold items_left, t1. cbn [current_idx mem_row_heap]. rewrite (drop_S _ _ _ E), Z2Nat.inj_add by lia.
    change (Z.to_nat 1) with 1%nat. by rewrite Nat.add_1_r. }
  destruct (IH t1 (move_row (item_row item) batch)) as (t' & l & eos & E' & R & P & C & T).
  { cbn. lia. } { rewrite EL in Hf. cbn in Hf. lia. } { cbn. rewrite length_app. cbn. lia. }
  exists t', (item_row item :: l), eos. cbn in E', C, T. rewrite <- app_assoc in E', C, T. cbn in E', C, T.
  split_and!; [exact E'|exact R| |exact C|exact T]. by rewrite EL, P.
Qed.

Lemma topn_delivers t : 0 <= current_idx t -> delivers comp need_not_compare cap (TopN t) (items_left t).
Proof.
  remember (length (items_left t)) as n eqn:Hn. revert t Hn.
  induction n as [n IH] using lt_wf_ind. intros t -> Hi.
  destruct (topn_loop_spec (2 + length (mem_row_heap t)) t (fresh cap)) as (t' & l & eos & E & R & P & C & T);
    [done|unfold items_left; rewrite length_fmap, length_drop; lia|cbn; lia|].
  assert (any_get_next comp need_not_compare (TopN t) (fresh cap) = Some (TopN t', mk_batch l 0 cap, eos)) as G
    by (unfold any_get_next, topn_get_next; by rewrite E).
  cbn in C, T. rewrite P. destruct eos.
  - rewrite T, app_nil_r. apply (deliver_last _ _ _ _ _ (mk_batch l 0 cap) G). cbn. lia.
  - assert (l <> []) as Hl by (destruct l; [cbn in T; lia|done]).
    apply (deliver_more _ _ _ _ _ (mk_batch l 0 cap) _ G); [cbn; lia|done|].
    apply (IH (length (items_left t'))); [|done..]. rewrite P, length_app. destruct l; [done|cbn; lia].
Qed.

End Items.

(** ** The node *)

Section Node.
Context {Row : Type} (comp : Row -> Row -> Z) `{StdSort} (cap : nat).
Implicit Types (child h : list (RowBatch Row)) (b : RowBatch Row).

(** The batches a child gives, up to the first empty one, and their rows. *)
Fixpoint given child : list (RowBatch Row) :=
  match child with
  | [] => []
  | b :: child => if (length (rows b) =? 0)%nat then [] else b :: given child
  end.
Definition given_rows child : list Row := mjoin (rows <$> given child).

(** Batches as the nodes below make them: at their first row and of a size an
    [int] can hold. *)
Definition fresh_batch b : Prop := row_idx b = 0%nat /\ Z.of_nat (length (rows b)) < 2 ^ 31.

Lemma given_ok child : Forall fresh_batch child -> Forall (fun b => fresh_batch b /\ rows b <> []) (given child).
Proof.
  induction 1 as [|b child Hb _ IH]; [constructor|]. cbn. destruct (Nat.eqb_spec (length (rows b)) 0); constructor.
  - split; [done|]. by destruct (rows b).
  - done.
Qed.

Lemma fill_full nnc child h i :
  Forall fresh_batch child ->
  fill_sorter comp nnc child (Full (mk_sorter h i)) = Some (Full (mk_sorter (h ++ given child) i)).
Proof.
  intros Hc. revert h. induction Hc as [|b child [Hb _] _ IH]; intros h; cbn; [by rewrite app_nil_r|].
  destruct (_ =? _)%nat; [by rewrite app_nil_r|]. unfold add_batch. cbn. rewrite IH, <- app_assoc. cbn.
  do 5 f_equal. unfold reset. rewrite <- Hb. by destruct b.
Qed.

Lemma fill_topn (P : TopNSorter Row -> list Row -> Prop) nnc child t seen :
  (forall l t seen, P t seen -> exists t', topn_add_rows comp nnc l t = Some t' /\ P t' (seen ++ l)) ->
  Forall fresh_batch child -> P t seen ->
  exists t', fill_sorter comp nnc child (TopN t) = Some (TopN t') /\ P t' (seen ++ given_rows child).
Proof.
  intros Step Hc. revert t seen. unfold given_rows.
  induction Hc as [|b child [Hb _] _ IH]; intros t seen Ht; cbn; [exists t; by rewrite app_nil_r|].
  destruct (_ =? _)%nat; [exists t; by rewrite app_nil_r|].
  unfold topn_add_batch. rewrite Hb, drop_0. destruct (Step (rows b) t seen Ht) as (t1 & -> & H1). cbn.
  destruct (IH t1 _ H1) as (t2 & -> & H2). exists t2. by rewrite <- app_assoc in H2.
Qed.

(** Without ORDER BY the batches come as they were added. *)
Lemma unordered_delivers h i :
  Forall (fun b => fresh_batch b /\ rows b <> []) (drop i h) -> (i < length h)%nat ->
  delivers comp true cap (Full (mk_sorter h i)) (mjoin (rows <$> drop i h)).
Proof.
  remember (length h - i)%nat as n eqn:Hn. revert h i Hn.
  induction n as [|n IH]; intros h i Hn Hh Hi; [lia|].
  destruct (lookup_lt_is_Some_2 h i Hi) as [b Eb]. rewrite (drop_S _ _ _ Eb) in *.
  apply Forall_cons in Hh as [[[_ Hb] Hne] Hh].
  set (h2 := <[i := mk_batch [] (row_idx b) (capacity b)]> h).
  assert (any_get_next comp true (Full (mk_sorter h i)) (fresh cap)
    = Some (Full (mk_sorter h2 (S i)), mk_batch (rows b) 0 cap, (i =? length h - 1)%nat)) as G.
  { unfold any_get_next, sorter_get_next. cbn [min_heap sorter_idx]. destruct h as [|b0 h0]; [cbn in Hi; lia|].
    by rewrite Eb. }
  assert (drop (S i) h2 = drop (S i) h) as D by (apply drop_insert_lt; lia).
  change (mjoin (rows <$> b :: drop (S i) h)) with (rows b ++ mjoin (rows <$> drop (S i) h)).
  destruct (Nat.eqb_spec i (length h - 1)) as [L|L].
  - rewrite drop_ge by lia. cbn. rewrite app_nil_r. exact (deliver_last _ _ _ _ _ _ G Hb).
  - apply (deliver_more _ _ _ _ _ _ _ G Hb Hne). rewrite <- D.
    assert (length h2 = length h) as EL by apply length_insert.
    apply IH; [lia|by rewrite D|lia].
Qed.

(** The heap of the first rows without ORDER BY: the rows as they came. *)
Lemma topn_unordered l t seen :
  item_row <$> mem_row_heap t = take (Z.to_nat (topn_limit t)) seen
  /\ current_count t = Z.of_nat (length (mem_row_heap t)) /\ 0 < topn_limit t ->
  exists t', topn_add_rows comp true l t = Some t' /\ topn_limit t' = topn_limit t
    /\ item_row <$> mem_row_heap t' = take (Z.to_nat (topn_limit t)) (seen ++ l)
    /\ current_count t' = Z.of_nat (length (mem_row_heap t')).
Proof.
  revert t seen. induction l as [|row l IH]; intros t seen (Hr & Hc & Hl); cbn [topn_add_rows].
  { exists t. by rewrite app_nil_r. }
  assert (length (mem_row_heap t) = Nat.min (Z.to_nat (topn_limit t)) (length seen)) as Len
    by (rewrite <- length_take, <- Hr; symmetry; apply length_fmap).
  unfold topn_add. rewrite Hc. destruct (Z.ltb_spec (Z.of_nat (length (mem_row_heap t))) (topn_limit t)) as [L|L];
    cbn [mbind option_bind].
  - rewrite take_ge in Hr by lia.
    destruct (IH (mk_topn (mem_row_heap t ++ [mk_item row (current_idx t + 1)]) (topn_limit t)
      (Z.of_nat (length (mem_row_heap t)) + 1) (current_idx t + 1)) (seen ++ [row])) as (t' & E & L' & R & C).
    { cbn. rewrite fmap_app, Hr, length_app. cbn. rewrite take_ge by (rewrite length_app; cbn; lia).
      split_and!; [done|lia|done]. }
    exists t'. cbn in L', R. by rewrite <- app_assoc in R.
  - destruct (IH (mk_topn (mem_row_heap t) (topn_limit t) (Z.of_nat (length (mem_row_heap t))) (current_idx t + 1))
      (seen ++ [row])) as (t' & E & L' & R & C).
    { cbn. split_and!; [|done|done]. by rewrite Hr, take_app_le by lia. }
    exists t'. cbn in L', R. by rewrite <- app_assoc in R.
Qed.

End Node.

Section NodeFacts.
Context {Row : Type} (comp : Row -> Row -> Z) `{StdSortLaws} (cap : nat).
Context (Hcap : 0 < Z.of_nat cap < 2 ^ 31).
Implicit Types (child : list (RowBatch Row)).

(** What a node owes for ORDER BY with a limit: sorted rows [l], the first of all
    rows [all]. *)
Definition sorted_first (limit : Z) (all l : list Row) : Prop :=
  StronglySorted (before comp) l
  /\ exists rest, l ++ rest ≡ₚ all /\ (forall x y, x ∈ l -> y ∈ rest -> before comp x y)
     /\ Z.of_nat (length l) = if limit =? -1 then Z.of_nat (length all) else Z.min limit (Z.of_nat (length all)).

Lemma ordered_full `{!CompOrder comp} child :
  Forall fresh_batch child ->
  exists n l, sort_open comp false (-1) child = Some n
    /\ (forall fuel, (length (given_rows child) < fuel)%nat -> run comp false cap fuel n = Some l)
    /\ sorted_first (-1) (given_rows child) l.
Proof.
  intros Hc. unfold sort_open, make_sorter, new_sorter. change (-1 =? -1) with true. cbn iota. rewrite fill_full by done. cbn [mbind option_bind app].
  destruct (full_sort comp (given child)) as (h' & Es & Hr & P).
  { eapply Forall_impl; [by apply given_ok|]. by intros b [[] ]. }
  cbn [any_sort]. rewrite Es. cbn [fmap option_fmap option_map mbind option_bind].
  destruct (ready_delivers comp cap Hcap h' 0 Hr) as (l & D & S & Pl). rewrite P in Pl.
  eexists _, l. split; [done|]. split.
  - intros fuel Hf. apply (run_delivers comp false cap (Full (mk_sorter h' 0)) l (-1) 0); [done|by left|]. by rewrite Pl.
  - split; [done|]. exists []. rewrite app_nil_r. split_and!; [done|intros x y _ Hy; by apply not_elem_of_nil in Hy|].
    cbn. by rewrite Pl.
Qed.

Lemma ordered_first `{!CompOrder comp} limit child :
  0 < limit -> Forall fresh_batch child ->
  exists n l, sort_open comp false limit child = Some n
    /\ (forall fuel, (length (given_rows child) < fuel)%nat -> run comp false cap fuel n = Some l)
    /\ sorted_first limit (given_rows child) l.
Proof.
  intros Hl Hc. unfold sort_open, make_sorter. rewrite (proj2 (Z.eqb_neq limit (-1))) by lia.
  destruct (fill_topn comp (fun t seen => topn_limit t = limit /\ topn_inv comp t seen) false child (new_topn limit) [])
    as (t & -> & L & I); [|done|by split; [|apply topn_new]|].
  { intros l t seen [Ht I]. destruct (topn_rows_inv comp l t seen) as (t' & E & L' & I'); [lia|done|].
    exists t'. split_and!; [done|congruence|done]. }
  cbn [mbind option_bind any_sort app] in *.
  destruct (topn_sort_inv comp t _ I) as (l & rest & El & S & P & B & Len). rewrite L in Len.
  exists (mk_node (TopN (topn_sort comp false t)) limit 0), l. split; [done|]. split.
  - intros fuel Hf. rewrite <- El. change (mem_row_heap (topn_sort comp false t))
      with (drop (Z.to_nat (current_idx (topn_sort comp false t))) (mem_row_heap (topn_sort comp false t))).
    rewrite (run_delivers comp false cap (TopN (topn_sort comp false t)) l limit 0); [| |lia|lia].
    + unfold up_to. rewrite (proj2 (Z.eqb_neq limit (-1))), take_ge by lia. by rewrite <- El.
    + rewrite <- El. apply (topn_delivers comp false cap Hcap). done.
  - split; [done|]. exists rest. rewrite (proj2 (Z.eqb_neq limit (-1))) by lia. done.
Qed.

(** A sort node with ORDER BY gives, over the calls of [get_next], sorted rows;
    they are the first [limit] rows (all of them without a limit) of those the
    child gave, however the rows come in batches and whichever sorter runs: no row
    left out may come before one given. *)
Lemma sort_node_sorted `{!CompOrder comp} limit child :
  limit = -1 \/ 0 < limit -> Forall fresh_batch child ->
  exists n l, sort_open comp false limit child = Some n
    /\ (forall fuel, (length (given_rows child) < fuel)%nat -> run comp false cap fuel n = Some l)
    /\ sorted_first limit (given_rows child) l.
Proof. intros [->|Hl] Hc; [by apply ordered_full|by apply ordered_first]. Qed.

(** Without an order a sort node gives the first rows in the order they came. *)
Lemma sort_node_unordered limit child :
  limit = -1 \/ 0 < limit -> Forall fresh_batch child ->
  exists n, sort_open comp true limit child = Some n
    /\ forall fuel, (length (given_rows child) < fuel)%nat ->
         run comp true cap fuel n = Some (up_to limit 0 (given_rows child)).
Proof.
  intros HL Hc. unfold sort_open, make_sorter. destruct (Z.eqb_spec limit (-1)) as [->|Hn].
  - unfold new_sorter. rewrite fill_full by done. cbn [mbind option_bind app any_sort sorter_sort fmap option_fmap option_map].
    eexists. split; [done|]. intros fuel Hf. apply run_delivers; [|by left|done]. unfold given_rows.
    pose proof (given_ok child Hc) as Hg. destruct (given child) as [|b g].
    + apply (deliver_last comp true cap (Full (mk_sorter [] 0)) (Full (mk_sorter [] 0)) (fresh cap)); [done|cbn; lia].
    + apply (unordered_delivers comp cap (b :: g) 0); [done|cbn; lia].
  - assert (0 < limit) as Hl by lia.
    destruct (fill_topn comp (fun t seen => topn_limit t = limit /\
      item_row <$> mem_row_heap t = take (Z.to_nat limit) seen /\ current_count t = Z.of_nat (length (mem_row_heap t)))
      true child (new_topn limit) []) as (t & -> & L & R & C); [|done|by rewrite take_nil|].
    { intros l t seen (Ht & R & C). destruct (topn_unordered comp l t seen) as (t' & E & L' & R' & C');
        [by rewrite Ht|]. exists t'. rewrite Ht in *. done. }
    cbn [mbind option_bind any_sort app] in *. eexists. split; [done|]. intros fuel Hf.
    pose proof (topn_delivers comp true cap Hcap (topn_sort comp true t)) as D. specialize (D ltac:(done)).
    unfold items_left in D. cbn [topn_sort mem_row_heap current_idx] in D. change (Z.to_nat 0) with 0%nat in D.
    rewrite drop_0, R in D. rewrite (run_delivers _ _ _ _ _ limit 0 fuel D); [|lia|rewrite length_take; lia].
    unfold up_to. rewrite (proj2 (Z.eqb_neq limit (-1))), Z.sub_0_r, take_take, Nat.min_id by lia. done.
Qed.

End NodeFacts.

(** ** Batches that are sorted already *)

Section Presorted.
Context {Row : Type} (comp : Row -> Row -> Z) `{!CompOrder comp} (cap : nat).

(** Given sorted batches, such as one of every region, [merge_sort] and the
    calls of [get_next] give all their rows in order. *)
Theorem merge_sort_sorted (h : list (RowBatch Row)) :
  0 < Z.of_nat cap < 2 ^ 31 ->
  Forall (fun b => row_idx b = 0%nat /\ rows b <> [] /\ StronglySorted (before comp) (rows b)) h ->
  exists s l, merge_sort comp false (mk_sorter h 0) = Some s
    /\ (forall fuel, (length (mjoin (rows <$> h)) < fuel)%nat -> run comp false cap fuel (mk_node (Full s) (-1) 0) = Some l)
    /\ StronglySorted (before comp) l /\ l ≡ₚ mjoin (rows <$> h).
Proof.
  intros Hcap Hh.
  assert (pending h = mjoin (rows <$> h)) as Hp.
  { unfold pending, left_rows. f_equal. apply list_fmap_ext. intros i b Hb.
    apply (proj1 (Forall_lookup _ _) Hh) in Hb as [-> _]. done. }
  assert (Forall with_row h /\ Forall (fun b => StronglySorted (before comp) (left_rows b)) h) as [W S].
  { split; (eapply Forall_impl; [exact Hh|]); intros b (Hi & Hne & Hs);
      unfold with_row, get_row, left_rows; rewrite Hi; [|done].
    apply lookup_lt_is_Some. destruct (rows b); cbn; [done|lia]. }
  destruct (merge_sort_ready comp h W S) as (h' & E & R & P). rewrite Hp in P.
  destruct (ready_delivers comp cap Hcap h' 0 R) as (l & D & Sl & Pl). rewrite P in Pl.
  exists (mk_sorter h' 0), l. split_and!; [done| |done|done].
  intros fuel Hf. apply (run_delivers comp false cap (Full (mk_sorter h' 0)) l (-1) 0); [done|by left|]. by rewrite Pl.
Qed.

End Presorted.

(** ** ORDER BY *)

(** One comparison, then another. *)
Definition then_comp {A} (c1 c2 : A -> A -> Z) (a b : A) : Z := if negb (c1 a b =? 0) then c1 a b else c2 a b.

Lemma then_order {A} (c1 c2 : A -> A -> Z) : CompOrder c1 -> CompOrder c2 -> CompOrder (then_comp c1 c2).
Proof.
  intros O1 O2. split; unfold then_comp.
  - intros a b. pose proof (comp_flip (comp := c1) a b). pose proof (comp_flip (comp := c2) a b).
    destruct (Z.eqb_spec (c1 a b) 0), (Z.eqb_spec (c1 b a) 0); cbn; lia.
  - intros a b c. pose proof (comp_flip (comp := c1) a b). pose proof (comp_flip (comp := c1) b c).
    pose proof (comp_flip (comp := c1) a c). pose proof (comp_le_trans (comp := c1) a b c).
    pose proof (comp_le_trans (comp := c1) b c a). pose proof (comp_le_trans (comp := c1) c a b).
    pose proof (comp_le_trans (comp := c2) a b c).
    destruct (Z.eqb_spec (c1 a b) 0), (Z.eqb_spec (c1 b c) 0), (Z.eqb_spec (c1 a c) 0); cbn; lia.
Qed.

Section OrderBy.
Context `{Host, RoaringLib} {Row : Type}.
Implicit Types (e : OrderExpr Row) (order : list (OrderExpr Row)).

(** An expression gives NULL or values of one type, which are not NaN. *)
Definition ordered_column e : Prop :=
  exists t, forall row, is_null (get_value e row) = true
    \/ type (get_value e row) = t /\ is_null (get_value e row) = false /\ is_Some (denote (get_value e row)).

(** The comparison by one expression. *)
Definition column_compare e (left right : Row) : Z :=
  let left_value := get_value e left in
  let right_value := get_value e right in
  if is_null left_value && is_null right_value then 0
  else if is_null left_value then if is_null_first e then -1 else 1
  else if is_null right_value then if is_null_first e then 1 else -1
  else if is_asc e then compare left_value right_value else - compare left_value right_value.

Lemma row_compare_cons e order a b :
  row_compare (e :: order) a b = then_comp (column_compare e) (row_compare order) a b.
Proof.
  cbn [row_compare]. unfold then_comp, column_compare.
  destruct (is_null (get_value e a)), (is_null (get_value e b)), (is_null_first e), (is_asc e); cbn; try done;
    destruct (Z.eqb_spec (compare (get_value e a) (get_value e b)) 0) as [->|]; cbn; try done;
    destruct (Z.eqb_spec (- compare (get_value e a) (get_value e b)) 0); cbn; done || lia.
Qed.

Lemma int_cmp_sgn x y : int_cmp y = CompOpp (int_cmp x) -> Z.sgn y = - Z.sgn x.
Proof. unfold int_cmp. destruct (Z.compare_spec x 0), (Z.compare_spec y 0); cbn; intros; done || lia. Qed.

Lemma column_order e : ordered_column e -> CompOrder (column_compare e).
Proof.
  intros [t Ht].
  assert (forall a b, is_null (get_value e a) = false -> is_null (get_value e b) = false ->
    Z.sgn (compare (get_value e b) (get_value e a)) = - Z.sgn (compare (get_value e a) (get_value e b))) as Flip.
  { intros a b Na Nb. destruct (Ht a) as [?|(Ta & _ & x & Dx)], (Ht b) as [?|(Tb & _ & y & Dy)]; try congruence.
    apply int_cmp_sgn. rewrite (compare_denotes _ _ y x), (compare_denotes _ _ x y) by congruence.
    apply sem_compare_antisym. }
  assert (forall a b c, is_null (get_value e a) = false -> is_null (get_value e b) = false ->
    is_null (get_value e c) = false -> compare (get_value e a) (get_value e b) <= 0 ->
    compare (get_value e b) (get_value e c) <= 0 -> compare (get_value e a) (get_value e c) <= 0) as Trans.
  { intros a b c Na Nb Nc. destruct (Ht a) as [?|(Ta & _ & x & Dx)], (Ht b) as [?|(Tb & _ & y & Dy)],
      (Ht c) as [?|(Tc & _ & z & Dz)]; try congruence.
    rewrite !int_cmp_le, (compare_denotes _ _ x y), (compare_denotes _ _ y z), (compare_denotes _ _ x z) by congruence.
    apply sem_compare_le_trans. }
  split; unfold column_compare.
  - intros a b. specialize (Flip a b). destruct (is_null (get_value e a)), (is_null (get_value e b)),
      (is_null_first e), (is_asc e); cbn; try done; specialize (Flip eq_refl eq_refl); lia.
  - intros a b c. pose proof (Trans a b c) as T1. pose proof (Trans c b a) as T2.
    pose proof (Flip a b) as F1. pose proof (Flip b c) as F2. pose proof (Flip a c) as F3.
    destruct (is_null (get_value e a)), (is_null (get_value e b)), (is_null (get_value e c)),
      (is_null_first e), (is_asc e); cbn; try lia; try done; 
      specialize (F1 eq_refl eq_refl); specialize (F2 eq_refl eq_refl); specialize (F3 eq_refl eq_refl);
      specialize (T1 eq_refl eq_refl eq_refl); specialize (T2 eq_refl eq_refl eq_refl); lia.
Qed.

Lemma row_compare_order order : Forall ordered_column order -> CompOrder (row_compare order).
Proof.
  induction 1 as [|e order He _ IH].
  { split; [intros a b; done|intros a b c; cbn; lia]. }
  destruct (then_order _ _ (column_order e He) IH) as [F T].
  split; intros a b; rewrite ?row_compare_cons; [apply F|]. intros c. rewrite !row_compare_cons. apply T.
Qed.

Lemma first_unordered limit (all : list Row) :
  limit = -1 \/ 0 < limit -> sorted_first (row_compare []) limit all (up_to limit 0 all).
Proof.
  intros HL. assert (forall l : list Row, StronglySorted (before (row_compare [])) l) as S.
  { induction l as [|x l IH]; constructor; [done|]. by apply Forall_forall. }
  split; [apply S|]. unfold up_to. destruct (Z.eqb_spec limit (-1)) as [|Hn].
  - exists []. by rewrite app_nil_r.
  - exists (drop (Z.to_nat (limit - 0)) all). rewrite take_drop. split_and!; [done..|]. rewrite length_take. lia.
Qed.

Context `{StdSortLaws}.

(** C12. A sort node over an ORDER BY list and a limit gives, over the calls of
    [get_next], rows sorted by the list (NULL first or last and descending columns as
    asked); they are the first [limit] rows (all of them without a limit) of those the
    child gave, however these come in batches and whichever of the two sorters runs:
    no row left out may come before one given.  With an empty list they are the rows
    in the order they came. *)
Theorem order_by_limit cap order limit child :
  0 < Z.of_nat cap < 2 ^ 31 -> limit = -1 \/ 0 < limit ->
  Forall ordered_column order -> Forall fresh_batch child ->
  exists n l, sort_open (row_compare order) (no_order order) limit child = Some n
    /\ (forall fuel, (length (given_rows child) < fuel)%nat ->
          run (row_compare order) (no_order order) cap fuel n = Some l)
    /\ sorted_first (row_compare order) limit (given_rows child) l
    /\ (order = [] -> l = up_to limit 0 (given_rows child)).
Proof.
  intros Hcap HL Ho Hc. pose proof (row_compare_order order Ho) as O. destruct order as [|e order].
  - destruct (sort_node_unordered (row_compare []) cap Hcap limit child HL Hc) as (n & E & R).
    eexists n, _. split_and!; [exact E|exact R|by apply first_unordered|done].
  - destruct (sort_node_sorted (row_compare (e :: order)) cap Hcap limit child HL Hc) as (n & l & E & R & S).
    exists n, l. by split_and!.
Qed.

End OrderBy.

(** * Instances of the theorems on sorting *)

#[local] Instance machine : Host := le_host.
#[local] Instance bitmaps : RoaringLib := no_bitmaps.

(** Insertion sort, one of the sorts [std::sort] may be. *)
Fixpoint insert_by {A} (lt : A -> A -> bool) (x : A) (l : list A) : list A :=
  match l with
  | [] => [x]
  | y :: l => if lt y x then y :: insert_by lt x l else x :: y :: l
  end.

#[local] Instance insertion_sort : StdSort := fun A lt => foldr (insert_by lt) [].

Lemma insert_by_perm {A} (lt : A -> A -> bool) x l : insert_by lt x l ≡ₚ x :: l.
Proof. induction l as [|y l IH]; cbn; [done|]. destruct (lt y x); [|done]. rewrite IH. apply Permutation_swap. Qed.

Lemma insert_by_sorted {A} (lt : A -> A -> bool) `{!StrictWeak lt} x l :
  StronglySorted (fun a b => lt b a = false) l -> StronglySorted (fun a b => lt b a = false) (insert_by lt x l).
Proof.
  induction 1 as [|y l Hl IH Hy]; cbn; [by repeat constructor|]. destruct (lt y x) eqn:E.
  - constructor; [done|]. rewrite insert_by_perm. constructor; [by apply less_asym|done].
  - constructor; [by constructor|]. constructor; [done|]. eapply Forall_impl; [exact Hy|].
    cbn. intros z Hz. by apply (less_negtrans _ y).
Qed.

#[local] Instance insertion_sort_laws : StdSortLaws.
Proof.
  split; intros A lt; unfold std_sort, insertion_sort.
  - induction l as [|x l IH]; [done|]. cbn. by rewrite insert_by_perm, IH.
  - intros W l. induction l as [|x l IH]; [constructor|]. by apply insert_by_sorted.
Qed.

(** Rows of a column that may be NULL and an id. *)
Definition row := (option Z * Z)%type.
Definition first_column : OrderExpr row :=
  mk_order (fun r => match r.1 with Some z => number INT64 z | None => set_type NULL_TYPE (number INT64 0) end) true false.
Definition id_column : OrderExpr row := mk_order (fun r => number INT64 r.2) false true.

Lemma columns_ordered : Forall ordered_column [first_column; id_column].
Proof.
  repeat constructor; exists INT64; intros [[z|] i]; cbn; (by left) || (right; split_and!; try done; by eexists).
Qed.

Definition batches : list (RowBatch row) :=
  [mk_batch [(Some 3, 1); (None, 2); (Some 1, 3)] 0 4; mk_batch [(Some 1, 4); (Some 2, 5)] 0 4; mk_batch [] 0 4].

Lemma batches_fresh : Forall fresh_batch batches.
Proof. repeat constructor. Qed.

(** NULL last, equal values by descending id. *)
Lemma order_by_limit_witness :
  exists n l, sort_open (row_compare [first_column; id_column]) (no_order [first_column; id_column]) 3 batches = Some n
    /\ run (row_compare [first_column; id_column]) (no_order [first_column; id_column]) 2 9 n = Some l
    /\ sorted_first (row_compare [first_column; id_column]) 3 (given_rows batches) l.
Proof.
  destruct (order_by_limit 2 [first_column; id_column] 3 batches) as (n & l & E & R & S & _);
    [cbn; lia|by right|exact columns_ordered|exact batches_fresh|].
  exists n, l. split_and!; [exact E|apply R; cbn; lia|exact S].
Defined.

Example order_by_rows :
  (n ← sort_open (row_compare [first_column; id_column]) false (-1) batches;
   run (row_compare [first_column; id_column]) false 2 9 n)
  = Some [(Some 1, 4); (Some 1, 3); (Some 2, 5); (Some 3, 1); (None, 2)].
Proof. vm_compute. reflexivity. Qed.

Example order_by_first :
  (n ← sort_open (row_compare [first_column; id_column]) false 3 batches;
   run (row_compare [first_column; id_column]) false 2 9 n)
  = Some [(Some 1, 4); (Some 1, 3); (Some 2, 5)].
Proof. vm_compute. reflexivity. Qed.

Lemma merge_sort_sorted_witness :
  exists s l, merge_sort Z.sub false (mk_sorter [mk_batch [1; 4] 0 2; mk_batch [2; 3] 0 2] 0) = Some s
    /\ run Z.sub false 3 5 (mk_node (Full s) (-1) 0) = Some l
    /\ StronglySorted (before Z.sub) l /\ l ≡ₚ [1; 4; 2; 3].
Proof.
  assert (CompOrder Z.sub) as O by (split; intros; lia).
  destruct (merge_sort_sorted Z.sub 3 [mk_batch [1; 4] 0 2; mk_batch [2; 3] 0 2]) as (s & l & E & R & S & P);
    [cbn; lia|by repeat constructor|].
  exists s, l. split_and!; [exact E|apply R; cbn; lia|exact S|exact P].
Defined.

(** With a limit of 0 the heap is empty and its root is read. *)
Example limit_zero_reads_root :
  topn_add_batch Z.sub false (mk_batch [1] 0 2) (new_topn 0) = None.
Proof. reflexivity. Qed.
