(* ===== verification/MetaState.v ===== *)
(** * The catalog of the meta server: messages, maps and store
      ([proto/meta.interface.proto], [include/meta_server/namespace_manager.h],
      [include/meta_server/database_manager.h], [include/meta_server/privilege_manager.h],
      [src/meta_server/meta_rocksdb.cpp])

    The messages on namespaces, databases and users, the maps the managers keep in
    memory, and the writes to the store, each of which may fail. *)

From stdpp Require Import gmap.
From S2P Require Import Prelude KvStore.

(** ** Messages *)

(** What namespaces and databases can set, and hand down.  Messages inside that are
    only copied are their bytes; enumerations are their numbers. *)
Record Config := mk_config {
  quota : option Z;
  resource_tag : option bytes;
  engine : option Z;
  charset : option Z;
  byte_size_per_record : option Z;
  replica_num : option Z;
  region_split_lines : option Z;
  dists : list bytes;
  main_logical_room : option bytes;
  learner_resource_tags : list bytes;
  binlog_infos : list bytes
}.

Record NameSpaceInfo := mk_ns {
  namespace_name : bytes;
  namespace_id : option Z;
  ns_version : option Z;
  ns_deleted : option bool;
  ns_if_exist : option bool;
  ns_config : Config
}.

Record DataBaseInfo := mk_db {
  database : bytes;
  database_id : option Z;
  db_namespace_name : bytes;
  db_namespace_id : option Z;
  db_version : option Z;
  db_deleted : option bool;
  db_config : Config;
  partition_info_str : option bytes
}.

Inductive RW := READ | WRITE.
Definition rw_num (r : RW) : Z := match r with READ => 1 | WRITE => 2 end.

Record PrivilegeDatabase := mk_pri_db {
  pd_database : bytes;
  pd_database_id : option Z;
  pd_rw : option RW;
  pd_force : option bool;
  pd_acl : option Z
}.

Record PrivilegeTable := mk_pri_table {
  pt_database : bytes;
  pt_database_id : option Z;
  pt_table_name : bytes;
  pt_table_id : option Z;
  pt_rw : option RW;
  pt_force : option bool;
  pt_acl : option Z
}.

(** The settings of a user that [add_privilege] replaces one by one. *)
Record Settings := mk_settings {
  need_auth_addr : option bool;
  up_resource_tag : option bytes;
  ddl_permission : option bool;
  txn_lock_timeout : option Z;
  use_read_index : option bool;
  enable_plan_cache : option bool;
  request_range_partition_type : option Z;
  is_super : option bool;
  is_request_additional : option bool
}.

Record UserPrivilege := mk_user {
  username : bytes;
  password : option bytes;
  up_namespace_name : bytes;
  up_namespace_id : option Z;
  privilege_database : list PrivilegeDatabase;
  privilege_table : list PrivilegeTable;
  bns : list bytes;
  ip : list bytes;
  switch_tables : list Z;
  up_version : option Z;
  encrypt : option bool;
  settings : Settings;
  up_acl : option Z;
  up_if_exist : option bool
}.

(** The accessors of optional numbers and flags. *)
Abbreviation num x := (default 0 x).
Abbreviation flag x := (default false x).
Abbreviation rw x := (default READ x).

(** What the operations read of a request. *)
Record MetaManagerRequest := mk_request {
  namespace_info : NameSpaceInfo;
  database_info : DataBaseInfo;
  user_privilege_of : option UserPrivilege;
  is_force_setting : bool
}.

(** Serialization by protocol buffers; messages of the model have their required
    fields, and a message too long does not serialize. *)
Class MetaCodec := {
  ser_ns : NameSpaceInfo -> option bytes;
  parse_ns : bytes -> option NameSpaceInfo;
  ser_db : DataBaseInfo -> option bytes;
  parse_db : bytes -> option DataBaseInfo;
  ser_user : UserPrivilege -> option bytes;
  parse_user : bytes -> option UserPrivilege
}.

(** What was serialized parses back. *)
Class MetaCodecLaws `{MetaCodec} : Prop := {
  ns_roundtrip i b : ser_ns i = Some b -> parse_ns b = Some i;
  db_roundtrip i b : ser_db i = Some b -> parse_db b = Some i;
  user_roundtrip i b : ser_user i = Some b -> parse_user b = Some i
}.

(** The order in which a loop visits an [unordered_map] or an [unordered_set]. *)
Class HashOrder := {
  users_order : gmap bytes UserPrivilege -> list (bytes * UserPrivilege);
  names_order : gset bytes -> list bytes
}.

Class HashOrderLaws `{HashOrder} : Prop := {
  users_order_perm m : users_order m ≡ₚ map_to_list m;
  names_order_perm s : names_order s ≡ₚ elements s
}.

(** ** The maps *)

Record Namespaces := mk_namespaces {
  max_namespace_id : Z;
  namespace_id_map : gmap bytes Z;
  namespace_info_map : gmap Z NameSpaceInfo;
  database_ids : gmap Z (gset Z)
}.

Record Databases := mk_databases {
  max_database_id : Z;
  database_id_map : gmap bytes Z;
  database_info_map : gmap Z DataBaseInfo;
  table_ids : gmap Z (gset Z)
}.

Record Privileges := mk_privileges {
  user_privilege : gmap bytes UserPrivilege;
  db_user_map : gmap Z (gset bytes);
  tbl_user_map : gmap Z (gset bytes)
}.

(** Of the tables, the names and identifiers. *)
Record Tables := mk_tables {
  table_id_map : gmap bytes Z;
  table_info_map : gset Z
}.

(** The managers and their store, with the fate of the writes to come. *)
Record Meta (D : Type) := mk_meta {
  namespaces : Namespaces;
  databases : Databases;
  privileges : Privileges;
  tables : Tables;
  store : D;
  fates : list bool
}.
Arguments mk_meta {_}.
Arguments namespaces {_}.
Arguments databases {_}.
Arguments privileges {_}.
Arguments tables {_}.
Arguments store {_}.
Arguments fates {_}.

Definition no_namespaces : Namespaces := mk_namespaces 0 ∅ ∅ ∅.
Definition no_databases : Databases := mk_databases 0 ∅ ∅ ∅.
Definition no_privileges : Privileges := mk_privileges ∅ ∅ ∅.

Section Maps.
Implicit Types (n : Namespaces) (d : Databases).

(** [operator[]] of a map of sets. *)
Definition ids_at {K V} `{Countable K, Countable V} (m : gmap K (gset V)) (k : K) : gset V := default ∅ (m !! k).

Definition set_max_namespace_id (id : Z) n : Namespaces :=
  mk_namespaces id (namespace_id_map n) (namespace_info_map n) (database_ids n).

Definition set_namespace_info (info : NameSpaceInfo) n : Namespaces :=
  mk_namespaces (max_namespace_id n)
    (<[namespace_name info := num (namespace_id info)]> (namespace_id_map n))
    (<[num (namespace_id info) := info]> (namespace_info_map n)) (database_ids n).

Definition erase_namespace_info (name : bytes) n : Namespaces :=
  let id := num (namespace_id_map n !! name) in
  mk_namespaces (max_namespace_id n) (delete name (namespace_id_map n))
    (delete id (namespace_info_map n)) (delete id (database_ids n)).

Definition add_database_id (ns_id db_id : Z) n : Namespaces :=
  mk_namespaces (max_namespace_id n) (namespace_id_map n) (namespace_info_map n)
    (<[ns_id := {[db_id]} ∪ ids_at (database_ids n) ns_id]> (database_ids n)).

Definition delete_database_id (ns_id db_id : Z) n : Namespaces :=
  match database_ids n !! ns_id with
  | None => n
  | Some s =>
      mk_namespaces (max_namespace_id n) (namespace_id_map n) (namespace_info_map n)
        (<[ns_id := s ∖ {[db_id]}]> (database_ids n))
  end.

(** 0 for a name without a namespace. *)
Definition get_namespace_id (name : bytes) n : Z := num (namespace_id_map n !! name).

Definition clear_namespaces n : Namespaces := mk_namespaces (max_namespace_id n) ∅ ∅ ∅.

(** The full name of a database. *)
Definition join (a b : bytes) : bytes := a ++ 1 :: b.

Definition db_name (info : DataBaseInfo) : bytes := join (db_namespace_name info) (database info).

Definition set_max_database_id (id : Z) d : Databases :=
  mk_databases id (database_id_map d) (database_info_map d) (table_ids d).

Definition set_database_info (info : DataBaseInfo) d : Databases :=
  mk_databases (max_database_id d)
    (<[db_name info := num (database_id info)]> (database_id_map d))
    (<[num (database_id info) := info]> (database_info_map d)) (table_ids d).

Definition erase_database_info (name : bytes) d : Databases :=
  let id := num (database_id_map d !! name) in
  mk_databases (max_database_id d) (delete name (database_id_map d))
    (delete id (database_info_map d)) (delete id (table_ids d)).

Definition get_database_id (name : bytes) d : Z := num (database_id_map d !! name).

Definition clear_databases d : Databases := mk_databases (max_database_id d) ∅ ∅ ∅.

Definition get_table_id (name : bytes) (t : Tables) : Z := num (table_id_map t !! name).

End Maps.

(** ** The users of databases and tables *)

Section Users.
Implicit Types (m : gmap Z (gset bytes)) (u : bytes).

Fixpoint add_user u (ids : list Z) m : gmap Z (gset bytes) :=
  match ids with
  | [] => m
  | id :: ids => add_user u ids (<[id := {[u]} ∪ ids_at m id]> m)
  end.

Fixpoint remove_user u (ids : list Z) m : gmap Z (gset bytes) :=
  match ids with
  | [] => m
  | id :: ids =>
      let s := ids_at m id ∖ {[u]} in
      remove_user u ids (if decide (s = ∅) then delete id m else <[id := s]> m)
  end.

Definition pri_db_ids (p : UserPrivilege) : list Z := (fun x => num (pd_database_id x)) <$> privilege_database p.
Definition pri_table_ids (p : UserPrivilege) : list Z := (fun x => num (pt_table_id x)) <$> privilege_table p.

Definition insert_db_tbl_user_map (p : UserPrivilege) (s : Privileges) : Privileges :=
  mk_privileges (user_privilege s) (add_user (username p) (pri_db_ids p) (db_user_map s))
    (add_user (username p) (pri_table_ids p) (tbl_user_map s)).

Definition delete_db_tbl_user_map (p : UserPrivilege) (s : Privileges) : Privileges :=
  mk_privileges (user_privilege s) (remove_user (username p) (pri_db_ids p) (db_user_map s))
    (remove_user (username p) (pri_table_ids p) (tbl_user_map s)).

Definition set_user (u : bytes) (p : UserPrivilege) (s : Privileges) : Privileges :=
  mk_privileges (<[u := p]> (user_privilege s)) (db_user_map s) (tbl_user_map s).

Definition erase_user (u : bytes) (s : Privileges) : Privileges :=
  mk_privileges (delete u (user_privilege s)) (db_user_map s) (tbl_user_map s).

End Users.

(** ** The store *)

Section Store.
Context {D : Type} `{RocksDb D, Host}.
Implicit Types (m : Meta D).

Definition with_store (d : D) m : Meta D :=
  mk_meta (namespaces m) (databases m) (privileges m) (tables m) d (fates m).
Definition with_namespaces (n : Namespaces) m : Meta D :=
  mk_meta n (databases m) (privileges m) (tables m) (store m) (fates m).
Definition with_databases (d : Databases) m : Meta D :=
  mk_meta (namespaces m) d (privileges m) (tables m) (store m) (fates m).
Definition with_privileges (p : Privileges) m : Meta D :=
  mk_meta (namespaces m) (databases m) p (tables m) (store m) (fates m).

(** The next write, which changes the store only if it succeeds. *)
Definition write (f : D -> D) m : bool * Meta D :=
  let m' := mk_meta (namespaces m) (databases m) (privileges m) (tables m) (store m) (tl (fates m)) in
  if default true (head (fates m)) then (true, with_store (f (store m)) m') else (false, m').

(** One key, or several in a batch. *)
Definition put_meta_info (k v : bytes) : Meta D -> bool * Meta D := write (fun d => db_put d k v).
Definition put_meta_infos (kvs : list (bytes * bytes)) : Meta D -> bool * Meta D :=
  write (fun d => foldl (fun d kv => db_put d kv.1 kv.2) d kvs).
Definition delete_meta_info (ks : list bytes) : Meta D -> bool * Meta D :=
  write (fun d => foldl db_delete d ks).

(** Keys: [SCHEMA_IDENTIFY], [PRIVILEGE_IDENTIFY] and the kinds of a schema. *)
Definition SCHEMA_IDENTIFY : bytes := [2].
Definition PRIVILEGE_IDENTIFY : bytes := [3].
Definition MAX_ID_SCHEMA_IDENTIFY : bytes := [1].
Definition NAMESPACE_SCHEMA_IDENTIFY : bytes := [2].
Definition DATABASE_SCHEMA_IDENTIFY : bytes := [3].
Definition MAX_NAMESPACE_ID_KEY : bytes := bytes_of_string "max_namespace_id".
Definition MAX_DATABASE_ID_KEY : bytes := bytes_of_string "max_database_id".

Definition id_bytes (id : Z) : bytes := mem_store 8 (u64 id).

Definition construct_namespace_key (id : Z) : bytes := SCHEMA_IDENTIFY ++ NAMESPACE_SCHEMA_IDENTIFY ++ id_bytes id.
Definition construct_max_namespace_id_key : bytes := SCHEMA_IDENTIFY ++ MAX_ID_SCHEMA_IDENTIFY ++ MAX_NAMESPACE_ID_KEY.
Definition construct_database_key (id : Z) : bytes := SCHEMA_IDENTIFY ++ DATABASE_SCHEMA_IDENTIFY ++ id_bytes id.
Definition construct_max_database_id_key : bytes := SCHEMA_IDENTIFY ++ MAX_ID_SCHEMA_IDENTIFY ++ MAX_DATABASE_ID_KEY.
Definition construct_privilege_key (u : bytes) : bytes := PRIVILEGE_IDENTIFY ++ u.

End Store.
