(* ===== verification/MetaCatalog.v ===== *)
(** * The catalog of the meta server: operations and snapshots
      ([src/meta_server/namespace_manager.cpp], [src/meta_server/database_manager.cpp],
      [src/meta_server/privilege_manager.cpp], [src/meta_server/schema_manager.cpp])

    The operations the state machine applies, one after the other, and how the maps
    are built again from the store.  An operation gives the code it answers with, or
    [None] where the next identifier does not fit. *)

From stdpp Require Import gmap.
From S2P Require Import Prelude Heap KvStore MetaState.

Inductive Errcode := SUCCESS | INPUT_PARAM_ERROR | PARSE_TO_PB_FAIL | INTERNAL_ERROR.

(** [_max_id + 1]. *)
Definition next_id (max_id : Z) : option Z := if max_id <? 2 ^ 63 - 1 then Some (max_id + 1) else None.

(** [if (x.has_f()) y.set_f(x.f())], and the same for a list. *)
Definition set_if {A} (new old : option A) : option A := match new with Some _ => new | None => old end.
Definition set_if_any {A} (new old : list A) : list A := match new with [] => old | _ => new end.

Definition override (new old : Config) : Config :=
  mk_config (set_if (quota new) (quota old)) (set_if (resource_tag new) (resource_tag old))
    (set_if (engine new) (engine old)) (set_if (charset new) (charset old))
    (set_if (byte_size_per_record new) (byte_size_per_record old))
    (set_if (replica_num new) (replica_num old)) (set_if (region_split_lines new) (region_split_lines old))
    (set_if_any (dists new) (dists old)) (set_if (main_logical_room new) (main_logical_room old))
    (set_if_any (learner_resource_tags new) (learner_resource_tags old))
    (set_if_any (binlog_infos new) (binlog_infos old)).

Section Operations.
Context {D : Type} `{RocksDb D, Host, MetaCodec, HashOrder}.
Implicit Types (m : Meta D) (r : MetaManagerRequest).

Abbreviation outcome := (option (Errcode * Meta D)).

(** ** Namespaces *)

Definition with_ns_id (id : Z) (i : NameSpaceInfo) : NameSpaceInfo :=
  mk_ns (namespace_name i) (Some id) (ns_version i) (ns_deleted i) (ns_if_exist i) (ns_config i).
Definition with_ns_version (v : Z) (i : NameSpaceInfo) : NameSpaceInfo :=
  mk_ns (namespace_name i) (namespace_id i) (Some v) (ns_deleted i) (ns_if_exist i) (ns_config i).
Definition with_ns_config (c : Config) (i : NameSpaceInfo) : NameSpaceInfo :=
  mk_ns (namespace_name i) (namespace_id i) (ns_version i) (ns_deleted i) (ns_if_exist i) c.

Definition create_namespace r m : outcome :=
  let info := namespace_info r in
  let n := namespaces m in
  if decide (is_Some (namespace_id_map n !! namespace_name info)) then
    Some (if flag (ns_if_exist info) then INPUT_PARAM_ERROR else SUCCESS, m)
  else
    id ← next_id (max_namespace_id n);
    let info := with_ns_version 1 (with_ns_id id info) in
    match ser_ns info with
    | None => Some (PARSE_TO_PB_FAIL, m)
    | Some value =>
        let '(ok, m) := put_meta_infos [(construct_namespace_key id, value);
                                        (construct_max_namespace_id_key, id_bytes id)] m in
        if ok : bool then
          Some (SUCCESS, with_namespaces (set_max_namespace_id id (set_namespace_info info n)) m)
        else Some (INTERNAL_ERROR, m)
    end.

(** [_database_ids[id]] adds an empty set for a new key. *)
Definition touch_database_ids (id : Z) (n : Namespaces) : Namespaces :=
  mk_namespaces (max_namespace_id n) (namespace_id_map n) (namespace_info_map n)
    (<[id := ids_at (database_ids n) id]> (database_ids n)).

Definition drop_namespace r m : outcome :=
  let info := namespace_info r in
  let n := namespaces m in
  match namespace_id_map n !! namespace_name info with
  | None => Some (if flag (ns_if_exist info) then SUCCESS else INPUT_PARAM_ERROR, m)
  | Some id =>
      let n := touch_database_ids id n in
      let m := with_namespaces n m in
      if decide (ids_at (database_ids n) id = ∅) then
        let '(ok, m) := delete_meta_info [construct_namespace_key id] m in
        if ok : bool then Some (SUCCESS, with_namespaces (erase_namespace_info (namespace_name info) n) m)
        else Some (INTERNAL_ERROR, m)
      else Some (INPUT_PARAM_ERROR, m)
  end.

(** A message never set. *)
Definition no_config : Config := mk_config None None None None None None None [] None [] [].
Definition no_ns : NameSpaceInfo := mk_ns [] None None None None no_config.
Definition no_db : DataBaseInfo := mk_db [] None [] None None None no_config None.

Definition modify_namespace r m : outcome :=
  let info := namespace_info r in
  let n := namespaces m in
  match namespace_id_map n !! namespace_name info with
  | None => Some (if flag (ns_if_exist info) then SUCCESS else INPUT_PARAM_ERROR, m)
  | Some id =>
      let old := default no_ns (namespace_info_map n !! id) in
      let tmp_info := if is_force_setting r then with_ns_id id info
                      else with_ns_config (override (ns_config info) (ns_config old)) old in
      let tmp_info := with_ns_version (num (ns_version old) + 1) tmp_info in
      match ser_ns tmp_info with
      | None => Some (PARSE_TO_PB_FAIL, m)
      | Some value =>
          let '(ok, m) := put_meta_info (construct_namespace_key id) value m in
          if ok : bool then Some (SUCCESS, with_namespaces (set_namespace_info tmp_info n) m)
          else Some (INTERNAL_ERROR, m)
      end
  end.

(** ** Privileges of a user *)

(** The ids of the names in a request; [None] when one does not exist. *)
Fixpoint check_databases (ns_name : bytes) (d : Databases) (l : list PrivilegeDatabase) :
    option (list PrivilegeDatabase) :=
  match l with
  | [] => Some []
  | p :: l =>
      let id := get_database_id (join ns_name (pd_database p)) d in
      if id =? 0 then None
      else l ← check_databases ns_name d l;
           Some (mk_pri_db (pd_database p) (Some id) (pd_rw p) (pd_force p) (pd_acl p) :: l)
  end.

Fixpoint check_tables (ns_name : bytes) (d : Databases) (t : Tables) (l : list PrivilegeTable) :
    option (list PrivilegeTable) :=
  match l with
  | [] => Some []
  | p :: l =>
      let base := join ns_name (pt_database p) in
      let db_id := get_database_id base d in
      if db_id =? 0 then None
      else
        let table_id := get_table_id (join base (pt_table_name p)) t in
        if table_id =? 0 then None
        else l ← check_tables ns_name d t l;
             Some (mk_pri_table (pt_database p) (Some db_id) (pt_table_name p) (Some table_id)
                     (pt_rw p) (pt_force p) (pt_acl p) :: l)
  end.

Definition with_pri (dbs : list PrivilegeDatabase) (ts : list PrivilegeTable) (p : UserPrivilege) : UserPrivilege :=
  mk_user (username p) (password p) (up_namespace_name p) (up_namespace_id p) dbs ts (bns p) (ip p)
    (switch_tables p) (up_version p) (encrypt p) (settings p) (up_acl p) (up_if_exist p).

Definition with_up_namespace (name : bytes) (id : Z) (p : UserPrivilege) : UserPrivilege :=
  mk_user (username p) (password p) name (Some id) (privilege_database p) (privilege_table p) (bns p) (ip p)
    (switch_tables p) (up_version p) (encrypt p) (settings p) (up_acl p) (up_if_exist p).

Definition with_up_version (v : Z) (p : UserPrivilege) : UserPrivilege :=
  mk_user (username p) (password p) (up_namespace_name p) (up_namespace_id p) (privilege_database p)
    (privilege_table p) (bns p) (ip p) (switch_tables p) (Some v) (encrypt p) (settings p) (up_acl p) (up_if_exist p).

Definition with_password (w : bytes) (p : UserPrivilege) : UserPrivilege :=
  mk_user (username p) (Some w) (up_namespace_name p) (up_namespace_id p) (privilege_database p)
    (privilege_table p) (bns p) (ip p) (switch_tables p) (up_version p) (encrypt p) (settings p) (up_acl p) (up_if_exist p).

Definition with_lists (b i : list bytes) (s : list Z) (p : UserPrivilege) : UserPrivilege :=
  mk_user (username p) (password p) (up_namespace_name p) (up_namespace_id p) (privilege_database p)
    (privilege_table p) b i s (up_version p) (encrypt p) (settings p) (up_acl p) (up_if_exist p).

Definition with_settings (s : Settings) (acl : option Z) (p : UserPrivilege) : UserPrivilege :=
  mk_user (username p) (password p) (up_namespace_name p) (up_namespace_id p) (privilege_database p)
    (privilege_table p) (bns p) (ip p) (switch_tables p) (up_version p) (encrypt p) s acl (up_if_exist p).

Definition check_and_get_for_privilege (p : UserPrivilege) m : option UserPrivilege :=
  let name := up_namespace_name p in
  let id := get_namespace_id name (namespaces m) in
  if id =? 0 then None
  else
    dbs ← check_databases name (databases m) (privilege_database p);
    ts ← check_tables name (databases m) (tables m) (privilege_table p);
    Some (with_pri dbs ts (with_up_namespace name id p)).

(** Access is raised, or set when forced, and the bits are added. *)
Definition raise_rw (new : option RW) (force : option bool) (old : option RW) : option RW :=
  match new with
  | None => old
  | Some w => if flag force then new else if rw_num (rw old) <? rw_num w then new else old
  end.
Definition grant_acl (new old : option Z) : option Z :=
  match new with None => old | Some a => Some (Z.lor (num old) a) end.
Definition revoke_acl (old : option Z) (a : Z) : Z := Z.land (num old) (u32 (Z.lnot a)).

(** The entry of the same database, raised; [None] when there is none. *)
Fixpoint raise_database (p : PrivilegeDatabase) (l : list PrivilegeDatabase) : option (list PrivilegeDatabase) :=
  match l with
  | [] => None
  | q :: l =>
      if num (pd_database_id q) =? num (pd_database_id p) then
        Some (mk_pri_db (pd_database q) (pd_database_id q) (raise_rw (pd_rw p) (pd_force p) (pd_rw q))
                (pd_force q) (grant_acl (pd_acl p) (pd_acl q)) :: l)
      else l ← raise_database p l; Some (q :: l)
  end.

(** The entries of the user and those that are new. *)
Definition insert_database_privilege (s : list PrivilegeDatabase * list PrivilegeDatabase) (p : PrivilegeDatabase) :
    list PrivilegeDatabase * list PrivilegeDatabase :=
  match raise_database p s.1 with
  | Some l => (l, s.2)
  | None => (s.1 ++ [p], s.2 ++ [p])
  end.

Definition same_table (p q : PrivilegeTable) : bool :=
  (num (pt_database_id q) =? num (pt_database_id p)) && (num (pt_table_id q) =? num (pt_table_id p)).

Fixpoint raise_table (p : PrivilegeTable) (l : list PrivilegeTable) : option (list PrivilegeTable) :=
  match l with
  | [] => None
  | q :: l =>
      if same_table p q then
        Some (mk_pri_table (pt_database q) (pt_database_id q) (pt_table_name q) (pt_table_id q)
                (raise_rw (pt_rw p) (pt_force p) (pt_rw q)) (pt_force q) (grant_acl (pt_acl p) (pt_acl q)) :: l)
      else l ← raise_table p l; Some (q :: l)
  end.

Definition insert_table_privilege (s : list PrivilegeTable * list PrivilegeTable) (p : PrivilegeTable) :
    list PrivilegeTable * list PrivilegeTable :=
  match raise_table p s.1 with
  | Some l => (l, s.2)
  | None => (s.1 ++ [p], s.2 ++ [p])
  end.

(** [insert_bns], [insert_ip] and [insert_switch_table]; [delete_bns] and the others. *)
Definition insert_new {A} `{EqDecision A} (l : list A) (x : A) : list A := if decide (x ∈ l) then l else l ++ [x].
Definition delete_all {A} `{EqDecision A} (l : list A) (x : A) : list A := filter (fun y => y <> x) l.

(** Less access replaces the entry, otherwise the entry goes; bits taken away leave
    a copy of the old entry. *)
Definition revoke_database (p : PrivilegeDatabase) (s : list PrivilegeDatabase * list PrivilegeDatabase)
    (q : PrivilegeDatabase) : list PrivilegeDatabase * list PrivilegeDatabase :=
  if num (pd_database_id q) =? num (pd_database_id p) then
    let s := match pd_rw p with
             | Some w => if rw_num w <? rw_num (rw (pd_rw q)) then (s.1 ++ [p], s.2) else (s.1, s.2 ++ [p])
             | None => (s.1, s.2 ++ [p])
             end in
    match pd_acl p with
    | Some a => (s.1 ++ [mk_pri_db (pd_database q) (pd_database_id q) (pd_rw q) (pd_force q)
                           (Some (revoke_acl (pd_acl q) a))], s.2)
    | None => s
    end
  else (s.1 ++ [q], s.2).

Definition delete_database_privilege (s : list PrivilegeDatabase * list PrivilegeDatabase) (p : PrivilegeDatabase) :
    list PrivilegeDatabase * list PrivilegeDatabase := foldl (revoke_database p) ([], s.2) s.1.

Definition revoke_table (p : PrivilegeTable) (s : list PrivilegeTable * list PrivilegeTable) (q : PrivilegeTable) :
    list PrivilegeTable * list PrivilegeTable :=
  if same_table p q then
    let s := match pt_rw p with
             | Some w => if rw_num w <? rw_num (rw (pt_rw q)) then (s.1 ++ [p], s.2) else (s.1, s.2 ++ [p])
             | None => (s.1, s.2 ++ [p])
             end in
    match pt_acl p with
    | Some a => (s.1 ++ [mk_pri_table (pt_database q) (pt_database_id q) (pt_table_name q) (pt_table_id q)
                           (pt_rw q) (pt_force q) (Some (revoke_acl (pt_acl q) a))], s.2)
    | None => s
    end
  else (s.1 ++ [q], s.2).

Definition delete_table_privilege (s : list PrivilegeTable * list PrivilegeTable) (p : PrivilegeTable) :
    list PrivilegeTable * list PrivilegeTable := foldl (revoke_table p) ([], s.2) s.1.

(** ** Users *)

Definition no_settings : Settings := mk_settings None None None None None None None None None.
Definition no_user : UserPrivilege := mk_user [] None [] None [] [] [] [] [] None None no_settings None None.
Definition request_user r : UserPrivilege := default no_user (user_privilege_of r).

(** The new value of a user: serialized, written and put into the map. *)
Definition save_user (u : bytes) (p : UserPrivilege) (update : Privileges -> Privileges) m : Errcode * Meta D :=
  match ser_user p with
  | None => (PARSE_TO_PB_FAIL, m)
  | Some value =>
      let '(ok, m) := put_meta_info (construct_privilege_key u) value m in
      if ok : bool then (SUCCESS, with_privileges (update (set_user u p (privileges m))) m) else (INTERNAL_ERROR, m)
  end.

Definition create_user r m : Errcode * Meta D :=
  let p := request_user r in
  if decide (is_Some (user_privilege (privileges m) !! username p)) then
    (if flag (up_if_exist p) then INPUT_PARAM_ERROR else SUCCESS, m)
  else
    match check_and_get_for_privilege p m with
    | None => (INPUT_PARAM_ERROR, m)
    | Some p => let p := with_up_version 1 p in save_user (username p) p (insert_db_tbl_user_map p) m
    end.

Definition drop_user r m : Errcode * Meta D :=
  let p := request_user r in
  match user_privilege (privileges m) !! username p with
  | None => (if flag (up_if_exist p) then SUCCESS else INPUT_PARAM_ERROR, m)
  | Some old =>
      let '(ok, m) := delete_meta_info [construct_privilege_key (username p)] m in
      if ok : bool then
        (SUCCESS, with_privileges (delete_db_tbl_user_map old (erase_user (username p) (privileges m))) m)
      else (INTERNAL_ERROR, m)
  end.

Definition modify_user r m : Errcode * Meta D :=
  let p := request_user r in
  match user_privilege (privileges m) !! username p with
  | None => (if flag (up_if_exist p) then SUCCESS else INPUT_PARAM_ERROR, m)
  | Some old =>
      match check_and_get_for_privilege p m with
      | None => (INPUT_PARAM_ERROR, m)
      | Some p =>
          let tmp_info := with_password (default [] (password p))
                            (with_up_namespace (up_namespace_name p) (num (up_namespace_id p)) old) in
          save_user (username p) (with_up_version (num (up_version old) + 1) tmp_info) id m
      end
  end.

Definition override_settings (new old : Settings) : Settings :=
  mk_settings (set_if (need_auth_addr new) (need_auth_addr old))
    (set_if (up_resource_tag new) (up_resource_tag old)) (set_if (ddl_permission new) (ddl_permission old))
    (set_if (txn_lock_timeout new) (txn_lock_timeout old)) (set_if (use_read_index new) (use_read_index old))
    (set_if (enable_plan_cache new) (enable_plan_cache old))
    (set_if (request_range_partition_type new) (request_range_partition_type old))
    (set_if (is_super new) (is_super old)) (set_if (is_request_additional new) (is_request_additional old)).

(** A message that names a user and the entries that came or went. *)
Definition change_of (u : bytes) (dbs : list PrivilegeDatabase) (ts : list PrivilegeTable) : UserPrivilege :=
  mk_user u None [] None dbs ts [] [] [] None None no_settings None None.

(** The privileges of a user after a grant, and the entries that are new. *)
Definition granted (p old : UserPrivilege) : UserPrivilege * UserPrivilege :=
  let '(dbs, new_dbs) := foldl insert_database_privilege (privilege_database old, []) (privilege_database p) in
  let '(ts, new_ts) := foldl insert_table_privilege (privilege_table old, []) (privilege_table p) in
  let tmp := with_pri dbs ts old in
  let tmp := with_lists (foldl insert_new (bns old) (bns p)) (foldl insert_new (ip old) (ip p))
               (foldl insert_new (switch_tables old) (switch_tables p)) tmp in
  let tmp := with_settings (override_settings (settings p) (settings old)) (grant_acl (up_acl p) (up_acl old)) tmp in
  (with_up_version (num (up_version old) + 1) tmp, change_of (username p) new_dbs new_ts).

Definition add_privilege r m : Errcode * Meta D :=
  let p := request_user r in
  match user_privilege (privileges m) !! username p with
  | None => (INPUT_PARAM_ERROR, m)
  | Some old =>
      match check_and_get_for_privilege p m with
      | None => (INPUT_PARAM_ERROR, m)
      | Some p =>
          let '(tmp, insert_privilege) := granted p old in
          save_user (username p) tmp (insert_db_tbl_user_map insert_privilege) m
      end
  end.

(** [drop_privilege] sets one setting and clears the resource tag it names. *)
Definition revoke_settings (new old : Settings) : Settings :=
  mk_settings (set_if (need_auth_addr new) (need_auth_addr old))
    (match up_resource_tag new, up_resource_tag old with
     | Some a, Some b => if decide (a = b) then None else Some b
     | _, tag => tag
     end)
    (ddl_permission old) (txn_lock_timeout old) (use_read_index old) (enable_plan_cache old)
    (request_range_partition_type old) (is_super old) (is_request_additional old).

(** The privileges of a user after a revocation, and the entries that went. *)
Definition revoked (p old : UserPrivilege) : UserPrivilege * UserPrivilege :=
  let '(dbs, old_dbs) := foldl delete_database_privilege (privilege_database old, []) (privilege_database p) in
  let '(ts, old_ts) := foldl delete_table_privilege (privilege_table old, []) (privilege_table p) in
  let tmp := with_pri dbs ts old in
  let tmp := with_lists (foldl delete_all (bns old) (bns p)) (foldl delete_all (ip old) (ip p))
               (foldl delete_all (switch_tables old) (switch_tables p)) tmp in
  let tmp := with_settings (revoke_settings (settings p) (settings old))
               (match up_acl p with Some a => Some (revoke_acl (up_acl old) a) | None => up_acl old end) tmp in
  (with_up_version (num (up_version old) + 1) tmp, change_of (username p) old_dbs old_ts).

Definition drop_privilege r m : Errcode * Meta D :=
  let p := request_user r in
  match user_privilege (privileges m) !! username p with
  | None => (INPUT_PARAM_ERROR, m)
  | Some old =>
      match check_and_get_for_privilege p m with
      | None => (INPUT_PARAM_ERROR, m)
      | Some p =>
          let '(tmp, delete_privilege) := revoked p old in
          save_user (username p) tmp (delete_db_tbl_user_map delete_privilege) m
      end
  end.

(** The entries that are valid moved to the front by exchanges, and their number. *)
Fixpoint compact {A} (valid : A -> bool) (todo : nat) (slow fast : nat) (l : list A) : list A * nat :=
  match todo with
  | O => (l, slow)
  | S todo =>
      match l !! fast with
      | Some x => if valid x then compact valid todo (S slow) (S fast) (swap_at l slow fast)
                  else compact valid todo slow (S fast) l
      | None => (l, slow)
      end
  end.

(** The entries kept, and the others from the last to the first. *)
Definition drop_invalid {A} (valid : A -> bool) (l : list A) : list A * list A :=
  let '(l, slow) := compact valid (length l) 0 0 l in
  (take slow l, reverse (drop slow l)).

Definition valid_database m (p : PrivilegeDatabase) : bool :=
  bool_decide (is_Some (database_info_map (databases m) !! num (pd_database_id p))).
Definition valid_table m (p : PrivilegeTable) : bool :=
  bool_decide (num (pt_table_id p) ∈ table_info_map (tables m)).

Fixpoint drop_invalid_loop (users : list (bytes * UserPrivilege)) m : Errcode * Meta D :=
  match users with
  | [] => (SUCCESS, m)
  | (u, p) :: users =>
      let '(dbs, old_dbs) := drop_invalid (valid_database m) (privilege_database p) in
      let '(ts, old_ts) := drop_invalid (valid_table m) (privilege_table p) in
      if ((0 <? length old_dbs) || (0 <? length old_ts))%nat then
        let tmp := with_up_version (num (up_version p) + 1) (with_pri dbs ts p) in
        let '(e, m) := save_user u tmp (delete_db_tbl_user_map (change_of u old_dbs old_ts)) m in
        match e with SUCCESS => drop_invalid_loop users m | _ => (e, m) end
      else drop_invalid_loop users m
  end.

Definition drop_invalid_privilege m : Errcode * Meta D :=
  drop_invalid_loop (users_order (user_privilege (privileges m))) m.

(** ** Databases *)

Definition inherit (own parent : Config) : Config :=
  mk_config (quota own)
    (match resource_tag own with
     | Some _ => resource_tag own
     | None => match default [] (resource_tag parent) with [] => None | tag => Some tag end
     end)
    (set_if (engine own) (engine parent)) (set_if (charset own) (charset parent))
    (set_if (byte_size_per_record own) (byte_size_per_record parent))
    (set_if (replica_num own) (replica_num parent)) (set_if (region_split_lines own) (region_split_lines parent))
    (set_if_any (dists own) (dists parent)) (set_if (main_logical_room own) (main_logical_room parent))
    (set_if_any (learner_resource_tags own) (learner_resource_tags parent))
    (set_if_any (binlog_infos own) (binlog_infos parent)).

Definition with_db_ids (id ns_id : Z) (i : DataBaseInfo) : DataBaseInfo :=
  mk_db (database i) (Some id) (db_namespace_name i) (Some ns_id) (db_version i) (db_deleted i) (db_config i)
    (partition_info_str i).
Definition with_db_version (v : Z) (i : DataBaseInfo) : DataBaseInfo :=
  mk_db (database i) (database_id i) (db_namespace_name i) (db_namespace_id i) (Some v) (db_deleted i) (db_config i)
    (partition_info_str i).
Definition with_db_config (c : Config) (part : option bytes) (i : DataBaseInfo) : DataBaseInfo :=
  mk_db (database i) (database_id i) (db_namespace_name i) (db_namespace_id i) (db_version i) (db_deleted i) c part.

Definition add_privilege_for_database r m : Meta D :=
  match user_privilege_of r with
  | None => m
  | Some _ => (add_privilege r m).2
  end.

Definition create_database r m : outcome :=
  let info := database_info r in
  let ns_name := db_namespace_name info in
  let ns_id := get_namespace_id ns_name (namespaces m) in
  if ns_id =? 0 then Some (INPUT_PARAM_ERROR, m)
  else if decide (is_Some (database_id_map (databases m) !! db_name info)) then Some (INPUT_PARAM_ERROR, m)
  else
    id ← next_id (max_database_id (databases m));
    let info := with_db_ids id ns_id info in
    let info := match namespace_info_map (namespaces m) !! ns_id with
                | Some ns => with_db_config (inherit (db_config info) (ns_config ns)) (partition_info_str info) info
                | None => info
                end in
    let info := with_db_version 1 info in
    match ser_db info with
    | None => Some (PARSE_TO_PB_FAIL, m)
    | Some value =>
        let '(ok, m) := put_meta_infos [(construct_database_key id, value);
                                        (construct_max_database_id_key, id_bytes id)] m in
        if ok : bool then
          let m := with_databases (set_max_database_id id (set_database_info info (databases m))) m in
          let m := with_namespaces (add_database_id ns_id id (namespaces m)) m in
          Some (SUCCESS, add_privilege_for_database r m)
        else Some (INTERNAL_ERROR, m)
    end.

(** The request to take a database from a user. *)
Definition drop_request (info : DataBaseInfo) (u : bytes) : MetaManagerRequest :=
  mk_request no_ns no_db
    (Some (mk_user u None (db_namespace_name info) None [mk_pri_db (database info) None None None None] []
             [] [] [] None None no_settings None None)) false.

Definition drop_privilege_for_database r (id : Z) m : Meta D :=
  match db_user_map (privileges m) !! id with
  | None => m
  | Some user_set =>
      foldl (fun m u => (drop_privilege (drop_request (database_info r) u) m).2) m (names_order user_set)
  end.

Definition touch_table_ids (id : Z) (d : Databases) : Databases :=
  mk_databases (max_database_id d) (database_id_map d) (database_info_map d)
    (<[id := ids_at (table_ids d) id]> (table_ids d)).

Definition drop_database r m : outcome :=
  let info := database_info r in
  let ns_id := get_namespace_id (db_namespace_name info) (namespaces m) in
  if ns_id =? 0 then Some (INPUT_PARAM_ERROR, m)
  else
    match database_id_map (databases m) !! db_name info with
    | None => Some (INPUT_PARAM_ERROR, m)
    | Some id =>
        let m := with_databases (touch_table_ids id (databases m)) m in
        if decide (ids_at (table_ids (databases m)) id = ∅) then
          let m := drop_privilege_for_database r id m in
          let '(ok, m) := delete_meta_info [construct_database_key id] m in
          if ok : bool then
            let m := with_databases (erase_database_info (db_name info) (databases m)) m in
            Some (SUCCESS, with_namespaces (delete_database_id ns_id id (namespaces m)) m)
          else Some (INTERNAL_ERROR, m)
        else Some (INPUT_PARAM_ERROR, m)
    end.

Definition modify_database r m : outcome :=
  let info := database_info r in
  let ns_id := get_namespace_id (db_namespace_name info) (namespaces m) in
  if ns_id =? 0 then Some (INPUT_PARAM_ERROR, m)
  else
    match database_id_map (databases m) !! db_name info with
    | None => Some (INPUT_PARAM_ERROR, m)
    | Some id =>
        let old := default no_db (database_info_map (databases m) !! id) in
        let tmp := if is_force_setting r then with_db_ids id ns_id info
                   else with_db_config (override (db_config info) (db_config old))
                          (set_if (partition_info_str info) (partition_info_str old)) old in
        let tmp := with_db_version (num (db_version old) + 1) tmp in
        match ser_db tmp with
        | None => Some (PARSE_TO_PB_FAIL, m)
        | Some value =>
            let '(ok, m) := put_meta_info (construct_database_key id) value m in
            if ok : bool then Some (SUCCESS, with_databases (set_database_info tmp (databases m)) m)
            else Some (INTERNAL_ERROR, m)
        end
    end.

(** ** Dispatch *)

Inductive OpType :=
| OP_CREATE_NAMESPACE | OP_DROP_NAMESPACE | OP_MODIFY_NAMESPACE
| OP_CREATE_DATABASE | OP_DROP_DATABASE | OP_MODIFY_DATABASE
| OP_CREATE_USER | OP_DROP_USER | OP_MODIFY_USER
| OP_ADD_PRIVILEGE | OP_DROP_PRIVILEGE | OP_DROP_INVALID_PRIVILEGE.

Definition apply_request (op : OpType) r m : outcome :=
  match op with
  | OP_CREATE_NAMESPACE => create_namespace r m
  | OP_DROP_NAMESPACE => drop_namespace r m
  | OP_MODIFY_NAMESPACE => modify_namespace r m
  | OP_CREATE_DATABASE => create_database r m
  | OP_DROP_DATABASE => drop_database r m
  | OP_MODIFY_DATABASE => modify_database r m
  | OP_CREATE_USER => Some (create_user r m)
  | OP_DROP_USER => Some (drop_user r m)
  | OP_MODIFY_USER => Some (modify_user r m)
  | OP_ADD_PRIVILEGE => Some (add_privilege r m)
  | OP_DROP_PRIVILEGE => Some (drop_privilege r m)
  | OP_DROP_INVALID_PRIVILEGE => Some (drop_invalid_privilege m)
  end.

(** ** Snapshots *)

(** The kinds of keys kept by other managers; loading one may change the tables and
    the table ids of databases. *)
Variable load_other : bytes -> bytes -> Databases * Tables -> option (Databases * Tables).

Definition starts_with (prefix k : bytes) : bool := bool_decide (take (length prefix) k = prefix).

(** The counters of tables and regions belong to other managers. *)
Definition load_max_id_snapshot (key value : bytes) m : option (Meta D) :=
  if decide (key = MAX_NAMESPACE_ID_KEY) then
    max_id ← mem_load value 0 8;
    Some (with_namespaces (set_max_namespace_id (i64 max_id) (namespaces m)) m)
  else if decide (key = MAX_DATABASE_ID_KEY) then
    max_id ← mem_load value 0 8;
    Some (with_databases (set_max_database_id (i64 max_id) (databases m)) m)
  else Some m.

Definition load_namespace_snapshot (value : bytes) m : option (Meta D) :=
  info ← parse_ns value;
  Some (with_namespaces (set_namespace_info info (namespaces m)) m).

Definition load_database_snapshot (value : bytes) m : option (Meta D) :=
  info ← parse_db value;
  let m := with_databases (set_database_info info (databases m)) m in
  Some (with_namespaces (add_database_id (num (db_namespace_id info)) (num (database_id info)) (namespaces m)) m).

Definition load_schema_entry (kv : bytes * bytes) m : option (Meta D) :=
  let '(k, v) := kv in
  if starts_with (SCHEMA_IDENTIFY ++ DATABASE_SCHEMA_IDENTIFY) k then load_database_snapshot v m
  else if starts_with (SCHEMA_IDENTIFY ++ NAMESPACE_SCHEMA_IDENTIFY) k then load_namespace_snapshot v m
  else if starts_with (SCHEMA_IDENTIFY ++ MAX_ID_SCHEMA_IDENTIFY) k then load_max_id_snapshot (drop 2 k) v m
  else
    '(d, t) ← load_other k v (databases m, tables m);
    Some (mk_meta (namespaces m) d (privileges m) t (store m) (fates m)).

Fixpoint load_entries (step : bytes * bytes -> Meta D -> option (Meta D)) (l : list (bytes * bytes)) m :
    option (Meta D) :=
  match l with
  | [] => Some m
  | kv :: l => m ← step kv m; load_entries step l m
  end.

(** [SchemaManager::load_snapshot]. *)
Definition load_schema_snapshot m : option (Meta D) :=
  let m := with_namespaces (clear_namespaces (namespaces m)) m in
  let m := with_databases (clear_databases (databases m)) m in
  load_entries load_schema_entry (db_scan (store m) 1 SCHEMA_IDENTIFY) m.

Definition load_user_entry (kv : bytes * bytes) m : option (Meta D) :=
  p ← parse_user kv.2;
  Some (with_privileges (insert_db_tbl_user_map p (set_user (drop 1 kv.1) p (privileges m))) m).

(** [PrivilegeManager::load_snapshot]. *)
Definition load_privilege_snapshot m : option (Meta D) :=
  load_entries load_user_entry (db_scan (store m) 1 PRIVILEGE_IDENTIFY) (with_privileges no_privileges m).

(** The end of [on_snapshot_load], for these managers. *)
Definition load_catalog m : option (Meta D) :=
  m ← load_privilege_snapshot m; load_schema_snapshot m.

End Operations.
