(* ===== verification/MetaFamily.v ===== *)
(** * Families of catalog entries

    Facts shared by the managers of the catalog: maps built by loops, entries known
    by name and by identifier with their copies in the store, and the index from
    databases to their users. *)

From stdpp Require Import gmap.
From S2P Require Import Prelude KvStore MetaState.

(** ** Maps built by loops *)

Section Loops.
Context {K A V : Type} `{Countable K} (f : A -> K) (g : A -> V).

Definition insert_all (m : gmap K V) (l : list A) : gmap K V := foldl (fun m x => <[f x := g x]> m) m l.

Lemma insert_all_other m l k : k ∉ f <$> l -> insert_all m l !! k = m !! k.
Proof.
  revert m. induction l as [|x l IH]; intros m Hk; [done|]. cbn. rewrite fmap_cons, not_elem_of_cons in Hk.
  destruct Hk as [Hx Hk]. unfold insert_all in *. rewrite IH by done. by rewrite lookup_insert_ne.
Qed.

Lemma insert_all_in m l x : NoDup (f <$> l) -> x ∈ l -> insert_all m l !! f x = Some (g x).
Proof.
  revert m. induction l as [|y l IH]; intros m Hn Hx; [by apply not_elem_of_nil in Hx|].
  rewrite fmap_cons, NoDup_cons in Hn. destruct Hn as [Hy Hn]. apply elem_of_cons in Hx as [->|Hx].
  - cbn. pose proof (insert_all_other (<[f y := g y]> m) l (f y) Hy) as E. unfold insert_all in E. rewrite E.
    by rewrite lookup_insert_eq.
  - by apply IH.
Qed.

Lemma insert_all_lookup l k v :
  NoDup (f <$> l) -> insert_all ∅ l !! k = Some v <-> exists x, x ∈ l /\ f x = k /\ g x = v.
Proof.
  intros Hn. split.
  - intros E. destruct (decide (k ∈ f <$> l)) as [Hk|Hk].
    + apply list_elem_of_fmap in Hk as (x & -> & Hx). rewrite insert_all_in in E by done. exists x. by simplify_eq.
    + by rewrite insert_all_other in E.
  - intros (x & Hx & <- & <-). by apply insert_all_in.
Qed.

(** Values selected from entries with distinct keys. *)
Lemma omap_nodup {E : Type} (h : bytes * E -> option A) (l : list (bytes * E)) :
  NoDup l.*1 ->
  (forall a b x y, a ∈ l -> b ∈ l -> h a = Some x -> h b = Some y -> f x = f y -> a.1 = b.1) ->
  NoDup (f <$> omap h l).
Proof.
  induction l as [|a l IH]; intros Hn Hh; [constructor|]. cbn in Hn. apply NoDup_cons in Hn as [Ha Hn].
  assert (NoDup (f <$> omap h l)) as Hr.
  { apply IH; [done|]. intros ? ? ? ? ? ?. apply Hh; by right. }
  cbn. destruct (h a) as [x|] eqn:Eh; [|exact Hr]. cbn. apply NoDup_cons. split; [|exact Hr].
  intros Hx. apply list_elem_of_fmap in Hx as (y & Ef & Hy). apply list_elem_of_omap in Hy as (b & Hb & Eb).
  apply Ha. rewrite (Hh a b x y); [|by left|by right|done..]. by apply list_elem_of_fmap_2.
Qed.

End Loops.

(** ** Sets at keys *)

(** The sets of a map up to keys without elements. *)
Definition same_ids (a b : gmap Z (gset Z)) : Prop := forall k, ids_at a k = ids_at b k.

#[export] Instance same_ids_equiv : Equivalence same_ids.
Proof. split; [by intros a k|by intros a b H k|intros a b c H1 H2 k; by rewrite H1]. Qed.

Lemma ids_at_insert {K V} `{Countable K, Countable V} (m : gmap K (gset V)) k s k' :
  ids_at (<[k := s]> m) k' = if decide (k' = k) then s else ids_at m k'.
Proof. unfold ids_at. destruct (decide (k' = k)) as [->|]; by simplify_map_eq. Qed.

Lemma ids_at_delete {K V} `{Countable K, Countable V} (m : gmap K (gset V)) k k' :
  ids_at (delete k m) k' = if decide (k' = k) then ∅ else ids_at m k'.
Proof. unfold ids_at. destruct (decide (k' = k)) as [->|]; by simplify_map_eq. Qed.

Definition add_ids {A} (k : A -> Z) (v : A -> Z) (m : gmap Z (gset Z)) (l : list A) : gmap Z (gset Z) :=
  foldl (fun m x => <[k x := {[v x]} ∪ ids_at m (k x)]> m) m l.

Lemma add_ids_elem {A} (k v : A -> Z) m l a b :
  b ∈ ids_at (add_ids k v m l) a <-> b ∈ ids_at m a \/ exists x, x ∈ l /\ k x = a /\ v x = b.
Proof.
  revert m. induction l as [|x l IH]; intros m.
  { split; [by left|]. intros [?|(x & Hx & _)]; [done|]. by apply not_elem_of_nil in Hx. }
  unfold add_ids in *. cbn. rewrite IH, ids_at_insert. setoid_rewrite elem_of_cons.
  case_decide as Ha; [subst a; rewrite elem_of_union, elem_of_singleton|]; naive_solver.
Qed.

(** ** The index from identifiers to users *)

Section Index.
Implicit Types (m : gmap Z (gset bytes)) (R : bytes -> Z -> Prop).

Definition index_ok m R : Prop := (forall id u, u ∈ ids_at m id <-> R u id) /\ forall id, m !! id <> Some ∅.

Lemma index_unique m m' R : index_ok m R -> index_ok m' R -> m = m'.
Proof.
  intros [H1 N1] [H2 N2]. apply map_eq. intros id.
  assert (ids_at m id = ids_at m' id) as E by (apply set_eq; intros u; by rewrite H1, H2).
  unfold ids_at in E. specialize (N1 id). specialize (N2 id).
  destruct (m !! id) as [s|], (m' !! id) as [s'|]; cbn in E; congruence.
Qed.

Lemma index_proper m R R' : (forall u id, R u id <-> R' u id) -> index_ok m R -> index_ok m R'.
Proof. intros E [H N]. split; [|done]. intros. by rewrite H, E. Qed.

Lemma index_empty : index_ok ∅ (fun _ _ => False).
Proof. split; [|done]. intros id u. unfold ids_at. rewrite lookup_empty. cbn. set_solver. Qed.

Lemma add_user_index u ids m R :
  index_ok m R -> index_ok (add_user u ids m) (fun v id => R v id \/ v = u /\ id ∈ ids).
Proof.
  revert m R. induction ids as [|i ids IH]; intros m R [Hm N]; cbn [add_user].
  { eapply index_proper; [|by split]. intros v id. rewrite elem_of_nil. naive_solver. }
  eapply index_proper; [|apply (IH _ (fun v id => R v id \/ v = u /\ id = i))].
  - intros v id. cbn. rewrite elem_of_cons. naive_solver.
  - split.
    + intros id v. rewrite ids_at_insert. case_decide as E; [subst id; rewrite elem_of_union, elem_of_singleton|];
        rewrite Hm; naive_solver.
    + intros id E. destruct (decide (id = i)) as [->|]; [|rewrite lookup_insert_ne in E by done; by apply (N id)].
      rewrite lookup_insert_eq in E. simplify_eq. set_solver.
Qed.

Lemma remove_user_index u ids m R :
  index_ok m R -> index_ok (remove_user u ids m) (fun v id => R v id /\ ~ (v = u /\ id ∈ ids)).
Proof.
  revert m R. induction ids as [|i ids IH]; intros m R [Hm N]; cbn [remove_user].
  { eapply index_proper; [|by split]. intros v id. rewrite elem_of_nil. naive_solver. }
  eapply index_proper; [|apply (IH _ (fun v id => R v id /\ ~ (v = u /\ id = i)))].
  - intros v id. cbn. rewrite elem_of_cons. naive_solver.
  - split.
    + intros id v. assert (v ∈ (if decide (id = i) then ids_at m i ∖ {[u]} else ids_at m id)
        <-> R v id /\ ~ (v = u /\ id = i)) as G.
      { case_decide as E; [subst id; rewrite elem_of_difference, elem_of_singleton|]; rewrite Hm; naive_solver. }
      rewrite <- G. destruct (decide (ids_at m i ∖ {[u]} = ∅)) as [Es|Es]; [rewrite ids_at_delete|by rewrite ids_at_insert].
      destruct (decide (id = i)); [by rewrite Es|done].
    + intros id E. destruct (decide (ids_at m i ∖ {[u]} = ∅)) as [Es|Es].
      * destruct (decide (id = i)) as [->|]; [by rewrite lookup_delete_eq in E|].
        rewrite lookup_delete_ne in E by done. by apply (N id).
      * destruct (decide (id = i)) as [->|]; [rewrite lookup_insert_eq in E; congruence|].
        rewrite lookup_insert_ne in E by done. by apply (N id).
Qed.

End Index.

(** ** Entries known by name and by identifier *)

Section Family.
Context {Info : Type} (name_of : Info -> bytes) (id_of : Info -> option Z).
Implicit Types (idm : gmap bytes Z) (infm : gmap Z Info) (max_id : Z).

(** The two maps describe each other, and identifiers are handed out upwards. *)
Record family_ok max_id idm infm : Prop := {
  max_range : 0 <= max_id < 2 ^ 63;
  info_named id info : infm !! id = Some info -> id_of info = Some id /\ idm !! name_of info = Some id /\ 1 <= id <= max_id;
  name_known name id : idm !! name = Some id -> exists info, infm !! id = Some info /\ name_of info = name
}.

Lemma family_empty : family_ok 0 ∅ ∅.
Proof. split; [lia|done..]. Qed.

Lemma family_new max_id idm infm info :
  family_ok max_id idm infm -> idm !! name_of info = None -> id_of info = Some (max_id + 1) -> max_id + 1 < 2 ^ 63 ->
  family_ok (max_id + 1) (<[name_of info := max_id + 1]> idm) (<[max_id + 1 := info]> infm).
Proof.
  intros [R I N] Hn Hi Hm. split; [lia| |].
  - intros id i. destruct (decide (id = max_id + 1)) as [->|Hne].
    + rewrite lookup_insert_eq. intros [= <-]. rewrite lookup_insert_eq. split_and!; [done|done|lia..].
    + rewrite lookup_insert_ne by done. intros (E & En & Hr)%I.
      rewrite lookup_insert_ne by congruence. split_and!; [done|done|lia..].
  - intros name id. destruct (decide (name = name_of info)) as [->|Hne].
    + rewrite lookup_insert_eq. intros [= <-]. exists info. by rewrite lookup_insert_eq.
    + rewrite lookup_insert_ne by done. intros (i & Ei & En)%N. exists i. split; [|done].
      rewrite lookup_insert_ne; [done|]. apply I in Ei as (_ & _ & ?). lia.
Qed.

Lemma family_replace max_id idm infm id old info :
  family_ok max_id idm infm -> infm !! id = Some old -> name_of info = name_of old -> id_of info = Some id ->
  <[name_of info := id]> idm = idm /\ family_ok max_id idm (<[id := info]> infm).
Proof.
  intros [R I N] Eo En Ei. destruct (I id old Eo) as (_ & Ed & Hr).
  split; [by rewrite insert_id by congruence|]. split; [done| |].
  - intros id' i. destruct (decide (id' = id)) as [->|Hne].
    + rewrite lookup_insert_eq. intros [= <-]. split_and!; [done|congruence|lia..].
    + rewrite lookup_insert_ne by done. apply I.
  - intros name id' Hk. destruct (N name id' Hk) as (i & Hi & <-). destruct (decide (id' = id)) as [->|Hne].
    + exists info. rewrite lookup_insert_eq. split; [done|congruence].
    + exists i. by rewrite lookup_insert_ne.
Qed.

Lemma family_erase max_id idm infm name id :
  family_ok max_id idm infm -> idm !! name = Some id -> family_ok max_id (delete name idm) (delete id infm).
Proof.
  intros [R I N] Hk. destruct (N name id Hk) as (old & Eo & En). split; [done| |].
  - intros id' i Hi. apply lookup_delete_Some in Hi as [Hne Hi]. destruct (I id' i Hi) as (E & Ed & Hr).
    split_and!; [done| |lia..]. rewrite lookup_delete_ne; [done|]. congruence.
  - intros name' id' Hd. apply lookup_delete_Some in Hd as [Hne Hd]. destruct (N name' id' Hd) as (i & Hi & Ei).
    exists i. split; [|done]. rewrite lookup_delete_ne; [done|]. intros ->. congruence.
Qed.

(** *** Their copies in the store *)

Context {D : Type} `{RocksDbLaws D, Host} (prefix : bytes) (parse : bytes -> option Info) (max_key : bytes).
Context (Hprefix : length prefix = 2%nat) (Hmax : take 2 max_key <> prefix).
Implicit Types (d : D).

Definition key (id : Z) : bytes := prefix ++ id_bytes id.

Lemma id_bytes_inj a b : 0 <= a < 2 ^ 63 -> 0 <= b < 2 ^ 63 -> id_bytes a = id_bytes b -> a = b.
Proof.
  intros Ha Hb E. unfold id_bytes in E. apply (f_equal mem_value) in E.
  rewrite !wrap_id in E by (unfold is_u; lia). rewrite !mem_value_store in E; [done|cbn; lia..].
Qed.

Lemma key_prefix id : take 2 (key id) = prefix.
Proof. unfold key. by rewrite <- Hprefix, take_app_length. Qed.

Lemma key_inj a b : 0 <= a < 2 ^ 63 -> 0 <= b < 2 ^ 63 -> key a = key b -> a = b.
Proof. intros Ha Hb E. unfold key in E. apply app_inv_head in E. by apply id_bytes_inj. Qed.

Lemma key_not_max id : key id <> max_key.
Proof. intros E. apply Hmax. by rewrite <- E, key_prefix. Qed.

Record family_stored d max_id infm : Prop := {
  info_stored id info : infm !! id = Some info -> exists b, db_get d (key id) = Some b /\ parse b = Some info;
  stored_info k b : take 2 k = prefix -> db_get d k = Some b ->
    exists id info, k = key id /\ infm !! id = Some info /\ parse b = Some info;
  max_stored : db_get d max_key = if max_id =? 0 then None else Some (id_bytes max_id)
}.

(** Other keys do not matter. *)
Lemma stored_frame d d' max_id infm :
  (forall k, take 2 k = prefix \/ k = max_key -> db_get d' k = db_get d k) ->
  family_stored d max_id infm -> family_stored d' max_id infm.
Proof.
  intros F [S1 S2 S3]. split.
  - intros id info Hi. rewrite F by (left; apply key_prefix). by apply S1.
  - intros k b Hk. rewrite F by by left. by apply S2.
  - rewrite F by by right. done.
Qed.

Lemma stored_put d max_id infm id info b :
  (forall i x, infm !! i = Some x -> 0 <= i < 2 ^ 63) -> 0 <= id < 2 ^ 63 ->
  family_stored d max_id infm -> parse b = Some info ->
  family_stored (db_put d (key id) b) max_id (<[id := info]> infm).
Proof.
  intros Hr Hid [S1 S2 S3] Hb. split.
  - intros i x. destruct (decide (i = id)) as [->|Hne].
    + rewrite lookup_insert_eq. intros [= <-]. exists b. by rewrite get_put, decide_True.
    + rewrite lookup_insert_ne by done. intros Hi. destruct (S1 i x Hi) as (b' & E & P). exists b'.
      rewrite get_put, decide_False; [done|]. intros Ek. apply Hne, key_inj; [by eapply Hr|done|done].
  - intros k b' Hk. rewrite get_put. case_decide as E.
    + intros [= <-]. exists id, info. by rewrite lookup_insert_eq.
    + intros Hg. destruct (S2 k b' Hk Hg) as (i & x & -> & Hi & P). exists i, x. split; [done|]. split; [|done].
      rewrite lookup_insert_ne; [done|]. intros ->. by apply E.
  - rewrite get_put, decide_False; [done|]. intros E. by apply (key_not_max id).
Qed.

Lemma stored_max d max_id infm id :
  id <> 0 -> family_stored d max_id infm -> family_stored (db_put d max_key (id_bytes id)) id infm.
Proof.
  intros Hid [S1 S2 S3]. split.
  - intros i x Hi. destruct (S1 i x Hi) as (b & E & P). exists b. rewrite get_put, decide_False by apply key_not_max. done.
  - intros k b Hk. rewrite get_put, decide_False; [by apply S2|]. intros ->. by apply Hmax.
  - rewrite get_put, decide_True by done. destruct (Z.eqb_spec id 0); done.
Qed.

Lemma stored_delete d max_id infm id :
  (forall i x, infm !! i = Some x -> 0 <= i < 2 ^ 63) -> 0 <= id < 2 ^ 63 ->
  family_stored d max_id infm -> family_stored (db_delete d (key id)) max_id (delete id infm).
Proof.
  intros Hr Hid [S1 S2 S3]. split.
  - intros i x Hi. apply lookup_delete_Some in Hi as [Hne Hi]. destruct (S1 i x Hi) as (b & E & P). exists b.
    rewrite get_delete, decide_False; [done|]. intros Ek. apply Hne. symmetry. apply key_inj; [by eapply Hr|done|done].
  - intros k b Hk. rewrite get_delete. case_decide as E; [done|]. intros Hg.
    destruct (S2 k b Hk Hg) as (i & x & -> & Hi & P). exists i, x. split; [done|]. split; [|done].
    rewrite lookup_delete_ne; [done|]. intros ->. by apply E.
  - rewrite get_delete, decide_False; [done|]. intros E. by apply (key_not_max id).
Qed.

(** *** Reading them back *)

(** The entries of the family among keys and values. *)
Definition select (kv : bytes * bytes) : option Info :=
  if bool_decide (take 2 kv.1 = prefix) then parse kv.2 else None.

Lemma selected_entry max_id idm infm d (l : list (bytes * bytes)) kv info :
  family_ok max_id idm infm -> family_stored d max_id infm ->
  (forall k b, (k, b) ∈ l -> db_get d k = Some b) -> kv ∈ l -> select kv = Some info ->
  exists id, kv.1 = key id /\ infm !! id = Some info /\ id_of info = Some id /\ idm !! name_of info = Some id.
Proof.
  intros F S Hl Hkv E. destruct kv as [k b]. unfold select in E. case_bool_decide as Hk; [|done]. cbn in *.
  destruct (stored_info _ _ _ S k b Hk (Hl _ _ Hkv)) as (id & x & -> & Hx & P). exists id.
  assert (x = info) as -> by congruence. destruct (info_named _ _ _ F id info Hx) as (? & ? & _). done.
Qed.

Lemma family_rebuilt max_id idm infm d (l : list (bytes * bytes)) :
  family_ok max_id idm infm -> family_stored d max_id infm ->
  NoDup l.*1 -> (forall k b, take 2 k = prefix -> (k, b) ∈ l <-> db_get d k = Some b) ->
  (forall k b, (k, b) ∈ l -> db_get d k = Some b) ->
  insert_all (fun i => num (id_of i)) id ∅ (omap select l) = infm
  /\ insert_all name_of (fun i => num (id_of i)) ∅ (omap select l) = idm
  /\ forall info, info ∈ omap select l <-> exists id, infm !! id = Some info.
Proof.
  intros F S Hn Hin Hl.
  pose proof (fun kv info => selected_entry max_id idm infm d l kv info F S Hl) as Sel.
  assert (forall info, info ∈ omap select l <-> exists id, infm !! id = Some info) as El.
  { intros info. rewrite list_elem_of_omap. split.
    - intros (kv & Hkv & E). destruct (Sel kv info Hkv E) as (id & _ & ? & _). by exists id.
    - intros (id & Hi). destruct (info_stored _ _ _ S id info Hi) as (b & Hg & P). exists (key id, b).
      split; [by apply Hin; [apply key_prefix|]|]. unfold select. cbn. by rewrite key_prefix, bool_decide_eq_true_2. }
  assert (forall (K : Type) (g : Info -> K), (forall x y, (exists i, infm !! i = Some x) -> (exists j, infm !! j = Some y) ->
    g x = g y -> id_of x = id_of y) -> NoDup (g <$> omap select l)) as ND.
  { intros K g Hg. apply omap_nodup; [done|]. intros a b x y Ha Hb Ex Ey Eg.
    destruct (Sel a x Ha Ex) as (i & -> & Hi & Ii & _), (Sel b y Hb Ey) as (j & -> & Hj & Ij & _).
    assert (id_of x = id_of y) by (apply Hg; [by exists i|by exists j|done]). f_equal. congruence. }
  split_and!; [| |done].
  - apply map_eq. intros k. apply option_eq. intros v.
    rewrite insert_all_lookup.
    2:{ apply ND. intros x y (i & Hi) (j & Hj) E.
        apply (info_named _ _ _ F) in Hi as (Ei & _), Hj as (Ej & _). rewrite Ei, Ej in *. cbn in *. congruence. }
    split.
    + intros (x & (i & Hi)%El & <- & <-). pose proof (info_named _ _ _ F i x Hi) as (-> & _). done.
    + intros Hv. exists v. split; [apply El; by exists k|]. pose proof (info_named _ _ _ F k v Hv) as (-> & _). done.
  - apply map_eq. intros k. apply option_eq. intros v. rewrite insert_all_lookup.
    2:{ apply ND. intros x y (i & Hi) (j & Hj) E.
        apply (info_named _ _ _ F) in Hi as (Ei & ? & _), Hj as (Ej & ? & _). congruence. }
    split.
    + intros (x & (i & Hi)%El & <- & <-). pose proof (info_named _ _ _ F i x Hi) as (-> & ? & _). done.
    + intros Hv. destruct (name_known _ _ _ F k v Hv) as (x & Hx & <-). exists x.
      split; [apply El; by exists v|]. split; [done|]. by destruct (info_named _ _ _ F v x Hx) as (-> & _).
Qed.

End Family.
