(* ===== verification/MetaCatalogFacts.v ===== *)
(** * Facts about the catalog of the meta server

    Every operation keeps the maps and the store in agreement, whichever writes fail,
    and loading a snapshot of the store gives the maps back. *)

From stdpp Require Import gmap.
From S2P Require Import Prelude KvStore MetaState MetaCatalog MetaFamily.

(** A name that the separator cannot split. *)
Definition plain (name : bytes) : Prop := 1 ∉ name.

Lemma join_inj a b a' b' : plain a -> plain a' -> join a b = join a' b' -> a = a' /\ b = b'.
Proof.
  unfold join, plain. revert a'. induction a as [|x a IH]; intros [|y a'] Ha Ha' E; cbn in E; simplify_eq; try done.
  - by destruct Ha'; left.
  - by destruct Ha; left.
  - rewrite not_elem_of_cons in Ha, Ha'. destruct (IH a') as [-> ->]; tauto.
Qed.

Section Catalog.
Context {D : Type} `{RocksDbLaws D} `{Host} `{MetaCodecLaws} `{HashOrderLaws}.
Implicit Types (m : Meta D) (n : Namespaces) (d : D).

Abbreviation ns_prefix := (SCHEMA_IDENTIFY ++ NAMESPACE_SCHEMA_IDENTIFY).
Abbreviation db_prefix := (SCHEMA_IDENTIFY ++ DATABASE_SCHEMA_IDENTIFY).

Definition ns_family n : Prop :=
  family_ok namespace_name namespace_id (max_namespace_id n) (namespace_id_map n) (namespace_info_map n).
Definition db_family (x : Databases) : Prop :=
  family_ok db_name database_id (max_database_id x) (database_id_map x) (database_info_map x).
Definition ns_stored d n : Prop :=
  family_stored ns_prefix parse_ns construct_max_namespace_id_key d (max_namespace_id n) (namespace_info_map n).
Definition db_stored d (x : Databases) : Prop :=
  family_stored db_prefix parse_db construct_max_database_id_key d (max_database_id x) (database_info_map x).

(** Databases lie in the namespace they name, and the sets of a namespace list them. *)
Record placed n (x : Databases) : Prop := {
  ns_plain name id : namespace_id_map n !! name = Some id -> plain name;
  db_home id info : database_info_map x !! id = Some info ->
    exists ns_id, db_namespace_id info = Some ns_id /\ namespace_id_map n !! db_namespace_name info = Some ns_id;
  db_listed ns_id id : id ∈ ids_at (database_ids n) ns_id <->
    exists info, database_info_map x !! id = Some info /\ db_namespace_id info = Some ns_id
}.

(** The users in memory are those in the store. *)
Record users_stored d (users : gmap bytes UserPrivilege) : Prop := {
  user_stored u p : users !! u = Some p -> username p = u /\
    exists b, db_get d (construct_privilege_key u) = Some b /\ parse_user b = Some p;
  stored_user k b : take 1 k = PRIVILEGE_IDENTIFY -> db_get d k = Some b ->
    exists u p, k = construct_privilege_key u /\ users !! u = Some p /\ parse_user b = Some p
}.

Record catalog_inv m : Prop := {
  inv_ns : ns_family (namespaces m);
  inv_db : db_family (databases m);
  inv_placed : placed (namespaces m) (databases m);
  inv_ns_stored : ns_stored (store m) (namespaces m);
  inv_db_stored : db_stored (store m) (databases m);
  inv_users : users_stored (store m) (user_privilege (privileges m))
}.

(** ** Writes *)

(** The rest of the state does not change, and the store only if the write succeeds. *)
Lemma write_cases f m ok m' :
  write f m = (ok, m') ->
  namespaces m' = namespaces m /\ databases m' = databases m /\ privileges m' = privileges m
  /\ tables m' = tables m /\ store m' = if ok : bool then f (store m) else store m.
Proof. unfold write. destruct (default true (head (fates m))); intros [= <- <-]; done. Qed.

(** States that agree on what the invariant speaks of. *)
Definition same_core m m' : Prop :=
  namespaces m' = namespaces m /\ databases m' = databases m
  /\ user_privilege (privileges m') = user_privilege (privileges m) /\ store m' = store m.

Lemma core_inv m m' : same_core m m' -> catalog_inv m -> catalog_inv m'.
Proof. intros (E1 & E2 & E3 & E4) []. split; by rewrite ?E1, ?E2, ?E3, ?E4. Qed.

Lemma failed_write f m m' : write f m = (false, m') -> catalog_inv m -> catalog_inv m'.
Proof. intros E. apply core_inv. destruct (write_cases f m false m' E) as (? & ? & E3 & _ & ?). split_and!; by rewrite ?E3. Qed.

(** ** Kinds of keys *)

Lemma ns_key_id id : construct_namespace_key id = key ns_prefix id.
Proof. done. Qed.
Lemma db_key_id id : construct_database_key id = key db_prefix id.
Proof. done. Qed.

(** What a change of one kind of keys leaves alone. *)
Lemma users_frame d d' users :
  (forall k, take 1 k = PRIVILEGE_IDENTIFY -> db_get d' k = db_get d k) -> users_stored d users -> users_stored d' users.
Proof.
  intros F [S1 S2]. split.
  - intros u p Hu. rewrite F by done. by apply S1.
  - intros k b Hk. rewrite F by done. by apply S2.
Qed.

Lemma schema_key_not_user k : take 1 k = SCHEMA_IDENTIFY -> take 1 k <> PRIVILEGE_IDENTIFY.
Proof. by intros ->. Qed.

(** A key of a family is none of the other family and no user. *)
Ltac other_key :=
  match goal with
  | |- context [db_get (db_put _ ?k _) ?k'] => rewrite (get_put _ k), decide_False
  | |- context [db_get (db_delete _ ?k) ?k'] => rewrite (get_delete _ k), decide_False
  end.

Lemma family_ids {Info} (name_of : Info -> bytes) id_of max_id idm infm :
  family_ok name_of id_of max_id idm infm -> forall i x, infm !! i = Some x -> 0 <= i < 2 ^ 63.
Proof. intros F i x Hi. destruct (info_named _ _ _ _ _ F i x Hi) as (_ & _ & ?). pose proof (max_range _ _ _ _ _ F). lia. Qed.

Lemma ns_change_frames d d' :
  (forall k, take 2 k <> ns_prefix -> k <> construct_max_namespace_id_key -> db_get d' k = db_get d k) ->
  forall x users, db_stored d x -> users_stored d users -> db_stored d' x /\ users_stored d' users.
Proof.
  intros F x users Hx Hu. split.
  - revert Hx. apply stored_frame; [done|]. intros k [Hk| ->]; apply F; [rewrite Hk; intros E; discriminate E|intros ->; discriminate Hk|intros E; discriminate E..].
  - revert Hu. apply users_frame. intros [|c k] Hk; [done|]. injection Hk as ->.
    apply F; intros E; discriminate E.
Qed.

Lemma db_change_frames d d' :
  (forall k, take 2 k <> db_prefix -> k <> construct_max_database_id_key -> db_get d' k = db_get d k) ->
  forall n users, ns_stored d n -> users_stored d users -> ns_stored d' n /\ users_stored d' users.
Proof.
  intros F x users Hx Hu. split.
  - revert Hx. apply stored_frame; [done|]. intros k [Hk| ->]; apply F; [rewrite Hk; intros E; discriminate E|intros ->; discriminate Hk|intros E; discriminate E..].
  - revert Hu. apply users_frame. intros [|c k] Hk; [done|]. injection Hk as ->.
    apply F; intros E; discriminate E.
Qed.

Lemma user_change_frames d d' :
  (forall k, take 1 k <> PRIVILEGE_IDENTIFY -> db_get d' k = db_get d k) ->
  forall n x, ns_stored d n -> db_stored d x -> ns_stored d' n /\ db_stored d' x.
Proof.
  intros F n x Hn Hx. split.
  - revert Hn. apply stored_frame; [done|]. intros k [Hk| ->]; apply F; [|intros E; discriminate E].
    destruct k as [|c k]; [done|]. injection Hk as -> _. intros E. discriminate E.
  - revert Hx. apply stored_frame; [done|]. intros k [Hk| ->]; apply F; [|intros E; discriminate E].
    destruct k as [|c k]; [done|]. injection Hk as -> _. intros E. discriminate E.
Qed.

Lemma family_create {Info} prefix (parse : bytes -> option Info) max_key d max_id infm id info b :
  length prefix = 2%nat -> take 2 max_key <> prefix ->
  (forall i x, infm !! i = Some x -> 0 <= i < 2 ^ 63) -> 1 <= id < 2 ^ 63 ->
  family_stored prefix parse max_key d max_id infm -> parse b = Some info ->
  family_stored prefix parse max_key (foldl (fun d kv => db_put d kv.1 kv.2) d [(key prefix id, b); (max_key, id_bytes id)])
    id (<[id := info]> infm).
Proof.
  intros Hl Hm Hr Hid S Hb. cbn [foldl fst snd].
  refine (stored_max prefix parse max_key Hl Hm _ _ _ _ _
            (stored_put prefix parse max_key Hl Hm _ _ _ _ _ _ Hr _ S Hb)); lia.
Qed.

(** ** Namespaces *)

Lemma next_id_range max_id id : next_id max_id = Some id -> id = max_id + 1 /\ max_id + 1 < 2 ^ 63.
Proof. unfold next_id. destruct (Z.ltb_spec max_id (2 ^ 63 - 1)); intros [= <-]. lia. Qed.

Lemma create_namespace_inv r m e m' :
  plain (namespace_name (namespace_info r)) -> catalog_inv m -> create_namespace r m = Some (e, m') -> catalog_inv m'.
Proof.
  intros Hp I. unfold create_namespace. set (info := namespace_info r) in *.
  case_decide as Hk; [by intros [= _ <-]|]. apply eq_None_not_Some in Hk.
  destruct (next_id _) as [id|] eqn:En; [|done]. cbn [mbind option_bind]. apply next_id_range in En as [-> Hr].
  set (id := max_namespace_id (namespaces m) + 1) in *. set (i := with_ns_version 1 (with_ns_id id info)).
  destruct (ser_ns i) as [b|] eqn:Es; [|by intros [= _ <-]].
  destruct (put_meta_infos _ m) as [[|] m1] eqn:Ew; intros [= _ <-]; [|by apply (failed_write _ _ _ Ew)].
  apply write_cases in Ew as (E1 & E2 & E3 & _ & E4). destruct I as [In Idb Ip Sn Sd Su].
  assert (1 <= id) as Hid by (pose proof (max_range _ _ _ _ _ In); lia).
  assert (forall k, take 2 k <> ns_prefix -> k <> construct_max_namespace_id_key ->
    db_get (store m1) k = db_get (store m) k) as F.
  { intros k Hk1 Hk2. rewrite E4. cbn [foldl fst snd]. do 2 (other_key; [|congruence || (intros ->; done)]). done. }
  destruct (ns_change_frames _ _ F _ _ Sd Su) as [Sd' Su'].
  split; cbn [with_namespaces namespaces databases privileges store]; rewrite ?E2, ?E3; [|done| | |done|done].
  - exact (family_new namespace_name namespace_id _ _ _ i In Hk eq_refl Hr).
  - destruct Ip as [P1 P2 P3]. split; cbn [set_max_namespace_id set_namespace_info namespace_id_map database_ids].
    + intros name x. destruct (decide (name = namespace_name info)) as [->|]; [done|]. cbn.
      rewrite lookup_insert_ne by done. apply P1.
    + intros x y Hx. destruct (P2 x y Hx) as (ns_id & ? & Hn). exists ns_id. split; [done|].
      rewrite lookup_insert_ne; [done|]. cbn. intros E. congruence.
    + exact P3.
  - rewrite E4. apply (family_create ns_prefix parse_ns construct_max_namespace_id_key (store m)
      (max_namespace_id (namespaces m)) (namespace_info_map (namespaces m)) id i b);
      [done|done|by eapply family_ids|lia|exact Sn|by apply ns_roundtrip].
Qed.

Lemma set_ns_eq i id n :
  namespace_id i = Some id ->
  set_namespace_info i n =
  mk_namespaces (max_namespace_id n) (<[namespace_name i := id]> (namespace_id_map n))
    (<[id := i]> (namespace_info_map n)) (database_ids n).
Proof. intros E. unfold set_namespace_info. by rewrite E. Qed.

Lemma set_db_eq i id (x : Databases) :
  database_id i = Some id ->
  set_database_info i x =
  mk_databases (max_database_id x) (<[db_name i := id]> (database_id_map x))
    (<[id := i]> (database_info_map x)) (table_ids x).
Proof. intros E. unfold set_database_info. by rewrite E. Qed.

(** A lookup that creates an empty set changes nothing that is read. *)
Lemma touch_namespace_inv id m : catalog_inv m -> catalog_inv (with_namespaces (touch_database_ids id (namespaces m)) m).
Proof.
  intros [In Idb [P1 P2 P3] Sn Sd Su]. split; try done. split; try done.
  intros ns_id x. rewrite <- P3. cbn. rewrite ids_at_insert. by case_decide as E; [subst|].
Qed.

Lemma touch_table_inv id m : catalog_inv m -> catalog_inv (with_databases (touch_table_ids id (databases m)) m).
Proof. intros [In Idb [P1 P2 P3] Sn Sd Su]. by split. Qed.

Lemma delete_namespace_inv name id m m1 :
  catalog_inv m -> namespace_id_map (namespaces m) !! name = Some id -> ids_at (database_ids (namespaces m)) id = ∅ ->
  delete_meta_info [construct_namespace_key id] m = (true, m1) ->
  catalog_inv (with_namespaces (erase_namespace_info name (namespaces m)) m1).
Proof.
  intros I Hn Hempty Ew. apply write_cases in Ew as (E1 & E2 & E3 & _ & E4). destruct I as [In Idb Ip Sn Sd Su].
  destruct (name_known _ _ _ _ _ In name id Hn) as (info & Hi & En).
  pose proof (family_ids _ _ _ _ _ In id info Hi) as Hid.
  assert (forall k, take 2 k <> ns_prefix -> k <> construct_max_namespace_id_key ->
    db_get (store m1) k = db_get (store m) k) as F.
  { intros k Hk1 Hk2. rewrite E4. cbn [foldl]. other_key; [done|]. intros ->. by apply Hk1. }
  destruct (ns_change_frames _ _ F _ _ Sd Su) as [Sd' Su'].
  split; cbn [with_namespaces namespaces databases privileges store]; rewrite ?E2, ?E3; [|done| | |done|done];
    unfold erase_namespace_info; rewrite Hn.
  - exact (family_erase _ _ _ _ _ _ _ In Hn).
  - destruct Ip as [P1 P2 P3]. split; cbn [namespace_id_map database_ids default].
    + intros nm x Hx. apply lookup_delete_Some in Hx as [_ Hx]. by apply (P1 nm x).
    + intros x y Hx. destruct (P2 x y Hx) as (ns_id & Hs & Hm). exists ns_id. split; [done|].
      rewrite lookup_delete_ne; [done|]. intros ->. assert (ns_id = id) as -> by congruence.
      assert (x ∈ ids_at (database_ids (namespaces m)) id) as Hx' by (apply P3; by exists y).
      rewrite Hempty in Hx'. by apply elem_of_empty in Hx'.
    + intros ns_id x. rewrite <- P3, ids_at_delete. case_decide as E; [cbn in E; by rewrite E, Hempty|done].
  - rewrite E4. apply (stored_delete ns_prefix parse_ns construct_max_namespace_id_key);
      [done|done|by eapply family_ids|exact Hid|exact Sn].
Qed.

Lemma drop_namespace_inv r m e m' : catalog_inv m -> drop_namespace r m = Some (e, m') -> catalog_inv m'.
Proof.
  intros I. unfold drop_namespace. set (name := namespace_name (namespace_info r)).
  destruct (namespace_id_map (namespaces m) !! name) as [id|] eqn:En; [|by intros [= _ <-]].
  pose proof (touch_namespace_inv id m I) as I'. set (m0 := with_namespaces _ m) in *.
  case_decide as Hempty; [|by intros [= _ <-]].
  destruct (delete_meta_info _ m0) as [[|] m1] eqn:Ew; intros [= _ <-]; [|by apply (failed_write _ _ _ Ew)].
  exact (delete_namespace_inv name id m0 m1 I' En Hempty Ew).
Qed.

Lemma modify_namespace_inv r m e m' : catalog_inv m -> modify_namespace r m = Some (e, m') -> catalog_inv m'.
Proof.
  intros I. unfold modify_namespace. set (info := namespace_info r).
  destruct (namespace_id_map (namespaces m) !! namespace_name info) as [id|] eqn:Hn; [|by intros [= _ <-]].
  pose proof (inv_ns _ I) as In. destruct (name_known _ _ _ _ _ In _ id Hn) as (old & Ho & En).
  rewrite Ho. cbn [default]. destruct (info_named _ _ _ _ _ In id old Ho) as (Hio & _ & Hr).
  set (i := with_ns_version _ _).
  assert (namespace_name i = namespace_name old /\ namespace_id i = Some id) as [Ni Ii]
    by (unfold i; by destruct (is_force_setting r)).
  destruct (ser_ns i) as [b|] eqn:Es; [|by intros [= _ <-]].
  destruct (put_meta_info _ b m) as [[|] m1] eqn:Ew; intros [= _ <-]; [|by apply (failed_write _ _ _ Ew)].
  apply write_cases in Ew as (E1 & E2 & E3 & _ & E4). destruct I as [_ Idb Ip Sn Sd Su].
  pose proof (family_ids _ _ _ _ _ In id old Ho) as Hid.
  assert (forall k, take 2 k <> ns_prefix -> k <> construct_max_namespace_id_key ->
    db_get (store m1) k = db_get (store m) k) as F.
  { intros k Hk1 Hk2. rewrite E4. other_key; [done|]. intros ->. by apply Hk1. }
  destruct (ns_change_frames _ _ F _ _ Sd Su) as [Sd' Su'].
  destruct (family_replace _ _ _ _ _ id old i In Ho Ni Ii) as [Em Fm].
  rewrite (set_ns_eq i id) by done. rewrite Em.
  split; cbn [with_namespaces namespaces databases privileges store]; rewrite ?E2, ?E3; [| done | | | done | done].
  - exact Fm.
  - by destruct Ip as [P1 P2 P3].
  - rewrite E4. apply (stored_put ns_prefix parse_ns construct_max_namespace_id_key);
      [done|done|by eapply family_ids|lia|exact Sn|by apply ns_roundtrip].
Qed.

(** ** Users *)

Lemma put_user d users u p b :
  users_stored d users -> username p = u -> parse_user b = Some p ->
  users_stored (db_put d (construct_privilege_key u) b) (<[u := p]> users).
Proof.
  intros [S1 S2] Hu Hb. split.
  - intros v q. destruct (decide (v = u)) as [->|Hne].
    + rewrite lookup_insert_eq. intros [= <-]. split; [done|]. exists b. by rewrite get_put, decide_True.
    + rewrite lookup_insert_ne by done. intros Hq. destruct (S1 v q Hq) as (? & b' & E & P). split; [done|].
      exists b'. rewrite get_put, decide_False; [done|]. intros Ek. by injection Ek.
  - intros k b' Hk. rewrite get_put. case_decide as E.
    + intros [= <-]. exists u, p. by rewrite lookup_insert_eq.
    + intros Hg. destruct (S2 k b' Hk Hg) as (v & q & -> & Hq & P). exists v, q. split; [done|]. split; [|done].
      rewrite lookup_insert_ne; [done|]. intros ->. by apply E.
Qed.

Lemma delete_user d users u :
  users_stored d users -> users_stored (db_delete d (construct_privilege_key u)) (delete u users).
Proof.
  intros [S1 S2]. split.
  - intros v q Hq. apply lookup_delete_Some in Hq as [Hne Hq]. destruct (S1 v q Hq) as (? & b & E & P).
    split; [done|]. exists b. rewrite get_delete, decide_False; [done|]. intros Ek. injection Ek. congruence.
  - intros k b Hk. rewrite get_delete. case_decide as E; [done|]. intros Hg.
    destruct (S2 k b Hk Hg) as (v & q & -> & Hq & P). exists v, q. split; [done|]. split; [|done].
    rewrite lookup_delete_ne; [done|]. intros ->. by apply E.
Qed.

(** A change of the users and their keys. *)
Lemma users_changed m m1 p' :
  catalog_inv m -> namespaces m1 = namespaces m -> databases m1 = databases m ->
  (forall k, take 1 k <> PRIVILEGE_IDENTIFY -> db_get (store m1) k = db_get (store m) k) ->
  users_stored (store m1) (user_privilege p') -> catalog_inv (with_privileges p' m1).
Proof.
  intros [In Idb Ip Sn Sd Su] E1 E2 F S. destruct (user_change_frames _ _ F _ _ Sn Sd).
  split; cbn [with_privileges namespaces databases privileges store]; by rewrite ?E1, ?E2.
Qed.

Lemma save_user_inv u p update m e m' :
  catalog_inv m -> username p = u -> (forall s, user_privilege (update s) = user_privilege s) ->
  save_user u p update m = (e, m') -> catalog_inv m'.
Proof.
  intros I Hu Hup. unfold save_user. destruct (ser_user p) as [b|] eqn:Es; [|by intros [= _ <-]].
  destruct (put_meta_info _ b m) as [[|] m1] eqn:Ew; intros [= _ <-]; [|by apply (failed_write _ _ _ Ew)].
  apply write_cases in Ew as (E1 & E2 & E3 & _ & E4). apply (users_changed m); [done..| |].
  - intros k Hk. rewrite E4. other_key; [done|]. intros ->. by apply Hk.
  - rewrite Hup, E4, E3. apply put_user; [apply I|done|by apply user_roundtrip].
Qed.

Lemma check_username p m p' : check_and_get_for_privilege p m = Some p' -> username p' = username p.
Proof.
  unfold check_and_get_for_privilege. destruct (_ =? 0); [done|].
  destruct (check_databases _ _ _); [|done]. cbn. by destruct (check_tables _ _ _ _); intros [= <-].
Qed.

Lemma create_user_inv r m e m' : catalog_inv m -> create_user r m = (e, m') -> catalog_inv m'.
Proof.
  intros I. unfold create_user. case_decide; [by intros [= _ <-]|].
  destruct (check_and_get_for_privilege _ m) as [p|] eqn:Ec; [|by intros [= _ <-]].
  by apply save_user_inv.
Qed.

Lemma drop_user_inv r m e m' : catalog_inv m -> drop_user r m = (e, m') -> catalog_inv m'.
Proof.
  intros I. unfold drop_user. destruct (user_privilege (privileges m) !! _) as [old|]; [|by intros [= _ <-]].
  destruct (delete_meta_info _ m) as [[|] m1] eqn:Ew; intros [= _ <-]; [|by apply (failed_write _ _ _ Ew)].
  apply write_cases in Ew as (E1 & E2 & E3 & _ & E4). apply (users_changed m); [done..| |].
  - intros k Hk. rewrite E4. cbn [foldl]. other_key; [done|]. intros ->. by apply Hk.
  - rewrite E4, E3. apply delete_user, I.
Qed.

(** The users keep their names. *)
Lemma known_username m u p : catalog_inv m -> user_privilege (privileges m) !! u = Some p -> username p = u.
Proof. intros I Hp. by destruct (user_stored _ _ (inv_users _ I) u p Hp). Qed.

Lemma modify_user_inv r m e m' : catalog_inv m -> modify_user r m = (e, m') -> catalog_inv m'.
Proof.
  intros I. unfold modify_user. destruct (user_privilege (privileges m) !! _) as [old|] eqn:Eo; [|by intros [= _ <-]].
  destruct (check_and_get_for_privilege _ m) as [p|] eqn:Ec; [|by intros [= _ <-]].
  apply save_user_inv; [done| |done]. apply check_username in Ec. rewrite Ec. by apply (known_username m) in Eo.
Qed.

Lemma granted_username p old : username (granted p old).1 = username old.
Proof.
  unfold granted. by destruct (foldl insert_database_privilege _ _), (foldl insert_table_privilege _ _).
Qed.

Lemma revoked_username p old : username (revoked p old).1 = username old.
Proof.
  unfold revoked. by destruct (foldl delete_database_privilege _ _), (foldl delete_table_privilege _ _).
Qed.

Lemma add_privilege_inv r m e m' : catalog_inv m -> add_privilege r m = (e, m') -> catalog_inv m'.
Proof.
  intros I. unfold add_privilege. destruct (user_privilege (privileges m) !! _) as [old|] eqn:Eo; [|by intros [= _ <-]].
  destruct (check_and_get_for_privilege _ m) as [p|] eqn:Ec; [|by intros [= _ <-]].
  pose proof (granted_username p old) as G. destruct (granted p old) as [tmp ins].
  apply save_user_inv; [done| |done]. apply check_username in Ec. rewrite Ec. cbn in G. rewrite G.
  by apply (known_username m) in Eo.
Qed.

Lemma drop_privilege_inv r m e m' : catalog_inv m -> drop_privilege r m = (e, m') -> catalog_inv m'.
Proof.
  intros I. unfold drop_privilege. destruct (user_privilege (privileges m) !! _) as [old|] eqn:Eo; [|by intros [= _ <-]].
  destruct (check_and_get_for_privilege _ m) as [p|] eqn:Ec; [|by intros [= _ <-]].
  pose proof (revoked_username p old) as G. destruct (revoked p old) as [tmp ins].
  apply save_user_inv; [done| |done]. apply check_username in Ec. rewrite Ec. cbn in G. rewrite G.
  by apply (known_username m) in Eo.
Qed.

Lemma drop_invalid_loop_inv users m e m' :
  catalog_inv m -> (forall u p, (u, p) ∈ users -> username p = u) -> drop_invalid_loop users m = (e, m') -> catalog_inv m'.
Proof.
  revert m. induction users as [|[u p] users IH]; intros m I Hu; cbn [drop_invalid_loop]; [by intros [= _ <-]|].
  assert (forall u p, (u, p) ∈ users -> username p = u) as Hu' by (intros; apply Hu; by right).
  destruct (drop_invalid (valid_database m) _) as [dbs old_dbs], (drop_invalid (valid_table m) _) as [ts old_ts].
  destruct ((_ || _)%nat); [|by apply IH].
  destruct (save_user _ _ _ m) as [e1 m1] eqn:Es.
  assert (catalog_inv m1) as I1.
  { apply (save_user_inv _ _ _ _ _ _ I) in Es; [done| |done]. apply (Hu u p). by left. }
  destruct e1; [by apply IH|by intros [= _ <-]..].
Qed.

Lemma drop_invalid_privilege_inv m e m' : catalog_inv m -> drop_invalid_privilege m = (e, m') -> catalog_inv m'.
Proof.
  intros I. apply drop_invalid_loop_inv; [done|]. intros u p Hp.
  rewrite users_order_perm in Hp. apply elem_of_map_to_list in Hp. by apply (known_username m).
Qed.

(** ** Databases *)

(** A namespace found has an identifier other than 0. *)
Lemma known_namespace m name :
  catalog_inv m -> get_namespace_id name (namespaces m) <> 0 ->
  namespace_id_map (namespaces m) !! name = Some (get_namespace_id name (namespaces m)).
Proof. unfold get_namespace_id. by destruct (namespace_id_map (namespaces m) !! name). Qed.

(** A change of the databases and their keys. *)
Lemma databases_changed m m1 n' x' :
  catalog_inv m -> privileges m1 = privileges m ->
  (forall k, take 2 k <> db_prefix -> k <> construct_max_database_id_key -> db_get (store m1) k = db_get (store m) k) ->
  namespace_info_map n' = namespace_info_map (namespaces m) -> namespace_id_map n' = namespace_id_map (namespaces m) ->
  max_namespace_id n' = max_namespace_id (namespaces m) ->
  db_family x' -> db_stored (store m1) x' -> placed n' x' ->
  catalog_inv (with_namespaces n' (with_databases x' m1)).
Proof.
  intros [In Idb Ip Sn Sd Su] E3 F N1 N2 N3 Fx Sx P. destruct (db_change_frames _ _ F _ _ Sn Su) as [Sn' Su'].
  split; cbn [with_namespaces with_databases namespaces databases privileges store]; rewrite ?E3; try done.
  - unfold ns_family. by rewrite N1, N2, N3.
  - unfold ns_stored. by rewrite N1, N3.
Qed.

Lemma new_database_placed n x i id ns_id :
  placed n x -> db_family x -> database_id i = Some id -> db_namespace_id i = Some ns_id -> id = max_database_id x + 1 ->
  namespace_id_map n !! db_namespace_name i = Some ns_id ->
  placed (add_database_id ns_id id n)
    (mk_databases id (<[db_name i := id]> (database_id_map x)) (<[id := i]> (database_info_map x)) (table_ids x)).
Proof.
  intros [P1 P2 P3] F Hi Hns Hid Hm.
  assert (forall y, database_info_map x !! id = Some y -> False) as New.
  { intros y Hy. destruct (info_named _ _ _ _ _ F id y Hy) as (_ & _ & ?). lia. }
  split; [done| |].
  - intros j y. cbn. destruct (decide (j = id)) as [->|].
    + rewrite lookup_insert_eq. intros [= <-]. by exists ns_id.
    + rewrite lookup_insert_ne by done. apply P2.
  - intros k j. cbn. rewrite ids_at_insert. destruct (decide (j = id)) as [->|Hne].
    + rewrite lookup_insert_eq. case_decide as E.
      * subst k. split; [intros _; by exists i|set_solver].
      * rewrite P3. split; [intros (y & Hy & _); by apply New in Hy|]. intros (y & [= <-] & Hy). congruence.
    + rewrite lookup_insert_ne by done. rewrite <- P3. case_decide as E; [subst k; set_solver|done].
Qed.

Lemma create_database_inv r m e m' : catalog_inv m -> create_database r m = Some (e, m') -> catalog_inv m'.
Proof.
  intros I. unfold create_database. set (info := database_info r).
  set (ns_id := get_namespace_id _ _). destruct (Z.eqb_spec ns_id 0) as [|Hns]; [by intros [= _ <-]|].
  case_decide as Hk; [by intros [= _ <-]|]. apply eq_None_not_Some in Hk.
  destruct (next_id _) as [id|] eqn:En; [|done]. cbn [mbind option_bind]. apply next_id_range in En as [Eid Hr].
  set (i0 := match namespace_info_map (namespaces m) !! ns_id with Some _ => _ | None => _ end).
  set (i := with_db_version 1 i0).
  assert (database_id i = Some id /\ db_namespace_id i = Some ns_id /\ db_namespace_name i = db_namespace_name info
    /\ database i = database info) as (Ii & Ni & Nn & Nd)
    by (unfold i, i0; by destruct (namespace_info_map (namespaces m) !! ns_id)).
  assert (db_name i = db_name info) as Dn by (unfold db_name; by rewrite Nn, Nd).
  destruct (ser_db i) as [b|] eqn:Es; [|by intros [= _ <-]].
  destruct (put_meta_infos _ m) as [[|] m1] eqn:Ew; intros [= _ <-]; [|by apply (failed_write _ _ _ Ew)].
  apply write_cases in Ew as (E1 & E2 & E3 & _ & E4). pose proof (inv_db _ I) as Fx.
  rewrite E2, (set_db_eq i id) by done. cbn [with_databases namespaces]. rewrite E1.
  assert (catalog_inv (with_namespaces (add_database_id ns_id id (namespaces m))
    (with_databases (mk_databases id (<[db_name i := id]> (database_id_map (databases m)))
       (<[id := i]> (database_info_map (databases m))) (table_ids (databases m))) m1))) as I1.
  { apply (databases_changed m); [done|done| |done|done|done| | |].
    - intros k Hk1 Hk2. rewrite E4. cbn [foldl fst snd]. do 2 (other_key; [|congruence || (intros ->; done)]). done.
    - unfold db_family. cbn [max_database_id database_id_map database_info_map]. subst id.
      refine (family_new db_name database_id _ _ _ i Fx _ Ii Hr). by rewrite Dn.
    - unfold db_stored. cbn [max_database_id database_info_map]. rewrite E4.
      apply (family_create db_prefix parse_db construct_max_database_id_key (store m)
        (max_database_id (databases m)) (database_info_map (databases m)) id i b);
        [done|done|by eapply family_ids| |apply I|by apply db_roundtrip].
      pose proof (max_range _ _ _ _ _ Fx). lia.
    - apply new_database_placed; [apply I|done..|]. rewrite Nn. by apply (known_namespace m). }
  unfold add_privilege_for_database. destruct (user_privilege_of r); [|done].
  destruct (add_privilege r _) as [e2 m2] eqn:Ea. by eapply add_privilege_inv.
Qed.

Lemma drop_privilege_for_database_inv r id m : catalog_inv m -> catalog_inv (drop_privilege_for_database r id m).
Proof.
  intros I. unfold drop_privilege_for_database. destruct (db_user_map (privileges m) !! id) as [s|]; [|done].
  generalize (names_order s) as us. intros us. revert m I. induction us as [|u us IH]; intros m I; [done|].
  cbn. apply IH. destruct (drop_privilege _ m) as [e m1] eqn:E. by eapply drop_privilege_inv.
Qed.

(** Taking privileges changes neither namespaces nor databases nor tables. *)
Lemma save_user_other u p update m :
  namespaces (save_user u p update m).2 = namespaces m /\ databases (save_user u p update m).2 = databases m
  /\ tables (save_user u p update m).2 = tables m.
Proof.
  unfold save_user. destruct (ser_user p); [|done]. destruct (put_meta_info _ _ m) as [[|] m1] eqn:Ew;
    by apply write_cases in Ew as (? & ? & _ & ? & _).
Qed.

Lemma drop_privilege_other r m :
  namespaces (drop_privilege r m).2 = namespaces m /\ databases (drop_privilege r m).2 = databases m
  /\ tables (drop_privilege r m).2 = tables m.
Proof.
  unfold drop_privilege. destruct (user_privilege (privileges m) !! _); [|done].
  destruct (check_and_get_for_privilege _ m); [|done]. destruct (revoked _ _). apply save_user_other.
Qed.

Lemma drop_privileges_other r id m :
  namespaces (drop_privilege_for_database r id m) = namespaces m
  /\ databases (drop_privilege_for_database r id m) = databases m
  /\ tables (drop_privilege_for_database r id m) = tables m.
Proof.
  unfold drop_privilege_for_database. destruct (db_user_map (privileges m) !! id) as [s|]; [|done].
  generalize (names_order s) as us. intros us. revert m. induction us as [|u us IH]; intros m; [done|]. cbn.
  destruct (IH (drop_privilege (drop_request (database_info r) u) m).2) as (-> & -> & ->). apply drop_privilege_other.
Qed.

(** The database of a request lies in the namespace of the request. *)
Lemma request_database m info id y :
  catalog_inv m -> get_namespace_id (db_namespace_name info) (namespaces m) <> 0 ->
  database_id_map (databases m) !! db_name info = Some id -> database_info_map (databases m) !! id = Some y ->
  db_namespace_name y = db_namespace_name info /\ database y = database info
  /\ db_namespace_id y = Some (get_namespace_id (db_namespace_name info) (namespaces m)).
Proof.
  intros I Hns Hn Hy. destruct (name_known _ _ _ _ _ (inv_db _ I) _ _ Hn) as (y' & Hy' & En).
  assert (y' = y) as -> by congruence. destruct (db_home _ _ (inv_placed _ I) id y Hy) as (j & Hj & Hm).
  pose proof (known_namespace m _ I Hns) as Hk.
  destruct (join_inj (db_namespace_name y) (database y) (db_namespace_name info) (database info)) as [E1 E2].
  - by apply (ns_plain _ _ (inv_placed _ I) _ j).
  - by apply (ns_plain _ _ (inv_placed _ I) _ _ Hk).
  - exact En.
  - split_and!; [done|done|]. rewrite E1 in Hm. congruence.
Qed.

Lemma delete_database_ids ns_id id n :
  delete_database_id ns_id id n = n \/ exists s, database_ids n !! ns_id = Some s /\
  delete_database_id ns_id id n = mk_namespaces (max_namespace_id n) (namespace_id_map n) (namespace_info_map n)
    (<[ns_id := s ∖ {[id]}]> (database_ids n)).
Proof. unfold delete_database_id. destruct (database_ids n !! ns_id) as [s|] eqn:E; [right; by exists s|by left]. Qed.

Lemma delete_database_id_at ns_id id n k :
  ids_at (database_ids (delete_database_id ns_id id n)) k =
  if decide (k = ns_id) then ids_at (database_ids n) k ∖ {[id]} else ids_at (database_ids n) k.
Proof.
  unfold delete_database_id. destruct (database_ids n !! ns_id) as [s|] eqn:E.
  - cbn. rewrite ids_at_insert. case_decide as Hk; [|done]. subst k. unfold ids_at. by rewrite E.
  - case_decide as Hk; [|done]. subst k. unfold ids_at. rewrite E. cbn. set_solver.
Qed.

Lemma erase_database_inv info id y m m1 :
  catalog_inv m -> get_namespace_id (db_namespace_name info) (namespaces m) <> 0 ->
  database_id_map (databases m) !! db_name info = Some id -> database_info_map (databases m) !! id = Some y ->
  delete_meta_info [construct_database_key id] m = (true, m1) ->
  catalog_inv (with_namespaces (delete_database_id (get_namespace_id (db_namespace_name info) (namespaces m)) id (namespaces m))
    (with_databases (erase_database_info (db_name info) (databases m)) m1)).
Proof.
  intros I Hns Hn Hy Ew. destruct (request_database m info id y I Hns Hn Hy) as (E1 & E2 & E3).
  set (ns_id := get_namespace_id _ _) in *. apply write_cases in Ew as (W1 & W2 & W3 & _ & W4).
  pose proof (inv_db _ I) as Fx. pose proof (family_ids _ _ _ _ _ Fx id y Hy) as Hid.
  assert (erase_database_info (db_name info) (databases m) = mk_databases (max_database_id (databases m))
    (delete (db_name info) (database_id_map (databases m))) (delete id (database_info_map (databases m)))
    (delete id (table_ids (databases m)))) as -> by (unfold erase_database_info; by rewrite Hn).
  assert (namespace_info_map (delete_database_id ns_id id (namespaces m)) = namespace_info_map (namespaces m)
    /\ namespace_id_map (delete_database_id ns_id id (namespaces m)) = namespace_id_map (namespaces m)
    /\ max_namespace_id (delete_database_id ns_id id (namespaces m)) = max_namespace_id (namespaces m)) as (N1 & N2 & N3)
    by (destruct (delete_database_ids ns_id id (namespaces m)) as [->|(s & _ & ->)]; done).
  apply (databases_changed m); [done|done| |done|done|done| | |].
  - intros k Hk1 Hk2. rewrite W4. cbn [foldl]. other_key; [done|]. intros ->. by apply Hk1.
  - exact (family_erase _ _ _ _ _ _ _ Fx Hn).
  - unfold db_stored. cbn [max_database_id database_info_map]. rewrite W4.
    apply (stored_delete db_prefix parse_db construct_max_database_id_key);
      [done|done|by eapply family_ids|exact Hid|apply I].
  - destruct (inv_placed _ I) as [P1 P2 P3]. split; rewrite ?N2; [done| |].
    + intros j z Hj. cbn in Hj. apply lookup_delete_Some in Hj as [_ Hj]. by apply (P2 j z).
    + intros k j. rewrite delete_database_id_at. cbn. setoid_rewrite lookup_delete_Some.
      case_decide as Hk; [subst k; rewrite elem_of_difference, elem_of_singleton|]; rewrite P3.
      * split; [intros [(z & ? & ?) ?]; exists z; by repeat split|]. intros (z & [? ?] & ?). split; [by exists z|done].
      * split; [intros (z & Hz & Hzn); exists z; repeat split; try done; intros ->; congruence|].
        intros (z & [_ ?] & ?). by exists z.
Qed.

Lemma drop_database_inv r m e m' : catalog_inv m -> drop_database r m = Some (e, m') -> catalog_inv m'.
Proof.
  intros I. unfold drop_database. set (info := database_info r).
  destruct (Z.eqb_spec (get_namespace_id (db_namespace_name info) (namespaces m)) 0) as [|Hns]; [by intros [= _ <-]|].
  destruct (database_id_map (databases m) !! db_name info) as [id|] eqn:Hn; [|by intros [= _ <-]].
  pose proof (touch_table_inv id m I) as I0. set (m0 := with_databases _ m) in *.
  case_decide as Hempty; [|by intros [= _ <-]].
  pose proof (drop_privilege_for_database_inv r id m0 I0) as I1.
  destruct (drop_privileges_other r id m0) as (O1 & O2 & _). set (m1 := drop_privilege_for_database r id m0) in *.
  destruct (delete_meta_info _ m1) as [[|] m2] eqn:Ew; intros [= _ <-]; [|by apply (failed_write _ _ _ Ew)].
  pose proof (write_cases _ _ _ _ Ew) as (W1 & W2 & _).
  destruct (name_known _ _ _ _ _ (inv_db _ I1) (db_name info) id) as (y & Hy & _); [by rewrite O2|].
  pose proof (erase_database_inv info id y m1 m2 I1) as Er. rewrite O1, O2 in Er.
  cbn [namespaces with_databases]. rewrite W1, W2, O1, O2. rewrite O2 in Hy. by apply Er.
Qed.

Lemma modify_database_inv r m e m' : catalog_inv m -> modify_database r m = Some (e, m') -> catalog_inv m'.
Proof.
  intros I. unfold modify_database. set (info := database_info r). set (ns_id := get_namespace_id _ _).
  destruct (Z.eqb_spec ns_id 0) as [|Hns]; [by intros [= _ <-]|].
  destruct (database_id_map (databases m) !! db_name info) as [id|] eqn:Hn; [|by intros [= _ <-]].
  pose proof (inv_db _ I) as Fx. destruct (name_known _ _ _ _ _ Fx _ id Hn) as (old & Ho & En).
  destruct (request_database m info id old I Hns Hn Ho) as (E1 & E2 & E3). fold ns_id in E3.
  rewrite Ho. destruct (info_named _ _ _ _ _ Fx id old Ho) as (Hio & _ & Hr).
  pose proof (family_ids _ _ _ _ _ Fx id old Ho) as Hid.
  set (i := with_db_version _ _).
  assert (db_name i = db_name old /\ database_id i = Some id /\ db_namespace_id i = Some ns_id
    /\ db_namespace_name i = db_namespace_name info) as (Ni & Ii & Nsi & Nn)
    by (unfold i; by destruct (is_force_setting r)).
  destruct (ser_db i) as [b|] eqn:Es; [|by intros [= _ <-]].
  destruct (put_meta_info _ b m) as [[|] m1] eqn:Ew; intros [= _ <-]; [|by apply (failed_write _ _ _ Ew)].
  apply write_cases in Ew as (W1 & W2 & W3 & _ & W4). rewrite W2, (set_db_eq i id) by done.
  destruct (family_replace _ _ _ _ _ id old i Fx Ho Ni Ii) as [Em Fm]. rewrite Em.
  set (x' := mk_databases _ _ _ _).
  assert (with_databases x' m1 = with_namespaces (namespaces m) (with_databases x' m1)) as ->
    by (unfold with_databases, with_namespaces; cbn; by rewrite W1).
  apply (databases_changed m); [done|done| |done|done|done|exact Fm| |].
  - intros k Hk1 Hk2. rewrite W4. other_key; [done|]. intros ->. by apply Hk1.
  - unfold db_stored. cbn [x' max_database_id database_info_map]. rewrite W4.
    apply (stored_put db_prefix parse_db construct_max_database_id_key);
      [done|done|by eapply family_ids|exact Hid|apply I|by apply db_roundtrip].
  - pose proof (known_namespace m _ I Hns) as Hk. destruct (inv_placed _ I) as [P1 P2 P3]. split; [done| |].
    + intros j z. cbn. destruct (decide (j = id)) as [->|].
      * rewrite lookup_insert_eq. intros [= <-]. exists ns_id. by rewrite Nn.
      * rewrite lookup_insert_ne by done. apply P2.
    + intros k j. cbn. rewrite P3. destruct (decide (j = id)) as [->|]; [|by rewrite lookup_insert_ne].
      rewrite lookup_insert_eq. split; intros (z & Hz & Hzn); [exists i|exists old]; split; try done; congruence.
Qed.

(** ** Every operation *)

Lemma apply_request_inv op r m e m' :
  (op = OP_CREATE_NAMESPACE -> plain (namespace_name (namespace_info r))) ->
  catalog_inv m -> apply_request op r m = Some (e, m') -> catalog_inv m'.
Proof.
  intros Hp I. destruct op; cbn [apply_request].
  - apply create_namespace_inv; [by apply Hp|done].
  - by apply drop_namespace_inv.
  - by apply modify_namespace_inv.
  - by apply create_database_inv.
  - by apply drop_database_inv.
  - by apply modify_database_inv.
  - intros [= E]. by eapply create_user_inv.
  - intros [= E]. by eapply drop_user_inv.
  - intros [= E]. by eapply modify_user_inv.
  - intros [= E]. by eapply add_privilege_inv.
  - intros [= E]. by eapply drop_privilege_inv.
  - intros [= E]. by eapply drop_invalid_privilege_inv.
Qed.

End Catalog.

(** The two outcomes of the write an operation ends with. *)
Ltac after_write :=
  match goal with
  | |- (let '(_, _) := ?w in _) = _ -> _ =>
      let Ew := fresh "Ew" in
      destruct w as [[|] ?] eqn:Ew; intros [= _ <-]; apply write_cases in Ew as (?W1 & ?W2 & ?W3 & _ & ?W4); cbn
  end.
