(* ===== verification/MetaSnapshotFacts.v ===== *)
(** * Loading the catalog from a snapshot

    Loading the store of a replica gives its maps back, for every state that
    operations, other managers and earlier loads can lead to; identifiers are never
    handed out twice. *)

From stdpp Require Import gmap relations.
From S2P Require Import Prelude KvStore MetaState MetaCatalog MetaFamily MetaCatalogFacts.

(** What the handlers of the other kinds of keys do to the databases: they load, and
    change only table ids. *)
Definition keeps_databases (load_other : bytes -> bytes -> Databases * Tables -> option (Databases * Tables)) : Prop :=
  forall k v d t, exists d' t', load_other k v (d, t) = Some (d', t')
    /\ max_database_id d' = max_database_id d /\ database_id_map d' = database_id_map d
    /\ database_info_map d' = database_info_map d.

Section Snapshot.
Context {D : Type} `{RocksDbLaws D} `{Host} `{MetaCodecLaws} `{HashOrderLaws}.
Context (load_other : bytes -> bytes -> Databases * Tables -> option (Databases * Tables)).
Context (Hother : keeps_databases load_other).
Implicit Types (m : Meta D) (l : list (bytes * bytes)).

Abbreviation ns_prefix := (SCHEMA_IDENTIFY ++ NAMESPACE_SCHEMA_IDENTIFY).
Abbreviation db_prefix := (SCHEMA_IDENTIFY ++ DATABASE_SCHEMA_IDENTIFY).
Abbreviation max_prefix := (SCHEMA_IDENTIFY ++ MAX_ID_SCHEMA_IDENTIFY).

(** An entry that loads. *)
Record entry_ok (max_n max_d : Z) (kv : bytes * bytes) : Prop := {
  entry_ns : take 2 kv.1 = ns_prefix -> is_Some (parse_ns kv.2);
  entry_db : take 2 kv.1 = db_prefix -> is_Some (parse_db kv.2);
  entry_max_n : kv.1 = construct_max_namespace_id_key -> kv.2 = id_bytes max_n;
  entry_max_d : kv.1 = construct_max_database_id_key -> kv.2 = id_bytes max_d
}.

(** The state after a list of entries. *)
Record loaded (max_n max_d : Z) l m m' : Prop := {
  loaded_max_n : max_namespace_id (namespaces m') =
    if decide (construct_max_namespace_id_key ∈ l.*1) then max_n else max_namespace_id (namespaces m);
  loaded_ns_ids : namespace_id_map (namespaces m') =
    insert_all namespace_name (fun i => num (namespace_id i)) (namespace_id_map (namespaces m)) (omap (select ns_prefix parse_ns) l);
  loaded_ns_infos : namespace_info_map (namespaces m') =
    insert_all (fun i => num (namespace_id i)) id (namespace_info_map (namespaces m)) (omap (select ns_prefix parse_ns) l);
  loaded_listed : database_ids (namespaces m') =
    add_ids (fun i => num (db_namespace_id i)) (fun i => num (database_id i)) (database_ids (namespaces m))
      (omap (select db_prefix parse_db) l);
  loaded_max_d : max_database_id (databases m') =
    if decide (construct_max_database_id_key ∈ l.*1) then max_d else max_database_id (databases m);
  loaded_db_ids : database_id_map (databases m') =
    insert_all db_name (fun i => num (database_id i)) (database_id_map (databases m)) (omap (select db_prefix parse_db) l);
  loaded_db_infos : database_info_map (databases m') =
    insert_all (fun i => num (database_id i)) id (database_info_map (databases m)) (omap (select db_prefix parse_db) l);
  loaded_rest : privileges m' = privileges m /\ store m' = store m
}.

Lemma loaded_nil max_n max_d m : loaded max_n max_d [] m m.
Proof. by split. Qed.

Lemma omap_cons {A B} (f : A -> option B) (x : A) (l : list A) : omap f (x :: l) = omap f [x] ++ omap f l.
Proof. cbn. by destruct (f x). Qed.

Lemma loaded_cons max_n max_d kv l m m1 m2 :
  loaded max_n max_d [kv] m m1 -> loaded max_n max_d l m1 m2 -> loaded max_n max_d (kv :: l) m m2.
Proof.
  intros A B. destruct A as [A1 A2 A3 A4 A5 A6 A7 [A8 A9]], B as [B1 B2 B3 B4 B5 B6 B7 [B8 B9]].
  unfold insert_all, add_ids in *.
  split; rewrite ?(omap_cons _ kv l); unfold insert_all, add_ids; rewrite ?foldl_app.
  - rewrite B1, A1. cbn. repeat case_decide; try done; set_solver.
  - by rewrite B2, A2.
  - by rewrite B3, A3.
  - by rewrite B4, A4.
  - rewrite B5, A5. cbn. repeat case_decide; try done; set_solver.
  - by rewrite B6, A6.
  - by rewrite B7, A7.
  - by rewrite B8, B9, A8, A9.
Qed.

Lemma load_id id : 0 <= id < 2 ^ 63 -> exists x, mem_load (id_bytes id) 0 8 = Some x /\ i64 x = id.
Proof.
  intros Hid. exists (u64 id). split.
  - pose proof (mem_load_store [] 8 (u64 id) []) as E. cbn [app length] in E. rewrite app_nil_r in E.
    apply E. rewrite wrap_id by (unfold is_u; lia). cbn. lia.
  - rewrite wrap_id by (unfold is_u; lia). apply swrap_id; [lia|unfold is_i; lia].
Qed.

Lemma select_other {Info} prefix (parse : bytes -> option Info) k v :
  take 2 k <> prefix -> omap (select prefix parse) [(k, v)] = [].
Proof. intros Hk. cbn. unfold select. cbn. by rewrite bool_decide_eq_false_2. Qed.

Lemma select_own {Info} prefix (parse : bytes -> option Info) k v i :
  take 2 k = prefix -> parse v = Some i -> omap (select prefix parse) [(k, v)] = [i].
Proof. intros Hk Hv. cbn. unfold select. cbn. rewrite bool_decide_eq_true_2 by done. by rewrite Hv. Qed.

(** Keys that are neither of the families nor a counter. *)
Lemma loaded_skip max_n max_d k v m m' :
  take 2 k <> ns_prefix -> take 2 k <> db_prefix -> k <> construct_max_namespace_id_key -> k <> construct_max_database_id_key ->
  namespaces m' = namespaces m -> max_database_id (databases m') = max_database_id (databases m) ->
  database_id_map (databases m') = database_id_map (databases m) ->
  database_info_map (databases m') = database_info_map (databases m) ->
  privileges m' = privileges m -> store m' = store m -> loaded max_n max_d [(k, v)] m m'.
Proof.
  intros K1 K2 K3 K4 E1 E2 E3 E4 E5 E6.
  split; rewrite ?(select_other _ _ k v) by done; rewrite ?E1, ?E2, ?E3, ?E4; try done;
    cbn; rewrite decide_False; try done; by intros E%list_elem_of_singleton.
Qed.

Lemma load_schema_entry_ok max_n max_d kv m :
  0 <= max_n < 2 ^ 63 -> 0 <= max_d < 2 ^ 63 -> entry_ok max_n max_d kv ->
  exists m', load_schema_entry load_other kv m = Some m' /\ loaded max_n max_d [kv] m m'.
Proof.
  intros Hn Hd [O1 O2 O3 O4]. destruct kv as [k v]. cbn [fst snd] in *.
  unfold load_schema_entry, starts_with. cbn [length app SCHEMA_IDENTIFY DATABASE_SCHEMA_IDENTIFY NAMESPACE_SCHEMA_IDENTIFY MAX_ID_SCHEMA_IDENTIFY].
  assert (forall x, take 2 k = x -> x <> max_prefix -> k <> construct_max_namespace_id_key /\ k <> construct_max_database_id_key)
    as NotMax by (intros x Hx Hne; split; intros ->; by apply Hne).
  case_bool_decide as K1.
  { destruct (O2 K1) as [i Hi]. unfold load_database_snapshot. rewrite Hi. cbn [mbind option_bind].
    eexists. split; [done|]. destruct (NotMax _ K1 ltac:(done)) as [N1 N2].
    split; rewrite ?(select_own db_prefix parse_db k v i) by done;
      rewrite ?(select_other ns_prefix parse_ns k v) by (rewrite K1; intros E; discriminate E); try done;
      cbn [fst fmap list_fmap]; rewrite decide_False; try done; by intros E%list_elem_of_singleton. }
  case_bool_decide as K2.
  { destruct (O1 K2) as [i Hi]. unfold load_namespace_snapshot. rewrite Hi. cbn [mbind option_bind].
    eexists. split; [done|]. destruct (NotMax _ K2 ltac:(done)) as [N1 N2].
    split; rewrite ?(select_own ns_prefix parse_ns k v i) by done;
      rewrite ?(select_other db_prefix parse_db k v) by (rewrite K2; intros E; discriminate E); try done;
      cbn [fst fmap list_fmap]; rewrite decide_False; try done; by intros E%list_elem_of_singleton. }
  case_bool_decide as K3.
  2:{ destruct (Hother k v (databases m) (tables m)) as (d' & t' & -> & E1 & E2 & E3). cbn [mbind option_bind].
      eexists. split; [done|]. apply loaded_skip; try done; intros ->; by apply K3. }
  unfold load_max_id_snapshot. case_decide as M1.
  { assert (k = construct_max_namespace_id_key) as -> by (rewrite <- (take_drop 2 k), K3, M1; done).
    rewrite O3 by done. destruct (load_id max_n Hn) as (x & -> & Ex). cbn [mbind option_bind].
    eexists. split; [done|]. split; try done. }
  case_decide as M2.
  { assert (k = construct_max_database_id_key) as -> by (rewrite <- (take_drop 2 k), K3, M2; done).
    rewrite O4 by done. destruct (load_id max_d Hd) as (x & -> & Ex). cbn [mbind option_bind].
    eexists. split; [done|]. split; try done. }
  eexists. split; [done|]. apply loaded_skip; try done; intros ->; [by apply M1|by apply M2].
Qed.

Lemma load_schema_entries max_n max_d l m :
  0 <= max_n < 2 ^ 63 -> 0 <= max_d < 2 ^ 63 -> Forall (entry_ok max_n max_d) l ->
  exists m', load_entries (load_schema_entry load_other) l m = Some m' /\ loaded max_n max_d l m m'.
Proof.
  intros Hn Hd Hl. revert m. induction Hl as [|kv l Hkv _ IH]; intros m; cbn [load_entries].
  { exists m. split; [done|]. apply loaded_nil. }
  destruct (load_schema_entry_ok max_n max_d kv m Hn Hd Hkv) as (m1 & -> & L1). cbn [mbind option_bind].
  destruct (IH m1) as (m2 & E2 & L2). exists m2. split; [done|]. by eapply loaded_cons.
Qed.

(** ** The entries an iterator visits *)

Lemma scan_prefix (d : D) c k v : (k, v) ∈ db_scan d 1 [c] <-> db_get d k = Some v /\ take 1 k = [c].
Proof.
  rewrite elem_of_scan. split; [intros (? & ? & _); done|]. intros [Hg Hk]. split_and!; [done|done|].
  destruct k as [|x k]; [done|]. injection Hk as ->. cbn. rewrite Z.compare_refl. by destruct k.
Qed.

Lemma scan_nodup (d : D) n s : NoDup (db_scan d n s).*1.
Proof.
  pose proof (scan_sorted d n s) as S. induction S as [|a l _ IH Ha]; cbn; constructor; [|done].
  intros Hin. apply list_elem_of_fmap in Hin as (b & E & Hb). rewrite Forall_forall in Ha.
  specialize (Ha b Hb). unfold key_lt in Ha. by rewrite E, lex_compare_refl in Ha.
Qed.

Lemma prefix_scanned (d : D) c1 c2 k v : take 2 k = [c1; c2] -> (k, v) ∈ db_scan d 1 [c1] <-> db_get d k = Some v.
Proof.
  intros Hk. rewrite scan_prefix. split; [by intros []|]. intros Hg. split; [done|].
  destruct k as [|x k]; [done|]. by injection Hk as -> _.
Qed.

Lemma max_scanned (d : D) max_key max_id :
  take 1 max_key = SCHEMA_IDENTIFY -> db_get d max_key = (if max_id =? 0 then None else Some (id_bytes max_id)) ->
  max_key ∈ (db_scan d 1 SCHEMA_IDENTIFY).*1 <-> max_id <> 0.
Proof.
  intros Hk Hg. rewrite list_elem_of_fmap. destruct (Z.eqb_spec max_id 0) as [E|E].
  - split; [|done]. intros ([k v] & -> & Hs). apply scan_prefix in Hs as [Hs _]. cbn in Hg. congruence.
  - split; [done|]. intros _. exists (max_key, id_bytes max_id). split; [done|]. by apply scan_prefix.
Qed.

(** ** The schema *)

(** What of the namespaces and databases a load has to give back. *)
Record same_schema m m' : Prop := {
  same_max_ns : max_namespace_id (namespaces m') = max_namespace_id (namespaces m);
  same_ns_ids : namespace_id_map (namespaces m') = namespace_id_map (namespaces m);
  same_ns_infos : namespace_info_map (namespaces m') = namespace_info_map (namespaces m);
  same_listed : same_ids (database_ids (namespaces m')) (database_ids (namespaces m));
  same_max_db : max_database_id (databases m') = max_database_id (databases m);
  same_db_ids : database_id_map (databases m') = database_id_map (databases m);
  same_db_infos : database_info_map (databases m') = database_info_map (databases m)
}.

(** The counters of a replica are not ahead of the snapshot it loads. *)
Definition not_ahead m0 m : Prop :=
  0 <= max_namespace_id (namespaces m0) <= max_namespace_id (namespaces m)
  /\ 0 <= max_database_id (databases m0) <= max_database_id (databases m).

Lemma scanned_ok m :
  catalog_inv m ->
  Forall (entry_ok (max_namespace_id (namespaces m)) (max_database_id (databases m)))
    (db_scan (store m) 1 SCHEMA_IDENTIFY).
Proof.
  intros I. apply Forall_forall. intros [k v] Hs. apply scan_prefix in Hs as [Hg _]. split; cbn [fst snd].
  - intros Hk. destruct (stored_info _ _ _ _ _ _ (inv_ns_stored _ I) k v Hk Hg) as (id & i & _ & _ & ->). done.
  - intros Hk. destruct (stored_info _ _ _ _ _ _ (inv_db_stored _ I) k v Hk Hg) as (id & i & _ & _ & ->). done.
  - intros ->. rewrite (max_stored _ _ _ _ _ _ (inv_ns_stored _ I)) in Hg. destruct (_ =? 0); congruence.
  - intros ->. rewrite (max_stored _ _ _ _ _ _ (inv_db_stored _ I)) in Hg. destruct (_ =? 0); congruence.
Qed.

Lemma listed_again m infos :
  catalog_inv m -> (forall i, i ∈ infos <-> exists id, database_info_map (databases m) !! id = Some i) ->
  same_ids (add_ids (fun i => num (db_namespace_id i)) (fun i => num (database_id i)) ∅ infos) (database_ids (namespaces m)).
Proof.
  intros I Hin k. apply set_eq. intros x. rewrite add_ids_elem, (db_listed _ _ (inv_placed _ I)).
  unfold ids_at. rewrite lookup_empty. cbn [default]. split.
  - intros [Hx|(i & Hi & <- & <-)]; [by apply elem_of_empty in Hx|]. apply Hin in Hi as (id & Hi).
    destruct (info_named _ _ _ _ _ (inv_db _ I) id i Hi) as (-> & _).
    destruct (db_home _ _ (inv_placed _ I) id i Hi) as (ns_id & Hn & _). exists i. rewrite Hn. by split.
  - intros (i & Hi & Hn). right. exists i. split; [apply Hin; by exists x|]. rewrite Hn.
    by destruct (info_named _ _ _ _ _ (inv_db _ I) x i Hi) as (-> & _).
Qed.

Lemma schema_recovers m m0 :
  catalog_inv m -> store m0 = store m -> not_ahead m0 m ->
  exists m', load_schema_snapshot load_other m0 = Some m' /\ same_schema m m'
    /\ privileges m' = privileges m0 /\ store m' = store m.
Proof.
  intros I Es [An Ad]. unfold load_schema_snapshot. set (m1 := with_databases _ _).
  assert (store m1 = store m) as E1 by done. rewrite E1.
  pose proof (max_range _ _ _ _ _ (inv_ns _ I)) as Rn. pose proof (max_range _ _ _ _ _ (inv_db _ I)) as Rd.
  destruct (load_schema_entries _ _ _ m1 Rn Rd (scanned_ok m I)) as (m' & -> & L).
  set (l := db_scan (store m) 1 SCHEMA_IDENTIFY) in *. exists m'. split; [done|].
  assert (forall k b, (k, b) ∈ l -> db_get (store m) k = Some b) as Hl by (intros k b Hs; by apply scan_prefix in Hs as []).
  destruct (family_rebuilt namespace_name namespace_id ns_prefix parse_ns construct_max_namespace_id_key eq_refl
    _ _ _ _ l (inv_ns _ I) (inv_ns_stored _ I) (scan_nodup _ _ _)
    (fun k b => prefix_scanned _ 2 2 k b) Hl) as (N1 & N2 & _).
  destruct (family_rebuilt db_name database_id db_prefix parse_db construct_max_database_id_key eq_refl
    _ _ _ _ l (inv_db _ I) (inv_db_stored _ I) (scan_nodup _ _ _)
    (fun k b => prefix_scanned _ 2 3 k b) Hl) as (B1 & B2 & B3).
  pose proof (max_scanned (store m) construct_max_namespace_id_key _ eq_refl (max_stored _ _ _ _ _ _ (inv_ns_stored _ I))) as M1.
  pose proof (max_scanned (store m) construct_max_database_id_key _ eq_refl (max_stored _ _ _ _ _ _ (inv_db_stored _ I))) as M2.
  destruct L as [L1 L2 L3 L4 L5 L6 L7 [L8 L9]]. split_and!; [|done|congruence]. split.
  - rewrite L1. destruct (decide (construct_max_namespace_id_key ∈ l.*1)) as [E|E]; [done|]. fold l in M1. cbn. destruct (decide (max_namespace_id (namespaces m) = 0)); [lia|].
    destruct E. by apply M1.
  - by rewrite L2.
  - by rewrite L3.
  - rewrite L4. by apply listed_again.
  - rewrite L5. destruct (decide (construct_max_database_id_key ∈ l.*1)) as [E|E]; [done|]. fold l in M2. cbn. destruct (decide (max_database_id (databases m) = 0)); [lia|].
    destruct E. by apply M2.
  - by rewrite L6.
  - by rewrite L7.
Qed.

(** ** The users *)

(** Which users have which databases and tables. *)
Definition has_database (users : gmap bytes UserPrivilege) (u : bytes) (id : Z) : Prop :=
  exists p, users !! u = Some p /\ id ∈ pri_db_ids p.
Definition has_table (users : gmap bytes UserPrivilege) (u : bytes) (id : Z) : Prop :=
  exists p, users !! u = Some p /\ id ∈ pri_table_ids p.

(** Both indexes describe the users. *)
Definition indexed (s : Privileges) : Prop :=
  index_ok (db_user_map s) (has_database (user_privilege s)) /\ index_ok (tbl_user_map s) (has_table (user_privilege s)).

Lemma new_user_indexed p s :
  indexed s -> user_privilege s !! username p = None -> indexed (insert_db_tbl_user_map p (set_user (username p) p s)).
Proof.
  intros [A B] Hn. split; cbn.
  - eapply index_proper; [|exact (add_user_index (username p) (pri_db_ids p) _ _ A)]. intros u id. unfold has_database.
    destruct (decide (u = username p)) as [->|]; [rewrite lookup_insert_eq|rewrite lookup_insert_ne by done]; [|naive_solver].
    rewrite Hn. naive_solver.
  - eapply index_proper; [|exact (add_user_index (username p) (pri_table_ids p) _ _ B)]. intros u id. unfold has_table.
    destruct (decide (u = username p)) as [->|]; [rewrite lookup_insert_eq|rewrite lookup_insert_ne by done]; [|naive_solver].
    rewrite Hn. naive_solver.
Qed.

Lemma load_user_entries (users : gmap bytes UserPrivilege) l m :
  Forall (fun kv => exists u p, kv.1 = construct_privilege_key u /\ users !! u = Some p /\ username p = u /\ parse_user kv.2 = Some p) l ->
  NoDup l.*1 -> indexed (privileges m) ->
  (forall kv, kv ∈ l -> user_privilege (privileges m) !! drop 1 kv.1 = None) ->
  exists m', load_entries load_user_entry l m = Some m' /\ indexed (privileges m')
    /\ (forall u p, user_privilege (privileges m') !! u = Some p <->
          user_privilege (privileges m) !! u = Some p \/ (construct_privilege_key u ∈ l.*1 /\ users !! u = Some p))
    /\ namespaces m' = namespaces m /\ databases m' = databases m /\ store m' = store m.
Proof.
  intros Hl. revert m. induction Hl as [|[k v] l (u & p & Ek & Hu & Nu & Pv) Hl IH]; intros m Hn Ix New; cbn [load_entries].
  { exists m. split_and!; try done. intros u p. cbn. rewrite elem_of_nil. naive_solver. }
  cbn in Hn. apply NoDup_cons in Hn as [Hk Hn]. cbn [fst snd] in *.
  assert (load_user_entry (k, v) m = Some (with_privileges (insert_db_tbl_user_map p (set_user (drop 1 k) p (privileges m))) m))
    as -> by (unfold load_user_entry; cbn [snd]; by rewrite Pv).
  cbn [mbind option_bind]. subst k. change (drop 1 (construct_privilege_key u)) with u.
  assert (user_privilege (privileges m) !! u = None) as Nw by (apply (New (construct_privilege_key u, v)); by left).
  set (m1 := with_privileges _ m).
  assert (indexed (privileges m1)) as Ix1.
  { unfold m1. cbn [privileges with_privileges]. rewrite <- Nu. apply new_user_indexed; [done|by rewrite Nu]. }
  assert (user_privilege (privileges m1) = <[u := p]> (user_privilege (privileges m))) as Em by done.
  destruct (IH m1 Hn Ix1) as (m' & E & Ix' & Us & E1 & E2 & E3).
  { intros kv Hkv. rewrite Em, lookup_insert_ne; [apply New; by right|]. intros ->. apply Hk.
    rewrite Forall_forall in Hl. destruct (Hl kv Hkv) as (u' & p' & Ek & _). rewrite Ek.
    apply list_elem_of_fmap. by exists kv. }
  exists m'. split_and!; try done. intros u' p'. rewrite Us, Em, fmap_cons, elem_of_cons. cbn [fst].
  destruct (decide (u' = u)) as [->|Hne]; [rewrite lookup_insert_eq|rewrite lookup_insert_ne by done].
  - rewrite Nw, Hu. naive_solver.
  - assert (construct_privilege_key u' <> construct_privilege_key u) by (intros E'; by injection E'). naive_solver.
Qed.

Lemma users_recover m m0 :
  users_stored (store m) (user_privilege (privileges m)) -> store m0 = store m ->
  exists m', load_privilege_snapshot m0 = Some m' /\ user_privilege (privileges m') = user_privilege (privileges m)
    /\ indexed (privileges m') /\ namespaces m' = namespaces m0 /\ databases m' = databases m0 /\ store m' = store m.
Proof.
  intros S Es. unfold load_privilege_snapshot. set (m1 := with_privileges no_privileges m0).
  assert (store m0 = store m) as -> by done.
  destruct (load_user_entries (user_privilege (privileges m)) (db_scan (store m) 1 PRIVILEGE_IDENTIFY) m1)
    as (m' & E & Ix & Us & E1 & E2 & E3).
  - apply Forall_forall. intros [k v] Hs. apply scan_prefix in Hs as [Hg Hk].
    destruct (stored_user _ _ S k v Hk Hg) as (u & p & -> & Hp & Pv). exists u, p.
    by destruct (user_stored _ _ S u p Hp) as (? & _).
  - apply scan_nodup.
  - split; (eapply index_proper; [|exact index_empty]); intros u id; unfold has_database, has_table; cbn;
      setoid_rewrite lookup_empty; naive_solver.
  - done.
  - exists m'. split_and!; try done; [|rewrite E3; exact Es]. apply map_eq. intros u. apply option_eq. intros p. rewrite Us. cbn.
    rewrite lookup_empty. split; [intros [|[_ ?]]; done|]. intros Hp. right. split; [|done].
    destruct (user_stored _ _ S u p Hp) as (_ & b & Hg & _).
    apply list_elem_of_fmap. exists (construct_privilege_key u, b). split; [done|]. by apply scan_prefix.
Qed.

(** ** The catalog *)

Lemma catalog_loads m m0 :
  catalog_inv m -> store m0 = store m -> not_ahead m0 m ->
  exists m', load_catalog load_other m0 = Some m' /\ same_schema m m'
    /\ user_privilege (privileges m') = user_privilege (privileges m) /\ indexed (privileges m') /\ store m' = store m.
Proof.
  intros I Es A. unfold load_catalog.
  destruct (users_recover m m0 (inv_users _ I) Es) as (m1 & -> & U & Ix & E1 & E2 & E3). cbn [mbind option_bind].
  destruct (schema_recovers m m1 I E3) as (m' & -> & S & E4 & E5).
  - unfold not_ahead. by rewrite E1, E2.
  - exists m'. split_and!; [done|done|congruence|by rewrite E4|done].
Qed.

(** The maps again satisfy the invariant. *)
Lemma same_catalog_inv m m' :
  catalog_inv m -> same_schema m m' -> user_privilege (privileges m') = user_privilege (privileges m) ->
  store m' = store m -> catalog_inv m'.
Proof.
  intros [In Idb [P1 P2 P3] Sn Sd Su] [S1 S2 S3 S4 S5 S6 S7] U E. split; rewrite ?E, ?U; try done.
  - unfold ns_family. by rewrite S1, S2, S3.
  - unfold db_family. by rewrite S5, S6, S7.
  - split; rewrite ?S2, ?S7; try done. intros ns_id id. rewrite (S4 ns_id). apply P3.
  - unfold ns_stored. by rewrite S1, S3.
  - unfold db_stored. by rewrite S5, S7.
Qed.

End Snapshot.
