(* ===== verification/MetaPrivilegeFacts.v ===== *)
(** * Facts about the privileges of users

    What granting and revoking do to the entries of a user, the loop that drops
    invalid entries, and the index from databases to their users, which every
    operation keeps as long as no entry is named twice and no bits are revoked from
    a database. *)

From stdpp Require Import gmap.
From S2P Require Import Prelude Heap KvStore MetaState MetaCatalog MetaFamily MetaCatalogFacts MetaSnapshotFacts.

(** ** Dropping entries by exchanges *)

Section Compact.
Context {A : Type} (valid : A -> bool).
Implicit Types (a b c : list A).

Lemma swap_at_same (l : list A) i : swap_at l i i = l.
Proof. unfold swap_at. destruct (l !! i) as [x|] eqn:E; [|done]. rewrite !(list_insert_id l i x) by done. done. Qed.

Lemma swap_at_apart a b c x y :
  swap_at (a ++ y :: b ++ x :: c) (length a) (length a + S (length b)) = a ++ x :: b ++ y :: c.
Proof.
  unfold swap_at. rewrite list_lookup_middle by done.
  replace (a ++ y :: b ++ x :: c) with ((a ++ y :: b) ++ x :: c) by by rewrite <- app_assoc.
  rewrite list_lookup_middle by by rewrite length_app; cbn. rewrite insert_app_r_alt by (rewrite length_app; cbn; lia).
  rewrite length_app. cbn [length]. rewrite Nat.sub_diag. cbn. rewrite <- app_assoc. cbn.
  by rewrite insert_app_r_alt, Nat.sub_diag by lia.
Qed.

Lemma compact_app a b c :
  Forall (fun x => valid x = false) b ->
  exists z, compact valid (length c) (length a) (length a + length b) (a ++ b ++ c)
            = (a ++ filter (fun x => valid x = true) c ++ z, length a + length (filter (fun x => valid x = true) c))%nat
    /\ z ≡ₚ b ++ filter (fun x => valid x = false) c.
Proof.
  revert a b. induction c as [|x c IH]; intros a b Hb; cbn [length compact].
  { exists b. rewrite !app_nil_r. cbn. by rewrite Nat.add_0_r. }
  assert ((a ++ b ++ x :: c) !! (length a + length b)%nat = Some x) as ->.
  { rewrite app_assoc. apply list_lookup_middle. by rewrite length_app. }
  rewrite !filter_cons. destruct (valid x) eqn:V.
  - assert (exists b', swap_at (a ++ b ++ x :: c) (length a) (length a + length b) = (a ++ [x]) ++ b' ++ c
      /\ b' ≡ₚ b) as (b' & -> & P).
    { destruct b as [|y b]; [exists []; rewrite Nat.add_0_r, swap_at_same; by rewrite <- app_assoc|].
      exists (b ++ [y]). cbn [app length]. rewrite swap_at_apart. split; [by rewrite <- !app_assoc|].
      symmetry. apply Permutation_cons_append. }
    destruct (IH (a ++ [x]) b') as (z & E & Pz); [by rewrite P|]. exists z.
    rewrite length_app in E. cbn [length] in E.
    replace (S (length a + length b)) with (length a + 1 + length b')%nat by (rewrite P; lia).
    replace (S (length a)) with (length a + 1)%nat by lia.
    rewrite E. rewrite decide_True, decide_False by done. cbn [length app]. rewrite <- app_assoc. split; [f_equal; cbn; lia|].
    by rewrite Pz, P.
  - destruct (IH a (b ++ [x])) as (z & E & Pz); [apply Forall_app; split; [done|by constructor]|]. exists z.
    rewrite length_app, <- app_assoc in E. cbn [length app] in E.
    replace (S (length a + length b)) with (length a + (length b + 1))%nat by lia.
    rewrite E. rewrite decide_False, decide_True by done. split; [done|]. by rewrite Pz, <- app_assoc.
Qed.

Lemma drop_invalid_spec (l : list A) :
  (drop_invalid valid l).1 = filter (fun x => valid x = true) l
  /\ (drop_invalid valid l).2 ≡ₚ filter (fun x => valid x = false) l.
Proof.
  unfold drop_invalid. destruct (compact_app [] [] l (Forall_nil_2 _)) as (z & E & P). cbn [length app Nat.add] in E.
  rewrite E. cbn [app]. rewrite take_app_length, drop_app_length. cbn [fst snd]. split; [done|].
  by rewrite reverse_Permutation, P.
Qed.

End Compact.

(** ** Grants and revocations *)

Section Entries.
Implicit Types (p q : PrivilegeDatabase) (l mem ins del : list PrivilegeDatabase).

Definition entry_id p : Z := num (pd_database_id p).

Lemma raise_database_ids p l :
  match raise_database p l with
  | Some l' => entry_id <$> l' = entry_id <$> l
  | None => entry_id p ∉ entry_id <$> l
  end.
Proof.
  induction l as [|q l IH]; cbn [raise_database]; [apply not_elem_of_nil|].
  destruct (Z.eqb_spec (num (pd_database_id q)) (num (pd_database_id p))) as [E|E]; [done|].
  destruct (raise_database p l) as [l'|]; cbn; [by rewrite IH|].
  apply not_elem_of_cons. split; [|exact IH]. unfold entry_id. congruence.
Qed.

(** The entries grow by those that are new. *)
Lemma insert_databases_ids ps mem ins mem' ins' :
  NoDup (entry_id <$> mem) -> foldl insert_database_privilege (mem, ins) ps = (mem', ins') ->
  NoDup (entry_id <$> mem') /\ forall i, i ∈ entry_id <$> mem' <-> i ∈ entry_id <$> mem \/ i ∈ entry_id <$> drop (length ins) ins'.
Proof.
  assert (forall ps mem ins mem' ins', NoDup (entry_id <$> mem) -> foldl insert_database_privilege (mem, ins) ps = (mem', ins') ->
    exists new, ins' = ins ++ new /\ entry_id <$> mem' = (entry_id <$> mem) ++ (entry_id <$> new) /\ NoDup (entry_id <$> mem')) as G.
  { clear. intros ps. induction ps as [|p ps IH]; intros mem ins mem' ins' Hn; cbn [foldl].
    { intros [= <- <-]. exists []. by rewrite !app_nil_r. }
    unfold insert_database_privilege at 2. cbn [fst snd]. pose proof (raise_database_ids p mem) as R.
    destruct (raise_database p mem) as [l|].
    - intros E. apply IH in E as (new & -> & E & N); [|by rewrite R]. exists new. by rewrite E, R in *.
    - intros E. apply IH in E as (new & -> & E & N).
      + exists (p :: new). rewrite <- app_assoc. split; [done|]. split; [|done]. rewrite E, fmap_app, <- app_assoc. done.
      + rewrite fmap_app. apply NoDup_app. split_and!; [done| |cbn; apply NoDup_singleton].
        intros x Hx Hp. apply list_elem_of_singleton in Hp as ->. done. }
  intros Hn E. destruct (G ps mem ins mem' ins' Hn E) as (new & -> & E' & N). split; [done|]. intros i.
  by rewrite E', elem_of_app, drop_app_length.
Qed.

Lemma revoke_other p q acc del : entry_id q <> entry_id p -> revoke_database p (acc, del) q = (acc ++ [q], del).
Proof. intros H. unfold revoke_database. by rewrite (proj2 (Z.eqb_neq _ _)) by done. Qed.

Lemma revoke_same p q acc del :
  entry_id q = entry_id p -> pd_acl p = None ->
  revoke_database p (acc, del) q = (acc ++ [p], del) \/ revoke_database p (acc, del) q = (acc, del ++ [p]).
Proof.
  intros E Ha. unfold revoke_database. unfold entry_id in E. rewrite E, Z.eqb_refl, Ha. cbn [fst snd].
  destruct (pd_rw p) as [w|]; [destruct (_ <? _)|]; tauto.
Qed.

Lemma delete_other p l acc del :
  entry_id p ∉ entry_id <$> l ->
  foldl (revoke_database p) (acc, del) l = (acc ++ l, del).
Proof.
  revert acc. induction l as [|q l IH]; intros acc Hn; cbn [foldl]; [by rewrite app_nil_r|].
  rewrite fmap_cons, not_elem_of_cons in Hn. destruct Hn as [Hq Hn].
  rewrite revoke_other by congruence. rewrite IH by done. by rewrite <- app_assoc.
Qed.

(** One entry of a revocation without bits: nothing, less access, or the entry goes. *)
Lemma delete_database_cases p mem del :
  NoDup (entry_id <$> mem) -> pd_acl p = None ->
  delete_database_privilege (mem, del) p = (mem, del) /\ entry_id p ∉ entry_id <$> mem
  \/ exists l1 q l2, mem = l1 ++ q :: l2 /\ entry_id q = entry_id p /\
       (delete_database_privilege (mem, del) p = (l1 ++ p :: l2, del)
        \/ delete_database_privilege (mem, del) p = (l1 ++ l2, del ++ [p])).
Proof.
  intros Hn Ha. destruct (decide (entry_id p ∈ entry_id <$> mem)) as [Hp|Hp].
  2:{ left. split; [|done]. unfold delete_database_privilege. cbn [fst snd]. by rewrite delete_other. }
  right. apply list_elem_of_fmap in Hp as (q & Eq & Hq). apply list_elem_of_split in Hq as (l1 & l2 & ->).
  rewrite fmap_app, fmap_cons in Hn. apply NoDup_app in Hn as (_ & Hd & Hn). apply NoDup_cons in Hn as [H2 _].
  exists l1, q, l2. split; [done|]. split; [done|]. unfold delete_database_privilege. cbn [fst snd].
  rewrite foldl_app, delete_other by (intros H1; apply (Hd (entry_id p)); [done|rewrite Eq; by left]). cbn [foldl app fst snd].
  assert (entry_id p ∉ entry_id <$> l2) as H2' by (rewrite Eq; done).
  destruct (revoke_same p q l1 del (eq_sym Eq) Ha) as [-> | ->]; [left|right];
    rewrite delete_other by done; by rewrite <- ?app_assoc.
Qed.

(** The entries that stay are those that did not go. *)
Lemma delete_databases_ids ps mem0 mem del mem' del' :
  Forall (fun p => pd_acl p = None) ps -> NoDup (entry_id <$> mem) ->
  (forall i, i ∈ entry_id <$> mem <-> i ∈ entry_id <$> mem0 /\ i ∉ entry_id <$> del) ->
  foldl delete_database_privilege (mem, del) ps = (mem', del') ->
  NoDup (entry_id <$> mem') /\ forall i, i ∈ entry_id <$> mem' <-> i ∈ entry_id <$> mem0 /\ i ∉ entry_id <$> del'.
Proof.
  intros Hps. revert mem del. induction Hps as [|p ps Ha Hps IH]; intros mem del Hn J; cbn [foldl]; [by intros [= <- <-]|].
  destruct (delete_database_cases p mem del Hn Ha) as [[-> _]|(l1 & q & l2 & -> & Eq & [->| ->])]; [by apply IH| |].
  - assert (entry_id <$> l1 ++ p :: l2 = entry_id <$> l1 ++ q :: l2) as E by (rewrite !fmap_app, !fmap_cons; by rewrite Eq).
    apply IH; by rewrite E.
  - apply IH.
    + rewrite fmap_app, fmap_cons in Hn. rewrite fmap_app. apply NoDup_app in Hn as (N1 & Nd & N2).
      apply NoDup_cons in N2 as [_ N2]. apply NoDup_app. split_and!; [done| |done]. intros x Hx Hx2. apply (Nd x); [done|by right].
    + intros i. specialize (J i). rewrite !fmap_app, fmap_cons, !elem_of_app, elem_of_cons in *.
      assert (i ∉ entry_id <$> ([] : list PrivilegeDatabase)) by apply not_elem_of_nil. apply NoDup_app in Hn as (_ & Nd & N2).
      apply NoDup_cons in N2 as [N2 _]. rewrite <- Eq.
      split.
      * intros Hi. assert (i <> entry_id q) by (intros ->; destruct Hi; [by apply (Nd (entry_id q)); [|left]|done]). tauto.
      * intros [Hi Hx]. tauto.
Qed.

End Entries.

(** ** The index from databases to users *)

Section DbIndex.
Context {D : Type} `{RocksDbLaws D} `{Host} `{MetaCodecLaws} `{HashOrderLaws}.
Implicit Types (m : Meta D) (s : Privileges).

Definition db_indexed s : Prop :=
  index_ok (db_user_map s) (has_database (user_privilege s))
  /\ forall u p, user_privilege s !! u = Some p -> NoDup (pri_db_ids p).

Lemma has_database_insert users u p v id :
  has_database (<[u := p]> users) v id <-> (v = u /\ id ∈ pri_db_ids p) \/ (v <> u /\ has_database users v id).
Proof.
  unfold has_database. destruct (decide (v = u)) as [->|Hv].
  - rewrite lookup_insert_eq. split; [intros (q & [= <-] & ?); by left|]. intros [[_ ?]|[? _]]; [by exists p|done].
  - rewrite lookup_insert_ne by done. tauto.
Qed.

Lemma nodup_insert users u p :
  NoDup (pri_db_ids p) -> (forall v q, users !! v = Some q -> NoDup (pri_db_ids q)) ->
  forall v q, (<[u := p]> users : gmap bytes UserPrivilege) !! v = Some q -> NoDup (pri_db_ids q).
Proof.
  intros Hp Hn v q. destruct (decide (v = u)) as [->|]; [rewrite lookup_insert_eq; by intros [= <-]|].
  rewrite lookup_insert_ne by done. apply Hn.
Qed.

Lemma granted_indexed u p old ins s :
  db_indexed s -> user_privilege s !! u = Some old \/ (user_privilege s !! u = None /\ pri_db_ids old = []) ->
  username ins = u -> NoDup (pri_db_ids p) ->
  (forall i, i ∈ pri_db_ids p <-> i ∈ pri_db_ids old \/ i ∈ pri_db_ids ins) ->
  db_indexed (insert_db_tbl_user_map ins (set_user u p s)).
Proof.
  intros [Ix Nd] Ho Hu Hp Hi. split; [|exact (nodup_insert _ _ _ Hp Nd)]. cbn. rewrite Hu.
  eapply index_proper; [|exact (add_user_index u (pri_db_ids ins) _ _ Ix)]. intros v id. cbn.
  rewrite has_database_insert, Hi. destruct (decide (v = u)) as [->|]; [|naive_solver]. unfold has_database.
  destruct Ho as [->|[-> ->]]; [naive_solver|]. rewrite elem_of_nil. naive_solver.
Qed.

Lemma revoked_indexed u p old del s :
  db_indexed s -> user_privilege s !! u = Some old -> username del = u -> NoDup (pri_db_ids p) ->
  (forall i, i ∈ pri_db_ids p <-> i ∈ pri_db_ids old /\ i ∉ pri_db_ids del) ->
  db_indexed (delete_db_tbl_user_map del (set_user u p s)).
Proof.
  intros [Ix Nd] Ho Hu Hp Hi. split; [|exact (nodup_insert _ _ _ Hp Nd)]. cbn. rewrite Hu.
  eapply index_proper; [|exact (remove_user_index u (pri_db_ids del) _ _ Ix)]. intros v id. cbn.
  rewrite has_database_insert, Hi. destruct (decide (v = u)) as [->|]; [|naive_solver]. unfold has_database.
  rewrite Ho. naive_solver.
Qed.

Lemma erased_indexed u old s :
  db_indexed s -> user_privilege s !! u = Some old -> username old = u ->
  db_indexed (delete_db_tbl_user_map old (erase_user u s)).
Proof.
  intros [Ix Nd] Ho Hu. split.
  - cbn. rewrite Hu. eapply index_proper; [|exact (remove_user_index u (pri_db_ids old) _ _ Ix)]. intros v id. cbn.
    unfold has_database. destruct (decide (v = u)) as [->|].
    + rewrite lookup_delete_eq, Ho. naive_solver.
    + rewrite lookup_delete_ne by done. naive_solver.
  - cbn. intros v q Hq. apply lookup_delete_Some in Hq as [_ Hq]. by apply (Nd v).
Qed.

(** The outcome of a write of a user. *)
Lemma save_user_cases u p update m :
  privileges (save_user u p update m).2 = privileges m
  \/ privileges (save_user u p update m).2 = update (set_user u p (privileges m)).
Proof.
  unfold save_user. destruct (ser_user p); [|by left]. destruct (put_meta_info _ _ m) as [[|] m1] eqn:Ew;
    apply write_cases in Ew as (_ & _ & E & _); [right|by left]. cbn. by rewrite E.
Qed.

(** ** The operations *)

Lemma check_databases_spec ns_name d l l' :
  check_databases ns_name d l = Some l' ->
  pd_database <$> l' = pd_database <$> l /\ pd_acl <$> l' = pd_acl <$> l
  /\ Forall (fun p => database_id_map d !! join ns_name (pd_database p) = Some (entry_id p)) l'.
Proof.
  revert l'. induction l as [|p l IH]; intros l'; cbn [check_databases]; [intros [= <-]; by split_and!|].
  destruct (Z.eqb_spec (get_database_id (join ns_name (pd_database p)) d) 0) as [|E]; [done|].
  destruct (check_databases ns_name d l) as [l1|]; [|done]. cbn [mbind option_bind]. intros [= <-].
  destruct (IH l1 eq_refl) as (E1 & E2 & F). cbn. rewrite E1, E2. split_and!; [done|done|]. constructor; [|done].
  cbn. unfold get_database_id in *. by destruct (database_id_map d !! join ns_name (pd_database p)).
Qed.

Lemma checked_nodup ns_name d l l' :
  db_family d -> NoDup (pd_database <$> l) -> check_databases ns_name d l = Some l' -> NoDup (entry_id <$> l').
Proof.
  intros F Hn Hc. apply check_databases_spec in Hc as (E & _ & Hl). rewrite <- E in Hn. clear E l.
  induction Hl as [|p l Hp Hl IH]; cbn in *; [constructor|]. apply NoDup_cons in Hn as [Hp' Hn].
  apply NoDup_cons. split; [|by apply IH]. intros Hin. apply list_elem_of_fmap in Hin as (q & Eq & Hq).
  apply Hp'. rewrite Forall_forall in Hl. pose proof (Hl q Hq) as Hq'. cbn in Hq'. rewrite <- Eq in Hq'.
  destruct (name_known _ _ _ _ _ F _ _ Hp) as (i & Hi & Ei), (name_known _ _ _ _ _ F _ _ Hq') as (j & Hj & Ej).
  assert (pd_database p = pd_database q) as ->.
  { assert (join ns_name (pd_database p) = join ns_name (pd_database q)) as Ej' by congruence.
    unfold join in Ej'. apply app_inv_head in Ej'. by injection Ej'. }
  by apply list_elem_of_fmap_2.
Qed.

Lemma check_privilege_databases p m p' :
  check_and_get_for_privilege p m = Some p' ->
  exists ns_name, check_databases ns_name (databases m) (privilege_database p) = Some (privilege_database p').
Proof.
  unfold check_and_get_for_privilege. destruct (_ =? 0); [done|].
  destruct (check_databases _ _ _) as [l|] eqn:E; [|done]. cbn [mbind option_bind].
  destruct (check_tables _ _ _ _); [|done]. cbn. intros [= <-]. cbn. by eexists.
Qed.

Lemma create_user_indexed r m e m' :
  catalog_inv m -> db_indexed (privileges m) -> NoDup (pd_database <$> privilege_database (request_user r)) ->
  create_user r m = (e, m') -> db_indexed (privileges m').
Proof.
  intros I Ix Hn. unfold create_user. case_decide as Hk; [by intros [= _ <-]|]. apply eq_None_not_Some in Hk.
  destruct (check_and_get_for_privilege _ m) as [p|] eqn:Ec; [|by intros [= _ <-]]. intros E.
  pose proof (save_user_cases (username (with_up_version 1 p)) (with_up_version 1 p)
    (insert_db_tbl_user_map (with_up_version 1 p)) m) as C. cbv zeta in E. rewrite E in C. cbn [snd] in C.
  destruct C as [-> | ->]; [done|].
  apply (granted_indexed _ _ no_user _ _); [done| |done| |].
  - right. cbn. split; [|done]. by rewrite (check_username _ _ _ Ec).
  - apply check_privilege_databases in Ec as (ns_name & Ec). by apply (checked_nodup _ _ _ _ (inv_db _ I) Hn Ec).
  - intros i. cbn. rewrite elem_of_nil. tauto.
Qed.

Lemma drop_user_indexed r m e m' :
  catalog_inv m -> db_indexed (privileges m) -> drop_user r m = (e, m') -> db_indexed (privileges m').
Proof.
  intros I Ix. unfold drop_user. destruct (user_privilege (privileges m) !! _) as [old|] eqn:Eo; [|by intros [= _ <-]].
  destruct (delete_meta_info _ m) as [[|] m1] eqn:Ew; intros [= _ <-]; apply write_cases in Ew as (_ & _ & E & _);
    [|by rewrite E]. cbn [privileges with_privileges]. rewrite E. apply erased_indexed; [done|done|]. by apply (known_username m).
Qed.

Lemma modify_user_indexed r m e m' :
  db_indexed (privileges m) -> modify_user r m = (e, m') -> db_indexed (privileges m').
Proof.
  intros Ix. unfold modify_user. destruct (user_privilege (privileges m) !! _) as [old|] eqn:Eo; [|by intros [= _ <-]].
  destruct (check_and_get_for_privilege _ m) as [p|] eqn:Ec; [|by intros [= _ <-]]. intros E.
  pose proof (f_equal snd E) as E'. cbn [snd] in E'. rewrite <- E'. clear E E'.
  match goal with |- context [save_user ?u ?q ?f m] => destruct (save_user_cases u q f m) as [-> | ->] end; [done|].
  apply check_username in Ec. rewrite Ec. destruct Ix as [Ix Nd]. split.
  - eapply index_proper; [|exact Ix]. intros v id. cbn. rewrite has_database_insert.
    destruct (decide (v = username (request_user r))) as [->|]; [|tauto]. unfold has_database.
    rewrite Eo. split; [intros (q & [= <-] & ?); by left|]. intros [[_ ?]|[? _]]; [by exists old|done].
  - apply nodup_insert; [|done]. by apply (Nd _ old Eo).
Qed.

Lemma granted_databases p old :
  NoDup (pri_db_ids old) ->
  NoDup (pri_db_ids (granted p old).1)
  /\ forall i, i ∈ pri_db_ids (granted p old).1 <-> i ∈ pri_db_ids old \/ i ∈ pri_db_ids (granted p old).2.
Proof.
  intros Hn. unfold granted. destruct (foldl insert_database_privilege _ _) as [dbs new] eqn:E.
  destruct (foldl insert_table_privilege _ _) as [ts new_ts]. cbn.
  exact (insert_databases_ids _ _ [] _ _ Hn E).
Qed.

Lemma revoked_databases p old :
  Forall (fun q => pd_acl q = None) (privilege_database p) -> NoDup (pri_db_ids old) ->
  NoDup (pri_db_ids (revoked p old).1)
  /\ forall i, i ∈ pri_db_ids (revoked p old).1 <-> i ∈ pri_db_ids old /\ i ∉ pri_db_ids (revoked p old).2.
Proof.
  intros Ha Hn. unfold revoked. destruct (foldl delete_database_privilege _ _) as [dbs gone] eqn:E.
  destruct (foldl delete_table_privilege _ _) as [ts gone_ts]. cbn.
  apply (delete_databases_ids _ (privilege_database old) _ [] _ _ Ha Hn); [|done].
  intros i. cbn. rewrite elem_of_nil. tauto.
Qed.

Lemma change_username p old : username (granted p old).2 = username p /\ username (revoked p old).2 = username p.
Proof.
  unfold granted, revoked. split.
  - by destruct (foldl insert_database_privilege _ _), (foldl insert_table_privilege _ _).
  - by destruct (foldl delete_database_privilege _ _), (foldl delete_table_privilege _ _).
Qed.

Lemma add_privilege_indexed r m e m' :
  db_indexed (privileges m) -> add_privilege r m = (e, m') -> db_indexed (privileges m').
Proof.
  intros Ix. unfold add_privilege. destruct (user_privilege (privileges m) !! _) as [old|] eqn:Eo; [|by intros [= _ <-]].
  destruct (check_and_get_for_privilege _ m) as [p|] eqn:Ec; [|by intros [= _ <-]].
  pose proof (granted_databases p old (proj2 Ix _ _ Eo)) as [N1 N2]. pose proof (proj1 (change_username p old)) as U.
  destruct (granted p old) as [tmp ins]. cbn [fst snd] in *. intros E.
  pose proof (save_user_cases (username p) tmp (insert_db_tbl_user_map ins) m) as C. rewrite E in C. cbn [snd] in C.
  destruct C as [-> | ->]; [done|]. apply (granted_indexed _ _ old); [done| |done|done|done].
  left. by rewrite (check_username _ _ _ Ec).
Qed.

Lemma drop_privilege_indexed r m e m' :
  Forall (fun q => pd_acl q = None) (privilege_database (request_user r)) ->
  db_indexed (privileges m) -> drop_privilege r m = (e, m') -> db_indexed (privileges m').
Proof.
  intros Ha Ix. unfold drop_privilege. destruct (user_privilege (privileges m) !! _) as [old|] eqn:Eo; [|by intros [= _ <-]].
  destruct (check_and_get_for_privilege _ m) as [p|] eqn:Ec; [|by intros [= _ <-]].
  assert (Forall (fun q => pd_acl q = None) (privilege_database p)) as Ha'.
  { destruct (check_privilege_databases _ _ _ Ec) as (ns_name & Ec'). apply check_databases_spec in Ec' as (_ & E & _).
    assert (Forall (fun x : option Z => x = None) (pd_acl <$> privilege_database p)) as F by (rewrite E; by apply Forall_fmap).
    by apply Forall_fmap in F. }
  pose proof (revoked_databases p old Ha' (proj2 Ix _ _ Eo)) as [N1 N2]. pose proof (proj2 (change_username p old)) as U.
  destruct (revoked p old) as [tmp del]. cbn [fst snd] in *. intros E.
  pose proof (save_user_cases (username p) tmp (delete_db_tbl_user_map del) m) as C. rewrite E in C. cbn [snd] in C.
  destruct C as [-> | ->]; [done|]. apply (revoked_indexed _ _ old); [done| |done|done|done].
  by rewrite (check_username _ _ _ Ec).
Qed.

(** *** Dropping invalid entries *)

Lemma drop_invalid_ids m (l : list PrivilegeDatabase) :
  NoDup (entry_id <$> l) ->
  NoDup (entry_id <$> (drop_invalid (valid_database m) l).1)
  /\ forall i, i ∈ entry_id <$> (drop_invalid (valid_database m) l).1 <->
       i ∈ entry_id <$> l /\ i ∉ entry_id <$> (drop_invalid (valid_database m) l).2.
Proof.
  intros Hn. destruct (drop_invalid_spec (valid_database m) l) as [E1 P2]. rewrite E1. split.
  { eapply sublist_NoDup; [exact Hn|]. apply fmap_sublist, sublist_filter. }
  intros i. rewrite P2. rewrite !list_elem_of_fmap. setoid_rewrite list_elem_of_filter.
  assert (forall p q, entry_id p = entry_id q -> valid_database m p = valid_database m q) as V
    by (intros p q E; unfold valid_database; unfold entry_id in E; by rewrite E).
  split.
  - intros (p & -> & Vp & Hp). split; [by exists p|]. intros (q & Eq & Vq & _). specialize (V p q Eq). congruence.
  - intros [(p & -> & Hp) Hx]. exists p. split_and!; [done| |done]. destruct (valid_database m p) eqn:Vp; [done|].
    destruct Hx. by exists p.
Qed.

Lemma drop_invalid_loop_indexed users m e m' :
  (forall u p, (u, p) ∈ users -> user_privilege (privileges m) !! u = Some p) -> NoDup users.*1 ->
  db_indexed (privileges m) -> drop_invalid_loop users m = (e, m') -> db_indexed (privileges m').
Proof.
  revert m. induction users as [|[u p] users IH]; intros m Hu Hn Ix; cbn [drop_invalid_loop]; [by intros [= _ <-]|].
  cbn in Hn. apply NoDup_cons in Hn as [Hnu Hn]. assert (user_privilege (privileges m) !! u = Some p) as Ep by (apply Hu; by left).
  pose proof (drop_invalid_ids m (privilege_database p) (proj2 Ix _ _ Ep)) as [N1 N2].
  destruct (drop_invalid (valid_database m) _) as [dbs old_dbs], (drop_invalid (valid_table m) _) as [ts old_ts].
  cbn [fst snd] in *. destruct ((_ || _)%nat); [|apply IH; [intros; apply Hu; by right|done|done]].
  destruct (save_user _ _ _ m) as [e1 m1] eqn:Es.
  match type of Es with save_user ?u ?q ?f m = _ => pose proof (save_user_cases u q f m) as C end.
  rewrite Es in C. cbn [snd] in C.
  assert (db_indexed (privileges m1)) as Ix1.
  { destruct C as [-> | ->]; [done|]. apply (revoked_indexed _ _ p); [done|done|done|exact N1|exact N2]. }
  destruct e1; [|by intros [= _ <-]..]. apply IH; [|done|done]. intros v q Hv.
  assert (user_privilege (privileges m) !! v = Some q) as Hq by (apply Hu; by right).
  destruct C as [-> | ->]; [done|]. cbn. rewrite lookup_insert_ne; [done|]. intros ->. apply Hnu.
  apply list_elem_of_fmap. by exists (v, q).
Qed.

Lemma drop_invalid_privilege_indexed m e m' :
  db_indexed (privileges m) -> drop_invalid_privilege m = (e, m') -> db_indexed (privileges m').
Proof.
  intros Ix. apply drop_invalid_loop_indexed; [| |done].
  - intros u p Hp. rewrite users_order_perm in Hp. by apply elem_of_map_to_list in Hp.
  - rewrite users_order_perm. apply NoDup_fst_map_to_list.
Qed.

(** *** Databases *)

Lemma create_database_indexed r m e m' :
  db_indexed (privileges m) -> create_database r m = Some (e, m') -> db_indexed (privileges m').
Proof.
  intros Ix. unfold create_database. destruct (_ =? 0); [by intros [= _ <-]|].
  case_decide; [by intros [= _ <-]|]. destruct (next_id _) as [id|]; [|done]. cbn [mbind option_bind].
  destruct (ser_db _) as [b|]; [|by intros [= _ <-]].
  destruct (put_meta_infos _ m) as [[|] m1] eqn:Ew; intros [= _ <-]; apply write_cases in Ew as (_ & _ & E & _); [|by rewrite E].
  unfold add_privilege_for_database. destruct (user_privilege_of r); [|cbn; by rewrite E].
  destruct (add_privilege r _) as [e2 m2] eqn:Ea. eapply add_privilege_indexed; [|exact Ea]. cbn. by rewrite E.
Qed.

Lemma drop_privileges_indexed r id m :
  db_indexed (privileges m) -> db_indexed (privileges (drop_privilege_for_database r id m)).
Proof.
  intros Ix. unfold drop_privilege_for_database. destruct (db_user_map (privileges m) !! id) as [s|]; [|done].
  generalize (names_order s) as us. intros us. revert m Ix. induction us as [|u us IH]; intros m Ix; [done|].
  cbn. apply IH. destruct (drop_privilege _ m) as [e m1] eqn:E. eapply drop_privilege_indexed; [|done|exact E].
  by repeat constructor.
Qed.

Lemma drop_database_indexed r m e m' :
  db_indexed (privileges m) -> drop_database r m = Some (e, m') -> db_indexed (privileges m').
Proof.
  intros Ix. unfold drop_database. destruct (_ =? 0); [by intros [= _ <-]|].
  destruct (database_id_map (databases m) !! _) as [id|]; [|by intros [= _ <-]].
  case_decide; [|by intros [= _ <-]]. set (m0 := with_databases _ m) in *.
  pose proof (drop_privileges_indexed r id m0 Ix) as I1.
  destruct (delete_meta_info _ _) as [[|] m2] eqn:Ew; intros [= _ <-]; apply write_cases in Ew as (_ & _ & E & _);
    cbn; by rewrite E.
Qed.

(** Requests under which the index stays right. *)
Definition tame (op : OpType) (r : MetaManagerRequest) : Prop :=
  match op with
  | OP_CREATE_NAMESPACE => plain (namespace_name (namespace_info r))
  | OP_CREATE_USER => NoDup (pd_database <$> privilege_database (request_user r))
  | OP_DROP_PRIVILEGE => Forall (fun p => pd_acl p = None) (privilege_database (request_user r))
  | _ => True
  end.

Lemma apply_request_indexed op r m e m' :
  tame op r -> catalog_inv m -> db_indexed (privileges m) -> apply_request op r m = Some (e, m') -> db_indexed (privileges m').
Proof.
  intros T I Ix. destruct op; cbn [apply_request].
  - unfold create_namespace. case_decide; [by intros [= _ <-]|]. destruct (next_id _); [|done]. cbn [mbind option_bind].
    destruct (ser_ns _); [|by intros [= _ <-]].
    destruct (put_meta_infos _ m) as [[|] m1] eqn:Ew; intros [= _ <-]; apply write_cases in Ew as (_ & _ & E & _); cbn; by rewrite E.
  - unfold drop_namespace. destruct (namespace_id_map _ !! _); [|by intros [= _ <-]]. case_decide; [|by intros [= _ <-]].
    destruct (delete_meta_info _ _) as [[|] m1] eqn:Ew; intros [= _ <-]; apply write_cases in Ew as (_ & _ & E & _); cbn; by rewrite E.
  - unfold modify_namespace. destruct (namespace_id_map _ !! _); [|by intros [= _ <-]]. destruct (ser_ns _); [|by intros [= _ <-]].
    destruct (put_meta_info _ _ m) as [[|] m1] eqn:Ew; intros [= _ <-]; apply write_cases in Ew as (_ & _ & E & _); cbn; by rewrite E.
  - by apply create_database_indexed.
  - by apply drop_database_indexed.
  - unfold modify_database. destruct (_ =? 0); [by intros [= _ <-]|]. destruct (database_id_map _ !! _); [|by intros [= _ <-]].
    destruct (ser_db _); [|by intros [= _ <-]].
    destruct (put_meta_info _ _ m) as [[|] m1] eqn:Ew; intros [= _ <-]; apply write_cases in Ew as (_ & _ & E & _); cbn; by rewrite E.
  - intros [= E]. by eapply create_user_indexed.
  - intros [= E]. by eapply drop_user_indexed.
  - intros [= E]. by eapply modify_user_indexed.
  - intros [= E]. by eapply add_privilege_indexed.
  - intros [= E]. by eapply drop_privilege_indexed.
  - intros [= E]. by eapply drop_invalid_privilege_indexed.
Qed.

(** ** A dropped database *)

Lemma delete_whole_entry p mem del :
  pd_rw p = None -> pd_acl p = None ->
  (delete_database_privilege (mem, del) p).1 = filter (fun q => entry_id q <> entry_id p) mem.
Proof.
  intros Hw Ha. unfold delete_database_privilege. cbn [fst snd].
  assert (forall acc del, (foldl (revoke_database p) (acc, del) mem).1 = acc ++ filter (fun q => entry_id q <> entry_id p) mem) as G;
    [|apply (G [] del)]. clear del. induction mem as [|q mem IH]; intros acc del; cbn [foldl]; [by rewrite app_nil_r|].
  rewrite filter_cons. destruct (decide (entry_id q = entry_id p)) as [E|E].
  - assert (revoke_database p (acc, del) q = (acc, del ++ [p])) as ->
      by (unfold revoke_database; unfold entry_id in E; by rewrite E, Z.eqb_refl, Hw, Ha).
    rewrite decide_False by tauto. apply IH.
  - rewrite revoke_other, decide_True by done. rewrite IH. by rewrite <- app_assoc.
Qed.

Lemma save_user_writes u p update m :
  is_Some (ser_user p) -> Forall (eq true) (fates m) ->
  privileges (save_user u p update m).2 = update (set_user u p (privileges m))
  /\ Forall (eq true) (fates (save_user u p update m).2).
Proof.
  intros [b Hb] Hf. unfold save_user. rewrite Hb. unfold put_meta_info, write.
  destruct (fates m) as [|f fs]; cbn; [by split|]. apply Forall_cons in Hf as [<- Hf]. by split.
Qed.

(** One user loses the database, the others keep what they have. *)
Lemma drop_one_user info u id m :
  (forall p, is_Some (ser_user p)) -> Forall (eq true) (fates m) ->
  get_namespace_id (db_namespace_name info) (namespaces m) <> 0 -> id <> 0 ->
  database_id_map (databases m) !! db_name info = Some id ->
  let m' := (drop_privilege (drop_request info u) m).2 in
  Forall (eq true) (fates m') /\
  forall v, has_database (user_privilege (privileges m')) v id <-> has_database (user_privilege (privileges m)) v id /\ v <> u.
Proof.
  intros Hs Hf Hns Hid Hdb. unfold drop_privilege. cbv zeta.
  set (q := request_user (drop_request info u)). change (username q) with u.
  destruct (user_privilege (privileges m) !! u) as [old|] eqn:Eo.
  2:{ cbn [snd]. split; [done|]. intros v. split; [|by intros []]. intros (p & Hp & Hi). split; [by exists p|].
      intros E. rewrite E in Hp. rewrite Eo in Hp. done. }
  assert (exists ns_id, check_and_get_for_privilege q m = Some (with_pri [mk_pri_db (database info) (Some id) None None None] []
    (with_up_namespace (db_namespace_name info) ns_id q))) as (ns_id & Ec).
  { unfold check_and_get_for_privilege. change (up_namespace_name q) with (db_namespace_name info).
    change (privilege_database q) with [mk_pri_db (database info) None None None None]. change (privilege_table q) with (@nil PrivilegeTable).
    rewrite (proj2 (Z.eqb_neq _ _)) by done. cbn [check_databases pd_database]. unfold get_database_id.
    change (join (db_namespace_name info) (database info)) with (db_name info). rewrite Hdb. cbn [default].
    change (Datatypes.id id) with id. rewrite (proj2 (Z.eqb_neq _ _)) by done. cbn. by eexists. }
  rewrite Ec. set (p := with_pri _ _ _).
  assert (privilege_database (revoked p old).1 = filter (fun x => entry_id x <> id) (privilege_database old)) as Er.
  { unfold revoked. cbn [privilege_database privilege_table p with_pri foldl].
    pose proof (delete_whole_entry (mk_pri_db (database info) (Some id) None None None) (privilege_database old) [] eq_refl eq_refl) as G.
    destruct (delete_database_privilege _ _) as [dbs gone]. cbn in *. exact G. }
  destruct (revoked p old) as [tmp del]. cbn [fst] in Er.
  destruct (save_user_writes (username p) tmp (delete_db_tbl_user_map del) m (Hs tmp) Hf) as [Ep Ef].
  split; [exact Ef|]. intros v. rewrite Ep. cbn [delete_db_tbl_user_map set_user user_privilege].
  change (username p) with u. rewrite has_database_insert. split.
  - intros [[-> Hi]|[Hv Hi]]; [|done]. unfold pri_db_ids in Hi. rewrite Er in Hi.
    apply list_elem_of_fmap in Hi as (x & Ex & Hx). apply list_elem_of_filter in Hx as [Hx _]. by destruct Hx.
  - intros [Hi Hv]. by right.
Qed.

(** The users that the index lists lose the database, the others keep what they have. *)
Lemma drop_listed_users r id m :
  (forall p, is_Some (ser_user p)) -> Forall (eq true) (fates m) ->
  get_namespace_id (db_namespace_name (database_info r)) (namespaces m) <> 0 -> id <> 0 ->
  database_id_map (databases m) !! db_name (database_info r) = Some id ->
  let m' := drop_privilege_for_database r id m in
  Forall (eq true) (fates m') /\
  forall v, has_database (user_privilege (privileges m')) v id <->
    has_database (user_privilege (privileges m)) v id /\ v ∉ ids_at (db_user_map (privileges m)) id.
Proof.
  intros Hs Hf Hns Hid Hdb. unfold drop_privilege_for_database. cbv zeta.
  assert (forall us m, Forall (eq true) (fates m) ->
    get_namespace_id (db_namespace_name (database_info r)) (namespaces m) <> 0 ->
    database_id_map (databases m) !! db_name (database_info r) = Some id ->
    let m' := foldl (fun m u => (drop_privilege (drop_request (database_info r) u) m).2) m us in
    Forall (eq true) (fates m') /\
    forall v, has_database (user_privilege (privileges m')) v id <-> has_database (user_privilege (privileges m)) v id /\ v ∉ us) as G.
  { clear m Hf Hns Hdb. intros us. induction us as [|u us IH]; intros m Hf Hns Hdb; cbv zeta; cbn [foldl].
    { split; [done|]. intros v. rewrite elem_of_nil. tauto. }
    destruct (drop_one_user (database_info r) u id m Hs Hf Hns Hid Hdb) as [F1 G1].
    destruct (drop_privilege_other (drop_request (database_info r) u) m) as (O1 & O2 & _).
    destruct (IH (drop_privilege (drop_request (database_info r) u) m).2 F1) as [F2 G2]; [by rewrite O1|by rewrite O2|].
    split; [done|]. intros v. rewrite G2, G1, not_elem_of_cons. tauto. }
  unfold ids_at. destruct (db_user_map (privileges m) !! id) as [s|]; cbn [default].
  - destruct (G (names_order s) m Hf Hns Hdb) as [F1 G1]. split; [done|]. intros v.
    rewrite G1, names_order_perm, elem_of_elements. done.
  - split; [done|]. intros v. change (Datatypes.id ∅) with (∅ : gset bytes). pose proof (not_elem_of_empty (C := gset bytes) v). tauto.
Qed.

End DbIndex.
