(* ===== verification/FloatExact.v ===== *)
(** * Exact sums

    Adding two integers that a format represents gives the format's value of their sum,
    as long as the sum is represented too. *)

From S2P Require Import Prelude KeyEncoder FloatArith.

(** ** Rounding depends on the quotient only *)

(** [2^e <= num / den]. *)
Definition at_least (num den e : Z) : Prop := den * 2 ^ Z.max e 0 <= num * 2 ^ Z.max (- e) 0.

Lemma at_least_step num den e : 0 < num -> 0 < den -> at_least num den (e + 1) -> at_least num den e.
Proof.
  unfold at_least. intros Hn Hd H. destruct (Z.le_gt_cases 0 e).
  - rewrite !(Z.max_r (- _)) in * by lia. rewrite !Z.max_l in * by lia.
    rewrite Z.pow_add_r in H by lia. change (2 ^ 1) with 2 in H.
    pose proof (Z.pow_pos_nonneg 2 e). nia.
  - rewrite !(Z.max_r _ 0) in * by lia. rewrite !(Z.max_l (- _)) in * by lia.
    replace (- e) with (- (e + 1) + 1) by lia. rewrite Z.pow_add_r by lia. change (2 ^ 1) with 2.
    pose proof (Z.pow_pos_nonneg 2 (- (e + 1))). nia.
Qed.

Lemma at_least_mono num den e e' :
  0 < num -> 0 < den -> e' <= e -> at_least num den e -> at_least num den e'.
Proof.
  intros Hn Hd Hle. replace e' with (e - Z.of_nat (Z.to_nat (e - e'))) by lia.
  induction (Z.to_nat (e - e')) as [|n IH]; intros H; [by rewrite Z.sub_0_r|].
  apply at_least_step; [done|done|]. replace (e - Z.of_nat (S n) + 1) with (e - Z.of_nat n) by lia. auto.
Qed.

Lemma log2_ratio_spec num den :
  0 < num -> 0 < den ->
  at_least num den (log2_ratio num den) /\ ~ at_least num den (log2_ratio num den + 1).
Proof.
  intros Hn Hd. unfold log2_ratio. set (a := Z.log2 num). set (b := Z.log2 den).
  pose proof (Z.log2_spec num Hn) as Ha. pose proof (Z.log2_spec den Hd) as Hb.
  fold a in Ha. fold b in Hb. pose proof (Z.log2_nonneg num). pose proof (Z.log2_nonneg den).
  fold a in H. fold b in H0. rewrite Z.pow_succ_r in Ha, Hb by done.
  assert (Hhi : ~ at_least num den (a - b + 1)).
  { unfold at_least. destruct (Z.le_gt_cases 0 (a - b + 1)).
    - rewrite Z.max_l, (Z.max_r (- _)) by lia. change (2 ^ 0) with 1.
      assert (2 ^ b * 2 ^ (a - b + 1) = 2 * 2 ^ a)
        by (rewrite <- Z.pow_succ_r, <- Z.pow_add_r by lia; f_equal; lia).
      pose proof (Z.pow_pos_nonneg 2 (a - b + 1)). nia.
    - rewrite Z.max_r, (Z.max_l (- _)) by lia. change (2 ^ 0) with 1.
      assert (2 * 2 ^ a * 2 ^ (- (a - b + 1)) = 2 ^ b)
        by (rewrite <- Z.pow_succ_r, <- Z.pow_add_r by lia; f_equal; lia).
      pose proof (Z.pow_pos_nonneg 2 (- (a - b + 1))). nia. }
  assert (Hlo : at_least num den (a - b - 1)).
  { unfold at_least. destruct (Z.le_gt_cases 0 (a - b - 1)).
    - rewrite Z.max_l, (Z.max_r (- _)) by lia. change (2 ^ 0) with 1.
      assert (2 * 2 ^ b * 2 ^ (a - b - 1) = 2 ^ a)
        by (rewrite <- Z.pow_succ_r, <- Z.pow_add_r by lia; f_equal; lia).
      pose proof (Z.pow_pos_nonneg 2 (a - b - 1)). nia.
    - rewrite Z.max_r, (Z.max_l (- _)) by lia. change (2 ^ 0) with 1.
      assert (2 ^ a * 2 ^ (- (a - b - 1)) = 2 * 2 ^ b)
        by (rewrite <- Z.pow_succ_r, <- Z.pow_add_r by lia; f_equal; lia).
      pose proof (Z.pow_pos_nonneg 2 (- (a - b - 1))). nia. }
  destruct (Z.leb_spec (den * 2 ^ Z.max (a - b) 0) (num * 2 ^ Z.max (- (a - b)) 0)) as [Hle|Hgt].
  - split; [exact Hle|exact Hhi].
  - split; [exact Hlo|]. replace (a - b - 1 + 1) with (a - b) by lia. unfold at_least. lia.
Qed.

Lemma log2_ratio_scale k num den :
  0 < k -> 0 < num -> 0 < den -> log2_ratio (k * num) (k * den) = log2_ratio num den.
Proof.
  intros Hk Hn Hd.
  assert (Hs : forall e, at_least (k * num) (k * den) e <-> at_least num den e).
  { intros e. unfold at_least. rewrite <- !Z.mul_assoc. symmetry. by apply Z.mul_le_mono_pos_l. }
  destruct (log2_ratio_spec num den Hn Hd) as [A1 A2].
  destruct (log2_ratio_spec (k * num) (k * den)) as [B1 B2]; [nia|nia|].
  rewrite Hs in B1, B2. apply Z.le_antisymm; apply Z.nlt_ge; intros Hlt.
  - apply A2. apply (at_least_mono num den (log2_ratio (k * num) (k * den))); try done. lia.
  - apply B2. apply (at_least_mono num den (log2_ratio num den)); try done. lia.
Qed.

Lemma round_half_even_scale k num den :
  0 < k -> 0 < den -> round_half_even (k * num) (k * den) = round_half_even num den.
Proof.
  intros Hk Hd. unfold round_half_even.
  rewrite Z.div_mul_cancel_l, Z.mul_mod_distr_l by lia.
  replace (2 * (k * (num mod den))) with (k * (2 * (num mod den))) by lia.
  rewrite <- (Zmult_compare_compat_l _ den k) by lia. done.
Qed.

Lemma fp_round_mag_scale w m k num den :
  0 < k -> 0 <= num -> 0 < den -> fp_round_mag w m (k * num) (k * den) = fp_round_mag w m num den.
Proof.
  intros Hk Hn Hd. unfold fp_round_mag.
  destruct (Z.eqb_spec num 0) as [->|Hne]; [by rewrite Z.mul_0_r|].
  rewrite (proj2 (Z.eqb_neq (k * num) 0)), log2_ratio_scale by nia. cbv zeta.
  set (qe := Z.max _ _ - m). rewrite <- !Z.mul_assoc, round_half_even_scale; [done|done|].
  apply Z.mul_pos_pos; [done|]. apply Z.pow_pos_nonneg; lia.
Qed.

(** ** Integers *)

Section Integers.
Context (w m : Z) (Hm : 0 < m) (Hw : m <= 2 ^ (w - 2 - m) - 1) (Hwm : m < w - 2).

(** What the operations read from the value of an integer. *)
Lemma fp_of_Z_parts z :
  Z.abs z < 2 ^ (m + 1) ->
  let x := fp_of_Z w m z in
  0 < fp_den w m x /\ fp_snum w m x = z * fp_den w m x
  /\ fp_is_nan w m x = false /\ fp_is_inf w m x = false /\ fp_sign w x = (z <? 0).
Proof.
  intros Hz. unfold fp_of_Z, fp_make. cbv zeta.
  pose proof (fp_inf_range w m ltac:(lia) ltac:(lia)) as Hinf.
  assert (H2m : 0 < 2 ^ m) by (apply Z.pow_pos_nonneg; lia).
  destruct (Z.eq_dec z 0) as [->|Hnz].
  { change (fp_signed w (0 <? 0) (fp_round_mag w m (Z.abs 0) 1)) with 0.
    unfold fp_snum, fp_num, fp_significand, fp_exp_field, fp_is_nan, fp_is_inf, fp_mag, fp_sign.
    rewrite (Z.mod_0_l (2 ^ (w - 1))), Z.div_0_l, Z.mod_0_l, Z.testbit_0_l by lia.
    rewrite Z.eqb_refl. split_and!; [apply Z.pow_pos_nonneg; lia|by rewrite !Z.mul_0_l|apply Z.ltb_ge; lia| |done].
    apply Z.eqb_neq. lia. }
  destruct (fp_round_mag_small w m Hm Hw Hwm (Z.abs z)) as (Hr & Hi & Hq); [lia|].
  set (l := Z.log2 (Z.abs z)) in *. set (q := Z.abs z * 2 ^ (m - l)) in *.
  set (M := fp_round_mag w m (Z.abs z) 1) in *.
  pose proof (Z.log2_nonneg (Z.abs z)) as Hl0. fold l in Hl0.
  assert (Hl : l <= m) by (apply Z.lt_succ_r, Z.log2_lt_pow2; [lia|apply Hz]).
  assert (He : fp_emin w m <= 0) by (unfold fp_emin; lia).
  destruct (fp_signed_read w m Hm Hwm (z <? 0) M) as [Em Es]; [nia|].
  assert (Ef : M / 2 ^ m = l - fp_emin w m + 1 /\ M mod 2 ^ m = q - 2 ^ m).
  { replace M with ((l - fp_emin w m + 1) * 2 ^ m + (q - 2 ^ m)) by lia.
    rewrite Z.div_add_l, (Z.div_small (q - 2 ^ m)) by lia.
    rewrite (Z.add_comm (_ * _)), Z.mod_add, (Z.mod_small (q - 2 ^ m)) by lia. lia. }
  unfold fp_snum, fp_is_nan, fp_is_inf. rewrite Em, Es.
  unfold fp_num, fp_den, fp_exponent, fp_significand, fp_exp_field.
  rewrite Em. destruct Ef as [-> ->].
  rewrite (proj2 (Z.eqb_neq _ 0)) by lia. rewrite (Z.max_r 1) by lia.
  replace (l - fp_emin w m + 1 - 1 + fp_emin w m - m) with (l - m) by lia.
  rewrite (Z.max_r (l - m)), (Z.max_l (- (l - m))) by lia.
  replace (- (l - m)) with (m - l) by lia. change (2 ^ 0) with 1.
  split_and!; [apply Z.pow_pos_nonneg; lia| |apply Z.ltb_ge; nia|apply Z.eqb_neq; nia|done].
  destruct (Z.ltb_spec z 0); unfold q; nia.
Qed.

(** The value of an integer, from any fraction that is equal to it. *)
Lemma fp_make_integer z d : 0 < d -> fp_make w m (z <? 0) (Z.abs z * d) d = fp_of_Z w m z.
Proof.
  intros Hd. unfold fp_of_Z, fp_make. f_equal.
  replace (Z.abs z * d) with (d * Z.abs z) by lia. rewrite <- (Z.mul_1_r d) at 2.
  apply fp_round_mag_scale; lia.
Qed.

Lemma fp_add_of_Z a b :
  Z.abs a < 2 ^ (m + 1) -> Z.abs b < 2 ^ (m + 1) ->
  fp_add w m (fp_of_Z w m a) (fp_of_Z w m b) = fp_of_Z w m (a + b).
Proof.
  intros Ha Hb. destruct (fp_of_Z_parts a Ha) as (Da & Na & Xa & Ia & Sa).
  destruct (fp_of_Z_parts b Hb) as (Db & Nb & Xb & Ib & Sb). unfold fp_add.
  rewrite Xa, Xb, Ia, Ib, Sa, Sb. cbn [orb]. rewrite Na, Nb.
  set (da := fp_den w m (fp_of_Z w m a)) in *. set (db := fp_den w m (fp_of_Z w m b)) in *.
  replace (a * da * db + b * db * da) with ((a + b) * (da * db)) by lia.
  assert (Hd : 0 < da * db) by nia. rewrite Z.abs_mul, (Z.abs_eq (da * db)) by lia.
  rewrite <- (fp_make_integer (a + b) (da * db) Hd). f_equal.
  destruct (Z.eqb_spec ((a + b) * (da * db)) 0) as [E|E].
  - apply Z.mul_eq_0 in E. destruct (Z.ltb_spec a 0), (Z.ltb_spec b 0), (Z.ltb_spec (a + b) 0); lia || done.
  - destruct (Z.ltb_spec ((a + b) * (da * db)) 0), (Z.ltb_spec (a + b) 0); nia || done.
Qed.

End Integers.

(** Sums of integers in doubles. *)
Lemma f64_add_of_Z a b :
  Z.abs a < 2 ^ 53 -> Z.abs b < 2 ^ 53 ->
  fp_add 64 52 (f64_of_Z a) (f64_of_Z b) = f64_of_Z (a + b).
Proof. apply (fp_add_of_Z 64 52); lia. Qed.
