(* ===== verification/Hll.v ===== *)
(** * HyperLogLog objects ([src/common/hll_common.cpp], [include/common/hll_common.h])

    An object is a string: a header of 16 bytes and 16384 registers in one of three
    encodings.  [HLL_DENSE] packs registers of 6 bits, [HLL_SPARSE] is a run-length
    code, [HLL_RAW] has a byte per register.  Operations work on the bytes; [None]
    marks an access outside the string.  [hll_add] and its siblings return the code
    of the call with the object as the call leaves it. *)

From S2P Require Import Prelude KeyEncoder FloatArith Calendar Stdio FloatText DateTime ExprValue.

Definition hll_sparse_max_bytes : Z := 3000.
Definition HLL_P : Z := 14.
Definition HLL_Q : Z := 64 - HLL_P.
Definition HLL_REGISTERS : Z := 16384.
Definition HLL_P_MASK : Z := HLL_REGISTERS - 1.
Definition HLL_BITS : Z := 6.
Definition HLL_REGISTER_MAX : Z := 63.
Definition HLL_HDR_SIZE : Z := 16.
Definition HLL_DENSE_SIZE : Z := HLL_HDR_SIZE + (HLL_REGISTERS * HLL_BITS + 7) / 8.
Definition HLL_DENSE : Z := 0.
Definition HLL_SPARSE : Z := 1.
Definition HLL_RAW : Z := 255.
Definition HLL_MAX_ENCODING : Z := 1.

(** ** Bytes of a string *)

Definition len (s : bytes) : Z := Z.of_nat (length s).

(** [data()[p]]: the position after the last byte holds the terminator. *)
Definition byte_at (s : bytes) (p : Z) : option Z :=
  if p =? len s then Some 0 else if 0 <=? p then s !! Z.to_nat p else None.

(** A write; the terminator may only be overwritten by itself. *)
Definition put_byte (p x : Z) (s : bytes) : option bytes :=
  if (0 <=? p) && (p <? len s) then Some (<[Z.to_nat p := u8 x]> s)
  else if (p =? len s) && (u8 x =? 0) then Some s
  else None.

(** [s.replace(p, n, t)] at a position inside the string. *)
Definition replace_bytes (p n : Z) (t s : bytes) : bytes :=
  take (Z.to_nat p) s ++ t ++ drop (Z.to_nat (p + n)) s.

(** The number of bytes of packed registers. *)
Definition dense_bytes : nat := Z.to_nat (HLL_DENSE_SIZE - HLL_HDR_SIZE).

(** The loop over all registers. *)
Fixpoint for_loop {A} (n : nat) (i : Z) (step : Z -> A -> option A) (a : A) : option A :=
  match n with
  | O => Some a
  | S n => a ← step i a; for_loop n (i + 1) step a
  end.

Definition register_count : nat := Z.to_nat HLL_REGISTERS.

Definition for_registers {A} (step : Z -> A -> option A) (a : A) : option A :=
  for_loop register_count 0 step a.

(** ** The header *)

Definition magic : bytes := bytes_of_string "HYLL".

Definition encoding (hll : bytes) : Z := default 0 (hll !! 4%nat).

(** [HLL_INVALIDATE_CACHE]: the top bit of [card[7]]. *)
Definition invalidate_cache (hll : bytes) : option bytes :=
  c ← byte_at hll 15; put_byte 15 (Z.lor c 0x80) hll.

Definition is_hll_object (hll : bytes) : bool :=
  if len hll <? HLL_HDR_SIZE then false
  else if negb (bool_decide (take 4 hll = magic)) then false
  else if (HLL_MAX_ENCODING <? encoding hll) && negb (encoding hll =? HLL_RAW) then false
  else if (encoding hll =? HLL_DENSE) && negb (len hll =? HLL_DENSE_SIZE) then false
  else true.

(** ** Hash values *)

(** The loop over the bits; bit [HLL_Q] of the value ends it. *)
Fixpoint pat_loop (fuel : nat) (hash_value bit count : Z) : Z :=
  match fuel with
  | O => count
  | S fuel =>
      if Z.land hash_value bit =? 0
      then pat_loop fuel hash_value (u64 (Z.shiftl bit 1)) (count + 1)
      else count
  end.

(** The length of the pattern and the index of the register. *)
Definition hll_pat_len (hash_value : Z) : Z * Z :=
  let index := Z.land hash_value HLL_P_MASK in
  let rest := Z.lor (Z.shiftr hash_value HLL_P) (Z.shiftl 1 HLL_Q) in
  (pat_loop 64 rest 1 1, index).

(** ** Dense registers *)

Definition dense_get (hll : bytes) (regnum : Z) : option Z :=
  let byte := HLL_HDR_SIZE + regnum * HLL_BITS / 8 in
  let fb := Z.land (regnum * HLL_BITS) 7 in
  b0 ← byte_at hll byte;
  b1 ← byte_at hll (byte + 1);
  Some (Z.land (Z.lor (Z.shiftr b0 fb) (Z.shiftl b1 (8 - fb))) HLL_REGISTER_MAX).

(** [x &= ~mask; x |= v] on a byte of the string. *)
Definition patch_byte (p mask v : Z) (s : bytes) : option bytes :=
  b ← byte_at s p;
  s ← put_byte p (Z.land b (Z.lnot mask)) s;
  b ← byte_at s p;
  put_byte p (Z.lor b v) s.

Definition dense_put (hll : bytes) (regnum val : Z) : option bytes :=
  let byte := HLL_HDR_SIZE + regnum * HLL_BITS / 8 in
  let fb := Z.land (regnum * HLL_BITS) 7 in
  hll ← patch_byte byte (Z.shiftl HLL_REGISTER_MAX fb) (Z.shiftl val fb) hll;
  patch_byte (byte + 1) (Z.shiftr HLL_REGISTER_MAX (8 - fb)) (Z.shiftr val (8 - fb)) hll.

Definition hll_dense_set (hll : bytes) (index count : Z) : option (Z * bytes) :=
  oldcount ← dense_get hll index;
  if oldcount <? count then hll ← dense_put hll index count; Some (1, hll)
  else Some (0, hll).

Definition hll_dense_add (hll : bytes) (hash_value : Z) : option (Z * bytes) :=
  let '(count, index) := hll_pat_len hash_value in hll_dense_set hll index count.

(** ** Sparse opcodes *)

Definition SPARSE_IS_ZERO (b : Z) : bool := Z.land b 0xc0 =? 0.
Definition SPARSE_IS_XZERO (b : Z) : bool := Z.land b 0xc0 =? 0x40.
Definition SPARSE_IS_VAL (b : Z) : bool := negb (Z.land b 0x80 =? 0).
Definition SPARSE_ZERO_LEN (b : Z) : Z := Z.land b 0x3f + 1.
Definition SPARSE_XZERO_LEN (b b1 : Z) : Z := Z.lor (Z.shiftl (Z.land b 0x3f) 8) b1 + 1.
Definition SPARSE_VAL_VALUE (b : Z) : Z := Z.land (Z.shiftr b 2) 0x1f + 1.
Definition SPARSE_VAL_LEN (b : Z) : Z := Z.land b 0x3 + 1.
Definition SPARSE_VAL_MAX_VALUE : Z := 32.
Definition SPARSE_VAL_MAX_LEN : Z := 4.
Definition SPARSE_ZERO_MAX_LEN : Z := 64.
Definition SPARSE_XZERO_MAX_LEN : Z := 16384.

Definition SPARSE_VAL_SET (val len : Z) : Z :=
  u8 (Z.lor (Z.lor (Z.shiftl (val - 1) 2) (len - 1)) 0x80).
Definition SPARSE_ZERO_SET (len : Z) : Z := u8 (len - 1).
Definition SPARSE_XZERO_SET (len : Z) : bytes :=
  [u8 (Z.lor (Z.shiftr (len - 1) 8) 0x40); u8 (Z.land (len - 1) 0xff)].

(** The opcodes of a run of zeros. *)
Definition zeros_seq (len : Z) : bytes :=
  if SPARSE_ZERO_MAX_LEN <? len then SPARSE_XZERO_SET len else [SPARSE_ZERO_SET len].

(** The loop over the opcodes from position [p], register [i] on: [step] is called
    for every register of a VAL opcode.  Returns the number of registers seen. *)
Fixpoint walk {A} (fuel : nat) (hll : bytes) (p i : Z) (step : Z -> Z -> A -> option A)
    (a : A) : option (Z * A) :=
  if p <? len hll then
    match fuel with
    | O => None
    | S fuel =>
        b ← byte_at hll p;
        if SPARSE_IS_ZERO b then walk fuel hll (p + 1) (i + SPARSE_ZERO_LEN b) step a
        else if SPARSE_IS_XZERO b then
          b1 ← byte_at hll (p + 1);
          walk fuel hll (p + 2) (i + SPARSE_XZERO_LEN b b1) step a
        else
          let runlen := SPARSE_VAL_LEN b in
          let regval := SPARSE_VAL_VALUE b in
          if HLL_REGISTERS <? runlen + i then Some (i, a)
          else
            a ← for_loop (Z.to_nat runlen) i (fun i => step i regval) a;
            walk fuel hll (p + 1) (i + runlen) step a
    end
  else Some (i, a).

Definition walk_registers {A} (hll : bytes) (step : Z -> Z -> A -> option A) (a : A) :
    option (Z * A) :=
  walk (length hll) hll HLL_HDR_SIZE 0 step a.

(** ** Conversion to dense registers

    The new header has the dense encoding, so of the switch on it in the loop over
    raw registers only the first case is taken. *)

Definition hll_sparse_to_dense (hll : bytes) : option (Z * bytes) :=
  if len hll <? HLL_HDR_SIZE then None
  else if encoding hll =? HLL_DENSE then Some (0, hll)
  else
    let dense := <[4%nat := HLL_DENSE]> (take 16 hll)
                 ++ replicate dense_bytes 0 in
    if encoding hll =? HLL_RAW then
      dense ← for_registers (fun j dense =>
        max ← byte_at hll (HLL_HDR_SIZE + j);
        if max =? 0 then Some dense else snd <$> hll_dense_set dense j max) dense;
      Some (0, dense)
    else
      '(idx, dense) ← walk_registers hll (fun i v dense => dense_put dense i v) dense;
      if negb (idx =? HLL_REGISTERS) then Some (-1, hll) else Some (0, dense).

(** ** Setting a sparse register *)

Definition hll_sparse_set_promote (hll : bytes) (index count : Z) : option (Z * bytes) :=
  '(ret, hll) ← hll_sparse_to_dense hll;
  if ret <? 0 then Some (-1, hll)
  else
    '(dense_retval, hll) ← hll_dense_set hll index count;
    if negb (dense_retval =? 1) then Some (-1, hll)
    else hll ← invalidate_cache hll; Some (dense_retval, hll).

(** Two neighbours with the same value become one opcode. *)
Fixpoint join_values (scanlen : nat) (hll : bytes) (begin end_ : Z) : option bytes :=
  match scanlen with
  | O => Some hll
  | S scanlen =>
      if begin <? end_ then
        b ← byte_at hll begin;
        if SPARSE_IS_XZERO b then join_values scanlen hll (begin + 2) end_
        else if SPARSE_IS_ZERO b then join_values scanlen hll (begin + 1) end_
        else if begin + 1 <? end_ then
          b1 ← byte_at hll (begin + 1);
          let l := SPARSE_VAL_LEN b + SPARSE_VAL_LEN b1 in
          if SPARSE_IS_VAL b1 && (SPARSE_VAL_VALUE b =? SPARSE_VAL_VALUE b1)
             && (l <=? SPARSE_VAL_MAX_LEN) then
            hll ← put_byte (begin + 1) (SPARSE_VAL_SET (SPARSE_VAL_VALUE b) l) hll;
            join_values scanlen (replace_bytes begin 1 [] hll) begin (end_ - 1)
          else join_values scanlen hll (begin + 1) end_
        else join_values scanlen hll (begin + 1) end_
      else Some hll
  end.

Definition hll_sparse_set_update (hll : bytes) (begin end_ : Z) : option (Z * bytes) :=
  hll ← join_values 5 hll begin end_;
  hll ← invalidate_cache hll;
  Some (1, hll).

(** The length of the run of the opcode at [p], and of the opcode itself. *)
Definition opcode_span (hll : bytes) (p b : Z) : option (Z * Z) :=
  if SPARSE_IS_ZERO b then Some (SPARSE_ZERO_LEN b, 1)
  else if SPARSE_IS_VAL b then Some (SPARSE_VAL_LEN b, 1)
  else b1 ← byte_at hll (p + 1); Some (SPARSE_XZERO_LEN b b1, 2).

(** The search for the opcode of a register: [p], [first], [span] and [prev]. *)
Fixpoint find_opcode (fuel : nat) (hll : bytes) (index p first span : Z) (prev : option Z) :
    option (Z * Z * Z * option Z) :=
  if p <? len hll then
    match fuel with
    | O => None
    | S fuel =>
        b ← byte_at hll p;
        '(span, oplen) ← opcode_span hll p b;
        if index <=? first + span - 1 then Some (p, first, span, prev)
        else find_opcode fuel hll index (p + oplen) (first + span) span (Some p)
    end
  else Some (p, first, span, prev).

(** The opcodes that replace one run: a register in its middle takes [count]. *)
Definition split_run (is_val : bool) (curval first last index count : Z) : bytes :=
  let rest l := if is_val then [SPARSE_VAL_SET curval l] else zeros_seq l in
  (if negb (index =? first) then rest (index - first) else [])
  ++ [SPARSE_VAL_SET count 1]
  ++ (if negb (index =? last) then rest (last - index) else []).

Definition hll_sparse_set (hll : bytes) (index count : Z) : option (Z * bytes) :=
  if SPARSE_VAL_MAX_VALUE <? count then hll_sparse_set_promote hll index count
  else
    '(p, first, span, prev) ← find_opcode (length hll) hll index HLL_HDR_SIZE 0 0 None;
    if (span =? 0) || (len hll <=? p) then Some (-1, hll)
    else
      b ← byte_at hll p;
      '(runlen, _) ← opcode_span hll p b;
      let is_val := negb (SPARSE_IS_ZERO b) && negb (SPARSE_IS_XZERO b) in
      let begin := default HLL_HDR_SIZE prev in
      if is_val && (count <=? SPARSE_VAL_VALUE b) then Some (0, hll)
      else if (is_val || SPARSE_IS_ZERO b) && (runlen =? 1) then
        hll' ← put_byte p (SPARSE_VAL_SET count 1) hll;
        hll_sparse_set_update hll' begin (len hll)
      else
        let seq := split_run is_val (SPARSE_VAL_VALUE b) first (first + span - 1) index count in
        let oldlen := if SPARSE_IS_XZERO b then 2 else 1 in
        let deltalen := len seq - oldlen in
        if (0 <? deltalen) && (hll_sparse_max_bytes <? len hll + deltalen)
        then hll_sparse_set_promote hll index count
        else hll_sparse_set_update (replace_bytes p oldlen seq hll) begin (len hll + deltalen).

Definition hll_sparse_add (hll : bytes) (hash_value : Z) : option (Z * bytes) :=
  let '(count, index) := hll_pat_len hash_value in hll_sparse_set hll index count.

(** ** New objects *)

(** One XZERO opcode spans all registers. *)
Definition hll_sparse_init : bytes :=
  magic ++ [HLL_SPARSE] ++ replicate 11 0 ++ SPARSE_XZERO_SET HLL_REGISTERS.

Definition hll_row_init : bytes :=
  magic ++ [HLL_RAW] ++ replicate 11 0 ++ replicate register_count 0.

(** The switch on the encoding in [hll_raw_to_sparse] and [hll_merge]: a raw object
    is left as it is. *)
Definition set_register (hll : bytes) (j count : Z) : option bytes :=
  if encoding hll =? HLL_DENSE then snd <$> hll_dense_set hll j count
  else if encoding hll =? HLL_SPARSE then snd <$> hll_sparse_set hll j count
  else Some hll.

Definition hll_raw_to_sparse (hll : bytes) : option (Z * bytes) :=
  if len hll <? HLL_HDR_SIZE then None
  else if negb (encoding hll =? HLL_RAW) then Some (0, hll)
  else
    sparse ← for_registers (fun j sparse =>
      max ← byte_at hll (HLL_HDR_SIZE + j);
      if max =? 0 then Some sparse else set_register sparse j max) hll_sparse_init;
    Some (0, sparse).

(** ** Adding a hash value *)

(** [if (registers[index] < count) registers[index] = count], and whether it did. *)
Definition raw_max (hll : bytes) (index count : Z) : option (bool * bytes) :=
  old ← byte_at hll (HLL_HDR_SIZE + index);
  if old <? count then hll ← put_byte (HLL_HDR_SIZE + index) count hll; Some (true, hll)
  else Some (false, hll).

Definition hll_row_add (hll : bytes) (hash_value : Z) : option (Z * bytes) :=
  let '(count, index) := hll_pat_len hash_value in
  '(changed, hll) ← raw_max hll index count;
  hll ← (if changed : bool then invalidate_cache hll else Some hll);
  Some (0, hll).

Definition hll_add (hll : bytes) (hash_value : Z) : option (Z * bytes) :=
  if is_hll_object hll then
    if encoding hll =? HLL_DENSE then
      '(ret, hll) ← hll_dense_add hll hash_value;
      hll ← (if ret =? 1 then invalidate_cache hll else Some hll);
      Some (ret, hll)
    else if encoding hll =? HLL_SPARSE then hll_sparse_add hll hash_value
    else if encoding hll =? HLL_RAW then hll_row_add hll hash_value
    else Some (-1, hll)
  else Some (-1, hll).

(** ** Merging *)

Definition hll_merge_agg (hll1 hll2 : bytes) : option (Z * bytes) :=
  if negb (is_hll_object hll1) || negb (is_hll_object hll2) then Some (-1, hll1)
  else
    '(ret, hll1) ← (if negb (encoding hll1 =? HLL_RAW) then hll_sparse_to_dense hll1
                    else Some (0, hll1));
    if ret <? 0 then Some (-1, hll1)
    else
      let raise i val h :=
        if negb (encoding hll1 =? HLL_RAW) then snd <$> hll_dense_set h i val
        else snd <$> raw_max h i val in
      if encoding hll2 =? HLL_DENSE then
        h ← for_registers (fun i h => val ← dense_get hll2 i; raise i val h) hll1;
        h ← invalidate_cache h; Some (0, h)
      else if encoding hll2 =? HLL_RAW then
        h ← for_registers (fun i h =>
              val ← byte_at hll2 (HLL_HDR_SIZE + i); snd <$> raw_max h i val) hll1;
        h ← invalidate_cache h; Some (0, h)
      else
        '(i, h) ← walk_registers hll2 raise hll1;
        if negb (i =? HLL_REGISTERS) then Some (-1, h)
        else h ← invalidate_cache h; Some (0, h).

(** [if (val > max[i]) max[i] = val] on the array of [hll_merge]. *)
Definition max_at (i val : Z) (max : list Z) : option (list Z) :=
  old ← (if 0 <=? i then max !! Z.to_nat i else None);
  Some (if old <? val then <[Z.to_nat i := val]> max else max).

Definition hll_merge_max (max : list Z) (hll : bytes) : option (Z * list Z) :=
  if encoding hll =? HLL_DENSE then
    max ← for_registers (fun i max => val ← dense_get hll i; max_at i val max) max;
    Some (0, max)
  else if encoding hll =? HLL_RAW then
    max ← for_registers (fun i max =>
            val ← byte_at hll (HLL_HDR_SIZE + i); max_at i val max) max;
    Some (0, max)
  else
    '(i, max) ← walk_registers hll max_at max;
    Some (if negb (i =? HLL_REGISTERS) then -1 else 0, max).

(** Its loop over the array. *)
Definition set_registers (max : list Z) (hll : bytes) : option bytes :=
  for_registers (fun j hll =>
    m ← max !! Z.to_nat j;
    if m =? 0 then Some hll else set_register hll j m) hll.

Definition hll_merge (hll1 hll2 : bytes) : option (Z * bytes) :=
  if negb (is_hll_object hll1) || negb (is_hll_object hll2) then Some (-1, hll1)
  else
    let use_dense := (encoding hll1 =? HLL_DENSE) || (encoding hll2 =? HLL_DENSE) in
    '(ret, max) ← hll_merge_max (replicate register_count 0) hll1;
    if ret <? 0 then Some (-1, hll1)
    else
      '(ret, max) ← hll_merge_max max hll2;
      if ret <? 0 then Some (-1, hll1)
      else
        '(ret, hll1) ← (if use_dense then hll_sparse_to_dense hll1 else Some (0, hll1));
        if ret <? 0 then Some (-1, hll1)
        else
          hll1 ← set_registers max hll1;
          hll1 ← invalidate_cache hll1;
          Some (0, hll1).

(** ** The histogram of register values *)

(** [reghisto[val] += n] on an array of 64. *)
Definition hist_add (val n : Z) (reghisto : list Z) : option (list Z) :=
  old ← (if 0 <=? val then reghisto !! Z.to_nat val else None);
  Some (<[Z.to_nat val := old + n]> reghisto).

Fixpoint hist_adds (vals : list Z) (reghisto : list Z) : option (list Z) :=
  match vals with
  | [] => Some reghisto
  | v :: vals => reghisto ← hist_add v 1 reghisto; hist_adds vals reghisto
  end.

(** The sixteen registers of twelve bytes. *)
Definition unpack16 (r : nat -> Z) : list Z :=
  let low i := Z.land (r i) 63 in
  let mid2 i := Z.land (Z.lor (Z.shiftr (r i) 6) (Z.shiftl (r (S i)) 2)) 63 in
  let mid4 i := Z.land (Z.lor (Z.shiftr (r i) 4) (Z.shiftl (r (S i)) 4)) 63 in
  let high i := Z.land (Z.shiftr (r i) 2) 63 in
  [low 0; mid2 0; mid4 1; high 2; low 3; mid2 3; mid4 4; high 5;
   low 6; mid2 6; mid4 7; high 8; low 9; mid2 9; mid4 10; high 11]%nat.

(** [n] bytes from position [p] on. *)
Definition bytes_from (s : bytes) (p : Z) (n : nat) : option bytes :=
  mapM (fun k => byte_at s (p + Z.of_nat k)) (seq 0 n).

Definition hll_dense_reghisto (hll : bytes) (reghisto : list Z) : option (list Z) :=
  for_loop 1024 0 (fun j reghisto =>
    r ← bytes_from hll (HLL_HDR_SIZE + 12 * j) 12;
    hist_adds (unpack16 (fun k => default 0 (r !! k))) reghisto) reghisto.

Fixpoint sparse_hist (fuel : nat) (hll : bytes) (p idx : Z) (reghisto : list Z) :
    option (Z * list Z) :=
  if p <? len hll then
    match fuel with
    | O => None
    | S fuel =>
        b ← byte_at hll p;
        if SPARSE_IS_ZERO b then
          reghisto ← hist_add 0 (SPARSE_ZERO_LEN b) reghisto;
          sparse_hist fuel hll (p + 1) (idx + SPARSE_ZERO_LEN b) reghisto
        else if SPARSE_IS_XZERO b then
          b1 ← byte_at hll (p + 1);
          reghisto ← hist_add 0 (SPARSE_XZERO_LEN b b1) reghisto;
          sparse_hist fuel hll (p + 2) (idx + SPARSE_XZERO_LEN b b1) reghisto
        else
          reghisto ← hist_add (SPARSE_VAL_VALUE b) (SPARSE_VAL_LEN b) reghisto;
          sparse_hist fuel hll (p + 1) (idx + SPARSE_VAL_LEN b) reghisto
    end
  else Some (idx, reghisto).

(** The histogram, and whether the object is invalid. *)
Definition hll_sparse_reghisto (hll : bytes) (reghisto : list Z) : option (bool * list Z) :=
  '(idx, reghisto) ← sparse_hist (length hll) hll HLL_HDR_SIZE 0 reghisto;
  Some (negb (idx =? HLL_REGISTERS), reghisto).

Definition hll_row_reghisto (hll : bytes) (reghisto : list Z) : option (list Z) :=
  for_loop 2048 0 (fun j reghisto =>
    word ← bytes_from hll (HLL_HDR_SIZE + 8 * j) 8;
    if forallb (Z.eqb 0) word then hist_add 0 8 reghisto else hist_adds word reghisto) reghisto.

(** The branches of [hll_estimate] for the three encodings. *)
Definition hll_reghisto (hll : bytes) : option (bool * list Z) :=
  if encoding hll =? HLL_DENSE then
    h ← hll_dense_reghisto hll (replicate 64 0); Some (false, h)
  else if encoding hll =? HLL_SPARSE then hll_sparse_reghisto hll (replicate 64 0)
  else h ← hll_row_reghisto hll (replicate 64 0); Some (false, h).

(** ** The estimate *)

(** [float_equal(x, 0.0)] with its tolerance of 1e-9. *)
Definition float_equal_zero (x : Z) : bool :=
  fp_lt 64 52 (fp_mag 64 (f64_sub x 0)) 0x3e112e0be826d695.

(** The loops stop when the sum no longer changes: the term of round [k] of
    [hll_sigma] is [x^(2^k) 2^(k-1)], that of [hll_tau] shrinks by a factor of
    eight. *)
Fixpoint sigma_loop (fuel : nat) (x y z : Z) : option Z :=
  match fuel with
  | O => None
  | S fuel =>
      let x := f64_mul x x in
      let z' := f64_add z (f64_mul x y) in
      if f64_eqb z z' then Some z' else sigma_loop fuel x (f64_add y y) z'
  end.

Definition hll_sigma (x : Z) : option Z :=
  if f64_eqb x f64_one then Some f64_inf else sigma_loop 1100 x f64_one x.

Section Estimate.
Context `{Libm}.

Fixpoint tau_loop (fuel : nat) (x y z : Z) : option Z :=
  match fuel with
  | O => None
  | S fuel =>
      let x := libm_sqrt x in
      let y := f64_mul y f64_half in
      let z' := f64_sub z (f64_mul (libm_pow (f64_sub f64_one x) (f64_of_Z 2)) y) in
      if f64_eqb z z' then Some z' else tau_loop fuel x y z'
  end.

Definition hll_tau (x : Z) : option Z :=
  if f64_eqb x 0 || f64_eqb x f64_one then Some 0
  else z ← tau_loop 1100 x f64_one (f64_sub f64_one x); Some (f64_div z (f64_of_Z 3)).

(** [llroundl] of a double, as a double. *)
Definition f64_llround (x : Z) : option Z :=
  z ← fp_trunc 64 52 (fp_round 64 52 x);
  if (- 2 ^ 63 <=? z) && (z <? 2 ^ 63) then Some (f64_of_Z z) else None.

(** The cardinality that a histogram stands for. *)
Definition estimate_histogram (reghisto : list Z) : option Z :=
  let m := f64_of_Z HLL_REGISTERS in
  let at_ j := f64_of_Z (default 0 (reghisto !! Z.to_nat j)) in
  tau ← hll_tau (f64_div (f64_sub m (at_ (HLL_Q + 1))) m);
  let z := foldl (fun z j => f64_mul (f64_add z (at_ j)) f64_half) (f64_mul m tau)
             (reverse (seqZ 1 HLL_Q)) in
  sigma ← hll_sigma (f64_div (at_ 0) m);
  let z := f64_add z (f64_mul m sigma) in
  E ← (if float_equal_zero z then Some 0
       else f64_llround (f64_div (f64_mul (f64_mul 0x3fe71547652b82fe m) m) z));
  card ← fp_trunc 64 52 E;
  if (0 <=? card) && (card <? 2 ^ 64) then Some card else None.

(** The cached cardinality, least significant byte first. *)
Definition cached_card (hll : bytes) : Z := le_combine (take 8 (drop 8 hll)).
Definition valid_cache (hll : bytes) : bool := Z.land (default 0 (hll !! 15%nat)) 0x80 =? 0.
Definition store_card (card : Z) (hll : bytes) : bytes :=
  take 8 hll ++ le_split 8 card ++ drop 16 hll.

(** Whether [hll_estimate] knows the encoding. *)
Definition known_encoding (hll : bytes) : bool :=
  (encoding hll =? HLL_DENSE) || (encoding hll =? HLL_SPARSE) || (encoding hll =? HLL_RAW).

(** The estimate and [*invalid]; the object keeps the estimate. *)
Definition hll_estimate_at (hll : bytes) : option (Z * bool * bytes) :=
  if len hll <? HLL_HDR_SIZE then None
  else if valid_cache hll then Some (cached_card hll, false, hll)
  else if negb (known_encoding hll) then Some (0, false, hll)
  else
    '(invalid, reghisto) ← hll_reghisto hll;
    card ← estimate_histogram reghisto;
    Some (card, invalid, store_card card hll).

Definition hll_estimate (hll : bytes) : option (Z * bytes) :=
  if is_hll_object hll then '(count, _, hll) ← hll_estimate_at hll; Some (count, hll)
  else Some (0, hll).

End Estimate.

(** * HyperLogLog functions

    The overloads of [hll_common.cpp] on values, and the SQL functions [hll_add], [hll_init],
    [hll_merge] and [hll_estimate] of [src/expr/internal_functions.cpp]. *)

Section Functions.
Context `{Host, RoaringLib, Murmur, Libm}.

(** [ExprValue::hash()] with its default seed. *)
Definition hash_of (v : ExprValue) : Z := hash 0x110 v.

Definition is_hll (v : ExprValue) : bool := type_eqb (type v) HLL.

(** [hll::hll_init] and [hll::hll_row_init]. *)
Definition hll_init : ExprValue := set_str hll_sparse_init (new_ExprValue HLL).
Definition value_row_init : ExprValue := set_str hll_row_init (new_ExprValue HLL).

(** The overloads on values; return codes are dropped. *)
Definition value_hll_add (hll : ExprValue) (hash_value : Z) : option ExprValue :=
  if is_hll_object (str_val hll)
  then '(_, s) ← hll_add (str_val hll) hash_value; Some (set_str s hll)
  else Some hll.

Definition value_hll_merge (hll1 hll2 : ExprValue) : option ExprValue :=
  '(_, s) ← hll_merge (str_val hll1) (str_val hll2); Some (set_str s hll1).

Definition value_hll_estimate (hll : ExprValue) : option Z :=
  if is_hll_object (str_val hll)
  then '(count, _, _) ← hll_estimate_at (str_val hll); Some count
  else Some 0.

(** The loop over the values that are not null. *)
Fixpoint add_values (hll : ExprValue) (input : list ExprValue) : option ExprValue :=
  match input with
  | [] => Some hll
  | v :: input =>
      hll ← (if negb (is_null v) then value_hll_add hll (hash_of v) else Some hll);
      add_values hll input
  end.

Definition fn_hll_add (input : list ExprValue) : option ExprValue :=
  match input with
  | [] => Some (new_ExprValue NULL_TYPE)
  | v :: rest =>
      if is_null v then add_values hll_init rest
      else if negb (is_hll v) then Some (new_ExprValue NULL_TYPE)
      else add_values v rest
  end.

Definition fn_hll_init (input : list ExprValue) : option ExprValue :=
  match input with
  | [] => Some (new_ExprValue NULL_TYPE)
  | _ => add_values hll_init input
  end.

Fixpoint merge_values (hll : ExprValue) (input : list ExprValue) : option ExprValue :=
  match input with
  | [] => Some hll
  | v :: input =>
      hll ← (if is_hll v then value_hll_merge hll v else Some hll);
      merge_values hll input
  end.

Definition fn_hll_merge (input : list ExprValue) : option ExprValue :=
  match input with
  | [] => Some (new_ExprValue NULL_TYPE)
  | v :: rest => merge_values (if negb (is_hll v) then hll_init else v) rest
  end.

Definition fn_hll_estimate (input : list ExprValue) : option ExprValue :=
  match input with
  | [] => Some (new_ExprValue NULL_TYPE)
  | v :: _ =>
      let tmp := new_ExprValue INT64 in
      if is_null v then Some (u_write 8 0 tmp)
      else count ← value_hll_estimate v; Some (u_write 8 count tmp)
  end.

End Functions.
