(* ===== verification/HllEncodings.v ===== *)
(** * The dense and the sparse encoding of HyperLogLog registers

    Reading and writing packed registers of six bits, and the run-length opcodes of sparse
    objects with the walk over them. *)

From S2P Require Import Prelude KeyEncoder FloatArith Hll.

Lemma register_count_Z : Z.of_nat register_count = HLL_REGISTERS.
Proof. reflexivity. Qed.

Lemma dense_bytes_Z : Z.of_nat dense_bytes = HLL_DENSE_SIZE - HLL_HDR_SIZE.
Proof. reflexivity. Qed.

(** The numbers are not to be computed with. *)
#[global] Opaque register_count dense_bytes.

(** ** Bytes *)

Definition bat (s : bytes) (p : Z) : Z := default 0 (byte_at s p).

Lemma len_nonneg s : 0 <= len s.
Proof. unfold len; lia. Qed.

Lemma byte_at_bat s p : 0 <= p <= len s -> byte_at s p = Some (bat s p).
Proof.
  intros Hp. unfold bat, byte_at. destruct (Z.eqb_spec p (len s)) as [|Hne]; [done|].
  rewrite (proj2 (Z.leb_le 0 p)) by lia.
  destruct (lookup_lt_is_Some_2 s (Z.to_nat p)) as [x ->]; [unfold len in *; lia|done].
Qed.

Lemma byte_at_lookup s p : 0 <= p < len s -> byte_at s p = s !! Z.to_nat p.
Proof.
  intros Hp. unfold byte_at. rewrite (proj2 (Z.eqb_neq p (len s))) by lia.
  by rewrite (proj2 (Z.leb_le 0 p)) by lia.
Qed.

Lemma bat_end s : bat s (len s) = 0.
Proof. unfold bat, byte_at. by rewrite Z.eqb_refl. Qed.

Lemma bat_range s p : bytes_ok s -> is_u 8 (bat s p).
Proof.
  intros Hs. unfold bat, byte_at. case_match; [done|]. case_match; [|done].
  destruct (s !! Z.to_nat p) eqn:E; [|done]. exact (Forall_lookup_1 _ _ _ _ Hs E).
Qed.

Lemma put_byte_in p x s :
  0 <= p < len s -> put_byte p x s = Some (<[Z.to_nat p := u8 x]> s).
Proof.
  intros Hp. unfold put_byte.
  by rewrite (proj2 (Z.leb_le 0 p)), (proj2 (Z.ltb_lt p (len s))) by lia.
Qed.

Lemma put_byte_end x s : u8 x = 0 -> put_byte (len s) x s = Some s.
Proof.
  intros Hx. unfold put_byte. rewrite Z.ltb_irrefl, andb_false_r, Z.eqb_refl, Hx. done.
Qed.

Lemma len_insert s i x : len (<[i := x]> s) = len s.
Proof. unfold len. by rewrite length_insert. Qed.

Lemma bat_insert_eq s p x : 0 <= p < len s -> bat (<[Z.to_nat p := x]> s) p = x.
Proof.
  intros Hp. unfold bat. rewrite byte_at_lookup by by rewrite len_insert.
  rewrite list_lookup_insert_eq; [done|unfold len in *; lia].
Qed.

Lemma byte_at_insert_ne s p q x :
  0 <= p -> q <> p -> byte_at (<[Z.to_nat p := x]> s) q = byte_at s q.
Proof.
  intros Hp Hq. unfold byte_at. rewrite len_insert. case_match; [done|].
  case_match; [|done]. apply Z.leb_le in H0. apply list_lookup_insert_ne. lia.
Qed.

Lemma bytes_ok_insert s i x : bytes_ok s -> bytes_ok (<[i := u8 x]> s).
Proof. intros Hs. apply Forall_insert; [done|]. apply wrap_range; lia. Qed.

(** Strings that agree on the header. *)
Lemma header_eq s t :
  HLL_HDR_SIZE <= len s -> HLL_HDR_SIZE <= len t ->
  (forall q, 0 <= q < HLL_HDR_SIZE -> byte_at t q = byte_at s q) -> take 16 t = take 16 s.
Proof.
  unfold HLL_HDR_SIZE. intros Hs Ht Hq. apply list_eq; intros i.
  destruct (decide (i < 16)%nat) as [Hi|Hi].
  - rewrite !lookup_take_lt by done. specialize (Hq (Z.of_nat i) ltac:(lia)).
    rewrite !byte_at_lookup, Nat2Z.id in Hq by lia. done.
  - rewrite !lookup_take_ge by lia. done.
Qed.

(** ** Bits *)

Lemma u8_bit_low x i : 0 <= i < 8 -> Z.testbit (u8 x) i = Z.testbit x i.
Proof. intros. apply Z.mod_pow2_bits_low. lia. Qed.

Lemma byte_bit_high b i : is_u 8 b -> 8 <= i -> Z.testbit b i = false.
Proof.
  intros Hb Hi. rewrite <- (wrap_id 8 b Hb). apply Z.mod_pow2_bits_high. lia.
Qed.

(** What [patch_byte] does to the bits of its byte. *)
Definition patched (b mask v j : Z) : bool :=
  (Z.testbit b j && negb (Z.testbit mask j)) || Z.testbit v j.

Lemma patch_byte_spec p mask v s :
  bytes_ok s -> 0 <= p <= len s -> (p = len s -> u8 v = 0) ->
  exists s', patch_byte p mask v s = Some s' /\ len s' = len s /\ bytes_ok s'
    /\ (forall q, q <> p -> byte_at s' q = byte_at s q)
    /\ (forall j, 0 <= j < 8 -> Z.testbit (bat s' p) j = patched (bat s p) mask v j).
Proof.
  intros Hs Hp Hv. unfold patch_byte. rewrite byte_at_bat by done.
  destruct (decide (p = len s)) as [->|Hne].
  - rewrite bat_end. cbn [mbind option_bind]. rewrite Z.land_0_l, put_byte_end by done.
    cbn [mbind option_bind]. rewrite byte_at_bat, bat_end by lia. cbn [mbind option_bind].
    rewrite Z.lor_0_l, put_byte_end by auto. exists s. rewrite bat_end.
    split_and!; try done. intros j Hj. unfold patched. rewrite Z.bits_0. cbn.
    rewrite <- (u8_bit_low v) by done. rewrite (Hv eq_refl). by rewrite Z.bits_0.
  - cbn [mbind option_bind]. rewrite put_byte_in by lia. cbn [mbind option_bind].
    rewrite byte_at_bat, bat_insert_eq by (rewrite ?len_insert; lia). cbn [mbind option_bind].
    rewrite put_byte_in, list_insert_insert_eq by (rewrite ?len_insert; lia).
    eexists; split; [reflexivity|]. rewrite len_insert. split_and!; [done| | |].
    + by apply bytes_ok_insert.
    + intros q Hq. by apply byte_at_insert_ne; [lia|].
    + intros j Hj. rewrite bat_insert_eq by lia. unfold patched.
      rewrite u8_bit_low, Z.lor_spec, u8_bit_low, Z.land_spec, Z.lnot_spec by lia. done.
Qed.

(** ** Registers as bits *)

Definition dense_ok (s : bytes) : Prop := bytes_ok s /\ len s = HLL_DENSE_SIZE.

Definition bit (s : bytes) (k : Z) : bool :=
  Z.testbit (bat s (HLL_HDR_SIZE + k / 8)) (k mod 8).

Lemma dense_size : HLL_DENSE_SIZE = 12304.
Proof. reflexivity. Qed.

Lemma land_7 x : Z.land x 7 = x mod 8.
Proof. exact (land_ones_mod x 3 ltac:(lia)). Qed.

(** The byte and the first bit of a register. *)
Lemma register_split r i :
  0 <= i -> exists q f, r * HLL_BITS / 8 = q /\ Z.land (r * HLL_BITS) 7 = f
    /\ 6 * r = 8 * q + f /\ 0 <= f <= 7
    /\ (f + i < 8 -> (6 * r + i) / 8 = q /\ (6 * r + i) mod 8 = f + i)
    /\ (8 <= f + i < 16 -> (6 * r + i) / 8 = q + 1 /\ (6 * r + i) mod 8 = f + i - 8).
Proof.
  intros Hi. unfold HLL_BITS. rewrite land_7.
  exists (r * 6 / 8), (r * 6 mod 8). split_and!; try done.
  - pose proof (Z.div_mod (r * 6) 8). lia.
  - apply Z.mod_pos_bound; lia.
  - pose proof (Z.mod_pos_bound (r * 6) 8 ltac:(lia)). lia.
  - intros. pose proof (Z.mod_pos_bound (r * 6) 8 ltac:(lia)).
    replace (6 * r + i) with (r * 6 mod 8 + i + (r * 6 / 8) * 8)
      by (pose proof (Z.div_mod (r * 6) 8); lia).
    rewrite Z.div_add, Z.mod_add, Z.div_small, Z.mod_small by lia. lia.
  - intros. pose proof (Z.mod_pos_bound (r * 6) 8 ltac:(lia)).
    replace (6 * r + i) with (r * 6 mod 8 + i - 8 + (r * 6 / 8 + 1) * 8)
      by (pose proof (Z.div_mod (r * 6) 8); lia).
    rewrite Z.div_add, Z.mod_add, Z.div_small, Z.mod_small by lia. lia.
Qed.

Lemma dense_get_bits s r :
  dense_ok s -> 0 <= r < HLL_REGISTERS ->
  exists x, dense_get s r = Some x /\ 0 <= x < 64
    /\ forall i, 0 <= i < 6 -> Z.testbit x i = bit s (6 * r + i).
Proof.
  intros [Hs Hlen] Hr. unfold dense_get, HLL_HDR_SIZE, HLL_REGISTERS in *.
  destruct (register_split r 0 ltac:(lia)) as (q & f & -> & -> & Hqf & Hf & _).
  rewrite dense_size in Hlen. rewrite !byte_at_bat by lia. cbn [mbind option_bind].
  eexists; split; [reflexivity|]. split.
  - unfold HLL_REGISTER_MAX. rewrite (land_ones_mod _ 6) by lia. apply Z.mod_pos_bound; lia.
  - intros i Hi. unfold HLL_REGISTER_MAX, bit.
    rewrite Z.land_spec, Z.lor_spec, Z.shiftr_spec, Z.shiftl_spec by lia.
    replace (Z.testbit 63 i) with true by (destruct (decide (i = 0)), (decide (i = 1)),
      (decide (i = 2)), (decide (i = 3)), (decide (i = 4)), (decide (i = 5)); subst; auto; lia).
    rewrite andb_true_r. destruct (register_split r i ltac:(lia)) as (q' & f' & E1 & E2 & E3 & E4 & L & H).
    assert (q' = q /\ f' = f) as [-> ->] by lia.
    destruct (Z.ltb_spec (f + i) 8).
    + unfold HLL_HDR_SIZE. destruct L as [-> ->]; [lia|]. rewrite (Z.testbit_neg_r (bat s _) (i - (8 - f))) by lia.
      rewrite orb_false_r. f_equal; lia.
    + destruct H as [-> ->]; [lia|].
      rewrite byte_bit_high by (try apply bat_range; try done; lia).
      rewrite orb_false_l. replace (i - (8 - f)) with (f + i - 8) by lia. unfold HLL_HDR_SIZE. do 2 f_equal. lia.
Qed.

Lemma bit_of_byte s t k :
  byte_at t (HLL_HDR_SIZE + k / 8) = byte_at s (HLL_HDR_SIZE + k / 8) -> bit t k = bit s k.
Proof. intros E. unfold bit, bat. by rewrite E. Qed.

(** The mask of a register in its first and in its second byte. *)
Lemma mask_bits f j :
  0 <= f <= 7 -> 0 <= j < 8 ->
  Z.testbit (Z.shiftl HLL_REGISTER_MAX f) j = bool_decide (f <= j < f + 6)
  /\ Z.testbit (Z.shiftr HLL_REGISTER_MAX (8 - f)) j = bool_decide (j < f - 2).
Proof.
  intros Hf Hj. unfold HLL_REGISTER_MAX. change 63 with (Z.ones 6).
  rewrite Z.shiftl_spec, Z.shiftr_spec by lia. split.
  - destruct (decide (f <= j < f + 6)) as [E|E].
    + rewrite bool_decide_true by done. apply Z.ones_spec_low; lia.
    + rewrite bool_decide_false by done. destruct (decide (j < f)).
      * apply Z.testbit_neg_r; lia.
      * apply Z.ones_spec_high; lia.
  - destruct (decide (j < f - 2)).
    + rewrite bool_decide_true by done. apply Z.ones_spec_low; lia.
    + rewrite bool_decide_false by done. apply Z.ones_spec_high; lia.
Qed.

Lemma small_bits_high v i : 0 <= v < 64 -> 6 <= i -> Z.testbit v i = false.
Proof.
  intros Hv Hi. rewrite <- (Z.mod_small v (2 ^ 6)) by lia. apply Z.mod_pow2_bits_high. lia.
Qed.

Lemma dense_put_bits s r v :
  dense_ok s -> 0 <= r < HLL_REGISTERS -> 0 <= v < 64 ->
  exists s', dense_put s r v = Some s' /\ dense_ok s'
    /\ (forall q, q < HLL_HDR_SIZE -> byte_at s' q = byte_at s q)
    /\ (forall k, 0 <= k -> bit s' k =
          if decide (6 * r <= k < 6 * r + 6) then Z.testbit v (k - 6 * r) else bit s k).
Proof.
  intros [Hs Hlen] Hr Hv. unfold dense_put, HLL_HDR_SIZE, HLL_REGISTERS in *.
  rewrite dense_size in Hlen.
  destruct (register_split r 0 ltac:(lia)) as (q & f & -> & -> & Hqf & Hf & _).
  destruct (patch_byte_spec (16 + q) (Z.shiftl HLL_REGISTER_MAX f) (Z.shiftl v f) s)
    as (s1 & -> & Hl1 & Hs1 & Ho1 & Hb1); [done|lia|lia|].
  cbn [mbind option_bind].
  destruct (patch_byte_spec (16 + q + 1) (Z.shiftr HLL_REGISTER_MAX (8 - f)) (Z.shiftr v (8 - f)) s1)
    as (s2 & -> & Hl2 & Hs2 & Ho2 & Hb2); [done|lia| |].
  { intros E. replace f with 2 by lia. rewrite Z.shiftr_div_pow2 by lia.
    rewrite Z.div_small by lia. reflexivity. }
  exists s2. split_and!; [done|split; [done|rewrite dense_size; lia]|..].
  { intros p Hp. rewrite Ho2, Ho1 by lia. done. }
  intros k Hk. pose proof (Z.div_mod k 8). pose proof (Z.mod_pos_bound k 8 ltac:(lia)).
  destruct (mask_bits f (k mod 8) ltac:(lia) ltac:(lia)) as [M1 M2].
  destruct (decide (k / 8 = q)) as [Eq|Nq]; [|destruct (decide (k / 8 = q + 1)) as [Eq|Nq1]].
  - rewrite (bit_of_byte s1 s2 k) by (apply Ho2; unfold HLL_HDR_SIZE; lia).
    unfold bit at 1. unfold HLL_HDR_SIZE. rewrite Eq, Hb1 by lia. unfold patched.
    rewrite M1, Z.shiftl_spec by lia. destruct (decide (6 * r <= k < 6 * r + 6)) as [E|E].
    + rewrite bool_decide_true by lia. rewrite andb_false_r. cbn [orb]. f_equal. lia.
    + rewrite bool_decide_false by lia. rewrite andb_true_r. unfold bit, HLL_HDR_SIZE. rewrite Eq.
      destruct (decide (k mod 8 < f)).
      * rewrite (Z.testbit_neg_r v) by lia. apply orb_false_r.
      * rewrite (small_bits_high v) by lia. apply orb_false_r.
  - unfold bit at 1. unfold HLL_HDR_SIZE. rewrite Eq, Z.add_assoc, Hb2 by lia. unfold patched.
    rewrite M2, Z.shiftr_spec by lia. destruct (decide (6 * r <= k < 6 * r + 6)) as [E|E].
    + rewrite bool_decide_true by lia. rewrite andb_false_r. cbn [orb]. f_equal. lia.
    + rewrite bool_decide_false by lia. rewrite andb_true_r, (small_bits_high v), orb_false_r by lia.
      unfold bit, HLL_HDR_SIZE, bat. rewrite Eq, Z.add_assoc, Ho1 by lia. done.
  - rewrite decide_False by lia. apply bit_of_byte. unfold HLL_HDR_SIZE.
    rewrite Ho2, Ho1 by lia. done.
Qed.

(** ** Registers *)

Definition dreg (s : bytes) (r : Z) : Z := default 0 (dense_get s r).

Lemma dense_get_dreg s r :
  dense_ok s -> 0 <= r < HLL_REGISTERS -> dense_get s r = Some (dreg s r) /\ 0 <= dreg s r < 64.
Proof.
  intros Hs Hr. destruct (dense_get_bits s r Hs Hr) as (x & E & Hx & _).
  unfold dreg. by rewrite E.
Qed.

Lemma six_bits_inj x y :
  0 <= x < 64 -> 0 <= y < 64 -> (forall i, 0 <= i < 6 -> Z.testbit x i = Z.testbit y i) -> x = y.
Proof.
  intros Hx Hy Hi. apply Z.bits_inj'; intros i Hn. destruct (decide (i < 6)); [auto with lia|].
  by rewrite !small_bits_high by lia.
Qed.

(** Writing a register changes that register only. *)
Lemma dense_put_spec s r v :
  dense_ok s -> 0 <= r < HLL_REGISTERS -> 0 <= v < 64 ->
  exists s', dense_put s r v = Some s' /\ dense_ok s'
    /\ (forall q, q < HLL_HDR_SIZE -> byte_at s' q = byte_at s q)
    /\ (forall k, 0 <= k < HLL_REGISTERS -> dreg s' k = if decide (k = r) then v else dreg s k).
Proof.
  intros Hs Hr Hv. destruct (dense_put_bits s r v Hs Hr Hv) as (s' & E & Hs' & Hh & Hb).
  exists s'. split_and!; try done. intros k Hk.
  destruct (dense_get_bits s' k Hs' Hk) as (x & Ex & Hx & Bx).
  destruct (dense_get_bits s k Hs Hk) as (y & Ey & Hy & By).
  unfold dreg. rewrite Ex, Ey. change (default 0 (Some x)) with x.
  change (default 0 (Some y)) with y.
  destruct (decide (k = r)) as [->|Hne]; apply six_bits_inj; try lia.
  - intros i Hi. rewrite Bx by lia. rewrite Hb, decide_True by lia. f_equal. lia.
  - intros i Hi. rewrite Bx by lia. rewrite Hb, decide_False, By by lia. done.
Qed.

Lemma hll_dense_set_spec s r v :
  dense_ok s -> 0 <= r < HLL_REGISTERS -> 0 <= v < 64 ->
  exists s', hll_dense_set s r v = Some (if dreg s r <? v then 1 else 0, s') /\ dense_ok s'
    /\ (forall q, q < HLL_HDR_SIZE -> byte_at s' q = byte_at s q)
    /\ (forall k, 0 <= k < HLL_REGISTERS ->
          dreg s' k = if decide (k = r) then Z.max (dreg s r) v else dreg s k).
Proof.
  intros Hs Hr Hv. unfold hll_dense_set.
  destruct (dense_get_dreg s r Hs Hr) as [-> Hd]. cbn [mbind option_bind].
  destruct (Z.ltb_spec (dreg s r) v) as [Hlt|Hge].
  - destruct (dense_put_spec s r v Hs Hr Hv) as (s' & -> & Hs' & Hh & Hk).
    exists s'. split_and!; try done. intros k Hk'. rewrite Hk by done.
    destruct (decide (k = r)); [lia|done].
  - exists s. split_and!; try done. intros k Hk. destruct (decide (k = r)) as [->|]; [lia|done].
Qed.

(** ** Loops *)

(** A property of the first registers that every step extends holds at the end. *)
Lemma for_loop_inv {A} (P : Z -> A -> Prop) (step : Z -> A -> option A) n i a :
  (forall k a, i <= k < i + Z.of_nat n -> P k a -> exists a', step k a = Some a' /\ P (k + 1) a') ->
  P i a -> exists a', for_loop n i step a = Some a' /\ P (i + Z.of_nat n) a'.
Proof.
  revert i a; induction n as [|n IH]; intros i a Hstep HP; cbn [for_loop].
  - exists a. by replace (i + Z.of_nat 0) with i by lia.
  - destruct (Hstep i a ltac:(lia) HP) as (a' & -> & HP'). cbn [mbind option_bind].
    destruct (IH (i + 1) a') as (a'' & -> & HP''); [|done|].
    + intros k b Hk. apply Hstep. lia.
    + exists a''. by replace (i + Z.of_nat (S n)) with (i + 1 + Z.of_nat n) by lia.
Qed.

Lemma for_registers_inv {A} (P : Z -> A -> Prop) (step : Z -> A -> option A) a :
  (forall k a, 0 <= k < HLL_REGISTERS -> P k a -> exists a', step k a = Some a' /\ P (k + 1) a') ->
  P 0 a -> exists a', for_registers step a = Some a' /\ P HLL_REGISTERS a'.
Proof.
  intros Hstep HP.
  destruct (for_loop_inv P step register_count 0 a) as (a' & E & HP');
    rewrite ?register_count_Z in *; [exact Hstep|done|].
  exists a'. by rewrite Z.add_0_l in HP'.
Qed.

(** ** Opcodes *)

Inductive opcode := ZERO (n : Z) | XZERO (n : Z) | VAL (v n : Z).

Definition op_span (o : opcode) : Z := match o with ZERO n | XZERO n | VAL _ n => n end.
Definition op_val (o : opcode) : Z := match o with VAL v _ => v | _ => 0 end.

Definition op_ok (o : opcode) : Prop :=
  match o with
  | ZERO n => 1 <= n <= 64
  | XZERO n => 1 <= n <= 16384
  | VAL v n => 1 <= v <= 32 /\ 1 <= n <= 4
  end.

Definition op_bytes (o : opcode) : bytes :=
  match o with
  | ZERO n => [SPARSE_ZERO_SET n]
  | XZERO n => SPARSE_XZERO_SET n
  | VAL v n => [SPARSE_VAL_SET v n]
  end.

Definition ops_bytes (ops : list opcode) : bytes := concat (op_bytes <$> ops).
Definition ops_span (ops : list opcode) : Z := foldr (fun o n => op_span o + n) 0 ops.

(** The opcodes give the registers [f] from register [i] on. *)
Fixpoint ops_at (f : Z -> Z) (i : Z) (ops : list opcode) : Prop :=
  match ops with
  | [] => True
  | o :: ops => (forall k, i <= k < i + op_span o -> f k = op_val o) /\ ops_at f (i + op_span o) ops
  end.

Lemma ops_bytes_cons o ops : ops_bytes (o :: ops) = op_bytes o ++ ops_bytes ops.
Proof. reflexivity. Qed.

Lemma ops_bytes_app a b : ops_bytes (a ++ b) = ops_bytes a ++ ops_bytes b.
Proof. unfold ops_bytes. by rewrite fmap_app, concat_app. Qed.

Lemma ops_span_app a b : ops_span (a ++ b) = ops_span a + ops_span b.
Proof. induction a as [|o a IH]; cbn; [done|]. unfold ops_span in *. cbn. lia. Qed.

Lemma ops_at_app f i a b : ops_at f i (a ++ b) <-> ops_at f i a /\ ops_at f (i + ops_span a) b.
Proof.
  revert i; induction a as [|o a IH]; intros i; cbn.
  - rewrite Z.add_0_r. tauto.
  - rewrite IH. replace (i + op_span o + ops_span a) with (i + (op_span o + ops_span a)) by lia.
    unfold ops_span. tauto.
Qed.

Lemma op_span_pos o : op_ok o -> 1 <= op_span o.
Proof. destruct o; cbn; lia. Qed.

Lemma ops_span_nonneg ops : Forall op_ok ops -> 0 <= ops_span ops.
Proof.
  induction 1 as [|o ops Ho Hops IH]; cbn; [lia|]. pose proof (op_span_pos o Ho).
  unfold ops_span in IH. lia.
Qed.

Lemma ops_at_ext f g i ops :
  Forall op_ok ops -> (forall k, i <= k < i + ops_span ops -> f k = g k) ->
  ops_at f i ops -> ops_at g i ops.
Proof.
  revert i; induction ops as [|o ops IH]; intros i Hok E Hf; cbn in *; [done|].
  apply Forall_cons in Hok as [Ho Hops]. destruct Hf as [Hv Hf]. pose proof (ops_span_nonneg ops Hops). pose proof (op_span_pos o Ho).
  unfold ops_span in *. split.
  - intros k Hk. rewrite <- E by lia. auto.
  - apply IH; [done|intros k Hk; apply E; lia|done].
Qed.

(** *** Bytes of opcodes *)

(** The byte of a ZERO or a VAL opcode, for every opcode. *)
Definition zero_check (n : Z) : bool :=
  let b := SPARSE_ZERO_SET n in
  SPARSE_IS_ZERO b && negb (SPARSE_IS_XZERO b) && negb (SPARSE_IS_VAL b)
  && (SPARSE_ZERO_LEN b =? n) && (0 <=? b) && (b <? 256).

Definition val_check (v n : Z) : bool :=
  let b := SPARSE_VAL_SET v n in
  negb (SPARSE_IS_ZERO b) && negb (SPARSE_IS_XZERO b) && SPARSE_IS_VAL b
  && (SPARSE_VAL_LEN b =? n) && (SPARSE_VAL_VALUE b =? v) && (0 <=? b) && (b <? 256).

Definition xzero_check (h : Z) : bool :=
  let b := u8 (Z.lor h 0x40) in
  negb (SPARSE_IS_ZERO b) && SPARSE_IS_XZERO b && negb (SPARSE_IS_VAL b)
  && (Z.land b 0x3f =? h) && (0 <=? b) && (b <? 256).

Lemma zero_checks : forallb zero_check (seqZ 1 64) = true.
Proof. vm_compute; reflexivity. Qed.

Lemma val_checks : forallb (fun v => forallb (val_check v) (seqZ 1 4)) (seqZ 1 32) = true.
Proof. vm_compute; reflexivity. Qed.

Lemma xzero_checks : forallb xzero_check (seqZ 0 64) = true.
Proof. vm_compute; reflexivity. Qed.

Lemma forallb_seqZ (P : Z -> bool) a n x :
  forallb P (seqZ a n) = true -> a <= x < a + n -> P x = true.
Proof.
  intros HP Hx. rewrite forallb_forall in HP. apply HP.
  apply list_elem_of_In, elem_of_seqZ. lia.
Qed.

Lemma zero_byte n : 1 <= n <= 64 ->
  exists b, op_bytes (ZERO n) = [b] /\ is_u 8 b /\ SPARSE_IS_ZERO b = true /\
    SPARSE_IS_XZERO b = false /\ SPARSE_IS_VAL b = false /\ SPARSE_ZERO_LEN b = n.
Proof.
  intros Hn. pose proof (forallb_seqZ _ _ _ n zero_checks ltac:(lia)) as C.
  unfold zero_check in C. rewrite !andb_true_iff, !negb_true_iff, ?Z.eqb_eq, ?Z.leb_le, ?Z.ltb_lt in C.
  destruct C as (((((C1 & C2) & C3) & C4) & C5) & C6).
  eexists; split; [reflexivity|]. unfold is_u. change (2 ^ 8) with 256. by split_and!.
Qed.

Lemma val_byte v n : 1 <= v <= 32 -> 1 <= n <= 4 ->
  exists b, op_bytes (VAL v n) = [b] /\ is_u 8 b /\ SPARSE_IS_ZERO b = false /\
    SPARSE_IS_XZERO b = false /\ SPARSE_IS_VAL b = true /\ SPARSE_VAL_LEN b = n /\
    SPARSE_VAL_VALUE b = v.
Proof.
  intros Hv Hn. pose proof (forallb_seqZ _ _ _ v val_checks ltac:(lia)) as C0.
  pose proof (forallb_seqZ _ _ _ n C0 ltac:(lia)) as C.
  unfold val_check in C. rewrite !andb_true_iff, !negb_true_iff, ?Z.eqb_eq, ?Z.leb_le, ?Z.ltb_lt in C.
  destruct C as ((((((C1 & C2) & C3) & C4) & C5) & C6) & C7).
  eexists; split; [reflexivity|]. unfold is_u. change (2 ^ 8) with 256. by split_and!.
Qed.

Lemma xzero_bytes n : 1 <= n <= 16384 ->
  exists b b1, op_bytes (XZERO n) = [b; b1] /\ is_u 8 b /\ is_u 8 b1 /\ SPARSE_IS_ZERO b = false /\
    SPARSE_IS_XZERO b = true /\ SPARSE_IS_VAL b = false /\ SPARSE_XZERO_LEN b b1 = n.
Proof.
  intros Hn. assert (Hh : 0 <= Z.shiftr (n - 1) 8 < 64).
  { rewrite Z.shiftr_div_pow2 by lia. change (2 ^ 8) with 256. split; [apply Z.div_pos; lia|].
    apply Z.div_lt_upper_bound; lia. }
  pose proof (forallb_seqZ _ _ _ _ xzero_checks Hh) as C.
  unfold xzero_check in C. rewrite !andb_true_iff, !negb_true_iff, ?Z.eqb_eq, ?Z.leb_le, ?Z.ltb_lt in C.
  destruct C as (((((C1 & C2) & C3) & C4) & C5) & C6).
  assert (Hl : Z.land (n - 1) 0xff = (n - 1) mod 256) by exact (land_ones_mod (n - 1) 8 ltac:(lia)).
  pose proof (Z.mod_pos_bound (n - 1) 256 ltac:(lia)).
  eexists _, _; split; [reflexivity|]. unfold is_u. change (2 ^ 8) with 256.
  rewrite Hl. rewrite (wrap_id 8 ((n - 1) mod 256)) by (unfold is_u; change (2 ^ 8) with 256; lia).
  split_and!; try done; try lia.
  unfold SPARSE_XZERO_LEN. rewrite C4, Z.shiftl_mul_pow2, Z.lor_comm, lor_disjoint by lia.
  rewrite Z.shiftr_div_pow2 by lia. change (2 ^ 8) with 256. pose proof (Z.div_mod (n - 1) 256). lia.
Qed.

Lemma ops_bytes_ok ops : Forall op_ok ops -> bytes_ok (ops_bytes ops).
Proof.
  induction 1 as [|o ops Ho Hops IH]; [constructor|]. rewrite ops_bytes_cons.
  apply Forall_app; split; [|done]. destruct o as [n|n|v n]; cbn [op_ok] in Ho.
  - destruct (zero_byte n) as (b & -> & Hb & _); [done|]. by apply Forall_singleton.
  - destruct (xzero_bytes n) as (b & b1 & -> & Hb & Hb1 & _); [done|].
    by rewrite Forall_cons, Forall_singleton.
  - destruct (val_byte v n) as (b & -> & Hb & _); [lia|lia|]. by apply Forall_singleton.
Qed.

(** *** Reading an opcode *)

Lemma len_app a b : len (a ++ b) = len a + len b.
Proof. unfold len. rewrite length_app. lia. Qed.

Lemma len_cons x a : len (x :: a) = len a + 1.
Proof. unfold len. cbn [length]. lia. Qed.

Lemma len_nil : len [] = 0.
Proof. reflexivity. Qed.

Lemma byte_at_app pre x post : byte_at (pre ++ x :: post) (len pre) = Some x.
Proof.
  rewrite byte_at_lookup by (pose proof (len_nonneg post); pose proof (len_nonneg pre);
    rewrite len_app, len_cons; lia).
  unfold len. rewrite Nat2Z.id. by apply list_lookup_middle.
Qed.

Lemma byte_at_app1 pre x y post : byte_at (pre ++ x :: y :: post) (len pre + 1) = Some y.
Proof.
  change (x :: y :: post) with ([x] ++ y :: post). rewrite app_assoc.
  replace (len pre + 1) with (len (pre ++ [x])) by (rewrite len_app; reflexivity).
  apply byte_at_app.
Qed.

(** What the code reads at the start of an opcode. *)
Record reads (s : bytes) (p : Z) (o : opcode) : Prop := {
  rd_in : p < len s;
  rd_byte : exists b, byte_at s p = Some b
    /\ SPARSE_IS_ZERO b = (match o with ZERO _ => true | _ => false end)
    /\ SPARSE_IS_XZERO b = (match o with XZERO _ => true | _ => false end)
    /\ SPARSE_IS_VAL b = (match o with VAL _ _ => true | _ => false end)
    /\ match o with
       | ZERO n => SPARSE_ZERO_LEN b = n
       | XZERO n => exists b1, byte_at s (p + 1) = Some b1 /\ SPARSE_XZERO_LEN b b1 = n
       | VAL v n => SPARSE_VAL_LEN b = n /\ SPARSE_VAL_VALUE b = v
       end
}.

Lemma reads_op pre o post : op_ok o -> reads (pre ++ op_bytes o ++ post) (len pre) o.
Proof.
  intros Ho. pose proof (len_nonneg post). destruct o as [n|n|v n]; cbn [op_ok] in Ho.
  - destruct (zero_byte n) as (b & -> & ? & ? & ? & ? & ?); [done|].
    split; [rewrite !len_app, !len_cons, len_nil; lia|]. exists b. cbn [app]. by rewrite byte_at_app.
  - destruct (xzero_bytes n) as (b & b1 & -> & ? & ? & ? & ? & ? & ?); [done|].
    split; [rewrite !len_app, !len_cons, len_nil; lia|]. exists b. cbn [app]. rewrite byte_at_app.
    split_and!; try done. exists b1. by rewrite byte_at_app1.
  - destruct (val_byte v n) as (b & -> & ? & ? & ? & ? & ? & ?); [lia|lia|].
    split; [rewrite !len_app, !len_cons, len_nil; lia|]. exists b. cbn [app]. by rewrite byte_at_app.
Qed.

Definition op_len (o : opcode) : Z := match o with XZERO _ => 2 | _ => 1 end.

Lemma len_op_bytes o : len (op_bytes o) = op_len o.
Proof. by destruct o. Qed.

Lemma ops_cons_string pre o ops :
  pre ++ ops_bytes (o :: ops) = (pre ++ op_bytes o) ++ ops_bytes ops
  /\ len (pre ++ op_bytes o) = len pre + op_len o.
Proof. split; [apply app_assoc|by rewrite len_app, len_op_bytes]. Qed.

Lemma length_op_bytes o : (1 <= length (op_bytes o))%nat.
Proof. destruct o; cbn; lia. Qed.

(** ** The loop over opcodes *)

Section Walk.
Context {A : Type} (P : Z -> A -> Prop) (f : Z -> Z) (step : Z -> Z -> A -> option A).
Context (lo hi : Z).
Context (Hzero : forall k a, lo <= k < hi -> P k a -> f k = 0 -> P (k + 1) a).
Context (Hstep : forall k a, lo <= k < hi -> P k a -> f k <> 0 ->
                   exists a', step k (f k) a = Some a' /\ P (k + 1) a').

Lemma zeros_inv n i a :
  lo <= i -> i + Z.of_nat n <= hi -> (forall k, i <= k < i + Z.of_nat n -> f k = 0) ->
  P i a -> P (i + Z.of_nat n) a.
Proof.
  revert i; induction n as [|n IH]; intros i Hlo Hhi Hf HP.
  - by rewrite Z.add_0_r.
  - replace (i + Z.of_nat (S n)) with (i + 1 + Z.of_nat n) by lia. apply IH; [lia|lia| |].
    + intros k Hk. apply Hf. lia.
    + apply Hzero; [lia|done|]. apply Hf. lia.
Qed.

Lemma walk_inv fuel pre ops i a :
  Forall op_ok ops -> ops_at f i ops -> 0 <= lo <= i -> i + ops_span ops <= hi <= HLL_REGISTERS ->
  (length (ops_bytes ops) <= fuel)%nat -> P i a ->
  exists a', walk fuel (pre ++ ops_bytes ops) (len pre) i step a = Some (i + ops_span ops, a')
             /\ P (i + ops_span ops) a'.
Proof.
  revert fuel pre i a; induction ops as [|o ops IH]; intros fuel pre i a Hok Hf Hlo Hhi Hfuel HP.
  - unfold ops_bytes. cbn [fmap list_fmap concat]. rewrite app_nil_r.
    exists a. cbn [ops_span foldr]. rewrite Z.add_0_r.
    split; [|done]. destruct fuel; cbn [walk]; by rewrite Z.ltb_irrefl.
  - apply Forall_cons in Hok as [Ho Hok]. cbn [ops_at] in Hf. destruct Hf as [Hv Hf].
    cbn [ops_span foldr] in *. fold (ops_span ops) in *.
    pose proof (ops_span_nonneg ops Hok) as Hsp. pose proof (op_span_pos o Ho) as Hop.
    rewrite ops_bytes_cons in *. rewrite length_app in Hfuel. pose proof (length_op_bytes o).
    destruct fuel as [|fuel]; [lia|]. cbn [walk].
    destruct (reads_op pre o (ops_bytes ops) Ho) as [Hin (b & Hb & Hz & Hx & Hval & Hd)].
    rewrite (proj2 (Z.ltb_lt _ _)) by done. rewrite Hb. cbn [mbind option_bind]. rewrite Hz.
    destruct (ops_cons_string pre o ops) as [Es El]. rewrite ops_bytes_cons in Es.
    assert (Hrec : forall a', P (i + op_span o) a' -> exists a'',
      walk fuel (pre ++ op_bytes o ++ ops_bytes ops) (len pre + op_len o) (i + op_span o) step a'
      = Some (i + (op_span o + ops_span ops), a'') /\ P (i + (op_span o + ops_span ops)) a'').
    { intros a' HP'. rewrite Es, <- El, (Z.add_assoc i). apply IH; try done; lia. }
    assert (Hzeros : op_val o = 0 -> P (i + op_span o) a).
    { intros E. rewrite <- (Z2Nat.id (op_span o)) by lia. apply zeros_inv; [lia|lia| |done].
      intros k Hk. rewrite Hv by lia. done. }
    destruct o as [n|n|v n]; cbn [op_span op_val op_len] in *.
    + rewrite Hd. auto.
    + rewrite Hx. destruct Hd as (b1 & -> & Hd). cbn [mbind option_bind]. rewrite Hd. auto.
    + rewrite Hx. destruct Hd as [Hl Hr]. rewrite Hl, Hr.
      rewrite (proj2 (Z.ltb_ge _ _)) by lia.
      destruct (for_loop_inv P (fun i => step i v) (Z.to_nat n) i a) as (a' & -> & HP').
      * intros k c Hk HPk. cbn [op_ok] in Ho. rewrite <- (Hv k) by lia.
        apply Hstep; [lia|done|]. rewrite (Hv k) by lia. lia.
      * done.
      * cbn [mbind option_bind]. rewrite Z2Nat.id in HP' by lia. auto.
Qed.

End Walk.

Lemma walk_registers_inv {A} (P : Z -> A -> Prop) f step s ops a :
  len (take 16 s) = HLL_HDR_SIZE -> drop 16 s = ops_bytes ops ->
  Forall op_ok ops -> ops_at f 0 ops -> ops_span ops = HLL_REGISTERS ->
  (forall k a, 0 <= k < HLL_REGISTERS -> P k a -> f k = 0 -> P (k + 1) a) ->
  (forall k a, 0 <= k < HLL_REGISTERS -> P k a -> f k <> 0 ->
     exists a', step k (f k) a = Some a' /\ P (k + 1) a') ->
  P 0 a -> exists a', walk_registers s step a = Some (HLL_REGISTERS, a') /\ P HLL_REGISTERS a'.
Proof.
  intros Hh Hd Hok Hf Hsp Hz Hs HP.
  destruct (walk_inv P f step 0 HLL_REGISTERS Hz Hs (length s) (take 16 s) ops 0 a)
    as (a' & E & HP'); try done.
  - lia.
  - rewrite <- Hd, length_drop. lia.
  - exists a'. rewrite <- Hd, take_drop, Hh, Z.add_0_l, Hsp in *. done.
Qed.

(** * Setting a sparse register

    The search for the opcode of a register, its replacement and the joining of
    equal neighbours, as operations on lists of opcodes. *)

Lemma opcode_span_reads s p o :
  reads s p o -> exists b, byte_at s p = Some b /\ opcode_span s p b = Some (op_span o, op_len o).
Proof.
  intros [_ (b & Hb & Hz & Hx & Hv & Hd)]. exists b. split; [done|]. unfold opcode_span.
  rewrite Hz, Hv. destruct o; cbn [op_span op_len].
  - by rewrite Hd.
  - destruct Hd as (b1 & -> & Hd). cbn [mbind option_bind]. by rewrite Hd.
  - destruct Hd as [-> _]. done.
Qed.

Lemma ops_span_cons o ops : ops_span (o :: ops) = op_span o + ops_span ops.
Proof. reflexivity. Qed.

Lemma ops_bytes_nil : ops_bytes [] = [].
Proof. reflexivity. Qed.

(** Reading the opcode after [A], and the position of the one after it. *)
Lemma reads_at hdr A o B :
  len hdr = HLL_HDR_SIZE -> op_ok o ->
  reads (hdr ++ ops_bytes (A ++ o :: B)) (HLL_HDR_SIZE + len (ops_bytes A)) o.
Proof.
  intros Hh Ho. rewrite ops_bytes_app, ops_bytes_cons, app_assoc, <- Hh, <- len_app.
  by apply reads_op.
Qed.

Lemma next_boundary A o :
  HLL_HDR_SIZE + len (ops_bytes A) + op_len o = HLL_HDR_SIZE + len (ops_bytes (A ++ [o])).
Proof.
  rewrite ops_bytes_app, len_app, ops_bytes_cons, ops_bytes_nil, app_nil_r, len_op_bytes. lia.
Qed.

Lemma snoc_app {A} (l : list A) x r : l ++ x :: r = (l ++ [x]) ++ r.
Proof. by rewrite <- app_assoc. Qed.

(** The opcode before the one of a register starts where an opcode starts. *)
Definition boundary (before : list opcode) (p : Z) : Prop :=
  exists A B, before = A ++ B /\ p = HLL_HDR_SIZE + len (ops_bytes A).

Lemma find_opcode_spec hdr seen ops index fuel span prev :
  len hdr = HLL_HDR_SIZE -> Forall op_ok (seen ++ ops) ->
  ops_span seen <= index < ops_span (seen ++ ops) ->
  (length (ops_bytes ops) <= fuel)%nat -> boundary seen (default HLL_HDR_SIZE prev) ->
  exists pre o post prev', seen ++ ops = pre ++ o :: post
    /\ find_opcode fuel (hdr ++ ops_bytes (seen ++ ops)) index
         (HLL_HDR_SIZE + len (ops_bytes seen)) (ops_span seen) span prev
       = Some (HLL_HDR_SIZE + len (ops_bytes pre), ops_span pre, op_span o, prev')
    /\ ops_span pre <= index < ops_span pre + op_span o
    /\ boundary pre (default HLL_HDR_SIZE prev').
Proof.
  intros Hh. revert seen fuel span prev; induction ops as [|o ops IH];
    intros seen fuel span prev Hok Hi Hfuel Hprev.
  { rewrite app_nil_r in Hi. lia. }
  pose proof Hok as Hok'. apply Forall_app in Hok' as [Hseen Hok'].
  apply Forall_cons in Hok' as [Ho Hops].
  rewrite ops_bytes_cons, length_app in Hfuel. pose proof (length_op_bytes o).
  destruct fuel as [|fuel]; [lia|]. cbn [find_opcode].
  pose proof (reads_at hdr seen o ops Hh Ho) as Hr.
  destruct (opcode_span_reads _ _ _ Hr) as (b & Hb & Hsp). destruct Hr as [Hin _].
  rewrite (proj2 (Z.ltb_lt _ _)) by done. rewrite Hb. cbn [mbind option_bind]. rewrite Hsp.
  cbn [mbind option_bind]. destruct (Z.leb_spec index (ops_span seen + op_span o - 1)).
  - exists seen, o, ops, prev. split_and!; try done; lia.
  - rewrite (snoc_app seen), next_boundary.
    replace (ops_span seen + op_span o) with (ops_span (seen ++ [o]))
      by (rewrite ops_span_app, ops_span_cons; cbn; lia).
    apply IH.
    + by rewrite <- app_assoc.
    + rewrite <- app_assoc. rewrite ops_span_app, ops_span_cons. cbn. split; [lia|apply Hi].
    + lia.
    + exists seen, [o]. done.
Qed.

(** ** Joining neighbours *)

Lemma put_byte_app pre x y post :
  put_byte (len pre) y (pre ++ x :: post) = Some (pre ++ u8 y :: post).
Proof.
  rewrite put_byte_in by (pose proof (len_nonneg pre); pose proof (len_nonneg post);
    rewrite len_app, len_cons; lia).
  unfold len. rewrite Nat2Z.id, insert_app_r_alt, Nat.sub_diag by lia. done.
Qed.

Lemma replace_bytes_app pre old new post n :
  len old = n -> replace_bytes (len pre) n new (pre ++ old ++ post) = pre ++ new ++ post.
Proof.
  intros <-. unfold replace_bytes, len. rewrite <- Nat2Z.inj_add, !Nat2Z.id.
  rewrite take_app_length, (app_assoc pre old post), drop_app_length' by by rewrite length_app. done.
Qed.

Lemma u8_val_set v n : u8 (SPARSE_VAL_SET v n) = SPARSE_VAL_SET v n.
Proof. apply wrap_id, wrap_range. lia. Qed.

(** Two runs of the same value are one longer run. *)
Lemma ops_at_join f i v n m post :
  0 <= n -> 0 <= m ->
  ops_at f i (VAL v n :: VAL v m :: post) -> ops_at f i (VAL v (n + m) :: post).
Proof.
  intros Hn Hm. cbn [ops_at op_span op_val]. intros (H1 & H2 & H3). split.
  - intros k Hk. destruct (decide (k < i + n)); [apply H1|apply H2]; lia.
  - by rewrite Z.add_assoc.
Qed.

Lemma join_step hdr A v n m post :
  len hdr = HLL_HDR_SIZE ->
  let begin := HLL_HDR_SIZE + len (ops_bytes A) in
  exists hll, put_byte (begin + 1) (SPARSE_VAL_SET v (n + m))
                (hdr ++ ops_bytes (A ++ VAL v n :: VAL v m :: post)) = Some hll
    /\ replace_bytes begin 1 [] hll = hdr ++ ops_bytes (A ++ VAL v (n + m) :: post).
Proof.
  intros Hh begin. rewrite !ops_bytes_app, !ops_bytes_cons. cbn [op_bytes].
  rewrite !(app_assoc hdr). set (pre := hdr ++ ops_bytes A).
  assert (Hb : begin = len pre) by (unfold begin, pre; rewrite len_app; lia).
  exists (pre ++ [SPARSE_VAL_SET v n] ++ [SPARSE_VAL_SET v (n + m)] ++ ops_bytes post). split.
  - rewrite (app_assoc pre). rewrite Hb.
    replace (len pre + 1) with (len (pre ++ [SPARSE_VAL_SET v n])) by (rewrite len_app; reflexivity).
    cbn [app]. rewrite put_byte_app, u8_val_set, <- app_assoc. done.
  - rewrite Hb. by rewrite replace_bytes_app.
Qed.

Lemma join_values_spec n hdr A B f :
  len hdr = HLL_HDR_SIZE -> Forall op_ok (A ++ B) -> ops_at f 0 (A ++ B) ->
  exists ops, join_values n (hdr ++ ops_bytes (A ++ B)) (HLL_HDR_SIZE + len (ops_bytes A))
                (HLL_HDR_SIZE + len (ops_bytes (A ++ B))) = Some (hdr ++ ops_bytes ops)
    /\ Forall op_ok ops /\ ops_span ops = ops_span (A ++ B) /\ ops_at f 0 ops.
Proof.
  intros Hh. revert A B; induction n as [|n IH]; intros A B Hok Hf; [by exists (A ++ B)|].
  cbn [join_values]. destruct B as [|o B].
  { rewrite app_nil_r in *. rewrite Z.ltb_irrefl. by exists A. }
  assert (Hnext : exists ops, join_values n (hdr ++ ops_bytes (A ++ o :: B))
            (HLL_HDR_SIZE + len (ops_bytes A) + op_len o) (HLL_HDR_SIZE + len (ops_bytes (A ++ o :: B)))
          = Some (hdr ++ ops_bytes ops)
          /\ Forall op_ok ops /\ ops_span ops = ops_span (A ++ o :: B) /\ ops_at f 0 ops).
  { rewrite (snoc_app A), next_boundary in *. by apply IH. }
  pose proof Hok as Hok'. apply Forall_app in Hok' as [HA [Ho HB]%Forall_cons].
  destruct (reads_at hdr A o B Hh Ho) as [Hin (b & Hb & Hz & Hx & Hv & Hd)].
  rewrite (proj2 (Z.ltb_lt _ _)) by (rewrite len_app in Hin; lia).
  rewrite Hb. cbn [mbind option_bind]. rewrite Hx, Hz. destruct o as [m|m|v m]; [done|done|].
  cbn [op_len] in Hnext. destruct Hd as [Hl Hvv]. rewrite Hl, Hvv.
  destruct B as [|o2 B].
  { rewrite (proj2 (Z.ltb_ge _ _)); [done|].
    rewrite <- next_boundary. cbn [op_len]. lia. }
  apply Forall_cons in HB as [Ho2 HB]. destruct Ho as [Hv1 Hm1].
  pose proof (reads_at hdr (A ++ [VAL v m]) o2 B Hh Ho2) as Hr2.
  rewrite <- next_boundary, <- snoc_app in Hr2. cbn [op_len] in Hr2.
  destruct Hr2 as [Hin2 (b2 & Hb2 & Hz2 & Hx2 & Hv2 & Hd2)].
  rewrite (proj2 (Z.ltb_lt _ _)) by (rewrite len_app in Hin2; lia).
  rewrite Hb2. cbn [mbind option_bind]. rewrite Hv2. destruct o2 as [m2|m2|v2 m2]; [done|done|].
  destruct Hd2 as [Hl2 Hvv2]. rewrite Hl2, Hvv2. cbn [andb].
  destruct (Z.eqb_spec v v2) as [<-|]; [|done].
  destruct (Z.leb_spec (m + m2) SPARSE_VAL_MAX_LEN) as [Hle|]; [|done]. cbn [andb].
  destruct Ho2 as [_ Hm2]. unfold SPARSE_VAL_MAX_LEN in Hle.
  destruct (join_step hdr A v m m2 B Hh) as (hll & -> & Er). cbn [mbind option_bind]. rewrite Er.
  replace (HLL_HDR_SIZE + len (ops_bytes (A ++ VAL v m :: VAL v m2 :: B)) - 1)
    with (HLL_HDR_SIZE + len (ops_bytes (A ++ VAL v (m + m2) :: B)))
    by (rewrite !ops_bytes_app, !len_app, !ops_bytes_cons, !len_app, !len_op_bytes; cbn [op_len]; lia).
  replace (ops_span (A ++ VAL v m :: VAL v m2 :: B)) with (ops_span (A ++ VAL v (m + m2) :: B))
    by (rewrite !ops_span_app, !ops_span_cons; cbn [op_span]; lia).
  apply IH.
  - apply Forall_app; split; [done|]. apply Forall_cons; split; [cbn; lia|done].
  - apply ops_at_app in Hf as [HfA HfB]. apply ops_at_app; split; [done|].
    apply ops_at_join; [lia|lia|done].
Qed.
