(* ===== verification/HllFacts.v ===== *)
(** * Objects and the registers they represent

    [rep s f]: the string [s] is an object whose registers are [f], in any of the
    encodings.  Conversions keep [f]; [hll_add] and the merges raise it. *)

From S2P Require Import Prelude KeyEncoder FloatArith Hll HllEncodings.

(** ** Representation *)

Inductive registers (s : bytes) (f : Z -> Z) : Prop :=
| reg_dense :
    encoding s = HLL_DENSE -> len s = HLL_DENSE_SIZE ->
    (forall i, 0 <= i < HLL_REGISTERS -> dreg s i = f i) -> registers s f
| reg_sparse ops :
    encoding s = HLL_SPARSE -> drop 16 s = ops_bytes ops -> Forall op_ok ops ->
    ops_span ops = HLL_REGISTERS -> ops_at f 0 ops -> registers s f
| reg_raw :
    encoding s = HLL_RAW -> len s = HLL_HDR_SIZE + HLL_REGISTERS ->
    (forall i, 0 <= i < HLL_REGISTERS -> bat s (HLL_HDR_SIZE + i) = f i) -> registers s f.

Record rep (s : bytes) (f : Z -> Z) : Prop := {
  rep_bytes : bytes_ok s;
  rep_hdr : HLL_HDR_SIZE <= len s;
  rep_magic : take 4 s = magic;
  rep_range : forall i, 0 <= i < HLL_REGISTERS -> 0 <= f i < 64;
  rep_regs : registers s f
}.

Definition upd (f : Z -> Z) (i v : Z) : Z -> Z := fun k => if decide (k = i) then v else f k.

Lemma upd_eq f i v : upd f i v i = v.
Proof. unfold upd. by rewrite decide_True. Qed.

Lemma upd_ne f i v k : k <> i -> upd f i v k = f k.
Proof. intros. unfold upd. by rewrite decide_False. Qed.

Lemma registers_ext s f g :
  (forall i, 0 <= i < HLL_REGISTERS -> f i = g i) -> registers s f -> registers s g.
Proof.
  intros E [He Hl Hr|ops He Hd Hok Hsp Hr|He Hl Hr].
  - apply reg_dense; [done|done|]. intros i Hi. by rewrite Hr, E.
  - apply (reg_sparse s g ops); try done. apply (ops_at_ext f); [done| |done].
    intros k Hk. apply E. lia.
  - apply reg_raw; [done|done|]. intros i Hi. by rewrite Hr, E.
Qed.

Lemma rep_ext s f g :
  (forall i, 0 <= i < HLL_REGISTERS -> f i = g i) -> rep s f -> rep s g.
Proof.
  intros E [Hb Hh Hm Hr Hs]. split; try done.
  - intros i Hi. rewrite <- E by done. auto.
  - by apply (registers_ext s f).
Qed.

Lemma rep_object s f : rep s f -> is_hll_object s = true.
Proof.
  intros [Hb Hh Hm Hr Hs]. unfold is_hll_object.
  rewrite (proj2 (Z.ltb_ge _ _)) by done. rewrite bool_decide_true by done. cbn [negb].
  destruct Hs as [He Hl _|ops He _ _ _ _|He _ _]; rewrite He; [|reflexivity|reflexivity].
  rewrite Hl. reflexivity.
Qed.

Lemma hdr_split s : HLL_HDR_SIZE <= len s -> len (take 16 s) = HLL_HDR_SIZE.
Proof. unfold len, HLL_HDR_SIZE. rewrite length_take. lia. Qed.

Lemma encoding_byte s : HLL_HDR_SIZE <= len s -> byte_at s 4 = Some (encoding s).
Proof.
  unfold HLL_HDR_SIZE, encoding. intros Hs. rewrite byte_at_lookup by lia.
  change (Z.to_nat 4) with 4%nat.
  destruct (lookup_lt_is_Some_2 s 4) as [x ->]; [unfold len in Hs; lia|done].
Qed.

(** ** The cache *)

(** The object after [HLL_INVALIDATE_CACHE]. *)
Definition stale (s : bytes) : bytes := <[15%nat := u8 (Z.lor (bat s 15) 0x80)]> s.

Lemma invalidate_stale s : HLL_HDR_SIZE <= len s -> invalidate_cache s = Some (stale s).
Proof.
  unfold HLL_HDR_SIZE. intros Hs. unfold invalidate_cache. rewrite byte_at_bat by lia.
  cbn [mbind option_bind]. by rewrite put_byte_in by lia.
Qed.

Lemma byte_at_stale s q : q <> 15 -> byte_at (stale s) q = byte_at s q.
Proof. intros. exact (byte_at_insert_ne s 15 q _ ltac:(lia) ltac:(done)). Qed.

Lemma stale_invalid s : HLL_HDR_SIZE <= len s -> valid_cache (stale s) = false.
Proof.
  unfold HLL_HDR_SIZE, len. intros Hs. unfold valid_cache, stale.
  rewrite list_lookup_insert_eq by lia. change (default 0 (Some ?x)) with x.
  apply Z.eqb_neq. intros E. apply (f_equal (fun x => Z.testbit x 7)) in E.
  rewrite Z.land_spec, u8_bit_low, Z.lor_spec, Z.bits_0 in E by lia.
  change (Z.testbit 0x80 7) with true in E. by rewrite orb_true_r in E.
Qed.

Lemma dreg_bytes s t r :
  (forall q, HLL_HDR_SIZE <= q -> byte_at t q = byte_at s q) -> 0 <= r -> dreg t r = dreg s r.
Proof.
  unfold HLL_HDR_SIZE. intros Hq Hr. unfold dreg, dense_get, HLL_HDR_SIZE.
  assert (0 <= r * HLL_BITS / 8) by (apply Z.div_pos; unfold HLL_BITS; lia).
  by rewrite !Hq by lia.
Qed.

(** An object whose header changes in the cached cardinality only. *)
Definition same_but_card (s t : bytes) : Prop :=
  len t = len s /\ forall q, ~ (8 <= q < HLL_HDR_SIZE) -> byte_at t q = byte_at s q.

Lemma same_take4 s t :
  HLL_HDR_SIZE <= len s -> len t = len s ->
  (forall q, 0 <= q < 4 -> byte_at t q = byte_at s q) -> take 4 t = take 4 s.
Proof.
  unfold HLL_HDR_SIZE, len. intros Hs Hl Hq. apply list_eq; intros i.
  destruct (decide (i < 4)%nat) as [Hi|Hi].
  - rewrite !lookup_take_lt by done. specialize (Hq (Z.of_nat i) ltac:(lia)).
    rewrite !byte_at_lookup, Nat2Z.id in Hq by (unfold len; lia). done.
  - rewrite !lookup_take_ge by lia. done.
Qed.

Lemma same_drop16 s t :
  len t = len s -> (forall q, HLL_HDR_SIZE <= q -> byte_at t q = byte_at s q) ->
  drop 16 t = drop 16 s.
Proof.
  unfold HLL_HDR_SIZE, len. intros Hl Hq. apply list_eq; intros i. rewrite !lookup_drop.
  destruct (decide (16 + i < length s)%nat) as [Hi|Hi].
  - specialize (Hq (Z.of_nat (16 + i)) ltac:(lia)).
    rewrite !byte_at_lookup, Nat2Z.id in Hq by (unfold len; lia). done.
  - rewrite !lookup_ge_None_2 by lia. done.
Qed.

Lemma same_encoding s t :
  HLL_HDR_SIZE <= len s -> len t = len s -> byte_at t 4 = byte_at s 4 -> encoding t = encoding s.
Proof.
  intros Hs Hl E. rewrite !encoding_byte in E by lia. congruence.
Qed.

Lemma rep_same_but_card s t f : bytes_ok t -> same_but_card s t -> rep s f -> rep t f.
Proof.
  intros Ht [Hl Hq] [Hb Hh Hm Hr Hs].
  assert (Hbody : forall q, HLL_HDR_SIZE <= q -> byte_at t q = byte_at s q) by (intros; apply Hq; lia).
  assert (He : encoding t = encoding s) by (apply same_encoding; [done|done|apply Hq; lia]).
  split; try done.
  - lia.
  - rewrite (same_take4 s t); [done|done|done|]. intros; apply Hq; lia.
  - destruct Hs as [Hd Hl' Hreg|ops Hd Hdr Hok Hsp Hat|Hd Hl' Hreg].
    + apply reg_dense; [congruence|lia|]. intros i Hi. rewrite (dreg_bytes s t) by (done || lia). auto.
    + apply (reg_sparse t f ops); try done; [congruence|]. by rewrite (same_drop16 s t).
    + apply reg_raw; [congruence|lia|]. intros i Hi. unfold bat. rewrite Hbody by lia. by apply Hreg.
Qed.

Lemma stale_same s : same_but_card s (stale s).
Proof.
  split; [apply len_insert|]. intros q Hq. apply byte_at_stale. unfold HLL_HDR_SIZE in Hq. lia.
Qed.

Lemma stale_encoding s : HLL_HDR_SIZE <= len s -> encoding (stale s) = encoding s.
Proof.
  intros Hs. apply same_encoding; [done|apply len_insert|]. by apply byte_at_stale.
Qed.

Lemma rep_stale s f : rep s f -> rep (stale s) f.
Proof.
  intros Hs. apply (rep_same_but_card s); [|apply stale_same|done].
  apply bytes_ok_insert. by destruct Hs.
Qed.

(** ** Conversion to dense registers *)

Definition same_card (s t : bytes) : Prop := forall q, 8 <= q < HLL_HDR_SIZE -> byte_at t q = byte_at s q.

(** The new object before its registers are set. *)
Definition blank_dense (s : bytes) : bytes :=
  <[4%nat := HLL_DENSE]> (take 16 s) ++ replicate dense_bytes 0.

Lemma blank_dense_hdr s : HLL_HDR_SIZE <= len s -> len (<[4%nat := HLL_DENSE]> (take 16 s)) = HLL_HDR_SIZE.
Proof. intros. rewrite len_insert. by apply hdr_split. Qed.

Lemma len_replicate n x : len (replicate n x) = Z.of_nat n.
Proof. unfold len. by rewrite length_replicate. Qed.

Lemma blank_dense_ok s : bytes_ok s -> HLL_HDR_SIZE <= len s -> dense_ok (blank_dense s).
Proof.
  intros Hb Hs. split.
  - apply Forall_app; split.
    + apply Forall_insert; [by apply Forall_take|]. unfold is_u, HLL_DENSE. lia.
    + apply Forall_replicate. unfold is_u. lia.
  - unfold blank_dense. rewrite len_app, blank_dense_hdr, len_replicate by done.
    rewrite dense_bytes_Z. lia.
Qed.

Lemma bat_app_r a b p : len a <= p -> bat (a ++ b) p = bat b (p - len a).
Proof.
  intros Hp. unfold bat, byte_at. rewrite len_app.
  destruct (Z.eqb_spec p (len a + len b)), (Z.eqb_spec (p - len a) (len b)); try lia; try done.
  pose proof (len_nonneg a).
  rewrite (proj2 (Z.leb_le 0 p)), (proj2 (Z.leb_le 0 (p - len a))) by lia.
  rewrite lookup_app_r by (unfold len in *; lia). do 3 f_equal. unfold len. lia.
Qed.

Lemma bat_replicate_zero n p : bat (replicate n 0) p = 0.
Proof.
  unfold bat, byte_at. case_match; [done|]. case_match; [|done].
  destruct (replicate n 0 !! Z.to_nat p) eqn:E; [|done].
  apply lookup_replicate in E as [-> _]. done.
Qed.

Lemma blank_dense_reg s r : HLL_HDR_SIZE <= len s -> 0 <= r < HLL_REGISTERS -> dreg (blank_dense s) r = 0.
Proof.
  intros Hs Hr. pose proof (blank_dense_hdr s Hs) as Hh.
  assert (Hz : forall p, HLL_HDR_SIZE <= p <= HLL_DENSE_SIZE -> byte_at (blank_dense s) p = Some 0).
  { intros p Hp. rewrite byte_at_bat.
    - unfold blank_dense. rewrite bat_app_r by lia. by rewrite bat_replicate_zero.
    - unfold blank_dense. rewrite len_app, Hh, len_replicate, dense_bytes_Z.
      unfold HLL_HDR_SIZE in *; lia. }
  unfold dreg, dense_get, HLL_REGISTERS in *.
  destruct (register_split r 0 ltac:(lia)) as (q & f & -> & -> & Hqf & Hf & _).
  rewrite dense_size in Hz. rewrite !Hz by (unfold HLL_HDR_SIZE; lia). cbn [mbind option_bind].
  by rewrite Z.shiftr_0_l, Z.shiftl_0_l.
Qed.

Lemma blank_dense_byte s q :
  HLL_HDR_SIZE <= len s -> 0 <= q < HLL_HDR_SIZE -> q <> 4 -> byte_at (blank_dense s) q = byte_at s q.
Proof.
  intros Hs Hq Hne. pose proof (blank_dense_hdr s Hs) as Hh.
  assert (len s <= len (take 16 s ++ drop 16 s)) by (rewrite take_drop; lia).
  unfold blank_dense. pose proof (len_nonneg (replicate dense_bytes 0)).
  rewrite !byte_at_lookup by (rewrite ?len_app; lia).
  rewrite lookup_app_l by (unfold len in Hh; lia).
  rewrite list_lookup_insert_ne by lia. apply lookup_take_lt. unfold HLL_HDR_SIZE in Hq. lia.
Qed.

Lemma blank_dense_encoding s : HLL_HDR_SIZE <= len s -> byte_at (blank_dense s) 4 = Some HLL_DENSE.
Proof.
  intros Hs. pose proof (blank_dense_hdr s Hs) as Hh. unfold blank_dense.
  pose proof (len_nonneg (replicate dense_bytes 0)).
  unfold HLL_HDR_SIZE in *. rewrite byte_at_lookup by (rewrite len_app; lia).
  rewrite lookup_app_l by (unfold len in Hh; lia). apply list_lookup_insert_eq.
  rewrite len_insert in Hh. unfold len in Hh. lia.
Qed.

(** The first [k] registers have been copied. *)
Definition copied (s : bytes) (f : Z -> Z) (k : Z) (d : bytes) : Prop :=
  dense_ok d /\ (forall q, q < HLL_HDR_SIZE -> byte_at d q = byte_at (blank_dense s) q)
  /\ forall i, 0 <= i < HLL_REGISTERS -> dreg d i = if decide (i < k) then f i else 0.

Lemma copied_start s f : bytes_ok s -> HLL_HDR_SIZE <= len s -> copied s f 0 (blank_dense s).
Proof.
  intros Hb Hs. split_and!; [by apply blank_dense_ok|done|]. intros i Hi.
  rewrite decide_False by lia. by apply blank_dense_reg.
Qed.

Lemma copied_zero s f k d :
  0 <= k < HLL_REGISTERS -> copied s f k d -> f k = 0 -> copied s f (k + 1) d.
Proof.
  intros Hk (Hd & Hh & Hr) E. split_and!; [done|done|]. intros i Hi. rewrite Hr by done.
  destruct (decide (i < k)); [by rewrite decide_True by lia|].
  destruct (decide (i < k + 1)); [|done]. by replace i with k by lia.
Qed.

Lemma copied_put s f k d :
  0 <= k < HLL_REGISTERS -> 0 <= f k < 64 -> copied s f k d ->
  exists d', dense_put d k (f k) = Some d' /\ copied s f (k + 1) d'.
Proof.
  intros Hk Hf (Hd & Hh & Hr).
  destruct (dense_put_spec d k (f k) Hd Hk Hf) as (d' & E & Hd' & Hq & Hk').
  exists d'. split; [done|]. split_and!; [done| |].
  - intros q Hq'. by rewrite Hq, Hh.
  - intros i Hi. rewrite Hk', Hr by done. destruct (decide (i = k)) as [->|].
    + by rewrite decide_True by lia.
    + destruct (decide (i < k)), (decide (i < k + 1)); try done; lia.
Qed.

Lemma copied_set s f k d :
  0 <= k < HLL_REGISTERS -> 0 <= f k < 64 -> copied s f k d ->
  exists r d', hll_dense_set d k (f k) = Some (r, d') /\ copied s f (k + 1) d'.
Proof.
  intros Hk Hf HP. pose proof HP as (Hd & Hh & Hr). unfold hll_dense_set.
  destruct (dense_get_dreg d k Hd Hk) as [-> _]. rewrite Hr, decide_False by lia.
  cbn [mbind option_bind]. destruct (Z.ltb_spec 0 (f k)).
  - destruct (copied_put s f k d Hk Hf HP) as (d' & -> & HP'). by exists 1, d'.
  - exists 0, d. split; [done|]. apply copied_zero; [done|done|lia].
Qed.

Lemma copied_rep s f d :
  rep s f -> copied s f HLL_REGISTERS d ->
  rep d f /\ encoding d = HLL_DENSE /\ same_card s d.
Proof.
  intros [Hb Hh Hm Hr Hs] ([Hdb Hdl] & Hq & Hd).
  assert (Hlen : HLL_HDR_SIZE <= len d) by (rewrite Hdl, dense_size; unfold HLL_HDR_SIZE; lia).
  assert (He : encoding d = HLL_DENSE).
  { pose proof (encoding_byte d Hlen) as E. rewrite Hq, blank_dense_encoding in E by (done || reflexivity).
    congruence. }
  split_and!; [|done|].
  - split; try done.
    + rewrite <- Hm. apply list_eq; intros i. destruct (decide (i < 4)%nat) as [Hi|Hi];
        [|by rewrite !lookup_take_ge by lia].
      rewrite !lookup_take_lt by done. unfold HLL_HDR_SIZE in *.
      pose proof (Hq (Z.of_nat i) ltac:(lia)) as E.
      rewrite blank_dense_byte, !byte_at_lookup, Nat2Z.id in E by (unfold HLL_HDR_SIZE; lia). done.
    + apply reg_dense; [done|done|]. intros i Hi. rewrite Hd, decide_True by lia. done.
  - intros q Hq'. unfold HLL_HDR_SIZE in *. rewrite Hq by lia. apply blank_dense_byte; unfold HLL_HDR_SIZE; lia.
Qed.

(** The conversion keeps the registers and the cached cardinality. *)
Lemma sparse_to_dense_spec s f :
  rep s f -> exists d, hll_sparse_to_dense s = Some (0, d) /\ rep d f
    /\ encoding d = HLL_DENSE /\ same_card s d.
Proof.
  intros Hs. pose proof Hs as [Hb Hh Hm Hr Hreg]. unfold hll_sparse_to_dense.
  rewrite (proj2 (Z.ltb_ge _ _)) by done. fold (blank_dense s).
  destruct Hreg as [He Hl Hf|ops He Hd Hok Hsp Hf|He Hl Hf]; rewrite He; cbn [Z.eqb HLL_DENSE HLL_SPARSE HLL_RAW].
  - exists s. split_and!; done.
  - destruct (walk_registers_inv (copied s f) f (fun i v dense => dense_put dense i v) s ops (blank_dense s))
      as (d & Ed & HP); try done.
    + by apply hdr_split.
    + intros k d Hk. by apply copied_zero.
    + intros k d Hk HP _. apply copied_put; auto.
    + by apply copied_start.
    + rewrite Ed. exists d. split; [done|]. by apply copied_rep.
  - destruct (for_registers_inv (copied s f) (fun j dense =>
        max ← byte_at s (HLL_HDR_SIZE + j);
        if max =? 0 then Some dense else snd <$> hll_dense_set dense j max) (blank_dense s))
      as (d & Ed & HP).
    + intros k d Hk HP. rewrite byte_at_bat by (unfold HLL_HDR_SIZE in *; lia). cbn [mbind option_bind]. rewrite Hf by done.
      destruct (Z.eqb_spec (f k) 0) as [E|].
      * exists d. split; [done|]. by apply copied_zero.
      * destruct (copied_set s f k d Hk (Hr k Hk) HP) as (r & d' & -> & HP'). by exists d'.
    + by apply copied_start.
    + rewrite Ed. exists d. split; [done|]. by apply copied_rep.
Qed.
