(* ===== verification/HllOps.v ===== *)
(** * Raising registers, merging and converting objects

    [hll_dense_set], [hll_sparse_set] and [hll_add] raise a register of an object that
    represents some registers; a merge takes the larger of the two registers everywhere,
    whatever the encodings are, except where the first object is raw. *)

From S2P Require Import Prelude KeyEncoder FloatArith Hll HllEncodings HllFacts.

(** * Raising a register *)

(** ** Dense objects *)

Lemma rep_dense s f :
  rep s f -> encoding s = HLL_DENSE ->
  dense_ok s /\ forall i, 0 <= i < HLL_REGISTERS -> dreg s i = f i.
Proof.
  intros [Hb Hh Hm Hr [He Hl Hf|ops He|He]] E; rewrite E in He; try discriminate He.
  split; [|done]. split; [done|done].
Qed.

Lemma rep_dense_set d f index count :
  rep d f -> encoding d = HLL_DENSE -> 0 <= index < HLL_REGISTERS -> 0 <= count < 64 ->
  exists d', hll_dense_set d index count = Some (if f index <? count then 1 else 0, d')
    /\ rep d' (upd f index (Z.max (f index) count)) /\ encoding d' = HLL_DENSE /\ same_card d d'.
Proof.
  intros Hd He Hi Hc. destruct (rep_dense d f Hd He) as [Hok Hf].
  destruct (hll_dense_set_spec d index count Hok Hi Hc) as (d' & E & Hok' & Hq & Hk).
  rewrite Hf in E by done. exists d'. destruct Hok as [Hb Hl], Hok' as [Hb' Hl'].
  pose proof (rep_hdr d f Hd). pose proof (rep_range d f Hd) as Hr.
  assert (He' : encoding d' = HLL_DENSE).
  { rewrite <- He. apply same_encoding; [done|lia|apply Hq; unfold HLL_HDR_SIZE; lia]. }
  split_and!; [done| |done|intros q Hq'; apply Hq; lia]. split; try done.
  - lia.
  - rewrite <- (rep_magic d f Hd). apply same_take4; [done|lia|].
    intros q Hq'. apply Hq. unfold HLL_HDR_SIZE. lia.
  - intros i Hi'. unfold upd. pose proof (Hr i Hi'). pose proof (Hr index Hi).
    destruct (decide (i = index)); lia.
  - apply reg_dense; [done|done|]. intros i Hi'. rewrite Hk by done. unfold upd.
    rewrite !Hf by done. done.
Qed.

(** ** Sparse objects *)

Lemma rep_sparse hdr ops f :
  len hdr = HLL_HDR_SIZE -> bytes_ok hdr -> take 4 hdr = magic -> encoding hdr = HLL_SPARSE ->
  Forall op_ok ops -> ops_span ops = HLL_REGISTERS -> ops_at f 0 ops ->
  (forall i, 0 <= i < HLL_REGISTERS -> 0 <= f i < 64) -> rep (hdr ++ ops_bytes ops) f.
Proof.
  intros Hh Hb Hm He Hok Hsp Hf Hr. unfold len, HLL_HDR_SIZE in Hh.
  assert (Hl : length hdr = 16%nat) by lia. split.
  - apply Forall_app; split; [done|by apply ops_bytes_ok].
  - rewrite len_app. pose proof (len_nonneg (ops_bytes ops)). unfold len at 1, HLL_HDR_SIZE. lia.
  - rewrite take_app_le by lia. done.
  - done.
  - apply (reg_sparse _ f ops); try done.
    + unfold encoding in *. rewrite lookup_app_l by lia. done.
    + rewrite <- Hl. apply drop_app_length.
Qed.

Lemma sparse_update hdr ops f begin :
  len hdr = HLL_HDR_SIZE -> bytes_ok hdr -> take 4 hdr = magic -> encoding hdr = HLL_SPARSE ->
  Forall op_ok ops -> ops_span ops = HLL_REGISTERS -> ops_at f 0 ops ->
  (forall i, 0 <= i < HLL_REGISTERS -> 0 <= f i < 64) -> boundary ops begin ->
  exists s', hll_sparse_set_update (hdr ++ ops_bytes ops) begin (len (hdr ++ ops_bytes ops)) = Some (1, s')
    /\ rep s' f /\ valid_cache s' = false /\ encoding s' = HLL_SPARSE.
Proof.
  intros Hh Hb Hm He Hok Hsp Hf Hr (A & B & -> & ->). unfold hll_sparse_set_update.
  rewrite len_app, Hh.
  destruct (join_values_spec 5 hdr A B f Hh Hok Hf) as (ops' & -> & Hok' & Hsp' & Hf').
  cbn [mbind option_bind].
  assert (Hrep : rep (hdr ++ ops_bytes ops') f) by (apply rep_sparse; congruence || done).
  rewrite invalidate_stale by apply (rep_hdr _ _ Hrep). exists (stale (hdr ++ ops_bytes ops')).
  split_and!; [done|by apply rep_stale|by apply stale_invalid, (rep_hdr _ _ Hrep)|].
  rewrite (stale_encoding _ (rep_hdr _ _ Hrep)), <- He. unfold encoding.
  unfold len, HLL_HDR_SIZE in Hh. by rewrite lookup_app_l by lia.
Qed.

(** The opcodes that replace one. *)
Definition rest_op (o : opcode) (l : Z) : opcode :=
  match o with
  | VAL v _ => VAL v l
  | _ => if SPARSE_ZERO_MAX_LEN <? l then XZERO l else ZERO l
  end.

Definition split_ops (o : opcode) (first index count : Z) : list opcode :=
  let last := first + op_span o - 1 in
  (if negb (index =? first) then [rest_op o (index - first)] else [])
  ++ [VAL count 1]
  ++ (if negb (index =? last) then [rest_op o (last - index)] else []).

Definition is_val_op (o : opcode) : bool := match o with VAL _ _ => true | _ => false end.

Lemma rest_op_bytes o l :
  op_bytes (rest_op o l) = if is_val_op o then [SPARSE_VAL_SET (op_val o) l] else zeros_seq l.
Proof. destruct o; cbn; unfold zeros_seq; try case_match; done. Qed.

Lemma split_run_bytes o first index count :
  split_run (is_val_op o) (op_val o) first (first + op_span o - 1) index count
  = ops_bytes (split_ops o first index count).
Proof.
  unfold split_run, split_ops. rewrite !ops_bytes_app. f_equal; [|f_equal].
  - case_match; [|done]. rewrite ops_bytes_cons, ops_bytes_nil, app_nil_r, rest_op_bytes. done.
  - case_match; [|done]. rewrite ops_bytes_cons, ops_bytes_nil, app_nil_r, rest_op_bytes. done.
Qed.

Lemma rest_op_ok o l :
  op_ok o -> 1 <= l <= op_span o ->
  op_ok (rest_op o l) /\ op_span (rest_op o l) = l /\ op_val (rest_op o l) = op_val o.
Proof.
  unfold rest_op, SPARSE_ZERO_MAX_LEN.
  destruct o as [n|n|v n]; cbn; intros Ho Hl; [| |split_and!; lia || done];
    destruct (Z.ltb_spec 64 l); cbn; split_and!; lia || done.
Qed.

Lemma ops_at_one f i o : ops_at f i [o] <-> forall k, i <= k < i + op_span o -> f k = op_val o.
Proof. cbn. tauto. Qed.

(** What is left of a run on one side of the register. *)
Lemma rest_piece o l i f (b : bool) :
  op_ok o -> 0 <= l <= op_span o -> b = negb (l =? 0) ->
  (forall k, i <= k < i + l -> f k = op_val o) ->
  let ops := if b then [rest_op o l] else [] in
  Forall op_ok ops /\ ops_span ops = l /\ ops_at f i ops.
Proof.
  intros Ho Hl -> Hf. destruct (Z.eqb_spec l 0) as [->|Hne]; cbn [negb]; [done|].
  destruct (rest_op_ok o l Ho ltac:(lia)) as (H1 & H2 & H3).
  rewrite Forall_singleton, ops_span_cons, ops_at_one, H2, H3. cbn. split_and!; [done|lia|done].
Qed.

Lemma split_ops_spec o first index count f :
  op_ok o -> first <= index < first + op_span o -> 1 <= count <= 32 ->
  (forall k, first <= k < first + op_span o -> f k = op_val o) ->
  Forall op_ok (split_ops o first index count)
  /\ ops_span (split_ops o first index count) = op_span o
  /\ ops_at (upd f index count) first (split_ops o first index count).
Proof.
  intros Ho Hi Hc Hf. unfold split_ops. set (last := first + op_span o - 1).
  destruct (rest_piece o (index - first) first (upd f index count) (negb (index =? first)))
    as (P1 & P2 & P3); [done|lia| | |].
  { f_equal. destruct (Z.eqb_spec index first), (Z.eqb_spec (index - first) 0); lia || done. }
  { intros k Hk. rewrite upd_ne by lia. apply Hf. lia. }
  destruct (rest_piece o (last - index) (index + 1) (upd f index count) (negb (index =? last)))
    as (Q1 & Q2 & Q3); [done|unfold last; lia| | |].
  { f_equal. destruct (Z.eqb_spec index last), (Z.eqb_spec (last - index) 0); lia || done. }
  { intros k Hk. rewrite upd_ne by lia. apply Hf. unfold last in Hk. lia. }
  rewrite !Forall_app, !ops_span_app, !ops_at_app, Forall_singleton, ops_at_one, P2, Q2.
  cbn [ops_span foldr op_span op_val op_ok]. split_and!; try done; try lia.
  - intros k Hk. replace k with index by lia. apply upd_eq.
  - by replace (first + (index - first) + (1 + 0)) with (index + 1) by lia.
Qed.

(** The opcode of a register. *)
Lemma sparse_find s f ops index :
  rep s f -> drop 16 s = ops_bytes ops -> Forall op_ok ops -> ops_span ops = HLL_REGISTERS ->
  0 <= index < HLL_REGISTERS ->
  exists pre o post prev, ops = pre ++ o :: post
    /\ find_opcode (length s) s index HLL_HDR_SIZE 0 0 None
       = Some (HLL_HDR_SIZE + len (ops_bytes pre), ops_span pre, op_span o, prev)
    /\ ops_span pre <= index < ops_span pre + op_span o
    /\ boundary pre (default HLL_HDR_SIZE prev).
Proof.
  intros Hs Hd Hok Hsp Hi. pose proof (hdr_split s (rep_hdr s f Hs)) as Hh.
  destruct (find_opcode_spec (take 16 s) [] ops index (length s) 0 None)
    as (pre & o & post & prev & E & F & Hin & Hb); try done.
  - rewrite app_nil_l, Hsp. exact Hi.
  - rewrite <- Hd, length_drop. lia.
  - by exists [], [].
  - exists pre, o, post, prev. rewrite app_nil_l in *. rewrite <- Hd, take_drop in F. done.
Qed.

Lemma promote_spec s f index count :
  rep s f -> 0 <= index < HLL_REGISTERS -> 0 <= f index < count -> count < 64 ->
  exists s', hll_sparse_set_promote s index count = Some (1, s')
    /\ rep s' (upd f index (Z.max (f index) count)) /\ valid_cache s' = false
    /\ encoding s' = HLL_DENSE.
Proof.
  intros Hs Hi Hf Hc. unfold hll_sparse_set_promote.
  destruct (sparse_to_dense_spec s f Hs) as (d & -> & Hd & He & _). cbn [mbind option_bind Z.ltb Z.compare].
  destruct (rep_dense_set d f index count Hd He Hi ltac:(lia)) as (d' & -> & Hd' & He' & _).
  rewrite (proj2 (Z.ltb_lt _ _)) by lia. cbn [mbind option_bind Z.eqb Pos.eqb negb].
  pose proof (rep_hdr _ _ Hd'). rewrite invalidate_stale by done.
  exists (stale d'). split_and!; [done|by apply rep_stale|by apply stale_invalid|].
  by rewrite stale_encoding.
Qed.

(** The registers after one opcode has been split. *)
Lemma ops_at_split f pre o post index count :
  Forall op_ok (pre ++ o :: post) -> ops_at f 0 (pre ++ o :: post) ->
  ops_span pre <= index < ops_span pre + op_span o -> 1 <= count <= 32 ->
  let ops := pre ++ split_ops o (ops_span pre) index count ++ post in
  Forall op_ok ops /\ ops_span ops = ops_span (pre ++ o :: post)
  /\ ops_at (upd f index count) 0 ops.
Proof.
  intros Hok Hf Hi Hc. apply Forall_app in Hok as [Hpre [Ho Hpost]%Forall_cons].
  apply ops_at_app in Hf as [F1 F2]. cbn [ops_at] in F2. rewrite Z.add_0_l in F2.
  destruct F2 as [F2 F3].
  destruct (split_ops_spec o (ops_span pre) index count f Ho Hi Hc F2) as (S1 & S2 & S3).
  cbv zeta. rewrite !Forall_app, !ops_span_app, !ops_at_app, ops_span_cons, S2, Z.add_0_l.
  split_and!; try done.
  - apply (ops_at_ext f); [done| |done]. intros k Hk. by rewrite upd_ne by lia.
  - apply (ops_at_ext f); [done| |done]. intros k Hk. by rewrite upd_ne by lia.
Qed.

(** The header of a sparse object. *)
Lemma sparse_header s f :
  rep s f -> encoding s = HLL_SPARSE ->
  len (take 16 s) = HLL_HDR_SIZE /\ bytes_ok (take 16 s) /\ take 4 (take 16 s) = magic
  /\ encoding (take 16 s) = HLL_SPARSE.
Proof.
  intros Hs He. split_and!.
  - apply hdr_split, (rep_hdr s f Hs).
  - apply Forall_take, (rep_bytes s f Hs).
  - rewrite take_take. apply (rep_magic s f Hs).
  - rewrite <- He. unfold encoding. by rewrite lookup_take_lt by lia.
Qed.

(** Both ways to write the new opcodes make the same string. *)
Lemma put_opcode hdr pre o post index count :
  len hdr = HLL_HDR_SIZE -> op_span o = 1 -> op_len o = 1 -> ops_span pre = index ->
  put_byte (HLL_HDR_SIZE + len (ops_bytes pre)) (SPARSE_VAL_SET count 1) (hdr ++ ops_bytes (pre ++ o :: post))
  = Some (hdr ++ ops_bytes (pre ++ split_ops o (ops_span pre) index count ++ post)).
Proof.
  intros Hh Hsp Hl <-. unfold split_ops. rewrite Hsp.
  replace (ops_span pre + 1 - 1) with (ops_span pre) by lia. rewrite Z.eqb_refl. cbn [negb app].
  rewrite !ops_bytes_app, !ops_bytes_cons, !(app_assoc hdr), <- Hh, <- len_app. cbn [op_bytes].
  destruct o; try discriminate Hl; cbn [op_bytes app]; rewrite put_byte_app, u8_val_set; done.
Qed.

Lemma replace_opcode hdr pre o post index count :
  len hdr = HLL_HDR_SIZE ->
  replace_bytes (HLL_HDR_SIZE + len (ops_bytes pre)) (op_len o)
    (ops_bytes (split_ops o (ops_span pre) index count)) (hdr ++ ops_bytes (pre ++ o :: post))
  = hdr ++ ops_bytes (pre ++ split_ops o (ops_span pre) index count ++ post).
Proof.
  intros Hh. rewrite !ops_bytes_app, !ops_bytes_cons, !(app_assoc hdr), <- Hh, <- len_app.
  apply replace_bytes_app, len_op_bytes.
Qed.

Lemma len_put_byte p x s s' : put_byte p x s = Some s' -> len s' = len s.
Proof.
  unfold put_byte. case_match; [intros [= <-]; apply len_insert|].
  case_match; [by intros [= <-]|done].
Qed.

(** The outcome of setting a register: nothing, or a new object without a cached
    cardinality. *)
Definition raised (s : bytes) (f : Z -> Z) (res : option (Z * bytes)) : Prop :=
  exists r s', res = Some (r, s') /\ rep s' f
    /\ (r = 0 /\ s' = s \/ r = 1 /\ valid_cache s' = false /\ encoding s' <> HLL_RAW).

Lemma update_raised s hdr ops f begin end_ :
  len hdr = HLL_HDR_SIZE -> bytes_ok hdr -> take 4 hdr = magic -> encoding hdr = HLL_SPARSE ->
  Forall op_ok ops -> ops_span ops = HLL_REGISTERS -> ops_at f 0 ops ->
  (forall i, 0 <= i < HLL_REGISTERS -> 0 <= f i < 64) -> boundary ops begin ->
  end_ = len (hdr ++ ops_bytes ops) ->
  raised s f (hll_sparse_set_update (hdr ++ ops_bytes ops) begin end_).
Proof.
  intros Hh Hb Hm He Hok Hsp Hf Hr Hbd ->.
  destruct (sparse_update hdr ops f begin) as (s' & E & Hs' & Hc & He'); try done.
  exists 1, s'. split_and!; [done|done|]. right. by rewrite He'.
Qed.

Lemma boundary_app pre ops p : boundary pre p -> boundary (pre ++ ops) p.
Proof. intros (A & B & -> & ->). exists A, (B ++ ops). by rewrite app_assoc. Qed.

(** What [hll_sparse_set] learns from the byte of an opcode. *)
Lemma opcode_facts s p o :
  reads s p o -> exists b, byte_at s p = Some b /\ opcode_span s p b = Some (op_span o, op_len o)
    /\ negb (SPARSE_IS_ZERO b) && negb (SPARSE_IS_XZERO b) = is_val_op o
    /\ (is_val_op o = true -> SPARSE_VAL_VALUE b = op_val o)
    /\ (is_val_op o || SPARSE_IS_ZERO b = true -> op_len o = 1)
    /\ (if SPARSE_IS_XZERO b then 2 else 1) = op_len o.
Proof.
  intros Hr. destruct (opcode_span_reads _ _ _ Hr) as (b & Hb & Hsp).
  destruct Hr as [_ (b' & Hb' & Hz & Hx & Hv & Hd)]. assert (b' = b) as -> by congruence.
  exists b. rewrite Hz, Hx. destruct o; split_and!; try done. intros _. apply Hd.
Qed.

(** Writing the new opcodes and joining neighbours. *)
Lemma write_raised s f pre o post index count begin end_ hll :
  rep s f -> encoding s = HLL_SPARSE -> Forall op_ok (pre ++ o :: post) ->
  ops_span (pre ++ o :: post) = HLL_REGISTERS -> ops_at f 0 (pre ++ o :: post) ->
  ops_span pre <= index < ops_span pre + op_span o -> f index < count -> 1 <= count <= 32 ->
  boundary pre begin ->
  hll = take 16 s ++ ops_bytes (pre ++ split_ops o (ops_span pre) index count ++ post) ->
  end_ = len hll ->
  raised s (upd f index (Z.max (f index) count)) (hll_sparse_set_update hll begin end_).
Proof.
  intros Hs He Hok Hsp Hf Hin Hlt Hc Hbd -> ->. rewrite Z.max_r by lia.
  destruct (sparse_header s f Hs He) as (Hh & Hhb & Hhm & Hhe).
  destruct (ops_at_split f pre o post index count) as (N1 & N2 & N3); try done.
  rewrite Hsp in N2. apply update_raised; try done; [|by apply boundary_app].
  intros i Hi. unfold upd. destruct (decide (i = index)); [lia|]. by apply (rep_range s f Hs).
Qed.

Lemma promote_raised s f index count :
  rep s f -> 0 <= index < HLL_REGISTERS -> f index < count -> count < 64 ->
  raised s (upd f index (Z.max (f index) count)) (hll_sparse_set_promote s index count).
Proof.
  intros Hs Hi Hlt Hc. destruct (promote_spec s f index count) as (s' & E & Hs' & Hv & He); try done.
  - split; [|done]. by apply (rep_range s f Hs).
  - exists 1, s'. split_and!; [done|done|]. right. by rewrite He.
Qed.

Lemma kept_raised s f index count :
  rep s f -> count <= f index -> raised s (upd f index (Z.max (f index) count)) (Some (0, s)).
Proof.
  intros Hs Hle. exists 0, s. split_and!; [done| |by left]. apply (rep_ext s f); [|done].
  intros i _. unfold upd. destruct (decide (i = index)) as [->|]; [lia|done].
Qed.

Lemma sparse_set_raised s f index count :
  rep s f -> encoding s = HLL_SPARSE -> 0 <= index < HLL_REGISTERS -> 1 <= count < 64 ->
  raised s (upd f index (Z.max (f index) count)) (hll_sparse_set s index count).
Proof.
  intros Hs He Hi Hc. pose proof (hdr_split s (rep_hdr s f Hs)) as Hh.
  destruct (rep_regs s f Hs) as [E|ops _ Hd Hok Hsp Hf|E]; [by rewrite E in He| |by rewrite E in He].
  destruct (sparse_find s f ops index) as (pre & o & post & prev & -> & F & Hin & Hbd); try done.
  pose proof Hok as Hok'. apply Forall_app in Hok' as [_ [Ho _]%Forall_cons].
  assert (Hfi : f index = op_val o).
  { apply ops_at_app in Hf as [_ [Hf _]]. apply Hf. lia. }
  assert (Hs16 : s = take 16 s ++ ops_bytes (pre ++ o :: post)) by by rewrite <- Hd, take_drop.
  unfold hll_sparse_set, SPARSE_VAL_MAX_VALUE. destruct (Z.ltb_spec 32 count).
  { apply promote_raised; try done; [|lia]. destruct o; cbn in *; lia. }
  rewrite F. cbn [mbind option_bind]. pose proof (op_span_pos o Ho).
  pose proof (reads_at (take 16 s) pre o post Hh Ho) as Hrd. rewrite <- Hs16 in Hrd.
  pose proof (rd_in _ _ _ Hrd). destruct (opcode_facts _ _ _ Hrd) as (b & Hb & Hosp & Hval & Hcur & Hl1 & Hold).
  rewrite (proj2 (Z.eqb_neq (op_span o) 0)), (proj2 (Z.leb_gt (len s) _)) by lia. cbn [orb].
  rewrite Hb. cbn [mbind option_bind]. rewrite Hosp. cbn [mbind option_bind]. rewrite Hval, Hold.
  destruct (is_val_op o && (count <=? SPARSE_VAL_VALUE b)) eqn:Ekeep.
  { apply andb_true_iff in Ekeep as [Ev El]. rewrite Hcur in El by done. apply Z.leb_le in El.
    apply kept_raised; [done|lia]. }
  assert (Hlt : f index < count).
  { rewrite Hfi. destruct (is_val_op o) eqn:Ev; cbn [andb] in Ekeep.
    - rewrite Hcur in Ekeep by done. apply Z.leb_gt in Ekeep. lia.
    - destruct o; cbn in *; lia || done. }
  destruct ((is_val_op o || SPARSE_IS_ZERO b) && (op_span o =? 1)) eqn:Eone.
  - apply andb_true_iff in Eone as [Ek E1]. apply Z.eqb_eq in E1.
    pose proof (put_opcode (take 16 s) pre o post index count Hh E1 (Hl1 Ek) ltac:(lia)) as Hput.
    rewrite <- Hs16 in Hput. rewrite Hput. cbn [mbind option_bind].
    eapply write_raised; try done; [lia|]. symmetry. by eapply len_put_byte.
  - assert (Hseq : split_run (is_val_op o) (SPARSE_VAL_VALUE b) (ops_span pre) (ops_span pre + op_span o - 1)
              index count = ops_bytes (split_ops o (ops_span pre) index count)).
    { rewrite <- split_run_bytes. destruct (is_val_op o) eqn:Ev; [by rewrite Hcur|done]. }
    rewrite Hseq. destruct ((0 <? _) && _); [apply promote_raised; lia || done|].
    rewrite Hs16 at 2. rewrite replace_opcode by done. eapply write_raised; try done; [lia|].
    rewrite Hs16 at 1. rewrite !len_app, !ops_bytes_app, !len_app, ops_bytes_cons, len_app, len_op_bytes. lia.
Qed.

(** ** Hash values *)

Lemma land_pow2 x k : 0 <= k -> Z.land x (2 ^ k) = if Z.testbit x k then 2 ^ k else 0.
Proof.
  intros Hk. apply Z.bits_inj'; intros i Hi. rewrite Z.land_spec, Z.pow2_bits_eqb by done.
  destruct (Z.eqb_spec k i) as [->|Hne].
  - rewrite andb_true_r. destruct (Z.testbit x i); [|by rewrite Z.bits_0].
    by rewrite Z.pow2_bits_true.
  - rewrite andb_false_r. destruct (Z.testbit x k); [|by rewrite Z.bits_0].
    by rewrite Z.pow2_bits_false.
Qed.

(** The loop finds the lowest set bit. *)
Lemma pat_loop_spec fuel x k t :
  0 <= k -> k <= t -> t < 63 -> t - k < Z.of_nat fuel -> Z.testbit x t = true ->
  exists l, pat_loop fuel x (2 ^ k) (k + 1) = l + 1 /\ k <= l <= t
    /\ Z.testbit x l = true /\ forall i, k <= i < l -> Z.testbit x i = false.
Proof.
  revert k; induction fuel as [|fuel IH]; intros k Hk Hkt Ht Hfuel Hx; [lia|].
  cbn [pat_loop]. rewrite land_pow2 by done. destruct (Z.testbit x k) eqn:Ek.
  - rewrite (proj2 (Z.eqb_neq _ _)) by (apply Z.pow_nonzero; lia).
    exists k. split_and!; try done; lia.
  - assert (k <> t) by congruence.
    cbn [Z.eqb]. replace (u64 (Z.shiftl (2 ^ k) 1)) with (2 ^ (k + 1)).
    + destruct (IH (k + 1)) as (l & E & Hl & Hb & Hlow); try done; try lia.
      exists l. split_and!; try done; try lia. intros i Hi.
      destruct (decide (i = k)) as [->|]; [done|]. apply Hlow. lia.
    + rewrite Z.shiftl_mul_pow2, <- Z.pow_add_r by lia. symmetry. apply wrap_id. split.
      * apply Z.pow_nonneg; lia.
      * apply Z.pow_lt_mono_r; lia.
Qed.

Definition hash_index (h : Z) : Z := snd (hll_pat_len h).
Definition hash_count (h : Z) : Z := fst (hll_pat_len h).

(** The register of a hash value is its low 14 bits; the count is the position of
    the lowest bit set in the others, at most 51. *)
Lemma pat_len_spec h :
  is_u 64 h ->
  hash_index h = h mod HLL_REGISTERS /\ 1 <= hash_count h <= 51
  /\ (hash_count h <= 50 -> Z.testbit h (HLL_P + hash_count h - 1) = true)
  /\ forall i, 0 <= i < hash_count h - 1 -> Z.testbit h (HLL_P + i) = false.
Proof.
  intros Hh. unfold hash_index, hash_count, hll_pat_len. cbn [fst snd].
  assert (Hbit : forall i, 0 <= i -> Z.testbit (Z.lor (Z.shiftr h HLL_P) (Z.shiftl 1 HLL_Q)) i
            = Z.testbit h (HLL_P + i) || (i =? 50)).
  { intros i Hi. unfold HLL_Q, HLL_P. change (64 - 14) with 50.
    rewrite Z.lor_spec, Z.shiftr_spec, Z.shiftl_mul_pow2, Z.mul_1_l, Z.pow2_bits_eqb by lia.
    by rewrite (Z.add_comm i), (Z.eqb_sym 50). }
  destruct (pat_loop_spec 64 (Z.lor (Z.shiftr h HLL_P) (Z.shiftl 1 HLL_Q)) 0 50)
    as (l & E & Hl & Hb & Hlow); try lia.
  { rewrite Hbit, Z.eqb_refl by lia. apply orb_true_r. }
  change (2 ^ 0) with 1 in E. change (0 + 1) with 1 in E. rewrite E. split_and!; try lia.
  - exact (land_ones_mod h 14 ltac:(lia)).
  - intros Hc. rewrite Hbit, (proj2 (Z.eqb_neq l 50)), orb_false_r in Hb by lia.
    by replace (HLL_P + (l + 1) - 1) with (HLL_P + l) by lia.
  - intros i Hi. specialize (Hlow i ltac:(lia)). rewrite Hbit in Hlow by lia.
    apply orb_false_iff in Hlow as [Hlow _]. exact Hlow.
Qed.

Lemma hash_index_range h : is_u 64 h -> 0 <= hash_index h < HLL_REGISTERS.
Proof.
  intros Hh. destruct (pat_len_spec h Hh) as [-> _]. apply Z.mod_pos_bound.
  unfold HLL_REGISTERS. lia.
Qed.

(** ** Adding *)

(** The register of a hash value is raised to its count. *)
Definition raise (f : Z -> Z) (h : Z) : Z -> Z :=
  upd f (hash_index h) (Z.max (f (hash_index h)) (hash_count h)).

(** An object is as before or has no cached cardinality. *)
Definition added (s : bytes) (f : Z -> Z) (res : option (Z * bytes)) : Prop :=
  exists r s', res = Some (r, s') /\ 0 <= r /\ rep s' f /\ (s' = s \/ valid_cache s' = false).

Lemma raised_added s f res : raised s f res -> added s f res.
Proof.
  intros (r & s' & -> & Hs' & [[-> ->]|(-> & Hv & _)]); eexists _, _; split_and!; try done; auto.
Qed.

Lemma dense_add_added s f h :
  rep s f -> encoding s = HLL_DENSE -> is_u 64 h -> added s (raise f h) (
    '(ret, hll) ← hll_dense_add s h;
    hll ← (if ret =? 1 then invalidate_cache hll else Some hll);
    Some (ret, hll)).
Proof.
  intros Hs He Hh. pose proof (hash_index_range h Hh) as Hi.
  destruct (pat_len_spec h Hh) as (_ & Hc & _).
  unfold hll_dense_add. rewrite (surjective_pairing (hll_pat_len h)).
  fold (hash_index h) (hash_count h).
  destruct (rep_dense_set s f _ (hash_count h) Hs He Hi ltac:(lia)) as (d & E & Hd & He' & Hcard).
  unfold hll_dense_set in E |- *.
  destruct (rep_dense s f Hs He) as [Hok Hf].
  destruct (dense_get_dreg s (hash_index h) Hok Hi) as [Eg _]. rewrite Hf in Eg by done.
  rewrite Eg in E |- *. cbn [mbind option_bind] in E |- *.
  destruct (Z.ltb_spec (f (hash_index h)) (hash_count h)) as [Hlt|Hge].
  - rewrite E. cbn [mbind option_bind Z.eqb Pos.eqb]. pose proof (rep_hdr _ _ Hd).
    rewrite invalidate_stale by done. exists 1, (stale d).
    split_and!; [done|lia|by apply rep_stale|right; by apply stale_invalid].
  - injection E as <-. exists 0, s. split_and!; [done|lia|done|by left].
Qed.

(** *** Raw objects *)

Lemma rep_raw s f :
  rep s f -> encoding s = HLL_RAW ->
  len s = HLL_HDR_SIZE + HLL_REGISTERS
  /\ forall i, 0 <= i < HLL_REGISTERS -> byte_at s (HLL_HDR_SIZE + i) = Some (f i).
Proof.
  intros [Hb Hh Hm Hr [He|ops He|He Hl Hf]] E; rewrite E in He; try discriminate He.
  split; [done|]. intros i Hi. unfold HLL_HDR_SIZE in *. rewrite byte_at_bat by lia. by rewrite Hf.
Qed.

Lemma raw_max_spec s f i v :
  rep s f -> encoding s = HLL_RAW -> 0 <= i < HLL_REGISTERS -> 0 <= v < 64 ->
  exists s', raw_max s i v = Some (f i <? v, s') /\ rep s' (upd f i (Z.max (f i) v))
    /\ encoding s' = HLL_RAW /\ same_card s s' /\ (v <= f i -> s' = s).
Proof.
  intros Hs He Hi Hv. destruct (rep_raw s f Hs He) as [Hl Hf]. unfold raw_max.
  rewrite Hf by done. cbn [mbind option_bind]. pose proof Hs as [Hb Hh Hm Hr _].
  destruct (Z.ltb_spec (f i) v) as [Hlt|Hge].
  - unfold HLL_HDR_SIZE in *. rewrite put_byte_in by lia. cbn [mbind option_bind].
    rewrite (wrap_id 8) by (unfold is_u; lia). set (s' := <[_:=_]> s).
    assert (Hq : forall q, q <> 16 + i -> byte_at s' q = byte_at s q)
      by (intros; by apply byte_at_insert_ne; [lia|]).
    assert (Hl' : len s' = len s) by apply len_insert.
    assert (He' : encoding s' = HLL_RAW).
    { rewrite <- He. apply same_encoding; [done|done|apply Hq; lia]. }
    exists s'. split_and!; [done| |done| |lia].
    + rewrite Z.max_r by lia. split.
      * apply Forall_insert; [done|]. unfold is_u. lia.
      * unfold HLL_HDR_SIZE. lia.
      * rewrite <- Hm. apply same_take4; [done|done|]. intros; apply Hq; lia.
      * intros k Hk. unfold upd. destruct (decide (k = i)); [lia|auto].
      * apply reg_raw; [done|unfold HLL_HDR_SIZE; lia|]. intros k Hk. unfold upd, HLL_HDR_SIZE.
        destruct (decide (k = i)) as [->|]; [apply bat_insert_eq; lia|].
        unfold bat. rewrite Hq by lia. by rewrite Hf.
    + intros q Hq'. apply Hq. unfold HLL_HDR_SIZE in Hq'. lia.
  - exists s. split_and!; try done. apply (rep_ext s f); [|done].
    intros k _. unfold upd. destruct (decide (k = i)) as [->|]; [lia|done].
Qed.

Lemma row_add_added s f h :
  rep s f -> encoding s = HLL_RAW -> is_u 64 h -> added s (raise f h) (hll_row_add s h).
Proof.
  intros Hs He Hh. pose proof (hash_index_range h Hh) as Hi.
  destruct (pat_len_spec h Hh) as (_ & Hc & _).
  unfold hll_row_add. rewrite (surjective_pairing (hll_pat_len h)).
  fold (hash_index h) (hash_count h).
  destruct (raw_max_spec s f _ (hash_count h) Hs He Hi ltac:(lia)) as (s' & -> & Hs' & He' & _ & Hk).
  cbn [mbind option_bind]. destruct (Z.ltb_spec (f (hash_index h)) (hash_count h)) as [Hlt|Hge].
  - pose proof (rep_hdr _ _ Hs'). rewrite invalidate_stale by done. exists 0, (stale s').
    split_and!; [done|lia|by apply rep_stale|right; by apply stale_invalid].
  - exists 0, s'. split_and!; [done|lia|done|left; auto].
Qed.

Lemma hll_add_added s f h : rep s f -> is_u 64 h -> added s (raise f h) (hll_add s h).
Proof.
  intros Hs Hh. unfold hll_add. rewrite (rep_object s f Hs).
  destruct (rep_regs s f Hs) as [He _ _|ops He _ _ _ _|He _ _]; rewrite He;
    cbn [Z.eqb Pos.eqb HLL_DENSE HLL_SPARSE HLL_RAW].
  - by apply dense_add_added.
  - unfold hll_sparse_add. rewrite (surjective_pairing (hll_pat_len h)).
    fold (hash_index h) (hash_count h). pose proof (hash_index_range h Hh).
    destruct (pat_len_spec h Hh) as (_ & Hc & _).
    apply raised_added, sparse_set_raised; lia || done.
  - by apply row_add_added.
Qed.

(** * Merging and converting objects *)

(** ** Pointwise maximum, up to a register *)

Definition max_upto (f g : Z -> Z) (k : Z) : Z -> Z :=
  fun i => if decide (i < k) then Z.max (f i) (g i) else f i.

Definition fmax (f g : Z -> Z) : Z -> Z := fun i => Z.max (f i) (g i).

Lemma max_upto_end s f g : rep s (max_upto f g HLL_REGISTERS) -> rep s (fmax f g).
Proof.
  apply rep_ext. intros i Hi. unfold max_upto, fmax. by rewrite decide_True by lia.
Qed.

Lemma max_upto_start s f g : rep s f -> rep s (max_upto f g 0).
Proof. apply rep_ext. intros i Hi. unfold max_upto. by rewrite decide_False by lia. Qed.

Lemma max_upto_skip s f g k :
  0 <= k < HLL_REGISTERS -> g k <= f k -> rep s (max_upto f g k) -> rep s (max_upto f g (k + 1)).
Proof.
  intros Hk Hle. apply rep_ext. intros i Hi. unfold max_upto.
  destruct (decide (i < k)), (decide (i < k + 1)); try lia. replace i with k by lia. lia.
Qed.

Lemma max_upto_raise s f g k :
  0 <= k -> rep s (upd (max_upto f g k) k (Z.max (max_upto f g k k) (g k))) ->
  rep s (max_upto f g (k + 1)).
Proof.
  intros Hk. apply rep_ext. intros i Hi. unfold upd, max_upto.
  rewrite (decide_False (P := k < k)) by lia.
  destruct (decide (i = k)) as [->|]; [by rewrite decide_True by lia|].
  destruct (decide (i < k)), (decide (i < k + 1)); lia || done.
Qed.

(** ** [hll_merge_agg] *)

(** The steps of its loops, on a raw and on a dense first object. *)
Definition raising (f g : Z -> Z) (e k : Z) (h : bytes) : Prop :=
  rep h (max_upto f g k) /\ encoding h = e.

Lemma raising_raw f g k h :
  0 <= k < HLL_REGISTERS -> 0 <= g k < 64 -> raising f g HLL_RAW k h ->
  exists h', snd <$> raw_max h k (g k) = Some h' /\ raising f g HLL_RAW (k + 1) h'.
Proof.
  intros Hk Hg [Hh He]. destruct (raw_max_spec h _ k (g k) Hh He Hk Hg) as (h' & -> & Hh' & He' & _).
  exists h'. split; [done|]. split; [|done]. apply max_upto_raise; [lia|done].
Qed.

Lemma raising_dense f g k h :
  0 <= k < HLL_REGISTERS -> 0 <= g k < 64 -> raising f g HLL_DENSE k h ->
  exists h', snd <$> hll_dense_set h k (g k) = Some h' /\ raising f g HLL_DENSE (k + 1) h'.
Proof.
  intros Hk Hg [Hh He]. destruct (rep_dense_set h _ k (g k) Hh He Hk Hg) as (h' & -> & Hh' & He' & _).
  exists h'. split; [done|]. split; [|done]. apply max_upto_raise; [lia|done].
Qed.

(** What a loop that raises every register of the first object does. *)
Lemma merge_agg_loops (raise : Z -> Z -> bytes -> option bytes) s1 f s2 g e :
  (forall k h, 0 <= k < HLL_REGISTERS -> raising f g e k h ->
     exists h', raise k (g k) h = Some h' /\ raising f g e (k + 1) h') ->
  rep s1 f -> encoding s1 = e -> rep s2 g ->
  exists h, rep h (fmax f g) /\ encoding h = e /\
    (encoding s2 = HLL_DENSE -> for_registers (fun i h => val ← dense_get s2 i; raise i val h) s1 = Some h)
    /\ (encoding s2 = HLL_RAW ->
        for_registers (fun i h => val ← byte_at s2 (HLL_HDR_SIZE + i); raise i val h) s1 = Some h)
    /\ (encoding s2 = HLL_SPARSE -> walk_registers s2 raise s1 = Some (HLL_REGISTERS, h)).
Proof.
  intros Hstep H1 He1 H2. pose proof (rep_range s2 g H2) as Hg.
  assert (Hstart : raising f g e 0 s1) by (split; [by apply max_upto_start|done]).
  destruct (rep_regs s2 g H2) as [He _ _|ops He Hd Hok Hsp Hops|He _ _].
  - destruct (rep_dense s2 g H2 He) as [Hdo Hdr].
    destruct (for_registers_inv (raising f g e) (fun i h => val ← dense_get s2 i; raise i val h) s1)
      as (h & E & Hh & Eh); [|done|].
    + intros k h Hk Hh. destruct (dense_get_dreg s2 k Hdo Hk) as [-> _]. cbn [mbind option_bind].
      rewrite Hdr by done. auto.
    + exists h. split_and!; [by apply max_upto_end|done|done|..]; intros E'; by rewrite He in E'.
  - destruct (walk_registers_inv (raising f g e) g raise s2 ops s1) as (h & E & Hh & Eh); try done.
    + apply hdr_split, (rep_hdr s2 g H2).
    + intros k h Hk [Hh Eh] E. split; [|done]. apply max_upto_skip; [done| |done].
      pose proof (rep_range _ _ H1 k Hk). lia.
    + auto.
    + exists h. split_and!; [by apply max_upto_end|done|..|done]; intros E'; by rewrite He in E'.
  - destruct (rep_raw s2 g H2 He) as [_ Hby].
    destruct (for_registers_inv (raising f g e)
        (fun i h => val ← byte_at s2 (HLL_HDR_SIZE + i); raise i val h) s1) as (h & E & Hh & Eh); [|done|].
    + intros k h Hk Hh. rewrite Hby by done. cbn [mbind option_bind]. auto.
    + exists h. split_and!; [by apply max_upto_end|done| |done|]; intros E'; by rewrite He in E'.
Qed.

(** Into a raw object, which is how the aggregates call it. *)
Lemma merge_agg_raw s1 f s2 g :
  rep s1 f -> encoding s1 = HLL_RAW -> rep s2 g ->
  exists h, hll_merge_agg s1 s2 = Some (0, h) /\ rep h (fmax f g) /\ encoding h = HLL_RAW
    /\ valid_cache h = false.
Proof.
  intros H1 He1 H2. unfold hll_merge_agg. rewrite (rep_object s1 f H1), (rep_object s2 g H2), He1.
  cbn [negb orb Z.eqb Pos.eqb HLL_RAW mbind option_bind Z.ltb Z.compare].
  destruct (merge_agg_loops (fun i v h => snd <$> raw_max h i v) s1 f s2 g HLL_RAW)
    as (h & Hh & Eh & L1 & L2 & L3); try done.
  { intros k h Hk Hh. apply raising_raw; [done| |done]. by apply (rep_range s2 g H2). }
  exists (stale h). pose proof (rep_hdr _ _ Hh). rewrite stale_encoding by done.
  split_and!; [|by apply rep_stale|done|by apply stale_invalid].
  rewrite He1. cbn [Z.eqb Pos.eqb HLL_RAW negb].
  destruct (rep_regs s2 g H2) as [He _ _|ops He _ _ _ _|He _ _]; rewrite He;
    cbn [Z.eqb Pos.eqb HLL_DENSE HLL_SPARSE HLL_RAW].
  - rewrite L1 by done. cbn [mbind option_bind]. by rewrite invalidate_stale.
  - rewrite L3 by done. cbn [mbind option_bind]. rewrite Z.eqb_refl. by rewrite invalidate_stale.
  - rewrite L2 by done. cbn [mbind option_bind]. by rewrite invalidate_stale.
Qed.

(** Into a sparse or a dense object from one that is not raw. *)
Lemma merge_agg_dense s1 f s2 g :
  rep s1 f -> encoding s1 <> HLL_RAW -> rep s2 g -> encoding s2 <> HLL_RAW ->
  exists h, hll_merge_agg s1 s2 = Some (0, h) /\ rep h (fmax f g) /\ valid_cache h = false.
Proof.
  intros H1 He1 H2 He2. unfold hll_merge_agg. rewrite (rep_object s1 f H1), (rep_object s2 g H2).
  rewrite (proj2 (Z.eqb_neq (encoding s1) HLL_RAW)) by done. cbn [negb orb].
  destruct (sparse_to_dense_spec s1 f H1) as (d & -> & Hd & Hed & _).
  cbn [mbind option_bind Z.ltb Z.compare]. rewrite Hed. cbn [Z.eqb HLL_DENSE HLL_RAW negb].
  destruct (merge_agg_loops (fun i v h => snd <$> hll_dense_set h i v) d f s2 g HLL_DENSE)
    as (h & Hh & Eh & L1 & L2 & L3); try done.
  { intros k h Hk Hh. apply raising_dense; [done| |done]. by apply (rep_range s2 g H2). }
  exists (stale h). pose proof (rep_hdr _ _ Hh).
  split_and!; [|by apply rep_stale|by apply stale_invalid].
  destruct (rep_regs s2 g H2) as [He _ _|ops He _ _ _ _|He _ _]; [| |by rewrite He in He2];
    rewrite He; cbn [Z.eqb Pos.eqb HLL_DENSE HLL_SPARSE HLL_RAW].
  - rewrite L1 by done. cbn [mbind option_bind]. by rewrite invalidate_stale.
  - rewrite L3 by done. cbn [mbind option_bind]. rewrite Z.eqb_refl. by rewrite invalidate_stale.
Qed.

(** ** [hll_merge] *)

(** The array of [hll_merge] with the registers [g]. *)
Definition array (max : list Z) (g : Z -> Z) : Prop :=
  len max = HLL_REGISTERS
  /\ forall i, 0 <= i < HLL_REGISTERS -> max !! Z.to_nat i = Some (g i).

Lemma array_zero : array (replicate register_count 0) (fun _ => 0).
Proof.
  split; [by rewrite len_replicate, register_count_Z|].
  intros i Hi. apply lookup_replicate_2. pose proof register_count_Z. lia.
Qed.

Lemma max_at_spec max g f k :
  array max (max_upto g f k) -> 0 <= k < HLL_REGISTERS ->
  exists max', max_at k (f k) max = Some max' /\ array max' (max_upto g f (k + 1)).
Proof.
  intros [Hl Hg] Hk. unfold max_at. rewrite (proj2 (Z.leb_le 0 k)) by lia.
  rewrite Hg by done. cbn [mbind option_bind]. eexists; split; [reflexivity|].
  assert (E : max_upto g f k k = g k) by (unfold max_upto; by rewrite decide_False by lia).
  rewrite E. split; [destruct (g k <? f k); rewrite ?len_insert; done|]. intros i Hi.
  assert (Hi' : i <> k -> max_upto g f (k + 1) i = max_upto g f k i).
  { intros. unfold max_upto. destruct (decide (i < k)), (decide (i < k + 1)); lia || done. }
  assert (Hk' : max_upto g f (k + 1) k = Z.max (g k) (f k))
    by (unfold max_upto; by rewrite decide_True by lia).
  destruct (Z.ltb_spec (g k) (f k)); destruct (decide (i = k)) as [->|Hne].
  - rewrite list_lookup_insert_eq by (unfold len in Hl; lia). f_equal. lia.
  - rewrite list_lookup_insert_ne, Hi' by lia. auto.
  - rewrite Hg, E by done. f_equal. lia.
  - rewrite Hi' by done. auto.
Qed.

Lemma array_ext max g h :
  (forall i, 0 <= i < HLL_REGISTERS -> g i = h i) -> array max g -> array max h.
Proof. intros E [Hl Hg]. split; [done|]. intros i Hi. rewrite Hg, E by done. done. Qed.

Lemma merge_max_spec max g s f :
  (forall i, 0 <= i < HLL_REGISTERS -> 0 <= g i) -> array max g -> rep s f ->
  exists max', hll_merge_max max s = Some (0, max') /\ array max' (fmax g f).
Proof.
  intros Hg Hmax Hs. unfold hll_merge_max.
  assert (H0 : array max (max_upto g f 0)).
  { apply (array_ext _ g); [|done]. intros i Hi. unfold max_upto. by rewrite decide_False by lia. }
  assert (Hend : forall m, array m (max_upto g f HLL_REGISTERS) -> array m (fmax g f)).
  { intros m. apply array_ext. intros i Hi. unfold max_upto, fmax. by rewrite decide_True by lia. }
  pose proof (rep_range s f Hs) as Hf.
  destruct (rep_regs s f Hs) as [He _ _|ops He Hd Hok Hsp Hops|He _ _]; rewrite He;
    cbn [Z.eqb Pos.eqb HLL_DENSE HLL_SPARSE HLL_RAW].
  - destruct (rep_dense s f Hs He) as [Hdo Hdr].
    destruct (for_registers_inv (fun k m => array m (max_upto g f k))
      (fun i m => val ← dense_get s i; max_at i val m) max) as (m & -> & Hm); [|done|by exists m; auto].
    intros k m Hk Hm. destruct (dense_get_dreg s k Hdo Hk) as [-> _]. cbn [mbind option_bind].
    rewrite Hdr by done. by apply max_at_spec.
  - destruct (walk_registers_inv (fun k m => array m (max_upto g f k)) f max_at s ops max)
      as (m & -> & Hm); try done.
    + apply hdr_split, (rep_hdr s f Hs).
    + intros k m Hk Hm E. apply (array_ext _ (max_upto g f k)); [|done]. intros i Hi. unfold max_upto.
      destruct (decide (i < k)), (decide (i < k + 1)); try lia. replace i with k by lia.
      specialize (Hg k Hk). lia.
    + intros k m Hk Hm _. by apply max_at_spec.
    + cbn [mbind option_bind]. rewrite Z.eqb_refl. exists m. auto.
  - destruct (rep_raw s f Hs He) as [_ Hby].
    destruct (for_registers_inv (fun k m => array m (max_upto g f k))
      (fun i m => val ← byte_at s (HLL_HDR_SIZE + i); max_at i val m) max)
      as (m & -> & Hm); [|done|by exists m; auto].
    intros k m Hk Hm. rewrite Hby by done. cbn [mbind option_bind]. by apply max_at_spec.
Qed.

(** ** Setting the registers one by one *)

(** The opcodes before a register tell it. *)
Lemma ops_at_unique f g i opsf opsg :
  ops_bytes opsf = ops_bytes opsg -> Forall op_ok opsf -> Forall op_ok opsg ->
  ops_at f i opsf -> ops_at g i opsg -> forall k, i <= k < i + ops_span opsf -> f k = g k.
Proof.
  revert i opsg; induction opsf as [|o opsf IH]; intros i opsg E Hf Hg Af Ag k Hk.
  { cbn in Hk. lia. }
  apply Forall_cons in Hf as [Ho Hf]. destruct opsg as [|p opsg].
  { rewrite ops_bytes_cons in E. pose proof (length_op_bytes o). apply (f_equal length) in E.
    rewrite length_app in E. cbn in E. lia. }
  apply Forall_cons in Hg as [Hp Hg]. rewrite !ops_bytes_cons in E.
  pose proof (reads_op [] o (ops_bytes opsf) Ho) as Ro. pose proof (reads_op [] p (ops_bytes opsg) Hp) as Rp.
  rewrite !app_nil_l in Ro, Rp. rewrite E in Ro. assert (p = o) as ->.
  { destruct Ro as [_ (b & Hb & Hz & Hx & Hv & Hd)], Rp as [_ (b' & Hb' & Hz' & Hx' & Hv' & Hd')].
    assert (b' = b) as -> by congruence.
    destruct o, p; try congruence; cbn in *.
    - destruct Hd as (b1 & ? & ?), Hd' as (b1' & ? & ?). congruence.
    - destruct Hd, Hd'. congruence. }
  apply app_inv_head in E. cbn [ops_at] in Af, Ag. rewrite ops_span_cons in Hk.
  destruct Af as [A1 A2], Ag as [B1 B2]. destruct (decide (k < i + op_span o)).
  - rewrite A1, B1 by lia. done.
  - apply (IH (i + op_span o) opsg); try done. lia.
Qed.

Lemma rep_unique s f g : rep s f -> rep s g -> forall i, 0 <= i < HLL_REGISTERS -> f i = g i.
Proof.
  intros Hf Hg i Hi.
  destruct (rep_regs s f Hf) as [E _ F|ops E D O Sp A|E _ F],
    (rep_regs s g Hg) as [E' _ F'|ops' E' D' O' Sp' A'|E' _ F']; rewrite E in E';
    try discriminate E'.
  - by rewrite <- F, F'.
  - apply (ops_at_unique f g 0 ops ops'); try done; [congruence|]. lia.
  - by rewrite <- F, F'.
Qed.

Lemma set_register_spec s f j v :
  rep s f -> encoding s <> HLL_RAW -> 0 <= j < HLL_REGISTERS -> 1 <= v < 64 ->
  exists s', set_register s j v = Some s' /\ rep s' (upd f j (Z.max (f j) v))
    /\ encoding s' <> HLL_RAW
    /\ (encoding s = HLL_SPARSE -> v <= f j /\ s' = s \/ valid_cache s' = false)
    /\ (encoding s = HLL_DENSE -> encoding s' = HLL_DENSE /\ same_card s s').
Proof.
  intros Hs He Hj Hv. unfold set_register.
  destruct (rep_regs s f Hs) as [E _ _|ops E _ _ _ _|E _ _]; [| |by rewrite E in He]; rewrite E;
    cbn [Z.eqb Pos.eqb HLL_DENSE HLL_SPARSE].
  - destruct (rep_dense_set s f j v Hs E Hj ltac:(lia)) as (s' & -> & Hs' & He' & Hc).
    exists s'. rewrite He'. split_and!; try done.
  - destruct (sparse_set_raised s f j v Hs E Hj Hv) as (r & s' & -> & Hs' & H). exists s'.
    split_and!; try done.
    + destruct H as [[_ ->]|(_ & _ & H)]; [by rewrite E|done].
    + intros _. destruct H as [[_ ->]|(_ & H & _)]; [left|by right]. split; [|done].
      destruct (decide (v <= f j)); [done|]. exfalso.
      pose proof (rep_unique s _ _ Hs Hs' j Hj) as Eq. rewrite upd_eq in Eq. lia.
Qed.

(** The loop of [hll_merge] over the array. *)
Lemma set_registers_spec s f max g :
  rep s f -> encoding s <> HLL_RAW -> array max g ->
  (forall i, 0 <= i < HLL_REGISTERS -> 0 <= g i < 64) ->
  exists s', set_registers max s = Some s' /\ rep s' (fmax f g) /\ encoding s' <> HLL_RAW.
Proof.
  intros Hs He [_ Hmax] Hg. pose proof (rep_range s f Hs) as Hf.
  destruct (for_registers_inv (fun k s => rep s (max_upto f g k) /\ encoding s <> HLL_RAW)
    (fun j s => m ← max !! Z.to_nat j; if m =? 0 then Some s else set_register s j m) s)
    as (s' & E & Hs' & He').
  - intros k t Hk [Ht Et]. rewrite Hmax by done. cbn [mbind option_bind].
    destruct (Z.eqb_spec (g k) 0) as [E0|Hne].
    + exists t. split_and!; [done| |done]. apply max_upto_skip; [done| |done].
      specialize (Hf k Hk). lia.
    + specialize (Hg k Hk).
      destruct (set_register_spec t _ k (g k) Ht Et Hk ltac:(lia)) as (t' & -> & Ht' & Et' & _).
      exists t'. split_and!; [done| |done]. apply max_upto_raise; [lia|done].
  - split; [by apply max_upto_start|done].
  - exists s'. split_and!; [done|by apply max_upto_end|done].
Qed.

Lemma fmax_zero (f : Z -> Z) i : 0 <= f i -> fmax (fun _ => 0) f i = f i.
Proof. unfold fmax. lia. Qed.

(** The array holds the larger registers of both objects. *)
Lemma merge_arrays s1 f s2 g :
  rep s1 f -> rep s2 g ->
  exists m1 m2, hll_merge_max (replicate register_count 0) s1 = Some (0, m1)
    /\ hll_merge_max m1 s2 = Some (0, m2) /\ array m2 (fmax f g).
Proof.
  intros H1 H2. pose proof (rep_range s1 f H1) as Hf.
  destruct (merge_max_spec _ (fun _ => 0) s1 f ltac:(done) array_zero H1) as (m1 & E1 & A1).
  apply (array_ext _ _ f) in A1; [|intros; apply fmax_zero; by apply Hf].
  destruct (merge_max_spec m1 f s2 g) as (m2 & E2 & A2); try done; [intros; by apply Hf|].
  by exists m1, m2.
Qed.

Lemma fmax_range s1 f s2 g :
  rep s1 f -> rep s2 g -> forall i, 0 <= i < HLL_REGISTERS -> 0 <= fmax f g i < 64.
Proof.
  intros H1 H2 i Hi. pose proof (rep_range s1 f H1 i Hi). pose proof (rep_range s2 g H2 i Hi).
  unfold fmax. lia.
Qed.

(** A first object that is raw is made dense when the other one is dense. *)
Definition merges (s1 s2 : bytes) : Prop := encoding s1 <> HLL_RAW \/ encoding s2 = HLL_DENSE.

Lemma merge_target s1 f s2 :
  rep s1 f -> merges s1 s2 ->
  exists t, (if (encoding s1 =? HLL_DENSE) || (encoding s2 =? HLL_DENSE)
             then hll_sparse_to_dense s1 else Some (0, s1)) = Some (0, t)
    /\ rep t f /\ encoding t <> HLL_RAW.
Proof.
  intros H1 Hm. destruct (sparse_to_dense_spec s1 f H1) as (d & Ed & Hd & Hed & _).
  destruct ((encoding s1 =? HLL_DENSE) || (encoding s2 =? HLL_DENSE)) eqn:Eor.
  - exists d. rewrite Hed. split_and!; [exact Ed|exact Hd|discriminate].
  - apply orb_false_iff in Eor as [_ E%Z.eqb_neq]. exists s1.
    split_and!; [reflexivity|exact H1|]. by destruct Hm.
Qed.

(** The calls of [hll_merge], one after the other. *)
Lemma hll_merge_calls s1 f s2 g m1 m2 t res :
  rep s1 f -> rep s2 g ->
  hll_merge_max (replicate register_count 0) s1 = Some (0, m1) ->
  hll_merge_max m1 s2 = Some (0, m2) ->
  (if (encoding s1 =? HLL_DENSE) || (encoding s2 =? HLL_DENSE)
   then hll_sparse_to_dense s1 else Some (0, s1)) = Some (0, t) ->
  set_registers m2 t = Some res -> HLL_HDR_SIZE <= len res ->
  hll_merge s1 s2 = Some (0, stale res).
Proof.
  intros H1 H2 E1 E2 E3 E4 Hl. unfold hll_merge.
  rewrite (rep_object s1 f H1), (rep_object s2 g H2). cbv beta iota delta [negb orb] zeta.
  rewrite E1. cbv beta iota delta [mbind option_bind]. change (0 <? 0) with false. cbv beta iota.
  rewrite E2. cbv beta iota delta [mbind option_bind]. change (0 <? 0) with false. cbv beta iota.
  change (if encoding s1 =? HLL_DENSE then true else encoding s2 =? HLL_DENSE)
    with ((encoding s1 =? HLL_DENSE) || (encoding s2 =? HLL_DENSE)).
  rewrite E3. cbv beta iota delta [mbind option_bind]. change (0 <? 0) with false. cbv beta iota.
  rewrite E4. cbv beta iota. rewrite (invalidate_stale res Hl). reflexivity.
Qed.

Lemma hll_merge_spec s1 f s2 g :
  rep s1 f -> rep s2 g -> merges s1 s2 ->
  exists s', hll_merge s1 s2 = Some (0, s') /\ rep s' (fmax f g) /\ valid_cache s' = false.
Proof.
  intros H1 H2 Hm. destruct (merge_arrays s1 f s2 g H1 H2) as (m1 & m2 & E1 & E2 & A2).
  destruct (merge_target s1 f s2 H1 Hm) as (t & E3 & Ht & Et).
  destruct (set_registers_spec t f m2 (fmax f g) Ht Et A2) as (s' & E4 & Hs' & _).
  { by apply (fmax_range s1 f s2 g). }
  pose proof (rep_hdr _ _ Hs') as Hl. exists (stale s').
  split_and!; [exact (hll_merge_calls s1 f s2 g m1 m2 t s' H1 H2 E1 E2 E3 E4 Hl)| |by apply stale_invalid].
  apply rep_stale. apply (rep_ext s' (fmax f (fmax f g))); [|done]. intros i _. unfold fmax. lia.
Qed.

(** Otherwise the switch on its encoding has no case for it. *)
Lemma hll_merge_into_raw s1 f s2 g :
  rep s1 f -> rep s2 g -> encoding s1 = HLL_RAW -> encoding s2 <> HLL_DENSE ->
  hll_merge s1 s2 = Some (0, stale s1).
Proof.
  intros H1 H2 He1 He2. destruct (merge_arrays s1 f s2 g H1 H2) as (m1 & m2 & E1 & E2 & [_ A2]).
  apply (hll_merge_calls s1 f s2 g m1 m2 s1 s1); try done.
  - by rewrite He1, (proj2 (Z.eqb_neq (encoding s2) HLL_DENSE)).
  - destruct (for_registers_inv (fun _ t => t = s1) (fun j t => m ← m2 !! Z.to_nat j;
      if m =? 0 then Some t else set_register t j m) s1) as (t & E & ->); [|done|exact E].
    intros k t Hk ->. rewrite A2 by done. cbn [mbind option_bind]. exists s1. split; [|done].
    destruct (fmax f g k =? 0); [done|]. unfold set_register. by rewrite He1.
  - apply (rep_hdr _ _ H1).
Qed.

(** ** From raw to sparse *)

Lemma bytes_ok_check b : forallb (fun x => (0 <=? x) && (x <? 256)) b = true -> bytes_ok b.
Proof.
  induction b as [|x b IH]; [constructor|]. cbn [forallb]. intros H.
  apply andb_true_iff in H as [[H1%Z.leb_le H2%Z.ltb_lt]%andb_true_iff H3].
  apply Forall_cons; split; [split; lia|exact (IH H3)].
Qed.

Lemma sparse_init_header :
  hll_sparse_init = (magic ++ [HLL_SPARSE] ++ replicate 11 0) ++ ops_bytes [XZERO HLL_REGISTERS].
Proof. reflexivity. Qed.

Lemma sparse_init_rep : rep hll_sparse_init (fun _ => 0) /\ encoding hll_sparse_init = HLL_SPARSE.
Proof.
  split; [|reflexivity]. rewrite sparse_init_header. apply rep_sparse; try reflexivity.
  - by apply bytes_ok_check.
  - apply Forall_singleton. cbn. unfold HLL_REGISTERS. lia.
  - apply ops_at_one. done.
  - done.
Qed.

(** The raw object is all zero so far, or the cached cardinality is gone. *)
Definition sparse_so_far (f : Z -> Z) (k : Z) (s : bytes) : Prop :=
  rep s (max_upto (fun _ => 0) f k) /\ encoding s <> HLL_RAW
  /\ (valid_cache s = false \/ s = hll_sparse_init /\ forall i, 0 <= i < k -> f i = 0).

Lemma same_card_valid s t :
  HLL_HDR_SIZE <= len s -> HLL_HDR_SIZE <= len t -> same_card s t -> valid_cache t = valid_cache s.
Proof.
  unfold HLL_HDR_SIZE. intros Hs Ht Hc. specialize (Hc 15 ltac:(unfold HLL_HDR_SIZE; lia)).
  rewrite !byte_at_lookup in Hc by lia. change (Z.to_nat 15) with 15%nat in Hc. unfold valid_cache. by rewrite Hc.
Qed.

Lemma sparse_step f k s :
  0 <= k < HLL_REGISTERS -> 1 <= f k < 64 -> sparse_so_far f k s ->
  exists s', set_register s k (f k) = Some s' /\ sparse_so_far f (k + 1) s'.
Proof.
  intros Hk Hf (Hs & He & Hc).
  destruct (set_register_spec s _ k (f k) Hs He Hk Hf) as (s' & E & Hs' & He' & Hsp & Hde).
  exists s'. split; [done|]. split_and!; [apply max_upto_raise; [lia|done]|done|]. left.
  assert (Ezero : max_upto (fun _ => 0) f k k = 0) by (unfold max_upto; by rewrite decide_False by lia).
  destruct (rep_regs s _ Hs) as [E' _ _|ops E' _ _ _ _|E' _ _]; [| |by rewrite E' in He].
  - destruct (Hde E') as [_ Hcard].
    rewrite (same_card_valid s s' (rep_hdr _ _ Hs) (rep_hdr _ _ Hs') Hcard).
    destruct Hc as [|[-> _]]; [done|]. discriminate E'.
  - destruct (Hsp E') as [[Hle _]|]; [lia|done].
Qed.

Lemma raw_to_sparse_spec s f :
  rep s f -> encoding s = HLL_RAW ->
  exists s', hll_raw_to_sparse s = Some (0, s') /\ rep s' f /\ encoding s' <> HLL_RAW
    /\ (valid_cache s' = false \/ s' = hll_sparse_init /\ forall i, 0 <= i < HLL_REGISTERS -> f i = 0).
Proof.
  intros Hs He. destruct (rep_raw s f Hs He) as [Hl Hby]. pose proof (rep_range s f Hs) as Hr.
  unfold hll_raw_to_sparse. rewrite (proj2 (Z.ltb_ge _ _)), He by apply (rep_hdr s f Hs).
  cbn [Z.eqb Pos.eqb HLL_RAW negb].
  destruct (for_registers_inv (sparse_so_far f) (fun j sparse =>
    max ← byte_at s (HLL_HDR_SIZE + j);
    if max =? 0 then Some sparse else set_register sparse j max) hll_sparse_init)
    as (s' & -> & Hs' & He' & Hc).
  - intros k t Hk Ht. rewrite Hby by done. cbn [mbind option_bind].
    destruct (Z.eqb_spec (f k) 0) as [E0|Hne].
    + exists t. split; [done|]. destruct Ht as (Ht & Et & Hc). split_and!; [|done|].
      * apply max_upto_skip; [done|lia|done].
      * destruct Hc as [|[-> Hz]]; [by left|right]. split; [done|]. intros i Hi.
        destruct (decide (i = k)) as [->|]; [done|]. apply Hz. lia.
    + apply sparse_step; [done| |done]. specialize (Hr k Hk). lia.
  - destruct sparse_init_rep as [Hi Ei]. split_and!; [by apply max_upto_start|by rewrite Ei|].
    right. split; [done|]. intros; lia.
  - cbn [mbind option_bind]. exists s'. split_and!; [done| |done|done].
    apply (rep_ext s' (max_upto (fun _ => 0) f HLL_REGISTERS)); [|done]. intros i Hi.
    unfold max_upto. rewrite decide_True by lia. specialize (Hr i Hi). lia.
Qed.
