(* ===== verification/HllTheorems.v ===== *)
(** * What the objects mean

    The histogram of the registers does not depend on the encoding, and the cached
    cardinality is the estimate of the registers.  The registers of an object that hash
    values were added to, the estimate as a function of the set of hash values, merged
    objects, and the first object of [hll_merge] that is raw. *)

From S2P Require Import Prelude KeyEncoder FloatArith Calendar Stdio FloatText DateTime ExprValue ExprValueFacts Hll HllEncodings HllFacts HllOps.

(** ** Histograms *)

Definition bump (v n : Z) (h : list Z) : list Z :=
  <[Z.to_nat v := default 0 (h !! Z.to_nat v) + n]> h.

(** The histogram of the first [n] registers. *)
Fixpoint hist_of (f : Z -> Z) (n : nat) : list Z :=
  match n with
  | O => replicate 64 0
  | S n => bump (f (Z.of_nat n)) 1 (hist_of f n)
  end.

Definition histogram (f : Z -> Z) : list Z := hist_of f register_count.

Lemma length_hist_of f n : length (hist_of f n) = 64%nat.
Proof. induction n; cbn [hist_of]; [done|]. unfold bump. by rewrite length_insert. Qed.

Lemma hist_add_bump v n h :
  length h = 64%nat -> 0 <= v < 64 -> hist_add v n h = Some (bump v n h).
Proof.
  intros Hl Hv. unfold hist_add, bump. rewrite (proj2 (Z.leb_le 0 v)) by lia.
  destruct (lookup_lt_is_Some_2 h (Z.to_nat v)) as [x ->]; [lia|done].
Qed.

Lemma bump_bump v n m h :
  length h = 64%nat -> 0 <= v < 64 -> bump v n (bump v m h) = bump v (m + n) h.
Proof.
  intros Hl Hv. unfold bump. rewrite list_lookup_insert_eq by lia.
  rewrite list_insert_insert_eq. f_equal. cbn. lia.
Qed.

Lemma bump_0 v h : length h = 64%nat -> 0 <= v < 64 -> bump v 0 h = h.
Proof.
  intros Hl Hv. unfold bump. apply list_insert_id.
  destruct (lookup_lt_is_Some_2 h (Z.to_nat v)) as [x E]; [lia|]. rewrite E. cbn. f_equal. lia.
Qed.

(** A run of equal registers. *)
Lemma hist_run f v n i :
  0 <= v < 64 -> (forall k, Z.of_nat i <= k < Z.of_nat i + Z.of_nat n -> f k = v) ->
  bump v (Z.of_nat n) (hist_of f i) = hist_of f (i + n).
Proof.
  intros Hv. induction n as [|n IH]; intros Hf.
  - rewrite Nat.add_0_r. apply bump_0; [apply length_hist_of|done].
  - rewrite Nat.add_succ_r. cbn [hist_of]. rewrite <- IH by (intros; apply Hf; lia).
    rewrite Hf by lia. rewrite bump_bump by (apply length_hist_of || done). f_equal. lia.
Qed.

Lemma hist_add_run f v n i :
  0 <= v < 64 -> 0 <= i -> 0 <= n -> (forall k, i <= k < i + n -> f k = v) ->
  hist_add v n (hist_of f (Z.to_nat i)) = Some (hist_of f (Z.to_nat (i + n))).
Proof.
  intros Hv Hi Hn Hf. rewrite hist_add_bump by (apply length_hist_of || done). f_equal.
  rewrite <- (Z2Nat.id n) at 1 by lia. rewrite (hist_run f v) by (done || intros; apply Hf; lia).
  f_equal. lia.
Qed.

Lemma hist_adds_spec f vals i :
  (forall j v, vals !! j = Some v -> v = f (Z.of_nat (i + j)) /\ 0 <= v < 64) ->
  hist_adds vals (hist_of f i) = Some (hist_of f (i + length vals)).
Proof.
  revert i; induction vals as [|v vals IH]; intros i Hv; cbn [hist_adds length].
  - by rewrite Nat.add_0_r.
  - destruct (Hv 0%nat v eq_refl) as [E Hr]. rewrite Nat.add_0_r in E.
    rewrite hist_add_bump by (apply length_hist_of || done). cbn [mbind option_bind].
    rewrite E. change (bump (f (Z.of_nat i)) 1 (hist_of f i)) with (hist_of f (S i)).
    rewrite IH; [do 2 f_equal; lia|]. intros j w Hw. destruct (Hv (S j) w Hw) as [Ew Hrw].
    rewrite Nat.add_succ_r in Ew. done.
Qed.

(** *** Reading several bytes *)

Lemma bytes_from_spec s p n :
  0 <= p -> p + Z.of_nat n <= len s + 1 ->
  bytes_from s p n = Some ((fun k => bat s (p + Z.of_nat k)) <$> seq 0 n).
Proof.
  intros Hp Hn. unfold bytes_from.
  assert (H : forall a m, (a + m <= n)%nat ->
    mapM (fun k => byte_at s (p + Z.of_nat k)) (seq a m)
    = Some ((fun k => bat s (p + Z.of_nat k)) <$> seq a m)).
  { intros a m; revert a; induction m as [|m IH]; intros a Ha; [done|]. cbn [seq mapM].
    rewrite byte_at_bat by lia. cbn [mbind option_bind]. rewrite IH by lia. done. }
  by apply H.
Qed.

Lemma bytes_from_lookup s p n k :
  (k < n)%nat ->
  default 0 (((fun k => bat s (p + Z.of_nat k)) <$> seq 0 n) !! k) = bat s (p + Z.of_nat k).
Proof. intros Hk. by rewrite list_lookup_fmap, lookup_seq_lt by done. Qed.

(** *** The dense routine *)

Lemma mask_high x y n : 6 <= n -> Z.land (Z.lor x (Z.shiftl y n)) 63 = Z.land x 63.
Proof.
  intros Hn. apply Z.bits_inj'; intros i Hi. rewrite !Z.land_spec, Z.lor_spec, Z.shiftl_spec by done.
  destruct (decide (i < 6)).
  - rewrite (Z.testbit_neg_r y) by lia. by rewrite orb_false_r.
  - change 63 with (Z.ones 6). rewrite Z.ones_spec_high by lia. by rewrite !andb_false_r.
Qed.

(** A register of the group of twelve bytes at [12 j]. *)
Lemma dreg_group s j i c fb :
  dense_ok s -> 0 <= j < 1024 -> 0 <= i < 16 -> i * 6 = 8 * c + fb -> 0 <= fb < 8 ->
  dreg s (16 * j + i) = Z.land (Z.lor (Z.shiftr (bat s (HLL_HDR_SIZE + 12 * j + c)) fb)
                                 (Z.shiftl (bat s (HLL_HDR_SIZE + 12 * j + c + 1)) (8 - fb))) 63.
Proof.
  intros [_ Hl] Hj Hi Hc Hfb. rewrite dense_size in Hl. unfold dreg, dense_get, HLL_BITS.
  replace ((16 * j + i) * 6) with (fb + (12 * j + c) * 8) by lia.
  rewrite land_7, Z.div_add, Z.mod_add, Z.div_small, Z.mod_small by lia. unfold HLL_HDR_SIZE.
  rewrite !byte_at_bat by lia. cbn [mbind option_bind default]. unfold HLL_REGISTER_MAX.
  change (default 0 (Some ?x)) with x.
  replace (16 + (0 + (12 * j + c))) with (16 + 12 * j + c) by lia. done.
Qed.

Lemma unpack16_spec s j :
  dense_ok s -> 0 <= j < 1024 ->
  unpack16 (fun k => bat s (HLL_HDR_SIZE + 12 * j + Z.of_nat k))
  = (fun i => dreg s (16 * j + Z.of_nat i)) <$> seq 0 16.
Proof.
  intros Hs Hj. pose proof (fun i c fb => dreg_group s j i c fb Hs Hj) as G.
  cbn [seq fmap list_fmap]. unfold unpack16.
  rewrite (G _ 0 0), (G _ 0 6), (G _ 1 4), (G _ 2 2), (G _ 3 0), (G _ 3 6), (G _ 4 4), (G _ 5 2),
    (G _ 6 0), (G _ 6 6), (G _ 7 4), (G _ 8 2), (G _ 9 0), (G _ 9 6), (G _ 10 4), (G _ 11 2) by lia.
  change (8 - 6) with 2. change (8 - 4) with 4. change (8 - 0) with 8. change (8 - 2) with 6.
  rewrite !(mask_high _ _ 8), !(mask_high _ _ 6), !Z.shiftr_0_r by lia.
  rewrite <- !(Z.add_assoc (HLL_HDR_SIZE + 12 * j)). reflexivity.
Qed.

Lemma dense_reghisto_spec s f :
  rep s f -> encoding s = HLL_DENSE -> hll_dense_reghisto s (replicate 64 0) = Some (histogram f).
Proof.
  intros Hs He. destruct (rep_dense s f Hs He) as [Hok Hf]. pose proof (rep_range s f Hs) as Hr.
  unfold hll_dense_reghisto.
  destruct (for_loop_inv (fun j h => h = hist_of f (Z.to_nat (16 * j))) (fun j reghisto =>
      r ← bytes_from s (HLL_HDR_SIZE + 12 * j) 12;
      hist_adds (unpack16 (fun k => default 0 (r !! k))) reghisto) 1024 0 (replicate 64 0))
    as (h & -> & ->).
  - intros j h Hj ->. assert (0 <= j < 1024) by lia. destruct Hok as [Hb Hl]. rewrite dense_size in Hl.
    rewrite bytes_from_spec by (unfold HLL_HDR_SIZE; lia). cbn [mbind option_bind].
    eexists; split; [|reflexivity].
    replace (unpack16 _) with ((fun i => dreg s (16 * j + Z.of_nat i)) <$> seq 0 16).
    2: { rewrite <- unpack16_spec by done. unfold unpack16. rewrite !bytes_from_lookup by lia. done. }
    rewrite hist_adds_spec; [do 2 f_equal; rewrite length_fmap, length_seq; lia|].
    intros i v Hi. apply list_lookup_fmap_Some in Hi as (k & -> & Hk).
    apply lookup_seq in Hk as [-> Hlt]. unfold HLL_REGISTERS in *. rewrite Hf by lia.
    split; [f_equal; lia|]. apply Hr. lia.
  - done.
  - unfold histogram. replace (Z.to_nat (16 * (0 + Z.of_nat 1024))) with register_count; [done|].
    pose proof register_count_Z. unfold HLL_REGISTERS in *. lia.
Qed.

(** *** The raw routine *)

Lemma hist_adds_zeros word h :
  length h = 64%nat -> forallb (Z.eqb 0) word = true ->
  hist_adds word h = hist_add 0 (Z.of_nat (length word)) h.
Proof.
  intros Hl Hz. rewrite hist_add_bump by (done || lia). revert h Hl Hz.
  induction word as [|x word IH]; intros h Hl Hz; cbn [hist_adds length].
  - by rewrite bump_0 by (done || lia).
  - cbn [forallb] in Hz. apply andb_true_iff in Hz as [E Hz]. apply Z.eqb_eq in E as <-.
    rewrite hist_add_bump by (done || lia). cbn [mbind option_bind].
    rewrite IH by (done || unfold bump; by rewrite length_insert).
    rewrite bump_bump by (done || lia). do 2 f_equal. lia.
Qed.

Lemma row_reghisto_spec s f :
  rep s f -> encoding s = HLL_RAW -> hll_row_reghisto s (replicate 64 0) = Some (histogram f).
Proof.
  intros Hs He. destruct (rep_raw s f Hs He) as [Hl Hf]. pose proof (rep_range s f Hs) as Hr.
  unfold hll_row_reghisto, HLL_HDR_SIZE, HLL_REGISTERS in *.
  destruct (for_loop_inv (fun j h => h = hist_of f (Z.to_nat (8 * j))) (fun j reghisto =>
      word ← bytes_from s (16 + 8 * j) 8;
      if forallb (Z.eqb 0) word then hist_add 0 8 reghisto else hist_adds word reghisto)
      2048 0 (replicate 64 0)) as (h & -> & ->).
  - intros j h Hj ->. rewrite bytes_from_spec by lia. cbn [mbind option_bind].
    set (word := _ <$> seq 0 8). assert (Hw : length word = 8%nat) by done.
    assert (E : hist_adds word (hist_of f (Z.to_nat (8 * j)))
                = Some (hist_of f (Z.to_nat (8 * (j + 1))))).
    { rewrite hist_adds_spec; [do 2 f_equal; rewrite Hw; lia|].
      intros i v Hi. apply list_lookup_fmap_Some in Hi as (k & -> & Hk).
      apply lookup_seq in Hk as [-> Hlt]. unfold bat.
      replace (16 + 8 * j + Z.of_nat (0 + i)) with (16 + (8 * j + Z.of_nat i)) by lia.
      rewrite Hf by lia. split; [cbn; f_equal; lia|]. apply Hr. lia. }
    eexists; split; [|reflexivity]. destruct (forallb (Z.eqb 0) word) eqn:Ez; [|done].
    rewrite <- E. symmetry. rewrite hist_adds_zeros by (apply length_hist_of || done). by rewrite Hw.
  - done.
  - unfold histogram. replace (Z.to_nat (8 * (0 + Z.of_nat 2048))) with register_count; [done|].
    pose proof register_count_Z. unfold HLL_REGISTERS in *. lia.
Qed.

(** *** The sparse routine *)

Lemma sparse_hist_spec f fuel pre ops i :
  Forall op_ok ops -> ops_at f i ops -> 0 <= i -> (length (ops_bytes ops) <= fuel)%nat ->
  sparse_hist fuel (pre ++ ops_bytes ops) (len pre) i (hist_of f (Z.to_nat i))
  = Some (i + ops_span ops, hist_of f (Z.to_nat (i + ops_span ops))).
Proof.
  revert fuel pre i; induction ops as [|o ops IH]; intros fuel pre i Hok Hf Hi Hfuel.
  - rewrite ops_bytes_nil, app_nil_r. cbn [ops_span foldr]. rewrite Z.add_0_r.
    destruct fuel; cbn [sparse_hist]; by rewrite Z.ltb_irrefl.
  - apply Forall_cons in Hok as [Ho Hok]. cbn [ops_at] in Hf. destruct Hf as [Hv Hf].
    rewrite ops_span_cons. pose proof (op_span_pos o Ho).
    rewrite ops_bytes_cons, length_app in *. pose proof (length_op_bytes o).
    destruct fuel as [|fuel]; [lia|]. cbn [sparse_hist].
    destruct (reads_op pre o (ops_bytes ops) Ho) as [Hin (b & Hb & Hz & Hx & Hval & Hd)].
    rewrite (proj2 (Z.ltb_lt _ _)) by done. rewrite Hb. cbn [mbind option_bind]. rewrite Hz.
    destruct (ops_cons_string pre o ops) as [Es El]. rewrite ops_bytes_cons in Es.
    assert (Hadd : hist_add (op_val o) (op_span o) (hist_of f (Z.to_nat i))
                   = Some (hist_of f (Z.to_nat (i + op_span o)))).
    { apply hist_add_run; try lia; [destruct o; cbn in *; lia|done]. }
    assert (Hrec : sparse_hist fuel (pre ++ op_bytes o ++ ops_bytes ops) (len pre + op_len o)
      (i + op_span o) (hist_of f (Z.to_nat (i + op_span o)))
      = Some (i + (op_span o + ops_span ops), hist_of f (Z.to_nat (i + (op_span o + ops_span ops))))).
    { rewrite Es, <- El, (Z.add_assoc i). apply IH; try done; lia. }
    destruct o as [n|n|v n]; cbn [op_span op_val op_len] in *.
    + rewrite Hd, Hadd. cbn [mbind option_bind]. exact Hrec.
    + rewrite Hx. destruct Hd as (b1 & -> & Hd). cbn [mbind option_bind]. rewrite Hd, Hadd. exact Hrec.
    + rewrite Hx. destruct Hd as [Hl Hr]. rewrite Hl, Hr, Hadd. exact Hrec.
Qed.

Lemma sparse_reghisto_spec s f :
  rep s f -> encoding s = HLL_SPARSE ->
  hll_sparse_reghisto s (replicate 64 0) = Some (false, histogram f).
Proof.
  intros Hs He. pose proof (hdr_split s (rep_hdr s f Hs)) as Hh.
  destruct (rep_regs s f Hs) as [E|ops _ Hd Hok Hsp Hf|E]; [by rewrite E in He| |by rewrite E in He].
  unfold hll_sparse_reghisto.
  pose proof (sparse_hist_spec f (length s) (take 16 s) ops 0 Hok Hf ltac:(lia)) as E.
  rewrite <- Hd, take_drop, Hh, Z.add_0_l, Hsp in E.
  change (hist_of f (Z.to_nat 0)) with (replicate 64 0) in E.
  rewrite E by (rewrite length_drop; lia). cbn [mbind option_bind]. rewrite Z.eqb_refl. cbn [negb].
  unfold histogram. rewrite <- register_count_Z, Nat2Z.id. done.
Qed.

Lemma reghisto_spec s f :
  rep s f -> known_encoding s = true /\ hll_reghisto s = Some (false, histogram f).
Proof.
  intros Hs. unfold known_encoding, hll_reghisto.
  destruct (rep_regs s f Hs) as [He _ _|ops He _ _ _ _|He _ _]; rewrite He.
  - change (HLL_DENSE =? HLL_DENSE) with true. cbv beta iota.
    rewrite (dense_reghisto_spec s f Hs He). split; reflexivity.
  - change (HLL_SPARSE =? HLL_DENSE) with false. change (HLL_SPARSE =? HLL_SPARSE) with true.
    cbv beta iota. rewrite (sparse_reghisto_spec s f Hs He). split; reflexivity.
  - change (HLL_RAW =? HLL_DENSE) with false. change (HLL_RAW =? HLL_SPARSE) with false.
    cbv beta iota. rewrite (row_reghisto_spec s f Hs He). split; reflexivity.
Qed.

(** ** Objects over hash values *)

(** Several calls of [hll_add]. *)
Fixpoint hll_adds (hs : list Z) (s : bytes) : option bytes :=
  match hs with
  | [] => Some s
  | h :: hs => '(_, s) ← hll_add s h; hll_adds hs s
  end.

(** The largest count of the hash values of a register. *)
Fixpoint regs (hs : list Z) (i : Z) : Z :=
  match hs with
  | [] => 0
  | h :: hs => if hash_index h =? i then Z.max (hash_count h) (regs hs i) else regs hs i
  end.

Lemma regs_nonneg hs i : 0 <= regs hs i.
Proof. induction hs as [|h hs IH]; cbn [regs]; [lia|]. case_match; lia. Qed.

Lemma regs_ge hs h : h ∈ hs -> hash_count h <= regs hs (hash_index h).
Proof.
  induction 1 as [h hs|h h' hs _ IH]; cbn [regs].
  - rewrite Z.eqb_refl. lia.
  - case_match; lia.
Qed.

Lemma regs_le hs i m :
  0 <= m -> (forall h, h ∈ hs -> hash_index h = i -> hash_count h <= m) -> regs hs i <= m.
Proof.
  intros Hm. induction hs as [|h hs IH]; cbn [regs]; intros Hle; [lia|].
  assert (regs hs i <= m) by (apply IH; intros h' Hh'; apply Hle; by right).
  destruct (Z.eqb_spec (hash_index h) i) as [E|]; [|done].
  specialize (Hle h ltac:(by left) E). lia.
Qed.

(** The registers depend on the set of hash values only. *)
Lemma regs_subset hs hs' i : (forall h, h ∈ hs -> h ∈ hs') -> regs hs i <= regs hs' i.
Proof.
  intros Hsub. apply regs_le; [apply regs_nonneg|]. intros h Hh <-. by apply regs_ge, Hsub.
Qed.

Lemma regs_app hs hs' i : regs (hs ++ hs') i = Z.max (regs hs i) (regs hs' i).
Proof.
  induction hs as [|h hs IH]; cbn [regs app].
  - pose proof (regs_nonneg hs' i). lia.
  - rewrite IH. case_match; lia.
Qed.

Lemma foldl_raise hs f i : 0 <= f i -> foldl raise f hs i = Z.max (f i) (regs hs i).
Proof.
  revert f; induction hs as [|h hs IH]; intros f Hf; cbn [foldl regs].
  - lia.
  - destruct (Z.eqb_spec (hash_index h) i) as [E|E].
    + rewrite IH; unfold raise; rewrite E, upd_eq; lia.
    + rewrite IH; unfold raise; rewrite upd_ne by done; lia.
Qed.

Lemma histogram_ext f g :
  (forall i, 0 <= i < HLL_REGISTERS -> f i = g i) -> histogram f = histogram g.
Proof.
  intros E. unfold histogram. pose proof register_count_Z as Hc.
  assert (H : forall n, (n <= register_count)%nat -> hist_of f n = hist_of g n).
  { induction n as [|n IH]; intros Hn; cbn [hist_of]; [done|]. rewrite IH, E by lia. done. }
  by apply H.
Qed.

Lemma sparse_init_zero : rep hll_sparse_init (fun _ => 0).
Proof. apply sparse_init_rep. Qed.

Lemma row_init_zero : rep hll_row_init (fun _ => 0) /\ encoding hll_row_init = HLL_RAW.
Proof.
  assert (Hs : hll_row_init = (magic ++ [HLL_RAW] ++ replicate 11 0) ++ replicate register_count 0)
    by reflexivity.
  assert (Hl : len hll_row_init = HLL_HDR_SIZE + HLL_REGISTERS).
  { rewrite Hs, len_app, len_replicate, register_count_Z. reflexivity. }
  split; [|reflexivity]. split.
  - rewrite Hs. apply Forall_app; split; [by apply bytes_ok_check|].
    apply Forall_replicate. unfold is_u. lia.
  - unfold HLL_REGISTERS in Hl. lia.
  - reflexivity.
  - intros i _. lia.
  - apply reg_raw; [reflexivity|done|]. intros i Hi. rewrite Hs, bat_app_r.
    + apply bat_replicate_zero.
    + change (len (magic ++ [HLL_RAW] ++ replicate 11 0)) with 16. unfold HLL_HDR_SIZE. lia.
Qed.

(** A new object, sparse or raw. *)
Definition fresh (s : bytes) : Prop := s = hll_sparse_init \/ s = hll_row_init.

Lemma fresh_zero s : fresh s -> rep s (fun _ => 0).
Proof. intros [->| ->]; [apply sparse_init_zero|apply row_init_zero]. Qed.

Section Cache.
Context `{Libm}.

(** A cached cardinality is the estimate of the registers. *)
Definition coherent (s : bytes) (f : Z -> Z) : Prop :=
  valid_cache s = true -> estimate_histogram (histogram f) = Some (cached_card s).

Lemma coherent_invalid s f : valid_cache s = false -> coherent s f.
Proof. intros E E'. congruence. Qed.

Lemma coherent_ext s f g :
  (forall i, 0 <= i < HLL_REGISTERS -> f i = g i) -> coherent s f -> coherent s g.
Proof. intros E C Hv. rewrite <- (histogram_ext f g E). auto. Qed.

Lemma empty_histogram : histogram (fun _ => 0) = 16384 :: replicate 63 0.
Proof.
  unfold histogram. rewrite <- (Nat.add_0_l register_count), <- (hist_run (fun _ => 0) 0) by (done || lia).
  rewrite register_count_Z. reflexivity.
Qed.

Lemma empty_estimate : estimate_histogram (16384 :: replicate 63 0) = Some 0.
Proof. vm_compute. reflexivity. Qed.

Lemma estimate_range reghisto c : estimate_histogram reghisto = Some c -> 0 <= c < 2 ^ 64.
Proof.
  unfold estimate_histogram. intros E.
  repeat match type of E with (_ ≫= _) = Some _ => apply bind_Some in E as (? & _ & E) end.
  cbv zeta in E.
  repeat match type of E with (_ ≫= _) = Some _ => apply bind_Some in E as (? & _ & E) end.
  destruct (_ && _) eqn:Eb; [|discriminate E]. injection E as <-.
  apply andb_true_iff in Eb as [H1%Z.leb_le H2%Z.ltb_lt]. lia.
Qed.

(** The estimate is not to be computed with from here on. *)
#[local] Opaque estimate_histogram histogram.

Lemma fresh_coherent s : fresh s -> coherent s (fun _ => 0).
Proof.
  intros Hs _. rewrite empty_histogram, empty_estimate.
  destruct Hs as [->| ->]; reflexivity.
Qed.

Lemma add_coherent s f h :
  rep s f -> coherent s f -> is_u 64 h ->
  exists r s', hll_add s h = Some (r, s') /\ 0 <= r /\ rep s' (raise f h) /\ coherent s' (raise f h).
Proof.
  intros Hs Hc Hh. destruct (hll_add_added s f h Hs Hh) as (r & s' & E & Hr & Hs' & Hor).
  exists r, s'. split_and!; [exact E|exact Hr|exact Hs'|]. destruct Hor as [->|Hv]; [|by apply coherent_invalid].
  apply (coherent_ext s f); [|exact Hc]. exact (rep_unique s f _ Hs Hs').
Qed.

Lemma adds_coherent hs s f :
  Forall (is_u 64) hs -> rep s f -> coherent s f ->
  exists s', hll_adds hs s = Some s' /\ rep s' (foldl raise f hs) /\ coherent s' (foldl raise f hs).
Proof.
  intros Hhs. revert s f; induction Hhs as [|h hs Hh _ IH]; intros s f Hs Hc; cbn [hll_adds foldl].
  - exists s. split_and!; [reflexivity|exact Hs|exact Hc].
  - destruct (add_coherent s f h Hs Hc Hh) as (r & s' & -> & _ & Hs' & Hc'). exact (IH s' _ Hs' Hc').
Qed.

(** *** The estimate *)

Lemma store_card_facts c s f :
  rep s f -> 0 <= c < 2 ^ 64 ->
  rep (store_card c s) f /\ cached_card (store_card c s) = c.
Proof.
  intros Hs Hc. pose proof (rep_hdr s f Hs) as Hh. unfold HLL_HDR_SIZE, len in Hh.
  assert (H8 : length (take 8 s) = 8%nat) by (rewrite length_take; lia).
  assert (Hsplit : s = take 8 s ++ take 8 (drop 8 s) ++ drop 16 s)
    by (change 16%nat with (8 + 8)%nat; rewrite <- drop_drop, take_drop, take_drop; done).
  split.
  - apply (rep_same_but_card s); [| |done].
    + pose proof (rep_bytes s f Hs). repeat (apply Forall_app; split).
      * by apply Forall_take.
      * apply le_split_ok.
      * by apply Forall_drop.
    + assert (Hlen : length (store_card c s) = length s).
      { unfold store_card. rewrite !length_app, H8, length_le_split, length_drop. lia. }
      split; [unfold len; by rewrite Hlen|]. unfold HLL_HDR_SIZE. intros q Hq.
      destruct (decide (0 <= q < len s)) as [Hin|Hout].
      2: { unfold byte_at, len in *. rewrite Hlen. case_match; [done|]. case_match; [|done].
           apply Z.eqb_neq in H0. apply Z.leb_le in H1. rewrite !lookup_ge_None_2 by lia. done. }
      rewrite !byte_at_lookup by (unfold len in *; lia). unfold store_card, len in *.
      destruct (decide (q < 8)).
      * rewrite lookup_app_l by lia. rewrite lookup_take_lt by lia. done.
      * rewrite lookup_app_r by lia. rewrite lookup_app_r by (rewrite length_le_split; lia).
        rewrite length_le_split, H8, lookup_drop. f_equal. lia.
  - unfold cached_card, store_card. rewrite <- H8 at 2. rewrite drop_app_length.
    rewrite take_app_length' by (symmetry; apply length_le_split). apply le_combine_split. exact Hc.
Qed.

(** Without a cached cardinality the histogram is made, whatever the encoding. *)
Lemma estimate_invalid s f :
  rep s f -> valid_cache s = false ->
  hll_estimate s = (c ← estimate_histogram (histogram f); Some (c, store_card c s)).
Proof.
  intros Hs Hv. unfold hll_estimate, hll_estimate_at. destruct (reghisto_spec s f Hs) as [Ek Eh].
  rewrite (rep_object s f Hs), (proj2 (Z.ltb_ge _ _)), Hv, Ek, Eh by apply (rep_hdr s f Hs).
  destruct (estimate_histogram (histogram f)) as [c|] eqn:Ec; cbv beta iota delta [negb mbind option_bind];
    rewrite Ec; reflexivity.
Qed.

Lemma estimate_valid s f :
  rep s f -> valid_cache s = true -> hll_estimate s = Some (cached_card s, s).
Proof.
  intros Hs Hv. unfold hll_estimate, hll_estimate_at. rewrite (rep_object s f Hs).
  rewrite (proj2 (Z.ltb_ge _ _)) by apply (rep_hdr s f Hs). rewrite Hv. reflexivity.
Qed.

(** A cached cardinality or not, the estimate is that of the registers. *)
Lemma estimate_spec s f :
  rep s f -> coherent s f -> fst <$> hll_estimate s = estimate_histogram (histogram f).
Proof.
  intros Hs Hc. destruct (valid_cache s) eqn:Ev.
  - rewrite (estimate_valid s f Hs Ev), (Hc Ev). reflexivity.
  - rewrite (estimate_invalid s f Hs Ev).
    destruct (estimate_histogram (histogram f)); reflexivity.
Qed.

(** The object keeps its registers and caches the estimate. *)
Lemma estimate_keeps s f c s' :
  rep s f -> coherent s f -> hll_estimate s = Some (c, s') -> rep s' f /\ coherent s' f.
Proof.
  intros Hs Hc E. destruct (valid_cache s) eqn:Ev.
  - rewrite (estimate_valid s f Hs Ev) in E. injection E as _ <-. split; [exact Hs|exact Hc].
  - rewrite (estimate_invalid s f Hs Ev) in E. apply bind_Some in E as (c' & Ec & E).
    injection E as -> <-. destruct (store_card_facts c s f Hs (estimate_range _ _ Ec)) as [Hs' Hcc].
    split; [exact Hs'|]. intros _. rewrite Hcc. exact Ec.
Qed.

(** Objects with the same registers have the same estimate. *)
Lemma estimate_same s f t g :
  rep s f -> coherent s f -> rep t g -> coherent t g ->
  (forall i, 0 <= i < HLL_REGISTERS -> f i = g i) ->
  fst <$> hll_estimate s = fst <$> hll_estimate t.
Proof.
  intros Hs Hcs Ht Hct E. rewrite (estimate_spec s f Hs Hcs), (estimate_spec t g Ht Hct).
  rewrite (histogram_ext f g E). reflexivity.
Qed.

End Cache.

(** ** Encodings that stay *)

Lemma row_add_raw s f h r s' :
  rep s f -> encoding s = HLL_RAW -> is_u 64 h -> hll_add s h = Some (r, s') ->
  encoding s' = HLL_RAW.
Proof.
  intros Hs He Hh. unfold hll_add. rewrite (rep_object s f Hs), He.
  cbn [Z.eqb Pos.eqb HLL_DENSE HLL_SPARSE HLL_RAW]. unfold hll_row_add.
  rewrite (surjective_pairing (hll_pat_len h)). fold (hash_index h) (hash_count h).
  pose proof (hash_index_range h Hh) as Hi. destruct (pat_len_spec h Hh) as (_ & Hc & _).
  destruct (raw_max_spec s f _ (hash_count h) Hs He Hi ltac:(lia)) as (t & -> & Ht & Et & _ & _).
  cbn [mbind option_bind]. case_match.
  - rewrite invalidate_stale by apply (rep_hdr _ _ Ht). cbn [mbind option_bind].
    intros [= _ <-]. by rewrite stale_encoding by apply (rep_hdr _ _ Ht).
  - cbn [mbind option_bind]. by intros [= _ <-].
Qed.

Lemma adds_spec hs s f :
  Forall (is_u 64) hs -> rep s f ->
  exists t, hll_adds hs s = Some t /\ rep t (foldl raise f hs)
    /\ (encoding s = HLL_RAW -> encoding t = HLL_RAW).
Proof.
  intros Hhs. revert s f; induction Hhs as [|h hs Hh _ IH]; intros s f Hs; cbn [hll_adds foldl].
  - by exists s.
  - destruct (hll_add_added s f h Hs Hh) as (r & s' & E & _ & Hs' & _). rewrite E.
    cbn [mbind option_bind]. destruct (IH s' _ Hs') as (t & Et & Ht & Hraw).
    exists t. split_and!; [done|done|]. intros He. by apply Hraw, (row_add_raw s f h r s').
Qed.

Lemma fresh_regs hs i : foldl raise (fun _ => 0) hs i = regs hs i.
Proof. rewrite foldl_raise by done. pose proof (regs_nonneg hs i). lia. Qed.

Lemma rep_regs_of hs t : rep t (foldl raise (fun _ => 0) hs) -> rep t (regs hs).
Proof. apply rep_ext. intros i _. apply fresh_regs. Qed.

Lemma fmax_regs hs hs' t : rep t (fmax (regs hs) (regs hs')) -> rep t (regs (hs ++ hs')).
Proof. apply rep_ext. intros i _. unfold fmax. by rewrite regs_app. Qed.

(** ** Theorems *)

(** C17. Adding hash values to a new object, sparse or raw, never reads or writes outside the
    string and leaves in every register the largest count of the hash values of that
    register, through all the re-encodings on the way: runs that are split and joined, and
    the promotion to packed registers. *)
Theorem hll_registers (hs : list Z) (s : bytes) :
  Forall (is_u 64) hs -> fresh s -> exists t, hll_adds hs s = Some t /\ rep t (regs hs).
Proof.
  intros Hhs Hs. destruct (adds_spec hs s _ Hhs (fresh_zero s Hs)) as (t & E & Ht & _).
  exists t. split; [done|by apply rep_regs_of].
Qed.

(** C27. The estimate of an object depends on the set of hash values only: two lists with the
    same elements, in any order and with any repetitions, added to a sparse or to a raw
    object, give the same estimate, whether it is computed from packed, run-length coded or
    raw registers or taken from the cache. *)
Theorem hll_estimate_of_set `{Libm} (hs hs' : list Z) (s s' : bytes) :
  Forall (is_u 64) hs -> Forall (is_u 64) hs' -> (forall h, h ∈ hs <-> h ∈ hs') ->
  fresh s -> fresh s' ->
  exists t t', hll_adds hs s = Some t /\ hll_adds hs' s' = Some t'
    /\ fst <$> hll_estimate t = fst <$> hll_estimate t'.
Proof.
  intros Hhs Hhs' Hsame Hs Hs'.
  destruct (adds_coherent hs s _ Hhs (fresh_zero s Hs) (fresh_coherent s Hs)) as (t & E & Ht & Ct).
  destruct (adds_coherent hs' s' _ Hhs' (fresh_zero s' Hs') (fresh_coherent s' Hs')) as (t' & E' & Ht' & Ct').
  exists t, t'. split_and!; [exact E|exact E'|]. eapply estimate_same; [exact Ht|exact Ct|exact Ht'|exact Ct'|].
  intros i _. rewrite !fresh_regs. apply Z.le_antisymm; apply regs_subset; intros h; apply Hsame.
Qed.

(** Merging partial aggregates: the object of one list of hash values merged into the raw
    object of another one has the estimate of a single object that all of them were added
    to. *)
Theorem hll_merge_agg_union `{Libm} (hs hs' : list Z) (s s0 : bytes) :
  Forall (is_u 64) hs -> Forall (is_u 64) hs' -> fresh s -> fresh s0 ->
  exists t t' u v, hll_adds hs hll_row_init = Some t /\ hll_adds hs' s = Some t'
    /\ hll_merge_agg t t' = Some (0, u) /\ hll_adds (hs ++ hs') s0 = Some v
    /\ rep u (regs (hs ++ hs')) /\ fst <$> hll_estimate u = fst <$> hll_estimate v.
Proof.
  intros Hhs Hhs' Hs Hs0. destruct row_init_zero as [Hrow Eraw].
  destruct (adds_spec hs hll_row_init _ Hhs Hrow) as (t & Et & Ht & Hraw).
  destruct (adds_spec hs' s _ Hhs' (fresh_zero s Hs)) as (t' & Et' & Ht' & _).
  apply rep_regs_of in Ht, Ht'.
  destruct (merge_agg_raw t _ t' _ Ht (Hraw Eraw) Ht') as (u & Eu & Hu & _ & Hv).
  apply fmax_regs in Hu.
  destruct (adds_coherent (hs ++ hs') s0 _ ltac:(by apply Forall_app) (fresh_zero s0 Hs0) (fresh_coherent s0 Hs0))
    as (v & Ev & Hv' & Cv).
  exists t, t', u, v. split_and!; [exact Et|exact Et'|exact Eu|exact Ev|exact Hu|].
  eapply estimate_same; [exact Hu|by apply coherent_invalid|exact Hv'|exact Cv|].
  intros i _. by rewrite fresh_regs.
Qed.

(** [hll_merge] of two raw objects, as the aggregates make them, returns success and drops
    the second one: its loop over the registers has no case for a raw first object. *)
Theorem hll_merge_raw_lost (hs hs' : list Z) :
  Forall (is_u 64) hs -> Forall (is_u 64) hs' ->
  exists t t' u, hll_adds hs hll_row_init = Some t /\ hll_adds hs' hll_row_init = Some t'
    /\ hll_merge t t' = Some (0, u) /\ rep u (regs hs).
Proof.
  intros Hhs Hhs'. destruct row_init_zero as [Hrow Eraw].
  destruct (adds_spec hs hll_row_init _ Hhs Hrow) as (t & Et & Ht & Hraw).
  destruct (adds_spec hs' hll_row_init _ Hhs' Hrow) as (t' & Et' & Ht' & Hraw').
  apply rep_regs_of in Ht, Ht'. exists t, t', (stale t). split_and!; [exact Et|exact Et'| |].
  - apply (hll_merge_into_raw t _ t' _ Ht Ht' (Hraw Eraw)). by rewrite (Hraw' Eraw).
  - by apply rep_stale.
Qed.

(** Without a raw first object [hll_merge] takes the larger registers. *)
Theorem hll_merge_union (hs hs' : list Z) (t t' : bytes) :
  rep t (regs hs) -> rep t' (regs hs') -> merges t t' ->
  exists u, hll_merge t t' = Some (0, u) /\ rep u (regs (hs ++ hs')).
Proof.
  intros Ht Ht' Hm. destruct (hll_merge_spec t _ t' _ Ht Ht' Hm) as (u & E & Hu & _).
  exists u. split; [done|by apply fmax_regs].
Qed.

Lemma same_card_cached s t :
  HLL_HDR_SIZE <= len s -> HLL_HDR_SIZE <= len t -> same_card s t -> cached_card t = cached_card s.
Proof.
  unfold HLL_HDR_SIZE, len. intros Hs Ht Hc. unfold cached_card. f_equal. apply list_eq; intros i.
  destruct (decide (i < 8)%nat) as [Hi|Hi]; [|by rewrite !lookup_take_ge by lia].
  rewrite !lookup_take_lt, !lookup_drop by done.
  specialize (Hc (Z.of_nat (8 + i)) ltac:(unfold HLL_HDR_SIZE; lia)).
  rewrite !byte_at_lookup, !Nat2Z.id in Hc by (unfold len; lia). done.
Qed.

(** Re-encoding keeps the object: turning a raw object into a sparse one, which may end
    as a dense one, and turning any object into a dense one leave its registers and its
    estimate as they were. *)
Theorem hll_reencode `{Libm} (s : bytes) (f : Z -> Z) :
  rep s f -> coherent s f ->
  exists d e, hll_sparse_to_dense s = Some (0, d) /\ rep d f /\ encoding d = HLL_DENSE
    /\ hll_raw_to_sparse s = Some (0, e) /\ rep e f /\ encoding e <> HLL_RAW
    /\ fst <$> hll_estimate d = fst <$> hll_estimate s
    /\ fst <$> hll_estimate e = fst <$> hll_estimate s.
Proof.
  intros Hs Cs. destruct (sparse_to_dense_spec s f Hs) as (d & Ed & Hd & Hed & Hcard).
  pose proof (rep_hdr _ _ Hs) as Hls. pose proof (rep_hdr _ _ Hd) as Hld.
  assert (Cd : coherent d f).
  { intros Hv. rewrite (same_card_cached s d Hls Hld Hcard). apply Cs.
    by rewrite <- (same_card_valid s d Hls Hld Hcard). }
  assert (He : exists e, hll_raw_to_sparse s = Some (0, e) /\ rep e f /\ encoding e <> HLL_RAW /\ coherent e f).
  { destruct (decide (encoding s = HLL_RAW)) as [Er|Er].
    - destruct (raw_to_sparse_spec s f Hs Er) as (e & Ee & He & Hne & Hor). exists e.
      split_and!; [exact Ee|exact He|exact Hne|]. destruct Hor as [Hv|[-> Hz]]; [by apply coherent_invalid|].
      apply (coherent_ext _ (fun _ => 0)); [by intros i Hi; rewrite Hz|]. apply fresh_coherent. by left.
    - exists s. split_and!; [|exact Hs|exact Er|exact Cs]. unfold hll_raw_to_sparse.
      rewrite (proj2 (Z.ltb_ge _ _)) by done. by rewrite (proj2 (Z.eqb_neq _ _)). }
  destruct He as (e & Ee & He & Hne & Ce). exists d, e.
  split_and!; [exact Ed|exact Hd|exact Hed|exact Ee|exact He|exact Hne|..];
    (eapply estimate_same; [eassumption|eassumption|eassumption|eassumption|done]).
Qed.

(** ** A raw object merged into a dense one *)

Lemma for_loop_none {A} (P : A -> Prop) (step : Z -> A -> option A) n i k0 a :
  (forall k a a', P a -> step k a = Some a' -> P a') -> (forall a, P a -> step k0 a = None) ->
  i <= k0 < i + Z.of_nat n -> P a -> for_loop n i step a = None.
Proof.
  intros Hkeep Hnone. revert i a; induction n as [|n IH]; intros i a Hk Ha; [lia|]. cbn [for_loop].
  destruct (decide (i = k0)) as [->|Hne]; [by rewrite Hnone|].
  destruct (step i a) as [a'|] eqn:E; [|done]. cbn [mbind option_bind].
  apply IH; [lia|]. by apply (Hkeep i a).
Qed.

(** [hll_merge_agg] reads the packed registers as if they had a byte each and leaves the
    string. *)
Lemma merge_agg_raw_into_dense s1 f s2 g :
  rep s1 f -> encoding s1 = HLL_DENSE -> rep s2 g -> encoding s2 = HLL_RAW ->
  hll_merge_agg s1 s2 = None.
Proof.
  intros H1 He1 H2 He2. destruct (rep_dense s1 f H1 He1) as [[_ Hl] _]. rewrite dense_size in Hl.
  destruct (rep_raw s2 g H2 He2) as [_ Hby].
  assert (E : for_registers (fun i h =>
            val ← byte_at s2 (HLL_HDR_SIZE + i); snd <$> raw_max h i val) s1 = None).
  { apply (for_loop_none (fun h => len h = 12304) _ register_count 0 12289).
    - intros k h h' Hh E. apply bind_Some in E as (v & _ & E). apply fmap_Some in E as ([b t] & E & ->).
      unfold raw_max in E. apply bind_Some in E as (old & _ & E). case_match.
      + apply bind_Some in E as (t' & E & [= _ <-]). apply len_put_byte in E. cbn [snd]. lia.
      + by injection E as _ <-.
    - intros h Hh. rewrite Hby by (unfold HLL_REGISTERS; lia). cbn [mbind option_bind].
      unfold raw_max, byte_at. rewrite Hh, lookup_ge_None_2; [done|].
      unfold len in Hh. unfold HLL_HDR_SIZE. lia.
    - rewrite register_count_Z. unfold HLL_REGISTERS. lia.
    - exact Hl. }
  unfold hll_merge_agg, hll_sparse_to_dense.
  rewrite (rep_object s1 f H1), (rep_object s2 g H2), He1, He2, (proj2 (Z.ltb_ge _ _))
    by apply (rep_hdr s1 f H1).
  change (HLL_DENSE =? HLL_RAW) with false. change (HLL_DENSE =? HLL_DENSE) with true.
  change (HLL_RAW =? HLL_DENSE) with false. change (HLL_RAW =? HLL_RAW) with true.
  cbv beta iota delta [negb orb mbind option_bind] zeta. change (0 <? 0) with false. cbv beta iota.
  unfold mbind, option_bind in E. by rewrite E.
Qed.

(** * HyperLogLog examples

    The SQL functions on values count sets of hash values, and inputs that the theorems
    apply to. *)

(** ** Functions *)

Section Functions.
Context `{Host, RoaringLib, Murmur, Libm}.

(** The hash values that a list of values adds. *)
Definition hashes (input : list ExprValue) : list Z :=
  hash_of <$> filter (fun v => is_null v = false) input.

Lemma add_values_adds input hll f t :
  rep (str_val hll) f -> Forall (is_u 64) (hashes input) ->
  hll_adds (hashes input) (str_val hll) = Some t ->
  add_values hll input = Some (set_str t hll).
Proof.
  revert hll f; induction input as [|v input IH]; intros hll f Hr Hu E; cbn [add_values].
  - cbn in E. injection E as <-. by destruct hll.
  - unfold hashes in E, Hu. rewrite filter_cons in E, Hu.
    destruct (decide (is_null v = false)) as [En|En]; cbn [fmap list_fmap] in E, Hu.
    + rewrite En. cbn [negb]. unfold value_hll_add. rewrite (rep_object _ _ Hr).
      cbn [hll_adds] in E. apply Forall_cons in Hu as [Hv Hu].
      destruct (hll_add_added _ f _ Hr Hv) as (r & s & Ea & _ & Hs & _).
      rewrite Ea in E |- *. cbn [mbind option_bind] in E |- *.
      rewrite (IH (set_str s hll) _ Hs Hu E). by destruct hll.
    + apply not_false_is_true in En. rewrite En. cbn [negb mbind option_bind]. by apply (IH hll f).
Qed.

(** Counting distinct values: the estimate of [hll_init(...)] is that of the set of hash
    values of the arguments that are not null. *)
Lemma hll_init_of_set input input' :
  input <> [] -> input' <> [] -> Forall (is_u 64) (hashes input) -> Forall (is_u 64) (hashes input') ->
  (forall h, h ∈ hashes input <-> h ∈ hashes input') ->
  exists a b, fn_hll_init input = Some a /\ fn_hll_init input' = Some b
    /\ fn_hll_estimate [a] = fn_hll_estimate [b].
Proof.
  intros Hn Hn' Hu Hu' Hset.
  destruct (adds_coherent _ _ _ Hu sparse_init_zero (fresh_coherent _ ltac:(by left))) as (t & E & Ht & Ct).
  destruct (adds_coherent _ _ _ Hu' sparse_init_zero (fresh_coherent _ ltac:(by left))) as (t' & E' & Ht' & Ct').
  exists (set_str t hll_init), (set_str t' hll_init). split_and!.
  - unfold fn_hll_init. destruct input as [|v input]; [destruct Hn; reflexivity|].
    apply (add_values_adds _ hll_init (fun _ => 0)); [exact sparse_init_zero|exact Hu|exact E].
  - unfold fn_hll_init. destruct input' as [|v input']; [destruct Hn'; reflexivity|].
    apply (add_values_adds _ hll_init (fun _ => 0)); [exact sparse_init_zero|exact Hu'|exact E'].
  - assert (Hsame : fst <$> hll_estimate t = fst <$> hll_estimate t').
    { eapply estimate_same; [exact Ht|exact Ct|exact Ht'|exact Ct'|]. intros i _.
      rewrite !fresh_regs. apply Z.le_antisymm; apply regs_subset; intros h; apply Hset. }
    unfold hll_estimate in Hsame. rewrite (rep_object _ _ Ht), (rep_object _ _ Ht') in Hsame.
    unfold fn_hll_estimate, value_hll_estimate. cbn [str_val set_str].
    rewrite (rep_object _ _ Ht), (rep_object _ _ Ht').
    change (is_null (set_str t hll_init)) with false. change (is_null (set_str t' hll_init)) with false.
    destruct (hll_estimate_at t) as [[[c i] u]|], (hll_estimate_at t') as [[[c' i'] u']|];
      cbn [mbind option_bind fmap option_fmap option_map fst] in *;
      [injection Hsame as ->; reflexivity|discriminate Hsame|discriminate Hsame|reflexivity].
Qed.

End Functions.

(** ** Examples *)

(** A C library whose square root and square are rounded correctly. *)
Definition exact_sqrt (x : Z) : Z :=
  let scale := 2 ^ 120 in
  fp_make 64 52 false (Z.sqrt (fp_num 64 52 x * fp_den 64 52 x * scale * scale)) (fp_den 64 52 x * scale).

#[local] Instance exact_libm : Libm := {| libm_sqrt := exact_sqrt; libm_pow x _ := f64_mul x x; libm_log x := x |}.

(** Three hash values of different registers, one of them twice. *)
Definition three : list Z := [0x8005; 0x14009; 0x18001; 0x8005].

Example estimate_three :
  (t ← hll_adds three hll_sparse_init; fst <$> hll_estimate t) = Some 3.
Proof. vm_compute. reflexivity. Qed.

Lemma three_ok : Forall (is_u 64) three.
Proof. repeat (apply Forall_cons; split; [vm_compute; split; congruence|]). apply Forall_nil; exact I. Qed.

Lemma hll_registers_witness :
  exists t, hll_adds three hll_sparse_init = Some t /\ rep t (regs three).
Proof. apply hll_registers; [exact three_ok|left; reflexivity]. Defined.

Lemma three_perm h : h ∈ three <-> h ∈ [0x18001; 0x14009; 0x8005].
Proof. unfold three. rewrite !elem_of_cons. split; tauto. Qed.

Lemma three_perm_ok : Forall (is_u 64) [0x18001; 0x14009; 0x8005].
Proof. repeat (apply Forall_cons; split; [vm_compute; split; congruence|]). apply Forall_nil; exact I. Qed.

Lemma hll_estimate_of_set_witness :
  exists t t', hll_adds three hll_sparse_init = Some t
    /\ hll_adds [0x18001; 0x14009; 0x8005] hll_row_init = Some t'
    /\ fst <$> hll_estimate t = fst <$> hll_estimate t'.
Proof.
  apply hll_estimate_of_set;
    [exact three_ok|exact three_perm_ok|exact three_perm|left; reflexivity|right; reflexivity].
Defined.

Lemma hll_merge_agg_union_witness :
  exists t t' u v, hll_adds three hll_row_init = Some t /\ hll_adds [0x18001; 0x14009; 0x8005] hll_sparse_init = Some t'
    /\ hll_merge_agg t t' = Some (0, u) /\ hll_adds (three ++ [0x18001; 0x14009; 0x8005]) hll_sparse_init = Some v
    /\ rep u (regs (three ++ [0x18001; 0x14009; 0x8005])) /\ fst <$> hll_estimate u = fst <$> hll_estimate v.
Proof.
  apply hll_merge_agg_union; [exact three_ok|exact three_perm_ok|left; reflexivity|left; reflexivity].
Defined.

(** The empty raw object merged with one that has three registers set stays empty. *)
Lemma hll_merge_raw_lost_witness :
  exists t t' u, hll_adds [] hll_row_init = Some t /\ hll_adds three hll_row_init = Some t'
    /\ hll_merge t t' = Some (0, u) /\ rep u (regs []).
Proof. apply hll_merge_raw_lost; [apply Forall_nil; exact I|exact three_ok]. Defined.

Lemma hll_reencode_witness :
  exists d e, hll_sparse_to_dense hll_row_init = Some (0, d) /\ rep d (fun _ => 0) /\ encoding d = HLL_DENSE
    /\ hll_raw_to_sparse hll_row_init = Some (0, e) /\ rep e (fun _ => 0) /\ encoding e <> HLL_RAW
    /\ fst <$> hll_estimate d = fst <$> hll_estimate hll_row_init
    /\ fst <$> hll_estimate e = fst <$> hll_estimate hll_row_init.
Proof.
  apply hll_reencode; [apply row_init_zero|]. apply fresh_coherent. right. reflexivity.
Defined.
