(* ===== verification/TDigest.v ===== *)
(** * T-digests ([src/common/tdigest.cpp], the functions [tdigest_*] of
      [src/expr/internal_functions.cpp])

    A digest is a header of 40 bytes and an array of centroids in one string.  [None]
    marks an access outside the array, or a conversion without a result. *)

From S2P Require Import Prelude KeyEncoder FloatArith Stdio FloatText Calendar DateTime ExprValue.

(** [qsort]: of equal elements, and with an inconsistent comparison, any order. *)
Class Qsort := qsort : forall {A : Type}, (A -> A -> Z) -> list A -> list A.

Definition TD_2PI : Z := 0x401921fb54442d18.
Definition EPSILON : Z := 0x3e112e0be826d695.

(** A centroid: its mean and its count. *)
Record node := mk_node { mean : Z; count : Z }.

Definition no_node : node := mk_node 0 0.

(** [nodes]: the array as far as the buffer goes. *)
Record td_histogram := mk_td {
  cap : Z;
  compression : Z;
  merged_nodes : Z;
  unmerged_nodes : Z;
  merged_count : Z;
  unmerged_count : Z;
  nodes : list node
}.

Definition node_at (h : td_histogram) (i : Z) : option node :=
  if 0 <=? i then nodes h !! Z.to_nat i else None.

Definition set_nodes (l : list node) (h : td_histogram) : td_histogram :=
  mk_td (cap h) (compression h) (merged_nodes h) (unmerged_nodes h) (merged_count h)
    (unmerged_count h) l.

Definition set_node (i : Z) (n : node) (h : td_histogram) : option td_histogram :=
  if (0 <=? i) && (i <? Z.of_nat (length (nodes h)))
  then Some (set_nodes (<[Z.to_nat i := n]> (nodes h)) h) else None.

(** ** The buffer *)

Section Buffer.
Context `{Host}.

Definition node_bytes (n : node) : bytes := mem_store 8 (mean n) ++ mem_store 8 (count n).

(** The string as a histogram. *)
Fixpoint view_nodes (fuel : nat) (s : bytes) : list node :=
  match fuel with
  | O => []
  | S fuel =>
      match mem_load s 0 8, mem_load s 8 8 with
      | Some m, Some c => mk_node m c :: view_nodes fuel (drop 16 s)
      | _, _ => []
      end
  end.

Definition td_view (s : bytes) : option td_histogram :=
  cap ← mem_load s 4 4;
  compression ← mem_load s 8 8;
  merged_nodes ← mem_load s 16 4;
  unmerged_nodes ← mem_load s 20 4;
  merged_count ← mem_load s 24 8;
  unmerged_count ← mem_load s 32 8;
  Some (mk_td (i32 cap) compression (i32 merged_nodes) (i32 unmerged_nodes) merged_count
          unmerged_count (view_nodes (length s) (drop 40 s))).

(** The string after the histogram in it has changed. *)
Definition td_update (h : td_histogram) (s : bytes) : bytes :=
  let body := concat (node_bytes <$> nodes h) in
  take 4 s ++ mem_store 4 (u32 (cap h)) ++ mem_store 8 (compression h)
  ++ mem_store 4 (u32 (merged_nodes h)) ++ mem_store 4 (u32 (unmerged_nodes h))
  ++ mem_store 8 (merged_count h) ++ mem_store 8 (unmerged_count h)
  ++ body ++ drop (40 + length body) s.

(** [s.resize(n)]. *)
Definition resize (n : Z) (s : bytes) : bytes :=
  take (Z.to_nat n) s ++ replicate (Z.to_nat n - length s) 0.

End Buffer.

(** ** Sizes *)

Definition is_very_small (val : Z) : bool :=
  negb (fp_lt 64 52 EPSILON val || fp_lt 64 52 val (Z.lxor EPSILON (2 ^ 63))).

(** [(6 * (int)(compression)) + 10]. *)
Definition cap_from_compression (compression : Z) : option Z :=
  c ← fp_trunc 64 52 compression;
  if (- 2 ^ 31 <=? c) && (c <? 2 ^ 31) then Some (i32 (6 * c + 10)) else None.

Definition next_node (h : td_histogram) : Z := i32 (merged_nodes h + unmerged_nodes h).
Definition should_merge (h : td_histogram) : bool := next_node h =? cap h.

Definition td_required_buf_size (compression : Z) : option Z :=
  c ← cap_from_compression compression; Some (u64 (40 + u64 c * 16)).

Definition td_actual_size (h : td_histogram) : Z := u64 (40 + u64 (next_node h) * 16).

(** [td_reset] and [td_decay]. *)
Definition td_reset (h : td_histogram) : option td_histogram :=
  if (0 <=? cap h) && (cap h <=? Z.of_nat (length (nodes h))) then
    Some (mk_td (cap h) (compression h) 0 0 0 0
            (replicate (Z.to_nat (cap h)) no_node ++ drop (Z.to_nat (cap h)) (nodes h)))
  else None.

(** ** Merging centroids *)

Section Merge.
Context `{Qsort, Libm}.

Definition compare_nodes (n1 n2 : node) : Z :=
  if fp_lt 64 52 (mean n1) (mean n2) then -1
  else if fp_lt 64 52 (mean n2) (mean n1) then 1
  else 0.

(** One round of the loop of [merge]: the array, [cur] and [count_so_far]. *)
Definition merge_step (total_count normalizer : Z) (i : nat) (st : list node * nat * Z) :
    option (list node * nat * Z) :=
  let '(nodes, cur, count_so_far) := st in
  c ← nodes !! cur;
  n ← nodes !! i;
  let proposed_count := f64_add (count c) (count n) in
  let z := f64_mul proposed_count normalizer in
  let q0 := f64_div count_so_far total_count in
  let q2 := f64_div (f64_add count_so_far proposed_count) total_count in
  let should_add := f64_leb z (f64_mul q0 (f64_sub f64_one q0))
                    && f64_leb z (f64_mul q2 (f64_sub f64_one q2)) in
  let '(nodes, cur, count_so_far) :=
    if should_add then
      let delta := f64_sub (mean n) (mean c) in
      let weighted_delta := f64_div (f64_mul delta (count n)) proposed_count in
      (<[cur := mk_node (f64_add (mean c) weighted_delta) proposed_count]> nodes, cur, count_so_far)
    else (<[S cur := n]> nodes, S cur, f64_add count_so_far (count c)) in
  Some (if (cur =? i)%nat then nodes else <[i := no_node]> nodes, cur, count_so_far).

Fixpoint merge_loop (total_count normalizer : Z) (rest : list nat) (st : list node * nat * Z) :
    option (list node * nat * Z) :=
  match rest with
  | [] => Some st
  | i :: rest =>
      st ← merge_step total_count normalizer i st;
      merge_loop total_count normalizer rest st
  end.

Definition merge (h : td_histogram) : option td_histogram :=
  if unmerged_nodes h =? 0 then Some h
  else
    let N := next_node h in
    if (N <? 0) || (Z.of_nat (length (nodes h)) <? N) then None
    else
      let sorted := qsort compare_nodes (take (Z.to_nat N) (nodes h)) ++ drop (Z.to_nat N) (nodes h) in
      let total_count := f64_add (merged_count h) (unmerged_count h) in
      let denom := f64_mul (f64_mul TD_2PI total_count) (libm_log total_count) in
      let normalizer := f64_div (compression h) denom in
      '(nodes, cur, _) ← merge_loop total_count normalizer (seq 1 (Z.to_nat N - 1)) (sorted, 0%nat, 0);
      Some (mk_td (cap h) (compression h) (Z.of_nat cur + 1) 0 total_count 0 nodes).

Definition td_add (h : td_histogram) (val n : Z) : option td_histogram :=
  h ← (if should_merge h then merge h else Some h);
  h ← set_node (next_node h) (mk_node val n) h;
  Some (mk_td (cap h) (compression h) (merged_nodes h) (i32 (unmerged_nodes h + 1)) (merged_count h)
          (f64_add (unmerged_count h) n) (nodes h)).

Fixpoint td_add_nodes (l : list node) (h : td_histogram) : option td_histogram :=
  match l with
  | [] => Some h
  | n :: l => h ← td_add h (mean n) (count n); td_add_nodes l h
  end.

(** The first [n] centroids of the array. *)
Definition first_nodes (h : td_histogram) (n : Z) : option (list node) :=
  if Z.of_nat (length (nodes h)) <? n then None else Some (take (Z.to_nat n) (nodes h)).

(** [into] and [from] after the call. *)
Definition td_merge (into from : td_histogram) : option (td_histogram * td_histogram) :=
  into ← merge into;
  from ← merge from;
  l ← first_nodes from (merged_nodes from);
  into ← td_add_nodes l into;
  Some (into, from).

Definition td_decay (h : td_histogram) (factor : Z) : option td_histogram :=
  h ← merge h;
  l ← first_nodes h (merged_nodes h);
  Some (mk_td (cap h) (compression h) (merged_nodes h) (unmerged_nodes h)
          (f64_mul (merged_count h) factor) (f64_mul (unmerged_count h) factor)
          (((fun n => mk_node (mean n) (f64_mul (count n) factor)) <$> l)
           ++ drop (length l) (nodes h))).

Definition td_total_count (h : td_histogram) : Z := f64_add (merged_count h) (unmerged_count h).

Definition td_total_sum (h : td_histogram) : option Z :=
  l ← first_nodes h (next_node h);
  Some (foldl (fun sum n => f64_add sum (f64_mul (mean n) (count n))) 0 l).

(** ** Quantiles *)

(** The first centroid that satisfies a condition on [k] and itself, with the sum [k] of the
    counts before it and its index; at the end the last one and the number of centroids. *)
Fixpoint scan (stop : Z -> node -> bool) (l : list node) (i k : Z) (last : node) : node * Z * Z :=
  match l with
  | [] => (last, i, k)
  | n :: l => if stop k n then (n, i, k) else scan stop l (i + 1) (f64_add k (count n)) n
  end.

Definition half (x : Z) : Z := f64_div x (f64_of_Z 2).

Fixpoint same_mean (m : Z) (l : list node) (acc : Z) : Z :=
  match l with
  | [] => acc
  | n :: l => if f64_eqb (mean n) m then same_mean m l (f64_add acc (count n)) else acc
  end.

(** The position of a value on the line between two centroids. *)
Definition slope (nl nr : node) : Z :=
  f64_div (f64_sub (mean nr) (mean nl)) (f64_add (half (count nl)) (half (count nr))).

Definition td_quantile_of (h : td_histogram) (val : Z) : option (Z * td_histogram) :=
  h ← merge h;
  if merged_nodes h =? 0 then Some (f64_nan, h)
  else
    l ← first_nodes h (merged_nodes h);
    let '(n, i, k) := scan (fun _ n => f64_leb val (mean n)) l 0 0 no_node in
    if fp_lt 64 52 (f64_abs (f64_sub val (mean n))) EPSILON then
      let count_at_value := same_mean (mean n) (drop (Z.to_nat (i + 1)) l) (count n) in
      Some (f64_div (f64_add k (half count_at_value)) (merged_count h), h)
    else if fp_lt 64 52 (mean n) val then Some (f64_one, h)
    else if i =? 0 then Some (0, h)
    else
      (* [n] is the last centroid when the loop ran to the end *)
      nl ← node_at h (Z.min i (merged_nodes h - 1) - 1);
      let k := f64_sub k (half (count nl)) in
      let x := f64_div (f64_sub val (mean nl)) (slope nl n) in
      Some (f64_div (f64_add k x) (merged_count h), h).

Definition td_value_at (h : td_histogram) (q : Z) : option (Z * td_histogram) :=
  h ← merge h;
  if fp_lt 64 52 q 0 || fp_lt 64 52 f64_one q || (merged_nodes h =? 0) then Some (f64_nan, h)
  else
    l ← first_nodes h (merged_nodes h);
    let goal := f64_mul q (merged_count h) in
    let '(n, i, k) := scan (fun k n => fp_lt 64 52 goal (f64_add k (count n))) l 0 0 no_node in
    let delta_k := f64_sub (f64_sub goal k) (half (count n)) in
    if is_very_small delta_k then Some (mean n, h)
    else
      let right := fp_lt 64 52 0 delta_k in
      if (right && (i + 1 =? merged_nodes h)) || (negb right && (i =? 0)) then Some (mean n, h)
      else
        '(nl, nr, k) ←
          (if right then nr ← node_at h (i + 1); Some (n, nr, f64_add k (half (count n)))
           else nl ← node_at h (i - 1); Some (nl, n, f64_sub k (half (count nl))));
        Some (f64_add (f64_mul (slope nl nr) (f64_sub goal k)) (mean nl), h).

(** The loop of [td_trimmed_mean]. *)
Fixpoint trimmed (lo hi : Z) (l : list node) (prev : option node) (seen sum : Z) : Z :=
  match l with
  | [] => sum
  | n :: l =>
      let seen := match prev with Some p => f64_add seen (count p) | None => seen end in
      if fp_lt 64 52 (count n) lo then trimmed lo hi l (Some n) seen sum
      else if fp_lt 64 52 hi seen then sum
      else
        let left := if fp_lt 64 52 seen lo then lo else seen in
        let right := f64_add seen (count n) in
        let right := if fp_lt 64 52 hi right then hi else right in
        trimmed lo hi l (Some n) seen (f64_add sum (f64_mul (mean n) (f64_sub right left)))
  end.

Definition td_trimmed_mean (h : td_histogram) (lo hi : Z) : option (Z * td_histogram) :=
  h ← merge h;
  l ← first_nodes h (merged_nodes h);
  let total_count := merged_count h in
  let sum := trimmed (f64_mul lo total_count) (f64_mul hi total_count) l None 0 0 in
  Some (f64_div sum (f64_mul total_count (f64_sub hi lo)), h).

End Merge.

(** ** Digests as strings *)

Section Strings.
Context `{Host, RoaringLib, Qsort, Libm}.

Definition td_serialize (td : bytes) : option bytes :=
  b ← is_td_object td;
  if negb b then Some td
  else
    h ← td_view td;
    h ← merge h;
    Some (resize (td_actual_size h) (td_update h td)).

Definition td_normallize (td : bytes) : option bytes :=
  b ← is_td_object td;
  if negb b then Some td
  else
    h ← td_view td;
    n ← td_required_buf_size (compression h);
    Some (resize n td).

(** [td_add] and [td_merge] on the buffers. *)
Definition td_add_string (td : bytes) (val n : Z) : option bytes :=
  h ← td_view td; h ← td_add h val n; Some (td_update h td).

Definition td_merge_string (into from : bytes) : option bytes :=
  a ← td_view into; b ← td_view from; '(a, _) ← td_merge a b; Some (td_update a into).

(** *** The SQL functions *)

Definition is_tdigest (v : ExprValue) : bool := type_eqb (type v) TDIGEST.
Definition Null : ExprValue := new_ExprValue NULL_TYPE.
Definition double_value (x : Z) : ExprValue := u_write 8 x (new_ExprValue DOUBLE).

Fixpoint add_numbers (td : bytes) (input : list ExprValue) : option bytes :=
  match input with
  | [] => Some td
  | v :: input =>
      x ← get_numberic TDouble v;
      td ← td_add_string td x f64_one;
      add_numbers td input
  end.

Fixpoint merge_digests (td : bytes) (input : list ExprValue) : option bytes :=
  match input with
  | [] => Some td
  | v :: input =>
      ok ← (if is_tdigest v then is_td_object (str_val v) else Some false);
      td ← (if ok : bool then td_merge_string td (str_val v) else Some td);
      merge_digests td input
  end.

Definition tdigest_build (input : list ExprValue) : option ExprValue :=
  match input with
  | [] => Some Null
  | _ =>
      let result := new_ExprValue TDIGEST in
      td ← add_numbers (str_val result) input;
      td ← td_serialize td;
      Some (set_str td result)
  end.

(** What [tdigest_add] and [tdigest_merge] do with their first argument. *)
Definition digest_argument (v : ExprValue) : option ExprValue :=
  if is_null v then Some (new_ExprValue TDIGEST)
  else if negb (is_tdigest v) then None
  else Some v.

Definition tdigest_add (input : list ExprValue) : option ExprValue :=
  match input with
  | [] => Some Null
  | v :: rest =>
      match digest_argument v with
      | None => Some Null
      | Some result =>
          td ← td_normallize (str_val result);
          td ← add_numbers td rest;
          td ← td_serialize td;
          Some (set_str td result)
      end
  end.

Definition tdigest_merge (input : list ExprValue) : option ExprValue :=
  match input with
  | [] => Some Null
  | v :: rest =>
      match digest_argument v with
      | None => Some Null
      | Some result =>
          td ← td_normallize (str_val result);
          td ← merge_digests td rest;
          td ← td_serialize td;
          Some (set_str td result)
      end
  end.

Definition tdigest_total_sum (input : list ExprValue) : option ExprValue :=
  match input with
  | [v] =>
      if negb (is_tdigest v) then Some Null
      else h ← td_view (str_val v); x ← td_total_sum h; Some (double_value x)
  | _ => Some Null
  end.

Definition tdigest_total_count (input : list ExprValue) : option ExprValue :=
  match input with
  | [v] =>
      if negb (is_tdigest v) then Some Null
      else h ← td_view (str_val v); Some (double_value (td_total_count h))
  | _ => Some Null
  end.

Definition tdigest_percentile (input : list ExprValue) : option ExprValue :=
  match input with
  | [v; p] =>
      if negb (is_tdigest v) then Some Null
      else
        q ← get_numberic TDouble p;
        if fp_lt 64 52 f64_one q || fp_lt 64 52 q 0 then Some Null
        else h ← td_view (str_val v); '(x, _) ← td_value_at h q; Some (double_value x)
  | _ => Some Null
  end.

Definition tdigest_location (input : list ExprValue) : option ExprValue :=
  match input with
  | [v; p] =>
      if negb (is_tdigest v) then Some Null
      else
        x ← get_numberic TDouble p;
        h ← td_view (str_val v); '(q, _) ← td_quantile_of h x; Some (double_value q)
  | _ => Some Null
  end.

End Strings.
