(* ===== verification/TDigestFacts.v ===== *)
(** * What digests keep

    The array of centroids is never left while the capacity is that of the buffer and a
    merge makes room, and the total count is the number of values. *)

From S2P Require Import Prelude KeyEncoder FloatArith FloatExact Stdio FloatText Calendar DateTime ExprValue ExprValueFacts TDigest.

Class QsortLaws `{Qsort} : Prop := {
  qsort_perm {A} (cmp : A -> A -> Z) l : qsort cmp l ≡ₚ l
}.

(** The capacity is the size of the array, and the centroids in use fit. *)
Record td_ok (h : td_histogram) : Prop := {
  ok_merged : 0 <= merged_nodes h;
  ok_unmerged : 0 <= unmerged_nodes h;
  ok_used : merged_nodes h + unmerged_nodes h <= cap h;
  ok_cap : cap h = Z.of_nat (length (nodes h));
  ok_int : cap h < 2 ^ 31
}.

(** The counts are the doubles of two integers. *)
Definition counts (h : td_histogram) (n : Z) : Prop :=
  exists a b, 0 <= a /\ 0 <= b /\ a + b = n /\ merged_count h = f64_of_Z a /\ unmerged_count h = f64_of_Z b.

Lemma next_node_ok h : td_ok h -> next_node h = merged_nodes h + unmerged_nodes h.
Proof. intros []. apply (swrap_id 32); [lia|]. unfold is_i. lia. Qed.

Lemma counts_total h n : counts h n -> 0 <= n < 2 ^ 53 -> td_total_count h = f64_of_Z n.
Proof.
  intros (a & b & Ha & Hb & E & Em & Eu) Hn. unfold td_total_count, f64_add. rewrite Em, Eu.
  rewrite f64_add_of_Z by lia. by rewrite E.
Qed.

Section Merge.
Context `{QsortLaws, Libm}.

Lemma merge_step_ok total norm i l cur so :
  (cur < i)%nat -> (i < length l)%nat ->
  exists l' cur' so', merge_step total norm i (l, cur, so) = Some (l', cur', so')
    /\ length l' = length l /\ (cur' < S i)%nat.
Proof.
  intros Hc Hi. unfold merge_step.
  destruct (lookup_lt_is_Some_2 l cur) as [c ->]; [lia|].
  destruct (lookup_lt_is_Some_2 l i) as [n ->]; [lia|]. cbn [mbind option_bind].
  destruct (_ && _); (eexists _, _, _; split; [reflexivity|]); split;
    repeat case_match; rewrite ?length_insert; lia || done.
Qed.

Lemma merge_loop_ok total norm k i l cur so :
  (cur < i)%nat -> (i + k <= length l)%nat ->
  exists l' cur' so', merge_loop total norm (seq i k) (l, cur, so) = Some (l', cur', so')
    /\ length l' = length l /\ (cur' < i + k)%nat.
Proof.
  revert i l cur so; induction k as [|k IH]; intros i l cur so Hc Hl; cbn [seq merge_loop].
  - exists l, cur, so. split_and!; [done|done|lia].
  - destruct (merge_step_ok total norm i l cur so Hc ltac:(lia)) as (l' & cur' & so' & -> & Hl' & Hc').
    cbn [mbind option_bind]. destruct (IH (S i) l' cur' so') as (l2 & c2 & s2 & -> & Hl2 & Hc2); [lia|lia|].
    exists l2, c2, s2. split_and!; [done|lia|lia].
Qed.

(** A merge stays inside the array, leaves no more centroids than there were and keeps the
    count. *)
Lemma merge_ok h n :
  td_ok h -> counts h n -> 0 <= n < 2 ^ 53 ->
  exists h', merge h = Some h' /\ td_ok h' /\ counts h' n /\ unmerged_nodes h' = 0
    /\ cap h' = cap h /\ merged_nodes h' <= next_node h.
Proof.
  intros Hok Hn Hlt. pose proof (next_node_ok h Hok) as En. pose proof Hok as [O1 O2 O3 O4 O5].
  unfold merge. destruct (Z.eqb_spec (unmerged_nodes h) 0) as [E0|E0].
  { exists h. split_and!; try done. lia. }
  rewrite (proj2 (Z.ltb_ge (next_node h) 0)), (proj2 (Z.ltb_ge _ (next_node h))) by lia. cbn [orb].
  set (N := next_node h) in *. set (sorted := qsort _ _ ++ _).
  assert (Hl : length sorted = length (nodes h)).
  { unfold sorted. rewrite length_app, (Permutation_length (qsort_perm _ _)).
    rewrite <- length_app. by rewrite take_drop. }
  destruct (merge_loop_ok (f64_add (merged_count h) (unmerged_count h))
    (f64_div (compression h) (f64_mul (f64_mul TD_2PI (f64_add (merged_count h) (unmerged_count h)))
       (libm_log (f64_add (merged_count h) (unmerged_count h)))))
    (Z.to_nat N - 1) 1 sorted 0 0) as (l & cur & so & -> & Hl' & Hc); [lia|lia|].
  cbn [mbind option_bind]. eexists; split; [reflexivity|].
  assert (Ht : f64_add (merged_count h) (unmerged_count h) = f64_of_Z n) by exact (counts_total h n Hn Hlt).
  split_and!; cbn [unmerged_nodes cap merged_nodes]; try done; try lia.
  - split; cbn [merged_nodes unmerged_nodes cap nodes]; lia.
  - exists n, 0. cbn [merged_count unmerged_count]. rewrite Ht. split_and!; try done; lia.
Qed.

(** A new centroid behind those in use. *)
Definition push_node (h : td_histogram) (val n : Z) : td_histogram :=
  mk_td (cap h) (compression h) (merged_nodes h) (unmerged_nodes h + 1) (merged_count h)
    (f64_add (unmerged_count h) n) (<[Z.to_nat (next_node h) := mk_node val n]> (nodes h)).

Lemma push_node_ok h val n :
  td_ok h -> counts h n -> 0 <= n < 2 ^ 53 - 1 -> next_node h < cap h ->
  td_ok (push_node h val f64_one) /\ counts (push_node h val f64_one) (n + 1) /\
  td_total_count (push_node h val f64_one) = f64_of_Z (n + 1).
Proof.
  intros Hok Hn Hlt Hroom. pose proof (next_node_ok h Hok) as En. pose proof Hok as [O1 O2 O3 O4 O5].
  assert (C : counts (push_node h val f64_one) (n + 1)).
  { destruct Hn as (a & b & Ha & Hb & E & Em & Eu). exists a, (b + 1). unfold push_node.
    cbn [merged_count unmerged_count]. rewrite Em, Eu. split_and!; [done|lia|lia|done|].
    unfold f64_add. change f64_one with (f64_of_Z 1). apply f64_add_of_Z; lia. }
  split_and!; [|done|by apply counts_total; [|lia]].
  unfold push_node. split; cbn [merged_nodes unmerged_nodes cap nodes]; rewrite ?length_insert; lia.
Qed.

(** Writing the centroid of [td_add] after the merge it may do. *)
Lemma td_add_push h val g :
  (if should_merge h then merge h else Some h) = Some g -> td_ok g ->
  td_add h val f64_one = if next_node g <? cap g then Some (push_node g val f64_one) else None.
Proof.
  intros E Hg. unfold td_add. rewrite E. cbn [mbind option_bind]. pose proof (next_node_ok g Hg) as En.
  pose proof Hg as [O1 O2 O3 O4 O5]. unfold set_node. rewrite (proj2 (Z.leb_le 0 (next_node g))) by lia.
  cbn [andb]. replace (Z.of_nat (length (nodes g))) with (cap g) by lia.
  destruct (Z.ltb_spec (next_node g) (cap g)); [|done]. cbn [mbind option_bind set_nodes cap compression merged_nodes
    unmerged_nodes merged_count unmerged_count nodes]. by rewrite (swrap_id 32) by (unfold is_i; lia).
Qed.

(** [td_add] of one value.  With room in the array the centroid is put behind the others.  A full
    array is merged first, which keeps the count; when the merge frees a place the centroid
    goes there, and when it frees none the centroid is written behind the array.  Where it is
    written inside, the digest counts one value more. *)
Theorem td_add_counts (h : td_histogram) (val n : Z) :
  td_ok h -> counts h n -> 0 <= n < 2 ^ 53 - 1 ->
  exists g, (if next_node h =? cap h then merge h = Some g else g = h) /\ td_ok g /\ counts g n /\ cap g = cap h /\
    if next_node g <? cap h
    then td_add h val f64_one = Some (push_node g val f64_one) /\ td_ok (push_node g val f64_one) /\
         td_total_count (push_node g val f64_one) = f64_of_Z (n + 1)
    else td_add h val f64_one = None.
Proof.
  intros Hok Hn Hlt.
  assert (exists g, (if should_merge h then merge h else Some h) = Some g /\
    (if next_node h =? cap h then merge h = Some g else g = h) /\ td_ok g /\ counts g n /\ cap g = cap h)
    as (g & E & Hm & Hg & Cg & Ec).
  { unfold should_merge. destruct (next_node h =? cap h); [|by exists h].
    destruct (merge_ok h n Hok Hn ltac:(lia)) as (g & Eg & Hg & Cg & _ & Ec & _). by exists g. }
  exists g. split_and!; [done..|]. rewrite (td_add_push h val g E Hg), Ec.
  destruct (Z.ltb_spec (next_node g) (cap h)); [|done]. split; [done|].
  destruct (push_node_ok g val n Hg Cg Hlt ltac:(lia)) as (? & _ & ?). done.
Qed.

End Merge.

(** ** Examples *)

(** A C library and a sort to evaluate with. *)
Fixpoint insert_sorted {A} (cmp : A -> A -> Z) (x : A) (l : list A) : list A :=
  match l with
  | [] => [x]
  | y :: l => if cmp x y <=? 0 then x :: y :: l else y :: insert_sorted cmp x l
  end.

#[local] Instance insertion_sort : Qsort := fun A cmp l => foldr (insert_sorted cmp) [] l.

Lemma insert_sorted_perm {A} (cmp : A -> A -> Z) x l : insert_sorted cmp x l ≡ₚ x :: l.
Proof.
  induction l as [|y l IH]; cbn; [done|]. case_match; [done|]. rewrite IH. apply Permutation_swap.
Qed.

#[local] Instance insertion_sort_laws : QsortLaws.
Proof.
  split. intros A cmp l. unfold qsort, insertion_sort. induction l as [|x l IH]; cbn; [done|].
  by rewrite insert_sorted_perm, IH.
Qed.

#[local] Instance flat_log : Libm := {| libm_sqrt x := x; libm_pow x _ := x; libm_log x := f64_one |}.

(** A digest with room for two centroids that holds one. *)
Definition small_digest : td_histogram :=
  mk_td 2 (f64_of_Z 100) 1 0 (f64_of_Z 1) 0 [mk_node (f64_of_Z 7) f64_one; no_node].

Lemma td_add_counts_witness :
  exists h', td_add small_digest (f64_of_Z 9) f64_one = Some h' /\ td_ok h' /\ td_total_count h' = f64_of_Z 2
    /\ nodes h' = [mk_node (f64_of_Z 7) f64_one; mk_node (f64_of_Z 9) f64_one].
Proof.
  destruct (td_add_counts small_digest (f64_of_Z 9) 1) as (g & Eg & Hg & Cg & Ec & E).
  - split; cbn; lia.
  - exists 1, 0. split_and!; lia || reflexivity.
  - lia.
  - replace (next_node small_digest =? cap small_digest) with false in Eg by reflexivity. subst g.
    replace (next_node small_digest <? cap small_digest) with true in E by reflexivity. destruct E as (E & Hok & Ht). eexists. split; [exact E|].
    split; [exact Hok|]. split; [exact Ht|reflexivity].
Defined.

#[local] Existing Instances le_host no_bitmaps.

(** A string of 40 bytes that names a capacity its buffer does not have: compression 0, which
    stands for ten centroids, and the largest [int]. *)
Definition forged_digest : ExprValue :=
  set_str (bytes_of_string "TDGT" ++ le_split 4 (2 ^ 31 - 1) ++ replicate 32 0) (new_ExprValue TDIGEST).

Definition ints (n : nat) : list ExprValue := (fun k => u_write 8 (Z.of_nat k) (new_ExprValue INT64)) <$> seq 0 n.

(** [tdigest_add] on it is fine for ten values and writes behind the buffer with eleven. *)
Example forged_digest_overflows :
  bool_decide (is_Some (tdigest_add (forged_digest :: ints 10))) = true
  /\ tdigest_add (forged_digest :: ints 11) = None.
Proof. vm_compute. split; reflexivity. Qed.
