(* ===== verification/MemRow.v ===== *)
(** * Rows in memory ([include/mem_row/mem_row.h], [src/mem_row/mem_row.cpp],
      [src/mem_row/mem_row_descriptor.cpp], [SlotRef] of [include/expr/slot_ref.h])

    A row holds one protocol buffer message per tuple of the query; an expression names a
    tuple and a slot.  The numbers of tuples and slots come from the plan: tuples are
    positions of the vector, slots start with 1. *)

From S2P Require Import Prelude KeyEncoder Stdio FloatArith FloatText Calendar DateTime ExprValue TableKey TableRecord.

(** [primitive_to_proto_type]: the C++ type of the field that holds a slot; [None] is -1. *)
Definition slot_cpp_type (t : PrimitiveType) : option cpp_type :=
  match t with
  | INT8 | INT16 | INT32 | TIME => Some CPPTYPE_INT32
  | INT64 => Some CPPTYPE_INT64
  | UINT8 | UINT16 | UINT32 | TIMESTAMP | DATE => Some CPPTYPE_UINT32
  | UINT64 | DATETIME => Some CPPTYPE_UINT64
  | FLOAT => Some CPPTYPE_FLOAT
  | DOUBLE => Some CPPTYPE_DOUBLE
  | STRING | HLL | BITMAP | TDIGEST | JSON => Some CPPTYPE_STRING
  | BOOL | NULL_TYPE => Some CPPTYPE_BOOL
  | _ => None
  end.

(** [DynamicMessageFactory]: an empty message with fields of the given types. *)
Class MessageFactory (M : Type) := New : list cpp_type -> M.

Section Rows.
Context `{Host, RoaringLib, Zone} {M : Type} `{Reflection M}.

(** [tuples]: null for numbers the query does not use. *)
Record MemRow := mk_row { tuples : list (option M); tuples_assigned : list bool }.

Definition get_tuple (row : MemRow) (tuple_id : nat) : option M := mjoin (tuples row !! tuple_id).

Definition set_tuple (tuple_id : nat) (m : M) (row : MemRow) : MemRow :=
  mk_row (<[tuple_id := Some m]> (tuples row)) (tuples_assigned row).

Definition row_get (row : MemRow) (tuple_id : nat) (slot_id : Z) : ExprValue :=
  match get_tuple row tuple_id with
  | None => new_ExprValue NULL_TYPE
  | Some m => get_value (slot_id - 1) m
  end.

Definition row_set (tuple_id : nat) (slot_id : Z) (value : ExprValue) (row : MemRow) :
    option (Z * MemRow) :=
  match get_tuple row tuple_id with
  | None => Some (-1, row)
  | Some m =>
      '(ret, m) ← set_value (slot_id - 1) value m;
      Some (ret, set_tuple tuple_id m row)
  end.

(** [None]: a null message is copied, or the other row is shorter. *)
Definition copy_tuple (tuple_id : nat) (other row : MemRow) : option MemRow :=
  _ ← get_tuple row tuple_id;
  m ← get_tuple other tuple_id;
  Some (mk_row (<[tuple_id := Some m]> (tuples row)) (<[tuple_id := true]> (tuples_assigned row))).

Fixpoint copy_from (tuple_ids : list nat) (other row : MemRow) : option (Z * MemRow) :=
  match tuple_ids with
  | [] => Some (0, row)
  | tuple_id :: tuple_ids =>
      if (length (tuples row) <=? tuple_id)%nat then Some (-1, row)
      else
        row ← (if default false (tuples_assigned row !! tuple_id) then Some row
               else copy_tuple tuple_id other row);
        copy_from tuple_ids other row
  end.

(** *** Keys *)

(** What C++ leaves undefined: a shift count below zero. *)
Variable bad_shift : Z -> Z.

(** [field_slot]: the slot of a field of the table, 0 when the query does not read it. *)
Fixpoint decode_key_fields (null_flag : Z) (fields : list FieldInfo) (idx : Z) (field_slot : Z -> Z)
    (key : TableKey) (pos : Z) (m : M) : option (Z * Z * M) :=
  match fields with
  | [] => Some (0, pos, m)
  | info :: fields =>
      if null_test bad_shift null_flag idx && fi_can_null info
      then decode_key_fields null_flag fields (idx + 1) field_slot key pos m
      else
        let slot := field_slot (fi_id info) in
        if slot =? 0 then
          '(ret, pos) ← skip_field key (fi_type info) pos;
          if negb (ret =? 0) then Some (-1, pos, m)
          else decode_key_fields null_flag fields (idx + 1) field_slot key pos m
        else if negb (field_by_idx m (slot - 1)) then Some (-1, pos, m)
        else
          '(ret, pos, m) ← TableKey.decode_field key (slot - 1) (fi_type info) pos m;
          if negb (ret =? 0) then Some (-1, pos, m)
          else decode_key_fields null_flag fields (idx + 1) field_slot key pos m
  end.

Definition row_decode_key (tuple_id : nat) (index : IndexInfo) (field_slot : Z -> Z) (key : TableKey)
    (pos : Z) (row : MemRow) : option (Z * Z * MemRow) :=
  if bool_decide (ix_type index = I_NONE) then Some (-1, pos, row)
  else
    match get_tuple row tuple_id with
    | None => Some (-1, pos, row)
    | Some m =>
        '(null_flag, pos) ← (if bool_decide (ix_type index = I_KEY \/ ix_type index = I_UNIQ
                                             \/ ix_type index = I_ROLLUP)
                             then f ← extract_u8 key pos; Some (f, advance pos 1)
                             else Some (0, pos));
        '(ret, pos, m) ← decode_key_fields null_flag (ix_fields index) 0 field_slot key pos m;
        Some (ret, pos, set_tuple tuple_id m row)
    end.

(** The primary key at the end of a secondary key: no flags of null fields. *)
Fixpoint decode_suffix_fields (fields : list FieldInfo) (field_slot : Z -> Z) (key : TableKey) (pos : Z)
    (m : M) : option (Z * Z * M) :=
  match fields with
  | [] => Some (0, pos, m)
  | info :: fields =>
      let slot := field_slot (fi_id info) in
      if slot =? 0 then
        '(ret, pos) ← skip_field key (fi_type info) pos;
        if negb (ret =? 0) then Some (-1, pos, m) else decode_suffix_fields fields field_slot key pos m
      else if negb (field_by_idx m (slot - 1)) then Some (-1, pos, m)
      else
        '(ret, pos, m) ← TableKey.decode_field key (slot - 1) (fi_type info) pos m;
        if negb (ret =? 0) then Some (-1, pos, m) else decode_suffix_fields fields field_slot key pos m
  end.

Definition row_decode_primary_key (tuple_id : nat) (index : IndexInfo) (field_slot : Z -> Z)
    (key : TableKey) (pos : Z) (row : MemRow) : option (Z * Z * MemRow) :=
  if negb (bool_decide (ix_type index = I_KEY \/ ix_type index = I_UNIQ)) then Some (-1, pos, row)
  else
    match get_tuple row tuple_id with
    | None => Some (-1, pos, row)
    | Some m =>
        '(ret, pos, m) ← decode_suffix_fields (ix_pk_fields index) field_slot key pos m;
        Some (ret, pos, set_tuple tuple_id m row)
    end.

(** ** The descriptor *)

(** The tuples of a query with the types of their slots; [None]: [init] fails. *)
Definition descriptor_types (slots : list PrimitiveType) : option (list cpp_type) :=
  mapM slot_cpp_type slots.

Definition fetch_mem_row `{MessageFactory M} (descs : list (nat * list cpp_type)) : MemRow :=
  let largest := match descs with [] => 1%nat | _ => foldr max 0%nat (fst <$> descs) end in
  let empty := replicate (S largest) None in
  mk_row (foldr (fun d ts => <[fst d := Some (New (snd d))]> ts) empty descs)
    (replicate (S largest) false).

(** ** References to slots *)

(** The time at which a cast of a time to a date happens. *)
Variable now : Z.

(** A reference without a precision. *)
Definition slot_value (tuple_id : nat) (slot_id : Z) (col_type : PrimitiveType) (row : MemRow) :
    option ExprValue :=
  cast_to now col_type (row_get row tuple_id slot_id).

End Rows.
Arguments MemRow : clear implicits.
Arguments mk_row {M}.
