(* ===== verification/Agg.v ===== *)
(** * Aggregate functions ([src/expr/agg_fn_call.cpp], [include/expr/agg_fn_call.h])

    A call keeps its intermediate value of a group in a slot of the row of the group; sketches,
    bitmaps, distinct values and rows to sort are kept beside it, by the key of the group.  An
    operation returns its code, the state of the call and the row.  [None] marks what C++
    leaves undefined: reads outside a string, null pointers, conversions without a result.  The
    accounting of memory ([used_size]) is left out. *)

From stdpp Require Import gmap.
From S2P Require Import Prelude KeyEncoder Stdio FloatArith FloatText Calendar DateTime ExprValue TableKey TableRecord Sorter Hll TDigest MemRow.

(** Operators of [Roaring]. *)
Class RoaringOps `{RoaringLib} := {
  roaring_or : Roaring -> Roaring -> Roaring;
  roaring_and : Roaring -> Roaring -> Roaring;
  roaring_xor : Roaring -> Roaring -> Roaring;
  roaring_add : Z -> Roaring -> Roaring;
  roaring_cardinality : Roaring -> Z
}.

(** An [unordered_set] with these elements: the order in which they are visited, and whether two
    different hashes fall in one bucket. *)
Class UniqOrder `{RoaringLib} := {
  uniq_order : list ExprValue -> list ExprValue;
  same_bucket : list ExprValue -> Z -> Z -> bool
}.

Inductive AggType :=
| COUNT_STAR | COUNT | SUM | AVG | MIN | MAX
| MULTI_COUNT_DISTINCT | MULTI_SUM_DISTINCT | MULTI_GROUP_CONCAT_DISTINCT
| HLL_ADD_AGG | HLL_MERGE_AGG
| RB_OR_AGG | RB_OR_CARDINALITY_AGG | RB_AND_AGG | RB_AND_CARDINALITY_AGG
| RB_XOR_AGG | RB_XOR_CARDINALITY_AGG | RB_BUILD_AGG
| TDIGEST_AGG | TDIGEST_BUILD_AGG | GROUP_CONCAT | OTHER.

#[global] Instance AggType_eq_dec : EqDecision AggType.
Proof. solve_decision. Defined.

Definition is_bitmap_agg (t : AggType) : bool :=
  match t with
  | RB_OR_AGG | RB_OR_CARDINALITY_AGG | RB_AND_AGG | RB_AND_CARDINALITY_AGG
  | RB_XOR_AGG | RB_XOR_CARDINALITY_AGG | RB_BUILD_AGG => true
  | _ => false
  end.
Definition is_tdigest_agg (t : AggType) : bool :=
  match t with TDIGEST_AGG | TDIGEST_BUILD_AGG => true | _ => false end.
Definition is_hll_agg (t : AggType) : bool :=
  match t with HLL_ADD_AGG | HLL_MERGE_AGG => true | _ => false end.
(** The three types that collect distinct values. *)
Definition is_multi (t : AggType) : bool :=
  match t with
  | MULTI_COUNT_DISTINCT | MULTI_SUM_DISTINCT | MULTI_GROUP_CONCAT_DISTINCT => true
  | _ => false
  end.
Definition is_count (t : AggType) : bool :=
  match t with COUNT_STAR | COUNT => true | _ => false end.

Definition name_type_map : list (string * AggType) :=
  [("count_star", COUNT_STAR); ("count", COUNT); ("count_distinct", COUNT);
   ("sum", SUM); ("sum_distinct", SUM); ("avg", AVG); ("avg_distinct", AVG);
   ("multi_count_distinct", MULTI_COUNT_DISTINCT); ("multi_sum_distinct", MULTI_SUM_DISTINCT);
   ("multi_group_concat_distinct", MULTI_GROUP_CONCAT_DISTINCT);
   ("min", MIN); ("max", MAX); ("hll_add_agg", HLL_ADD_AGG); ("hll_merge_agg", HLL_MERGE_AGG);
   ("rb_or_agg", RB_OR_AGG); ("rb_and_agg", RB_AND_AGG); ("rb_xor_agg", RB_XOR_AGG);
   ("rb_build_agg", RB_BUILD_AGG); ("tdigest_agg", TDIGEST_AGG);
   ("tdigest_build_agg", TDIGEST_BUILD_AGG);
   ("group_concat", GROUP_CONCAT); ("group_concat_distinct", GROUP_CONCAT)]%string.

Definition distinct_names : list string :=
  ["count_distinct"; "sum_distinct"; "avg_distinct"; "group_concat_distinct";
   "multi_count_distinct"; "multi_sum_distinct"; "multi_group_concat_distinct"]%string.

Fixpoint lookup_name {A} (name : string) (l : list (string * A)) : option A :=
  match l with
  | [] => None
  | (n, a) :: l => if String.eqb n name then Some a else lookup_name name l
  end.

Section Calls.
Context `{Host, RoaringLib, Zone, !RoaringOps, !UniqOrder, Murmur, Libm, Qsort, StdSort}.
Context {M : Type} `{Reflection M, MessageFactory M}.

(** [now]: see [cast_to].  [raw_to_sparse]: [FLAGS_transfor_hll_raw_to_sparse].  [capacity]:
    [ROW_BATCH_CAPACITY]. *)
Variables (now : Z) (raw_to_sparse : bool) (batch_capacity : nat).

(** An argument: its value on a row and on no row, its type, and the children of a row of
    expressions. *)
Inductive Expr := mk_expr {
  eval : MemRow M -> ExprValue;
  is_literal : bool;
  null_row_value : ExprValue;
  is_row_expr : bool;
  expr_type : PrimitiveType;
  parts : list Expr
}.

(** [order]: the expressions of ORDER BY with their direction, after [open]. *)
Record AggFnCall := mk_call {
  agg_type : AggType;
  tuple_id : nat;
  intermediate_slot_id : Z;
  final_slot_id : Z;
  is_distinct : bool;
  col_type : PrimitiveType;
  children : list Expr;
  sep : bytes;
  order : option (list (Expr * bool))
}.

Record InterVal := mk_inter { is_assign : bool; val : ExprValue }.

Record AggState := mk_state {
  intermediate_val_map : gmap bytes InterVal;
  multi_distinct_map : gmap bytes (list ExprValue);
  row_batch_map : gmap bytes (list (MemRow M))
}.

Definition new_state : AggState := mk_state ∅ ∅ ∅.

(** [operator[]] of the maps. *)
Definition inter_at (key : bytes) (st : AggState) : InterVal :=
  default (mk_inter false (new_ExprValue NULL_TYPE)) (intermediate_val_map st !! key).
Definition set_inter (key : bytes) (v : InterVal) (st : AggState) : AggState :=
  mk_state (<[key := v]> (intermediate_val_map st)) (multi_distinct_map st) (row_batch_map st).
Definition distinct_at (key : bytes) (st : AggState) : list ExprValue :=
  default [] (multi_distinct_map st !! key).
Definition set_distinct (key : bytes) (l : list ExprValue) (st : AggState) : AggState :=
  mk_state (intermediate_val_map st) (<[key := l]> (multi_distinct_map st)) (row_batch_map st).
Definition set_batch (key : bytes) (l : list (MemRow M)) (st : AggState) : AggState :=
  mk_state (intermediate_val_map st) (multi_distinct_map st) (<[key := l]> (row_batch_map st)).

(** ** Construction *)

Definition agg_init (name : string) (tuple : nat) (slot intermediate_slot : Z) (args : list Expr) :
    Z * AggFnCall :=
  let distinct := bool_decide (name ∈ distinct_names) in
  match lookup_name name name_type_map with
  | Some t => (0, mk_call t tuple intermediate_slot slot distinct INVALID_TYPE args (bytes_of_string ",") None)
  | None => (-1, mk_call OTHER tuple intermediate_slot slot false INVALID_TYPE args (bytes_of_string ",") None)
  end.

Definition set_col_type (t : PrimitiveType) (c : AggFnCall) : AggFnCall :=
  mk_call (agg_type c) (tuple_id c) (intermediate_slot_id c) (final_slot_id c) (is_distinct c) t
    (children c) (sep c) (order c).

(** After the types of the arguments are known. *)
Definition type_inferer (c : AggFnCall) : Z * AggFnCall :=
  let some_child t := match children c with [] => (-1, c) | _ => (0, set_col_type t c) end in
  match agg_type c with
  | COUNT_STAR | COUNT | MULTI_COUNT_DISTINCT => (0, set_col_type INT64 c)
  | AVG => (0, set_col_type DOUBLE c)
  | SUM | MULTI_SUM_DISTINCT =>
      match children c with
      | [] => (-1, c)
      | e :: _ => (0, set_col_type (if is_double (expr_type e) then DOUBLE else INT64) c)
      end
  | MIN | MAX => match children c with [] => (-1, c) | e :: _ => (0, set_col_type (expr_type e) c) end
  | HLL_ADD_AGG | HLL_MERGE_AGG => some_child HLL
  | RB_OR_AGG | RB_AND_AGG | RB_XOR_AGG | RB_BUILD_AGG => some_child BITMAP
  | RB_AND_CARDINALITY_AGG | RB_XOR_CARDINALITY_AGG | RB_OR_CARDINALITY_AGG => some_child UINT64
  | TDIGEST_AGG | TDIGEST_BUILD_AGG => some_child TDIGEST
  | GROUP_CONCAT | MULTI_GROUP_CONCAT_DISTINCT => some_child STRING
  | OTHER => (-1, c)
  end.

Definition set_order (t : AggType) (s : bytes) (o : option (list (Expr * bool))) (c : AggFnCall) : AggFnCall :=
  mk_call t (tuple_id c) (intermediate_slot_id c) (final_slot_id c) (is_distinct c) (col_type c)
    (children c) s o.

(** The separator and the order of [GROUP_CONCAT]: values, separator, order, directions. *)
Definition open_concat (c : AggFnCall) : option (Z * AggFnCall) :=
  match children c with
  | _ :: s :: rest =>
      sep' ← (if is_literal s && negb (is_null (null_row_value s))
              then get_string (null_row_value s) else Some (sep c));
      match rest with
      | [os; ds] =>
          if negb (is_row_expr os) || negb (is_row_expr ds)
             || negb (length (parts os) =? length (parts ds))%nat
          then Some (-1, set_order (agg_type c) sep' (order c) c)
          else
            let o := zip (parts os) ((fun d => bool_val (null_row_value d) =? 0) <$> parts ds) in
            match descriptor_types ((expr_type ∘ fst <$> o) ++ [STRING]) with
            | None => Some (-1, set_order (agg_type c) sep' (order c) c)
            | Some _ => Some (0, set_order (agg_type c) sep' (Some o) c)
            end
      | _ => Some (0, set_order (agg_type c) sep' (order c) c)
      end
  | _ => Some (-1, c)
  end.

(** After the arguments are open. *)
Definition agg_open (c : AggFnCall) : option (Z * AggFnCall) :=
  match agg_type c, children c with
  | (COUNT_STAR | OTHER), _ => Some (0, c)
  | _, [] => Some (-1, c)
  | COUNT, e :: _ =>
      if is_literal e && negb (is_null (null_row_value e))
      then Some (0, set_order COUNT_STAR (sep c) (order c) c) else Some (0, c)
  | (GROUP_CONCAT | MULTI_GROUP_CONCAT_DISTINCT), _ => open_concat c
  | _, _ => Some (0, c)
  end.

(** ** Slots *)

Definition cell (c : AggFnCall) (row : MemRow M) : ExprValue :=
  row_get row (tuple_id c) (intermediate_slot_id c).

(** [set_value], whose code the callers drop. *)
Definition put (c : AggFnCall) (slot : Z) (v : ExprValue) (row : MemRow M) : option (MemRow M) :=
  snd <$> row_set (tuple_id c) slot v row.
Definition put_cell (c : AggFnCall) (v : ExprValue) (row : MemRow M) : option (MemRow M) :=
  put c (intermediate_slot_id c) v row.

Definition Null_value : ExprValue := new_ExprValue NULL_TYPE.

(** [AvgIntermediate]: a sum and a count over the bytes of a string. *)
Definition avg_zero : ExprValue := set_str (mem_store 8 0 ++ mem_store 8 0) (new_ExprValue STRING).
Definition avg_load (s : bytes) : option (Z * Z) :=
  sum ← mem_load s 0 8; count ← mem_load s 8 8; Some (sum, i64 count).
Definition avg_store (sum count : Z) (v : ExprValue) : ExprValue :=
  set_str (mem_store 8 sum ++ mem_store 8 (u64 count) ++ drop 16 (str_val v)) v.

(** ** Sets of distinct values *)

(** [ExprValueComparator] is asked about the elements in the bucket of the hash. *)
Definition uniq_equal (l : list ExprValue) (v x : ExprValue) : bool :=
  ((hash_of v =? hash_of x) || same_bucket l (hash_of v) (hash_of x)) && (compare v x =? 0).
Definition uniq_insert (v : ExprValue) (l : list ExprValue) : list ExprValue :=
  if existsb (uniq_equal l v) l then l else l ++ [v].
Definition uniq_merge (tmp l : list ExprValue) : list ExprValue :=
  foldl (fun l v => uniq_insert v l) l (uniq_order tmp).

(** The number of a type in [common.proto]. *)
Definition type_code (t : PrimitiveType) : Z :=
  match t with
  | INVALID_TYPE => 0 | NULL_TYPE => 1 | BOOL => 2 | INT8 => 3 | INT16 => 4 | INT32 => 5
  | INT64 => 6 | UINT8 => 7 | UINT16 => 8 | UINT32 => 9 | UINT64 => 10 | FLOAT => 11
  | DOUBLE => 12 | STRING => 13 | DATETIME => 14 | TIMESTAMP => 15 | DATE => 16 | HLL => 17
  | TIME => 18 | PLACE_HOLDER => 19 | HEX => 20 | BITMAP => 21 | TDIGEST => 22 | JSON => 23
  | MAXVALUE_TYPE => 24
  end.

(** The template argument for a type of numbers. *)
Definition serialized_type (t : PrimitiveType) : option num_type :=
  match t with
  | BOOL => Some TBool
  | INT8 => Some (TInt 8) | INT16 => Some (TInt 16) | INT32 | TIME => Some (TInt 32)
  | INT64 => Some (TInt 64)
  | UINT8 => Some (TUint 8) | UINT16 => Some (TUint 16)
  | UINT32 | TIMESTAMP | DATE => Some (TUint 32) | UINT64 | DATETIME => Some (TUint 64)
  | FLOAT => Some TFloat | DOUBLE => Some TDouble
  | _ => None
  end.
Definition type_size (T : num_type) : nat :=
  match T with
  | TBool => 1 | TInt w | TUint w => Z.to_nat (w / 8) | TFloat => 4 | TDouble => 8
  end%nat.

(** The length, the type and then the items. *)
Definition serialized_head (set_length : Z) (t : PrimitiveType) : bytes :=
  mem_store 4 (u32 set_length) ++ take 1 (mem_store 4 (type_code t)).

Fixpoint numbers_bytes (T : num_type) (l : list ExprValue) : option bytes :=
  match l with
  | [] => Some []
  | v :: l =>
      x ← get_numberic T v;
      rest ← numbers_bytes T l;
      Some (mem_store (type_size T) (wrap (8 * Z.of_nat (type_size T)) x) ++ rest)
  end.

Definition string_bytes (l : list ExprValue) : bytes :=
  concat ((fun v => mem_store 4 (u32 (Z.of_nat (length (str_val v)))) ++ str_val v) <$> l).

(** The code and what is appended to the string of the value. *)
Definition multi_distinct_serialize (l : list ExprValue) : option (Z * bytes) :=
  match uniq_order l with
  | [] => Some (0, [])
  | (v :: _) as l =>
      match type v, serialized_type (type v) with
      | t, Some T =>
          body ← numbers_bytes T l;
          Some (0, serialized_head (1 + Z.of_nat (type_size T * length l)) t ++ body)
      | (STRING | HEX) as t, None =>
          Some (0, serialized_head (i32 (1 + Z.of_nat (length (string_bytes l)))) t ++ string_bytes l)
      | _, None => Some (-1, [])
      end
  end.

Definition type_of_code (x : Z) : PrimitiveType :=
  default INVALID_TYPE (find (fun t => type_code t =? x)
    [BOOL; INT8; INT16; INT32; INT64; UINT8; UINT16; UINT32; UINT64; FLOAT; DOUBLE; STRING;
     DATETIME; TIMESTAMP; DATE; TIME; HEX]).

(** [set_numeric<T>] with the bytes of a [T]. *)
Definition set_number (T : num_type) (x : Z) (v : ExprValue) : ExprValue :=
  match T with
  | TFloat => u_write 4 x (put_precision 0 v)
  | TDouble => u_write 8 x (put_precision 0 v)
  | _ => snd (set_numeric x v)
  end.

Fixpoint read_numbers (fuel : nat) (T : num_type) (t : PrimitiveType) (s : bytes) (pos end_ : Z)
    (l : list ExprValue) : option (list ExprValue) :=
  if end_ <=? pos then Some l
  else
    match fuel with
    | O => None
    | S fuel =>
        x ← mem_load s pos (type_size T);
        read_numbers fuel T t s (pos + Z.of_nat (type_size T)) end_
          (uniq_insert (set_number T x (new_ExprValue t)) l)
    end.

Fixpoint read_strings (fuel : nat) (t : PrimitiveType) (s : bytes) (pos end_ : Z) (l : list ExprValue) :
    option (list ExprValue) :=
  if end_ <=? pos then Some l
  else
    match fuel with
    | O => None
    | S fuel =>
        n ← mem_load s pos 4;
        let n := i32 n in
        let pos := pos + 4 in
        if (n <? 0) || (Z.of_nat (length s) <? pos + n) then None
        else
          let v := set_str (take (Z.to_nat n) (drop (Z.to_nat pos) s)) (new_ExprValue t) in
          read_strings fuel t s (pos + n) end_ (uniq_insert v l)
    end.

(** The set that a string holds; a round of the loops reads at least one byte. *)
Definition multi_distinct_unserialize (s : bytes) : option (Z * list ExprValue) :=
  set_length ← mem_load s 0 4;
  let end_ := i32 set_length + 4 in
  code ← mem_load s 4 1;
  let t := type_of_code (i8 code) in
  match serialized_type t, t with
  | Some T, _ => l ← read_numbers (length s) T t s 5 end_ []; Some (0, l)
  | None, (STRING | HEX) => l ← read_strings (length s) t s 5 end_ []; Some (0, l)
  | None, _ => Some (-1, [])
  end.

(** ** Initialization *)

(** Aggregates that cannot be merged and are computed from the rows again. *)
Definition plain_distinct (c : AggFnCall) : bool := is_distinct c && negb (is_multi (agg_type c)).

Definition is_initialize (c : AggFnCall) (dst : MemRow M) : option bool :=
  if plain_distinct c then Some false
  else if is_null (cell c dst) then Some true
  else
    match agg_type c with
    | COUNT_STAR | COUNT => x ← get_numberic (TInt 64) (cell c dst); Some (x =? 0)
    | AVG => Some (compare (cell c dst) avg_zero =? 0)
    | MULTI_COUNT_DISTINCT | MULTI_SUM_DISTINCT | MULTI_GROUP_CONCAT_DISTINCT =>
        Some (compare (cell c dst) (new_ExprValue STRING) =? 0)
    | _ => Some false
    end.

Definition same_state (st : AggState) (row : option (MemRow M)) : option (Z * AggState * MemRow M) :=
  row ← row; Some (0, st, row).

Definition initialize_hll (c : AggFnCall) (key : bytes) (st : AggState) (dst : MemRow M) :
    option (Z * AggState * MemRow M) :=
  match intermediate_val_map st !! key with
  | Some _ => Some (0, st, dst)
  | None =>
      let dst_val := cell c dst in
      val ← (if is_null dst_val then Some value_row_init
             else
               dst_val ← cast_to now HLL dst_val;
               '(_, s) ← hll_merge_agg (str_val value_row_init) (str_val dst_val);
               Some (set_str s value_row_init));
      dst ← put_cell c val dst;
      Some (0, set_inter key (mk_inter true val) st, dst)
  end.

Definition initialize_bitmap (c : AggFnCall) (key : bytes) (st : AggState) (dst : MemRow M) :
    option (Z * AggState * MemRow M) :=
  match intermediate_val_map st !! key with
  | Some _ => Some (0, st, dst)
  | None =>
      let dst_val := cell c dst in
      val ← (if is_null dst_val then Some (new_ExprValue BITMAP) else cast_to now BITMAP dst_val);
      dst ← put_cell c val dst;
      let assigned := match agg_type c with RB_AND_AGG | RB_AND_CARDINALITY_AGG => false | _ => true end in
      Some (0, set_inter key (mk_inter assigned val) st, dst)
  end.

Definition initialize_tdigest (c : AggFnCall) (key : bytes) (st : AggState) (dst : MemRow M) :
    option (Z * AggState * MemRow M) :=
  match intermediate_val_map st !! key with
  | Some _ => Some (0, st, dst)
  | None =>
      let dst_val := cell c dst in
      if is_null dst_val then
        dst ← put_cell c (new_ExprValue TDIGEST) dst;
        Some (0, set_inter key (mk_inter true (new_ExprValue TDIGEST)) st, dst)
      else
        dst_val ← cast_to now TDIGEST dst_val;
        td ← td_normallize (str_val dst_val);
        dst ← put_cell c dst_val dst;
        Some (0, set_inter key (mk_inter true (set_str td dst_val)) st, dst)
  end.

Definition initialize (c : AggFnCall) (key : bytes) (only_count : bool) (st : AggState) (dst : MemRow M) :
    option (Z * AggState * MemRow M) :=
  let fresh := is_null (cell c dst) in
  let clear st := same_state st (if fresh then put_cell c Null_value dst else Some dst) in
  let zero := same_state st (if fresh then put_cell c (new_ExprValue INT64) dst else Some dst) in
  if only_count then (if is_count (agg_type c) then zero else Some (0, st, dst))
  else
    match agg_type c with
    | COUNT_STAR | COUNT => zero
    | SUM | MIN | MAX => clear st
    | AVG =>
        same_state st
          (if fresh then dst ← put_cell c avg_zero dst; put c (final_slot_id c) Null_value dst else Some dst)
    | MULTI_COUNT_DISTINCT | MULTI_SUM_DISTINCT | MULTI_GROUP_CONCAT_DISTINCT =>
        same_state st
          (if fresh then dst ← put_cell c Null_value dst; put c (final_slot_id c) Null_value dst else Some dst)
    | HLL_ADD_AGG | HLL_MERGE_AGG => initialize_hll c key st dst
    | RB_OR_AGG | RB_OR_CARDINALITY_AGG | RB_AND_AGG | RB_AND_CARDINALITY_AGG
    | RB_XOR_AGG | RB_XOR_CARDINALITY_AGG | RB_BUILD_AGG => initialize_bitmap c key st dst
    | TDIGEST_AGG | TDIGEST_BUILD_AGG => initialize_tdigest c key st dst
    | GROUP_CONCAT =>
        clear (match order c, row_batch_map st !! key with
               | Some _, None => set_batch key [] st
               | _, _ => st
               end)
    | OTHER => Some (-1, st, dst)
    end.

(** ** Values of [GROUP_CONCAT] *)

(** The texts of the children that are not null; [None] inside: all are null. *)
Fixpoint concat_parts (l : list Expr) (src : MemRow M) (acc : option bytes) : option (option bytes) :=
  match l with
  | [] => Some acc
  | e :: l =>
      let v := eval e src in
      if is_null v then concat_parts l src acc
      else s ← get_string v; concat_parts l src (Some (default [] acc ++ s))
  end.

(** The row that carries a text to the sort. *)
Definition order_types (o : list (Expr * bool)) : list PrimitiveType := (expr_type ∘ fst <$> o) ++ [STRING].

Fixpoint set_slots (i : Z) (vs : list ExprValue) (row : MemRow M) : option (MemRow M) :=
  match vs with
  | [] => Some row
  | v :: vs => row ← snd <$> row_set 0 i v row; set_slots (i + 1) vs row
  end.

Definition order_row (o : list (Expr * bool)) (src : MemRow M) (value : ExprValue) : option (MemRow M) :=
  types ← descriptor_types (order_types o);
  set_slots 1 (((fun e => eval e.1 src) <$> o) ++ [value]) (fetch_mem_row [(0%nat, types)]).

(** [batch->move_row]: the batch was made by [initialize]. *)
Definition push_row (key : bytes) (row : MemRow M) (st : AggState) : option AggState :=
  l ← row_batch_map st !! key; Some (set_batch key (l ++ [row]) st).

Definition append_text (c : AggFnCall) (s : bytes) (dst : MemRow M) : option (MemRow M) :=
  let result := cell c dst in
  let result := if negb (type_eqb (type result) STRING) then new_ExprValue STRING
                else set_str (str_val result ++ sep c) result in
  put_cell c (set_str (str_val result ++ s) result) dst.

(** ** Update *)

Definition increment (c : AggFnCall) (dst : MemRow M) : option (MemRow M) :=
  let result := cell c dst in
  put_cell c (u_write 8 (i64 (int64_val result + 1)) result) dst.

Definition add_value (c : AggFnCall) (value : ExprValue) (dst : MemRow M) : option (MemRow M) :=
  if is_null value then Some dst
  else '(result, _) ← add (cell c dst) value; put_cell c result dst.

(** [MIN] keeps a value when the comparison with the next one is at most 0, [MAX] at least 0. *)
Definition replaces (t : AggType) (comp : Z) : bool :=
  match t with MIN => 0 <? comp | _ => comp <? 0 end.

(** [val._u.bitmap]: [None] dereferences a null pointer. *)
Definition update_bitmap (op : Roaring -> Roaring) (v : ExprValue) : option ExprValue :=
  b ← bitmap v; Some (set_bitmap (Some (op b)) v).

Definition and_bitmap (value : Roaring) (iv : InterVal) : option InterVal :=
  val ← update_bitmap (fun b => if is_assign iv then roaring_and b value else value) (val iv);
  Some (mk_inter true val).

(** Changes the intermediate value. *)
Definition with_inter (key : bytes) (f : InterVal -> option InterVal) (st : AggState) (dst : MemRow M) :
    option (Z * AggState * MemRow M) :=
  iv ← f (inter_at key st); Some (0, set_inter key iv st, dst).

Definition map_val (f : ExprValue -> option ExprValue) (iv : InterVal) : option InterVal :=
  v ← f (val iv); Some (mk_inter (is_assign iv) v).

Definition on_str (f : bytes -> option bytes) (v : ExprValue) : option ExprValue :=
  s ← f (str_val v); Some (set_str s v).

Definition merge_hll (s : bytes) : ExprValue -> option ExprValue :=
  on_str (fun h => snd <$> hll_merge_agg h s).

Definition merge_td (s : bytes) : ExprValue -> option ExprValue := on_str (fun td => td_merge_string td s).

Definition is_bitmap (v : ExprValue) : bool := type_eqb (type v) BITMAP.

Definition update_sketch (c : AggFnCall) (key : bytes) (value : ExprValue) (st : AggState) (dst : MemRow M) :
    option (Z * AggState * MemRow M) :=
  let skip := Some (0, st, dst) in
  let on_bitmap op := if is_bitmap value
                      then b ← bitmap value; with_inter key (map_val (update_bitmap (fun a => op a b))) st dst
                      else skip in
  match agg_type c with
  | HLL_ADD_AGG =>
      with_inter key (map_val (on_str (fun h => snd <$> hll_add h (hash_of value)))) st dst
  | HLL_MERGE_AGG =>
      if is_hll value then with_inter key (map_val (merge_hll (str_val value))) st dst else skip
  | RB_OR_AGG | RB_OR_CARDINALITY_AGG => on_bitmap roaring_or
  | RB_XOR_AGG | RB_XOR_CARDINALITY_AGG => on_bitmap roaring_xor
  | RB_AND_AGG | RB_AND_CARDINALITY_AGG =>
      if is_bitmap value then b ← bitmap value; with_inter key (and_bitmap b) st dst else skip
  | RB_BUILD_AGG =>
      x ← get_numberic (TUint 32) value;
      with_inter key (map_val (update_bitmap (roaring_add x))) st dst
  | TDIGEST_AGG =>
      if is_tdigest value then
        b ← is_td_object (str_val value);
        if b : bool then with_inter key (map_val (merge_td (str_val value))) st dst
        else with_inter key Some st dst
      else skip
  | TDIGEST_BUILD_AGG =>
      x ← get_numberic TDouble value;
      with_inter key (map_val (on_str (fun td => td_add_string td x f64_one))) st dst
  | _ => Some (-1, st, dst)
  end.

(** [src]: [None] when it is the row of the group itself. *)
Definition update (c : AggFnCall) (key : bytes) (src : option (MemRow M)) (st : AggState) (dst : MemRow M) :
    option (Z * AggState * MemRow M) :=
  let src := default dst src in
  match agg_type c with
  | COUNT_STAR => same_state st (increment c dst)
  | COUNT =>
      same_state st (if existsb (fun e => is_null (eval e src)) (children c) then Some dst else increment c dst)
  | SUM => e ← children c !! 0%nat; same_state st (add_value c (eval e src) dst)
  | AVG =>
      e ← children c !! 0%nat;
      let value := eval e src in
      if is_null value then Some (0, st, dst)
      else
        '(sum, count) ← avg_load (str_val (cell c dst));
        x ← get_numberic TDouble value;
        same_state st (put_cell c (avg_store (f64_add sum x) (i64 (count + 1)) (cell c dst)) dst)
  | MIN | MAX =>
      e ← children c !! 0%nat;
      value ← cast_to now (col_type c) (eval e src);
      if is_null value then Some (0, st, dst)
      else
        result ← cast_to now (col_type c) (cell c dst);
        same_state st (if is_null result || replaces (agg_type c) (compare result value)
                       then put_cell c value dst else Some dst)
  | MULTI_COUNT_DISTINCT | MULTI_SUM_DISTINCT =>
      e ← children c !! 0%nat;
      let value := eval e src in
      Some (0, if is_null value then st
               else set_distinct key (uniq_insert value (distinct_at key st)) st, dst)
  | MULTI_GROUP_CONCAT_DISTINCT =>
      e ← children c !! 0%nat;
      text ← concat_parts (parts e) src None;
      Some (0, match text with
               | None => st
               | Some s => set_distinct key (uniq_insert (set_str s (new_ExprValue STRING)) (distinct_at key st)) st
               end, dst)
  | GROUP_CONCAT =>
      e ← children c !! 0%nat;
      text ← concat_parts (parts e) src None;
      match order c, text with
      | _, None => Some (0, st, dst)
      | Some o, Some s =>
          row ← order_row o src (set_str s (new_ExprValue STRING));
          st ← push_row key row st;
          Some (0, st, dst)
      | None, Some s => same_state st (append_text c s dst)
      end
  | OTHER => Some (-1, st, dst)
  | _ =>
      e ← children c !! 0%nat;
      let value := eval e src in
      if is_null value then Some (0, st, dst) else update_sketch c key value st dst
  end.

(** ** Merge *)

(** The values of a partial result join the set. *)
Definition merge_distinct (key : bytes) (value : ExprValue) (st : AggState) : option AggState :=
  if is_null value then Some st
  else
    '(_, tmp) ← multi_distinct_unserialize (str_val value);
    Some (set_distinct key (uniq_merge tmp (distinct_at key st)) st).

(** The first row of a group. *)
Definition merge_first (c : AggFnCall) (key : bytes) (st : AggState) (dst : MemRow M) :
    option (Z * AggState * MemRow M) :=
  let dst_value := cell c dst in
  if is_hll_agg (agg_type c) then
    iv ← map_val (merge_hll (str_val dst_value)) (inter_at key st);
    Some (0, set_inter key (mk_inter true (val iv)) st, dst)
  else if is_bitmap_agg (agg_type c) then
    v ← cast_to now BITMAP dst_value; Some (0, set_inter key (mk_inter true v) st, dst)
  else if is_tdigest_agg (agg_type c) then
    v ← cast_to now TDIGEST dst_value; Some (0, set_inter key (mk_inter true v) st, dst)
  else if is_multi (agg_type c) then
    st ← merge_distinct key dst_value st; Some (0, st, dst)
  else Some (0, st, dst).

Definition merge_sketch (c : AggFnCall) (key : bytes) (value : ExprValue) (st : AggState) (dst : MemRow M) :
    option (Z * AggState * MemRow M) :=
  let on_bitmap op :=
    v ← cast_to now BITMAP value;
    b ← bitmap v; with_inter key (map_val (update_bitmap (fun a => op a b))) st dst in
  match agg_type c with
  | HLL_ADD_AGG | HLL_MERGE_AGG => with_inter key (map_val (merge_hll (str_val value))) st dst
  | RB_OR_AGG | RB_OR_CARDINALITY_AGG | RB_BUILD_AGG => on_bitmap roaring_or
  | RB_XOR_AGG | RB_XOR_CARDINALITY_AGG => on_bitmap roaring_xor
  | RB_AND_AGG | RB_AND_CARDINALITY_AGG =>
      v ← cast_to now BITMAP value; b ← bitmap v; with_inter key (and_bitmap b) st dst
  | TDIGEST_AGG | TDIGEST_BUILD_AGG =>
      b ← is_td_object (str_val value);
      if b : bool then with_inter key (map_val (merge_td (str_val value))) st dst
      else with_inter key Some st dst
  | _ => Some (-1, st, dst)
  end.

(** The row of another partial result of the group. *)
Definition merge_row (c : AggFnCall) (key : bytes) (src : MemRow M) (st : AggState) (dst : MemRow M) :
    option (Z * AggState * MemRow M) :=
  let value := cell c src in
  if is_null value then Some (match agg_type c with OTHER => -1 | _ => 0 end, st, dst)
  else
    match agg_type c with
    | COUNT_STAR | COUNT | SUM => same_state st (add_value c value dst)
    | AVG =>
        if negb (type_eqb (type value) STRING) then Some (0, st, dst)
        else
          '(sum, count) ← avg_load (str_val (cell c dst));
          '(sum', count') ← avg_load (str_val value);
          same_state st (put_cell c (avg_store (f64_add sum sum') (i64 (count + count')) (cell c dst)) dst)
    | MIN | MAX =>
        let result := cell c dst in
        same_state st (if is_null result || replaces (agg_type c) (compare result value)
                       then put_cell c value dst else Some dst)
    | MULTI_COUNT_DISTINCT | MULTI_SUM_DISTINCT | MULTI_GROUP_CONCAT_DISTINCT =>
        st ← merge_distinct key value st; Some (0, st, dst)
    | GROUP_CONCAT => s ← get_string value; same_state st (append_text c s dst)
    | _ => merge_sketch c key value st dst
    end.

Definition merge (c : AggFnCall) (key : bytes) (src : option (MemRow M)) (st : AggState) (dst : MemRow M) :
    option (Z * AggState * MemRow M) :=
  if plain_distinct c then update c key src st dst
  else
    match agg_type c, order c with
    | GROUP_CONCAT, Some o =>
        let row := default dst src in
        let value := cell c row in
        if is_null value then Some (0, st, dst)
        else
          row ← order_row o row value;
          st ← push_row key row st;
          Some (0, st, dst)
    | _, _ =>
        match src with
        | None => merge_first c key st dst
        | Some src => merge_row c key src st dst
        end
    end.

(** ** Final values *)

(** The separator goes before a text unless nothing was written so far. *)
Definition join_text (sep result s : bytes) : bytes :=
  match result with [] => s | _ => result ++ sep ++ s end.

Definition order_exprs (o : list (Expr * bool)) : list (OrderExpr (MemRow M)) :=
  imap (fun i e => mk_order (fun row => default Null_value
                                (slot_value now 0 (Z.of_nat i + 1) (expr_type e.1) row)) e.2 e.2) o.

(** The texts of a batch that the sorter has filled. *)
Fixpoint join_rows (c : AggFnCall) (slot : Z) (l : list (MemRow M)) (result : bytes) : option bytes :=
  match l with
  | [] => Some result
  | row :: l =>
      let v := row_get row 0 slot in
      if is_null v then join_rows c slot l result
      else s ← get_string v; join_rows c slot l (join_text (sep c) result s)
  end.

Fixpoint drain (fuel : nat) (c : AggFnCall) (o : list (Expr * bool)) (s : Sorter (MemRow M)) (result : bytes) :
    option bytes :=
  match fuel with
  | O => None
  | S fuel =>
      '(s, batch, eos) ← sorter_get_next (row_compare (order_exprs o)) (no_order (order_exprs o)) s
                           (mk_batch [] 0 batch_capacity);
      result ← join_rows c (Z.of_nat (length o) + 1) (rows batch) result;
      if eos : bool then Some result else drain fuel c o s result
  end.

(** Every call of [get_next] but the last one gives a row. *)
Definition finalize_ordered (c : AggFnCall) (o : list (Expr * bool)) (key : bytes) (st : AggState)
    (dst : MemRow M) : option (Z * AggState * MemRow M) :=
  match row_batch_map st !! key with
  | None | Some [] => same_state st (put c (final_slot_id c) Null_value dst)
  | Some l =>
      s ← sorter_sort (row_compare (order_exprs o)) (no_order (order_exprs o))
            (add_batch (mk_batch l 0 batch_capacity) new_sorter);
      result ← drain (2 + length l) c o s [];
      same_state st (put_cell c (set_str result (new_ExprValue STRING)) dst)
  end.

Definition finalize_sketch (c : AggFnCall) (key : bytes) (st : AggState) (dst : MemRow M) :
    option (Z * AggState * MemRow M) :=
  let iv := inter_at key st in
  if negb (is_assign iv) then same_state (set_inter key iv st) (put c (final_slot_id c) Null_value dst)
  else if is_hll_agg (agg_type c) && raw_to_sparse then
    '(ret, s) ← hll_raw_to_sparse (str_val (val iv));
    let st := set_inter key (mk_inter true (set_str s (val iv))) st in
    if ret <? 0 then Some (-1, st, dst)
    else same_state st (put c (final_slot_id c) (set_str s (val iv)) dst)
  else same_state (set_inter key iv st) (put c (final_slot_id c) (val iv) dst).

Fixpoint add_all (result : ExprValue) (l : list ExprValue) : option ExprValue :=
  match l with
  | [] => Some result
  | v :: l => '(result, _) ← add result v; add_all result l
  end.

Definition sum_distinct (l : list ExprValue) : option ExprValue :=
  let l := uniq_order l in
  let start := match l with
               | v :: _ => if type_eqb (type v) DOUBLE || type_eqb (type v) FLOAT
                           then set_type DOUBLE (new_ExprValue INT64) else new_ExprValue INT64
               | [] => new_ExprValue INT64
               end in
  add_all start l.

Definition text_less (s1 s2 : bytes) : bool :=
  if (length s1 =? length s2)%nat then match lex_compare s1 s2 with Lt => true | _ => false end
  else (length s1 <? length s2)%nat.

Definition concat_distinct (c : AggFnCall) (l : list ExprValue) : option ExprValue :=
  texts ← mapM get_string (filter (fun v => is_null v = false) (uniq_order l));
  let sorted := std_sort text_less texts in
  let asc := match order c with Some [e] => snd e | _ => false end in
  let sorted := if asc then sorted else reverse sorted in
  Some (set_str (foldl (join_text (sep c)) [] sorted) (new_ExprValue STRING)).

Definition finalize_distinct (c : AggFnCall) (key : bytes) (is_merger : bool) (st : AggState)
    (dst : MemRow M) : option (Z * AggState * MemRow M) :=
  if negb is_merger then
    '(ret, s) ← multi_distinct_serialize (distinct_at key st);
    if negb (ret =? 0) then Some (-1, st, dst)
    else same_state st (put_cell c (set_str s (new_ExprValue STRING)) dst)
  else
    st ← merge_distinct key (cell c dst) st;
    let l := distinct_at key st in
    result ← match agg_type c with
             | MULTI_COUNT_DISTINCT => Some (u_write 8 (Z.of_nat (length l)) (new_ExprValue INT64))
             | MULTI_SUM_DISTINCT => sum_distinct l
             | _ => concat_distinct c l
             end;
    '(ret, s) ← multi_distinct_serialize l;
    if negb (ret =? 0) then Some (-1, st, dst)
    else
      dst ← put c (final_slot_id c) result dst;
      same_state st (put_cell c (set_str s (new_ExprValue STRING)) dst).

Definition finalize (c : AggFnCall) (key : bytes) (is_merger : bool) (st : AggState) (dst : MemRow M) :
    option (Z * AggState * MemRow M) :=
  match agg_type c, order c with
  | GROUP_CONCAT, Some o => finalize_ordered c o key st dst
  | t, _ =>
      if intermediate_slot_id c =? final_slot_id c then
        if is_bitmap_agg t || is_tdigest_agg t || is_hll_agg t then finalize_sketch c key st dst
        else Some (0, st, dst)
      else
        match t with
        | AVG =>
            let value := cell c dst in
            if is_null value then same_state st (put c (final_slot_id c) Null_value dst)
            else
              '(sum, count) ← avg_load (str_val value);
              same_state st
                (put c (final_slot_id c)
                   (if negb (count =? 0) then u_write 8 (f64_div sum (f64_of_Z count)) (new_ExprValue DOUBLE)
                    else Null_value) dst)
        | RB_OR_CARDINALITY_AGG | RB_AND_CARDINALITY_AGG | RB_XOR_CARDINALITY_AGG =>
            let iv := inter_at key st in
            dst ← put_cell c (val iv) dst;
            b ← bitmap (val iv);
            same_state (set_inter key iv st)
              (put c (final_slot_id c) (u_write 8 (roaring_cardinality b) (new_ExprValue UINT64)) dst)
        | MULTI_COUNT_DISTINCT | MULTI_SUM_DISTINCT | MULTI_GROUP_CONCAT_DISTINCT =>
            finalize_distinct c key is_merger st dst
        | _ => Some (0, st, dst)
        end
  end.

(** ** All calls of a node *)

(** The codes of the calls are dropped. *)
Fixpoint for_calls (f : AggFnCall -> AggState -> MemRow M -> option (Z * AggState * MemRow M))
    (calls : list (AggFnCall * AggState)) (row : MemRow M) :
    option (list (AggFnCall * AggState) * MemRow M) :=
  match calls with
  | [] => Some ([], row)
  | (c, st) :: calls =>
      '(_, st, row) ← f c st row;
      '(calls, row) ← for_calls f calls row;
      Some ((c, st) :: calls, row)
  end.

Definition initialize_all (key : bytes) (only_count : bool) := for_calls (fun c => initialize c key only_count).
Definition update_all (key : bytes) (src : option (MemRow M)) := for_calls (fun c => update c key src).
Definition merge_all (key : bytes) (src : option (MemRow M)) := for_calls (fun c => merge c key src).
Definition finalize_all (key : bytes) (is_merger : bool) := for_calls (fun c => finalize c key is_merger).

Fixpoint all_is_initialize (calls : list AggFnCall) (row : MemRow M) : option bool :=
  match calls with
  | [] => Some true
  | c :: calls => b ← is_initialize c row; if b : bool then all_is_initialize calls row else Some false
  end.

(** The value of a call in an expression above it. *)
Definition agg_value (c : AggFnCall) (row : MemRow M) : ExprValue :=
  row_get row (tuple_id c) (final_slot_id c).

End Calls.
Arguments AggFnCall {_} _.
Arguments AggState {_} _.
Arguments Expr {_} _.
