(* ===== verification/AggNode.v ===== *)
(** * The aggregation node ([src/exec/agg_node.cpp])

    Rows are grouped by a key built from the values of GROUP BY; a node keeps one row per
    group, whose slots the aggregate functions change.  On the stores the node sees rows of
    the table ([update]), above them a merger sees the rows that the stores give ([merge]). *)

From stdpp Require Import gmap.
From S2P Require Import Prelude KeyEncoder Stdio FloatArith FloatText Calendar DateTime ExprValue TableKey TableRecord Sorter Hll TDigest MemRow Agg.

(** The order in which [butil::FlatMap] visits its entries. *)
Class FlatMapOrder := flat_map_order : forall {A}, gmap bytes A -> list (bytes * A).

Section Node.
Context `{Host, RoaringLib, Zone, !RoaringOps, !UniqOrder, Murmur, Libm, Qsort, StdSort}.
Context {M : Type} `{Reflection M, MessageFactory M, FlatMapOrder}.
Variables (now : Z) (raw_to_sparse : bool) (batch_capacity : nat).

(** What C++ leaves undefined: a shift count below zero. *)
Variable bad_shift : Z -> Z.

(** [iter]: the entries from [_iter] on, once [open] has ended. *)
Record AggNode := mk_agg {
  group_exprs : list (MemRow M -> ExprValue);
  agg_fn_calls : list (AggFnCall M * AggState M);
  is_merger : bool;
  agg_limit : Z;
  hash_map : gmap bytes (MemRow M);
  iter : list (bytes * MemRow M);
  rows_returned : Z
}.

Definition set_groups (calls : list (AggFnCall M * AggState M)) (rows : gmap bytes (MemRow M)) (n : AggNode) : AggNode :=
  mk_agg (group_exprs n) calls (is_merger n) (agg_limit n) rows (iter n) (rows_returned n).

(** ** Keys of groups *)

Fixpoint encode_groups (exprs : list (MemRow M -> ExprValue)) (i : Z) (row : MemRow M) (null_flag : Z)
    (key : MutTableKey) : Z * MutTableKey :=
  match exprs with
  | [] => (null_flag, key)
  | e :: exprs =>
      let value := e row in
      if is_null value then encode_groups exprs (i + 1) row (u8 (Z.lor null_flag (null_bit bad_shift i))) key
      else encode_groups exprs (i + 1) row null_flag (append_value value key)
  end.

(** [key.data()]. *)
Definition encode_agg_key (exprs : list (MemRow M -> ExprValue)) (row : MemRow M) : option bytes :=
  let '(null_flag, key) := encode_groups exprs 0 row 0 (append_u8 0 (mk_MutTableKey false [])) in
  mk_data <$> replace_u8 null_flag 0 key.

(** ** Rows *)

(** The row, or none when the merger drops it. *)
Definition new_group (key : bytes) (row : MemRow M) (n : AggNode) :
    option (option (list (AggFnCall M * AggState M) * MemRow M)) :=
  drop ← (if is_merger n && (length (group_exprs n) =? 0)%nat
          then all_is_initialize (fst <$> agg_fn_calls n) row else Some false);
  if drop : bool then Some None
  else Some <$> initialize_all now key false (agg_fn_calls n) row.

Definition aggregate (n : AggNode) (key : bytes) (src : option (MemRow M))
    (calls : list (AggFnCall M * AggState M)) (dst : MemRow M) : option AggNode :=
  '(calls, dst) ← (if is_merger n then merge_all now key src calls dst else update_all now key src calls dst);
  Some (set_groups calls (<[key := dst]> (hash_map n)) n).

Definition process_row (row : MemRow M) (n : AggNode) : option AggNode :=
  key ← encode_agg_key (group_exprs n) row;
  match hash_map n !! key with
  | Some agg_row => aggregate n key (Some row) (agg_fn_calls n) agg_row
  | None =>
      g ← new_group key row n;
      match g with
      | None => Some n
      | Some (calls, dst) => aggregate n key None calls dst
      end
  end.

Fixpoint process_row_batch (rows : list (MemRow M)) (n : AggNode) : option AggNode :=
  match rows with
  | [] => Some n
  | row :: rows => n ← process_row row n; process_row_batch rows n
  end.

(** ** Opening *)

(** One round of the loop over a child: whether the query is cancelled, what [get_next] gives,
    and whether the memory limit is exceeded after the batch. *)
Record Round := mk_round {
  cancelled : bool;
  ret : Z;
  batch_rows : list (MemRow M);
  eos : bool;
  exceeded : bool
}.

Definition use_limit (n : AggNode) : bool := (0 <? agg_limit n) && (length (agg_fn_calls n) =? 0)%nat.
Definition limit_filled (n : AggNode) : bool :=
  use_limit n && (agg_limit n <=? Z.of_nat (base.size (hash_map n))).

(** [inl]: [open] returns the code. *)
Fixpoint read_child (rounds : list Round) (n : AggNode) : option ((Z * AggNode) + AggNode) :=
  match rounds with
  | [] => None
  | r :: rounds =>
      if cancelled r then Some (inl (0, n))
      else if ret r <? 0 then Some (inl (ret r, n))
      else
        n ← process_row_batch (batch_rows r) n;
        if exceeded r then Some (inl (-1, n))
        else if eos r || limit_filled n then Some (inr n)
        else read_child rounds n
  end.

Fixpoint read_children (children : list (list Round)) (n : AggNode) : option ((Z * AggNode) + AggNode) :=
  match children with
  | [] => Some (inr n)
  | rounds :: children =>
      r ← read_child rounds n;
      match r with inl stop => Some (inl stop) | inr n => read_children children n end
  end.

(** A global aggregate over no rows has one row, on the merger or below a packet node. *)
Definition add_empty_group (has_packet : bool) (descs : list (nat * list cpp_type)) (n : AggNode) : option AggNode :=
  if (base.size (hash_map n) =? 0)%nat && (length (group_exprs n) =? 0)%nat && (has_packet || is_merger n) then
    let key := mk_data (append_u8 0 (mk_MutTableKey false [])) in
    '(calls, row) ← initialize_all now key true (agg_fn_calls n) (fetch_mem_row descs);
    Some (set_groups calls (<[key := row]> (hash_map n)) n)
  else Some n.

Definition start_iter (n : AggNode) : AggNode :=
  mk_agg (group_exprs n) (agg_fn_calls n) (is_merger n) (agg_limit n) (hash_map n)
    (flat_map_order (hash_map n)) (rows_returned n).

(** The calls and expressions are open; rows in memory. *)
Definition agg_node_open (has_packet : bool) (descs : list (nat * list cpp_type)) (children : list (list Round))
    (n : AggNode) : option (Z * AggNode) :=
  r ← read_children children n;
  match r with
  | inl (code, n) => Some (code, start_iter n)
  | inr n => n ← add_empty_group has_packet descs n; Some (0, start_iter n)
  end.

(** ** Results *)

Definition reached (n : AggNode) : bool := negb (agg_limit n =? -1) && (agg_limit n <=? rows_returned n).

Definition move_iter (calls : list (AggFnCall M * AggState M)) (rest : list (bytes * MemRow M)) (n : AggNode) : AggNode :=
  mk_agg (group_exprs n) calls (is_merger n) (agg_limit n) (hash_map n) rest (rows_returned n + 1).

(** [polls]: the answers of [is_cancelled], one per round. *)
Fixpoint next_rows (polls : list bool) (fuel : nat) (n : AggNode) (batch : RowBatch (MemRow M)) :
    option (AggNode * RowBatch (MemRow M) * bool) :=
  match fuel with
  | O => None
  | S fuel =>
      if default false (head polls) then Some (n, batch, true)
      else if reached n then Some (n, batch, true)
      else
        match iter n with
        | [] => Some (n, batch, true)
        | (key, row) :: rest =>
            if is_full batch then Some (n, batch, false)
            else
              '(calls, row) ← finalize_all now raw_to_sparse batch_capacity key (is_merger n) (agg_fn_calls n) row;
              next_rows (tail polls) fuel (move_iter calls rest n) (move_row row batch)
        end
  end.

(** Every round but the last one takes an entry. *)
Definition agg_get_next (polls : list bool) (n : AggNode) (batch : RowBatch (MemRow M)) :
    option (AggNode * RowBatch (MemRow M) * bool) :=
  next_rows polls (S (length (iter n))) n batch.

End Node.
Arguments AggNode {_} _.
