(* ===== verification/AggAcc.v ===== *)
(** * Cells of aggregates and the accumulators they encode

    What the slots of a row hold for every aggregate, and the accumulators whose updates,
    merges and final values the operations of [Agg] compute on those cells. *)

From stdpp Require Import gmap.
From S2P Require Import Prelude KeyEncoder Stdio FloatArith FloatText FloatExact Calendar DateTime ExprValue ExprValueFacts Sorter Hll TDigest TableKey TableRecord MemRow Agg.

(** Changing a field keeps the types of the fields. *)
Class DescriptorLaws (M : Type) `{Reflection M} := {
  cpp_type_set ct f p m g : field_cpp_type (SetField ct f p m) g = field_cpp_type m g;
  cpp_type_clear f m g : field_cpp_type (ClearField f m) g = field_cpp_type m g
}.

Section Slots.
Context `{Host, RoaringLib, Zone} {M : Type} `{Reflection M}.
Context `{!ReflectionLaws M, !DescriptorLaws M}.

(** ** Slots *)

(** The value a slot of numbers gives. *)
Definition slot_num (ct : cpp_type) (x : Z) : ExprValue :=
  match ct with
  | CPPTYPE_INT32 => u_write 4 x (new_ExprValue INT32)
  | CPPTYPE_UINT32 => u_write 4 x (new_ExprValue UINT32)
  | CPPTYPE_INT64 => u_write 8 x (new_ExprValue INT64)
  | CPPTYPE_UINT64 => u_write 8 x (new_ExprValue UINT64)
  | CPPTYPE_FLOAT => u_write 4 x (new_ExprValue FLOAT)
  | CPPTYPE_DOUBLE => u_write 8 x (new_ExprValue DOUBLE)
  | CPPTYPE_BOOL => u_write 1 x (new_ExprValue BOOL)
  | CPPTYPE_STRING => new_ExprValue STRING
  end.

Definition slot_str (s : bytes) : ExprValue := set_str s (new_ExprValue STRING).

Definition slot_num_type (ct : cpp_type) : num_type :=
  match ct with
  | CPPTYPE_INT32 => TInt 32
  | CPPTYPE_UINT32 => TUint 32
  | CPPTYPE_INT64 => TInt 64
  | CPPTYPE_UINT64 => TUint 64
  | CPPTYPE_FLOAT => TFloat
  | CPPTYPE_DOUBLE => TDouble
  | _ => TBool
  end.

(** What a slot gives after a value was stored in it. *)
Definition stored (ct : cpp_type) (v : ExprValue) : option ExprValue :=
  if is_null v then Some (new_ExprValue NULL_TYPE)
  else if decide (ct = CPPTYPE_STRING) then slot_str <$> get_string v
  else slot_num ct <$> get_numberic (slot_num_type ct) v.

Lemma get_value_cpp f (m m' : M) :
  HasField m' f = HasField m f -> field_cpp_type m' f = field_cpp_type m f ->
  (forall ct, GetField ct m' f = GetField ct m f) -> get_value f m' = get_value f m.
Proof. intros Eh Et Eg. unfold get_value, GetNum, GetString. by rewrite Eh, Et, !Eg. Qed.

Lemma get_set_field ct f p (m : M) :
  field_cpp_type m f = ct ->
  get_value f (SetField ct f p m)
    = if decide (ct = CPPTYPE_STRING) then slot_str (pb_str p) else slot_num ct (pb_num p).
Proof.
  intros <-. unfold get_value. rewrite has_set, cpp_type_set. unfold GetNum, GetString.
  destruct (field_cpp_type m f) eqn:E; cbn [negb]; rewrite <- ?E, get_set; rewrite ?E; reflexivity.
Qed.

Lemma set_value_field f v (m : M) w :
  is_null v = false -> stored (field_cpp_type m f) v = Some w ->
  exists p, set_value f v m = Some (0, SetField (field_cpp_type m f) f p m)
    /\ w = if decide (field_cpp_type m f = CPPTYPE_STRING) then slot_str (pb_str p)
           else slot_num (field_cpp_type m f) (pb_num p).
Proof.
  unfold stored, set_value. intros ->. destruct (field_cpp_type m f) eqn:Ec;
    cbn [decide decide_rel cpp_type_eq_dec slot_num_type]; intros E.
  all: try (destruct (get_numberic _ v) as [x|]; [|discriminate E]; injection E as <-;
            exists (PNum x); split; reflexivity).
  destruct (get_string v) as [x|]; [|discriminate E]; injection E as <-;
    exists (PStr x); split; reflexivity.
Qed.

Lemma set_value_stored f v (m : M) w :
  stored (field_cpp_type m f) v = Some w ->
  exists m', set_value f v m = Some (0, m') /\ get_value f m' = w
    /\ (forall g, g <> f -> get_value g m' = get_value g m)
    /\ (forall g, field_cpp_type m' g = field_cpp_type m g).
Proof.
  intros E. destruct (is_null v) eqn:En.
  - unfold stored in E. unfold set_value. rewrite En in E |- *. injection E as <-.
    eexists. split; [reflexivity|]. split; [|split].
    + unfold get_value. by rewrite has_clear.
    + intros g Hg. apply get_value_cpp; [by apply has_clear_ne|by apply cpp_type_clear|].
      intros ct. by apply get_clear_ne.
    + intros g. apply cpp_type_clear.
  - destruct (set_value_field f v m w En E) as (p & -> & ->). eexists. split; [reflexivity|].
    split; [by apply get_set_field|]. split.
    + intros g Hg. apply get_value_cpp; [by apply has_set_ne|by apply cpp_type_set|].
      intros ct. by apply get_set_ne.
    + intros g. apply cpp_type_set.
Qed.

(** *** Rows *)

(** The type of a slot of a row. *)
Definition slot_cpp (row : MemRow M) (t : nat) (slot : Z) : option cpp_type :=
  (fun m => field_cpp_type m (slot - 1)) <$> get_tuple row t.

(** The rows agree but for slots of one tuple. *)
Record frame (t : nat) (slots : list Z) (row row' : MemRow M) : Prop := {
  frame_tuple t' : t' <> t -> get_tuple row' t' = get_tuple row t';
  frame_slot s : s ∉ slots -> row_get row' t s = row_get row t s;
  frame_cpp s : slot_cpp row' t s = slot_cpp row t s
}.

Lemma frame_refl t slots row : frame t slots row row.
Proof. by constructor. Qed.

Lemma frame_trans t slots r1 r2 r3 : frame t slots r1 r2 -> frame t slots r2 r3 -> frame t slots r1 r3.
Proof.
  intros F G. constructor.
  - intros t' Ht. by rewrite (frame_tuple _ _ _ _ G), (frame_tuple _ _ _ _ F).
  - intros s Hs. by rewrite (frame_slot _ _ _ _ G), (frame_slot _ _ _ _ F).
  - intros s. by rewrite (frame_cpp _ _ _ _ G), (frame_cpp _ _ _ _ F).
Qed.

Lemma frame_weaken t l l' row row' : l ⊆ l' -> frame t l row row' -> frame t l' row row'.
Proof. intros Hl [Ft Fs Fc]. constructor; [done| |done]. intros s Hs. apply Fs. set_solver. Qed.

Lemma get_set_tuple t m (row : MemRow M) t' :
  is_Some (get_tuple row t) ->
  get_tuple (set_tuple t m row) t' = if decide (t' = t) then Some m else get_tuple row t'.
Proof.
  intros Ht. unfold get_tuple, set_tuple in *. cbn [tuples]. case_decide as Et; [subst t'|].
  - rewrite list_lookup_insert_eq; [done|]. apply lookup_lt_is_Some. destruct (tuples row !! t); [done|].
    by destruct Ht.
  - by rewrite list_lookup_insert_ne.
Qed.

Lemma row_set_stored t slot v (row : MemRow M) ct w :
  slot_cpp row t slot = Some ct -> stored ct v = Some w ->
  exists row', row_set t slot v row = Some (0, row') /\ row_get row' t slot = w /\ frame t [slot] row row'.
Proof.
  unfold slot_cpp. intros Ec Es. destruct (get_tuple row t) as [m|] eqn:Em; [|done].
  cbn in Ec. injection Ec as <-. destruct (set_value_stored _ _ _ _ Es) as (m' & E & Ew & Eo & Et).
  unfold row_set. rewrite Em, E. eexists. split; [reflexivity|].
  assert (Ht := get_set_tuple t m' row). rewrite Em in Ht. specialize (fun x => Ht x (mk_is_Some _ _ eq_refl)).
  split; [unfold row_get; by rewrite Ht, decide_True by done|]. constructor.
  - intros t' Ht'. rewrite Ht by done. by rewrite decide_False.
  - intros s Hs. unfold row_get. rewrite Ht, decide_True, Em by done. apply Eo. intros E'.
    apply Hs. assert (s = slot) as -> by lia. left.
  - intros s. unfold slot_cpp. rewrite Ht, decide_True, Em by done. cbn. by rewrite Et.
Qed.

End Slots.

Ltac in_width := first [lia | assumption | unfold is_i, is_u in *; lia].

(** Removes conversions of a number in their range. *)
Ltac unwrap x :=
  repeat match goal with
         | |- context [wrap ?w x] => first [rewrite (swrap_wrap_id w x) by in_width | rewrite (wrap_id w x) by in_width]
         | |- context [swrap ?w x] => rewrite (swrap_id w x) by in_width
         end.

(** ** Types with an order *)

Section Types.
Context `{Host, RoaringLib, Zone}.
Variable now : Z.

Definition orderable (t : PrimitiveType) : bool :=
  match t with
  | INT8 | INT16 | INT32 | INT64 | UINT8 | UINT16 | UINT32 | UINT64
  | DATE | TIMESTAMP | TIME | DATETIME | STRING => true
  | _ => false
  end.

(** The values of a type. *)
Definition in_type (t : PrimitiveType) (a : sem) : Prop :=
  match t, a with
  | STRING, SemStr _ => True
  | INT8, SemInt x => is_i 8 x
  | INT16, SemInt x => is_i 16 x
  | (INT32 | TIME), SemInt x => is_i 32 x
  | INT64, SemInt x => is_i 64 x
  | UINT8, SemInt x => is_u 8 x
  | UINT16, SemInt x => is_u 16 x
  | (UINT32 | DATE | TIMESTAMP), SemInt x => is_u 32 x
  | (UINT64 | DATETIME), SemInt x => is_u 64 x
  | _, _ => False
  end.

Definition cpp_of_type (t : PrimitiveType) : cpp_type := default CPPTYPE_STRING (slot_cpp_type t).

Definition enc_sem (ct : cpp_type) (a : sem) : ExprValue :=
  match a with SemInt x => slot_num ct x | SemStr s => slot_str s end.

Lemma read_ranges v :
  value_ok v ->
  (is_u 8 (u_read 1 v) /\ is_u 16 (u_read 2 v) /\ is_u 32 (u_read 4 v) /\ is_u 64 (u_read 8 v))
  /\ is_i 8 (int8_val v) /\ is_i 16 (int16_val v) /\ is_i 32 (int32_val v) /\ is_i 64 (int64_val v).
Proof.
  intros Hv. split; [split_and!|split_and!; by apply swrap_range].
  - apply (u_read_range 1 v Hv). lia.
  - apply (u_read_range 2 v Hv). lia.
  - apply (u_read_range 4 v Hv). lia.
  - apply (u_read_range 8 v Hv). lia.
Qed.

Lemma stored_num ct v x :
  is_null v = false -> ct <> CPPTYPE_STRING -> get_numberic (slot_num_type ct) v = Some x ->
  stored ct v = Some (slot_num ct x).
Proof. intros En Hc Ex. unfold stored. by rewrite En, decide_False, Ex. Qed.

Lemma stored_str v s :
  is_null v = false -> get_string v = Some s -> stored CPPTYPE_STRING v = Some (slot_str s).
Proof. intros En Ex. unfold stored. by rewrite En, decide_True, Ex. Qed.

Lemma orderable_not_null t v : orderable t = true -> type v = t -> is_null v = false.
Proof. intros Ho Et. unfold is_null, type_eqb. rewrite Et. by destruct t. Qed.

Lemma value_stored t v :
  orderable t = true -> type v = t -> value_ok v ->
  exists a, denote v = Some a /\ in_type t a /\ stored (cpp_of_type t) v = Some (enc_sem (cpp_of_type t) a).
Proof.
  intros Ho Et Hv. pose proof (orderable_not_null t v Ho Et) as En.
  destruct (read_ranges v Hv) as [(U1 & U2 & U4 & U8) (I1 & I2 & I4 & I8)].
  unfold denote. rewrite Et.
  destruct t; try discriminate Ho; eexists; (split; [reflexivity|]); (split; [done|]).
  all: cbn [cpp_of_type slot_cpp_type from_option enc_sem].
  all: try (apply stored_str; [done|unfold get_string; by rewrite Et]).
  all: apply stored_num; [done|done|]; unfold get_numberic; rewrite Et; cbn [conv_int slot_num_type]; f_equal.
  all: first [apply swrap_id; [lia|]|apply wrap_id].
  all: try done.
  all: unfold is_i, is_u, uint8_val, uint16_val in *; cbn [member_width]; lia.
Qed.

Lemma read_write w n x v : 8 * Z.of_nat n = w -> u_read n (u_write n x v) = wrap w x.
Proof. intros <-. apply u_read_write. Qed.

Lemma cast_back t a :
  orderable t = true -> in_type t a ->
  exists v, cast_to now t (enc_sem (cpp_of_type t) a) = Some v /\ type v = t /\ denote v = Some a.
Proof.
  intros Ho Ha. destruct a as [x|s]; [|by destruct t; try discriminate Ho; try done; eexists].
  destruct t; try discriminate Ho; try done; cbn in Ha; eexists; (split; [reflexivity|]);
    (split; [reflexivity|]); unfold denote; cbn [type set_type u_write new_ExprValue]; do 2 f_equal.
  all: unfold int8_val, int16_val, int32_val, int64_val, uint8_val, uint16_val, uint32_val, uint64_val.
  all: rewrite ?u_read_set_type; cbn [member_width conv_int type set_type u_write new_ExprValue
         enc_sem cpp_of_type slot_cpp_type from_option id slot_num].
  all: rewrite ?(read_write 8), ?(read_write 16), ?(read_write 32), ?(read_write 64) by reflexivity.
  all: by unwrap x.
Qed.

Lemma denote_enc t a :
  orderable t = true -> in_type t a -> denote (enc_sem (cpp_of_type t) a) = Some a.
Proof.
  intros Ho Ha. destruct a as [x|s]; destruct t; try discriminate Ho; try done; cbn in Ha;
    unfold denote; cbn [type set_type u_write new_ExprValue enc_sem cpp_of_type slot_cpp_type from_option id
      slot_num]; do 2 f_equal.
  all: unfold int32_val, int64_val; cbn [member_width].
  all: rewrite ?(read_write 32), ?(read_write 64) by reflexivity.
  all: by unwrap x.
Qed.

Lemma enc_not_null t a : orderable t = true -> in_type t a -> is_null (enc_sem (cpp_of_type t) a) = false.
Proof. intros Ho Ha. by destruct a, t. Qed.

Lemma stored_enc t a :
  orderable t = true -> in_type t a ->
  stored (cpp_of_type t) (enc_sem (cpp_of_type t) a) = Some (enc_sem (cpp_of_type t) a).
Proof.
  intros Ho Ha. pose proof (enc_not_null t a Ho Ha) as En.
  destruct a as [x|s]; destruct t; try discriminate Ho; try done; cbn in Ha.
  all: cbn [cpp_of_type slot_cpp_type from_option id enc_sem] in *; apply stored_num; [done|done|].
  all: unfold get_numberic; cbn [slot_num type u_write new_ExprValue slot_num_type conv_int].
  all: f_equal; unfold int32_val, int64_val, uint32_val, uint64_val.
  all: rewrite ?(read_write 32), ?(read_write 64) by reflexivity; by unwrap x.
Qed.

Lemma enc_type t a b :
  in_type t a -> in_type t b -> type (enc_sem (cpp_of_type t) a) = type (enc_sem (cpp_of_type t) b).
Proof. intros Ha Hb. by destruct a, b, t. Qed.

End Types.

(** [weight]: the sum of the absolute values, which bounds every partial sum. *)
Inductive Acc := ANone | AVal (a : sem) | AAvg (sum count weight : Z).

Section Acc.
Context `{Host, RoaringLib, Zone, !RoaringOps, !UniqOrder, Murmur, Libm, Qsort, StdSort}.
Context {M : Type} `{Reflection M, MessageFactory M, !ReflectionLaws M, !DescriptorLaws M}.
Variables (now : Z) (raw_to_sparse : bool) (batch_capacity : nat).
Implicit Types (c : AggFnCall M) (row src dst : MemRow M) (a b : Acc).

Definition avg_text (sum count : Z) : bytes := mem_store 8 (f64_of_Z sum) ++ mem_store 8 (u64 count).

Definition enc (ct : cpp_type) (a : Acc) : ExprValue :=
  match a with
  | ANone => new_ExprValue NULL_TYPE
  | AVal a => enc_sem ct a
  | AAvg sum count _ => slot_str (avg_text sum count)
  end.

(** The types of the two slots of a call. *)
Definition call_cpp c : cpp_type :=
  match agg_type c with
  | COUNT_STAR | COUNT | SUM => CPPTYPE_INT64
  | MIN | MAX => cpp_of_type (col_type c)
  | _ => CPPTYPE_STRING
  end.
Definition final_cpp c : cpp_type := match agg_type c with AVG => CPPTYPE_DOUBLE | _ => call_cpp c end.

(** The calls of this file. *)
Definition simple_call c : bool :=
  negb (is_distinct c) &&
  match agg_type c with
  | COUNT_STAR | COUNT => intermediate_slot_id c =? final_slot_id c
  | SUM => negb (length (children c) =? 0)%nat && (intermediate_slot_id c =? final_slot_id c)
  | AVG => negb (length (children c) =? 0)%nat && negb (intermediate_slot_id c =? final_slot_id c)
  | MIN | MAX => negb (length (children c) =? 0)%nat && orderable (col_type c)
                 && (intermediate_slot_id c =? final_slot_id c)
  | GROUP_CONCAT => negb (length (children c) =? 0)%nat && match order c with None => true | _ => false end
                    && (intermediate_slot_id c =? final_slot_id c)
  | _ => false
  end.

Definition unit c : Acc :=
  match agg_type c with
  | COUNT_STAR | COUNT => AVal (SemInt 0)
  | AVG => AAvg 0 0 0
  | _ => ANone
  end.

(** The second of two values replaces the first one. *)
Definition later (t : AggType) (x y : sem) : bool :=
  match t, sem_compare x y with MIN, Gt => true | MAX, Lt => true | _, _ => false end.

Definition join_val c (x y : sem) : sem :=
  match agg_type c, x, y with
  | (MIN | MAX), _, _ => if later (agg_type c) x y then y else x
  | GROUP_CONCAT, SemStr s, SemStr t => SemStr (s ++ sep c ++ t)
  | _, SemInt x, SemInt y => SemInt (i64 (x + y))
  | _, _, _ => x
  end.

Definition join c a b : Acc :=
  match a, b with
  | ANone, _ => b
  | _, ANone => a
  | AVal x, AVal y => AVal (join_val c x y)
  | AAvg s n w, AAvg s' n' w' => AAvg (s + s') (n + n') (w + w')
  | _, _ => a
  end.

(** ** Well-formed accumulators *)

Definition shaped c a : Prop :=
  match agg_type c, a with
  | (COUNT_STAR | COUNT), AVal (SemInt x) => is_i 64 x
  | SUM, ANone => True
  | SUM, AVal (SemInt x) => is_i 64 x
  | (MIN | MAX), ANone => True
  | (MIN | MAX), AVal x => in_type (col_type c) x
  | GROUP_CONCAT, ANone => True
  | GROUP_CONCAT, AVal (SemStr _) => True
  | AVG, AAvg s n w => Z.abs s <= w /\ 0 <= n /\ (n = 0 -> w = 0)
  | _, _ => False
  end.

Definition weight a : Z := match a with AAvg _ _ w => w | _ => 0 end.
Definition count a : Z := match a with AAvg _ n _ => n | _ => 0 end.

(** Sums of doubles are exact and the count does not overflow. *)
Definition bounded a : Prop := weight a < 2 ^ 53 /\ count a < 2 ^ 63.

Lemma unit_shaped c : simple_call c = true -> shaped c (unit c).
Proof.
  unfold simple_call, shaped, unit. intros Hc%andb_prop. destruct Hc as [_ Hc].
  by destruct (agg_type c).
Qed.

Lemma later_range c x y t : in_type t x -> in_type t y -> in_type t (if later (agg_type c) x y then y else x).
Proof. by case_match. Qed.

Lemma join_shaped c a b : shaped c a -> shaped c b -> shaped c (join c a b).
Proof.
  unfold shaped, join, join_val.
  destruct (agg_type c), a as [|x|s n w], b as [|y|s' n' w']; try done;
    try (destruct x as [x|x]; try done); try (destruct y as [y|y]; try done).
  all: intros; repeat case_match; simplify_eq; try done; try (by apply swrap_range); try lia.
Qed.

Lemma weight_nonneg c a : shaped c a -> 0 <= weight a /\ 0 <= count a.
Proof. unfold shaped. destruct (agg_type c), a as [|[]|]; cbn; lia || done. Qed.

Lemma weight_join c a b :
  shaped c a -> shaped c b ->
  weight (join c a b) = weight a + weight b /\ count (join c a b) = count a + count b.
Proof.
  unfold shaped, join. destruct (agg_type c), a as [|[]|], b as [|[]|]; cbn; lia || done.
Qed.

Lemma bounded_join c a b :
  shaped c a -> shaped c b -> bounded (join c a b) -> bounded a /\ bounded b.
Proof.
  intros Ha Hb [Hw Hn]. destruct (weight_join c a b Ha Hb) as [Ew En].
  pose proof (weight_nonneg c a Ha). pose proof (weight_nonneg c b Hb). unfold bounded. lia.
Qed.

(** ** Laws *)

Lemma join_unit_l c a : shaped c a -> join c (unit c) a = a.
Proof.
  unfold shaped, join, unit, join_val. destruct (agg_type c) eqn:E, a as [|[x|x]|s n w]; try done; cbn;
    intros Hx; rewrite ?E; rewrite ?swrap_id by (done || lia); done.
Qed.

Lemma join_unit_r c a : shaped c a -> join c a (unit c) = a.
Proof.
  unfold shaped, join, unit, join_val. destruct (agg_type c) eqn:E, a as [|[x|x]|s n w]; try done; cbn;
    intros Hx; rewrite ?E, ?Z.add_0_r; rewrite ?swrap_id by (done || lia); done.
Qed.

Lemma swrap_add_l w x y : 0 < w -> swrap w (swrap w x + y) = swrap w (x + y).
Proof.
  intros Hw. rewrite <- (swrap_wrap w (swrap w x + y)), <- (swrap_wrap w (x + y)) by done.
  f_equal. unfold wrap. rewrite <- Zplus_mod_idemp_l.
  change (swrap w x mod 2 ^ w) with (wrap w (swrap w x)). rewrite wrap_swrap by done.
  unfold wrap. by rewrite Zplus_mod_idemp_l.
Qed.

Lemma swrap_add_r w x y : 0 < w -> swrap w (x + swrap w y) = swrap w (x + y).
Proof. intros Hw. by rewrite (Z.add_comm x), swrap_add_l, Z.add_comm by done. Qed.

Lemma later_assoc t x y z :
  let m x y := if later t x y then y else x in m (m x y) z = m x (m y z).
Proof.
  assert (Hgt : forall p q r, sem_compare p q = Gt -> sem_compare q r <> Lt -> sem_compare p r = Gt).
  { intros p q r Hp Hq. destruct (sem_compare q r) eqn:E; [apply sem_compare_eq in E as ->; done|done|].
    by apply (sem_compare_trans Gt p q r). }
  assert (Hlt : forall p q r, sem_compare p q = Lt -> sem_compare q r <> Gt -> sem_compare p r = Lt).
  { intros p q r Hp Hq. destruct (sem_compare q r) eqn:E; [apply sem_compare_eq in E as ->; done| |done].
    by apply (sem_compare_trans Lt p q r). }
  unfold later. destruct t; try done; cbn zeta;
    destruct (sem_compare x y) eqn:Exy, (sem_compare y z) eqn:Eyz; rewrite ?Exy, ?Eyz; try done.
  all: try (apply sem_compare_eq in Exy as ->; rewrite ?Eyz; try done).
  all: try (apply sem_compare_eq in Eyz as ->; rewrite ?Exy; try done).
  all: try (rewrite (sem_compare_trans Lt x y z); done).
  all: try (rewrite (sem_compare_trans Gt x y z); done).
Qed.

Lemma join_assoc c a b d :
  shaped c a -> shaped c b -> shaped c d -> join c (join c a b) d = join c a (join c b d).
Proof.
  unfold shaped, join, join_val. destruct (agg_type c) eqn:E.
  all: destruct a as [|[x|x]|s n w], b as [|[y|y]|s' n' w'], d as [|[z|z]|s2 n2 w2]; try done; intros; f_equal.
  all: try (by rewrite swrap_add_l, swrap_add_r, Z.add_assoc by lia).
  all: try (apply (later_assoc MIN)); try (apply (later_assoc MAX)).
  all: try lia.
  all: by rewrite <- ?app_assoc.
Qed.

(** ** What rows contribute *)

(** [b] is what a row adds to a call. *)
Definition contributes c row b : Prop :=
  match agg_type c, children c with
  | COUNT_STAR, _ => b = AVal (SemInt 1)
  | COUNT, es => b = AVal (SemInt (if existsb (fun e => is_null (eval e row)) es then 0 else 1))
  | SUM, e :: _ =>
      if is_null (eval e row) then b = ANone
      else exists y, get_numberic (TInt 64) (eval e row) = Some y /\ b = AVal (SemInt y)
  | AVG, e :: _ =>
      if is_null (eval e row) then b = AAvg 0 0 0
      else exists x, get_numberic TDouble (eval e row) = Some (f64_of_Z x) /\ b = AAvg x 1 (Z.abs x)
  | (MIN | MAX), e :: _ =>
      exists v, cast_to now (col_type c) (eval e row) = Some v /\
        if is_null v then b = ANone
        else type v = col_type c /\ value_ok v /\ exists x, denote v = Some x /\ b = AVal x
  | GROUP_CONCAT, e :: _ =>
      exists r, concat_parts (parts e) row None = Some r /\
        b = match r with None => ANone | Some s => AVal (SemStr s) end
  | _, _ => False
  end.

(** The slots have their types. *)
Definition typed c row : Prop :=
  slot_cpp row (tuple_id c) (intermediate_slot_id c) = Some (call_cpp c)
  /\ slot_cpp row (tuple_id c) (final_slot_id c) = Some (final_cpp c).

Definition slots c : list Z := [intermediate_slot_id c; final_slot_id c].

(** The cell of a call holds an accumulator. *)
Definition holds c row a : Prop := cell c row = enc (call_cpp c) a.

(** What an operation on the slots of a call promises. *)
Definition does c (r : option (MemRow M)) row a : Prop :=
  exists row', r = Some row' /\ holds c row' a /\ frame (tuple_id c) (slots c) row row'.

Lemma put_cell_does c v row a :
  typed c row -> stored (call_cpp c) v = Some (enc (call_cpp c) a) -> does c (put_cell c v row) row a.
Proof.
  intros [Ht _] Hs. destruct (row_set_stored _ _ _ _ _ _ Ht Hs) as (row' & E & Ec & F).
  exists row'. unfold put_cell, put. rewrite E. split; [done|]. split; [done|].
  eapply frame_weaken; [|exact F]. unfold slots. set_solver.
Qed.

Lemma stays c row a : holds c row a -> does c (Some row) row a.
Proof. intros Hh. exists row. split; [done|]. split; [done|apply frame_refl]. Qed.

Lemma stored_int64 v x :
  type v = INT64 -> int64_val v = x -> stored CPPTYPE_INT64 v = Some (enc_sem CPPTYPE_INT64 (SemInt x)).
Proof.
  intros Et <-. apply stored_num; [|done|].
  - unfold is_null, type_eqb. by rewrite Et.
  - unfold get_numberic. rewrite Et. cbn [conv_int slot_num_type]. f_equal. apply swrap_id; [lia|].
    by apply swrap_range.
Qed.

Lemma int64_write x v : int64_val (u_write 8 x v) = i64 x.
Proof. unfold int64_val. rewrite (read_write 64) by reflexivity. by apply swrap_wrap. Qed.

Lemma increment_does c row x :
  typed c row -> call_cpp c = CPPTYPE_INT64 -> is_i 64 x -> holds c row (AVal (SemInt x)) ->
  does c (increment c row) row (AVal (SemInt (i64 (x + 1)))).
Proof.
  intros Ht Ec Hx Hh. apply put_cell_does; [done|]. unfold holds in Hh. rewrite Hh, Ec. cbn [enc enc_sem slot_num].
  rewrite int64_write, (swrap_id 64 x) by (lia || done). apply stored_int64; [done|].
  rewrite int64_write. apply swrap_id; [lia|]. by apply swrap_range.
Qed.

(** SUM, and the merge of COUNT. *)
Lemma add_value_does c row value a y :
  typed c row -> call_cpp c = CPPTYPE_INT64 -> (agg_type c = SUM \/ is_count (agg_type c) = true) ->
  shaped c a -> holds c row a -> is_null value = false -> get_numberic (TInt 64) value = Some y ->
  does c (add_value c value row) row (join c a (AVal (SemInt y))).
Proof.
  intros Ht Ec Hc Ha Hh En Ey. unfold add_value. rewrite En. unfold holds in Hh. rewrite Hh, Ec.
  assert (Hj : forall x, join_val c (SemInt x) (SemInt y) = SemInt (i64 (x + y))).
  { intros x. unfold join_val. by destruct Hc as [->|Hc]; [|destruct (agg_type c)]. }
  unfold shaped in Ha. destruct a as [|[x|x]|].
  - cbn. apply put_cell_does; [done|]. rewrite Ec. by apply stored_num.
  - cbn [enc enc_sem slot_num add type u_write new_ExprValue].
    unfold add. cbn [type u_write new_ExprValue]. unfold add_number. rewrite Ey. cbn [mbind option_bind].
    apply put_cell_does; [done|]. rewrite Ec. cbn [join enc]. rewrite Hj. apply stored_int64; [done|].
    change (int64_val (slot_num CPPTYPE_INT64 x)) with (int64_val (u_write 8 x (new_ExprValue INT64))).
    rewrite int64_write, int64_write. rewrite (swrap_id 64 x); [done|lia|].
    by destruct Hc as [Hc|Hc]; [rewrite Hc in Ha|destruct (agg_type c)].
  - by destruct Hc as [Hc|Hc]; [rewrite Hc in Ha|destruct (agg_type c)].
  - by destruct Hc as [Hc|Hc]; [rewrite Hc in Ha|destruct (agg_type c)].
Qed.

Lemma in_range_i64 z y : in_range (- 2 ^ (64 - 1)) (2 ^ (64 - 1)) z = Some y -> is_i 64 y.
Proof. unfold in_range, is_i. intros E. repeat case_match; simplify_eq. lia. Qed.

Lemma get_int64_range v y : get_numberic (TInt 64) v = Some y -> is_i 64 y.
Proof.
  assert (Hc : forall z, Some (conv_int (TInt 64) z) = Some y -> is_i 64 y).
  { intros z [= <-]. by apply swrap_range. }
  unfold get_numberic. destruct (type v); try apply Hc.
  1,2: destruct (round_precision _ _ _ _) as [x|]; [|done]; cbn; destruct (fp_trunc _ _ x); [|done];
    apply in_range_i64.
Qed.

Lemma simple_parts c :
  simple_call c = true ->
  is_distinct c = false /\ plain_distinct c = false
  /\ (agg_type c <> AVG -> intermediate_slot_id c = final_slot_id c)
  /\ (agg_type c = AVG -> intermediate_slot_id c <> final_slot_id c)
  /\ (agg_type c = MIN \/ agg_type c = MAX -> orderable (col_type c) = true)
  /\ (agg_type c = GROUP_CONCAT -> order c = None)
  /\ is_hll_agg (agg_type c) = false /\ is_bitmap_agg (agg_type c) = false
  /\ is_tdigest_agg (agg_type c) = false /\ is_multi (agg_type c) = false.
Proof.
  unfold simple_call, plain_distinct. intros [Hd Hc]%andb_prop. apply negb_true_iff in Hd. rewrite Hd.
  destruct (agg_type c); try discriminate Hc; repeat (apply andb_prop in Hc as [Hc ?]).
  all: split_and!; try done; try (intros [|]; done); try (intros _; destruct (order c); done).
  all: try (intros _; by apply Z.eqb_eq).
  all: intros _; by apply Z.eqb_neq, negb_true_iff.
Qed.

Lemma contributes_shaped c row b : simple_call c = true -> contributes c row b -> shaped c b.
Proof.
  intros Hs. destruct (simple_parts c Hs) as (_ & _ & _ & _ & Ho & _).
  unfold contributes, shaped. destruct (agg_type c), (children c) as [|e es]; try done.
  - intros ->. by split.
  - intros ->. by split.
  - intros ->. by destruct (existsb _ _).
  - intros ->. by destruct (existsb _ _).
  - destruct (is_null _); [by intros ->|]. intros (y & Ey & ->). by eapply get_int64_range.
  - destruct (is_null _); [intros ->; lia|]. intros (x & _ & ->). lia.
  - intros (v & _ & Hv). destruct (is_null v); [by subst|]. destruct Hv as (Et & Hv & x & Ex & ->).
    destruct (value_stored _ v (Ho (or_introl eq_refl)) Et Hv) as (x' & Ex' & Hx & _). congruence.
  - intros (v & _ & Hv). destruct (is_null v); [by subst|]. destruct Hv as (Et & Hv & x & Ex & ->).
    destruct (value_stored _ v (Ho (or_intror eq_refl)) Et Hv) as (x' & Ex' & Hx & _). congruence.
  - intros (r & _ & ->). by destruct r.
Qed.

Lemma replaces_later t v w x y :
  (t = MIN \/ t = MAX) -> type v = type w -> denote v = Some x -> denote w = Some y ->
  replaces t (compare v w) = later t x y.
Proof.
  intros Ht Et Ex Ey. unfold later. rewrite <- (compare_denotes v w x y Et Ex Ey). unfold int_cmp.
  destruct Ht as [->| ->]; cbn [replaces]; destruct (Z.compare_spec (compare v w) 0); lia.
Qed.

(** One step of MIN or MAX: [result] is the cell, possibly cast. *)
Lemma keep_does c row result value a y :
  (agg_type c = MIN \/ agg_type c = MAX) -> typed c row -> orderable (col_type c) = true ->
  shaped c a -> holds c row a -> (a = ANone -> is_null result = true) ->
  (forall x, a = AVal x -> is_null result = false /\ type result = type value /\ denote result = Some x) ->
  denote value = Some y -> stored (call_cpp c) value = Some (enc (call_cpp c) (AVal y)) ->
  does c (if is_null result || replaces (agg_type c) (compare result value) then put_cell c value row else Some row)
    row (join c a (AVal y)).
Proof.
  intros Hc Ht Ho Ha Hh Hn Hv Ey Es. destruct a as [|x|].
  - rewrite (Hn eq_refl). cbn [orb join]. by apply put_cell_does.
  - destruct (Hv x eq_refl) as (-> & Et & Ex). cbn [orb]. rewrite (replaces_later _ _ _ x y) by done.
    assert (Ej : join c (AVal x) (AVal y) = AVal (if later (agg_type c) x y then y else x)).
    { cbn. unfold join_val. by destruct Hc as [->| ->]. }
    rewrite Ej. destruct (later _ _ _); [by apply put_cell_does|by apply stays].
  - exfalso. unfold shaped in Ha. by destruct Hc as [Hc|Hc]; rewrite Hc in Ha.
Qed.

(** *** AVG *)

Lemma u64_small n : 0 <= n < 2 ^ 63 -> u64 n = n.
Proof. intros Hn. apply wrap_id. unfold is_u. lia. Qed.

Lemma avg_load_text s n w : bounded (AAvg s n w) -> 0 <= n -> avg_load (avg_text s n) = Some (f64_of_Z s, n).
Proof.
  intros [_ Hn] Hp. cbn in Hn. unfold avg_load, avg_text. rewrite u64_small by lia.
  assert (Hs : is_u 64 (f64_of_Z s)) by by apply fp_of_Z_range.
  change (0 <= f64_of_Z s < 256 ^ Z.of_nat 8) in Hs.
  pose proof (mem_load_store [] 8 (f64_of_Z s) (mem_store 8 n) Hs) as E.
  change (Z.of_nat (length [])) with 0 in E. cbn [app] in E. rewrite E. cbn [mbind option_bind].
  pose proof (mem_load_store (mem_store 8 (f64_of_Z s)) 8 n [] ltac:(lia)) as E2.
  rewrite length_mem_store, app_nil_r in E2. change (Z.of_nat 8) with 8 in E2. rewrite E2.
  cbn [mbind option_bind]. rewrite swrap_id; [done|lia|]. unfold is_i. lia.
Qed.

Lemma avg_store_does c row s n w s' n' w' :
  agg_type c = AVG -> typed c row -> holds c row (AAvg s n w) ->
  does c (put_cell c (avg_store (f64_of_Z s') n' (cell c row)) row) row (AAvg s' n' w').
Proof.
  intros Hc Ht Hh. apply put_cell_does; [done|]. unfold holds in Hh. rewrite Hh. unfold call_cpp. rewrite Hc.
  apply stored_str; [done|]. unfold get_string, avg_store. cbn [type set_str enc slot_str new_ExprValue str_val].
  f_equal. unfold avg_text. rewrite drop_ge by (rewrite length_app, !length_mem_store; lia).
  by rewrite app_nil_r.
Qed.

Lemma f64_add_weights s s' w w' :
  Z.abs s <= w -> Z.abs s' <= w' -> w + w' < 2 ^ 53 ->
  f64_add (f64_of_Z s) (f64_of_Z s') = f64_of_Z (s + s').
Proof. intros Hs Hs' Hw. apply f64_add_of_Z; lia. Qed.

(** *** GROUP_CONCAT *)

Lemma append_text_does c row a s :
  agg_type c = GROUP_CONCAT -> typed c row -> shaped c a -> holds c row a ->
  does c (append_text c s row) row (join c a (AVal (SemStr s))).
Proof.
  intros Hc Ht Ha Hh. unfold append_text. apply put_cell_does; [done|]. unfold holds in Hh. rewrite Hh.
  unfold call_cpp, shaped in *. rewrite Hc in Ha |- *. destruct a as [|[x|x]|]; try done.
  cbn [join enc]. unfold join_val. rewrite Hc. cbn [enc_sem].
  apply stored_str; [done|]. change (Some ((x ++ sep c) ++ s) = Some (x ++ sep c ++ s)).
  by rewrite app_assoc.
Qed.

(** ** The operations of a call *)

(** What a whole operation promises: the state of the call stays. *)
Definition acts c (r : option (Z * AggState M * MemRow M)) (st : AggState M) row a : Prop :=
  exists row', r = Some (0, st, row') /\ holds c row' a /\ frame (tuple_id c) (slots c) row row'.

Lemma does_acts c r st row a : does c r row a -> acts c (same_state st r) st row a.
Proof. intros (row' & -> & Hh & F). by exists row'. Qed.

Lemma nothing_acts c st row a : holds c row a -> acts c (Some (0, st, row)) st row a.
Proof. intros Hh. exists row. split; [done|]. split; [done|apply frame_refl]. Qed.

Lemma simple_child c :
  simple_call c = true -> is_count (agg_type c) = false -> exists e es, children c = e :: es.
Proof.
  unfold simple_call. intros [_ Hc]%andb_prop Hn. destruct (children c) as [|e es]; [|by exists e, es].
  by destruct (agg_type c).
Qed.

Lemma update_count_acts c key (src : option (MemRow M)) st dst a b :
  is_count (agg_type c) = true -> typed c dst -> shaped c a -> holds c dst a ->
  contributes c (default dst src) b -> acts c (update now c key src st dst) st dst (join c a b).
Proof.
  intros Hc Ht Ha Hh Hb.
  assert (Ec : call_cpp c = CPPTYPE_INT64) by (unfold call_cpp; by destruct (agg_type c)).
  assert (exists x, a = AVal (SemInt x) /\ is_i 64 x) as (x & -> & Hx).
  { unfold shaped in Ha. destruct (agg_type c), a as [|[x|x]|]; try done; by exists x. }
  assert (Hj : forall y, join c (AVal (SemInt x)) (AVal (SemInt y)) = AVal (SemInt (i64 (x + y)))).
  { intros y. cbn. unfold join_val. by destruct (agg_type c). }
  assert (Hi : acts c (same_state st (increment c dst)) st dst (join c (AVal (SemInt x)) (AVal (SemInt 1)))).
  { rewrite Hj. by apply does_acts, increment_does. }
  unfold update, contributes in *. destruct (agg_type c); try done; [by destruct (children c); subst|].
  assert (b = AVal (SemInt (if existsb (fun e => is_null (eval e (default dst src))) (children c) then 0 else 1)))
    as -> by by destruct (children c).
  destruct (existsb _ _); [|done]. apply does_acts, stays. rewrite Hj, Z.add_0_r, swrap_id by (lia || done). done.
Qed.

Lemma update_keep_acts c key (src : option (MemRow M)) st dst a b :
  simple_call c = true -> (agg_type c = MIN \/ agg_type c = MAX) -> typed c dst -> shaped c a -> holds c dst a ->
  contributes c (default dst src) b -> acts c (update now c key src st dst) st dst (join c a b).
Proof.
  intros Hs Hc Ht Ha Hh Hb. destruct (simple_parts c Hs) as (_ & _ & _ & _ & Ho & _). specialize (Ho Hc).
  destruct (simple_child c Hs) as (e & es & Ee); [by destruct Hc as [->| ->]|].
  assert (Hcpp : call_cpp c = cpp_of_type (col_type c)) by (unfold call_cpp; by destruct Hc as [->| ->]).
  assert (exists v, cast_to now (col_type c) (eval e (default dst src)) = Some v /\
    if is_null v then b = ANone
    else type v = col_type c /\ value_ok v /\ exists x, denote v = Some x /\ b = AVal x) as (v & Ev & Hv).
  { unfold contributes in Hb. rewrite Ee in Hb. by destruct Hc as [Hc|Hc]; rewrite Hc in Hb. }
  assert (Hup : update now c key src st dst =
    if is_null v then Some (0, st, dst)
    else result ← cast_to now (col_type c) (cell c dst);
         same_state st (if is_null result || replaces (agg_type c) (compare result v)
                        then put_cell c v dst else Some dst)).
  { unfold update. rewrite Ee. by destruct Hc as [->| ->]; cbn [lookup list_lookup mbind option_bind]; rewrite Ev. }
  rewrite Hup. destruct (is_null v) eqn:En.
  { subst b. apply nothing_acts. by destruct a. }
  destruct Hv as (Et & Hv & y & Ey & ->). destruct (value_stored _ v Ho Et Hv) as (y' & Ey' & Hy & Es).
  rewrite Ey in Ey'. injection Ey' as <-.
  assert (exists r, cast_to now (col_type c) (cell c dst) = Some r /\ (a = ANone -> is_null r = true)
    /\ forall x, a = AVal x -> is_null r = false /\ type r = type v /\ denote r = Some x) as (r & -> & Hn & Hr).
  { unfold holds in Hh. rewrite Hh, Hcpp. destruct a as [|x|].
    - eexists. by split; [reflexivity|].
    - unfold shaped in Ha. assert (Hx : in_type (col_type c) x) by by destruct Hc as [Hc|Hc]; rewrite Hc in Ha.
      destruct (cast_back now _ x Ho Hx) as (r & Er & Etr & Dr). exists r. split; [done|]. split; [done|].
      intros x' [= <-]. split; [by eapply orderable_not_null|]. by rewrite Etr.
    - exfalso. unfold shaped in Ha. by destruct Hc as [Hc|Hc]; rewrite Hc in Ha. }
  cbn [mbind option_bind]. apply does_acts, keep_does; try done. by rewrite Hcpp.
Qed.

Lemma update_avg_acts c key (src : option (MemRow M)) st dst a b :
  simple_call c = true -> agg_type c = AVG -> typed c dst -> shaped c a -> holds c dst a ->
  contributes c (default dst src) b -> bounded (join c a b) ->
  acts c (update now c key src st dst) st dst (join c a b).
Proof.
  intros Hs Hc Ht Ha Hh Hb Hbd. pose proof (contributes_shaped c _ b Hs Hb) as Hsb.
  destruct (bounded_join c a b Ha Hsb Hbd) as [Hba _].
  destruct (simple_child c Hs) as (e & es & Ee); [by rewrite Hc|].
  unfold contributes in Hb. unfold update. rewrite Ee, Hc in Hb. rewrite Ee, Hc. cbn [lookup list_lookup mbind option_bind].
  unfold shaped in Ha, Hsb. rewrite Hc in Ha, Hsb. destruct a as [| |s n w]; try done. destruct Ha as (Hsw & Hn & _).
  destruct (is_null _).
  { subst b. apply nothing_acts. cbn. by rewrite !Z.add_0_r. }
  destruct Hb as (x & Ex & ->).
  assert (El : avg_load (str_val (cell c dst)) = Some (f64_of_Z s, n)).
  { rewrite Hh. by apply (avg_load_text s n w). }
  rewrite El, Ex. cbn [mbind option_bind]. cbn in Hbd. destruct Hbd as [Hw Hcnt]. cbn in Hw, Hcnt.
  rewrite (f64_add_weights s x w (Z.abs x)) by lia. rewrite swrap_id by (unfold is_i; lia).
  cbn [join]. by apply does_acts, (avg_store_does c dst s n w).
Qed.

Lemma update_acts c key (src : option (MemRow M)) st dst a b :
  simple_call c = true -> typed c dst -> shaped c a -> holds c dst a ->
  contributes c (default dst src) b -> bounded (join c a b) ->
  acts c (update now c key src st dst) st dst (join c a b).
Proof.
  intros Hs Ht Ha Hh Hb Hbd. destruct (is_count (agg_type c)) eqn:Hc; [by apply update_count_acts|].
  destruct (simple_child c Hs Hc) as (e & es & Ee).
  destruct (simple_parts c Hs) as (_ & _ & _ & _ & _ & Hor & _).
  destruct (agg_type c) eqn:Et; try done; try (unfold simple_call in Hs; by rewrite Et, andb_false_r in Hs).
  - unfold contributes in Hb. unfold update. rewrite Ee, Et in Hb. rewrite Ee, Et. cbn [lookup list_lookup mbind option_bind].
    apply does_acts. destruct (is_null _) eqn:En.
    + subst b. unfold add_value. rewrite En. apply stays. by destruct a.
    + destruct Hb as (y & Ey & ->). apply add_value_does; try done; [unfold call_cpp; by rewrite Et|by left].
  - by apply update_avg_acts.
  - apply update_keep_acts; auto.
  - apply update_keep_acts; auto.
  - unfold contributes in Hb. unfold update. rewrite Ee, Et in Hb. rewrite Ee, Et. cbn [lookup list_lookup mbind option_bind].
    destruct Hb as (r & -> & ->). cbn [mbind option_bind]. rewrite (Hor eq_refl). destruct r as [s|].
    + by apply does_acts, append_text_does.
    + apply nothing_acts. by destruct a.
Qed.

(** *** Merge *)

(** The first row of a group is its own result. *)
Lemma merge_first_row c key st dst a :
  simple_call c = true -> holds c dst a -> acts c (merge now c key None st dst) st dst a.
Proof.
  intros Hs Hh. destruct (simple_parts c Hs) as (_ & Hp & _ & _ & _ & Hor & Hl & Hb & Ht & Hm).
  assert (E : merge now c key None st dst = merge_first now c key st dst).
  { unfold merge. rewrite Hp. destruct (agg_type c); try done. by rewrite (Hor eq_refl). }
  rewrite E. unfold merge_first. rewrite Hl, Hb, Ht, Hm. by apply nothing_acts.
Qed.

Lemma enc_null c b : simple_call c = true -> shaped c b -> is_null (enc (call_cpp c) b) = true -> b = ANone.
Proof.
  intros Hs Hb. destruct (simple_parts c Hs) as (_ & _ & _ & _ & Ho & _).
  destruct b as [|x|]; [done| |done]. unfold shaped, call_cpp in *.
  destruct (agg_type c); try done; try (by destruct x); cbn [enc];
    rewrite (enc_not_null _ _ (Ho ltac:(auto)) Hb); done.
Qed.

Lemma join_none c a : join c a ANone = a.
Proof. by destruct a. Qed.

Lemma get_int64_cell y :
  is_i 64 y -> get_numberic (TInt 64) (enc CPPTYPE_INT64 (AVal (SemInt y))) = Some y.
Proof.
  intros Hy. unfold get_numberic. cbn [enc enc_sem slot_num type u_write new_ExprValue conv_int].
  change (Some (i64 (int64_val (u_write 8 y (new_ExprValue INT64)))) = Some y). rewrite int64_write. by unwrap y.
Qed.

Lemma merge_keep_acts c st src dst a b :
  simple_call c = true -> (agg_type c = MIN \/ agg_type c = MAX) -> typed c dst -> shaped c a -> holds c dst a ->
  shaped c b -> holds c src b -> b <> ANone ->
  acts c (same_state st (if is_null (cell c dst) || replaces (agg_type c) (compare (cell c dst) (cell c src))
                         then put_cell c (cell c src) dst else Some dst)) st dst (join c a b).
Proof.
  intros Hs Hc Ht Ha Hh Hb Hhs Hn. destruct (simple_parts c Hs) as (_ & _ & _ & _ & Ho & _). specialize (Ho Hc).
  assert (Hcpp : call_cpp c = cpp_of_type (col_type c)) by (unfold call_cpp; by destruct Hc as [->| ->]).
  assert (Hsh : forall x, shaped c (AVal x) -> in_type (col_type c) x)
    by (intros x; unfold shaped; by destruct Hc as [->| ->]).
  destruct b as [|y|]; [done| |exfalso; unfold shaped in Hb; by destruct Hc as [Hc|Hc]; rewrite Hc in Hb].
  unfold holds in Hhs. rewrite Hhs. cbn [enc]. specialize (Hsh y Hb) as Hy.
  apply does_acts, keep_does; try done.
  - intros ->. by rewrite Hh.
  - intros x ->. rewrite Hh, Hcpp. cbn [enc]. specialize (Hsh x Ha).
    split; [by apply enc_not_null|]. split; [by apply enc_type|by apply denote_enc].
  - rewrite Hcpp. by apply denote_enc.
  - rewrite Hcpp. by apply stored_enc.
Qed.

Lemma merge_row_acts c key st src dst a b :
  simple_call c = true -> typed c dst -> shaped c a -> holds c dst a -> shaped c b -> holds c src b ->
  bounded (join c a b) -> acts c (merge_row now c key src st dst) st dst (join c a b).
Proof.
  intros Hs Ht Ha Hh Hb Hhs Hbd. destruct (simple_parts c Hs) as (_ & _ & _ & _ & Ho & _).
  destruct (bounded_join c a b Ha Hb Hbd) as [Hba Hbb].
  unfold merge_row. cbv zeta. unfold holds in Hhs. rewrite !Hhs. destruct (is_null (enc _ b)) eqn:En.
  { rewrite (enc_null c b Hs Hb En), join_none.
    assert (agg_type c <> OTHER) by (intros E; unfold simple_call in Hs; by rewrite E, andb_false_r in Hs).
    destruct (agg_type c); try done; by apply nothing_acts. }
  assert (Hb' := Hb). unfold shaped in Hb'. destruct (agg_type c) eqn:Et; try done.
  1-3: destruct b as [|[y|y]|]; try done; apply does_acts, add_value_does; try done;
    first [rewrite Et; by auto | unfold call_cpp; rewrite Et; first [done | by apply get_int64_cell]].
  - destruct b as [| |s' n' w']; try done. assert (Ha' := Ha). unfold shaped in Ha'. rewrite Et in Ha'.
    destruct a as [| |s n w]; try done. destruct Hb' as (? & ? & _), Ha' as (? & ? & _).
    assert (El : avg_load (str_val (cell c dst)) = Some (f64_of_Z s, n)).
    { rewrite Hh. by apply (avg_load_text s n w). }
    cbn [enc type_eqb slot_str type set_str new_ExprValue negb str_val].
    rewrite El, (avg_load_text s' n' w') by done. cbn [mbind option_bind].
    destruct Hbd as [Hw Hcnt]; cbn in Hw, Hcnt. rewrite (f64_add_weights s s' w w') by lia.
    rewrite swrap_id by (unfold is_i; lia). cbn [join]. by apply does_acts, (avg_store_does c dst s n w).
  - rewrite <- Et, <- Hhs. apply merge_keep_acts; auto. intros ->. done.
  - rewrite <- Et, <- Hhs. apply merge_keep_acts; auto. intros ->. done.
  - destruct b as [|[y|y]|]; try done. cbn [enc enc_sem]. unfold get_string.
    cbn [type slot_str set_str new_ExprValue mbind option_bind]. by apply does_acts, append_text_does.
Qed.

Lemma merge_acts c key st src dst a b :
  simple_call c = true -> typed c dst -> shaped c a -> holds c dst a -> shaped c b -> holds c src b ->
  bounded (join c a b) -> acts c (merge now c key (Some src) st dst) st dst (join c a b).
Proof.
  intros Hs Ht Ha Hh Hb Hhs Hbd. destruct (simple_parts c Hs) as (_ & Hp & _ & _ & _ & Hor & _).
  assert (E : merge now c key (Some src) st dst = merge_row now c key src st dst).
  { unfold merge. rewrite Hp. destruct (agg_type c); try done. by rewrite (Hor eq_refl). }
  rewrite E. by apply merge_row_acts.
Qed.

(** *** Initialization *)

Lemma stored_null ct : stored ct Null_value = Some (new_ExprValue NULL_TYPE).
Proof. done. Qed.

Lemma put_final_spec c v row w :
  typed c row -> stored (final_cpp c) v = Some w ->
  exists row', put c (final_slot_id c) v row = Some row' /\ agg_value c row' = w
    /\ (intermediate_slot_id c <> final_slot_id c -> cell c row' = cell c row)
    /\ frame (tuple_id c) (slots c) row row'.
Proof.
  intros [_ Ht] Hs. destruct (row_set_stored _ _ _ _ _ _ Ht Hs) as (row' & E & Ec & F).
  exists row'. unfold put. rewrite E. split; [done|]. split; [done|]. split.
  - intros Hn. unfold cell. apply (frame_slot _ _ _ _ F). by intros E'%list_elem_of_singleton.
  - eapply frame_weaken; [|exact F]. unfold slots. set_solver.
Qed.

Lemma typed_frame c t l row row' : t = tuple_id c -> frame t l row row' -> typed c row -> typed c row'.
Proof. intros -> F [? ?]. split; by rewrite (frame_cpp _ _ _ _ F). Qed.

Lemma stored_zero : stored CPPTYPE_INT64 (new_ExprValue INT64) = Some (enc CPPTYPE_INT64 (AVal (SemInt 0))).
Proof. apply stored_int64; [done|]. unfold int64_val, u_read, mem_value. by case_match. Qed.

Lemma initialize_fresh c key st dst :
  simple_call c = true -> typed c dst -> holds c dst ANone ->
  acts c (initialize now c key false st dst) st dst (unit c).
Proof.
  intros Hs Ht Hh. destruct (simple_parts c Hs) as (_ & _ & _ & Hav & _ & Hor & _).
  assert (En : is_null (cell c dst) = true) by by rewrite Hh.
  unfold initialize, unit. cbv zeta. rewrite En.
  destruct (agg_type c) eqn:Et; try (unfold simple_call in Hs; by rewrite Et, andb_false_r in Hs).
  1,2: apply does_acts, put_cell_does; [done|]; unfold call_cpp; rewrite Et; apply stored_zero.
  1,3,4: by apply does_acts, put_cell_does.
  - destruct (put_cell_does c avg_zero dst (AAvg 0 0 0) Ht) as (r1 & -> & Hr1 & F1).
    { unfold call_cpp. by rewrite Et. }
    cbn [mbind option_bind].
    destruct (put_final_spec c Null_value r1 _ (typed_frame _ _ _ _ _ eq_refl F1 Ht) (stored_null _))
      as (r2 & -> & _ & E2 & F2).
    exists r2. split; [done|]. split; [unfold holds; rewrite (E2 (Hav eq_refl)); exact Hr1|].
    by eapply frame_trans.
  - rewrite (Hor eq_refl). by apply does_acts, put_cell_does.
Qed.

Lemma initialize_keeps c key st dst b :
  simple_call c = true -> typed c dst -> shaped c b -> holds c dst b ->
  acts c (initialize now c key false st dst) st dst b.
Proof.
  intros Hs Ht Hb Hh. destruct (is_null (cell c dst)) eqn:En.
  - unfold holds in Hh. rewrite Hh in En. pose proof (enc_null c b Hs Hb En) as ->.
    assert (unit c = ANone) as <- by (unfold shaped, unit in *; by destruct (agg_type c)).
    apply initialize_fresh; [done|done|]. unfold holds. rewrite Hh. unfold shaped, unit in *. by destruct (agg_type c).
  - destruct (simple_parts c Hs) as (_ & _ & _ & _ & _ & Hor & _).
    unfold initialize. cbv zeta. rewrite En.
    destruct (agg_type c) eqn:Et; try (unfold simple_call in Hs; by rewrite Et, andb_false_r in Hs).
    all: try rewrite (Hor eq_refl); by apply nothing_acts.
Qed.

(** What a row without data holds. *)
Definition empty_acc c : Acc := match agg_type c with AVG => ANone | _ => unit c end.

Lemma initialize_empty c key st dst :
  simple_call c = true -> typed c dst -> holds c dst ANone ->
  acts c (initialize now c key true st dst) st dst (empty_acc c).
Proof.
  intros Hs Ht Hh. assert (En : is_null (cell c dst) = true) by by rewrite Hh.
  unfold initialize, empty_acc, unit. cbv zeta. rewrite En.
  destruct (agg_type c) eqn:Et; cbn [is_count]; try (by apply nothing_acts).
  all: apply does_acts, put_cell_does; [done|]; unfold call_cpp; rewrite Et; apply stored_zero.
Qed.

Lemma is_initialize_unit c row b :
  simple_call c = true -> shaped c b -> bounded b -> holds c row b ->
  exists t, is_initialize c row = Some t /\ (t = true -> b = unit c).
Proof.
  intros Hs Hb Hbd Hh. destruct (simple_parts c Hs) as (_ & Hp & _).
  unfold is_initialize. rewrite Hp. unfold holds in Hh. rewrite !Hh. destruct (is_null _) eqn:En.
  { exists true. split; [done|]. intros _. rewrite (enc_null c b Hs Hb En) in Hb |- *.
    unfold shaped, unit in *. by destruct (agg_type c). }
  unfold shaped, unit, call_cpp in *. destruct (agg_type c) eqn:Et; try (by exists false).
  1,2: destruct b as [|[x|x]|]; try done; rewrite get_int64_cell by done; eexists; (split; [reflexivity|]);
    intros ->%Z.eqb_eq; done.
  - destruct b as [| |s n w]; try done. eexists. split; [reflexivity|].
    intros E%Z.eqb_eq. apply int_cmp_eq in E.
    rewrite (compare_denotes _ _ (SemStr (avg_text s n)) (SemStr (avg_text 0 0))) in E by done.
    apply sem_compare_eq in E. injection E as E. destruct Hb as (Hsw & Hn & Hw).
    assert (El := avg_load_text s n w Hbd Hn). rewrite E, (avg_load_text 0 0 0) in El by (done || lia).
    injection El as _ <-. rewrite Hw in Hsw |- * by done. f_equal; lia.
Qed.

(** *** Final values *)

Definition result c a : ExprValue :=
  match agg_type c, a with
  | AVG, AAvg sum count _ =>
      if count =? 0 then Null_value else slot_num CPPTYPE_DOUBLE (f64_div (f64_of_Z sum) (f64_of_Z count))
  | AVG, _ => Null_value
  | _, _ => enc (call_cpp c) a
  end.

Lemma stored_double d : stored CPPTYPE_DOUBLE (u_write 8 d (new_ExprValue DOUBLE)) = Some (slot_num CPPTYPE_DOUBLE d).
Proof.
  rewrite (stored_num _ _ (wrap 64 d)); [|done|done|].
  - cbn [slot_num]. unfold u_write. change (8 * Z.of_nat 8) with 64. by rewrite (wrap_id 64 (wrap 64 d)) by by apply wrap_range.
  - unfold get_numberic. cbn [type u_write new_ExprValue]. unfold double_val.
    rewrite (read_write 64) by reflexivity. done.
Qed.

Lemma finalize_result c key is_merger st dst a :
  simple_call c = true -> typed c dst -> (shaped c a \/ a = ANone) -> bounded a -> holds c dst a ->
  exists row', finalize now raw_to_sparse batch_capacity c key is_merger st dst = Some (0, st, row')
    /\ agg_value c row' = result c a /\ holds c row' a /\ frame (tuple_id c) (slots c) dst row'.
Proof.
  intros Hs Ht Ha Hbd Hh. destruct (simple_parts c Hs) as (_ & _ & Hsl & Hav & _ & Hor & Hl & Hb & Htd & Hm).
  destruct (decide (agg_type c = AVG)) as [Et|Et].
  - specialize (Hav Et). unfold finalize, result. rewrite Et. rewrite (proj2 (Z.eqb_neq _ _) Hav).
    assert (Hput : forall v w, stored CPPTYPE_DOUBLE v = Some w ->
      exists row', same_state st (put c (final_slot_id c) v dst) = Some (0, st, row')
        /\ agg_value c row' = w /\ holds c row' a /\ frame (tuple_id c) (slots c) dst row').
    { intros v w Hvw. destruct (put_final_spec c v dst w Ht) as (r & -> & E & Ec & F).
      { unfold final_cpp. by rewrite Et. }
      exists r. split; [done|]. split; [done|]. split; [|done]. unfold holds. rewrite (Ec Hav). exact Hh. }
    unfold holds in Hh. rewrite Hh. unfold shaped in Ha. rewrite Et in Ha.
    destruct a as [| |s n w]; [by apply Hput|by destruct Ha|]. destruct Ha as [(_ & Hn & _)|?]; [|done].
    cbn [enc is_null]. change (is_null (slot_str (avg_text s n))) with false. cbn [slot_str str_val set_str].
    rewrite (avg_load_text s n w) by done. cbn [mbind option_bind].
    destruct (n =? 0); cbn [negb]; [by apply Hput|apply Hput, stored_double].
  - specialize (Hsl Et).
    assert (E : finalize now raw_to_sparse batch_capacity c key is_merger st dst = Some (0, st, dst)).
    { unfold finalize. apply Z.eqb_eq in Hsl. destruct (agg_type c); try discriminate; try rewrite (Hor eq_refl).
      all: by rewrite Hsl. }
    exists dst. split; [done|]. split; [|split; [done|apply frame_refl]].
    unfold agg_value. rewrite <- Hsl. change (cell c dst = result c a). unfold holds in Hh. rewrite Hh.
    unfold result. by destruct (agg_type c).
Qed.

End Acc.
