(* ===== verification/AggTheorems.v ===== *)
(** * What aggregation computes

    The groups of a node hold, for every call, what their rows contribute; partial results of
    the stores, merged, give what one node over all rows gives. *)

From stdpp Require Import gmap.
From S2P Require Import Prelude KeyEncoder Stdio FloatArith FloatText FloatExact Calendar DateTime ExprValue ExprValueFacts Sorter Hll TDigest TableKey TableRecord MemRow Agg AggNode AggAcc.

Class FlatMapOrderLaws `{FlatMapOrder} :=
  flat_map_order_perm : forall A (m : gmap bytes A), flat_map_order m ≡ₚ map_to_list m.

Section Groups.
Context `{Host, RoaringLib, Zone, !RoaringOps, !UniqOrder, Murmur, Libm, Qsort, StdSort}.
Context {M : Type} `{Reflection M, MessageFactory M, !ReflectionLaws M, !DescriptorLaws M}.
Variables (now : Z) (raw_to_sparse : bool) (batch_capacity : nat) (bad_shift : Z -> Z).
Implicit Types (c : AggFnCall M) (row r d : MemRow M) (calls : list (AggFnCall M * AggState M)).

(** ** Rows that differ in one tuple *)

Definition agree (t : nat) row row' : Prop := forall t', t' <> t -> get_tuple row' t' = get_tuple row t'.

(** The value does not depend on the tuple. *)
Definition indep {A} (t : nat) (f : MemRow M -> A) : Prop := forall row row', agree t row row' -> f row' = f row.

Definition call_indep (t : nat) c : Prop :=
  forall e, e ∈ children c -> indep t (eval e) /\ forall p, p ∈ parts e -> indep t (eval p).

Lemma frame_agree t l row row' : frame t l row row' -> agree t row row'.
Proof. intros F t' Ht. by apply (frame_tuple _ _ _ _ F). Qed.

Lemma concat_parts_agree t l row row' acc :
  agree t row row' -> (forall p, p ∈ l -> indep t (eval p)) ->
  concat_parts l row' acc = concat_parts l row acc.
Proof.
  intros Hr. revert acc. induction l as [|e l IH]; intros acc Hl; cbn [concat_parts]; [done|].
  rewrite (Hl e (list_elem_of_here _ _) row row' Hr). repeat case_match; try done.
  - apply IH. intros p Hp. apply Hl. by right.
  - destruct (get_string _); [|done]. cbn. apply IH. intros p Hp. apply Hl. by right.
Qed.

Lemma contributes_agree t c row row' b :
  call_indep t c -> agree t row row' -> contributes now c row b -> contributes now c row' b.
Proof.
  unfold call_indep, contributes. intros Hi Hr.
  assert (He : forall e, e ∈ children c -> eval e row' = eval e row) by (intros e He; exact (proj1 (Hi e He) row row' Hr)).
  assert (Hx : existsb (fun e => is_null (eval e row')) (children c) = existsb (fun e => is_null (eval e row)) (children c)).
  { clear Hi. induction (children c) as [|e es IH]; [done|]. cbn. rewrite (He e (list_elem_of_here _ _)).
    f_equal. apply IH. intros e' He'. apply He. by right. }
  destruct (agg_type c), (children c) as [|e es]; try done; rewrite ?Hx; try done.
  all: rewrite ?(He e (list_elem_of_here _ _)); try done.
  by rewrite (concat_parts_agree t _ row row' _ Hr (proj2 (Hi e (list_elem_of_here _ _)))).
Qed.

(** ** All calls on a row *)

Definition disjoint_slots (l l' : list Z) : Prop := forall s, s ∈ l -> s ∉ l'.

(** The calls share a tuple and have slots of their own. *)
Fixpoint apart calls : Prop :=
  match calls with
  | [] => True
  | (c, _) :: calls => (forall c' st, (c', st) ∈ calls -> disjoint_slots (slots c) (slots c')) /\ apart calls
  end.

Definition all_slots calls : list Z := concat ((fun x => slots x.1) <$> calls).

Lemma all_slots_elem calls s : s ∈ all_slots calls <-> exists c st, (c, st) ∈ calls /\ s ∈ slots c.
Proof.
  unfold all_slots. induction calls as [|[c st] calls IH]; cbn [fmap list_fmap concat].
  - split; [by intros ?%elem_of_nil|]. by intros (? & ? & ?%elem_of_nil & ?).
  - rewrite elem_of_app, IH. cbn [fst]. split.
    + intros [Hs|(c' & st' & Hc & Hs)]; [exists c, st|exists c', st']; (split; [|done]); [left|by right].
    + intros (c' & st' & [[= -> ->]|Hc]%elem_of_cons & Hs); [by left|]. right. by exists c', st'.
Qed.

(** A property of a call and a row that only the slots of the call and the other tuples matter to. *)
Definition stable (t : nat) (P : AggFnCall M -> MemRow M -> Prop) c : Prop :=
  forall l row row', frame t l row row' -> disjoint_slots (slots c) l -> P c row -> P c row'.

Lemma for_calls_spec t f (pre post : AggFnCall M -> MemRow M -> Prop) calls row :
  apart calls ->
  (forall c st, (c, st) ∈ calls -> stable t pre c /\ stable t post c) ->
  (forall c st r, (c, st) ∈ calls -> pre c r ->
     exists r', f c st r = Some (0, st, r') /\ post c r' /\ frame t (slots c) r r') ->
  (forall c st, (c, st) ∈ calls -> pre c row) ->
  exists r', for_calls f calls row = Some (calls, r') /\ (forall c st, (c, st) ∈ calls -> post c r')
    /\ frame t (all_slots calls) row r'.
Proof.
  revert row. induction calls as [|[c st] calls IH]; intros row Ha Hst Hf Hpre.
  { exists row. split; [done|]. split; [by intros ? ? ?%elem_of_nil|apply frame_refl]. }
  destruct Ha as [Hd Ha]. cbn [for_calls].
  destruct (Hf c st row (list_elem_of_here _ _) (Hpre _ _ (list_elem_of_here _ _))) as (r1 & -> & P1 & F1).
  cbn [mbind option_bind].
  destruct (IH r1 Ha) as (r2 & -> & P2 & F2).
  - intros c' st' Hc. apply (Hst c' st'). by right.
  - intros c' st' r Hc. apply Hf. by right.
  - intros c' st' Hc. eapply (proj1 (Hst c' st' ltac:(by right))); [exact F1| |apply (Hpre c' st'); by right].
    intros s Hs Hs'. by apply (Hd c' st' Hc s).
  - exists r2. split; [done|]. split.
    + intros c' st' [[= -> ->]|Hc]%elem_of_cons; [|by apply (P2 c' st')].
      eapply (proj2 (Hst c st ltac:(left))); [exact F2| |exact P1].
      intros s Hs (c' & st' & Hc & Hs')%all_slots_elem. by apply (Hd c' st' Hc s).
    + eapply frame_trans; [eapply frame_weaken; [|exact F1]|eapply frame_weaken; [|exact F2]];
        unfold all_slots; cbn; set_solver.
Qed.

Lemma typed_stable t c : tuple_id c = t -> stable t (fun c r => typed c r) c.
Proof. intros Ht l row row' F _. by apply (typed_frame c t l). Qed.

Lemma holds_stable t c a : tuple_id c = t -> stable t (fun c r => holds c r a) c.
Proof.
  intros <- l row row' F Hd. unfold holds, cell. rewrite (frame_slot _ _ _ _ F); [done|].
  apply Hd. left.
Qed.

Lemma agg_value_stable t c v : tuple_id c = t -> stable t (fun c r => agg_value c r = v) c.
Proof.
  intros <- l row row' F Hd. unfold agg_value. rewrite (frame_slot _ _ _ _ F); [done|].
  apply Hd. right. left.
Qed.

Lemma and_stable t (P Q : AggFnCall M -> MemRow M -> Prop) c :
  stable t P c -> stable t Q c -> stable t (fun c r => P c r /\ Q c r) c.
Proof. intros HP HQ l row row' F Hd [? ?]. split; [by eapply HP|by eapply HQ]. Qed.

(** ** Keys *)

Definition key_of (groups : list (MemRow M -> ExprValue)) row : option bytes := encode_agg_key bad_shift groups row.

Lemma key_total groups row : exists k, key_of groups row = Some k.
Proof.
  unfold key_of, encode_agg_key. destruct (encode_groups _ _ _ _ _ _) as [f k] eqn:E.
  unfold replace_u8, replace_data. change (u64 0) with 0. destruct (_ <? 0) eqn:El; [apply Z.ltb_lt in El; lia|]. by eexists.
Qed.

Lemma key_agree t groups row row' :
  (forall g, g ∈ groups -> indep t g) -> agree t row row' -> key_of groups row' = key_of groups row.
Proof.
  intros Hg Hr. unfold key_of, encode_agg_key.
  assert (E : forall i f k, encode_groups bad_shift groups i row' f k = encode_groups bad_shift groups i row f k).
  { induction groups as [|g groups IH]; intros i f k; [done|]. cbn [encode_groups].
    rewrite (Hg g (list_elem_of_here _ _) row row' Hr).
    destruct (is_null _); apply IH; intros g' Hg'; apply Hg; by right. }
  by rewrite E.
Qed.

(** ** One node *)

Section OneNode.
Context (t : nat) (groups : list (MemRow M -> ExprValue)) (calls : list (AggFnCall M * AggState M)).
Hypothesis groups_indep : forall g, g ∈ groups -> indep t g.
Hypothesis calls_apart : apart calls.
Hypothesis calls_simple : forall c st, (c, st) ∈ calls -> simple_call c = true /\ tuple_id c = t /\ call_indep t c.

(** A row with what it contributes. *)
Abbreviation input := (MemRow M * (AggFnCall M -> Acc))%type.

(** What a node may be given: rows of the table with an empty cell, or partial results. *)
Definition input_ok (merger : bool) (p : input) : Prop :=
  forall c st, (c, st) ∈ calls ->
    typed c p.1 /\ shaped c (p.2 c)
    /\ if merger then holds c p.1 (p.2 c) else holds c p.1 ANone /\ contributes now c p.1 (p.2 c).

Definition sel (k : bytes) (ps : list input) : list input := filter (fun p => key_of groups p.1 = Some k) ps.

Definition total (ps : list input) c : Acc := foldl (fun a p => join c a (p.2 c)) (unit c) ps.

(** The row of a group. *)
Definition represents (k : bytes) d (a : AggFnCall M -> Acc) : Prop :=
  key_of groups d = Some k /\ forall c st, (c, st) ∈ calls -> typed c d /\ holds c d (a c).

Definition shaped_all (a : AggFnCall M -> Acc) : Prop := forall c st, (c, st) ∈ calls -> shaped c (a c).

Lemma represents_ext k d a a' :
  (forall c st, (c, st) ∈ calls -> a c = a' c) -> represents k d a -> represents k d a'.
Proof. intros E [Hk Hd]. split; [done|]. intros c st Hc. rewrite <- (E c st Hc). by apply (Hd c st). Qed.

(** An operation of all calls that keeps their states. *)
Lemma calls_step (f : AggFnCall M -> AggState M -> MemRow M -> option (Z * AggState M * MemRow M))
    (pre : AggFnCall M -> MemRow M -> Prop) (a : AggFnCall M -> Acc) k row :
  (forall c st, (c, st) ∈ calls -> stable t pre c) ->
  (forall c st r, (c, st) ∈ calls -> typed c r -> pre c r -> acts c (f c st r) st r (a c)) ->
  key_of groups row = Some k -> (forall c st, (c, st) ∈ calls -> typed c row /\ pre c row) ->
  exists row', for_calls f calls row = Some (calls, row') /\ represents k row' a /\ agree t row row'.
Proof.
  intros Hpre Hf Hk Hrow.
  destruct (for_calls_spec t f (fun c r => typed c r /\ pre c r) (fun c r => typed c r /\ holds c r (a c)) calls row
              calls_apart) as (row' & E & Hp & F).
  - intros c st Hc. destruct (calls_simple c st Hc) as (_ & Ht & _).
    split; (apply and_stable; [by apply typed_stable|]); [by eapply Hpre|by apply holds_stable].
  - intros c st r Hc [Ht Hr]. destruct (calls_simple c st Hc) as (_ & Et & _).
    destruct (Hf c st r Hc Ht Hr) as (r' & E & Hh & F). rewrite Et in F. exists r'.
    split; [done|]. split; [|done]. split; [by eapply (typed_frame c t)|done].
  - done.
  - exists row'. split; [done|]. pose proof (frame_agree _ _ _ _ F) as Hag. split; [|done].
    split; [|done]. by rewrite (key_agree t groups row row').
Qed.

(** A row joins its group. *)
Lemma join_group merger k (p : input) d a :
  input_ok merger p -> represents k d a -> shaped_all a ->
  (forall c st, (c, st) ∈ calls -> bounded (join c (a c) (p.2 c))) ->
  exists d', (if merger then merge_all now k (Some p.1) calls d else update_all now k (Some p.1) calls d) = Some (calls, d')
    /\ represents k d' (fun c => join c (a c) (p.2 c)).
Proof.
  intros Hp [Hk Hd] Ha Hb.
  assert (Hst : forall c st, (c, st) ∈ calls -> stable t (fun c r => holds c r (a c)) c).
  { intros c st Hc. destruct (calls_simple c st Hc) as (_ & Ht & _). by apply holds_stable. }
  destruct merger.
  - destruct (calls_step (fun c => merge now c k (Some p.1)) (fun c r => holds c r (a c))
      (fun c => join c (a c) (p.2 c)) k d) as (d' & E & Hr & _); [done| |done|done|by exists d'].
    intros c st r Hc Ht Hr. destruct (calls_simple c st Hc) as (Hs & _ & _), (Hp c st Hc) as (_ & Hsh & Hpc).
    apply merge_acts; try done; [by eapply Ha|by eapply Hb].
  - destruct (calls_step (fun c => update now c k (Some p.1)) (fun c r => holds c r (a c))
      (fun c => join c (a c) (p.2 c)) k d) as (d' & E & Hr & _); [done| |done|done|by exists d'].
    intros c st r Hc Ht Hr. destruct (calls_simple c st Hc) as (Hs & _ & _), (Hp c st Hc) as (_ & Hsh & _ & Hpc).
    apply update_acts; try done; [by eapply Ha|by eapply Hb].
Qed.

(** A row starts its group. *)
Lemma start_group merger k (p : input) :
  input_ok merger p -> key_of groups p.1 = Some k ->
  (forall c st, (c, st) ∈ calls -> bounded (p.2 c)) ->
  exists d d', initialize_all now k false calls p.1 = Some (calls, d)
    /\ (if merger then merge_all now k None calls d else update_all now k None calls d) = Some (calls, d')
    /\ represents k d' p.2.
Proof.
  intros Hp Hk Hb.
  assert (Hst : forall a c st, (c, st) ∈ calls -> stable t (fun c r => holds c r (a c)) c).
  { intros a c st Hc. destruct (calls_simple c st Hc) as (_ & Ht & _). by apply holds_stable. }
  destruct merger.
  - destruct (calls_step (fun c => initialize now c k false) (fun c r => holds c r (p.2 c)) p.2 k p.1)
      as (d & E & [Hkd Hd] & _); [by apply Hst| |done| |].
    { intros c st r Hc Ht Hr. destruct (calls_simple c st Hc) as (Hs & _ & _), (Hp c st Hc) as (_ & Hsh & _).
      by apply initialize_keeps. }
    { intros c st Hc. by destruct (Hp c st Hc) as (? & _ & ?). }
    destruct (calls_step (fun c => merge now c k None) (fun c r => holds c r (p.2 c)) p.2 k d)
      as (d' & E' & Hd' & _); [by apply Hst| |done|done|by exists d, d'].
    intros c st r Hc Ht Hr. destruct (calls_simple c st Hc) as (Hs & _ & _). by apply merge_first_row.
  - destruct (calls_step (fun c => initialize now c k false) (fun c r => holds c r ANone) (fun c => unit c) k p.1)
      as (d & E & [Hkd Hd] & Hag); [by apply (Hst (fun _ => ANone))| |done| |].
    { intros c st r Hc Ht Hr. destruct (calls_simple c st Hc) as (Hs & _ & _). by apply initialize_fresh. }
    { intros c st Hc. by destruct (Hp c st Hc) as (? & _ & ? & _). }
    destruct (calls_step (fun c => update now c k None) (fun c r => holds c r (unit c) /\ contributes now c r (p.2 c))
      p.2 k d) as (d' & E' & Hd' & _); [| |done| |by exists d, d'].
    + intros c st Hc. apply and_stable; [by apply (Hst (fun c => unit c) c st)|].
      intros l row row' F _. destruct (calls_simple c st Hc) as (_ & _ & Hi).
      by apply (contributes_agree t), (frame_agree _ l).
    + intros c st r Hc Ht [Hr Hcon]. destruct (calls_simple c st Hc) as (Hs & _ & _), (Hp c st Hc) as (_ & Hsh & _).
      rewrite <- (join_unit_l c (p.2 c) Hsh). apply update_acts; try done; [by apply unit_shaped|].
      rewrite join_unit_l by done. by eapply Hb.
    + intros c st Hc. destruct (Hd c st Hc) as [Ht Hr]. split; [done|]. split; [done|].
      destruct (calls_simple c st Hc) as (_ & _ & Hi), (Hp c st Hc) as (_ & _ & _ & Hcon).
      by apply (contributes_agree t c p.1).
Qed.

(** The merger drops partial results of empty tables. *)
Lemma all_initialize_unit (cs : list (AggFnCall M)) row (b : AggFnCall M -> Acc) :
  (forall c, c ∈ cs -> simple_call c = true /\ shaped c (b c) /\ bounded (b c) /\ holds c row (b c)) ->
  exists x, all_is_initialize cs row = Some x /\ (x = true -> forall c, c ∈ cs -> b c = unit c).
Proof.
  induction cs as [|c cs IH]; intros Hc; cbn [all_is_initialize].
  { exists true. split; [done|]. by intros _ c ?%elem_of_nil. }
  destruct (Hc c (list_elem_of_here _ _)) as (Hs & Hsh & Hb & Hh).
  destruct (is_initialize_unit c row (b c) Hs Hsh Hb Hh) as (x & -> & Hx). cbn [mbind option_bind].
  destruct x; [|by exists false]. destruct IH as (y & -> & Hy); [intros c' Hc'; apply Hc; by right|].
  exists y. split; [done|]. intros -> c' [->|Hc']%elem_of_cons; [by apply Hx|by apply Hy].
Qed.

(** *** A run over rows *)

(** The groups after the rows of [ps]; a group that the merger dropped holds nothing. *)
Definition groups_ok (merger : bool) (ps : list input) (m : gmap bytes (MemRow M)) : Prop :=
  forall k, match m !! k with
            | Some d => sel k ps <> [] /\ represents k d (total (sel k ps))
            | None => sel k ps = []
                      \/ (merger = true /\ groups = [] /\ forall c st, (c, st) ∈ calls -> total (sel k ps) c = unit c)
            end.

Lemma total_snoc ps p c : total (ps ++ [p]) c = join c (total ps c) (p.2 c).
Proof. unfold total. by rewrite foldl_app. Qed.

Lemma sel_snoc k ps p :
  sel k (ps ++ [p]) = if decide (key_of groups p.1 = Some k) then sel k ps ++ [p] else sel k ps.
Proof.
  unfold sel. rewrite filter_app, filter_cons, filter_nil. case_decide; [done|]. by rewrite app_nil_r.
Qed.

Lemma total_shaped merger ps : Forall (input_ok merger) ps -> shaped_all (total ps).
Proof.
  intros Hps c st Hc. induction ps as [|p ps IH] using rev_ind.
  - apply unit_shaped. by apply (calls_simple c st).
  - apply Forall_app in Hps as [Hps Hp]. rewrite Forall_singleton in Hp. rewrite total_snoc.
    apply join_shaped; [by apply IH|]. by apply (Hp c st).
Qed.

Lemma sel_ok merger k ps : Forall (input_ok merger) ps -> Forall (input_ok merger) (sel k ps).
Proof.
  rewrite !Forall_forall. intros Hps p [_ Hp]%list_elem_of_filter. by apply Hps.
Qed.

Lemma total_app merger ps qs c st :
  (c, st) ∈ calls -> Forall (input_ok merger) ps -> Forall (input_ok merger) qs ->
  total (ps ++ qs) c = join c (total ps c) (total qs c).
Proof.
  intros Hc Hps Hqs. pose proof (total_shaped merger ps Hps c st Hc) as Hp.
  induction qs as [|q qs IH] using rev_ind.
  - rewrite app_nil_r. change (total [] c) with (unit c). by rewrite join_unit_r.
  - apply Forall_app in Hqs as [Hqs Hq]. rewrite Forall_singleton in Hq.
    rewrite app_assoc, !total_snoc, IH by done. apply join_assoc; [done| |].
    + by apply (total_shaped merger qs Hqs c st).
    + by apply (Hq c st).
Qed.

Lemma prefix_bounded merger ps qs c st :
  (c, st) ∈ calls -> Forall (input_ok merger) ps -> Forall (input_ok merger) qs ->
  bounded (total (ps ++ qs) c) -> bounded (total ps c).
Proof.
  intros Hc Hps Hqs Hb. rewrite (total_app merger ps qs c st) in Hb by done.
  apply bounded_join in Hb as [Hb _];
    [done|by apply (total_shaped merger ps Hps c st)|by apply (total_shaped merger qs Hqs c st)].
Qed.

(** The bound holds for every group when it holds for all rows together. *)
Definition sum_by (f : Acc -> Z) (ps : list input) c : Z := foldr (fun p s => f (p.2 c) + s) 0 ps.

Lemma sel_bounded merger ps k c st :
  (c, st) ∈ calls -> Forall (input_ok merger) ps -> sum_by weight ps c < 2 ^ 53 -> sum_by count ps c < 2 ^ 63 ->
  bounded (total (sel k ps) c).
Proof.
  intros Hc Hps Hw Hn.
  assert (Hsum : forall qs, Forall (input_ok merger) qs ->
    weight (total qs c) = sum_by weight qs c /\ count (total qs c) = sum_by count qs c).
  { intros qs Hqs. induction Hqs as [|q qs Hq Hqs IH]; [unfold total, unit; by destruct (agg_type c)|].
    change (q :: qs) with ([q] ++ qs). rewrite (total_app merger _ _ c st) by (done || by constructor).
    destruct (weight_join c (total [q] c) (total qs c)) as [-> ->];
      [by apply (total_shaped merger [q] ltac:(by constructor) c st)|by apply (total_shaped merger qs Hqs c st)|].
    destruct IH as [-> ->]. cbn. rewrite join_unit_l by by apply (Hq c st). done. }
  assert (Hle : 0 <= sum_by weight (sel k ps) c <= sum_by weight ps c /\ 0 <= sum_by count (sel k ps) c <= sum_by count ps c).
  { clear Hw Hn Hsum. induction Hps as [|p ps Hp Hps IH]; [cbn; lia|]. unfold sel. rewrite filter_cons.
    destruct (Hp c st Hc) as (_ & Hsh & _). pose proof (weight_nonneg c _ Hsh). unfold sel, sum_by in *.
    case_decide; cbn [foldr]; lia. }
  unfold bounded. destruct (Hsum (sel k ps) (sel_ok merger k ps Hps)) as [-> ->]. lia.
Qed.

(** A node that groups by [groups]. *)
Definition node_ok (merger : bool) (n : AggNode M) : Prop :=
  group_exprs n = groups /\ agg_fn_calls n = calls /\ is_merger n = merger.

Lemma new_group_spec merger n k (p : input) :
  node_ok merger n -> input_ok merger p -> key_of groups p.1 = Some k ->
  (forall c st, (c, st) ∈ calls -> bounded (p.2 c)) ->
  (new_group now k p.1 n = Some None /\ merger = true /\ groups = []
     /\ forall c st, (c, st) ∈ calls -> p.2 c = unit c)
  \/ exists d d', new_group now k p.1 n = Some (Some (calls, d))
     /\ aggregate now n k None calls d = Some (set_groups calls (<[k := d']> (hash_map n)) n)
     /\ represents k d' p.2.
Proof.
  intros (Hg & Hcs & Hm) Hp Hk Hb. unfold new_group, aggregate. rewrite Hg, Hcs, Hm.
  destruct (start_group merger k p Hp Hk Hb) as (d & d' & Ei & Ea & Hd).
  assert (Hstart : exists d d', Some <$> initialize_all now k false calls p.1 = Some (Some (calls, d))
     /\ ('(cs, dst) ← (if merger then merge_all now k None calls d else update_all now k None calls d);
         Some (set_groups cs (<[k := dst]> (hash_map n)) n)) = Some (set_groups calls (<[k := d']> (hash_map n)) n)
     /\ represents k d' p.2).
  { exists d, d'. rewrite Ei. split; [done|]. split; [by destruct merger; rewrite Ea|done]. }
  destruct merger; [|by right]. destruct groups as [|g gs] eqn:Egs; [|by right].
  destruct (all_initialize_unit (fst <$> calls) p.1 p.2) as (x & -> & Hx).
  { intros c ([c' st] & -> & Hc)%list_elem_of_fmap. destruct (calls_simple c' st Hc) as (Hs & _), (Hp c' st Hc) as (_ & Hsh & Hh).
    split_and!; [done|done|by eapply Hb|done]. }
  cbn [mbind option_bind andb length Nat.eqb]. destruct x; [|by right]. left. split_and!; try done.
  intros c st Hc. apply Hx; [done|]. apply list_elem_of_fmap. by exists (c, st).
Qed.

Lemma process_row_spec merger n (p : input) ps :
  node_ok merger n -> groups_ok merger ps (hash_map n) -> Forall (input_ok merger) ps -> input_ok merger p ->
  (forall k c st, (c, st) ∈ calls -> bounded (total (sel k (ps ++ [p])) c)) ->
  exists m, process_row now bad_shift p.1 n = Some (set_groups calls m n) /\ groups_ok merger (ps ++ [p]) m.
Proof.
  intros (Hg & Hcs & Hm) Hok Hps Hp Hb. destruct (key_total groups p.1) as [k Hk].
  unfold process_row. rewrite Hg. change (encode_agg_key bad_shift groups p.1) with (key_of groups p.1).
  rewrite Hk. cbn [mbind option_bind].
  assert (Hsel : sel k (ps ++ [p]) = sel k ps ++ [p]) by (rewrite sel_snoc; by rewrite decide_True).
  assert (Hother : forall k', k' <> k -> sel k' (ps ++ [p]) = sel k' ps).
  { intros k' Hn. rewrite sel_snoc, decide_False; [done|]. rewrite Hk. congruence. }
  assert (Hins : forall d, represents k d (total (sel k (ps ++ [p]))) ->
    groups_ok merger (ps ++ [p]) (<[k := d]> (hash_map n))).
  { intros d Hd k'. destruct (decide (k' = k)) as [->|Hn].
    - rewrite lookup_insert_eq. split; [|done]. rewrite Hsel. by destruct (sel k ps).
    - rewrite lookup_insert_ne, Hother by done. apply Hok. }
  assert (Hbk : forall c st, (c, st) ∈ calls -> bounded (join c (total (sel k ps) c) (p.2 c))).
  { intros c st Hc. rewrite <- total_snoc, <- Hsel. by eapply Hb. }
  pose proof (Hok k) as Hokk. destruct (hash_map n !! k) as [d|] eqn:Ed.
  - destruct Hokk as [_ Hd]. destruct (join_group merger k p d _ Hp Hd) as (d' & E & Hd').
    + by apply (total_shaped merger), sel_ok.
    + done.
    + unfold aggregate. rewrite Hm, Hcs. exists (<[k := d']> (hash_map n)).
      destruct merger; rewrite E; (split; [done|]); apply Hins; eapply represents_ext; [|exact Hd'| |exact Hd'];
        intros c st _; by rewrite Hsel, total_snoc.
  - assert (Hunit : forall c st, (c, st) ∈ calls -> total (sel k ps) c = unit c).
    { intros c st Hc. destruct Hokk as [->|(_ & _ & Hu)]; [done|by apply (Hu c st)]. }
    assert (Hjoin : forall c st, (c, st) ∈ calls -> total (sel k (ps ++ [p])) c = p.2 c).
    { intros c st Hc. rewrite Hsel, total_snoc, (Hunit c st Hc). apply join_unit_l. by apply (Hp c st). }
    assert (Hbp : forall c st, (c, st) ∈ calls -> bounded (p.2 c)).
    { intros c st Hc. rewrite <- (Hjoin c st Hc). by eapply Hb. }
    destruct (new_group_spec merger n k p) as [(-> & Hmt & Hgs & Hu)|(d & d' & -> & E & Hd)]; try done.
    + exists (hash_map n). cbn [mbind option_bind]. split; [by rewrite <- Hcs; destruct n|].
      intros k'. destruct (decide (k' = k)) as [->|Hn]; [|rewrite Hother by done; apply Hok].
      rewrite Ed. right. split_and!; try done. intros c st Hc. rewrite (Hjoin c st Hc). by eapply Hu.
    + exists (<[k := d']> (hash_map n)). cbn [mbind option_bind]. split; [done|]. apply Hins.
      eapply represents_ext; [|exact Hd]. intros c st Hc. by rewrite (Hjoin c st Hc).
Qed.

Lemma process_batch_spec merger n ps qs :
  node_ok merger n -> groups_ok merger ps (hash_map n) -> Forall (input_ok merger) ps -> Forall (input_ok merger) qs ->
  (forall k c st, (c, st) ∈ calls -> bounded (total (sel k (ps ++ qs)) c)) ->
  exists m, process_row_batch now bad_shift (fst <$> qs) n = Some (set_groups calls m n) /\ groups_ok merger (ps ++ qs) m.
Proof.
  revert n ps. induction qs as [|q qs IH]; intros n ps Hn Hok Hps Hqs Hb; cbn [fmap list_fmap process_row_batch].
  { exists (hash_map n). rewrite app_nil_r. split; [|done]. destruct Hn as (_ & <- & _). by destruct n. }
  apply Forall_cons in Hqs as [Hq Hqs].
  destruct (process_row_spec merger n q ps Hn Hok Hps Hq) as (m & -> & Hm).
  { intros k c st Hc. apply (prefix_bounded merger _ (sel k qs) c st); [done|apply sel_ok, Forall_app_2; by rewrite ?Forall_singleton|by apply sel_ok|].
    unfold sel. rewrite <- filter_app, <- app_assoc. by eapply Hb. }
  cbn [mbind option_bind]. destruct (IH (set_groups calls m n) (ps ++ [q])) as (m' & -> & Hm'); try done.
  - destruct Hn as (? & ? & ?). done.
  - apply Forall_app_2; by rewrite ?Forall_singleton.
  - intros k c st Hc. rewrite <- app_assoc. by eapply Hb.
  - exists m'. split; [done|]. by rewrite <- app_assoc in Hm'.
Qed.

(** *** Results *)

Context `{FlatMapOrder, !FlatMapOrderLaws}.

(** The calls of [get_next] until the last batch, with batches of [cap] rows. *)
Fixpoint collect (fuel cap : nat) (n : AggNode M) : option (list (MemRow M)) :=
  match fuel with
  | O => None
  | S fuel =>
      '(n, batch, eos) ← agg_get_next now raw_to_sparse batch_capacity [] n (mk_batch [] 0 cap);
      rest ← (if eos : bool then Some [] else collect fuel cap n);
      Some (rows batch ++ rest)
  end.

Definition entry_ok (a : bytes -> AggFnCall M -> Acc) (e : bytes * MemRow M) : Prop :=
  represents e.1 e.2 (a e.1)
  /\ forall c st, (c, st) ∈ calls -> (shaped c (a e.1 c) \/ a e.1 c = ANone) /\ bounded (a e.1 c).

Definition out_ok (a : bytes -> AggFnCall M -> Acc) (e : bytes * MemRow M) (o : MemRow M) : Prop :=
  represents e.1 o (a e.1) /\ forall c st, (c, st) ∈ calls -> agg_value c o = result c (a e.1 c).

Lemma finalize_entry merger a k d :
  entry_ok a (k, d) ->
  exists o, finalize_all now raw_to_sparse batch_capacity k merger calls d = Some (calls, o) /\ out_ok a (k, d) o.
Proof.
  intros [[Hk Hd] Ha]. cbn [fst snd] in *.
  destruct (for_calls_spec t (fun c => finalize now raw_to_sparse batch_capacity c k merger)
    (fun c r => typed c r /\ holds c r (a k c)) (fun c r => (typed c r /\ holds c r (a k c)) /\ agg_value c r = result c (a k c))
    calls d calls_apart) as (o & E & Ho & F).
  - intros c st Hc. destruct (calls_simple c st Hc) as (_ & Ht & _).
    assert (stable t (fun c r => typed c r /\ holds c r (a k c)) c)
      by (apply and_stable; [by apply typed_stable|by apply holds_stable]).
    split; [done|]. apply and_stable; [done|by apply agg_value_stable].
  - intros c st r Hc [Ht Hr]. destruct (calls_simple c st Hc) as (Hs & Et & _), (Ha c st Hc) as [Hsh Hb].
    destruct (finalize_result now raw_to_sparse batch_capacity c k merger st r (a k c) Hs Ht Hsh Hb Hr) as (r' & Er & Ev & Hh & F).
    rewrite Et in F. exists r'. split; [done|]. split; [|done]. split; [|done]. split; [|done].
    by eapply (typed_frame c t).
  - done.
  - exists o. split; [done|]. split; [split|].
    + rewrite (key_agree t groups d o); [done|done|by eapply frame_agree].
    + intros c st Hc. by apply (Ho c st).
    + intros c st Hc. by apply (Ho c st).
Qed.

Lemma next_rows_spec merger a fuel n batch :
  node_ok merger n -> agg_limit n = -1 -> Forall (entry_ok a) (iter n) -> (length (iter n) < fuel)%nat ->
  exists n' batch' eos l outs,
    next_rows now raw_to_sparse batch_capacity [] fuel n batch = Some (n', batch', eos)
    /\ iter n = l ++ iter n' /\ rows batch' = rows batch ++ outs /\ Forall2 (out_ok a) l outs
    /\ node_ok merger n' /\ agg_limit n' = -1 /\ (eos = true -> iter n' = [])
    /\ (eos = false -> is_full batch = false -> l <> []).
Proof.
  revert n batch. induction fuel as [|fuel IH]; intros n batch Hn Hl Hi Hf; [lia|]. cbn [next_rows].
  unfold reached. rewrite Hl. cbn [head default from_option negb Z.eqb Pos.eqb andb].
  destruct (iter n) as [|[k d] rest] eqn:Ei.
  { exists n, batch, true, [], []. rewrite Ei. split_and!; first [done|constructor|by rewrite app_nil_r]. }
  destruct (is_full batch) eqn:Efull.
  { exists n, batch, false, [], []. rewrite Ei. split_and!; first [done|constructor|by rewrite app_nil_r]. }
  apply Forall_cons in Hi as [He Hi]. destruct Hn as (Hg & Hcs & Hm).
  destruct (finalize_entry merger a k d He) as (o & E & Ho).
  rewrite Hm, Hcs, E. cbn [mbind option_bind tail].
  destruct (IH (move_iter calls rest n) (move_row o batch)) as (n' & batch' & eos & l & outs & -> & Hit & Hr & Hf2 & Hn' & Hl' & He1 & _);
    try done; [cbn in Hf |- *; lia|].
  exists n', batch', eos, ((k, d) :: l), (o :: outs). split_and!; try done.
  - cbn. f_equal. exact Hit.
  - rewrite Hr. cbn [move_row rows]. by rewrite <- app_assoc.
  - by constructor.
Qed.

Lemma collect_spec merger a fuel cap n :
  (0 < cap)%nat -> node_ok merger n -> agg_limit n = -1 -> Forall (entry_ok a) (iter n) -> (length (iter n) < fuel)%nat ->
  exists outs, collect fuel cap n = Some outs /\ Forall2 (out_ok a) (iter n) outs.
Proof.
  intros Hcap. revert n. induction fuel as [|fuel IH]; intros n Hn Hl Hi Hf; [lia|]. cbn [collect].
  unfold agg_get_next.
  destruct (next_rows_spec merger a (S (length (iter n))) n (mk_batch [] 0 cap) Hn Hl Hi)
    as (n' & batch' & eos & l & outs & -> & Hit & Hr & Hf2 & Hn' & Hl' & He1 & He2); [lia|].
  cbn [mbind option_bind]. rewrite Hr. cbn [rows app]. rewrite Hit in Hi |- *. apply Forall_app in Hi as [_ Hi].
  destruct eos.
  - rewrite (He1 eq_refl), app_nil_r. exists outs. cbn [mbind option_bind]. by rewrite app_nil_r.
  - destruct (IH n') as (outs' & -> & Hf3); try done.
    + assert (l <> []) by (apply He2; [done|]; unfold is_full; cbn; destruct cap; [lia|done]).
      rewrite Hit, length_app in Hf. destruct l; [done|]. cbn in Hf. lia.
    + exists (outs ++ outs'). split; [done|]. by apply Forall2_app.
Qed.

(** *** A whole run *)

Context (descs : list (nat * list cpp_type)) (cap : nat).
Hypothesis cap_positive : (0 < cap)%nat.
Hypothesis empty_row_ok : forall c st, (c, st) ∈ calls ->
  typed c (fetch_mem_row descs) /\ holds c (fetch_mem_row descs) ANone.

Definition fresh_node (merger : bool) : AggNode M := mk_agg groups calls merger (-1) ∅ [] 0.

(** The node over rows that a child gives in one batch: [open] and every [get_next]. *)
Definition run (has_packet merger : bool) (rows : list (MemRow M)) : option (list (MemRow M)) :=
  '(_, n) ← agg_node_open now bad_shift has_packet descs [[mk_round false 0 rows true false]] (fresh_node merger);
  collect (S (length (iter n))) cap n.

(** The groups that have a row of results. *)
Definition present (has_packet merger : bool) (ps : list input) (k : bytes) : Prop :=
  sel k ps <> [] \/ (groups = [] /\ k = mem_store 1 0 /\ has_packet || merger = true).

Lemma key_empty row : groups = [] -> key_of groups row = Some (mem_store 1 0).
Proof.
  intros ->. unfold key_of, encode_agg_key. cbn [encode_groups]. unfold replace_u8, replace_data.
  change (u64 0) with 0. cbn [append_u8 append_data mk_data mk_full app].
  destruct (_ <? 0) eqn:E; [apply Z.ltb_lt in E; lia|]. cbn [fmap option_fmap option_map mk_data]. f_equal.
  rewrite drop_ge by (rewrite length_mem_store; done). by rewrite app_nil_r.
Qed.

Lemma sel_nonempty k ps : sel k ps <> [] <-> exists p, p ∈ ps /\ key_of groups p.1 = Some k.
Proof.
  unfold sel. split.
  - intros Hn. destruct (filter _ ps) as [|p l] eqn:E; [done|]. exists p.
    assert (Hp : p ∈ p :: l) by left. rewrite <- E in Hp. apply list_elem_of_filter in Hp. tauto.
  - intros (p & Hp & Hk) E. assert (Hf : p ∈ filter (fun p => key_of groups p.1 = Some k) ps)
      by (by apply list_elem_of_filter). rewrite E in Hf. by apply elem_of_nil in Hf.
Qed.

Lemma sel_empty_key k ps : groups = [] -> sel k ps <> [] -> k = mem_store 1 0.
Proof. intros Hg (p & _ & Hk)%sel_nonempty. rewrite key_empty in Hk by done. congruence. Qed.

Lemma result_empty c : result c (empty_acc c) = result c (unit c).
Proof. unfold result, empty_acc, unit. by destruct (agg_type c). Qed.

Lemma empty_acc_ok c st : (c, st) ∈ calls -> (shaped c (empty_acc c) \/ empty_acc c = ANone) /\ bounded (empty_acc c).
Proof.
  intros Hc. destruct (calls_simple c st Hc) as (Hs & _). pose proof (unit_shaped c Hs) as Hu.
  unfold empty_acc, unit, bounded in *. destruct (agg_type c); (split; [auto|cbn; lia]).
Qed.

Definition final_acc (m : gmap bytes (MemRow M)) (ps : list input) (k : bytes) c : Acc :=
  match m !! k with Some _ => total (sel k ps) c | None => empty_acc c end.

(** What the map of a node holds when [open] ends. *)
Definition final_ok (has_packet merger : bool) (ps : list input) (a : bytes -> AggFnCall M -> Acc)
    (m : gmap bytes (MemRow M)) : Prop :=
  forall k, match m !! k with
            | Some d => entry_ok a (k, d) /\ present has_packet merger ps k
                        /\ (forall c st, (c, st) ∈ calls -> result c (a k c) = result c (total (sel k ps) c))
                        /\ (has_packet || merger = false -> a k = total (sel k ps))
            | None => ~ present has_packet merger ps k
            end.

Lemma final_same has_packet merger ps m :
  Forall (input_ok merger) ps -> (forall k c st, (c, st) ∈ calls -> bounded (total (sel k ps) c)) ->
  groups_ok merger ps m ->
  ((base.size m =? 0)%nat && (length groups =? 0)%nat && (has_packet || merger)) = false ->
  final_ok has_packet merger ps (fun k => total (sel k ps)) m.
Proof.
  intros Hps Hb Hok Hcond k. pose proof (Hok k) as Hk. destruct (m !! k) as [d|] eqn:Ek.
  - destruct Hk as [Hn Hd]. split_and!; try done; [split; [done|]|by left].
    intros c st Hc. split; [left|by eapply Hb]. by apply (total_shaped merger _ (sel_ok merger k ps Hps) c st).
  - intros Hp. assert (Hg : groups = [] /\ k = mem_store 1 0 /\ has_packet || merger = true).
    { destruct Hk as [Hk|(Hm & Hg & _)]; destruct Hp as [Hp|Hp]; try done.
      split; [done|]. split; [by apply (sel_empty_key k ps)|]. rewrite Hm. by rewrite orb_true_r. }
    destruct Hg as (Hg & -> & Hpm). rewrite Hg, Hpm in Hcond. cbn in Hcond. rewrite !andb_true_r in Hcond.
    apply Nat.eqb_neq in Hcond. assert (Hm : m <> ∅) by (intros ->; by rewrite map_size_empty in Hcond).
    apply map_choose in Hm as (k' & d & Hk'). pose proof (Hok k') as Hkk. rewrite Hk' in Hkk. destruct Hkk as [Hn _].
    rewrite (sel_empty_key k' ps Hg Hn) in Hk'. congruence.
Qed.

Lemma final_empty has_packet merger ps m row :
  groups_ok merger ps m -> m = ∅ -> groups = [] -> has_packet || merger = true ->
  represents (mem_store 1 0) row (fun c => empty_acc c) ->
  final_ok has_packet merger ps (fun _ c => empty_acc c) (<[mem_store 1 0 := row]> m).
Proof.
  intros Hok -> Hg Hpm Hr k. destruct (decide (k = mem_store 1 0)) as [->|Hn].
  - rewrite lookup_insert_eq. split_and!.
    + split; [done|]. intros c st Hc. by apply (empty_acc_ok c st).
    + by right.
    + intros c st Hc. rewrite result_empty. f_equal. specialize (Hok (mem_store 1 0)). rewrite lookup_empty in Hok.
      destruct Hok as [->|(_ & _ & Hu)]; [done|]. symmetry. by apply (Hu c st).
    + by rewrite Hpm.
  - rewrite lookup_insert_ne, lookup_empty by done. intros [Hs|(_ & ? & _)]; [|done].
    by apply Hn, (sel_empty_key k ps).
Qed.

Lemma open_spec has_packet merger ps :
  Forall (input_ok merger) ps -> (forall k c st, (c, st) ∈ calls -> bounded (total (sel k ps) c)) ->
  exists a m, agg_node_open now bad_shift has_packet descs [[mk_round false 0 (fst <$> ps) true false]] (fresh_node merger)
      = Some (0, start_iter (set_groups calls m (fresh_node merger)))
    /\ final_ok has_packet merger ps a m.
Proof.
  intros Hps Hb.
  destruct (process_batch_spec merger (fresh_node merger) [] ps) as (m & E & Hok); [done| |constructor|done|done|].
  { intros k. cbn. by left. }
  unfold agg_node_open. cbn [read_children read_child cancelled ret batch_rows exceeded eos Z.ltb Z.compare].
  rewrite E. cbn [mbind option_bind orb]. unfold add_empty_group. cbn [hash_map set_groups group_exprs fresh_node is_merger agg_fn_calls].
  destruct ((base.size m =? 0)%nat && (length groups =? 0)%nat && (has_packet || merger)) eqn:Hcond.
  - apply andb_prop in Hcond as [Hcond Hpm]. apply andb_prop in Hcond as [Hm Hg].
    apply Nat.eqb_eq, map_size_empty_inv in Hm. apply Nat.eqb_eq, nil_length_inv in Hg.
    destruct (calls_step (fun c => initialize now c (mem_store 1 0) true) (fun c r => holds c r ANone) (fun c => empty_acc c)
      (mem_store 1 0) (fetch_mem_row descs)) as (row & Ei & Hr & _).
    + intros c st Hc. destruct (calls_simple c st Hc) as (_ & Ht & _). by apply holds_stable.
    + intros c st r Hc Ht Hr. destruct (calls_simple c st Hc) as (Hs & _ & _). by apply initialize_empty.
    + by apply key_empty.
    + done.
    + change (mk_data (append_u8 0 (mk_MutTableKey false []))) with (mem_store 1 0). unfold initialize_all.
      rewrite Ei. exists (fun _ c => empty_acc c), (<[mem_store 1 0 := row]> m). split; [done|]. by apply final_empty.
  - exists (fun k => total (sel k ps)), m. split; [done|]. by apply final_same.
Qed.

(** *** The rows of a run *)

Definition outs_of (k : bytes) (outs : list (MemRow M)) : list (MemRow M) := filter (fun o => key_of groups o = Some k) outs.

(** The results for a group and a call. *)
Definition answer (k : bytes) c (outs : list (MemRow M)) : list ExprValue := agg_value c <$> outs_of k outs.

Lemma outs_spec a l outs k :
  NoDup (l.*1) -> Forall2 (out_ok a) l outs ->
  (forall d, (k, d) ∈ l -> exists o, outs_of k outs = [o] /\ out_ok a (k, d) o) /\ (k ∉ l.*1 -> outs_of k outs = []).
Proof.
  intros Hnd Hf. induction Hf as [|[k' d'] o l outs Ho Hf IH]; cbn [fmap list_fmap fst] in *.
  { split; [by intros d ?%elem_of_nil|done]. }
  apply NoDup_cons in Hnd as [Hn Hnd]. destruct (IH Hnd) as [IH1 IH2]. clear IH.
  destruct Ho as [[Hk Hc] Hv]. unfold outs_of in *. rewrite filter_cons. cbn [fst] in *. rewrite Hk.
  destruct (decide (k' = k)) as [->|Hne].
  - rewrite decide_True by done. rewrite IH2 by done. split.
    + intros d [[= ->]|Hd]%elem_of_cons; [by exists o|]. destruct Hn. apply list_elem_of_fmap. by exists (k, d).
    + intros Hk'. destruct Hk'. left.
  - rewrite decide_False by congruence. split.
    + intros d [[= -> ->]|Hd]%elem_of_cons; [done|by apply IH1].
    + intros Hk'. apply IH2. intros ?. apply Hk'. by right.
Qed.

Lemma flat_order_elem (m : gmap bytes (MemRow M)) k d : (k, d) ∈ flat_map_order m <-> m !! k = Some d.
Proof. rewrite flat_map_order_perm. apply elem_of_map_to_list. Qed.

Lemma flat_order_nodup (m : gmap bytes (MemRow M)) : NoDup ((flat_map_order m).*1).
Proof. rewrite flat_map_order_perm. apply NoDup_fst_map_to_list. Qed.

Lemma run_outs has_packet merger ps :
  Forall (input_ok merger) ps -> (forall k c st, (c, st) ∈ calls -> bounded (total (sel k ps) c)) ->
  exists a m outs, run has_packet merger (fst <$> ps) = Some outs /\ final_ok has_packet merger ps a m
    /\ Forall2 (out_ok a) (flat_map_order m) outs.
Proof.
  intros Hps Hb. destruct (open_spec has_packet merger ps Hps Hb) as (a & m & E & Hm).
  unfold run. rewrite E. cbn [mbind option_bind].
  destruct (collect_spec merger a (S (length (flat_map_order m))) cap (start_iter (set_groups calls m (fresh_node merger))))
    as (outs & Ec & Hf); try done; [|by cbn; lia|].
  - apply Forall_forall. intros [k d] Hkd. apply (flat_order_elem m) in Hkd. specialize (Hm k). rewrite Hkd in Hm. tauto.
  - by exists a, m, outs.
Qed.

Lemma run_answer has_packet merger ps :
  Forall (input_ok merger) ps -> (forall k c st, (c, st) ∈ calls -> bounded (total (sel k ps) c)) ->
  exists outs, run has_packet merger (fst <$> ps) = Some outs /\
    forall k c st, (c, st) ∈ calls ->
      (present has_packet merger ps k -> answer k c outs = [result c (total (sel k ps) c)])
      /\ (~ present has_packet merger ps k -> answer k c outs = []).
Proof.
  intros Hps Hb. destruct (run_outs has_packet merger ps Hps Hb) as (a & m & outs & E & Hm & Hf).
  exists outs. split; [done|]. intros k c st Hc.
  destruct (outs_spec a _ outs k (flat_order_nodup m) Hf) as [Hin Hout]. specialize (Hm k). unfold answer.
  destruct (m !! k) as [d|] eqn:Ek.
  - destruct Hm as (_ & Hp & Hr & _). split; [intros _|done]. apply flat_order_elem in Ek.
    destruct (Hin d Ek) as (o & -> & [_ Hv]). cbn. f_equal. rewrite (Hv c st Hc). by apply (Hr c st).
  - split; [done|intros _]. rewrite Hout; [done|]. intros ([k' d] & -> & Hd)%list_elem_of_fmap.
    apply flat_order_elem in Hd. cbn in Ek. congruence.
Qed.

Lemma sel_fmap k (f : MemRow M -> AggFnCall M -> Acc) outs :
  sel k ((fun o => (o, f o)) <$> outs) = (fun o => (o, f o)) <$> outs_of k outs.
Proof.
  unfold sel, outs_of. induction outs as [|o outs IH]; [done|]. cbn [fmap list_fmap]. rewrite !filter_cons. cbn [fst].
  case_decide; [|done]. cbn [fmap list_fmap]. by f_equal.
Qed.

Lemma present_dec has_packet merger ps k : present has_packet merger ps k \/ ~ present has_packet merger ps k.
Proof.
  unfold present. destruct (sel k ps); [|left; by left]. destruct groups as [|g gs]; [|right; intros [?|[? _]]; done].
  destruct (decide (k = mem_store 1 0)); [|right; tauto]. destruct (has_packet || merger); [left; tauto|].
  right. intros [?|(_ & _ & ?)]; done.
Qed.

(** The rows of a store as inputs of the merger. *)
Lemma store_outs ps :
  Forall (input_ok false) ps -> (forall k c st, (c, st) ∈ calls -> bounded (total (sel k ps) c)) ->
  exists qs, run false false (fst <$> ps) = Some (fst <$> qs) /\ Forall (input_ok true) qs
    /\ forall k, (sel k ps = [] -> sel k qs = []) /\ (sel k ps <> [] -> exists q, sel k qs = [q] /\ q.2 = total (sel k ps)).
Proof.
  intros Hps Hb. destruct (run_outs false false ps Hps Hb) as (a & m & outs & E & Hm & Hf).
  exists ((fun o => (o, a (default [] (key_of groups o)))) <$> outs). rewrite <- list_fmap_compose. cbn.
  rewrite list_fmap_id. split; [done|]. split.
  - rewrite Forall_fmap. apply Forall_forall. intros o Ho. cbn.
    apply list_elem_of_lookup in Ho as [i Ho]. destruct (Forall2_lookup_r _ _ _ _ _ Hf Ho) as ([k d] & Hl & [[Hk Hh] Hv]).
    cbn [fst] in *. specialize (Hm k). apply list_elem_of_lookup_2 in Hl. apply flat_order_elem in Hl. rewrite Hl in Hm.
    destruct Hm as (_ & _ & _ & Ha). specialize (Ha eq_refl). rewrite Hk. intros c st Hc. cbn.
    destruct (Hh c st Hc) as [Ht Hhc]. split_and!; [done| |done]. rewrite Ha.
    by apply (total_shaped false _ (sel_ok false k ps Hps) c st).
  - intros k. destruct (outs_spec a _ outs k (flat_order_nodup m) Hf) as [Hin Hout].
    assert (Es : sel k ((fun o => (o, a (default [] (key_of groups o)))) <$> outs)
      = (fun o => (o, a (default [] (key_of groups o)))) <$> outs_of k outs).
    { apply sel_fmap. }
    rewrite Es. specialize (Hm k). destruct (m !! k) as [d|] eqn:Ek.
    + destruct Hm as (_ & Hp & _ & Ha). split.
      { intros Hn. destruct Hp as [Hp|(_ & _ & Hp)]; done. }
      intros _. apply flat_order_elem in Ek. destruct (Hin d Ek) as (o & -> & [[Hk _] _]).
      eexists. split; [reflexivity|]. cbn in *. rewrite Hk. by apply Ha.
    + split.
      { intros _. rewrite Hout; [done|]. intros ([k' d] & -> & Hd)%list_elem_of_fmap.
        apply flat_order_elem in Hd. cbn in Ek. congruence. }
      intros Hn. destruct Hm. by left.
Qed.

Definition rows_of (ps : list input) : list (MemRow M) := ps.*1.

Lemma stores_outs (pss : list (list input)) :
  Forall (Forall (input_ok false)) pss ->
  (forall k c st, (c, st) ∈ calls -> bounded (total (sel k (concat pss)) c)) ->
  exists qss : list (list input), mapM (run false false) (rows_of <$> pss) = Some (rows_of <$> qss) /\ Forall (input_ok true) (concat qss)
    /\ forall k, (sel k (concat qss) = [] <-> sel k (concat pss) = [])
         /\ forall c st, (c, st) ∈ calls -> total (sel k (concat qss)) c = total (sel k (concat pss)) c.
Proof.
  induction pss as [|ps pss IH]; intros Hps Hb.
  { exists []. by split_and!. }
  apply Forall_cons in Hps as [Hp Hps]. cbn [concat] in Hb.
  assert (Hcat : Forall (input_ok false) (concat pss)) by by apply Forall_concat.
  assert (Hsel : forall k, sel k (ps ++ concat pss) = sel k ps ++ sel k (concat pss)) by (intros k; apply filter_app).
  assert (Hbb : forall k c st, (c, st) ∈ calls -> bounded (total (sel k ps) c) /\ bounded (total (sel k (concat pss)) c)).
  { intros k c st Hc. specialize (Hb k c st Hc). rewrite Hsel, (total_app false _ _ c st) in Hb by (done || by apply sel_ok).
    apply (bounded_join c); [by eapply (total_shaped false _ (sel_ok false k ps Hp))
      |by eapply (total_shaped false _ (sel_ok false k _ Hcat))|done]. }
  destruct (store_outs ps Hp) as (qs & E & Hq & Hqk); [intros k c st Hc; by eapply Hbb|].
  destruct IH as (qss & E' & Hqs & Hqsk); [done|intros k c st Hc; by eapply Hbb|].
  exists (qs :: qss). cbn [fmap list_fmap mapM]. change (run false false (rows_of ps)) with (run false false ps.*1). rewrite E. cbn [mbind option_bind]. rewrite E'. cbn [mbind option_bind].
  split; [done|]. cbn [concat]. split; [by apply Forall_app|]. intros k.
  assert (Hsq : sel k (qs ++ concat qss) = sel k qs ++ sel k (concat qss)) by apply filter_app.
  rewrite Hsel, Hsq. destruct (Hqk k) as [Hnil Hone], (Hqsk k) as [Hiff Htot].
  destruct (decide (sel k ps = [])) as [Ep|Ep].
  - rewrite (Hnil Ep), Ep. cbn [app]. done.
  - destruct (Hone Ep) as (q & Eq & Hq2). split.
    + rewrite Eq. split; [done|]. intros En. by apply app_eq_nil in En as [? _].
    + intros c st Hc. rewrite (total_app true _ _ c st), (total_app false _ _ c st) by (done || by apply sel_ok).
      rewrite (Htot c st Hc). f_equal. rewrite Eq. unfold total at 1. cbn [foldl]. rewrite Hq2.
      apply join_unit_l. by apply (total_shaped false _ (sel_ok false k ps Hp) c st).
Qed.

(** ** Theorems *)

(** The rows of the table with what they contribute. *)
Definition with_contrib (contrib : MemRow M -> AggFnCall M -> Acc) (rows : list (MemRow M)) : list input :=
  (fun r => (r, contrib r)) <$> rows.

Definition table_row (contrib : MemRow M -> AggFnCall M -> Acc) row : Prop :=
  forall c st, (c, st) ∈ calls -> typed c row /\ holds c row ANone /\ contributes now c row (contrib row c).

Lemma with_contrib_ok contrib rows :
  Forall (table_row contrib) rows -> Forall (input_ok false) (with_contrib contrib rows).
Proof.
  intros Hr. apply Forall_fmap. eapply Forall_impl; [exact Hr|]. intros row Hrow c st Hc. cbn.
  destruct (Hrow c st Hc) as (Ht & Hh & Hcon). split; [done|]. split; [|done].
  eapply contributes_shaped; [|exact Hcon]. by apply (calls_simple c st).
Qed.

Lemma with_contrib_fst contrib rows : (with_contrib contrib rows).*1 = rows.
Proof. unfold with_contrib. rewrite <- list_fmap_compose. apply list_fmap_id. Qed.

(** C14. GROUP BY: a node that aggregates rows of the table gives one row per group that has
    rows, and for every call (COUNT, SUM of integers, MIN, MAX, AVG of integers, GROUP_CONCAT)
    the value of what the rows of the group contribute, in their order; without GROUP BY below a
    packet node also when there are no rows. *)
Theorem group_results (contrib : MemRow M -> AggFnCall M -> Acc) (has_packet : bool) (rows : list (MemRow M)) :
  Forall (table_row contrib) rows ->
  (forall k c st, (c, st) ∈ calls -> bounded (total (sel k (with_contrib contrib rows)) c)) ->
  exists outs, run has_packet false rows = Some outs /\
    forall k c st, (c, st) ∈ calls ->
      (present has_packet false (with_contrib contrib rows) k ->
         answer k c outs = [result c (total (sel k (with_contrib contrib rows)) c)])
      /\ (~ present has_packet false (with_contrib contrib rows) k -> answer k c outs = []).
Proof.
  intros Hr Hb.
  destruct (run_answer has_packet false (with_contrib contrib rows) (with_contrib_ok _ _ Hr) Hb) as (outs & E & Ha).
  exists outs. by rewrite with_contrib_fst in E.
Qed.

(** C5. Aggregation in two phases: however the rows are divided among the stores, and in
    whatever order the nodes visit their groups, the node that merges the results of the stores
    gives for every group and every call the value that one node over all rows gives. *)
Theorem two_phase_aggregation (contrib : MemRow M -> AggFnCall M -> Acc) (shards : list (list (MemRow M))) :
  Forall (table_row contrib) (concat shards) ->
  (forall k c st, (c, st) ∈ calls -> bounded (total (sel k (with_contrib contrib (concat shards))) c)) ->
  exists parts merged single,
    mapM (run false false) shards = Some parts /\ run false true (concat parts) = Some merged
    /\ run true false (concat shards) = Some single
    /\ forall k c st, (c, st) ∈ calls -> answer k c merged = answer k c single.
Proof.
  intros Hr Hb. set (pss := with_contrib contrib <$> shards).
  assert (Hcat : concat pss = with_contrib contrib (concat shards)).
  { unfold pss. clear. induction shards as [|l ls IH]; [done|]. cbn. rewrite IH. unfold with_contrib. by rewrite fmap_app. }
  assert (Hfst : rows_of <$> pss = shards).
  { unfold pss. rewrite <- list_fmap_compose. rewrite <- (list_fmap_id shards) at 2. apply list_fmap_ext.
    intros i l _. apply with_contrib_fst. }
  destruct (stores_outs pss) as (qss & E & Hq & Hk).
  { apply Forall_fmap. apply Forall_concat in Hr. eapply Forall_impl; [exact Hr|]. intros l. apply with_contrib_ok. }
  { intros k c st Hc. rewrite Hcat. by eapply Hb. }
  rewrite Hfst in E. rewrite Hcat in Hk.
  destruct (run_answer false true (concat qss) Hq) as (merged & Em & Ham).
  { intros k c st Hc. rewrite (proj2 (Hk k) c st Hc). by eapply Hb. }
  destruct (run_answer true false (with_contrib contrib (concat shards)) (with_contrib_ok _ _ Hr) Hb) as (single & Es & Has).
  rewrite with_contrib_fst in Es. exists (rows_of <$> qss), merged, single.
  split; [done|]. split.
  { rewrite <- Em. f_equal. clear. induction qss as [|q qss IH]; [done|]. cbn. by rewrite fmap_app, IH. }
  split; [done|]. intros k c st Hc. destruct (Ham k c st Hc) as [Hm1 Hm2], (Has k c st Hc) as [Hs1 Hs2], (Hk k) as [Hiff Htot].
  assert (Hpres : present false true (concat qss) k <-> present true false (with_contrib contrib (concat shards)) k).
  { unfold present. rewrite Hiff. done. }
  rewrite <- (Htot c st Hc) in Hs1.
  destruct (present_dec true false (with_contrib contrib (concat shards)) k) as [Hp|Hp].
  - rewrite Hm1, Hs1 by tauto. done.
  - rewrite Hm2, Hs2 by tauto. done.
Qed.

End OneNode.
End Groups.
