(* ===== verification/AggExamples.v ===== *)
(** * Keys of groups, and instances of the theorems on aggregation

    Two rows have the same key when they belong to the same group, for at most eight
    expressions; what happens with more of them, and departures of the merge of partial results
    from the result of one node. *)

From stdpp Require Import gmap.
From S2P Require Import Prelude KeyEncoder Stdio FloatArith FloatText FloatExact Calendar DateTime ExprValue ExprValueFacts Sorter SorterFacts Hll TDigest TableKey TableKeyFacts TableRecord MemRow Agg AggNode AggAcc AggTheorems.

(** ** Keys *)

Section Keys.
Context `{Host, RoaringLib} {M : Type}.
Variable bad_shift : Z -> Z.
Implicit Types (exprs : list (MemRow M -> ExprValue)) (row : MemRow M).
















End Keys.

(** ** An instance *)

#[local] Instance machine : Host := le_host.

(** Bitmaps of numbers below 64. *)
#[local] Instance small_bitmaps : RoaringLib :=
  {| Roaring := Z; roaring_new := 0; roaring_runOptimize := id; roaring_getSizeInBytes := fun _ => 8;
     roaring_write := le_split 8;
     roaring_readSafe := fun s => if (length s =? 8)%nat then Some (le_combine s) else None |}.

#[local] Instance small_ops : RoaringOps :=
  {| roaring_or := Z.lor; roaring_and := Z.land; roaring_xor := Z.lxor;
     roaring_add := fun x b => Z.lor b (Z.shiftl 1 x);
     roaring_cardinality := fun b => Z.of_nat (length (filter (fun i => Z.testbit b (Z.of_nat i) = true) (seq 0 64))) |}.

#[local] Instance in_order : UniqOrder := {| uniq_order l := l; same_bucket _ _ _ := false |}.
#[local] Instance utc : Zone := fixed_zone 0.
#[local] Instance sums : Murmur := sum_murmur.
#[local] Instance no_libm : Libm := {| libm_sqrt x := x; libm_pow x _ := x; libm_log x := x |}.
#[local] Instance no_qsort : Qsort := fun A cmp l => l.
#[local] Instance by_insertion : StdSort := fun A lt => foldr (insert_by lt) [].
#[local] Instance dyn_factory : MessageFactory dyn_message := fun types => mk_message (fun f => types !! Z.to_nat f) ∅.
#[local] Instance map_order : FlatMapOrder := fun A m => map_to_list m.

#[local] Instance map_order_laws : FlatMapOrderLaws.
Proof. by intros A m. Qed.

#[local] Instance dyn_descriptors : DescriptorLaws dyn_message.
Proof. split; by intros. Qed.

(** A count of [uint32_t] on a machine that takes it modulo 32. *)
Definition x86_shift (i : Z) : Z := Z.shiftl 1 ((7 - i) mod 32).

Abbreviation row := (MemRow dyn_message).

Definition slot_at (tuple : nat) (slot : Z) (t : PrimitiveType) (r : row) : ExprValue :=
  default Null_value (slot_value 0 tuple slot t r).

Definition slot_expr (tuple : nat) (slot : Z) (t : PrimitiveType) : Expr dyn_message :=
  mk_expr (slot_at tuple slot t) false Null_value false t [].
Definition row_expr (l : list (Expr dyn_message)) : Expr dyn_message :=
  mk_expr (fun _ => Null_value) false Null_value true INVALID_TYPE l.

Definition table_types : list cpp_type := [CPPTYPE_INT64; CPPTYPE_INT64; CPPTYPE_STRING].

(** A row of the table with an empty tuple of aggregates. *)
Definition table_of (types : list cpp_type) (fields : list (Z * pb_val)) : row :=
  mk_row [Some (mk_message (fun f => table_types !! Z.to_nat f) (list_to_map fields));
          Some (New types)] [false; false].

(** COUNT, SUM, AVG, MAX and GROUP_CONCAT of the second column, grouped by the first one. *)
Definition agg_types : list cpp_type :=
  [CPPTYPE_INT64; CPPTYPE_INT64; CPPTYPE_STRING; CPPTYPE_DOUBLE; CPPTYPE_INT64; CPPTYPE_STRING].
Definition agg_descs : list (nat * list cpp_type) := [(0%nat, table_types); (1%nat, agg_types)].

Definition amount : Expr dyn_message := slot_expr 0 2 INT64.

Definition five_calls : list (AggFnCall dyn_message * AggState dyn_message) :=
  (fun c => (c, new_state)) <$>
  [mk_call COUNT_STAR 1 1 1 false INT64 [] [44] None;
   mk_call SUM 1 2 2 false INT64 [amount] [44] None;
   mk_call AVG 1 3 4 false DOUBLE [amount] [44] None;
   mk_call MAX 1 5 5 false INT64 [amount] [44] None;
   mk_call GROUP_CONCAT 1 6 6 false STRING [row_expr [amount]; row_expr []] [44] None].

Definition by_first : list (row -> ExprValue) := [slot_at 0 1 INT64].

Definition amount_row (group : Z) (x : option Z) : row :=
  table_of agg_types ((0, PNum group) :: match x with Some x => [(1, PNum x)] | None => [] end).

(** What a row contributes. *)
Definition amount_contrib (r : row) (c : AggFnCall dyn_message) : Acc :=
  let v := slot_at 0 2 INT64 r in
  match agg_type c with
  | COUNT_STAR => AVal (SemInt 1)
  | AVG => if is_null v then AAvg 0 0 0 else AAvg (int64_val v) 1 (Z.abs (int64_val v))
  | GROUP_CONCAT => match get_string v with
                    | Some s => if is_null v then ANone else AVal (SemStr s)
                    | None => ANone
                    end
  | _ => if is_null v then ANone else AVal (SemInt (int64_val v))
  end.

Definition two_shards : list (list row) :=
  [[amount_row 1 (Some 10); amount_row 1 None; amount_row 2 (Some 7)];
   [amount_row 1 (Some (-4)); amount_row 3 None]].

Lemma slot_indep t tuple slot ty : tuple <> t -> indep t (slot_at tuple slot ty).
Proof. intros Hn r r' Hr. unfold slot_at, slot_value, row_get. by rewrite Hr. Qed.

Lemma by_first_indep g : g ∈ by_first -> indep 1 g.
Proof. intros ->%list_elem_of_singleton. by apply slot_indep. Qed.

Lemma five_apart : apart five_calls.
Proof.
  unfold five_calls. cbn. split_and!; try done; intros c st Hc;
    repeat (apply elem_of_cons in Hc as [[= -> ->]|Hc]); try (by apply elem_of_nil in Hc).
  all: intros s Hs Hs'; cbn in *; set_solver.
Qed.

Lemma five_cases (P : AggFnCall dyn_message -> Prop) :
  Forall (fun x => P x.1) five_calls -> forall c st, (c, st) ∈ five_calls -> P c.
Proof. intros Hf c st Hc. by apply (proj1 (Forall_forall _ _) Hf (c, st)). Qed.

Lemma five_simple c st : (c, st) ∈ five_calls -> simple_call c = true /\ tuple_id c = 1%nat /\ call_indep 1 c.
Proof.
  assert (Ha : indep 1 (slot_at 0 2 INT64)) by by apply slot_indep.
  revert c st. apply five_cases. unfold five_calls. cbn [fmap list_fmap].
  repeat (apply Forall_cons; split); [..|constructor]; (split; [reflexivity|]); (split; [reflexivity|]).
  all: intros e He; cbn [fst children] in He.
  all: repeat (apply elem_of_cons in He as [->|He]); try (by apply elem_of_nil in He).
  all: split; [done|]; intros p Hp; cbn in Hp.
  all: repeat (apply elem_of_cons in Hp as [->|Hp]); try (by apply elem_of_nil in Hp); done.
Qed.

Lemma five_empty_row c st :
  (c, st) ∈ five_calls -> typed c (fetch_mem_row agg_descs) /\ holds c (fetch_mem_row agg_descs) ANone.
Proof. revert c st. apply five_cases. repeat constructor. Qed.

Lemma slot_amount g x :
  slot_at 0 2 INT64 (amount_row g x) = match x with Some x => number INT64 x | None => Null_value end.
Proof. by destruct x. Qed.

Lemma number_int64 x : is_i 64 x -> int64_val (number INT64 x) = x.
Proof. intros Hx. unfold number. rewrite int64_write. apply swrap_id; [lia|done]. Qed.

Lemma amount_row_ok g x :
  match x with Some x => is_i 64 x | None => True end -> table_row 0 five_calls amount_contrib (amount_row g x).
Proof.
  intros Hx. unfold table_row. apply five_cases. unfold five_calls. cbn [fmap list_fmap].
  repeat (apply Forall_cons; split); [..|constructor]; (split; [split; reflexivity|]); (split; [reflexivity|]).
  all: unfold contributes, amount_contrib; cbn [fst agg_type children amount slot_expr row_expr eval parts concat_parts col_type].
  all: try reflexivity; rewrite slot_amount.
  all: destruct x as [x|]; [|cbn; by try eexists].
  all: pose proof (number_int64 x Hx) as Ex; change (is_null (number INT64 x)) with false; cbn iota.
  - exists x. split; [|by rewrite Ex]. change (get_numberic (TInt 64) (number INT64 x)) with (Some (i64 (int64_val (number INT64 x)))).
    rewrite Ex. f_equal. by apply swrap_id.
  - exists x. split; [|by rewrite Ex]. change (get_numberic TDouble (number INT64 x)) with (Some (f64_of_Z (int64_val (number INT64 x)))).
    by rewrite Ex.
  - exists (number INT64 x). split; [done|]. split; [done|]. split; [by apply number_ok|].
    exists (SemInt x). split; [|by rewrite Ex]. unfold denote. cbn [type number u_write new_ExprValue]. by rewrite <- Ex at 2.
  - eexists. split; [reflexivity|]. done.
Qed.

Lemma shards_ok : Forall (table_row 0 five_calls amount_contrib) (concat two_shards).
Proof. unfold two_shards. cbn [concat app]. repeat (apply Forall_cons; split); [..|constructor]; apply amount_row_ok; cbn; unfold is_i; lia. Qed.

Lemma shards_bounded k c st :
  (c, st) ∈ five_calls -> bounded (total (sel x86_shift by_first k (with_contrib amount_contrib (concat two_shards))) c).
Proof.
  intros Hc. apply (sel_bounded 0 x86_shift 1 by_first five_calls five_simple false _ k c st Hc).
  - apply (with_contrib_ok 0 1 five_calls five_simple), shards_ok.
  - revert c st Hc. apply five_cases. repeat constructor.
  - revert c st Hc. apply five_cases. repeat constructor.
Qed.

Abbreviation run_five := (run 0 false 1024 x86_shift by_first five_calls agg_descs 2).

Lemma two_phase_aggregation_witness :
  exists parts merged single,
    mapM (run_five false false) two_shards = Some parts /\ run_five false true (concat parts) = Some merged
    /\ run_five true false (concat two_shards) = Some single
    /\ forall k c st, (c, st) ∈ five_calls ->
         answer x86_shift by_first k c merged = answer x86_shift by_first k c single.
Proof.
  exact (two_phase_aggregation 0 false 1024 x86_shift 1 by_first five_calls by_first_indep five_apart five_simple
    agg_descs 2 ltac:(lia) five_empty_row amount_contrib two_shards shards_ok shards_bounded).
Defined.

Lemma group_results_witness :
  exists outs, run_five false false (concat two_shards) = Some outs /\
    forall k c st, (c, st) ∈ five_calls ->
      (present x86_shift by_first false false (with_contrib amount_contrib (concat two_shards)) k ->
         answer x86_shift by_first k c outs
         = [result c (total (sel x86_shift by_first k (with_contrib amount_contrib (concat two_shards))) c)])
      /\ (~ present x86_shift by_first false false (with_contrib amount_contrib (concat two_shards)) k ->
            answer x86_shift by_first k c outs = []).
Proof.
  exact (group_results 0 false 1024 x86_shift 1 by_first five_calls by_first_indep five_apart five_simple
    agg_descs 2 ltac:(lia) five_empty_row amount_contrib false (concat two_shards) shards_ok shards_bounded).
Defined.

(** The key of a group, and the texts of the values that a run in two phases gives for it. *)
Definition group_key (g : Z) : bytes := default [] (encode_agg_key x86_shift by_first (amount_row g None)).

Definition texts (calls : list (AggFnCall dyn_message * AggState dyn_message)) (groups : list (row -> ExprValue))
    (k : bytes) (outs : list row) : option (list (list bytes)) :=
  mapM (fun c => mapM get_string (answer x86_shift groups k c.1 outs)) calls.

Definition in_phases (calls : list (AggFnCall dyn_message * AggState dyn_message)) (groups : list (row -> ExprValue))
    (descs : list (nat * list cpp_type)) (k : bytes) (shards : list (list row)) : option (list (list bytes)) :=
  parts ← mapM (run 0 false 1024 x86_shift groups calls descs 2 false false) shards;
  merged ← run 0 false 1024 x86_shift groups calls descs 2 false true (concat parts);
  texts calls groups k merged.

Definition in_one (calls : list (AggFnCall dyn_message * AggState dyn_message)) (groups : list (row -> ExprValue))
    (descs : list (nat * list cpp_type)) (k : bytes) (shards : list (list row)) : option (list (list bytes)) :=
  single ← run 0 false 1024 x86_shift groups calls descs 2 true false (concat shards);
  texts calls groups k single.

Example two_phase_values :
  in_phases five_calls by_first agg_descs (group_key 1) two_shards
  = Some ((fun s => [bytes_of_string s]) <$> ["3"; "6"; "3"; "10"; "10,-4"]%string).
Proof. vm_compute. reflexivity. Qed.

(** ** Departures *)

(** *** Nulls after the eighth column *)

(** A row with two columns that follow eight equal ones. *)
Definition wide_row (x y : option Z) : row :=
  table_of agg_types (match x with Some x => [(0, PNum x)] | None => [] end
                      ++ match y with Some y => [(1, PNum y)] | None => [] end).
Definition ten_columns : list (row -> ExprValue) :=
  replicate 8 (fun _ => number INT64 0) ++ [slot_at 0 1 INT64; slot_at 0 2 INT64].

(** The flags have eight bits: rows that differ in the column that is null share a group. *)
Example ninth_null_lost :
  encode_agg_key x86_shift ten_columns (wide_row None (Some 1))
  = encode_agg_key x86_shift ten_columns (wide_row (Some 1) None)
  /\ encode_agg_key x86_shift (drop 2 ten_columns) (wide_row None (Some 1))
     <> encode_agg_key x86_shift (drop 2 ten_columns) (wide_row (Some 1) None).
Proof. split; [vm_compute; reflexivity|]. vm_compute. discriminate. Qed.


(** *** AND of bitmaps *)

Definition mask_row (group : Z) (b : option Z) : row :=
  table_of [CPPTYPE_STRING] ((0, PNum group) :: match b with Some b => [(2, PStr (le_split 8 b))] | None => [] end).
Definition mask_descs : list (nat * list cpp_type) := [(0%nat, table_types); (1%nat, [CPPTYPE_STRING])].
Definition and_call : list (AggFnCall dyn_message * AggState dyn_message) :=
  [(mk_call RB_AND_AGG 1 1 1 false BITMAP [slot_expr 0 3 BITMAP] [44] None, new_state)].

(** A null is no argument of the AND; but when the first store has only nulls for a group, the
    empty bitmap with which the merger begins counts as one and nothing is left. *)
Example and_after_nulls_empty :
  in_one and_call by_first mask_descs (group_key 1) [[mask_row 1 None]; [mask_row 1 (Some 6)]] = Some [[le_split 8 6]]
  /\ in_phases and_call by_first mask_descs (group_key 1) [[mask_row 1 (Some 6)]; [mask_row 1 None]] = Some [[le_split 8 6]]
  /\ in_phases and_call by_first mask_descs (group_key 1) [[mask_row 1 None]; [mask_row 1 (Some 6)]] = Some [[le_split 8 0]].
Proof. vm_compute. done. Qed.

(** *** Distinct values *)

Definition distinct_call : list (AggFnCall dyn_message * AggState dyn_message) :=
  [(mk_call MULTI_COUNT_DISTINCT 1 1 2 true INT64 [amount] [44] None, new_state)].
Definition distinct_types : list cpp_type := [CPPTYPE_STRING; CPPTYPE_INT64].
Definition distinct_row (group : Z) (x : option Z) : row :=
  table_of distinct_types ((0, PNum group) :: match x with Some x => [(1, PNum x)] | None => [] end).
Definition distinct_descs : list (nat * list cpp_type) := [(0%nat, table_types); (1%nat, distinct_types)].

(** A store sends the values it has seen; for a group with only nulls the text is empty and the
    merger reads a length behind its end. *)
Example distinct_nulls_read_past_end :
  in_phases distinct_call by_first distinct_descs (group_key 1)
    [[distinct_row 1 (Some 5); distinct_row 1 (Some 8)]; [distinct_row 1 (Some 5)]] = Some [[bytes_of_string "2"]]
  /\ in_phases distinct_call by_first distinct_descs (group_key 1)
       [[distinct_row 1 (Some 5); distinct_row 1 (Some 8)]; [distinct_row 1 None]] = None.
Proof. vm_compute. done. Qed.

(** *** Separators *)

Definition concat_call (o : option (list (Expr dyn_message * bool))) : list (AggFnCall dyn_message * AggState dyn_message) :=
  [(mk_call GROUP_CONCAT 1 1 1 false STRING [row_expr [slot_expr 0 3 STRING]; row_expr []] [44] o, new_state)].
Definition text_row (x : Z) (s : string) : row :=
  table_of [CPPTYPE_STRING] [(0, PNum 1); (1, PNum x); (2, PStr (bytes_of_string s))].

(** The separator after a leading empty text is there without ORDER BY and not with it. *)
Example ordered_concat_drops_separator :
  in_one (concat_call None) by_first mask_descs (group_key 1) [[text_row 1 EmptyString; text_row 2 "a"]]
  = Some [[bytes_of_string ",a"]]
  /\ in_one (concat_call (Some [(amount, true)])) by_first mask_descs (group_key 1) [[text_row 1 EmptyString; text_row 2 "a"]]
     = Some [[bytes_of_string "a"]].
Proof. vm_compute. done. Qed.
