(* ===== verification/Operators.v ===== *)
(** * Operators and calls of scalar functions ([src/expr/operators.cpp],
      [src/expr/fn_manager.cpp], [src/expr/scalar_fn_call.cpp], [include/expr/scalar_fn_call.h])

    An operator of SQL becomes the name of a function on values of one type; the function is
    found by its name, and its arguments are cast to that type before the call.  [None] marks
    what C++ leaves undefined: a vector read outside its range, a division that overflows, a
    shift by 64 bits or more.  Sums, differences and products of signed integers wrap around. *)

From S2P Require Import Prelude KeyEncoder Stdio FloatArith FloatText Calendar DateTime ExprValue.

Section Operators.
Context `{Host, RoaringLib}.

Definition Null : ExprValue := new_ExprValue NULL_TYPE.
Definition Bool (b : bool) : ExprValue := u_write 1 (Z.b2z b) (new_ExprValue BOOL).

Abbreviation function := (list ExprValue -> option ExprValue).

(** ** The macros *)

(** [VAL]: a member of the value with its width. *)
Record Member := mk_member { width : nat; read : ExprValue -> Z }.

Definition UNARY_OP_FN (t : PrimitiveType) (VAL : Member) (OP : Z -> Z) : function := fun input =>
  a ← input !! 0%nat;
  if is_null a then Some Null
  else Some (u_write (width VAL) (OP (read VAL a)) (new_ExprValue t)).

Definition BINARY_OP_FN (t : PrimitiveType) (VAL : Member) (OP : Z -> Z -> option Z) : function := fun input =>
  a ← input !! 0%nat;
  if is_null a then Some Null
  else
    b ← input !! 1%nat;
    if is_null b then Some Null
    else x ← OP (read VAL a) (read VAL b); Some (u_write (width VAL) x (new_ExprValue t)).

(** [zero]: the member compares equal to 0. *)
Definition BINARY_OP_ZERO_FN (t : PrimitiveType) (VAL : Member) (zero : Z -> bool) (OP : Z -> Z -> option Z) :
    function := fun input =>
  a ← input !! 0%nat;
  if is_null a then Some Null
  else
    b ← input !! 1%nat;
    if is_null b || zero (read VAL b) then Some Null
    else x ← OP (read VAL a) (read VAL b); Some (u_write (width VAL) x (new_ExprValue t)).

Definition BINARY_OP_PREDICATE_FN {A} (VAL : ExprValue -> A) (OP : A -> A -> bool) : function := fun input =>
  a ← input !! 0%nat;
  if is_null a then Some Null
  else b ← input !! 1%nat; if is_null b then Some Null else Some (Bool (OP (VAL a) (VAL b))).

Definition in_int64 : Member := mk_member 8 int64_val.
Definition in_uint64 : Member := mk_member 8 uint64_val.
Definition in_double : Member := mk_member 8 double_val.
Definition in_bool : Member := mk_member 1 bool_val.

(** ** Arithmetic *)

Definition bit_not_uint : function := UNARY_OP_FN UINT64 in_uint64 Z.lnot.
Definition logic_not_bool : function := UNARY_OP_FN BOOL in_bool (fun x => Z.b2z (x =? 0)).
Definition minus_int : function := UNARY_OP_FN INT64 in_int64 Z.opp.
Definition minus_uint : function := UNARY_OP_FN INT64 in_int64 Z.opp.
Definition minus_double : function := UNARY_OP_FN DOUBLE in_double (fp_neg 64).

Definition total (f : Z -> Z -> Z) : Z -> Z -> option Z := fun x y => Some (f x y).

Definition add_int_int : function := BINARY_OP_FN INT64 in_int64 (total Z.add).
Definition add_uint_uint : function := BINARY_OP_FN UINT64 in_uint64 (total Z.add).
Definition add_double_double : function := BINARY_OP_FN DOUBLE in_double (total f64_add).
Definition minus_int_int : function := BINARY_OP_FN INT64 in_int64 (total Z.sub).
Definition minus_uint_uint : function := BINARY_OP_FN UINT64 in_uint64 (total Z.sub).
Definition minus_double_double : function := BINARY_OP_FN DOUBLE in_double (total f64_sub).
Definition multiplies_int_int : function := BINARY_OP_FN INT64 in_int64 (total Z.mul).
Definition multiplies_uint_uint : function := BINARY_OP_FN UINT64 in_uint64 (total Z.mul).
Definition multiplies_double_double : function := BINARY_OP_FN DOUBLE in_double (total f64_mul).

(** The quotient of the least integer by -1 does not fit; the machine traps on it, also for
    the remainder. *)
Definition int_division (f : Z -> Z -> Z) (x y : Z) : option Z :=
  if (x =? - 2 ^ 63) && (y =? -1) then None else Some (f x y).

Definition is_zero (x : Z) : bool := x =? 0.
Definition is_zero_double (x : Z) : bool := f64_eqb x 0.

Definition divides_int_int : function := BINARY_OP_ZERO_FN INT64 in_int64 is_zero (int_division Z.quot).
Definition divides_uint_uint : function := BINARY_OP_ZERO_FN UINT64 in_uint64 is_zero (total Z.quot).
Definition divides_double_double : function := BINARY_OP_ZERO_FN DOUBLE in_double is_zero_double (total f64_div).
Definition mod_int_int : function := BINARY_OP_ZERO_FN INT64 in_int64 is_zero (int_division Z.rem).
Definition mod_uint_uint : function := BINARY_OP_ZERO_FN UINT64 in_uint64 is_zero (total Z.rem).

Definition shift_count (f : Z -> Z -> Z) (x n : Z) : option Z := if n <? 64 then Some (f x n) else None.

Definition left_shift_uint_uint : function := BINARY_OP_FN UINT64 in_uint64 (shift_count Z.shiftl).
Definition right_shift_uint_uint : function := BINARY_OP_FN UINT64 in_uint64 (shift_count Z.shiftr).
Definition bit_and_uint_uint : function := BINARY_OP_FN UINT64 in_uint64 (total Z.land).
Definition bit_or_uint_uint : function := BINARY_OP_FN UINT64 in_uint64 (total Z.lor).
Definition bit_xor_uint_uint : function := BINARY_OP_FN UINT64 in_uint64 (total Z.lxor).

(** ** Comparisons *)

Inductive Comparison := CEq | CNe | CGt | CGe | CLt | CLe.

(** The operators on a type with [==] and [<] that are those of an order. *)
Definition by_order (op : Comparison) (c : comparison) : bool :=
  match op, c with
  | CEq, Eq | CNe, (Lt | Gt) | CGt, Gt | CGe, (Gt | Eq) | CLt, Lt | CLe, (Lt | Eq) => true
  | _, _ => false
  end.

(** On doubles every operator but [!=] is false when an operand is not a number. *)
Definition by_double (op : Comparison) (x y : Z) : bool :=
  match op with
  | CEq => f64_eqb x y
  | CNe => negb (f64_eqb x y)
  | CGt => f64_lt y x
  | CGe => f64_leb y x
  | CLt => f64_lt x y
  | CLe => f64_leb x y
  end.

(** The suffix of a name and the type of the arguments. *)
Definition predicate_fn (op : Comparison) (t : PrimitiveType) : function :=
  match t with
  | INT64 => BINARY_OP_PREDICATE_FN int64_val (fun x y => by_order op (x ?= y))
  | UINT64 | DATETIME => BINARY_OP_PREDICATE_FN uint64_val (fun x y => by_order op (x ?= y))
  | DOUBLE => BINARY_OP_PREDICATE_FN double_val (by_double op)
  | STRING => BINARY_OP_PREDICATE_FN str_val (fun x y => by_order op (lex_compare x y))
  | TIME => BINARY_OP_PREDICATE_FN int32_val (fun x y => by_order op (x ?= y))
  | DATE | TIMESTAMP => BINARY_OP_PREDICATE_FN uint32_val (fun x y => by_order op (x ?= y))
  | _ => fun _ => None
  end.

(** ** The function manager *)

Definition arg_str (t : PrimitiveType) : string :=
  match t with
  | DOUBLE => "_double" | INT64 => "_int" | UINT64 => "_uint" | BOOL => "_bool" | STRING => "_string"
  | DATETIME => "_datetime" | TIME => "_time" | DATE => "_date" | TIMESTAMP => "_timestamp"
  | _ => EmptyString
  end%string.

Definition predicate_name (op : Comparison) : string :=
  match op with CEq => "eq" | CNe => "ne" | CGt => "gt" | CGe => "ge" | CLt => "lt" | CLe => "le" end%string.
Definition predicate_swap (op : Comparison) : Comparison :=
  match op with CEq => CEq | CNe => CNe | CGt => CLt | CGe => CLe | CLt => CGt | CLe => CGe end.

Definition predicates : list Comparison := [CEq; CNe; CGt; CGe; CLt; CLe].
Definition predicate_types : list PrimitiveType :=
  [INT64; UINT64; DOUBLE; STRING; DATETIME; TIME; DATE; TIMESTAMP].

Definition typed_name (name : string) (t : PrimitiveType) : string := (name ++ arg_str t ++ arg_str t)%string.

(** The functions of [register_operators] that are operators. *)
Definition registered : list (string * function) :=
  [("bit_not_uint", bit_not_uint); ("minus_int", minus_int); ("minus_uint", minus_uint);
   ("minus_double", minus_double);
   ("add_int_int", add_int_int); ("add_uint_uint", add_uint_uint); ("add_double_double", add_double_double);
   ("minus_int_int", minus_int_int); ("minus_uint_uint", minus_uint_uint);
   ("minus_double_double", minus_double_double);
   ("multiplies_int_int", multiplies_int_int); ("multiplies_uint_uint", multiplies_uint_uint);
   ("multiplies_double_double", multiplies_double_double);
   ("divides_int_int", divides_int_int); ("divides_uint_uint", divides_uint_uint);
   ("divides_double_double", divides_double_double);
   ("mod_int_int", mod_int_int); ("mod_uint_uint", mod_uint_uint);
   ("left_shift_uint_uint", left_shift_uint_uint); ("right_shift_uint_uint", right_shift_uint_uint);
   ("bit_and_uint_uint", bit_and_uint_uint); ("bit_or_uint_uint", bit_or_uint_uint);
   ("bit_xor_uint_uint", bit_xor_uint_uint)]%string
  ++ concat ((fun op => (fun t => (typed_name (predicate_name op) t, predicate_fn op t)) <$> predicate_types)
               <$> predicates).

Fixpoint get_object {A} (name : string) (l : list (string * A)) : option A :=
  match l with
  | [] => None
  | (n, a) :: l => if String.eqb n name then Some a else get_object name l
  end.

(** [predicate_swap_map]: with and without the suffixes of the types. *)
Definition predicate_swap_map : list (string * string) :=
  concat ((fun op => (predicate_name op, predicate_name (predicate_swap op))
            :: ((fun t => (typed_name (predicate_name op) t, typed_name (predicate_name (predicate_swap op)) t))
                  <$> predicate_types)) <$> predicates).

(** The operators of [parser.h] that are completed by their arguments; the functions called by
    name ([FT_COMMON], [FT_MATCH_AGAINST]) are left out, [FT_OTHER] is any operator that
    [complete_fn] does not support. *)
Inductive FnOp :=
| FT_CMP (op : Comparison)
| FT_ADD | FT_MINUS | FT_MULTIPLIES | FT_DIVIDES | FT_MOD
| FT_BIT_AND | FT_BIT_OR | FT_BIT_XOR | FT_LS | FT_RS | FT_BIT_NOT | FT_UMINUS
| FT_LOGIC_NOT | FT_LOGIC_AND | FT_LOGIC_OR | FT_LOGIC_XOR | FT_OTHER.

Record Function := mk_function {
  fn_op : FnOp;
  name : string;
  arg_types : list PrimitiveType;
  return_type : PrimitiveType
}.

Definition swap_op (fn : Function) : bool * Function :=
  match get_object (name fn) predicate_swap_map with
  | None => (false, fn)
  | Some n =>
      let op := match fn_op fn with
                | FT_CMP ((CGe | CGt | CLe | CLt) as c) => FT_CMP (predicate_swap c)
                | o => o
                end in
      (true, mk_function op n (arg_types fn) (return_type fn))
  end.

(** With a number of arguments, all of one type. *)
Definition complete_args (fn : Function) (num_args : nat) (arg_type ret_type : PrimitiveType) : Function :=
  if type_eqb (return_type fn) ret_type then fn
  else mk_function (fn_op fn) (foldl (fun n _ => n ++ arg_str arg_type)%string (name fn) (seq 0 num_args))
         (replicate num_args arg_type) ret_type.

(** The type in which operands are compared, also those of [IN]. *)
Definition compare_type (uint : PrimitiveType) (types : list PrimitiveType) : PrimitiveType :=
  if all_int types then (if has_uint types then uint else INT64)
  else if has_datetime types then DATETIME
  else if has_timestamp types then TIMESTAMP
  else if has_date types then DATE
  else if has_time types then TIME
  else if has_double types then DOUBLE
  else if has_int types then DOUBLE
  else STRING.

Definition number_type (types : list PrimitiveType) : PrimitiveType :=
  if has_double types then DOUBLE else if has_uint types then UINT64 else INT64.

Definition complete_fn (fn : Function) (types : list PrimitiveType) : Z * Function :=
  match fn_op fn with
  | FT_CMP _ => (0, complete_args fn 2 (compare_type UINT64 types) BOOL)
  | FT_ADD | FT_MINUS | FT_MULTIPLIES =>
      let t := number_type types in (0, complete_args fn 2 t t)
  | FT_DIVIDES => (0, complete_args fn 2 DOUBLE DOUBLE)
  | FT_MOD => let t := if has_uint types then UINT64 else INT64 in (0, complete_args fn 2 t t)
  | FT_BIT_AND | FT_BIT_OR | FT_BIT_XOR | FT_LS | FT_RS => (0, complete_args fn 2 UINT64 UINT64)
  | FT_BIT_NOT => (0, complete_args fn 1 UINT64 UINT64)
  | FT_UMINUS => let t := number_type types in (0, complete_args fn 1 t t)
  | FT_LOGIC_NOT => (0, complete_args fn 1 BOOL BOOL)
  | FT_LOGIC_AND | FT_LOGIC_OR | FT_LOGIC_XOR => (0, complete_args fn 2 BOOL BOOL)
  | FT_OTHER => (-1, fn)
  end.

(** ** Calls *)

Context `{Zone}.
Variable now : Z.

(** An expression: its value on a row. *)
Context {R : Type}.
Abbreviation node := (R -> option ExprValue).

Fixpoint cast_args (types : list PrimitiveType) (args : list ExprValue) : option (list ExprValue) :=
  match types, args with
  | [], _ => Some args
  | _ :: _, [] => None
  | t :: types, a :: args => a ← cast_to now t a; rest ← cast_args types args; Some (a :: rest)
  end.

(** [get_value] when the operands are no rows of expressions. *)
Definition scalar_value (fn_call : option function) (types : list PrimitiveType) (col_type : PrimitiveType)
    (children : list node) (row : R) : option ExprValue :=
  match fn_call with
  | None => Some Null
  | Some f =>
      args ← mapM (fun c : node => c row) children;
      args ← cast_args types args;
      v ← f args;
      cast_to now col_type v
  end.

(** The comparison of two rows of expressions: where the first difference decides, and what
    holds when there is none.  Where the source compares a pair again it finds both as the first
    comparison left them, cast to one type. *)
Fixpoint multi_value (less greater equal : bool) (ls rs : list node) (row : R) : option ExprValue :=
  match ls, rs with
  | [], _ => Some (Bool equal)
  | _ :: _, [] => None
  | l :: ls, r :: rs =>
      l ← l row;
      r ← r row;
      '(c, _, _) ← compare_diff_type now l r;
      if c <? 0 then Some (Bool less)
      else if 0 <? c then Some (Bool greater)
      else multi_value less greater equal ls rs row
  end.

Definition row_expr_value (op : Comparison) : list node -> list node -> R -> option ExprValue :=
  match op with
  | CEq => multi_value false false true
  | CNe => multi_value true true false
  | CGt => multi_value false true false
  | CGe => multi_value false true true
  | CLt => multi_value true false false
  | CLe => multi_value true false true
  end.

End Operators.
