(* ===== verification/Predicate.v ===== *)
(** * Predicates ([src/expr/predicate.cpp], [include/expr/predicate.h])

    The logical connectives of SQL with their nulls, IN over a set of constants, and LIKE with
    its matcher on characters and the prefix it gives to the choice of an index, or as a regular
    expression of RE2.  [None] marks what C++ leaves undefined. *)

From stdpp Require Import gmap.
From S2P Require Import Prelude KeyEncoder Stdio FloatArith FloatText Calendar DateTime ExprValue StringFn TextFn Operators.

(** [pb::Charset]. *)
Inductive Charset := UTF8 | GBK | CS_UNKNOWN.

(** The classes that give the characters of a text. *)
Inductive CodePoints := Binary | UTF8Charset | GBKCharset.

(** ** Characters *)

(** The bytes [10xxxxxx] at the start of a text. *)
Fixpoint continuations (s : bytes) : nat :=
  match s with
  | c :: s => if Z.land c 0xC0 =? 0x80 then S (continuations s) else 0
  | [] => 0
  end.

Definition get_char_size (str : bytes) (idx : nat) : nat := S (continuations (drop (S idx) str)).

Definition in_range (min ch max : Z) : bool := (min <=? ch) && (ch <=? max).

(** An empty slice where there is no character. *)
Definition utf8_point (str : bytes) (idx : nat) : bytes :=
  match str !! idx with
  | None => []
  | Some c =>
      let sized n := if (get_char_size str idx =? n)%nat then take n (drop idx str) else [] in
      if Z.land c 0x80 =? 0 then [c]
      else if Z.land c 0xE0 =? 0xC0 then sized 2%nat
      else if Z.land c 0xF0 =? 0xE0 then sized 3%nat
      else if Z.land c 0xF0 =? 0xF0 then sized 4%nat
      else []
  end.

Definition gbk_point (str : bytes) (idx : nat) : bytes :=
  match str !! idx with
  | None => []
  | Some c =>
      if Z.land c 0x80 =? 0 then [c]
      else
        match str !! S idx with
        | Some d =>
            if in_range 0x81 c 0xFE && (in_range 0x40 d 0x7E || in_range 0x80 d 0xFE) then [c; d] else []
        | None => []
        end
  end.

Definition next_code_point (cs : CodePoints) (str : bytes) (idx : nat) : bytes :=
  match cs with
  | Binary => take 1 (drop idx str)
  | UTF8Charset => utf8_point str idx
  | GBKCharset => gbk_point str idx
  end.

(** ** LIKE *)

Definition under_score : bytes := [95].
Definition percent : bytes := [37].
Definition escape : bytes := [92].

(** A step over one character of the target, or over one byte where there is none. *)
Definition offset_of (cs : CodePoints) (target : bytes) (tx : nat) : nat :=
  match length (next_code_point cs target tx) with O => 1%nat | n => n end.

(** The inner [None] is [boost::none]: a text is not in the charset. *)
Fixpoint like_loop (fuel : nat) (cs : CodePoints) (target pattern : bytes) (tx px ntx npx : nat) :
    option (option bool) :=
  if (length target <=? tx)%nat && (length pattern <=? px)%nat then Some (Some true)
  else
    match fuel with
    | O => None
    | S fuel =>
        let go_on tx px ntx npx := like_loop fuel cs target pattern tx px ntx npx in
        let back := if (0 <? ntx)%nat && (ntx <=? length target)%nat then go_on ntx npx ntx npx
                    else Some (Some false) in
        if (length pattern <=? px)%nat then back
        else
          let p_point := next_code_point cs pattern px in
          if bool_decide (p_point = []) then Some None
          else if bool_decide (p_point = under_score) then
            if (tx <? length target)%nat then go_on (tx + offset_of cs target tx)%nat (S px) ntx npx else back
          else if bool_decide (p_point = percent) then
            let t_offset := if (tx <? length target)%nat then offset_of cs target tx else 1%nat in
            go_on tx (S px) (tx + t_offset)%nat px
          else
            let escaped := bool_decide (p_point = escape) && (S px <? length pattern)%nat in
            let px := if escaped then S px else px in
            let p_point := if escaped then next_code_point cs pattern px else p_point in
            if bool_decide (p_point = []) then Some None
            else if (tx <? length target)%nat then
              let t_point := next_code_point cs target tx in
              if bool_decide (t_point = []) then Some None
              else if bool_decide (p_point = t_point)
              then go_on (tx + length t_point)%nat (px + length p_point)%nat ntx npx
              else back
            else back
    end.

(** Between two returns to the last [%] every round reads the pattern on, and each return moves
    on in the target. *)
Definition like_fuel (target pattern : bytes) : nat :=
  ((length pattern + 2) * (length target + 2))%nat.

Definition like (cs : CodePoints) (target pattern : bytes) : option (option bool) :=
  like_loop (like_fuel target pattern) cs target pattern 0 0 0 0.

Definition like_one (target pattern : bytes) (charset : Charset) : option bool :=
  let binary := r ← like Binary target pattern; Some (default false r) in
  match charset with
  | GBK => r ← like GBKCharset target pattern; match r with Some b => Some b | None => binary end
  | UTF8 => r ← like UTF8Charset target pattern; match r with Some b => Some b | None => binary end
  | CS_UNKNOWN => binary
  end.

(** [hit_index]: whether the pattern is a constant text, whether it has a prefix, and the text
    before the first wildcard. *)
Fixpoint prefix_loop (pattern : bytes) (is_escaped : bool) (prefix_value : bytes) : bool * bytes :=
  match pattern with
  | [] => (true, prefix_value)
  | c :: pattern =>
      if negb is_escaped && ((c =? 37) || (c =? 95)) then (false, prefix_value)
      else if negb is_escaped && (c =? 92) then prefix_loop pattern true prefix_value
      else prefix_loop pattern false (prefix_value ++ [c])
  end.

Definition hit_index (pattern : bytes) : bool * bool * bytes :=
  let c := default 0 (pattern !! 0%nat) in
  let is_prefix := negb (c =? 37) && negb (c =? 95) in
  let '(is_eq, prefix_value) := prefix_loop pattern false [] in
  (is_eq, is_prefix, prefix_value).

(** The characters that the conversions to regular expressions quote. *)
Definition need_escape_set : list Z := [46; 42; 43; 63; 91; 93; 123; 125; 40; 41; 92; 124; 94; 36].
Definition exact_escape_set : list Z := [46; 42; 43; 63; 91; 93; 123; 125; 40; 41; 92; 94; 36].

Definition regex_char (set : list Z) (c : Z) : bytes := if existsb (Z.eqb c) set then [92; c] else [c].

Fixpoint covent_pattern (pattern : bytes) (is_escaped : bool) (regex_pattern : bytes) : bytes :=
  match pattern with
  | [] => regex_pattern
  | c :: pattern =>
      if negb is_escaped && (c =? 37) then covent_pattern pattern is_escaped (regex_pattern ++ [46; 42])
      else if negb is_escaped && (c =? 95) then covent_pattern pattern is_escaped (regex_pattern ++ [46])
      else if negb is_escaped && (c =? 92) then covent_pattern pattern true regex_pattern
      else covent_pattern pattern false (regex_pattern ++ regex_char need_escape_set c)
  end.

Fixpoint covent_exact_pattern (pattern : bytes) (is_escaped : bool) (regex_pattern : bytes) : bytes :=
  match pattern with
  | [] => regex_pattern
  | c :: pattern =>
      if negb is_escaped && (c =? 37) then covent_exact_pattern pattern is_escaped (regex_pattern ++ [46; 42])
      else if negb is_escaped && (c =? 95) then covent_exact_pattern pattern is_escaped (regex_pattern ++ [46])
      else if negb is_escaped && (c =? 124) then
        covent_exact_pattern pattern is_escaped (regex_pattern ++ [46; 42; 124; 46; 42])
      else if negb is_escaped && (c =? 92) then covent_exact_pattern pattern true regex_pattern
      else covent_exact_pattern pattern false (regex_pattern ++ regex_char exact_escape_set c)
  end.

(** The matches of RE2 on bytes, where a dot matches every byte: of the whole text, with or
    without regard to case, and of a part of it.  The expression comes first; one that RE2
    refuses matches nothing. *)
Class Re2 := {
  full_match : bool -> bytes -> bytes -> bool;
  partial_match : bytes -> bytes -> bool
}.

Section Predicates.
Context `{Host, RoaringLib, Zone}.
Variable now : Z.

Context {R : Type}.
Abbreviation node := (R -> option ExprValue).

(** ** Connectives *)

Fixpoint and_value (children : list node) (has_null_val : bool) (row : R) : option ExprValue :=
  match children with
  | [] => Some (if has_null_val then Null else Bool true)
  | c :: children =>
      val ← c row;
      if is_null val then and_value children true row
      else
        b ← get_numberic TBool val;
        if b =? 0 then Some (Bool false) else and_value children has_null_val row
  end.

Fixpoint or_value (children : list node) (has_null_val : bool) (row : R) : option ExprValue :=
  match children with
  | [] => Some (if has_null_val then Null else Bool false)
  | c :: children =>
      val ← c row;
      if is_null val then or_value children true row
      else
        b ← get_numberic TBool val;
        if b =? 0 then or_value children has_null_val row else Some (Bool true)
  end.

Definition xor_value (a b : node) (row : R) : option ExprValue :=
  val1 ← a row;
  val2 ← b row;
  if is_null val1 || is_null val2 then Some Null
  else x ← get_numberic TBool val1; y ← get_numberic TBool val2; Some (Bool (negb (x =? y))).

Definition is_null_value (a : node) (row : R) : option ExprValue :=
  val1 ← a row; Some (Bool (is_null val1)).

Definition is_true_value (a : node) (row : R) : option ExprValue :=
  val1 ← a row; b ← get_numberic TBool val1; Some (Bool (negb (b =? 0))).

Definition not_value (a : node) (row : R) : option ExprValue :=
  val ← a row;
  if is_null val then Some val
  else b ← get_numberic TBool val; Some (set_type BOOL (u_write 1 (Z.b2z (b =? 0)) val)).

(** ** IN *)

(** An operand: its value, on no row for a constant, its type, the columns of a row of
    expressions, and its member [_has_null]. *)
Inductive Operand := mk_operand {
  value : option R -> option ExprValue;
  col_type : PrimitiveType;
  is_constant : bool;
  is_row_expr : bool;
  columns : list Operand;
  has_null : bool
}.

(** [Literal(ExprValue)]. *)
Definition literal (v : ExprValue) : Operand :=
  mk_operand (fun _ => cast_to now (type v) v) (type v) true false [] (is_null v).

(** [_has_null] of an expression, from those of its children before they are replaced by
    literals. *)
Definition const_pre_calc_null (is_null_predicate : bool) (children : list Operand) : bool :=
  if is_null_predicate then false else existsb has_null children.

(** [double_set]: a set ordered by [<] of doubles. *)
Record InState := mk_in {
  map_type : PrimitiveType;
  row_expr_types : list PrimitiveType;
  in_row_expr : bool;
  int_set : gset Z;
  double_set : list Z;
  str_set : gset bytes
}.

Fixpoint make_key (types : list PrimitiveType) (cols : list Operand) (row : option R) (key : bytes) :
    option (option bytes) :=
  match types, cols with
  | [], _ => Some (Some key)
  | _ :: _, [] => None
  | t :: types, c :: cols =>
      v ← value c row;
      if is_null v then Some None
      else v ← cast_to now t v; s ← get_int_string v; make_key types cols row (key ++ s ++ [0])
  end.

Definition add_key (types : list PrimitiveType) (c : Operand) (st : InState) : option InState :=
  k ← make_key types (columns c) None [];
  Some match k with
       | None => st
       | Some s => mk_in (map_type st) (row_expr_types st) (in_row_expr st) (int_set st) (double_set st)
                     ({[ s ]} ∪ str_set st)
       end.

Fixpoint fold_option {A B} (f : A -> B -> option B) (l : list A) (b : B) : option B :=
  match l with [] => Some b | a :: l => b ← f a b; fold_option f l b end.

Definition row_expr_open (first : Operand) (rest : list Operand) : option (Z * option InState) :=
  let col_size := length (columns first) in
  if forallb (fun c => is_constant c && is_row_expr c && (length (columns c) =? col_size)%nat) rest then
    second ← rest !! 0%nat;
    let types := zip_with (fun a b => compare_type INT64 [col_type a; col_type b]) (columns first) (columns second) in
    st ← fold_option (add_key types) rest (mk_in INVALID_TYPE types true ∅ [] ∅);
    Some (0, Some st)
  else Some (-1, None).

Definition add_constant (t : PrimitiveType) (c : Operand) (st : InState) : option InState :=
  v ← value c None;
  if is_null v then Some st
  else
    v ← cast_to now t v;
    match t with
    | INT64 | TIMESTAMP | DATETIME | TIME | DATE =>
        x ← get_numberic (TInt 64) v;
        Some (mk_in t [] false ({[ x ]} ∪ int_set st) (double_set st) (str_set st))
    | DOUBLE => x ← get_numberic TDouble v; Some (mk_in t [] false (int_set st) (x :: double_set st) (str_set st))
    | STRING => s ← get_string v; Some (mk_in t [] false (int_set st) (double_set st) ({[ s ]} ∪ str_set st))
    | _ => Some st
    end.

Definition singel_open (first : Operand) (rest : list Operand) : option (Z * option InState) :=
  second ← rest !! 0%nat;
  let t := compare_type INT64 [col_type first; col_type second] in
  if forallb is_constant rest then
    st ← fold_option (add_constant t) rest (mk_in t [] false ∅ [] ∅); Some (0, Some st)
  else Some (-1, None).

(** After the operands are open. *)
Definition in_open (children : list Operand) : option (Z * option InState) :=
  match children with
  | first :: ((_ :: _) as rest) => if is_row_expr first then row_expr_open first rest else singel_open first rest
  | _ => Some (-1, None)
  end.

(** [count] of a set of doubles; what is not a number has no place in the order. *)
Definition double_count (l : list Z) (x : Z) : option bool :=
  if existsb f64_is_nan (x :: l) then None else Some (existsb (fun y => negb (f64_lt x y) && negb (f64_lt y x)) l).

Definition in_found (found any_null : bool) : ExprValue :=
  if found then Bool true else if any_null then Null else Bool false.

(** The children are those before [const_pre_calc]; the operand on the left is evaluated. *)
Definition in_value (st : InState) (children : list Operand) (row : R) : option ExprValue :=
  let any_null := const_pre_calc_null false children in
  first ← head children;
  if in_row_expr st then
    k ← make_key (row_expr_types st) (columns first) (Some row) [];
    Some match k with None => Null | Some s => in_found (bool_decide (s ∈ str_set st)) any_null end
  else
    v ← value first (Some row);
    if is_null v then Some Null
    else
      match map_type st with
      | INT64 | TIMESTAMP | DATETIME | TIME | DATE =>
          v ← cast_to now (map_type st) v;
          x ← get_numberic (TInt 64) v; Some (in_found (bool_decide (x ∈ int_set st)) any_null)
      | DOUBLE =>
          v ← cast_to now DOUBLE v;
          x ← get_numberic TDouble v; b ← double_count (double_set st) x; Some (in_found b any_null)
      | STRING =>
          v ← cast_to now STRING v;
          s ← get_string v; Some (in_found (bool_decide (s ∈ str_set st)) any_null)
      | _ => Some (in_found false any_null)
      end.

(** ** The values of LIKE *)

Context `{BoostSplit}.

Record LikeState := mk_like { pattern : bytes; patterns : list bytes; const_pattern : bool }.

Definition starts_with (c : Z) (s : bytes) : bool := match s with x :: _ => x =? c | [] => false end.
Definition ends_with (c : Z) (s : bytes) : bool := match last s with Some x => x =? c | None => false end.

(** The alternatives of [EXACT LIKE], with the wildcards of the first and the last one. *)
Definition widen (is_prefix is_postfix : bool) (s : bytes) : bytes :=
  match s with
  | [] => []
  | _ =>
      let s := if is_prefix && negb (starts_with 37 s) then 37 :: s else s in
      if is_postfix && negb (ends_with 37 s) then s ++ [37] else s
  end.

Definition exact_patterns (p : bytes) : list bytes :=
  let l := boost_split p [124] in
  if (1 <? length l)%nat then
    let is_prefix := starts_with 37 (default [] (head l)) in
    let is_postfix := ends_with 37 (default [] (last l)) in
    widen is_prefix is_postfix <$> l
  else [].

(** After the operands are open.  [has_slots]: the pattern depends on the row. *)
Definition open_by_pattern (exact has_slots : bool) (children : list Operand) : option (Z * LikeState) :=
  match children with
  | _ :: p :: _ =>
      if has_slots then Some (0, mk_like [] [] false)
      else
        v ← value p None;
        s ← get_string v;
        Some (0, mk_like s (if exact then exact_patterns s else []) true)
  | _ => Some (-1, mk_like [] [] true)
  end.

Fixpoint any_like (target : bytes) (l : list bytes) (charset : Charset) : option bool :=
  match l with
  | [] => Some false
  | p :: l => b ← like_one target p charset; if b : bool then Some true else any_like target l charset
  end.

Definition get_value_by_pattern (st : LikeState) (charset : Charset) (a p : Operand) (row : R) : option ExprValue :=
  s ← (if const_pattern st then Some (pattern st) else v ← value p (Some row); get_string v);
  target ← value a (Some row);
  target ← cast_to now STRING target;
  b ← (if negb (const_pattern st) || (length (patterns st) =? 0)%nat then like_one (str_val target) s charset
       else any_like (str_val target) (patterns st) charset);
  Some (Bool b).

(** ** LIKE and REGEXP by RE2 *)

Context `{Re2}.

(** The expression of a LIKE and whether it regards case. *)
Definition reset_regex (exact : bool) (like_pattern : bytes) : bool * bytes :=
  if exact then (false, covent_exact_pattern like_pattern false [])
  else (true, covent_pattern like_pattern false []).

(** [regex]: the expression made when the predicate was opened, if its pattern is constant. *)
Definition open_by_re2 (exact has_slots : bool) (children : list Operand) : option (Z * option (bool * bytes)) :=
  match children with
  | _ :: p :: _ =>
      if has_slots then Some (0, None)
      else v ← value p None; s ← get_string v; Some (0, Some (reset_regex exact s))
  | _ => Some (-1, None)
  end.

Definition get_value_by_re2 (exact : bool) (regex : option (bool * bytes)) (a p : Operand) (row : R) :
    option ExprValue :=
  '(case_sensitive, re) ← (match regex with
                           | Some r => Some r
                           | None => v ← value p (Some row); s ← get_string v; Some (reset_regex exact s)
                           end);
  v ← value a (Some row);
  v ← cast_to now STRING v;
  Some (Bool (full_match case_sensitive re (str_val v))).

Definition regexp_open (has_slots : bool) (children : list Operand) : option (Z * option bytes) :=
  match children with
  | _ :: p :: _ =>
      if has_slots then Some (0, None) else v ← value p None; s ← get_string v; Some (0, Some s)
  | _ => Some (-1, None)
  end.

Definition regexp_value (regex : option bytes) (a p : Operand) (row : R) : option ExprValue :=
  re ← (match regex with Some r => Some r | None => v ← value p (Some row); get_string v end);
  v ← value a (Some row);
  v ← cast_to now STRING v;
  Some (Bool (partial_match re (str_val v))).

End Predicates.
