(* ===== verification/LikeFacts.v ===== *)
(** * What LIKE matches

    A pattern as a list of wildcards and characters, and what it matches by definition; the
    matcher, which goes back to the last [%] only, always ends and decides that. *)

From S2P Require Import Prelude KeyEncoder Stdio FloatArith Calendar ExprValue Predicate.

(** ** Reference *)

Inductive Token := Any | One | Lit (c : bytes).

Fixpoint matches (ps : list Token) (cs : list bytes) : bool :=
  match ps with
  | [] => match cs with [] => true | _ => false end
  | Lit c :: ps => match cs with d :: cs => bool_decide (c = d) && matches ps cs | [] => false end
  | One :: ps => match cs with _ :: cs => matches ps cs | [] => false end
  | Any :: ps => existsb (fun n => matches ps (drop n cs)) (seq 0 (S (length cs)))
  end.

(** The characters of a text from a position on. *)
Inductive reads (cs : CodePoints) (s : bytes) : nat -> list bytes -> Prop :=
| reads_end : reads cs s (length s) []
| reads_char i c l :
    next_code_point cs s i = c -> c <> [] -> reads cs s (i + length c) l -> reads cs s i (c :: l).

(** The tokens of a pattern from a position on. *)
Inductive parses (cs : CodePoints) (s : bytes) : nat -> list Token -> Prop :=
| parses_end : parses cs s (length s) []
| parses_one i l : next_code_point cs s i = under_score -> parses cs s (S i) l -> parses cs s i (One :: l)
| parses_any i l : next_code_point cs s i = percent -> parses cs s (S i) l -> parses cs s i (Any :: l)
| parses_escaped i c l :
    next_code_point cs s i = escape -> (S i < length s)%nat -> next_code_point cs s (S i) = c -> c <> [] ->
    parses cs s (S i + length c) l -> parses cs s i (Lit c :: l)
| parses_lit i c l :
    next_code_point cs s i = c -> c <> [] -> c <> under_score -> c <> percent ->
    ~ (c = escape /\ (S i < length s)%nat) ->
    parses cs s (i + length c) l -> parses cs s i (Lit c :: l).

(** ** Facts about the reference *)

Lemma matches_any ps cs :
  matches (Any :: ps) cs = true <-> exists pre cs', cs = pre ++ cs' /\ matches ps cs' = true.
Proof.
  cbn [matches]. rewrite existsb_exists. split.
  - intros (n & _ & Hm). exists (take n cs), (drop n cs). by rewrite take_drop.
  - intros (pre & cs' & -> & Hm). exists (length pre). rewrite drop_app_length, in_seq, length_app. split; [lia|done].
Qed.

Lemma any_longer ps pre cs : matches (Any :: ps) cs = true -> matches (Any :: ps) (pre ++ cs) = true.
Proof.
  intros (p & cs' & -> & Hm)%matches_any. apply matches_any. exists (pre ++ p), cs'. by rewrite app_assoc.
Qed.

Definition not_any (t : Token) : Prop := t <> Any.

Lemma segment_drop seg ps cs :
  Forall not_any seg -> matches (seg ++ ps) cs = true ->
  exists con cs', cs = con ++ cs' /\ length con = length seg /\ matches ps cs' = true.
Proof.
  intros Hseg. revert cs. induction Hseg as [|t seg Ht Hseg IH]; intros cs Hm; cbn [app] in Hm.
  { by exists [], cs. }
  assert (Hc : exists c cs1, cs = c :: cs1 /\ matches (seg ++ ps) cs1 = true).
  { destruct t; [done| |]; destruct cs as [|d cs]; cbn in Hm; try done; exists d, cs; [done|].
    by apply andb_prop in Hm as [_ Hm]. }
  destruct Hc as (c & cs1 & -> & Hm1). destruct (IH cs1 Hm1) as (con & cs' & -> & El & Hm').
  exists (c :: con), cs'. split; [done|]. split; [cbn; by rewrite El|done].
Qed.

(** Once the text before a second [%] has matched, a later place for the first one gives nothing
    new. *)
Lemma greedy seg ps con cs c cs0 :
  Forall not_any seg -> length con = length seg -> con ++ cs = c :: cs0 ->
  matches (Any :: seg ++ Any :: ps) cs0 = true -> matches (Any :: ps) cs = true.
Proof.
  intros Hseg El Ec (pre & cs1 & E0 & Hm)%matches_any.
  destruct (segment_drop seg (Any :: ps) cs1 Hseg Hm) as (con' & cs' & -> & El' & Hm').
  assert (Ecs : cs = drop (length con) (c :: pre ++ con') ++ cs').
  { rewrite <- (drop_app_length con cs), Ec, E0, (app_assoc pre con' cs'), app_comm_cons.
    rewrite drop_app_le; [done|]. cbn. rewrite length_app. lia. }
  rewrite Ecs. by apply any_longer.
Qed.

Lemma matches_any_cons ps cs :
  matches (Any :: ps) cs = matches ps cs || match cs with [] => false | _ :: cs => matches (Any :: ps) cs end.
Proof.
  apply eq_true_iff_eq. rewrite orb_true_iff, matches_any. split.
  - intros ([|c pre] & cs' & -> & Hm); [by left|]. right. cbn [app]. by apply any_longer, matches_any; exists [], cs'.
  - intros [Hm|Hm]; [by exists [], cs|]. destruct cs as [|c cs]; [done|]. apply matches_any in Hm as (pre & cs' & -> & Hm).
    by exists (c :: pre), cs'.
Qed.

(** ** Characters *)

Lemma continuations_le s : (continuations s <= length s)%nat.
Proof. induction s as [|c s IH]; cbn [continuations length]; [lia|]. case_match; lia. Qed.

Lemma point_length cs s i :
  (length (next_code_point cs s i) <= length s - i)%nat.
Proof.
  destruct cs; cbn [next_code_point].
  - rewrite length_take, length_drop. lia.
  - unfold utf8_point. destruct (s !! i) as [c|] eqn:E; [|cbn; lia]. apply lookup_lt_Some in E.
    pose proof (continuations_le (drop (S i) s)) as Hc. rewrite length_drop in Hc.
    unfold get_char_size. repeat case_match; cbn [length]; try lia; rewrite length_take, length_drop; lia.
  - unfold gbk_point. destruct (s !! i) as [c|] eqn:E; [|cbn; lia]. apply lookup_lt_Some in E.
    destruct (s !! S i) as [d|] eqn:E'; [apply lookup_lt_Some in E'|]; repeat case_match; cbn; lia.
Qed.

Lemma point_inside cs s i : next_code_point cs s i <> [] -> (i < length s)%nat.
Proof.
  pose proof (point_length cs s i) as Hl. destruct (next_code_point cs s i); [done|]. cbn in Hl. lia.
Qed.

Lemma reads_le cs s i l : reads cs s i l -> (i <= length s)%nat.
Proof.
  induction 1 as [|i c l E Hc _ IH]; [done|]. rewrite <- E in Hc. apply point_inside in Hc. lia.
Qed.

Lemma reads_nil cs s l : reads cs s (length s) l -> l = [].
Proof.
  intros Hr. inversion Hr as [|i c l' E Hc]; subst; [done|]. apply point_inside in Hc. lia.
Qed.

Lemma parses_nil cs s l : parses cs s (length s) l -> l = [].
Proof.
  intros Hp. inversion Hp as [|i l' E|i l' E|i c l' E Hl|i c l' E Hc]; subst; [done|..|].
  all: try (assert (Hn : next_code_point cs s (length s) <> []) by (by rewrite E); apply point_inside in Hn; lia).
  apply point_inside in Hc. lia.
Qed.

(** A text of bytes. *)
Lemma reads_bytes s i : (i <= length s)%nat -> reads Binary s i ((fun c => [c]) <$> drop i s).
Proof.
  remember (length s - i)%nat as n eqn:En. revert i En. induction n as [|n IH]; intros i En Hi.
  { replace i with (length s) by lia. rewrite drop_all. constructor. }
  destruct (lookup_lt_is_Some_2 s i) as [c Hc]; [lia|]. rewrite (drop_S s c i Hc). cbn [fmap list_fmap].
  econstructor; [|done|]; cbn [next_code_point]; [by rewrite (drop_S s c i Hc)|].
  cbn [length]. rewrite Nat.add_1_r. apply IH; lia.
Qed.

(** ** The matcher ends *)

Section Ends.
Context (cs : CodePoints) (target pattern : bytes).

Lemma offset_pos tx : (0 < offset_of cs target tx)%nat.
Proof. unfold offset_of. case_match; lia. Qed.

Lemma offset_inside tx : (tx < length target)%nat -> (tx + offset_of cs target tx <= length target)%nat.
Proof.
  intros Ht. pose proof (point_length cs target tx). unfold offset_of. case_match; lia.
Qed.

Lemma offset_point tx : next_code_point cs target tx <> [] -> length (next_code_point cs target tx) = offset_of cs target tx.
Proof. intros Hn. unfold offset_of. by destruct (next_code_point cs target tx). Qed.

(** What is left of the target for the next return, by what is known of the last [%]. *)
Inductive budget (tx px ntx npx : nat) : nat -> Prop :=
| budget_none : (ntx = 0 \/ length target < ntx)%nat -> budget tx px ntx npx (length target - tx)
| budget_back :
    (0 < ntx <= length target)%nat -> (npx < length pattern)%nat -> next_code_point cs pattern npx = percent ->
    (npx < px)%nat -> (ntx <= tx \/ (tx < length target /\ ntx <= tx + offset_of cs target tx))%nat ->
    budget tx px ntx npx (S (length target - ntx))
| budget_start :
    (0 < ntx <= length target)%nat -> (npx < length pattern)%nat -> next_code_point cs pattern npx = percent ->
    tx = ntx -> px = npx -> budget tx px ntx npx (length target - ntx).

Definition rounds (b px : nat) : nat := ((length pattern + 2) * b + (length pattern - px))%nat.

Lemma rounds_on b b' px px' :
  (b' <= b)%nat -> (px < px')%nat -> (px < length pattern)%nat -> (rounds b' px' < rounds b px)%nat.
Proof. intros Hb Hp Hl. unfold rounds. pose proof (Nat.mul_le_mono_l _ _ (length pattern + 2) Hb). lia. Qed.

Lemma rounds_back b b' px px' : (b' < b)%nat -> (rounds b' px' < rounds b px)%nat.
Proof. intros Hb. unfold rounds. pose proof (Nat.mul_le_mono_l (S b') b (length pattern + 2)). lia. Qed.

Lemma like_loop_total fuel tx px ntx npx b :
  budget tx px ntx npx b -> (rounds b px <= fuel)%nat ->
  exists r, like_loop fuel cs target pattern tx px ntx npx = Some r.
Proof.
  revert tx px ntx npx b. induction fuel as [|fuel IH]; intros tx px ntx npx b Hb Hr.
  { assert (Hz : (length target <= tx /\ length pattern <= px)%nat).
    { unfold rounds in Hr. destruct Hb; nia. }
    cbn [like_loop]. rewrite !(proj2 (Nat.leb_le _ _)) by lia. by eexists. }
  cbn [like_loop]. destruct (_ && _) eqn:E0; [by eexists|]. clear E0.
  assert (Hback : px <> npx \/ next_code_point cs pattern px <> percent ->
    exists r, (if (0 <? ntx)%nat && (ntx <=? length target)%nat then like_loop fuel cs target pattern ntx npx ntx npx
               else Some (Some false)) = Some r).
  { intros Hpx. destruct (_ && _) eqn:En; [|by eexists]. apply andb_prop in En as [?%Nat.ltb_lt ?%Nat.leb_le].
    destruct Hb as [?|_ Hn Hp Hlt _|_ Hn Hp -> ->]; [lia| |destruct Hpx; congruence].
    eapply IH; [by apply budget_start|]. pose proof (rounds_back (S (length target - ntx)) (length target - ntx) px npx). lia. }
  assert (Hstep : forall px', (px < px')%nat -> (px < length pattern)%nat -> (tx < length target)%nat ->
    px <> npx \/ next_code_point cs pattern px <> percent ->
    exists r, like_loop fuel cs target pattern (tx + offset_of cs target tx) px' ntx npx = Some r).
  { intros px' Hpx Hpl Ht Hne. pose proof (offset_pos tx). pose proof (offset_inside tx Ht).
    destruct Hb as [Hn|Hn Hp Hc Hlt Ho|Hn Hp Hc -> ->]; [| |destruct Hne; congruence].
    - eapply IH; [by apply budget_none|].
      pose proof (rounds_on (length target - tx) (length target - (tx + offset_of cs target tx)) px px'). lia.
    - eapply IH; [apply budget_back; (done || lia)|].
      pose proof (rounds_on (S (length target - ntx)) (S (length target - ntx)) px px'). lia. }
  destruct (Nat.leb_spec (length pattern) px) as [Hpx|Hpx].
  { apply Hback. destruct Hb; [|lia|lia]. right. intros E.
    assert (Hn : next_code_point cs pattern px <> []) by (by rewrite E). apply point_inside in Hn. lia. }
  destruct (bool_decide_reflect (next_code_point cs pattern px = [])) as [_|Hpp]; [by eexists|].
  destruct (bool_decide_reflect (next_code_point cs pattern px = under_score)) as [Eu|Hnu].
  { assert (Hne : next_code_point cs pattern px <> percent) by (by rewrite Eu).
    destruct (Nat.ltb_spec tx (length target)); [apply Hstep; (lia || by right)|apply Hback; by right]. }
  destruct (bool_decide_reflect (next_code_point cs pattern px = percent)) as [Ep|Hnp].
  { pose proof (offset_pos tx) as Hop. destruct (Nat.ltb_spec tx (length target)) as [Ht|Ht].
    - pose proof (offset_inside tx Ht). eapply IH; [apply budget_back; (done || lia)|].
      assert (Hle : (S (length target - (tx + offset_of cs target tx)) <= b)%nat) by (destruct Hb; lia).
      pose proof (rounds_on b _ px (S px) Hle). lia.
    - eapply IH; [apply budget_none; lia|]. assert (Hle : (length target - tx <= b)%nat) by lia.
      pose proof (rounds_on b _ px (S px) Hle). lia. }
  set (escaped := bool_decide _ && _). set (q := if escaped then S px else px).
  set (pp := if escaped then _ else _).
  destruct (bool_decide_reflect (pp = [])) as [_|Hp2]; [by eexists|].
  destruct (Nat.ltb_spec tx (length target)) as [Ht|Ht]; [|apply Hback; by right].
  destruct (bool_decide_reflect (next_code_point cs target tx = [])) as [_|Htp]; [by eexists|].
  destruct (bool_decide (pp = next_code_point cs target tx)); [|apply Hback; by right].
  rewrite (offset_point tx Htp). apply Hstep; [|done|done|by right].
  subst q. destruct pp; [done|]. cbn [length]. destruct escaped; lia.
Qed.

Lemma like_total : exists r, like cs target pattern = Some r.
Proof.
  unfold like. eapply like_loop_total; [apply budget_none; by left|]. unfold rounds, like_fuel. nia.
Qed.

End Ends.

(** ** What the matcher decides *)

Section Decides.
Context (cs : CodePoints) (target pattern : bytes).

(** The last [%], the pattern behind it and the target from where it is tried next. *)
Inductive behind (ps : list Token) (l : list bytes) (ps0 : list Token) (l0 : list bytes) : Prop :=
| behind_segment seg con c :
    ps0 = seg ++ ps -> Forall not_any seg -> length con = length seg -> con ++ l = c :: l0 -> behind ps l ps0 l0
| behind_start : ps = Any :: ps0 -> l = l0 -> behind ps l ps0 l0.

Inductive returns (ps : list Token) (l : list bytes) (ntx npx : nat) : bool -> Prop :=
| returns_none : (ntx = 0 \/ length target < ntx)%nat -> returns ps l ntx npx false
| returns_back ps0 l0 :
    (0 < ntx <= length target)%nat -> parses cs pattern npx (Any :: ps0) -> reads cs target ntx l0 ->
    behind ps l ps0 l0 -> returns ps l ntx npx (matches (Any :: ps0) l0).

(** After [%] only the new place counts. *)
Lemma returns_absorbed ps l ntx npx b :
  returns (Any :: ps) l ntx npx b -> matches (Any :: ps) l || b = matches (Any :: ps) l.
Proof.
  intros [_|ps0 l0 _ _ _ Hbe]; [by rewrite orb_false_r|].
  destruct (matches (Any :: ps) l) eqn:Em; [done|]. cbn [orb].
  destruct (matches (Any :: ps0) l0) eqn:E0; [|done]. rewrite <- Em. symmetry.
  destruct Hbe as [seg con c -> Hs El Ec|[= <-] ->]; [by apply (greedy seg ps con l c l0)|done].
Qed.

(** A token and a character that match are put behind. *)
Lemma returns_step t ps c l ntx npx b :
  t <> Any -> returns (t :: ps) (c :: l) ntx npx b -> returns ps l ntx npx b.
Proof.
  intros Ht [Hn|ps0 l0 Hn Hp Hr [seg con d -> Hs El Ec|[= ->] _]]; [by constructor| |done].
  apply returns_back; try done. apply (behind_segment _ _ _ _ (seg ++ [t]) (con ++ [c]) d).
  - by rewrite <- app_assoc.
  - apply Forall_app_2; [done|]. by constructor.
  - rewrite !length_app, El. done.
  - by rewrite <- app_assoc.
Qed.

Lemma reads_step tx c l :
  reads cs target tx (c :: l) ->
  (tx < length target)%nat /\ next_code_point cs target tx = c /\ c <> [] /\ reads cs target (tx + length c) l
  /\ offset_of cs target tx = length c.
Proof.
  intros Hr. inversion Hr as [|i c' l' E Hc Hl]; subst. pose proof (point_inside _ _ _ Hc).
  split_and!; try done. by rewrite offset_point.
Qed.

Lemma reads_head tx l : reads cs target tx l -> (tx < length target)%nat -> exists c l', l = c :: l'.
Proof. intros [|i c l' ? ? ?]; [lia|by eauto]. Qed.

Lemma reads_past tx l : reads cs target tx l -> (length target <= tx)%nat -> l = [].
Proof. intros Hr Hle. pose proof (reads_le _ _ _ _ Hr). replace tx with (length target) in Hr by lia. by apply reads_nil in Hr. Qed.

(** Trying the last [%] again. *)
Lemma back_correct fuel ps l ntx npx b r :
  (forall tx px ntx npx ps l b r, reads cs target tx l -> parses cs pattern px ps -> returns ps l ntx npx b ->
     like_loop fuel cs target pattern tx px ntx npx = Some r -> r = Some (matches ps l || b)) ->
  returns ps l ntx npx b -> matches ps l = false ->
  (if (0 <? ntx)%nat && (ntx <=? length target)%nat then like_loop fuel cs target pattern ntx npx ntx npx
   else Some (Some false)) = Some r -> r = Some (matches ps l || b).
Proof.
  intros IH Hb ->. cbn [orb]. destruct Hb as [Hn|ps0 l0 Hn Hp Hr Hbe].
  - assert (E : ((0 <? ntx)%nat && (ntx <=? length target)%nat) = false)
      by (destruct (Nat.ltb_spec 0 ntx), (Nat.leb_spec ntx (length target)); cbn; lia || done).
    rewrite E. by intros [= <-].
  - rewrite (proj2 (Nat.ltb_lt 0 ntx)), (proj2 (Nat.leb_le ntx _)) by lia. cbn [andb]. intros E.
    assert (Hb : returns (Any :: ps0) l0 ntx npx (matches (Any :: ps0) l0))
      by (apply (returns_back _ _ _ _ ps0 l0); [done|done|done|by apply behind_start]).
    rewrite (IH _ _ _ _ _ _ _ _ Hr Hp Hb E). by rewrite orb_diag.
Qed.

Lemma parses_le px ps : parses cs pattern px ps -> (px <= length pattern)%nat.
Proof.
  intros [|i l E _|i l E _|i c l E Hl _ _ _|i c l E Hc _ _ _ _]; [done|..].
  all: assert (Hn : next_code_point cs pattern i <> []) by (by rewrite E); apply point_inside in Hn; lia.
Qed.

Lemma parses_past px ps : parses cs pattern px ps -> (length pattern <= px)%nat -> ps = [].
Proof.
  intros Hp Hle. pose proof (parses_le _ _ Hp). replace px with (length pattern) in Hp by lia. by apply parses_nil in Hp.
Qed.

(** The equations of the matcher, by the token at its place in the pattern. *)
Abbreviation back fuel ntx npx :=
  (if (0 <? ntx)%nat && (ntx <=? length target)%nat then like_loop fuel cs target pattern ntx npx ntx npx
   else Some (Some false)).

Lemma loop_unfold fuel tx px ntx npx t ps :
  parses cs pattern px (t :: ps) ->
  match t with
  | Any =>
      parses cs pattern (S px) ps /\
      like_loop (S fuel) cs target pattern tx px ntx npx
      = like_loop fuel cs target pattern tx (S px)
          (tx + if (tx <? length target)%nat then offset_of cs target tx else 1)%nat px
  | One =>
      parses cs pattern (S px) ps /\
      like_loop (S fuel) cs target pattern tx px ntx npx
      = if (tx <? length target)%nat
        then like_loop fuel cs target pattern (tx + offset_of cs target tx)%nat (S px) ntx npx else back fuel ntx npx
  | Lit c =>
      exists q, parses cs pattern q ps /\
      like_loop (S fuel) cs target pattern tx px ntx npx
      = if (tx <? length target)%nat
        then if bool_decide (next_code_point cs target tx = []) then Some None
             else if bool_decide (c = next_code_point cs target tx)
             then like_loop fuel cs target pattern (tx + length (next_code_point cs target tx))%nat q ntx npx
             else back fuel ntx npx
        else back fuel ntx npx
  end.
Proof.
  intros Hp. assert (Hl : (px < length pattern)%nat).
  { pose proof (parses_le _ _ Hp). destruct (decide (px = length pattern)) as [->|?]; [|lia]. by apply parses_nil in Hp. }
  cbn [like_loop]. rewrite (proj2 (Nat.leb_gt (length pattern) px)) by done. rewrite andb_false_r.
  inversion Hp as [|i l E Hq|i l E Hq|i c l E Hi Ec Hc Hq|i c l E Hc Hu Ha He Hq]; subst.
  - rewrite E. by rewrite !bool_decide_false, bool_decide_true by done.
  - rewrite E. by rewrite !bool_decide_false, bool_decide_true by done.
  - exists (S px + length (next_code_point cs pattern (S px)))%nat. split; [done|]. rewrite E.
    rewrite (bool_decide_false (escape = [])), (bool_decide_false (escape = under_score)), (bool_decide_false (escape = percent)),
      (bool_decide_true (escape = escape)) by done.
    rewrite (proj2 (Nat.ltb_lt _ _) Hi). cbn [andb]. rewrite bool_decide_false by done.
    by repeat case_match.
  - exists (px + length (next_code_point cs pattern px))%nat. split; [done|].
    rewrite (bool_decide_false (next_code_point cs pattern px = [])), (bool_decide_false (_ = under_score)),
      (bool_decide_false (_ = percent)) by done.
    assert (Ee : (bool_decide (next_code_point cs pattern px = escape) && (S px <? length pattern)%nat) = false).
    { destruct (bool_decide_reflect (next_code_point cs pattern px = escape)), (Nat.ltb_spec (S px) (length pattern)); try done.
      by destruct He. }
    rewrite Ee. rewrite bool_decide_false by done. by repeat case_match.
Qed.

Lemma like_loop_correct fuel tx px ntx npx ps l b r :
  reads cs target tx l -> parses cs pattern px ps -> returns ps l ntx npx b ->
  like_loop fuel cs target pattern tx px ntx npx = Some r -> r = Some (matches ps l || b).
Proof.
  revert tx px ntx npx ps l b r. induction fuel as [|fuel IH]; intros tx px ntx npx ps l b r Hr Hp Hb E.
  { cbn [like_loop] in E. destruct (_ && _) eqn:E0; [|done]. injection E as <-.
    apply andb_prop in E0 as [E1%Nat.leb_le E2%Nat.leb_le].
    by rewrite (reads_past _ _ Hr E1), (parses_past _ _ Hp E2). }
  destruct ps as [|t ps].
  { assert (Hpx : px = length pattern) by (by inversion Hp). subst px. cbn [like_loop] in E.
    rewrite (proj2 (Nat.leb_le (length pattern) _)) in E by done. rewrite andb_true_r in E.
    destruct (Nat.leb_spec (length target) tx) as [Ht|Ht].
    - rewrite (reads_past _ _ Hr Ht). by injection E as <-.
    - destruct (reads_head _ _ Hr Ht) as (c & l' & ->). by apply (back_correct fuel [] (c :: l') ntx npx). }
  pose proof (loop_unfold fuel tx px ntx npx t ps Hp) as Hu. destruct t as [| |c].
  - destruct Hu as [Hp' Eu]. rewrite Eu in E. rewrite (returns_absorbed _ _ _ _ _ Hb), matches_any_cons.
    destruct (Nat.ltb_spec tx (length target)) as [Ht|Ht].
    + destruct (reads_head _ _ Hr Ht) as (c & l' & ->). destruct (reads_step _ _ _ Hr) as (_ & _ & Hc & Hr' & Eo).
      pose proof (reads_le _ _ _ _ Hr'). assert (0 < length c)%nat by (destruct c; [done|cbn; lia]).
      apply (IH tx (S px) (tx + offset_of cs target tx)%nat px ps (c :: l') _ r Hr Hp'); [|done].
      apply (returns_back _ _ _ _ ps l'); rewrite ?Eo; try done; [lia|].
      by apply (behind_segment _ _ _ _ [] [] c).
    + assert (l = []) as -> by (by apply (reads_past tx)).
      refine (IH _ _ _ _ _ [] false _ Hr Hp' _ E). apply returns_none. right. lia.
  - destruct Hu as [Hp' Eu]. rewrite Eu in E. destruct (Nat.ltb_spec tx (length target)) as [Ht|Ht].
    + destruct (reads_head _ _ Hr Ht) as (c & l' & ->). destruct (reads_step _ _ _ Hr) as (_ & _ & Hc & Hr' & Eo).
      rewrite Eo in E. apply (IH _ _ _ _ _ _ b _ Hr' Hp') in E; [done|]. by apply (returns_step One _ c).
    + apply (back_correct fuel (One :: ps) l ntx npx); try done. by rewrite (reads_past _ _ Hr Ht).
  - destruct Hu as (q & Hp' & Eu). rewrite Eu in E. destruct (Nat.ltb_spec tx (length target)) as [Ht|Ht].
    + destruct (reads_head _ _ Hr Ht) as (d & l' & ->). destruct (reads_step _ _ _ Hr) as (_ & Ed & Hd & Hr' & Eo).
      rewrite Ed in E. rewrite (bool_decide_false (d = [])) in E by done. cbn [matches].
      destruct (bool_decide_reflect (c = d)) as [->|Hcd].
      * apply (IH _ _ _ _ _ _ b _ Hr' Hp') in E; [done|]. by apply (returns_step (Lit d) _ d).
      * apply (back_correct fuel (Lit c :: ps) (d :: l') ntx npx b r IH Hb) in E; [|cbn [matches]; by rewrite bool_decide_false].
        cbn [matches] in E. by rewrite bool_decide_false in E.
    + apply (back_correct fuel (Lit c :: ps) l ntx npx); try done. by rewrite (reads_past _ _ Hr Ht).
Qed.

Lemma like_decides l ps :
  reads cs target 0 l -> parses cs pattern 0 ps -> like cs target pattern = Some (Some (matches ps l)).
Proof.
  intros Hr Hp. destruct (like_total cs target pattern) as [r E]. rewrite E. f_equal. unfold like in E.
  apply (like_loop_correct _ _ _ _ _ _ _ false _ Hr Hp) in E; [by rewrite orb_false_r in E|].
  apply returns_none. by left.
Qed.

(** C13. LIKE: on a text and a pattern of the charset the matcher ends and decides whether the
    pattern, read as wildcards and characters with their escapes, matches the characters of the
    text. *)
Theorem like_correct l ps :
  reads cs target 0 l -> parses cs pattern 0 ps -> like cs target pattern = Some (Some (matches ps l)).
Proof. apply like_decides. Qed.

End Decides.

(** ** Texts of bytes *)

Fixpoint byte_tokens (s : bytes) : list Token :=
  match s with
  | [] => []
  | c :: s =>
      if c =? 95 then One :: byte_tokens s
      else if c =? 37 then Any :: byte_tokens s
      else if c =? 92 then match s with [] => [Lit escape] | d :: s => Lit [d] :: byte_tokens s end
      else Lit [c] :: byte_tokens s
  end.

Lemma byte_point pre c s : next_code_point Binary (pre ++ c :: s) (length pre) = [c].
Proof. cbn [next_code_point]. by rewrite drop_app_length. Qed.

Lemma parses_bytes pre s : parses Binary (pre ++ s) (length pre) (byte_tokens s).
Proof.
  remember (length s) as n eqn:En. revert pre s En. induction (lt_wf n) as [n _ IH]. intros pre s ->.
  destruct s as [|c s]; cbn [byte_tokens].
  { rewrite app_nil_r. constructor. }
  assert (Hnext : forall d s', c :: s = d :: s' -> parses Binary (pre ++ c :: s) (S (length pre)) (byte_tokens s')).
  { intros d s' [= <- <-]. specialize (IH (length s) ltac:(cbn; lia) (pre ++ [c]) s eq_refl).
    rewrite <- app_assoc in IH. cbn in IH. by rewrite length_app, Nat.add_1_r in IH. }
  destruct (Z.eqb_spec c 95) as [->|H95]; [constructor; [apply byte_point|by eapply Hnext]|].
  destruct (Z.eqb_spec c 37) as [->|H37]; [constructor; [apply byte_point|by eapply Hnext]|].
  destruct (Z.eqb_spec c 92) as [->|H92].
  - destruct s as [|d s].
    + apply (parses_lit _ _ _ escape); try done; [apply byte_point|rewrite length_app; cbn; lia|].
      replace (length pre + length escape)%nat with (length (pre ++ [92])) by (by rewrite length_app). constructor.
    + assert (E : pre ++ 92 :: d :: s = (pre ++ [92]) ++ d :: s) by by rewrite <- app_assoc.
      assert (El : S (length pre) = length (pre ++ [92])) by (rewrite length_app; cbn; lia).
      apply (parses_escaped _ _ _ [d]); [apply byte_point|rewrite length_app; cbn; lia| |done|].
      * rewrite E, El. apply byte_point.
      * specialize (IH (length s) ltac:(cbn; lia) (pre ++ [92; d]) s eq_refl). rewrite <- app_assoc in IH.
        rewrite length_app in IH. cbn in IH |- *. by replace (S (length pre + 1)) with (length pre + 2)%nat by lia.
  - apply (parses_lit _ _ _ [c]); [apply byte_point|done| | | |cbn [length]; rewrite Nat.add_1_r; by eapply Hnext];
      unfold under_score, percent, escape; intros; naive_solver.
Qed.

Lemma like_bytes target pattern :
  like Binary target pattern = Some (Some (matches (byte_tokens pattern) ((fun c => [c]) <$> target))).
Proof.
  apply like_decides; [apply (reads_bytes target 0); lia|apply (parses_bytes [] pattern)].
Qed.

(** ** The prefix of a pattern *)

(** The text before the first wildcard, and whether there is none. *)
Fixpoint fixed_part (ps : list Token) : bool * bytes :=
  match ps with
  | [] => (true, [])
  | Lit c :: ps => let '(all, s) := fixed_part ps in (all, c ++ s)
  | _ => (false, [])
  end.

(** A pattern that ends in an escape that escapes nothing. *)
Fixpoint dangling (pattern : bytes) (is_escaped : bool) : bool :=
  match pattern with
  | [] => is_escaped
  | c :: pattern => dangling pattern (negb is_escaped && (c =? 92))
  end.

(** Characters in which no byte of a wildcard or an escape hides. *)
Definition clean (c : bytes) : Prop := Forall (fun x => x <> 37 /\ x <> 95 /\ x <> 92) c.

Lemma clean_cont s : clean (take (continuations s) s).
Proof.
  induction s as [|c s IH]; cbn [continuations]; [constructor|].
  destruct (Z.eqb_spec (Z.land c 0xC0) 0x80) as [E|E]; [|constructor].
  cbn [take]. constructor; [|done]. split_and!; by intros ->.
Qed.

Lemma utf8_long s i : (1 < length (next_code_point UTF8Charset s i))%nat -> clean (next_code_point UTF8Charset s i).
Proof.
  cbn [next_code_point]. unfold utf8_point. destruct (s !! i) as [c|] eqn:E; [|cbn; lia].
  destruct (Z.eqb_spec (Z.land c 0x80) 0) as [E0|E0]; [cbn; lia|]. intros Hl.
  assert (Hc : forall n, clean (if (get_char_size s i =? S n)%nat then take (S n) (drop i s) else [])).
  { intros n. destruct (Nat.eqb_spec (get_char_size s i) (S n)) as [En|En]; [|constructor].
    rewrite (drop_S s c i E). cbn [take]. injection En as <-. constructor; [split_and!; by intros ->|]. apply clean_cont. }
  destruct (Z.land c 0xE0 =? 0xC0); [apply (Hc 1%nat)|]. destruct (Z.land c 0xF0 =? 0xE0); [apply (Hc 2%nat)|].
  destruct (Z.land c 0xF0 =? 0xF0); [apply (Hc 3%nat)|constructor].
Qed.

Lemma take_its_length (n : nat) (l : bytes) : take n l = take (length (take n l)) l.
Proof.
  rewrite length_take. destruct (Nat.min_spec n (length l)) as [[? ->]|[? ->]]; [done|]. by rewrite !take_ge by lia.
Qed.

Lemma point_take cs s i :
  next_code_point cs s i = take (length (next_code_point cs s i)) (drop i s).
Proof.
  destruct cs; cbn [next_code_point].
  - apply take_its_length.
  - unfold utf8_point. destruct (s !! i) as [c|] eqn:E; [|done]. rewrite (drop_S s c i E).
    repeat case_match; try done; apply take_its_length.
  - unfold gbk_point. destruct (s !! i) as [c|] eqn:E; [|done]. rewrite (drop_S s c i E).
    destruct (s !! S i) as [d|] eqn:E'; [rewrite (drop_S s d (S i) E')|]; repeat case_match; done.
Qed.

Lemma point_drop cs s i : drop i s = next_code_point cs s i ++ drop (i + length (next_code_point cs s i)) s.
Proof. rewrite <- drop_drop. by rewrite (point_take cs s i) at 1; rewrite take_drop. Qed.

Lemma reads_concat cs s i l : reads cs s i l -> concat l = drop i s.
Proof.
  induction 1 as [|i c l E Hc _ IH]; [by rewrite drop_all|]. cbn. rewrite IH, <- E. symmetry. apply point_drop.
Qed.

(** *** Characters are told apart by their first byte *)

Definition char_size (cs : CodePoints) (c : Z) : nat :=
  match cs with
  | Binary => 1
  | UTF8Charset =>
      if Z.land c 0x80 =? 0 then 1 else if Z.land c 0xE0 =? 0xC0 then 2 else if Z.land c 0xF0 =? 0xE0 then 3 else 4
  | GBKCharset => if Z.land c 0x80 =? 0 then 1 else 2
  end.

Definition is_char (cs : CodePoints) (c : bytes) : Prop := exists x l, c = x :: l /\ length c = char_size cs x.

Lemma point_char cs s i : next_code_point cs s i <> [] -> is_char cs (next_code_point cs s i).
Proof.
  intros Hn. pose proof (point_inside _ _ _ Hn) as Hi. destruct (lookup_lt_is_Some_2 s i Hi) as [c Hc].
  destruct cs; cbn [next_code_point] in *.
  - rewrite (drop_S s c i Hc). by exists c, [].
  - unfold utf8_point in *. rewrite Hc in *. rewrite (drop_S s c i Hc) in *.
    pose proof (continuations_le (drop (S i) s)) as Hle. unfold get_char_size in *.
    assert (Hs : forall n, (S (continuations (drop (S i) s)) =? S n)%nat = true -> length (c :: take n (drop (S i) s)) = S n).
    { intros n En%Nat.eqb_eq. cbn [length]. rewrite length_take. lia. }
    unfold is_char. cbn [take] in *. unfold char_size.
    destruct (Z.land c 0x80 =? 0) eqn:E0; [exists c, []; by rewrite E0|].
    destruct (Z.land c 0xE0 =? 0xC0) eqn:E1; [|destruct (Z.land c 0xF0 =? 0xE0) eqn:E2; [|destruct (Z.land c 0xF0 =? 0xF0); [|done]]].
    all: destruct (_ =? _)%nat eqn:En; [|done]; eexists c, _; split; [done|]; rewrite E0, E1, ?E2; by apply Hs.
  - unfold gbk_point in *. rewrite Hc in *. unfold is_char, char_size.
    destruct (Z.land c 0x80 =? 0) eqn:E0; [exists c, []; by rewrite E0|].
    destruct (s !! S i) as [d|]; [|done]. destruct (_ && _); [|done]. exists c, [d]. by rewrite E0.
Qed.

Lemma chars_prefix_free cs c d a b : is_char cs c -> is_char cs d -> c ++ a = d ++ b -> c = d /\ a = b.
Proof.
  intros (x & l & -> & El) (y & m & -> & Em) E. assert (x = y) as <- by (by injection E).
  apply app_inj_1 in E; [done|]. congruence.
Qed.

Lemma chars_concat cs l m : Forall (is_char cs) l -> Forall (is_char cs) m -> concat l = concat m -> l = m.
Proof.
  assert (Hn : forall c, is_char cs c -> c <> []) by (by intros c (x & l' & -> & _)).
  intros Hl. revert m. induction Hl as [|c l Hc Hl IH]; intros m Hm E; destruct Hm as [|d m Hd Hm]; cbn in E; [done|..].
  - symmetry in E. apply app_eq_nil in E as [E _]. by apply Hn in Hd.
  - apply app_eq_nil in E as [E _]. by apply Hn in Hc.
  - destruct (chars_prefix_free cs c d _ _ Hc Hd E) as [-> E']. f_equal. by apply IH.
Qed.

Lemma reads_chars cs s i l : reads cs s i l -> Forall (is_char cs) l.
Proof. induction 1 as [|i c l <- Hc _ IH]; [done|]. constructor; [by apply point_char|done]. Qed.

Definition lit_char (cs : CodePoints) (t : Token) : Prop := match t with Lit c => is_char cs c | _ => True end.

Lemma parses_chars cs s i ps : parses cs s i ps -> Forall (lit_char cs) ps.
Proof.
  induction 1 as [|i l _ _ IH|i l _ _ IH|i c l _ _ <- Hc _ IH|i c l <- Hc _ _ _ _ IH]; [done|by constructor|by constructor|..];
    (constructor; [by apply point_char|done]).
Qed.

(** *** Patterns before their first wildcard *)

Lemma fixed_prefix ps l all v :
  fixed_part ps = (all, v) -> matches ps l = true -> exists l', concat l = v ++ concat l' /\ (all = true -> l' = []).
Proof.
  revert l all v. induction ps as [|[| |c] ps IH]; intros l all v; cbn [fixed_part].
  - intros [= <- <-] Hm. destruct l; [by exists []|done].
  - intros [= <- <-] _. by exists l.
  - intros [= <- <-] _. by exists l.
  - destruct (fixed_part ps) as [all' v'] eqn:E. intros [= <- <-] Hm. cbn [matches] in Hm.
    destruct l as [|d l]; [done|]. apply andb_prop in Hm as [->%bool_decide_eq_true Hm].
    destruct (IH l all' v' eq_refl Hm) as (l' & El & Ha). exists l'. cbn. by rewrite El, app_assoc.
Qed.

Lemma fixed_lits ps v : fixed_part ps = (true, v) -> exists m, ps = Lit <$> m /\ v = concat m.
Proof.
  revert v. induction ps as [|[| |c] ps IH]; intros v; cbn [fixed_part]; try done.
  - intros [= <-]. by exists [].
  - destruct (fixed_part ps) as [[] v'] eqn:E; [|done]. intros [= <-]. destruct (IH v' eq_refl) as (m & -> & ->). by exists (c :: m).
Qed.

Lemma matches_lits m : matches (Lit <$> m) m = true.
Proof. induction m as [|c m IH]; [done|]. cbn. by rewrite bool_decide_true. Qed.

Lemma fixed_equal cs ps l v :
  Forall (lit_char cs) ps -> Forall (is_char cs) l -> fixed_part ps = (true, v) -> concat l = v -> matches ps l = true.
Proof.
  intros Hps Hl (m & -> & ->)%fixed_lits Ec. assert (l = m) as ->; [|apply matches_lits].
  apply (chars_concat cs); try done. by rewrite Forall_fmap in Hps.
Qed.

Lemma prefix_clean c rest acc :
  clean c -> prefix_loop (c ++ rest) false acc = prefix_loop rest false (acc ++ c)
  /\ dangling (c ++ rest) false = dangling rest false.
Proof.
  intros Hc. revert acc. induction Hc as [|x c (H37 & H95 & H92) Hc IH]; intros acc; cbn [app].
  { by rewrite app_nil_r. }
  cbn [prefix_loop dangling]. rewrite !(proj2 (Z.eqb_neq _ _)) by done. cbn [negb andb orb].
  destruct (IH (acc ++ [x])) as [E1 E2]. rewrite E1, E2. by rewrite <- app_assoc.
Qed.

Lemma char_clean cs s i x l :
  cs <> GBKCharset -> next_code_point cs s i = x :: l -> clean l /\ (l <> [] -> clean [x]).
Proof.
  intros Hcs E. destruct l as [|y l]; [by split; [constructor|]|]. destruct cs; [| |done].
  - cbn [next_code_point] in E. apply (f_equal length) in E. rewrite length_take in E. cbn [length] in E. lia.
  - pose proof (utf8_long s i) as Hu. rewrite E in Hu. specialize (Hu ltac:(cbn; lia)).
    inversion Hu; subst. split; [done|]. intros _. by constructor.
Qed.

Lemma prefix_parse cs p i ps acc :
  cs <> GBKCharset -> parses cs p i ps -> dangling (drop i p) false = false ->
  prefix_loop (drop i p) false acc = let '(all, v) := fixed_part ps in (all, acc ++ v).
Proof.
  intros Hcs Hp. revert acc. induction Hp as [|i l E _ _|i l E _ _|i c l E Hi Ec Hc _ IH|i c l E Hc Hu Ha He Hq IH];
    intros acc; cbn [fixed_part].
  - rewrite drop_all. by rewrite app_nil_r.
  - rewrite (point_drop cs p i), E. by rewrite app_nil_r.
  - rewrite (point_drop cs p i), E. by rewrite app_nil_r.
  - rewrite (point_drop cs p i), E. cbn [length app under_score escape]. rewrite Nat.add_1_r.
    rewrite (point_drop cs p (S i)), Ec. destruct c as [|x c]; [done|].
    destruct (char_clean _ _ _ _ _ Hcs Ec) as [Hcl _].
    destruct (prefix_clean c (drop (S i + length (x :: c)) p) (acc ++ [x]) Hcl) as [E1 E2].
    unfold escape. cbn [app prefix_loop dangling negb andb orb Z.eqb Pos.eqb]. rewrite E1, E2. intros Hd. rewrite (IH _ Hd).
    destruct (fixed_part l) as [all v]. by rewrite <- !app_assoc.
  - rewrite (point_drop cs p i), E. destruct c as [|x c]; [done|].
    destruct (char_clean _ _ _ _ _ Hcs E) as [Hcl Hlong].
    destruct (decide (x = 37 \/ x = 95 \/ x = 92)) as [Hx|Hx].
    + assert (c = []) as ->.
      { destruct c; [done|]. assert (Hf : clean [x]) by by apply Hlong. inversion Hf; subst. tauto. }
      destruct Hx as [->|[->| ->]]; [done|done|]. destruct (decide (S i < length p)%nat) as [Hi|Hi]; [by destruct He|].
      cbn [length]. rewrite drop_ge by lia. done.
    + assert (Hxc : clean (x :: c)) by (constructor; [tauto|done]).
      destruct (prefix_clean (x :: c) (drop (i + length (x :: c)) p) acc Hxc) as [E1 E2].
      rewrite E1, E2. intros Hd. rewrite (IH _ Hd). destruct (fixed_part l) as [all v]. by rewrite <- !app_assoc.
Qed.

(** C20. The range of an index for LIKE: in UTF-8 and in texts of bytes, for a pattern that does
    not end in an escape, every text that the pattern matches begins with the prefix that
    [hit_index] gives, and when it calls the pattern a constant the pattern matches that text
    and no other. *)
Theorem hit_index_sound cs target pattern l ps :
  cs <> GBKCharset -> reads cs target 0 l -> parses cs pattern 0 ps -> dangling pattern false = false ->
  let '(is_eq, _, v) := hit_index pattern in
  (like cs target pattern = Some (Some true) -> exists rest, target = v ++ rest)
  /\ (is_eq = true -> like cs target pattern = Some (Some (bool_decide (target = v)))).
Proof.
  intros Hcs Hr Hp Hd. rewrite (like_decides cs target pattern l ps Hr Hp). unfold hit_index.
  pose proof (prefix_parse cs pattern 0 ps [] Hcs Hp Hd) as E. rewrite drop_0 in E. rewrite E.
  destruct (fixed_part ps) as [all v] eqn:Ef. cbn [app].
  pose proof (reads_concat _ _ _ _ Hr) as Ec. rewrite drop_0 in Ec. split.
  - intros [= Hm]. destruct (fixed_prefix ps l all v Ef Hm) as (l' & El & _). exists (concat l'). by rewrite <- Ec.
  - intros ->. do 2 f_equal. apply eq_true_iff_eq. rewrite bool_decide_eq_true. split.
    + intros Hm. destruct (fixed_prefix ps l true v Ef Hm) as (l' & El & Ha). rewrite (Ha eq_refl), app_nil_r in El. by rewrite <- Ec.
    + intros ->. apply (fixed_equal cs ps l v); try done; [by eapply parses_chars|by eapply reads_chars].
Qed.

(** ** LIKE by regular expressions *)

(** The part of the syntax of RE2, on bytes and with a dot that matches every byte, that a LIKE
    needs: [.] is one byte, [.*] any text, a byte without a meaning of its own stands for itself,
    and so does a backslash with a character of ASCII that is no letter, digit or underscore.
    These lists are RE2's, not those of the code. *)
Definition re2_meta : list Z := [92; 94; 36; 46; 91; 124; 40; 41; 63; 42; 43; 123].
Definition re2_punctuation (c : Z) : bool :=
  (0 <=? c) && (c <? 128) &&
  negb ((48 <=? c) && (c <=? 57) || (65 <=? c) && (c <=? 90) || (97 <=? c) && (c <=? 122) || (c =? 95)).

Inductive spells : bytes -> list Token -> Prop :=
| spells_end : spells [] []
| spells_any re ts : spells re ts -> spells (46 :: 42 :: re) (Any :: ts)
| spells_one re ts : spells re ts -> spells (46 :: re) (One :: ts)
| spells_plain c re ts : c ∉ re2_meta -> spells re ts -> spells (c :: re) (Lit [c] :: ts)
| spells_quoted c re ts : re2_punctuation c = true -> spells re ts -> spells (92 :: c :: re) (Lit [c] :: ts).

(** RE2 matches by the syntax of the expression. *)
Class Re2Laws `{Re2} : Prop := {
  full_match_spells re ts s : spells re ts -> full_match true re s = matches ts ((fun c => [c]) <$> s)
}.

Lemma existsb_eqb c l : existsb (Z.eqb c) l = true <-> c ∈ l.
Proof.
  rewrite existsb_exists. split.
  - intros (x & Hx & ->%Z.eqb_eq). by apply list_elem_of_In.
  - intros Hc. exists c. split; [by apply list_elem_of_In|apply Z.eqb_refl].
Qed.

(** The code quotes every character that RE2 gives a meaning, and only punctuation. *)
Lemma spells_regex_char c re ts :
  spells re ts -> spells (regex_char need_escape_set c ++ re) (Lit [c] :: ts).
Proof.
  intros Hre. unfold regex_char. destruct (existsb _ _) eqn:E.
  - apply existsb_eqb in E. apply spells_quoted; [|done].
    assert (Hall : Forall (fun x => re2_punctuation x = true) need_escape_set) by (by repeat constructor).
    by eapply Forall_forall in Hall.
  - apply spells_plain; [|done]. intros Hc.
    assert (Hall : Forall (fun x => existsb (Z.eqb x) need_escape_set = true) re2_meta) by (by repeat constructor).
    eapply Forall_forall in Hall; [|exact Hc]. congruence.
Qed.

Lemma covent_acc s e acc : covent_pattern s e acc = acc ++ covent_pattern s e [].
Proof.
  revert e acc. induction s as [|c s IH]; intros e acc; cbn [covent_pattern]; [by rewrite app_nil_r|].
  destruct (negb e && (c =? 37)); [|destruct (negb e && (c =? 95)); [|destruct (negb e && (c =? 92)); [by rewrite IH|]]].
  all: rewrite IH; cbn [app]; symmetry; rewrite IH; by rewrite app_assoc.
Qed.

Lemma covent_tokens s :
  dangling s false = false -> spells (covent_pattern s false []) (byte_tokens s).
Proof.
  remember (length s) as n eqn:En. revert s En. induction (lt_wf n) as [n _ IH]. intros s ->.
  destruct s as [|c s]; cbn [byte_tokens covent_pattern dangling negb andb]; [intros _; constructor|].
  assert (Hn : (length s < length (c :: s))%nat) by (cbn; lia). rewrite !app_nil_l.
  destruct (Z.eqb_spec c 37) as [->|H37].
  { cbn [Z.eqb Pos.eqb]. intros Hd. rewrite covent_acc. apply spells_any. by eapply IH. }
  destruct (Z.eqb_spec c 95) as [->|H95].
  { intros Hd. rewrite covent_acc. apply spells_one. by eapply IH. }
  destruct (Z.eqb_spec c 92) as [->|H92].
  - destruct s as [|d s]; [done|]. cbn [dangling covent_pattern negb andb]. intros Hd.
    rewrite covent_acc, app_nil_l. apply spells_regex_char. eapply IH; [|done|done]. cbn. lia.
  - intros Hd. rewrite covent_acc. apply spells_regex_char. by eapply IH.
Qed.

(** C30. The two implementations of LIKE agree: for a pattern that does not end in an escape, a
    regular expression library that matches by the syntax of RE2 matches, on the converted
    pattern, the texts that the matcher on bytes matches. *)
Theorem re2_like_agrees `{Re2Laws} target pattern :
  dangling pattern false = false ->
  like Binary target pattern = Some (Some (full_match true (covent_pattern pattern false []) target)).
Proof.
  intros Hd. rewrite like_bytes. by rewrite (full_match_spells _ _ _ (covent_tokens _ Hd)).
Qed.
