(* ===== verification/PredicateFacts.v ===== *)
(** * What operators and predicates compute

    Comparisons agree with [compare], the order of keys and of sorting; exchanging the operands
    keeps a comparison; the connectives are those of three-valued logic; IN over integers is a
    disjunction of equalities.  Examples at the end show where they depart from that. *)

From stdpp Require Import gmap.
From S2P Require Import Prelude KeyEncoder Stdio FloatArith FloatText Calendar DateTime ExprValue ExprValueFacts StringFn TextFn Operators Predicate LikeFacts.

Section Facts.
Context `{Host, RoaringLib, Zone}.
Variable now : Z.
Context {R : Type}.
Abbreviation node := (R -> option ExprValue).

(** ** Comparisons *)

Lemma predicate_type t (P : PrimitiveType -> Prop) :
  P INT64 -> P UINT64 -> P DOUBLE -> P STRING -> P DATETIME -> P TIME -> P DATE -> P TIMESTAMP ->
  t ∈ predicate_types -> P t.
Proof. intros ? ? ? ? ? ? ? ? Ht%list_elem_of_In. cbn in Ht. naive_solver. Qed.

Lemma denote_not_null v a : denote v = Some a -> is_null v = false.
Proof. unfold denote, is_null, type_eqb. by destruct (type v). Qed.

Lemma by_double_order op x y :
  f64_is_nan x = false -> f64_is_nan y = false -> by_double op x y = by_order op (f64_key x ?= f64_key y).
Proof.
  intros Hx Hy. unfold by_double, f64_leb, f64_eqb, fp_lt. rewrite Hx, Hy. cbn [negb andb].
  destruct op; cbn [by_order]; destruct (Z.compare_spec (f64_key x) (f64_key y)) as [E|E|E];
    rewrite ?(proj2 (Z.eqb_eq _ _)), ?(proj2 (Z.eqb_neq _ _)), ?(proj2 (Z.ltb_lt _ _)), ?(proj2 (Z.ltb_ge _ _)) by lia; done.
Qed.

Lemma predicate_order op v w a b :
  type v ∈ predicate_types -> type v = type w -> denote v = Some a -> denote w = Some b ->
  predicate_fn op (type v) [v; w] = Some (Bool (by_order op (sem_compare a b))).
Proof.
  intros Ht Et Da Db. pose proof (denote_not_null v a Da) as Na. pose proof (denote_not_null w b Db) as Nb.
  unfold denote in Da, Db. rewrite <- Et in Db.
  assert (Hp : forall A (f : ExprValue -> A) g, BINARY_OP_PREDICATE_FN f g [v; w] = Some (Bool (g (f v) (f w)))).
  { intros A f g. unfold BINARY_OP_PREDICATE_FN. cbn [lookup list_lookup mbind option_bind]. by rewrite Na, Nb. }
  unfold fp_sem in Da, Db. clear Et. revert Da Db. pattern (type v). apply predicate_type; [..|done]; intros Da Db;
    cbn [predicate_fn]; rewrite Hp.
  all: try (injection Da as <-; injection Db as <-; reflexivity).
  destruct (f64_is_nan (double_val v)) eqn:Ea; [done|]. destruct (f64_is_nan (double_val w)) eqn:Eb; [done|].
  injection Da as <-. injection Db as <-. by rewrite by_double_order.
Qed.

(** The operators =, <>, <, <=, >, >= on two values of one type, not null and for doubles
    not NaN, say what [compare] says, which orders keys and sorted rows. *)
Theorem operators_agree op v w a b :
  type v ∈ predicate_types -> type v = type w -> denote v = Some a -> denote w = Some b ->
  predicate_fn op (type v) [v; w] = Some (Bool (by_order op (int_cmp (compare v w)))).
Proof. intros Ht Et Da Db. rewrite (compare_denotes v w a b) by done. by apply predicate_order. Qed.

(** *** Exchanged operands *)

Lemma by_order_swap op c : by_order (predicate_swap op) (CompOpp c) = by_order op c.
Proof. by destruct op, c. Qed.

Lemma f64_eqb_comm x y : f64_eqb x y = f64_eqb y x.
Proof. unfold f64_eqb. rewrite Z.eqb_sym. by destruct (fp_is_nan 64 52 x), (fp_is_nan 64 52 y). Qed.

Lemma by_double_swap op x y : by_double (predicate_swap op) y x = by_double op x y.
Proof. destruct op; cbn [predicate_swap by_double]; try done; by rewrite f64_eqb_comm. Qed.

Lemma predicate_fn_swap op t v w : t ∈ predicate_types -> predicate_fn (predicate_swap op) t [w; v] = predicate_fn op t [v; w].
Proof.
  assert (Hz : forall x y, by_order (predicate_swap op) (y ?= x) = by_order op (x ?= y)).
  { intros x y. by rewrite <- (by_order_swap op (x ?= y)), <- Z.compare_antisym. }
  assert (Hs : forall x y, by_order (predicate_swap op) (lex_compare y x) = by_order op (lex_compare x y)).
  { intros x y. by rewrite <- (by_order_swap op (lex_compare x y)), <- lex_compare_antisym. }
  intros Ht. pattern t. apply predicate_type; [..|done]; cbn [predicate_fn]; unfold BINARY_OP_PREDICATE_FN;
    cbn [lookup list_lookup mbind option_bind];
    destruct (is_null v) eqn:Ev, (is_null w) eqn:Ew; rewrite ?Hz, ?Hs, ?by_double_swap; done.
Qed.

(** The function a completed comparison calls. *)
Lemma get_predicate op t :
  t ∈ predicate_types -> get_object (typed_name (predicate_name op) t) registered = Some (predicate_fn op t).
Proof.
  intros Ht. pattern t. apply predicate_type; [..|done]; by destruct op.
Qed.

(** A comparison with a constant on the left is turned around ([children_swap]): the
    function the exchanged name calls gives on exchanged operands what the first one gives,
    nulls and NaN included. *)
Theorem swap_preserves op t args ret v w :
  t ∈ predicate_types ->
  let fn := mk_function (FT_CMP op) (typed_name (predicate_name op) t) args ret in
  exists fn' f f', swap_op fn = (true, fn') /\ fn_op fn' = FT_CMP (predicate_swap op)
    /\ get_object (name fn) registered = Some f /\ get_object (name fn') registered = Some f' /\ f' [w; v] = f [v; w].
Proof.
  intros Ht fn.
  assert (Es : get_object (name fn) predicate_swap_map = Some (typed_name (predicate_name (predicate_swap op)) t)).
  { unfold fn. cbn [name]. pattern t. apply predicate_type; [..|done]; by destruct op. }
  exists (mk_function (FT_CMP (predicate_swap op)) (typed_name (predicate_name (predicate_swap op)) t) args ret),
    (predicate_fn op t), (predicate_fn (predicate_swap op) t).
  split; [unfold swap_op; rewrite Es; by destruct op|]. split; [done|].
  split; [by apply get_predicate|]. split; [by apply get_predicate|]. by apply predicate_fn_swap.
Qed.

(** *** Integers *)

(** The order in which integers of two types are compared. *)
Definition int_order (t1 t2 : PrimitiveType) (z1 z2 : Z) : comparison :=
  if has_uint [t1; t2] then u64 z1 ?= u64 z2 else z1 ?= z2.

Definition comparison_call (op : Comparison) (t1 t2 : PrimitiveType) (a b : node) (row : R) : option ExprValue :=
  let '(_, fn) := complete_fn (mk_function (FT_CMP op) (predicate_name op) [] INVALID_TYPE) [t1; t2] in
  scalar_value now (get_object (name fn) registered) (arg_types fn) (return_type fn) [a; b] row.

Lemma cast_int_arg t v z :
  is_int t = true -> value_ok v -> is_int (type v) = true -> denote v = Some (SemInt z) ->
  exists v', cast_to now t v = Some v' /\ type v' = t /\ denote v' = Some (SemInt (conv_int (num_of t) z)).
Proof. intros Ht Hv Hi Hd. destruct (cast_int_int_value now t v z Hv Hi Ht Hd) as (v' & ? & ? & _ & ?). by exists v'. Qed.

Lemma signed_fits v z : value_ok v -> is_int (type v) = true -> is_uint (type v) = false -> denote v = Some (SemInt z) -> i64 z = z.
Proof.
  intros Hv Hi Hu Hd. rewrite (conv_int_read (type v) v Hv Hi eq_refl) in Hd. injection Hd as <-. unfold num_of. rewrite Hu.
  cbn [conv_int]. apply swrap_id; [lia|].
  destruct (type v); try done; cbn [member_width];
    match goal with |- is_i 64 (swrap ?w ?x) => pose proof (swrap_range w x ltac:(lia)) as Hr end; unfold is_i in *; lia.
Qed.

Lemma complete_int op t1 t2 :
  is_int t1 = true -> is_int t2 = true ->
  complete_fn (mk_function (FT_CMP op) (predicate_name op) [] INVALID_TYPE) [t1; t2]
  = let t := if has_uint [t1; t2] then UINT64 else INT64 in
    (0, mk_function (FT_CMP op) (typed_name (predicate_name op) t) [t; t] BOOL).
Proof.
  intros H1' H2'. cbn [complete_fn fn_op]. unfold compare_type, all_int. cbn [forallb]. rewrite H1', H2'. cbn [andb].
  destruct (has_uint [t1; t2]), op; reflexivity.
Qed.

(** Comparing integers, from the types of the operands to the value: the call that the
    types select compares signed integers exactly, and compares the values modulo [2^64] as
    soon as one type is unsigned. *)
Theorem int_comparison op a b row v1 v2 z1 z2 :
  a row = Some v1 -> b row = Some v2 -> value_ok v1 -> value_ok v2 ->
  is_int (type v1) = true -> is_int (type v2) = true -> denote v1 = Some (SemInt z1) -> denote v2 = Some (SemInt z2) ->
  comparison_call op (type v1) (type v2) a b row = Some (Bool (by_order op (int_order (type v1) (type v2) z1 z2))).
Proof.
  intros Ea Eb Hv1 Hv2 Hi1 Hi2 D1 D2. set (t := if has_uint [type v1; type v2] then UINT64 else INT64).
  assert (Ht : is_int t = true /\ t ∈ predicate_types).
  { unfold t. case_match; (split; [done|]); unfold predicate_types; rewrite !elem_of_cons; tauto. }
  unfold comparison_call. rewrite complete_int by done. fold t. cbn [name arg_types return_type].
  rewrite get_predicate by tauto.
  unfold scalar_value. cbn [mapM mbind option_bind]. rewrite Ea. cbn [mbind option_bind]. rewrite Eb.
  cbn [mbind option_bind mret option_ret mapM cast_args].
  destruct (cast_int_arg t v1 z1) as (w1 & C1 & T1 & E1); [tauto|done..|].
  destruct (cast_int_arg t v2 z2) as (w2 & C2 & T2 & E2); [tauto|done..|].
  rewrite C1. cbn [mbind option_bind]. rewrite C2. cbn [mbind option_bind].
  rewrite <- T1, (predicate_order op w1 w2 _ _) by (done || congruence || by rewrite T1; apply Ht).
  cbn [mbind option_bind]. cbn [sem_compare]. unfold int_order.
  assert (Ec : (conv_int (num_of t) z1 ?= conv_int (num_of t) z2)
    = if has_uint [type v1; type v2] then u64 z1 ?= u64 z2 else z1 ?= z2).
  { unfold t. destruct (has_uint [type v1; type v2]) eqn:Eu; [done|].
    unfold has_uint in Eu. cbn [existsb] in Eu. apply orb_false_iff in Eu as [U1 U2]. rewrite orb_false_r in U2.
    change (conv_int (num_of INT64)) with (swrap 64). by rewrite (signed_fits v1 z1), (signed_fits v2 z2). }
  rewrite Ec. by destruct (by_order _ _).
Qed.

(** ** Three-valued logic *)

(** [None] is unknown. *)
Abbreviation tri := (option bool).

Definition truth (v : ExprValue) : option tri :=
  if is_null v then Some None else b ← get_numberic TBool v; Some (Some (negb (b =? 0))).

Definition tri_value (t : tri) : ExprValue := match t with None => Null | Some b => Bool b end.

Definition tri_and (x y : tri) : tri :=
  match x, y with
  | Some false, _ | _, Some false => Some false
  | Some true, Some true => Some true
  | _, _ => None
  end.
Definition tri_not (x : tri) : tri := negb <$> x.
Definition tri_or (x y : tri) : tri := tri_not (tri_and (tri_not x) (tri_not y)).
Definition tri_xor (x y : tri) : tri := x ← x; y ← y; Some (xorb x y).

(** The expression has a value of this truth on the row. *)
Definition says (row : R) (c : node) (t : tri) : Prop := exists v, c row = Some v /\ truth v = Some t.

Lemma says_bool row (c : node) t :
  says row c t -> exists v, c row = Some v /\ match t with
    | None => is_null v = true
    | Some b => is_null v = false /\ exists x, get_numberic TBool v = Some x /\ (x =? 0) = negb b
    end.
Proof.
  intros (v & E & Ht). exists v. split; [done|]. unfold truth in Ht. destruct (is_null v); [by injection Ht as <-|].
  destruct (get_numberic TBool v) as [x|]; [|done]. injection Ht as <-. split; [done|]. exists x. by rewrite negb_involutive.
Qed.

Lemma numberic_bool v x : get_numberic TBool v = Some x -> x = 0 \/ x = 1.
Proof.
  assert (Hc : forall z, conv_int TBool z = 0 \/ conv_int TBool z = 1) by (intros z; cbn; destruct (z =? 0); auto).
  assert (Hf : forall w m y z, conv_fp TBool w m y = Some z -> z = 0 \/ z = 1).
  { intros w m y z. unfold conv_fp. repeat case_match; intros [= <-]; auto. }
  unfold get_numberic. cbn [is_integral]. destruct (type v);
    try (destruct (round_precision _ _ _ _); [|done]; cbn [mbind option_bind]; apply Hf).
  all: intros E; injection E as <-; first [apply Hc|by left].
Qed.

Lemma bool_write (b : bool) v : bool_val (u_write 1 (Z.b2z b) v) = Z.b2z b.
Proof. unfold bool_val. rewrite u_read_write. by destruct b. Qed.

Lemma truth_bool (b : bool) v : truth (set_type BOOL (u_write 1 (Z.b2z b) v)) = Some (Some b).
Proof.
  unfold truth, get_numberic. cbn [is_null type set_type type_eqb].
  change (bool_val (set_type BOOL (u_write 1 (Z.b2z b) v))) with (bool_val (u_write 1 (Z.b2z b) v)).
  rewrite bool_write. by destruct b.
Qed.

Lemma truth_tri t : truth (tri_value t) = Some t.
Proof. destruct t as [b|]; [apply (truth_bool b (new_ExprValue BOOL))|done]. Qed.

Lemma and_value_tri children ts acc row :
  Forall2 (says row) children ts ->
  and_value children acc row = Some (tri_value (foldr tri_and (if acc then None else Some true) ts)).
Proof.
  intros Hc. revert acc. induction Hc as [|c t children ts (v & E & Ht)%says_bool Hc IH]; intros acc; cbn [and_value foldr].
  { by destruct acc. }
  rewrite E. cbn [mbind option_bind].
  assert (Hn : forall b : bool, foldr tri_and (if b then None else Some true) ts = tri_and (if b : bool then None else Some true) (foldr tri_and (Some true) ts)).
  { clear. induction ts as [|t ts IHt]; intros b; cbn [foldr]; [by destruct b|].
    rewrite IHt. by destruct t as [[]|], b, (foldr tri_and (Some true) ts) as [[]|]. }
  destruct t as [b|]; [destruct Ht as (-> & x & -> & Ex); cbn [mbind option_bind]; rewrite Ex|rewrite Ht].
  - destruct b; cbn [negb]; [|done]. rewrite IH. f_equal. f_equal.
    rewrite Hn. by destruct acc, (foldr tri_and (Some true) ts) as [[]|].
  - rewrite IH. f_equal. f_equal. rewrite (Hn true), (Hn acc). by destruct acc, (foldr tri_and (Some true) ts) as [[]|].
Qed.

Lemma or_value_tri children ts acc row :
  Forall2 (says row) children ts ->
  or_value children acc row = Some (tri_value (foldr tri_or (if acc then None else Some false) ts)).
Proof.
  intros Hc. revert acc. induction Hc as [|c t children ts (v & E & Ht)%says_bool Hc IH]; intros acc; cbn [or_value foldr].
  { by destruct acc. }
  rewrite E. cbn [mbind option_bind].
  assert (Hn : forall b : bool, foldr tri_or (if b then None else Some false) ts = tri_or (if b : bool then None else Some false) (foldr tri_or (Some false) ts)).
  { clear. induction ts as [|t ts IHt]; intros b; cbn [foldr]; [by destruct b|].
    rewrite IHt. by destruct t as [[]|], b, (foldr tri_or (Some false) ts) as [[]|]. }
  destruct t as [b|]; [destruct Ht as (-> & x & -> & Ex); cbn [mbind option_bind]; rewrite Ex|rewrite Ht].
  - destruct b; cbn [negb].
    + done.
    + rewrite IH. f_equal. f_equal. rewrite Hn. by destruct acc, (foldr tri_or (Some false) ts) as [[]|].
  - rewrite IH. f_equal. f_equal. rewrite (Hn true), (Hn acc). by destruct acc, (foldr tri_or (Some false) ts) as [[]|].
Qed.

(** C31. AND, OR, XOR, NOT and IS NULL are the connectives of three-valued logic on the truth of
    their operands, whatever the number of operands of AND and OR and although they stop at the
    first one that decides. *)
Theorem connectives children ts a b ta tb row :
  Forall2 (says row) children ts -> says row a ta -> says row b tb ->
  says row (and_value children false) (foldr tri_and (Some true) ts)
  /\ says row (or_value children false) (foldr tri_or (Some false) ts)
  /\ says row (xor_value a b) (tri_xor ta tb)
  /\ says row (not_value a) (tri_not ta)
  /\ says row (is_null_value a) (Some (bool_decide (ta = None))).
Proof.
  intros Hc (v & Ea & Ha)%says_bool (w & Eb & Hb)%says_bool.
  assert (Hs : forall (c : node) t, c row = Some (tri_value t) -> says row c t).
  { intros c t E. exists (tri_value t). by rewrite truth_tri. }
  split_and!.
  - apply Hs. by rewrite (and_value_tri children ts).
  - apply Hs. by rewrite (or_value_tri children ts).
  - apply Hs. unfold xor_value. rewrite Ea, Eb. cbn [mbind option_bind].
    destruct ta as [x|]; [destruct Ha as (-> & i & Gi & Ei)|by rewrite Ha].
    destruct tb as [y|]; [destruct Hb as (-> & j & Gj & Ej)|by rewrite Hb, orb_true_r]. rewrite Gi, Gj.
    cbn [orb mbind option_bind tri_xor tri_value]. do 2 f_equal. apply (numberic_bool v i) in Gi. apply (numberic_bool w j) in Gj.
    destruct x, y, (Z.eqb_spec i 0), (Z.eqb_spec j 0); try done; destruct (Z.eqb_spec i j); done || lia.
  - unfold not_value, says. rewrite Ea. cbn [mbind option_bind].
    destruct ta as [x|]; [destruct Ha as (-> & i & -> & Ei)|rewrite Ha; exists v; unfold truth; by rewrite Ha].
    cbn [mbind option_bind]. eexists. split; [done|]. rewrite truth_bool, Ei. done.
  - apply Hs. unfold is_null_value. rewrite Ea. cbn [mbind option_bind].
    destruct ta as [x|]; [by destruct Ha as (-> & _)|by rewrite Ha].
Qed.

(** ** IN over integers *)

Abbreviation operand := (Operand (R := R)).

(** The value is null or an integer of 64 bits with sign. *)
Definition int_value (v : ExprValue) (o : option Z) : Prop :=
  match o with
  | None => is_null v = true
  | Some z => value_ok v /\ is_int (type v) = true /\ denote v = Some (SemInt z) /\ i64 z = z
  end.

Lemma int_key v z : int_value v (Some z) ->
  is_null v = false /\ exists v', cast_to now INT64 v = Some v' /\ get_numberic (TInt 64) v' = Some z.
Proof.
  intros (Hv & Hi & Hd & Hz). split; [by eapply denote_not_null|].
  destruct (cast_int_arg INT64 v z eq_refl Hv Hi Hd) as (v' & E & Et & Hd'). exists v'. split; [done|].
  rewrite (get_numberic_int (TInt 64) v' _ ltac:(by rewrite Et) Hd').
  change (conv_int (num_of INT64) z) with (i64 z). cbn [conv_int]. by rewrite !Hz.
Qed.

(** A literal has the value it is made from. *)
Lemma literal_value w row : value (R := R) (literal now w) row = Some w.
Proof.
  cbn [value literal]. unfold cast_to. replace (type_eqb (type w) (type w)) with true; [by rewrite orb_true_r|].
  symmetry. by apply bool_decide_eq_true.
Qed.

Lemma int_value_null w o : int_value w o -> is_null w = bool_decide (o = None).
Proof. destruct o as [z|]; [|done]. intros Hw. by destruct (int_key w z Hw) as [-> _]. Qed.

(** [_has_null] is exact on a list of literals. *)
Lemma literals_null ws os :
  Forall2 int_value ws os -> existsb has_null (literal (R := R) now <$> ws) = bool_decide (None ∈ os).
Proof.
  induction 1 as [|w o ws os Hw _ IH]; [done|]. cbn [fmap list_fmap existsb]. rewrite IH. cbn [has_null literal].
  rewrite (int_value_null w o Hw), <- bool_decide_or. apply bool_decide_ext. rewrite elem_of_cons. naive_solver.
Qed.

Lemma add_constants ws os st :
  Forall2 int_value ws os -> map_type st = INT64 -> in_row_expr st = false ->
  exists st', fold_option (add_constant (R := R) now INT64) (literal now <$> ws) st = Some st' /\ map_type st' = INT64 /\ in_row_expr st' = false
    /\ forall z, z ∈ int_set st' <-> z ∈ int_set st \/ Some z ∈ os.
Proof.
  intros Hr. revert st. induction Hr as [|w o ws os Hw Hr IH]; intros st Hm Hi; cbn [fmap list_fmap fold_option].
  { exists st. split_and!; try done. intros z. rewrite elem_of_nil. tauto. }
  assert (Ha : exists st1, add_constant (R := R) now INT64 (literal now w) st = Some st1 /\ map_type st1 = INT64 /\ in_row_expr st1 = false
    /\ forall z, z ∈ int_set st1 <-> z ∈ int_set st \/ o = Some z).
  { unfold add_constant. rewrite literal_value. cbn [mbind option_bind]. destruct o as [y|].
    - destruct (int_key w y Hw) as (-> & v' & -> & Ey). cbn [mbind option_bind]. rewrite Ey. cbn [mbind option_bind].
      eexists. split_and!; [done..|]. intros z. cbn [int_set]. rewrite elem_of_union, elem_of_singleton. naive_solver.
    - cbn [int_value] in Hw. rewrite Hw. exists st. split_and!; try done. intros z. naive_solver. }
  destruct Ha as (st1 & -> & Hm1 & Hi1 & Hs1). cbn [mbind option_bind].
  destruct (IH st1 Hm1 Hi1) as (st' & E & Hm' & Hi' & Hs'). exists st'. split_and!; try done.
  intros z. rewrite Hs', Hs1, elem_of_cons. naive_solver.
Qed.

(** The equality of two integers that may be null. *)
Definition tri_eq (x y : option Z) : tri := x ← x; y ← y; Some (x =? y).

Lemma tri_eq_fold z os :
  foldr tri_or (Some false) (tri_eq (Some z) <$> os)
  = if bool_decide (Some z ∈ os) then Some true else if bool_decide (None ∈ os) then None else Some false.
Proof.
  induction os as [|o os IH]; [done|]. cbn [fmap list_fmap foldr]. rewrite IH. clear IH.
  rewrite (bool_decide_ext (Some z ∈ o :: os) (Some z = o \/ Some z ∈ os)) by apply elem_of_cons.
  rewrite (bool_decide_ext (None ∈ o :: os) (None = o \/ None ∈ os)) by apply elem_of_cons.
  rewrite !bool_decide_or. destruct o as [y|].
  - cbn [tri_eq mbind option_bind]. rewrite (bool_decide_false (None = Some y)) by done. cbn [orb].
    destruct (Z.eqb_spec z y) as [->|Hn].
    { rewrite (bool_decide_true (Some y = Some y)) by done. by destruct (bool_decide (Some y ∈ os)), (bool_decide (None ∈ os)). }
    rewrite (bool_decide_false (Some z = Some y)) by congruence.
    cbn [orb]. by destruct (bool_decide (Some z ∈ os)), (bool_decide (None ∈ os)).
  - rewrite (bool_decide_false (Some z = None)), (bool_decide_true (None = None)) by done. cbn [orb tri_eq mbind option_bind].
    by destruct (bool_decide (Some z ∈ os)), (bool_decide (None ∈ os)).
Qed.

Lemma tri_eq_null os : os <> [] -> foldr tri_or (Some false) (tri_eq None <$> os) = None.
Proof.
  destruct os as [|o os]; [done|]. intros _. cbn [fmap list_fmap foldr].
  induction os as [|o' os IH]; [done|]. cbn [fmap list_fmap foldr] in *. by destruct (foldr tri_or _ _) as [[]|].
Qed.

(** C21. For an operand on the left with values of an integer type and no null in its expression,
    and a list of literals, each an integer or NULL and the first one not NULL, all in types whose
    values fit 64 bits with sign: IN opens, and its value, with [_has_null] as computed from the
    children, is the three-valued disjunction of the equalities. *)
Theorem in_integers (first : operand) w ws row v x os :
  is_row_expr first = false -> is_int (col_type first) = true -> has_null first = false ->
  value first (Some row) = Some v -> int_value v x ->
  is_null w = false -> Forall2 int_value (w :: ws) os ->
  let children := first :: (literal now <$> w :: ws) in
  exists st, in_open now children = Some (0, Some st)
    /\ in_value now st children row = Some (tri_value (foldr tri_or (Some false) (tri_eq x <$> os))).
Proof.
  intros Hf Ht1 Hn1 Ev Hx Hw Hr children.
  assert (Hn : const_pre_calc_null false children = bool_decide (None ∈ os))
    by (cbn [const_pre_calc_null existsb children]; by rewrite Hn1, (literals_null _ _ Hr)).
  unfold in_value. rewrite Hn. subst children. cbn [in_open fmap list_fmap]. rewrite Hf.
  unfold singel_open. cbn [lookup list_lookup mbind option_bind].
  assert (Ht2 : is_int (type w) = true).
  { inversion Hr as [|? o ? ? Ho]; subst. destruct o as [z|]; [apply Ho|]. cbn in Ho. congruence. }
  replace (forallb is_constant _) with true by (symmetry; apply forallb_forall; intros c Hin%list_elem_of_In;
    change (c ∈ literal now <$> w :: ws) in Hin; by apply list_elem_of_fmap in Hin as (? & -> & _)).
  unfold compare_type, all_int. cbn [forallb col_type literal]. rewrite Ht1, Ht2. cbn [andb].
  replace (if has_uint [col_type first; type w] then INT64 else INT64) with INT64 by (by case_match).
  destruct (add_constants (w :: ws) os (mk_in INT64 [] false ∅ [] ∅) Hr eq_refl eq_refl) as (st & E & Hm & Hi & Hs).
  cbn [fmap list_fmap] in E. rewrite E. cbn [mbind option_bind]. exists st. split; [done|].
  cbn [head mbind option_bind]. rewrite Hi, Ev. cbn [mbind option_bind].
  assert (Hos : os <> []) by (by inversion Hr). destruct x as [z|].
  - destruct (int_key v z Hx) as (-> & v' & E1 & E2). rewrite Hm, E1. cbn [mbind option_bind]. rewrite E2. cbn [mbind option_bind].
    rewrite tri_eq_fold. f_equal. unfold in_found. rewrite (bool_decide_ext (z ∈ int_set st) (Some z ∈ os)) by (rewrite Hs; set_solver).
    by destruct (bool_decide (Some z ∈ os)), (bool_decide (None ∈ os)).
  - cbn [int_value] in Hx. rewrite Hx, tri_eq_null by done. done.
Qed.

End Facts.

(** ** Instances *)

#[local] Instance machine : Host := le_host.
#[local] Instance bitmaps : RoaringLib := no_bitmaps.
#[local] Instance utc : Zone := fixed_zone 0.
#[local] Instance one_piece : BoostSplit := fun s _ => [s].

Abbreviation row_unit := (Datatypes.unit).
Definition given (v : ExprValue) : row_unit -> option ExprValue := fun _ => Some v.
Definition given_operand (t : PrimitiveType) (v : ExprValue) : Operand (R := row_unit) :=
  mk_operand (fun _ => Some v) t true false [] (is_null v).

(** One accented letter and a plain one, in UTF-8. *)
Definition accented : bytes := [195; 169; 97].
Definition one_a : bytes := [95; 97].

Lemma accented_reads : reads UTF8Charset accented 0 [[195; 169]; [97]].
Proof. eapply reads_char; [reflexivity|done|]. eapply reads_char; [reflexivity|done|]. apply reads_end. Qed.

Lemma one_a_parses : parses UTF8Charset one_a 0 [One; Lit [97]].
Proof.
  apply parses_one; [reflexivity|]. eapply parses_lit; [reflexivity|done|done|done| |apply parses_end].
  by intros [? _].
Qed.

Lemma like_correct_witness :
  like UTF8Charset accented one_a = Some (Some true) /\ like Binary accented one_a = Some (Some false).
Proof.
  split; [apply (like_correct UTF8Charset accented one_a [[195; 169]; [97]] [One; Lit [97]]);
    [apply accented_reads|apply one_a_parses]|]. vm_compute. reflexivity.
Defined.

Lemma hit_index_sound_witness :
  hit_index (accented ++ [37]) = (false, true, accented)
  /\ (like Binary (accented ++ [98]) (accented ++ [37]) = Some (Some true) -> exists rest, accented ++ [98] = accented ++ rest).
Proof.
  split; [vm_compute; reflexivity|].
  pose proof (hit_index_sound Binary (accented ++ [98]) (accented ++ [37]) _ _ ltac:(done)
    (reads_bytes (accented ++ [98]) 0 ltac:(cbn; lia)) (parses_bytes [] (accented ++ [37])) eq_refl) as Hs.
  exact (proj1 Hs).
Defined.

Lemma operators_agree_witness :
  predicate_fn CLt INT64 [number INT64 (-3); number INT64 4]
  = Some (Bool (by_order CLt (int_cmp (compare (number INT64 (-3)) (number INT64 4))))).
Proof.
  apply (operators_agree CLt (number INT64 (-3)) (number INT64 4) (SemInt (-3)) (SemInt 4)); [|done..].
  left.
Defined.

Lemma swap_preserves_witness :
  let fn := mk_function (FT_CMP CLe) (typed_name (predicate_name CLe) DOUBLE) [DOUBLE; DOUBLE] BOOL in
  exists fn' f f', swap_op fn = (true, fn') /\ fn_op fn' = FT_CMP CGe
    /\ get_object (name fn) registered = Some f /\ get_object (name fn') registered = Some f'
    /\ f' [Null; number DOUBLE 0] = f [number DOUBLE 0; Null].
Proof. apply (swap_preserves CLe DOUBLE). right. right. left. Defined.

Lemma int_comparison_witness :
  comparison_call 0 CLt INT8 INT64 (given (number INT8 (-3))) (given (number INT64 4)) tt = Some (Bool true).
Proof.
  apply (int_comparison 0 CLt (given (number INT8 (-3))) (given (number INT64 4)) tt
    (number INT8 (-3)) (number INT64 4) (-3) 4); try done; by apply number_ok.
Defined.

Lemma connectives_witness :
  says tt (and_value [given (Bool true); given Null; given (Bool false)] false) (Some false)
  /\ says tt (or_value [given (Bool true); given Null; given (Bool false)] false) (Some true)
  /\ says tt (xor_value (given Null) (given (Bool true))) None
  /\ says tt (not_value (given Null)) None
  /\ says tt (is_null_value (given Null)) (Some true).
Proof.
  apply (connectives [given (Bool true); given Null; given (Bool false)] [Some true; None; Some false]
    (given Null) (given (Bool true)) None (Some true) tt).
  - repeat constructor; by eexists.
  - by eexists.
  - by eexists.
Defined.

(** 5 IN (7, NULL) is unknown. *)
Lemma in_integers_witness :
  let children := [given_operand INT32 (number INT32 5); literal 0 (number INT64 7); literal 0 Null] in
  exists st, in_open 0 children = Some (0, Some st) /\ in_value 0 st children tt = Some Null.
Proof.
  apply (in_integers 0 (given_operand INT32 (number INT32 5)) (number INT64 7) [Null] tt (number INT32 5) (Some 5)
    [Some 7; None]); try done.
  - by split; [apply number_ok|].
  - constructor; [by split; [apply number_ok|]|]. by constructor.
Defined.

(** A matcher for the expressions that LIKE makes. *)
Fixpoint read_regex (re : bytes) : list Token :=
  match re with
  | [] => []
  | 46 :: re => match re with 42 :: re => Any :: read_regex re | _ => One :: read_regex re end
  | 92 :: c :: re => Lit [c] :: read_regex re
  | c :: re => Lit [c] :: read_regex re
  end.

#[local] Instance small_re2 : Re2 :=
  {| full_match _ re s := matches (read_regex re) ((fun c => [c]) <$> s); partial_match _ _ := false |}.

Lemma spells_no_star re ts : spells (42 :: re) ts -> False.
Proof. inversion 1 as [| | |c re' ts' Hc|]; subst. apply Hc. by apply existsb_eqb. Qed.

Lemma read_plain c re : c ∉ re2_meta -> read_regex (c :: re) = Lit [c] :: read_regex re.
Proof.
  intros Hc. destruct (decide (c = 46)) as [->|H46]; [by destruct Hc; apply existsb_eqb|].
  destruct (decide (c = 92)) as [->|H92]; [by destruct Hc; apply existsb_eqb|].
  cbn [read_regex]. by repeat case_match.
Qed.

Lemma read_spells re ts : spells re ts -> read_regex re = ts.
Proof.
  induction 1 as [|re ts _ IH|re ts Hre IH|c re ts Hc _ IH|c re ts _ _ IH]; [done|by cbn; rewrite IH| | |by cbn; rewrite IH].
  - destruct re as [|x re]; [by rewrite <- IH|]. transitivity (One :: read_regex (x :: re)); [|by rewrite IH].
    destruct (decide (x = 42)) as [->|Hx]; [by apply spells_no_star in Hre|]. cbn [read_regex]. by repeat case_match.
  - by rewrite read_plain, IH.
Qed.

#[local] Instance small_re2_laws : Re2Laws.
Proof. constructor. intros re ts s Hre. cbn [full_match small_re2]. by rewrite (read_spells re ts). Qed.

(** [a.%] matches [a.b] and not [axb]: the dot is quoted. *)
Lemma re2_like_agrees_witness :
  covent_pattern [97; 46; 37] false [] = [97; 92; 46; 46; 42]
  /\ like Binary [97; 46; 98] [97; 46; 37] = Some (Some (full_match true [97; 92; 46; 46; 42] [97; 46; 98]))
  /\ full_match true [97; 92; 46; 46; 42] [97; 120; 98] = false.
Proof.
  split; [reflexivity|]. split; [|vm_compute; reflexivity].
  exact (re2_like_agrees [97; 46; 98] [97; 46; 37] eq_refl).
Defined.

(** ** Departures *)

(** Under RE2 [_] is one byte, and an escape at the end is dropped. *)
Example re2_departs :
  like_one accented one_a UTF8 = Some true
  /\ full_match true (covent_pattern one_a false []) accented = false
  /\ covent_pattern [97; 92] false [] = [97].
Proof. by vm_compute. Qed.

(** LIKE never gives null: a null matches [%], and NOT LIKE of a null is true. *)
Example like_of_null :
  get_value_by_pattern 0 (mk_like [37] [] true) UTF8 (given_operand STRING Null) (given_operand STRING Null) tt
    = Some (Bool true)
  /\ not_value (get_value_by_pattern 0 (mk_like [97] [] true) UTF8 (given_operand STRING Null) (given_operand STRING Null)) tt
     = Some (Bool true).
Proof. split; reflexivity. Qed.

(** A pattern that ends in an escape: the matcher takes it for itself, the index leaves it out. *)
Example trailing_escape :
  hit_index [97; 92] = (true, true, [97])
  /\ like Binary [97; 92] [97; 92] = Some (Some true) /\ like Binary [97] [97; 92] = Some (Some false).
Proof. by vm_compute. Qed.

(** In GBK the second byte of a character can be the escape, which the index leaves out. *)
Example gbk_escape_byte :
  hit_index [0xD5; 0x5C; 97] = (true, true, [0xD5; 97])
  /\ like GBKCharset [0xD5; 0x5C; 97] [0xD5; 0x5C; 97] = Some (Some true).
Proof. by vm_compute. Qed.

Definition in_result (children : list (Operand (R := row_unit))) : option ExprValue :=
  r ← in_open 0 children; st ← r.2; in_value 0 st children tt.

(** The largest unsigned integer is IN (-1); 1 is IN (2, 1.5). *)
Example in_casts_to_int64 :
  in_result [given_operand UINT64 (number UINT64 (2 ^ 64 - 1)); literal 0 (number INT64 (-1))] = Some (Bool true)
  /\ in_result [given_operand INT64 (number INT64 1); literal 0 (number INT64 2);
                literal 0 (number DOUBLE (f64_div (f64_of_Z 3) (f64_of_Z 2)))] = Some (Bool true).
Proof. split; vm_compute; reflexivity. Qed.

(** A list of integers that begins with NULL is compared as doubles: [2^53 + 1] is in
    (NULL, [2^53]), and not in ([2^53], NULL). *)
Example null_first_compares_doubles :
  let x := given_operand INT64 (number INT64 9007199254740993) in
  in_result [x; literal 0 Null; literal 0 (number INT64 9007199254740992)] = Some (Bool true)
  /\ in_result [x; literal 0 (number INT64 9007199254740992); literal 0 Null] = Some Null.
Proof. split; vm_compute; reflexivity. Qed.

(** [_has_null] goes by the expressions and not by their values: 5 IN (6, IFNULL(NULL, 7)) is
    null, 5 IN (6, 1 / 0) is false, and IFNULL(NULL, 5) IN (6) is null. *)
Example has_null_by_syntax :
  let expr t v n := mk_operand (R := row_unit) (fun _ => Some v) t true false [] n in
  let x := given_operand INT64 (number INT64 5) in
  in_result [x; literal 0 (number INT64 6); expr INT64 (number INT64 7) true] = Some Null
  /\ in_result [x; literal 0 (number INT64 6); expr DOUBLE Null false] = Some (Bool false)
  /\ in_result [expr INT64 (number INT64 5) true; literal 0 (number INT64 6)] = Some Null.
Proof. split_and!; vm_compute; reflexivity. Qed.

(** -1 < 1 is false when the type of 1 is unsigned. *)
Example mixed_signs :
  comparison_call 0 CLt INT64 UINT64 (given (number INT64 (-1))) (given (number UINT64 1)) tt = Some (Bool false).
Proof. vm_compute. reflexivity. Qed.

(** The negation of an unsigned integer is unsigned. *)
Example negated_unsigned :
  let '(_, fn) := complete_fn (mk_function FT_UMINUS "minus" [] INVALID_TYPE) [UINT32] in
  scalar_value 0 (get_object (name fn) registered) (arg_types fn) (return_type fn) [given (number UINT32 5)] tt
  = Some (number UINT64 (2 ^ 64 - 5)).
Proof. vm_compute. reflexivity. Qed.

(** The remainder of the least integer by -1 traps; a shift by 64 is undefined. *)
Example undefined_operations :
  mod_int_int [number INT64 (- 2 ^ 63); number INT64 (-1)] = None
  /\ left_shift_uint_uint [number UINT64 1; number UINT64 64] = None.
Proof. split; vm_compute; reflexivity. Qed.

(** Rows of expressions compare a null on the right as zero, and a null on the left as less. *)
Example row_with_null :
  row_expr_value 0 CEq [given (number INT64 0)] [given Null] tt = Some (Bool true)
  /\ row_expr_value 0 CEq [given Null] [given Null] tt = Some (Bool false).
Proof. split; vm_compute; reflexivity. Qed.
