(* ===== verification/Statistics.v ===== *)
(** * Statistics of columns ([include/common/cmsketch.h], [include/common/histogram.h],
      [src/common/histogram.cpp], [include/common/statistics.h])

    Count-min sketches of the hash values of a column, which the stores fill and the front end
    adds up; histograms of sorted samples; and the estimates that the planner reads from both.
    [None] marks what C++ leaves undefined: an index outside an array, a division by zero, a
    [double] outside the range of an integer. *)

From stdpp Require Import gmap sorting.
From S2P Require Import Prelude KeyEncoder Stdio FloatArith FloatText Calendar DateTime ExprValue Heap Sorter.

(** ** Count-min sketches *)

Record CMsketchColumn := mk_column {
  cm_depth : Z;
  cm_width : Z;
  cm_field_id : Z;
  cm_total_cnt : Z;
  cm_array : list (list Z)
}.

Definition new_column (depth width field_id : Z) : CMsketchColumn :=
  mk_column depth width field_id 0 (replicate (Z.to_nat depth) (replicate (Z.to_nat width) 0)).

Definition with_array (a : list (list Z)) (c : CMsketchColumn) : CMsketchColumn :=
  mk_column (cm_depth c) (cm_width c) (cm_field_id c) (cm_total_cnt c) a.

(** An index of type [int]. *)
Definition at_index {A} (l : list A) (i : Z) : option A := if i <? 0 then None else l !! Z.to_nat i.

Definition hash_delta (hash : Z) : Z := Z.lor (Z.shiftr hash 17) (u64 (Z.shiftl hash 15)).

(** [hash % _width]. *)
Definition slot_of (width hash : Z) : option Z :=
  if width =? 0 then None else Some (i32 (hash mod u64 width)).

Fixpoint add_to_rows (width hash delta count : Z) (rows : list (list Z)) : option (list (list Z)) :=
  match rows with
  | [] => Some []
  | r :: rows =>
      j ← slot_of width hash;
      x ← at_index r j;
      rest ← add_to_rows width (u64 (hash + delta)) delta count rows;
      Some (<[Z.to_nat j := i64 (x + count)]> r :: rest)
  end.

Definition column_set_value (hash count : Z) (c : CMsketchColumn) : option CMsketchColumn :=
  a ← add_to_rows (cm_width c) hash (hash_delta hash) count (cm_array c);
  Some (with_array a c).

(** The least counter, and the counters less the noise of the others, as [int]. *)
Fixpoint read_rows (width total hash delta : Z) (min_value : Z) (values : list Z) (rows : list (list Z)) :
    option (Z * list Z) :=
  match rows with
  | [] => Some (min_value, values)
  | r :: rows =>
      j ← slot_of width hash;
      x ← at_index r j;
      if width =? 1 then None
      else
        let noise := Z.quot (i64 (total - x)) (width - 1) in
        let v := if x <? noise then 0 else i32 (x - noise) in
        read_rows width total (u64 (hash + delta)) delta (if x <? min_value then x else min_value)
          (values ++ [v]) rows
  end.

Definition column_get_value (c : CMsketchColumn) (hash : Z) : option Z :=
  '(min_value, values) ← read_rows (cm_width c) (cm_total_cnt c) hash (hash_delta hash) (2 ^ 63 - 1) [] (cm_array c);
  let values := sorting.merge_sort Z.le values in
  let mid_idx := Z.quot (cm_depth c) 2 in
  mid_value ← (if Z.rem (cm_depth c) 2 =? 0 then
                 a ← at_index values mid_idx;
                 b ← at_index values (mid_idx - 1);
                 Some (Z.quot (i32 (a + b)) 2)
               else at_index values mid_idx);
  Some (i32 (if mid_value <? 0 then 0 else if min_value <? mid_value then min_value else mid_value)).

(** [operator+=]. *)
Definition column_add (other c : CMsketchColumn) : CMsketchColumn :=
  if negb (cm_depth c =? cm_depth other) || negb (cm_width c =? cm_width other) then c
  else with_array (zip_with (zip_with (fun x y => i64 (x + y))) (cm_array c) (cm_array other)) c.

Definition sum_row (start : Z) (r : list Z) : Z := foldl (fun t x => i64 (t + x)) start r.

Definition get_total_rows (c : CMsketchColumn) : option Z := r ← cm_array c !! 0%nat; Some (sum_row 0 r).

(** The messages of [proto/statistics.proto]; the value of an item has 32 bits. *)
Record CMsketchItem := mk_item { item_depth : Z; item_width : Z; item_value : Z }.
Record pb_CMsketchColumn := mk_pb_column { pb_field_id : Z; cmitems : list CMsketchItem }.
Record pb_CMsketch := mk_pb_sketch { pb_depth : Z; pb_width : Z; cmcolumns : list pb_CMsketchColumn }.

Definition row_items (i : nat) (r : list Z) : list CMsketchItem :=
  concat (imap (fun j x => if 0 <? x then [mk_item (Z.of_nat i) (Z.of_nat j) (i32 x)] else []) r).

Definition column_to_proto (c : CMsketchColumn) : pb_CMsketchColumn :=
  mk_pb_column (cm_field_id c) (concat (imap row_items (cm_array c))).

Definition add_item (item : CMsketchItem) (a : list (list Z)) : option (list (list Z)) :=
  r ← at_index a (item_depth item);
  x ← at_index r (item_width item);
  Some (<[Z.to_nat (item_depth item) := <[Z.to_nat (item_width item) := i64 (x + item_value item)]> r]> a).

Fixpoint add_items (items : list CMsketchItem) (a : list (list Z)) : option (list (list Z)) :=
  match items with
  | [] => Some a
  | item :: items => a ← add_item item a; add_items items a
  end.

Definition column_add_proto (p : pb_CMsketchColumn) (c : CMsketchColumn) : option CMsketchColumn :=
  if negb (cm_field_id c =? pb_field_id p) then Some c
  else
    a ← add_items (cmitems p) (cm_array c);
    r ← a !! 0%nat;
    Some (mk_column (cm_depth c) (cm_width c) (cm_field_id c) (sum_row (cm_total_cnt c) r) a).

(** [_column_cmsketch], a map in the order of the fields. *)
Record CMsketch := mk_sketch { sk_depth : Z; sk_width : Z; sk_columns : gmap Z CMsketchColumn }.

Definition new_sketch (depth width : Z) : CMsketch := mk_sketch depth width ∅.

Definition column_of (field_id : Z) (s : CMsketch) : CMsketchColumn :=
  default (new_column (sk_depth s) (sk_width s) field_id) (sk_columns s !! field_id).

Definition put_column (field_id : Z) (c : CMsketchColumn) (s : CMsketch) : CMsketch :=
  mk_sketch (sk_depth s) (sk_width s) (<[field_id := c]> (sk_columns s)).

Definition sketch_set_value (field_id hash : Z) (s : CMsketch) : option CMsketch :=
  c ← column_set_value hash 1 (column_of field_id s);
  Some (put_column field_id c s).

Definition field_le (a b : Z * CMsketchColumn) : Prop := a.1 <= b.1.
#[global] Instance field_le_dec : RelDecision field_le.
Proof. unfold field_le. intros a b. apply _. Defined.

Definition sketch_to_proto (s : CMsketch) : pb_CMsketch :=
  mk_pb_sketch (sk_depth s) (sk_width s)
    ((fun p => column_to_proto p.2) <$> sorting.merge_sort field_le (map_to_list (sk_columns s))).

Fixpoint add_columns (l : list pb_CMsketchColumn) (s : CMsketch) : option CMsketch :=
  match l with
  | [] => Some s
  | p :: l => c ← column_add_proto p (column_of (pb_field_id p) s); add_columns l (put_column (pb_field_id p) c s)
  end.

Definition sketch_add_proto (p : pb_CMsketch) (s : CMsketch) : option CMsketch :=
  if negb (sk_depth s =? pb_depth p) || negb (sk_width s =? pb_width p) then Some s
  else add_columns (cmcolumns p) s.

(** ** Histograms *)

Section Histogram.
Context `{Host, RoaringLib}.

Record BucketInfo := mk_bucket {
  distinct_cnt : Z;
  bucket_size : Z;
  start : ExprValue;
  end_ : ExprValue
}.

(** [SampleSorter] besides its sorter. *)
Record Sample := mk_sample {
  cur_value : ExprValue;
  cur_value_cnt : Z;
  bucket_infos : list BucketInfo;
  distinct_cnt_total : Z;
  null_value_cnt : Z;
  expect_bucket_size : Z
}.

(** The two flags of the process. *)
Variable expect_bucket_count : Z.
Variable histogram_split_threshold_percent : Z.

Definition new_sample (sample_rows : Z) : option Sample :=
  if expect_bucket_count =? 0 then None
  else
    let size := Z.quot sample_rows expect_bucket_count in
    Some (mk_sample (new_ExprValue NULL_TYPE) 0 [] 0 0 (if size <? 1 then 1 else size)).

Definition put_bucket (cnt : Z) (value : ExprValue) : BucketInfo := mk_bucket 1 cnt value value.

Definition insert_distinct_value (value : ExprValue) (cnt : Z) (s : Sample) : Sample :=
  let buckets :=
    match last (bucket_infos s) with
    | None => [put_bucket cnt value]
    | Some back =>
        let bucket_split_count := Z.quot (i32 (expect_bucket_size s * histogram_split_threshold_percent)) 100 in
        if (bucket_split_count <=? cnt) || (bucket_split_count <=? bucket_size back)
           || (expect_bucket_size s <=? i32 (cnt + bucket_size back))
        then bucket_infos s ++ [put_bucket cnt value]
        else take (length (bucket_infos s) - 1) (bucket_infos s)
             ++ [mk_bucket (i32 (distinct_cnt back + 1)) (i32 (bucket_size back + cnt)) (start back) value]
    end in
  mk_sample (cur_value s) (cur_value_cnt s) buckets (i32 (distinct_cnt_total s + 1)) (null_value_cnt s)
    (expect_bucket_size s).

Definition set_current (value : ExprValue) (cnt : Z) (s : Sample) : Sample :=
  mk_sample value cnt (bucket_infos s) (distinct_cnt_total s) (null_value_cnt s) (expect_bucket_size s).

(** [value]: the expression on the row. *)
Definition insert_row (value : ExprValue) (s : Sample) : Sample :=
  if is_null value then
    mk_sample (cur_value s) (cur_value_cnt s) (bucket_infos s) (distinct_cnt_total s)
      (i32 (null_value_cnt s + 1)) (expect_bucket_size s)
  else if cur_value_cnt s =? 0 then set_current value 1 s
  else
    let k := compare (cur_value s) value in
    if k =? 0 then set_current (cur_value s) (i32 (cur_value_cnt s + 1)) s
    else if 0 <? k then s
    else set_current value 1 (insert_distinct_value (cur_value s) (cur_value_cnt s) s).

Definition insert_done (s : Sample) : Sample :=
  if cur_value_cnt s =? 0 then s
  else set_current (cur_value s) 0 (insert_distinct_value (cur_value s) (cur_value_cnt s) s).

(** The messages; a fresh one has its defaults. *)
Record pb_BucketInfo := mk_pb_bucket {
  pb_distinct_cnt : Z;
  pb_bucket_size : Z;
  pb_start : pb_ExprValue;
  pb_end : pb_ExprValue
}.
Record pb_ColumnInfo := mk_pb_info {
  info_distinct_cnt : Z;
  info_null_value_cnt : Z;
  info_buckets : list pb_BucketInfo
}.

Definition pb_default : pb_ExprValue := mk_pb NULL_TYPE 0 0 0 0 0 0 0 [].

Definition bucket_to_proto (b : BucketInfo) : pb_BucketInfo :=
  mk_pb_bucket (distinct_cnt b) (bucket_size b) (to_proto (start b) pb_default) (to_proto (end_ b) pb_default).

Definition packet_column (s : Sample) : pb_ColumnInfo :=
  mk_pb_info (distinct_cnt_total s) (null_value_cnt s) (bucket_to_proto <$> bucket_infos s).

(** *** Packing a sample *)

Context {Row : Type} `{StdSort}.
Variable cap : nat.

(** The order of [SampleSorter]: ascending, nulls last. *)
Definition sample_order (expr : Row -> ExprValue) : list (OrderExpr Row) := [mk_order expr true false].

(** The calls of [get_next]; a round gives a row or the end. *)
Fixpoint sample_loop (fuel : nat) (expr : Row -> ExprValue) (srt : Sorter Row) (s : Sample)
    (batches : list (RowBatch Row)) : option (Sample * list (RowBatch Row)) :=
  match fuel with
  | O => None
  | S fuel =>
      '(srt, batch, eos) ← sorter_get_next (row_compare (sample_order expr)) false srt (mk_batch [] 0 cap);
      let s := foldl (fun s r => insert_row (expr r) s) s (rows batch) in
      let batches := if (0 <? length (rows batch))%nat then batches ++ [reset batch] else batches in
      if eos : bool then Some (s, batches) else sample_loop fuel expr srt s batches
  end.

Definition count_rows (l : list (RowBatch Row)) : Z :=
  foldl (fun n b => i32 (n + Z.of_nat (length (rows b)))) 0 l.

Definition sample_fuel (l : list (RowBatch Row)) : nat := (2 + length (mjoin (rows <$> l)))%nat.

(** One column of [packet_sample], with the batches for the next one. *)
Definition sample_column (expr : Row -> ExprValue) (batches : list (RowBatch Row)) :
    option (pb_ColumnInfo * list (RowBatch Row)) :=
  s ← new_sample (count_rows batches);
  srt ← sorter_sort (row_compare (sample_order expr)) false (foldl (fun srt b => add_batch b srt) new_sorter batches);
  '(s, batches) ← sample_loop (sample_fuel batches) expr srt s [];
  Some (packet_column (insert_done s), batches).

Fixpoint packet_sample (exprs : list (Row -> ExprValue)) (batches : list (RowBatch Row)) :
    option (list pb_ColumnInfo) :=
  match exprs with
  | [] => Some []
  | e :: exprs =>
      '(info, batches) ← sample_column e batches;
      rest ← packet_sample exprs batches;
      Some (info :: rest)
  end.

End Histogram.

(** *** Reading a histogram *)

Section Reading.
Context `{Host, RoaringLib}.

(** [_bucket_mapping]: the buckets by their starts. *)
Record Histogram := mk_histogram {
  hist_distinct_cnt : Z;
  hist_null_value_cnt : Z;
  bucket_mapping : list (ExprValue * BucketInfo)
}.

(** [m[key] = b] in a map ordered by [compare]. *)
Fixpoint map_put (key : ExprValue) (b : BucketInfo) (m : list (ExprValue * BucketInfo)) :
    list (ExprValue * BucketInfo) :=
  match m with
  | [] => [(key, b)]
  | (k, x) :: m =>
      if compare k key <? 0 then (k, x) :: map_put key b m
      else if compare key k <? 0 then (key, b) :: (k, x) :: m
      else (k, b) :: m
  end.

(** [u0]: the bytes of a union that are not initialised. *)
Definition bucket_of_proto (u0 : bytes) (p : pb_BucketInfo) : BucketInfo :=
  mk_bucket (pb_distinct_cnt p) (pb_bucket_size p) (from_proto u0 (pb_start p)) (from_proto u0 (pb_end p)).

Definition load_histogram (u0 : bytes) (p : pb_ColumnInfo) : Histogram :=
  mk_histogram (info_distinct_cnt p) (info_null_value_cnt p)
    (foldl (fun m b => let b := bucket_of_proto u0 b in map_put (start b) b m) [] (info_buckets p)).

(** The entries in front of [upper_bound(value)]. *)
Fixpoint up_to_value (value : ExprValue) (m : list (ExprValue * BucketInfo)) : list BucketInfo :=
  match m with
  | [] => []
  | (k, b) :: m => if compare value k <? 0 then [] else b :: up_to_value value m
  end.

Definition first_bucket (h : Histogram) : option BucketInfo := snd <$> head (bucket_mapping h).
Definition last_bucket (h : Histogram) : option BucketInfo := snd <$> last (bucket_mapping h).

(** [get_count(value)]. *)
Definition get_count_value (h : Histogram) (value : ExprValue) : option Z :=
  match first_bucket h, last_bucket h with
  | Some first, Some final =>
      if is_null value then Some (-1)
      else if (0 <? compare value (end_ final)) || (compare value (start first) <? 0) then Some (-2)
      else
        match last (up_to_value value (bucket_mapping h)) with
        | None => Some (-2)
        | Some b =>
            if (0 <? compare value (end_ b)) || (compare value (start b) <? 0) then Some (-2)
            else if distinct_cnt b =? 0 then Some (-1)
            else Some (Z.quot (bucket_size b) (distinct_cnt b))
        end
  | _, _ => Some (-1)
  end.

Context `{Zone}.
Variable now : Z.

(** [tmp_end - tmp_start], on copies. *)
Definition value_diff (first final : ExprValue) (prefix_len : Z) : option Z :=
  '(e, _) ← float_value now prefix_len final;
  '(s, _) ← float_value now prefix_len first;
  Some (f64_sub e s).

Definition calc_fraction (first final value : ExprValue) : option Z :=
  let prefix_len := common_prefix_length first final in
  n ← value_diff first value prefix_len;
  d ← value_diff first final prefix_len;
  Some (f64_div n d).

(** [ceil], converted to [int32_t]. *)
Definition f64_ceil (x : Z) : option Z :=
  t ← fp_trunc 64 52 x;
  in_range (- 2 ^ 31) (2 ^ 31) (if fp_lt 64 52 (f64_of_Z t) x then t + 1 else t).

(** A ratio between the share of one value and one. *)
Definition clamp (distinct_1 ratio : Z) : Z :=
  let ratio := if fp_lt 64 52 f64_one ratio then f64_one else ratio in
  if fp_lt 64 52 ratio distinct_1 then distinct_1 else ratio.

Definition calc_scalar (lower upper : ExprValue) (b : BucketInfo) : option Z :=
  let distinct_1 := f64_div f64_one (f64_of_Z (distinct_cnt b)) in
  let size := f64_of_Z (bucket_size b) in
  count ← (if (compare lower (start b) <=? 0) && (0 <=? compare upper (end_ b)) then Some (bucket_size b)
           else if (0 <? compare lower (end_ b)) || (compare upper (start b) <? 0) then Some 0
           else if compare lower (start b) <=? 0 then
             r ← calc_fraction (start b) (end_ b) upper;
             f64_ceil (f64_mul size (clamp distinct_1 r))
           else if 0 <=? compare upper (end_ b) then
             r ← calc_fraction (start b) (end_ b) lower;
             f64_ceil (f64_mul size (f64_sub f64_one (clamp distinct_1 r)))
           else
             r ← calc_fraction (start b) (end_ b) upper;
             q ← calc_fraction (start b) (end_ b) lower;
             f64_ceil (f64_mul size (clamp distinct_1 (f64_sub r q))));
  Some (if count <? 0 then 0 else count).

(** The loop over the buckets from the last one down. *)
Fixpoint count_down (lower upper : ExprValue) (l : list BucketInfo) (count : Z) : option Z :=
  match l with
  | [] => Some count
  | b :: l =>
      if 0 <? compare lower (end_ b) then Some count
      else c ← calc_scalar lower upper b; count_down lower upper l (i32 (count + c))
  end.

(** [get_count(lower, upper)]. *)
Definition get_count_range (h : Histogram) (lower upper : ExprValue) : option Z :=
  match first_bucket h, last_bucket h with
  | Some first, Some final =>
      let lower := if is_null lower then start first else lower in
      let upper := if is_null upper then end_ final else upper in
      if (0 <? compare lower (end_ final)) || (compare upper (start first) <? 0) then Some (-2)
      else count_down lower upper (rev (up_to_value upper (bucket_mapping h))) 0
  | _, _ => Some (-1)
  end.

Definition get_histogram_ratio_dummy (h : Histogram) (lower upper : ExprValue) (sample_rows : Z) : option Z :=
  match first_bucket h, last_bucket h with
  | Some first, Some final =>
      let share b := f64_div (f64_of_Z (bucket_size b)) (f64_of_Z sample_rows) in
      if is_null lower then Some (share first)
      else if is_null upper then Some (share final)
      else
        let e := if 0 <? compare lower (end_ final) then upper else end_ final in
        let s := if compare upper (start first) <? 0 then lower else start first in
        let prefix_len := common_prefix_length s e in
        n ← value_diff lower upper prefix_len;
        d ← value_diff s e prefix_len;
        let ret := f64_div n d in
        Some (if fp_lt 64 52 f64_one ret then f64_one else ret)
  | _, _ => Some f64_one
  end.

(** ** The statistics of a table *)

Record Statistics := mk_statistics {
  sample_rows : Z;
  total_rows : Z;
  field_histogram : gmap Z Histogram;
  field_cmsketch : gmap Z CMsketchColumn
}.

Fixpoint init_cmsketch (depth width : Z) (l : list pb_CMsketchColumn) (s : Statistics) : option Statistics :=
  match l with
  | [] => Some s
  | p :: l =>
      c ← column_add_proto p (new_column depth width (pb_field_id p));
      total ← (if total_rows s <=? 0 then get_total_rows c else Some (total_rows s));
      init_cmsketch depth width l
        (mk_statistics (sample_rows s) total (field_histogram s) (<[pb_field_id p := c]> (field_cmsketch s)))
  end.

(** The message: its counts, the columns of the histogram by field, the sketch. *)
Definition new_statistics (u0 : bytes) (samples total : Z) (infos : list (Z * pb_ColumnInfo)) (p : pb_CMsketch) :
    option Statistics :=
  init_cmsketch (pb_depth p) (pb_width p) (cmcolumns p)
    (mk_statistics samples total (foldl (fun m i => <[i.1 := load_histogram u0 i.2]> m) ∅ infos) ∅).

Definition get_histogram_count (field_id : Z) (lower upper : ExprValue) (s : Statistics) : option Z :=
  match field_histogram s !! field_id with None => Some (-1) | Some h => get_count_range h lower upper end.

Definition get_histogram_value_count (field_id : Z) (value : ExprValue) (s : Statistics) : option Z :=
  match field_histogram s !! field_id with None => Some (-1) | Some h => get_count_value h value end.

Definition get_histogram_ratio (field_id : Z) (lower upper : ExprValue) (need_mapping : bool) (s : Statistics) :
    option Z :=
  if sample_rows s =? 0 then Some f64_one
  else
    cnt ← get_histogram_count field_id lower upper s;
    if cnt =? -2 then
      if need_mapping then h ← field_histogram s !! field_id; get_histogram_ratio_dummy h lower upper (sample_rows s)
      else Some (f64_of_Z (-1))
    else if cnt =? -1 then Some f64_one
    else Some (f64_div (f64_of_Z cnt) (f64_of_Z (sample_rows s))).

Definition get_distinct_cnt (field_id : Z) (s : Statistics) : Z :=
  match field_histogram s !! field_id with None => -1 | Some h => hist_distinct_cnt h end.

Definition get_cmsketch_ratio (field_id : Z) (value : ExprValue) (s : Statistics) : option Z :=
  if total_rows s =? 0 then Some f64_one
  else
    value_cnt ← get_histogram_value_count field_id value s;
    Some (if value_cnt <=? 0 then f64_div f64_one (f64_of_Z (get_distinct_cnt field_id s))
          else f64_div (f64_mul (f64_of_Z value_cnt) f64_one) (f64_of_Z (sample_rows s))).

Definition get_cmsketch_count `{Murmur} (seed field_id : Z) (value : ExprValue) (s : Statistics) : option Z :=
  match field_cmsketch s !! field_id with None => Some 0 | Some c => column_get_value c (hash seed value) end.

End Reading.
