(* ===== verification/SketchFacts.v ===== *)
(** * What count-min sketches hold

    Every counter is the number of hash values that fall on it, also when the values were
    counted by several stores whose sketches are added up; an estimate lies between the number
    of occurrences less the expected noise and every counter of the hash value. *)

From stdpp Require Import gmap sorting.
From S2P Require Import Prelude KeyEncoder Stdio FloatArith FloatText Calendar DateTime ExprValue ExprValueFacts Heap Sorter Statistics.

(** ** Places *)

(** The hash value in row [i], and its place there. *)
Definition row_hash (h : Z) (i : nat) : Z := u64 (h + Z.of_nat i * hash_delta h).
Definition place (w h : Z) (i : nat) : Z := row_hash h i mod w.

(** How many of the values fall on a counter. *)
Definition counted (w : Z) (hs : list Z) (i : nat) (j : Z) : Z :=
  Z.of_nat (length (filter (fun h => place w h i = j) hs)).

Definition row_of (w : Z) (f : nat -> Z -> Z) (i : nat) : list Z := (fun j => f i (Z.of_nat j)) <$> seq 0 (Z.to_nat w).
Definition rows_from (w : Z) (f : nat -> Z -> Z) (i n : nat) : list (list Z) := row_of w f <$> seq i n.
Definition table (d w : Z) (f : nat -> Z -> Z) : list (list Z) := rows_from w f 0 (Z.to_nat d).

Lemma row_hash_step h i : u64 (row_hash h i + hash_delta h) = row_hash h (S i).
Proof. unfold row_hash, wrap. rewrite Zplus_mod_idemp_l. f_equal. lia. Qed.

Lemma row_hash_start h : is_u 64 h -> row_hash h 0 = h.
Proof. intros Hh. unfold row_hash. rewrite Z.add_0_r. by apply wrap_id. Qed.

Lemma row_hash_range h i : is_u 64 (row_hash h i).
Proof. unfold row_hash, wrap, is_u. apply Z.mod_pos_bound. lia. Qed.

Lemma place_range w h i : 0 < w -> 0 <= place w h i < w.
Proof. intros. by apply Z.mod_pos_bound. Qed.

Lemma slot_place w h i : 0 < w < 2 ^ 31 -> slot_of w (row_hash h i) = Some (place w h i).
Proof.
  intros Hw. unfold slot_of. rewrite (proj2 (Z.eqb_neq w 0)) by lia. do 2 f_equal.
  rewrite (wrap_id 64 w) by (unfold is_u; lia). pose proof (place_range w h i ltac:(lia)). fold (place w h i).
  apply swrap_id; [lia|]. unfold is_i. lia.
Qed.

Lemma row_lookup w f i j : 0 <= j < w -> at_index (row_of w f i) j = Some (f i j).
Proof.
  intros Hj. unfold at_index, row_of. rewrite (proj2 (Z.ltb_ge j 0)) by lia.
  rewrite list_lookup_fmap, lookup_seq_lt by lia. cbn. by rewrite Z2Nat.id by lia.
Qed.

Lemma row_insert w f i k x :
  0 <= k < w -> <[Z.to_nat k := x]> (row_of w f i) = row_of w (fun i j => if j =? k then x else f i j) i.
Proof.
  intros Hk. unfold row_of. apply list_eq. intros n. destruct (decide (n = Z.to_nat k)) as [->|Hn].
  - rewrite list_lookup_insert_eq by (rewrite length_fmap, length_seq; lia).
    rewrite list_lookup_fmap, lookup_seq_lt by lia. cbn. by rewrite Z2Nat.id, Z.eqb_refl by lia.
  - rewrite list_lookup_insert_ne by done. rewrite !list_lookup_fmap. destruct (seq _ _ !! n) as [m|] eqn:E; [|done].
    apply lookup_seq in E as [-> _]. cbn. by rewrite (proj2 (Z.eqb_neq _ _)) by lia.
Qed.

Lemma row_ext w f g i : (forall j, 0 <= j < w -> f i j = g i j) -> row_of w f i = row_of w g i.
Proof.
  intros E. unfold row_of. apply list_fmap_ext. intros n j Hj. apply lookup_seq in Hj as [-> Hn]. apply E. lia.
Qed.

Lemma rows_ext w f g i n :
  (forall k j, (i <= k < i + n)%nat -> 0 <= j < w -> f k j = g k j) -> rows_from w f i n = rows_from w g i n.
Proof.
  intros E. unfold rows_from. apply list_fmap_ext. intros m k Hk. apply lookup_seq in Hk as [-> Hm].
  apply row_ext. intros. apply E; lia.
Qed.

Lemma rows_S w f i n : rows_from w f i (S n) = row_of w f i :: rows_from w f (S i) n.
Proof. done. Qed.

Lemma replicate_seq {A} (x : A) k n : replicate n x = (fun _ => x) <$> seq k n.
Proof. revert k. induction n as [|n IH]; intros k; [done|]. cbn. by rewrite (IH (S k)). Qed.

Lemma new_table d w field_id : cm_array (new_column d w field_id) = table d w (fun _ _ => 0).
Proof. cbn. unfold table, rows_from, row_of. rewrite (replicate_seq _ 0), (replicate_seq 0 0). done. Qed.

(** ** Counting *)

Lemma add_rows_table w h i n f :
  0 < w < 2 ^ 31 ->
  add_to_rows w (row_hash h i) (hash_delta h) 1 (rows_from w f i n)
  = Some (rows_from w (fun i j => if j =? place w h i then i64 (f i j + 1) else f i j) i n).
Proof.
  intros Hw. revert i. induction n as [|n IH]; intros i; [done|]. rewrite !rows_S. cbn [add_to_rows].
  rewrite slot_place by done. cbn [mbind option_bind]. pose proof (place_range w h i ltac:(lia)).
  rewrite row_lookup by done. cbn [mbind option_bind]. rewrite row_hash_step, IH. cbn [mbind option_bind].
  do 2 f_equal. rewrite row_insert by done. apply row_ext. intros j _. by destruct (Z.eqb_spec j (place w h i)) as [->|].
Qed.

Lemma counted_snoc w hs h i j :
  counted w (hs ++ [h]) i j = counted w hs i j + (if j =? place w h i then 1 else 0).
Proof.
  unfold counted. rewrite filter_app, length_app, filter_cons, filter_nil.
  destruct (Z.eqb_spec j (place w h i)) as [->|Hn]; [rewrite decide_True by done|rewrite decide_False by congruence]; cbn; lia.
Qed.

Lemma counted_app w hs hs' i j : counted w (hs ++ hs') i j = counted w hs i j + counted w hs' i j.
Proof. unfold counted. rewrite filter_app, length_app. lia. Qed.

Lemma counted_bound w hs i j : 0 <= counted w hs i j <= Z.of_nat (length hs).
Proof. unfold counted. pose proof (length_filter (fun h => place w h i = j) hs). lia. Qed.

(** The column over [hs]. *)
Definition holds_counts (d w field_id : Z) (hs : list Z) (c : CMsketchColumn) : Prop :=
  cm_depth c = d /\ cm_width c = w /\ cm_field_id c = field_id /\ cm_array c = table d w (counted w hs).

Lemma new_holds d w field_id : holds_counts d w field_id [] (new_column d w field_id).
Proof. split_and!; [done..|]. by rewrite new_table. Qed.

Lemma set_value_holds d w field_id hs h c :
  0 < w < 2 ^ 31 -> is_u 64 h -> Z.of_nat (length hs) < 2 ^ 63 - 1 ->
  holds_counts d w field_id hs c ->
  exists c', column_set_value h 1 c = Some c' /\ holds_counts d w field_id (hs ++ [h]) c'
    /\ cm_total_cnt c' = cm_total_cnt c.
Proof.
  intros Hw Hh Hl (Hd & Ew & Hf & Ha). unfold column_set_value. rewrite Ew, Ha. unfold table.
  pose proof (add_rows_table w h 0 (Z.to_nat d) (counted w hs) Hw) as E. rewrite (row_hash_start h Hh) in E.
  rewrite E. eexists. split; [done|].
  split; [|done]. split_and!; [done..|]. apply rows_ext. intros i j _ _. rewrite counted_snoc.
  pose proof (counted_bound w hs i j). destruct (j =? place w h i); [|lia].
  apply swrap_id; [lia|]. unfold is_i. lia.
Qed.

(** ** Messages *)

Fixpoint items_from (i j : nat) (r : list Z) : list CMsketchItem :=
  match r with
  | [] => []
  | x :: r => (if 0 <? x then [mk_item (Z.of_nat i) (Z.of_nat j) (i32 x)] else []) ++ items_from i (S j) r
  end.

Fixpoint table_items (i : nat) (a : list (list Z)) : list CMsketchItem :=
  match a with [] => [] | r :: a => items_from i 0 r ++ table_items (S i) a end.

Lemma row_items_from i r k :
  concat (imap (fun j x => if 0 <? x then [mk_item (Z.of_nat i) (Z.of_nat (k + j)) (i32 x)] else []) r) = items_from i k r.
Proof.
  revert k. induction r as [|x r IH]; intros k; [done|]. rewrite imap_cons. cbn [concat items_from].
  rewrite Nat.add_0_r. f_equal. rewrite <- (IH (S k)). f_equal. apply imap_ext. intros j y _. cbn.
  by rewrite Nat.add_succ_r.
Qed.

Lemma to_proto_items a k : concat (imap (fun i r => row_items (k + i) r) a) = table_items k a.
Proof.
  revert k. induction a as [|r a IH]; intros k; [done|]. rewrite imap_cons. cbn [concat table_items].
  f_equal; [rewrite Nat.add_0_r; exact (row_items_from k r 0)|].
  rewrite <- (IH (S k)). f_equal. apply imap_ext. intros j y _. cbn. by rewrite Nat.add_succ_r.
Qed.

Lemma add_items_app l l' a : add_items (l ++ l') a = add_items l a ≫= add_items l'.
Proof.
  revert a. induction l as [|x l IH]; intros a; [done|]. cbn. destruct (add_item x a) as [a'|]; [|done]. apply IH.
Qed.

Lemma at_nat {A} (l : list A) (n : nat) : at_index l (Z.of_nat n) = l !! n.
Proof. unfold at_index. by rewrite (proj2 (Z.ltb_ge _ 0)), Nat2Z.id by lia. Qed.

Definition small (r : list Z) : Prop := Forall (fun x => 0 <= x < 2 ^ 31) r.
Definition add_cells (s r : list Z) : list Z := zip_with (fun x y => i64 (x + y)) s r.

Lemma add_row_items i r a s1 s2 :
  a !! i = Some (s1 ++ s2) -> length s2 = length r -> small r -> Forall (is_i 64) s2 ->
  add_items (items_from i (length s1) r) a = Some (<[i := s1 ++ add_cells s2 r]> a).
Proof.
  revert a s1 s2. induction r as [|x r IH]; intros a s1 s2 Ha Hl Hr Hs.
  { destruct s2; [|done]. cbn [items_from add_items]. f_equal. symmetry. by apply list_insert_id. }
  destruct s2 as [|y s2]; [done|]. inversion Hr as [|? ? Hx Hr']; subst. inversion Hs as [|? ? Hy Hs']; subst.
  cbn [items_from]. rewrite add_items_app. pose proof (lookup_lt_Some _ _ _ Ha).
  assert (E : add_items (if 0 <? x then [mk_item (Z.of_nat i) (Z.of_nat (length s1)) (i32 x)] else []) a
              = Some (<[i := (s1 ++ [i64 (y + x)]) ++ s2]> a)).
  { destruct (Z.ltb_spec 0 x) as [Hx0|Hx0].
    - cbn [add_items]. unfold add_item. cbn [item_depth item_width item_value]. rewrite at_nat, Ha. cbn [mbind option_bind].
      rewrite at_nat, list_lookup_middle by done. cbn [mbind option_bind]. rewrite !Nat2Z.id.
      rewrite (swrap_id 32 x) by (unfold is_i; lia). rewrite insert_app_r_alt by lia. rewrite Nat.sub_diag. cbn.
      by rewrite <- app_assoc.
    - assert (x = 0) as -> by lia. cbn [add_items]. rewrite Z.add_0_r, swrap_id by (done || lia). rewrite <- app_assoc. cbn [app].
      f_equal. symmetry. by apply list_insert_id. }
  rewrite E. cbn [mbind option_bind]. replace (S (length s1)) with (length (s1 ++ [i64 (y + x)])) by (rewrite length_app; cbn; lia).
  rewrite (IH _ (s1 ++ [i64 (y + x)]) s2); [|by rewrite list_lookup_insert_eq|by cbn in Hl; lia|done|done].
  rewrite list_insert_insert_eq. cbn [add_cells zip_with]. by rewrite <- app_assoc.
Qed.

(** Adding the items of one array to another one. *)
Lemma add_table_items a1 a2 a :
  Forall2 (fun s r => length s = length r /\ small r /\ Forall (is_i 64) s) a2 a ->
  add_items (table_items (length a1) a) (a1 ++ a2) = Some (a1 ++ zip_with add_cells a2 a).
Proof.
  intros Hf. revert a1. induction Hf as [|s r a2 a (Hl & Hr & Hs) _ IH]; intros a1; [done|].
  cbn [table_items]. rewrite add_items_app. pose proof (add_row_items (length a1) r (a1 ++ s :: a2) [] s) as E. cbn [length app] in E.
  rewrite E by (done || by rewrite list_lookup_middle). cbn [mbind option_bind]. rewrite insert_app_r_alt by lia. rewrite Nat.sub_diag. cbn [insert list_insert].
  specialize (IH (a1 ++ [add_cells s r])). rewrite length_app in IH. cbn [length] in IH. rewrite Nat.add_1_r in IH.
  rewrite <- !app_assoc in IH. exact IH.
Qed.

Lemma zip_rows w f g i n :
  zip_with add_cells (rows_from w f i n) (rows_from w g i n) = rows_from w (fun i j => i64 (f i j + g i j)) i n.
Proof.
  unfold rows_from. rewrite zip_with_fmap_l, zip_with_fmap_r, zip_with_diag. apply list_fmap_ext. intros _ k _.
  unfold add_cells, row_of. by rewrite zip_with_fmap_l, zip_with_fmap_r, zip_with_diag.
Qed.

Definition zsum (l : list Z) : Z := foldr Z.add 0 l.

Lemma sum_row_zsum l start :
  Forall (fun x => 0 <= x) l -> 0 <= start -> start + zsum l < 2 ^ 63 -> sum_row start l = start + zsum l.
Proof.
  intros Hl. revert start. induction Hl as [|x l Hx Hl IH]; intros start Hs Hb; [cbn; lia|].
  change (zsum (x :: l)) with (x + zsum l) in *. change (sum_row start (x :: l)) with (sum_row (i64 (start + x)) l).
  assert (0 <= zsum l) by (clear -Hl; unfold zsum; induction Hl; cbn in *; lia).
  rewrite swrap_id by (unfold is_i; lia). rewrite IH by lia. lia.
Qed.

Lemma zsum_add {A} (f g : A -> Z) l : zsum ((fun x => f x + g x) <$> l) = zsum (f <$> l) + zsum (g <$> l).
Proof. unfold zsum. induction l as [|x l IH]; cbn in *; lia. Qed.

Lemma zsum_indicator k i n :
  zsum ((fun j => if Z.of_nat j =? k then 1 else 0) <$> seq i n) = if (Z.of_nat i <=? k) && (k <? Z.of_nat (i + n)) then 1 else 0.
Proof.
  revert i. induction n as [|n IH]; intros i; cbn [seq fmap list_fmap zsum foldr].
  { destruct (Z.leb_spec (Z.of_nat i) k), (Z.ltb_spec k (Z.of_nat (i + 0))); cbn; lia. }
  fold (zsum ((fun j => if Z.of_nat j =? k then 1 else 0) <$> seq (S i) n)). rewrite IH.
  destruct (Z.eqb_spec (Z.of_nat i) k), (Z.leb_spec (Z.of_nat (S i)) k), (Z.ltb_spec k (Z.of_nat (S i + n))),
    (Z.leb_spec (Z.of_nat i) k), (Z.ltb_spec k (Z.of_nat (i + S n))); cbn; lia.
Qed.

(** A row counts every value once. *)
Lemma row_sum w hs i : 0 < w -> zsum (row_of w (counted w hs) i) = Z.of_nat (length hs).
Proof.
  intros Hw. unfold row_of. induction hs as [|h hs IH] using rev_ind.
  { unfold counted, zsum. cbn. generalize (seq 0 (Z.to_nat w)). induction l as [|x l IH]; cbn in *; lia. }
  erewrite list_fmap_ext; [|intros _ j _; apply (counted_snoc w hs h i (Z.of_nat j))].
  rewrite (zsum_add (fun j => counted w hs i (Z.of_nat j))), IH, zsum_indicator, length_app.
  pose proof (place_range w h i Hw).
  rewrite (proj2 (Z.leb_le _ _)), (proj2 (Z.ltb_lt _ _)) by lia. cbn. lia.
Qed.

Lemma counted_small w hs i : Z.of_nat (length hs) < 2 ^ 31 -> small (row_of w (counted w hs) i).
Proof.
  intros Hl. apply Forall_fmap, Forall_forall. intros j _. cbn. pose proof (counted_bound w hs i (Z.of_nat j)). lia.
Qed.

Lemma add_tables d w hs hs' :
  Z.of_nat (length hs + length hs') < 2 ^ 31 ->
  zip_with add_cells (table d w (counted w hs)) (table d w (counted w hs')) = table d w (counted w (hs ++ hs')).
Proof.
  intros Hl. unfold table. rewrite zip_rows. apply rows_ext. intros k j _ _. rewrite counted_app.
  pose proof (counted_bound w hs k j). pose proof (counted_bound w hs' k j). apply swrap_id; [lia|]. unfold is_i. lia.
Qed.

Lemma add_proto_holds d w field_id hs hs' c c' :
  0 < w < 2 ^ 31 -> 0 < d -> Z.of_nat (length hs + length hs') < 2 ^ 31 -> 0 <= cm_total_cnt c < 2 ^ 62 ->
  holds_counts d w field_id hs c -> holds_counts d w field_id hs' c' ->
  exists c2, column_add_proto (column_to_proto c') c = Some c2 /\ holds_counts d w field_id (hs ++ hs') c2
    /\ cm_total_cnt c2 = cm_total_cnt c + Z.of_nat (length hs + length hs').
Proof.
  intros Hw Hd Hl Ht (Ed & Ew & Ef & Ea) (Ed' & Ew' & Ef' & Ea'). unfold column_add_proto, column_to_proto.
  cbn [pb_field_id cmitems]. rewrite Ef, Ef', Z.eqb_refl. cbn [negb]. rewrite Ea'.
  assert (concat (imap row_items (table d w (counted w hs'))) = table_items 0 (table d w (counted w hs'))) as ->
    by exact (to_proto_items _ 0). rewrite Ea.
  pose proof (add_table_items [] (table d w (counted w hs)) (table d w (counted w hs'))) as E2. cbn [length app] in E2.
  rewrite E2. 2:{ unfold table, rows_from. apply Forall2_fmap, Forall_Forall2_diag, Forall_forall. intros i _.
    split_and!; [by unfold row_of; rewrite !length_fmap|apply counted_small; lia|].
    eapply Forall_impl; [apply (counted_small w hs i); lia|]. cbn. unfold is_i. intros; lia. }
  cbn [mbind option_bind]. rewrite add_tables by lia.
  assert (table d w (counted w (hs ++ hs')) !! 0%nat = Some (row_of w (counted w (hs ++ hs')) 0)) as ->.
  { unfold table, rows_from. by rewrite list_lookup_fmap, lookup_seq_lt by lia. }
  cbn [mbind option_bind]. eexists. split; [reflexivity|]. split; [done|].
  cbn [cm_total_cnt]. pose proof (row_sum w (hs ++ hs') 0 ltac:(lia)) as Es. rewrite length_app in Es.
  rewrite sum_row_zsum, Es; [done| |lia|lia].
  eapply Forall_impl; [apply (counted_small w (hs ++ hs') 0); rewrite length_app; lia|]. cbn. lia.
Qed.

(** ** Sketches of tables *)

(** The hash values that rows have in a field. *)
Definition hashes (f : Z) (l : list (Z * Z)) : list Z := (filter (fun p => p.1 = f) l).*2.

Lemma hashes_app f l l' : hashes f (l ++ l') = hashes f l ++ hashes f l'.
Proof. unfold hashes. by rewrite filter_app, fmap_app. Qed.

Lemma hashes_snoc f g h l : hashes f (l ++ [(g, h)]) = if decide (g = f) then hashes f l ++ [h] else hashes f l.
Proof.
  rewrite hashes_app. unfold hashes at 2. rewrite filter_cons, filter_nil. cbn.
  destruct (decide (g = f)); cbn; [done|by rewrite app_nil_r].
Qed.

Lemma hashes_length f l : (length (hashes f l) <= length l)%nat.
Proof. unfold hashes. rewrite length_fmap. apply length_filter. Qed.

Section Sketches.
Context (d w : Z) (Hw : 0 < w < 2 ^ 31) (Hd : 0 < d).

Definition fill (l : list (Z * Z)) (s : CMsketch) : option CMsketch :=
  foldl (fun s p => s ← s; sketch_set_value p.1 p.2 s) (Some s) l.

Definition holds_sketch (l : list (Z * Z)) (s : CMsketch) : Prop :=
  sk_depth s = d /\ sk_width s = w
  /\ forall f, (sk_columns s !! f = None <-> hashes f l = []) /\ holds_counts d w f (hashes f l) (column_of f s).

Lemma column_of_put f g c s : column_of f (put_column g c s) = if decide (g = f) then c else column_of f s.
Proof.
  unfold column_of, put_column. cbn. destruct (decide (g = f)) as [->|Hn];
    [by rewrite lookup_insert_eq|by rewrite lookup_insert_ne].
Qed.

Lemma columns_put f g c s : sk_columns (put_column g c s) !! f = if decide (g = f) then Some c else sk_columns s !! f.
Proof. cbn. destruct (decide (g = f)) as [->|Hn]; [by rewrite lookup_insert_eq|by rewrite lookup_insert_ne]. Qed.

Lemma new_sketch_holds : holds_sketch [] (new_sketch d w).
Proof. split_and!; [done..|]. intros f. unfold column_of. cbn. rewrite lookup_empty. split; [done|apply new_holds]. Qed.

Lemma set_value_sketch l f h s :
  is_u 64 h -> Z.of_nat (length l) < 2 ^ 63 - 1 -> holds_sketch l s ->
  exists s', sketch_set_value f h s = Some s' /\ holds_sketch (l ++ [(f, h)]) s'
    /\ (forall g, cm_total_cnt (column_of g s') = cm_total_cnt (column_of g s)).
Proof.
  intros Hh Hl (Es & Ew & Hs). pose proof (hashes_length f l).
  destruct (set_value_holds d w f (hashes f l) h (column_of f s)) as (c & E & Hc & Ht); [done|done|lia|apply Hs|].
  unfold sketch_set_value. rewrite E. eexists. split; [done|]. split.
  - split_and!; [done..|]. intros g. rewrite columns_put, column_of_put, hashes_snoc.
    destruct (decide (f = g)) as [->|Hn]; [|apply Hs]. split; [|done]. split; [done|]. by intros []%app_nil.
  - intros g. rewrite column_of_put. by destruct (decide (f = g)) as [->|].
Qed.

(** A store: all counters are counts, and nothing is summed up yet. *)
Lemma fill_holds l :
  Forall (fun p => is_u 64 p.2) l -> Z.of_nat (length l) < 2 ^ 63 ->
  exists s, fill l (new_sketch d w) = Some s /\ holds_sketch l s.
Proof.
  induction l as [|[f h] l IH] using rev_ind; intros Hl Hb.
  { exists (new_sketch d w). split; [done|apply new_sketch_holds]. }
  apply Forall_app in Hl as [Hl Hh]. apply Forall_cons in Hh as [Hh _]. rewrite length_app in Hb. cbn in Hb, Hh.
  destruct IH as (s & E & Hs); [done|lia|]. destruct (set_value_sketch l f h s) as (s' & E' & Hs' & _); [exact Hh|lia|exact Hs|].
  exists s'. split; [|done]. unfold fill in *. by rewrite foldl_app, E.
Qed.

(** The columns of a message, in the order of their fields. *)
Definition listed (s : CMsketch) : list (Z * CMsketchColumn) := sorting.merge_sort field_le (map_to_list (sk_columns s)).

Lemma listed_fields s : NoDup (listed s).*1.
Proof. unfold listed. rewrite sorting.merge_sort_Permutation. apply NoDup_fst_map_to_list. Qed.

Lemma listed_elem s f c : (f, c) ∈ listed s <-> sk_columns s !! f = Some c.
Proof. unfold listed. rewrite sorting.merge_sort_Permutation. apply elem_of_map_to_list. Qed.

Lemma listed_hashes s l f : holds_sketch l s -> f ∉ (listed s).*1 -> hashes f l = [].
Proof.
  intros (_ & _ & Hs) Hf. apply Hs. destruct (sk_columns s !! f) as [c|] eqn:E; [|done].
  destruct Hf. apply list_elem_of_fmap. exists (f, c). split; [done|]. by apply listed_elem.
Qed.

(** A column in a message of a sketch over [l]. *)
Definition from_rows (l : list (Z * Z)) (p : Z * CMsketchColumn) : Prop :=
  holds_counts d w p.1 (hashes p.1 l) p.2 /\ hashes p.1 l <> [].

Lemma listed_from_rows s l : holds_sketch l s -> Forall (from_rows l) (listed s).
Proof.
  intros (_ & _ & Hs). apply Forall_forall. intros [f c] Hc%listed_elem. specialize (Hs f) as [Hn Hh].
  unfold column_of in Hh. rewrite Hc in Hh, Hn. split; [done|]. cbn. intros E. by apply Hn in E.
Qed.

Lemma add_columns_holds l l' cols s n :
  NoDup cols.*1 -> Forall (from_rows l') cols -> Z.of_nat (length l + length l') < 2 ^ 31 -> n < 2 ^ 61 ->
  (forall f, f ∈ cols.*1 -> holds_counts d w f (hashes f l) (column_of f s) /\ 0 <= cm_total_cnt (column_of f s) <= n) ->
  exists s', add_columns ((fun p => column_to_proto p.2) <$> cols) s = Some s'
    /\ sk_depth s' = sk_depth s /\ sk_width s' = sk_width s
    /\ (forall f, f ∈ cols.*1 -> is_Some (sk_columns s' !! f) /\ holds_counts d w f (hashes f l ++ hashes f l') (column_of f s')
          /\ 0 <= cm_total_cnt (column_of f s') <= n + 2 ^ 31)
    /\ (forall f, f ∉ cols.*1 -> sk_columns s' !! f = sk_columns s !! f /\ column_of f s' = column_of f s).
Proof.
  intros Hn Hc Hl Hk Hs. revert s Hs. induction cols as [|[f c] cols IH]; intros s Hs.
  { exists s. split_and!; [done..| |done]. intros f Hf. by apply not_elem_of_nil in Hf. }
  apply Forall_cons in Hc as [[Hc Hne] Hcs]. cbn [fst snd] in *. cbn [fmap list_fmap fst] in *. apply NoDup_cons in Hn as [Hf Hn].
  pose proof (hashes_length f l). pose proof (hashes_length f l'). destruct (Hs f) as [Hhf Htf]; [by left|].
  destruct (add_proto_holds d w f (hashes f l) (hashes f l') (column_of f s) c) as (c2 & E & Hc2 & Ht);
    [done|done|lia|lia|done..|].
  assert (pb_field_id (column_to_proto c) = f) as Ef by (by destruct Hc as (_ & _ & ? & _)).
  cbn [add_columns snd]. rewrite Ef, E. cbn [mbind option_bind].
  destruct (IH Hn Hcs (put_column f c2 s)) as (s' & E' & Ed & Ew & Hin & Hout).
  { intros g Hg. rewrite column_of_put, decide_False by congruence. apply Hs. by right. }
  exists s'. split_and!; [done..| |].
  - intros g [->|Hg]%elem_of_cons; [|by apply Hin]. destruct (Hout f Hf) as [E1 E2].
    rewrite E1, E2, columns_put, column_of_put, !decide_True by done. split; [by eexists|]. split; [done|]. lia.
  - intros g [Hgf Hg]%not_elem_of_cons. destruct (Hout g Hg) as [E1 E2].
    by rewrite E1, E2, columns_put, column_of_put, !decide_False by congruence.
Qed.

(** Sketches of the same size add up. *)
Lemma add_sketch_holds l l' s s1 n :
  Z.of_nat (length l + length l') < 2 ^ 31 -> 0 <= n < 2 ^ 61 ->
  (forall f, 0 <= cm_total_cnt (column_of f s) <= n) -> holds_sketch l s -> holds_sketch l' s1 ->
  exists s', sketch_add_proto (sketch_to_proto s1) s = Some s' /\ holds_sketch (l ++ l') s'
    /\ (forall f, 0 <= cm_total_cnt (column_of f s') <= n + 2 ^ 31).
Proof.
  intros Hl Hn Hk Hs H1. pose proof Hs as (Ed & Ew & Hs'). pose proof H1 as (Ed1 & Ew1 & H1').
  unfold sketch_add_proto, sketch_to_proto. cbn [pb_depth pb_width cmcolumns].
  rewrite Ed, Ew, Ed1, Ew1, !Z.eqb_refl. cbn [negb orb]. fold (listed s1).
  destruct (add_columns_holds l l' (listed s1) s n) as (s' & E & Ed' & Ew' & Hin & Hout);
    [apply listed_fields|by apply listed_from_rows|done|lia|intros f _; split; [apply Hs'|apply Hk]|].
  exists s'. split; [done|]. split; [split_and!; [congruence..|]|]; intros f; destruct (decide (f ∈ (listed s1).*1)) as [Hf|Hf].
  - destruct (Hin f Hf) as ([c Ec] & Hc & _). rewrite hashes_app. split; [|done]. rewrite Ec. split; [done|].
    intros [_ Ef]%app_nil. apply list_elem_of_fmap in Hf as ([g c'] & -> & Hg).
    by destruct (proj1 (Forall_forall _ _) (listed_from_rows s1 l' H1) _ Hg).
  - destruct (Hout f Hf) as [-> ->]. rewrite hashes_app, (listed_hashes s1 l' f H1 Hf), app_nil_r. apply Hs'.
  - by apply Hin.
  - destruct (Hout f Hf) as [_ ->]. specialize (Hk f). lia.
Qed.

(** The front end: the messages of the stores, one after the other. *)
Fixpoint gather (stores : list CMsketch) (s : CMsketch) : option CMsketch :=
  match stores with
  | [] => Some s
  | s1 :: stores => s ← sketch_add_proto (sketch_to_proto s1) s; gather stores s
  end.

Lemma gather_holds ls stores l s n :
  Forall2 holds_sketch ls stores -> Z.of_nat (length (l ++ concat ls)) < 2 ^ 31 ->
  0 <= n -> n + Z.of_nat (length ls) * 2 ^ 31 < 2 ^ 61 ->
  (forall f, 0 <= cm_total_cnt (column_of f s) <= n) -> holds_sketch l s ->
  exists s', gather stores s = Some s' /\ holds_sketch (l ++ concat ls) s'.
Proof.
  intros Hf. revert l s n. induction Hf as [|l' s1 ls stores H1 _ IH]; intros l s n Hl Hn Hb Hk Hs.
  { exists s. cbn. by rewrite app_nil_r. }
  cbn [concat length] in *. rewrite app_assoc, !length_app in Hl.
  destruct (add_sketch_holds l l' s s1 n) as (s' & E & Hs' & Hk'); [lia..|done|done|done|]. cbn [gather]. rewrite E. cbn [mbind option_bind].
  rewrite app_assoc. apply (IH (l ++ l') s' (n + 2 ^ 31)); [rewrite !length_app; lia|lia|lia|done|done].
Qed.

End Sketches.

(** *** Loading *)

Section Load.
Context `{Host, RoaringLib}.
Context (d w : Z) (Hw : 0 < w < 2 ^ 31) (Hd : 0 < d).

Lemma total_rows_holds f hs c : holds_counts d w f hs c -> is_Some (get_total_rows c).
Proof.
  intros (_ & _ & _ & E). unfold get_total_rows. rewrite E. unfold table, rows_from.
  rewrite list_lookup_fmap, lookup_seq_lt by lia. by eexists.
Qed.

Lemma init_holds l cols st :
  NoDup cols.*1 -> Forall (from_rows d w l) cols -> Z.of_nat (length l) < 2 ^ 31 ->
  exists st', init_cmsketch d w ((fun p => column_to_proto p.2) <$> cols) st = Some st'
    /\ (forall f, f ∈ cols.*1 -> exists c, field_cmsketch st' !! f = Some c
          /\ holds_counts d w f (hashes f l) c /\ cm_total_cnt c = Z.of_nat (length (hashes f l)))
    /\ (forall f, f ∉ cols.*1 -> field_cmsketch st' !! f = field_cmsketch st !! f).
Proof.
  intros Hn Hc Hl. revert st. induction cols as [|[f c] cols IH]; intros st.
  { exists st. split_and!; [done| |done]. intros f Hf. by apply not_elem_of_nil in Hf. }
  apply Forall_cons in Hc as [[Hc _] Hcs]. cbn [fst snd fmap list_fmap] in *. apply NoDup_cons in Hn as [Hf Hn].
  pose proof (hashes_length f l). assert (pb_field_id (column_to_proto c) = f) as Ef by (by destruct Hc as (_ & _ & ? & _)).
  destruct (add_proto_holds d w f [] (hashes f l) (new_column d w f) c) as (c2 & E & Hc2 & Ht);
    [done|done|cbn; lia|cbn; lia|apply new_holds|done|]. cbn [app length cm_total_cnt new_column] in *.
  destruct (total_rows_holds f _ c2 Hc2) as [t Et].
  cbn [init_cmsketch]. rewrite Ef, E. cbn [mbind option_bind]. rewrite Et.
  assert (exists t', (if total_rows st <=? 0 then Some t else Some (total_rows st)) = Some t') as [t' ->]
    by (destruct (_ <=? _); by eexists). cbn [mbind option_bind].
  edestruct (IH Hn Hcs) as (st' & E' & Hin & Hout). exists st'. split; [exact E'|]. split.
  - intros g [->|Hg]%elem_of_cons; [|by apply Hin]. rewrite (Hout f Hf). cbn [field_cmsketch].
    exists c2. rewrite lookup_insert_eq. split_and!; [done..|lia].
  - intros g [Hgf Hg]%not_elem_of_cons. rewrite (Hout g Hg). cbn [field_cmsketch]. by rewrite lookup_insert_ne.
Qed.

(** C23. Sketches over stores: however the rows of a table are divided among stores, when every
    store counts the hash values of its rows and the front end adds up their messages, the
    statistics loaded from the message of the front end have for every field with values the
    counters and the total of all the rows. *)
Theorem sketch_of_stores u0 samples total infos ls :
  Forall (Forall (fun p => is_u 64 p.2)) ls -> Z.of_nat (length (concat ls)) < 2 ^ 31 -> Z.of_nat (length ls) < 2 ^ 29 ->
  exists stores front st,
    mapM (fun l => fill l (new_sketch d w)) ls = Some stores
    /\ gather stores (new_sketch d w) = Some front
    /\ new_statistics u0 samples total infos (sketch_to_proto front) = Some st
    /\ forall f, hashes f (concat ls) <> [] ->
         exists c, field_cmsketch st !! f = Some c /\ cm_depth c = d /\ cm_width c = w
           /\ cm_array c = table d w (counted w (hashes f (concat ls)))
           /\ cm_total_cnt c = Z.of_nat (length (hashes f (concat ls))).
Proof.
  intros Hu Hl Hn.
  assert (exists stores, mapM (fun l => fill l (new_sketch d w)) ls = Some stores /\ Forall2 (holds_sketch d w) ls stores)
    as (stores & E1 & H1).
  { clear Hn. induction Hu as [|l ls Hlu _ IH]; [by exists []|]. cbn [concat] in Hl. rewrite length_app in Hl.
    destruct IH as (stores & E & Hs); [lia|]. destruct (fill_holds d w Hw l Hlu) as (s & Es & Hs1); [lia|].
    exists (s :: stores). cbn. rewrite Es. cbn. rewrite E. split; [done|by constructor]. }
  destruct (gather_holds d w Hw Hd ls stores [] (new_sketch d w) 0) as (front & E2 & H2); [done|done|lia|lia| |apply new_sketch_holds|].
  { intros f. unfold column_of. cbn. rewrite lookup_empty. cbn. lia. }
  cbn [app] in H2. pose proof H2 as (Ed & Ew & _).
  edestruct (init_holds (concat ls) (listed front)) as (st & E3 & Hin & _);
    [apply listed_fields|by apply listed_from_rows|done|].
  exists stores, front, st. split; [done|]. split; [done|]. split.
  { unfold new_statistics, sketch_to_proto. cbn [pb_depth pb_width cmcolumns]. rewrite Ed, Ew. exact E3. }
  intros f Hf. destruct (Hin f) as (c & Ec & (? & ? & _ & ?) & Ht).
  { destruct (decide (f ∈ (listed front).*1)) as [|Hg]; [done|]. by destruct Hf; apply (listed_hashes d w front). }
  by exists c.
Qed.

End Load.

(** ** Estimates *)

Section Estimate.
Context (w N : Z) (hs : list Z) (h : Z).
Context (Hw : 1 < w < 2 ^ 31) (HN : N = Z.of_nat (length hs)) (Hb : N < 2 ^ 30).

Definition cell (i : nat) : Z := counted w hs i (place w h i).
Definition noise (x : Z) : Z := Z.quot (N - x) (w - 1).
Definition without_noise (x : Z) : Z := if x <? noise x then 0 else x - noise x.

(** How often the hash value itself occurs. *)
Definition occurrences : Z := Z.of_nat (length (filter (fun h' => h' = h) hs)).

Lemma occurrences_cell i : 0 <= occurrences <= cell i.
Proof.
  unfold occurrences, cell, counted. split; [lia|]. apply inj_le. clear. induction hs as [|x l IH]; [done|].
  rewrite !filter_cons. destruct (decide (x = h)) as [->|]; [rewrite decide_True by done; cbn; lia|].
  destruct (decide _); cbn; lia.
Qed.

Lemma cell_bound i : 0 <= cell i <= N.
Proof. subst N. apply counted_bound. Qed.

Lemma noise_mono x y : 0 <= x <= y -> y <= N -> 0 <= noise y <= noise x.
Proof.
  intros Hx Hy. unfold noise. split; [apply Z.quot_pos; lia|]. apply Z.quot_le_mono; lia.
Qed.

Lemma without_noise_bounds x : occurrences <= x <= N ->
  0 <= without_noise x <= x /\ occurrences - noise occurrences <= without_noise x.
Proof.
  intros Hx. assert (0 <= occurrences) by (unfold occurrences; lia).
  pose proof (noise_mono occurrences x ltac:(lia) ltac:(lia)). unfold without_noise. destruct (Z.ltb_spec x (noise x)); lia.
Qed.

Lemma read_rows_spec i n m vals :
  read_rows w N (row_hash h i) (hash_delta h) m vals (rows_from w (counted w hs) i n)
  = Some (foldl Z.min m (cell <$> seq i n), vals ++ ((fun k => without_noise (cell k)) <$> seq i n)).
Proof.
  revert i m vals. induction n as [|n IH]; intros i m vals; [cbn; by rewrite app_nil_r|].
  rewrite rows_S. cbn [read_rows]. rewrite slot_place by lia. cbn [mbind option_bind].
  rewrite row_lookup by (apply place_range; lia). cbn [mbind option_bind].
  rewrite (proj2 (Z.eqb_neq w 1)), row_hash_step, IH by lia. fold (cell i). pose proof (cell_bound i).
  pose proof (occurrences_cell i). pose proof (noise_mono 0 (cell i) ltac:(lia) ltac:(lia)).
  rewrite (swrap_id 64) by (unfold is_i; lia). fold (noise (cell i)). cbn [seq fmap list_fmap foldl]. do 2 f_equal.
  - f_equal. destruct (Z.ltb_spec (cell i) m); lia.
  - rewrite <- app_assoc. cbn [app]. do 2 f_equal. unfold without_noise. destruct (Z.ltb_spec (cell i) (noise (cell i))); [done|].
    apply swrap_id; [lia|]. unfold is_i. lia.
Qed.

Lemma foldl_min m l : (forall x, x ∈ l -> foldl Z.min m l <= x) /\ (forall b, b <= m -> (forall x, x ∈ l -> b <= x) -> b <= foldl Z.min m l) /\ foldl Z.min m l <= m.
Proof.
  revert m. induction l as [|y l IH]; intros m; cbn.
  { split_and!; [intros x Hx; by apply not_elem_of_nil in Hx|done|lia]. }
  destruct (IH (Z.min m y)) as (H1 & H2 & H3). split_and!; [|intros b Hm Hx; apply H2; [|intros; apply Hx; by right]|lia].
  - intros x [->|Hx]%elem_of_cons; [lia|by apply H1].
  - specialize (Hx y ltac:(by left)). lia.
Qed.

Lemma least_cell n : (0 < n)%nat ->
  occurrences <= foldl Z.min (2 ^ 63 - 1) (cell <$> seq 0 n)
  /\ forall i, (i < n)%nat -> foldl Z.min (2 ^ 63 - 1) (cell <$> seq 0 n) <= cell i.
Proof.
  intros Hn. destruct (foldl_min (2 ^ 63 - 1) (cell <$> seq 0 n)) as (H1 & H2 & _). split.
  - pose proof (occurrences_cell 0). pose proof (cell_bound 0). apply H2; [lia|].
    intros x Hx. apply list_elem_of_fmap in Hx as (k & -> & _). apply occurrences_cell.
  - intros i Hi. apply H1, list_elem_of_fmap. exists i. split; [done|]. apply elem_of_seq. lia.
Qed.

(** The middle of a list of numbers between two bounds. *)
Lemma middle_bounds (d lo hi : Z) l :
  0 < d -> Z.of_nat (length l) = d -> 0 <= hi < 2 ^ 30 -> (forall x, x ∈ l -> 0 <= x <= hi /\ lo <= x) ->
  exists v, (if Z.rem d 2 =? 0 then a ← at_index l (Z.quot d 2); b ← at_index l (Z.quot d 2 - 1); Some (Z.quot (i32 (a + b)) 2)
             else at_index l (Z.quot d 2)) = Some v /\ 0 <= v <= hi /\ lo <= v.
Proof.
  intros Hd Hl Hh Hx. assert (Hat : forall i, 0 <= i < d -> exists v, at_index l i = Some v /\ 0 <= v <= hi /\ lo <= v).
  { intros i Hi. destruct (lookup_lt_is_Some_2 l (Z.to_nat i)) as [v Ev]; [lia|]. exists v. unfold at_index.
    rewrite (proj2 (Z.ltb_ge i 0)) by lia. split; [done|]. by apply Hx, (list_elem_of_lookup_2 _ _ _ Ev). }
  pose proof (Z.quot_rem' d 2). pose proof (Z.rem_bound_pos d 2 ltac:(lia) ltac:(lia)).
  destruct (Z.eqb_spec (Z.rem d 2) 0).
  - destruct (Hat (Z.quot d 2)) as (a & -> & Ha); [lia|]. destruct (Hat (Z.quot d 2 - 1)) as (b & Eb & Hb2); [lia|].
    cbn [mbind option_bind]. rewrite Eb. cbn [mbind option_bind]. eexists. split; [done|].
    rewrite swrap_id by (unfold is_i; lia). rewrite Z.quot_div_nonneg by lia. Z.div_mod_to_equations. lia.
  - apply Hat. lia.
Qed.

(** C33. The estimate for a hash value exists, is at most each of its counters, and at least
    the number of its occurrences less the noise expected from the other values; with fewer
    others than the width less one it is never too small. *)
Theorem estimate_bounds d c :
  0 < d -> is_u 64 h -> cm_depth c = d -> cm_width c = w -> cm_total_cnt c = N -> cm_array c = table d w (counted w hs) ->
  exists e, column_get_value c h = Some e /\ 0 <= e
    /\ occurrences - Z.quot (N - occurrences) (w - 1) <= e
    /\ forall i, (i < Z.to_nat d)%nat -> e <= counted w hs i (place w h i).
Proof.
  intros Hd Hh Ed Ew Et Ea. unfold column_get_value. rewrite Ed, Ew, Et, Ea.
  pose proof (read_rows_spec 0 (Z.to_nat d) (2 ^ 63 - 1) []) as E. rewrite (row_hash_start h Hh) in E. unfold table. rewrite E.
  cbn [mbind option_bind app]. set (vals := (fun k => without_noise (cell k)) <$> seq 0 (Z.to_nat d)).
  destruct (middle_bounds d (occurrences - noise occurrences) N (sorting.merge_sort Z.le vals)) as (v & Ev & Hv1 & Hv2); [done| | | |].
  { rewrite sorting.merge_sort_Permutation. unfold vals. rewrite length_fmap, length_seq. lia. }
  { pose proof (cell_bound 0). lia. }
  { intros x Hx. rewrite sorting.merge_sort_Permutation in Hx. apply list_elem_of_fmap in Hx as (k & -> & _).
    pose proof (cell_bound k). pose proof (occurrences_cell k).
    destruct (without_noise_bounds (cell k)); [lia|]. lia. }
  rewrite Ev. cbn [mbind option_bind]. eexists. split; [reflexivity|].
  destruct (least_cell (Z.to_nat d)) as [Hm1 Hm2]; [lia|]. set (m := foldl Z.min _ _) in *.
  pose proof (occurrences_cell 0). pose proof (cell_bound 0). specialize (Hm2 0%nat ltac:(lia)) as Hm0.
  pose proof (noise_mono occurrences (cell 0) ltac:(lia) ltac:(lia)). fold (noise occurrences).
  rewrite (proj2 (Z.ltb_ge v 0)) by lia.
  rewrite swrap_id; [|lia|unfold is_i; destruct (Z.ltb_spec m v); lia].
  destruct (Z.ltb_spec m v); (split_and!; [lia..|]); intros i Hi; specialize (Hm2 i Hi); unfold cell in *; lia.
Qed.

End Estimate.

(** ** Instances *)

#[local] Instance machine : Host := le_host.
#[local] Instance bitmaps : RoaringLib := no_bitmaps.

(** Two stores with rows of two fields. *)
Definition two_stores : list (list (Z * Z)) := [[(1, 7); (1, 9)]; [(1, 7); (2, 2 ^ 64 - 1)]].

Lemma sketch_of_stores_witness :
  exists stores front st,
    mapM (fun l => fill l (new_sketch 3 5)) two_stores = Some stores
    /\ gather stores (new_sketch 3 5) = Some front
    /\ new_statistics [] 0 0 [] (sketch_to_proto front) = Some st
    /\ exists c, field_cmsketch st !! 1 = Some c /\ cm_array c = table 3 5 (counted 5 [7; 9; 7]) /\ cm_total_cnt c = 3.
Proof.
  destruct (sketch_of_stores 3 5 ltac:(lia) ltac:(lia) [] 0 0 [] two_stores) as (stores & front & st & E1 & E2 & E3 & Hf);
    [repeat constructor; unfold is_u; cbn; lia|cbn; lia|cbn; lia|].
  exists stores, front, st. split_and!; [done..|]. destruct (Hf 1 ltac:(done)) as (c & Ec & _ & _ & Ea & Et). by exists c.
Defined.

(** 7 occurs twice among three values. *)
Lemma estimate_bounds_witness :
  exists e, column_get_value (mk_column 3 5 1 3 (table 3 5 (counted 5 [7; 9; 7]))) 7 = Some e /\ 2 <= e
    /\ e <= counted 5 [7; 9; 7] 0 (place 5 7 0).
Proof.
  destruct (estimate_bounds 5 3 [7; 9; 7] 7 ltac:(lia) eq_refl ltac:(lia) 3 (mk_column 3 5 1 3 (table 3 5 (counted 5 [7; 9; 7]))))
    as (e & E & _ & Hlo & Hhi); [lia|unfold is_u; lia|done..|].
  exists e. split; [done|]. split; [exact Hlo|]. apply (Hhi 0%nat). cbn. lia.
Defined.

(** ** Departures *)

(** The total of a column that takes the messages of two stores counts the rows of the first one
    twice. *)
Example total_counted_again :
  (stores ← mapM (fun l => fill l (new_sketch 3 5)) [[(1, 7)]; [(1, 9)]];
   front ← gather stores (new_sketch 3 5); Some (cm_total_cnt (column_of 1 front))) = Some 3.
Proof. vm_compute. reflexivity. Qed.

(** A counter of 2^31 is sent as a negative one. *)
Example counter_truncated :
  cmitems (column_to_proto (mk_column 1 2 1 0 [[2 ^ 31; 0]])) = [mk_item 0 0 (- 2 ^ 31)].
Proof. vm_compute. reflexivity. Qed.

(** With an even depth the sum of the two middle values overflows: a value in all 2^30 rows is
    estimated as 0. *)
Example middle_overflows :
  column_get_value (mk_column 2 3 1 (2 ^ 30) [[2 ^ 30; 0; 0]; [2 ^ 30; 0; 0]]) 0 = Some 0.
Proof. vm_compute. reflexivity. Qed.

(** A width of one divides by zero. *)
Example width_one : column_get_value (new_column 1 1 1) 0 = None.
Proof. reflexivity. Qed.
