(* ===== verification/HistogramFacts.v ===== *)
(** * What histograms hold

    The buckets of a sorted sample describe its values; a histogram loaded from their message
    counts them. *)

From stdpp Require Import gmap sorting.
From S2P Require Import Prelude KeyEncoder Stdio FloatArith FloatText Calendar DateTime ExprValue ExprValueFacts Heap Sorter SorterFacts Statistics.

#[global] Instance sem_eq_dec : EqDecision sem.
Proof. solve_decision. Defined.
#[global] Instance sem_countable : Countable sem.
Proof.
  refine (inj_countable' (fun a => match a with SemInt z => inl z | SemStr s => inr s end)
                         (fun x => match x with inl z => SemInt z | inr s => SemStr s end) _).
  by intros [].
Defined.

Section Columns.
Context `{Host, RoaringLib} (t : PrimitiveType).
Implicit Types (v x y : ExprValue) (vs : list ExprValue).

(** Values of one ordered type, and what they denote. *)
Definition in_column v : Prop := type v = t /\ is_Some (denote v).
Definition sem_of v : sem := default (SemInt 0) (denote v).

Lemma compare_sem x y : in_column x -> in_column y -> int_cmp (compare x y) = sem_compare (sem_of x) (sem_of y).
Proof.
  intros [Tx [a Ea]] [Ty [b Eb]]. rewrite (compare_denotes x y a b) by congruence. unfold sem_of. by rewrite Ea, Eb.
Qed.

Lemma compare_lt x y : in_column x -> in_column y -> compare x y < 0 <-> sem_compare (sem_of x) (sem_of y) = Lt.
Proof. intros. by rewrite <- compare_sem, <- Z.compare_lt_iff. Qed.

Lemma compare_eq x y : in_column x -> in_column y -> compare x y = 0 <-> sem_of x = sem_of y.
Proof. intros. by rewrite <- int_cmp_eq, compare_sem, sem_compare_eq. Qed.

Lemma compare_flip x y : in_column x -> in_column y -> Z.sgn (compare y x) = - Z.sgn (compare x y).
Proof. intros. apply int_cmp_sgn. rewrite !compare_sem by done. apply sem_compare_antisym. Qed.

Lemma compare_trans x y v : in_column x -> in_column y -> in_column v ->
  (compare x y <= 0 -> compare y v <= 0 -> compare x v <= 0)
  /\ (compare x y < 0 -> compare y v <= 0 -> compare x v < 0)
  /\ (compare x y <= 0 -> compare y v < 0 -> compare x v < 0).
Proof.
  intros Hx Hy Hv. assert (Hle : forall a b c, in_column a -> in_column b -> in_column c ->
    compare a b <= 0 -> compare b c <= 0 -> compare a c <= 0).
  { intros a b c Ha Hb Hc. rewrite !int_cmp_le, !compare_sem by done. apply sem_compare_le_trans. }
  pose proof (compare_flip x y Hx Hy). pose proof (compare_flip y v Hy Hv). pose proof (compare_flip x v Hx Hv).
  pose proof (Hle x y v Hx Hy Hv). pose proof (Hle y v x Hy Hv Hx). pose proof (Hle v x y Hv Hx Hy). lia.
Qed.

Lemma column_not_null v : in_column v -> is_null v = false.
Proof. intros [_ [a Ea]]. unfold is_null, type_eqb, denote in *. by destruct (type v). Qed.

(** The values that a bucket stands for, and how many different ones. *)
Definition within (b : BucketInfo) v : Prop := compare (start b) v <= 0 /\ compare v (end_ b) <= 0.
#[global] Instance within_dec b v : Decision (within b v).
Proof. unfold within. apply _. Defined.

Definition distinct vs : Z := Z.of_nat (base.size (list_to_set (sem_of <$> vs) : gset sem)).

(** Buckets that describe a list of values: one after the other, each with the number of values
    and of different values between its ends, and together all values. *)
Definition bucket_ok vs (b : BucketInfo) : Prop :=
  start b ∈ vs /\ end_ b ∈ vs /\ compare (start b) (end_ b) <= 0
  /\ bucket_size b = Z.of_nat (length (filter (within b) vs)) /\ distinct_cnt b = distinct (filter (within b) vs).

Definition describes (B : list BucketInfo) vs : Prop :=
  StronglySorted (fun b b' => compare (end_ b) (start b') < 0) B
  /\ Forall (bucket_ok vs) B
  /\ forall v, v ∈ vs -> exists b, b ∈ B /\ within b v.

Lemma distinct_same r a : r <> [] -> Forall (fun x => sem_of x = a) r -> (list_to_set (sem_of <$> r) : gset sem) = {[ a ]}.
Proof.
  intros Hr Ha. apply set_eq. intros s. rewrite elem_of_list_to_set, list_elem_of_fmap, elem_of_singleton. split.
  - intros (x & -> & Hx). by apply (proj1 (Forall_forall _ _) Ha).
  - intros ->. destruct r as [|x r]; [done|]. exists x. split; [|by left]. apply Forall_cons in Ha as [? _]. done.
Qed.

Lemma distinct_snoc vs r a :
  r <> [] -> Forall (fun x => sem_of x = a) r -> (forall x, x ∈ vs -> sem_of x <> a) -> distinct (vs ++ r) = distinct vs + 1.
Proof.
  intros Hr Ha Hn. unfold distinct. rewrite fmap_app, list_to_set_app_L, (distinct_same r a) by done.
  rewrite size_union, size_singleton; [lia|]. intros s Hs ->%elem_of_singleton.
  apply elem_of_list_to_set, list_elem_of_fmap in Hs as (x & E & Hx). by apply (Hn x Hx).
Qed.

Lemma distinct_one r a : r <> [] -> Forall (fun x => sem_of x = a) r -> distinct r = 1.
Proof. intros. by rewrite <- (app_nil_l r), (distinct_snoc [] r a) by (done || intros x Hx; by apply not_elem_of_nil in Hx). Qed.

Lemma distinct_bounds vs : 0 <= distinct vs <= Z.of_nat (length vs) /\ (vs <> [] -> 1 <= distinct vs).
Proof.
  unfold distinct. rewrite <- (length_fmap sem_of vs). split.
  - split; [lia|]. apply inj_le. generalize (sem_of <$> vs). clear. intros l.
    induction l as [|x l IH]; [by rewrite list_to_set_nil, size_empty|]. rewrite list_to_set_cons. cbn [length].
    destruct (decide (x ∈ (list_to_set l : gset sem))) as [Hx|Hx].
    + rewrite (subseteq_union_1_L {[ x ]} (list_to_set l)) by set_solver. lia.
    + rewrite size_union, size_singleton by set_solver. lia.
  - destruct vs as [|v vs]; [done|]. intros _. rewrite fmap_cons, list_to_set_cons.
    assert (base.size ({[ sem_of v ]} ∪ (list_to_set (sem_of <$> vs) : gset sem)) <> 0%nat); [|lia].
    intros E%size_empty_inv. set_solver.
Qed.

(** ** Adding a value *)

Lemma filter_all vs b : (forall v, v ∈ vs -> within b v) -> filter (within b) vs = vs.
Proof.
  induction vs as [|x vs IH]; intros Hv; [done|]. rewrite filter_cons, decide_True by (apply Hv; by left).
  f_equal. apply IH. intros. apply Hv. by right.
Qed.

Lemma filter_none vs b : (forall v, v ∈ vs -> ~ within b v) -> filter (within b) vs = [].
Proof.
  induction vs as [|x vs IH]; intros Hv; [done|]. rewrite filter_cons, decide_False by (apply Hv; by left).
  apply IH. intros. apply Hv. by right.
Qed.

Lemma filter_same vs b b' : (forall v, v ∈ vs -> within b v <-> within b' v) -> filter (within b) vs = filter (within b') vs.
Proof.
  induction vs as [|x vs IH]; intros Hv; [done|]. rewrite !filter_cons, IH by (intros; apply Hv; by right).
  specialize (Hv x ltac:(by left)). destruct (decide (within b x)), (decide (within b' x)); tauto.
Qed.

(** A run of equal values behind all others. *)
Section Run.
Context (vs r : list ExprValue) (value : ExprValue).
Context (Hvs : Forall in_column vs) (Hr : Forall in_column r) (Hv : value ∈ r).
Context (Heq : Forall (fun x => sem_of x = sem_of value) r) (Hlt : Forall (fun x => compare x value < 0) vs).

Lemma run_column : in_column value.
Proof. by apply (proj1 (Forall_forall _ _) Hr). Qed.

Lemma run_not_nil : r <> [].
Proof. intros ->. by apply not_elem_of_nil in Hv. Qed.

Lemma run_equal x : x ∈ r -> in_column x /\ compare x value = 0 /\ compare value x = 0.
Proof.
  intros Hx. pose proof (proj1 (Forall_forall _ _) Hr x Hx) as Hc. pose proof run_column.
  pose proof (proj1 (Forall_forall _ _) Heq x Hx). split; [done|]. by rewrite !compare_eq.
Qed.

Lemma run_behind x y : x ∈ vs -> y ∈ r -> in_column x /\ compare x y < 0 /\ 0 < compare y x.
Proof.
  intros Hx Hy. pose proof (proj1 (Forall_forall _ _) Hvs x Hx) as Hc. pose proof (proj1 (Forall_forall _ _) Hlt x Hx) as Hl. cbn in Hl.
  destruct (run_equal y Hy) as (Hcy & _ & E). pose proof run_column as Hcv.
  destruct (compare_trans x value y Hc Hcv Hcy) as (_ & T & _). pose proof (compare_flip x y Hc Hcy). split; [done|]. lia.
Qed.

Lemma run_distinct vs' : (forall x, x ∈ vs' -> x ∈ vs) -> distinct (vs' ++ r) = distinct vs' + 1.
Proof.
  intros Hs. apply (distinct_snoc vs' r (sem_of value)); [apply run_not_nil|done|]. intros x Hx E.
  destruct (run_behind x value (Hs x Hx) Hv) as (Hc & Hl & _). pose proof run_column.
  apply compare_lt in Hl; [|done..]. rewrite E in Hl. pose proof (proj2 (sem_compare_eq (sem_of value) (sem_of value)) eq_refl). congruence.
Qed.

Lemma old_bucket b : bucket_ok vs b -> bucket_ok (vs ++ r) b /\ forall y, y ∈ r -> ~ within b y.
Proof.
  intros (Hs & He & Hse & Hsz & Hd). assert (Hno : forall y, y ∈ r -> ~ within b y).
  { intros y Hy [_ Hw]. destruct (run_behind _ _ He Hy) as (_ & _ & ?). lia. }
  split; [|done]. unfold bucket_ok. rewrite filter_app, (filter_none r b Hno), app_nil_r. set_solver.
Qed.

Lemma describes_new B : describes B vs -> describes (B ++ [put_bucket (Z.of_nat (length r)) value]) (vs ++ r).
Proof.
  intros (Hs & Hok & Hall). pose proof run_column as Hcv. destruct (run_equal value Hv) as (_ & E & _).
  assert (Hin : forall y, y ∈ r -> within (put_bucket (Z.of_nat (length r)) value) y).
  { intros y Hy. destruct (run_equal y Hy) as (_ & ? & ?). unfold within. cbn. lia. }
  assert (Hout : forall x, x ∈ vs -> ~ within (put_bucket (Z.of_nat (length r)) value) x).
  { intros x Hx [Hw _]. cbn in Hw. destruct (run_behind x value Hx Hv) as (_ & _ & ?). lia. }
  split_and!.
  - apply StronglySorted_app_2; [|done|by repeat constructor]. intros b b' Hb ->%list_elem_of_singleton. cbn.
    destruct (proj1 (Forall_forall _ _) Hok b Hb) as (_ & He & _). by apply run_behind.
  - apply Forall_app. split; [eapply Forall_impl; [exact Hok|]; intros b Hb; by apply old_bucket|].
    apply Forall_singleton. unfold bucket_ok. rewrite filter_app, (filter_none vs _ Hout), (filter_all r _ Hin). cbn [app put_bucket start end_ bucket_size distinct_cnt].
    split_and!; [set_solver|set_solver|lia|done|]. by rewrite (distinct_one r (sem_of value)) by (done || apply run_not_nil).
  - intros x [Hx|Hx]%elem_of_app.
    + destruct (Hall x Hx) as (b & Hb & Hw). exists b. split; [set_solver|done].
    + eexists. split; [apply elem_of_app; right; by apply list_elem_of_singleton|by apply Hin].
Qed.

Lemma describes_extend B back :
  describes (B ++ [back]) vs ->
  describes (B ++ [mk_bucket (distinct_cnt back + 1) (bucket_size back + Z.of_nat (length r)) (start back) value]) (vs ++ r).
Proof.
  set (b2 := mk_bucket _ _ _ _). intros (Hs & Hok & Hall). apply StronglySorted_app in Hs as (Hcross & Hs & _).
  apply Forall_app in Hok as [Hok Hback]. apply Forall_cons in Hback as [(Hst & Hen & Hse & Hsz & Hd) _].
  assert (Hcol : forall x, x ∈ vs -> in_column x) by (by apply Forall_forall).
  assert (Hin : forall y, y ∈ r -> within b2 y).
  { intros y Hy. destruct (run_behind _ y Hst Hy) as (_ & ? & _). destruct (run_equal y Hy) as (_ & ? & _). split; cbn; lia. }
  assert (Hsame : forall x, x ∈ vs -> within b2 x <-> within back x).
  { intros x Hx. destruct (run_behind x value Hx Hv) as (_ & Hxv & _). split; intros [H1 H2]; [|by split; cbn in *; [|lia]].
    destruct (Hall x Hx) as (b & [Hb|Hb]%elem_of_app & Hw); [|by apply list_elem_of_singleton in Hb as ->].
    destruct (proj1 (Forall_forall _ _) Hok b Hb) as (_ & He & _). destruct Hw as [_ Hw].
    specialize (Hcross b back Hb ltac:(by apply list_elem_of_singleton)). cbn in H1, Hcross.
    destruct (compare_trans x (end_ b) (start back)) as (_ & _ & T); [by apply Hcol..|].
    pose proof (compare_flip x (start back) (Hcol _ Hx) (Hcol _ Hst)). lia. }
  split_and!.
  - apply StronglySorted_app_2; [|done|by repeat constructor]. intros b b' Hb ->%list_elem_of_singleton. cbn.
    by apply Hcross, list_elem_of_singleton.
  - apply Forall_app. split; [eapply Forall_impl; [exact Hok|]; intros b Hb; by apply old_bucket|]. apply Forall_singleton.
    unfold bucket_ok. rewrite filter_app, (filter_all r _ Hin), (filter_same vs b2 back Hsame). cbn [b2 start end_ bucket_size distinct_cnt].
    destruct (run_behind _ value Hst Hv) as (_ & ? & _). split_and!; [set_solver|set_solver|lia|rewrite length_app; lia|].
    rewrite run_distinct; [lia|]. intros x [_ Hx]%list_elem_of_filter. done.
  - intros x [Hx|Hx]%elem_of_app.
    + destruct (Hall x Hx) as (b & [Hb|Hb]%elem_of_app & Hw); [exists b; split; [set_solver|done]|].
      apply list_elem_of_singleton in Hb as ->. exists b2. split; [set_solver|by apply Hsame].
    + exists b2. split; [set_solver|by apply Hin].
Qed.

(** ** The sample *)

Lemma bucket_count B b : b ∈ B -> describes B vs -> 0 <= bucket_size b <= Z.of_nat (length vs) /\ 0 <= distinct_cnt b <= Z.of_nat (length vs).
Proof.
  intros Hb (_ & Hok & _). destruct (proj1 (Forall_forall _ _) Hok b Hb) as (_ & _ & _ & -> & ->).
  pose proof (length_filter (within b) vs). destruct (distinct_bounds (filter (within b) vs)) as [? _]. lia.
Qed.

Lemma insert_distinct_describes pct s :
  describes (bucket_infos s) vs -> distinct_cnt_total s = distinct vs -> Z.of_nat (length (vs ++ r)) < 2 ^ 31 ->
  let s' := insert_distinct_value pct value (Z.of_nat (length r)) s in
  describes (bucket_infos s') (vs ++ r) /\ distinct_cnt_total s' = distinct (vs ++ r)
  /\ null_value_cnt s' = null_value_cnt s.
Proof.
  intros HB Hd Hl. rewrite length_app in Hl. split_and!; [|cbn|done].
  - unfold insert_distinct_value. cbn [bucket_infos]. destruct (last (bucket_infos s)) as [back|] eqn:El.
    + apply last_Some in El as [B EB]. rewrite EB in *. destruct (_ || _ || _); [by apply describes_new|].
      destruct (bucket_count (B ++ [back]) back) as [Hsz Hdc]; [set_solver|done|].
      assert (0 < length r)%nat by (pose proof run_not_nil; destruct r; [done|cbn; lia]).
      rewrite length_app, Nat.add_sub, take_app_length, !swrap_id by (lia || unfold is_i; lia). by apply describes_extend.
    + apply last_None in El. rewrite El in *. by apply (describes_new []).
  - destruct (distinct_bounds vs) as [? _]. assert (0 < length r)%nat by (pose proof run_not_nil; destruct r; [done|cbn; lia]).
    rewrite Hd, run_distinct by done. apply swrap_id; [lia|]. unfold is_i. lia.
Qed.

End Run.
(** A sample after some values, in order, and nulls: the values of finished buckets, and the run
    of the current value. *)
Definition sample_inv vs (nulls : nat) (s : Sample) : Prop :=
  null_value_cnt s = Z.of_nat nulls
  /\ (vs = [] /\ cur_value_cnt s = 0 /\ bucket_infos s = [] /\ distinct_cnt_total s = 0
      \/ exists ds r, vs = ds ++ r /\ cur_value s ∈ r /\ Forall (fun x => sem_of x = sem_of (cur_value s)) r
           /\ Forall (fun x => compare x (cur_value s) < 0) ds /\ cur_value_cnt s = Z.of_nat (length r)
           /\ describes (bucket_infos s) ds /\ distinct_cnt_total s = distinct ds).

Lemma describes_nil : describes [] [].
Proof. split_and!; [constructor|constructor|]. intros v Hv. by apply not_elem_of_nil in Hv. Qed.

Lemma insert_row_value pct vs n s v :
  Forall in_column (vs ++ [v]) -> Forall (fun x => compare x v <= 0) vs -> Z.of_nat (length (vs ++ [v])) < 2 ^ 31 ->
  sample_inv vs n s -> sample_inv (vs ++ [v]) n (insert_row pct v s).
Proof.
  intros Hc Hle Hl [Hn Hs]. apply Forall_app in Hc as [Hc Hv]. apply Forall_cons in Hv as [Hv _]. rewrite length_app in Hl. cbn in Hl.
  unfold insert_row. rewrite (column_not_null v Hv).
  destruct Hs as [(-> & E0 & EB & Ed)|(ds & r & -> & Hcur & Heq & Hlt & Ecnt & HB & Ed)].
  { rewrite E0. split; [done|]. right. exists [], [v]. cbn. rewrite EB, Ed.
    split_and!; [done|by left|by constructor|done|done|apply describes_nil|done]. }
  apply Forall_app in Hc as [Hds Hr]. pose proof (run_column r (cur_value s) Hr Hcur) as Hcc. rewrite length_app in Hl.
  assert (0 < length r)%nat by (destruct r; [by apply not_elem_of_nil in Hcur|cbn; lia]).
  rewrite (proj2 (Z.eqb_neq _ 0)) by lia.
  assert (Hcv : compare (cur_value s) v <= 0) by (apply (proj1 (Forall_forall _ _) Hle), elem_of_app; by right).
  destruct (Z.eqb_spec (compare (cur_value s) v) 0) as [Ev|Ev].
  - split; [done|]. right. exists ds, (r ++ [v]). cbn [set_current cur_value cur_value_cnt bucket_infos distinct_cnt_total].
    apply compare_eq in Ev; [|done..]. split_and!; [by rewrite app_assoc|set_solver| |done| |done|done].
    + apply Forall_app. by split; [|repeat constructor].
    + rewrite Ecnt, length_app, swrap_id by (lia || unfold is_i; lia). cbn. lia.
  - rewrite (proj2 (Z.ltb_ge 0 _)) by lia. rewrite Ecnt.
    destruct (insert_distinct_describes ds r (cur_value s) Hds Hr Hcur Heq Hlt pct s HB Ed) as (HB' & Ed' & En');
      [rewrite length_app; lia|].
    split; [by rewrite <- Hn, <- En'|]. right. exists (ds ++ r), [v].
    cbn [set_current cur_value cur_value_cnt bucket_infos distinct_cnt_total]. split_and!; [done|by left|by constructor| |done|done|done].
    apply Forall_app. split; apply Forall_forall; intros x Hx.
    + pose proof (proj1 (Forall_forall _ _) Hlt x Hx) as Hx'. cbn in Hx'.
      destruct (compare_trans x (cur_value s) v) as (_ & T & _); [by apply (proj1 (Forall_forall _ _) Hds)|done|done|]. lia.
    + destruct (run_equal r (cur_value s) Hr Hcur Heq x Hx) as (Hcx & E & _).
      destruct (compare_trans x (cur_value s) v) as (_ & _ & T); [done..|]. lia.
Qed.

Lemma insert_row_null pct vs n s v :
  is_null v = true -> Z.of_nat n + 1 < 2 ^ 31 -> sample_inv vs n s -> sample_inv vs (S n) (insert_row pct v s).
Proof.
  intros Hv Hb [Hn Hs]. unfold insert_row. rewrite Hv. split; [|exact Hs]. cbn. rewrite Hn, swrap_id by (lia || unfold is_i; lia). lia.
Qed.

(** The values of the rows, without nulls. *)
Definition values (l : list ExprValue) : list ExprValue := filter (fun v => is_null v = false) l.
Definition nulls (l : list ExprValue) : nat := length (filter (fun v => is_null v = true) l).

Lemma sample_values pct size l :
  Forall (fun v => is_null v = true \/ in_column v) l -> StronglySorted (fun x y => compare x y <= 0) (values l) ->
  Z.of_nat (length l) < 2 ^ 31 ->
  sample_inv (values l) (nulls l) (foldl (fun s v => insert_row pct v s) (mk_sample (new_ExprValue NULL_TYPE) 0 [] 0 0 size) l).
Proof.
  induction l as [|v l IH] using rev_ind; intros Hc Hs Hl.
  { split; [done|]. by left. }
  apply Forall_app in Hc as [Hc Hv]. apply Forall_cons in Hv as [Hv _]. rewrite length_app in Hl. cbn in Hl.
  rewrite foldl_app. cbn [foldl]. unfold values, nulls in *. rewrite !filter_app, !filter_cons, !filter_nil in *.
  pose proof (length_filter (fun v => is_null v = true) l). pose proof (length_filter (fun v => is_null v = false) l).
  destruct (is_null v) eqn:Ev.
  - rewrite decide_False, app_nil_r in * by done. rewrite decide_True, length_app, Nat.add_1_r by done.
    apply insert_row_null; [done|lia|]. apply IH; [done|done|lia].
  - rewrite decide_True in * by done. rewrite decide_False, app_nil_r by done. destruct Hv as [|Hv]; [congruence|].
    apply StronglySorted_app in Hs as (Hcross & Hs & _). apply insert_row_value; [| |rewrite length_app; cbn; lia|apply IH; [done|done|lia]].
    + apply Forall_app. split; [|by apply Forall_singleton]. apply Forall_forall. intros x [Hn Hx]%list_elem_of_filter.
      destruct (proj1 (Forall_forall _ _) Hc x Hx); [congruence|done].
    + apply Forall_forall. intros x Hx. by apply Hcross, list_elem_of_singleton.
Qed.

Lemma insert_done_describes pct vs n s :
  Forall in_column vs -> Z.of_nat (length vs) < 2 ^ 31 -> sample_inv vs n s ->
  let s' := insert_done pct s in
  describes (bucket_infos s') vs /\ distinct_cnt_total s' = distinct vs /\ null_value_cnt s' = Z.of_nat n.
Proof.
  intros Hc Hl [Hn [(-> & E0 & EB & Ed)|(ds & r & -> & Hcur & Heq & Hlt & Ecnt & HB & Ed)]]; unfold insert_done; cbn zeta.
  { rewrite E0. cbn. rewrite EB, Ed. split_and!; [apply describes_nil|done|done]. }
  apply Forall_app in Hc as [Hds Hr]. assert (0 < length r)%nat by (destruct r; [by apply not_elem_of_nil in Hcur|cbn; lia]).
  rewrite (proj2 (Z.eqb_neq _ 0)) by lia. rewrite Ecnt.
  destruct (insert_distinct_describes ds r (cur_value s) Hds Hr Hcur Heq Hlt pct s HB Ed Hl) as (HB' & Ed' & En').
  split_and!; [done|done|]. by rewrite <- Hn, <- En'.
Qed.

End Columns.

(** ** Packing a sample *)

Section Pack.
Context `{Host, RoaringLib} (t : PrimitiveType).

#[global] Instance distinct_perm : Proper ((≡ₚ) ==> (=)) distinct.
Proof. intros l l' E. unfold distinct. do 2 f_equal. by rewrite E. Qed.

Lemma describes_perm B vs vs' : vs ≡ₚ vs' -> describes B vs -> describes B vs'.
Proof.
  intros E (Hs & Hok & Hall). split_and!; [done| |].
  - eapply Forall_impl; [exact Hok|]. intros b (H1 & H2 & H3 & H4 & H5). unfold bucket_ok.
    rewrite <- !E. split_and!; [done..| |]; [by rewrite H4, E|by rewrite H5, E].
  - intros v. rewrite <- E. apply Hall.
Qed.

Context {Row : Type} `{StdSortLaws} (cap : nat) (Hcap : 0 < Z.of_nat cap < 2 ^ 31).
Context (expr : Row -> ExprValue) (Hexpr : forall row, is_null (expr row) = true \/ in_column t (expr row)).
Implicit Types (l : list Row) (bs : list (RowBatch Row)).

Abbreviation comp := (row_compare (sample_order expr)).

#[local] Instance sample_comp_order : CompOrder comp.
Proof.
  apply row_compare_order, Forall_singleton. exists t. intros row. cbn. destruct (Hexpr row) as [?|Hc]; [by left|right].
  pose proof (column_not_null t _ Hc). by destruct Hc.
Qed.

Lemma sorted_values l : StronglySorted (before comp) l -> StronglySorted (fun x y => compare x y <= 0) (values (expr <$> l)).
Proof.
  unfold values. induction 1 as [|a l Hs IH Ha]; [constructor|]. rewrite fmap_cons, filter_cons.
  destruct (decide (is_null (expr a) = false)) as [Na|]; [|done]. constructor; [done|]. apply Forall_forall.
  intros y [Ny Hy]%list_elem_of_filter. apply list_elem_of_fmap in Hy as (b & -> & Hb).
  apply (proj1 (Forall_forall _ _) Ha) in Hb. unfold before, less in Hb. apply Z.ltb_ge in Hb. cbn in Hb. rewrite Na, Ny in Hb. cbn in Hb.
  destruct (Hexpr a) as [?|Ca]; [congruence|]. destruct (Hexpr b) as [?|Cb]; [congruence|].
  pose proof (compare_flip t (expr a) (expr b) Ca Cb). destruct (Z.eqb_spec (compare (expr b) (expr a)) 0); cbn in Hb; lia.
Qed.

Lemma loop_delivers pct srt l s bs fuel :
  delivers comp false cap (Full srt) l -> (length l < fuel)%nat -> Forall (fun b => rows b <> []) bs ->
  exists bs', sample_loop pct cap fuel expr srt s bs = Some (foldl (fun s v => insert_row pct v s) s (expr <$> l), bs')
    /\ mjoin (rows <$> bs') = mjoin (rows <$> bs) ++ l /\ Forall (fun b => rows b <> []) bs'.
Proof.
  intros D. remember (Full srt) as a eqn:Ea. revert srt s bs fuel Ea.
  assert (Hget : forall srt a' b eos, any_get_next comp false (Full srt) (fresh cap) = Some (a', b, eos) ->
    exists srt', a' = Full srt' /\ sorter_get_next comp false srt (mk_batch [] 0 cap) = Some (srt', b, eos)).
  { intros srt a' b eos E. cbn in E. unfold fresh in E. destruct (sorter_get_next _ _ _ _) as [[[srt' b'] eos']|]; [|done].
    cbn in E. simplify_eq. by eexists. }
  assert (Hfold : forall s (r : list Row), foldl (fun s x => insert_row pct (expr x) s) s r = foldl (fun s v => insert_row pct v s) s (expr <$> r)).
  { intros s r. revert s. induction r as [|x r IH]; intros s; [done|]. cbn. apply IH. }
  assert (Hput : forall (b : RowBatch Row) bs, Forall (fun b => rows b <> []) bs ->
    let bs' := if (0 <? length (rows b))%nat then bs ++ [reset b] else bs in
    mjoin (rows <$> bs') = mjoin (rows <$> bs) ++ rows b /\ Forall (fun b => rows b <> []) bs').
  { intros b bs Hb. cbn zeta. destruct (rows b) as [|x r] eqn:Er; cbn [length Nat.ltb Nat.leb].
    - by rewrite app_nil_r.
    - rewrite fmap_app, join_app. cbn. rewrite Er, app_nil_r. split; [done|]. apply Forall_app. split; [done|].
      apply Forall_singleton. cbn. by rewrite Er. }
  induction D as [a a' b E _|a a' b l E _ Hne D IH]; intros srt s bs fuel -> Hf Hb;
    (destruct fuel as [|fuel]; [lia|]); cbn [sample_loop];
    destruct (Hget _ _ _ _ E) as (srt' & -> & ->); cbn [mbind option_bind]; destruct (Hput b bs Hb) as [Ej Hb'].
  - eexists. rewrite Hfold. split; [done|]. done.
  - assert (length l < fuel)%nat as Hf' by (rewrite length_app in Hf; destruct (rows b); [done|cbn in Hf; lia]).
    destruct (IH srt' (foldl (fun s v => insert_row pct v s) s (expr <$> rows b)) _ fuel eq_refl Hf' Hb') as (bs' & E' & Ej' & Hb2).
    rewrite Hfold, E'. exists bs'. rewrite fmap_app, foldl_app. split; [done|]. by rewrite Ej', Ej, <- app_assoc.
Qed.

Lemma add_batches bs h i : foldl (fun srt b => add_batch b srt) (mk_sorter h i) bs = mk_sorter (h ++ (reset <$> bs)) i.
Proof.
  revert h. induction bs as [|b bs IH]; intros h; [cbn; by rewrite app_nil_r|]. cbn [foldl].
  etrans; [apply (IH (h ++ [reset b]))|]. by rewrite <- app_assoc.
Qed.

Lemma sample_describes count pct bs :
  count <> 0 -> Forall (fun b => rows b <> []) bs -> Z.of_nat (length (mjoin (rows <$> bs))) < 2 ^ 31 ->
  exists info bs' B, sample_column count pct cap expr bs = Some (info, bs')
    /\ info_buckets info = bucket_to_proto <$> B
    /\ describes B (values (expr <$> mjoin (rows <$> bs)))
    /\ info_distinct_cnt info = distinct (values (expr <$> mjoin (rows <$> bs)))
    /\ info_null_value_cnt info = Z.of_nat (nulls (expr <$> mjoin (rows <$> bs)))
    /\ mjoin (rows <$> bs') ≡ₚ mjoin (rows <$> bs) /\ Forall (fun b => rows b <> []) bs'.
Proof.
  intros Hc Hb Hl. unfold sample_column, new_sample. rewrite (proj2 (Z.eqb_neq _ _) Hc). cbn [mbind option_bind].
  set (size := if _ <? 1 then 1 else _). unfold new_sorter. rewrite add_batches. cbn [app].
  destruct (full_sort comp (reset <$> bs)) as (h & -> & Hr & P).
  { apply Forall_fmap. eapply Forall_impl; [exact Hb|]. done. }
  assert (mjoin (rows <$> (reset <$> bs)) = mjoin (rows <$> bs)) as Er by (by rewrite <- list_fmap_compose). rewrite Er in P.
  cbn [mbind option_bind]. destruct (ready_delivers comp cap Hcap h 0 Hr) as (l & D & Sl & Pl). rewrite P in Pl.
  destruct (loop_delivers pct (mk_sorter h 0) l (mk_sample (new_ExprValue NULL_TYPE) 0 [] 0 0 size) [] (sample_fuel bs))
    as (bs' & -> & Ej & Hb'); [done|unfold sample_fuel; rewrite Pl; lia|done|]. cbn [mbind option_bind].
  assert (Hv : Forall (fun v => is_null v = true \/ in_column t v) (expr <$> l)) by (apply Forall_fmap, Forall_forall; intros r _; apply Hexpr).
  assert (Hll : Z.of_nat (length (expr <$> l)) < 2 ^ 31) by (rewrite length_fmap, Pl; done).
  pose proof (length_filter (fun v => is_null v = false) (expr <$> l)).
  pose proof (sample_values t pct size (expr <$> l) Hv (sorted_values l Sl) Hll) as I.
  apply (insert_done_describes t pct) in I as (HB & Hd & Hn); [|apply Forall_forall; intros x [Hx1 Hx2]%list_elem_of_filter;
    destruct (proj1 (Forall_forall _ _) Hv x Hx2); [congruence|done]|unfold values; lia].
  assert (Pv : values (expr <$> l) ≡ₚ values (expr <$> mjoin (rows <$> bs))) by (unfold values; by rewrite Pl).
  eexists _, bs', _. split; [reflexivity|]. split; [reflexivity|]. split_and!.
  - by apply (describes_perm _ _ _ Pv).
  - cbn. by rewrite Hd, Pv.
  - cbn. rewrite Hn. unfold nulls. by rewrite Pl.
  - cbn in Ej. by rewrite Ej, Pl.
  - done.
Qed.

(** C24. The histogram of a sample: for rows in batches of any sizes, packing a column gives the
    number of nulls and of different values, and buckets one behind the other that together hold
    every value, each with the number of rows and of different values between its ends; the
    rows are handed on to the next column. *)
Theorem histogram_exact count pct bs :
  count <> 0 -> Forall (fun b => rows b <> []) bs -> Z.of_nat (length (mjoin (rows <$> bs))) < 2 ^ 31 ->
  exists info bs' B, sample_column count pct cap expr bs = Some (info, bs')
    /\ info_buckets info = bucket_to_proto <$> B
    /\ describes B (values (expr <$> mjoin (rows <$> bs)))
    /\ info_distinct_cnt info = distinct (values (expr <$> mjoin (rows <$> bs)))
    /\ info_null_value_cnt info = Z.of_nat (nulls (expr <$> mjoin (rows <$> bs)))
    /\ mjoin (rows <$> bs') ≡ₚ mjoin (rows <$> bs) /\ Forall (fun b => rows b <> []) bs'.
Proof. apply sample_describes. Qed.

End Pack.

(** ** Reading *)

Section Read.
Context `{Host, RoaringLib} (t : PrimitiveType).
Implicit Types (b : BucketInfo) (B : list BucketInfo) (vs : list ExprValue).

#[local] Instance no_hash : Murmur := fun _ _ => 0.

Lemma sent_value u0 v p :
  value_ok v -> in_column t v -> in_column t (from_proto u0 (to_proto v p)) /\ sem_of (from_proto u0 (to_proto v p)) = sem_of v.
Proof.
  intros Hv [Ht [a Ea]].
  assert (type v <> BITMAP /\ type v <> HLL) as [Hb Hh] by (split; intros E; unfold denote in Ea; by rewrite E in Ea).
  destruct (proto_roundtrip 0 u0 v p Hv Hb Hh) as (Et & Hu & Hs & _). set (v' := from_proto u0 _) in *.
  assert (Hr : u_read (member_width (type v)) v' = u_read (member_width (type v)) v) by (unfold u_read; by rewrite Hu).
  assert (denote v' = denote v) as Ed.
  { unfold denote, int8_val, int16_val, int32_val, int64_val, float_val, double_val in *. rewrite Et.
    destruct (type v); cbn [member_width] in *; rewrite ?Hr; try done; by rewrite Hs. }
  unfold in_column, sem_of. rewrite Ed, Et. split; [split; [done|by eexists]|done].
Qed.

(** Buckets in order whose ends are values of the column, with the counts of [vs]. *)
Definition counts vs b : Prop :=
  in_column t (start b) /\ in_column t (end_ b) /\ compare (start b) (end_ b) <= 0
  /\ bucket_size b = Z.of_nat (length (filter (within b) vs)) /\ distinct_cnt b = distinct (filter (within b) vs).

Definition covers B vs : Prop :=
  StronglySorted (fun b b' => compare (end_ b) (start b') < 0) B /\ Forall (counts vs) B
  /\ forall v, v ∈ vs -> exists b, b ∈ B /\ within b v.

Definition loaded (u0 : bytes) b : BucketInfo := bucket_of_proto u0 (bucket_to_proto b).

Lemma compare_same x y x' y' :
  in_column t x -> in_column t y -> in_column t x' -> in_column t y' -> sem_of x = sem_of x' -> sem_of y = sem_of y' ->
  Z.sgn (compare x y) = Z.sgn (compare x' y').
Proof.
  intros Hx Hy Hx' Hy' Ex Ey. assert (int_cmp (compare x y) = int_cmp (compare x' y')) as E
    by (rewrite !(compare_sem t) by done; by rewrite Ex, Ey).
  unfold int_cmp in E. destruct (Z.compare_spec (compare x y) 0), (Z.compare_spec (compare x' y') 0); done || lia.
Qed.

Lemma sent_in vs u0 v :
  Forall (in_column t) vs -> Forall value_ok vs -> v ∈ vs ->
  in_column t v /\ in_column t (from_proto u0 (to_proto v pb_default)) /\ sem_of (from_proto u0 (to_proto v pb_default)) = sem_of v.
Proof.
  intros Hc Hok Hv. pose proof (proj1 (Forall_forall _ _) Hc v Hv). split; [done|].
  apply sent_value; [by apply (proj1 (Forall_forall _ _) Hok)|done].
Qed.

Lemma loaded_within u0 vs b v :
  Forall (in_column t) vs -> Forall value_ok vs -> bucket_ok vs b -> v ∈ vs -> within (loaded u0 b) v <-> within b v.
Proof.
  intros Hc Hok (Hst & Hen & _) Hv. pose proof (fun v => sent_in vs u0 v Hc Hok) as Hsent.
  destruct (Hsent _ Hst) as (? & ? & ?), (Hsent _ Hen) as (? & ? & ?), (Hsent _ Hv) as (? & _ & _).
  pose proof (compare_same (start (loaded u0 b)) v (start b) v ltac:(done) ltac:(done) ltac:(done) ltac:(done) ltac:(done) eq_refl).
  pose proof (compare_same v (end_ (loaded u0 b)) v (end_ b) ltac:(done) ltac:(done) ltac:(done) ltac:(done) eq_refl ltac:(done)).
  unfold within. lia.
Qed.

(** What is loaded from the message of a histogram. *)
Lemma loaded_covers u0 B vs :
  Forall (in_column t) vs -> Forall value_ok vs -> describes B vs -> covers (loaded u0 <$> B) vs.
Proof.
  intros Hc Hok (Hs & Hb & Hall).
  pose proof (fun v => sent_in vs u0 v Hc Hok) as Hsent. pose proof (fun b v => loaded_within u0 vs b v Hc Hok) as Hw.
  split_and!.
  - clear Hall Hw. induction Hs as [|b B Hs IH Hlt]; [constructor|]. apply Forall_cons in Hb as [Hb1 Hb]. cbn. constructor; [by apply IH|].
    apply Forall_fmap, Forall_forall. intros b' Hb'. cbn. pose proof (proj1 (Forall_forall _ _) Hlt b' Hb') as Hl. cbn in Hl.
    destruct Hb1 as (_ & Hen & _), (proj1 (Forall_forall _ _) Hb b' Hb') as (Hst & _).
    destruct (Hsent _ Hen) as (? & ? & ?), (Hsent _ Hst) as (? & ? & ?).
    pose proof (compare_same (end_ (loaded u0 b)) (start (loaded u0 b')) (end_ b) (start b')
      ltac:(done) ltac:(done) ltac:(done) ltac:(done) ltac:(done) ltac:(done)) as E. cbn in E. lia.
  - apply Forall_fmap. eapply Forall_impl; [exact Hb|]. intros b Hok'. pose proof Hok' as (Hst & Hen & Hse & Hsz & Hd). cbn.
    destruct (Hsent _ Hst) as (? & ? & ?), (Hsent _ Hen) as (? & ? & ?).
    assert (filter (within (loaded u0 b)) vs = filter (within b) vs) as Ef by (apply filter_same; intros; by apply Hw).
    pose proof (compare_same (start (loaded u0 b)) (end_ (loaded u0 b)) (start b) (end_ b)
      ltac:(done) ltac:(done) ltac:(done) ltac:(done) ltac:(done) ltac:(done)) as E.
    unfold counts. rewrite Ef. split_and!; [done..|lia|done|done].
  - intros v Hv. destruct (Hall v Hv) as (b & Hin & Hwb). exists (loaded u0 b). split; [by apply list_elem_of_fmap_2|].
    apply Hw; [by apply (proj1 (Forall_forall _ _) Hb)|done|done].
Qed.

(** The map holds the buckets in their order. *)
Lemma map_put_last key b m : Forall (fun e => compare e.1 key < 0) m -> map_put key b m = m ++ [(key, b)].
Proof.
  induction 1 as [|[k x] m Hk _ IH]; [done|]. cbn [map_put fst] in *. rewrite (proj2 (Z.ltb_lt _ _) Hk). by rewrite IH.
Qed.

Lemma covers_starts B vs : covers B vs -> StronglySorted (fun b b' => compare (start b) (start b') < 0) B.
Proof.
  intros (Hs & Hc & _). induction Hs as [|b B Hs IH Hlt]; [constructor|]. apply Forall_cons in Hc as [(Hst & Hen & Hse & _) Hc].
  constructor; [by apply IH|]. apply Forall_forall. intros b' Hb'. pose proof (proj1 (Forall_forall _ _) Hlt b' Hb') as Hl. cbn in Hl.
  destruct (proj1 (Forall_forall _ _) Hc b' Hb') as (Hst' & _).
  destruct (compare_trans t (start b) (end_ b) (start b')) as (_ & _ & T); [done..|]. by apply T.
Qed.

Lemma put_all B B0 :
  StronglySorted (fun b b' => compare (start b) (start b') < 0) (B0 ++ B) ->
  foldl (fun m b => map_put (start b) b m) ((fun b => (start b, b)) <$> B0) B = (fun b => (start b, b)) <$> (B0 ++ B).
Proof.
  revert B0. induction B as [|b B IH]; intros B0 Hs; [by rewrite app_nil_r|]. cbn [foldl]. rewrite map_put_last.
  - replace (((fun b => (start b, b)) <$> B0) ++ [(start b, b)]) with ((fun b => (start b, b)) <$> (B0 ++ [b])) by (by rewrite fmap_app).
    rewrite IH by (by rewrite <- app_assoc). by rewrite <- app_assoc.
  - apply Forall_fmap, Forall_forall. intros b' Hb'. cbn. by apply (StronglySorted_app_1_elem_of _ _ _ b' b Hs Hb'); left.
Qed.

Lemma load_mapping u0 info B vs :
  info_buckets info = bucket_to_proto <$> B -> covers (loaded u0 <$> B) vs ->
  bucket_mapping (load_histogram u0 info) = (fun b => (start b, b)) <$> (loaded u0 <$> B).
Proof.
  intros Ei Hc. unfold load_histogram. cbn [bucket_mapping]. rewrite Ei.
  pose proof (put_all (loaded u0 <$> B) [] (covers_starts _ _ Hc)) as E. cbn in E. rewrite <- E. clear.
  assert (forall m, foldl (fun m p => map_put (start (bucket_of_proto u0 p)) (bucket_of_proto u0 p) m) m (bucket_to_proto <$> B)
    = foldl (fun m b => map_put (start b) b m) m (loaded u0 <$> B)) as E; [|apply E].
  induction B as [|b B IH]; intros m; [done|]. cbn. apply IH.
Qed.

(** Every value lies in one bucket. *)
Lemma one_bucket B v :
  in_column t v -> Forall (fun b => in_column t (start b) /\ in_column t (end_ b) /\ compare (start b) (end_ b) <= 0) B ->
  StronglySorted (fun b b' => compare (end_ b) (start b') < 0) B -> (exists b, b ∈ B /\ within b v) ->
  sum_list_with (fun b => if decide (within b v) then 1%nat else 0%nat) B = 1%nat.
Proof.
  intros Hv Hc Hs. induction Hs as [|b B Hs IH Hlt]; intros (b0 & Hb0 & Hw0); [by apply not_elem_of_nil in Hb0|].
  apply Forall_cons in Hc as [(Hst & Hen & Hse) Hc]. cbn [sum_list_with].
  assert (Hno : within b v -> forall b', b' ∈ B -> ~ within b' v).
  { intros [_ Hw] b' Hb' [Hw' _]. pose proof (proj1 (Forall_forall _ _) Hlt b' Hb') as Hl. cbn in Hl.
    destruct (proj1 (Forall_forall _ _) Hc b' Hb') as (Hst' & _).
    destruct (compare_trans t v (end_ b) (start b')) as (_ & _ & T); [done..|].
    pose proof (compare_flip t v (start b') Hv Hst'). lia. }
  destruct (decide (within b v)) as [Hw|Hw].
  - f_equal. specialize (Hno Hw). clear -Hno. induction B as [|b' B IH]; [done|]. cbn.
    rewrite decide_False by (apply Hno; by left). apply IH. intros. apply Hno. by right.
  - apply elem_of_cons in Hb0 as [->|Hb0]; [done|]. apply IH; [done|by exists b0].
Qed.

Lemma covers_sum B vs :
  Forall (in_column t) vs -> covers B vs -> sum_list_with (fun b => length (filter (within b) vs)) B = length vs.
Proof.
  intros Hv (Hs & Hc & Hall).
  assert (Hc' : Forall (fun b => in_column t (start b) /\ in_column t (end_ b) /\ compare (start b) (end_ b) <= 0) B)
    by (eapply Forall_impl; [exact Hc|]; by intros b (? & ? & ? & _)). clear Hc.
  induction Hv as [|v vs Hv _ IH]; [clear; by induction B|].
  transitivity (sum_list_with (fun b => if decide (within b v) then 1%nat else 0%nat) B
                + sum_list_with (fun b => length (filter (within b) vs)) B)%nat.
  - clear. induction B as [|b B IH]; [done|]. cbn [sum_list_with]. rewrite IH, filter_cons. destruct (decide _); cbn; lia.
  - rewrite one_bucket, IH; [done|intros; apply Hall; by right|done..|]. apply Hall. by left.
Qed.

Context `{Zone} (now : Z).

(** Buckets that lie between the ends count fully. *)
Lemma count_all lower upper L n :
  Forall (fun b => compare lower (start b) <= 0 /\ compare lower (end_ b) <= 0 /\ 0 <= compare upper (end_ b) /\ 0 <= bucket_size b) L ->
  0 <= n -> n + foldr Z.add 0 (bucket_size <$> L) < 2 ^ 31 ->
  count_down now lower upper L n = Some (n + foldr Z.add 0 (bucket_size <$> L)).
Proof.
  intros HL. revert n. induction HL as [|b L (H1' & H2' & H3' & H4') HL IH]; intros n Hn Hb; [cbn; f_equal; lia|].
  assert (0 <= foldr Z.add 0 (bucket_size <$> L)).
  { clear -HL. induction HL as [|b L (_ & _ & _ & ?) _ IH]; cbn in *; lia. }
  cbn [count_down fmap list_fmap foldr] in *. rewrite (proj2 (Z.ltb_ge 0 _)) by lia. unfold calc_scalar at 1.
  rewrite (proj2 (Z.leb_le _ 0)), (proj2 (Z.leb_le 0 _)) by lia. cbn [andb mbind option_bind].
  rewrite (proj2 (Z.ltb_ge (bucket_size b) 0)) by lia. rewrite swrap_id by (lia || unfold is_i; lia).
  fold (bucket_size <$> L). rewrite IH by lia. f_equal. lia.
Qed.

Lemma sizes_sum B vs : Forall (counts vs) B ->
  foldr Z.add 0 (bucket_size <$> B) = Z.of_nat (sum_list_with (fun b => length (filter (within b) vs)) B).
Proof.
  induction 1 as [|b B (_ & _ & _ & E & _) _ IH]; [done|]. rewrite fmap_cons. cbn [foldr sum_list_with]. rewrite E, IH. lia.
Qed.

Lemma up_to_all value B : Forall (fun b => 0 <= compare value (start b)) B ->
  up_to_value value ((fun b => (start b, b)) <$> B) = B.
Proof. induction 1 as [|b B Hb _ IH]; [done|]. cbn. rewrite (proj2 (Z.ltb_ge _ 0)) by lia. f_equal. exact IH. Qed.

Lemma up_to_some value B1 b B2 :
  Forall (fun b => 0 <= compare value (start b)) (B1 ++ [b]) -> Forall (fun b => compare value (start b) < 0) B2 ->
  up_to_value value ((fun b => (start b, b)) <$> (B1 ++ b :: B2)) = B1 ++ [b].
Proof.
  intros H1' H2'. induction B1 as [|x B1 IH]; cbn in *.
  - apply Forall_cons in H1' as [Hb _]. rewrite (proj2 (Z.ltb_ge _ 0)) by lia. f_equal.
    destruct H2' as [|y B2 Hy _]; [done|]. cbn. by rewrite (proj2 (Z.ltb_lt _ _) Hy).
  - apply Forall_cons in H1' as [Hb H1']. rewrite (proj2 (Z.ltb_ge _ 0)) by lia. f_equal. by apply IH.
Qed.

Lemma bucket_before vs x y v :
  in_column t v -> counts vs x -> counts vs y -> compare (end_ x) (start y) < 0 ->
  (within y v -> 0 <= compare v (start x)) /\ (within x v -> compare v (start y) < 0 /\ compare v (end_ y) <= 0).
Proof.
  intros Hv (Sx & Ex & Hx & _) (Sy & Ey & Hy & _) Hlt. pose proof (compare_flip t v (start x) Hv Sx).
  destruct (compare_trans t (start x) (end_ x) (start y) Sx Ex Sy) as (_ & _ & T1).
  destruct (compare_trans t (start x) (start y) v Sx Sy Hv) as (_ & T2 & _).
  destruct (compare_trans t v (end_ x) (start y) Hv Ex Sy) as (_ & _ & T3).
  destruct (compare_trans t v (start y) (end_ y) Hv Sy Ey) as (_ & T4 & _).
  unfold within. split; [intros [? _]|intros [_ ?]]; lia.
Qed.

Lemma bucket_itself vs x v : in_column t v -> counts vs x -> within x v -> 0 <= compare v (start x).
Proof. intros Hv (Sx & _) [Hw _]. pose proof (compare_flip t v (start x) Hv Sx). lia. Qed.

(** A value counts as the mean of its bucket. *)
Lemma value_count B vs h v :
  bucket_mapping h = (fun b => (start b, b)) <$> B -> covers B vs -> in_column t v -> v ∈ vs ->
  exists b, b ∈ B /\ within b v /\ get_count_value h v = Some (Z.quot (bucket_size b) (distinct_cnt b)).
Proof.
  intros Eh (Hs & Hc & Hall) Hv Hin. destruct (Hall v Hin) as (b & Hb & Hw). exists b. split_and!; [done..|].
  apply list_elem_of_split in Hb as (B1 & B2 & ->). apply StronglySorted_app in Hs as (Hcross & _ & Hs2).
  apply StronglySorted_inv in Hs2 as [_ Hs2]. apply Forall_app in Hc as [Hc1 Hc2]. apply Forall_cons in Hc2 as [Hcb Hc2].
  assert (HB1 : forall x, x ∈ B1 -> 0 <= compare v (start x)).
  { intros x Hx. apply (bucket_before vs x b v); [done|by apply (proj1 (Forall_forall _ _) Hc1)|done|by apply Hcross; [|left]|done]. }
  assert (HB2 : forall x, x ∈ B2 -> compare v (start x) < 0 /\ compare v (end_ x) <= 0).
  { intros x Hx. apply (bucket_before vs b x v); [done|done|by apply (proj1 (Forall_forall _ _) Hc2)|by apply (proj1 (Forall_forall _ _) Hs2)|done]. }
  pose proof (bucket_itself vs b v Hv Hcb Hw) as Hbv.
  assert (exists f, first_bucket h = Some f /\ 0 <= compare v (start f)) as (f & Ef & Hf).
  { unfold first_bucket. rewrite Eh. destruct B1 as [|x B1]; cbn; eexists; (split; [done|]); [done|]. apply HB1. by left. }
  assert (exists g, last_bucket h = Some g /\ compare v (end_ g) <= 0) as (g & Eg & Hg).
  { unfold last_bucket. rewrite Eh, fmap_last, last_app_cons. destruct (last (b :: B2)) as [x|] eqn:El; [|by apply last_None in El].
    cbn. exists x. split; [done|]. apply last_Some_elem_of in El. apply elem_of_cons in El as [->|Hx]; [apply Hw|by apply HB2]. }
  unfold get_count_value. rewrite Ef, Eg, (column_not_null t v Hv).
  rewrite (proj2 (Z.ltb_ge 0 (compare v (end_ g)))), (proj2 (Z.ltb_ge (compare v (start f)) 0)) by lia. cbn [orb].
  rewrite Eh, up_to_some; [|apply Forall_app; split; [by apply Forall_forall|by apply Forall_singleton]|apply Forall_forall; intros x Hx; by apply HB2].
  rewrite last_snoc. destruct Hw as [Hw1 Hw2].
  rewrite (proj2 (Z.ltb_ge 0 (compare v (end_ b)))), (proj2 (Z.ltb_ge (compare v (start b)) 0)) by lia. cbn [orb].
  destruct Hcb as (_ & _ & _ & _ & Hd). rewrite (proj2 (Z.eqb_neq (distinct_cnt b) 0)); [done|]. rewrite Hd.
  destruct (distinct_bounds (filter (within b) vs)) as [_ Hone]. assert (v ∈ filter (within b) vs) by (by apply list_elem_of_filter).
  specialize (Hone ltac:(intros E; rewrite E in *; by eapply not_elem_of_nil)). lia.
Qed.

Lemma between_ends vs B f g :
  StronglySorted (fun b b' => compare (end_ b) (start b') < 0) (f :: B) -> Forall (counts vs) (f :: B) -> last (f :: B) = Some g ->
  forall b, b ∈ f :: B -> compare (start f) (start b) <= 0 /\ compare (start f) (end_ b) <= 0
    /\ 0 <= compare (end_ g) (end_ b) /\ 0 <= compare (end_ g) (start b).
Proof.
  intros Hs Hc Eg b Hb. apply last_Some in Eg as [B0 EB].
  assert (Hcol : forall x, x ∈ f :: B -> counts vs x) by (by apply Forall_forall).
  assert (Hg : g ∈ f :: B) by (rewrite EB; set_solver).
  pose proof (Hcol b Hb) as (Sb & Eb & Hse & _). pose proof (Hcol f ltac:(by left)) as (Sf & Ef & Hf & _). pose proof (Hcol g Hg) as (Sg & Ge & Hgs & _).
  assert (H1' : compare (start f) (start b) <= 0).
  { apply elem_of_cons in Hb as [->|Hb]; [pose proof (compare_flip t (start f) (start f) Sf Sf); lia|].
    apply StronglySorted_inv in Hs as [_ Hs]. pose proof (proj1 (Forall_forall _ _) Hs b Hb) as Hl. cbn in Hl.
    destruct (compare_trans t (start f) (end_ f) (start b) Sf Ef Sb) as (_ & _ & T). lia. }
  assert (H2' : compare (end_ b) (end_ g) <= 0).
  { rewrite EB in Hb, Hs. apply elem_of_app in Hb as [Hb|Hb]; [|apply list_elem_of_singleton in Hb as ->; pose proof (compare_flip t (end_ g) (end_ g) Ge Ge); lia].
    pose proof (StronglySorted_app_1_elem_of _ _ _ b g Hs Hb ltac:(by left)) as Hl. cbn in Hl.
    destruct (compare_trans t (end_ b) (start g) (end_ g) Eb Sg Ge) as (_ & T & _). lia. }
  destruct (compare_trans t (start f) (start b) (end_ b) Sf Sb Eb) as (T1 & _ & _).
  destruct (compare_trans t (start b) (end_ b) (end_ g) Sb Eb Ge) as (T2 & _ & _).
  pose proof (compare_flip t (end_ b) (end_ g) Eb Ge). pose proof (compare_flip t (start b) (end_ g) Sb Ge). lia.
Qed.

(** A range without ends counts everything. *)
Lemma range_count B vs h lower upper :
  bucket_mapping h = (fun b => (start b, b)) <$> B -> covers B vs -> Forall (in_column t) vs -> vs <> [] ->
  Z.of_nat (length vs) < 2 ^ 31 -> is_null lower = true -> is_null upper = true ->
  get_count_range now h lower upper = Some (Z.of_nat (length vs)).
Proof.
  intros Eh Hcov Hv Hne Hl Nl Nu. pose proof Hcov as (Hs & Hc & Hall).
  destruct B as [|f B]; [destruct vs as [|v vs]; [done|]; destruct (Hall v) as (b & Hb & _); [by left|by apply not_elem_of_nil in Hb]|].
  assert (exists g, last (f :: B) = Some g) as [g Eg] by (apply last_is_Some; done).
  assert (first_bucket h = Some f) as E1 by (unfold first_bucket; by rewrite Eh).
  assert (last_bucket h = Some g) as E2 by (unfold last_bucket; by rewrite Eh, fmap_last, Eg).
  unfold get_count_range. rewrite E1, E2, Nl, Nu, Eh. pose proof (last_Some_elem_of _ _ Eg) as Hg.
  assert (Hb : forall b, b ∈ f :: B -> compare (start f) (start b) <= 0 /\ compare (start f) (end_ b) <= 0
    /\ 0 <= compare (end_ g) (end_ b) /\ 0 <= compare (end_ g) (start b)) by (by apply (between_ends vs)).
  destruct (Hb g Hg) as (_ & Hg2 & _), (Hb f ltac:(by left)) as (_ & _ & _ & Hf4).
  rewrite (proj2 (Z.ltb_ge 0 _)), (proj2 (Z.ltb_ge _ 0)) by lia. cbn [orb].
  rewrite (up_to_all (end_ g) (f :: B)) by (apply Forall_forall; intros b Hin; by apply Hb).
  assert (Esum : foldr Z.add 0 (bucket_size <$> rev (f :: B)) = Z.of_nat (length vs)).
  { rewrite <- (covers_sum (f :: B) vs Hv Hcov), <- (sizes_sum (f :: B) vs Hc). apply foldr_permutation_proper; try apply _; [lia|].
    by rewrite <- Permutation_rev. }
  rewrite count_all, Esum; [done| |lia|rewrite Esum; lia]. apply Forall_forall. intros b Hin.
  rewrite <- Permutation_rev in Hin. destruct (Hb b Hin) as (? & ? & ? & _). split_and!; [done..|].
  destruct (proj1 (Forall_forall _ _) Hc b Hin) as (_ & _ & _ & -> & _). lia.
Qed.

End Read.

(** ** Counting from a sample *)

Section Counts.
Context `{Host, RoaringLib, Zone} (now : Z) (t : PrimitiveType).
Context {Row : Type} `{StdSortLaws} (cap : nat) (expr : Row -> ExprValue).

(** C32. Counting with a histogram: when the message of a packed column is loaded, the count of the
    range without ends is the number of values in the sample, and the count of a value that
    occurs in it is the number of rows between two ends around it divided by the number of
    different values there. *)
Theorem histogram_counts u0 count pct (bs : list (RowBatch Row)) lower upper :
  0 < Z.of_nat cap < 2 ^ 31 -> (forall row, is_null (expr row) = true \/ in_column t (expr row) /\ value_ok (expr row)) ->
  count <> 0 -> Forall (fun b => rows b <> []) bs -> Z.of_nat (length (mjoin (rows <$> bs))) < 2 ^ 31 ->
  values (expr <$> mjoin (rows <$> bs)) <> [] -> is_null lower = true -> is_null upper = true ->
  let vs := values (expr <$> mjoin (rows <$> bs)) in
  exists info bs', sample_column count pct cap expr bs = Some (info, bs')
    /\ get_count_range now (load_histogram u0 info) lower upper = Some (Z.of_nat (length vs))
    /\ forall v, v ∈ vs -> exists lo hi, lo ∈ vs /\ hi ∈ vs /\ compare lo v <= 0 /\ compare v hi <= 0
         /\ let inside := filter (fun x => compare lo x <= 0 /\ compare x hi <= 0) vs in
            get_count_value (load_histogram u0 info) v = Some (Z.quot (Z.of_nat (length inside)) (distinct inside)).
Proof.
  intros Hcap He Hc Hb Hl Hne Nl Nu vs.
  assert (He' : forall row, is_null (expr row) = true \/ in_column t (expr row)) by (intros row; destruct (He row) as [|[]]; tauto).
  destruct (sample_describes t cap Hcap expr He' count pct bs Hc Hb Hl) as (info & bs' & B & E & Ei & HB & _).
  exists info, bs'. split; [done|]. fold vs in HB, Hne.
  assert (Hv : forall v, v ∈ vs -> in_column t v /\ value_ok v).
  { intros v [Nv Hv]%list_elem_of_filter. apply list_elem_of_fmap in Hv as (row & -> & _). destruct (He row); [congruence|done]. }
  assert (Hcol : Forall (in_column t) vs) by (apply Forall_forall; intros; by apply Hv).
  pose proof (loaded_covers t u0 B vs Hcol ltac:(apply Forall_forall; intros; by apply Hv) HB) as Hcov.
  pose proof (load_mapping t u0 info B vs Ei Hcov) as Em. split.
  - apply (range_count t now _ vs _ lower upper Em Hcov Hcol Hne); [|done|done].
    unfold vs, values. pose proof (length_filter (fun v => is_null v = false) (expr <$> mjoin (rows <$> bs))) as Hf.
    rewrite length_fmap in Hf. lia.
  - intros v Hin. destruct (value_count t _ vs _ v Em Hcov) as (b' & Hb' & Hw & Ev); [by apply Hv|done|].
    apply list_elem_of_fmap in Hb' as (b & -> & Hbin). destruct HB as (_ & Hok & _).
    pose proof (proj1 (Forall_forall _ _) Hok b Hbin) as (Hst & Hen & _ & Hsz & Hd).
    exists (start b), (end_ b). assert (Hw' : within b v) by (apply (loaded_within t u0 vs b v); [done|apply Forall_forall; intros; by apply Hv|by apply (proj1 (Forall_forall _ _) Hok)|done|done]).
    destruct Hw' as [? ?]. split_and!; [done..|]. cbn zeta. rewrite Ev. unfold loaded. cbn [bucket_of_proto bucket_to_proto bucket_size distinct_cnt pb_bucket_size pb_distinct_cnt].
    by rewrite Hsz, Hd.
Qed.

End Counts.

(** ** Instances *)

#[local] Instance machine : Host := le_host.
#[local] Instance bitmaps : RoaringLib := no_bitmaps.
#[local] Instance utc : Zone := fixed_zone 0.
#[local] Existing Instance insertion_sort.
#[local] Existing Instance insertion_sort_laws.

(** A column of integers that may be null. *)
Definition sample_expr (r : option Z) : ExprValue :=
  match r with Some z => number INT64 z | None => new_ExprValue NULL_TYPE end.

Definition sample_batches : list (RowBatch (option Z)) :=
  [mk_batch [Some 3; None; Some 1] 0 4; mk_batch [Some 1; Some 2] 0 4].

Lemma sample_expr_column row : is_null (sample_expr row) = true \/ in_column INT64 (sample_expr row).
Proof. destruct row as [z|]; [right|by left]. split; [done|by eexists]. Qed.

Lemma histogram_exact_witness :
  exists info bs' B, sample_column 100 50 2 sample_expr sample_batches = Some (info, bs')
    /\ info_buckets info = bucket_to_proto <$> B
    /\ describes B (values (sample_expr <$> [Some 3; None; Some 1; Some 1; Some 2]))
    /\ info_null_value_cnt info = 1.
Proof.
  destruct (histogram_exact INT64 2 ltac:(lia) sample_expr sample_expr_column 100 50 sample_batches)
    as (info & bs' & B & E & Ei & HB & _ & Hn & _); [lia|by repeat constructor|cbn; lia|].
  by exists info, bs', B.
Defined.

Lemma histogram_counts_witness :
  exists info bs', sample_column 100 50 2 sample_expr sample_batches = Some (info, bs')
    /\ get_count_range 0 (load_histogram [] info) (new_ExprValue NULL_TYPE) (new_ExprValue NULL_TYPE) = Some 4.
Proof.
  destruct (histogram_counts 0 INT64 2 sample_expr [] 100 50 sample_batches (new_ExprValue NULL_TYPE) (new_ExprValue NULL_TYPE))
    as (info & bs' & E & Ec & _); [lia| |lia|by repeat constructor|cbn; lia|done|done|done|].
  - intros row. destruct (sample_expr_column row) as [|Hc]; [by left|right]. split; [done|]. destruct row; [by apply number_ok|by destruct Hc].
  - by exists info, bs'.
Defined.

(** ** Departures *)

(** A field without a histogram has -1 different values, and the share of one of its values is -1. *)
Example negative_ratio :
  get_cmsketch_ratio 1 (number INT64 5) (mk_statistics 10 10 ∅ ∅) = Some (f64_of_Z (-1)).
Proof. vm_compute. reflexivity. Qed.

(** A column of nulls has no different values: the share of a value is infinite. *)
Example infinite_ratio :
  get_cmsketch_ratio 1 (number INT64 5) (mk_statistics 10 10 {[ 1 := mk_histogram 0 10 [] ]} ∅) = Some f64_inf.
Proof. vm_compute. reflexivity. Qed.
